(* ===== verification/_CoqProject ===== *)
-Q . S2P
Prelude.v
Float64.v
Domain.v
Text.v
Strconv.v
Json.v
CircuitBreaker.v
MethodBlock.v
ResponseCache.v
BlockConsensus.v
QosSelector.v
RelayChain.v
StateM.v
Redis.v
FeatureFlag.v
Override.v
Tuning.v
RelayErrors.v
Heuristic.v
Message.v
Retry.v
RepSelector.v
Drain.v
ScoreSink.v
AutoDrain.v
Blocklist.v
Timeline.v
Rate.v
Pricing.v
RepService.v
Refresh.v
RepStorage.v
Stages.v
Grade.v
Hedge.v
Batch.v
Quorum.v
Flight.v
HostMemory.v
EvmRequest.v
Evm.v
DupWindow.v
Subscription.v
Cosmos.v
