(* ===== verification/Prelude.v ===== *)
(** * SAGE: a verification development of the gateway's core logic

    SAGE is a relay gateway: a client's RPC request passes through a chain of
    middlewares ([relay/]), an endpoint is chosen for it, the relay is sent and
    its outcome is scored.  The parts that decide which endpoint serves a
    request, and that remember how endpoints behaved, are modelled here as
    executable definitions, one file per part:

    - [Float64]: Go's [float64] as IEEE-754 binary64 ([SpecFloat] at 53/1024).
    - [Domain]: [domain/endpoint.go], [domain/owner.go].  Addresses, the
      memoized operator, the owner and tenancy tables, parties, affiliates.
    - [Text], [Strconv]: what the source uses of [strings], [strconv],
      [time.ParseDuration] and [unicode/utf8].
    - [Json]: the scanner of [encoding/json] with [Valid], [Compact] and the
      escaping [Marshal] does, as the stages use them.
    - [StateM]: the state monad the longer handlers are written in, its weakest
      precondition, and computations that only read or only move forward.
    - [Redis]: the commands the flag and override stores send, and what Redis
      documents of a server that answers.
    - [CircuitBreaker]: [circuitbreaker/breaker.go].  Failure gate, marks with
      growing lifetimes, clears, the merge of what other replicas wrote to
      Redis, and the interleavings of concurrent marks.
    - [MethodBlock]: [methodblock/store.go].  Per-host, per-method marks and
      their escalation to a host block.
    - [ResponseCache]: [responsecache/cache.go].  The LRU cache with its list,
      map and byte accounting.
    - [BlockConsensus]: [qos/blockheight.go], [qos/blockconsensus.go],
      [qos/chainview.go].  The perceived chain head voted by parties, the
      external floor, the block rate, projections.
    - [QosSelector]: [qos/selector.go], [qos/endpointstore.go],
      [qos/heighttracking.go] and the [SelectEndpoints] of
      [qos/solana/plugin.go] composed from them.
    - [RelayChain]: [relay/handler.go], [relay/chain_order.go],
      [relay/registry.go], [relay/stages.go].  Composition of the pipeline, the
      validator of a configured order, per-stage timing.
    - [RelayErrors]: [domain/errors.go], [heuristic/result.go].  Errors and
      verdicts on an answer.
    - [Heuristic]: [heuristic/].  The verdict on a response, a frame, a gRPC
      status or a transport error, with the tables of wordings.
    - [Message]: [domain/payload.go].  Payloads and responses.
    - [Retry]: [relay/middleware/retry.go] with the guards it shares with
      [endpointfilter.go], [endpoint.go], [methodblocks.go], [timeout.go] and
      the merge of its configuration.  The whole handler over an arbitrary rest
      of the chain.
    - [Stages]: [affinity.go], [circuitbreak.go], [methodblocks.go],
      [endpoint.go] and [send.go] of [relay/middleware/].  What one attempt goes
      through, each stage over an arbitrary rest, and their composition, which
      meets what [Retry] and [Hedge] assume of the chain below them.
    - [Grade]: [heuristic.go], [score.go] and [observe.go] of
      [relay/middleware/].  The verdict an attempt gets, the signal it becomes
      and where that is reported.
    - [Hedge]: [relay/middleware/hedge.go].  The race between an attempt, its
      hedge and a third arm, as a machine whose steps are the turns of its
      [select]s and the progress of the arms.
    - [Batch]: [relay/middleware/batch.go].  The fan-out of a batch, its
      ceilings, the streamed and unstreamed merge, as a machine of goroutines
      whose every interleaving is a run ([Batch.exec]).
    - [Quorum]: [relay/middleware/quorum.go].  The ranking of operators, the
      votes over the answers in any order of arrival, the collected envelope.
    - [Flight]: [cache.go] and [singleflight.go] of [relay/middleware/].  The
      cache and coalescing stages and the key that names a request.
    - [HostMemory]: [qos/hostmemory.go].  Observations per host that age out.
    - [EvmRequest], [Evm]: [qos/evm/].  Request parsing, method tables, refusal
      and future-block verdicts, caching rules, the state canary; the plugin's
      archival marks, selection, narrowing, heights and checks, as instances of
      the interfaces [Retry] asks a plugin for.
    - [DupWindow], [Subscription]: [qos/subscription.go] and the classifiers of
      [qos/evm/subscriptions.go] and [qos/solana/subscriptions.go].  The books a
      WebSocket session keeps of its subscriptions, so that they can be placed
      again on another endpoint, and the window that tells repeats.
    - [Cosmos]: [qos/cosmos/].  The plugin of chains that speak CometBFT, REST
      and EVM at once: parsing, selection by type, height and sync, verdicts,
      heights and checks, over the stages of [QosSelector] and [Evm].
    - [FeatureFlag]: [featureflag/].  Flags and their defaults, the in-memory
      store, the Redis store with its polled snapshot.
    - [Override]: [override/store.go].  The durable map behind runtime changes,
      as an interface with laws, its two implementations and the watcher.
    - [Tuning]: [tuning/].  The knobs, their parsing and bounds, the store that
      writes through to an [Override] store and reloads from it.
    - [Blocklist]: [protocol/shannon/domain_blocklist.go], [blocklist/].  The
      compiled domain ban and the manager of its configured and admin entries.
    - [AutoDrain]: [autodrain/engine.go], [autodrain/events.go].  The engine
      that drains an operator by itself, over its rings of counters.
    - [RepSelector]: [reputation/selector.go], [reputation/concentration.go],
      [reputation/selector_spread.go].  Selection by reputation tier, the
      operator cap, the latency tie-break.
    - [Drain]: [drain/].  Operator drains in memory and the protocol that
      propagates them through Redis.
    - [ScoreSink]: [relay/scoresink.go].  One score per endpoint and batch.
    - [Timeline]: [reputation/timeline.go].  The bounded event log.
    - [Rate]: [reputation/rate.go], [reputation/opstats.go] and the lookups of
      [reputation/operator.go].  Impacts, the failure-rate curve, operator
      counters, party penalties.
    - [Pricing]: [dupshare.go], [staleshare.go], [throttleshare.go],
      [classshare.go], [trust.go], [policy.go], [partystore.go] and
      [peerparties.go] of [reputation/].  How evidence becomes a party's
      penalties, how long they outlive it, and a fleet of pods that store, adopt
      and lend them ([Pricing.step]).
    - [RepService]: [reputation/service.go], [reputation/state.go],
      [reputation/key.go].  What a signal does to a score, the effective score
      every reader sees, resets and rebases, composed with [RepSelector] (the
      scores it ranks by) and [Timeline] (the events it records).
    - [Refresh]: [refreshBaselines] of [reputation/service.go] with what it
      calls.  The walk over the scores, operator rates, votes and baselines,
      seeds, the fleet's notification counts, and the view they make.
    - [RepStorage]: [memory.go], [gated_storage.go] and [hydrate.go] of
      [reputation/].  The storage, the leader's gate, the chunked write-behind
      and how a starting pod adopts what was stored.

    ** How state and time are modelled

    A struct is a [Record], a map a [gmap], and an operation a function from
    state (and the clock reading it takes) to state and result.  A section the
    source runs under a mutex is one step.  Where a call is several critical
    sections with something else in between, the sections are separate steps
    and the theorems quantify over their interleavings: concurrent marks in
    [CircuitBreaker.Race], the commands on the wire in [Drain.step], the
    critical sections of [Blocklist.section], the arms of [Hedge.reach], the
    goroutines of [Batch.exec], the arrivals of [Quorum.wait], the pods of
    [Pricing.step].  A
    handler that calls out ([Retry], [Stages], [AutoDrain]) runs over a world of its collaborators that any
    reading may find moved.  Times
    are nanoseconds in [Z]; integers whose width matters wrap or saturate as in
    the source ([u64], [i64], [saturatingAdd]).  Random draws are an arbitrary
    stream of numbers, so a statement about a random choice holds for every
    stream.  Where Go leaves an order open (ranging over a map, an unstable
    sort) the statement holds for every order.

    ** What the theorems show

    - Refinements: the circuit breaker implements one small machine per
      (service, domain); the response cache implements one
      least-recently-used list; the ban manager, compiler and matcher implement
      one list of entries.
    - Retries: attempts are bounded and spread over endpoints, a node's own
      answer is delivered, resolutions are counted once; the composed stages
      keep the contract this rests on, so it holds of the chain itself.
    - Hedging: the first success wins under every schedule, a race ends after
      six turns at most, the hedge goes to another endpoint of the same offer
      and a deadline stays retryable.
    - Batches: every payload of a batch is answered once and in order under
      every schedule, every run ends, the ceilings hold in every state, and the
      merged body is what [json.Marshal] renders.
    - Quorums: an agreed answer has more than half of the arms behind it, from
      operators that are not affiliated, and a majority there is gets found
      whatever the order of arrival.
    - Cache and coalescing: both are transparent, as long as no two key texts
      have one hash; nobody is handed the end of a client that left.
    - EVM requests: a supplier is charged with refusing only a block it cannot
      have lost; a host that refuses a depth is avoided for an hour, unless
      that leaves one party; the canary's timestamp is read back exactly.
    - Cosmos requests: for an hour a host that pruned the height asked for is
      skipped, as long as some endpoint offered may hold it.
    - WebSocket subscriptions: over every history of frames and rebinds the
      books are exact and bounded, a notification reaches the subscription it
      answers under the name its client knows, a rebind asks again for exactly
      the live subscriptions, and a repeat within the window is caught.
    - Guards of an attempt: no filter leaves the selection without an endpoint
      reputation vouches for when there was one, and a method block sheds at
      most half of them.
    - Blame: every verdict is coherent ([Heuristic.verdicts_are_coherent]),
      grading keeps the answer it grades, and what is charged to an endpoint
      follows from a verdict that penalizes ([Grade.only_faults_are_charged]).
    - Automatic drains: their pace and caps over every history, the ring of
      counters against the reports it stands for, a released drain left alone.
    - Stores behind the admin API: what is set is found again, by another
      replica ([Blocklist.bans_reach_every_replica]), by a fresh process
      ([Tuning.overrides_survive_restart]) and by the other implementation
      ([FeatureFlag.flag_stores_agree]); what is shown is what is in force; a
      value in force is within its knob's bounds.
    - Penalties of parties: none outlives its evidence, however pods and
      instances lend them to each other; distrust lasts its day; a share is
      charged for its excess over the cleanest party's and for nothing else; the
      view charges what was priced; an operator votes once on a baseline.
    - Restarts: what a signal left on the leader is what the next pod reads.
    - Safety of selection: tiers and selectors never empty a list that had
      members, never invent a member, and serve the best tier populated;
      penalties demote an endpoint and never take it out of rotation; one
      party, however many endpoints it runs, cannot lift the perceived head
      past what the others corroborate; a client's own bad requests never
      remove a host; a released drain never comes back.
    - Invariants and bounds over every history: the cap of each table, ring
      and window, exact counters, sums and generations that do not wrap.
    - Equivalences: a one-pass scan, memo, sweep, gate or timing wrapper against
      the plain definition it stands for.
    - Exactness: the gates written in [float64] decide as the integers they
      stand for; reservoir sampling is uniform over its draws.
    - Some theorems record behaviour that differs from what the source says:
      [MethodBlock.escalation_outlives_the_ttl], [Drain.a_set_can_be_lost],
      [Retry.negative_retries_send_nothing],
      [Blocklist.narrower_entry_lifts_a_wider_ban],
      [Blocklist.unpropagated_ban_is_undone],
      [Hedge.emptied_pool_is_fetched_again], [Stages.affinity_does_not_steer],
      [Tuning.change_undone_elsewhere_is_missed],
      [Tuning.knob_bounds_have_gaps],
      [Heuristic.later_indicators_are_shadowed],
      [Grade.not_modified_is_charged],
      [Grade.unattributed_failures_are_charged],
      [Batch.one_bad_answer_spoils_the_batch], [Flight.followers_lose_the_mark],
      [Flight.batches_share_keys], [EvmRequest.overflow_charges_a_supplier],
      [EvmRequest.index_is_read_as_block],
      [EvmRequest.only_receipts_are_cached],
      [DupWindow.window_off_catches_nothing], [DupWindow.window_spans_three],
      [Subscription.rebind_merges_subscriptions],
      [Subscription.budget_is_exceeded], [Cosmos.type_filter_never_filters],
      [Cosmos.cut_height_is_misread], [Pricing.aging_repeats_in_a_second] and
      [Refresh.best_operator_is_ignored].

    ** Fuel

    The eviction loops of [ResponseCache] run with as much fuel as the list has
    elements, and the refinement theorem shows the loop has ended by then.  The
    retry loop runs with the number of attempts it is allowed, which its own
    counter enforces.  A coalesced request joins another flight for as long as
    leaders leave; the theorem says it returns as soon as one stays.  The terms of a duration are read with as much fuel as
    the text has bytes, of which each consumes one.  The SCAN loops of
    [FeatureFlag] and [Override] end when Redis says so: a loop out of fuel is
    a separate outcome, and the theorems say that against a server that answers
    some amount is enough and any larger gives the same result.

    ** What is left out

    JSON values ([gjson] and decoding into structs), the public-suffix list,
    [fmt], [net/url], [time.Parse], SHA-256, the seeded hash of [hash/maphash], what a call of x/sync's [singleflight.Do] comes to, the
    transcendental functions of [math], Redis and the network are parameters or
    commands with a result.
    Logging, metrics, HTTP handlers, configuration loading and the wiring in
    [cmd/sagegw] are not modelled, and neither are the relaying protocol
    ([protocol/shannon] other than its ban list, over an SDK that is not part
    of the repository) and the health checks.  The theorems of [RepService] hold
    for whatever view a refresh swaps in, [Refresh] says which; the operator's
    rate the automatic drains read is arbitrary.
    The counters of [AutoDrain] are unbounded, which ten minutes of traffic do
    not reach.  What could be added next: the
    health-check executor, the Redis storage of reputation.

    This file holds what the parts share: machine integers, time, two-level
    maps, list lemmas, the hint database [sage] and a few tactics. *)

From stdpp Require Export prelude gmap strings list fin_maps relations.
From Stdlib Require Export ZArith Lia.

#[global] Open Scope Z_scope.
#[export] Set Warnings "-clear-no-such-hyp".

(** ** Machine integers

    A Go [uint64] or [int64] is a [Z] together with the wrap-around the
    operation performs.  [int] is 64 bits wide on every platform the gateway
    is built for. *)
Definition max_u64 : Z := 2 ^ 64 - 1.
Definition max_i64 : Z := 2 ^ 63 - 1.
Definition min_i64 : Z := - 2 ^ 63.

Definition u64 (x : Z) : Z := x mod 2 ^ 64.
Definition i64 (x : Z) : Z := (x + 2 ^ 63) mod 2 ^ 64 - 2 ^ 63.

Definition is_u64 (x : Z) : Prop := 0 <= x <= max_u64.

Lemma u64_small x : is_u64 x -> u64 x = x.
Proof. unfold is_u64, u64, max_u64. intros. apply Z.mod_small. lia. Qed.

Lemma u64_range x : is_u64 (u64 x).
Proof. unfold is_u64, u64, max_u64. pose proof (Z.mod_pos_bound x (2 ^ 64)). lia. Qed.

Lemma i64_small x : min_i64 <= x <= max_i64 -> i64 x = x.
Proof. unfold i64, min_i64, max_i64. intros. rewrite Z.mod_small; lia. Qed.

(** ** Time

    [time.Time] is a number of nanoseconds since the Unix epoch; its zero
    value is January 1 of year 1.  [time.Duration] is a signed 64-bit number
    of nanoseconds, and [Time.Sub] saturates at its bounds. *)
Definition nanosecond : Z := 1.
Definition millisecond : Z := 1000000.
Definition second : Z := 1000000000.
Definition minute : Z := 60 * second.
Definition hour : Z := 60 * minute.

Module GoTime.
Definition zero : Z := - 62135596800 * second.
Definition IsZero (t : Z) : bool := bool_decide (t = zero).
Definition After (t u : Z) : bool := bool_decide (u < t).
Definition Before (t u : Z) : bool := bool_decide (t < u).
Definition Add (t d : Z) : Z := t + d.
Definition Sub (t u : Z) : Z := Z.max min_i64 (Z.min max_i64 (t - u)).

Lemma After_spec t u : After t u = true <-> u < t.
Proof. unfold After. by rewrite bool_decide_eq_true. Qed.
Lemma Before_spec t u : Before t u = true <-> t < u.
Proof. unfold Before. by rewrite bool_decide_eq_true. Qed.
Lemma After_false t u : After t u = false <-> t <= u.
Proof. unfold After. rewrite bool_decide_eq_false. lia. Qed.
Lemma Before_false t u : Before t u = false <-> u <= t.
Proof. unfold Before. rewrite bool_decide_eq_false. lia. Qed.

(** Saturation never turns a difference below a representable duration into
    one above it, so comparing a difference with a duration is exact. *)
Lemma Sub_le t u d : min_i64 <= d < max_i64 -> Sub t u <= d <-> t - u <= d.
Proof. unfold Sub, min_i64, max_i64. lia. Qed.
Lemma Sub_lt t u d : min_i64 < d <= max_i64 -> Sub t u < d <-> t - u < d.
Proof. unfold Sub, min_i64, max_i64. lia. Qed.
Lemma Sub_self t : Sub t t = 0.
Proof. unfold Sub, min_i64, max_i64. lia. Qed.
End GoTime.

(** ** Two-level maps

    [map\[string\]map\[string\]V] in the source: an inner map is created on
    the first write under its outer key, and reading under a missing outer key
    reads an empty map. *)
Section TwoLevel.
Context {A : Type}.
Implicit Types (m : gmap string (gmap string A)) (s d : string).

Definition lookup2 m s d : option A := m !! s ≫= (λ i, i !! d).
Definition insert2 m s d (v : A) : gmap string (gmap string A) :=
  <[s := <[d := v]> (default ∅ (m !! s))]> m.
(** [delete(m\[s\], d)]: a missing inner map makes it a no-op. *)
Definition delete2 m s d : gmap string (gmap string A) := alter (delete d) s m.

Lemma lookup2_insert2 m s d v s' d' :
  lookup2 (insert2 m s d v) s' d' =
  if decide (s = s' /\ d = d') then Some v else lookup2 m s' d'.
Proof.
  unfold lookup2, insert2. destruct (decide (s = s')) as [->|Hs].
  - rewrite lookup_insert_eq. simpl. rewrite lookup_insert.
    repeat case_decide; try naive_solver.
    by destruct (m !! s').
  - rewrite lookup_insert_ne by done. case_decide; naive_solver.
Qed.

Lemma lookup2_insert2_eq m s d v : lookup2 (insert2 m s d v) s d = Some v.
Proof. rewrite lookup2_insert2. case_decide; naive_solver. Qed.

Lemma lookup2_insert2_ne m s d v s' d' :
  s <> s' \/ d <> d' -> lookup2 (insert2 m s d v) s' d' = lookup2 m s' d'.
Proof. rewrite lookup2_insert2. case_decide; naive_solver. Qed.

Lemma lookup2_delete2 m s d s' d' :
  lookup2 (delete2 m s d) s' d' =
  if decide (s = s' /\ d = d') then None else lookup2 m s' d'.
Proof.
  unfold lookup2, delete2. rewrite lookup_alter.
  case_decide as Hs; subst.
  - destruct (m !! s') as [i|]; simpl; [|by case_decide].
    rewrite lookup_delete. repeat case_decide; naive_solver.
  - case_decide; naive_solver.
Qed.

Lemma lookup2_outer_delete m s s' d' :
  lookup2 (delete s m) s' d' = if decide (s = s') then None else lookup2 m s' d'.
Proof. unfold lookup2. rewrite lookup_delete. by case_decide. Qed.

(** The same, dropping an inner map that it empties. *)
Definition prune2 m s d : gmap string (gmap string A) :=
  match m !! s with
  | Some i => let i := delete d i in if bool_decide (size i = O) then delete s m else <[s := i]> m
  | None => m
  end.

Lemma lookup2_prune2 m s d s' d' :
  lookup2 (prune2 m s d) s' d' = if decide (s = s' /\ d = d') then None else lookup2 m s' d'.
Proof.
  rewrite <- lookup2_delete2. unfold prune2, delete2, lookup2. rewrite lookup_alter.
  destruct (decide (s = s')) as [<-|Hne]; destruct (m !! s) as [i|] eqn:Hi; simpl; rewrite ?Hi; try done.
  - case_bool_decide as Hs; [|by rewrite lookup_insert_eq]. rewrite lookup_delete_eq.
    apply map_size_empty_inv in Hs. simpl. by rewrite Hs, lookup_empty.
  - case_bool_decide; by rewrite ?lookup_delete_ne, ?lookup_insert_ne.
Qed.

Lemma lookup2_inner m s i d : m !! s = Some i -> lookup2 m s d = i !! d.
Proof. unfold lookup2. by intros ->. Qed.

Lemma lookup2_default m s d : lookup2 m s d = default ∅ (m !! s) !! d.
Proof. unfold lookup2. by destruct (m !! s). Qed.

Lemma lookup2_empty s d : lookup2 (∅ : gmap string (gmap string A)) s d = None.
Proof. done. Qed.
End TwoLevel.

(** ** Ranging over a map

    [for k, a := range m { ... acc[k] ... }] where each iteration reads and
    writes only its own key of [acc]: the iteration order cannot matter. *)
Section Range.
Context {A B : Type}.

Definition range_update (f : string -> A -> option B -> option B)
    (m : gmap string A) (acc : gmap string B) : gmap string B :=
  map_fold (λ k a acc, partial_alter (f k a) k acc) acc m.

Lemma lookup_range_update f m acc k :
  range_update f m acc !! k =
  match m !! k with Some a => f k a (acc !! k) | None => acc !! k end.
Proof.
  unfold range_update.
  apply (map_fold_weak_ind (λ r m, r !! k = match m !! k with
    | Some a => f k a (acc !! k) | None => acc !! k end)); [done|].
  intros i x m' r Hi IH. destruct (decide (i = k)) as [->|Hne].
  - rewrite lookup_partial_alter_eq, lookup_insert_eq, IH. by rewrite Hi.
  - rewrite lookup_partial_alter_ne, lookup_insert_ne by done. done.
Qed.
End Range.

(** ** Lists *)
Lemma filter_id {A} (P : A -> Prop) `{!forall x, Decision (P x)} (l : list A) :
  (forall x, x ∈ l -> P x) -> filter P l = l.
Proof.
  induction l as [|x l IH]; intros Hall; [done|].
  rewrite filter_cons_True by (apply Hall; set_solver). rewrite IH; [done|set_solver].
Qed.

Lemma filter_agree {A} (P Q : A -> Prop) `{!forall x, Decision (P x), !forall x, Decision (Q x)}
    (l : list A) :
  (forall x, x ∈ l -> P x <-> Q x) -> filter P l = filter Q l.
Proof.
  induction l as [|x l IH]; intros Hall; [done|].
  assert (P x <-> Q x) as Hx by (apply Hall; by left).
  destruct (decide (P x)).
  - rewrite !filter_cons_True by tauto. by rewrite IH by (intros; apply Hall; by right).
  - rewrite !filter_cons_False by tauto. by rewrite IH by (intros; apply Hall; by right).
Qed.

(** Removing one member of a duplicate-free list removes one element. *)
Lemma length_filter_ne {A} `{EqDecision A} (p : A) (l : list A) :
  NoDup l -> p ∈ l -> length l = S (length (filter (λ q, q <> p) l)).
Proof.
  induction 1 as [|x l Hx Hnd IH]; intros Hin; [by apply elem_of_nil in Hin|].
  apply elem_of_cons in Hin as [<-|Hin].
  - rewrite filter_cons_False by tauto. simpl. f_equal.
    rewrite filter_id; [done|]. by intros y Hy ->.
  - rewrite filter_cons_True by (by intros ->). simpl. f_equal. by apply IH.
Qed.

Lemma elem_of_length_pos {A} (x : A) (l : list A) : x ∈ l -> (0 < length l)%nat.
Proof. destruct l; [intros H; by apply elem_of_nil in H|simpl; lia]. Qed.

Lemma Forall_filter {A} (Q P : A -> Prop) `{!forall x, Decision (P x)} (l : list A) :
  Forall Q l -> Forall Q (filter P l).
Proof. rewrite !Forall_forall. intros HQ x [_ Hx]%list_elem_of_filter. by apply HQ. Qed.

Lemma fmap_filter_agree {A B} (f : A -> B) (P : A -> Prop) (Q : B -> Prop)
    `{!forall x, Decision (P x), !forall x, Decision (Q x)} (l : list A) :
  (forall x, x ∈ l -> P x <-> Q (f x)) -> f <$> filter P l = filter Q (f <$> l).
Proof.
  induction l as [|x l IH]; intros Hag; [done|]. rewrite fmap_cons.
  assert (P x <-> Q (f x)) as Hx by (apply Hag; by left).
  destruct (decide (P x)) as [Hp|Hp].
  - rewrite !filter_cons_True by tauto. rewrite fmap_cons, IH; [done|]. intros. apply Hag. by right.
  - rewrite !filter_cons_False by tauto. apply IH. intros. apply Hag. by right.
Qed.

(** ** Sizes of filtered maps *)
Section FilterSize.
Context {K A : Type} `{Countable K}.
Implicit Types (m : gmap K A).

Lemma size_map_filter (P : K * A -> Prop) `{!forall x, Decision (P x)} m :
  size (filter P m) = length (filter P (map_to_list m)).
Proof.
  rewrite <- length_map_to_list, map_filter_alt, map_to_list_to_map; [done|].
  assert (filter P (map_to_list m) `sublist_of` map_to_list m) as Hs by apply sublist_filter.
  apply (sublist_NoDup _ (map_to_list m).*1); [apply NoDup_fst_map_to_list|]. by apply fmap_sublist.
Qed.

(** A map is no larger than the sum of its parts, when every key is in one. *)
Lemma size_le_parts {B} `{EqDecision B} (f : K -> B) (l : list B) m :
  (forall k a, m !! k = Some a -> f k ∈ l) ->
  (size m <= sum_list_with (λ b, size (filter (λ p : K * A, f p.1 = b) m)) l)%nat.
Proof.
  intros Hall. rewrite <- length_map_to_list.
  assert (forall L : list (K * A), (forall p, p ∈ L -> f p.1 ∈ l) ->
    length L <= sum_list_with (λ b, length (filter (λ p : K * A, f p.1 = b) L)) l)%nat as HL.
  { induction L as [|p L IH]; intros HL; simpl; [lia|].
    assert (sum_list_with (λ b, length (filter (λ p : K * A, f p.1 = b) L)) l <
      sum_list_with (λ b, length (filter (λ p : K * A, f p.1 = b) (p :: L))) l)%nat; [|
      specialize (IH ltac:(set_solver)); lia].
    assert (f p.1 ∈ l) as Hin by (apply HL; by left). clear -Hin.
    assert (forall l', sum_list_with (λ b, length (filter (λ p : K * A, f p.1 = b) L)) l' <=
      sum_list_with (λ b, length (filter (λ p : K * A, f p.1 = b) (p :: L))) l')%nat as Hle.
    { induction l' as [|b l' IH]; simpl; [lia|]. rewrite filter_cons. case_decide; simpl; lia. }
    induction l as [|b l IH]; [by apply elem_of_nil in Hin|]. simpl. specialize (Hle l).
    apply elem_of_cons in Hin as [<-|Hin].
    - rewrite (filter_cons_True _ p) by done. simpl. lia.
    - specialize (IH Hin). rewrite (filter_cons _ p). case_decide; simpl; lia. }
  etrans; [apply HL|].
  - intros [k a] Hk%elem_of_map_to_list. by eapply Hall.
  - clear. induction l as [|b l IH]; simpl; [lia|]. rewrite size_map_filter. lia.
Qed.

(** One key more is one element more. *)
Lemma size_one_more (m m' : gmap K A) k :
  (forall k' x, m' !! k' = Some x -> k' = k \/ m !! k' = Some x) -> (size m' <= S (size m))%nat.
Proof.
  intros Hsub. assert (delete k m' ⊆ m) as Hle%map_subseteq_size.
  { apply map_subseteq_spec. intros k' x [Hne Hx]%lookup_delete_Some. naive_solver. }
  destruct (m' !! k) as [x|] eqn:E.
  - rewrite map_size_delete_Some in Hle by done. lia.
  - rewrite delete_id in Hle by done. lia.
Qed.
End FilterSize.

(** ** Automation *)
Create HintDb sage.
Create Rewrite HintDb sage.
#[export] Hint Rewrite @lookup2_insert2_eq @lookup2_empty @lookup2_inner using done : sage.
#[export] Hint Resolve u64_range u64_small i64_small : sage.

(** [go_times] turns the boolean clock tests of the source into inequalities. *)
Ltac go_times :=
  repeat match goal with
  | H : context [GoTime.After _ _ = true] |- _ => rewrite GoTime.After_spec in H
  | H : context [GoTime.After _ _ = false] |- _ => rewrite GoTime.After_false in H
  | H : context [GoTime.Before _ _ = true] |- _ => rewrite GoTime.Before_spec in H
  | H : context [GoTime.Before _ _ = false] |- _ => rewrite GoTime.Before_false in H
  | |- context [GoTime.After _ _ = true] => rewrite GoTime.After_spec
  | |- context [GoTime.After _ _ = false] => rewrite GoTime.After_false
  | |- context [GoTime.Before _ _ = true] => rewrite GoTime.Before_spec
  | |- context [GoTime.Before _ _ = false] => rewrite GoTime.Before_false
  end.

(** [split_if] performs the case analysis of the next conditional, keeping the
    tests that were passed. *)
Ltac split_if :=
  match goal with
  | |- context [if ?b then _ else _] => let E := fresh "E" in destruct b eqn:E
  | H : context [if ?b then _ else _] |- _ => let E := fresh "E" in destruct b eqn:E
  end; simplify_eq/=.

(** A sublist as long as the list is the list. *)
Lemma sublist_same_length {A} (l k : list A) : l `sublist_of` k -> length l = length k -> l = k.
Proof.
  induction 1 as [|x l k H IH|x l k H IH]; simpl; intros E; [done|f_equal; auto|].
  apply sublist_length in H. lia.
Qed.
