(* ===== verification/Float64.v ===== *)
(** * Float64: the source's [float64]

    Go's [float64] is IEEE-754 binary64 with round-to-nearest-even, which is
    [SpecFloat] at precision 53 and maximal exponent 1024: every operation
    below computes the exact bits the program computes where the compiler does
    not fuse a product and a sum (amd64).  The order lemmas go
    through [key], a lexicographic key that sorts floats the way [<] does. *)

From S2P Require Import Prelude.
From Stdlib Require Export SpecFloat.

Abbreviation f64 := spec_float.

Definition fadd : f64 -> f64 -> f64 := SFadd 53 1024.
Definition fsub : f64 -> f64 -> f64 := SFsub 53 1024.
Definition fmul : f64 -> f64 -> f64 := SFmul 53 1024.
Definition fdiv : f64 -> f64 -> f64 := SFdiv 53 1024.
Definition fopp : f64 -> f64 := SFopp.
Definition fltb : f64 -> f64 -> bool := SFltb.
Definition fleb : f64 -> f64 -> bool := SFleb.
Definition feqb : f64 -> f64 -> bool := SFeqb.

(** [float64(n)] for an integer [n]. *)
Definition of_int (n : Z) : f64 := binary_normalize 53 1024 n 0 false.
(** The constant [n/d]: one correctly rounded division of two exact integers
    is the nearest binary64 to the decimal literal it spells. *)
Definition lit (n d : Z) : f64 := fdiv (of_int n) (of_int d).

Definition f0 : f64 := S754_zero false.
Definition f1 : f64 := of_int 1.
Definition is_nan (x : f64) : bool := match x with S754_nan => true | _ => false end.

Definition is_neg0 (x : f64) : bool := match x with S754_zero true => true | _ => false end.

(** [min] and [max] builtins: NaN if either operand is, and the negative zero
    is the smaller one. *)
Definition fmin (x y : f64) : f64 :=
  if is_nan x || is_nan y then S754_nan
  else if fltb y x || (feqb x y && is_neg0 y) then y else x.
Definition fmax (x y : f64) : f64 :=
  if is_nan x || is_nan y then S754_nan
  else if fltb x y || (feqb x y && is_neg0 x) then y else x.

(** Truncation towards zero, the integer part a conversion keeps. *)
Definition ftrunc (x : f64) : option Z :=
  match x with
  | S754_zero _ => Some 0
  | S754_finite s m e =>
      Some ((if s then -1 else 1) * Z.shiftl (Zpos m) e)
  | _ => None
  end.

(** [uint64(x)].  Outside the range of the type the result is
    implementation-specific, and [oor] stands for it. *)
Definition to_uint64 (oor : f64 -> Z) (x : f64) : Z :=
  match ftrunc x with
  | Some z => if bool_decide (0 <= z <= max_u64) then z else u64 (oor x)
  | None => u64 (oor x)
  end.

(** [time.Duration.Seconds]: whole seconds plus the fraction. *)
Definition Seconds (d : Z) : f64 :=
  fadd (of_int (Z.quot d second)) (fdiv (of_int (Z.rem d second)) (of_int second)).

(** ** Order *)
Section Order.
Definition key (x : f64) : Z * Z * Z :=
  match x with
  | S754_infinity true => (-2, 0, 0)
  | S754_finite true m e => (-1, - e, Zneg m)
  | S754_zero _ | S754_nan => (0, 0, 0)
  | S754_finite false m e => (1, e, Zpos m)
  | S754_infinity false => (2, 0, 0)
  end.

Definition lex_lt (a b : Z * Z * Z) : Prop :=
  a.1.1 < b.1.1 \/ (a.1.1 = b.1.1 /\ (a.1.2 < b.1.2 \/ (a.1.2 = b.1.2 /\ a.2 < b.2))).

Lemma compare_key x y :
  match SFcompare x y with
  | None => is_nan x = true \/ is_nan y = true
  | Some Lt => is_nan x = false /\ is_nan y = false /\ lex_lt (key x) (key y)
  | Some Eq => is_nan x = false /\ is_nan y = false /\ key x = key y
  | Some Gt => is_nan x = false /\ is_nan y = false /\ lex_lt (key y) (key x)
  end.
Proof.
  destruct x as [[]|[]| |[] m1 e1], y as [[]|[]| |[] m2 e2]; unfold lex_lt; simpl;
    try (split_and!; auto; lia); auto.
  all: change (Pos.compare_cont Eq m1 m2) with (Pos.compare m1 m2).
  all: destruct (Z.compare_spec e1 e2), (Pos.compare_spec m1 m2); simpl;
    split_and!; auto; subst; auto; lia.
Qed.

Lemma fltb_spec x y :
  fltb x y = true <-> is_nan x = false /\ is_nan y = false /\ lex_lt (key x) (key y).
Proof.
  unfold fltb, SFltb. pose proof (compare_key x y) as H.
  destruct (SFcompare x y) as [[]|]; split; try done; intros (? & ? & ?);
    unfold lex_lt in *; destruct H; destruct_and?; try congruence; try lia.
  destruct (key x) as [[]], (key y) as [[]]; simplify_eq/=; lia.
Qed.

Lemma feqb_spec x y :
  feqb x y = true <-> is_nan x = false /\ is_nan y = false /\ key x = key y.
Proof.
  unfold feqb, SFeqb. pose proof (compare_key x y) as H.
  destruct (SFcompare x y) as [[]|]; split; try done; intros (? & ? & ?);
    unfold lex_lt in *; destruct (key x) as [[]], (key y) as [[]];
    destruct H; destruct_and?; simplify_eq/=; try congruence; try lia.
Qed.

Lemma fleb_spec x y : fleb x y = fltb x y || feqb x y.
Proof.
  unfold fleb, fltb, feqb, SFleb, SFltb, SFeqb. by destruct (SFcompare x y) as [[]|].
Qed.

Lemma fltb_irrefl x : fltb x x = false.
Proof.
  destruct (fltb x x) eqn:E; [|done]. apply fltb_spec in E as (_ & _ & E).
  unfold lex_lt in E. lia.
Qed.

Lemma fltb_trans x y z : fltb x y = true -> fltb y z = true -> fltb x z = true.
Proof.
  rewrite !fltb_spec. unfold lex_lt. intros (?&?&?) (?&?&?). split_and!; auto. lia.
Qed.

Lemma fltb_asym x y : fltb x y = true -> fltb y x = false.
Proof.
  intros H. destruct (fltb y x) eqn:E; [|done].
  by rewrite <- (fltb_irrefl x), <- (fltb_trans x y x).
Qed.

(** On numbers, [<] is the complement of [>=]. *)
Lemma fltb_fleb x y : is_nan x = false -> is_nan y = false -> fltb x y = negb (fleb y x).
Proof.
  intros Hx Hy. rewrite fleb_spec. unfold fltb, feqb, SFltb, SFeqb.
  pose proof (compare_key x y) as H1. pose proof (compare_key y x) as H2.
  unfold lex_lt in *. destruct (key x) as [[]], (key y) as [[]].
  destruct (SFcompare x y) as [[]|], (SFcompare y x) as [[]|]; simplify_eq/=; try done;
    destruct_and?; destruct_or?; simplify_eq; destruct_and?; try congruence; lia.
Qed.

Lemma fleb_key x y :
  fleb x y = true <-> is_nan x = false /\ is_nan y = false /\ ~ lex_lt (key y) (key x).
Proof.
  rewrite fleb_spec, orb_true_iff, fltb_spec, feqb_spec. unfold lex_lt.
  destruct (key x) as [[]], (key y) as [[]]; cbn. split.
  - intros [(?&?&?)|(?&?&[= -> -> ->])]; split_and!; auto; lia.
  - intros (?&?&Hn). destruct (decide (lex_lt (z, z0, z1) (z2, z3, z4))) as [Hl|Hl].
    + left. split_and!; auto.
    + right. unfold lex_lt in Hl. cbn in Hl. split_and!; auto. repeat f_equal; lia.
Qed.
Lemma fleb_refl x : is_nan x = false -> fleb x x = true.
Proof. intros. apply fleb_key. split_and!; auto. unfold lex_lt. lia. Qed.
Lemma fleb_trans x y z : fleb x y = true -> fleb y z = true -> fleb x z = true.
Proof.
  rewrite !fleb_key. unfold lex_lt. intros (?&?&?) (?&?&?). split_and!; auto. lia.
Qed.
Lemma fltb_le_false x y : fleb x y = true -> fltb y x = false.
Proof.
  intros (?&?&Hn)%fleb_key. destruct (fltb y x) eqn:E; [|done]. apply fltb_spec in E as (_&_&?). done.
Qed.
Lemma fltb_false_fleb x y :
  is_nan x = false -> is_nan y = false -> fltb x y = false -> fleb y x = true.
Proof. intros Hx Hy H. rewrite (fltb_fleb x y Hx Hy) in H. by destruct (fleb y x). Qed.
Lemma fltb_fleb_weak x y : fltb x y = true -> fleb x y = true.
Proof. intros H. by rewrite fleb_spec, H. Qed.

(** Equal numbers are the same number, zeros apart. *)
Lemma feqb_eq x y : feqb x y = true -> feqb y f0 = false -> x = y.
Proof.
  intros (Hx&Hy&Hk)%feqb_spec Hz.
  destruct x as [[]|[]| |[] m1 e1], y as [[]|[]| |[] m2 e2]; try done; cbn in Hk; try done;
    injection Hk as ? ?; f_equal; lia.
Qed.

(** *** [min] and [max] *)
Lemma fmin_nan x y : is_nan (fmin x y) = is_nan x || is_nan y.
Proof.
  unfold fmin. destruct (is_nan x) eqn:Hx, (is_nan y) eqn:Hy; cbn; try done.
  by destruct (_ || _).
Qed.
Lemma fmax_nan x y : is_nan (fmax x y) = is_nan x || is_nan y.
Proof.
  unfold fmax. destruct (is_nan x) eqn:Hx, (is_nan y) eqn:Hy; cbn; try done.
  by destruct (_ || _).
Qed.
Lemma fmin_case x y :
  is_nan x = false -> is_nan y = false ->
  (fmin x y = x /\ fleb x y = true) \/ (fmin x y = y /\ fleb y x = true).
Proof.
  intros Hx Hy. unfold fmin. rewrite Hx, Hy. cbn [orb]. destruct (fltb y x) eqn:E; cbn [orb].
  - right. split; [done|]. by apply fltb_fleb_weak.
  - destruct (feqb x y && is_neg0 y) eqn:Eq.
    + right. split; [done|]. apply andb_true_iff in Eq as [(?&?&Hk)%feqb_spec _].
      apply fleb_key. rewrite Hk. unfold lex_lt. split_and!; auto. lia.
    + left. split; [done|]. by apply fltb_false_fleb.
Qed.
Lemma fmax_case x y :
  is_nan x = false -> is_nan y = false ->
  (fmax x y = x /\ fleb y x = true) \/ (fmax x y = y /\ fleb x y = true).
Proof.
  intros Hx Hy. unfold fmax. rewrite Hx, Hy. cbn [orb]. destruct (fltb x y) eqn:E; cbn [orb].
  - right. split; [done|]. by apply fltb_fleb_weak.
  - destruct (feqb x y && is_neg0 x) eqn:Eq.
    + right. split; [done|]. apply andb_true_iff in Eq as [(?&?&Hk)%feqb_spec _].
      apply fleb_key. rewrite Hk. unfold lex_lt. split_and!; auto. lia.
    + left. split; [done|]. by apply fltb_false_fleb.
Qed.
End Order.

(** ** Sums of numbers are numbers *)
Lemma shr_nonneg mrs e n : 0 <= shr_m mrs -> 0 <= shr_m (shr mrs e n).1.
Proof.
  intros Hm. unfold shr. destruct n; cbn; try done.
  assert (forall p mrs, 0 <= shr_m mrs -> 0 <= shr_m (iter_pos shr_1 p mrs)) as Hiter.
  { intros q. induction q as [q IH|q IH|]; intros mrs' H'; cbn; auto.
    - apply IH, IH. destruct mrs' as [[] ? ?]; cbn in *; try lia; by destruct p0.
    - destruct mrs' as [[] ? ?]; cbn in *; try lia; by destruct p0. }
  by apply Hiter.
Qed.
Lemma round_aux_num sx mx ex lx : 0 <= mx -> is_nan (binary_round_aux 53 1024 sx mx ex lx) = false.
Proof.
  intros Hm. unfold binary_round_aux.
  assert (forall m e l, 0 <= m -> 0 <= shr_m (shr_fexp 53 1024 m e l).1) as Hs.
  { intros m e l H. unfold shr_fexp. apply shr_nonneg. destruct l as [|[]]; cbn; done. }
  pose proof (Hs mx ex lx Hm) as H1. destruct (shr_fexp 53 1024 mx ex lx) as [mrs e1]. cbn in H1.
  assert (0 <= round_nearest_even (shr_m mrs) (loc_of_shr_record mrs)) as H2.
  { unfold round_nearest_even. destruct (loc_of_shr_record mrs) as [|[]]; try lia.
    destruct (Z.even _); lia. }
  pose proof (Hs _ e1 loc_Exact H2) as H3.
  destruct (shr_fexp 53 1024 _ e1 loc_Exact) as [mrs2 e2]. cbn in H3.
  destruct (shr_m mrs2); [done| |lia]. by destruct (e2 <=? 1024 - 53).
Qed.
Lemma normalize_num m e sz : is_nan (binary_normalize 53 1024 m e sz) = false.
Proof.
  unfold binary_normalize. destruct m as [|m|m]; [done| |]; unfold binary_round;
    destruct (shl_align _ _ _); by apply round_aux_num.
Qed.
Lemma of_int_num n : is_nan (of_int n) = false.
Proof. apply normalize_num. Qed.

Definition is_inf (x : f64) : bool := match x with S754_infinity _ => true | _ => false end.
Lemma fadd_num x y :
  is_nan x = false -> is_inf x = false -> is_nan y = false -> is_nan (fadd x y) = false.
Proof.
  intros Hx Hi Hy. unfold fadd, SFadd.
  destruct x as [[]|[]| |[] mx ex], y as [[]|[]| |[] my ey]; try done; apply normalize_num.
Qed.

(** ** Integers in [float64] *)
Lemma digits_log2 p : Zpos (digits2_pos p) = Z.log2 (Zpos p) + 1.
Proof.
  induction p as [p IH|p IH|]; cbn [digits2_pos]; [| |done].
  - rewrite Pos2Z.inj_succ, IH. rewrite (Pos2Z.inj_xI p), Z.log2_succ_double by lia. lia.
  - rewrite Pos2Z.inj_succ, IH. rewrite (Pos2Z.inj_xO p), Z.log2_double by lia. lia.
Qed.

Lemma digits_bounds p : 2 ^ (Zpos (digits2_pos p) - 1) <= Zpos p < 2 ^ Zpos (digits2_pos p).
Proof.
  rewrite digits_log2. replace (Z.log2 (Zpos p) + 1 - 1) with (Z.log2 (Zpos p)) by lia.
  apply Z.log2_spec. lia.
Qed.

Lemma shr_1_m mrs : 0 <= shr_m mrs -> shr_m (shr_1 mrs) = shr_m mrs / 2 /\ 0 <= shr_m (shr_1 mrs).
Proof.
  destruct mrs as [m r s]. cbn. intros Hm. rewrite <- Z.div2_div.
  destruct m as [|[p|p|]|p]; cbn; lia.
Qed.

Lemma iter_shr p mrs :
  0 <= shr_m mrs -> shr_m (iter_pos shr_1 p mrs) = shr_m mrs / 2 ^ Zpos p.
Proof.
  revert mrs. induction p as [p IH|p IH|]; intros mrs Hm; cbn [iter_pos].
  - destruct (shr_1_m mrs Hm) as [H1 H2]. rewrite IH; [|rewrite IH by done; by apply Z.div_pos; [|lia]].
    rewrite IH, H1 by done. rewrite !Z.div_div by lia. f_equal.
    rewrite (Pos2Z.inj_xI p). rewrite <- !Z.pow_add_r, <- Z.pow_succ_r by lia. f_equal. lia.
  - rewrite IH; [|rewrite IH by done; by apply Z.div_pos; [|lia]].
    rewrite IH by done. rewrite Z.div_div by lia. f_equal.
    rewrite (Pos2Z.inj_xO p), <- Z.pow_add_r by lia. f_equal. lia.
  - by apply shr_1_m.
Qed.

Lemma shr_fexp_m m e :
  0 <= m -> let n := fexp 53 1024 (Zdigits2 m + e) - e in
  shr_m (shr_fexp 53 1024 m e loc_Exact).1 = m / 2 ^ Z.max 0 n /\
  (shr_fexp 53 1024 m e loc_Exact).2 = e + Z.max 0 n.
Proof.
  intros Hm n. unfold shr_fexp. fold n. unfold shr. destruct n as [|p|p] eqn:Hn; cbn [Z.max Z.compare].
  - cbn. rewrite Z.div_1_r. lia.
  - rewrite Z.max_r by lia. cbn [fst snd]. rewrite iter_shr by done. done.
  - cbn. rewrite Z.div_1_r. lia.
Qed.

(** An integer too long for the mantissa has a positive exponent. *)
Lemma round_large s p :
  53 < Zpos (digits2_pos p) ->
  binary_round 53 1024 s p 0 = S754_infinity s \/
  exists m e, binary_round 53 1024 s p 0 = S754_finite s m e /\ 0 < e.
Proof.
  intros Hd. unfold binary_round. set (d := Zpos (digits2_pos p)) in *.
  assert (Hf : forall x, 0 <= x -> fexp 53 1024 x = Z.max (x - 53) (-1074)) by done.
  assert (Hal : shl_align p 0 (fexp 53 1024 (d + 0)) = (p, 0)).
  { rewrite Hf by lia. rewrite Z.max_l by lia. unfold shl_align.
    destruct (d + 0 - 53 - 0) eqn:E; [done|done|lia]. }
  rewrite Hal. unfold binary_round_aux.
  destruct (shr_fexp_m (Zpos p) 0) as [M1 E1]; [lia|]. cbn [Zdigits2] in M1, E1. fold d in M1, E1.
  rewrite Hf in M1, E1 by lia. rewrite (Z.max_l (d + 0 - 53)) in M1, E1 by lia.
  rewrite Z.max_r in M1, E1 by lia. replace (d + 0 - 53 - 0) with (d - 53) in M1, E1 by lia.
  destruct (shr_fexp 53 1024 (Zpos p) 0 loc_Exact) as [r1 e1]. cbn [fst snd] in *. subst e1.
  assert (Hb : 2 ^ 52 <= shr_m r1 < 2 ^ 53).
  { pose proof (digits_bounds p) as Hp. fold d in Hp. rewrite M1. split.
    - apply Z.div_le_lower_bound; [lia|]. rewrite <- Z.pow_add_r by lia.
      replace (d - 53 + 52) with (d - 1) by lia. lia.
    - apply Z.div_lt_upper_bound; [lia|]. rewrite <- Z.pow_add_r by lia.
      replace (d - 53 + 53) with d by lia. lia. }
  set (m2 := round_nearest_even _ _).
  assert (Hm2 : 2 ^ 52 <= m2 <= 2 ^ 53).
  { unfold m2, round_nearest_even. destruct (loc_of_shr_record r1) as [|[]]; try lia. destruct (Z.even _); lia. }
  clearbody m2. destruct m2 as [|q|q]; [lia| |lia].
  destruct (shr_fexp_m (Zpos q) (0 + (d - 53))) as [M2 E2]; [lia|].
  destruct (shr_fexp 53 1024 (Zpos q) _ loc_Exact) as [r2 e2]. cbn [fst snd Zdigits2] in *.
  assert (Hq : 53 <= Zpos (digits2_pos q) <= 54).
  { pose proof (digits_bounds q) as Hp. split.
    - apply Z.le_ngt. intros Hlt. assert (2 ^ Zpos (digits2_pos q) <= 2 ^ 52) by (apply Z.pow_le_mono_r; lia). lia.
    - apply Z.le_ngt. intros Hlt. assert (2 ^ 54 <= 2 ^ (Zpos (digits2_pos q) - 1)) by (apply Z.pow_le_mono_r; lia). lia. }
  rewrite Hf in M2, E2 by lia. rewrite (Z.max_l (_ - 53)) in M2, E2 by lia.
  assert (Hr2 : 0 < shr_m r2).
  { rewrite M2. apply Z.div_str_pos. split; [lia|].
    assert (2 ^ Z.max 0 (Zpos (digits2_pos q) + (0 + (d - 53)) - 53 - (0 + (d - 53))) <= 2 ^ 1)
      by (apply Z.pow_le_mono_r; lia). lia. }
  destruct (shr_m r2) as [|m|m]; [lia| |lia].
  destruct (e2 <=? 1024 - 53); [right|by left]. exists m, e2. split; [done|]. lia.
Qed.

Lemma iter_xO p k : Zpos (Pos.iter xO p k) = Zpos p * 2 ^ Zpos k /\
  Zpos (digits2_pos (Pos.iter xO p k)) = Zpos (digits2_pos p) + Zpos k.
Proof.
  induction k as [|k IH] using Pos.peano_ind; [cbn; lia|].
  rewrite Pos.iter_succ, Pos2Z.inj_succ, Z.pow_succ_r by lia. cbn [digits2_pos].
  rewrite (Pos2Z.inj_xO (Pos.iter xO p k)), Pos2Z.inj_succ. lia.
Qed.

(** An integer that fits the mantissa is represented exactly, normalized. *)
Lemma round_small s p :
  let d := Zpos (digits2_pos p) in d <= 53 ->
  exists m, binary_round 53 1024 s p 0 = S754_finite s m (d - 53) /\ Zpos m = Zpos p * 2 ^ (53 - d).
Proof.
  intros d Hd. unfold binary_round. fold d.
  assert (Hf : forall x, fexp 53 1024 x = Z.max (x - 53) (-1074)) by done.
  assert (0 < d) by (unfold d; lia).
  assert (Hal : exists m, shl_align p 0 (fexp 53 1024 (d + 0)) = (m, d - 53) /\
    Zpos m = Zpos p * 2 ^ (53 - d) /\ Zpos (digits2_pos m) = 53).
  { rewrite Hf, Z.max_l by lia. unfold shl_align. replace (d + 0 - 53 - 0) with (d - 53) by lia.
    destruct (d - 53) as [|k|k] eqn:E; [| lia|].
    - exists p. split_and!; [f_equal; lia| |lia].
      replace (53 - d) with 0 by lia. lia.
    - exists (Pos.iter xO p k). destruct (iter_xO p k) as [I1 I2].
      replace (53 - d) with (Zpos k) by lia. split_and!; [f_equal; lia|done|]. fold d in I2. lia. }
  destruct Hal as (m & -> & Hm & Hdig). exists m. split; [|done].
  assert (Hsh : shr_fexp 53 1024 (Zpos m) (d - 53) loc_Exact = (Build_shr_record (Zpos m) false false, d - 53)).
  { unfold shr_fexp. cbn [Zdigits2]. rewrite Hf, Hdig, Z.max_l by lia.
    replace (53 + (d - 53) - 53 - (d - 53)) with 0 by lia. done. }
  unfold binary_round_aux. rewrite Hsh. cbn [shr_m loc_of_shr_record round_nearest_even]. rewrite Hsh.
  cbn [shr_m]. destruct (Z.leb_spec (d - 53) (1024 - 53)); [done|lia].
Qed.

Definition small (n : Z) : Prop := Z.abs n < 2 ^ 53.

Lemma digits_small p : small (Zpos p) <-> Zpos (digits2_pos p) <= 53.
Proof.
  unfold small. pose proof (digits_bounds p) as Hb. rewrite Z.abs_eq by lia. split; intros H.
  - apply Z.le_ngt. intros Hlt.
    assert (2 ^ 53 <= 2 ^ (Zpos (digits2_pos p) - 1)) by (apply Z.pow_le_mono_r; lia). lia.
  - assert (2 ^ Zpos (digits2_pos p) <= 2 ^ 53) by (apply Z.pow_le_mono_r; lia). lia.
Qed.

(** The sign, and the order of magnitudes, of a rounded integer. *)
Lemma round_key s p :
  let k := key (binary_round 53 1024 s p 0) in
  (if s then k.1.1 <= -1 else 1 <= k.1.1) /\ is_nan (binary_round 53 1024 s p 0) = false.
Proof.
  destruct (Z.le_gt_cases (Zpos (digits2_pos p)) 53) as [Hd|Hd].
  - destruct (round_small s p Hd) as (m & -> & _). by destruct s.
  - destruct (round_large s p) as [->|(m & e & -> & _)]; [lia|by destruct s|by destruct s].
Qed.

Lemma round_mono p q :
  (p < q)%positive -> small (Zpos p) ->
  lex_lt (key (binary_round 53 1024 false p 0)) (key (binary_round 53 1024 false q 0)) /\
  lex_lt (key (binary_round 53 1024 true q 0)) (key (binary_round 53 1024 true p 0)).
Proof.
  intros Hlt Hp. apply digits_small in Hp.
  assert (Hmono : Zpos (digits2_pos p) <= Zpos (digits2_pos q)).
  { rewrite !digits_log2. assert (Z.log2 (Zpos p) <= Z.log2 (Zpos q)) by (apply Z.log2_le_mono; lia). lia. }
  destruct (round_small false p Hp) as (mp & -> & Hmp). destruct (round_small true p Hp) as (mp' & -> & Hmp').
  destruct (Z.le_gt_cases (Zpos (digits2_pos q)) 53) as [Hq|Hq].
  - destruct (round_small false q Hq) as (mq & -> & Hmq). destruct (round_small true q Hq) as (mq' & -> & Hmq').
    unfold lex_lt. cbn [key fst snd].
    destruct (decide (Zpos (digits2_pos p) = Zpos (digits2_pos q))) as [He|He]; [|lia].
    rewrite <- !Pos2Z.opp_pos, Hmp, Hmp', Hmq, Hmq', He.
    assert (0 < 2 ^ (53 - Zpos (digits2_pos q))) by (apply Z.pow_pos_nonneg; lia).
    assert (Zpos p * 2 ^ (53 - Zpos (digits2_pos q)) < Zpos q * 2 ^ (53 - Zpos (digits2_pos q)))
      by (apply Z.mul_lt_mono_pos_r; lia). lia.
  - destruct (round_large false q) as [->|(m & e & -> & ?)]; [lia|..];
      destruct (round_large true q) as [->|(m' & e' & -> & ?)]; try lia;
      unfold lex_lt; cbn [key fst snd]; lia.
Qed.

(** Comparing an integer of any size with one below 2^53 in [float64] is
    comparing the integers. *)
Lemma fltb_of_int_lt a b : a < b -> small a \/ small b -> fltb (of_int a) (of_int b) = true.
Proof.
  intros Hab Hs. apply fltb_spec. split_and!; [apply of_int_num|apply of_int_num|].
  unfold of_int, binary_normalize.
  destruct a as [|p|p], b as [|q|q]; try lia.
  - destruct (round_key false q) as [H _]. left. cbn in *. lia.
  - apply round_mono; [lia|]. destruct Hs as [|Hs]; [done|]. unfold small in *. lia.
  - destruct (round_key true p) as [H _]. left. cbn in *. lia.
  - destruct (round_key true p) as [H _], (round_key false q) as [H' _]. left. cbn in *. lia.
  - apply round_mono; [lia|]. unfold small in *. lia.
Qed.
Lemma fltb_of_int a b : small a \/ small b -> fltb (of_int a) (of_int b) = bool_decide (a < b).
Proof.
  intros Hs. case_bool_decide as Hab; [by apply fltb_of_int_lt|].
  destruct (decide (a = b)) as [->|]; [apply fltb_irrefl|].
  apply fltb_asym, fltb_of_int_lt; [lia|tauto].
Qed.

#[export] Hint Resolve fltb_irrefl fltb_trans fltb_asym : sage.

(** Witnesses of the encoding: the constants the gateway is configured with. *)
Example lit_one_fifth : lit 1 5 = S754_finite false 7205759403792794 (-55).
Proof. vm_compute. reflexivity. Qed.
Example rebreak_line : fadd (lit 1 5) (lit 15 100) = lit 35 100.
Proof. vm_compute. reflexivity. Qed.
Example seconds_1500ms : Seconds (1500 * millisecond) = lit 3 2.
Proof. vm_compute. reflexivity. Qed.
