(* ===== verification/Domain.v ===== *)
(** * Domain: endpoint identity

    Models [domain/endpoint.go] and [domain/owner.go]: the address of an
    endpoint and what is read out of it (supplier, URL, host), the memoized
    operator, the bounded owner and tenancy tables, the party an endpoint
    votes as, and the affiliate sets retries and hedges steer away from.

    Go strings are byte sequences, which [string] is.  The public-suffix
    trie of [golang.org/x/net/publicsuffix] is not part of the repository:
    [EffectiveTLDPlusOne] is a parameter, [None] standing for its error. *)

From Stdlib Require Import Ascii.
From S2P Require Import Prelude Float64.

(** ** [strings], as far as the source uses it *)
Module GoStrings.
Definition from (n : nat) (s : string) : string := String.substring n (String.length s - n) s.
Definition upto (n : nat) (s : string) : string := String.substring 0 n s.
Definition Index (s sub : string) : option nat := String.index 0 sub s.
Definition IndexByte (s : string) (c : Ascii.ascii) : option nat := Index s (String c EmptyString).
Fixpoint LastIndexByte (s : string) (c : Ascii.ascii) : option nat :=
  match s with
  | EmptyString => None
  | String c' s' =>
      match LastIndexByte s' c with
      | Some i => Some (S i)
      | None => if bool_decide (c' = c) then Some O else None
      end
  end.
(** [strings.Cut]: before and after the first separator, and whether it occurs. *)
Definition Cut (s sep : string) : string * string * bool :=
  match Index s sep with
  | Some i => (upto i s, from (i + String.length sep) s, true)
  | None => (s, "", false)
  end.

(** [free c s]: the byte [c] does not occur in [s]. *)
Fixpoint free (c : Ascii.ascii) (s : string) : Prop :=
  match s with EmptyString => True | String c' s' => c' <> c /\ free c s' end.

Lemma upto_app a b : upto (String.length a) (a +:+ b) = a.
Proof. unfold upto. induction a as [|c a IH]; simpl; [by destruct b|by rewrite IH]. Qed.

Lemma from_app a b : from (String.length a) (a +:+ b) = b.
Proof.
  unfold from. induction a as [|c a IH]; simpl; [|exact IH].
  rewrite Nat.sub_0_r. induction b; simpl; [done|by f_equal].
Qed.

Lemma prefix_app p s : String.prefix p (p +:+ s) = true.
Proof. induction p as [|c p IH]; simpl; [by destruct s|]. destruct (Ascii.ascii_dec c c); done. Qed.

Lemma app_assoc' a b c : (a +:+ b) +:+ c = a +:+ (b +:+ c).
Proof. induction a as [|x a IH]; [done|]. change (String x ((a +:+ b) +:+ c) = String x (a +:+ (b +:+ c))). by rewrite IH. Qed.

Lemma length_app' a b : String.length (a +:+ b) = (String.length a + String.length b)%nat.
Proof.
  induction a as [|x a IH]; [done|].
  change (String x a +:+ b) with (String x (a +:+ b)). cbn [String.length]. lia.
Qed.

Lemma app_nil' a : a +:+ "" = a.
Proof.
  induction a as [|x a IH]; [done|].
  change (String x a +:+ "") with (String x (a +:+ "")). by rewrite IH.
Qed.

Lemma index_prefix p c s :
  String.prefix p (String c s) = true -> String.index 0 p (String c s) = Some O.
Proof. intros H. cbn [String.index]. by rewrite H. Qed.

(** The first occurrence of a separator that begins with a byte the prefix
    does not hold is right after that prefix. *)
Lemma index_app c p a b :
  free c a -> Index (a +:+ (String c p +:+ b)) (String c p) = Some (String.length a).
Proof.
  unfold Index. intros Hf. induction a as [|x a IH]; cbn [String.index].
  - change (EmptyString +:+ (String c p +:+ b)) with (String c (p +:+ b)).
    apply index_prefix. apply (prefix_app (String c p) b).
  - destruct Hf as [Hx Hf]. change (String x a +:+ (String c p +:+ b))
      with (String x (a +:+ (String c p +:+ b))). cbn [String.index].
    cbn [String.prefix]. destruct (Ascii.ascii_dec c x) as [->|_]; [done|].
    by rewrite (IH Hf).
Qed.

Lemma index_free c a : free c a -> Index a (String c EmptyString) = None.
Proof.
  unfold Index. induction a as [|x a IH]; [done|]. intros [Hx Hf]. cbn.
  destruct (Ascii.ascii_dec c x) as [->|_]; [done|]. by rewrite (IH Hf).
Qed.

Lemma last_free c a : free c a -> LastIndexByte a c = None.
Proof.
  induction a as [|x a IH]; [done|]. intros [Hx Hf]. cbn. rewrite IH by done.
  by rewrite bool_decide_eq_false_2.
Qed.

Lemma last_app c a b : free c b -> LastIndexByte (a +:+ String c b) c = Some (String.length a).
Proof.
  intros Hf. induction a as [|x a IH].
  - change (EmptyString +:+ String c b) with (String c b). cbn [LastIndexByte].
    rewrite (last_free c b Hf). by rewrite bool_decide_eq_true_2.
  - change (String x a +:+ String c b) with (String x (a +:+ String c b)). cbn [LastIndexByte]. by rewrite IH.
Qed.

Lemma free_app c a b : free c (a +:+ b) <-> free c a /\ free c b.
Proof.
  induction a as [|x a IH]; [cbn; tauto|].
  change (String x a +:+ b) with (String x (a +:+ b)). cbn [free]. tauto.
Qed.
End GoStrings.
Import GoStrings.

Module Domain.
(** ** Addresses: [domain/endpoint.go] *)
Definition EndpointAddr : Type := string.
Definition EndpointAddrList : Type := list EndpointAddr.

Definition Supplier (e : EndpointAddr) : string := (Cut e "-").1.1.

Definition URL (e : EndpointAddr) : option string :=
  let '(_, url, ok) := Cut e "-" in
  if negb ok || bool_decide (url = "") then None else Some url.

Definition hostOfURL (url : string) : string :=
  let url := match Index url "://" with Some idx => from (idx + 3) url | None => url end in
  let url := match IndexByte url "/"%char with Some idx => upto idx url | None => url end in
  match LastIndexByte url ":"%char with Some idx => upto idx url | None => url end.

Definition Domain (e : EndpointAddr) : string :=
  match URL e with None => "" | Some url => hostOfURL url end.

Definition Contains (l : EndpointAddrList) (addr : EndpointAddr) : bool :=
  existsb (λ a, bool_decide (a = addr)) l.

Definition Exclude (l : EndpointAddrList) (addrs : gmap EndpointAddr bool) : EndpointAddrList :=
  if bool_decide (size addrs = O) then l
  else filter (λ a, default false (addrs !! a) = false) l.

Section Operator.
Context (EffectiveTLDPlusOne : string -> option string).

Definition computeOperator (host : string) : string :=
  if bool_decide (host = "") then ""
  else match EffectiveTLDPlusOne host with
       | None => host
       | Some op => if bool_decide (op = "") then host else op
       end.

Definition OperatorOfURL (url : string) : string := computeOperator (hostOfURL url).

Definition operatorCacheMax : Z := 16384.
Record operatorTable := mkOperatorTable {
  operatorCache : gmap EndpointAddr string;
  operatorCacheLen : Z
}.

(** [Operator] with its memoization table: the answer and the table after. *)
Definition OperatorMemo (t : operatorTable) (e : EndpointAddr) : operatorTable * string :=
  if bool_decide (e = "") then (t, "")
  else match operatorCache t !! e with
       | Some v => (t, v)
       | None =>
           let op := computeOperator (Domain e) in
           let n := operatorCacheLen t + 1 in
           let '(c, n) := if bool_decide (operatorCacheMax < n) then (∅, 1)
                          else (operatorCache t, n) in
           (mkOperatorTable (<[e := op]> c) n, op)
       end.

(** The value [Operator] returns, without the table. *)
Definition Operator (e : EndpointAddr) : string :=
  if bool_decide (e = "") then "" else computeOperator (Domain e).

(** The loop of [Operators]: [seen] is the set of operators emitted so far. *)
Fixpoint operatorsLoop (seen : gset string) (l : EndpointAddrList) : list string :=
  match l with
  | [] => []
  | a :: l =>
      let op := Operator a in
      if bool_decide (op ∈ seen) then operatorsLoop seen l
      else op :: operatorsLoop ({[op]} ∪ seen) l
  end.
Definition Operators (l : EndpointAddrList) : list string := operatorsLoop ∅ l.

(** ** Owners: [domain/owner.go] *)
Definition ownerCacheMax : Z := 16384.
Definition dedicatedShare : f64 := lit 9 10.
Definition dedicatedMinSeen : Z := 5.

Record owners := mkOwners {
  ownerBySupplier : gmap string string;
  ownerBySupplierLen : Z;
  tenancy : gmap string (gmap string string);
  tenancyLen : Z;
  dedicatedTo : gmap string string
}.
Definition emptyOwners : owners := mkOwners ∅ 0 ∅ 0 ∅.

(** [counts\[owner\]] after the counting loop. *)
Definition ownerCount (sups : gmap string string) (owner : string) : Z :=
  Z.of_nat (size (filter (λ p : string * string, p.2 = owner) sups)).

(** The owners [counts] has an entry for. *)
Definition ownersOf (sups : gmap string string) : list string :=
  remove_dups (snd <$> map_to_list sups).

(** The test of the second loop. *)
Definition isDedicated (sups : gmap string string) (owner : string) : bool :=
  bool_decide (dedicatedMinSeen <= Z.of_nat (size sups)) &&
  fleb (fmul dedicatedShare (of_int (Z.of_nat (size sups)))) (of_int (ownerCount sups owner)).

(** [range counts] visits the owners in an order the runtime picks; [order] is
    that order. *)
Definition refreshDedicated (order : list string) (st : gmap string string)
    (operator : string) (sups : gmap string string) : gmap string string :=
  match List.find (isDedicated sups) order with
  | Some owner => <[operator := owner]> st
  | None => delete operator st
  end.

(** [RecordOwner]; [order] is the map order its refresh ranges in. *)
Definition RecordOwner (order : gmap string string -> list string) (st : owners)
    (supplier owner operator : string) : owners :=
  if bool_decide (supplier = "") || bool_decide (owner = "") then st
  else
    let loaded := bool_decide (is_Some (ownerBySupplier st !! supplier)) in
    let bySup := <[supplier := owner]> (ownerBySupplier st) in
    let n := if loaded then ownerBySupplierLen st else ownerBySupplierLen st + 1 in
    let '(bySup, n) :=
      if negb loaded && bool_decide (ownerCacheMax < n) then (∅, 0) else (bySup, n) in
    if bool_decide (operator = "")
    then mkOwners bySup n (tenancy st) (tenancyLen st) (dedicatedTo st)
    else
      let sups := default ∅ (tenancy st !! operator) in
      let ten := <[operator := sups]> (tenancy st) in
      let seen := bool_decide (is_Some (sups !! supplier)) in
      if bool_decide (sups !! supplier = Some owner)
      then mkOwners bySup n ten (tenancyLen st) (dedicatedTo st)
      else
        let tl := if seen then tenancyLen st else tenancyLen st + 1 in
        let over := negb seen && bool_decide (ownerCacheMax < tl) in
        let ten := if over then ∅ else ten in
        let ded := if over then ∅ else dedicatedTo st in
        let tl := if over then 1 else tl in
        let sups := <[supplier := owner]> (if over then ∅ else sups) in
        mkOwners bySup n (<[operator := sups]> ten) tl
          (refreshDedicated (order sups) ded operator sups).

Definition dedicatedOwner (st : owners) (operator : string) : string :=
  default "" (dedicatedTo st !! operator).

Definition Owner (st : owners) (e : EndpointAddr) : string :=
  default "" (ownerBySupplier st !! Supplier e).

Definition Party (st : owners) (e : EndpointAddr) : string :=
  let op := Operator e in
  let owner := dedicatedOwner st op in
  if negb (bool_decide (owner = "")) && bool_decide (owner = Owner st e) then owner else op.

Definition PartyOfOperator (st : owners) (operator : string) : string :=
  let owner := dedicatedOwner st operator in
  if negb (bool_decide (owner = "")) then owner else operator.

(** ** Affiliates *)
Record Affiliates := mkAffiliates { operators : gset string; owners_ : gset string }.

Definition Add (st : owners) (a : Affiliates) (ep : EndpointAddr) : Affiliates :=
  let op := Operator ep in
  let ops := if bool_decide (op = "") then operators a else {[op]} ∪ operators a in
  let owner := dedicatedOwner st op in
  let ows := if negb (bool_decide (owner = "")) && bool_decide (owner = Owner st ep)
             then {[owner]} ∪ owners_ a else owners_ a in
  mkAffiliates ops ows.

Definition AffiliatesOf (st : owners) (eps : list EndpointAddr) : Affiliates :=
  foldl (Add st) (mkAffiliates ∅ ∅) eps.

Definition AffContains (st : owners) (a : Affiliates) (ep : EndpointAddr) : bool :=
  let op := Operator ep in
  if bool_decide (op ∈ operators a) then true
  else
    let owner := dedicatedOwner st op in
    negb (bool_decide (owner = "")) && bool_decide (owner ∈ owners_ a) &&
    bool_decide (owner = Owner st ep).

Definition ExcludeAffiliates (st : owners) (l : EndpointAddrList) (a : Affiliates)
    : EndpointAddrList :=
  if bool_decide (l = []) ||
     (bool_decide (size (operators a) = O) && bool_decide (size (owners_ a) = O))
  then l
  else
    let out := filter (λ ep, AffContains st a ep = false) l in
    if bool_decide (out = []) then l else out.

(** ** Reading an address *)
Lemma host_port_tail scheme hp tail :
  free ":"%char scheme -> free "/"%char hp ->
  (tail = "" \/ exists path, tail = String "/" path) ->
  hostOfURL (scheme +:+ ("://" +:+ (hp +:+ tail))) =
  match LastIndexByte hp ":"%char with Some i => upto i hp | None => hp end.
Proof.
  intros Hs Hh Ht. unfold hostOfURL. rewrite (index_app ":" "//" scheme) by done.
  assert (from (String.length scheme + 3) (scheme +:+ ("://" +:+ (hp +:+ tail))) = hp +:+ tail) as ->.
  { rewrite <- (app_assoc' scheme "://").
    replace (String.length scheme + 3)%nat with (String.length (scheme +:+ "://"));
      [apply from_app|by rewrite length_app']. }
  unfold IndexByte. destruct Ht as [->|[path ->]].
  - rewrite app_nil'. by rewrite index_free.
  - change (String "/"%char path) with (String "/"%char "" +:+ path).
    rewrite (index_app "/" "" hp path) by done. by rewrite upto_app.
Qed.

(** Round trip: an address built from its parts reads back as those
    parts.  The supplier is what precedes the first dash, and the host is found
    with or without a port and with or without a path behind it; a host that
    itself holds colons (a bracketed IPv6 literal) is read whole when a port
    follows it. *)
Theorem address_parts supplier scheme host port tail :
  free "-"%char supplier -> free ":"%char scheme ->
  free "/"%char host -> free "/"%char port -> free ":"%char port ->
  (tail = "" \/ exists path, tail = String "/" path) ->
  let addr rest := supplier +:+ ("-" +:+ (scheme +:+ ("://" +:+ (rest +:+ tail)))) in
  (forall rest, Supplier (addr rest) = supplier) /\
  Domain (addr (host +:+ String ":" port)) = host /\
  (free ":"%char host -> Domain (addr host) = host).
Proof.
  intros H1 H2 H3 H4 H5 H6 addr.
  assert (forall rest, Cut (addr rest) "-" =
    (supplier, scheme +:+ ("://" +:+ (rest +:+ tail)), true)) as Hcut.
  { intros rest. unfold Cut, addr. rewrite (index_app "-" "" supplier) by done.
    rewrite upto_app. rewrite <- (app_assoc' supplier "-").
    rewrite <- length_app'. by rewrite from_app. }
  assert (forall rest, Domain (addr rest) = hostOfURL (scheme +:+ ("://" +:+ (rest +:+ tail)))) as Hd.
  { intros rest. unfold Domain, URL. rewrite Hcut. simpl.
    rewrite bool_decide_eq_false_2; [done|]. by destruct scheme. }
  split_and!.
  - intros rest. unfold Supplier. by rewrite Hcut.
  - rewrite Hd, host_port_tail by (done || by apply free_app). by rewrite last_app, upto_app.
  - intros Hh. rewrite Hd, host_port_tail by done. by rewrite last_free.
Qed.

(** ** The memoized operator *)
Definition table_ok (t : operatorTable) : Prop :=
  operatorCacheLen t = Z.of_nat (size (operatorCache t)) /\
  operatorCacheLen t <= operatorCacheMax /\
  forall e v, operatorCache t !! e = Some v -> v = Operator e.

Lemma memo_step t e :
  table_ok t -> let '(t', op) := OperatorMemo t e in table_ok t' /\ op = Operator e.
Proof.
  intros (Hl & Hm & Hc). unfold OperatorMemo, Operator. case_bool_decide; [done|].
  destruct (operatorCache t !! e) as [v|] eqn:He.
  { split; [done|]. rewrite (Hc _ _ He). unfold Operator. by rewrite bool_decide_eq_false_2. }
  assert (Hop : Operator e = computeOperator (Domain e))
    by (unfold Operator; by rewrite bool_decide_eq_false_2).
  unfold table_ok, operatorCacheMax in *. case_bool_decide; (split; [|done]); split_and!; simpl; try lia.
  - rewrite map_size_insert_None, map_size_empty by apply lookup_empty. lia.
  - intros e' v. rewrite lookup_insert, lookup_empty. case_decide; naive_solver.
  - rewrite map_size_insert, He. simpl. lia.
  - intros e' v. rewrite lookup_insert. case_decide; naive_solver.
Qed.

Fixpoint memo_run (t : operatorTable) (es : list EndpointAddr) : operatorTable * list string :=
  match es with
  | [] => (t, [])
  | e :: es => let '(t, op) := OperatorMemo t e in
               let '(t, ops) := memo_run t es in (t, op :: ops)
  end.

(** Equivalence: whatever addresses are looked up and in whatever order,
    the memoized [Operator] answers what the uncached computation answers,
    through every wholesale clear of the table, which never holds more than
    16384 entries and counts them exactly. *)
Theorem operator_memo_exact es :
  let '(t, ops) := memo_run (mkOperatorTable ∅ 0) es in
  ops = Operator <$> es /\ operatorCacheLen t = Z.of_nat (size (operatorCache t)) /\
  Z.of_nat (size (operatorCache t)) <= operatorCacheMax.
Proof.
  assert (forall t, table_ok t -> let '(t', ops) := memo_run t es in
    table_ok t' /\ ops = Operator <$> es) as H.
  { induction es as [|e es IH]; intros t Ht; simpl; [done|].
    pose proof (memo_step t e Ht) as Hs. destruct (OperatorMemo t e) as [t1 op].
    destruct Hs as [Ht1 ->]. specialize (IH t1 Ht1). destruct (memo_run t1 es).
    destruct IH as [? ->]. done. }
  specialize (H (mkOperatorTable ∅ 0)). destruct (memo_run _ es) as [t ops].
  destruct H as [(H1 & H2 & _) H3]; [by split_and!|].
  split_and!; [done|done|lia].
Qed.

(** ** The owner tables *)
Definition tenants (m : gmap string (gmap string string)) : Z :=
  map_fold (λ _ i n, Z.of_nat (size i) + n) 0 m.

Lemma tenants_insert m k i :
  tenants (<[k := i]> m) = tenants m - Z.of_nat (size (default ∅ (m !! k))) + Z.of_nat (size i).
Proof.
  assert (forall m' i', m' !! k = None -> tenants (<[k := i']> m') = Z.of_nat (size i') + tenants m')
    as Hnone.
  { intros m' i' Hk. unfold tenants. rewrite map_fold_insert_L; [done|intros; lia|done]. }
  destruct (m !! k) as [j|] eqn:Hk; simpl.
  - rewrite <- (insert_delete_id m k j) at 2 by done. rewrite <- insert_delete_eq.
    rewrite !Hnone by apply lookup_delete_eq. lia.
  - rewrite Hnone, map_size_empty by done. lia.
Qed.

Definition ded_ok (ten : gmap string (gmap string string)) (ded : gmap string string) : Prop :=
  forall op, match ded !! op with
  | Some owner => isDedicated (default ∅ (ten !! op)) owner = true
  | None => forall owner, owner ∈ ownersOf (default ∅ (ten !! op)) ->
      isDedicated (default ∅ (ten !! op)) owner = false
  end.

(** What the tables promise: both counters are exact and capped, and a domain
    is listed as dedicated exactly to an owner that holds the share. *)
Record owners_ok (st : owners) : Prop := {
  ok_supLen : ownerBySupplierLen st = Z.of_nat (size (ownerBySupplier st));
  ok_supMax : ownerBySupplierLen st <= ownerCacheMax;
  ok_tenLen : tenancyLen st = tenants (tenancy st);
  ok_tenMax : tenancyLen st <= ownerCacheMax;
  ok_ded : ded_ok (tenancy st) (dedicatedTo st)
}.

Lemma owners_ok_empty : owners_ok emptyOwners.
Proof.
  split; simpl; try done. intros op. rewrite !lookup_empty. simpl.
  intros w Hw. by apply elem_of_nil in Hw.
Qed.

(** The order the runtime ranges over a map in: some enumeration of its owners. *)
Definition range_order (order : gmap string string -> list string) : Prop :=
  forall sups, order sups ≡ₚ ownersOf sups.

Lemma refresh_lookup order ded op sups op' :
  refreshDedicated order ded op sups !! op' =
  if decide (op = op') then List.find (isDedicated sups) order else ded !! op'.
Proof.
  unfold refreshDedicated. destruct (List.find _ _);
    rewrite ?lookup_insert, ?lookup_delete; by case_decide.
Qed.

Lemma ded_ok_refresh order ten ded op sups :
  range_order order -> ded_ok ten ded ->
  ded_ok (<[op := sups]> ten) (refreshDedicated (order sups) ded op sups).
Proof.
  intros Hord Hd op'. rewrite refresh_lookup, lookup_insert. case_decide; [|apply Hd]. simpl.
  destruct (List.find _ _) as [w|] eqn:F.
  - by apply List.find_some in F as [_ ?].
  - intros owner Ho. apply (List.find_none _ _ F). apply list_elem_of_In.
    pose proof (Hord sups) as Hs. by rewrite Hs.
Qed.

Lemma ded_ok_same ten ded op : ded_ok ten ded -> ded_ok (<[op := default ∅ (ten !! op)]> ten) ded.
Proof. intros Hd op'. specialize (Hd op'). rewrite lookup_insert. case_decide; [by subst|done]. Qed.

(** The owner tables keep their promise: recording any supplier under any
    owner and operator, with whatever order the runtime ranges a map in, keeps
    both counters exact and at most 16384, and keeps [dedicatedTo] naming, for
    each operator, an owner that holds at least nine tenths of five or more
    registrations seen there, and naming none when no owner does. *)
Theorem record_owner_keeps_tables order st supplier owner operator :
  range_order order -> owners_ok st -> owners_ok (RecordOwner order st supplier owner operator).
Proof.
  intros Hord [H1 H2 H3 H4 H5]. unfold RecordOwner.
  destruct (_ || _); [by split|].
  destruct (if negb _ && _ then _ else _) as [bySup n] eqn:Ebn.
  assert (n = Z.of_nat (size bySup) /\ n <= ownerCacheMax) as [Hn1 Hn2].
  { unfold ownerCacheMax in *. revert Ebn. rewrite H1 in *. case_bool_decide as Hl; simpl.
    - destruct Hl as [v Hv]. intros [= <- <-]. rewrite map_size_insert_Some by eauto. lia.
    - apply eq_None_not_Some in Hl. case_bool_decide; intros [= <- <-]; [done|].
      rewrite map_size_insert_None by done. lia. }
  clear Ebn. case_bool_decide; [by split|].
  set (sups := default ∅ (tenancy st !! operator)).
  assert (Hsame : tenants (<[operator := sups]> (tenancy st)) = tenants (tenancy st))
    by (rewrite tenants_insert; fold sups; lia).
  case_bool_decide as Hsame'; [split; simpl; try done; [lia|by apply ded_ok_same]|].
  unfold ownerCacheMax in *. case_bool_decide as Hseen; simpl.
  - split; simpl; try done; [|by apply ded_ok_refresh, ded_ok_same].
    rewrite insert_insert_eq, tenants_insert. fold sups.
    rewrite map_size_insert_Some by done. lia.
  - apply eq_None_not_Some in Hseen. case_bool_decide; split; simpl; unfold ownerCacheMax;
      try done; try lia.
    + rewrite tenants_insert, lookup_empty. simpl. 
      rewrite map_size_insert_None by apply lookup_empty. done.
    + apply ded_ok_refresh; [done|]. intros op'. rewrite !lookup_empty. simpl.
      intros w Hw. by apply elem_of_nil in Hw.
    + rewrite insert_insert_eq, tenants_insert. fold sups.
      rewrite map_size_insert_None by done. lia.
    + by apply ded_ok_refresh, ded_ok_same.
Qed.
(** ** One owner at most *)
Definition share_check (n : nat) : bool :=
  fltb (of_int (Z.of_nat n)) (of_int (Z.of_nat n + 1)) &&
  ((n <? 5)%nat || fltb (of_int (Z.of_nat n / 2)) (fmul dedicatedShare (of_int (Z.of_nat n)))).

Lemma share_checked : forallb share_check (seq 0 257) = true.
Proof. vm_compute. reflexivity. Qed.

Lemma share_checked_at n : (n <= 256)%nat -> share_check n = true.
Proof.
  intros. pose proof share_checked as Hc. rewrite forallb_forall in Hc.
  apply Hc, in_seq. lia.
Qed.

Lemma of_int_mono (a b : nat) :
  (a < b)%nat -> (b <= 257)%nat -> fltb (of_int (Z.of_nat a)) (of_int (Z.of_nat b)) = true.
Proof.
  induction 1 as [|b Hab IH]; intros Hb.
  - pose proof (share_checked_at a ltac:(lia)) as Hc. apply andb_true_iff in Hc as [Hc _].
    by rewrite Nat2Z.inj_succ, <- Z.add_1_r.
  - pose proof (share_checked_at b ltac:(lia)) as Hc. apply andb_true_iff in Hc as [Hc _].
    eapply fltb_trans; [apply IH; lia|]. by rewrite Nat2Z.inj_succ, <- Z.add_1_r.
Qed.

(** Holding the share is holding more than half. *)
Lemma dedicated_majority sups w :
  (size sups <= 256)%nat -> isDedicated sups w = true ->
  Z.of_nat (size sups) / 2 < ownerCount sups w.
Proof.
  intros Hs. unfold isDedicated. rewrite andb_true_iff, bool_decide_eq_true.
  intros [H5 Hge]. apply Z.nle_gt. intros Hle.
  pose proof (share_checked_at (size sups) Hs) as Hc. apply andb_true_iff in Hc as [_ Hc].
  apply orb_true_iff in Hc as [Hc|Hc]; [apply Nat.ltb_lt in Hc; unfold dedicatedMinSeen in *; lia|].
  assert (fltb (of_int (ownerCount sups w)) (fmul dedicatedShare (of_int (Z.of_nat (size sups)))) = true)
    as Hlt.
  { destruct (decide (ownerCount sups w = Z.of_nat (size sups) / 2)) as [->|]; [done|].
    eapply fltb_trans; [|exact Hc]. unfold ownerCount in *.
    replace (Z.of_nat (size sups) / 2) with (Z.of_nat (size sups / 2)) by (rewrite Nat2Z.inj_div; done).
    apply of_int_mono; [|apply Nat.le_trans with (size sups); [apply Nat.Div0.div_le_upper_bound|]; lia].
    apply Nat2Z.inj_lt. rewrite Nat2Z.inj_div. change (Z.of_nat 2) with 2. lia. }
  pose proof (fltb_spec (of_int (ownerCount sups w)) (fmul dedicatedShare (of_int (Z.of_nat (size sups)))))
    as [Hsp _]. destruct (Hsp Hlt) as (N1 & N2 & _).
  rewrite fltb_fleb in Hlt by done. by rewrite Hge in Hlt.
Qed.

Lemma count_disjoint sups w w' :
  w <> w' -> ownerCount sups w + ownerCount sups w' <= Z.of_nat (size sups).
Proof.
  intros Hne. unfold ownerCount. rewrite <- Nat2Z.inj_add, <- map_size_disj_union.
  - apply Nat2Z.inj_le, map_subseteq_size, map_union_least; apply map_filter_subseteq.
  - apply map_disjoint_spec. intros k x y.
    rewrite !map_lookup_filter_Some. simpl. intros [? ->] [? ?]. congruence.
Qed.

(** Dedication does not depend on the order a map is ranged in: on an
    operator with up to 256 registrations at most one owner can hold the share,
    in the binary64 arithmetic the source decides it with, so every order
    records the same answer. *)
Theorem dedication_is_deterministic order order' ded operator sups :
  (size sups <= 256)%nat -> order ≡ₚ ownersOf sups -> order' ≡ₚ ownersOf sups ->
  refreshDedicated order ded operator sups = refreshDedicated order' ded operator sups.
Proof.
  intros Hs Ho Ho'. unfold refreshDedicated.
  assert (forall w w', isDedicated sups w = true -> isDedicated sups w' = true -> w = w') as Huniq.
  { intros w w' Hw Hw'. destruct (decide (w = w')) as [|Hne]; [done|].
    pose proof (dedicated_majority _ _ Hs Hw). pose proof (dedicated_majority _ _ Hs Hw').
    pose proof (count_disjoint sups w w' Hne).
    pose proof (Z.mod_pos_bound (Z.of_nat (size sups)) 2 ltac:(lia)).
    pose proof (Z.div_mod (Z.of_nat (size sups)) 2 ltac:(lia)). lia. }
  assert (forall a b, a ≡ₚ b -> List.find (isDedicated sups) a = None ->
    List.find (isDedicated sups) b = None) as Hnone.
  { intros a b Hab Ha. destruct (List.find (isDedicated sups) b) as [w|] eqn:E; [|done].
    apply List.find_some in E as [Hin Hw]. pose proof (List.find_none _ _ Ha w) as Hn.
    rewrite Hn in Hw; [done|]. by rewrite Hab. }
  destruct (List.find (isDedicated sups) order) as [w|] eqn:E1,
    (List.find (isDedicated sups) order') as [w'|] eqn:E2; try done.
  - apply List.find_some in E1 as [_ ?], E2 as [_ ?]. by rewrite (Huniq w w').
  - rewrite (Hnone order' order) in E1; [done|by rewrite Ho, Ho'|done].
  - rewrite (Hnone order order') in E2; [done|by rewrite Ho, Ho'|done].
Qed.

(** ** Affiliates *)

(** The owner an endpoint's domain is a brand of, or the empty string. *)
Definition brand (st : owners) (e : EndpointAddr) : string :=
  let owner := dedicatedOwner st (Operator e) in
  if bool_decide (owner = Owner st e) then owner else "".

(** The specification: two endpoints are affiliated when they share an
    operator, or are brands of one owner. *)
Definition affiliated (st : owners) (e e' : EndpointAddr) : Prop :=
  (Operator e = Operator e' /\ Operator e <> "") \/ (brand st e = brand st e' /\ brand st e <> "").

Lemma add_elems st a e op ow :
  (op ∈ operators (Add st a e) <-> op ∈ operators a \/ (Operator e = op /\ op <> "")) /\
  (ow ∈ owners_ (Add st a e) <-> ow ∈ owners_ a \/ (brand st e = ow /\ ow <> "")).
Proof.
  unfold Add, brand. simpl. split.
  - case_bool_decide as H; rewrite ?elem_of_union, ?elem_of_singleton;
      (split; [intuition congruence|]); intros [?|[? ?]]; auto; congruence.
  - destruct (decide (dedicatedOwner st (Operator e) = Owner st e)) as [He|He].
    + rewrite (bool_decide_eq_true_2 (_ = Owner st e)) by done. rewrite andb_true_r.
      case_bool_decide as H; simpl; rewrite ?elem_of_union, ?elem_of_singleton;
      (split; [intuition congruence|]); intros [?|[? ?]]; auto; congruence.
    + rewrite (bool_decide_eq_false_2 (_ = Owner st e)) by done. rewrite andb_false_r. simpl.
      split; [auto|]. intros [?|[? ?]]; auto; congruence.
Qed.

Lemma affiliates_elems st eps a op ow :
  (op ∈ operators (foldl (Add st) a eps) <->
   op ∈ operators a \/ exists e, e ∈ eps /\ Operator e = op /\ op <> "") /\
  (ow ∈ owners_ (foldl (Add st) a eps) <->
   ow ∈ owners_ a \/ exists e, e ∈ eps /\ brand st e = ow /\ ow <> "").
Proof.
  revert a. induction eps as [|e eps IH]; intros a.
  { split; (split; [by left|intros [?|(? & Hin & _)]; [done|by apply elem_of_nil in Hin]]). }
  simpl. destruct (IH (Add st a e)) as [IH1 IH2], (add_elems st a e op ow) as [A1 A2].
  rewrite IH1, IH2, A1, A2. setoid_rewrite elem_of_cons. clear. split; split.
  - intros [[?|[? ?]]|(x & ? & ? & ?)]; [by left|right; exists e; auto|right; exists x; auto].
  - intros [?|(x & [->|?] & ? & ?)]; [by left; left|by left; right|right; exists x; auto].
  - intros [[?|[? ?]]|(x & ? & ? & ?)]; [by left|right; exists e; auto|right; exists x; auto].
  - intros [?|(x & [->|?] & ? & ?)]; [by left; left|by left; right|right; exists x; auto].
Qed.

Lemma contains_spec st eps ep :
  AffContains st (AffiliatesOf st eps) ep = true <-> exists e, e ∈ eps /\ affiliated st e ep.
Proof.
  unfold AffContains, AffiliatesOf.
  pose proof (affiliates_elems st eps (mkAffiliates ∅ ∅) (Operator ep) (brand st ep)) as [H1 H2].
  simpl in H1, H2. unfold affiliated.
  case_bool_decide as Hop.
  - split; [intros _|done]. apply H1 in Hop as [?|(e & ? & ? & ?)]; [set_solver|].
    exists e. split; [done|]. left. split; congruence.
  - assert (negb (bool_decide (dedicatedOwner st (Operator ep) = "")) &&
      bool_decide (dedicatedOwner st (Operator ep) ∈ owners_ (foldl (Add st) (mkAffiliates ∅ ∅) eps)) &&
      bool_decide (dedicatedOwner st (Operator ep) = Owner st ep) = true <->
      brand st ep <> "" /\ brand st ep ∈ owners_ (foldl (Add st) (mkAffiliates ∅ ∅) eps)) as ->.
    { unfold brand. repeat case_bool_decide; simpl; naive_solver. }
    rewrite H2. split.
    + intros [Hb [?|(e & ? & ? & ?)]]; [set_solver|]. exists e. split; [done|]. right. split; congruence.
    + intros (e & He & [[Heq Hne]|[Heq Hne]]).
      * destruct Hop. apply H1. right. exists e. split_and!; congruence || done.
      * split; [congruence|]. right. exists e. split_and!; congruence || done.
Qed.

(** Steering away from a provider: [ExcludeAffiliates] returns exactly the
    candidates that share neither an operator nor an owner's brand with any
    endpoint of the set, in their order, and returns every candidate when
    none is independent, so it never turns a non-empty list into an empty one. *)
Theorem exclude_affiliates_spec st l eps :
  let out := ExcludeAffiliates st l (AffiliatesOf st eps) in
  let independent ep := forall e, e ∈ eps -> ~ affiliated st e ep in
  ((exists ep, ep ∈ l /\ independent ep) ->
     out `sublist_of` l /\ forall ep, ep ∈ out <-> ep ∈ l /\ independent ep) /\
  (~ (exists ep, ep ∈ l /\ independent ep) -> out = l) /\
  (out = [] -> l = []).
Proof.
  cbv zeta. set (P := λ ep, AffContains st (AffiliatesOf st eps) ep = false).
  assert (Hind : forall ep, P ep <-> forall e, e ∈ eps -> ~ affiliated st e ep).
  { intros ep. unfold P. rewrite <- not_true_iff_false, contains_spec. naive_solver. }
  unfold ExcludeAffiliates. destruct (decide (l = [])) as [->|Hl].
  { rewrite bool_decide_eq_true_2 by done. simpl. split_and!; [|done|done].
    intros (ep & Hin & _). by apply elem_of_nil in Hin. }
  rewrite (bool_decide_eq_false_2 (l = [])) by done. cbn [orb].
  destruct (_ && _) eqn:Ee.
  { apply andb_true_iff in Ee as [E1 E2]. apply bool_decide_eq_true in E1, E2.
    apply size_empty_inv in E1, E2.
    assert (forall ep, P ep) as Hall.
    { intros ep. unfold P, AffContains.
      rewrite (bool_decide_eq_false_2 (_ ∈ operators _)), (bool_decide_eq_false_2 (_ ∈ owners_ _))
        by set_solver.
      by rewrite andb_false_r. }
    split_and!; [intros _; split; [done|]|done|done]. intros ep. rewrite <- Hind. naive_solver. }
  change (λ ep, AffContains st (AffiliatesOf st eps) ep = false) with P.
  destruct (decide (filter P l = [])) as [Hf|Hf];
    [rewrite bool_decide_eq_true_2 by done|rewrite bool_decide_eq_false_2 by done].
  - split_and!; [|done|done]. intros (ep & Hin & Hi). apply Hind in Hi.
    assert (ep ∈ filter P l) as Hx by (by apply list_elem_of_filter).
    rewrite Hf in Hx. by apply elem_of_nil in Hx.
  - split_and!; [|intros Hno; destruct Hno|done].
    + intros _. split; [apply sublist_filter|]. intros ep. rewrite list_elem_of_filter, Hind. tauto.
    + destruct (filter P l) as [|ep r] eqn:E; [done|]. exists ep.
      assert (ep ∈ filter P l) as Hx by (rewrite E; by left).
      apply list_elem_of_filter in Hx as [Hp ?]. split; [done|]. by apply Hind.
Qed.
End Operator.

Lemma address_parts_witness :
  Supplier "pokt1abc-https://rpc-1.example.net:8545/v1" = "pokt1abc" /\
  Domain "pokt1abc-https://rpc-1.example.net:8545/v1" = "rpc-1.example.net" /\
  Domain "pokt1abc-https://rpc-1.example.net/v1" = "rpc-1.example.net".
Proof.
  pose proof (address_parts "pokt1abc" "https" "rpc-1.example.net" "8545" "/v1") as H.
  repeat (match type of H with free _ _ -> _ => specialize (H ltac:(cbn; split_and!; done)) end).
  destruct (H ltac:(right; by exists "v1")) as (H1 & H2 & H3).
  split_and!; [apply (H1 "rpc-1.example.net:8545")|exact H2|].
  apply H3. cbn. by split_and!.
Defined.


Lemma record_owner_keeps_tables_witness :
  owners_ok (RecordOwner ownersOf emptyOwners "pokt1abc" "pokt1own" "example.net").
Proof. apply record_owner_keeps_tables; [intros s; reflexivity|apply owners_ok_empty]. Defined.

Lemma dedication_is_deterministic_witness :
  let sups := list_to_map [("s1", "a"); ("s2", "a"); ("s3", "a"); ("s4", "a"); ("s5", "a");
                           ("s6", "a"); ("s7", "a"); ("s8", "a"); ("s9", "a"); ("sA", "b")] in
  refreshDedicated ["a"; "b"] ∅ "example.net" sups !! "example.net" = Some "a" /\
  refreshDedicated ["a"; "b"] ∅ "example.net" sups =
  refreshDedicated ["b"; "a"] ∅ "example.net" sups.
Proof.
  cbv zeta. split; [vm_compute; reflexivity|].
  apply dedication_is_deterministic; [vm_compute; lia|vm_compute; apply perm_swap|vm_compute; reflexivity].
Defined.

(** Affiliation is pairwise: sharing operators chains no further. *)
Example affiliation_is_not_transitive :
  let etld := λ h, if bool_decide (h = "a.x.net") then Some "x.net" else Some h in
  let st := mkOwners (list_to_map [("s1", "o"); ("s2", "o"); ("s3", "p")]) 3 ∅ 0
              (list_to_map [("x.net", "o"); ("y.net", "o")]) in
  AffContains etld st (AffiliatesOf etld st ["s1-https://a.x.net"]) "s2-https://y.net" = true /\
  AffContains etld st (AffiliatesOf etld st ["s2-https://y.net"]) "s3-https://y.net" = true /\
  AffContains etld st (AffiliatesOf etld st ["s1-https://a.x.net"]) "s3-https://y.net" = false.
Proof. vm_compute. done. Qed.
End Domain.
