(* ===== verification/Text.v ===== *)
(** * Text: case, white space and splitting

    What the source uses of [strings] beyond [Domain.GoStrings].  A Go string
    is a sequence of bytes.  [strings.TrimSpace] removes the white space of
    Unicode at both ends, whose encodings are one, two or three bytes long;
    [strings.ToLower] and [strings.EqualFold] are their ASCII part, which is
    what they do to a domain name, a header or a keyword. *)

From Stdlib Require Import Ascii.
From S2P Require Import Prelude Domain.
Import GoStrings.

Module GoText.

(** ** Case *)
Definition lowerChar (c : ascii) : ascii :=
  let n := N_of_ascii c in if (65 <=? n)%N && (n <=? 90)%N then ascii_of_N (n + 32) else c.
Fixpoint ToLower (s : string) : string :=
  match s with EmptyString => EmptyString | String c s => String (lowerChar c) (ToLower s) end.
Definition EqualFold (a b : string) : bool := bool_decide (ToLower a = ToLower b).

(** [strings.Contains]. *)
Definition Contains (s sub : string) : bool := bool_decide (is_Some (Index s sub)).

(** ** Splitting: [strings.Split] at one byte *)
Fixpoint Split (c : ascii) (s : string) : list string :=
  match s with
  | EmptyString => [EmptyString]
  | String x s =>
      if bool_decide (x = c) then EmptyString :: Split c s
      else match Split c s with
           | p :: ps => String x p :: ps
           | [] => [String x EmptyString]
           end
  end.

(** ** Cutting at one byte *)
Lemma Cut_at c a b :
  free c a -> Cut (a +:+ (String c "" +:+ b)) (String c "") = (a, b, true).
Proof.
  intros Ha. unfold Cut. rewrite (index_app c "" a b) by done.
  rewrite upto_app. rewrite <- (app_assoc' a (String c "") b), <- length_app', from_app. done.
Qed.
Lemma Cut_free c a : free c a -> Cut a (String c "") = (a, "", false).
Proof. intros Ha. unfold Cut. by rewrite index_free. Qed.

Lemma index_None_free c a : Index a (String c "") = None -> free c a.
Proof.
  unfold Index. induction a as [|x a IH]; [done|]. cbn.
  destruct (ascii_dec c x) as [->|Hne]; [by destruct a|].
  destruct (String.index 0 (String c "") a); [done|]. intros _. split; [congruence|by apply IH].
Qed.

(** ** White space *)
Definition byte (c : ascii) : N := N_of_ascii c.

(** [asciiSpace]: tab, line feed, vertical tab, form feed, return, space. *)
Definition space1 (c : ascii) : bool :=
  let n := byte c in ((9 <=? n)%N && (n <=? 13)%N) || (n =? 32)%N.
(** U+0085 and U+00A0. *)
Definition space2 (c d : ascii) : bool :=
  (byte c =? 194)%N && ((byte d =? 133)%N || (byte d =? 160)%N).
(** U+1680, U+2000 to U+200A, U+2028, U+2029, U+202F, U+205F, U+3000. *)
Definition space3 (c d e : ascii) : bool :=
  let '(a, b, z) := (byte c, byte d, byte e) in
  ((a =? 225)%N && (b =? 154)%N && (z =? 128)%N) ||
  ((a =? 226)%N && (b =? 128)%N &&
    (((128 <=? z)%N && (z <=? 138)%N) || (z =? 168)%N || (z =? 169)%N || (z =? 175)%N)) ||
  ((a =? 226)%N && (b =? 129)%N && (z =? 159)%N) ||
  ((a =? 227)%N && (b =? 128)%N && (z =? 128)%N).

Section Trim.
Context (p1 : ascii -> bool) (p2 : ascii -> ascii -> bool) (p3 : ascii -> ascii -> ascii -> bool).

Fixpoint trimHead (l : list ascii) : list ascii :=
  match l with
  | c :: l1 =>
      if p1 c then trimHead l1
      else match l1 with
           | d :: l2 =>
               if p2 c d then trimHead l2
               else match l2 with
                    | e :: l3 => if p3 c d e then trimHead l3 else l
                    | [] => l
                    end
           | [] => l
           end
  | [] => []
  end.

(** Whether a white space character comes first. *)
Definition starts (l : list ascii) : bool :=
  match l with
  | c :: l1 => p1 c || match l1 with
                       | d :: l2 => p2 c d || match l2 with e :: _ => p3 c d e | [] => false end
                       | [] => false
                       end
  | [] => false
  end.

Lemma trimHead_ind (P : list ascii -> Prop) :
  (forall l, starts l = false -> P l) ->
  (forall c l, p1 c = true -> P l -> P (c :: l)) ->
  (forall c d l, p1 c = false -> p2 c d = true -> P l -> P (c :: d :: l)) ->
  (forall c d e l, p1 c = false -> p2 c d = false -> p3 c d e = true -> P l -> P (c :: d :: e :: l)) ->
  forall l, P l.
Proof.
  intros H0 H1 H2 H3 l. remember (length l) as n eqn:Hn. revert l Hn.
  induction n as [n IH] using lt_wf_ind. intros l ->.
  destruct l as [|c l1]; [by apply H0|].
  destruct (p1 c) eqn:E1; [apply H1; [done|]; eapply IH; [|done]; simpl; lia|].
  destruct l1 as [|d l2]; [by apply H0; simpl; rewrite E1|].
  destruct (p2 c d) eqn:E2; [apply H2; [done|done|]; eapply IH; [|done]; simpl; lia|].
  destruct l2 as [|e l3]; [by apply H0; simpl; rewrite E1, E2|].
  destruct (p3 c d e) eqn:E3; [apply H3; [done|done|done|]; eapply IH; [|done]; simpl; lia|].
  apply H0. simpl. by rewrite E1, E2, E3.
Qed.

Lemma trimHead_id l : starts l = false -> trimHead l = l.
Proof.
  destruct l as [|c [|d [|e l]]]; simpl; [done| | |]; rewrite ?orb_false_iff.
  - by intros [-> _].
  - by intros (-> & -> & _).
  - by intros (-> & -> & ->).
Qed.

Lemma trimHead_starts l : starts (trimHead l) = false.
Proof.
  induction l as [l Hl|c l E1 IH|c d l E1 E2 IH|c d e l E1 E2 E3 IH] using trimHead_ind.
  - by rewrite trimHead_id.
  - simpl. by rewrite E1.
  - simpl. by rewrite E1, E2.
  - simpl. by rewrite E1, E2, E3.
Qed.

Lemma trimHead_suffix l : trimHead l `suffix_of` l.
Proof.
  induction l as [l Hl|c l E1 IH|c d l E1 E2 IH|c d e l E1 E2 E3 IH] using trimHead_ind.
  - by rewrite trimHead_id.
  - simpl. rewrite E1. by apply suffix_cons_r.
  - simpl. rewrite E1, E2. by repeat apply suffix_cons_r.
  - simpl. rewrite E1, E2, E3. by repeat apply suffix_cons_r.
Qed.

Lemma starts_app l k : starts l = true -> starts (l ++ k) = true.
Proof.
  destruct l as [|c [|d [|e l]]]; simpl; [done| | |done]; rewrite ?orb_false_r; intros H.
  - by rewrite H.
  - apply orb_true_iff in H as [->| ->]; [done|]. simpl. by rewrite orb_true_r.
Qed.

Lemma trimHead_map (f : ascii -> ascii) l :
  (forall c, p1 (f c) = p1 c) -> (forall c d, p2 (f c) (f d) = p2 c d) ->
  (forall c d e, p3 (f c) (f d) (f e) = p3 c d e) ->
  trimHead (f <$> l) = f <$> trimHead l.
Proof.
  intros F1 F2 F3.
  induction l as [l Hl|c l E1 IH|c d l E1 E2 IH|c d e l E1 E2 E3 IH] using trimHead_ind.
  - rewrite (trimHead_id l) by done. apply trimHead_id.
    destruct l as [|c [|d [|e l]]]; simpl in *; by rewrite ?F1, ?F2, ?F3.
  - simpl. by rewrite F1, E1.
  - simpl. by rewrite F1, E1, F2, E2.
  - simpl. by rewrite F1, E1, F2, E2, F3, E3.
Qed.
End Trim.

Definition trimLeft : list ascii -> list ascii := trimHead space1 space2 space3.
Definition trimRight (l : list ascii) : list ascii :=
  reverse (trimHead space1 (λ d c, space2 c d) (λ e d c, space3 c d e) (reverse l)).

Definition chars : string -> list ascii := String.list_ascii_of_string.
Definition text : list ascii -> string := String.string_of_list_ascii.

(** [strings.TrimSpace]. *)
Definition TrimSpace (s : string) : string := text (trimRight (trimLeft (chars s))).

(** A domain name as the ban lists keep it. *)
Definition normal (s : string) : string := ToLower (TrimSpace s).

(** ** Trimming twice is trimming once *)
Lemma chars_text l : chars (text l) = l.
Proof. apply String.list_ascii_of_string_of_list_ascii. Qed.
Lemma text_chars s : text (chars s) = s.
Proof. apply String.string_of_list_ascii_of_string. Qed.

Lemma trimRight_prefix l : trimRight l `prefix_of` l.
Proof.
  unfold trimRight. destruct (trimHead_suffix space1 (λ d c, space2 c d) (λ e d c, space3 c d e)
    (reverse l)) as [k Hk].
  exists (reverse k). rewrite <- reverse_app, <- Hk. by rewrite reverse_involutive.
Qed.

Lemma trimLeft_kept l : trimLeft l = l -> trimLeft (trimRight l) = trimRight l.
Proof.
  intros Hl. apply trimHead_id. destruct (starts _ _ _ (trimRight l)) eqn:Hs; [|done].
  destruct (trimRight_prefix l) as [k Hk].
  apply (starts_app _ _ _ _ k) in Hs. rewrite <- Hk, <- Hl in Hs.
  unfold trimLeft in Hs. by rewrite trimHead_starts in Hs.
Qed.

Lemma trimLeft_idemp l : trimLeft (trimLeft l) = trimLeft l.
Proof. apply trimHead_id, trimHead_starts. Qed.
Lemma trimRight_idemp l : trimRight (trimRight l) = trimRight l.
Proof.
  unfold trimRight. rewrite reverse_involutive. f_equal. apply trimHead_id, trimHead_starts.
Qed.

Lemma TrimSpace_idemp s : TrimSpace (TrimSpace s) = TrimSpace s.
Proof.
  unfold TrimSpace. rewrite chars_text. f_equal.
  rewrite trimLeft_kept by apply trimLeft_idemp. apply trimRight_idemp.
Qed.

Lemma chars_ToLower s : chars (ToLower s) = lowerChar <$> chars s.
Proof. unfold chars. induction s as [|c s IH]; [done|]. simpl. by rewrite IH. Qed.

(** Lower-casing neither makes nor removes white space: over all 256 bytes. *)
Definition all_bytes : list ascii := ascii_of_nat <$> seq 0 256.
Lemma every_byte (P : ascii -> bool) : forallb P all_bytes = true -> forall c, P c = true.
Proof.
  intros H c. rewrite forallb_forall in H. apply H. unfold all_bytes.
  apply list_elem_of_In, list_elem_of_fmap. exists (nat_of_ascii c).
  split; [symmetry; apply ascii_nat_embedding|].
  apply elem_of_seq. pose proof (nat_ascii_bounded c). lia.
Qed.

Lemma lowerChar_idemp c : lowerChar (lowerChar c) = lowerChar c.
Proof.
  apply (bool_decide_unpack _). apply Is_true_true.
  revert c. apply (every_byte (λ c, bool_decide (lowerChar (lowerChar c) = lowerChar c))).
  vm_compute. reflexivity.
Qed.
Lemma ToLower_idemp s : ToLower (ToLower s) = ToLower s.
Proof. induction s as [|c s IH]; [done|]. cbn. by rewrite lowerChar_idemp, IH. Qed.

(** The byte of a white space character is no letter, so lower-casing keeps
    every comparison with it. *)
Lemma lower_eqb n c :
  ((n <? 65)%N || ((90 <? n)%N && (n <? 97)%N) || (122 <? n)%N) = true ->
  (byte (lowerChar c) =? n)%N = (byte c =? n)%N.
Proof.
  intros Hn. unfold byte, lowerChar. pose proof (N_ascii_bounded c) as Hb.
  destruct ((65 <=? N_of_ascii c)%N && (N_of_ascii c <=? 90)%N) eqn:E; [|done].
  apply andb_true_iff in E as [E1%N.leb_le E2%N.leb_le].
  rewrite N_ascii_embedding by lia.
  rewrite !orb_true_iff, andb_true_iff, !N.ltb_lt in Hn.
  rewrite (proj2 (N.eqb_neq _ _)), (proj2 (N.eqb_neq _ _)); [done|lia|lia].
Qed.

Lemma lower_range lo hi c :
  ((hi <? 65)%N || (122 <? lo)%N) = true ->
  ((lo <=? byte (lowerChar c))%N && (byte (lowerChar c) <=? hi)%N) =
  ((lo <=? byte c)%N && (byte c <=? hi)%N).
Proof.
  intros Hn. unfold byte, lowerChar. pose proof (N_ascii_bounded c) as Hb.
  destruct ((65 <=? N_of_ascii c)%N && (N_of_ascii c <=? 90)%N) eqn:E; [|done].
  apply andb_true_iff in E as [E1%N.leb_le E2%N.leb_le].
  rewrite N_ascii_embedding by lia. rewrite orb_true_iff, !N.ltb_lt in Hn.
  apply eq_bool_prop_intro. rewrite !Is_true_true, !andb_true_iff, !N.leb_le. lia.
Qed.

Lemma space1_lower c : space1 (lowerChar c) = space1 c.
Proof. unfold space1. by rewrite lower_range, lower_eqb. Qed.
Lemma space2_lower c d : space2 (lowerChar c) (lowerChar d) = space2 c d.
Proof. unfold space2. by rewrite !lower_eqb. Qed.
Lemma space3_lower c d e : space3 (lowerChar c) (lowerChar d) (lowerChar e) = space3 c d e.
Proof. unfold space3. by rewrite !lower_eqb, lower_range by done. Qed.

Lemma TrimSpace_ToLower s : TrimSpace (ToLower s) = ToLower (TrimSpace s).
Proof.
  unfold TrimSpace. rewrite chars_ToLower. unfold trimLeft, trimRight.
  rewrite trimHead_map by (auto using space1_lower, space2_lower, space3_lower).
  rewrite <- fmap_reverse.
  rewrite trimHead_map by (auto using space1_lower, space2_lower, space3_lower).
  rewrite <- fmap_reverse.
  rewrite <- (text_chars (ToLower _)), chars_ToLower, chars_text. done.
Qed.

Lemma normal_idemp s : normal (normal s) = normal s.
Proof. unfold normal. by rewrite TrimSpace_ToLower, ToLower_idemp, TrimSpace_idemp. Qed.
End GoText.
