(* ===== verification/Strconv.v ===== *)
(** * Strconv: numbers out of text

    What the source uses of [strconv], [time.ParseDuration] and
    [unicode/utf8]: the grammars, the overflow checks and the correctly
    rounded value.  [ParseFloat] divides exact integers once, which rounds as
    the library does. *)

From Stdlib Require Import Ascii.
From S2P Require Import Prelude Float64 Domain Text.
Import GoStrings GoText.

Module Strconv.

Definition isDigit (c : ascii) : bool := (48 <=? byte c)%N && (byte c <=? 57)%N.
Definition digit (c : ascii) : Z := Z.of_N (byte c) - 48.
Definition eqc (c d : ascii) : bool := bool_decide (c = d).

(** An optional sign: whether it is a minus, and what follows. *)
Definition cutSign (s : string) : bool * string :=
  match s with
  | String c t => if eqc c "-" then (true, t) else if eqc c "+" then (false, t) else (false, s)
  | EmptyString => (false, s)
  end.

(** ** [strconv.Atoi] *)
Fixpoint decimal (acc : Z) (s : string) : option Z :=
  match s with
  | EmptyString => Some acc
  | String c s => if isDigit c then decimal (acc * 10 + digit c) s else None
  end.
Definition Atoi (s : string) : option Z :=
  let '(neg, t) := cutSign s in
  if bool_decide (t = "") then None
  else n ← decimal 0 t;
       let n := if (neg : bool) then - n else n in
       if bool_decide (min_i64 <= n <= max_i64) then Some n else None.

(** ** [time.ParseDuration] *)
Definition unitMap (u : string) : option Z :=
  if bool_decide (u = "ns") then Some nanosecond
  else if bool_decide (u = "us") || bool_decide (u = "µs") || bool_decide (u = "μs") then Some 1000
  else if bool_decide (u = "ms") then Some millisecond
  else if bool_decide (u = "s") then Some second
  else if bool_decide (u = "m") then Some minute
  else if bool_decide (u = "h") then Some hour
  else None.

(** [leadingInt]: the digits in front, unless they overflow. *)
Fixpoint leadingInt (x : Z) (s : string) : option (Z * string) :=
  match s with
  | String c t =>
      if isDigit c then
        if bool_decide (2 ^ 63 / 10 < x) then None
        else let x := x * 10 + digit c in
             if bool_decide (2 ^ 63 < x) then None else leadingInt x t
      else Some (x, s)
  | EmptyString => Some (x, s)
  end.

(** [leadingFraction]: digits that no longer fit are dropped. *)
Fixpoint leadingFraction (x : Z) (scale : f64) (overflow : bool) (s : string) : Z * f64 * string :=
  match s with
  | String c t =>
      if isDigit c then
        if overflow then leadingFraction x scale true t
        else if bool_decide ((2 ^ 63 - 1) / 10 < x) then leadingFraction x scale true t
        else let y := x * 10 + digit c in
             if bool_decide (2 ^ 63 < y) then leadingFraction x scale true t
             else leadingFraction y (fmul scale (of_int 10)) false t
      else (x, scale, s)
  | EmptyString => (x, scale, s)
  end.

(** The unit runs up to the next digit or dot. *)
Fixpoint cutUnit (s : string) : string * string :=
  match s with
  | String c t =>
      if eqc c "." || isDigit c then (EmptyString, s)
      else let '(u, rest) := cutUnit t in (String c u, rest)
  | EmptyString => (EmptyString, EmptyString)
  end.

(** What [float64] to [uint64] does to a fraction of a unit: below 2^63 it is
    the truncation. *)
Definition truncate (x : f64) : Z := default 0 (ftrunc x).

(** One number with its unit, in nanoseconds. *)
Definition term (s : string) : option (Z * string) :=
  match s with
  | EmptyString => None
  | String c _ =>
      if negb (eqc c "." || isDigit c) then None
      else
        '(v, s1) ← leadingInt 0 s;
        let pre := negb (bool_decide (s1 = s)) in
        let '(f, scale, s2, post) :=
          match s1 with
          | String d t =>
              if eqc d "." then
                let '(f, scale, s2) := leadingFraction 0 (of_int 1) false t in
                (f, scale, s2, negb (bool_decide (s2 = t)))
              else (0, of_int 1, s1, false)
          | EmptyString => (0, of_int 1, s1, false)
          end in
        if negb (pre || (post : bool)) then None
        else
          let '(u, rest) := cutUnit s2 in
          if bool_decide (u = "") then None
          else
            unit ← unitMap u;
            if bool_decide (2 ^ 63 / unit < v) then None
            else
              let v := v * unit in
              if bool_decide (0 < f) then
                let v := v + truncate (fmul (of_int f) (fdiv (of_int unit) scale)) in
                if bool_decide (2 ^ 63 < v) then None else Some (v, rest)
              else Some (v, rest)
  end.

(** The loop over the terms; each consumes at least one byte. *)
Fixpoint terms (fuel : nat) (d : Z) (s : string) : option Z :=
  match s, fuel with
  | EmptyString, _ => Some d
  | _, O => None
  | _, S fuel =>
      '(v, rest) ← term s;
      let d := d + v in
      if bool_decide (2 ^ 63 < d) then None else terms fuel d rest
  end.

Definition ParseDuration (s : string) : option Z :=
  let '(neg, t) := cutSign s in
  if bool_decide (t = "0") then Some 0
  else if bool_decide (t = "") then None
  else d ← terms (String.length t) 0 t;
       if (neg : bool) then Some (- d)
       else if bool_decide (2 ^ 63 - 1 < d) then None else Some d.

(** [Duration.Milliseconds]: towards zero. *)
Definition Milliseconds (d : Z) : Z := Z.quot d millisecond.

(** ** [strconv.ParseFloat(s, 64)] *)
Definition isHex (c : ascii) : bool :=
  let n := byte (lowerChar c) in isDigit c || ((97 <=? n)%N && (n <=? 102)%N).
Definition hexDigit (c : ascii) : Z :=
  if isDigit c then digit c else Z.of_N (byte (lowerChar c)) - 87.

(** ** [strconv.ParseUint] in base 16, of 64 bits *)
Fixpoint hexadecimal (acc : Z) (s : string) : option Z :=
  match s with
  | EmptyString => Some acc
  | String c s => if isHex c then hexadecimal (acc * 16 + hexDigit c) s else None
  end.
Definition ParseUint16 (s : string) : option Z :=
  if bool_decide (s = "") then None
  else n ← hexadecimal 0 s; if bool_decide (n <= max_u64) then Some n else None.

Definition special (s : string) : option f64 :=
  let '(neg, t) := cutSign s in
  let signed := negb (bool_decide (s = t)) in
  let t := ToLower t in
  if bool_decide (t = "inf") || bool_decide (t = "infinity") then Some (S754_infinity neg)
  else if negb signed && bool_decide (t = "nan") then Some S754_nan
  else None.

Record mantissa := mkMant { mant : Z; scaleExp : Z; sawDot : bool; sawDigits : bool; sawUnder : bool }.

(** The digits: their value, and how many came after the dot. *)
Fixpoint readMantissa (hex : bool) (m : mantissa) (s : string) : mantissa * string :=
  match s with
  | EmptyString => (m, s)
  | String c t =>
      if eqc c "_" then readMantissa hex (mkMant (mant m) (scaleExp m) (sawDot m) (sawDigits m) true) t
      else if eqc c "." then
        if sawDot m then (m, s)
        else readMantissa hex (mkMant (mant m) (scaleExp m) true (sawDigits m) (sawUnder m)) t
      else if if hex then isHex c else isDigit c then
        readMantissa hex (mkMant (mant m * (if hex then 16 else 10) + hexDigit c)
          (if sawDot m then scaleExp m - (if hex then 4 else 1) else scaleExp m)
          (sawDot m) true (sawUnder m)) t
      else (m, s)
  end.

Fixpoint readExponent (e : Z) (under : bool) (s : string) : Z * bool * string :=
  match s with
  | EmptyString => (e, under, s)
  | String c t =>
      if isDigit c then readExponent (if bool_decide (e < 10000) then e * 10 + digit c else e) under t
      else if eqc c "_" then readExponent e true t
      else (e, under, s)
  end.

(** [underscoreOK]: underscores only between digits, the base prefix counting
    as one.  The state is the class of the byte before. *)
Inductive seen := SStart | SDigit | SUnder | SOther.
Fixpoint underscoresFrom (hex : bool) (saw : seen) (s : string) : bool :=
  match s with
  | EmptyString => match saw with SUnder => false | _ => true end
  | String c t =>
      if if hex then isHex c else isDigit c then underscoresFrom hex SDigit t
      else if eqc c "_" then match saw with SDigit => underscoresFrom hex SUnder t | _ => false end
      else match saw with SUnder => false | _ => underscoresFrom hex SOther t end
  end.
Definition underscoreOK (s : string) : bool :=
  let '(_, t) := cutSign s in
  match t with
  | String z (String x t') =>
      let l := lowerChar x in
      if eqc z "0" && (eqc l "b" || eqc l "o" || eqc l "x")
      then underscoresFrom (eqc l "x") SDigit t' else underscoresFrom false SStart t
  | _ => underscoresFrom false SStart t
  end.

Definition cutHex (s : string) : bool * string :=
  match s with
  | String z (String x (String y t)) =>
      if eqc z "0" && eqc (lowerChar x) "x" then (true, String y t) else (false, s)
  | _ => (false, s)
  end.

(** [mant * base^exp], rounded once. *)
Definition scaled (neg : bool) (m base exp : Z) : f64 :=
  match m with
  | Zpos p =>
      if bool_decide (0 <= exp) then
        match p * Z.to_pos (base ^ exp) with q => binary_normalize 53 1024 (if neg then Zneg q else Zpos q) 0 neg end%positive
      else fdiv (S754_finite neg p 0) (S754_finite false (Z.to_pos (base ^ (- exp))) 0)
  | _ => S754_zero neg
  end.

Definition readFloat (s : string) : option f64 :=
  let '(neg, t) := cutSign s in
  let '(hex, t) := cutHex t in
  let '(m, rest) := readMantissa hex (mkMant 0 0 false false false) t in
  if negb (sawDigits m) then None
  else
    '(e, under, rest) ←
      (match rest with
       | String c t =>
           if eqc (lowerChar c) (if hex then "p" else "e")%char then
             let '(eneg, t) := cutSign t in
             match t with
             | String d _ => if isDigit d then
                 let '(e, under, rest) := readExponent 0 false t in
                 Some ((if (eneg : bool) then - e else e), under, rest) else None
             | EmptyString => None
             end
           else if hex then None else Some (0, false, rest)
       | EmptyString => if hex then None else Some (0, false, rest)
       end);
    if negb (bool_decide (rest = "")) then None
    else if (sawUnder m || under) && negb (underscoreOK s) then None
    else
      let x := if hex then scaled neg (mant m) 2 (scaleExp m + e)
               else scaled neg (mant m) 10 (scaleExp m + e) in
      if is_inf x then None else Some x.

Definition ParseFloat (s : string) : option f64 :=
  match special s with Some x => Some x | None => readFloat s end.

(** ** Runes of a UTF-8 text: [len(\[\]rune(s))] *)
Definition cont (lo hi : N) (c : ascii) : bool := (lo <=? byte c)%N && (byte c <=? hi)%N.
(** The bounds of the second byte after a lead byte, and how many more follow. *)
Definition lead (c : ascii) : option (N * N * nat) :=
  let n := byte c in
  if (194 <=? n)%N && (n <=? 223)%N then Some (128%N, 191%N, 0%nat)
  else if (n =? 224)%N then Some (160%N, 191%N, 1%nat)
  else if (n =? 237)%N then Some (128%N, 159%N, 1%nat)
  else if (225 <=? n)%N && (n <=? 239)%N then Some (128%N, 191%N, 1%nat)
  else if (n =? 240)%N then Some (144%N, 191%N, 2%nat)
  else if (241 <=? n)%N && (n <=? 243)%N then Some (128%N, 191%N, 2%nat)
  else if (n =? 244)%N then Some (128%N, 143%N, 2%nat)
  else None.
Definition c1 := cont 128 191.

(** An invalid byte is one rune. *)
Fixpoint RuneCount (l : list ascii) : Z :=
  match l with
  | [] => 0
  | c :: t =>
      match lead c, t with
      | Some (lo, hi, 0%nat), a :: t1 => 1 + (if cont lo hi a then RuneCount t1 else RuneCount t)
      | Some (lo, hi, 1%nat), a :: (b :: t2) => 1 + (if cont lo hi a && c1 b then RuneCount t2 else RuneCount t)
      | Some (lo, hi, _), a :: (b :: (d :: t3)) =>
          1 + (if cont lo hi a && c1 b && c1 d then RuneCount t3 else RuneCount t)
      | _, _ => 1 + RuneCount t
      end
  end.

(** The grammar on samples. *)
Example atoi_samples : Atoi "-42" = Some (-42) /\ Atoi "4_2" = None /\ Atoi "9223372036854775808" = None.
Proof. vm_compute. done. Qed.
Example duration_samples :
  ParseDuration "1h30m" = Some (5400 * second) /\ ParseDuration "1.5s" = Some (1500 * millisecond) /\
  ParseDuration "-500us" = Some (-500000) /\ ParseDuration "3" = None /\ ParseDuration ".s" = None.
Proof. vm_compute. done. Qed.
Example float_samples :
  ParseFloat "0.35" = Some (lit 35 100) /\ ParseFloat "nan" = Some S754_nan /\ ParseFloat "1e400" = None /\
  ParseFloat "0x1p-2" = Some (lit 1 4) /\ ParseFloat "-1_0.5" = Some (lit (-21) 2) /\ ParseFloat "1__0" = None.
Proof. vm_compute. done. Qed.
End Strconv.
