(* ===== verification/Json.v ===== *)
(** * Json: the scanner of [encoding/json]

    What the source uses of Go's [encoding/json] on raw text: [Valid],
    [Compact], [HTMLEscape] and what [Marshal] makes of a [RawMessage].  The
    scanner is a machine over bytes with a stack of the objects and arrays that
    are open, as in the library; text is a list of bytes ([ascii]). *)

From Stdlib Require Import Ascii.
From stdpp Require Import strings.
From S2P Require Import Prelude Domain Text Strconv.

Module Json.

Definition code (c : ascii) : Z := Z.of_N (N_of_ascii c).
Definition isSpace (c : ascii) : bool :=
  let n := code c in (n =? 32) || (n =? 9) || (n =? 13) || (n =? 10).
Definition isDigit (c : ascii) : bool := (48 <=? code c) && (code c <=? 57).
Definition isHexDigit (c : ascii) : bool :=
  isDigit c || ((97 <=? code c) && (code c <=? 102)) || ((65 <=? code c) && (code c <=? 70)).
Definition at_ (c : ascii) (n : Z) : bool := code c =? n.

(** ** The scanner *)
Inductive step :=
  | BeginValueOrEmpty | BeginValue | BeginStringOrEmpty | BeginString | EndValue | EndTop
  | InString | InStringEsc | InStringEscU (n : nat)
  | Neg | One | Zero | Dot | Dot0 | Exp | ExpSign | Exp0
  | T | Tr | Tru | F | Fa | Fal | Fals | N | Nu | Nul.
Inductive parse := ObjectKey | ObjectValue | ArrayValue.
Record scanner := mkScanner { at_step : step; parseState : list parse; endTop : bool }.

(** What a byte was: part of the text, space to skip, space after the value, or
    an error. *)
Inductive op := Continue | SkipSpace | End_ | Error_.
#[export] Instance op_eq_dec : EqDecision op.
Proof. solve_decision. Defined.

Definition start : scanner := mkScanner BeginValue [] false.
Definition maxNestingDepth : Z := 10000.
Definition depthOK (ps : list parse) : bool := Z.of_nat (length ps) <=? maxNestingDepth.
Definition go (s : scanner) (st : step) : op * scanner := (Continue, mkScanner st (parseState s) (endTop s)).
Definition fail (s : scanner) : op * scanner := (Error_, s).
Definition push (s : scanner) (p : parse) (st : step) : op * scanner :=
  let s' := mkScanner st (p :: parseState s) (endTop s) in
  if depthOK (parseState s') then (Continue, s') else (Error_, s').
Definition pop (s : scanner) : op * scanner :=
  match parseState s with
  | [] | [_] => (Continue, mkScanner EndTop [] true)
  | _ :: ps => (Continue, mkScanner EndValue ps (endTop s))
  end.
Definition top (s : scanner) (p : parse) (st : step) : scanner :=
  mkScanner st (p :: tail (parseState s)) (endTop s).

Definition stateEndTop (s : scanner) (c : ascii) : op * scanner :=
  if isSpace c then (End_, s) else fail s.
Definition stateEndValue (s : scanner) (c : ascii) : op * scanner :=
  match parseState s with
  | [] => stateEndTop (mkScanner EndTop [] true) c
  | p :: _ =>
      if isSpace c then (SkipSpace, mkScanner EndValue (parseState s) (endTop s))
      else match p with
           | ObjectKey => if at_ c 58 then (Continue, top s ObjectValue BeginValue) else fail s
           | ObjectValue =>
               if at_ c 44 then (Continue, top s ObjectKey BeginString)
               else if at_ c 125 then pop s else fail s
           | ArrayValue =>
               if at_ c 44 then go s BeginValue else if at_ c 93 then pop s else fail s
           end
  end.
Definition stateBeginString (s : scanner) (c : ascii) : op * scanner :=
  if isSpace c then (SkipSpace, s) else if at_ c 34 then go s InString else fail s.
Definition stateBeginValue (s : scanner) (c : ascii) : op * scanner :=
  if isSpace c then (SkipSpace, s)
  else if at_ c 123 then push s ObjectKey BeginStringOrEmpty
  else if at_ c 91 then push s ArrayValue BeginValueOrEmpty
  else if at_ c 34 then go s InString
  else if at_ c 45 then go s Neg
  else if at_ c 48 then go s Zero
  else if at_ c 116 then go s T
  else if at_ c 102 then go s F
  else if at_ c 110 then go s N
  else if isDigit c then go s One
  else fail s.
Definition state0 (s : scanner) (c : ascii) : op * scanner :=
  if at_ c 46 then go s Dot
  else if at_ c 101 || at_ c 69 then go s Exp
  else stateEndValue s c.
Definition stateESign (s : scanner) (c : ascii) : op * scanner :=
  if isDigit c then go s Exp0 else fail s.

(** [s.step(s, c)]. *)
Definition scan (s : scanner) (c : ascii) : op * scanner :=
  match at_step s with
  | BeginValueOrEmpty =>
      if isSpace c then (SkipSpace, s) else if at_ c 93 then stateEndValue s c else stateBeginValue s c
  | BeginValue => stateBeginValue s c
  | BeginStringOrEmpty =>
      if isSpace c then (SkipSpace, s)
      else if at_ c 125 then stateEndValue (top s ObjectValue BeginStringOrEmpty) c
      else stateBeginString s c
  | BeginString => stateBeginString s c
  | EndValue => stateEndValue s c
  | EndTop => stateEndTop s c
  | InString =>
      if at_ c 34 then go s EndValue
      else if at_ c 92 then go s InStringEsc
      else if code c <? 32 then fail s
      else go s InString
  | InStringEsc =>
      if at_ c 98 || at_ c 102 || at_ c 110 || at_ c 114 || at_ c 116 || at_ c 92 || at_ c 47 || at_ c 34
      then go s InString
      else if at_ c 117 then go s (InStringEscU 3) else fail s
  | InStringEscU n =>
      if isHexDigit c then go s (match n with O => InString | S n => InStringEscU n end) else fail s
  | Neg => if at_ c 48 then go s Zero else if isDigit c then go s One else fail s
  | One => if isDigit c then go s One else state0 s c
  | Zero => state0 s c
  | Dot => if isDigit c then go s Dot0 else fail s
  | Dot0 =>
      if isDigit c then go s Dot0
      else if at_ c 101 || at_ c 69 then go s Exp else stateEndValue s c
  | Exp => if at_ c 43 || at_ c 45 then go s ExpSign else stateESign s c
  | ExpSign => stateESign s c
  | Exp0 => if isDigit c then go s Exp0 else stateEndValue s c
  | T => if at_ c 114 then go s Tr else fail s
  | Tr => if at_ c 117 then go s Tru else fail s
  | Tru => if at_ c 101 then go s EndValue else fail s
  | F => if at_ c 97 then go s Fa else fail s
  | Fa => if at_ c 108 then go s Fal else fail s
  | Fal => if at_ c 115 then go s Fals else fail s
  | Fals => if at_ c 101 then go s EndValue else fail s
  | N => if at_ c 117 then go s Nu else fail s
  | Nu => if at_ c 108 then go s Nul else fail s
  | Nul => if at_ c 108 then go s EndValue else fail s
  end.
Definition eof (s : scanner) : bool :=
  endTop s || endTop (scan s " "%char).2.

(** ** [Valid] *)
Fixpoint checkValid (s : scanner) (data : list ascii) : bool :=
  match data with
  | [] => eof s
  | c :: data => let '(o, s) := scan s c in negb (bool_decide (o = Error_)) && checkValid s data
  end.
Definition Valid (data : string) : bool := checkValid start (GoText.chars data).

(** ** [HTMLEscape] and [Compact] *)
Definition hex (n : Z) : ascii := ascii_of_N (Z.to_N (if n <? 10 then n + 48 else n + 87)).
Definition isHTML (c : ascii) : bool := at_ c 60 || at_ c 62 || at_ c 38.
Definition escapeHTML (c : ascii) : list ascii :=
  GoText.chars "\u00" ++ [hex (code c / 16); hex (code c mod 16)].
(** U+2028 and U+2029. *)
Definition isLineSep (c d e : ascii) : bool :=
  at_ c 226 && at_ d 128 && (at_ e 168 || at_ e 169).
Definition escapeSep (e : ascii) : list ascii := GoText.chars "\u202" ++ [hex (code e mod 16)].

Fixpoint HTMLEscape (src : list ascii) : list ascii :=
  match src with
  | [] => []
  | c :: src =>
      if isHTML c then escapeHTML c ++ HTMLEscape src
      else match src with
           | d :: e :: rest =>
               if isLineSep c d e then escapeSep e ++ HTMLEscape rest else c :: HTMLEscape src
           | _ => c :: HTMLEscape src
           end
  end.

(** [appendCompact]: what is appended, [None] for its error.  [held] is how many
    of the coming bytes an escape has already written. *)
Fixpoint compactFrom (escape : bool) (s : scanner) (held : nat) (src : list ascii) : option (list ascii) :=
  match src with
  | [] => if eof s then Some [] else None
  | c :: rest =>
      let '(o, s') := scan s c in
      match o with
      | Error_ => None
      | SkipSpace | End_ => compactFrom escape s' (pred held) rest
      | Continue =>
          match held with
          | S held => compactFrom escape s' held rest
          | O =>
              if escape && isHTML c then app (escapeHTML c) <$> compactFrom escape s' O rest
              else match rest with
                   | d :: e :: _ =>
                       if escape && isLineSep c d e
                       then app (escapeSep e) <$> compactFrom escape s' 2 rest
                       else cons c <$> compactFrom escape s' O rest
                   | _ => cons c <$> compactFrom escape s' O rest
                   end
          end
      end
  end.
Definition appendCompact (escape : bool) (src : list ascii) : option (list ascii) :=
  compactFrom escape start O src.
Definition Compact (src : list ascii) : option (list ascii) := appendCompact false src.

(** What [Marshal] writes for a [[]RawMessage]: nil is [null], anything else is
    compacted and escaped in one pass. *)
Definition marshalItem (r : option (list ascii)) : option (list ascii) :=
  match r with None => Some (GoText.chars "null") | Some r => appendCompact true r end.
Fixpoint joinItems (items : list (option (list ascii))) : option (list ascii) :=
  match items with
  | [] => Some []
  | [i] => i
  | i :: items => i ← i; rest ← joinItems items; Some (i ++ [","%char] ++ rest)
  end.
Definition Marshal (results : list (option (list ascii))) : option (list ascii) :=
  items ← joinItems (marshalItem <$> results); Some (["["%char] ++ items ++ ["]"%char]).

(** What [Marshal] writes for a string: [appendString] with its HTML escapes.
    A byte that starts no valid encoding is the replacement character. *)
Definition escapeChar (c : ascii) : list ascii :=
  if at_ c 34 || at_ c 92 then ["\"%char; c]
  else if at_ c 8 then GoText.chars "\b"
  else if at_ c 12 then GoText.chars "\f"
  else if at_ c 10 then GoText.chars "\n"
  else if at_ c 13 then GoText.chars "\r"
  else if at_ c 9 then GoText.chars "\t"
  else if (code c <? 32) || isHTML c then escapeHTML c
  else [c].
Definition badRune : list ascii := GoText.chars "\ufffd".
Fixpoint appendChars (src : list ascii) : list ascii :=
  match src with
  | [] => []
  | c :: src =>
      if code c <? 128 then escapeChar c ++ appendChars src
      else
        match Strconv.lead c, src with
        | Some (lo, hi, 0%nat), a :: t =>
            if Strconv.cont lo hi a then [c; a] ++ appendChars t else badRune ++ appendChars src
        | Some (lo, hi, 1%nat), a :: (b :: t) =>
            if Strconv.cont lo hi a && Strconv.c1 b then
              (if isLineSep c a b then escapeSep b else [c; a; b]) ++ appendChars t
            else badRune ++ appendChars src
        | Some (lo, hi, _), a :: (b :: (d :: t)) =>
            if Strconv.cont lo hi a && Strconv.c1 b && Strconv.c1 d then [c; a; b; d] ++ appendChars t
            else badRune ++ appendChars src
        | _, _ => badRune ++ appendChars src
        end
  end.
Definition appendString (src : list ascii) : list ascii :=
  ascii_of_nat 34 :: (appendChars src ++ [ascii_of_nat 34]).

(** ** Compacting then escaping is escaping while compacting *)

(** A byte inside a string that neither ends it nor escapes. *)
Definition plain (c : ascii) : bool :=
  negb (at_ c 34 || at_ c 92) && (32 <=? code c).
Lemma scan_plain s c : at_step s = InString -> plain c = true -> scan s c = (Continue, s).
Proof.
  destruct s as [st ps e]. unfold plain, scan. simpl. intros ->.
  rewrite andb_true_iff, negb_true_iff, orb_false_iff. intros [[-> ->] Hc].
  by destruct (code c <? 32) eqn:E; [lia|].
Qed.
Lemma at_char c n : 0 <= n < 256 -> at_ c n = true -> c = ascii_of_N (Z.to_N n).
Proof.
  unfold at_, code. intros Hn H%Z.eqb_eq. rewrite <- H, N2Z.id. by rewrite ascii_N_embedding.
Qed.
(** The lead byte of a line separator is accepted nowhere else. *)
Lemma scan_lead s c s' : at_ c 226 = true -> scan s c = (Continue, s') -> at_step s = InString /\ s' = s.
Proof.
  intros ->%at_char; [|lia]. destruct s as [st ps e]. unfold scan. simpl.
  destruct st as [| | | | | | | |[|n]| | | | | | | | | | | | | | | | | |]; try done;
    unfold stateBeginValue, stateBeginString, stateEndValue, stateEndTop, state0, stateESign; simpl;
    try done; try (destruct ps as [|[] ps]; done).
  by intros [= <-].
Qed.
Lemma lineSep_plain c d e : isLineSep c d e = true ->
  plain d = true /\ plain e = true /\ isHTML c = false /\ at_ c 226 = true.
Proof.
  unfold isLineSep. rewrite !andb_true_iff, orb_true_iff. intros [[Hc Hd] He].
  split_and!; [| | |done].
  - apply at_char in Hd; [|lia]. by subst.
  - destruct He as [He|He]; apply at_char in He; [|lia| |lia]; by subst.
  - apply at_char in Hc; [|lia]. by subst.
Qed.

Lemma compact_held (b : bool) s d e rest :
  at_step s = InString -> plain d = true -> plain e = true ->
  compactFrom b s 2 (d :: e :: rest) = compactFrom b s O rest.
Proof. intros Hs Hd He. cbn [compactFrom]. rewrite !scan_plain by done. done. Qed.

Lemma compact_keep s c s' rest :
  scan s c = (Continue, s') ->
  compactFrom false s O (c :: rest) = cons c <$> compactFrom false s' O rest.
Proof. intros H. cbn [compactFrom]. rewrite H. by destruct rest as [|d [|e rest]]. Qed.
Lemma compact_skip (b : bool) s c s' o rest :
  scan s c = (o, s') -> o <> Continue -> o <> Error_ ->
  compactFrom b s O (c :: rest) = compactFrom b s' O rest.
Proof. intros H Ho He. cbn [compactFrom]. rewrite H. by destruct o. Qed.

(** Inside a string the first byte that comes out is the first that goes in. *)
Lemma string_scan s c : at_step s = InString ->
  exists o s', scan s c = (o, s') /\ (o = Continue \/ o = Error_).
Proof.
  intros Hs. unfold scan. rewrite Hs. unfold go, fail.
  destruct (at_ c 34), (at_ c 92), (code c <? 32); eauto.
Qed.
Lemma compact_head s src d X :
  at_step s = InString -> compactFrom false s O src = Some (d :: X) ->
  exists rest, src = d :: rest /\ compactFrom false (scan s d).2 O rest = Some X.
Proof.
  intros Hs. destruct src as [|c rest]; [cbn [compactFrom]; by destruct (eof s)|].
  destruct (string_scan s c Hs) as (o & s' & E & [->| ->]).
  - rewrite (compact_keep _ _ _ _ E). intros (X' & HX & [= -> ->])%fmap_Some. exists rest. by rewrite E.
  - cbn [compactFrom]. by rewrite E.
Qed.
Lemma escape_after s c s' rest X :
  scan s c = (Continue, s') -> isHTML c = false ->
  (forall d e rest', rest = d :: e :: rest' -> isLineSep c d e = false) ->
  compactFrom false s' O rest = Some X -> HTMLEscape (c :: X) = c :: HTMLEscape X.
Proof.
  intros Hs Hc Hsep HX. cbn [HTMLEscape]. rewrite Hc. destruct X as [|d [|e X]]; try done.
  destruct (isLineSep c d e) eqn:E; [|done]. exfalso.
  destruct (lineSep_plain _ _ _ E) as (Hd & _ & _ & Hl). destruct (scan_lead _ _ _ Hl Hs) as [Hst ->].
  destruct (compact_head _ _ _ _ Hst HX) as (r1 & -> & H1). rewrite (scan_plain s d Hst Hd) in H1.
  destruct (compact_head _ _ _ _ Hst H1) as (r2 & -> & _). by rewrite (Hsep d e r2) in E.
Qed.

Lemma escaping_commutes s src :
  compactFrom true s O src = HTMLEscape <$> compactFrom false s O src.
Proof.
  remember (length src) as n eqn:Hn. revert s src Hn.
  induction n as [n IH] using (well_founded_induction lt_wf). intros s [|c rest] ->.
  { cbn [compactFrom]. by destruct (eof s). }
  destruct (scan s c) as [o s'] eqn:E.
  destruct (decide (o = Error_)) as [->|He]; [cbn [compactFrom]; by rewrite E|].
  destruct (decide (o = Continue)) as [->|Ho]; [|rewrite !(compact_skip _ _ _ _ _ _ E) by done; eapply IH; [|done]; simpl; lia].
  rewrite (compact_keep _ _ _ _ E).
  assert (forall k t, (length k < length (c :: rest))%nat -> 
    compactFrom true t O k = HTMLEscape <$> compactFrom false t O k) as IH' by (intros; by eapply IH).
  clear IH. destruct (isHTML c) eqn:Hc.
  - cbn [compactFrom]. rewrite E, Hc. cbn [andb]. rewrite IH' by (simpl; lia).
    rewrite <- !option_fmap_compose. apply option_fmap_ext. intros X. cbn [compose HTMLEscape]. by rewrite Hc.
  - destruct (match rest with d :: e :: _ => isLineSep c d e | _ => false end) eqn:Hsep.
    + destruct rest as [|d [|e rest]]; [done..|].
      destruct (lineSep_plain _ _ _ Hsep) as (Hd & He' & _ & Hl).
      destruct (scan_lead _ _ _ Hl E) as [Hst ->].
      assert (compactFrom true s O (c :: d :: e :: rest) = app (escapeSep e) <$> compactFrom true s 2 (d :: e :: rest)) as ->.
      { cbn [compactFrom]. rewrite E, Hc. cbn [andb]. by rewrite Hsep. }
      rewrite compact_held, IH' by (done || simpl; lia).
      rewrite !(compact_keep s _ s) by (by apply scan_plain).
      rewrite <- !option_fmap_compose. apply option_fmap_ext. intros X. cbn [compose HTMLEscape].
      by rewrite Hc, Hsep.
    + assert (compactFrom true s O (c :: rest) = cons c <$> compactFrom true s' O rest) as ->.
      { cbn [compactFrom]. rewrite E, Hc. cbn [andb].
        destruct rest as [|d [|e rest]]; [done..|]. by rewrite Hsep. }
      rewrite IH' by (simpl; lia). destruct (compactFrom false s' O rest) as [X|] eqn:HX; [|done].
      cbn [fmap option_fmap option_map]. f_equal. symmetry. eapply escape_after; [exact E|done| |done].
      intros d e r ->. done.
Qed.

(** A text compacts exactly when it is one JSON value. *)
Lemma compact_valid s src : is_Some (compactFrom false s O src) <-> checkValid s src = true.
Proof.
  revert s. induction src as [|c src IH]; intros s.
  - cbn [compactFrom checkValid]. destruct (eof s); [by split; eauto|split; [by intros []|done]].
  - destruct (scan s c) as [o s'] eqn:E. cbn [checkValid]. rewrite E.
    destruct (decide (o = Error_)) as [->|He]; [cbn [compactFrom]; rewrite E; split; [by intros []|done]|].
    rewrite bool_decide_eq_false_2 by done. cbn [negb andb]. rewrite <- IH.
    destruct (decide (o = Continue)) as [->|Ho].
    + rewrite (compact_keep _ _ _ _ E). apply fmap_is_Some.
    + by rewrite (compact_skip _ _ _ _ _ _ E).
Qed.

(** ** Text written as a string stays inside the string *)
Fixpoint run (s : scanner) (l : list ascii) : option scanner :=
  match l with
  | [] => Some s
  | c :: l => let '(o, s) := scan s c in if bool_decide (o = Error_) then None else run s l
  end.
Lemma run_app s l1 l2 : run s (l1 ++ l2) = s' ← run s l1; run s' l2.
Proof.
  revert s. induction l1 as [|c l1 IH]; intros s; [done|]. simpl.
  destruct (scan s c) as [o s']. case_bool_decide; [done|]. apply IH.
Qed.
Lemma checkValid_run s l1 l2 :
  checkValid s (l1 ++ l2) = match run s l1 with Some s' => checkValid s' l2 | None => false end.
Proof.
  revert s. induction l1 as [|c l1 IH]; intros s; [done|]. simpl.
  destruct (scan s c) as [o s']. case_bool_decide; [done|]. apply IH.
Qed.
Lemma run_plain s l : at_step s = InString -> forallb plain l = true -> run s l = Some s.
Proof.
  intros Hs. induction l as [|c l IH]; [done|]. simpl. intros [Hc Hl]%andb_true_iff.
  rewrite scan_plain by done. by apply IH.
Qed.
Lemma high_plain c : 128 <= code c -> plain c = true.
Proof. unfold plain, at_. intros H. rewrite !andb_true_iff, negb_true_iff, orb_false_iff. lia. Qed.
Lemma cont_plain lo hi c : (128 <= lo)%N -> Strconv.cont lo hi c = true -> plain c = true.
Proof.
  unfold Strconv.cont. intros Hlo [H%N.leb_le _]%andb_true_iff. apply high_plain.
  unfold code. unfold GoText.byte in H. lia.
Qed.
Lemma lead_low c lo hi n : Strconv.lead c = Some (lo, hi, n) -> (128 <= lo)%N.
Proof.
  unfold Strconv.lead. intros H.
  repeat match type of H with context [if ?b then _ else _] => destruct b end;
    first [done | injection H as <- <- <-; lia].
Qed.
Lemma hex_digit n : 0 <= n < 16 -> isHexDigit (hex n) = true.
Proof.
  intros H. assert (n ∈ seqZ 0 16) as Hin by (apply elem_of_seqZ; lia).
  revert Hin. by repeat (intros [->|Hin]%elem_of_cons; [reflexivity|revert Hin]); intros []%elem_of_nil.
Qed.
Lemma run_unicode s h : at_step s = InString -> forallb isHexDigit h = true -> length h = 4%nat ->
  run s (GoText.chars "\u" ++ h) = Some s.
Proof.
  destruct s as [st ps e]. simpl. intros -> Hh Hl. destruct h as [|a [|b [|c [|d [|]]]]]; try done.
  simpl in Hh. rewrite !andb_true_iff in Hh. destruct Hh as (Ha & Hb & Hc & Hd & _).
  cbn. unfold scan; cbn; rewrite Ha; cbn. unfold scan; cbn; rewrite Hb; cbn.
  unfold scan; cbn; rewrite Hc; cbn. unfold scan; cbn; by rewrite Hd.
Qed.
Lemma run_escape s c : at_step s = InString -> code c < 128 -> run s (escapeChar c) = Some s.
Proof.
  intros Hs Hc. unfold escapeChar.
  assert (0 <= code c) by (unfold code; lia).
  assert (forall c, at_ c 34 = true \/ at_ c 92 = true -> run s ["\"%char; c] = Some s) as Hq.
  { intros x Hx. destruct s as [st ps e]. simpl in Hs. subst.
    destruct Hx as [->%at_char| ->%at_char]; [done|lia|done|lia]. }
  destruct (at_ c 34) eqn:E1; [cbn [orb]; auto|]. destruct (at_ c 92) eqn:E2; [cbn [orb]; auto|]. cbn [orb].
  repeat match goal with |- context [if at_ c ?n then _ else _] =>
    destruct (at_ c n); [destruct s as [st ps e]; simpl in Hs; subst; done|] end.
  destruct ((code c <? 32) || isHTML c) eqn:E.
  - change (escapeHTML c) with (GoText.chars "\u" ++ ["0"%char; "0"%char; hex (code c / 16); hex (code c mod 16)]).
    apply run_unicode; [done| |done]. simpl.
    rewrite !hex_digit; [done|apply Z.mod_pos_bound; lia|].
    split; [by apply Z.div_pos|apply Z.div_lt_upper_bound; lia].
  - apply run_plain; [done|]. simpl. rewrite andb_true_r. unfold plain. rewrite E1, E2.
    apply orb_false_iff in E as [E _]. simpl. lia.
Qed.
Lemma run_bad s : at_step s = InString -> run s badRune = Some s.
Proof. intros H. change badRune with (GoText.chars "\u" ++ GoText.chars "fffd"). by apply run_unicode. Qed.
Lemma run_sep s b : at_step s = InString -> run s (escapeSep b) = Some s.
Proof.
  intros H. change (escapeSep b) with (GoText.chars "\u" ++ ["2"%char; "0"%char; "2"%char; hex (code b mod 16)]).
  apply run_unicode; [done| |done]. simpl. rewrite hex_digit; [done|]. apply Z.mod_pos_bound. lia.
Qed.
Lemma run_chars s src : at_step s = InString -> run s (appendChars src) = Some s.
Proof.
  intros Hs. remember (length src) as n eqn:Hn. revert src Hn.
  induction n as [n IH] using (well_founded_induction lt_wf). intros [|c src] ->; [done|].
  assert (forall t, (length t < length (c :: src))%nat -> run s (appendChars t) = Some s) as IH'.
  { intros t Ht. by eapply IH. }
  clear IH. assert (forall a t, run s a = Some s -> (length t < length (c :: src))%nat ->
    run s (a ++ appendChars t) = Some s) as Hstep.
  { intros a t Ha Ht. rewrite run_app, Ha. simpl. by apply IH'. }
  cbn [appendChars]. destruct (code c <? 128) eqn:E.
  { apply Hstep; [apply run_escape; [done|lia]|simpl; lia]. }
  assert (plain c = true) as Hc by (apply high_plain; lia).
  assert (run s (badRune ++ appendChars src) = Some s) as Hbad by (apply Hstep; [by apply run_bad|simpl; lia]).
  destruct (Strconv.lead c) as [[[lo hi] k]|] eqn:El; [|done]. pose proof (lead_low _ _ _ _ El) as Hlo.
  assert (forall x, Strconv.cont lo hi x = true -> plain x = true) as Hcont by (intros; by eapply cont_plain).
  assert (forall x, Strconv.c1 x = true -> plain x = true) as Hc1
    by (intros x Hx; eapply cont_plain; [|exact Hx]; lia).
  destruct k as [|[|k]].
  - destruct src as [|a t]; [done|]. destruct (Strconv.cont lo hi a) eqn:Ea; [|done].
    apply Hstep; [|simpl; lia]. apply run_plain; [done|]. simpl. by rewrite Hc, (Hcont a Ea).
  - destruct src as [|a [|b t]]; [done..|].
    destruct (Strconv.cont lo hi a && Strconv.c1 b) eqn:Ea; [|done]. apply andb_true_iff in Ea as [Ea Eb].
    apply Hstep; [|simpl; lia]. destruct (isLineSep c a b); [by apply run_sep|].
    apply run_plain; [done|]. simpl. by rewrite Hc, (Hcont a Ea), (Hc1 b Eb).
  - destruct src as [|a [|b [|d t]]]; [done..|].
    destruct (Strconv.cont lo hi a && Strconv.c1 b && Strconv.c1 d) eqn:Ea; [|done].
    rewrite !andb_true_iff in Ea. destruct Ea as [[Ea Eb] Ed].
    apply Hstep; [|simpl; lia]. apply run_plain; [done|]. simpl.
    by rewrite Hc, (Hcont a Ea), (Hc1 b Eb), (Hc1 d Ed).
Qed.

(** So the text a string holds does not decide whether what it is part of is
    JSON. *)
Lemma string_text_free pre post a b : 
  (forall s, run start (pre ++ [ascii_of_nat 34]) = Some s -> at_step s = InString) ->
  checkValid start (pre ++ appendString a ++ post) = checkValid start (pre ++ appendString b ++ post).
Proof.
  intros Hpre. unfold appendString.
  assert (forall x, pre ++ (ascii_of_nat 34 :: (appendChars x ++ [ascii_of_nat 34])) ++ post =
    (pre ++ [ascii_of_nat 34]) ++ (appendChars x ++ ([ascii_of_nat 34] ++ post))) as Hx.
  { intros x. rewrite <- !app_assoc. simpl. by rewrite <- app_assoc. }
  rewrite !Hx, !checkValid_run. destruct (run start _) as [s|] eqn:E; [|done].
  specialize (Hpre s eq_refl). by rewrite !checkValid_run, !(run_chars s) by done.
Qed.
End Json.
