(* ===== verification/CircuitBreaker.v ===== *)
(** * CircuitBreaker: the domain-level circuit breaker
    ([circuitbreaker/breaker.go])

    State, gate, marking, clearing and the Redis merge of the breaker, each
    mutex-protected section as one state transformer.  [view] is what the
    breaker knows about one (service, domain); [Domain] is the machine it
    implements for each of them.  [Race] interleaves the critical sections of
    concurrent [MarkBroken] calls. *)

From S2P Require Import Prelude Float64.

Module CircuitBreaker.

(** ** Configuration and state *)
Definition defaultCacheTTL : Z := 5 * second.
Definition defaultMinTTL : Z := 1 * minute.
Definition defaultMaxTTL : Z := 30 * minute.
Definition defaultKeyPrefix : string := "sage:circuit:".

Definition defaultFailureWindow : Z := 30 * second.
Definition defaultMinFailures : Z := 5.
Definition defaultFailureRateThreshold : f64 := lit 20 100.
Definition defaultEscalationMemory : Z := 60 * minute.
Definition defaultRebreakMargin : f64 := lit 15 100.

Definition OutcomeSuccess : string := "success".
Definition OutcomeFailure : string := "failure".

Record BrokenState := mkBrokenState {
  Expiry : Z;
  HitCount : Z;
  Reason : string;
}.

Definition IsExpired (b : BrokenState) (now : Z) : bool := GoTime.After now (Expiry b).

Record outcomeWindow := mkWindow {
  windowStart : Z;
  failures : Z;
  successes : Z;
  lastEpisodeAt : Z;
  lastHitCount : Z;
}.

(** [Breaker]: the configured fields first, then the state its two mutexes
    guard.  [redis] is whether a Redis client is set, [hook] whether an
    outcome hook is. *)
Record Breaker := mkBreaker {
  redis : bool;
  hook : bool;
  keyPrefix : string;
  cacheTTL : Z;
  failureWindow : Z;
  minFailures : Z;
  failureRateThreshold : f64;
  rebreakMargin : f64;
  escalationMemory : Z;
  broken : gmap string (gmap string BrokenState);
  brokenLocally : gmap string (gmap string Z);
  lastRefresh : gmap string Z;
  stats : gmap string (gmap string outcomeWindow);
}.

Definition with_gate (b : Breaker) (window minF : Z) (threshold : f64) : Breaker :=
  mkBreaker (redis b) (hook b) (keyPrefix b) (cacheTTL b) window minF threshold
    (rebreakMargin b) (escalationMemory b) (broken b) (brokenLocally b) (lastRefresh b) (stats b).

Definition with_broken (b : Breaker) bk bl : Breaker :=
  mkBreaker (redis b) (hook b) (keyPrefix b) (cacheTTL b) (failureWindow b) (minFailures b)
    (failureRateThreshold b) (rebreakMargin b) (escalationMemory b) bk bl (lastRefresh b) (stats b).

Definition with_lastRefresh (b : Breaker) lr : Breaker :=
  mkBreaker (redis b) (hook b) (keyPrefix b) (cacheTTL b) (failureWindow b) (minFailures b)
    (failureRateThreshold b) (rebreakMargin b) (escalationMemory b) (broken b) (brokenLocally b)
    lr (stats b).

Definition with_stats (b : Breaker) st : Breaker :=
  mkBreaker (redis b) (hook b) (keyPrefix b) (cacheTTL b) (failureWindow b) (minFailures b)
    (failureRateThreshold b) (rebreakMargin b) (escalationMemory b) (broken b) (brokenLocally b)
    (lastRefresh b) st.

(** [New] with the defaults; [withRedis] and [withHook] say which of the two
    optional collaborators the options install. *)
Definition New (withRedis withHook : bool) : Breaker :=
  mkBreaker withRedis withHook defaultKeyPrefix defaultCacheTTL defaultFailureWindow
    defaultMinFailures defaultFailureRateThreshold defaultRebreakMargin defaultEscalationMemory
    ∅ ∅ ∅ ∅.

Definition WithFailureRateGate (window minF : Z) (threshold : f64) (b : Breaker) : Breaker :=
  with_gate b window minF threshold.

(** ** The failure-rate gate *)

(** [windowLocked]: the window of a domain, created or rolled over, stored
    back and returned. *)
Definition rollWindow (fw now : Z) (w : option outcomeWindow) : outcomeWindow :=
  match w with
  | None => mkWindow now 0 0 GoTime.zero 0
  | Some w =>
      if bool_decide (fw < GoTime.Sub now (windowStart w))
      then mkWindow now 0 0 (lastEpisodeAt w) (lastHitCount w)
      else w
  end.

Definition setWindow (b : Breaker) (svc dom : string) (w : outcomeWindow) : Breaker :=
  with_stats b (insert2 (stats b) svc dom w).

Definition windowLocked (b : Breaker) (svc dom : string) (now : Z) : Breaker * outcomeWindow :=
  let w := rollWindow (failureWindow b) now (lookup2 (stats b) svc dom) in
  (setWindow b svc dom w, w).

(** What the outcome hook is told, when one is set. *)
Definition tell (b : Breaker) (o : string) : option string := if hook b then Some o else None.

Definition RecordSuccess (b : Breaker) (svc dom : string) (now : Z) : Breaker * option string :=
  if bool_decide (dom = "") then (b, None)
  else
    let '(b1, w) := windowLocked b svc dom now in
    let b2 := setWindow b1 svc dom
      (mkWindow (windowStart w) (failures w) (successes w + 1) (lastEpisodeAt w) (lastHitCount w)) in
    (b2, tell b2 OutcomeSuccess).

(** [shouldBreak]: counts the failure and decides. *)
Definition shouldBreak (b : Breaker) (svc dom : string) (now : Z) : Breaker * bool * Z :=
  let '(b1, w0) := windowLocked b svc dom now in
  let w := mkWindow (windowStart w0) (failures w0 + 1) (successes w0) (lastEpisodeAt w0)
             (lastHitCount w0) in
  let b2 := setWindow b1 svc dom w in
  let total := failures w + successes w in
  if bool_decide (failures w < minFailures b) || bool_decide (total = 0) then (b2, false, 0)
  else
    let recentlyBroken :=
      negb (GoTime.IsZero (lastEpisodeAt w)) &&
      bool_decide (GoTime.Sub now (lastEpisodeAt w) <= escalationMemory b) in
    let threshold :=
      if recentlyBroken then fadd (failureRateThreshold b) (rebreakMargin b)
      else failureRateThreshold b in
    if fltb (fdiv (of_int (failures w)) (of_int total)) threshold then (b2, false, 0)
    else
      let hitCount := if recentlyBroken then lastHitCount w + 1 else 1 in
      (setWindow b2 svc dom (mkWindow now 0 0 now hitCount), true, hitCount).

(** [escalateTTL], at the width of [time.Duration]. *)
Definition escalateTTL (hitCount : Z) : Z :=
  Z.min (i64 (Z.shiftl defaultMinTTL (Z.min (Z.max hitCount 0) 5))) defaultMaxTTL.

(** ** Marking *)

(** Whether a break is in force: the check both [MarkBroken] and the readers
    make under [mu]. *)
Definition alreadyBroken (b : Breaker) (svc dom : string) (now : Z) : bool :=
  match lookup2 (broken b) svc dom with
  | Some existing => GoTime.After (Expiry existing) now
  | None => false
  end.

(** The last critical section of [MarkBroken]: install the break. *)
Definition installBreak (b : Breaker) (svc dom reason : string) (now hitCount : Z)
  : Breaker * BrokenState :=
  let ttl := escalateTTL (hitCount - 1) in
  let state := mkBrokenState (GoTime.Add now ttl) hitCount reason in
  (with_broken b (insert2 (broken b) svc dom state) (insert2 (brokenLocally b) svc dom now), state).

Record MarkResult := mkMarkResult {
  mr_state : Breaker;
  mr_broke : bool;
  mr_outcome : option string;          (* told to the outcome hook *)
  mr_persist : option (BrokenState * Z); (* handed to persistToRedis, with the TTL *)
}.

Definition MarkBroken (b : Breaker) (svc dom reason : string) (now : Z) : MarkResult :=
  if alreadyBroken b svc dom now then mkMarkResult b false None None
  else
    let '(b1, breakIt, hitCount) := shouldBreak b svc dom now in
    let told := tell b1 OutcomeFailure in
    if negb breakIt then mkMarkResult b1 false told None
    else
      let '(b2, state) := installBreak b1 svc dom reason now hitCount in
      mkMarkResult b2 true told
        (if redis b2 then Some (state, escalateTTL (hitCount - 1)) else None).

(** ** Clearing and reading *)
Definition Clear (b : Breaker) (svc : string) : Breaker * Z :=
  let count := Z.of_nat (size (default ∅ (broken b !! svc))) in
  let b1 := with_broken b (delete svc (broken b)) (delete svc (brokenLocally b)) in
  let b2 := with_lastRefresh b1 (delete svc (lastRefresh b1)) in
  (with_stats b2 (delete svc (stats b2)), count).

(** [maybeRefreshFromRedis]: claims the refresh and says whether one was
    started.  [t1], [t2] and [t3] are its three clock readings. *)
Definition refreshDue (b : Breaker) (svc : string) (t : Z) : bool :=
  match lastRefresh b !! svc with
  | Some at_ => negb (bool_decide (GoTime.Sub t at_ < cacheTTL b))
  | None => true
  end.

Definition maybeRefreshFromRedis (b : Breaker) (svc : string) (t1 t2 t3 : Z) : Breaker * bool :=
  if negb (redis b) then (b, false)
  else if negb (refreshDue b svc t1) then (b, false)
  else if negb (refreshDue b svc t2) then (b, false)
  else (with_lastRefresh b (<[svc := t3]> (lastRefresh b)), true).

Definition IsBroken (b : Breaker) (svc dom : string) (t1 t2 t3 now : Z) : Breaker * bool :=
  let '(b1, _) := maybeRefreshFromRedis b svc t1 t2 t3 in
  (b1, match lookup2 (broken b1) svc dom with
       | Some state => negb (IsExpired state now)
       | None => false
       end).

Definition GetBroken (b : Breaker) (svc : string) (t1 t2 t3 now : Z)
  : Breaker * option (gmap string BrokenState) :=
  let '(b1, _) := maybeRefreshFromRedis b svc t1 t2 t3 in
  (b1, match broken b1 !! svc with
       | None => None
       | Some domains =>
           Some (filter (λ kv, GoTime.After now (Expiry kv.2) = false) domains)
       end).

Definition BrokenDomains (b : Breaker) (svc : string) (t1 t2 t3 now : Z)
  : Breaker * list string :=
  let '(b1, r) := GetBroken b svc t1 t2 t3 now in
  (b1, (map_to_list (default ∅ r)).*1).

Definition redisKey (b : Breaker) (svc : string) : string := keyPrefix b +:+ svc.

(** ** The Redis merge

    [unmarshal] is [json.Unmarshal] of one hash field into a [BrokenState]. *)
Section Merge.
Context (unmarshal : string -> option BrokenState).

(** A local entry survives the first loop when Redis lists it, or when this
    replica broke it less than [cacheTTL] ago. *)
Definition keepLocal (b : Breaker) (svc : string) (entries : gmap string string)
    (now : Z) (dom : string) : bool :=
  bool_decide (is_Some (entries !! dom)) ||
  match lookup2 (brokenLocally b) svc dom with
  | Some at_ => bool_decide (GoTime.Sub now at_ < cacheTTL b)
  | None => false
  end.

(** One iteration of the second loop. *)
Definition mergeEntry (now : Z) (raw : string) (existing : option BrokenState)
  : option BrokenState :=
  match unmarshal raw with
  | None => existing
  | Some state =>
      if GoTime.After now (Expiry state) then existing
      else match existing with
           | None => Some state
           | Some e => if GoTime.After (Expiry state) (Expiry e) then Some state else Some e
           end
  end.

Definition mergeRedisEntries (b : Breaker) (svc : string) (entries : gmap string string)
    (now : Z) : Breaker :=
  let local := default ∅ (broken b !! svc) in
  let kept := filter (λ kv, keepLocal b svc entries now kv.1 = true) local in
  let locally := filter (λ kv, negb (bool_decide (is_Some (local !! kv.1))) ||
                               keepLocal b svc entries now kv.1 = true) in
  let merged := range_update (λ _ raw, mergeEntry now raw) entries kept in
  with_broken b (<[svc := merged]> (broken b)) (alter locally svc (brokenLocally b)).
End Merge.

(** ** Escalation *)

(** The escalation ladder of the documentation, computed by the shift. *)
Lemma escalateTTL_ladder :
  map escalateTTL [0; 1; 2; 3; 4; 5] =
  map (λ m, m * minute) [1; 2; 4; 8; 16; 30].
Proof. vm_compute. reflexivity. Qed.

Lemma escalateTTL_cases h :
  escalateTTL h = Z.min (defaultMinTTL * 2 ^ Z.min (Z.max h 0) 5) defaultMaxTTL.
Proof.
  unfold escalateTTL. rewrite Z.shiftl_mul_pow2 by lia.
  assert (2 ^ Z.min (Z.max h 0) 5 <= 2 ^ 5) by (apply Z.pow_le_mono_r; lia).
  assert (0 < 2 ^ Z.min (Z.max h 0) 5) by (apply Z.pow_pos_nonneg; lia).
  rewrite i64_small; [done|].
  unfold min_i64, max_i64, defaultMinTTL, minute, second. lia.
Qed.

Lemma escalateTTL_range h : defaultMinTTL <= escalateTTL h <= defaultMaxTTL.
Proof.
  rewrite escalateTTL_cases.
  assert (2 ^ 0 <= 2 ^ Z.min (Z.max h 0) 5) by (apply Z.pow_le_mono_r; lia).
  unfold defaultMinTTL, defaultMaxTTL, minute, second in *. lia.
Qed.

Lemma escalateTTL_mono h h' : h <= h' -> escalateTTL h <= escalateTTL h'.
Proof.
  intros. rewrite !escalateTTL_cases.
  assert (2 ^ Z.min (Z.max h 0) 5 <= 2 ^ Z.min (Z.max h' 0) 5) by (apply Z.pow_le_mono_r; lia).
  unfold defaultMinTTL, defaultMaxTTL, minute, second in *. lia.
Qed.

(** ** The specification machine of one domain

    What the breaker promises about one (service, domain): a break with its
    expiry and hit count, the counts of the current window, and the last
    episode, if there was one. *)
Record dom := mkDom {
  d_break : option (Z * Z);                (* expiry, hit count *)
  d_window : option (Z * Z * Z);           (* start, failures, successes *)
  d_last : option (Z * Z);                 (* when, hit count *)
}.

Record params := mkParams {
  p_window : Z; p_min : Z; p_threshold : f64; p_margin : f64; p_memory : Z;
}.

Definition params_of (b : Breaker) : params :=
  mkParams (failureWindow b) (minFailures b) (failureRateThreshold b) (rebreakMargin b)
    (escalationMemory b).

(** The counts a new outcome at [now] is added to. *)
Definition fresh (p : params) (now : Z) (w : option (Z * Z * Z)) : Z * Z * Z :=
  match w with
  | Some (start, f, s) => if decide (p_window p < GoTime.Sub now start) then (now, 0, 0) else (start, f, s)
  | None => (now, 0, 0)
  end.

Definition recent (p : params) (now : Z) (last : option (Z * Z)) : bool :=
  match last with
  | Some (at_, _) => bool_decide (GoTime.Sub now at_ <= p_memory p)
  | None => false
  end.

Definition rate_ok (p : params) (f s : Z) (rec : bool) : bool :=
  fltb (fdiv (of_int f) (of_int (f + s)))
    (if rec then fadd (p_threshold p) (p_margin p) else p_threshold p).

(** A live break absorbs marks; otherwise the gate counts the failure and
    either declines, or opens an episode that consumes the window. *)
Inductive dom_step (p : params) : option bool -> Z -> dom -> dom -> Prop :=
| step_success now br w last st f s :
    fresh p now w = (st, f, s) ->
    dom_step p None now (mkDom br w last) (mkDom br (Some (st, f, s + 1)) last)
| step_absorbed now e h w last :
    now < e ->
    dom_step p (Some false) now (mkDom (Some (e, h)) w last) (mkDom (Some (e, h)) w last)
| step_declined now br w last st f s :
    (forall e h, br = Some (e, h) -> e <= now) ->
    fresh p now w = (st, f, s) ->
    (f + 1 < p_min p \/ f + 1 + s = 0 \/ rate_ok p (f + 1) s (recent p now last) = true) ->
    dom_step p (Some false) now (mkDom br w last) (mkDom br (Some (st, f + 1, s)) last)
| step_episode now br w last st f s hit :
    (forall e h, br = Some (e, h) -> e <= now) ->
    fresh p now w = (st, f, s) ->
    p_min p <= f + 1 ->
    rate_ok p (f + 1) s (recent p now last) = false ->
    hit = (if recent p now last then match last with Some (_, h) => h + 1 | None => 1 end else 1) ->
    dom_step p (Some true) now (mkDom br w last)
      (mkDom (Some (now + escalateTTL (hit - 1), hit)) (Some (now, 0, 0)) (Some (now, hit))).

(** What the breaker's tables say about one domain. *)
Definition absBreak (st : BrokenState) : Z * Z := (Expiry st, HitCount st).
Definition absLast (w : outcomeWindow) : option (Z * Z) :=
  if GoTime.IsZero (lastEpisodeAt w) then None else Some (lastEpisodeAt w, lastHitCount w).
Definition abs (b : Breaker) (svc d : string) : dom :=
  mkDom (absBreak <$> lookup2 (broken b) svc d)
    ((λ w, (windowStart w, failures w, successes w)) <$> lookup2 (stats b) svc d)
    (lookup2 (stats b) svc d ≫= absLast).

Lemma rollWindow_fresh b now w :
  let r := rollWindow (failureWindow b) now w in
  fresh (params_of b) now ((λ w, (windowStart w, failures w, successes w)) <$> w)
  = (windowStart r, failures r, successes r) /\
  absLast r = w ≫= absLast.
Proof.
  unfold rollWindow, fresh. destruct w as [w|]; simpl; [|done].
  case_decide; case_bool_decide; try done.
Qed.

Lemma recent_spec b now w :
  recent (params_of b) now (absLast w) =
  negb (GoTime.IsZero (lastEpisodeAt w)) &&
  bool_decide (GoTime.Sub now (lastEpisodeAt w) <= escalationMemory b).
Proof. unfold recent, absLast. by destruct (GoTime.IsZero _). Qed.

(** Frame and read-back of the two writers. *)
Lemma abs_setWindow b svc d w s' d' :
  abs (setWindow b svc d w) s' d' =
  if decide (svc = s' /\ d = d')
  then mkDom (absBreak <$> lookup2 (broken b) svc d)
         (Some (windowStart w, failures w, successes w)) (absLast w)
  else abs b s' d'.
Proof.
  unfold abs, setWindow; simpl. rewrite lookup2_insert2. case_decide; [|done].
  by destruct_and?; subst.
Qed.

Lemma abs_installBreak b svc d reason now hit s' d' :
  abs (installBreak b svc d reason now hit).1 s' d' =
  if decide (svc = s' /\ d = d')
  then mkDom (Some (now + escalateTTL (hit - 1), hit)) (d_window (abs b svc d)) (d_last (abs b svc d))
  else abs b s' d'.
Proof.
  unfold abs, installBreak; simpl. rewrite lookup2_insert2. case_decide; [|done].
  by destruct_and?; subst.
Qed.

Lemma shouldBreak_frame b svc d now s' d' :
  ~ (svc = s' /\ d = d') -> abs (shouldBreak b svc d now).1.1 s' d' = abs b s' d'.
Proof.
  intros Hne. unfold shouldBreak, windowLocked.
  repeat split_if; simpl; rewrite !abs_setWindow; by rewrite !decide_False.
Qed.

Lemma shouldBreak_params b svc d now :
  params_of (shouldBreak b svc d now).1.1 = params_of b /\
  broken (shouldBreak b svc d now).1.1 = broken b /\
  brokenLocally (shouldBreak b svc d now).1.1 = brokenLocally b /\
  hook (shouldBreak b svc d now).1.1 = hook b /\
  redis (shouldBreak b svc d now).1.1 = redis b.
Proof. unfold shouldBreak, windowLocked. repeat split_if; done. Qed.

(** The gate's three outcomes, in terms of the abstract counts. *)
Lemma shouldBreak_spec b svc d now :
  now <> GoTime.zero ->
  let a := abs b svc d in
  let '(b', breakIt, hit) := shouldBreak b svc d now in
  exists st f s, fresh (params_of b) now (d_window a) = (st, f, s) /\
  if breakIt then
    minFailures b <= f + 1 /\
    rate_ok (params_of b) (f + 1) s (recent (params_of b) now (d_last a)) = false /\
    hit = (if recent (params_of b) now (d_last a)
           then match d_last a with Some (_, h) => h + 1 | None => 1 end else 1) /\
    abs b' svc d = mkDom (d_break a) (Some (now, 0, 0)) (Some (now, hit))
  else
    (f + 1 < minFailures b \/ f + 1 + s = 0 \/
     rate_ok (params_of b) (f + 1) s (recent (params_of b) now (d_last a)) = true) /\
    abs b' svc d = mkDom (d_break a) (Some (st, f + 1, s)) (d_last a).
Proof.
  intros Hz. unfold shouldBreak, windowLocked; simpl.
  destruct (rollWindow_fresh b now (lookup2 (stats b) svc d)) as [Hf Hl]; simpl in Hf, Hl.
  set (r := rollWindow _ _ _) in *.
  destruct (bool_decide _ || _) eqn:E1.
  - do 3 eexists. split; [exact Hf|]. rewrite !abs_setWindow, decide_True by done. simpl.
    split; [|by rewrite <- Hl].
    apply orb_true_iff in E1 as [E1|E1]; apply bool_decide_eq_true in E1; auto.
  - apply orb_false_iff in E1 as [E1 _]. apply bool_decide_eq_false in E1.
    rewrite <- recent_spec. change (absLast _) with (absLast r) at 1 2. rewrite Hl.
    change (if recent _ _ _ then fadd _ _ else _) with
      (if recent (params_of b) now (lookup2 (stats b) svc d ≫= absLast)
       then fadd (p_threshold (params_of b)) (p_margin (params_of b))
       else p_threshold (params_of b)).
    fold (rate_ok (params_of b) (failures r + 1) (successes r)
            (recent (params_of b) now (lookup2 (stats b) svc d ≫= absLast))).
    destruct (rate_ok _ _ _ _) eqn:E2.
    + do 3 eexists. split; [exact Hf|]. rewrite !abs_setWindow, decide_True by done. simpl.
      split; [by auto|by rewrite <- Hl].
    + do 3 eexists. split; [exact Hf|]. rewrite !abs_setWindow, decide_True by done. simpl.
      split_and!; [lia|done| |].
      * rewrite <- Hl. unfold absLast. destruct (GoTime.IsZero (lastEpisodeAt r)) eqn:E3; [done|].
        done.
      * f_equal. unfold absLast; simpl. unfold GoTime.IsZero.
        rewrite bool_decide_eq_false_2 by done. done.
Qed.

(** ** The breaker as a family of independent domain machines *)
Inductive op :=
| OpSuccess (svc d : string) (now : Z)
| OpMark (svc d reason : string) (now : Z)
| OpClear (svc : string).

Definition run_op (b : Breaker) (o : op) : Breaker * option bool :=
  match o with
  | OpSuccess svc d now => ((RecordSuccess b svc d now).1, None)
  | OpMark svc d reason now =>
      let r := MarkBroken b svc d reason now in (mr_state r, Some (mr_broke r))
  | OpClear svc => ((Clear b svc).1, None)
  end.

Definition op_time (o : op) : Z :=
  match o with OpSuccess _ _ now | OpMark _ _ _ now => now | OpClear _ => 0 end.

(** Which operations concern a domain.  [RecordSuccess] ignores the empty
    domain, [MarkBroken] does not. *)
Definition touches (o : op) (svc d : string) : bool :=
  match o with
  | OpSuccess s d' _ => bool_decide (s = svc /\ d' = d /\ d <> "")
  | OpMark s d' _ _ => bool_decide (s = svc /\ d' = d)
  | OpClear s => bool_decide (s = svc)
  end.

Lemma mark_step b svc d reason now :
  now <> GoTime.zero ->
  let r := MarkBroken b svc d reason now in
  dom_step (params_of b) (Some (mr_broke r)) now (abs b svc d) (abs (mr_state r) svc d).
Proof.
  intros Hz. unfold MarkBroken. destruct (alreadyBroken b svc d now) eqn:Ea.
  - unfold alreadyBroken in Ea. unfold abs; simpl.
    destruct (lookup2 (broken b) svc d) as [e|]; [|done]. go_times. simpl. by apply step_absorbed.
  - assert (Hdead : forall e h, d_break (abs b svc d) = Some (e, h) -> e <= now).
    { unfold alreadyBroken in Ea. unfold abs; simpl. intros e h He.
      destruct (lookup2 (broken b) svc d) as [x|]; simpl in He; [|done].
      unfold absBreak in He. simplify_eq. go_times. lia. }
    pose proof (shouldBreak_spec b svc d now Hz) as H.
    destruct (shouldBreak b svc d now) as [[b1 br] hit]. cbv zeta in H.
    destruct H as (st & f & s & Hf & H). destruct (abs b svc d) as [bk w la]; simpl in *.
    destruct br; simpl.
    + destruct H as (Hm & Hr & Hh & Ha). pose proof (abs_installBreak b1 svc d reason now hit svc d) as Hi.
      rewrite decide_True, Ha in Hi by done. simpl in Hi. rewrite Hi.
      by eapply step_episode.
    + destruct H as [Hc Ha]. rewrite Ha. by eapply step_declined.
Qed.

Lemma mark_frame b svc d reason now s' d' :
  ~ (svc = s' /\ d = d') -> abs (mr_state (MarkBroken b svc d reason now)) s' d' = abs b s' d'.
Proof.
  intros Hne. unfold MarkBroken. destruct (alreadyBroken _ _ _ _); [done|].
  pose proof (shouldBreak_frame b svc d now s' d' Hne) as H.
  destruct (shouldBreak b svc d now) as [[b1 []] hit]; simpl in *; [|done].
  pose proof (abs_installBreak b1 svc d reason now hit s' d') as Hi.
  by rewrite decide_False, H in Hi.
Qed.

Lemma success_step b svc d now :
  d <> "" ->
  dom_step (params_of b) None now (abs b svc d) (abs (RecordSuccess b svc d now).1 svc d).
Proof.
  intros Hd. unfold RecordSuccess, windowLocked. rewrite bool_decide_eq_false_2 by done. simpl.
  destruct (rollWindow_fresh b now (lookup2 (stats b) svc d)) as [Hf Hl]; simpl in Hf, Hl.
  rewrite abs_setWindow, decide_True by done. simpl.
  unfold absLast at 1; simpl. fold (absLast (rollWindow (failureWindow b) now (lookup2 (stats b) svc d))).
  rewrite Hl. unfold abs. by apply step_success.
Qed.

Lemma success_frame b svc d now s' d' :
  ~ (svc = s' /\ d = d' /\ d' <> "") -> abs (RecordSuccess b svc d now).1 s' d' = abs b s' d'.
Proof.
  intros Hne. unfold RecordSuccess, windowLocked. case_bool_decide; [done|]. simpl.
  rewrite !abs_setWindow. repeat case_decide; naive_solver.
Qed.

Lemma clear_abs b svc s' d' :
  abs (Clear b svc).1 s' d' = if decide (svc = s') then mkDom None None None else abs b s' d'.
Proof.
  unfold abs, Clear; simpl. rewrite !lookup2_outer_delete. by case_decide.
Qed.

Lemma run_op_params b o : params_of (run_op b o).1 = params_of b.
Proof.
  destruct o as [svc d now|svc d reason now|svc]; simpl; [| |done].
  - unfold RecordSuccess. by case_bool_decide.
  - unfold MarkBroken. destruct (alreadyBroken _ _ _ _); [done|].
    pose proof (shouldBreak_params b svc d now) as (H & _).
    destruct (shouldBreak b svc d now) as [[b1 []] hit]; by simpl in *.
Qed.

Lemma run_op_simulates b o svc d :
  op_time o <> GoTime.zero ->
  let '(b', answer) := run_op b o in
  if touches o svc d then
    match o with
    | OpClear _ => abs b' svc d = mkDom None None None
    | _ => dom_step (params_of b) answer (op_time o) (abs b svc d) (abs b' svc d)
    end
  else abs b' svc d = abs b svc d.
Proof.
  intros Hz. destruct o as [s e now|s e reason now|s];
    cbn [run_op touches op_time] in *; case_bool_decide as Ht.
  - destruct Ht as (-> & -> & ?). by apply success_step.
  - by apply success_frame.
  - destruct Ht as (-> & ->). by apply mark_step.
  - by apply mark_frame.
  - subst. rewrite clear_abs, decide_True by done. done.
  - rewrite clear_abs, decide_False by done. done.
Qed.



(** ** Few failures never break *)
Fixpoint run_ops (b : Breaker) (os : list op) : Breaker * list (op * option bool) :=
  match os with
  | [] => (b, [])
  | o :: os =>
      let '(b1, a) := run_op b o in
      let '(b2, l) := run_ops b1 os in
      (b2, (o, a) :: l)
  end.

Definition is_mark (svc d : string) (o : op) : bool :=
  match o with OpMark s d' _ _ => bool_decide (s = svc /\ d' = d) | _ => false end.

Definition marks (svc d : string) (os : list op) : Z :=
  Z.of_nat (length (filter (λ o, is_mark svc d o = true) os)).

Lemma marks_cons svc d o os :
  marks svc d (o :: os) = marks svc d os + (if is_mark svc d o then 1 else 0).
Proof.
  unfold marks. destruct (is_mark svc d o) eqn:E.
  - rewrite filter_cons_True by done. simpl. lia.
  - rewrite filter_cons_False by congruence. lia.
Qed.

Lemma marks_nonneg svc d os : 0 <= marks svc d os.
Proof. unfold marks. lia. Qed.

(** At most [n] failures are on record and no break was ever installed. *)
Definition quiet (n : Z) (a : dom) : Prop :=
  0 <= n /\ d_break a = None /\
  match d_window a with Some (_, f, _) => f <= n | None => True end.

Lemma fresh_quiet p now n a st f s :
  quiet n a -> fresh p now (d_window a) = (st, f, s) -> f <= n.
Proof.
  intros (Hn & _ & Hw). unfold fresh. destruct (d_window a) as [[[x y] z]|].
  - case_decide; intros; simplify_eq; lia.
  - intros; simplify_eq; lia.
Qed.

Lemma quiet_step p ans now a a' n :
  quiet n a -> dom_step p ans now a a' ->
  match ans with
  | None => quiet n a'
  | Some broke => n + 1 < p_min p -> broke = false /\ quiet (n + 1) a'
  end.
Proof.
  intros Hq Hs. pose proof (fresh_quiet p now n a) as Hf. destruct Hq as (Hn & Hb & Hw).
  destruct Hs; simpl in *; simplify_eq.
  - eapply Hf in H as ?; [|done]. repeat split; simpl; auto.
  - intros _. eapply Hf in H0 as ?; [|done]. repeat split; simpl; auto; lia.
  - intros Hlt. eapply Hf in H0 as ?; [|done]. lia.
Qed.

(** Safety: from a domain with no history, any history of successes,
    failures and clears that holds fewer than [minFailures] failures of that
    domain never removes it from the pool: every one of those failures is
    answered [false], and no break is installed. *)
Theorem few_failures_never_break b os svc d :
  abs b svc d = mkDom None None None ->
  Forall (λ o, op_time o <> GoTime.zero) os ->
  marks svc d os < minFailures b ->
  d_break (abs (run_ops b os).1 svc d) = None /\
  Forall (λ oa, is_mark svc d oa.1 = true -> oa.2 = Some false) (run_ops b os).2.
Proof.
  intros Ha Ht Hm.
  assert (quiet 0 (abs b svc d)) as Hq by (rewrite Ha; done).
  rewrite <- (Z.add_0_l (marks svc d os)) in Hm. revert Hq Hm. generalize 0 as n.
  clear Ha. revert b. induction Ht as [|o os Ho Ht IH]; intros b n Hq Hm; simpl.
  { split; [apply Hq|constructor]. }
  pose proof (run_op_simulates b o svc d Ho) as Hr.
  pose proof (run_op_params b o) as Hp.
  destruct (run_op b o) as [b1 a] eqn:Er. simpl in Hp.
  assert (minFailures b1 = minFailures b) as Hmin by (unfold params_of in Hp; congruence).
  rewrite marks_cons in Hm. pose proof (marks_nonneg svc d os) as Hnn.
  assert (quiet (n + if is_mark svc d o then 1 else 0) (abs b1 svc d) /\
          (is_mark svc d o = true -> a = Some false)) as [Hq1 Hans].
  { destruct o as [s e now|s e reason now|s]; cbn [touches is_mark op_time] in *.
    - injection Er as <- <-. rewrite Z.add_0_r. split; [|done].
      case_bool_decide; [|by rewrite Hr]. by apply (quiet_step _ _ _ _ _ n) in Hr.
    - injection Er as <- <-. case_bool_decide; [|by rewrite Hr, Z.add_0_r].
      destruct (quiet_step _ _ _ _ _ n Hq Hr) as [Hf ?]; [simpl; lia|].
      rewrite Hf. auto.
    - rewrite Z.add_0_r. split; [|done]. case_bool_decide; rewrite Hr; [|done].
      split; [apply Hq|split; done]. }
  specialize (IH b1 _ Hq1). destruct (run_ops b1 os) as [b2 l]; simpl in *.
  destruct IH as [IH1 IH2]; [lia|]. split; [done|]. by constructor.
Qed.

Lemma few_failures_never_break_witness :
  d_break (abs (run_ops (New false false)
    [OpMark "eth" "h" "r" 1; OpSuccess "eth" "h" 2; OpMark "eth" "h" "r" 3;
     OpMark "eth" "h" "r" 4; OpMark "eth" "h" "r" 5]).1 "eth" "h") = None.
Proof.
  apply (few_failures_never_break (New false false)); [done| |done].
  repeat constructor; done.
Defined.

(** ** What a break is *)
Lemma mark_breaks_shape b svc d reason now :
  let r := MarkBroken b svc d reason now in
  mr_broke r = true ->
  exists hit, lookup2 (broken (mr_state r)) svc d =
              Some (mkBrokenState (now + escalateTTL (hit - 1)) hit reason) /\
  mr_persist r = (if redis b then
    Some (mkBrokenState (now + escalateTTL (hit - 1)) hit reason, escalateTTL (hit - 1)) else None).
Proof.
  unfold MarkBroken. destruct (alreadyBroken _ _ _ _); [done|].
  pose proof (shouldBreak_params b svc d now) as (_ & _ & _ & _ & Hr).
  destruct (shouldBreak b svc d now) as [[b1 []] hit]; simpl in *; [|done].
  intros _. exists hit. rewrite lookup2_insert2_eq. by rewrite Hr.
Qed.

Lemma IsBroken_reads b svc d t1 t2 t3 now :
  (IsBroken b svc d t1 t2 t3 now).2 =
  match lookup2 (broken b) svc d with
  | Some st => bool_decide (now <= Expiry st)
  | None => false
  end.
Proof.
  unfold IsBroken, maybeRefreshFromRedis. repeat split_if; destruct (lookup2 _ _ _); try done.
  all: unfold IsExpired, GoTime.After; repeat case_bool_decide; done || lia.
Qed.

(** When [MarkBroken] answers [true], the domain is broken from that
    moment to an expiry between one and thirty minutes away, every reader sees
    exactly that whatever its Redis refresh does, and until the expiry further
    marks answer [false] and change nothing at all: one incident neither
    escalates nor extends its own break. *)
Theorem break_is_in_force b svc d reason now :
  let r := MarkBroken b svc d reason now in
  mr_broke r = true ->
  exists expiry, now + defaultMinTTL <= expiry <= now + defaultMaxTTL /\
    (forall t1 t2 t3 t, (IsBroken (mr_state r) svc d t1 t2 t3 t).2 = bool_decide (t <= expiry)) /\
    (forall reason' t, t < expiry ->
       MarkBroken (mr_state r) svc d reason' t = mkMarkResult (mr_state r) false None None).
Proof.
  intros r Hr. destruct (mark_breaks_shape b svc d reason now Hr) as (hit & Hl & _).
  exists (now + escalateTTL (hit - 1)).
  pose proof (escalateTTL_range (hit - 1)). split_and!; [lia|lia| |].
  - intros. rewrite IsBroken_reads. subst r. by rewrite Hl.
  - intros reason' t Ht. unfold MarkBroken at 1, alreadyBroken. subst r. rewrite Hl; simpl.
    unfold GoTime.After. by rewrite bool_decide_eq_true_2.
Qed.

(** The fifth failure of a quiet domain, at a 100% failure rate. *)
Definition five_failures : Breaker :=
  (run_ops (New true true) [OpMark "eth" "h" "r" 1; OpMark "eth" "h" "r" 2;
                            OpMark "eth" "h" "r" 3; OpMark "eth" "h" "r" 4]).1.

Lemma break_is_in_force_witness :
  mr_broke (MarkBroken five_failures "eth" "h" "connect" 5) = true /\
  exists expiry, 5 + defaultMinTTL <= expiry <= 5 + defaultMaxTTL.
Proof.
  split; [vm_compute; reflexivity|].
  destruct (break_is_in_force five_failures "eth" "h" "connect" 5) as (e & He & _);
    [vm_compute; reflexivity|by exists e].
Defined.

(** ** The merge, domain by domain *)
Lemma keepLocal_listed b svc entries now d :
  is_Some (entries !! d) -> keepLocal b svc entries now d = true.
Proof. intros. unfold keepLocal. by rewrite bool_decide_eq_true_2. Qed.

(** What the merge leaves for one domain: [local] is this replica's break,
    [listed] the field Redis has for it, [inFlight] whether this replica broke
    it within the last [cacheTTL]. *)
Definition reconciled (unmarshal : string -> option BrokenState) (now : Z)
    (local : option BrokenState) (listed : option string) (inFlight : bool) : option BrokenState :=
  match listed with
  | Some raw => mergeEntry unmarshal now raw local
  | None => if inFlight then local else None
  end.

Definition inFlight (b : Breaker) (svc : string) (now : Z) (d : string) : bool :=
  match lookup2 (brokenLocally b) svc d with
  | Some at_ => bool_decide (GoTime.Sub now at_ < cacheTTL b)
  | None => false
  end.

Lemma merge_lookup unmarshal b svc entries now s d :
  lookup2 (broken (mergeRedisEntries unmarshal b svc entries now)) s d =
  if decide (s = svc)
  then reconciled unmarshal now (lookup2 (broken b) svc d) (entries !! d) (inFlight b svc now d)
  else lookup2 (broken b) s d.
Proof.
  unfold mergeRedisEntries; simpl. unfold lookup2 at 1.
  destruct (decide (s = svc)) as [->|Hs]; [|by rewrite lookup_insert_ne by done].
  rewrite lookup_insert_eq; simpl. rewrite lookup_range_update, (lookup2_default (broken b)).
  rewrite map_lookup_filter. destruct (entries !! d) as [raw|] eqn:Ee; simpl.
  - rewrite keepLocal_listed by (rewrite Ee; eauto).
    by destruct (default ∅ (broken b !! svc) !! d).
  - unfold keepLocal. fold (inFlight b svc now d).
    rewrite Ee, bool_decide_eq_false_2 by (intros [? ?]; done). simpl.
    destruct (default ∅ (broken b !! svc) !! d), (inFlight b svc now d); done.
Qed.

Lemma mergeEntry_keeps_later unmarshal now raw e :
  exists e', mergeEntry unmarshal now raw (Some e) = Some e' /\ Expiry e <= Expiry e'.
Proof.
  unfold mergeEntry. destruct (unmarshal raw) as [st|]; [|by exists e].
  destruct (GoTime.After now (Expiry st)); [by exists e|].
  destruct (GoTime.After _ _) eqn:Ea; [|by exists e]. go_times. exists st. split; [done|lia].
Qed.

(** [mergeRedisEntries] reconciles one service and leaves the others
    alone.  A domain Redis lists keeps the later of the two expiries (a local
    break is never shortened, an expired or undecodable field changes
    nothing); a domain Redis does not list is dropped, which is how a clear on
    one replica reaches the others, unless this replica broke it less than
    [cacheTTL] ago. *)
Theorem merge_reconciles unmarshal b svc entries now s d :
  let b' := mergeRedisEntries unmarshal b svc entries now in
  lookup2 (broken b') s d =
    (if decide (s = svc)
     then reconciled unmarshal now (lookup2 (broken b) svc d) (entries !! d) (inFlight b svc now d)
     else lookup2 (broken b) s d) /\
  (forall e, lookup2 (broken b) svc d = Some e -> is_Some (entries !! d) ->
     exists e', lookup2 (broken b') svc d = Some e' /\ Expiry e <= Expiry e').
Proof.
  split; [apply merge_lookup|].
  intros e He [raw Hr]. rewrite merge_lookup, decide_True, Hr, He by done.
  apply mergeEntry_keeps_later.
Qed.

(** ** The gate at its default line

    [float64(failures)/float64(total) < 0.2] compares a rounded quotient with
    a rounded constant. *)
Definition gate_agrees (f s : Z) : bool :=
  Bool.eqb (rate_ok (params_of (New false false)) f s false) (5 * f <? f + s) &&
  Bool.eqb (rate_ok (params_of (New false false)) f s true) (20 * f <? 7 * (f + s)).

Lemma gate_agrees_upto_100 :
  forallb (λ t, forallb (λ f, gate_agrees (Z.of_nat f) (Z.of_nat (t - f))) (seq 1 t)) (seq 1 100)
  = true.
Proof. vm_compute. reflexivity. Qed.

Lemma gate_exact f s :
  1 <= f -> 0 <= s -> f + s <= 100 ->
  (rate_ok (params_of (New false false)) f s false = true <-> 5 * f < f + s) /\
  (rate_ok (params_of (New false false)) f s true = true <-> 20 * f < 7 * (f + s)).
Proof.
  intros Hf Hs Ht. pose proof gate_agrees_upto_100 as H. rewrite forallb_forall in H.
  specialize (H (Z.to_nat (f + s)) ltac:(apply in_seq; lia)). rewrite forallb_forall in H.
  specialize (H (Z.to_nat f) ltac:(apply in_seq; lia)).
  rewrite Z2Nat.id in H by lia.
  replace (Z.of_nat (Z.to_nat (f + s) - Z.to_nat f)) with s in H by lia.
  apply andb_true_iff in H as [H1 H2]. apply Bool.eqb_prop in H1, H2.
  rewrite H1, H2, !Z.ltb_lt. done.
Qed.

(** At the shipped configuration, for windows of up to 100 outcomes, the
    floating-point gate decides exactly the documented fractions: the failure
    being counted breaks a domain when it is at least the fifth of the window
    and at least one outcome in five failed (seven in twenty, 35%, for a
    domain that broke within the escalation memory). No rounding moves either
    line. *)
Theorem default_gate_is_exact b svc d now st f s :
  params_of b = params_of (New false false) ->
  now <> GoTime.zero ->
  fresh (params_of b) now (d_window (abs b svc d)) = (st, f, s) ->
  0 <= f -> 0 <= s -> f + 1 + s <= 100 ->
  (shouldBreak b svc d now).1.2 = true <->
  5 <= f + 1 /\
  (if recent (params_of b) now (d_last (abs b svc d))
   then 7 * (f + 1 + s) <= 20 * (f + 1) else f + 1 + s <= 5 * (f + 1)).
Proof.
  intros Hp Hz Hf Hf0 Hs Ht.
  assert (minFailures b = 5) as Hm by (change (p_min (params_of b) = 5); by rewrite Hp).
  pose proof (shouldBreak_spec b svc d now Hz) as H. cbv zeta in H.
  destruct (shouldBreak b svc d now) as [[b1 br] hit]; simpl.
  destruct H as (st' & f' & s' & Hf' & H). rewrite Hf in Hf'. injection Hf' as <- <- <-.
  destruct (gate_exact (f + 1) s) as [G1 G2]; [lia..|].
  rewrite <- Hp in G1, G2. clear Hp Hf.
  destruct (recent _ _ _); destruct br.
  - destruct H as (? & H & _). split; [intros _|done]. split; [lia|].
    rewrite <- not_true_iff_false, G2 in H. lia.
  - destruct H as ([?|[?|H]] & _); split; try done; try lia. apply G2 in H. lia.
  - destruct H as (? & H & _). split; [intros _|done]. split; [lia|].
    rewrite <- not_true_iff_false, G1 in H. lia.
  - destruct H as ([?|[?|H]] & _); split; try done; try lia. apply G1 in H. lia.
Qed.

Lemma default_gate_is_exact_witness :
  (shouldBreak five_failures "eth" "h" 5).1.2 = true.
Proof.
  apply (default_gate_is_exact five_failures "eth" "h" 5 1 4 0);
    [vm_compute; reflexivity|done|vm_compute; reflexivity|lia|lia|lia|].
  split; [lia|]. vm_compute. discriminate.
Defined.

(** ** Interleavings

    [MarkBroken] takes [mu], then [statsMu], then [mu] again; other goroutines
    run between its critical sections.  A thread is one call in flight. *)
Inductive pc :=
| AtCheck                      (* before the read-locked check *)
| AtGate                       (* past it, before shouldBreak *)
| AtInstall (hit : Z)          (* the gate said break; not yet installed *)
| Returned (broke : bool).

Record thread := mkThread {
  th_svc : string; th_dom : string; th_reason : string; th_now : Z; th_pc : pc;
}.

Definition at_pc (t : thread) (p : pc) : thread :=
  mkThread (th_svc t) (th_dom t) (th_reason t) (th_now t) p.

Definition thread_step (b : Breaker) (t : thread) : Breaker * thread :=
  match th_pc t with
  | AtCheck =>
      (b, at_pc t (if alreadyBroken b (th_svc t) (th_dom t) (th_now t) then Returned false else AtGate))
  | AtGate =>
      let '(b1, br, hit) := shouldBreak b (th_svc t) (th_dom t) (th_now t) in
      (b1, at_pc t (if br then AtInstall hit else Returned false))
  | AtInstall hit =>
      ((installBreak b (th_svc t) (th_dom t) (th_reason t) (th_now t) hit).1, at_pc t (Returned true))
  | Returned _ => (b, t)
  end.

Definition pool : Type := Breaker * list thread.

Inductive pool_step : pool -> pool -> Prop :=
| pool_step_intro b ts i t b' t' :
    ts !! i = Some t -> (forall r, th_pc t <> Returned r) -> thread_step b t = (b', t') ->
    pool_step (b, ts) (b', <[i := t']> ts).

(** A call that runs alone is [MarkBroken]. *)
Lemma thread_alone b t :
  th_pc t = AtCheck ->
  let r := MarkBroken b (th_svc t) (th_dom t) (th_reason t) (th_now t) in
  let step p := thread_step p.1 p.2 in
  step (step (step (b, t))) = (mr_state r, at_pc t (Returned (mr_broke r))).
Proof.
  intros Hpc. unfold MarkBroken, thread_step. simpl. rewrite Hpc. simpl.
  destruct (alreadyBroken _ _ _ _); [done|]. simpl.
  by destruct (shouldBreak _ _ _ _) as [[b1 []] hit].
Qed.

(** Running a schedule: the thread at each index makes one step. *)
Fixpoint run_schedule (p : pool) (sched : list nat) : pool :=
  match sched with
  | [] => p
  | i :: sched =>
      match p.2 !! i with
      | Some t => match th_pc t with
                  | Returned _ => run_schedule p sched
                  | _ => let '(b', t') := thread_step p.1 t in run_schedule (b', <[i := t']> p.2) sched
                  end
      | None => run_schedule p sched
      end
  end.

Lemma run_schedule_reachable p sched : rtc pool_step p (run_schedule p sched).
Proof.
  revert p. induction sched as [|i sched IH]; intros [b ts]; simpl; [done|].
  destruct (ts !! i) as [t|] eqn:Ht; [|by apply IH].
  destruct (th_pc t) eqn:Hpc; try by apply IH.
  all: destruct (thread_step b t) as [b' t'] eqn:Es.
  all: eapply rtc_l; [|apply IH]; econstructor; [done|congruence|done].
Qed.

(** Every break in the tables, and every break about to be installed, is a
    well-formed episode. *)
Definition episodes_ok (b : Breaker) : Prop :=
  (forall s d st, lookup2 (broken b) s d = Some st ->
     exists at_, lookup2 (brokenLocally b) s d = Some at_ /\ 1 <= HitCount st /\
       Expiry st = at_ + escalateTTL (HitCount st - 1)) /\
  (forall s d w, lookup2 (stats b) s d = Some w -> 0 <= lastHitCount w).

Definition thread_ok (t : thread) : Prop :=
  match th_pc t with AtInstall hit => 1 <= hit | _ => True end.

Lemma setWindow_episodes b s d w :
  0 <= lastHitCount w -> episodes_ok b -> episodes_ok (setWindow b s d w).
Proof.
  intros Hw [H1 H2]. split; [done|]. intros s' d' w'. simpl. rewrite lookup2_insert2.
  case_decide; [intros; by simplify_eq|apply H2].
Qed.

Lemma rollWindow_hit b now s d :
  episodes_ok b -> 0 <= lastHitCount (rollWindow (failureWindow b) now (lookup2 (stats b) s d)).
Proof.
  intros [_ H2]. unfold rollWindow. destruct (lookup2 (stats b) s d) as [w|] eqn:E; [|done].
  apply H2 in E. by case_bool_decide.
Qed.

Lemma shouldBreak_episodes b s d now :
  episodes_ok b ->
  let '(b', br, hit) := shouldBreak b s d now in episodes_ok b' /\ (br = true -> 1 <= hit).
Proof.
  intros Hok. pose proof (rollWindow_hit b now s d Hok) as Hh. unfold shouldBreak, windowLocked.
  set (r := rollWindow _ _ _) in *.
  repeat split_if; split; try (intros; simpl in *; (done || lia));
    repeat apply setWindow_episodes; simpl; auto; lia.
Qed.

Lemma thread_step_ok b t b' t' :
  episodes_ok b -> thread_ok t -> thread_step b t = (b', t') -> episodes_ok b' /\ thread_ok t'.
Proof.
  intros Hb Ht. unfold thread_step. unfold thread_ok in Ht.
  destruct (th_pc t) as [| |hit|r] eqn:Hpc; intros Hs.
  - simplify_eq. split; [done|]. unfold thread_ok; simpl. by destruct (alreadyBroken _ _ _ _).
  - pose proof (shouldBreak_episodes b (th_svc t) (th_dom t) (th_now t) Hb) as H.
    destruct (shouldBreak _ _ _ _) as [[b1 br] hit]. simplify_eq. destruct H as [? H].
    split; [done|]. unfold thread_ok; simpl. destruct br; auto.
  - simplify_eq. split; [|done]. destruct Hb as [H1 H2]. split; [|done].
    intros s d st. simpl. rewrite !lookup2_insert2. case_decide; [|apply H1].
    intros; simplify_eq/=. eexists. split_and!; done.
  - simplify_eq. split; [done|]. unfold thread_ok. by rewrite Hpc.
Qed.

(** Invariant of every interleaving: however the critical sections of any
    number of concurrent [MarkBroken] calls interleave, each break in the
    table expires one ladder step of its hit count after the moment it was
    installed, so no break ever outlives thirty minutes. *)
Theorem interleavings_keep_episodes b ts b' ts' :
  rtc pool_step (b, ts) (b', ts') ->
  episodes_ok b -> Forall thread_ok ts ->
  forall s d st, lookup2 (broken b') s d = Some st ->
  exists at_, lookup2 (brokenLocally b') s d = Some at_ /\
    1 <= HitCount st /\ at_ + defaultMinTTL <= Expiry st <= at_ + defaultMaxTTL.
Proof.
  intros Hrtc Hb Hts.
  assert (episodes_ok b' /\ Forall thread_ok ts') as [[H1 _] _].
  { remember (b, ts) as p eqn:Ep. remember (b', ts') as q eqn:Eq.
    revert b ts Ep Hb Hts. induction Hrtc as [p|p q' r Hst Hr IH]; intros b0 ts0 Ep Hb Hts.
    - by simplify_eq.
    - destruct Hst as [b1 ts1 i t b2 t' Hi Hrun Hs]. simplify_eq.
      destruct (thread_step_ok b0 t b2 t') as [? ?]; [done|by eapply Forall_lookup_1|done|].
      eapply IH; [done|done|done|]. by apply Forall_insert. }
  intros s d st Hl. destruct (H1 s d st Hl) as (at_ & ? & ? & ->).
  pose proof (escalateTTL_range (HitCount st - 1)). exists at_. split_and!; auto; lia.
Qed.

Lemma New_episodes r h : episodes_ok (New r h).
Proof. split; intros ???; simpl; rewrite lookup2_empty; done. Qed.

(** ** One burst of ten concurrent failures *)
Definition burst : list thread :=
  replicate 10 (mkThread "eth" "rpc.example.net" "connect" second AtCheck).
Definition burst_schedule : list nat := seq 0 10 ++ seq 0 10 ++ [4%nat; 9%nat].
Definition after_burst : pool := run_schedule (New false false, burst) burst_schedule.

Lemma interleavings_keep_episodes_witness :
  exists at_, lookup2 (brokenLocally after_burst.1) "eth" "rpc.example.net" = Some at_ /\
    1 <= 2 /\ at_ + defaultMinTTL <= second + 2 * minute <= at_ + defaultMaxTTL.
Proof.
  apply (interleavings_keep_episodes (New false false) burst after_burst.1 after_burst.2)
    with (st := mkBrokenState (second + 2 * minute) 2 "connect").
  - rewrite <- (surjective_pairing after_burst). apply run_schedule_reachable.
  - apply New_episodes.
  - apply Forall_replicate. done.
  - vm_compute. reflexivity.
Defined.

(** The filter that keeps one incident from escalating itself is not
    atomic with the gate: from a fresh breaker, ten concurrent failures of one
    host at one instant have an interleaving in which all ten pass the
    already-broken check before the first break is installed, the tenth
    failure breaks the domain a second time, and the incident ends with hit
    count 2 and the two-minute expiry of a repeat offender. *)
Theorem concurrent_marks_escalate_one_incident :
  exists b' ts',
    rtc pool_step (New false false, burst) (b', ts') /\
    Forall (λ t, exists r, th_pc t = Returned r) ts' /\
    lookup2 (broken b') "eth" "rpc.example.net" =
      Some (mkBrokenState (second + 2 * minute) 2 "connect").
Proof.
  exists after_burst.1, after_burst.2. split_and!.
  - rewrite <- (surjective_pairing after_burst). apply run_schedule_reachable.
  - vm_compute. repeat constructor; eexists; reflexivity.
  - vm_compute. reflexivity.
Qed.

End CircuitBreaker.
