(* ===== verification/MethodBlock.v ===== *)
(** * MethodBlock: per-host, per-method blocks ([methodblock/store.go])

    The store of method marks a relay consults per candidate: marking with its
    two lifetimes, the escalation of several marked methods to a host-level
    block, the cap on the marks a client can create, clearing, listing and the
    background sweep. *)

From S2P Require Import Prelude.

Module MethodBlock.

Definition DefaultTTL : Z := 5 * minute.
Definition DefaultEscalation : Z := 3.
Definition maxMethodsPerHost : Z := 128.

Record Block := mkBlock { Host : string; Method : string; BlockExpiry : Z }.

Record methodMark := mkMark { expiry : Z; escalates : bool }.
(** The zero value a missing map key reads as. *)
Definition noMark : methodMark := mkMark GoTime.zero false.

Record hostState := mkHost {
  hostUntil : Z;                       (* host-level block; zero = none *)
  methods : gmap string methodMark;
}.
Definition newHost : hostState := mkHost GoTime.zero ∅.

Record Store := mkStore {
  ttl : Z;
  clientTTL : Z;
  escalation : Z;
  byService : gmap string (gmap string hostState);
}.

Definition New : Store := mkStore DefaultTTL 0 DefaultEscalation ∅.

Definition SetTTL (s : Store) (d : Z) : Store := mkStore d (clientTTL s) (escalation s) (byService s).
Definition SetClientTTL (s : Store) (d : Z) : Store := mkStore (ttl s) d (escalation s) (byService s).
Definition SetEscalation (s : Store) (n : Z) : Store := mkStore (ttl s) (clientTTL s) n (byService s).

Definition with_hosts (s : Store) m : Store := mkStore (ttl s) (clientTTL s) (escalation s) m.
Definition setHost (s : Store) (service host : string) (h : hostState) : Store :=
  with_hosts s (insert2 (byService s) service host h).

Definition live (now : Z) (mk : methodMark) : bool := GoTime.Before now (expiry mk).

(** The deletion loop both [Mark] and [sweep] run over a host's marks. *)
Definition dropExpired (now : Z) (ms : gmap string methodMark) : gmap string methodMark :=
  filter (λ kv, live now kv.2 = true) ms.

(** The marks [Mark] counts toward a host-level block. *)
Definition liveEscalating (ms : gmap string methodMark) : Z :=
  Z.of_nat (size (filter (λ kv, escalates kv.2 = true) ms)).

Definition Blocked (s : Store) (service host method : string) (now : Z) : bool :=
  if bool_decide (ttl s <= 0) then false
  else match lookup2 (byService s) service host with
       | None => false
       | Some h =>
           if GoTime.Before now (hostUntil h) then true
           else GoTime.Before now (expiry (default noMark (methods h !! method)))
       end.

(** A mark's lifetime follows its evidence. *)
Definition markTTL (s : Store) (esc : bool) : Z :=
  if negb esc && bool_decide (0 < clientTTL s) then clientTTL s else ttl s.

(** What [Mark] does to the host it names, past the guards: [exp] is the
    expiry of the new mark, [threshold] the store's escalation setting. *)
Definition markHost (threshold exp : Z) (h : hostState) (method : string) (esc : bool) (now : Z)
  : hostState * bool :=
  if GoTime.Before now (hostUntil h) then (h, false)
  else
    let prev := methods h !! method in
    let full := bool_decide (prev = None) &&
                bool_decide (maxMethodsPerHost <= Z.of_nat (size (methods h))) in
    let ms := if full then dropExpired now (methods h) else methods h in
    if full && bool_decide (maxMethodsPerHost <= Z.of_nat (size ms)) then
      (mkHost (hostUntil h) ms, false)
    else
      let counts := esc || match prev with
                           | Some p => live now p && escalates p
                           | None => false
                           end in
      let ms1 := dropExpired now (<[method := mkMark exp counts]> ms) in
      if esc && bool_decide (0 < threshold) && bool_decide (threshold <= liveEscalating ms1)
      then (mkHost exp ∅, true)
      else (mkHost (hostUntil h) ms1, false).

Definition Mark (s : Store) (service host method : string) (esc : bool) (now : Z) : Store * bool :=
  if bool_decide (host = "") || bool_decide (method = "") then (s, false)
  else if bool_decide (ttl s <= 0) then (s, false)
  else
    let exp := GoTime.Add now (markTTL s esc) in
    let h := default newHost (lookup2 (byService s) service host) in
    let '(h', escalated) := markHost (escalation s) exp h method esc now in
    (setHost s service host h', escalated).

(** How many live blocks one host carries, as [Clear] counts them. *)
Definition hostBlocks (now : Z) (h : hostState) : Z :=
  (if GoTime.Before now (hostUntil h) then 1 else 0) + Z.of_nat (size (dropExpired now (methods h))).

Definition Clear (s : Store) (service : string) (now : Z) : Store * Z :=
  let hosts := default ∅ (byService s !! service) in
  (with_hosts s (delete service (byService s)),
   map_fold (λ _ h n, n + hostBlocks now h) 0 hosts).

Definition activeOfHost (now : Z) (host : string) (h : hostState) : list Block :=
  if GoTime.Before now (hostUntil h) then [mkBlock host "" (hostUntil h)]
  else map (λ kv, mkBlock host kv.1 (expiry kv.2)) (map_to_list (dropExpired now (methods h))).

Definition Active (s : Store) (service : string) (now : Z) : list Block :=
  map_to_list (default ∅ (byService s !! service)) ≫= (λ kv, activeOfHost now kv.1 kv.2).

(** [sweep] drops expired marks, then hosts with nothing live, then services
    with no host. *)
Definition sweepHost (now : Z) (h : hostState) : option hostState :=
  let ms := dropExpired now (methods h) in
  if bool_decide (size ms = 0%nat) && negb (GoTime.Before now (hostUntil h)) then None
  else Some (mkHost (hostUntil h) ms).

Definition sweep (s : Store) (now : Z) : Store :=
  with_hosts s (omap (λ hosts : gmap string hostState,
    let hosts' : gmap string hostState := omap (sweepHost now) hosts in
    if bool_decide (size hosts' = 0%nat) then None else Some hosts') (byService s)).

(** ** Marks and hosts *)
Lemma dropExpired_lookup now ms m :
  dropExpired now ms !! m = match ms !! m with
                            | Some mk => if live now mk then Some mk else None
                            | None => None
                            end.
Proof.
  unfold dropExpired. rewrite map_lookup_filter. destruct (ms !! m) as [mk|]; simpl; [|done].
  by destruct (live now mk).
Qed.

Lemma dropExpired_size now ms : (size (dropExpired now ms) <= size ms)%nat.
Proof. apply map_size_filter. Qed.

Lemma markTTL_pos s esc : 0 < ttl s -> 0 < markTTL s esc.
Proof. unfold markTTL. repeat case_match; [case_bool_decide|]; simpl in *; try lia. Qed.

(** Past its guards, [Mark] is [markHost] at the one host it names. *)
Definition markedHost (s : Store) (service host method : string) (esc : bool) (now : Z)
  : hostState * bool :=
  markHost (escalation s) (GoTime.Add now (markTTL s esc))
    (default newHost (lookup2 (byService s) service host)) method esc now.

Lemma Mark_cases s service host method esc now :
  Mark s service host method esc now = (s, false) \/
  (0 < ttl s /\ host <> "" /\ method <> "" /\
   Mark s service host method esc now =
     (setHost s service host (markedHost s service host method esc now).1,
      (markedHost s service host method esc now).2)).
Proof.
  unfold Mark, markedHost. destruct (bool_decide _ || _) eqn:E1; [by left|].
  apply orb_false_iff in E1 as [E1 E2]. apply bool_decide_eq_false in E1, E2.
  case_bool_decide; [by left|]. right. split_and!; [lia|done..|].
  by destruct (markHost _ _ _ _ _ _).
Qed.

(** ** Histories

    Every way the store changes, in the order it happens. *)
Inductive op :=
| OpMark (service host method : string) (esc : bool) (now : Z)
| OpClear (service : string) (now : Z)
| OpSweep (now : Z)
| OpSetTTL (d : Z)
| OpSetClientTTL (d : Z)
| OpSetEscalation (n : Z).

Definition run_op (s : Store) (o : op) : Store * option bool :=
  match o with
  | OpMark service host method esc now =>
      let '(s', e) := Mark s service host method esc now in (s', Some e)
  | OpClear service now => ((Clear s service now).1, None)
  | OpSweep now => (sweep s now, None)
  | OpSetTTL d => (SetTTL s d, None)
  | OpSetClientTTL d => (SetClientTTL s d, None)
  | OpSetEscalation n => (SetEscalation s n, None)
  end.

Definition run_ops (s : Store) (os : list op) : Store := fold_left (λ s o, (run_op s o).1) os s.

(** A predicate of every host state is kept by every operation once [Mark]
    keeps it for the host it writes and dropping expired marks keeps it. *)
Definition all_hosts (P : string -> string -> hostState -> Prop) (s : Store) : Prop :=
  forall service host h, lookup2 (byService s) service host = Some h -> P service host h.

Lemma all_hosts_setHost P s service host h :
  all_hosts P s -> P service host h -> all_hosts P (setHost s service host h).
Proof.
  intros Hs Hh sv ho h'. unfold setHost; simpl. rewrite lookup2_insert2.
  case_decide; [|apply Hs]. destruct_and?. intros; by simplify_eq.
Qed.

Lemma sweep_lookup s now service host :
  lookup2 (byService (sweep s now)) service host =
  lookup2 (byService s) service host ≫= sweepHost now.
Proof.
  unfold sweep, lookup2; simpl. rewrite lookup_omap.
  destruct (byService s !! service) as [hosts|] eqn:E; simpl; [|done].
  case_bool_decide as Hz; simpl.
  - assert (omap (sweepHost now) hosts = (∅ : gmap string hostState)) as He
      by (by apply map_size_empty_inv).
    assert ((omap (sweepHost now) hosts : gmap string hostState) !! host = None) as Hn
      by (rewrite He; apply lookup_empty).
    by rewrite lookup_omap in Hn.
  - by rewrite lookup_omap.
Qed.

Lemma all_hosts_sweep P s now :
  (forall service host h, P service host h ->
     P service host (mkHost (hostUntil h) (dropExpired now (methods h)))) ->
  all_hosts P s -> all_hosts P (sweep s now).
Proof.
  intros Hd Hs service host h. rewrite sweep_lookup.
  destruct (lookup2 (byService s) service host) as [h0|] eqn:E; simpl; [|done].
  unfold sweepHost. case_match; intros; simplify_eq. by apply Hd, Hs.
Qed.

Lemma all_hosts_clear P s service now : all_hosts P s -> all_hosts P (Clear s service now).1.
Proof.
  intros Hs sv ho h. unfold Clear; simpl. rewrite lookup2_outer_delete. case_decide; [done|apply Hs].
Qed.

(** The host [Mark] reads, whatever it was before. *)
Lemma all_hosts_default (P : string -> string -> hostState -> Prop) s service host :
  all_hosts P s -> P service host newHost ->
  P service host (default newHost (lookup2 (byService s) service host)).
Proof. intros Hs Hn. destruct (lookup2 (byService s) service host) eqn:E; [by apply Hs|done]. Qed.

(** ** The cap *)
Definition capped (_ _ : string) (h : hostState) : Prop := Z.of_nat (size (methods h)) <= maxMethodsPerHost.

Lemma capped_drop now sv ho h : capped sv ho h -> capped sv ho (mkHost (hostUntil h) (dropExpired now (methods h))).
Proof. unfold capped; simpl. pose proof (dropExpired_size now (methods h)). lia. Qed.

Lemma size_marked now (m : gmap string methodMark) k v :
  (size (dropExpired now (<[k := v]> m)) <=
   if bool_decide (m !! k = None) then S (size m) else size m)%nat.
Proof.
  pose proof (dropExpired_size now (<[k := v]> m)) as H. rewrite map_size_insert in H.
  case_bool_decide as E; [rewrite E in H; done|].
  apply not_eq_None_Some in E as [x E]. rewrite E in H. done.
Qed.

Lemma markHost_capped sv ho threshold exp h method esc now :
  capped sv ho h -> capped sv ho (markHost threshold exp h method esc now).1.
Proof.
  intros Hh. unfold markHost, capped in *. case_match; [done|]. clear H.
  pose proof (dropExpired_size now (methods h)) as Hd.
  set (full := bool_decide _ && _). set (ms := if full then _ else _).
  assert (full && bool_decide (maxMethodsPerHost <= Z.of_nat (size ms)) = false ->
          forall v, Z.of_nat (size (dropExpired now (<[method := v]> ms))) <= maxMethodsPerHost) as Hms.
  { intros Hf v. pose proof (size_marked now ms method v) as Hsz. subst full ms.
    case_bool_decide; case_bool_decide; simpl in *; repeat case_bool_decide; try done; lia. }
  destruct (full && bool_decide (maxMethodsPerHost <= Z.of_nat (size ms))) eqn:Ef; simpl.
  - subst ms. destruct full; simpl; lia.
  - case_match; simpl; [done|by apply Hms].
Qed.

(** [Mark] lifts what [markHost] does to the one host it names. *)
Lemma Mark_all_hosts (P : string -> string -> hostState -> Prop) s service host method esc now :
  P service host newHost ->
  (forall threshold exp h, P service host h -> P service host (markHost threshold exp h method esc now).1) ->
  all_hosts P s -> all_hosts P (Mark s service host method esc now).1.
Proof.
  intros Hn Hm Hs. destruct (Mark_cases s service host method esc now) as [->|(_ & _ & _ & ->)]; [done|].
  apply all_hosts_setHost; [done|]. by apply Hm, all_hosts_default.
Qed.

Lemma run_op_capped s o : all_hosts capped s -> all_hosts capped (run_op s o).1.
Proof.
  intros Hs. destruct o; simpl; try done.
  - pose proof (Mark_all_hosts capped s service host method esc now ltac:(done)
      (λ threshold exp h, markHost_capped _ _ threshold exp h method esc now) Hs).
    by destruct (Mark _ _ _ _ _ _).
  - by apply (all_hosts_clear capped s service now).
  - apply all_hosts_sweep; [apply capped_drop|done].
Qed.

(** Bound: whatever method names clients send, in whatever order marks,
    clears, sweeps and configuration reloads happen, no host of any service
    ever holds more than 128 method marks. *)
Theorem marks_per_host_are_bounded os service host h :
  lookup2 (byService (run_ops New os)) service host = Some h ->
  Z.of_nat (size (methods h)) <= maxMethodsPerHost.
Proof.
  assert (all_hosts capped New) as Hn by (intros ???; simpl; by rewrite lookup2_empty).
  unfold run_ops. revert Hn. generalize New as s.
  induction os as [|o os IH]; intros s Hs; simpl; [apply Hs|].
  by apply IH, run_op_capped.
Qed.

Lemma marks_per_host_are_bounded_witness :
  Z.of_nat (size (methods (mkHost GoTime.zero {["eth_call" := mkMark (5 * minute) true]})))
  <= maxMethodsPerHost.
Proof.
  apply (marks_per_host_are_bounded [OpMark "eth" "h" "eth_call" true 0] "eth" "h").
  vm_compute. reflexivity.
Defined.

(** ** Evidence

    Every mark that counts toward a host-level block rests on a
    supplier-attributed failure of that method on that host. *)
Definition supplierMarked (os : list op) (service host method : string) : Prop :=
  exists now, OpMark service host method true now ∈ os.

Definition evidenced (os : list op) (service host : string) (h : hostState) : Prop :=
  forall m mk, methods h !! m = Some mk -> escalates mk = true -> supplierMarked os service host m.

Lemma evidenced_weaken os os' sv ho h : os ⊆ os' -> evidenced os sv ho h -> evidenced os' sv ho h.
Proof. intros Hin He m mk H1 H2. destruct (He m mk H1 H2) as [t ?]. exists t. by apply Hin. Qed.

Lemma evidenced_drop os now sv ho h :
  evidenced os sv ho h -> evidenced os sv ho (mkHost (hostUntil h) (dropExpired now (methods h))).
Proof.
  intros He m mk; simpl. rewrite dropExpired_lookup. destruct (methods h !! m) eqn:E; [|done].
  case_match; intros; simplify_eq. by eapply He.
Qed.

(** The marks [markHost] counts at the moment it decides. *)
Lemma marked_evidence os sv ho h method esc now exp ms m mk :
  evidenced os sv ho h -> ms = methods h \/ ms = dropExpired now (methods h) ->
  dropExpired now (<[method := mkMark exp (esc || match methods h !! method with
      | Some p => live now p && escalates p | None => false end)]> ms) !! m = Some mk ->
  escalates mk = true -> supplierMarked (os ++ [OpMark sv ho method esc now]) sv ho m.
Proof.
  intros He Hms Hm Hesc. rewrite dropExpired_lookup, lookup_insert in Hm.
  case_decide as Heq; [subst m|].
  - case_match; simplify_eq/=. apply orb_true_iff in Hesc as [->|Hp].
    + exists now. set_solver.
    + destruct (methods h !! method) as [p|] eqn:Ep; [|done].
      apply andb_true_iff in Hp as [_ Hp]. destruct (He _ _ Ep Hp) as [t ?]. exists t. set_solver.
  - assert (methods h !! m = Some mk) as Hh.
    { destruct Hms as [->| ->]; rewrite ?dropExpired_lookup in Hm;
        destruct (methods h !! m) as [x|]; simplify_eq/=; repeat case_match; congruence. }
    destruct (He m mk Hh Hesc) as [t ?]. exists t. set_solver.
Qed.

Lemma markHost_evidenced os sv ho threshold exp h method esc now :
  evidenced os sv ho h ->
  evidenced (os ++ [OpMark sv ho method esc now]) sv ho (markHost threshold exp h method esc now).1 /\
  ((markHost threshold exp h method esc now).2 = true ->
   exists names, NoDup names /\ threshold <= Z.of_nat (length names) /\ 0 < threshold /\ esc = true /\
     Forall (supplierMarked (os ++ [OpMark sv ho method esc now]) sv ho) names).
Proof.
  intros He. unfold markHost. assert (os ⊆ os ++ [OpMark sv ho method esc now]) as Hsub by set_solver.
  case_match; [split; [by eapply evidenced_weaken|done]|].
  set (full := bool_decide _ && _). set (ms := if full then _ else _).
  assert (ms = methods h \/ ms = dropExpired now (methods h)) as Hms by (subst ms; destruct full; auto).
  case_match; simpl.
  { split; [|done]. eapply evidenced_weaken; [done|].
    destruct Hms as [->| ->]; [destruct h; done|by apply evidenced_drop]. }
  case_match eqn:Edec; simpl; (split; [intros m mk; simpl; first [by rewrite lookup_empty|by eapply marked_evidence]|]); [|done].
  intros _. apply andb_true_iff in Edec as [Edec Hn]. apply andb_true_iff in Edec as [Hesc Hpos].
  apply bool_decide_eq_true in Hn, Hpos.
  match type of Hn with context [liveEscalating ?x] => set (ms1 := x) in * end.
  exists (map_to_list (filter (λ kv, escalates kv.2 = true) ms1)).*1. split_and!; auto.
  - apply NoDup_fst_map_to_list.
  - unfold liveEscalating in Hn. rewrite length_fmap, length_map_to_list. exact Hn.
  - apply Forall_forall. intros m Hin. apply list_elem_of_fmap in Hin as ([k mk] & -> & Hin).
    apply elem_of_map_to_list, map_lookup_filter_Some in Hin as [Hin Hesc']. simpl in *.
    by eapply marked_evidence.
Qed.

Lemma run_op_evidenced os s o :
  (forall sv ho h, lookup2 (byService s) sv ho = Some h -> evidenced os sv ho h) ->
  forall sv ho h, lookup2 (byService (run_op s o).1) sv ho = Some h -> evidenced (os ++ [o]) sv ho h.
Proof.
  intros Hs.
  assert (all_hosts (evidenced (os ++ [o])) s) as Hw.
  { intros sv ho h Hl. eapply evidenced_weaken; [|by apply Hs]. set_solver. }
  change (all_hosts (evidenced (os ++ [o])) (run_op s o).1).
  destruct o as [sv ho method esc now|sv now|now| | |]; simpl; try done.
  - destruct (Mark_cases s sv ho method esc now) as [->|(_ & _ & _ & ->)]; [done|].
    apply all_hosts_setHost; [done|]. apply markHost_evidenced.
    destruct (lookup2 (byService s) sv ho) eqn:E; [by apply Hs|done].
  - by apply (all_hosts_clear (evidenced _) s sv now).
  - apply all_hosts_sweep; [intros; by apply evidenced_drop|done].
Qed.

(** Safety: a host is blocked for every method only on supplier evidence.
    After any history, when a mark escalates to a host-level block there are
    at least [escalation] distinct methods each of which a supplier-attributed
    failure on that very host has marked; so client-attributed refusals
    (a node answering "method not found"), however many, never remove a
    host. *)
Theorem host_block_needs_supplier_evidence os service host method esc now :
  let s := run_ops New os in
  (Mark s service host method esc now).2 = true ->
  exists names, NoDup names /\ escalation s <= Z.of_nat (length names) /\ 0 < escalation s /\
    Forall (supplierMarked (os ++ [OpMark service host method esc now]) service host) names.
Proof.
  intros s. assert (forall sv ho h, lookup2 (byService s) sv ho = Some h -> evidenced os sv ho h) as Hs.
  { subst s. unfold run_ops.
    induction os as [|o os IH] using rev_ind; [intros ???; simpl; by rewrite lookup2_empty|].
    rewrite fold_left_app. simpl. by apply run_op_evidenced. }
  destruct (Mark_cases s service host method esc now) as [->|(_ & _ & _ & ->)]; [done|].
  assert (evidenced os service host (default newHost (lookup2 (byService s) service host))) as Hev
    by (destruct (lookup2 (byService s) service host) eqn:E; [by apply Hs|done]).
  intros He. destruct (proj2 (markHost_evidenced os service host _ _ _ method esc now Hev) He)
    as (names & ? & ? & ? & _ & ?). by exists names.
Qed.

Lemma host_block_needs_supplier_evidence_witness :
  exists names, NoDup names /\ 3 <= Z.of_nat (length names) /\ 0 < 3 /\
    Forall (supplierMarked [OpMark "eth" "h" "a" true 0; OpMark "eth" "h" "b" true 1;
                            OpMark "eth" "h" "c" true 2] "eth" "h") names.
Proof.
  apply (host_block_needs_supplier_evidence
           [OpMark "eth" "h" "a" true 0; OpMark "eth" "h" "b" true 1] "eth" "h" "c" true 2).
  vm_compute. reflexivity.
Defined.

(** ** The evidence's age

    A mark keeps its supplier attribution through a client-attributed re-mark
    and takes the re-mark's longer lifetime. *)
Definition ageing : list op :=
  [OpSetClientTTL (30 * minute);
   OpMark "kava" "h" "eth_call" true 0;
   OpMark "kava" "h" "eth_call" false (4 * minute);
   OpMark "kava" "h" "eth_getLogs" true (20 * minute)].

(** The escalation window is not one TTL: with the shipped lifetimes
    (5m, and 30m for client-attributed marks), three supplier-attributed
    failures spread over 24 minutes escalate a host, because a "method not
    found" re-mark at minute 4 kept the first failure's evidence alive. *)
Theorem escalation_outlives_the_ttl :
  let s := run_ops New ageing in
  ttl s = 5 * minute /\ escalation s = 3 /\
  (Mark s "kava" "h" "eth_getBalance" true (24 * minute)).2 = true.
Proof. vm_compute. done. Qed.

(** ** What a relay sees *)
Lemma markHost_spec threshold exp h method esc now :
  GoTime.Before now (hostUntil h) = false -> now < exp ->
  Z.of_nat (size (methods h)) < maxMethodsPerHost \/ is_Some (methods h !! method) ->
  let '(h', escalated) := markHost threshold exp h method esc now in
  if escalated then h' = mkHost exp ∅
  else hostUntil h' = hostUntil h /\
       expiry (default noMark (methods h' !! method)) = exp /\
       forall m, m <> method -> methods h' !! m = dropExpired now (methods h) !! m.
Proof.
  intros Hb Hexp Hroom. unfold markHost. rewrite Hb.
  assert (bool_decide (methods h !! method = None) &&
          bool_decide (maxMethodsPerHost <= Z.of_nat (size (methods h))) = false) as ->.
  { apply andb_false_iff. destruct Hroom as [?|[x ->]].
    - right. apply bool_decide_eq_false. lia.
    - left. by apply bool_decide_eq_false. }
  simpl. destruct (esc && _ && _); [done|]. simpl. split_and!; [done| |].
  - rewrite dropExpired_lookup, lookup_insert_eq. unfold live; simpl.
    unfold GoTime.Before. by rewrite bool_decide_eq_true_2.
  - intros m Hm. by rewrite !dropExpired_lookup, lookup_insert_ne.
Qed.

Lemma Mark_guarded s service host method esc now :
  0 < ttl s -> host <> "" -> method <> "" ->
  Mark s service host method esc now =
    (setHost s service host (markedHost s service host method esc now).1,
     (markedHost s service host method esc now).2).
Proof.
  intros. unfold Mark, markedHost. rewrite !bool_decide_eq_false_2 by (done || lia). simpl.
  by destruct (markHost _ _ _ _ _ _).
Qed.

Definition hostBlocked (h : hostState) (m : string) (t : Z) : bool :=
  GoTime.Before t (hostUntil h) || GoTime.Before t (expiry (default noMark (methods h !! m))).

Lemma Blocked_hostBlocked s service host m t :
  GoTime.zero <= t ->
  Blocked s service host m t =
  if bool_decide (ttl s <= 0) then false
  else hostBlocked (default newHost (lookup2 (byService s) service host)) m t.
Proof.
  intros Ht. unfold Blocked, hostBlocked. case_bool_decide; [done|].
  destruct (lookup2 _ _ _); simpl; [by case_match|]. rewrite lookup_empty; simpl.
  unfold GoTime.Before. rewrite bool_decide_eq_false_2 by lia. done.
Qed.

Lemma Blocked_setHost s service host h sv ho m t :
  0 < ttl s ->
  Blocked (setHost s service host h) sv ho m t =
  if decide (sv = service /\ ho = host) then hostBlocked h m t else Blocked s sv ho m t.
Proof.
  intros Ht. unfold Blocked; simpl. rewrite lookup2_insert2, bool_decide_eq_false_2 by lia.
  repeat case_decide; naive_solver.
Qed.

(** Functional behaviour of a mark: on a host with room for it and no
    host-level block, a mark blocks exactly its method until its expiry (the
    client lifetime when the evidence is client-attributed), or, when it
    escalates, every method until then; what the host answers for other
    methods at any later time is unchanged unless it escalated, and so is
    every other host. *)
Theorem mark_blocks_its_method s service host method esc now :
  let h := default newHost (lookup2 (byService s) service host) in
  let exp := now + markTTL s esc in
  0 < ttl s -> host <> "" -> method <> "" -> GoTime.zero <= now ->
  hostUntil h <= now ->
  Z.of_nat (size (methods h)) < maxMethodsPerHost \/ is_Some (methods h !! method) ->
  let '(s', escalated) := Mark s service host method esc now in
  forall sv ho m t, now <= t ->
  Blocked s' sv ho m t =
    if decide (sv = service /\ ho = host /\ (escalated = true \/ m = method))
    then bool_decide (t < exp)
    else Blocked s sv ho m t.
Proof.
  intros h exp Httl Hho Hme Hzero Huntil Hroom. rewrite Mark_guarded by done.
  pose proof (markHost_spec (escalation s) exp h method esc now) as Hsp.
  unfold markedHost. fold h. change (GoTime.Add now (markTTL s esc)) with exp.
  destruct (markHost _ _ _ _ _ _) as [h' e]. simpl.
  assert (now < exp) as Hexp by (pose proof (markTTL_pos s esc Httl); lia).
  specialize (Hsp ltac:(by apply GoTime.Before_false) Hexp Hroom).
  intros sv ho m t Ht. rewrite Blocked_setHost by done.
  destruct (decide (sv = service /\ ho = host)) as [[-> ->]|Hne];
    [|rewrite (decide_False (P := sv = service /\ _)) by tauto; done].
  rewrite Blocked_hostBlocked, (bool_decide_eq_false_2 (ttl s <= 0)) by lia. fold h. destruct e.
  - subst h'. rewrite decide_True by auto. unfold hostBlocked; simpl. rewrite lookup_empty; simpl.
    unfold GoTime.Before. repeat case_bool_decide; try done; lia.
  - destruct Hsp as (Hu & Hmm & Hother). unfold hostBlocked. rewrite Hu.
    assert (GoTime.Before t (hostUntil h) = false) as -> by (apply GoTime.Before_false; lia). simpl.
    destruct (decide (m = method)) as [->|Hm].
    + rewrite decide_True by auto. by rewrite Hmm.
    + rewrite decide_False by naive_solver. rewrite Hother by done.
      rewrite dropExpired_lookup. destruct (methods h !! m) as [mk|]; simpl; [|done].
      unfold live. destruct (GoTime.Before now (expiry mk)) eqn:El; [done|].
      go_times. simpl. unfold GoTime.Before. repeat case_bool_decide; done || lia.
Qed.

Lemma mark_blocks_its_method_witness :
  let '(s', escalated) := Mark New "eth" "h" "eth_call" true 0 in
  Blocked s' "eth" "h" "eth_call" minute =
    if decide ("eth" = "eth" /\ "h" = "h" /\ (escalated = true \/ "eth_call" = "eth_call"))
    then bool_decide (minute < 0 + markTTL New true)
    else Blocked New "eth" "h" "eth_call" minute.
Proof.
  pose proof (mark_blocks_its_method New "eth" "h" "eth_call" true 0
    ltac:(done) ltac:(done) ltac:(done) ltac:(done) ltac:(done) ltac:(left; done)) as H.
  destruct (Mark New "eth" "h" "eth_call" true 0) as [s' e]. apply H. done.
Defined.

(** Memory hygiene is invisible: a sweep changes no answer any relay can
    get from then on. *)
Theorem sweep_is_unobservable s now service host method t :
  GoTime.zero <= now <= t ->
  Blocked (sweep s now) service host method t = Blocked s service host method t.
Proof.
  intros [Hz Ht]. rewrite !Blocked_hostBlocked, sweep_lookup by lia.
  destruct (lookup2 (byService s) service host) as [h|]; simpl; [|done].
  change (ttl (sweep s now)) with (ttl s). case_bool_decide; [done|].
  assert (forall m, GoTime.Before t (expiry (default noMark (dropExpired now (methods h) !! m))) =
          GoTime.Before t (expiry (default noMark (methods h !! m)))) as Hdrop.
  { intros m. rewrite dropExpired_lookup. destruct (methods h !! m) as [mk|]; simpl; [|done].
    unfold live. destruct (GoTime.Before now (expiry mk)) eqn:El; [done|].
    go_times. simpl. unfold GoTime.Before. repeat case_bool_decide; done || lia. }
  unfold sweepHost. destruct (bool_decide _ && _) eqn:E; unfold hostBlocked; simpl; [|by rewrite Hdrop].
  apply andb_true_iff in E as [E1 E2]. apply bool_decide_eq_true, map_size_empty_inv in E1.
  apply negb_true_iff in E2. go_times.
  rewrite <- Hdrop, E1, !lookup_empty; simpl. unfold GoTime.Before.
  repeat case_bool_decide; done || lia.
Qed.

Lemma sweep_is_unobservable_witness :
  Blocked (sweep (Mark New "eth" "h" "eth_call" true 0).1 minute) "eth" "h" "eth_call" (2 * minute) =
  Blocked (Mark New "eth" "h" "eth_call" true 0).1 "eth" "h" "eth_call" (2 * minute).
Proof. apply (sweep_is_unobservable _ minute "eth" "h" "eth_call" (2 * minute)). vm_compute. intuition discriminate. Defined.

End MethodBlock.
