(* ===== verification/ResponseCache.v ===== *)
(** * ResponseCache: the LRU response cache with TTL
    ([responsecache/cache.go])

    The source keeps a map from key to list element and a doubly-linked list
    of entries, front oldest.  Both are modelled: an element is an identity
    with its entry, the map holds identities, so the two structures can
    disagree and the invariant says they do not.  [Lru] is what the cache
    promises: one list of keyed responses, oldest first. *)

From S2P Require Import Prelude.

Module ResponseCache.

Definition maxBytes_const : Z := Z.shiftl 64 20.

Section Cache.
(** The cached response; the cache reads only the length of its body. *)
Context {Response : Type} (bodyLen : Response -> nat).

Record entry := mkEntry {
  response : Response;
  expiry : Z;
  key : string;
  size_ : Z;
}.

(** A list element: its identity (the [*list.Element]) and its value. *)
Abbreviation elem := (nat * entry)%type.

Record Cache := mkCache {
  entries : gmap string nat;
  order : list elem;
  maxSize : Z;
  bytes : Z;
  maxBytes : Z;
  nextElem : nat;               (* the next identity [PushBack] allocates *)
}.

Definition NewCache (maxSize0 : Z) : Cache :=
  mkCache ∅ [] (if bool_decide (maxSize0 <= 0) then 1024 else maxSize0) 0 maxBytes_const 0.

Definition findElem (id : nat) (l : list elem) : option entry :=
  snd <$> List.find (λ p, bool_decide (p.1 = id)) l.

(** [removeElement]: out of the list, out of the map under its own key, and
    off the byte count. *)
Definition removeElement (c : Cache) (id : nat) : Cache :=
  match findElem id (order c) with
  | None => c
  | Some e =>
      mkCache (delete (key e) (entries c)) (filter (λ p, p.1 <> id) (order c))
        (maxSize c) (bytes c - size_ e) (maxBytes c) (nextElem c)
  end.

(** [order.MoveToBack]. *)
Definition moveToBack (c : Cache) (id : nat) : Cache :=
  match findElem id (order c) with
  | None => c
  | Some e =>
      mkCache (entries c) (filter (λ p, p.1 <> id) (order c) ++ [(id, e)])
        (maxSize c) (bytes c) (maxBytes c) (nextElem c)
  end.

Definition Get (c : Cache) (k : string) (now : Z) : Cache * option Response :=
  match entries c !! k with
  | None => (c, None)
  | Some id =>
      match findElem id (order c) with
      | None => (c, None)
      | Some e =>
          if GoTime.After now (expiry e) then (removeElement c id, None)
          else (moveToBack c id, Some (response e))
      end
  end.

(** The two loops of [Set], one element per unit of fuel; both stop by
    themselves, and [length (order c)] removals always suffice. *)
Fixpoint sweepFront (fuel : nat) (c : Cache) (now : Z) : Cache :=
  match fuel, order c with
  | S fuel, (id, e) :: _ =>
      if GoTime.After now (expiry e) then sweepFront fuel (removeElement c id) now else c
  | _, _ => c
  end.

Definition tooBig (c : Cache) (sz : Z) : bool :=
  bool_decide (maxSize c <= Z.of_nat (size (entries c))) || bool_decide (maxBytes c < bytes c + sz).

Fixpoint evict (fuel : nat) (c : Cache) (sz : Z) : Cache :=
  match fuel with
  | O => c
  | S fuel =>
      if tooBig c sz then
        match order c with
        | [] => c
        | (id, _) :: _ => evict fuel (removeElement c id) sz
        end
      else c
  end.

Definition pushBack (c : Cache) (e : entry) : Cache :=
  mkCache (<[key e := nextElem c]> (entries c)) (order c ++ [(nextElem c, e)]) (maxSize c)
    (bytes c + size_ e) (maxBytes c) (S (nextElem c)).

Definition Set_ (c : Cache) (k : string) (resp : Response) (ttl now : Z) : Cache :=
  let sz := Z.of_nat (bodyLen resp) in
  if bool_decide (ttl <= 0) || bool_decide (maxBytes c < sz) then c
  else
    let c1 := match entries c !! k with Some id => removeElement c id | None => c end in
    let c2 := sweepFront (length (order c1)) c1 now in
    let c3 := evict (length (order c2)) c2 sz in
    pushBack c3 (mkEntry resp (GoTime.Add now ttl) k sz).

(** ** The invariant: the two structures describe one another *)
Definition sizes (l : list elem) : Z := foldr (λ p n, size_ p.2 + n) 0 l.

Record consistent (c : Cache) : Prop := {
  c_ids : NoDup (order c).*1;
  c_keys : NoDup ((λ p, key p.2) <$> order c);
  c_map : forall k id, entries c !! k = Some id <-> exists e, (id, e) ∈ order c /\ key e = k;
  c_size : Forall (λ p, size_ p.2 = Z.of_nat (bodyLen (response p.2))) (order c);
  c_bytes : bytes c = sizes (order c);
  c_fresh : Forall (λ p, (p.1 < nextElem c)%nat) (order c);
}.

Definition within (c : Cache) : Prop :=
  Z.of_nat (length (order c)) <= maxSize c /\ bytes c <= maxBytes c.

Lemma findElem_spec id e l : NoDup l.*1 -> findElem id l = Some e <-> (id, e) ∈ l.
Proof.
  intros Hnd. unfold findElem. induction l as [|[i x] l IH]; simpl; [set_solver|].
  rewrite fmap_cons, NoDup_cons in Hnd. destruct Hnd as [Hni Hnd].
  case_bool_decide as Ei; simpl.
  - subst i. rewrite elem_of_cons. split; [intros; simplify_eq; by left|].
    intros [?|Hin]; [by simplify_eq|]. exfalso. apply Hni. apply list_elem_of_fmap. by exists (id, e).
  - rewrite IH by done. rewrite elem_of_cons. split; [by right|]. intros [?|?]; [by simplify_eq|done].
Qed.

Lemma key_unique c p q :
  consistent c -> p ∈ order c -> q ∈ order c -> key p.2 = key q.2 -> p = q.
Proof.
  intros Hc Hp Hq Hk.
  apply list_elem_of_lookup in Hp as [i Hi], Hq as [j Hj].
  assert (i = j) as ->.
  { eapply NoDup_lookup; [apply (c_keys c Hc)| |]; rewrite list_lookup_fmap.
    - by rewrite Hi.
    - rewrite Hj. simpl. by rewrite Hk. }
  by simplify_eq.
Qed.

Lemma sizes_filter l id e :
  NoDup l.*1 -> (id, e) ∈ l -> sizes (filter (λ p, p.1 <> id) l) = sizes l - size_ e.
Proof.
  induction l as [|[i x] l IH]; intros Hnd Hin; [set_solver|].
  rewrite fmap_cons, NoDup_cons in Hnd. destruct Hnd as [Hni Hnd].
  apply elem_of_cons in Hin as [?|Hin]; simplify_eq.
  - rewrite filter_cons_False by (simpl; tauto). simpl.
    assert (filter (λ p : elem, p.1 <> i) l = l) as ->; [|lia].
    apply filter_id. intros p Hp Hpi; simpl in *; subst. apply Hni, list_elem_of_fmap. by exists p.
  - assert (i <> id) by (intros ->; apply Hni, list_elem_of_fmap; by exists (id, e)).
    rewrite filter_cons_True by done. simpl. rewrite IH by done. lia.
Qed.

(** Removing an element keeps the structures consistent. *)
Lemma removeElement_order c id :
  order (removeElement c id) = filter (λ p, p.1 <> id) (order c).
Proof.
  unfold removeElement, findElem.
  destruct (List.find _ (order c)) eqn:E; simpl; [done|].
  symmetry. apply filter_id. intros p Hp Hpi; simpl in *; subst.
  eapply List.find_none in E; [|by apply list_elem_of_In]. by rewrite bool_decide_eq_true_2 in E.
Qed.

Lemma removeElement_caps c id :
  maxSize (removeElement c id) = maxSize c /\ maxBytes (removeElement c id) = maxBytes c /\
  nextElem (removeElement c id) = nextElem c.
Proof. unfold removeElement. by destruct (findElem id (order c)). Qed.

Lemma removeElement_consistent c id e :
  consistent c -> (id, e) ∈ order c -> consistent (removeElement c id).
Proof.
  intros Hc Hin. pose proof (removeElement_order c id) as Ho.
  pose proof (proj2 (findElem_spec id e (order c) (c_ids c Hc)) Hin) as Hf.
  assert (sublist (order (removeElement c id)) (order c)) as Hsub by (rewrite Ho; apply sublist_filter).
  split.
  - eapply sublist_NoDup; [apply (c_ids c Hc)|by apply fmap_sublist].
  - eapply sublist_NoDup; [apply (c_keys c Hc)|by apply fmap_sublist].
  - intros k id'. unfold removeElement. rewrite Hf; simpl. rewrite lookup_delete. case_decide as Hk.
    + split; [done|]. intros (e' & Hin' & Hke). apply list_elem_of_filter in Hin' as [Hne Hin'].
      pose proof (key_unique c (id, e) (id', e') Hc Hin Hin'). naive_solver.
    + rewrite (c_map c Hc). split; intros (e' & Hin' & Hke); exists e'; (split; [|done]).
      * apply list_elem_of_filter. split; [|done]. simpl. intros ->.
        apply (findElem_spec id e' (order c) (c_ids c Hc)) in Hin'. congruence.
      * by apply list_elem_of_filter in Hin' as [_ ?].
  - rewrite Ho. apply Forall_filter, (c_size c Hc).
  - rewrite Ho, (sizes_filter _ id e) by (done || apply (c_ids c Hc)).
    unfold removeElement. rewrite Hf; simpl. by rewrite (c_bytes c Hc).
  - rewrite Ho. destruct (removeElement_caps c id) as (_ & _ & ->).
    apply Forall_filter, (c_fresh c Hc).
Qed.

Lemma split_elem (l : list elem) id e :
  NoDup l.*1 -> (id, e) ∈ l -> filter (λ p, p.1 <> id) l ++ [(id, e)] ≡ₚ l.
Proof.
  induction l as [|[i x] l IH]; intros Hnd Hin; [set_solver|].
  rewrite fmap_cons, NoDup_cons in Hnd. destruct Hnd as [Hni Hnd].
  apply elem_of_cons in Hin as [?|Hin]; simplify_eq.
  - rewrite filter_cons_False by (simpl; tauto). simpl.
    rewrite filter_id; [by rewrite Permutation_app_comm|].
    intros p Hp Hpi; simpl in *; subst. apply Hni, list_elem_of_fmap. by exists p.
  - assert (i <> id) by (intros ->; apply Hni, list_elem_of_fmap; by exists (id, e)).
    rewrite filter_cons_True by done. simpl. by rewrite IH.
Qed.

#[global] Instance sizes_proper : Proper ((≡ₚ) ==> (=)) sizes.
Proof. intros l l' Hp. unfold sizes. induction Hp; simpl; lia. Qed.

Lemma consistent_perm c l :
  consistent c -> l ≡ₚ order c ->
  consistent (mkCache (entries c) l (maxSize c) (bytes c) (maxBytes c) (nextElem c)).
Proof.
  intros Hc Hp. split; simpl.
  - rewrite Hp. apply (c_ids c Hc).
  - rewrite Hp. apply (c_keys c Hc).
  - intros k id. rewrite (c_map c Hc). by setoid_rewrite Hp.
  - rewrite Hp. apply (c_size c Hc).
  - rewrite Hp. apply (c_bytes c Hc).
  - rewrite Hp. apply (c_fresh c Hc).
Qed.

Lemma moveToBack_perm c id e :
  consistent c -> (id, e) ∈ order c -> order (moveToBack c id) ≡ₚ order c.
Proof.
  intros Hc Hin. unfold moveToBack.
  rewrite (proj2 (findElem_spec id e (order c) (c_ids c Hc)) Hin). simpl.
  apply split_elem; [apply (c_ids c Hc)|done].
Qed.

Lemma moveToBack_consistent c id e :
  consistent c -> (id, e) ∈ order c -> consistent (moveToBack c id).
Proof.
  intros Hc Hin. pose proof (moveToBack_perm c id e Hc Hin) as Hp. revert Hp. unfold moveToBack.
  rewrite (proj2 (findElem_spec id e (order c) (c_ids c Hc)) Hin). simpl. by apply consistent_perm.
Qed.

(** The number of map entries is the length of the list. *)
Lemma entries_length c : consistent c -> size (entries c) = length (order c).
Proof.
  intros Hc.
  assert (entries c = list_to_map ((λ p, (key p.2, p.1)) <$> order c)) as ->.
  { apply map_eq. intros k. apply option_eq. intros id. rewrite (c_map c Hc).
    rewrite <- elem_of_list_to_map.
    - rewrite list_elem_of_fmap. split.
      + intros (e & Hin & <-). by exists (id, e).
      + intros ([i e] & ? & Hin). simplify_eq/=. by exists e.
    - rewrite <- list_fmap_compose. apply (c_keys c Hc). }
  rewrite map_size_list_to_map; [by rewrite length_fmap|].
  rewrite <- list_fmap_compose. apply (c_keys c Hc).
Qed.

Lemma sizes_nonneg c : consistent c -> 0 <= sizes (order c).
Proof.
  intros Hc. pose proof (c_size c Hc) as H. induction H as [|p l Hp _ IH]; simpl; lia.
Qed.

(** Both loops only drop elements from the front. *)
Lemma remove_front c id e l :
  consistent c -> order c = (id, e) :: l ->
  consistent (removeElement c id) /\ order (removeElement c id) = l.
Proof.
  intros Hc Ho. split; [apply (removeElement_consistent c id e); [done|rewrite Ho; by left]|].
  rewrite removeElement_order, Ho. rewrite filter_cons_False by (simpl; tauto).
  apply filter_id. intros p Hp Hpi; simpl in *; subst.
  pose proof (c_ids c Hc) as Hnd. rewrite Ho, fmap_cons, NoDup_cons in Hnd.
  apply (proj1 Hnd), list_elem_of_fmap. by exists p.
Qed.

(** ** What the cache promises: one list, oldest first *)
Fixpoint lru_sweep (now : Z) (l : list entry) : list entry :=
  match l with
  | e :: l' => if GoTime.After now (expiry e) then lru_sweep now l' else l
  | [] => []
  end.

Definition total (l : list entry) : Z := foldr (λ e n, size_ e + n) 0 l.

Fixpoint lru_evict (cap capBytes sz : Z) (l : list entry) : list entry :=
  match l with
  | [] => []
  | _ :: l' =>
      if bool_decide (cap <= Z.of_nat (length l)) || bool_decide (capBytes < total l + sz)
      then lru_evict cap capBytes sz l' else l
  end.

Definition lru_set (cap capBytes : Z) (l : list entry) (k : string) (resp : Response)
    (ttl now : Z) : list entry :=
  let sz := Z.of_nat (bodyLen resp) in
  if bool_decide (ttl <= 0) || bool_decide (capBytes < sz) then l
  else lru_evict cap capBytes sz (lru_sweep now (filter (λ e, key e <> k) l))
       ++ [mkEntry resp (now + ttl) k sz].

Definition lru_find (l : list entry) (k : string) : option entry :=
  List.find (λ e, bool_decide (key e = k)) l.

Definition lru_get (l : list entry) (k : string) (now : Z) : list entry * option Response :=
  match lru_find l k with
  | None => (l, None)
  | Some e =>
      if GoTime.After now (expiry e) then (filter (λ e, key e <> k) l, None)
      else (filter (λ e, key e <> k) l ++ [e], Some (response e))
  end.

Definition contents (c : Cache) : list entry := (order c).*2.

(** *** Lookup *)
Lemma lookup_find c k :
  consistent c ->
  lru_find (contents c) k = entries c !! k ≫= (λ id, findElem id (order c)).
Proof.
  intros Hc. destruct (entries c !! k) as [id|] eqn:E; simpl.
  - apply (c_map c Hc) in E as (e & Hin & <-).
    rewrite (proj2 (findElem_spec id e (order c) (c_ids c Hc)) Hin).
    unfold lru_find, contents. pose proof (c_keys c Hc) as Hk. clear -Hk Hin.
    induction (order c) as [|[i x] l IH]; [set_solver|]. simpl.
    rewrite fmap_cons, NoDup_cons in Hk. destruct Hk as [Hni Hk]. case_bool_decide as Ex.
    + apply elem_of_cons in Hin as [?|Hin]; [by simplify_eq|]. exfalso. apply Hni.
      apply list_elem_of_fmap. by exists (id, e).
    + apply elem_of_cons in Hin as [?|Hin]; [by simplify_eq|by apply IH].
  - destruct (lru_find (contents c) k) as [e|] eqn:F; [|done]. exfalso.
    apply List.find_some in F as [Hin Hk]. apply bool_decide_eq_true in Hk.
    apply list_elem_of_In, list_elem_of_fmap in Hin as ([id x] & ? & Hin). simplify_eq/=.
    assert (entries c !! key x = Some id) as Hs by (apply (c_map c Hc); eauto). congruence.
Qed.

Lemma remove_contents c id e :
  consistent c -> (id, e) ∈ order c ->
  contents (removeElement c id) = filter (λ x, key x <> key e) (contents c).
Proof.
  intros Hc Hin. unfold contents. rewrite removeElement_order.
  apply fmap_filter_agree. intros [i x] Hx. simpl. split; intros Hne Heq; apply Hne.
  - pose proof (key_unique c (i, x) (id, e) Hc Hx Hin Heq). by simplify_eq.
  - subst i. apply (findElem_spec _ _ _ (c_ids c Hc)) in Hx, Hin. congruence.
Qed.

Lemma remove_key_contents c k :
  consistent c ->
  let c' := match entries c !! k with Some id => removeElement c id | None => c end in
  consistent c' /\ contents c' = filter (λ e, key e <> k) (contents c) /\
  maxSize c' = maxSize c /\ maxBytes c' = maxBytes c.
Proof.
  intros Hc. destruct (entries c !! k) as [id|] eqn:E.
  - destruct (removeElement_caps c id) as (? & ? & ?).
    apply (c_map c Hc) in E as (e & Hin & <-).
    split_and!; [by eapply removeElement_consistent|by apply remove_contents|done..].
  - split_and!; [done| |done..]. symmetry. apply filter_id. intros e He Hk.
    apply list_elem_of_fmap in He as ([id x] & ? & Hin). simplify_eq/=.
    assert (entries c !! key x = Some id) as Hs by (apply (c_map c Hc); eauto). congruence.
Qed.

(** *** The two loops, with the fuel [Set] gives them *)
Lemma order_contents c id e l :
  order c = (id, e) :: l -> contents c = e :: l.*2.
Proof. unfold contents. by intros ->. Qed.

Lemma sweepFront_spec fuel c now :
  consistent c -> (length (order c) <= fuel)%nat ->
  let c' := sweepFront fuel c now in
  consistent c' /\ contents c' = lru_sweep now (contents c) /\
  maxSize c' = maxSize c /\ maxBytes c' = maxBytes c.
Proof.
  revert c. induction fuel as [|fuel IH]; intros c Hc Hlen; simpl.
  - destruct (order c) eqn:Ho; simpl in Hlen; [|lia]. unfold contents. rewrite Ho. done.
  - destruct (order c) as [|[id e] l] eqn:Ho; [unfold contents; by rewrite Ho|].
    rewrite (order_contents c id e l Ho). simpl.
    destruct (GoTime.After now (expiry e)) eqn:Ea; [|by rewrite (order_contents c id e l Ho)].
    destruct (remove_front c id e l Hc Ho) as [Hc' Ho'].
    destruct (removeElement_caps c id) as (H1 & H2 & _).
    destruct (IH (removeElement c id) Hc') as (? & Hcon & ? & ?); [rewrite Ho'; simpl in Hlen; lia|].
    split_and!; [done| |congruence..]. rewrite Hcon. unfold contents. by rewrite Ho'.
Qed.

Lemma total_sizes c : consistent c -> bytes c = total (contents c).
Proof.
  intros Hc. rewrite (c_bytes c Hc). unfold contents, sizes, total.
  clear Hc. induction (order c) as [|p l IH]; [done|]. simpl. rewrite IH. done.
Qed.

Lemma tooBig_contents c sz :
  consistent c ->
  tooBig c sz = bool_decide (maxSize c <= Z.of_nat (length (contents c))) ||
                bool_decide (maxBytes c < total (contents c) + sz).
Proof.
  intros Hc. unfold tooBig. rewrite entries_length, (total_sizes c Hc) by done.
  unfold contents. by rewrite length_fmap.
Qed.

Lemma evict_spec fuel c sz :
  consistent c -> (length (order c) <= fuel)%nat ->
  let c' := evict fuel c sz in
  consistent c' /\ contents c' = lru_evict (maxSize c) (maxBytes c) sz (contents c) /\
  maxSize c' = maxSize c /\ maxBytes c' = maxBytes c.
Proof.
  revert c. induction fuel as [|fuel IH]; intros c Hc Hlen; simpl.
  - destruct (order c) eqn:Ho; simpl in Hlen; [|lia]. unfold contents. rewrite Ho. done.
  - rewrite (tooBig_contents c sz Hc).
    destruct (order c) as [|[id e] l] eqn:Ho.
    { unfold contents. rewrite Ho. simpl. case_match; unfold contents; by rewrite Ho. }
    rewrite (order_contents c id e l Ho). simpl lru_evict.
    destruct (bool_decide _ || _); [|by rewrite (order_contents c id e l Ho)].
    destruct (remove_front c id e l Hc Ho) as [Hc' Ho'].
    destruct (removeElement_caps c id) as (H1 & H2 & _).
    destruct (IH (removeElement c id) Hc') as (? & Hcon & ? & ?); [rewrite Ho'; simpl in Hlen; lia|].
    split_and!; [done| |congruence..]. rewrite Hcon, H1, H2. unfold contents. by rewrite Ho'.
Qed.

Lemma lru_sweep_sub now l : lru_sweep now l `suffix_of` l.
Proof.
  induction l as [|e l IH]; simpl; [done|]. case_match; [by apply suffix_cons_r|done].
Qed.

Lemma lru_evict_sub cap capB sz l : lru_evict cap capB sz l `suffix_of` l.
Proof.
  induction l as [|e l IH]; simpl; [done|]. case_match; [by apply suffix_cons_r|done].
Qed.

Lemma pushBack_consistent c resp exp k :
  consistent c -> (forall e, e ∈ contents c -> key e <> k) ->
  consistent (pushBack c (mkEntry resp exp k (Z.of_nat (bodyLen resp)))).
Proof.
  intros Hc Hfree. unfold pushBack. split; simpl.
  - rewrite fmap_app. apply NoDup_app. split_and!; [apply (c_ids c Hc)| |apply NoDup_singleton].
    intros i Hi Hx. simpl in Hx. apply list_elem_of_singleton in Hx as ->.
    apply list_elem_of_fmap in Hi as ([j e] & ? & Hin). simplify_eq/=.
    pose proof (c_fresh c Hc) as Hf. rewrite Forall_forall in Hf. specialize (Hf _ Hin). simpl in Hf. lia.
  - rewrite fmap_app. apply NoDup_app. split_and!; [apply (c_keys c Hc)| |apply NoDup_singleton].
    intros x Hx Hk. simpl in Hk. apply list_elem_of_singleton in Hk as ->.
    apply list_elem_of_fmap in Hx as ([j e] & ? & Hin). simplify_eq/=.
    apply (Hfree e); [|done]. apply list_elem_of_fmap. by exists (j, e).
  - intros k' id. rewrite lookup_insert. setoid_rewrite elem_of_app.
    setoid_rewrite list_elem_of_singleton. case_decide as Hk.
    + subst k'. split.
      * intros; simplify_eq. eexists. split; [by right|done].
      * intros (e & [Hin|?] & Hke); [|by simplify_eq]. exfalso. apply (Hfree e); [|done].
        apply list_elem_of_fmap. by exists (id, e).
    + rewrite (c_map c Hc). split.
      * intros (e & ? & ?). eauto.
      * intros (e & [?|?] & ?); simplify_eq/=; eauto.
  - apply Forall_app. split; [apply (c_size c Hc)|]. by repeat constructor.
  - unfold sizes. rewrite foldr_app. simpl. rewrite (c_bytes c Hc). unfold sizes.
    induction (order c); simpl; lia.
  - apply Forall_app. split; [|repeat constructor; simpl; lia].
    eapply Forall_impl; [apply (c_fresh c Hc)|]. simpl. lia.
Qed.

Lemma set_refines c k resp ttl now :
  consistent c ->
  let c' := Set_ c k resp ttl now in
  consistent c' /\
  contents c' = lru_set (maxSize c) (maxBytes c) (contents c) k resp ttl now /\
  maxSize c' = maxSize c /\ maxBytes c' = maxBytes c.
Proof.
  intros Hc. unfold Set_, lru_set. destruct (bool_decide _ || _); [done|]. cbv zeta.
  destruct (remove_key_contents c k Hc) as (Hc1 & Hk1 & Hs1 & Hb1).
  set (c1 := match entries c !! k with Some id => _ | None => _ end) in *.
  destruct (sweepFront_spec (length (order c1)) c1 now Hc1 ltac:(done)) as (Hc2 & Hk2 & Hs2 & Hb2).
  set (c2 := sweepFront _ _ _) in *.
  destruct (evict_spec (length (order c2)) c2 (Z.of_nat (bodyLen resp)) Hc2 ltac:(done))
    as (Hc3 & Hk3 & Hs3 & Hb3).
  set (c3 := evict _ _ _) in *.
  assert (contents c3 = lru_evict (maxSize c) (maxBytes c) (Z.of_nat (bodyLen resp))
            (lru_sweep now (filter (λ e, key e <> k) (contents c)))) as Hcon
    by (rewrite Hk3, Hk2, Hk1; congruence).
  split_and!; [|unfold contents, pushBack; simpl; rewrite fmap_app; fold (contents c3);
                by rewrite Hcon|simpl; congruence..].
  apply pushBack_consistent; [done|]. intros e He.
  rewrite Hcon in He. eapply elem_of_suffix in He; [|apply lru_evict_sub].
  eapply elem_of_suffix in He; [|apply lru_sweep_sub].
  by apply list_elem_of_filter in He as [? _].
Qed.

Lemma get_refines c k now :
  consistent c ->
  let '(c', r) := Get c k now in
  consistent c' /\ (contents c', r) = lru_get (contents c) k now /\
  maxSize c' = maxSize c /\ maxBytes c' = maxBytes c.
Proof.
  intros Hc. unfold Get, lru_get. rewrite (lookup_find c k Hc).
  destruct (entries c !! k) as [id|] eqn:E; simpl; [|done].
  destruct (findElem id (order c)) as [e|] eqn:F; simpl; [|done].
  assert ((id, e) ∈ order c) as Hin by (by apply findElem_spec; [apply (c_ids c Hc)|]).
  assert (key e = k) as <-.
  { apply (c_map c Hc) in E as (e' & Hin' & <-).
    apply (findElem_spec _ _ _ (c_ids c Hc)) in Hin'. congruence. }
  pose proof (remove_contents c id e Hc Hin) as Hrm.
  destruct (GoTime.After now (expiry e)).
  - destruct (removeElement_caps c id) as (? & ? & _).
    split_and!; [by eapply removeElement_consistent|by rewrite Hrm|done..].
  - split; [by eapply moveToBack_consistent|]. unfold moveToBack at 1 2 3. rewrite F. simpl.
    split_and!; [|done..]. unfold contents at 1; simpl. rewrite fmap_app.
    rewrite <- Hrm. unfold contents at 1. by rewrite removeElement_order.
Qed.
End Cache.

Arguments Cache : clear implicits.
Arguments entry : clear implicits.

Section Promises.
Context {Response : Type} (bodyLen : Response -> nat).

Inductive op :=
| OpGet (k : string) (now : Z)
| OpSet (k : string) (r : Response) (ttl now : Z).

Definition run_op (c : Cache Response) (o : op) : Cache Response * option Response :=
  match o with
  | OpGet k now => Get c k now
  | OpSet k r ttl now => (Set_ bodyLen c k r ttl now, None)
  end.

Definition lru_op (cap capBytes : Z) (l : list (entry Response)) (o : op)
  : list (entry Response) * option Response :=
  match o with
  | OpGet k now => lru_get l k now
  | OpSet k r ttl now => (lru_set bodyLen cap capBytes l k r ttl now, None)
  end.

Fixpoint run_ops {S} (step : S -> op -> S * option Response) (s : S) (os : list op)
  : S * list (option Response) :=
  match os with
  | [] => (s, [])
  | o :: os =>
      let '(s1, r) := step s o in
      let '(s2, rs) := run_ops step s1 os in
      (s2, r :: rs)
  end.

Lemma run_op_refines c o :
  consistent bodyLen c ->
  let '(c', r) := run_op c o in
  consistent bodyLen c' /\ (contents c', r) = lru_op (maxSize c) (maxBytes c) (contents c) o /\
  maxSize c' = maxSize c /\ maxBytes c' = maxBytes c.
Proof.
  intros Hc. destruct o as [k now|k r ttl now]; simpl.
  - by apply get_refines.
  - destruct (set_refines bodyLen c k r ttl now Hc) as (? & -> & ? & ?). done.
Qed.

Lemma new_consistent n : consistent bodyLen (NewCache n).
Proof.
  split; simpl; try done; try (by constructor). intros k id. rewrite lookup_empty. split; [done|].
  intros (e & Hin & _). by apply not_elem_of_nil in Hin.
Qed.

Lemma run_ops_refines os c :
  consistent bodyLen c ->
  let '(c', rs) := run_ops run_op c os in
  consistent bodyLen c' /\
  run_ops (lru_op (maxSize c) (maxBytes c)) (contents c) os = (contents c', rs) /\
  maxSize c' = maxSize c /\ maxBytes c' = maxBytes c.
Proof.
  revert c. induction os as [|o os IH]; intros c Hc; simpl; [done|].
  pose proof (run_op_refines c o Hc) as H. destruct (run_op c o) as [c1 r].
  destruct H as (Hc1 & Hr & Hs & Hb). specialize (IH c1 Hc1).
  destruct (run_ops run_op c1 os) as [c2 rs]. destruct IH as (? & IH & ? & ?).
  rewrite <- Hr. rewrite Hs, Hb in IH. rewrite IH. split_and!; congruence || done.
Qed.

(** C36. Refinement: every sequence of [Get] and [Set] calls on a new cache
    returns what one list of keyed responses kept in least-recently-used order
    returns, and leaves the cache holding that list; the map and the linked
    list agree throughout, and the eviction loops end with the fuel they are
    given. *)
Theorem cache_refines_lru n os :
  let c0 := NewCache n in
  let '(c, rs) := run_ops run_op c0 os in
  consistent bodyLen c /\
  run_ops (lru_op (maxSize c0) (maxBytes c0)) [] os = (contents c, rs).
Proof.
  cbv zeta. pose proof (run_ops_refines os (NewCache n) (new_consistent n)) as H.
  destruct (run_ops run_op (NewCache n) os) as [c rs]. destruct H as (H1 & H2 & _).
  split; [exact H1|exact H2].
Qed.

(** *** Bounds *)
Lemma total_suffix (l l' : list (entry Response)) :
  Forall (λ e, 0 <= size_ e) l' -> l `suffix_of` l' -> total l <= total l'.
Proof.
  intros Hf [pre ->]. induction pre as [|e pre IH]; simpl; [done|].
  apply Forall_cons in Hf as [? Hf]. specialize (IH Hf). unfold total in *. simpl. lia.
Qed.

Lemma total_filter (P : entry Response -> Prop) `{!forall e, Decision (P e)} l :
  Forall (λ e, 0 <= size_ e) l ->
  0 <= total (filter P l) <= total l /\ Forall (λ e, 0 <= size_ e) (filter P l).
Proof.
  induction 1 as [|e l He Hl IH]; [done|]. destruct IH as [IH1 IH2]. destruct (decide (P e)).
  - rewrite filter_cons_True by done. simpl. split; [lia|by constructor].
  - rewrite filter_cons_False by done. simpl. split; [lia|done].
Qed.

(** Eviction makes room: what is left fits with the new entry beside it. *)
Lemma lru_evict_fits cap capB sz (l : list (entry Response)) :
  0 < cap -> sz <= capB ->
  let l' := lru_evict cap capB sz l in
  Z.of_nat (length l') + 1 <= cap /\ total l' + sz <= capB.
Proof.
  intros Hcap Hsz. induction l as [|e l IH]; simpl; [lia|].
  case_match eqn:E; [done|]. apply orb_false_iff in E as [E1 E2].
  apply bool_decide_eq_false in E1, E2. simpl in *. lia.
Qed.

Definition lru_within (cap capB : Z) (l : list (entry Response)) : Prop :=
  Z.of_nat (length l) <= cap /\ total l <= capB /\ Forall (λ e, 0 <= size_ e) l.

Lemma total_app (l l' : list (entry Response)) : total (l ++ l') = total l + total l'.
Proof. unfold total. induction l; simpl; lia. Qed.

Lemma lru_op_within cap capB l o :
  0 < cap -> lru_within cap capB l -> lru_within cap capB (lru_op cap capB l o).1.
Proof.
  intros Hcap (Hlen & Htot & Hnn). destruct o as [k now|k r ttl now]; simpl.
  - unfold lru_get. destruct (lru_find l k) as [e|] eqn:F; [|done].
    apply List.find_some in F as [Hin Hk]. apply bool_decide_eq_true in Hk.
    apply list_elem_of_In in Hin.
    destruct (total_filter (λ x, key x <> k) l Hnn) as [Ht Hf].
    pose proof (length_filter (λ x, key x <> k) l) as Hle.
    destruct (GoTime.After _ _); simpl; [split_and!; [lia|lia|done]|].
    assert (Z.of_nat (length (filter (λ x, key x <> k) l)) + 1 <= Z.of_nat (length l) /\
            total (filter (λ x, key x <> k) l) + size_ e <= total l) as [? ?].
    { clear -Hin Hk Hnn. induction l as [|x l IH]; [by apply not_elem_of_nil in Hin|].
      apply Forall_cons in Hnn as [Hx Hnn]. apply elem_of_cons in Hin as [->|Hin].
      - rewrite filter_cons_False by tauto. pose proof (length_filter (λ x, key x <> k) l).
        destruct (total_filter (λ x, key x <> k) l Hnn) as [? _]. simpl. lia.
      - specialize (IH Hnn Hin). destruct (decide (key x <> k)).
        + rewrite filter_cons_True by done. simpl. lia.
        + rewrite filter_cons_False by done. simpl. lia. }
    unfold lru_within. rewrite length_app, total_app. simpl. split_and!; [lia|lia|].
    apply Forall_app. split; [done|]. repeat constructor. rewrite Forall_forall in Hnn. by apply Hnn.
  - unfold lru_set. destruct (bool_decide _ || _) eqn:E; [done|].
    apply orb_false_iff in E as [_ E]. apply bool_decide_eq_false in E.
    set (base := lru_sweep now _).
    destruct (lru_evict_fits cap capB (Z.of_nat (bodyLen r)) base Hcap ltac:(lia)) as [H1 H2].
    unfold lru_within. rewrite length_app, total_app. simpl. split_and!; [lia|lia|].
    apply Forall_app. split; [|repeat constructor; simpl; lia].
    apply Forall_forall. intros x Hx. rewrite Forall_forall in Hnn. apply Hnn.
    eapply elem_of_suffix in Hx; [|apply lru_evict_sub].
    eapply elem_of_suffix in Hx; [|apply lru_sweep_sub].
    by apply list_elem_of_filter in Hx as [_ ?].
Qed.

(** Bounds: whatever is stored and asked for, in whatever order and at
    whatever times, a cache built by [NewCache] never holds more than its
    entry cap, its byte counter is exactly the length of the bodies it holds,
    and that never passes 64 MiB. *)
Theorem cache_stays_within_bounds n os :
  let c := (run_ops run_op (NewCache n) os).1 in
  Z.of_nat (size (entries c)) <= maxSize c /\
  bytes c = foldr (λ e b, Z.of_nat (bodyLen (response e)) + b) 0 (contents c) /\
  bytes c <= maxBytes_const.
Proof.
  pose proof (run_ops_refines os (NewCache n) (new_consistent n)) as H.
  destruct (run_ops run_op (NewCache n) os) as [c rs] eqn:Er. simpl.
  destruct H as (Hc & Hr & Hs & Hb).
  set (cap := maxSize (NewCache n)) in *. set (capB := maxBytes (NewCache n)) in *.
  assert (0 < cap) as Hcap by (subst cap; simpl; case_bool_decide; lia).
  assert (lru_within cap capB (contents c)) as (H1 & H2 & _).
  { change (contents c) with (contents c, rs).1. rewrite <- Hr.
    assert (forall l, lru_within cap capB l ->
      lru_within cap capB (run_ops (lru_op cap capB) l os).1) as Hall.
    { clear -Hcap. induction os as [|o os IH]; intros l Hl; simpl; [done|].
      pose proof (lru_op_within cap capB l o Hcap Hl) as Ho.
      destruct (lru_op cap capB l o) as [l1 r1]. specialize (IH l1 Ho).
      by destruct (run_ops _ l1 os). }
    apply Hall. split_and!; [simpl; lia|done|constructor]. }
  rewrite (entries_length bodyLen c Hc), (total_sizes bodyLen c Hc), Hs.
  split_and!; [|clear -Hc|done].
  - fold cap. unfold contents in H1. rewrite length_fmap in H1. done.
  - pose proof (c_size bodyLen c Hc) as Hz. unfold contents.
    induction Hz as [|p l Hp _ IH]; [done|]. unfold total in *. cbn. rewrite Hp. f_equal. exact IH.
Qed.

(** A stored response is served back until it expires: after [Set] with a
    positive TTL and a body within the byte cap, [Get] of that key returns it
    at every time up to [now + ttl], and nothing from then on. *)
Theorem set_then_get c k r ttl now t :
  consistent bodyLen c -> 0 < ttl -> Z.of_nat (bodyLen r) <= maxBytes c ->
  (Get (Set_ bodyLen c k r ttl now) k t).2 = if decide (t <= now + ttl) then Some r else None.
Proof.
  intros Hc Httl Hsz. destruct (set_refines bodyLen c k r ttl now Hc) as (Hc' & Hk & _ & _).
  pose proof (get_refines bodyLen (Set_ bodyLen c k r ttl now) k t Hc') as Hg.
  destruct (Get _ _ _) as [c2 res]. destruct Hg as (_ & Hg & _). simpl.
  unfold lru_set in Hk. rewrite !bool_decide_eq_false_2 in Hk by lia. simpl in Hk.
  rewrite Hk in Hg. unfold lru_get in Hg.
  assert (lru_find (lru_evict (maxSize c) (maxBytes c) (Z.of_nat (bodyLen r))
      (lru_sweep now (filter (λ e, key e <> k) (contents c)))
      ++ [mkEntry r (now + ttl) k (Z.of_nat (bodyLen r))]) k =
    Some (mkEntry r (now + ttl) k (Z.of_nat (bodyLen r)))) as Hf.
  { set (base := lru_evict _ _ _ _).
    assert (forall e, e ∈ base -> key e <> k) as Hne.
    { intros e He. eapply elem_of_suffix in He; [|apply lru_evict_sub].
      eapply elem_of_suffix in He; [|apply lru_sweep_sub]. by apply list_elem_of_filter in He as [? _]. }
    clearbody base. unfold lru_find. induction base as [|e base IH]; simpl.
    - by rewrite bool_decide_eq_true_2.
    - rewrite bool_decide_eq_false_2 by (apply Hne; by left). apply IH. intros. apply Hne. by right. }
  rewrite Hf in Hg. simpl in Hg. unfold GoTime.After in Hg.
  case_bool_decide; simplify_eq; case_decide; done || lia.
Qed.
End Promises.

Lemma set_then_get_witness :
  (Get (Set_ String.length (NewCache 2) "k" "body" second 0) "k" second).2 = Some "body".
Proof.
  rewrite (set_then_get String.length (NewCache 2) "k" "body" second 0 second);
    [done|apply new_consistent|done|vm_compute; discriminate].
Defined.

End ResponseCache.
