(* ===== verification/BlockConsensus.v ===== *)
(** * BlockConsensus: the perceived chain head

    Models [qos/blockheight.go], [qos/blockconsensus.go], [qos/chainview.go]
    and [qos/heighttracking.go].  Heights are [uint64]: every sum and
    difference of the source is written with [u64] or one of the saturating
    operations the source defines.  Every operation that publishes the
    perceived height runs under the consensus mutex, so a history is a
    sequence of operations; [now] is the clock reading each one takes, and
    [party] is the party table ([Domain.Party]) as it stands at the call. *)

From stdpp Require Import sorting.
From S2P Require Import Prelude Float64 Domain.

Module BlockConsensus.
Import Domain.

(** ** [qos/blockheight.go] *)
Definition maxBlockHeightDelta : Z := 1000000.
Definition MaxPlausibleBlockHeight : Z := 1000000000000.

Definition IsPlausibleBlockHeight (height : Z) : bool :=
  bool_decide (0 < height) && bool_decide (height <= MaxPlausibleBlockHeight).

Definition saturatingAdd (a b : Z) : Z :=
  if bool_decide (u64 (max_u64 - b) < a) then max_u64 else u64 (a + b).

Definition saturatingMul (a b : Z) : Z :=
  if bool_decide (a = 0) || bool_decide (b = 0) then 0
  else if bool_decide (max_u64 / b < a) then max_u64 else u64 (a * b).

(** ** State *)
Definition defaultWindowDuration : Z := 2 * minute.
Definition defaultMaxObservations : Z := 1000.
Definition defaultGracePeriod : Z := 30 * second.

Record blockObs := mkObs { Endpoint : EndpointAddr; Height : Z; Timestamp : Z }.
Record rateSample := mkSample { height : Z; at_ : Z; opened : Z }.

Record BlockConsensus := mkBC {
  observations : list blockObs;
  windowDuration : Z;
  maxObservations : Z;
  syncAllowance : Z;
  perceived : Z;
  rateSamples : list rateSample;
  externalFloor : Z;
  graceStart : Z;
  gracePeriod : Z
}.

Definition NewBlockConsensus (syncAllowance now : Z) : BlockConsensus :=
  mkBC [] defaultWindowDuration defaultMaxObservations syncAllowance 0 [] 0 now defaultGracePeriod.

(** ** The anchor *)
Definition sortHeights (l : list Z) : list Z := merge_sort Z.le l.

(** The key an observation votes under. *)
Definition voteKey (party : EndpointAddr -> string) (e : EndpointAddr) : string :=
  let key := party e in if bool_decide (key = "") then e else key.

Definition groupObs (party : EndpointAddr -> string) (byParty : gmap string (list Z))
    (obs : blockObs) : gmap string (list Z) :=
  let key := voteKey party (Endpoint obs) in
  <[key := default [] (byParty !! key) ++ [Height obs]]> byParty.
Definition byParty (party : EndpointAddr -> string) (obs : list blockObs) : gmap string (list Z) :=
  foldl (groupObs party) ∅ obs.

(** A party's vote: the middle of its sorted heights. *)
Definition vote (heights : list Z) : Z :=
  default 0 (sortHeights heights !! (length heights / 2)%nat).

(** The votes in ascending order.  The source ranges a map and then sorts, so
    the order the runtime ranges in does not reach the result. *)
Definition votesOf (party : EndpointAddr -> string) (obs : list blockObs) : list Z :=
  sortHeights ((λ p, vote p.2) <$> map_to_list (byParty party obs)).

(** The descending scan for two adjacent votes within the tolerance. *)
Fixpoint corroborated (votes : list Z) (tolerance : Z) (i : nat) : option Z :=
  match i with
  | O => None
  | S j =>
      if bool_decide (u64 (default 0 (votes !! i) - default 0 (votes !! j)) <= tolerance)
      then votes !! i else corroborated votes tolerance j
  end.

Definition partyAnchor (party : EndpointAddr -> string) (obs : list blockObs)
    (tolerance : Z) : Z :=
  let votes := votesOf party obs in
  match corroborated votes tolerance (length votes - 1) with
  | Some v => v
  | None => default 0 (votes !! ((length votes - 1) / 2)%nat)
  end.

(** ** Perceived *)
Definition applyExternalFloor (bc : BlockConsensus) (perceived now : Z) : Z :=
  let floor := externalFloor bc in
  if bool_decide (floor = 0) then perceived
  else if GoTime.Before now (GoTime.Add (graceStart bc) (gracePeriod bc)) then perceived
  else
    let effective := if bool_decide (syncAllowance bc < floor)
                     then u64 (floor - syncAllowance bc) else floor in
    if bool_decide (perceived < effective) then effective else perceived.

Definition maxBelow (outlierCap : Z) (obs : list blockObs) : Z :=
  foldl (λ p o, if bool_decide (Height o <= outlierCap) && bool_decide (p < Height o)
                then Height o else p) 0 obs.

Definition computePerceived (party : EndpointAddr -> string) (bc : BlockConsensus) (now : Z) : Z :=
  match observations bc with
  | [] => applyExternalFloor bc 0 now
  | obs =>
      let tolerance := saturatingMul (syncAllowance bc) 3 in
      let anchor := partyAnchor party obs tolerance in
      let outlierCap := saturatingAdd anchor tolerance in
      applyExternalFloor bc (maxBelow outlierCap obs) now
  end.

(** ** Operations *)
Definition maxRateSamples : Z := 16.
Definition RateSampleGap : Z := 2 * second.

Definition recordRateSampleLocked (samples : list rateSample) (perceived now : Z)
    : list rateSample :=
  let push := (if bool_decide (maxRateSamples <= Z.of_nat (length samples))
               then drop 1 samples else samples) ++ [mkSample perceived now now] in
  if bool_decide (perceived = 0) then samples
  else match last samples with
       | None => push
       | Some l =>
           if bool_decide (height l = perceived) then samples
           else if bool_decide (GoTime.Sub now (opened l) < RateSampleGap)
           then take (length samples - 1) samples ++ [mkSample perceived now (opened l)]
           else push
       end.

Definition pruneOlderThan (cutoff : Z) (obs : list blockObs) : list blockObs :=
  filter (λ o, GoTime.Before (Timestamp o) cutoff = false) obs.

Definition AddObservation (party : EndpointAddr -> string) (bc : BlockConsensus)
    (endpoint : EndpointAddr) (h now : Z) : BlockConsensus :=
  if negb (IsPlausibleBlockHeight h) then bc
  else
    let obs := pruneOlderThan (GoTime.Add now (- windowDuration bc)) (observations bc) in
    let obs := if bool_decide (maxObservations bc <= Z.of_nat (length obs))
               then drop (Z.to_nat (Z.quot (maxObservations bc) 4)) obs else obs in
    let obs := obs ++ [mkObs endpoint h now] in
    let bc' := mkBC obs (windowDuration bc) (maxObservations bc) (syncAllowance bc)
                 (perceived bc) (rateSamples bc) (externalFloor bc) (graceStart bc)
                 (gracePeriod bc) in
    let p := computePerceived party bc' now in
    mkBC obs (windowDuration bc) (maxObservations bc) (syncAllowance bc) p
      (recordRateSampleLocked (rateSamples bc) p now) (externalFloor bc) (graceStart bc)
      (gracePeriod bc).

Definition PerceivedBlock (bc : BlockConsensus) : Z := perceived bc.

Definition SetExternalFloor (party : EndpointAddr -> string) (bc : BlockConsensus)
    (h now : Z) : BlockConsensus :=
  if negb (bool_decide (h = 0)) && negb (IsPlausibleBlockHeight h) then bc
  else
    let bc' := mkBC (observations bc) (windowDuration bc) (maxObservations bc)
                 (syncAllowance bc) (perceived bc) (rateSamples bc) h (graceStart bc)
                 (gracePeriod bc) in
    mkBC (observations bc) (windowDuration bc) (maxObservations bc) (syncAllowance bc)
      (computePerceived party bc' now) (rateSamples bc) h (graceStart bc) (gracePeriod bc).

Definition Reset (bc : BlockConsensus) (now : Z) : BlockConsensus :=
  mkBC [] (windowDuration bc) (maxObservations bc) (syncAllowance bc) 0 [] 0 now (gracePeriod bc).

(** [EndpointHeights]: the latest observation per endpoint, newest first, ties
    by address. *)
Definition latestObs (obs : list blockObs) : gmap EndpointAddr blockObs :=
  foldl (λ latest o,
    match latest !! Endpoint o with
    | Some cur => if GoTime.After (Timestamp o) (Timestamp cur)
                  then <[Endpoint o := o]> latest else latest
    | None => <[Endpoint o := o]> latest
    end) ∅ obs.

(** The order [sort.Slice] is given. *)
Definition newerFirst (a b : blockObs) : Prop :=
  Timestamp b < Timestamp a \/
  (Timestamp a = Timestamp b /\ String.le (Endpoint a) (Endpoint b)).
#[export] Instance newerFirst_dec : RelDecision newerFirst.
Proof. intros a b. unfold newerFirst. apply _. Defined.

Definition EndpointHeights (bc : BlockConsensus) : list blockObs :=
  merge_sort newerFirst ((map_to_list (latestObs (observations bc))).*2).

(** ** Block rate and projections *)
Definition blockRate (samples : list rateSample) : option f64 :=
  match samples with
  | [] | [_] => None
  | oldest :: _ =>
      let newest := default oldest (last samples) in
      let elapsed := Seconds (GoTime.Sub (at_ newest) (at_ oldest)) in
      if fleb elapsed f0 || bool_decide (height newest <= height oldest) then None
      else Some (fdiv (of_int (u64 (height newest - height oldest))) elapsed)
  end.

Record HeightProjection := mkProjection { rate : f64; headAt : Z; pPerceived : Z; window : Z }.

Definition Projection (bc : BlockConsensus) : HeightProjection :=
  match blockRate (rateSamples bc) with
  | Some r => mkProjection r (default GoTime.zero (at_ <$> last (rateSamples bc)))
                (perceived bc) (windowDuration bc)
  | None => mkProjection f0 GoTime.zero (perceived bc) (windowDuration bc)
  end.

Section Projected.
(** [uint64(x)] of a float outside the type's range is implementation-specific. *)
Context (oor : f64 -> Z).

Definition BlocksIn (bc : BlockConsensus) (d : Z) : Z :=
  let p := Projection bc in
  if fleb (rate p) f0 then 0 else to_uint64 oor (fmul (rate p) (Seconds d)).

Definition Project (p : HeightProjection) (h observedAt : Z) : Z :=
  if fleb (rate p) f0 || GoTime.IsZero observedAt || bool_decide (pPerceived p <= h) then h
  else
    let age := GoTime.Sub (headAt p) observedAt in
    if bool_decide (age <= 0) || bool_decide (i64 (2 * window p) < age) then h
    else Z.min (u64 (h + to_uint64 oor (fmul (rate p) (Seconds age)))) (pPerceived p).

Definition staleAnswerSeconds : Z := 10.
Definition staleAnswerMinBlocks : Z := 2.

(** The lag tolerance of [AnswerLag] and [BeyondHead]. *)
Definition answerTolerance (p : HeightProjection) : Z :=
  Z.max staleAnswerMinBlocks (to_uint64 oor (fmul (rate p) (of_int staleAnswerSeconds))).

(** The head expected at [now]: the [switch] of [AnswerLag]. *)
Definition expectedHead (p : HeightProjection) (age : Z) : Z :=
  if fltb f0 (rate p) && bool_decide (0 < age) then
    u64 (pPerceived p + to_uint64 oor (fmul (rate p) (Seconds (Z.min age (window p)))))
  else if fltb f0 (rate p) && bool_decide (age < 0) then
    u64 (pPerceived p - Z.min (to_uint64 oor (fmul (rate p) (Seconds (i64 (- age))))) (pPerceived p))
  else pPerceived p.

(** The answer is [(lag, stale, ok)]. *)
Definition AnswerLag (bc : BlockConsensus) (h now : Z) : Z * bool * bool :=
  let p := Projection bc in
  if bool_decide (pPerceived p = 0) then (0, false, false)
  else
    let age := GoTime.Sub now (headAt p) in
    let head := expectedHead p age in
    let lag := if bool_decide (h < head) then u64 (head - h) else 0 in
    if fleb (rate p) f0 || bool_decide (window p < age) || bool_decide (window p < i64 (- age))
    then (lag, false, true)
    else (lag, bool_decide (answerTolerance p < lag), true).

Definition BeyondHead (bc : BlockConsensus) (h now : Z) : bool :=
  let p := Projection bc in
  let age := GoTime.Sub now (headAt p) in
  if bool_decide (pPerceived p = 0) || fleb (rate p) f0 || bool_decide (window p < age) then false
  else
    let head := u64 (pPerceived p + to_uint64 oor (fmul (rate p) (Seconds (Z.max age 0)))) in
    bool_decide (u64 (head + answerTolerance p) < h).

Definition staleStateSlack : Z := 10 * second.
Definition staleStateImplausible : Z := 24 * hour.

(** [toDuration] is the conversion [time.Duration(x)] of a float. *)
Definition StateLag (toDuration : f64 -> Z) (bc : BlockConsensus) (blockTime t : Z)
    : Z * bool * bool :=
  let p := Projection bc in
  if bool_decide (pPerceived p = 0) || fleb (rate p) f0 then (0, false, false)
  else
    let trail := GoTime.Sub t blockTime in
    if bool_decide (staleStateImplausible < trail) || bool_decide (trail < - staleStateImplausible)
    then (0, false, false)
    else
      let lag := if bool_decide (0 < trail) then to_uint64 oor (fmul (Seconds trail) (rate p)) else 0 in
      if bool_decide (window p < GoTime.Sub t (headAt p)) then (lag, false, true)
      else
        let blockTimes := toDuration (fmul (fdiv (of_int 2) (rate p)) (of_int second)) in
        (lag, bool_decide (i64 (blockTimes + staleStateSlack) < trail), true).
End Projected.

(** ** [qos/chainview.go] *)
Record ChainView := mkView {
  Perceived : Z; Highest : Z; Lowest : Z; Endpoints : Z; ExternalFloor : Z; Newest : Z;
  BlockRate : f64; BlockRateKnown : bool; adjustedSpread : f64
}.

Definition Spread (v : ChainView) : Z :=
  if bool_decide (Endpoints v = 0) || bool_decide (Highest v < Lowest v) then 0
  else u64 (Highest v - Lowest v).

Definition SpreadSeconds (v : ChainView) : option f64 :=
  if negb (BlockRateKnown v) || fleb (BlockRate v) f0 then None
  else Some (fdiv (of_int (Spread v)) (BlockRate v)).

Definition DisagreementSeconds (v : ChainView) : option f64 :=
  if negb (BlockRateKnown v) || fleb (BlockRate v) f0 || bool_decide (Endpoints v = 0) then None
  else Some (fdiv (adjustedSpread v) (BlockRate v)).

(** The loop state of [ChainView]: the bounds once there is a first
    observation, the adjusted bounds, the endpoints seen and the newest time. *)
Record viewAcc := mkAcc {
  vHigh : Z; vLow : Z; adjHigh : f64; adjLow : f64; vFirst : bool;
  vSeen : gset EndpointAddr; vNewest : Z
}.

Definition adjusted (r : option f64) (now : Z) (o : blockObs) : f64 :=
  match r with
  | None => of_int (Height o)
  | Some r => fadd (of_int (Height o)) (fmul r (Seconds (GoTime.Sub now (Timestamp o))))
  end.

Definition viewStep (r : option f64) (now cutoff : Z) (a : viewAcc) (o : blockObs) : viewAcc :=
  if negb (GoTime.After (Timestamp o) cutoff) then a
  else
    let seen := {[Endpoint o]} ∪ vSeen a in
    let newest := if GoTime.After (Timestamp o) (vNewest a) then Timestamp o else vNewest a in
    let x := adjusted r now o in
    if vFirst a then mkAcc (Height o) (Height o) x x false seen newest
    else
      mkAcc (if bool_decide (vHigh a < Height o) then Height o else vHigh a)
            (if bool_decide (Height o < vLow a) then Height o else vLow a)
            (if fltb (adjHigh a) x then x else adjHigh a)
            (if fltb (adjHigh a) x then adjLow a
             else if fltb x (adjLow a) then x else adjLow a)
            false seen newest.

Definition ChainViewOf (bc : BlockConsensus) (now : Z) : ChainView :=
  let cutoff := GoTime.Add now (- windowDuration bc) in
  let r := blockRate (rateSamples bc) in
  let a := foldl (viewStep r now cutoff) (mkAcc 0 0 f0 f0 true ∅ GoTime.zero) (observations bc) in
  mkView (perceived bc) (vHigh a) (vLow a) (Z.of_nat (size (vSeen a))) (externalFloor bc)
    (vNewest a) (default f0 r) (bool_decide (is_Some r))
    (if fltb (adjLow a) (adjHigh a) then fsub (adjHigh a) (adjLow a) else f0).

Definition LastHeightObservation (bc : BlockConsensus) (endpoints : EndpointAddrList) : Z * bool :=
  if bool_decide (endpoints = []) then (GoTime.zero, false)
  else
    let newest := foldl (λ newest o,
      if negb (bool_decide (Endpoint o ∈ endpoints)) then newest
      else if GoTime.After (Timestamp o) newest then Timestamp o else newest)
      GoTime.zero (observations bc) in
    (newest, negb (GoTime.IsZero newest)).

(** ** Saturating arithmetic *)
Lemma saturatingAdd_exact a b : is_u64 a -> is_u64 b -> saturatingAdd a b = Z.min max_u64 (a + b).
Proof.
  unfold saturatingAdd, is_u64, max_u64. intros. rewrite u64_small by (unfold is_u64, max_u64; lia).
  case_bool_decide; [lia|]. rewrite u64_small by (unfold is_u64, max_u64; lia). lia.
Qed.

Lemma saturatingMul_exact a b : is_u64 a -> is_u64 b -> saturatingMul a b = Z.min max_u64 (a * b).
Proof.
  unfold saturatingMul, is_u64. intros Ha Hb.
  destruct (decide (a = 0)) as [->|Ha0]; [by rewrite bool_decide_eq_true_2 by done|].
  destruct (decide (b = 0)) as [->|Hb0].
  { rewrite orb_comm, bool_decide_eq_true_2 by done. rewrite Z.mul_0_r. done. }
  rewrite !bool_decide_eq_false_2 by done. cbn [orb]. case_bool_decide as Hlt.
  - assert (max_u64 < a * b); [|lia].
    apply Z.lt_nge. intros Hle. rewrite Z.mul_comm in Hle.
    apply Z.div_le_lower_bound in Hle; lia.
  - assert (a * b <= max_u64) as Hle.
    { apply Z.nlt_ge in Hlt. pose proof (Z.mul_div_le max_u64 b ltac:(lia)).
      transitivity (b * (max_u64 / b)); [|done]. rewrite Z.mul_comm. apply Z.mul_le_mono_nonneg_l; lia. }
    rewrite u64_small by (unfold is_u64; nia). lia.
Qed.

(** ** Sorting *)
Lemma sort_perm l : sortHeights l ≡ₚ l.
Proof. apply merge_sort_Permutation. Qed.
Lemma sort_sorted l : StronglySorted Z.le (sortHeights l).
Proof. apply Sorted_StronglySorted; [apply _|apply Sorted_merge_sort; intros x y; lia]. Qed.
Lemma sort_length l : length (sortHeights l) = length l.
Proof. by rewrite sort_perm. Qed.

Lemma sorted_lookup (l : list Z) i j a b :
  StronglySorted Z.le l -> (i <= j)%nat -> l !! i = Some a -> l !! j = Some b -> a <= b.
Proof.
  intros Hs. revert i j. induction Hs as [|x l Hs IH Hx]; intros i j Hij Hi Hj; [done|].
  destruct i as [|i], j as [|j]; simpl in *; simplify_eq; try lia.
  - rewrite Forall_forall in Hx. by apply Hx, list_elem_of_lookup_2 with j.
  - eapply IH; [|done|done]. lia.
Qed.

(** The vote of a party is one of its heights. *)
Lemma vote_elem l : l <> [] -> vote l ∈ l.
Proof.
  intros Hl. unfold vote.
  destruct (sortHeights l !! (length l / 2)%nat) as [v|] eqn:E; simpl.
  - rewrite <- sort_perm. by apply list_elem_of_lookup_2 with (length l / 2)%nat.
  - apply lookup_ge_None in E. rewrite sort_length in E.
    destruct l as [|x l]; [done|]. exfalso.
    assert (length (x :: l) / 2 < length (x :: l))%nat by (apply Nat.div_lt; simpl; lia). lia.
Qed.

(** ** The descending scan *)
Section Scan.
Context (S_ : list Z) (tol : Z).
Context (Hs : StronglySorted Z.le S_) (Hu : Forall is_u64 S_).

Lemma gap_exact i a b : S_ !! i = Some a -> S_ !! S i = Some b -> u64 (b - a) = b - a /\ a <= b.
Proof.
  intros Ha Hb. pose proof (sorted_lookup S_ i (S i) a b Hs ltac:(lia) Ha Hb).
  rewrite Forall_lookup in Hu. pose proof (Hu _ _ Ha). pose proof (Hu _ _ Hb).
  unfold is_u64 in *. split; [|done]. apply u64_small. unfold is_u64. lia.
Qed.

Lemma corroborated_spec i :
  (i < length S_)%nat ->
  match corroborated S_ tol i with
  | Some v => exists j a, (S j <= i)%nat /\ S_ !! S j = Some v /\ S_ !! j = Some a /\ v - a <= tol /\
      (forall k x y, (S j <= k < i)%nat -> S_ !! k = Some x -> S_ !! S k = Some y -> tol < y - x)
  | None => forall k x y, (k < i)%nat -> S_ !! k = Some x -> S_ !! S k = Some y -> tol < y - x
  end.
Proof.
  induction i as [|i IH]; intros Hi; cbn [corroborated]; [intros; lia|].
  destruct (lookup_lt_is_Some_2 S_ i ltac:(lia)) as [a Ha].
  destruct (lookup_lt_is_Some_2 S_ (S i) Hi) as [b Hb].
  destruct (gap_exact i a b Ha Hb) as [Hg _]. rewrite Ha, Hb. simpl. rewrite Hg.
  case_bool_decide as Hle.
  - exists i, a. split_and!; [lia|done|done|done|intros; lia].
  - specialize (IH ltac:(lia)). destruct (corroborated S_ tol i) as [v|].
    + destruct IH as (j & c & ? & ? & ? & ? & IH). exists j, c. split_and!; [lia|done|done|done|].
      intros k x y Hk Hx Hy. destruct (decide (k = i)) as [->|]; [simplify_eq; lia|].
      apply (IH k); [lia|done|done].
    + intros k x y Hk Hx Hy. destruct (decide (k = i)) as [->|]; [simplify_eq; lia|].
      apply (IH k); [lia|done|done].
Qed.

(** Two votes within the tolerance: the scan stops, at or above both. *)
Lemma scan_top i j a b :
  i <> j -> S_ !! i = Some a -> S_ !! j = Some b -> Z.abs (a - b) <= tol ->
  exists v, corroborated S_ tol (length S_ - 1) = Some v /\ a <= v /\ b <= v.
Proof.
  intros Hij Ha Hb Hab.
  assert (forall i j a b, (i < j)%nat -> S_ !! i = Some a -> S_ !! j = Some b -> Z.abs (a - b) <= tol ->
    exists v, corroborated S_ tol (length S_ - 1) = Some v /\ a <= v /\ b <= v) as Hw.
  { clear -Hs Hu. intros i j a b Hij Ha Hb Hab. pose proof (lookup_lt_Some _ _ _ Hb) as Hj.
    destruct j as [|j]; [lia|].
    destruct (lookup_lt_is_Some_2 S_ j ltac:(lia)) as [c Hc].
    pose proof (sorted_lookup S_ i j a c Hs ltac:(lia) Ha Hc).
    pose proof (sorted_lookup S_ j (S j) c b Hs ltac:(lia) Hc Hb).
    pose proof (corroborated_spec (length S_ - 1) ltac:(lia)) as Hspec.
    destruct (corroborated S_ tol (length S_ - 1)) as [v|].
    - exists v. split; [done|]. destruct Hspec as (k & d & Hk & Hv & _ & _ & Hno).
      destruct (decide (S j <= S k)%nat).
      + pose proof (sorted_lookup S_ (S j) (S k) b v Hs ltac:(lia) Hb Hv). lia.
      + specialize (Hno j c b ltac:(lia) Hc Hb). lia.
    - specialize (Hspec j c b ltac:(lia) Hc Hb). lia. }
  destruct (decide (i < j)%nat) as [Hlt|Hge]; [by eapply Hw|].
  destruct (Hw j i b a) as (v & ? & ? & ?); [lia|done|done|lia|]. exists v. split_and!; done.
Qed.

(** When every gap exceeds the tolerance the votes are strictly increasing, so
    the k-th has exactly k below it. *)
Lemma strict_below :
  0 <= tol ->
  (forall k x y, S_ !! k = Some x -> S_ !! S k = Some y -> tol < y - x) ->
  forall k v, S_ !! k = Some v -> length (filter (λ x, x < v) S_) = k.
Proof.
  clear Hu. intros Htol. induction Hs as [|x l Hl IH Hx]; intros Hgap k v Hk; [done|].
  assert (Hgap' : forall k x y, l !! k = Some x -> l !! S k = Some y -> tol < y - x)
    by (intros k0 x0 y0 ? ?; by apply (Hgap (S k0))).
  destruct k as [|k]; simpl in Hk.
  - simplify_eq. rewrite filter_cons_False by lia.
    destruct (filter (λ x, x < v) l) as [|y r] eqn:E; [done|].
    assert (y ∈ filter (λ x, x < v) l) as Hy by (rewrite E; by left).
    apply list_elem_of_filter in Hy as [? Hy]. rewrite Forall_forall in Hx. specialize (Hx y Hy). lia.
  - rewrite filter_cons_True; [simpl; f_equal; by apply IH|].
    destruct l as [|y l]; [done|]. specialize (Hgap 0%nat x y eq_refl eq_refl).
    pose proof (sorted_lookup (y :: l) 0 k y v Hl ltac:(lia) eq_refl Hk). lia.
Qed.
End Scan.

(** ** Grouping by party *)
Section Parties.
Context (party : EndpointAddr -> string).
Implicit Types (obs : list blockObs).

(** Whom an observation speaks for: its party, or the endpoint itself when it
    has none. *)
Definition obsKey (o : blockObs) : string :=
  if bool_decide (party (Endpoint o) = "") then Endpoint o else party (Endpoint o).
Definition heightsOf obs (k : string) : list Z := Height <$> filter (λ o, obsKey o = k) obs.
Definition parties obs : list string := remove_dups (obsKey <$> obs).
Definition voteOf obs (k : string) : Z := vote (heightsOf obs k).

Lemma voteKey_obsKey o : voteKey party (Endpoint o) = obsKey o.
Proof. done. Qed.

Lemma byParty_lookup obs k :
  byParty party obs !! k = if decide (heightsOf obs k = []) then None else Some (heightsOf obs k).
Proof.
  unfold byParty, heightsOf. induction obs as [|o obs IH] using rev_ind; [done|].
  rewrite foldl_app. cbn [foldl]. unfold groupObs at 1. rewrite voteKey_obsKey.
  rewrite filter_app, fmap_app. destruct (decide (obsKey o = k)) as [<-|Hne].
  - rewrite lookup_insert_eq, IH, filter_cons_True by done. simpl.
    generalize (Height <$> filter (λ o', obsKey o' = obsKey o) obs). intros l.
    destruct (decide (l = [])) as [->|Hl]; [done|]. simpl.
    rewrite decide_False; [done|]. intros H. by apply app_nil in H as [_ ?].
  - rewrite lookup_insert_ne by done. rewrite filter_cons_False by done.
    simpl. rewrite app_nil_r. exact IH.
Qed.

Lemma heightsOf_nonempty obs k : heightsOf obs k <> [] <-> k ∈ parties obs.
Proof.
  unfold heightsOf, parties. rewrite elem_of_remove_dups, list_elem_of_fmap. split.
  - intros H. destruct (filter _ obs) as [|o l] eqn:E; [done|].
    assert (o ∈ filter (λ o, obsKey o = k) obs) as Ho by (rewrite E; by left).
    apply list_elem_of_filter in Ho as [<- ?]. eauto.
  - intros (o & -> & Ho) Hn. apply fmap_nil_inv in Hn.
    assert (o ∈ filter (λ o', obsKey o' = obsKey o) obs) as Hx by (by apply list_elem_of_filter).
    rewrite Hn in Hx. by apply elem_of_nil in Hx.
Qed.

Lemma votesOf_perm obs : votesOf party obs ≡ₚ (voteOf obs <$> parties obs).
Proof.
  unfold votesOf. rewrite sort_perm.
  assert (map_to_list (byParty party obs) ≡ₚ ((λ k, (k, heightsOf obs k)) <$> parties obs)) as ->.
  { apply NoDup_Permutation.
    - apply NoDup_map_to_list.
    - apply NoDup_fmap_2; [intros ?? [=]; done|apply NoDup_remove_dups].
    - intros [k l]. rewrite elem_of_map_to_list, byParty_lookup, list_elem_of_fmap.
      split.
      + case_decide as Hd; [done|]. intros [= <-]. exists k. split; [done|]. by apply heightsOf_nonempty.
      + intros (k' & [= -> ->] & Hk). apply heightsOf_nonempty in Hk. by rewrite decide_False. }
  by rewrite <- list_fmap_compose.
Qed.

Lemma voteOf_elem obs k : k ∈ parties obs -> exists o, o ∈ obs /\ obsKey o = k /\ Height o = voteOf obs k.
Proof.
  intros Hk. apply heightsOf_nonempty, vote_elem in Hk. unfold heightsOf in Hk.
  apply list_elem_of_fmap in Hk as (o & Ho & Hin). apply list_elem_of_filter in Hin as [? ?].
  exists o. split_and!; done.
Qed.

Lemma vote_positions obs p q :
  p ∈ parties obs -> q ∈ parties obs -> p <> q ->
  exists i j, i <> j /\ votesOf party obs !! i = Some (voteOf obs p) /\
              votesOf party obs !! j = Some (voteOf obs q).
Proof.
  intros Hp Hq Hne.
  apply list_elem_of_lookup in Hp as [i Hi], Hq as [j Hj].
  pose proof (votesOf_perm obs) as Hperm. symmetry in Hperm.
  apply Permutation_inj in Hperm as (_ & f & Hf & Hl).
  exists (f i), (f j). split_and!.
  - intros Heq. apply Hf in Heq. subst. rewrite Hi in Hj. by simplify_eq.
  - by rewrite <- Hl, list_lookup_fmap, Hi.
  - by rewrite <- Hl, list_lookup_fmap, Hj.
Qed.

Lemma position_votes obs i j a b :
  i <> j -> votesOf party obs !! i = Some a -> votesOf party obs !! j = Some b ->
  exists p q, p ∈ parties obs /\ q ∈ parties obs /\ p <> q /\ voteOf obs p = a /\ voteOf obs q = b.
Proof.
  intros Hij Ha Hb. pose proof (votesOf_perm obs) as Hperm.
  apply Permutation_inj in Hperm as (_ & f & Hf & Hl). rewrite Hl, list_lookup_fmap in Ha, Hb.
  destruct (parties obs !! f i) as [p|] eqn:Hp, (parties obs !! f j) as [q|] eqn:Hq; simplify_eq/=.
  exists p, q. split_and!; try done; [by eapply list_elem_of_lookup_2|by eapply list_elem_of_lookup_2|].
  intros ->. apply Hij, Hf. apply (NoDup_lookup (parties obs)) with q; [apply NoDup_remove_dups|done|done].
Qed.

Definition obs_u64 obs : Prop := Forall (λ o, is_u64 (Height o)) obs.

Lemma votes_u64 obs : obs_u64 obs -> Forall is_u64 (votesOf party obs).
Proof.
  intros Hu. rewrite votesOf_perm. apply Forall_fmap, Forall_forall. intros k Hk. simpl.
  destruct (voteOf_elem obs k Hk) as (o & Ho & _ & <-). unfold obs_u64 in Hu.
  rewrite Forall_forall in Hu. by apply Hu.
Qed.

Lemma votes_length obs : length (votesOf party obs) = length (parties obs).
Proof. by rewrite votesOf_perm, length_fmap. Qed.

Lemma parties_nonempty obs : obs <> [] -> (0 < length (parties obs))%nat.
Proof.
  destruct obs as [|o obs]; [done|]. intros _.
  assert (obsKey o ∈ parties (o :: obs)) as H.
  { apply elem_of_remove_dups, list_elem_of_fmap. exists o. split; [done|by left]. }
  destruct (parties (o :: obs)); [by apply elem_of_nil in H|simpl; lia].
Qed.

(** Two parties corroborate each other. *)
Definition corroborate obs (tol : Z) (p q : string) : Prop :=
  p ∈ parties obs /\ q ∈ parties obs /\ p <> q /\ Z.abs (voteOf obs p - voteOf obs q) <= tol.

Lemma anchor_cases obs tol :
  obs <> [] -> obs_u64 obs -> 0 <= tol ->
  let anchor := partyAnchor party obs tol in
  (exists p q, corroborate obs tol p q /\ voteOf obs p = anchor /\
     forall p' q', corroborate obs tol p' q' -> voteOf obs p' <= anchor) \/
  ((forall p q, ~ corroborate obs tol p q) /\
   exists p, p ∈ parties obs /\ voteOf obs p = anchor /\
     length (filter (λ q, voteOf obs q < anchor) (parties obs)) = ((length (parties obs) - 1) / 2)%nat).
Proof.
  intros Hne Hu Htol. cbv zeta.
  pose proof (votes_u64 obs Hu) as Hvu. pose proof (sort_sorted
    ((λ p, vote p.2) <$> map_to_list (byParty party obs))) as Hs. fold (votesOf party obs) in Hs.
  pose proof (parties_nonempty obs Hne) as Hpos. pose proof (votes_length obs) as Hlen.
  pose proof (corroborated_spec (votesOf party obs) tol Hs Hvu (length (votesOf party obs) - 1)
    ltac:(lia)) as Hspec.
  assert (Htop : forall p q, corroborate obs tol p q -> exists v,
    corroborated (votesOf party obs) tol (length (votesOf party obs) - 1) = Some v /\
    voteOf obs p <= v).
  { intros p q (Hp & Hq & Hpq & Hd).
    destruct (vote_positions obs p q Hp Hq Hpq) as (i & j & Hij & Hi & Hj).
    destruct (scan_top _ tol Hs Hvu i j _ _ Hij Hi Hj Hd) as (v & ? & ? & ?). eauto. }
  unfold partyAnchor.
  destruct (corroborated _ _ _) as [v|] eqn:Ec.
  - left. destruct Hspec as (j & a & _ & Hv & Ha & Hd & _).
    destruct (position_votes obs (S j) j v a ltac:(lia) Hv Ha) as (p & q & Hp & Hq & Hpq & Hvp & Hvq).
    pose proof (sorted_lookup _ j (S j) a v Hs ltac:(lia) Ha Hv).
    exists p, q. split_and!; [|done|].
    + split_and!; [done|done|done|]. rewrite Hvp, Hvq. lia.
    + intros p' q' Hc. destruct (Htop p' q' Hc) as (v' & [= <-] & ?). done.
  - right. split; [intros p q Hc; by destruct (Htop p q Hc) as (? & ? & _)|].
    set (k := ((length (votesOf party obs) - 1) / 2)%nat).
    assert (Hk : (k < length (votesOf party obs))%nat).
    { unfold k. pose proof (Nat.Div0.div_le_upper_bound (length (votesOf party obs) - 1) 2
        (length (votesOf party obs) - 1) ltac:(lia)). lia. }
    destruct (lookup_lt_is_Some_2 _ _ Hk) as [v Hv]. rewrite Hv. simpl.
    assert (v ∈ (voteOf obs <$> parties obs)) as Hin
      by (rewrite <- votesOf_perm; by eapply list_elem_of_lookup_2).
    apply list_elem_of_fmap in Hin as (p & -> & Hp). exists p. split_and!; [done|done|].
    rewrite <- Hlen. fold k.
    rewrite <- (strict_below (votesOf party obs) tol Hs Htol) with (v := voteOf obs p); [|intros|done].
    + rewrite votesOf_perm. clear. induction (parties obs) as [|q l IH]; [done|]. rewrite fmap_cons.
      destruct (decide (voteOf obs q < voteOf obs p)).
      * rewrite !filter_cons_True by done. simpl. by rewrite IH.
      * rewrite !filter_cons_False by done. exact IH.
    + eapply Hspec; [|done|done]. pose proof (lookup_lt_Some _ _ _ H0). lia.
Qed.

(** The anchor is what it says it is: when some two parties' votes lie
    within the tolerance of each other, it is the highest vote another party
    corroborates; when no two do, it is the vote with exactly
    [(n - 1) / 2] of the [n] parties below it, the lower median. *)
Theorem anchor_is_highest_corroborated obs tol :
  obs <> [] -> obs_u64 obs -> 0 <= tol ->
  let anchor := partyAnchor party obs tol in
  (exists p q, corroborate obs tol p q /\ voteOf obs p = anchor /\
     forall p' q', corroborate obs tol p' q' -> voteOf obs p' <= anchor) \/
  ((forall p q, ~ corroborate obs tol p q) /\
   exists p, p ∈ parties obs /\ voteOf obs p = anchor /\
     length (filter (λ q, voteOf obs q < anchor) (parties obs)) = ((length (parties obs) - 1) / 2)%nat).
Proof. apply anchor_cases. Qed.

Lemma maxBelow_spec cap obs :
  (forall o, o ∈ obs -> Height o <= cap -> Height o <= maxBelow cap obs) /\
  (maxBelow cap obs = 0 \/ exists o, o ∈ obs /\ Height o = maxBelow cap obs /\ Height o <= cap).
Proof.
  unfold maxBelow. induction obs as [|o obs IH] using rev_ind; simpl.
  { split; [intros o Ho; by apply elem_of_nil in Ho|by left]. }
  rewrite foldl_app. simpl. set (m := foldl _ 0 obs) in *. destruct IH as [IH1 IH2].
  split.
  - intros o' [Ho|Ho%list_elem_of_singleton]%elem_of_app Hc; subst;
      [specialize (IH1 o' Ho Hc)|]; repeat case_bool_decide; simpl; lia.
  - repeat case_bool_decide; simpl;
      try (right; exists o; split_and!; [apply elem_of_app; right; by left|done|done]);
      (destruct IH2 as [?|(o' & ? & ? & ?)]; [by left|right; exists o'; split_and!; [|done|done]];
       apply elem_of_app; by left).
Qed.

(** What the pool alone says, before the external floor. *)
Definition tolerance (bc : BlockConsensus) : Z := saturatingMul (syncAllowance bc) 3.
Definition poolHead (bc : BlockConsensus) : Z :=
  match observations bc with
  | [] => 0
  | obs => maxBelow (saturatingAdd (partyAnchor party obs (tolerance bc)) (tolerance bc)) obs
  end.

Lemma computePerceived_pool bc now :
  computePerceived party bc now = applyExternalFloor bc (poolHead bc) now.
Proof. unfold computePerceived, poolHead. by destruct (observations bc). Qed.

Definition obs_plausible obs : Prop :=
  Forall (λ o, 0 < Height o <= MaxPlausibleBlockHeight) obs.

Lemma plausible_u64 obs : obs_plausible obs -> obs_u64 obs.
Proof.
  intros H. eapply Forall_impl; [done|]. intros o. unfold is_u64, max_u64, MaxPlausibleBlockHeight. lia.
Qed.

Lemma tolerance_exact bc :
  is_u64 (syncAllowance bc) -> tolerance bc = Z.min max_u64 (3 * syncAllowance bc).
Proof.
  intros Ha. unfold tolerance. rewrite saturatingMul_exact by (done || (unfold is_u64, max_u64; lia)).
  by rewrite Z.mul_comm.
Qed.

Lemma anchor_observed obs tol :
  obs <> [] -> obs_u64 obs -> 0 <= tol -> exists o, o ∈ obs /\ Height o = partyAnchor party obs tol.
Proof.
  intros Hne Hu Ht.
  destruct (anchor_cases obs tol Hne Hu Ht) as [(p & q & (Hp & _) & Hv & _)|(_ & p & Hp & Hv & _)];
    destruct (voteOf_elem obs p Hp) as (o & ? & _ & ?); exists o; split; congruence.
Qed.

Lemma cap_exact bc :
  observations bc <> [] -> obs_plausible (observations bc) -> is_u64 (syncAllowance bc) ->
  saturatingAdd (partyAnchor party (observations bc) (tolerance bc)) (tolerance bc) =
  Z.min max_u64 (partyAnchor party (observations bc) (tolerance bc) + tolerance bc).
Proof.
  intros Hne Hp Ha. pose proof (tolerance_exact bc Ha) as Ht.
  assert (Hts : is_u64 (tolerance bc)) by (unfold is_u64, max_u64 in *; lia).
  apply saturatingAdd_exact; [|done].
  destruct (anchor_observed (observations bc) (tolerance bc)) as (o & Ho & <-);
    [done|by apply plausible_u64|unfold is_u64 in *; lia|].
  apply plausible_u64 in Hp. unfold obs_u64 in Hp. rewrite Forall_forall in Hp. by apply Hp.
Qed.

Lemma poolHead_eq bc :
  observations bc <> [] ->
  poolHead bc = maxBelow (saturatingAdd (partyAnchor party (observations bc) (tolerance bc))
                            (tolerance bc)) (observations bc).
Proof. unfold poolHead. by destruct (observations bc). Qed.

Lemma floor_bounds bc p now :
  0 <= p -> is_u64 (externalFloor bc) -> is_u64 (syncAllowance bc) ->
  p <= applyExternalFloor bc p now <= Z.max p (externalFloor bc).
Proof.
  intros Hp Hf Ha. unfold applyExternalFloor, is_u64, max_u64 in *.
  repeat case_bool_decide; try lia; destruct (GoTime.Before _ _); try lia.
  all: try (rewrite u64_small in * by (unfold is_u64, max_u64; lia)); lia.
Qed.

(** The heights of every party but [p] are at most [H]. *)
Definition others_below obs (p : string) (H : Z) : Prop :=
  forall o, o ∈ obs -> obsKey o <> p -> Height o <= H.

Lemma lone_party_anchor obs tol p H :
  obs_u64 obs -> 0 <= tol -> others_below obs p H -> (exists o, o ∈ obs /\ obsKey o <> p) ->
  partyAnchor party obs tol <= H + tol.
Proof.
  intros Hu Ht HH (o0 & Ho0 & Hk0).
  assert (Hne : obs <> []) by (intros ->; by apply elem_of_nil in Ho0).
  assert (Hvote : forall k, k ∈ parties obs -> k <> p -> voteOf obs k <= H).
  { intros k Hk Hkp. destruct (voteOf_elem obs k Hk) as (o & Ho & <- & <-). by apply HH. }
  destruct (anchor_cases obs tol Hne Hu Ht)
    as [(a & b & (Hpa & Hpb & Hab & Hd) & Hv & _)|(_ & a & Hpa & Hv & Hcount)]; rewrite <- Hv.
  { destruct (decide (a = p)) as [->|Hap]; [pose proof (Hvote b Hpb ltac:(congruence)); lia|].
    pose proof (Hvote a Hpa Hap). lia. }
  destruct (decide (a = p)) as [->|Hap]; [|pose proof (Hvote a Hpa Hap); lia].
  apply Z.le_trans with H; [|lia]. apply Z.nlt_ge. intros Hlt.
  rewrite (filter_agree _ (λ q, q <> p)) in Hcount.
  - rewrite (length_filter_ne p (parties obs)) in Hcount by (done || apply NoDup_remove_dups).
    assert (obsKey o0 ∈ filter (λ q, q <> p) (parties obs)) as Hin%elem_of_length_pos.
    { apply list_elem_of_filter. split; [done|]. apply elem_of_remove_dups, list_elem_of_fmap; eauto. }
    rewrite Nat.sub_succ, Nat.sub_0_r in Hcount.
    pose proof (Nat.div_lt (length (filter (λ q, q <> p) (parties obs))) 2 Hin ltac:(lia)). lia.
  - intros q Hq. split; [intros ? ->; lia|]. intros Hqp. pose proof (Hvote q Hq Hqp). lia.
Qed.


(** Two parties that agree hold the head: when every observation of two
    parties lies in a band no wider than the outlier tolerance, the perceived
    height is at least every height they report, however many other parties,
    endpoints and lower heights are in the window. *)
Theorem agreeing_parties_hold_the_head bc now p q L o :
  obs_plausible (observations bc) -> is_u64 (syncAllowance bc) -> is_u64 (externalFloor bc) ->
  p ∈ parties (observations bc) -> q ∈ parties (observations bc) -> p <> q ->
  (forall o, o ∈ observations bc -> obsKey o = p \/ obsKey o = q ->
     L <= Height o <= L + 3 * syncAllowance bc) ->
  o ∈ observations bc -> obsKey o = p \/ obsKey o = q ->
  Height o <= computePerceived party bc now.
Proof.
  intros Hpl Ha Hf Hp Hq Hpq Hband Ho Hok. rewrite computePerceived_pool.
  assert (Hne : observations bc <> []) by (intros E; rewrite E in Ho; by apply elem_of_nil in Ho).
  pose proof (tolerance_exact bc Ha) as Ht. pose proof (cap_exact bc Hne Hpl Ha) as Hcap.
  assert (Ht0 : 0 <= tolerance bc) by (unfold is_u64, max_u64 in *; lia).
  unfold obs_plausible in Hpl. pose proof Hpl as Hpl'. rewrite Forall_forall in Hpl'.
  pose proof (Hpl' o Ho) as Hpo. simpl in Hpo.
  pose proof (plausible_u64 _ Hpl) as Hu.
  destruct (voteOf_elem _ p Hp) as (op & Hop & Hkp & Hvp), (voteOf_elem _ q Hq) as (oq & Hoq & Hkq & Hvq).
  pose proof (Hband op Hop ltac:(auto)) as B1. pose proof (Hband oq Hoq ltac:(auto)) as B2.
  pose proof (Hpl' op Hop) as Q1. pose proof (Hpl' oq Hoq) as Q2.
  pose proof (Hband o Ho Hok) as B3. unfold MaxPlausibleBlockHeight, max_u64 in *. simpl in Q1, Q2.
  assert (Hc : corroborate (observations bc) (tolerance bc) p q).
  { split_and!; [done|done|done|]. rewrite <- Hvp, <- Hvq, Ht. lia. }
  assert (Hanchor : voteOf (observations bc) p <= partyAnchor party (observations bc) (tolerance bc)).
  { destruct (anchor_cases _ _ Hne Hu Ht0) as [(? & ? & _ & _ & Htop)|[Hno _]]; [by apply (Htop p q)|].
    by destruct (Hno p q). }
  assert (Hpool : Height o <= poolHead bc).
  { rewrite poolHead_eq by done. apply maxBelow_spec; [done|]. rewrite Hcap. lia. }
  pose proof (floor_bounds bc (poolHead bc) now ltac:(lia) Hf Ha). lia.
Qed.
End Parties.

(** ** Histories *)
Inductive op :=
  | Observe (party : EndpointAddr -> string) (ep : EndpointAddr) (h now : Z)
  | Floor (party : EndpointAddr -> string) (h now : Z)
  | ResetAll (now : Z)
  | Allow (blocks : Z).

(** [Allow] is the store of [HeightTracking.SetSyncAllowance], of a [uint64]. *)
Definition setAllowance (bc : BlockConsensus) (blocks : Z) : BlockConsensus :=
  mkBC (observations bc) (windowDuration bc) (maxObservations bc) (u64 blocks) (perceived bc)
    (rateSamples bc) (externalFloor bc) (graceStart bc) (gracePeriod bc).

Definition step (bc : BlockConsensus) (o : op) : BlockConsensus :=
  match o with
  | Observe party ep h now => AddObservation party bc ep h now
  | Floor party h now => SetExternalFloor party bc h now
  | ResetAll now => Reset bc now
  | Allow blocks => setAllowance bc blocks
  end.
Definition run (bc : BlockConsensus) (os : list op) : BlockConsensus := foldl step bc os.

Record consensus_ok (bc : BlockConsensus) : Prop := {
  ok_window : windowDuration bc = defaultWindowDuration;
  ok_max : maxObservations bc = defaultMaxObservations;
  ok_grace : gracePeriod bc = defaultGracePeriod;
  ok_len : Z.of_nat (length (observations bc)) <= defaultMaxObservations;
  ok_obs : obs_plausible (observations bc);
  ok_allow : is_u64 (syncAllowance bc);
  ok_floor : 0 <= externalFloor bc <= MaxPlausibleBlockHeight;
  ok_perceived : 0 <= perceived bc <= MaxPlausibleBlockHeight;
  ok_samples : Z.of_nat (length (rateSamples bc)) <= maxRateSamples;
  ok_heights : Forall (λ s, 0 < height s <= MaxPlausibleBlockHeight) (rateSamples bc)
}.

Lemma plausible_spec h : IsPlausibleBlockHeight h = true <-> 0 < h <= MaxPlausibleBlockHeight.
Proof. unfold IsPlausibleBlockHeight. rewrite andb_true_iff, !bool_decide_eq_true. lia. Qed.

Lemma poolHead_bounds party bc :
  obs_plausible (observations bc) -> 0 <= poolHead party bc <= MaxPlausibleBlockHeight.
Proof.
  intros Hp. unfold MaxPlausibleBlockHeight. destruct (decide (observations bc = [])) as [E|Hne].
  { unfold poolHead. rewrite E. lia. }
  rewrite poolHead_eq by done. edestruct maxBelow_spec as [_ [Hz|(o & Ho & <- & _)]]; [rewrite Hz; lia|].
  unfold obs_plausible, MaxPlausibleBlockHeight in Hp. rewrite Forall_forall in Hp.
  specialize (Hp o Ho). simpl in Hp. lia.
Qed.

Lemma computePerceived_bounds party bc now :
  obs_plausible (observations bc) -> is_u64 (syncAllowance bc) ->
  0 <= externalFloor bc <= MaxPlausibleBlockHeight ->
  0 <= computePerceived party bc now <= MaxPlausibleBlockHeight.
Proof.
  intros Hp Ha Hf. rewrite computePerceived_pool. pose proof (poolHead_bounds party bc Hp).
  pose proof (floor_bounds bc (poolHead party bc) now ltac:(lia)
    ltac:(unfold is_u64, max_u64, MaxPlausibleBlockHeight in *; lia) Ha). lia.
Qed.

Lemma samples_bounded samples p now :
  Z.of_nat (length samples) <= maxRateSamples ->
  Z.of_nat (length (recordRateSampleLocked samples p now)) <= maxRateSamples.
Proof.
  intros Hl. unfold recordRateSampleLocked, maxRateSamples in *.
  case_bool_decide; [done|]. destruct (last samples) as [l|] eqn:E.
  - assert (0 < length samples)%nat by (destruct samples; simpl in *; [done|lia]).
    repeat case_bool_decide; rewrite ?length_app, ?length_take, ?length_drop; simpl; lia.
  - apply last_None in E as ->. simpl. lia.
Qed.

Lemma samples_heights (P : Z -> Prop) samples p now :
  Forall (λ s, P (height s)) samples -> (p <> 0 -> P p) ->
  Forall (λ s, P (height s)) (recordRateSampleLocked samples p now).
Proof.
  intros Hs Hp. unfold recordRateSampleLocked.
  case_bool_decide as Hz; [done|]. destruct (last samples) as [l|]; repeat case_bool_decide;
    rewrite ?Forall_app; split_and?; auto using Forall_take, Forall_drop.
  all: repeat constructor; auto.
Qed.

Lemma new_ok allowance now : is_u64 allowance -> consensus_ok (NewBlockConsensus allowance now).
Proof. intros Ha. split; simpl; try done; apply Forall_nil_2. Qed.

Lemma add_ok party bc ep h now : consensus_ok bc -> consensus_ok (AddObservation party bc ep h now).
Proof.
  intros Hok. unfold AddObservation. destruct (IsPlausibleBlockHeight h) eqn:Eh; [|done].
  apply plausible_spec in Eh. destruct Hok as [Hw Hm Hg Hl Ho Ha Hf Hp Hs Hh]. cbn [negb].
  set (obs1 := pruneOlderThan _ _).
  assert (Hl1 : Z.of_nat (length obs1) <= defaultMaxObservations).
  { unfold obs1, pruneOlderThan. etrans; [apply Nat2Z.inj_le, length_filter|done]. }
  assert (Ho1 : obs_plausible obs1) by (by apply Forall_filter).
  set (obs2 := if bool_decide _ then _ else obs1).
  assert (Hl2 : Z.of_nat (length (obs2 ++ [mkObs ep h now])) <= defaultMaxObservations).
  { unfold obs2. rewrite Hm in *. unfold defaultMaxObservations in *.
    case_bool_decide; rewrite length_app; simpl; [|lia].
    rewrite length_drop. change (Z.to_nat (1000 ÷ 4)) with 250%nat. lia. }
  assert (Ho2 : obs_plausible (obs2 ++ [mkObs ep h now])).
  { apply Forall_app. split; [|by repeat constructor; simpl; lia].
    unfold obs2. case_bool_decide; [by apply Forall_drop|done]. }
  assert (Hb := λ bc' Hp, computePerceived_bounds party bc' now Hp).
  split; simpl; try done.
  - by apply Hb.
  - by apply samples_bounded.
  - apply (samples_heights (λ x, 0 < x <= MaxPlausibleBlockHeight)); [done|]. intros Hnz.
    match type of Hnz with computePerceived _ ?b _ <> _ => pose proof (Hb b Ho2 Ha Hf) end. lia.
Qed.

Lemma step_ok bc o : consensus_ok bc -> consensus_ok (step bc o).
Proof.
  intros Hok. destruct o as [party ep h now|party h now|now|blocks]; simpl; [by apply add_ok|..].
  all: destruct Hok as [Hw Hm Hg Hl Ho Ha Hf Hp Hs Hh].
  - unfold SetExternalFloor. destruct (negb _ && _) eqn:E; [by split|].
    assert (0 <= h <= MaxPlausibleBlockHeight) as Hh'.
    { apply andb_false_iff in E as [E|E].
      - apply negb_false_iff, bool_decide_eq_true in E. subst. done.
      - apply negb_false_iff, plausible_spec in E. lia. }
    split; simpl; try done. by apply computePerceived_bounds.
  - split; simpl; try done; apply Forall_nil_2.
  - split; simpl; try done. apply u64_range.
Qed.

Lemma run_ok allowance t os : consensus_ok (run (NewBlockConsensus (u64 allowance) t) os).
Proof.
  unfold run. induction os as [|o os IH] using rev_ind; [apply new_ok, u64_range|].
  rewrite foldl_app. by apply step_ok.
Qed.

(** Bounds, for every history of observations, external floors, resets and
    allowance changes, whatever heights are claimed: the perceived height never
    passes the plausibility ceiling (so no comparison made against it can
    wrap), the window never holds more than 1000 observations, all of them
    plausible, and the rate history never more than 16 samples. *)
Theorem consensus_stays_within_bounds allowance t os :
  let bc := run (NewBlockConsensus (u64 allowance) t) os in
  0 <= PerceivedBlock bc <= MaxPlausibleBlockHeight /\
  Z.of_nat (length (observations bc)) <= 1000 /\
  (forall o, o ∈ observations bc -> IsPlausibleBlockHeight (Height o) = true) /\
  Z.of_nat (length (rateSamples bc)) <= 16.
Proof.
  cbv zeta. destruct (run_ok allowance t os) as [_ _ _ Hl Ho _ _ Hp Hs _].
  unfold PerceivedBlock. split_and!; [lia|lia|done| |done]. intros o Hin. apply plausible_spec.
  unfold obs_plausible in Ho. rewrite Forall_forall in Ho. by apply Ho.
Qed.

(** A reset is a restart: whatever was observed, claimed or set before it,
    the consensus after [Reset] is exactly a newly created one with the
    allowance in force, so no height, floor, rate sample or elapsed grace
    survives it. *)
Theorem reset_is_fresh allowance t os now :
  let bc := run (NewBlockConsensus (u64 allowance) t) os in
  Reset bc now = NewBlockConsensus (syncAllowance bc) now.
Proof.
  cbv zeta. destruct (run_ok allowance t os) as [Hw Hm Hg _ _ _ _ _ _ _].
  unfold Reset. by rewrite Hw, Hm, Hg.
Qed.

(** ** The external floor *)

(** The floor changes nothing while the pool is within an allowance of it or
    during the grace period, and otherwise lifts the head to exactly an
    allowance below it. *)
Lemma floor_engages_only_when_behind party bc now :
  is_u64 (syncAllowance bc) -> is_u64 (externalFloor bc) ->
  obs_plausible (observations bc) ->
  let pool := poolHead party bc in
  let engaged := externalFloor bc <> 0 /\ graceStart bc + gracePeriod bc <= now in
  (~ engaged \/ externalFloor bc <= pool -> computePerceived party bc now = pool) /\
  (externalFloor bc <= pool + syncAllowance bc -> syncAllowance bc < externalFloor bc ->
     computePerceived party bc now = pool) /\
  (engaged -> pool + syncAllowance bc < externalFloor bc ->
     computePerceived party bc now = externalFloor bc - syncAllowance bc).
Proof.
  intros Ha Hf Hp pool engaged. pose proof (poolHead_bounds party bc Hp) as Hb. fold pool in Hb.
  rewrite computePerceived_pool. fold pool. unfold engaged, applyExternalFloor, is_u64, GoTime.Add in *.
  assert (syncAllowance bc < externalFloor bc ->
    u64 (externalFloor bc - syncAllowance bc) = externalFloor bc - syncAllowance bc) as Hu.
  { intros. apply u64_small. unfold is_u64. lia. }
  destruct (GoTime.Before _ _) eqn:Hg; go_times; repeat case_bool_decide;
    split_and!; intros; try lia; rewrite Hu in * by lia; lia.
Qed.

(** ** The rate history *)
Definition opNow (o : op) : option Z :=
  match o with
  | Observe _ _ _ now | Floor _ _ now | ResetAll now => Some now
  | Allow _ => None
  end.

(** A clock that does not go back. *)
Fixpoint monotone (t : Z) (os : list op) : Prop :=
  match os with
  | [] => True
  | o :: os => match opNow o with Some now => t <= now /\ monotone now os | None => monotone t os end
  end.

Definition gapped (a b : rateSample) : Prop := opened a + RateSampleGap <= opened b.
Definition bucketed (s : rateSample) : Prop := opened s <= at_ s < opened s + RateSampleGap.

Record spaced (t : Z) (samples : list rateSample) : Prop := {
  sp_gap : forall i a b, samples !! i = Some a -> samples !! S i = Some b -> gapped a b;
  sp_bucket : Forall bucketed samples;
  sp_past : Forall (λ s, at_ s <= t) samples
}.

Lemma spaced_mono t t' samples : t <= t' -> spaced t samples -> spaced t' samples.
Proof. intros Ht [H1 H2 H3]. split; [done|done|]. eapply Forall_impl; [done|]. simpl. lia. Qed.

Lemma spaced_drop t n samples : spaced t samples -> spaced t (drop n samples).
Proof.
  intros [H1 H2 H3]. split; [|by apply Forall_drop|by apply Forall_drop].
  intros i a b. rewrite !lookup_drop, Nat.add_succ_r. apply H1.
Qed.

Lemma spaced_take t n samples : spaced t samples -> spaced t (take n samples).
Proof.
  intros [H1 H2 H3]. split; [|by apply Forall_take|by apply Forall_take].
  intros i a b Ha Hb. apply lookup_take_Some in Ha as [Ha _], Hb as [Hb _]. by eapply H1.
Qed.

Lemma spaced_snoc t samples s :
  spaced t samples -> (forall l, last samples = Some l -> gapped l s) -> bucketed s -> at_ s <= t ->
  spaced t (samples ++ [s]).
Proof.
  intros [H1 H2 H3] Hg Hb Ht. split; [|apply Forall_app; split; [done|by apply Forall_singleton]..].
  intros i a b Ha Hbb.
  destruct (decide (S i < length samples)%nat).
  - rewrite lookup_app_l in Ha, Hbb by lia. by eapply H1.
  - pose proof (lookup_lt_Some _ _ _ Hbb) as Hl. rewrite length_app in Hl. simpl in Hl.
    assert (S i = length samples) as Hi by lia.
    rewrite lookup_app_l in Ha by lia.
    rewrite Hi, lookup_app_r, Nat.sub_diag in Hbb by lia. simplify_eq/=.
    apply Hg. rewrite last_lookup, <- Hi. done.
Qed.

Lemma record_spaced t samples p now :
  t <= now -> spaced t samples -> spaced now (recordRateSampleLocked samples p now).
Proof.
  intros Ht Hs. apply (spaced_mono t now) in Hs; [|done].
  unfold recordRateSampleLocked. case_bool_decide; [done|].
  assert (bucketed (mkSample p now now)) as Hb by (unfold bucketed, RateSampleGap, second; simpl; lia).
  destruct (last samples) as [l|] eqn:El; [|apply last_None in El as ->; simpl;
    by apply (spaced_snoc now [])].
  case_bool_decide; [done|].
  assert (l ∈ samples) as Hin by (apply last_Some in El as [l' ->]; apply elem_of_app; right; by left).
  pose proof (sp_bucket _ _ Hs) as Hbs. rewrite Forall_forall in Hbs. specialize (Hbs l Hin).
  pose proof (sp_past _ _ Hs) as Hps. rewrite Forall_forall in Hps. specialize (Hps l Hin). simpl in Hps.
  unfold bucketed in Hbs. case_bool_decide as Hgap;
    rewrite GoTime.Sub_lt in Hgap by (unfold RateSampleGap, second, min_i64, max_i64; lia).
  - apply last_Some in El as [pre ->]. rewrite length_app, Nat.add_sub, take_app_length.
    apply spaced_snoc; [by apply (spaced_take now (length pre)) in Hs; rewrite take_app_length in Hs| | |].
    + intros l' Hl'. rewrite last_lookup in Hl'. unfold gapped. simpl.
      apply (sp_gap _ _ Hs (pred (length pre))).
      * rewrite lookup_app_l; [done|]. apply lookup_lt_Some in Hl'. lia.
      * apply lookup_lt_Some in Hl'. replace (S (pred (length pre))) with (length pre) by lia.
        by rewrite lookup_app_r, Nat.sub_diag by lia.
    + unfold bucketed. simpl. lia.
    + simpl. lia.
  - apply spaced_snoc; [|intros l' Hl'; unfold gapped; simpl|done|simpl; lia].
    + case_bool_decide; [by apply spaced_drop|done].
    + assert (l' = l) as ->; [|lia]. case_bool_decide as Hmax; [|congruence].
      unfold maxRateSamples in Hmax. destruct samples as [|x [|y r]]; [simpl in Hmax; lia..|].
      change (drop 1 (x :: y :: r)) with (y :: r) in Hl'. cbn [last] in El, Hl'. congruence.
Qed.

Lemma run_spaced t bc os :
  monotone t os -> spaced t (rateSamples bc) -> exists t', spaced t' (rateSamples (run bc os)).
Proof.
  revert t bc. induction os as [|o os IH]; intros t bc Hm Hs; [by exists t|].
  unfold run in *. simpl. destruct o as [party ep h now|party h now|now|blocks]; simpl in Hm.
  - destruct Hm as [Ht Hm]. apply (IH now); [done|]. simpl. unfold AddObservation.
    destruct (IsPlausibleBlockHeight h); simpl; [by eapply record_spaced|by eapply spaced_mono].
  - destruct Hm as [Ht Hm]. apply (IH now); [done|]. simpl. unfold SetExternalFloor.
    destruct (_ && _); simpl; by eapply spaced_mono.
  - destruct Hm as [Ht Hm]. apply (IH now); [done|]. split; [done|constructor..].
  - by apply (IH t).
Qed.

Lemma spaced_span t samples a b :
  spaced t samples -> head samples = Some a -> last samples = Some b ->
  opened a + (Z.of_nat (length samples) - 1) * RateSampleGap <= opened b.
Proof.
  intros Hs Ha Hb. destruct samples as [|x l]; simpl in Ha; simplify_eq.
  revert b Hb. induction l as [|y l IH] using rev_ind; intros b Hb; [simpl in *; simplify_eq; lia|].
  rewrite app_comm_cons, last_snoc in Hb. simplify_eq.
  destruct (last (a :: l)) as [z|] eqn:Ez; [|by apply last_None in Ez].
  assert (spaced t (a :: l)) as Hs'.
  { rewrite app_comm_cons in Hs. apply (spaced_take t (length (a :: l))) in Hs.
    by rewrite take_app_length in Hs. }
  specialize (IH Hs' z eq_refl). rewrite app_comm_cons in Hs.
  assert (gapped z b) as Hg.
  { rewrite last_lookup in Ez. apply (sp_gap _ _ Hs (length l)).
    - rewrite lookup_app_l by (simpl; lia). done.
    - rewrite lookup_app_r by (simpl; lia). simpl. by rewrite Nat.sub_diag. }
  unfold gapped in Hg. rewrite app_comm_cons, length_app. simpl in *. lia.
Qed.

(** A burst is not a rate: with a clock that does not go back, whenever a
    block rate is reported from [n] samples, they span more than [n - 2] sample
    gaps of two seconds, and the rate is the exact positive height difference
    between the first and the last of them over that span.  Replaying minutes
    of probe results in milliseconds cannot make more than one sample of it. *)
Theorem rate_spans_live_movement allowance t os r :
  monotone t os ->
  let samples := rateSamples (run (NewBlockConsensus (u64 allowance) t) os) in
  blockRate samples = Some r ->
  exists oldest newest, head samples = Some oldest /\ last samples = Some newest /\
    (Z.of_nat (length samples) - 2) * RateSampleGap < at_ newest - at_ oldest /\
    0 < height newest - height oldest <= MaxPlausibleBlockHeight /\
    r = fdiv (of_int (height newest - height oldest)) (Seconds (GoTime.Sub (at_ newest) (at_ oldest))).
Proof.
  intros Hm samples Hr. destruct (run_spaced t (NewBlockConsensus (u64 allowance) t) os Hm) as [t' Hs];
    [split; [done|constructor..]|]. fold samples in Hs.
  pose proof (ok_heights _ (run_ok allowance t os)) as Hh. fold samples in Hh. clearbody samples.
  unfold blockRate in Hr. destruct samples as [|a [|a' l]]; [done|done|].
  destruct (last (a :: a' :: l)) as [b|] eqn:Eb; [|by apply last_None in Eb].
  simpl default in Hr. destruct (fleb _ _ || _) eqn:E; [done|]. injection Hr as <-.
  apply orb_false_iff in E as [_ E]. apply bool_decide_eq_false in E.
  pose proof (spaced_span t' _ a b Hs eq_refl Eb) as Hspan.
  pose proof (sp_bucket _ _ Hs) as Hbk. rewrite Forall_forall in Hbk, Hh.
  assert (a ∈ a :: a' :: l) as Hina by (by left).
  assert (b ∈ a :: a' :: l) as Hinb
    by (apply last_Some in Eb as [pre ->]; apply elem_of_app; right; by left).
  pose proof (Hbk a Hina). pose proof (Hbk b Hinb). unfold bucketed in *.
  pose proof (Hh a Hina) as Ha. pose proof (Hh b Hinb) as Hb. simpl in Ha, Hb.
  exists a, b. split_and!; [done|done| |lia|lia|].
  - unfold RateSampleGap, second in *. lia.
  - rewrite u64_small; [done|]. unfold is_u64, max_u64, MaxPlausibleBlockHeight in *. lia.
Qed.

(** ** Projections *)

(** Projecting a reading to the head's time never takes it past the perceived
    head, leaves a reading at or above the head alone, and never lowers a
    reading unless the advance itself overflows. *)
Lemma project_bounded oor p h t :
  is_u64 h -> is_u64 (pPerceived p) ->
  Project oor p h t <= Z.max h (pPerceived p) /\
  (pPerceived p <= h -> Project oor p h t = h) /\
  (h + to_uint64 oor (fmul (rate p) (Seconds (GoTime.Sub (headAt p) t))) <= max_u64 ->
     h <= Project oor p h t).
Proof.
  intros Hh Hp. unfold Project.
  destruct (_ || _) eqn:E1; [split_and!; lia|].
  apply orb_false_iff in E1 as [_ E1]. apply bool_decide_eq_false in E1.
  destruct (_ || _); split_and!; try lia.
  intros Hov. unfold is_u64 in *. rewrite u64_small; [|split; [|done]].
  all: assert (is_u64 (to_uint64 oor (fmul (rate p) (Seconds (GoTime.Sub (headAt p) t))))) as Hr
    by (unfold to_uint64; repeat case_match; try case_bool_decide; apply u64_range || done).
  all: unfold is_u64 in Hr; lia.
Qed.

(** [AnswerLag] calls an answer stale only against a live rate: a block rate is
    known, the head moved within a window of the answer, and the answer is more
    than the tolerance below the expected head. *)
Lemma stale_needs_live_rate oor bc h now lag ok :
  AnswerLag oor bc h now = (lag, true, ok) ->
  ok = true /\ perceived bc <> 0 /\ blockRate (rateSamples bc) <> None /\
  GoTime.Sub now (headAt (Projection bc)) <= windowDuration bc /\
  staleAnswerMinBlocks < lag /\ h < expectedHead oor (Projection bc)
                                       (GoTime.Sub now (headAt (Projection bc))).
Proof.
  unfold AnswerLag. assert (pPerceived (Projection bc) = perceived bc) as Hpp
    by (unfold Projection; by case_match).
  assert (window (Projection bc) = windowDuration bc) as Hw by (unfold Projection; by case_match).
  rewrite Hpp, Hw. case_bool_decide as Hz; [done|].
  destruct (_ || _) eqn:E; [done|]. intros [= <- Hs <-].
  apply bool_decide_eq_true in Hs. apply orb_false_iff in E as [E _].
  apply orb_false_iff in E as [E1 E2]. apply bool_decide_eq_false in E2.
  unfold answerTolerance, staleAnswerMinBlocks in *. split_and!; try done; try lia.
  - intros Hn. unfold Projection in E1. rewrite Hn in E1. done.
  - case_bool_decide; lia.
Qed.

(** ** The chain view *)
Definition inWindow (bc : BlockConsensus) (now : Z) : list blockObs :=
  filter (λ o, now - windowDuration bc < Timestamp o) (observations bc).

Record acc_ok (W : list blockObs) (a : viewAcc) : Prop := {
  acc_first : vFirst a = bool_decide (W = []);
  acc_seen : forall e, e ∈ vSeen a <-> exists o, o ∈ W /\ Endpoint o = e;
  acc_bounds : forall o, o ∈ W -> vLow a <= Height o <= vHigh a /\ Timestamp o <= vNewest a;
  acc_attained : W <> [] -> (exists o, o ∈ W /\ Height o = vLow a) /\ (exists o, o ∈ W /\ Height o = vHigh a);
  acc_newest : vNewest a = GoTime.zero \/ exists o, o ∈ W /\ Timestamp o = vNewest a
}.

Lemma view_step_ok r now cutoff W a o :
  acc_ok W a ->
  acc_ok (W ++ filter (λ o, cutoff < Timestamp o) [o]) (viewStep r now cutoff a o).
Proof.
  intros [H1 H2 H3 H4 H5]. unfold viewStep.
  destruct (GoTime.After (Timestamp o) cutoff) eqn:Ea; go_times; cbn [negb].
  2:{ rewrite filter_cons_False by lia. rewrite filter_nil, app_nil_r. by split. }
  rewrite filter_cons_True by done. rewrite filter_nil.
  assert (Hin : forall x, x ∈ W ++ [o] <-> x ∈ W \/ x = o)
    by (intros; rewrite elem_of_app, list_elem_of_singleton; done).
  assert (Hne : W ++ [o] <> []) by (intros Hx; by apply app_nil in Hx as [_ ?]).
  destruct (vFirst a); symmetry in H1.
  - apply bool_decide_eq_true in H1. subst W.
    split; simpl; [by rewrite ?bool_decide_eq_false_2| | | |].
    + intros e. rewrite elem_of_union, elem_of_singleton, H2. set_solver.
    + intros x ->%list_elem_of_singleton. split; [lia|].
      destruct (GoTime.After _ (vNewest a)) eqn:E; go_times; lia.
    + intros _. split; exists o; (split; [by left|done]).
    + destruct (GoTime.After _ (vNewest a)); [right; exists o; split; [by left|done]|].
      destruct H5 as [?|(x & Hx & _)]; [by left|by apply elem_of_nil in Hx].
  - apply bool_decide_eq_false in H1. destruct (H4 H1) as [(lo & Hlo & Elo) (hi & Hhi & Ehi)].
    split; simpl; [by rewrite ?bool_decide_eq_false_2| | | |].
    + intros e. rewrite elem_of_union, elem_of_singleton, H2. setoid_rewrite Hin. naive_solver.
    + intros x Hx. apply Hin in Hx as [Hx| ->]; [specialize (H3 x Hx)|]; repeat case_bool_decide;
        destruct (GoTime.After _ (vNewest a)) eqn:E; go_times; lia.
    + intros _. setoid_rewrite Hin. split; case_bool_decide; eauto.
    + setoid_rewrite Hin. destruct (GoTime.After _ (vNewest a)); [right; eauto|].
      destruct H5 as [?|(x & ? & ?)]; [by left|right; eauto].
Qed.

(** The chain view reports its window: it counts the distinct endpoints
    observed inside the window, its lowest and highest are attained there and
    bound every height there, its spread is their exact difference, and its
    newest time bounds every observation in the window; with none, it reports
    no endpoint and no spread. *)
Theorem chain_view_summarises_window bc now :
  obs_plausible (observations bc) ->
  let v := ChainViewOf bc now in
  let W := inWindow bc now in
  Endpoints v = Z.of_nat (length (remove_dups (Endpoint <$> W))) /\
  (forall o, o ∈ W -> Lowest v <= Height o <= Highest v /\ Timestamp o <= Newest v) /\
  (W <> [] -> exists lo hi, lo ∈ W /\ hi ∈ W /\ Height lo = Lowest v /\ Height hi = Highest v /\
     Spread v = Height hi - Height lo) /\
  (W = [] -> Endpoints v = 0 /\ Spread v = 0 /\ Newest v = GoTime.zero).
Proof.
  intros Hpl v W.
  set (a := foldl (viewStep (blockRate (rateSamples bc)) now (GoTime.Add now (- windowDuration bc)))
              (mkAcc 0 0 f0 f0 true ∅ GoTime.zero) (observations bc)).
  assert (acc_ok W a) as [H1 H2 H3 H4 H5].
  { unfold a, W, inWindow, GoTime.Add. rewrite Z.add_opp_r.
    generalize (observations bc). intros obs.
    induction obs as [|o obs IH] using rev_ind.
    - split; simpl; try done; [set_solver|intros o Ho; by apply elem_of_nil in Ho|by left].
    - rewrite foldl_app, filter_app. by apply view_step_ok. }
  assert (Hn : Endpoints v = Z.of_nat (length (remove_dups (Endpoint <$> W)))).
  { unfold v, ChainViewOf. simpl. fold a. f_equal.
    rewrite <- (size_list_to_set (C := gset EndpointAddr) (remove_dups (Endpoint <$> W)))
      by apply NoDup_remove_dups.
    f_equal. apply set_eq. intros e.
    rewrite elem_of_list_to_set, elem_of_remove_dups, H2, list_elem_of_fmap. naive_solver. }
  split_and!; [done|exact H3| |].
  - intros Hw. destruct (H4 Hw) as [(lo & Hlo & Elo) (hi & Hhi & Ehi)].
    exists lo, hi. split_and!; [done..|]. unfold Spread.
    rewrite (bool_decide_eq_false_2 (Endpoints v = 0)).
    2:{ rewrite Hn. assert (Endpoint lo ∈ remove_dups (Endpoint <$> W)) as Hx%elem_of_length_pos; [|lia].
        apply elem_of_remove_dups, list_elem_of_fmap. eauto. }
    change (Highest v) with (vHigh a). change (Lowest v) with (vLow a). rewrite <- Elo, <- Ehi.
    pose proof (H3 lo Hlo) as B. rewrite bool_decide_eq_false_2 by lia. simpl.
    assert (forall o, o ∈ W -> 0 < Height o <= MaxPlausibleBlockHeight) as Hb.
    { intros o [_ Ho]%list_elem_of_filter. unfold obs_plausible in Hpl. rewrite Forall_forall in Hpl.
      by apply Hpl. }
    pose proof (Hb lo Hlo). pose proof (Hb hi Hhi). apply u64_small.
    unfold is_u64, max_u64, MaxPlausibleBlockHeight in *. lia.
  - intros Hw. unfold Spread. rewrite Hn, Hw. simpl. split_and!; try done.
    change (vNewest a = GoTime.zero). destruct H5 as [?|(o & Ho & _)]; [done|].
    rewrite Hw in Ho. by apply elem_of_nil in Ho.
Qed.

(** [EndpointHeights] lists each observed endpoint once, at its latest
    observation, newest first. *)
Lemma latest_spec obs :
  (forall e o, latestObs obs !! e = Some o -> o ∈ obs /\ Endpoint o = e) /\
  (forall o, o ∈ obs -> exists o', latestObs obs !! Endpoint o = Some o' /\ Timestamp o <= Timestamp o').
Proof.
  unfold latestObs. induction obs as [|o obs [IH1 IH2]] using rev_ind.
  { split; [done|intros o Ho; by apply elem_of_nil in Ho]. }
  rewrite foldl_app. cbn [foldl]. set (m := foldl _ ∅ obs) in *.
  set (w := match m !! Endpoint o with
            | Some c => if GoTime.After (Timestamp o) (Timestamp c) then o else c | None => o end).
  assert (Hw : (w = o \/ m !! Endpoint o = Some w) /\ Timestamp o <= Timestamp w /\
               forall c, m !! Endpoint o = Some c -> Timestamp c <= Timestamp w).
  { unfold w. destruct (m !! Endpoint o) as [c|]; [destruct (GoTime.After _ _) eqn:Ea; go_times|];
      split_and!; auto; intros; simplify_eq; lia. }
  set (m' := match m !! Endpoint o with
             | Some c => if GoTime.After (Timestamp o) (Timestamp c) then <[Endpoint o:=o]> m else m
             | None => <[Endpoint o:=o]> m end).
  assert (Hm : forall e, m' !! e = if decide (Endpoint o = e) then Some w else m !! e).
  { intros e. unfold m', w. destruct (m !! Endpoint o) as [c|] eqn:Ec; [destruct (GoTime.After _ _)|];
      rewrite ?lookup_insert; case_decide; subst; done. }
  clearbody m m' w. destruct Hw as (Hw1 & Hw2 & Hw3). split.
  - intros e x. rewrite Hm, elem_of_app, list_elem_of_singleton. case_decide as He; [|intros; split; [left|]; by eapply IH1].
    intros [= <-]. destruct Hw1 as [->|Hw1]; [split; [by right|done]|]. apply IH1 in Hw1 as [? ?].
    split; [by left|congruence].
  - intros x. rewrite elem_of_app, list_elem_of_singleton, Hm. case_decide as He.
    + intros [Hx| ->]; exists w; (split; [done|]); [|done].
      destruct (IH2 x Hx) as (c & Hc & ?). rewrite <- He in Hc. specialize (Hw3 c Hc). lia.
    + intros [Hx| ->]; [by apply IH2|done].
Qed.

Lemma endpoint_heights_spec bc :
  NoDup (Endpoint <$> EndpointHeights bc) /\
  StronglySorted newerFirst (EndpointHeights bc) /\
  (forall o, o ∈ EndpointHeights bc -> o ∈ observations bc) /\
  (forall o, o ∈ observations bc -> exists o', o' ∈ EndpointHeights bc /\
     Endpoint o' = Endpoint o /\ Timestamp o <= Timestamp o').
Proof.
  destruct (latest_spec (observations bc)) as [L1 L2]. unfold EndpointHeights.
  set (m := latestObs (observations bc)) in *.
  assert (Hin : forall o, o ∈ merge_sort newerFirst ((map_to_list m).*2) <-> exists e, m !! e = Some o).
  { intros o. rewrite merge_sort_Permutation, list_elem_of_fmap. split.
    - intros ([e x] & -> & Hx%elem_of_map_to_list). eauto.
    - intros (e & He). exists (e, o). split; [done|]. by apply elem_of_map_to_list. }
  split_and!.
  - rewrite merge_sort_Permutation. rewrite <- list_fmap_compose.
    rewrite (list_fmap_ext _ fst).
    + apply NoDup_fst_map_to_list.
    + intros i [e o] Hl. apply list_elem_of_lookup_2, elem_of_map_to_list, L1 in Hl as [_ ?]. done.
  - apply Sorted_StronglySorted.
    + intros x y z [?|[? Hxy]] [?|[? Hyz]]; unfold newerFirst; try (left; lia).
      right. split; [lia|]. by etrans.
    + apply Sorted_merge_sort. intros x y. unfold newerFirst.
      destruct (String.le_total (Endpoint x) (Endpoint y));
        destruct (Z.lt_trichotomy (Timestamp x) (Timestamp y)) as [|[|]]; auto.
  - intros o (e & He)%Hin. by apply L1 in He as [? _].
  - intros o Ho. destruct (L2 o Ho) as (o' & Ho' & ?). exists o'. split_and!; [apply Hin; eauto| |done].
    by apply L1 in Ho' as [_ ?].
Qed.

(** ** Concrete instances *)
Definition demo : BlockConsensus :=
  mkBC [mkObs "a" 100 0; mkObs "b" 101 0; mkObs "c" 9000 0; mkObs "c" 9001 0; mkObs "c" 9002 0]
    defaultWindowDuration defaultMaxObservations 5 0 [] 0 0 defaultGracePeriod.
Definition demoParty (e : EndpointAddr) : string := e.

Lemma demo_plausible : obs_plausible (observations demo).
Proof. by apply (bool_decide_unpack _). Qed.

Ltac demo_cases Ho :=
  repeat (apply elem_of_cons in Ho as [->|Ho]); [..|by apply elem_of_nil in Ho].

Lemma anchor_is_highest_corroborated_witness :
  partyAnchor demoParty (observations demo) 15 = 101 /\
  ((exists p q, corroborate demoParty (observations demo) 15 p q /\
     voteOf demoParty (observations demo) p = 101 /\ forall p' q',
     corroborate demoParty (observations demo) 15 p' q' ->
     voteOf demoParty (observations demo) p' <= 101) \/
   ((forall p q, ~ corroborate demoParty (observations demo) 15 p q) /\ exists p,
     p ∈ parties demoParty (observations demo) /\ voteOf demoParty (observations demo) p = 101 /\
     length (filter (λ q, voteOf demoParty (observations demo) q < 101)
               (parties demoParty (observations demo))) =
     ((length (parties demoParty (observations demo)) - 1) / 2)%nat)).
Proof.
  split; [vm_compute; reflexivity|].
  apply (anchor_is_highest_corroborated demoParty (observations demo) 15); [done| |lia].
  apply plausible_u64, demo_plausible.
Defined.


Lemma agreeing_parties_hold_the_head_witness : 101 <= computePerceived demoParty demo hour.
Proof.
  apply (agreeing_parties_hold_the_head demoParty demo hour "a" "b" 100 (mkObs "b" 101 0));
    [apply demo_plausible|done|done|by apply (bool_decide_unpack _)..|done| | |].
  - intros o Ho. demo_cases Ho; simpl; intros [?|?]; done || lia.
  - right. by left.
  - by right.
Defined.

Definition demoHistory : list op :=
  [Observe demoParty "a" 100 0; Observe demoParty "a" 101 second;
   Observe demoParty "a" 110 (4 * second)].

Lemma rate_spans_live_movement_witness :
  let samples := rateSamples (run (NewBlockConsensus (u64 5) 0) demoHistory) in
  blockRate samples = Some (of_int 3) /\
  exists oldest newest, head samples = Some oldest /\ last samples = Some newest /\
    0 < at_ newest - at_ oldest.
Proof.
  assert (Hr : blockRate (rateSamples (run (NewBlockConsensus (u64 5) 0) demoHistory)) = Some (of_int 3))
    by (vm_compute; reflexivity).
  split; [exact Hr|].
  destruct (rate_spans_live_movement 5 0 demoHistory (of_int 3)
    ltac:(cbn; unfold second; split_and!; lia || done) Hr) as (a & b & Ha & Hb & Hspan & _).
  exists a, b. split_and!; [exact Ha|exact Hb|].
  replace (length _) with 2%nat in Hspan by (vm_compute; reflexivity).
  unfold RateSampleGap in Hspan. lia.
Defined.

Lemma chain_view_summarises_window_witness :
  Endpoints (ChainViewOf demo second) = 3 /\ Spread (ChainViewOf demo second) = 8902 /\
  forall o, o ∈ inWindow demo second -> Height o <= Highest (ChainViewOf demo second).
Proof.
  destruct (chain_view_summarises_window demo second demo_plausible) as (_ & H & _).
  split_and!; [vm_compute; reflexivity|vm_compute; reflexivity|].
  intros o Ho. apply (H o Ho).
Defined.

(** [LastHeightObservation] and [EndpointHeights] read what the list holds: no
    cutoff is applied, and pruning waits for the next observation, so a service
    that went quiet still reports a reading older than the window. *)
Example last_observation_ignores_the_window :
  let bc := AddObservation demoParty (NewBlockConsensus 5 0) "a" 100 second in
  LastHeightObservation bc ["a"] = (second, true) /\
  Endpoints (ChainViewOf bc hour) = 0 /\ EndpointHeights bc = [mkObs "a" 100 second].
Proof. vm_compute. done. Qed.
End BlockConsensus.
