(* ===== verification/QosSelector.v ===== *)
(** * QosSelector: endpoint selection by block height

    Models [qos/selector.go], [qos/endpointstore.go], [qos/heighttracking.go]
    and the [SelectEndpoints] a height-aware plugin composes from them
    ([qos/solana/plugin.go]).  A [FilterFunc] is a boolean function; an
    absent (nil) filter list or ranker is [None].  The height lookup every
    filter shares is a function to [option Z], [None] being "unknown". *)

From S2P Require Import Prelude Float64 Domain BlockConsensus.

Module QosSelector.
Import Domain BlockConsensus.

Definition FilterFunc : Type := EndpointAddr -> bool.
Definition HeightFn : Type := EndpointAddr -> option Z.

Record SelectResult := mkResult { Endpoints_ : EndpointAddrList; Degraded : bool; Tier : Z }.

(** ** [qos/selector.go] *)
Definition applyFilters (endpoints : EndpointAddrList) (filters : list FilterFunc)
    : EndpointAddrList :=
  match filters with
  | [] => endpoints
  | _ => filter (λ ep, forallb (λ f, f ep) filters = true) endpoints
  end.

Definition rankFallback (eps : EndpointAddrList)
    (ranker : option (EndpointAddrList -> EndpointAddrList)) : EndpointAddrList :=
  match ranker with
  | None => eps
  | Some r => match r eps with [] => eps | ranked => ranked end
  end.

(** The loop of [LeastStaleFallback]: the lags, the best of them, and how many
    heights are known. *)
Definition lagOf (perceived h : Z) : Z :=
  if bool_decide (h < perceived) then u64 (perceived - h) else 0.
Definition lagStep (getHeight : HeightFn) (perceived : Z)
    (acc : gmap EndpointAddr Z * Z * Z) (ep : EndpointAddr) : gmap EndpointAddr Z * Z * Z :=
  let '(lags, bestLag, known) := acc in
  match getHeight ep with
  | None => acc
  | Some h =>
      let lag := lagOf perceived h in
      (<[ep := lag]> lags, (if bool_decide (lag < bestLag) then lag else bestLag), known + 1)
  end.

Definition LeastStaleFallback (getHeight : HeightFn) (perceived : Z) (eps : EndpointAddrList)
    : EndpointAddrList :=
  if bool_decide (perceived = 0) || bool_decide (length eps <= 1)%nat then eps
  else
    let '(lags, bestLag, known) := foldl (lagStep getHeight perceived) (∅, max_u64, 0) eps in
    if bool_decide (known = 0) then eps
    else filter (λ ep, lags !! ep = Some bestLag) eps.

Definition MinAllowedHeight (perceived allowance : Z) : Z :=
  if bool_decide (perceived = 0) || bool_decide (allowance = 0) then 0
  else if bool_decide (perceived <= allowance) then 0
  else u64 (perceived - allowance).

Definition AllStale (eps : EndpointAddrList) (getHeight : HeightFn) (minHeight : Z) : bool :=
  if bool_decide (eps = []) || bool_decide (minHeight = 0) then false
  else forallb (λ ep, match getHeight ep with
                      | None => false | Some h => negb (bool_decide (minHeight <= h)) end) eps.

Definition BlockHeightFilter (getHeight : HeightFn) (minHeight : Z) : FilterFunc := λ ep,
  match getHeight ep with None => true | Some h => bool_decide (minHeight <= h) end.

Section Select.
Context (getHeight : HeightFn).

Definition isKnown (ep : EndpointAddr) : bool := bool_decide (is_Some (getHeight ep)).

(** The closure [informed]. *)
Definition informed (anyKnown : bool) (set : EndpointAddrList) : bool :=
  negb anyKnown || existsb isKnown set.

(** The closure [keepUnknown]: ranked endpoints, then the unknown ones the
    ranking left out. *)
Definition keepUnknown (ranker : option (EndpointAddrList -> EndpointAddrList))
    (set : EndpointAddrList) : EndpointAddrList :=
  let ranked := rankFallback set ranker in
  ranked ++ filter (λ ep, isKnown ep = false /\ ep ∉ ranked) set.

Definition passes (anyKnown : bool) (result : EndpointAddrList) : bool :=
  negb (bool_decide (result = [])) && informed anyKnown result.

Definition SelectWithKnownHeights (endpoints : EndpointAddrList) (filters : list FilterFunc)
    (relaxedFilters nonBlockHeightFilters : option (list FilterFunc))
    (fallbackRanker : option (EndpointAddrList -> EndpointAddrList)) : SelectResult :=
  match endpoints with
  | [] => mkResult [] false 0
  | _ =>
      let anyKnown := existsb isKnown endpoints in
      let tier3 :=
        match nonBlockHeightFilters with
        | Some fs =>
            let result := applyFilters endpoints fs in
            if negb (bool_decide (result = []))
            then mkResult (keepUnknown fallbackRanker result) true 3
            else mkResult (keepUnknown fallbackRanker endpoints) true 3
        | None => mkResult (keepUnknown fallbackRanker endpoints) true 3
        end in
      let tier2 :=
        match relaxedFilters with
        | Some fs =>
            let result := applyFilters endpoints fs in
            if passes anyKnown result then mkResult result true 2 else tier3
        | None => tier3
        end in
      let result := applyFilters endpoints filters in
      if passes anyKnown result then mkResult result false 1 else tier2
  end.
End Select.

(** ** [qos/endpointstore.go] *)
Section Store.
Context {T : Type} (zeroT : T).

Definition hostHeightMaxAge : Z := 10 * minute.
Definition hostHeightsMax : Z := 4096.
Record storedEndpoint := mkStored { Data : T; HeightAt : Z }.
Record EndpointStore := mkStore {
  endpoints : gmap EndpointAddr storedEndpoint;
  hosts : gmap string storedEndpoint
}.
Definition NewEndpointStore : EndpointStore := mkStore ∅ ∅.

Definition Get (s : EndpointStore) (addr : EndpointAddr) : option T := Data <$> endpoints s !! addr.

Definition ObserveHeight (s : EndpointStore) (addr : EndpointAddr) (fn : T -> T) (now : Z)
    : EndpointStore :=
  let ep := default (mkStored zeroT GoTime.zero) (endpoints s !! addr) in
  let ep := mkStored (fn (Data ep)) now in
  let host := Domain addr in
  mkStore (<[addr := ep]> (endpoints s))
    (if bool_decide (host = "") then hosts s
     else <[host := ep]> (if bool_decide (hostHeightsMax <= Z.of_nat (size (hosts s)))
                          then ∅ else hosts s)).

Definition Clear (s : EndpointStore) : EndpointStore := mkStore ∅ ∅.

(** The stored reading [HeightGetter] judges an address by: its own when it has
    a height, else its host's if recent enough. *)
Definition heightReading (store : EndpointStore) (heightF : T -> Z) (now : Z)
    (addr : EndpointAddr) : option storedEndpoint :=
  let fromHost :=
    match hosts store !! Domain addr with
    | Some ep => if bool_decide (GoTime.Sub now (HeightAt ep) <= hostHeightMaxAge)
                 then Some ep else None
    | None => None
    end in
  match endpoints store !! addr with
  | Some ep => if bool_decide (heightF (Data ep) = 0) then fromHost else Some ep
  | None => fromHost
  end.

(** [HeightGetter]; [oor] is the out-of-range float conversion [Project] makes. *)
Definition HeightGetter (oor : f64 -> Z) (store : EndpointStore) (heightF : T -> Z)
    (projection : HeightProjection) (now : Z) : HeightFn := λ addr,
  match heightReading store heightF now addr with
  | None => None
  | Some ep =>
      let h := heightF (Data ep) in
      if bool_decide (h = 0) then None
      else if negb (IsPlausibleBlockHeight h) ||
              (bool_decide (0 < pPerceived projection) &&
               bool_decide (saturatingAdd (pPerceived projection) maxBlockHeightDelta < h))
      then Some 1
      else Some (Project oor projection h (HeightAt ep))
  end.
End Store.
Arguments EndpointStore : clear implicits.
Arguments storedEndpoint : clear implicits.

(** ** [qos/heighttracking.go] *)
Record HeightTracking := mkTracking { Consensus : BlockConsensus; htAllowance : Z }.

Definition SetSyncAllowance (h : HeightTracking) (blocks : Z) : HeightTracking :=
  mkTracking (setAllowance (Consensus h) blocks) (u64 blocks).
Definition SyncAllowance (h : HeightTracking) : Z := htAllowance h.
Definition AllStaleBy (h : HeightTracking) (eps : EndpointAddrList) (getHeight : HeightFn) : bool :=
  AllStale eps getHeight (MinAllowedHeight (PerceivedBlock (Consensus h)) (u64 (htAllowance h * 2))).

(** ** [SelectEndpoints] of [qos/solana/plugin.go] *)
Record solanaEndpoint := mkSolana { BlockHeight : Z }.
Record Plugin := mkPlugin { tracking : HeightTracking; store : EndpointStore solanaEndpoint }.

Definition pluginHeights (oor : f64 -> Z) (p : Plugin) (now : Z) : HeightFn :=
  HeightGetter oor (store p) BlockHeight (Projection (Consensus (tracking p))) now.

Definition SelectEndpoints (oor : f64 -> Z) (p : Plugin) (eps : EndpointAddrList) (now : Z)
    : SelectResult :=
  let perceived := PerceivedBlock (Consensus (tracking p)) in
  let getHeight := pluginHeights oor p now in
  let blockFilter := BlockHeightFilter getHeight
                       (MinAllowedHeight perceived (SyncAllowance (tracking p))) in
  let relaxedFilter := BlockHeightFilter getHeight
                         (MinAllowedHeight perceived (u64 (SyncAllowance (tracking p) * 2))) in
  SelectWithKnownHeights getHeight eps [blockFilter] (Some [relaxedFilter]) None
    (Some (LeastStaleFallback getHeight perceived)).

(** ** Filters and rankers *)
Lemma applyFilters_spec eps fs ep :
  ep ∈ applyFilters eps fs <-> ep ∈ eps /\ forall f, f ∈ fs -> f ep = true.
Proof.
  unfold applyFilters. destruct fs as [|f fs]; [split; [intros; split; [done|]|by intros [? _]]|].
  { intros f Hf. by apply elem_of_nil in Hf. }
  rewrite list_elem_of_filter, forallb_forall. split.
  - intros [Hall ?]. split; [done|]. intros g Hg. apply Hall. by apply list_elem_of_In.
  - intros [? Hall]. split; [|done]. intros g Hg. apply Hall. by apply list_elem_of_In.
Qed.

Lemma applyFilters_sub eps fs : applyFilters eps fs `sublist_of` eps.
Proof. unfold applyFilters. destruct fs; [done|apply sublist_filter]. Qed.

(** What selection asks of a ranker: it invents no endpoint. *)
Class Ranks (r : EndpointAddrList -> EndpointAddrList) : Prop :=
  ranks_sub : forall eps ep, ep ∈ r eps -> ep ∈ eps.

Lemma lagStep_spec getHeight perceived eps :
  let '(lags, bestLag, known) := foldl (lagStep getHeight perceived) (∅, max_u64, 0) eps in
  (forall ep l, lags !! ep = Some l <-> ep ∈ eps /\ exists h, getHeight ep = Some h /\ l = lagOf perceived h) /\
  (forall ep l, lags !! ep = Some l -> bestLag <= l) /\
  (known = 0 <-> forall ep, ep ∈ eps -> getHeight ep = None) /\ 0 <= known /\
  (bestLag = max_u64 \/ exists ep, lags !! ep = Some bestLag) /\
  (0 < known -> exists ep, lags !! ep = Some bestLag).
Proof.
  induction eps as [|ep eps IH] using rev_ind.
  { simpl. split_and!; try done; try lia.
    - intros e l. rewrite lookup_empty. split; [done|intros [He _]; by apply elem_of_nil in He].
    - split; [intros _ e He; by apply elem_of_nil in He|done]. }
  rewrite foldl_app. cbn [foldl]. destruct (foldl _ _ eps) as [[lags best] known].
  destruct IH as (H1 & H2 & H3 & H4 & H5 & H6). unfold lagStep.
  destruct (getHeight ep) as [h|] eqn:Eh.
  - split_and!.
    + intros e l. rewrite lookup_insert, elem_of_app, list_elem_of_singleton. case_decide as He.
      * subst e. split; [intros [= <-]; split; [by right|eauto]|].
        intros [_ (h' & Hh' & ->)]. by simplify_eq.
      * rewrite H1. naive_solver.
    + intros e l. rewrite lookup_insert. case_decide; [intros [= <-]|intros Hl; apply H2 in Hl];
        case_bool_decide; lia.
    + split; [lia|]. intros Hall. rewrite (Hall ep) in Eh; [done|]. apply elem_of_app. right. by left.
    + lia.
    + case_bool_decide; [right; exists ep; by rewrite lookup_insert_eq|].
      destruct H5 as [->|[e He]]; [by left|]. right.
      destruct (decide (e = ep)) as [->|]; [|exists e; by rewrite lookup_insert_ne].
      apply H1 in He as [_ (h' & Hh' & ->)]. exists ep. rewrite lookup_insert_eq. congruence.
    + intros _. case_bool_decide as Hlt; [exists ep; by rewrite lookup_insert_eq|].
      assert (lagOf perceived h <= max_u64).
      { unfold lagOf. case_bool_decide; [apply u64_range|]. unfold max_u64. lia. }
      destruct H5 as [->|[e He]].
      { exists ep. rewrite lookup_insert_eq. f_equal. lia. }
      destruct (decide (e = ep)) as [->|]; [|exists e; by rewrite lookup_insert_ne].
      apply H1 in He as [_ (h' & Hh' & ->)]. exists ep. rewrite lookup_insert_eq. congruence.
  - split_and!; try done.
    + intros e l. rewrite H1, elem_of_app, list_elem_of_singleton. naive_solver.
    + rewrite H3. setoid_rewrite elem_of_app. setoid_rewrite list_elem_of_singleton. naive_solver.
Qed.

#[export] Instance least_stale_ranks getHeight perceived : Ranks (LeastStaleFallback getHeight perceived).
Proof.
  intros eps ep. unfold LeastStaleFallback. destruct (_ || _); [done|].
  destruct (foldl _ _ eps) as [[lags best] known]. case_bool_decide; [done|].
  by intros [_ ?]%list_elem_of_filter.
Qed.

(** The least stale of the known: exactly the endpoints whose lag no other
    known endpoint undercuts, and never none of them. *)
Lemma least_stale_spec getHeight perceived eps :
  perceived <> 0 -> (1 < length eps)%nat -> (exists ep, ep ∈ eps /\ is_Some (getHeight ep)) ->
  LeastStaleFallback getHeight perceived eps <> [] /\
  forall ep, ep ∈ LeastStaleFallback getHeight perceived eps <->
    ep ∈ eps /\ exists h, getHeight ep = Some h /\
      forall ep' h', ep' ∈ eps -> getHeight ep' = Some h' -> lagOf perceived h <= lagOf perceived h'.
Proof.
  intros Hp Hl (e0 & He0 & Hk0). unfold LeastStaleFallback.
  rewrite !bool_decide_eq_false_2 by lia. cbn [orb].
  pose proof (lagStep_spec getHeight perceived eps) as Hs.
  destruct (foldl _ _ eps) as [[lags best] known].
  destruct Hs as (H1 & H2 & H3 & H4 & _ & H6).
  assert (known <> 0) as Hk by (intros Hz; rewrite H3 in Hz; destruct Hk0; rewrite Hz in *; done).
  rewrite bool_decide_eq_false_2 by done. destruct H6 as [eb Heb]; [lia|].
  assert (forall ep, ep ∈ filter (λ ep, lags !! ep = Some best) eps <->
    ep ∈ eps /\ exists h, getHeight ep = Some h /\
      forall ep' h', ep' ∈ eps -> getHeight ep' = Some h' -> lagOf perceived h <= lagOf perceived h') as Hall.
  { intros ep. rewrite list_elem_of_filter. split.
    - intros [Hb Hin]. split; [done|]. pose proof Hb as Hb'. apply H1 in Hb' as [_ (h & Hh & ->)].
      exists h. split; [done|]. intros ep' h' Hin' Hh'. apply (H2 ep'). apply H1. eauto.
    - intros [Hin (h & Hh & Hmin)]. split; [|done].
      assert (lags !! ep = Some (lagOf perceived h)) as Hl' by (apply H1; eauto). rewrite Hl'. f_equal.
      pose proof (H2 _ _ Hl'). apply H1 in Heb as [Hinb (hb & Hhb & ->)].
      specialize (Hmin eb hb Hinb Hhb). lia. }
  split; [|exact Hall]. intros Hnil.
  assert (eb ∈ @nil EndpointAddr) as Hx; [|by apply elem_of_nil in Hx].
  rewrite <- Hnil. apply list_elem_of_filter. split; [done|]. by apply H1 in Heb as [? _].
Qed.

(** ** Selection *)
Section SelectSpec.
Context (getHeight : HeightFn) (ranker : option (EndpointAddrList -> EndpointAddrList)).
Context (Hranks : forall r, ranker = Some r -> Ranks r).

Lemma keepUnknown_elem set ep :
  ep ∈ keepUnknown getHeight ranker set <->
  ep ∈ rankFallback set ranker \/ (ep ∈ set /\ getHeight ep = None).
Proof.
  unfold keepUnknown. rewrite elem_of_app, list_elem_of_filter. unfold isKnown.
  rewrite bool_decide_eq_false, <- eq_None_not_Some.
  destruct (decide (ep ∈ rankFallback set ranker)); tauto.
Qed.

Lemma rankFallback_ok set :
  (forall ep, ep ∈ rankFallback set ranker -> ep ∈ set) /\ (set <> [] -> rankFallback set ranker <> []).
Proof.
  unfold rankFallback. destruct ranker as [r|] eqn:E; [|done].
  destruct (r set) as [|x l] eqn:Er; [done|]. split; [|done].
  intros ep Hep. apply (Hranks r eq_refl). by rewrite Er.
Qed.

Lemma keepUnknown_ok set :
  (forall ep, ep ∈ keepUnknown getHeight ranker set -> ep ∈ set) /\
  (set <> [] -> keepUnknown getHeight ranker set <> []).
Proof.
  destruct (rankFallback_ok set) as [H1 H2]. split.
  - intros ep [?|[? _]]%keepUnknown_elem; auto.
  - intros Hs Hn. apply app_nil in Hn as [Hn _]. by apply H2.
Qed.

(** The outcome of a selection, tier by tier. *)
Inductive selected (eps : EndpointAddrList) (fs : list FilterFunc) (rel non : option (list FilterFunc))
    : SelectResult -> Prop :=
  | sel_strict : passes getHeight (existsb (isKnown getHeight) eps) (applyFilters eps fs) = true ->
      selected eps fs rel non (mkResult (applyFilters eps fs) false 1)
  | sel_relaxed rs : rel = Some rs ->
      passes getHeight (existsb (isKnown getHeight) eps) (applyFilters eps fs) = false ->
      passes getHeight (existsb (isKnown getHeight) eps) (applyFilters eps rs) = true ->
      selected eps fs rel non (mkResult (applyFilters eps rs) true 2)
  | sel_fallback set :
      passes getHeight (existsb (isKnown getHeight) eps) (applyFilters eps fs) = false ->
      (forall rs, rel = Some rs ->
         passes getHeight (existsb (isKnown getHeight) eps) (applyFilters eps rs) = false) ->
      (forall ep, ep ∈ set -> ep ∈ eps) -> set <> [] -> (non = None -> set = eps) ->
      selected eps fs rel non (mkResult (keepUnknown getHeight ranker set) true 3).

Lemma select_cases eps fs rel non :
  eps <> [] -> selected eps fs rel non (SelectWithKnownHeights getHeight eps fs rel non ranker).
Proof.
  intros Hne. unfold SelectWithKnownHeights. destruct eps as [|e eps]; [done|].
  set (l := e :: eps) in *.
  destruct (passes _ _ (applyFilters l fs)) eqn:E1; [by constructor|].
  set (t3 := match non with Some _ => _ | None => _ end).
  assert ((forall rs, rel = Some rs -> passes getHeight (existsb (isKnown getHeight) l)
    (applyFilters l rs) = false) -> selected l fs rel non t3) as H3.
  { intros Hrel. unfold t3. destruct non as [ns|]; [|by constructor].
    case_bool_decide; cbn [negb]; constructor; try done.
    apply sublist_subseteq, applyFilters_sub. }
  destruct rel as [rs|]; [|by apply H3].
  destruct (passes _ _ (applyFilters l rs)) eqn:E2; [by eapply sel_relaxed|].
  apply H3. by intros ? [= <-].
Qed.
End SelectSpec.

Lemma passes_spec getHeight eps set :
  (forall ep, ep ∈ set -> ep ∈ eps) ->
  passes getHeight (existsb (isKnown getHeight) eps) set = true <->
  set <> [] /\ ((exists ep, ep ∈ eps /\ is_Some (getHeight ep)) ->
                exists ep, ep ∈ set /\ is_Some (getHeight ep)).
Proof.
  intros Hsub. unfold passes, informed.
  rewrite andb_true_iff, negb_true_iff, bool_decide_eq_false, orb_true_iff, negb_true_iff.
  assert (forall l, existsb (isKnown getHeight) l = true <-> exists ep, ep ∈ l /\ is_Some (getHeight ep)) as He.
  { intros l. rewrite existsb_exists. unfold isKnown.
    setoid_rewrite <- list_elem_of_In. setoid_rewrite bool_decide_eq_true. done. }
  rewrite <- not_true_iff_false, !He. destruct (existsb (isKnown getHeight) eps) eqn:E.
  - apply He in E. tauto.
  - assert (~ exists ep, ep ∈ eps /\ is_Some (getHeight ep)) by (rewrite <- He; congruence). tauto.
Qed.

(** Two exclusive parts of a list make a part of it. *)
Lemma exclusive_parts (P Q : EndpointAddr -> Prop) `{!forall x, Decision (P x), !forall x, Decision (Q x)}
    (l : list EndpointAddr) :
  (forall x, P x -> ~ Q x) -> filter P l ++ filter Q l ⊆+ l.
Proof.
  intros HPQ. induction l as [|x l IH]; [done|].
  destruct (decide (P x)) as [Hp|Hp].
  - rewrite (filter_cons_True P), (filter_cons_False Q) by auto. by apply submseteq_skip.
  - rewrite (filter_cons_False P) by done. destruct (decide (Q x)).
    + rewrite filter_cons_True by done. rewrite <- Permutation_middle. by apply submseteq_skip.
    + rewrite filter_cons_False by done. by apply submseteq_cons.
Qed.

(** The least stale of a list, with the unknown behind them, are a part of it:
    no endpoint is listed more often than it was. *)
Lemma leastStale_kept getHeight perceived (set : list EndpointAddr) :
  keepUnknown getHeight (Some (LeastStaleFallback getHeight perceived)) set ⊆+ set.
Proof.
  unfold keepUnknown. set (ranked := rankFallback _ _).
  assert (exists (P : EndpointAddr -> Prop) (D : forall x, Decision (P x)),
    ranked = filter P set) as (P & D & Hr).
  { assert (set = filter (λ _, True) set) as Hall
      by (clear ranked; induction set as [|x l IH]; [done|];
          rewrite (filter_cons_True (λ _, True)) by done; by f_equal).
    unfold ranked, rankFallback, LeastStaleFallback, EndpointAddrList.
    destruct (_ || _); [exists (λ _, True), _; rewrite <- Hall; by destruct set|].
    destruct (foldl _ _ set) as [[lags best] known].
    case_bool_decide; [exists (λ _, True), _; rewrite <- Hall; by destruct set|].
    destruct (filter (λ ep, lags !! ep = Some best) set) as [|x l] eqn:E; [exists (λ _, True), _; exact Hall|].
    exists (λ ep, lags !! ep = Some best), _. by rewrite E. }
  rewrite Hr. etrans; [|apply (exclusive_parts P (λ ep, isKnown getHeight ep = false /\ ~ P ep))].
  - rewrite (filter_agree (λ ep, isKnown getHeight ep = false /\ ep ∉ filter P set)
               (λ ep, isKnown getHeight ep = false /\ ~ P ep)); [done|].
    intros x Hx. rewrite list_elem_of_filter. tauto.
  - naive_solver.
Qed.

Lemma selectEndpoints_kept oor p eps now : Endpoints_ (SelectEndpoints oor p eps now) ⊆+ eps.
Proof.
  destruct (decide (eps = [])) as [->|Hne]; [done|]. unfold SelectEndpoints.
  destruct (select_cases (pluginHeights oor p now)
    (Some (LeastStaleFallback (pluginHeights oor p now) (PerceivedBlock (Consensus (tracking p)))))
    eps [BlockHeightFilter (pluginHeights oor p now)
           (MinAllowedHeight (PerceivedBlock (Consensus (tracking p))) (SyncAllowance (tracking p)))]
    (Some [BlockHeightFilter (pluginHeights oor p now)
             (MinAllowedHeight (PerceivedBlock (Consensus (tracking p)))
                (u64 (SyncAllowance (tracking p) * 2)))]) None Hne)
    as [_|rs _ _ _|set _ _ _ _ Hset]; cbn [Endpoints_].
  1, 2: apply sublist_submseteq, applyFilters_sub.
  rewrite Hset by done. apply leastStale_kept.
Qed.

(** Selection always answers, and answers with information: from a
    non-empty list, whatever the filters, it returns a non-empty part of that
    list; it is marked degraded exactly below the first tier; and when any
    candidate's height is known, the result of the first two tiers holds at
    least one endpoint of known height, never the strangers alone. *)
Theorem selection_contract getHeight eps fs rel non ranker :
  (forall r, ranker = Some r -> Ranks r) -> eps <> [] ->
  let R := SelectWithKnownHeights getHeight eps fs rel non ranker in
  Endpoints_ R <> [] /\ (forall ep, ep ∈ Endpoints_ R -> ep ∈ eps) /\
  1 <= Tier R <= 3 /\ (Degraded R = false <-> Tier R = 1) /\
  (Tier R <> 3 -> (exists ep, ep ∈ eps /\ is_Some (getHeight ep)) ->
     exists ep, ep ∈ Endpoints_ R /\ is_Some (getHeight ep)).
Proof.
  intros Hr Hne R. assert (forall l ep, ep ∈ applyFilters eps l -> ep ∈ eps) as Hsub
    by (intros l ep; apply applyFilters_spec).
  destruct (select_cases getHeight ranker eps fs rel non Hne) as [Hp|rs _ _ Hp|set _ _ Hset Hs _]; simpl.
  1,2: apply passes_spec in Hp as [? ?]; [|by apply Hsub];
    split_and!; [done|by apply Hsub|lia|lia|done|done].
  destruct (keepUnknown_ok getHeight ranker Hr set) as [K1 K2].
  split_and!; [by apply K2|intros ep Hep; by apply Hset, K1|lia|lia|done|done].
Qed.

(** A filter every tier applies holds of everything selected, unless it empties
    the list. *)
Section Tiers.
Context (getHeight : HeightFn) (perceived : Z) (block relaxed : FilterFunc) (others : list FilterFunc).
#[local] Abbreviation tiered eps := (SelectWithKnownHeights getHeight eps (block :: others) (Some (relaxed :: others))
  (Some others) (Some (LeastStaleFallback getHeight perceived))).
Lemma tiers_pass eps e : applyFilters eps others <> [] -> e ∈ Endpoints_ (tiered eps) ->
  e ∈ eps /\ forall f, f ∈ others -> f e = true.
Proof.
  intros Hne. unfold SelectWithKnownHeights.
  assert (forall f0, e ∈ applyFilters eps (f0 :: others) -> e ∈ eps /\ forall f, f ∈ others -> f e = true) as Hsub.
  { intros f0 [He Hf]%applyFilters_spec. split; [done|]. intros f Hin. apply Hf. by right. }
  destruct eps as [|e0 eps]; [by intros []%elem_of_nil|]. cbv zeta.
  destruct (passes _ _ _); [apply Hsub|]. destruct (passes _ _ _); [apply Hsub|].
  rewrite bool_decide_eq_false_2 by done. cbn [negb Endpoints_]. intros He.
  apply applyFilters_spec. pose proof (leastStale_kept getHeight perceived (applyFilters (e0 :: eps) others)) as Hk.
  by eapply elem_of_submseteq.
Qed.
Lemma tiers_kept eps : Endpoints_ (tiered eps) ⊆+ eps.
Proof.
  destruct (decide (eps = [])) as [->|Hne]; [done|]. unfold SelectWithKnownHeights.
  destruct eps as [|e0 eps]; [done|]. cbv zeta.
  repeat (destruct (passes _ _ _); [apply sublist_submseteq, applyFilters_sub|]).
  case_bool_decide; cbn [negb Endpoints_]; [apply leastStale_kept|].
  etrans; [apply leastStale_kept|]. apply sublist_submseteq, applyFilters_sub.
Qed.
Lemma tiers_serve eps : eps <> [] -> Endpoints_ (tiered eps) <> [].
Proof.
  intros Hne. refine (proj1 (selection_contract _ eps _ _ _ _ _ Hne)). intros r [= <-]. apply least_stale_ranks.
Qed.
End Tiers.

(** ** A height-aware plugin *)
Lemma pluginHeights_nonneg oor p now ep h :
  consensus_ok (Consensus (tracking p)) -> pluginHeights oor p now ep = Some h -> 0 <= h.
Proof.
  intros Hok. unfold pluginHeights, HeightGetter. destruct (heightReading _ _ _ _) as [s|];
    [|done].
  cbv zeta. destruct (bool_decide (BlockHeight (Data s) = 0)); [done|].
  destruct (IsPlausibleBlockHeight (BlockHeight (Data s))) eqn:Ep; cbn [negb orb];
    [|intros [= <-]; lia].
  destruct (_ && _); intros [= <-]; [lia|]. apply plausible_spec in Ep. unfold Project.
  pose proof (ok_perceived _ Hok). assert (0 <= pPerceived (Projection (Consensus (tracking p)))).
  { unfold Projection. destruct (blockRate _); simpl; lia. }
  destruct (_ || _); [lia|]. destruct (_ || _); [lia|].
  match goal with |- context [u64 ?x] => pose proof (u64_range x) as Hx end. unfold is_u64 in Hx. lia.
Qed.

Lemma minAllowed_spec perceived allowance h :
  is_u64 perceived -> is_u64 allowance -> 0 <= h ->
  MinAllowedHeight perceived allowance <= h <-> allowance = 0 \/ perceived <= h + allowance.
Proof.
  unfold MinAllowedHeight, is_u64. intros. repeat case_bool_decide; simpl; try lia.
  rewrite u64_small by (unfold is_u64; lia). lia.
Qed.

(** The height filter of an allowance, on an endpoint of known height. *)
Lemma heightFilter_spec g perceived m ep h :
  is_u64 perceived -> is_u64 m -> 0 < m -> 0 <= h -> g ep = Some h ->
  BlockHeightFilter g (MinAllowedHeight perceived m) ep = true <-> perceived <= h + m.
Proof.
  intros Hp Hm Hm0 H0 Hh. unfold BlockHeightFilter. rewrite Hh, bool_decide_eq_true.
  rewrite minAllowed_spec by eauto. lia.
Qed.

(** What a plugin serves, tier by tier, for any consensus state, store and
    clock: the first tier returns only endpoints of unknown height or within
    the sync allowance of the perceived head, the second within twice it; the
    third is reached only when every known endpoint is further behind than
    twice the allowance, and then returns every endpoint of unknown height and,
    of the known ones, exactly those with the least lag. *)
Theorem plugin_selects_by_height oor p eps now :
  consensus_ok (Consensus (tracking p)) -> 0 < SyncAllowance (tracking p) < 2 ^ 63 -> eps <> [] ->
  let R := SelectEndpoints oor p eps now in
  let g := pluginHeights oor p now in
  let perceived := PerceivedBlock (Consensus (tracking p)) in
  let a := SyncAllowance (tracking p) in
  (Tier R = 1 -> forall ep h, ep ∈ Endpoints_ R -> g ep = Some h -> perceived <= h + a) /\
  (Tier R = 2 -> forall ep h, ep ∈ Endpoints_ R -> g ep = Some h -> perceived <= h + 2 * a) /\
  (Tier R = 3 ->
     (forall ep h, ep ∈ eps -> g ep = Some h -> h + 2 * a < perceived) /\
     (forall ep, ep ∈ eps -> g ep = None -> ep ∈ Endpoints_ R) /\
     ((1 < length eps)%nat -> forall ep h, ep ∈ eps -> g ep = Some h ->
        (ep ∈ Endpoints_ R <-> forall ep' h', ep' ∈ eps -> g ep' = Some h' ->
                                 lagOf perceived h <= lagOf perceived h'))).
Proof.
  intros Hok Ha Hne R g perceived a.
  assert (Hp : is_u64 perceived).
  { pose proof (ok_perceived _ Hok). unfold is_u64, max_u64, perceived, PerceivedBlock,
      MaxPlausibleBlockHeight in *. lia. }
  assert (Hg : forall ep h, g ep = Some h -> 0 <= h) by (intros ep h; by apply pluginHeights_nonneg).
  assert (u64 (a * 2) = 2 * a /\ is_u64 a /\ is_u64 (2 * a)) as (Hu & Ha1 & Ha2).
  { unfold a in *. rewrite u64_small; unfold is_u64, max_u64; lia. }
  assert (Hfilt : forall m ep h, is_u64 m -> 0 < m -> g ep = Some h ->
    BlockHeightFilter g (MinAllowedHeight perceived m) ep = true <-> perceived <= h + m)
    by eauto using heightFilter_spec.
  assert (Hr : forall r, Some (LeastStaleFallback g perceived) = Some r -> Ranks r)
    by (intros ? [= <-]; apply _).
  unfold R, SelectEndpoints. fold g perceived a. rewrite Hu.
  destruct (select_cases g (Some (LeastStaleFallback g perceived)) eps
    [BlockHeightFilter g (MinAllowedHeight perceived a)]
    (Some [BlockHeightFilter g (MinAllowedHeight perceived (2 * a))]) None Hne)
    as [_|rs Hrs _ _|set _ Hrel _ _ Hset]; cbn [Tier Endpoints_].
  - split_and!; [|done|done]. intros _ ep h [_ Hin]%applyFilters_spec Hh.
    apply (Hfilt a ep h Ha1 ltac:(lia) Hh), Hin. by left.
  - injection Hrs as <-. split_and!; [done| |done]. intros _ ep h [_ Hin]%applyFilters_spec Hh.
    apply (Hfilt (2 * a) ep h Ha2 ltac:(lia) Hh), Hin. by left.
  - rewrite (Hset eq_refl) in *. clear Hset. specialize (Hrel _ eq_refl).
    assert (Hbehind : forall ep h, ep ∈ eps -> g ep = Some h -> h + 2 * a < perceived).
    { intros ep h Hin Hh. apply Z.nle_gt. intros Hle.
      apply not_true_iff_false in Hrel. apply Hrel.
      apply passes_spec; [intros e He; by apply applyFilters_spec in He as [? _]|].
      assert (ep ∈ applyFilters eps [BlockHeightFilter g (MinAllowedHeight perceived (2 * a))]) as Hx.
      { apply applyFilters_spec. split; [done|]. intros f Hf. apply list_elem_of_singleton in Hf. subst f.
        apply (Hfilt (2 * a) ep h Ha2 ltac:(lia) Hh). done. }
      split; [intros Hn; rewrite Hn in Hx; by apply elem_of_nil in Hx|]. intros _. exists ep. split; [done|].
      rewrite Hh. eauto. }
    split_and!; [done|done|]. intros _. split_and!; [done| |].
    + intros ep Hin Hn. apply keepUnknown_elem. by right.
    + intros Hl ep h Hin Hh.
      assert (perceived <> 0) as Hp0 by (specialize (Hbehind ep h Hin Hh); specialize (Hg ep h Hh); lia).
      destruct (least_stale_spec g perceived eps Hp0 Hl (ex_intro _ ep (conj Hin (mk_is_Some _ _ Hh)))) as [Hn Hls].
      rewrite keepUnknown_elem. unfold rankFallback.
      destruct (LeastStaleFallback g perceived eps) as [|x l] eqn:El; [done|]. rewrite Hls, Hh.
      naive_solver.
Qed.

(** ** Concrete instances *)
Definition demoConsensus : BlockConsensus :=
  AddObservation demoParty (NewBlockConsensus 10 0) "s1-https://a.net" 200 0.
Definition demoPlugin : Plugin :=
  let st := ObserveHeight (mkSolana 0) NewEndpointStore "s1-https://a.net" (λ _, mkSolana 100) 0 in
  let st := ObserveHeight (mkSolana 0) st "s2-https://b.net" (λ _, mkSolana 40) 0 in
  mkPlugin (mkTracking demoConsensus 10) st.
Definition demoEps : EndpointAddrList :=
  ["s1-https://a.net"; "s2-https://b.net"; "s3-https://c.net"].

(** Both known endpoints are far behind the head of 200: the least stale of
    them and the unknown one are served. *)
Lemma plugin_selects_by_height_witness :
  let R := SelectEndpoints (λ _, 0) demoPlugin demoEps 0 in
  R = mkResult ["s1-https://a.net"; "s3-https://c.net"] true 3 /\
  (forall ep h, ep ∈ demoEps -> pluginHeights (λ _, 0) demoPlugin 0 ep = Some h -> h + 20 < 200).
Proof.
  cbv zeta.
  assert (HR : SelectEndpoints (λ _, 0) demoPlugin demoEps 0 =
    mkResult ["s1-https://a.net"; "s3-https://c.net"] true 3) by (vm_compute; reflexivity).
  split; [exact HR|].
  assert (Hok : consensus_ok demoConsensus)
    by (unfold demoConsensus; apply add_ok, new_ok; unfold is_u64, max_u64; lia).
  destruct (plugin_selects_by_height (λ _, 0) demoPlugin demoEps 0 Hok ltac:(cbn; lia) ltac:(discriminate))
    as (_ & _ & H3). rewrite HR in H3. destruct (H3 eq_refl) as [H _].
  intros ep h Hin Hh. specialize (H ep h Hin Hh).
  assert (PerceivedBlock demoConsensus = 200) as Hp by (vm_compute; reflexivity).
  change (h + 2 * 10 < PerceivedBlock demoConsensus) in H. lia.
Defined.

Lemma selection_contract_witness :
  Endpoints_ (SelectWithKnownHeights (λ _, Some 5) ["a"; "b"] [λ _, false] None None
    (Some (LeastStaleFallback (λ _, Some 5) 9))) <> [].
Proof.
  apply (selection_contract (λ _, Some 5) ["a"; "b"] [λ _, false] None None
    (Some (LeastStaleFallback (λ _, Some 5) 9))); [|done].
  intros r [= <-]. apply _.
Defined.
End QosSelector.
