(* ===== verification/RelayChain.v ===== *)
(** * RelayChain: composing the relay pipeline

    Models [relay/handler.go], [relay/chain_order.go], [relay/registry.go] and
    [relay/stages.go]: the middleware combinator, the validator of a
    configured order, the registry that builds a chain from names, and the
    per-stage timing every built stage is wrapped in.

    A handler is a function on a [World]: the clock it reads, the request's
    stage accumulator when there is one, and the rest of the request context,
    of any type. *)

From S2P Require Import Prelude.

Module RelayChain.

(** ** [relay/stages.go] *)
Record inflight := mkInflight { fid : nat; start : Z; credited : Z }.
Record StageTimes := mkStages {
  total : gmap string Z;
  inner : gmap string Z;
  running : gmap string (list inflight);
  nextId : nat
}.
Definition NewStageTimes : StageTimes := mkStages ∅ ∅ ∅ 0.

Definition bump (m : gmap string Z) (name : string) (d : Z) : gmap string Z :=
  <[name := i64 (default 0 (m !! name) + d)]> m.

(** One iteration of the loop of [addTotal]. *)
Definition settle (name : string) (now : Z) (acc : gmap string Z * list inflight) (f : inflight)
    : gmap string Z * list inflight :=
  let extra := i64 (GoTime.Sub now (start f) - credited f) in
  if bool_decide (0 < extra)
  then (bump acc.1 name extra, acc.2 ++ [mkInflight (fid f) (start f) (i64 (credited f + extra))])
  else (acc.1, acc.2 ++ [f]).

Definition addTotal (s : StageTimes) (name : string) (d now : Z) : StageTimes :=
  match running s !! name with
  | None => mkStages (bump (total s) name d) (inner s) (running s) (nextId s)
  | Some fs =>
      let '(inn, fs') := foldl (settle name now) (inner s, []) fs in
      mkStages (bump (total s) name d) inn (<[name := fs']> (running s)) (nextId s)
  end.

Definition beginInner (s : StageTimes) (name : string) (now : Z) : StageTimes * nat :=
  (mkStages (total s) (inner s)
     (<[name := default [] (running s !! name) ++ [mkInflight (nextId s) now 0]]> (running s))
     (S (nextId s)), nextId s).

(** [list\[i\] = list\[len-1\]; list = list\[:len-1\]]. *)
Definition swapRemove (i : nat) (l : list inflight) : list inflight :=
  match last l with
  | Some x => take (length l - 1) (<[i := x]> l)
  | None => l
  end.

Definition endInner (s : StageTimes) (name : string) (id : nat) (now : Z) : StageTimes :=
  let fs := default [] (running s !! name) in
  match list_find (λ g, fid g = id) fs with
  | None => s
  | Some (i, f) =>
      let rest := i64 (GoTime.Sub now (start f) - credited f) in
      mkStages (total s) (if bool_decide (0 < rest) then bump (inner s) name rest else inner s)
        (<[name := swapRemove i fs]> (running s)) (nextId s)
  end.

Definition Add (s : StageTimes) (name : string) (d : Z) : StageTimes :=
  if bool_decide (d <= 0) then s
  else mkStages (bump (total s) name d) (inner s) (running s) (nextId s).

Definition Exclusive (s : StageTimes) : gmap string Z :=
  map_imap (λ name t, Some (Z.max (i64 (t - default 0 (inner s !! name))) 0)) (total s).

(** ** [relay/handler.go] *)
Section Handlers.
Context {X : Type}.

Record World := mkWorld { clock : Z; stages : option StageTimes; rest : X }.
Definition Handler : Type := World -> World * option string.
Definition Middleware : Type := Handler -> Handler.

(** The loop runs from the last middleware to the first. *)
Definition Chain (handler : Handler) (middlewares : list Middleware) : Handler :=
  foldl (λ h mw, mw h) handler (rev middlewares).

Definition timed (name : string) (mw : Middleware) : Middleware := λ next,
  let nextTimed : Handler := λ w,
    match stages w with
    | None => next w
    | Some s =>
        let '(s', f) := beginInner s name (clock w) in
        let '(w', err) := next (mkWorld (clock w) (Some s') (rest w)) in
        (mkWorld (clock w') ((λ s, endInner s name f (clock w')) <$> stages w') (rest w'), err)
    end in
  let h := mw nextTimed in
  λ w, match stages w with
       | None => h w
       | Some _ =>
           let begun := clock w in
           let '(w', err) := h w in
           (mkWorld (clock w')
              ((λ s, addTotal s name (GoTime.Sub (clock w') begun) (clock w')) <$> stages w') (rest w'),
            err)
       end.

(** ** [relay/chain_order.go] *)
Inductive orderError :=
  | Duplicates (dups : list string)
  | MustBeLast (pos len : nat)
  | MustPrecede (before after : string) (a b : nat).
End Handlers.

Definition MWShadow := "shadow".
Definition MWTimeout := "timeout".
Definition MWRequestID := "request_id".
Definition MWClientIP := "client_ip".
Definition MWMetrics := "metrics".
Definition MWParse := "parse".
Definition MWValidate := "validate".
Definition MWCache := "cache".
Definition MWBatch := "batch".
Definition MWSingleflight := "singleflight".
Definition MWObserve := "observe".
Definition MWQuorum := "quorum".
Definition MWRetry := "retry".
Definition MWHedge := "hedge".
Definition MWSupplierAffinity := "supplier_affinity".
Definition MWCircuitBreak := "circuit_break".
Definition MWMethodBlocks := "method_blocks".
Definition MWSelectEndpoint := "select_endpoint".
Definition MWScore := "score".
Definition MWDebugLog := "debug_log".
Definition MWHeuristic := "heuristic".
Definition MWSendRelay := "send_relay".

Definition DefaultChainOrder : list string :=
  [MWShadow; MWRequestID; MWClientIP; MWParse; MWValidate; MWTimeout; MWQuorum; MWCache; MWBatch;
   MWSingleflight; MWObserve; MWRetry; MWHedge; MWMetrics; MWSupplierAffinity; MWCircuitBreak;
   MWMethodBlocks; MWSelectEndpoint; MWScore; MWDebugLog; MWHeuristic; MWSendRelay].

Definition mustPrecede : list (string * string) :=
  [(MWParse, MWValidate); (MWParse, MWCache); (MWParse, MWBatch); (MWParse, MWSingleflight);
   (MWParse, MWSelectEndpoint); (MWParse, MWSendRelay); (MWParse, MWHeuristic);
   (MWSelectEndpoint, MWSendRelay); (MWHeuristic, MWSendRelay);
   (MWRetry, MWSelectEndpoint); (MWHedge, MWSelectEndpoint);
   (MWCircuitBreak, MWSelectEndpoint);
   (MWParse, MWTimeout); (MWParse, MWQuorum); (MWTimeout, MWQuorum); (MWQuorum, MWCache);
   (MWQuorum, MWSingleflight); (MWQuorum, MWObserve); (MWQuorum, MWRetry); (MWQuorum, MWHedge);
   (MWQuorum, MWSelectEndpoint); (MWTimeout, MWBatch); (MWTimeout, MWRetry);
   (MWHedge, MWMethodBlocks); (MWMethodBlocks, MWSelectEndpoint);
   (MWRetry, MWScore); (MWHedge, MWScore); (MWBatch, MWScore); (MWSelectEndpoint, MWScore);
   (MWScore, MWHeuristic);
   (MWRetry, MWMetrics); (MWHedge, MWMetrics); (MWBatch, MWMetrics); (MWMetrics, MWSelectEndpoint);
   (MWSupplierAffinity, MWSelectEndpoint); (MWClientIP, MWSupplierAffinity); (MWTimeout, MWHedge);
   (MWObserve, MWHeuristic); (MWDebugLog, MWSendRelay)].

(** The indexing loop: positions of first occurrences, and the duplicates. *)
Definition indexStep (acc : gmap string nat * list string * nat) (n : string)
    : gmap string nat * list string * nat :=
  let '(idx, dups, i) := acc in
  match idx !! n with
  | Some _ => (idx, dups ++ [n], S i)
  | None => (<[n := i]> idx, dups, S i)
  end.
Definition index (names : list string) : gmap string nat * list string :=
  (foldl indexStep (∅, [], O) names).1.

(** The loop over the rules: the first one the order breaks. *)
Fixpoint checkRules (idx : gmap string nat) (rules : list (string * string)) : option orderError :=
  match rules with
  | [] => None
  | (before, after) :: rules =>
      match idx !! before, idx !! after with
      | Some a, Some b =>
          if bool_decide (b <= a)%nat then Some (MustPrecede before after a b)
          else checkRules idx rules
      | _, _ => checkRules idx rules
      end
  end.

Definition ValidateChainOrder (names : list string) : option orderError :=
  let '(idx, dups) := index names in
  match dups with
  | _ :: _ => Some (Duplicates dups)
  | [] =>
      match idx !! MWSendRelay with
      | Some sr => if bool_decide (sr <> length names - 1)%nat
                   then Some (MustBeLast sr (length names)) else checkRules idx mustPrecede
      | None => checkRules idx mustPrecede
      end
  end.

(** ** [relay/registry.go] *)
Section Registry.
Context {X : Type}.
Abbreviation Middleware := (@Middleware X).
Abbreviation Handler := (@Handler X).

Inductive buildError :=
  | Registration (errs : list string)
  | NoOrder
  | BadOrder (e : orderError)
  | Unknown (name : string)
  | NilMiddleware (name : string).

(** A factory is [None] when nil, and returns [None] for a nil middleware. *)
Definition MiddlewareFactory : Type := unit -> option Middleware.
Record MiddlewareRegistry := mkRegistry {
  factories : gmap string MiddlewareFactory;
  errs : list string
}.
Definition NewMiddlewareRegistry : MiddlewareRegistry := mkRegistry ∅ [].

Definition Register (r : MiddlewareRegistry) (name : string) (factory : option MiddlewareFactory)
    : MiddlewareRegistry :=
  if bool_decide (name = "") then mkRegistry (factories r) (errs r ++ ["empty name"])
  else match factory with
       | None => mkRegistry (factories r) (errs r ++ [name +:+ " registered with a nil factory"])
       | Some f =>
           match factories r !! name with
           | Some _ => mkRegistry (factories r) (errs r ++ [name +:+ " registered twice"])
           | None => mkRegistry (<[name := f]> (factories r)) (errs r)
           end
       end.

(** The loop that makes the middlewares, each timed under its name. *)
Fixpoint makeAll (r : MiddlewareRegistry) (order : list string) : buildError + list Middleware :=
  match order with
  | [] => inr []
  | name :: order =>
      match factories r !! name with
      | None => inl (Unknown name)
      | Some factory =>
          match factory tt with
          | None => inl (NilMiddleware name)
          | Some mw =>
              match makeAll r order with
              | inl e => inl e
              | inr mws => inr (timed name mw :: mws)
              end
          end
      end
  end.

Definition terminal : Handler := λ w,
  (w, Some "relay: chain reached the terminal handler without being handled").

Definition BuildChain (r : MiddlewareRegistry) (order : list string) : buildError + Handler :=
  match errs r with
  | _ :: _ => inl (Registration (errs r))
  | [] =>
      match order with
      | [] => inl NoOrder
      | _ =>
          match ValidateChainOrder order with
          | Some e => inl (BadOrder e)
          | None =>
              match makeAll r order with
              | inl e => inl e
              | inr mws => inr (Chain terminal mws)
              end
          end
      end
  end.
End Registry.

(** ** The validator is exact *)

(** Outer-to-inner order of two names in a chain. *)
Definition precedes (names : list string) (a b : string) : Prop :=
  forall i j, names !! i = Some a -> names !! j = Some b -> (i < j)%nat.

(** What the invariants say: names are unique, [send_relay] is innermost, and
    every rule holds of the names that are present. *)
Definition valid_order (names : list string) : Prop :=
  NoDup names /\
  (forall i, names !! i = Some MWSendRelay -> S i = length names) /\
  forall a b, (a, b) ∈ mustPrecede -> precedes names a b.

Lemma index_spec names :
  let '(idx, dups) := index names in
  (forall n i, idx !! n = Some i -> names !! i = Some n) /\
  (forall n, is_Some (idx !! n) <-> n ∈ names) /\ (dups = [] <-> NoDup names).
Proof.
  unfold index.
  assert (let '(idx, dups, i) := foldl indexStep (∅, [], O) names in
    i = length names /\ (forall n i, idx !! n = Some i -> names !! i = Some n) /\
    (forall n, is_Some (idx !! n) <-> n ∈ names) /\ (dups = [] <-> NoDup names)) as H;
    [|by destruct (foldl indexStep _ names) as [[??]?]; destruct H as [_ H]].
  induction names as [|n l IH] using rev_ind.
  { simpl. split_and!; try done; [|split; [intros; constructor|done]].
    intros m. rewrite lookup_empty. split; [by intros [? ?]|intros Hm; by apply elem_of_nil in Hm]. }
  rewrite foldl_app. cbn [foldl]. destruct (foldl _ _ l) as [[idx dups] i].
  destruct IH as (-> & H1 & H2 & H3). unfold indexStep.
  destruct (idx !! n) as [k|] eqn:En.
  - assert (n ∈ l) as Hin by (apply H2; eauto).
    split_and!; [rewrite length_app; simpl; lia| | |].
    + intros m j Hm. apply H1 in Hm. by apply lookup_app_l_Some.
    + intros m. rewrite H2, elem_of_app, list_elem_of_singleton. naive_solver.
    + split; [intros Hd; by apply app_nil in Hd as [_ ?]|].
      rewrite NoDup_app. intros (_ & Hd & _). exfalso. by apply (Hd n Hin); left.
  - assert (n ∉ l) as Hnin by (rewrite <- H2, En; by intros [? ?]).
    split_and!; [rewrite length_app; simpl; lia| | |].
    + intros m j. rewrite lookup_insert. case_decide as Hm; [|intros Hl; apply H1 in Hl; by apply lookup_app_l_Some].
      intros [= <-]. subst. by rewrite lookup_app_r, Nat.sub_diag by lia.
    + intros m. rewrite lookup_insert, elem_of_app, list_elem_of_singleton, <- H2.
      case_decide; subst; [split; eauto|]. naive_solver.
    + rewrite H3, NoDup_app. split; [|by intros [? _]]. intros Hd. split_and!; [done| |apply NoDup_singleton].
      intros m Hm Hx. apply list_elem_of_singleton in Hx. by subst.
Qed.

Lemma index_position names idx n i :
  NoDup names -> index names = (idx, []) -> idx !! n = Some i <-> names !! i = Some n.
Proof.
  intros Hnd Hi. pose proof (index_spec names) as H. rewrite Hi in H. destruct H as (H1 & H2 & _).
  split; [apply H1|]. intros Hl. destruct (proj2 (H2 n)) as [k Hk]; [by eapply list_elem_of_lookup_2|].
  rewrite Hk. f_equal. apply H1 in Hk. by eapply NoDup_lookup.
Qed.

Lemma checkRules_spec idx rules :
  checkRules idx rules = None <->
  forall a b i j, (a, b) ∈ rules -> idx !! a = Some i -> idx !! b = Some j -> (i < j)%nat.
Proof.
  induction rules as [|[x y] rules IH]; simpl.
  { split; [intros _ a b i j H; by apply elem_of_nil in H|done]. }
  setoid_rewrite elem_of_cons.
  destruct (idx !! x) as [i|] eqn:Ex; [destruct (idx !! y) as [j|] eqn:Ey|].
  2,3: rewrite IH; naive_solver.
  case_bool_decide as Hle.
  - split; [done|]. intros H. specialize (H x y i j (or_introl eq_refl) Ex Ey). lia.
  - rewrite IH. split.
    + intros H a b i' j' [[= -> ->]|Hin] Ha Hb; [simplify_eq; lia|by eapply H].
    + intros H a b i' j' Hin. eauto.
Qed.

Lemma validate_spec names : ValidateChainOrder names = None <-> valid_order names.
Proof.
  unfold ValidateChainOrder, valid_order, precedes.
  pose proof (index_spec names) as Hs. destruct (index names) as [idx dups] eqn:Ei.
  destruct Hs as (_ & _ & Hd). destruct dups as [|d dups].
  2:{ split; [done|]. intros [Hnd _]. by apply Hd in Hnd. }
  assert (NoDup names) as Hnd by (by apply Hd). clear Hd.
  pose proof (λ n i, index_position names idx n i Hnd Ei) as Hp.
  assert (checkRules idx mustPrecede = None <-> forall a b, (a, b) ∈ mustPrecede ->
    forall i j, names !! i = Some a -> names !! j = Some b -> (i < j)%nat) as Hr.
  { rewrite checkRules_spec. setoid_rewrite Hp. naive_solver. }
  destruct (idx !! MWSendRelay) as [sr|] eqn:Esr.
  - apply Hp in Esr. pose proof (lookup_lt_Some _ _ _ Esr). case_bool_decide as Hl.
    + split; [done|]. intros (_ & Hlast & _). specialize (Hlast sr Esr). lia.
    + rewrite Hr. split; [intros H'; split_and!; [done| |done]|tauto].
      intros i Hi. rewrite (NoDup_lookup names i sr MWSendRelay Hnd Hi Esr). lia.
  - rewrite Hr. split; [intros H'; split_and!; [done| |done]|tauto].
    intros i Hi. apply Hp in Hi. congruence.
Qed.

(** The validator is sound and complete: it accepts an order exactly when
    its names are unique, [send_relay] is innermost, and every "must precede"
    rule holds between the middlewares that are present; and it accepts the
    default order. *)
Theorem validator_is_exact :
  (forall names, ValidateChainOrder names = None <-> valid_order names) /\
  ValidateChainOrder DefaultChainOrder = None.
Proof. split; [apply validate_spec|vm_compute; reflexivity]. Qed.

(** ** Built chains *)
Section Built.
Context {X : Type}.
Implicit Types (h : @Handler X) (mw : @Middleware X).

Lemma Chain_cons h mw mws : Chain h (mw :: mws) = mw (Chain h mws).
Proof. unfold Chain. simpl. by rewrite foldl_app. Qed.

Lemma Chain_app h l1 l2 : Chain h (l1 ++ l2) = Chain (Chain h l2) l1.
Proof. induction l1 as [|mw l1 IH]; [done|]. by rewrite <- app_comm_cons, !Chain_cons, IH. Qed.

Definition provides (r : @MiddlewareRegistry X) (name : string) mw : Prop :=
  exists f, factories r !! name = Some f /\ f tt = Some mw.

Lemma makeAll_inr r order ms :
  makeAll r order = inr ms ->
  exists mws, Forall2 (provides r) order mws /\ ms = zip_with timed order mws.
Proof.
  revert ms. induction order as [|n order IH]; simpl; intros ms.
  { intros [= <-]. exists []. by split. }
  destruct (factories r !! n) as [f|] eqn:Ef; [|done].
  destruct (f tt) as [mw|] eqn:Em; [|done].
  destruct (makeAll r order) as [|rest]; [done|]. intros [= <-].
  destruct (IH rest eq_refl) as (mws & H & ->). exists (mw :: mws). split; [|done].
  constructor; [exists f; done|done].
Qed.

Lemma build_inr r order h :
  BuildChain r order = inr h ->
  errs r = [] /\ valid_order order /\ order <> [] /\
  exists mws, Forall2 (provides r) order mws /\ h = Chain terminal (zip_with timed order mws).
Proof.
  unfold BuildChain. destruct (errs r); [|done]. destruct order as [|n order]; [done|].
  destruct (ValidateChainOrder _) eqn:Ev; [done|]. destruct (makeAll _ _) as [|ms] eqn:Em; [done|].
  intros [= <-]. apply makeAll_inr in Em as (mws & Hf & ->).
  split_and!; [done|by apply validate_spec|done|]. by exists mws.
Qed.

(** C37. A built chain nests as the rules demand: whenever [BuildChain] returns
    a handler, every registered middleware of the order is in it once, timed
    under its name, outermost first, and for each rule "a must precede b"
    whose middlewares are present, b's stage runs inside a's: every entry into
    b is made by a's call into the rest of the chain. *)
Theorem built_chain_nests r order h a b :
  BuildChain r order = inr h -> (a, b) ∈ mustPrecede -> a ∈ order -> b ∈ order ->
  exists l1 l2 l3 m1 m2 m3 ma mb,
    order = l1 ++ a :: l2 ++ b :: l3 /\
    Forall2 (provides r) l1 m1 /\ provides r a ma /\ Forall2 (provides r) l2 m2 /\
    provides r b mb /\ Forall2 (provides r) l3 m3 /\
    h = Chain (timed a ma
          (Chain (timed b mb (Chain terminal (zip_with timed l3 m3)))
             (zip_with timed l2 m2)))
          (zip_with timed l1 m1).
Proof.
  intros Hb Hrule Ha Hbin. apply build_inr in Hb as (_ & (Hnd & _ & Hval) & _ & mws & Hf & ->).
  apply list_elem_of_lookup in Ha as [i Hi], Hbin as [j Hj].
  pose proof (Hval a b Hrule i j Hi Hj) as Hij.
  apply list_elem_of_split_length in Hi as (l1 & t & -> & ->).
  rewrite lookup_app_r in Hj by lia.
  destruct (j - length l1)%nat as [|k] eqn:Ek; [lia|]. simpl in Hj.
  apply list_elem_of_split_length in Hj as (l2 & l3 & -> & _).
  apply Forall2_app_inv_l in Hf as (m1 & t' & H1 & Ht & ->).
  apply Forall2_cons_inv_l in Ht as (ma & t2 & Hma & Ht & ->).
  apply Forall2_app_inv_l in Ht as (m2 & t3 & H2 & Ht & ->).
  apply Forall2_cons_inv_l in Ht as (mb & m3 & Hmb & H3 & ->).
  exists l1, l2, l3, m1, m2, m3, ma, mb. split_and!; try done.
  rewrite zip_with_app by (by eapply Forall2_length). simpl.
  rewrite zip_with_app by (by eapply Forall2_length). simpl.
  by rewrite Chain_app, Chain_cons, Chain_app, Chain_cons.
Qed.

(** ** Timing is transparent *)
Definition same_world (w w' : @World X) : Prop := clock w = clock w' /\ rest w = rest w'.
Definition same_handler (h h' : @Handler X) : Prop :=
  forall w w', same_world w w' -> same_world (h w).1 (h' w').1 /\ (h w).2 = (h' w').2.

(** A middleware that does not read the stage accumulator. *)
Class Blind (mw : @Middleware X) : Prop :=
  blind : forall h h', same_handler h h' -> same_handler (mw h) (mw h').

Lemma timed_same name mw h h' :
  Blind mw -> same_handler h h' -> same_handler (timed name mw h) (mw h').
Proof.
  intros Hb Hh. unfold timed.
  set (nt := λ w, match stages w with None => h w | Some s => _ end).
  assert (same_handler nt h') as Hnt.
  { intros w w' Hw. unfold nt. destruct (stages w) as [s|]; [|by apply Hh].
    unfold beginInner.
    edestruct (Hh (mkWorld (clock w) (Some (mkStages (total s) (inner s)
      (<[name := default [] (running s !! name) ++ [mkInflight (nextId s) (clock w) 0]]> (running s))
      (S (nextId s)))) (rest w)) w') as [[H1 H2] H3]; [exact Hw|].
    destruct (h _) as [w1 e1]. simpl in *. by repeat split. }
  intros w w' Hw. destruct (Hb nt h' Hnt w w' Hw) as [[H1 H2] H3].
  destruct (stages w); [|by repeat split]. destruct (mw nt w) as [w1 e1]. simpl in *. by repeat split.
Qed.

Lemma chain_same names mws :
  length names = length mws -> Forall Blind mws ->
  same_handler (Chain terminal (zip_with timed names mws)) (Chain terminal mws).
Proof.
  revert names. induction mws as [|mw mws IH]; intros [|n names] Hl Hb; try done.
  simpl. rewrite !Chain_cons. apply Forall_cons in Hb as [Hmw Hb].
  apply timed_same; [done|]. apply IH; [|done]. by simplify_eq/=.
Qed.

(** Measuring a chain does not change it: a built chain of middlewares
    that do not look at the stage accumulator ends every request with the same
    context, the same clock and the same error as the same middlewares composed
    bare, whether the request carries an accumulator or not. *)
Theorem timing_is_transparent r order h mws w :
  BuildChain r order = inr h -> Forall2 (provides r) order mws -> Forall Blind mws ->
  same_world (h w).1 (Chain terminal mws w).1 /\ (h w).2 = (Chain terminal mws w).2.
Proof.
  intros Hb Hp Hbl. apply build_inr in Hb as (_ & _ & _ & mws' & Hf & ->).
  assert (mws' = mws) as ->.
  { clear -Hf Hp. revert mws Hp. induction Hf as [|n m order mws' (f & H1 & H2) _ IH]; intros mws Hp.
    - by apply Forall2_nil_inv_l in Hp.
    - apply Forall2_cons_inv_l in Hp as (m' & l & (f' & H1' & H2') & Hl & ->).
      simplify_eq. f_equal. by apply IH. }
  apply chain_same; [by eapply Forall2_length|done|by split].
Qed.
End Built.

(** ** A concrete chain: two middlewares that log their name and go on *)
Definition logging (name : string) : @Middleware (list string) := λ next w,
  next (mkWorld (clock w + second) (stages w) (rest w ++ [name])).
Definition demoRegistry : @MiddlewareRegistry (list string) :=
  let reg r n := Register r n (Some (λ _, Some (logging n))) in
  reg (reg NewMiddlewareRegistry MWSelectEndpoint) MWRetry.
Definition demoOrder : list string := [MWRetry; MWSelectEndpoint].
Definition demoHandler : @Handler (list string) :=
  Chain terminal [timed MWRetry (logging MWRetry); timed MWSelectEndpoint (logging MWSelectEndpoint)].

Lemma demo_built : BuildChain demoRegistry demoOrder = inr demoHandler.
Proof. reflexivity. Qed.

#[export] Instance logging_blind name : Blind (logging name).
Proof. intros h h' Hh w w' [H1 H2]. apply Hh. split; simpl; congruence. Qed.

Lemma built_chain_nests_witness :
  exists l1 l2 l3, demoOrder = l1 ++ MWRetry :: l2 ++ MWSelectEndpoint :: l3.
Proof.
  destruct (built_chain_nests demoRegistry demoOrder demoHandler MWRetry MWSelectEndpoint demo_built)
    as (l1 & l2 & l3 & _ & _ & _ & _ & _ & H & _);
    [by apply (bool_decide_unpack _)..|]. by exists l1, l2, l3.
Defined.

Lemma timing_is_transparent_witness :
  let w := mkWorld 0 (Some NewStageTimes) [] in
  rest (demoHandler w).1 = [MWRetry; MWSelectEndpoint] /\
  (demoHandler w).2 = (Chain terminal [logging MWRetry; logging MWSelectEndpoint] w).2.
Proof.
  split; [vm_compute; reflexivity|].
  apply (timing_is_transparent demoRegistry demoOrder demoHandler
    [logging MWRetry; logging MWSelectEndpoint] _ demo_built).
  - unfold demoOrder. constructor; [eexists; split; reflexivity|].
    constructor; [eexists; split; reflexivity|constructor].
  - repeat (apply Forall_cons; split; [apply _|]). apply Forall_nil_2.
Defined.

(** Each stage is charged its own second, and the stages sum to the request. *)
Example demo_exclusive :
  let w := mkWorld 0 (Some NewStageTimes) [] in
  (Exclusive <$> stages (demoHandler w).1) =
  Some (<[MWSelectEndpoint := second]> {[ MWRetry := second ]}).
Proof. vm_compute. reflexivity. Qed.
End RelayChain.
