(* ===== verification/StateM.v ===== *)
(** * StateM: programs over an explicit state

    The small state monad in which the longer handlers are written, and the
    weakest precondition that computes through it.  A handler reads like the
    source, one statement per line, and a proof about it walks through the
    same statements. *)

From S2P Require Import Prelude.

Section StateM.
Context {S : Type}.

Definition M (A : Type) : Type := S -> A * S.
#[global] Instance M_ret : MRet M := λ A a s, (a, s).
#[global] Instance M_bind : MBind M := λ A B f m s, let '(a, s') := m s in f a s'.
Definition gets {A} (f : S -> A) : M A := λ s, (f s, s).
Definition modify (f : S -> S) : M unit := λ s, (tt, f s).

(** [for _, x := range xs { body }]. *)
Fixpoint forEach {A} (xs : list A) (body : A -> M unit) : M unit :=
  match xs with
  | [] => mret tt
  | x :: xs => body x;; forEach xs body
  end.

Definition wp {A} (m : M A) (Q : A -> S -> Prop) (s : S) : Prop := Q (m s).1 (m s).2.

Lemma wp_bind {A B} (m : M A) (f : A -> M B) Q s :
  wp m (λ a, wp (f a) Q) s -> wp (m ≫= f) Q s.
Proof. unfold wp, mbind, M_bind. by destruct (m s). Qed.

Lemma wp_mono {A} (m : M A) (Q Q' : A -> S -> Prop) s :
  (forall a s', Q a s' -> Q' a s') -> wp m Q s -> wp m Q' s.
Proof. unfold wp. auto. Qed.

Lemma wp_and {A} (m : M A) (Q Q' : A -> S -> Prop) s :
  wp m Q s -> wp m Q' s -> wp m (λ a s', Q a s' /\ Q' a s') s.
Proof. by unfold wp. Qed.

(** The rule of a loop over a list: an invariant every turn keeps. *)
Lemma wp_forEach {A} (xs : list A) (body : A -> M unit) (I : S -> Prop) s :
  I s -> (forall x s, x ∈ xs -> I s -> wp (body x) (λ _, I) s) -> wp (forEach xs body) (λ _, I) s.
Proof.
  revert s. induction xs as [|x xs IH]; intros s HI Hbody; simpl; [done|].
  apply wp_bind. eapply wp_mono; [|apply Hbody; [by left|done]].
  intros [] s' HI'. apply IH; [done|]. intros y s2 Hy. apply Hbody. by right.
Qed.
End StateM.
Arguments M : clear implicits.

(** [wp_pure] runs the next statement when it only looks at the state or
    updates it. *)
Ltac wp_pure := apply wp_bind; unfold wp at 1; simpl.

(** ** Computations that only read

    [put w s] is [s] with its world replaced.  A reading may find the world
    moved, by itself or by others, and changes nothing else. *)
Class WorldPut {S W : Type} (put : W -> S -> S) : Prop := {
  put_same s : exists w, put w s = s;
  put_put w w' s : put w (put w' s) = put w s
}.

Section Reads.
Context {S W : Type} (put : W -> S -> S) `{!WorldPut put}.

Definition reads {A} (m : M S A) (R : A -> Prop) : Prop :=
  forall s, R (m s).1 /\ exists w, (m s).2 = put w s.

Lemma wp_reads {A} (m : M S A) R (Q : A -> S -> Prop) s :
  reads m R -> (forall a w, R a -> Q a (put w s)) -> wp m Q s.
Proof. intros Hm HQ. destruct (Hm s) as [HR [w Hw]]. unfold wp. rewrite Hw. auto. Qed.

Lemma reads_ret {A} (a : A) (R : A -> Prop) : R a -> reads (mret a) R.
Proof. intros HR s. split; [done|]. destruct (put_same s) as [w Hw]. by exists w. Qed.
Lemma reads_gets {A} (f : S -> A) (R : A -> Prop) : (forall s, R (f s)) -> reads (gets f) R.
Proof. intros HR s. split; [apply HR|]. destruct (put_same s) as [w Hw]. by exists w. Qed.
Lemma reads_bind {A B} (m : M S A) (f : A -> M S B) R R' :
  reads m R -> (forall a, R a -> reads (f a) R') -> reads (m ≫= f) R'.
Proof.
  intros Hm Hf s. unfold mbind, M_bind. destruct (Hm s) as [HR [w Hw]].
  destruct (m s) as [a s1]. simpl in *. subst s1.
  destruct (Hf a HR (put w s)) as [HR' [w' Hw']]. split; [done|]. exists w'. by rewrite Hw', put_put.
Qed.
Lemma reads_mono {A} (m : M S A) (R R' : A -> Prop) :
  (forall a, R a -> R' a) -> reads m R -> reads m R'.
Proof. intros HR Hm s. destruct (Hm s). auto. Qed.
End Reads.

(** [solve_reads] walks through a computation that has nothing to prove of its
    result; [leaf] closes the readings of the world. *)
Ltac solve_reads_with leaf :=
  repeat first
  [ leaf
  | match goal with
    | |- reads ?put (mret _) _ => apply (reads_ret put); done
    | |- reads ?put (gets _) _ => apply (reads_gets put _ (λ _, True)); done
    | |- reads ?put (_ ≫= _) _ => eapply (reads_bind put _ _ (λ _, True)); [|intros ? _]
    | |- reads _ (if ?b then _ else _) _ => destruct b
    | |- reads _ (match ?o with Some _ => _ | None => _ end) _ => destruct o
    | |- reads _ (let x := _ in _) _ => cbv zeta
    end ].

(** ** Computations that move the state along a preorder *)
Section Moves.
Context {S : Type} (rel : S -> S -> Prop) `{Hpre : !PreOrder rel}.

Definition moves {A} (m : M S A) : Prop := forall s, rel s (m s).2.

Lemma wp_moves {A} (m : M S A) (Q : A -> S -> Prop) s :
  moves m -> (forall a s', rel s s' -> Q a s') -> wp m Q s.
Proof. intros Hm HQ. apply HQ, Hm. Qed.
Lemma moves_ret {A} (a : A) : moves (mret a).
Proof. intros s. simpl. reflexivity. Qed.
Lemma moves_gets {A} (f : S -> A) : moves (gets f).
Proof. intros s. simpl. reflexivity. Qed.
Lemma moves_bind {A B} (m : M S A) (f : A -> M S B) :
  moves m -> (forall a, moves (f a)) -> moves (m ≫= f).
Proof.
  intros Hm Hf s. unfold mbind, M_bind. specialize (Hm s). destruct (m s) as [a s1].
  etrans; [exact Hm|apply Hf].
Qed.
End Moves.

Ltac solve_moves_with leaf :=
  repeat first
  [ leaf
  | match goal with
    | |- moves ?rel (mret _) => apply (moves_ret rel)
    | |- moves ?rel (gets _) => apply (moves_gets rel)
    | |- moves ?rel (_ ≫= _) => apply (moves_bind rel); [|intros ?]
    | |- moves _ (if ?b then _ else _) => destruct b
    | |- moves _ (match ?o with Some _ => _ | None => _ end) => destruct o
    | |- moves _ (let x := _ in _) => cbv zeta
    end ].
