(* ===== verification/Redis.v ===== *)
(** * Redis: the commands the stores send and what Redis promises

    A client is a set of commands over a world [W] that any command may move:
    nothing is assumed of a server that fails.  [Conforms] is what Redis
    documents of one that answers and that nobody else writes to meanwhile:
    [GET] reads the value, [SET] and [DEL] write it, and a full [SCAN]
    iteration, from cursor 0 until cursor 0 comes back, ends, returns every key
    that matches and no other, possibly more than once and in any order.
    [walk] is such an iteration. *)

From Stdlib Require Import Ascii.
From S2P Require Import Prelude Domain StateM.
Import GoStrings.

Module Redis.

(** The result of a [GET]: a value, [redis.Nil], or an error. *)
Inductive reply := Val (v : string) | Nil | Err.

Class Client (W : Type) := {
  Get : string -> M W reply;
  Put : string -> string -> M W bool;
  Del : string -> M W bool;
  Scan : Z -> string -> M W (option (list string * Z))
}.

(** No character of the glob syntax. *)
Definition plainChar (c : ascii) : bool :=
  negb (bool_decide (c ∈ ["*"; "?"; "["; "\"]%char)).
Fixpoint plain (s : string) : bool :=
  match s with EmptyString => true | String c s => plainChar c && plain s end.

Section Walk.
Context (page : Z -> list string * Z).
Inductive walk : Z -> list (list string) -> Prop :=
| walk_last c ks : page c = (ks, 0) -> walk c [ks]
| walk_next c ks c' pages : page c = (ks, c') -> c' <> 0 -> walk c' pages -> walk c (ks :: pages).
End Walk.

Record Conforms {W} `{!Client W} (contents : W -> gmap string string) (Good : W -> Prop)
    (page : gmap string string -> string -> Z -> list string * Z)
    (matches : string -> string -> bool) : Prop := {
  get_ok w k : Good w ->
    (Get k w).1 = (match contents w !! k with Some v => Val v | None => Nil end) /\
    contents (Get k w).2 = contents w /\ Good (Get k w).2;
  put_ok w k v : Good w ->
    (Put k v w).1 = true /\ contents (Put k v w).2 = <[k := v]> (contents w) /\ Good (Put k v w).2;
  del_ok w k : Good w ->
    (Del k w).1 = true /\ contents (Del k w).2 = delete k (contents w) /\ Good (Del k w).2;
  scan_ok w c p : Good w ->
    (Scan c p w).1 = Some (page (contents w) p c) /\
    contents (Scan c p w).2 = contents w /\ Good (Scan c p w).2;
  scan_full m p : exists pages, walk (page m p) 0 pages /\
    forall k, k ∈ mjoin pages <-> is_Some (m !! k) /\ matches p k = true;
  match_prefix lit k : plain lit = true -> matches (lit +:+ "*") k = String.prefix lit k
}.

(** ** A server that conforms: a map that answers every scan in one page *)
Abbreviation store := (gmap string string).
Fixpoint globStar (p k : string) : bool :=
  match p with
  | EmptyString => bool_decide (k = "")
  | String "*" EmptyString => true
  | String c p => match k with String d k => bool_decide (c = d) && globStar p k | EmptyString => false end
  end.
Definition onePage (m : store) (p : string) (c : Z) : list string * Z :=
  (filter (λ k, globStar p k = true) (map_to_list m).*1, 0).

#[global] Instance store_client : Client store := {|
  Get k := λ m, (match m !! k with Some v => Val v | None => Nil end, m);
  Put k v := λ m, (true, <[k := v]> m);
  Del k := λ m, (true, delete k m);
  Scan c p := λ m, (Some (onePage m p c), m)
|}.

Lemma globStar_prefix lit k : plain lit = true -> globStar (lit +:+ "*") k = String.prefix lit k.
Proof.
  revert k. induction lit as [|c lit IH]; intros k; cbn [plain]; [by destruct k|].
  intros [Hc Hp]%andb_true_iff. change (String c lit +:+ "*") with (String c (lit +:+ "*")).
  assert (Hstep : globStar (String c (lit +:+ "*")) k =
    match k with String d k => bool_decide (c = d) && globStar (lit +:+ "*") k | EmptyString => false end).
  { assert (c <> "*"%char) by (intros ->; done).
    cbn [globStar]. destruct c as [[] [] [] [] [] [] [] []]; done. }
  rewrite Hstep. destruct k as [|d k]; cbn [String.prefix]; [done|].
  rewrite IH by done. destruct (Ascii.ascii_dec c d) as [->|Hne].
  - by rewrite bool_decide_eq_true_2.
  - by rewrite bool_decide_eq_false_2.
Qed.

Lemma store_conforms : Conforms (W := store) id (λ _, True) onePage globStar.
Proof.
  split; try done.
  - intros m p. exists [filter (λ k, globStar p k = true) (map_to_list m).*1]. split; [by apply walk_last|].
    intros k. cbn [mjoin list_join]. rewrite app_nil_r, list_elem_of_filter, list_elem_of_fmap. split.
    + intros [Hg ([k' v] & -> & Hin%elem_of_map_to_list)]. split; [by exists v|done].
    + intros [[v Hv] Hg]. split; [done|]. exists (k, v). by rewrite elem_of_map_to_list.
  - apply globStar_prefix.
Qed.
End Redis.
