(* ===== verification/FeatureFlag.v ===== *)
(** * FeatureFlag: runtime feature flags

    Models [featureflag/store.go], [featureflag/defaults.go],
    [featureflag/memory.go] and [featureflag/redis.go]: the flag names and
    their compiled defaults, the in-memory store, and the Redis store that
    reads from a snapshot it polls.

    A nil map and an empty one are the same [gmap].  [scanKeys] is a loop that
    ends when Redis returns cursor 0: it runs with fuel, and [Running] is what
    it has returned when the fuel is out, which no theorem takes for an
    answer: the theorems about a refresh say that enough fuel exists.  The
    compare-and-swap loops of [updateSnapshot] and [DeleteGlobal] are the
    update they end with. *)

From Stdlib Require Import Ascii.
From S2P Require Import Prelude Domain Text StateM Redis.
Import GoStrings.

Module FeatureFlag.

(** ** [featureflag/defaults.go] *)
Definition FlagRetry : string := "retry".
Definition FlagHedge : string := "hedge".
Definition FlagCircuitBreaker : string := "circuit_breaker".
Definition FlagSingleflight : string := "singleflight".
Definition FlagCache : string := "cache".
Definition FlagHeuristic : string := "heuristic".
Definition FlagObservationPipeline : string := "observation_pipeline".
Definition FlagHealthChecks : string := "health_checks".
Definition FlagSupplierAffinity : string := "supplier_affinity".
Definition FlagDebugLog : string := "debug_log".
Definition FlagShadowMode : string := "shadow_mode".
Definition FlagWebsocketRelays : string := "websocket_relays".
Definition FlagWebsocketProbes : string := "websocket_probes".
Definition FlagOperatorAwareSelection : string := "operator_aware_selection".
Definition FlagLatencyTieBreak : string := "latency_tiebreak".
Definition FlagMethodBlocks : string := "method_blocks".
Definition FlagRequestSampler : string := "request_sampler".
Definition FlagScoringV2 : string := "scoring_v2".
Definition FlagTrafficInformedProbing : string := "traffic_informed_probing".
Definition FlagPeerProbeSkip : string := "peer_probe_skip".
Definition FlagAutoDrain : string := "auto_drain".
Definition FlagAutoDrainShadow : string := "auto_drain_shadow".
Definition FlagAutoDrainChainAnswers : string := "auto_drain_chain_answers".
Definition FlagPenalize408 : string := "penalize_408".
Definition FlagRESTBodiesAsAnswers : string := "rest_bodies_as_answers".
Definition FlagRESTDocumentsAsAnswers : string := "rest_documents_as_answers".
Definition FlagCircuitBreakUpstream : string := "circuit_break_upstream".
Definition FlagMethodBlock408 : string := "method_block_408".
Definition FlagMethodBlockRefusal : string := "method_block_refusal".
Definition FlagCosmosEVMHeight : string := "cosmos_evm_height".
Definition FlagWSShareCap : string := "ws_share_cap".
Definition FlagStaleResponse : string := "stale_response".
Definition FlagInvalidResult : string := "invalid_result".
Definition FlagLightMethodErrors : string := "light_method_errors".
Definition FlagStaleShare : string := "stale_share".
Definition FlagStateCanary : string := "state_canary".
Definition FlagTrustPenalty : string := "trust_penalty".
Definition FlagPartyPenaltiesWebsocket : string := "party_penalties_websocket".
Definition FlagPolicyPenalty : string := "policy_penalty".
Definition FlagWSNoAnswerMinorFirst : string := "ws_no_answer_minor_first".
Definition FlagWSRateCountsAnswers : string := "ws_rate_counts_answers".
Definition FlagWSDrainRebind : string := "ws_drain_rebind".
Definition FlagWSDropDuplicates : string := "ws_drop_duplicates".
Definition FlagHeadAnswersHeight : string := "head_answers_height".
Definition FlagArchivalPerAttempt : string := "archival_per_attempt".
Definition FlagArchivalRouting : string := "archival_routing".
Definition FlagWSDuplicatePenalty : string := "ws_duplicate_penalty".
Definition FlagWSDuplicateShare : string := "ws_duplicate_share".
Definition FlagWSDuplicateEvict : string := "ws_duplicate_evict".
Definition FlagWSDenyPendingTransactions : string := "ws_deny_pending_transactions".
Definition FlagWSDenyUnfilteredLogs : string := "ws_deny_unfiltered_logs".
Definition FlagThrottleShare : string := "throttle_share".
Definition FlagClassShare : string := "class_share".
Definition FlagSeedFromOperator : string := "seed_from_operator".
Definition FlagRelativeChronic : string := "relative_chronic".
Definition FlagOperatorChronic : string := "operator_chronic".
Definition FlagQuorum : string := "quorum".
Definition FlagRehedge : string := "rehedge".
Definition FlagFutureBlockAnswers : string := "future_block_answers".
Definition FlagArchivalRetry : string := "archival_retry".
Definition FlagQuery5xxRetry : string := "query_5xx_retry".
Definition FlagChainAnswersUnscored : string := "chain_answers_unscored".

Definition DefaultFlags : gmap string bool := list_to_map [
  (FlagRetry, true);
  (FlagHedge, true);
  (FlagCircuitBreaker, true);
  (FlagSingleflight, true);
  (FlagCache, true);
  (FlagHeuristic, true);
  (FlagObservationPipeline, true);
  (FlagHealthChecks, true);
  (FlagSupplierAffinity, true);
  (FlagDebugLog, false);
  (FlagShadowMode, false);
  (FlagWebsocketRelays, true);
  (FlagWebsocketProbes, true);
  (FlagOperatorAwareSelection, true);
  (FlagLatencyTieBreak, true);
  (FlagMethodBlocks, true);
  (FlagRequestSampler, true);
  (FlagScoringV2, true);
  (FlagTrafficInformedProbing, false);
  (FlagPeerProbeSkip, true);
  (FlagAutoDrain, false);
  (FlagAutoDrainShadow, true);
  (FlagAutoDrainChainAnswers, false);
  (FlagPenalize408, true);
  (FlagRESTBodiesAsAnswers, false);
  (FlagRESTDocumentsAsAnswers, false);
  (FlagCircuitBreakUpstream, false);
  (FlagMethodBlock408, false);
  (FlagMethodBlockRefusal, false);
  (FlagCosmosEVMHeight, false);
  (FlagWSShareCap, false);
  (FlagStaleResponse, false);
  (FlagInvalidResult, false);
  (FlagLightMethodErrors, true);
  (FlagStaleShare, false);
  (FlagStateCanary, false);
  (FlagTrustPenalty, false);
  (FlagPartyPenaltiesWebsocket, true);
  (FlagPolicyPenalty, true);
  (FlagWSNoAnswerMinorFirst, true);
  (FlagWSRateCountsAnswers, true);
  (FlagWSDrainRebind, true);
  (FlagWSDropDuplicates, true);
  (FlagHeadAnswersHeight, true);
  (FlagArchivalPerAttempt, true);
  (FlagArchivalRouting, true);
  (FlagWSDuplicateShare, false);
  (FlagWSDuplicateEvict, false);
  (FlagThrottleShare, false);
  (FlagClassShare, false);
  (FlagWSDuplicatePenalty, true);
  (FlagSeedFromOperator, false);
  (FlagRelativeChronic, true);
  (FlagOperatorChronic, false);
  (FlagQuorum, false);
  (FlagRehedge, false);
  (FlagFutureBlockAnswers, false);
  (FlagArchivalRetry, false);
  (FlagQuery5xxRetry, false);
  (FlagChainAnswersUnscored, false);
  (FlagWSDenyPendingTransactions, false);
  (FlagWSDenyUnfilteredLogs, false)
].

(** [DefaultFlags\[flag\]]: a flag that is not in the table is off. *)
Definition defaultOf (flag : string) : bool := default false (DefaultFlags !! flag).

Record FlagState := mkState { Enabled : bool; ServiceOverrides : gmap string bool }.
#[export] Instance FlagState_inhabited : Inhabited FlagState := populate (mkState false ∅).

(** [st := result\[flag\]; st.Enabled = enabled; result\[flag\] = st]. *)
Definition setEnabled (result : gmap string FlagState) (flag : string) (enabled : bool)
    : gmap string FlagState :=
  let st := default inhabitant (result !! flag) in
  <[flag := mkState enabled (ServiceOverrides st)]> result.
Definition addOverrides (result : gmap string FlagState) (flag : string) (overrides : gmap string bool)
    : gmap string FlagState :=
  let st := default inhabitant (result !! flag) in
  <[flag := mkState (Enabled st) (overrides ∪ ServiceOverrides st)]> result.

(** ** [featureflag/memory.go] *)
Record MemoryStore := mkMem {
  global : gmap string bool;
  serviceOverrides : gmap string (gmap string bool)
}.

Definition NewMemoryStore (defaults : gmap string bool) : MemoryStore := mkMem defaults ∅.

Definition MemIsEnabled (s : MemoryStore) (flag serviceID : string) : bool :=
  match lookup2 (serviceOverrides s) flag serviceID with
  | Some val => val
  | None => match global s !! flag with
            | Some val => val
            | None => defaultOf flag
            end
  end.

Definition MemSet (flag : string) (enabled : bool) (s : MemoryStore) : MemoryStore :=
  mkMem (<[flag := enabled]> (global s)) (serviceOverrides s).

Definition MemSetForService (flag serviceID : string) (enabled : bool) (s : MemoryStore) : MemoryStore :=
  mkMem (global s) (insert2 (serviceOverrides s) flag serviceID enabled).

Definition MemDelete (flag serviceID : string) (s : MemoryStore) : MemoryStore :=
  if negb (bool_decide (serviceID = ""))
  then mkMem (global s) (prune2 (serviceOverrides s) flag serviceID)
  else mkMem (delete flag (global s)) (serviceOverrides s).

Definition MemDeleteGlobal (flag : string) (s : MemoryStore) : MemoryStore := MemDelete flag "" s.

Definition compiledDefaults : gmap string FlagState := (λ b, mkState b ∅) <$> DefaultFlags.

Definition MemGetAll (s : MemoryStore) : gmap string FlagState :=
  let result := map_fold (λ flag enabled result, setEnabled result flag enabled)
    compiledDefaults (global s) in
  map_fold (λ flag overrides result, addOverrides result flag overrides) result (serviceOverrides s).

(** ** [featureflag/redis.go] *)
Record RedisStore := mkStore {
  prefix : string; client : bool; defaults : gmap string bool; snapshot : gmap string bool
}.

Definition NewRedisStore (client : bool) (prefix : string) (overrides : gmap string bool) : RedisStore :=
  mkStore prefix client overrides ∅.

Definition globalKey (s : RedisStore) (flag : string) : string := prefix s +:+ flag.
Definition serviceKey (s : RedisStore) (flag serviceID : string) : string :=
  prefix s +:+ (flag +:+ (":" +:+ serviceID)).

(** [strings.CutPrefix]. *)
Definition CutPrefix (s p : string) : option string :=
  if String.prefix p s then Some (from (String.length p) s) else None.

Definition parseKey (s : RedisStore) (key : string) : string * string :=
  match CutPrefix key (prefix s) with
  | None => ("", "")
  | Some rest => if bool_decide (rest = "") then ("", "") else (Cut rest ":").1
  end.

Definition configOverride (s : RedisStore) (flag : string) : option bool := defaults s !! flag.
Definition get (s : RedisStore) (key : string) : option bool := snapshot s !! key.

Definition IsEnabled (s : RedisStore) (flag serviceID : string) : bool :=
  match (if negb (bool_decide (serviceID = "")) then get s (serviceKey s flag serviceID) else None) with
  | Some val => val
  | None => match get s (globalKey s flag) with
            | Some val => val
            | None => match configOverride s flag with
                      | Some val => val
                      | None => defaultOf flag
                      end
            end
  end.

(** [updateSnapshot]: a nil value removes the key. *)
Definition updateSnapshot (key : string) (value : option bool) (s : RedisStore) : RedisStore :=
  mkStore (prefix s) (client s) (defaults s)
    (match value with None => delete key (snapshot s) | Some v => <[key := v]> (snapshot s) end).
Definition dropConfig (flag : string) (s : RedisStore) : RedisStore :=
  mkStore (prefix s) (client s) (delete flag (defaults s)) (snapshot s).
Definition storeSnapshot (next : gmap string bool) (s : RedisStore) : RedisStore :=
  mkStore (prefix s) (client s) (defaults s) next.

Section Client.
Context {W : Type} `{!Redis.Client W}.

Definition Sys : Type := RedisStore * W.
#[local] Abbreviation Prog := (StateM.M Sys).
Definition redis {A} (f : StateM.M W A) : Prog A := λ s, let '(a, w) := f s.2 in (a, (s.1, w)).
Definition locally (f : RedisStore -> RedisStore) : Prog unit := modify (λ s, (f s.1, s.2)).

Definition encodeFlag (enabled : bool) : string := if enabled then "1" else "0".
Definition decodeFlag (val : string) : bool := bool_decide (val = "1").

(** [set]; the result is the error of the write, [true] for none. *)
Definition set_ (key : string) (enabled : bool) : Prog bool :=
  locally (updateSnapshot key (Some enabled));;
  c ← gets (λ s, client s.1);
  if (c : bool) then redis (Redis.Put key (encodeFlag enabled)) else mret true.

Definition Set_ (flag : string) (enabled : bool) : Prog bool :=
  s ← gets fst; set_ (globalKey s flag) enabled.
Definition SetForService (flag serviceID : string) (enabled : bool) : Prog bool :=
  s ← gets fst; set_ (serviceKey s flag serviceID) enabled.

Definition dropKey (key : string) : Prog bool :=
  locally (updateSnapshot key None);;
  c ← gets (λ s, client s.1);
  if (c : bool) then redis (Redis.Del key) else mret true.
Definition Delete (flag serviceID : string) : Prog bool :=
  s ← gets fst;
  dropKey (if negb (bool_decide (serviceID = "")) then serviceKey s flag serviceID else globalKey s flag).
Definition DeleteGlobal (flag : string) : Prog bool :=
  locally (dropConfig flag);;
  s ← gets fst; dropKey (globalKey s flag).

(** The keys collected, an error, or the loop still running. *)
Inductive scanResult := Keys (ks : list string) | ScanErr | Running.

(** The duplicates of one page are dropped as they come. *)
Definition addPage (keys page : list string) : list string :=
  foldl (λ keys k, if bool_decide (k ∈ keys) then keys else keys ++ [k]) keys page.

Fixpoint scanLoop (fuel : nat) (pattern : string) (keys : list string) (cursor : Z)
    : StateM.M W scanResult :=
  match fuel with
  | O => mret Running
  | S fuel =>
      r ← Redis.Scan cursor pattern;
      match r with
      | None => mret ScanErr
      | Some (page, next) =>
          let keys := addPage keys page in
          if bool_decide (next = 0) then mret (Keys keys) else scanLoop fuel pattern keys next
      end
  end.
Definition scanKeys (fuel : nat) (prefix : string) : StateM.M W scanResult :=
  scanLoop fuel (prefix +:+ "*") [] 0.

(** The loop of [refresh] over the keys: [None] is the early return. *)
Fixpoint readKeys (next : gmap string bool) (keys : list string) : StateM.M W (option (gmap string bool)) :=
  match keys with
  | [] => mret (Some next)
  | key :: keys =>
      r ← Redis.Get key;
      match r with
      | Redis.Nil => readKeys next keys
      | Redis.Err => mret None
      | Redis.Val v => readKeys (<[key := decodeFlag v]> next) keys
      end
  end.

Definition refresh (fuel : nat) : Prog unit :=
  s ← gets fst;
  r ← redis (scanKeys fuel (prefix s));
  match r with
  | Keys keys =>
      next ← redis (readKeys ∅ keys);
      match next with
      | None => mret tt
      | Some next => locally (storeSnapshot next)
      end
  | ScanErr | Running => mret tt
  end.

(** One poll of [Start], which without a client polls nothing. *)
Definition poll (fuel : nat) : Prog unit :=
  s ← gets fst; if client s then refresh fuel else mret tt.

(** The loop of [GetAll]. *)
Definition addKey (s : RedisStore) (result : gmap string FlagState) (key : string) (enabled : bool)
    : gmap string FlagState :=
  let '(flag, svcID) := parseKey s key in
  if bool_decide (flag = "") then result
  else if bool_decide (svcID = "") then setEnabled result flag enabled
  else addOverrides result flag {[svcID := enabled]}.

Fixpoint readAll (s : RedisStore) (result : gmap string FlagState) (keys : list string)
    : StateM.M W (gmap string FlagState) :=
  match keys with
  | [] => mret result
  | key :: keys =>
      r ← Redis.Get key;
      match r with
      | Redis.Val v => readAll s (addKey s result key (decodeFlag v)) keys
      | _ => readAll s result keys
      end
  end.

Definition seeded (s : RedisStore) : gmap string FlagState :=
  map_fold (λ flag enabled result, setEnabled result flag enabled) compiledDefaults (defaults s).

(** The states, and whether the call returned without error; [None] while the
    scan is still running. *)
Definition GetAll (fuel : nat) : Prog (option (gmap string FlagState * bool)) :=
  s ← gets fst;
  if negb (client s) then mret (Some (seeded s, true))
  else
    r ← redis (scanKeys fuel (prefix s));
    match r with
    | Keys keys => result ← redis (readAll s (seeded s) keys); mret (Some (result, true))
    | ScanErr => mret (Some (seeded s, false))
    | Running => mret None
    end.
End Client.

(** ** Keys *)
#[local] Abbreviation colonFree := (free ":"%char).

Lemma CutPrefix_app p x : CutPrefix (p +:+ x) p = Some x.
Proof. unfold CutPrefix. by rewrite prefix_app, from_app. Qed.

(** Reading a key back gives the flag and the service it was written for. *)
Lemma parse_globalKey s f : colonFree f -> parseKey s (globalKey s f) = (f, "").
Proof.
  intros Hf. unfold parseKey, globalKey. rewrite CutPrefix_app. case_bool_decide; [by subst|].
  by rewrite GoText.Cut_free.
Qed.
Lemma parse_serviceKey s f v : colonFree f -> parseKey s (serviceKey s f v) = (f, v).
Proof.
  intros Hf. unfold parseKey, serviceKey. rewrite CutPrefix_app.
  rewrite bool_decide_eq_false_2 by (by destruct f). by rewrite (GoText.Cut_at ":").
Qed.

Lemma globalKey_inj s f f' : colonFree f -> colonFree f' -> globalKey s f = globalKey s f' -> f = f'.
Proof.
  intros H H' Heq. pose proof (parse_globalKey s f H) as E. rewrite Heq, parse_globalKey in E by done.
  by simplify_eq.
Qed.
Lemma serviceKey_inj s f f' v v' :
  colonFree f -> colonFree f' -> serviceKey s f v = serviceKey s f' v' -> f = f' /\ v = v'.
Proof.
  intros H H' Heq. pose proof (parse_serviceKey s f v H) as E. rewrite Heq, parse_serviceKey in E by done.
  by simplify_eq.
Qed.
Lemma global_service_key s f f' v :
  colonFree f -> colonFree f' -> v <> "" -> globalKey s f <> serviceKey s f' v.
Proof.
  intros H H' Hv Heq. pose proof (parse_globalKey s f H) as E. rewrite Heq, parse_serviceKey in E by done.
  by simplify_eq.
Qed.

(** ** The snapshot against Redis *)
Section Refresh.
Context {W : Type} `{!Redis.Client W}.
Context (contents : W -> gmap string string) (Good : W -> Prop) page matches
        (Hredis : Redis.Conforms contents Good page matches).

(** What the snapshot is when it is up to date. *)
Definition snapshotOf (p : string) (m : gmap string string) : gmap string bool :=
  decodeFlag <$> filter (λ kv : string * string, String.prefix p kv.1 = true) m.

Lemma snapshotOf_lookup p m k :
  snapshotOf p m !! k = if String.prefix p k then decodeFlag <$> m !! k else None.
Proof.
  unfold snapshotOf. rewrite lookup_fmap. destruct (String.prefix p k) eqn:Hp.
  - destruct (m !! k) as [v|] eqn:Hm.
    + by rewrite (map_lookup_filter_Some_2 _ _ k v).
    + rewrite map_lookup_filter_None_2 by (by left). done.
  - rewrite map_lookup_filter_None_2; [done|]. right. intros v _. simpl. by rewrite Hp.
Qed.

Lemma addPage_elem keys page_ k : k ∈ addPage keys page_ <-> k ∈ keys \/ k ∈ page_.
Proof.
  unfold addPage. revert keys. induction page_ as [|x l IH]; intros keys; simpl; [set_solver|].
  rewrite IH. case_bool_decide; set_solver.
Qed.
Lemma addPages_elem keys pages k : k ∈ foldl addPage keys pages <-> k ∈ keys \/ k ∈ mjoin pages.
Proof.
  revert keys. induction pages as [|x l IH]; intros keys; simpl; [set_solver|].
  rewrite IH, addPage_elem. set_solver.
Qed.

(** The scan runs along the pages, and ends after the last one. *)
Lemma scanLoop_walk pat m c pages keys fuel w :
  Redis.walk (page m pat) c pages -> Good w -> contents w = m ->
  (scanLoop fuel pat keys c w).1 =
    (if bool_decide (length pages <= fuel)%nat then Keys (foldl addPage keys pages) else Running) /\
  contents (scanLoop fuel pat keys c w).2 = m /\ Good (scanLoop fuel pat keys c w).2.
Proof.
  intros Hw. revert keys fuel w.
  induction Hw as [c ks Hp|c ks c' pages Hp Hc _ IH]; intros keys [|fuel] w Hg Hm;
    cbn [scanLoop foldl length].
  - by rewrite bool_decide_eq_false_2 by lia.
  - unfold mbind, M_bind. destruct (Redis.scan_ok _ _ _ _ Hredis w c pat Hg) as (H1 & H2 & H3).
    destruct (Redis.Scan c pat w) as [r w']. cbn [fst snd] in *. subst r. rewrite Hm, Hp. cbn.
    rewrite bool_decide_eq_true_2 by lia. split_and!; [done|simpl; congruence|done].
  - by rewrite bool_decide_eq_false_2 by lia.
  - unfold mbind, M_bind. destruct (Redis.scan_ok _ _ _ _ Hredis w c pat Hg) as (H1 & H2 & H3).
    destruct (Redis.Scan c pat w) as [r w']. cbn [fst snd] in *. subst r. rewrite Hm, Hp. cbv zeta beta iota.
    rewrite (bool_decide_eq_false_2 (c' = 0)) by done.
    destruct (IH (addPage keys ks) fuel w') as (-> & H4 & H5); [done|congruence|].
    split_and!; [|done|done].
    by rewrite (bool_decide_ext (length pages <= fuel)%nat (S (length pages) <= S fuel)%nat) by lia.
Qed.

Definition readStep (m : gmap string string) (n : gmap string bool) (k : string) : gmap string bool :=
  match m !! k with Some v => <[k := decodeFlag v]> n | None => n end.

Lemma readKeys_ok next keys w :
  Good w ->
  (readKeys next keys w).1 =
    Some (foldl (readStep (contents w)) next keys) /\
  contents (readKeys next keys w).2 = contents w /\ Good (readKeys next keys w).2.
Proof.
  revert next w. induction keys as [|k keys IH]; intros next w Hg; [done|].
  simpl. unfold mbind, M_bind. destruct (Redis.get_ok _ _ _ _ Hredis w k Hg) as (H1 & H2 & H3).
  destruct (Redis.Get k w) as [r w']. simpl in *. subst r. rewrite <- H2.
  unfold readStep at 2. destruct (contents w' !! k); by apply IH.
Qed.

Lemma read_lookup m next keys k :
  foldl (readStep m) next keys !! k =
  (if bool_decide (k ∈ keys) then match m !! k with Some v => Some (decodeFlag v) | None => next !! k end
   else next !! k).
Proof.
  revert next. induction keys as [|x keys IH]; intros next; [done|]. simpl. rewrite IH. unfold readStep.
  destruct (decide (x = k)) as [->|Hne].
  - rewrite (bool_decide_eq_true_2 (k ∈ k :: keys)) by set_solver.
    destruct (m !! k) as [v|]; [rewrite lookup_insert_eq|]; by destruct (bool_decide (k ∈ keys)).
  - rewrite (bool_decide_ext (k ∈ x :: keys) (k ∈ keys)) by set_solver.
    destruct (m !! x) as [v|]; [|done]. by rewrite lookup_insert_ne.
Qed.

Lemma readKeys_snapshot p pages m :
  Redis.plain p = true ->
  (forall k, k ∈ mjoin pages <-> is_Some (m !! k) /\ matches (p +:+ "*") k = true) ->
  foldl (readStep m) ∅ (foldl addPage [] pages) = snapshotOf p m.
Proof.
  intros Hp Hpages. apply map_eq. intros k. rewrite read_lookup, snapshotOf_lookup, lookup_empty.
  assert (Hk : k ∈ foldl addPage [] pages <-> is_Some (m !! k) /\ String.prefix p k = true).
  { rewrite addPages_elem, Hpages, (Redis.match_prefix _ _ _ _ Hredis) by done. set_solver. }
  destruct (m !! k) as [v|] eqn:Hm; simpl.
  - case_bool_decide as Hin; apply Hk in Hin as [_ ->] || destruct (String.prefix p k) eqn:Hpk; try done.
    exfalso. apply Hin, Hk. eauto.
  - destruct (bool_decide _), (String.prefix p k); done.
Qed.

(** A refresh against a server that answers ends, and the snapshot is then
    exactly the flags Redis holds; with less fuel it has not returned yet. *)
Lemma refresh_ok s w :
  Redis.plain (prefix s) = true -> Good w ->
  exists n, forall fuel,
    let r := (refresh fuel (s, w)).2 in
    contents r.2 = contents w /\ Good r.2 /\
    r.1 = if bool_decide (n <= fuel)%nat then storeSnapshot (snapshotOf (prefix s) (contents w)) s else s.
Proof.
  intros Hp Hg.
  destruct (Redis.scan_full _ _ _ _ Hredis (contents w) (prefix s +:+ "*")) as (pages & Hw & Hpages).
  exists (length pages). intros fuel.
  destruct (scanLoop_walk _ _ _ _ [] fuel w Hw Hg eq_refl) as (H1 & H2 & H3).
  unfold refresh, redis, scanKeys, mbind, M_bind, gets, mret, M_ret. cbn [fst snd].
  destruct (scanLoop fuel (prefix s +:+ "*") [] 0 w) as [r w1]. cbn [fst snd] in *. subst r.
  case_bool_decide; [|done]. cbn [fst snd].
  destruct (readKeys_ok ∅ (foldl addPage [] pages) w1 H3) as (H4 & H5 & H6).
  destruct (readKeys ∅ (foldl addPage [] pages) w1) as [r w2]. cbn [fst snd] in *. subst r. simpl.
  rewrite H2. rewrite (readKeys_snapshot (prefix s)) by done. split_and!; [congruence|done|done].
Qed.

(** Nothing else of the store moves, whatever the server answers. *)
Lemma refresh_fixed fuel s (w : W) :
  let r := (refresh fuel (s, w)).2.1 in
  prefix r = prefix s /\ client r = client s /\ defaults r = defaults s.
Proof.
  unfold refresh, redis, locally, mbind, M_bind, gets, modify, mret, M_ret. cbn [fst snd].
  destruct (scanKeys fuel (prefix s) w) as [[ks| |] w1]; cbn [fst snd]; try done.
  destruct (readKeys ∅ ks w1) as [[next|] w2]; done.
Qed.

(** What the flags in Redis say, read directly. *)
Definition resolve (p : string) (config : gmap string bool) (m : gmap string string)
    (flag serviceID : string) : bool :=
  let own := if bool_decide (serviceID = "") then None else m !! (p +:+ (flag +:+ (":" +:+ serviceID))) in
  match own with
  | Some v => decodeFlag v
  | None => match m !! (p +:+ flag) with
            | Some v => decodeFlag v
            | None => default (defaultOf flag) (config !! flag)
            end
  end.

Lemma IsEnabled_resolve s m flag serviceID :
  snapshot s = snapshotOf (prefix s) m ->
  IsEnabled s flag serviceID = resolve (prefix s) (defaults s) m flag serviceID.
Proof.
  intros Hs. unfold IsEnabled, resolve, get, globalKey, serviceKey, configOverride. rewrite Hs.
  rewrite !snapshotOf_lookup, !prefix_app.
  destruct (bool_decide (serviceID = "")); simpl;
    [|destruct (m !! (_ +:+ (_ +:+ _))); simpl; [done|]];
    destruct (m !! (_ +:+ flag)); simpl; try done; by destruct (defaults s !! flag).
Qed.

(** Termination and agreement with Redis: a refresh against a server that
    answers ends, whatever pages the scan comes in, in whatever order and with
    whatever duplicates, and from then on every flag reads as Redis and the
    config say: the service's key, else the global key, else the config, else
    the compiled default.  So two replicas with one config answer alike once
    both have refreshed. *)
Theorem refresh_follows_redis s w :
  Redis.plain (prefix s) = true -> Good w ->
  exists n, forall fuel, (n <= fuel)%nat -> forall flag serviceID,
    IsEnabled (refresh fuel (s, w)).2.1 flag serviceID =
    resolve (prefix s) (defaults s) (contents w) flag serviceID.
Proof.
  intros Hp Hg. destruct (refresh_ok s w Hp Hg) as [n Hn]. exists n. intros fuel Hf flag serviceID.
  destruct (Hn fuel) as (_ & _ & ->). rewrite bool_decide_eq_true_2 by done.
  by rewrite (IsEnabled_resolve _ (contents w)).
Qed.

(** ** The two stores side by side *)
Inductive op :=
| OSet (flag : string) (b : bool)
| OSetForService (flag serviceID : string) (b : bool)
| ODelete (flag serviceID : string)
| ODeleteGlobal (flag : string)
| OPoll (fuel : nat).

Definition memOp (o : op) (m : MemoryStore) : MemoryStore :=
  match o with
  | OSet f b => MemSet f b m
  | OSetForService f v b => MemSetForService f v b m
  | ODelete f v => MemDelete f v m
  | ODeleteGlobal f => MemDeleteGlobal f m
  | OPoll _ => m
  end.
Definition redisOp (o : op) (s : Sys) : Sys :=
  match o with
  | OSet f b => (Set_ f b s).2
  | OSetForService f v b => (SetForService f v b s).2
  | ODelete f v => (Delete f v s).2
  | ODeleteGlobal f => (DeleteGlobal f s).2
  | OPoll n => (poll n s).2
  end.

(** Flags have no colon and services have a name; the global value of a flag
    the config sets is only removed the way a reload does it. *)
Definition validOp (config : gmap string bool) (o : op) : Prop :=
  match o with
  | OSet f _ | ODeleteGlobal f => colonFree f
  | OSetForService f v _ => colonFree f /\ v <> ""
  | ODelete f v => colonFree f /\ (v <> "" \/ config !! f = None)
  | OPoll _ => True
  end.

(** What the two stores have in common. *)
Record Agree (config : gmap string bool) (s : RedisStore) (m : MemoryStore) : Prop := {
  ag_global f : colonFree f ->
    global m !! f = match snapshot s !! globalKey s f with Some v => Some v | None => defaults s !! f end;
  ag_service f v : colonFree f -> v <> "" ->
    lookup2 (serviceOverrides m) f v = snapshot s !! serviceKey s f v;
  ag_noname f : lookup2 (serviceOverrides m) f "" = None;
  ag_config f : config !! f = None -> defaults s !! f = None
}.

Lemma Agree_enabled config s m f v :
  Agree config s m -> colonFree f -> IsEnabled s f v = MemIsEnabled m f v.
Proof.
  intros Ha Hf. unfold IsEnabled, MemIsEnabled, get, configOverride. rewrite (ag_global _ _ _ Ha f Hf).
  case_bool_decide as Hv; simpl.
  - subst v. rewrite (ag_noname _ _ _ Ha f). destruct (snapshot s !! _); [done|]. by destruct (defaults s !! f).
  - rewrite (ag_service _ _ _ Ha f v Hf Hv). destruct (snapshot s !! serviceKey s f v); [done|].
    destruct (snapshot s !! globalKey s f); [done|]. by destruct (defaults s !! f).
Qed.

Lemma updateSnapshot_lookup key value s k :
  snapshot (updateSnapshot key value s) !! k = if bool_decide (k = key) then value else snapshot s !! k.
Proof.
  unfold updateSnapshot. cbn. case_bool_decide as Hk; destruct value; subst;
    by rewrite ?lookup_insert_eq, ?lookup_delete_eq, ?lookup_insert_ne, ?lookup_delete_ne by done.
Qed.

(** Keys written for different settings differ, so a write to one is a write
    to that setting alone. *)
Ltac solve_agree Ha :=
  split;
  [ intros f' Hf'; change (globalKey (updateSnapshot _ _ ?s) ?f) with (globalKey s f);
    rewrite updateSnapshot_lookup
  | intros f' v' Hf' Hv'; change (serviceKey (updateSnapshot _ _ ?s) ?f ?v) with (serviceKey s f v);
    rewrite updateSnapshot_lookup
  | intros f'; try apply (ag_noname _ _ _ Ha)
  | intros f' Hc; try by apply (ag_config _ _ _ Ha) ].

Lemma Agree_set config s m f b :
  Agree config s m -> colonFree f -> Agree config (updateSnapshot (globalKey s f) (Some b) s) (MemSet f b m).
Proof.
  intros Ha Hf. solve_agree Ha.
  - cbn. destruct (decide (f' = f)) as [->|Hne].
    + by rewrite lookup_insert_eq, bool_decide_eq_true_2.
    + rewrite lookup_insert_ne by done. rewrite bool_decide_eq_false_2; [by apply Ha|].
      intros Heq. by apply globalKey_inj in Heq.
  - rewrite bool_decide_eq_false_2; [by apply Ha|]. intros Heq. symmetry in Heq.
    by apply global_service_key in Heq.
Qed.

Lemma Agree_setService config s m f v b :
  Agree config s m -> colonFree f -> v <> "" ->
  Agree config (updateSnapshot (serviceKey s f v) (Some b) s) (MemSetForService f v b m).
Proof.
  intros Ha Hf Hv.
  solve_agree Ha.
  - rewrite bool_decide_eq_false_2; [by apply Ha|]. by apply global_service_key.
  - cbn [MemSetForService serviceOverrides]. rewrite lookup2_insert2. case_decide as Hd.
    + destruct Hd as [-> ->]. by rewrite bool_decide_eq_true_2.
    + rewrite bool_decide_eq_false_2; [by apply Ha|]. intros Heq.
      apply serviceKey_inj in Heq as [-> ->]; tauto.
  - cbn [MemSetForService serviceOverrides]. rewrite lookup2_insert2. case_decide; [naive_solver|]. apply Ha.
Qed.

Lemma MemDelete_service f v m :
  v <> "" -> MemDelete f v m = mkMem (global m) (prune2 (serviceOverrides m) f v).
Proof. intros Hv. unfold MemDelete. by rewrite bool_decide_eq_false_2. Qed.

Lemma Agree_deleteService config s m f v :
  Agree config s m -> colonFree f -> v <> "" ->
  Agree config (updateSnapshot (serviceKey s f v) None s) (MemDelete f v m).
Proof.
  intros Ha Hf Hv. solve_agree Ha.
  - rewrite bool_decide_eq_false_2 by (by apply global_service_key).
    etrans; [|apply (ag_global _ _ _ Ha f' Hf')]. by rewrite MemDelete_service.
  - rewrite MemDelete_service by done. cbn [serviceOverrides]. rewrite lookup2_prune2. case_decide as Hd.
    + destruct Hd as [-> ->]. by rewrite bool_decide_eq_true_2.
    + rewrite bool_decide_eq_false_2; [by apply Ha|]. intros Heq.
      apply serviceKey_inj in Heq as [-> ->]; tauto.
  - rewrite MemDelete_service by done. cbn [serviceOverrides]. rewrite lookup2_prune2.
    case_decide; [naive_solver|]. apply Ha.
Qed.

Lemma Agree_deleteGlobal config s m f :
  Agree config s m -> colonFree f -> defaults s !! f = None ->
  Agree config (updateSnapshot (globalKey s f) None s) (MemDelete f "" m).
Proof.
  intros Ha Hf Hnone. solve_agree Ha.
  - change (global (MemDelete f "" m)) with (delete f (global m)).
    destruct (decide (f' = f)) as [->|Hne].
    + rewrite lookup_delete_eq, bool_decide_eq_true_2 by done. done.
    + rewrite lookup_delete_ne by done. rewrite bool_decide_eq_false_2; [by apply Ha|].
      intros Heq. by apply globalKey_inj in Heq.
  - rewrite bool_decide_eq_false_2; [by apply Ha|]. intros Heq. symmetry in Heq.
    by apply global_service_key in Heq.
Qed.

Lemma Agree_dropConfig config s m f :
  Agree config s m -> colonFree f ->
  Agree config (updateSnapshot (globalKey s f) None (dropConfig f s)) (MemDelete f "" m).
Proof.
  intros Ha Hf. solve_agree Ha.
  - change (global (MemDelete f "" m)) with (delete f (global m)).
    destruct (decide (f' = f)) as [->|Hne].
    + rewrite lookup_delete_eq, bool_decide_eq_true_2 by done. cbn. by rewrite lookup_delete_eq.
    + rewrite lookup_delete_ne by done. change (defaults (updateSnapshot _ _ (dropConfig f s))) with
        (delete f (defaults s)). rewrite lookup_delete_ne by done. change (globalKey (dropConfig f s) f') with (globalKey s f').
      rewrite bool_decide_eq_false_2; [by apply Ha|]. intros Heq. by apply globalKey_inj in Heq.
  - change (serviceKey (dropConfig f s) f' v') with (serviceKey s f' v').
    rewrite bool_decide_eq_false_2; [by apply Ha|]. intros Heq. symmetry in Heq.
    by apply global_service_key in Heq.
  - cbn. apply lookup_delete_None. right. by apply Ha.
Qed.

Lemma decode_encode b : decodeFlag (encodeFlag b) = b.
Proof. by destruct b. Qed.

Lemma snapshotOf_update p m key value :
  String.prefix p key = true ->
  snapshotOf p (match value with Some b => <[key := encodeFlag b]> m | None => delete key m end) =
  match value with Some b => <[key := b]> (snapshotOf p m) | None => delete key (snapshotOf p m) end.
Proof.
  intros Hp. apply map_eq. intros k. destruct (decide (k = key)) as [->|Hne].
  - rewrite snapshotOf_lookup, Hp. destruct value.
    + rewrite !lookup_insert_eq. simpl. by rewrite decode_encode.
    + by rewrite !lookup_delete_eq.
  - destruct value; rewrite ?lookup_insert_ne, ?lookup_delete_ne, !snapshotOf_lookup by done;
      by rewrite ?lookup_insert_ne, ?lookup_delete_ne.
Qed.

(** With a client the snapshot is what Redis holds. *)
Definition Synced (s : RedisStore) (w : W) : Prop :=
  client s = true -> Good w /\ snapshot s = snapshotOf (prefix s) (contents w).

(** A write changes the snapshot and, with a client, Redis alike. *)
Lemma set_synced key b s w :
  Synced s w -> String.prefix (prefix s) key = true ->
  (set_ key b (s, w)).2.1 = updateSnapshot key (Some b) s /\
  Synced (updateSnapshot key (Some b) s) (set_ key b (s, w)).2.2.
Proof.
  intros Hs Hk. unfold Synced, set_, locally, redis, mbind, M_bind, gets, modify, mret, M_ret in *. cbn.
  destruct (client s); [|done]. cbn. destruct Hs as [Hg Hs]; [done|].
  destruct (Redis.put_ok _ _ _ _ Hredis w key (encodeFlag b) Hg) as (_ & H2 & H3).
  destruct (Redis.Put key (encodeFlag b) w) as [r w']. cbn in *. split; [done|].
  intros _. split; [done|]. rewrite Hs, H2. by rewrite (snapshotOf_update _ _ key (Some b)).
Qed.
Lemma drop_synced key s w :
  Synced s w -> String.prefix (prefix s) key = true ->
  (dropKey key (s, w)).2.1 = updateSnapshot key None s /\
  Synced (updateSnapshot key None s) (dropKey key (s, w)).2.2.
Proof.
  intros Hs Hk. unfold Synced, dropKey, locally, redis, mbind, M_bind, gets, modify, mret, M_ret in *. cbn.
  destruct (client s); [|done]. cbn. destruct Hs as [Hg Hs]; [done|].
  destruct (Redis.del_ok _ _ _ _ Hredis w key Hg) as (_ & H2 & H3).
  destruct (Redis.Del key w) as [r w']. cbn in *. split; [done|].
  intros _. split; [done|]. rewrite Hs, H2. by rewrite (snapshotOf_update _ _ key None).
Qed.

Lemma poll_synced fuel s w :
  Redis.plain (prefix s) = true -> Synced s w ->
  (poll fuel (s, w)).2.1 = s /\ Synced s (poll fuel (s, w)).2.2.
Proof.
  intros Hp Hs. unfold poll, mbind, M_bind, gets, mret, M_ret. cbn.
  destruct (client s) eqn:Hc; [|done]. destruct (Hs Hc) as [Hg Hsnap].
  destruct (refresh_ok s w Hp Hg) as [n Hn]. destruct (Hn fuel) as (H1 & H2 & H3).
  assert (Hsame : storeSnapshot (snapshotOf (prefix s) (contents w)) s = s)
    by (rewrite <- Hsnap; by destruct s).
  rewrite Hsame in H3. split; [by case_bool_decide|]. intros _. by rewrite H1.
Qed.

Definition Related (config : gmap string bool) (s : Sys) (m : MemoryStore) : Prop :=
  Redis.plain (prefix s.1) = true /\ Agree config s.1 m /\ Synced s.1 s.2.

Lemma related_op config s m o :
  Related config s m -> validOp config o -> Related config (redisOp o s) (memOp o m).
Proof.
  destruct s as [s w]. intros (Hp & Ha & Hs) Hv. unfold Related. cbn [fst snd] in *.
  destruct o as [f b|f v b|f v|f|n]; cbn [redisOp memOp] in *.
  - change (Set_ f b (s, w)) with (set_ (globalKey s f) b (s, w)).
    destruct (set_synced (globalKey s f) b s w Hs) as [-> ?]; [apply prefix_app|].
    split_and!; [done|by apply Agree_set|done].
  - destruct Hv as [Hf Hv]. change (SetForService f v b (s, w)) with (set_ (serviceKey s f v) b (s, w)).
    destruct (set_synced (serviceKey s f v) b s w Hs) as [-> ?]; [apply prefix_app|].
    split_and!; [done|by apply Agree_setService|done].
  - destruct Hv as [Hf Hv]. change (Delete f v (s, w)) with (dropKey
      (if negb (bool_decide (v = "")) then serviceKey s f v else globalKey s f) (s, w)).
    destruct (decide (v = "")) as [->|Hne].
    + destruct Hv as [|Hnone]; [done|]. rewrite bool_decide_eq_true_2 by done. cbn [negb].
      destruct (drop_synced (globalKey s f) s w Hs) as [-> ?]; [apply prefix_app|].
      split_and!; [done| |done]. apply Agree_deleteGlobal; [done|done|by apply Ha].
    + rewrite bool_decide_eq_false_2 by done. cbn [negb].
      destruct (drop_synced (serviceKey s f v) s w Hs) as [-> ?]; [apply prefix_app|].
      split_and!; [done|by apply Agree_deleteService|done].
  - change (DeleteGlobal f (s, w)) with (dropKey (globalKey s f) (dropConfig f s, w)).
    destruct (drop_synced (globalKey s f) (dropConfig f s) w Hs) as [-> ?]; [apply prefix_app|].
    split_and!; [done|by apply Agree_dropConfig|done].
  - destruct (poll_synced n s w Hp Hs) as [-> ?]. done.
Qed.

(** Equivalence of the two stores: starting from one config, and from a
    Redis that holds no flag yet, any sequence of global and per-service
    settings, removals and polls leaves the Redis store, with or without a
    client, answering every flag for every service exactly as the in-memory
    store does.  The one operation on which they part, removing the global
    value of a flag the config sets, is left out. *)
Theorem flag_stores_agree config p c w ops :
  Redis.plain p = true -> Good w -> (forall k, String.prefix p k = true -> contents w !! k = None) ->
  Forall (validOp config) ops ->
  forall flag serviceID, colonFree flag ->
  IsEnabled (foldl (λ s o, redisOp o s) (NewRedisStore c p config, w) ops).1 flag serviceID =
  MemIsEnabled (foldl (λ m o, memOp o m) (NewMemoryStore config) ops) flag serviceID.
Proof.
  intros Hp Hg Hempty Hops flag serviceID Hf.
  assert (Hrel : Related config (NewRedisStore c p config, w) (NewMemoryStore config)).
  { split_and!; [done| |].
    - split; intros; cbn; rewrite ?lookup_empty; done.
    - intros _. split; [done|]. apply map_eq. intros k. rewrite snapshotOf_lookup. cbn.
      rewrite lookup_empty. destruct (String.prefix p k) eqn:Hk; [|done]. by rewrite Hempty. }
  revert Hrel. generalize (NewRedisStore c p config, w) (NewMemoryStore config).
  induction Hops as [|o ops Ho _ IH]; intros s m Hrel; cbn.
  - eapply Agree_enabled; [apply Hrel|done].
  - apply IH. by apply related_op.
Qed.

(** ** The admin listing *)
Definition enabledOf (r : gmap string FlagState) (f : string) : bool :=
  Enabled (default inhabitant (r !! f)).
Definition overrideOf (r : gmap string FlagState) (f v : string) : option bool :=
  ServiceOverrides (default inhabitant (r !! f)) !! v.
(** What a listing says of a flag for a service. *)
Definition view (r : gmap string FlagState) (f v : string) : bool :=
  default (enabledOf r f) (overrideOf r f v).

Lemma setEnabled_view r f b f' v :
  enabledOf (setEnabled r f b) f' = (if bool_decide (f' = f) then b else enabledOf r f') /\
  overrideOf (setEnabled r f b) f' v = overrideOf r f' v.
Proof.
  unfold enabledOf, overrideOf, setEnabled. case_bool_decide as Hf; [subst; by rewrite lookup_insert_eq|].
  by rewrite lookup_insert_ne.
Qed.
Lemma addOverrides_view r f o f' v :
  enabledOf (addOverrides r f o) f' = enabledOf r f' /\
  overrideOf (addOverrides r f o) f' v =
    (if bool_decide (f' = f) then union_with (λ x _, Some x) (o !! v) (overrideOf r f' v) else overrideOf r f' v).
Proof.
  unfold enabledOf, overrideOf, addOverrides. case_bool_decide as Hf.
  - subst. rewrite lookup_insert_eq. split; [done|]. cbn. by rewrite lookup_union.
  - by rewrite lookup_insert_ne.
Qed.

Lemma fold_setEnabled m r f v :
  enabledOf (map_fold (λ f b r, setEnabled r f b) r m) f = default (enabledOf r f) (m !! f) /\
  overrideOf (map_fold (λ f b r, setEnabled r f b) r m) f v = overrideOf r f v.
Proof.
  apply (map_fold_weak_ind (λ x m, enabledOf x f = default (enabledOf r f) (m !! f) /\
    overrideOf x f v = overrideOf r f v)); [by rewrite lookup_empty|].
  intros k b m' x Hk [IH1 IH2]. destruct (setEnabled_view x k b f v) as [-> ->]. rewrite IH1, IH2.
  split; [|done]. case_bool_decide; [subst; by rewrite lookup_insert_eq|by rewrite lookup_insert_ne].
Qed.

Lemma compiled_view f v : enabledOf compiledDefaults f = defaultOf f /\ overrideOf compiledDefaults f v = None.
Proof.
  unfold enabledOf, overrideOf, compiledDefaults, defaultOf. rewrite lookup_fmap.
  by destruct (DefaultFlags !! f).
Qed.

(** A key as the store writes them. *)
Definition wellKeyed (s : RedisStore) (k : string) : Prop :=
  exists f, colonFree f /\ f <> "" /\ (k = globalKey s f \/ exists v, v <> "" /\ k = serviceKey s f v).

Definition allStep (s : RedisStore) (m : gmap string string) (r : gmap string FlagState) (k : string)
    : gmap string FlagState :=
  match m !! k with Some x => addKey s r k (decodeFlag x) | None => r end.

Lemma addKey_view s r k b f v :
  wellKeyed s k -> colonFree f ->
  enabledOf (addKey s r k b) f = (if bool_decide (k = globalKey s f) then b else enabledOf r f) /\
  (v <> "" -> overrideOf (addKey s r k b) f v =
    if bool_decide (k = serviceKey s f v) then Some b else overrideOf r f v).
Proof.
  intros (f0 & Hf0 & Hne & [->|(v0 & Hv0 & ->)]) Hf; unfold addKey.
  - rewrite parse_globalKey by done. rewrite (bool_decide_eq_false_2 (f0 = "")) by done.
    rewrite (bool_decide_eq_true_2 ("" = "")) by done.
    destruct (setEnabled_view r f0 b f v) as [-> ->]. split.
    + rewrite (bool_decide_ext (f = f0) (globalKey s f0 = globalKey s f)); [done|].
      split; [by intros ->|]. intros Heq. symmetry in Heq. by apply globalKey_inj in Heq.
    + intros Hv. by rewrite bool_decide_eq_false_2 by (by apply global_service_key).
  - rewrite parse_serviceKey by done. rewrite (bool_decide_eq_false_2 (f0 = "")) by done.
    rewrite (bool_decide_eq_false_2 (v0 = "")) by done.
    destruct (addOverrides_view r f0 {[v0 := b]} f v) as [-> ->]. split.
    + rewrite bool_decide_eq_false_2; [done|]. intros Heq. symmetry in Heq.
      by apply global_service_key in Heq.
    + intros Hv. destruct (decide (f = f0)) as [->|Hff].
      * rewrite (bool_decide_eq_true_2 (f0 = f0)) by done. destruct (decide (v = v0)) as [->|Hvv].
        -- rewrite lookup_singleton_eq, bool_decide_eq_true_2 by done. by destruct (overrideOf r f0 v0).
        -- rewrite lookup_singleton_ne by done. rewrite bool_decide_eq_false_2; [by destruct (overrideOf r f0 v)|].
           intros Heq. apply serviceKey_inj in Heq as [_ ?]; [by subst|done|done].
      * rewrite (bool_decide_eq_false_2 (f = f0)) by done. rewrite bool_decide_eq_false_2; [done|].
        intros Heq. apply serviceKey_inj in Heq as [? _]; [by subst|done|done].
Qed.

Lemma allSteps_view s m keys r f v :
  Forall (wellKeyed s) keys -> colonFree f ->
  let r' := foldl (allStep s m) r keys in
  enabledOf r' f = (if bool_decide (globalKey s f ∈ keys)
    then default (enabledOf r f) (decodeFlag <$> m !! globalKey s f) else enabledOf r f) /\
  (v <> "" -> overrideOf r' f v = if bool_decide (serviceKey s f v ∈ keys)
    then match m !! serviceKey s f v with Some x => Some (decodeFlag x) | None => overrideOf r f v end
    else overrideOf r f v).
Proof.
  intros Hk Hf. revert r. induction Hk as [|k keys Hk _ IH]; intros r; [done|]. cbn [foldl].
  destruct (IH (allStep s m r k)) as [H1 H2].
  assert (Hst : enabledOf (allStep s m r k) f =
      (if bool_decide (k = globalKey s f) then default (enabledOf r f) (decodeFlag <$> m !! globalKey s f)
       else enabledOf r f) /\
    (v <> "" -> overrideOf (allStep s m r k) f v =
      if bool_decide (k = serviceKey s f v)
      then match m !! serviceKey s f v with Some x => Some (decodeFlag x) | None => overrideOf r f v end
      else overrideOf r f v)).
  { clear H1 H2 IH. unfold allStep. destruct (m !! k) as [x|] eqn:Hx.
    - destruct (addKey_view s r k (decodeFlag x) f v Hk Hf) as [-> H4]. split.
      + clear H4. case_bool_decide; [subst; by rewrite Hx|done].
      + intros Hv. rewrite H4 by done. clear H4. case_bool_decide; [subst; by rewrite Hx|done].
    - split; [case_bool_decide; [subst; by rewrite Hx|done]|].
      intros _. case_bool_decide; [subst; by rewrite Hx|done]. }
  assert (Hcons : forall x, bool_decide (x ∈ k :: keys) = bool_decide (k = x) || bool_decide (x ∈ keys)).
  { intros x. rewrite <- bool_decide_or. apply bool_decide_ext. rewrite elem_of_cons. naive_solver. }
  rewrite !Hcons. destruct Hst as [S1 S2]. split.
  - rewrite H1, S1. by destruct (bool_decide (k = _)), (bool_decide (_ ∈ keys)), (m !! globalKey s f).
  - intros Hv. rewrite H2, S2 by done.
    by destruct (bool_decide (k = serviceKey s f v)), (bool_decide (serviceKey s f v ∈ keys)),
      (m !! serviceKey s f v).
Qed.

Lemma readAll_ok s r keys w :
  Good w ->
  (readAll s r keys w).1 = foldl (allStep s (contents w)) r keys.
Proof.
  revert r w. induction keys as [|k keys IH]; intros r w Hg; [done|].
  cbn [readAll foldl]. unfold mbind, M_bind.
  destruct (Redis.get_ok _ _ _ _ Hredis w k Hg) as (H1 & H2 & H3).
  destruct (Redis.Get k w) as [x w']. cbn [fst snd] in *. subst x. rewrite <- H2. unfold allStep at 2.
  destruct (contents w' !! k); by apply IH.
Qed.

(** Equivalence of the two readings: when Redis answers, [GetAll] ends
    without error and what it lists for a flag and a service is what the relay
    path decides by once the snapshot is refreshed, although one scans and
    parses keys and the other builds them.  The keys are those the store
    writes. *)
Theorem admin_view_matches_hot_path s w :
  Redis.plain (prefix s) = true -> Good w -> client s = true ->
  (forall k, is_Some (contents w !! k) -> String.prefix (prefix s) k = true -> wellKeyed s k) ->
  exists n, forall fuel, (n <= fuel)%nat -> exists r,
    (GetAll fuel (s, w)).1 = Some (r, true) /\
    forall flag serviceID, colonFree flag -> serviceID <> "" ->
      view r flag serviceID = IsEnabled (refresh fuel (s, w)).2.1 flag serviceID /\
      enabledOf r flag = IsEnabled (refresh fuel (s, w)).2.1 flag "".
Proof.
  intros Hp Hg Hc Hwk. destruct (refresh_follows_redis s w Hp Hg) as [n Hn].
  destruct (Redis.scan_full _ _ _ _ Hredis (contents w) (prefix s +:+ "*")) as (pages & Hw & Hpages).
  exists (max n (length pages)). intros fuel Hfuel.
  destruct (scanLoop_walk _ _ _ _ [] fuel w Hw Hg eq_refl) as (H1 & H2 & H3).
  rewrite bool_decide_eq_true_2 in H1 by lia. set (keys := foldl addPage [] pages) in *.
  assert (Hkeys : forall k, k ∈ keys <-> is_Some (contents w !! k) /\ String.prefix (prefix s) k = true).
  { intros k. unfold keys. rewrite addPages_elem, Hpages, (Redis.match_prefix _ _ _ _ Hredis) by done.
    set_solver. }
  exists (foldl (allStep s (contents w)) (seeded s) keys). split.
  - unfold GetAll, redis, scanKeys, mbind, M_bind, gets, mret, M_ret. cbn [fst snd]. rewrite Hc. cbn [negb fst snd].
    destruct (scanLoop fuel (prefix s +:+ "*") [] 0 w) as [x w1]. cbn [fst snd] in *. subst x.
    pose proof (readAll_ok s (seeded s) keys w1 H3) as Hr. cbv beta iota. cbn [fst snd].
    destruct (readAll s (seeded s) keys w1) as [r w2]. cbn [fst snd] in *. by rewrite Hr, H2.
  - intros f v Hf Hv. rewrite !Hn by lia.
    assert (Hall : Forall (wellKeyed s) keys) by (apply Forall_forall; intros k ?%Hkeys; naive_solver).
    destruct (allSteps_view s (contents w) keys (seeded s) f v Hall Hf) as [E1 E2].
    destruct (fold_setEnabled (defaults s) compiledDefaults f v) as [F1 F2].
    destruct (compiled_view f v) as [G1 G2]. fold (seeded s) in F1, F2. rewrite G1 in F1. rewrite G2 in F2.
    assert (Hin : forall k, String.prefix (prefix s) k = true ->
      bool_decide (k ∈ keys) = bool_decide (is_Some (contents w !! k)))
      by (intros k Hk; apply bool_decide_ext; rewrite Hkeys; tauto).
    rewrite (Hin (globalKey s f)) in E1 by apply prefix_app.
    rewrite (Hin (serviceKey s f v)) in E2 by apply prefix_app.
    unfold view, resolve. fold (globalKey s f) (serviceKey s f v).
    rewrite E1, E2, F1, F2 by done. rewrite (bool_decide_eq_false_2 (v = "")) by done.
    rewrite (bool_decide_eq_true_2 ("" = "")) by done.
    destruct (contents w !! globalKey s f), (contents w !! serviceKey s f v); split; reflexivity.
Qed.
End Refresh.

(** The interface says that removing the global value leaves a flag following
    the config, then the compiled default.  In memory the config was the
    global value: a flag the config turned on is off after an operator set and
    removed it, where the Redis store goes back to the config. *)
Theorem memory_delete_forgets_the_config flag b p :
  defaultOf flag = negb b -> colonFree flag ->
  let config : gmap string bool := {[flag := b]} in
  MemIsEnabled (MemDelete flag "" (MemSet flag (negb b) (NewMemoryStore config))) flag "" = negb b /\
  IsEnabled (Delete (W := Redis.store) flag "" (Set_ flag (negb b) (NewRedisStore true p config, ∅)).2).2.1 flag "" = b.
Proof.
  intros Hd Hf config. split.
  - unfold MemIsEnabled. change (serviceOverrides (MemDelete flag "" _)) with (∅ : gmap string (gmap string bool)).
    change (global (MemDelete flag "" ?m)) with (delete flag (global m)).
    rewrite lookup2_empty. by rewrite lookup_delete_eq.
  - change (Delete flag "" ?s).2.1 with (updateSnapshot (globalKey s.1 flag) None s.1).
    unfold IsEnabled, get, configOverride. change (bool_decide ("" = "")) with true. cbn [negb].
    change (globalKey (updateSnapshot _ _ ?s) flag) with (globalKey s flag).
    rewrite updateSnapshot_lookup, bool_decide_eq_true_2 by done.
    change (defaults _) with config. unfold config. by rewrite lookup_singleton_eq.
Qed.

(** ** Witnesses *)
Definition demoStore : RedisStore := NewRedisStore true "sage:flags:" {[FlagHedge := false]}.
Definition demoRedis : Redis.store :=
  {["sage:flags:retry" := "0"; "sage:flags:retry:eth" := "1"]}.

Lemma refresh_follows_redis_witness :
  exists n, forall fuel, (n <= fuel)%nat ->
    IsEnabled (refresh fuel (demoStore, demoRedis)).2.1 FlagRetry "eth" = true.
Proof.
  destruct (refresh_follows_redis _ _ _ _ Redis.store_conforms demoStore demoRedis eq_refl I) as [n Hn].
  exists n. intros fuel Hf. rewrite Hn by done. vm_compute. reflexivity.
Defined.

Lemma flag_stores_agree_witness :
  IsEnabled (foldl (λ s o, redisOp o s) (NewRedisStore true "sage:flags:" {[FlagHedge := false]}, ∅ : Redis.store)
    [OSet FlagHedge true; OSetForService FlagHedge "eth" false; OPoll 3; ODeleteGlobal FlagHedge]).1 FlagHedge "eth"
  = false.
Proof.
  rewrite (flag_stores_agree _ _ _ _ Redis.store_conforms {[FlagHedge := false]}).
  - vm_compute. reflexivity.
  - reflexivity.
  - done.
  - intros k _. exact (lookup_empty k).
  - repeat constructor; done.
  - vm_compute. repeat split; discriminate.
Defined.

Lemma admin_view_matches_hot_path_witness :
  exists n, forall fuel, (n <= fuel)%nat -> exists r,
    (GetAll fuel (demoStore, demoRedis)).1 = Some (r, true).
Proof.
  destruct (admin_view_matches_hot_path _ _ _ _ Redis.store_conforms demoStore demoRedis) as [n Hn].
  - reflexivity.
  - done.
  - reflexivity.
  - intros k Hk _. exists "retry". split; [vm_compute; repeat split; discriminate|]. split; [done|].
    destruct (decide (k = "sage:flags:retry")) as [->|H1]; [by left|].
    destruct (decide (k = "sage:flags:retry:eth")) as [->|H2]; [right; by exists "eth"|].
    exfalso. revert Hk. cbn [id]. unfold demoRedis.
    rewrite lookup_insert_ne, lookup_singleton_ne by done. by intros [? ?].
  - exists n. intros fuel Hf. destruct (Hn fuel Hf) as (r & Hr & _). by exists r.
Defined.
End FeatureFlag.
