(* ===== verification/Override.v ===== *)
(** * Override: the durable map behind runtime changes

    Models [override/store.go]: the store interface with its two
    implementations, in memory and in Redis, and [Watch], which hands the map
    under a prefix to an apply function when it changed.

    [Store] is the interface and [StoreLaws] what it promises to a client when
    it can be reached and nobody else writes meanwhile; both implementations
    are shown to keep it, and the tuning store is verified against it.  The
    scan of the Redis listing runs with fuel, [LRunning] being a listing that
    has not returned. *)

From S2P Require Import Prelude Domain StateM Redis FeatureFlag.
Import GoStrings.

Module Override.

Inductive listing := Listed (m : gmap string string) | LErr | LRunning.

(** ** The interface *)
Class Store (W : Type) := {
  Get : string -> M W (option (option string));
  Set_ : string -> string -> M W bool;
  Delete : string -> M W bool;
  List : nat -> string -> M W listing;
  Shared : bool
}.

(** [abs w] is the map the store stands for. *)
Class StoreLaws {W} `{!Store W} (abs : W -> string -> option string) (Good : W -> Prop)
    (usable : string -> Prop) : Prop := {
  get_law w k : Good w -> (Get k w).1 = Some (abs w k) /\ Good (Get k w).2 /\
    forall k', abs (Get k w).2 k' = abs w k';
  set_law w k v : Good w -> (Set_ k v w).1 = true /\ Good (Set_ k v w).2 /\
    forall k', abs (Set_ k v w).2 k' = if bool_decide (k' = k) then Some v else abs w k';
  delete_law w k : Good w -> (Delete k w).1 = true /\ Good (Delete k w).2 /\
    forall k', abs (Delete k w).2 k' = if bool_decide (k' = k) then None else abs w k';
  list_law w p : Good w -> usable p -> exists n, forall fuel,
    Good (List fuel p w).2 /\ (forall k, abs (List fuel p w).2 k = abs w k) /\
    if bool_decide (n <= fuel)%nat
    then exists m, (List fuel p w).1 = Listed m /\
         forall k, m !! k = if String.prefix p k then abs w k else None
    else (List fuel p w).1 = LRunning
}.

(** ** In memory *)
Definition MemoryStore : Type := gmap string string.

Definition MemGet (k : string) : M MemoryStore (option (option string)) := λ m, (Some (m !! k), m).
Definition MemSet (k v : string) : M MemoryStore bool := λ m, (true, <[k := v]> m).
Definition MemDelete (k : string) : M MemoryStore bool := λ m, (true, delete k m).
Definition MemList (fuel : nat) (p : string) : M MemoryStore listing := λ m,
  (Listed (filter (λ kv : string * string, String.prefix p kv.1 = true) m), m).
#[global] Instance memory_store : Store MemoryStore := {|
  Get := MemGet; Set_ := MemSet; Delete := MemDelete; List := MemList; Shared := false |}.

Lemma filter_prefix_lookup p (m : gmap string string) k :
  filter (λ kv : string * string, String.prefix p kv.1 = true) m !! k =
  if String.prefix p k then m !! k else None.
Proof.
  destruct (String.prefix p k) eqn:Hp.
  - destruct (m !! k) as [v|] eqn:Hm.
    + by apply map_lookup_filter_Some_2.
    + apply map_lookup_filter_None_2. by left.
  - apply map_lookup_filter_None_2. right. intros v _. simpl. by rewrite Hp.
Qed.

#[global] Instance memory_laws :
  StoreLaws (W := MemoryStore) (λ m k, (m : gmap string string) !! k) (λ _, True) (λ _, True).
Proof.
  split; cbn.
  - done.
  - intros w k v _. split_and!; [done|done|]. intros k'.
    case_bool_decide; [subst; apply lookup_insert_eq|by apply lookup_insert_ne].
  - intros w k _. split_and!; [done|done|]. intros k'.
    case_bool_decide; [subst; apply lookup_delete_eq|by apply lookup_delete_ne].
  - intros w p _ _. exists O. intros fuel. split_and!; [done|done|].
    rewrite bool_decide_eq_true_2 by lia. eexists. split; [done|]. intros k. apply filter_prefix_lookup.
Qed.

(** ** In Redis *)
Section RedisStore.
Context {W : Type} `{!Redis.Client W} (prefix : string).

Definition RGet (k : string) : M W (option (option string)) :=
  r ← Redis.Get (prefix +:+ k);
  mret (match r with Redis.Val v => Some (Some v) | Redis.Nil => Some None | Redis.Err => None end).
Definition RSet (k v : string) : M W bool := Redis.Put (prefix +:+ k) v.
Definition RDelete (k : string) : M W bool := Redis.Del (prefix +:+ k).

(** [strings.TrimPrefix]. *)
Definition TrimPrefix (s p : string) : string := default s (FeatureFlag.CutPrefix s p).

(** The loop over one page: [None] is the early return with the error. *)
Fixpoint readPage (out : gmap string string) (keys : list string) : M W (option (gmap string string)) :=
  match keys with
  | [] => mret (Some out)
  | k :: keys =>
      r ← Redis.Get k;
      match r with
      | Redis.Nil => readPage out keys
      | Redis.Err => mret None
      | Redis.Val v => readPage (<[TrimPrefix k prefix := v]> out) keys
      end
  end.

Fixpoint listLoop (fuel : nat) (pattern : string) (out : gmap string string) (cursor : Z) : M W listing :=
  match fuel with
  | O => mret LRunning
  | S fuel =>
      r ← Redis.Scan cursor pattern;
      match r with
      | None => mret LErr
      | Some (keys, next) =>
          out ← readPage out keys;
          match out with
          | None => mret LErr
          | Some out => if bool_decide (next = 0) then mret (Listed out) else listLoop fuel pattern out next
          end
      end
  end.
Definition RList (fuel : nat) (p : string) : M W listing :=
  listLoop fuel (prefix +:+ (p +:+ "*")) ∅ 0.

Definition redis_store : Store W := {|
  Get := RGet; Set_ := RSet; Delete := RDelete; List := RList; Shared := true |}.

Context (contents : W -> gmap string string) (Good : W -> Prop) page matches
        (Hredis : Redis.Conforms contents Good page matches).

Definition redisAbs (w : W) (k : string) : option string := contents w !! (prefix +:+ k).

(** What a page adds to the map. *)
Definition pageStep (m out : gmap string string) (k : string) : gmap string string :=
  match m !! k with Some v => <[TrimPrefix k prefix := v]> out | None => out end.

Lemma readPage_ok out keys w :
  Good w ->
  (readPage out keys w).1 = Some (foldl (pageStep (contents w)) out keys) /\
  contents (readPage out keys w).2 = contents w /\ Good (readPage out keys w).2.
Proof.
  revert out w. induction keys as [|k keys IH]; intros out w Hg; [done|].
  cbn [readPage foldl]. unfold mbind, M_bind.
  destruct (Redis.get_ok _ _ _ _ Hredis w k Hg) as (H1 & H2 & H3).
  destruct (Redis.Get k w) as [r w']. cbn [fst snd] in *. subst r. rewrite <- H2. unfold pageStep at 2.
  destruct (contents w' !! k); by apply IH.
Qed.

Lemma listLoop_walk pat m c pages out fuel w :
  Redis.walk (page m pat) c pages -> Good w -> contents w = m ->
  (listLoop fuel pat out c w).1 =
    (if bool_decide (length pages <= fuel)%nat
     then Listed (foldl (pageStep m) out (mjoin pages)) else LRunning) /\
  contents (listLoop fuel pat out c w).2 = m /\ Good (listLoop fuel pat out c w).2.
Proof.
  intros Hw. revert out fuel w.
  induction Hw as [c ks Hp|c ks c' pages Hp Hc _ IH]; intros out [|fuel] w Hg Hm;
    cbn [listLoop length mjoin list_join].
  1,3: by rewrite bool_decide_eq_false_2 by lia.
  all: unfold mbind, M_bind; destruct (Redis.scan_ok _ _ _ _ Hredis w c pat Hg) as (H1 & H2 & H3);
    destruct (Redis.Scan c pat w) as [r w']; cbn [fst snd] in *; subst r; rewrite Hm, Hp; cbv beta iota;
    destruct (readPage_ok out ks w' H3) as (H4 & H5 & H6);
    destruct (readPage out ks w') as [r w'']; cbn [fst snd] in *; subst r;
    rewrite H2, Hm, foldl_app; cbv beta iota.
  - rewrite (bool_decide_eq_true_2 (0 = 0)), bool_decide_eq_true_2 by lia. cbn.
    split_and!; [done|congruence|done].
  - rewrite (bool_decide_eq_false_2 (c' = 0)) by done.
    destruct (IH (foldl (pageStep m) out ks) fuel w'') as (-> & H7 & H8); [done|congruence|].
    split_and!; [|done|done].
    by rewrite (bool_decide_ext (length pages <= fuel)%nat (S (length pages) <= S fuel)%nat) by lia.
Qed.

Lemma TrimPrefix_app k : TrimPrefix (prefix +:+ k) prefix = k.
Proof. unfold TrimPrefix. by rewrite FeatureFlag.CutPrefix_app. Qed.

Lemma prefix_split p k : String.prefix p k = true -> exists t, k = p +:+ t.
Proof.
  revert k. induction p as [|c p IH]; intros k; [by exists k|].
  destruct k as [|d k]; [done|]. cbn. destruct (Ascii.ascii_dec c d) as [->|]; [|done].
  intros [t ->]%IH. by exists t.
Qed.

Lemma pageSteps_lookup m out keys k :
  (forall x, x ∈ keys -> String.prefix prefix x = true) ->
  foldl (pageStep m) out keys !! k =
  (if bool_decide (prefix +:+ k ∈ keys)
   then match m !! (prefix +:+ k) with Some v => Some v | None => out !! k end else out !! k).
Proof.
  revert out. induction keys as [|x keys IH]; intros out Hpre; [done|]. cbn [foldl].
  rewrite IH by set_solver. destruct (prefix_split prefix x) as [t ->]; [set_solver|].
  unfold pageStep. rewrite TrimPrefix_app. destruct (decide (t = k)) as [->|Hne].
  - rewrite (bool_decide_eq_true_2 (prefix +:+ k ∈ (prefix +:+ k) :: keys)) by set_solver.
    destruct (m !! (prefix +:+ k)); [rewrite lookup_insert_eq|]; by destruct (bool_decide (_ ∈ keys)).
  - rewrite (bool_decide_ext (prefix +:+ k ∈ (prefix +:+ t) :: keys) (prefix +:+ k ∈ keys)).
    + destruct (m !! (prefix +:+ t)); [by rewrite lookup_insert_ne|done].
    + rewrite elem_of_cons. split; [|by right]. intros [Heq|]; [|done].
      apply (f_equal (λ x, TrimPrefix x prefix)) in Heq. rewrite !TrimPrefix_app in Heq. by subst.
Qed.

Lemma prefix_cancel p a b : String.prefix (p +:+ a) (p +:+ b) = String.prefix a b.
Proof.
  induction p as [|c p IH]; [done|].
  change (String.prefix (String c (p +:+ a)) (String c (p +:+ b)) = String.prefix a b). cbn.
  destruct (Ascii.ascii_dec c c); done.
Qed.
Lemma prefix_left p a k : String.prefix (p +:+ a) k = true -> String.prefix p k = true.
Proof.
  intros [t ->]%prefix_split. rewrite app_assoc'. apply prefix_app.
Qed.

Lemma redis_laws :
  @StoreLaws W redis_store redisAbs Good (λ p, Redis.plain (prefix +:+ p) = true).
Proof.
  split; cbn.
  - intros w k Hg. unfold RGet, mbind, M_bind, mret, M_ret, redisAbs.
    destruct (Redis.get_ok _ _ _ _ Hredis w (prefix +:+ k) Hg) as (H1 & H2 & H3).
    destruct (Redis.Get (prefix +:+ k) w) as [r w']. cbn in *. subst r. rewrite H2.
    split_and!; [by destruct (contents w !! _)|done|done].
  - intros w k v Hg. unfold RSet, redisAbs.
    destruct (Redis.put_ok _ _ _ _ Hredis w (prefix +:+ k) v Hg) as (H1 & H2 & H3).
    split_and!; [done|done|]. intros k'. rewrite H2. case_bool_decide as Hk.
    + subst. apply lookup_insert_eq.
    + apply lookup_insert_ne. intros Heq. apply (f_equal (λ x, TrimPrefix x prefix)) in Heq.
      rewrite !TrimPrefix_app in Heq. by subst.
  - intros w k Hg. unfold RDelete, redisAbs.
    destruct (Redis.del_ok _ _ _ _ Hredis w (prefix +:+ k) Hg) as (H1 & H2 & H3).
    split_and!; [done|done|]. intros k'. rewrite H2. case_bool_decide as Hk.
    + subst. apply lookup_delete_eq.
    + apply lookup_delete_ne. intros Heq. apply (f_equal (λ x, TrimPrefix x prefix)) in Heq.
      rewrite !TrimPrefix_app in Heq. by subst.
  - intros w p Hg Hp. unfold RList. rewrite <- (app_assoc' prefix p "*").
    destruct (Redis.scan_full _ _ _ _ Hredis (contents w) ((prefix +:+ p) +:+ "*")) as (pages & Hw & Hpages).
    exists (length pages). intros fuel.
    destruct (listLoop_walk _ _ _ _ ∅ fuel w Hw Hg eq_refl) as (H1 & H2 & H3).
    split_and!; [done|intros k; unfold redisAbs; by rewrite H2|].
    rewrite H1. case_bool_decide; [|done]. eexists. split; [done|]. intros k.
    assert (Hin : forall x, x ∈ mjoin pages <-> is_Some (contents w !! x) /\ String.prefix (prefix +:+ p) x = true)
      by (intros x; by rewrite Hpages, (Redis.match_prefix _ _ _ _ Hredis)).
    rewrite pageSteps_lookup by (intros x [_ ?%prefix_left]%Hin; done). rewrite lookup_empty.
    rewrite (bool_decide_ext _ _ (Hin _)), prefix_cancel. unfold redisAbs.
    destruct (contents w !! (prefix +:+ k)) as [v|]; [|by destruct (bool_decide _), (String.prefix p k)].
    destruct (String.prefix p k).
    + by rewrite bool_decide_eq_true_2 by eauto.
    + by rewrite bool_decide_eq_false_2 by (intros [_ ?]; discriminate).
Qed.
End RedisStore.

(** ** [Watch] *)
Definition DefaultWatchInterval : Z := 5 * second.

(** The map last applied; [None] before the first apply. *)
Definition watchState : Type := option (gmap string string).

(** One [tick], and the map it hands to [apply], if it does. *)
Definition tick {W} `{!Store W} (fuel : nat) (p : string) (last : watchState)
    : M W (watchState * option (gmap string string)) :=
  cur ← List fuel p;
  match cur with
  | LErr | LRunning => mret (last, None)
  | Listed cur => if bool_decide (last = Some cur) then mret (last, None) else mret (Some cur, Some cur)
  end.
End Override.
