(* ===== verification/Tuning.v ===== *)
(** * Tuning: runtime overrides of numeric settings

    Models [tuning/knob.go] and [tuning/store.go]: the registry of knobs with
    their bounds, the parsing of a submitted value, and the store that resolves
    a knob for a service, writes changes through to a durable store and reloads
    from it.

    The durable store is any implementation of [Override.Store]; what is proved
    of the two together is proved against [Override.StoreLaws].  The texts
    written for the operator ([Description], the wording of errors) are left
    out.  [hook] counts the runs of the change hook, [None] when there is none.
    Every knob's bounds are whole numbers, as in the registry. *)

From Stdlib Require Import Ascii.
From S2P Require Import Prelude Float64 Domain Text Strconv StateM Redis FeatureFlag Override.
Import GoStrings GoText Strconv.

Module Tuning.

(** ** [tuning/knob.go] *)
Inductive Kind := KindInt | KindDuration | KindFloat | KindString.
Definition KnobRetryMaxRetries : string := "retry.max_retries".
Definition KnobRetryMaxLatency : string := "retry.max_latency".
Definition KnobHedgeDelay : string := "retry.hedge_delay".
Definition KnobRelayTimeout : string := "timeout.relay_timeout".
Definition KnobMaxResponseMB : string := "relay.max_response_mb".
Definition KnobHealthCheckInterval : string := "health_checks.interval".
Definition KnobHealthCheckWorkers : string := "health_checks.max_workers".
Definition KnobPeerProbeMaxAge : string := "health_checks.peer_max_age".
Definition KnobMethodBlockTTL : string := "method_blocks.ttl".
Definition KnobMethodBlockClientTTL : string := "method_blocks.client_ttl".
Definition KnobMethodBlockEscalation : string := "method_blocks.escalation_threshold".
Definition KnobObservationSampleRate : string := "observation_pipeline.sample_rate".
Definition KnobSyncAllowance : string := "qos.sync_allowance".
Definition KnobBatchMaxPayloads : string := "batch.max_payloads".
Definition KnobBatchMaxConcurrency : string := "batch.max_concurrency".
Definition KnobBatchRejectMessage : string := "batch.reject_message".
Definition KnobWSDuplicateMaxShare : string := "websocket.duplicate_max_share".
Definition KnobWSDuplicateMinNotifications : string := "websocket.duplicate_min_notifications".
Definition KnobWSDuplicateWindow : string := "websocket.duplicate_window".
Definition KnobWSDuplicateBudget : string := "websocket.duplicate_budget".
Definition KnobWSMaxConnectionsPerClient : string := "websocket.max_connections_per_client".
Definition KnobWSDenyMessage : string := "websocket.deny_message".
Definition KnobWSDuplicateMajorShare : string := "websocket.duplicate_major_share".
Definition KnobWSDuplicateShareFloor : string := "websocket.duplicate_share_floor".
Definition KnobWSDuplicateShareFull : string := "websocket.duplicate_share_full".
Definition KnobThrottleShareFloor : string := "reputation.throttle_share_floor".
Definition KnobThrottleShareFull : string := "reputation.throttle_share_full".
Definition KnobClassShareFloor : string := "reputation.class_share_floor".
Definition KnobClassShareFull : string := "reputation.class_share_full".
Definition KnobAutoDrainPeerRatio : string := "autodrain.peer_ratio".

Record Knob := mkKnob {
  Name : string; KKind : Kind; Min : Z; Max : Z; Unit : string; Require_ : list string
}.

Definition knobWSDuplicateMajorShare : Knob := mkKnob KnobWSDuplicateMajorShare KindFloat 0 1 "share" [].
Definition knobWSDuplicateShareFloor : Knob := mkKnob KnobWSDuplicateShareFloor KindFloat 0 1 "share" [].
Definition knobWSDuplicateShareFull : Knob := mkKnob KnobWSDuplicateShareFull KindFloat 0 1 "share" [].
Definition knobThrottleShareFloor : Knob := mkKnob KnobThrottleShareFloor KindFloat 0 1 "share" [].
Definition knobThrottleShareFull : Knob := mkKnob KnobThrottleShareFull KindFloat 0 1 "share" [].
Definition knobClassShareFloor : Knob := mkKnob KnobClassShareFloor KindFloat 0 1 "share" [].
Definition knobClassShareFull : Knob := mkKnob KnobClassShareFull KindFloat 0 1 "share" [].
Definition knobAutoDrainPeerRatio : Knob := mkKnob KnobAutoDrainPeerRatio KindFloat 0 100 "ratio" [].
Definition knobWSDuplicateWindow : Knob := mkKnob KnobWSDuplicateWindow KindDuration 0 300000 "ms" [].
Definition knobWSMaxConnectionsPerClient : Knob := mkKnob KnobWSMaxConnectionsPerClient KindInt 0 1000000 "connections" [].
Definition knobWSDuplicateBudget : Knob := mkKnob KnobWSDuplicateBudget KindInt 64 1000000 "notifications" [].
Definition knobWSDuplicateMaxShare : Knob := mkKnob KnobWSDuplicateMaxShare KindFloat 0 1 "share" [].
Definition knobWSDuplicateMinNotifications : Knob := mkKnob KnobWSDuplicateMinNotifications KindInt 1 1000000 "notifications" [].
Definition knobBatchMaxPayloads : Knob := mkKnob KnobBatchMaxPayloads KindInt 1 100000 "payloads" [].
Definition knobWSDenyMessage : Knob := mkKnob KnobWSDenyMessage KindString 1 500 "characters" [].
Definition knobBatchRejectMessage : Knob := mkKnob KnobBatchRejectMessage KindString 1 500 "characters" ["{n}"; "{max}"].
Definition knobBatchMaxConcurrency : Knob := mkKnob KnobBatchMaxConcurrency KindInt 1 1024 "payloads" [].
Definition knobRetryMaxRetries : Knob := mkKnob KnobRetryMaxRetries KindInt 0 10 "attempts" [].
Definition knobRetryMaxLatency : Knob := mkKnob KnobRetryMaxLatency KindDuration 0 120000 "ms" [].
Definition knobHedgeDelay : Knob := mkKnob KnobHedgeDelay KindDuration 0 60000 "ms" [].
Definition knobRelayTimeout : Knob := mkKnob KnobRelayTimeout KindDuration 100 300000 "ms" [].
Definition knobMaxResponseMB : Knob := mkKnob KnobMaxResponseMB KindInt 1 16384 "MiB" [].
Definition knobHealthCheckInterval : Knob := mkKnob KnobHealthCheckInterval KindDuration 1000 3600000 "ms" [].
Definition knobHealthCheckWorkers : Knob := mkKnob KnobHealthCheckWorkers KindInt 1 512 "workers" [].
Definition knobPeerProbeMaxAge : Knob := mkKnob KnobPeerProbeMaxAge KindDuration 0 3600000 "ms" [].
Definition knobMethodBlockTTL : Knob := mkKnob KnobMethodBlockTTL KindDuration 0 86400000 "ms" [].
Definition knobMethodBlockClientTTL : Knob := mkKnob KnobMethodBlockClientTTL KindDuration 0 86400000 "ms" [].
Definition knobMethodBlockEscalation : Knob := mkKnob KnobMethodBlockEscalation KindInt 0 100 "methods" [].
Definition knobObservationSampleRate : Knob := mkKnob KnobObservationSampleRate KindFloat 0 1 "ratio" [].
Definition knobSyncAllowance : Knob := mkKnob KnobSyncAllowance KindInt 0 10000000 "blocks" [].

Definition Knobs : list Knob := [
  knobWSDuplicateMajorShare; knobWSDuplicateShareFloor; knobWSDuplicateShareFull;
  knobThrottleShareFloor; knobThrottleShareFull; knobClassShareFloor;
  knobClassShareFull; knobAutoDrainPeerRatio; knobWSDuplicateWindow;
  knobWSMaxConnectionsPerClient; knobWSDuplicateBudget; knobWSDuplicateMaxShare;
  knobWSDuplicateMinNotifications; knobBatchMaxPayloads; knobWSDenyMessage;
  knobBatchRejectMessage; knobBatchMaxConcurrency; knobRetryMaxRetries;
  knobRetryMaxLatency; knobHedgeDelay; knobRelayTimeout;
  knobMaxResponseMB; knobHealthCheckInterval; knobHealthCheckWorkers;
  knobPeerProbeMaxAge; knobMethodBlockTTL; knobMethodBlockClientTTL;
  knobMethodBlockEscalation; knobObservationSampleRate; knobSyncAllowance
].

Definition knobsByName : gmap string Knob := list_to_map (reverse ((λ k, (Name k, k)) <$> Knobs)).
Definition Lookup (name : string) : option Knob := knobsByName !! name.

Record Value := mkValue { Int : Z; Dur : Z; Float : f64; Raw : string }.
Inductive parseError :=
| UnknownKnob | ValueRequired | NotWhole | NotDuration | NotNumber | OutOfRange | MustContain (want : string).

(** [checkBounds]: whether the value is refused. *)
Definition outOfBounds (knob : Knob) (got : f64) : bool :=
  fltb got (of_int (Min knob)) || fltb (of_int (Max knob)) got.

Definition Parse (name raw : string) : parseError + Value :=
  match Lookup name with
  | None => inl UnknownKnob
  | Some knob =>
      let raw := TrimSpace raw in
      if bool_decide (raw = "") then inl ValueRequired
      else match KKind knob with
      | KindInt =>
          match Atoi raw with
          | None => inl NotWhole
          | Some n => if outOfBounds knob (of_int n) then inl OutOfRange
                      else inr (mkValue n 0 f0 raw)
          end
      | KindDuration =>
          match ParseDuration raw with
          | None => inl NotDuration
          | Some d => if outOfBounds knob (of_int (Milliseconds d)) then inl OutOfRange
                      else inr (mkValue 0 d f0 raw)
          end
      | KindFloat =>
          match ParseFloat raw with
          | None => inl NotNumber
          | Some f => if outOfBounds knob f then inl OutOfRange else inr (mkValue 0 0 f raw)
          end
      | KindString =>
          if outOfBounds knob (of_int (RuneCount (chars raw))) then inl OutOfRange
          else match List.find (λ want, match Index raw want with Some _ => false | None => true end) (Require_ knob) with
               | Some want => inl (MustContain want)
               | None => inr (mkValue 0 0 f0 raw)
               end
      end
  end.

#[global] Arguments Parse : simpl never.
#[global] Arguments Lookup : simpl never.

(** ** [tuning/store.go] *)
Record Override_ := mkOverride { OValue : Value; SetAt : Z }.

Record Store := mkStore {
  global : gmap string Override_;
  service : gmap string (gmap string Override_);
  persist : bool;
  hook : option Z;
  base : gmap string string;
  serviceBase : gmap string (gmap string string)
}.

Definition NewStore (persist : bool) : Store := mkStore ∅ ∅ persist None ∅ ∅.

Definition with_overrides (g : gmap string Override_) (sv : gmap string (gmap string Override_)) (s : Store) : Store :=
  mkStore g sv (persist s) (hook s) (base s) (serviceBase s).
Definition changed (s : Store) : Store :=
  mkStore (global s) (service s) (persist s) ((λ n, n + 1) <$> hook s) (base s) (serviceBase s).
Definition SetChangeHook (s : Store) : Store :=
  mkStore (global s) (service s) (persist s) (Some 0) (base s) (serviceBase s).

Definition overridePrefix : string := "tuning/".
Definition overrideKey (name serviceID : string) : string :=
  if bool_decide (serviceID = "") then overridePrefix +:+ name
  else overridePrefix +:+ (name +:+ ("/" +:+ serviceID)).

(** [==] on values: a NaN differs from itself. *)
Definition sameValue (a b : Value) : bool :=
  bool_decide (Int a = Int b) && bool_decide (Dur a = Dur b) && feqb (Float a) (Float b) &&
  bool_decide (Raw a = Raw b).

(** The loop body of [applyPersisted], which builds the two new maps. *)
Definition applyOne (now : Z) (prev : Store) (acc : gmap string Override_ * gmap string (gmap string Override_))
    (key raw : string) : gmap string Override_ * gmap string (gmap string Override_) :=
  let rest := Override.TrimPrefix key overridePrefix in
  let '(name, svc) := (Cut rest "/").1 in
  match Parse name raw with
  | inl _ => acc
  | inr value =>
      let setAt (p : option Override_) :=
        match p with
        | Some o => if sameValue (OValue o) value then SetAt o else now
        | None => now
        end in
      if bool_decide (svc = "")
      then (<[name := mkOverride value (setAt (global prev !! name))]> acc.1, acc.2)
      else (acc.1, insert2 acc.2 name svc (mkOverride value (setAt (lookup2 (service prev) name svc))))
  end.
(** [kvs] is the map in the order it is ranged over. *)
Definition applyPersisted (now : Z) (kvs : list (string * string)) (s : Store) : Store :=
  let acc := foldl (λ acc kv, applyOne now s acc kv.1 kv.2) (∅, ∅) kvs in
  changed (with_overrides acc.1 acc.2 s).

(** [lookup], which a nil store answers too. *)
Definition lookup (s : option Store) (name serviceID : string) : option Value :=
  match s with
  | None => None
  | Some s => match lookup2 (service s) name serviceID with
              | Some o => Some (OValue o)
              | None => OValue <$> global s !! name
              end
  end.
Definition String_ (s : option Store) (name serviceID base : string) : string :=
  match lookup s name serviceID with Some v => Raw v | None => base end.
Definition Int_ (s : option Store) (name serviceID : string) (base : Z) : Z :=
  match lookup s name serviceID with Some v => Int v | None => base end.
Definition Duration (s : option Store) (name serviceID : string) (base : Z) : Z :=
  match lookup s name serviceID with Some v => Dur v | None => base end.
Definition Float_ (s : option Store) (name serviceID : string) (base : f64) : f64 :=
  match lookup s name serviceID with Some v => Float v | None => base end.

(** The critical section of [Set]. *)
Definition setLocal (name serviceID : string) (o : Override_) (s : Store) : Store :=
  if bool_decide (serviceID = "") then with_overrides (<[name := o]> (global s)) (service s) s
  else with_overrides (global s) (insert2 (service s) name serviceID o) s.

(** The critical section of [Delete], and whether there was an override. *)
Definition deleteLocal (name serviceID : string) (s : Store) : bool * Store :=
  if bool_decide (serviceID = "")
  then (bool_decide (is_Some (global s !! name)), with_overrides (delete name (global s)) (service s) s)
  else (bool_decide (is_Some (lookup2 (service s) name serviceID)),
        with_overrides (global s) (prune2 (service s) name serviceID) s).

Inductive setError := ErrParse (e : parseError) | ErrNoStore | ErrNotPersisted.

Section Persisted.
Context {W : Type} `{!Override.Store W}.

Definition Set_ (s : option Store) (name serviceID raw : string) (now : Z)
    : M W (option setError * option Store) :=
  match Parse name raw with
  | inl err => mret (Some (ErrParse err), s)
  | inr value =>
      match s with
      | None => mret (Some ErrNoStore, None)
      | Some st =>
          ok ← (if persist st then Override.Set_ (overrideKey name serviceID) raw else mret true);
          mret (if (ok : bool)
                then (None, Some (changed (setLocal name serviceID (mkOverride value now) st)))
                else (Some ErrNotPersisted, s))
      end
  end.

(** A failed delete in the durable store is logged, and the override removed
    here all the same. *)
Definition Delete (s : option Store) (name serviceID : string) : M W (bool * option Store) :=
  match s with
  | None => mret (false, None)
  | Some st =>
      _ ← (if persist st then Override.Delete (overrideKey name serviceID) else mret true);
      let '(existed, st) := deleteLocal name serviceID st in
      mret (existed, Some (changed st))
  end.

Definition Persistent (s : option Store) : bool :=
  match s with Some st => persist st && Override.Shared | None => false end.
End Persisted.

(** *** What the admin API shows *)
Record KnobState := mkKnobState {
  SKnob : Knob; SGlobal : option Override_; SServices : gmap string Override_
}.
Definition bareKnob (name : string) : Knob := mkKnob name KindInt 0 0 "" [].
Definition All (s : option Store) : gmap string KnobState :=
  let out : gmap string KnobState := (λ k, mkKnobState k None ∅) <$> knobsByName in
  match s with
  | None => out
  | Some s =>
      let state (out : gmap string KnobState) name :=
        default (mkKnobState (bareKnob name) None ∅) (out !! name) in
      let out := map_fold (λ name o out,
        let st := state out name in <[name := mkKnobState (SKnob st) (Some o) (SServices st)]> out) out (global s) in
      map_fold (λ name os out,
        let st := state out name in <[name := mkKnobState (SKnob st) (SGlobal st) os]> out) out (service s)
  end.

Definition SetBase (name value : string) (s : Store) : Store :=
  mkStore (global s) (service s) (persist s) (hook s) (<[name := value]> (base s)) (serviceBase s).
Definition SetServiceBase (name serviceID value : string) (s : Store) : Store :=
  mkStore (global s) (service s) (persist s) (hook s) (base s) (insert2 (serviceBase s) name serviceID value).

Record ServiceEffective := mkSE { SEBase : string; SEValue : string; SEOverridden : bool }.
Record Effective := mkEff {
  EKnob : Knob; EBase : string; EValue : string; EOverridden : bool; EGlobal : option Override_;
  EOverrides : gmap string Override_; EServices : gmap string ServiceEffective
}.
Definition ServiceOverrides (s : Store) (name : string) : gmap string Override_ :=
  default ∅ (service s !! name).

Definition serviceEffective (s : Store) (name id : string) : ServiceEffective :=
  let b := default (default "" (base s !! name)) (lookup2 (serviceBase s) name id) in
  match lookup2 (service s) name id with
  | Some o => mkSE b (Raw (OValue o)) true
  | None => match global s !! name with
            | Some o => mkSE b (Raw (OValue o)) true
            | None => mkSE b b false
            end
  end.
Definition EffectiveFor (s : Store) (name : string) : option Effective :=
  knob ← Lookup name;
  let b := default "" (base s !! name) in
  let ids := dom (default ∅ (serviceBase s !! name)) ∪ dom (ServiceOverrides s name) in
  Some (mkEff knob b
    (match global s !! name with Some o => Raw (OValue o) | None => b end)
    (bool_decide (is_Some (global s !! name))) (global s !! name) (ServiceOverrides s name)
    (set_to_map (λ id, (id, serviceEffective s name id)) ids)).

(** ** Values and their bounds *)
Definition checkKnob (k : Knob) : bool :=
  bool_decide (0 <= Min k) && bool_decide (Max k < 2 ^ 53) && bool_decide (Min k <= Max k) &&
  match Index (Name k) "/" with None => true | Some _ => false end.

Lemma registry_checked : forallb checkKnob Knobs = true.
Proof. vm_compute. reflexivity. Qed.

Lemma Lookup_knob name k : Lookup name = Some k -> k ∈ Knobs /\ Name k = name.
Proof.
  unfold Lookup, knobsByName. intros H%elem_of_list_to_map_2. apply elem_of_reverse, list_elem_of_fmap in H as (k' & Heq & Hin).
  by simplify_eq.
Qed.

Lemma Lookup_checked name k :
  Lookup name = Some k -> 0 <= Min k <= Max k /\ Max k < 2 ^ 53 /\ Index name "/" = None.
Proof.
  intros [Hin <-]%Lookup_knob. pose proof registry_checked as Hc. rewrite forallb_forall in Hc.
  specialize (Hc k ltac:(by apply list_elem_of_In)). unfold checkKnob in Hc.
  rewrite !andb_true_iff, !bool_decide_eq_true in Hc. destruct (Index (Name k) "/"); naive_solver.
Qed.

(** An integer passes the bounds exactly when it lies between them. *)
Lemma outOfBounds_int name k n :
  Lookup name = Some k -> outOfBounds k (of_int n) = false <-> Min k <= n <= Max k.
Proof.
  intros (H1 & H2 & _)%Lookup_checked. unfold outOfBounds.
  rewrite !fltb_of_int by (unfold small; lia). rewrite orb_false_iff, !bool_decide_eq_false. lia.
Qed.
Lemma outOfBounds_float k x :
  outOfBounds k x = false -> is_nan x = true \/ (fleb (of_int (Min k)) x = true /\ fleb x (of_int (Max k)) = true).
Proof.
  unfold outOfBounds. rewrite orb_false_iff. intros [H1 H2]. destruct (is_nan x) eqn:Hx; [by left|right].
  split; apply fltb_false_fleb; auto using of_int_num.
Qed.

(** What an accepted value of a knob satisfies. *)
Definition accepted (k : Knob) (v : Value) : Prop :=
  match KKind k with
  | KindInt => Min k <= Int v <= Max k
  | KindDuration => Min k <= Milliseconds (Dur v) <= Max k
  | KindFloat => is_nan (Float v) = true \/
      (fleb (of_int (Min k)) (Float v) = true /\ fleb (Float v) (of_int (Max k)) = true)
  | KindString => Min k <= RuneCount (chars (Raw v)) <= Max k /\
      forall want, want ∈ Require_ k -> Index (Raw v) want <> None
  end.

Lemma Parse_accepted name raw v :
  Parse name raw = inr v -> exists k, Lookup name = Some k /\ accepted k v.
Proof.
  unfold Parse. destruct (Lookup name) as [k|] eqn:Hk; [|done]. case_bool_decide; [done|].
  intros H1. exists k. split; [done|]. unfold accepted. destruct (KKind k).
  - destruct (Atoi _) as [n|]; [|done]. destruct (outOfBounds _ _) eqn:Ho; [done|]. injection H1 as <-.
    by apply (outOfBounds_int name).
  - destruct (ParseDuration _) as [d|]; [|done]. destruct (outOfBounds _ _) eqn:Ho; [done|]. injection H1 as <-.
    by apply (outOfBounds_int name).
  - destruct (ParseFloat _) as [f|]; [|done]. destruct (outOfBounds _ _) eqn:Ho; [done|]. injection H1 as <-.
    by apply outOfBounds_float.
  - destruct (outOfBounds _ _) eqn:Ho; [done|]. destruct (List.find _ _) eqn:Hf; [done|]. injection H1 as <-.
    split; [by apply (outOfBounds_int name)|]. intros want Hw%list_elem_of_In. cbn [Raw].
    pose proof (List.find_none _ _ Hf want Hw) as Hn. cbv beta in Hn. by destruct (Index _ want).
Qed.

(** ** The overrides as one table *)
(** The override set on a knob for a service, or globally for no service. *)
Definition entry (g : gmap string Override_) (sv : gmap string (gmap string Override_)) (name id : string)
    : option Override_ := if bool_decide (id = "") then g !! name else lookup2 sv name id.

Lemma lookup_entry s name id :
  lookup (Some s) name id =
  match (if bool_decide (id = "") then lookup2 (service s) name "" else entry (global s) (service s) name id) with
  | Some o => Some (OValue o)
  | None => OValue <$> entry (global s) (service s) name ""
  end.
Proof. unfold lookup, entry. case_bool_decide; [by subst|done]. Qed.

Lemma entry_setLocal name id o s name' id' :
  entry (global (setLocal name id o s)) (service (setLocal name id o s)) name' id' =
  if decide (name = name' /\ id = id') then Some o else entry (global s) (service s) name' id'.
Proof.
  unfold setLocal, entry. destruct (decide (id = "")) as [->|Hid].
  - rewrite (bool_decide_eq_true_2 ("" = "")) by done. cbn. case_bool_decide as Hid'.
    + subst. rewrite lookup_insert. repeat case_decide; naive_solver.
    + case_decide; naive_solver.
  - rewrite (bool_decide_eq_false_2 (id = "")) by done. cbn. case_bool_decide as Hid'.
    + case_decide; naive_solver.
    + apply lookup2_insert2.
Qed.
Lemma entry_deleteLocal name id s name' id' :
  entry (global (deleteLocal name id s).2) (service (deleteLocal name id s).2) name' id' =
  if decide (name = name' /\ id = id') then None else entry (global s) (service s) name' id'.
Proof.
  unfold deleteLocal, entry. destruct (decide (id = "")) as [->|Hid].
  - rewrite (bool_decide_eq_true_2 ("" = "")) by done. cbn. case_bool_decide as Hid'.
    + subst. rewrite lookup_delete. repeat case_decide; naive_solver.
    + case_decide; naive_solver.
  - rewrite (bool_decide_eq_false_2 (id = "")) by done. cbn. case_bool_decide as Hid'.
    + case_decide; naive_solver.
    + apply lookup2_prune2.
Qed.

(** No override is filed under an empty service. *)
Definition named (sv : gmap string (gmap string Override_)) : Prop := forall name, lookup2 sv name "" = None.

Lemma named_setLocal name id o s : named (service s) -> named (service (setLocal name id o s)).
Proof.
  unfold setLocal, named. intros H n. case_bool_decide; cbn; [apply H|].
  rewrite lookup2_insert2. case_decide; [naive_solver|apply H].
Qed.
Lemma named_deleteLocal name id s : named (service s) -> named (service (deleteLocal name id s).2).
Proof.
  unfold deleteLocal, named. intros H n. case_bool_decide; cbn; [apply H|].
  rewrite lookup2_prune2. by case_decide.
Qed.

#[global] Arguments setLocal : simpl never.
#[global] Arguments deleteLocal : simpl never.
#[global] Arguments entry : simpl never.

(** What one persisted key contributes: the knob and service it names and the
    value it parses to. *)
Definition target (key : string) : string * string := (Cut (Override.TrimPrefix key overridePrefix) "/").1.
Lemma entry_applyOne now prev acc key raw name id :
  named acc.2 ->
  named (applyOne now prev acc key raw).2 /\
  match Parse (target key).1 raw with
  | inl _ => applyOne now prev acc key raw = acc
  | inr v => exists at_, entry (applyOne now prev acc key raw).1 (applyOne now prev acc key raw).2 name id =
      if decide (target key = (name, id)) then Some (mkOverride v at_) else entry acc.1 acc.2 name id
  end.
Proof.
  intros Hn. unfold applyOne. change (Cut (Override.TrimPrefix key overridePrefix) "/").1 with (target key).
  destruct (target key) as [n svc]. cbn [fst snd]. destruct (Parse n raw) as [e|v]; [done|].
  unfold entry. destruct (decide (svc = "")) as [->|Hs].
  - rewrite (bool_decide_eq_true_2 ("" = "")) by done. cbn [fst snd]. split; [done|]. eexists.
    case_bool_decide as Hid; [subst; rewrite lookup_insert|]; repeat case_decide; naive_solver.
  - rewrite (bool_decide_eq_false_2 (svc = "")) by done. cbn [fst snd]. split.
    + intros x. rewrite lookup2_insert2. case_decide; [naive_solver|apply Hn].
    + eexists. case_bool_decide as Hid; [|rewrite lookup2_insert2]; repeat case_decide; naive_solver.
Qed.

(** ** Histories of one replica: changes by an operator, and reloads of any
    content. *)
Inductive op :=
| OSet (name id raw : string) (now : Z)
| ODelete (name id : string)
| OApply (now : Z) (kvs : list (string * string)).

Section Histories.
Context {W : Type} `{!Override.Store W}.

Definition runOp (sw : Store * W) (o : op) : Store * W :=
  let '(s, w) := sw in
  match o with
  | OSet name id raw now => let r := Set_ (Some s) name id raw now w in (default s r.1.2, r.2)
  | ODelete name id => let r := Delete (Some s) name id w in (default s r.1.2, r.2)
  | OApply now kvs => (applyPersisted now kvs s, w)
  end.
Definition runOps (sw : Store * W) (os : list op) : Store * W := foldl runOp sw os.

(** The effect of an operation on the tables. *)
Lemma runOp_set s w name id raw now :
  let r := runOp (s, w) (OSet name id raw now) in
  r.1 = s \/ exists v, Parse name raw = inr v /\ r.1 = changed (setLocal name id (mkOverride v now) s).
Proof.
  cbn. unfold Set_. destruct (Parse name raw) as [e|v]; [by left|]. unfold mbind, M_bind.
  destruct (persist s); [destruct (Override.Set_ _ raw w) as [[] w']|]; cbn; eauto.
Qed.
Lemma runOp_delete s w name id :
  (runOp (s, w) (ODelete name id)).1 = changed (deleteLocal name id s).2.
Proof.
  cbn. unfold Delete, mbind, M_bind.
  destruct (persist s); [destruct (Override.Delete _ w) as [r w']|]; cbn; by destruct (deleteLocal name id s).
Qed.

(** Every override came out of [Parse] under the name it is filed under. *)
Definition parsed (g : gmap string Override_) (sv : gmap string (gmap string Override_)) : Prop :=
  named sv /\ forall name id o, entry g sv name id = Some o -> exists raw, Parse name raw = inr (OValue o).

Lemma parsed_empty : parsed ∅ ∅.
Proof.
  split; [intros n; apply lookup2_empty|]. intros n id o. unfold entry.
  case_bool_decide; rewrite ?lookup_empty, ?lookup2_empty; done.
Qed.
Lemma parsed_applied now s kvs acc :
  parsed acc.1 acc.2 ->
  let acc' := foldl (λ acc kv, applyOne now s acc kv.1 kv.2) acc kvs in parsed acc'.1 acc'.2.
Proof.
  revert acc. induction kvs as [|[key raw] kvs IH]; intros acc Hp; [done|]. cbn [foldl fst snd]. apply IH.
  destruct Hp as [Hn Hp]. split; [exact (proj1 (entry_applyOne now s acc key raw "" "" Hn))|].
  intros name id o. pose proof (entry_applyOne now s acc key raw name id Hn) as [_ He].
  destruct (Parse (target key).1 raw) as [e|v] eqn:Hv; [rewrite He; apply Hp|].
  destruct He as [at_ ->]. case_decide as Ht; [|apply Hp]. rewrite Ht in Hv. intros [= <-]. by exists raw.
Qed.

Lemma parsed_step sw o :
  parsed (global sw.1) (service sw.1) -> parsed (global (runOp sw o).1) (service (runOp sw o).1).
Proof.
  destruct sw as [s w]. cbn [fst]. intros [Hn Hp]. destruct o as [name id raw now|name id|now kvs].
  - destruct (runOp_set s w name id raw now) as [->|(v & Hv & ->)]; [done|]. cbn [changed global service].
    split; [by apply named_setLocal|]. intros name' id' o. rewrite entry_setLocal.
    case_decide as Hd; [|apply Hp]. destruct Hd as [<- <-]. intros [= <-]. by exists raw.
  - rewrite runOp_delete. cbn [changed global service]. split; [by apply named_deleteLocal|].
    intros name' id' o. rewrite entry_deleteLocal. case_decide; [done|apply Hp].
  - cbn. apply (parsed_applied now s kvs (∅, ∅)), parsed_empty.
Qed.

Lemma parsed_run sw os :
  parsed (global sw.1) (service sw.1) -> parsed (global (runOps sw os).1) (service (runOps sw os).1).
Proof.
  revert sw. induction os as [|o os IH]; intros sw Hsw; [done|]. apply IH. by apply parsed_step.
Qed.

(** Bounds: whatever operators submit, whatever the durable store holds or
    answers, and in whatever order changes and reloads come, a value in force
    is one the knob allows: an integer between its bounds, as integers, although
    the code compares them as floating-point numbers; a duration whose whole
    milliseconds are; a text of allowed length with every required
    placeholder; and a ratio between its bounds or not a number. *)
Theorem overrides_stay_in_bounds persist (w : W) os name id v :
  lookup (Some (runOps (NewStore persist, w) os).1) name id = Some v ->
  exists k, Lookup name = Some k /\ accepted k v.
Proof.
  destruct (parsed_run (NewStore persist, w) os) as [Hn Hp]; [apply parsed_empty|].
  rewrite lookup_entry. intros Hv.
  assert (Ho : exists id' o, entry (global (runOps (NewStore persist, w) os).1)
    (service (runOps (NewStore persist, w) os).1) name id' = Some o /\ OValue o = v).
  { destruct (decide (id = "")) as [->|Hid].
    - rewrite bool_decide_eq_true_2, Hn in Hv by done.
      destruct (entry _ _ name "") as [o|] eqn:He; [|done]. injection Hv as <-. by exists "", o.
    - rewrite bool_decide_eq_false_2 in Hv by done.
      destruct (entry _ _ name id) as [o|] eqn:He; [injection Hv as <-; by exists id, o|].
      destruct (entry _ _ name "") as [o|] eqn:He'; [|done]. injection Hv as <-. by exists "", o. }
  destruct Ho as (id' & o & He & <-). destruct (Hp _ _ _ He) as [raw Hr]. by eapply Parse_accepted.
Qed.
End Histories.

(** The bounds have gaps.  A duration is bounded by its whole
    milliseconds, which truncate towards zero: a negative one of less than a
    millisecond passes a minimum of 0.  A ratio is refused only if it compares
    below the minimum or above the maximum: NaN, which the grammar accepts,
    does neither. *)
Theorem knob_bounds_have_gaps :
  (exists v, Parse KnobHedgeDelay "-999us" = inr v /\ Dur v < 0 /\
     (Min <$> Lookup KnobHedgeDelay) = Some 0) /\
  (exists v, Parse KnobObservationSampleRate "NaN" = inr v /\ is_nan (Float v) = true).
Proof.
  split; eexists; split; [vm_compute; reflexivity| |vm_compute; reflexivity|reflexivity].
  split; [done|vm_compute; reflexivity].
Qed.

(** ** Across a restart *)
#[local] Abbreviation slashFree := (free "/"%char).

Lemma target_key name id : slashFree name -> target (overrideKey name id) = (name, id).
Proof.
  intros Hn. unfold target, overrideKey. case_bool_decide; rewrite Override.TrimPrefix_app.
  - subst. by rewrite Cut_free.
  - by rewrite (Cut_at "/").
Qed.
Lemma overrideKey_inj name id name' id' :
  slashFree name -> slashFree name' -> overrideKey name id = overrideKey name' id' -> name = name' /\ id = id'.
Proof.
  intros H H' Heq. pose proof (target_key name id H) as E. rewrite Heq, target_key in E by done.
  by injection E as -> ->.
Qed.
Lemma overrideKey_prefix name id : String.prefix overridePrefix (overrideKey name id) = true.
Proof. unfold overrideKey. case_bool_decide; apply prefix_app. Qed.

Lemma Parse_slashFree name raw v : Parse name raw = inr v -> slashFree name.
Proof. intros (k & (_ & _ & H)%Lookup_checked & _)%Parse_accepted. by apply index_None_free. Qed.

(** What a map of persisted texts says of a knob and a service. *)
Definition valueIn (m : string -> option string) (name id : string) : option Value :=
  match m (overrideKey name id) with
  | Some raw => match Parse name raw with inr v => Some v | inl _ => None end
  | None => None
  end.
(** Every key under the prefix is one an override is written under. *)
Definition tidy (m : string -> option string) : Prop :=
  forall k, String.prefix overridePrefix k = true -> is_Some (m k) ->
  exists name id, slashFree name /\ k = overrideKey name id.

(** The fold over the listed texts: the last word on a knob and a service is
    its own key's. *)
Lemma applied_fold now s name id kvs acc0 :
  slashFree name -> named acc0.2 -> NoDup kvs.*1 ->
  (forall k raw, (k, raw) ∈ kvs -> exists n i, slashFree n /\ k = overrideKey n i) ->
  let acc := foldl (λ acc kv, applyOne now s acc kv.1 kv.2) acc0 kvs in
  OValue <$> entry acc.1 acc.2 name id =
  match list_to_map (M := gmap string string) kvs !! overrideKey name id with
  | Some raw => match Parse name raw with
                | inr v => Some v
                | inl _ => OValue <$> entry acc0.1 acc0.2 name id
                end
  | None => OValue <$> entry acc0.1 acc0.2 name id
  end.
Proof.
  intros Hname. revert acc0. induction kvs as [|[k raw] l IH]; intros acc0 Hn0 Hnd Hk; [done|].
  cbn [foldl fst snd] in *. apply NoDup_cons in Hnd as [Hnin Hnd].
  destruct (Hk k raw) as (n & i & Hns & ->); [by left|].
  pose proof (entry_applyOne now s acc0 (overrideKey n i) raw name id Hn0) as [Hn1 He].
  rewrite IH; [|exact Hn1|exact Hnd|intros k' r' Hin; eapply Hk; right; exact Hin].
  rewrite target_key in He by done. cbn [fst] in He. cbn [list_to_map foldr].
  destruct (decide (overrideKey n i = overrideKey name id)) as [Heq|Hne].
  - destruct (overrideKey_inj _ _ _ _ Hns Hname Heq) as [-> ->]. cbn. rewrite lookup_insert_eq.
    rewrite not_elem_of_list_to_map_1 by done.
    destruct (Parse name raw) as [e|v]; [by rewrite He|]. destruct He as [at_ ->].
    by rewrite decide_True by done.
  - cbn. rewrite lookup_insert_ne by done.
    assert (Hsame : entry (applyOne now s acc0 (overrideKey n i) raw).1
      (applyOne now s acc0 (overrideKey n i) raw).2 name id = entry acc0.1 acc0.2 name id).
    { destruct (Parse n raw) as [e|v]; [by rewrite He|]. destruct He as [at_ ->].
      rewrite decide_False; [done|]. intros [= -> ->]. done. }
    by rewrite Hsame.
Qed.

(** A reload makes the overrides what the listed texts say, in whatever order
    they are visited and whatever was set before. *)
Lemma applied_entry now s (m : gmap string string) kvs name id :
  kvs ≡ₚ map_to_list m -> (forall k, is_Some (m !! k) -> exists n i, slashFree n /\ k = overrideKey n i) ->
  let acc := foldl (λ acc kv, applyOne now s acc kv.1 kv.2) (∅, ∅) kvs in
  slashFree name -> OValue <$> entry acc.1 acc.2 name id = valueIn (λ k, m !! k) name id.
Proof.
  intros Hperm Htidy acc Hname.
  unfold acc. rewrite applied_fold; [|done|..].
  - unfold valueIn. rewrite (list_to_map_proper kvs (map_to_list m)) by
      (done || rewrite Hperm; apply NoDup_fst_map_to_list).
    rewrite list_to_map_to_list. assert (Hz : entry ∅ ∅ name id = None).
    { unfold entry. case_bool_decide; rewrite ?lookup_empty, ?lookup2_empty; done. }
    cbn [fst snd]. rewrite Hz. destruct (m !! _); [|done]. by destruct (Parse _ _).
  - intros n. apply lookup2_empty.
  - rewrite Hperm. apply NoDup_fst_map_to_list.
  - intros k raw Hin. rewrite Hperm in Hin. apply elem_of_map_to_list in Hin. by apply Htidy; eauto.
Qed.

Section Restart.
Context {W : Type} `{!Override.Store W} (abs : W -> string -> option string) (Good : W -> Prop)
        (usable : string -> Prop) (Hlaws : Override.StoreLaws abs Good usable)
        (Huse : usable overridePrefix).
(** The order in which a map is ranged over. *)
Context (order : gmap string string -> list (string * string)) (Horder : forall m, order m ≡ₚ map_to_list m).

(** A replica: its store and what its watcher last applied. *)
Record Replica := mkReplica { store : Store; last : Override.watchState }.

Inductive step :=
| RSet (name id raw : string) (now : Z)
| RDelete (name id : string)
| RTick (fuel : nat) (now : Z).

(** One [tick] with [applyPersisted] as its apply function. *)
Definition tickReplica (fuel : nat) (now : Z) (rw : Replica * W) : Replica * W :=
  let '(r, w) := rw in
  let t := Override.tick fuel overridePrefix (last r) w in
  (mkReplica (match t.1.2 with Some m => applyPersisted now (order m) (store r) | None => store r end) t.1.1, t.2).
Definition runStep (rw : Replica * W) (st : step) : Replica * W :=
  match st with
  | RSet name id raw now => let sw := runOp (store rw.1, rw.2) (OSet name id raw now) in
                            (mkReplica sw.1 (last rw.1), sw.2)
  | RDelete name id => let sw := runOp (store rw.1, rw.2) (ODelete name id) in (mkReplica sw.1 (last rw.1), sw.2)
  | RTick fuel now => tickReplica fuel now rw
  end.
Definition validStep (st : step) : Prop :=
  match st with RDelete name _ => slashFree name | _ => True end.

(** The replica's overrides are what the durable store says. *)
Record Consistent (s : Store) (w : W) : Prop := {
  co_good : Good w;
  co_persist : persist s = true;
  co_parsed : parsed (global s) (service s);
  co_tidy : tidy (abs w);
  co_entry name id : slashFree name -> OValue <$> entry (global s) (service s) name id = valueIn (abs w) name id
}.

Lemma valueIn_ext m m' name id : (forall k, m k = m' k) -> valueIn m name id = valueIn m' name id.
Proof. intros H0. unfold valueIn. by rewrite H0. Qed.

Lemma set_consistent s w name id raw now :
  Consistent s w -> let sw := runOp (s, w) (OSet name id raw now) in Consistent sw.1 sw.2.
Proof.
  intros Hc. pose proof (parsed_step (s, w) (OSet name id raw now) (co_parsed _ _ Hc)) as Hp. revert Hp.
  cbn. unfold Set_. destruct (Parse name raw) as [e|v] eqn:Hv; [intros _; exact Hc|].
  unfold mbind, M_bind. rewrite (co_persist _ _ Hc).
  destruct (Override.set_law w (overrideKey name id) raw (co_good _ _ Hc)) as (H1 & H2 & H3).
  destruct (Override.Set_ (overrideKey name id) raw w) as [r w']. cbn in *. subst r. cbn.
  pose proof (Parse_slashFree _ _ _ Hv) as Hfree.
  intros Hp. split; [done|by unfold setLocal; case_bool_decide; apply Hc|done| |].
  - intros k Hk. rewrite H3. case_bool_decide as Hkey.
    + intros _. exists name, id. split; [exact Hfree|exact Hkey].
    + by apply Hc.
  - intros name' id' Hn'. cbn [changed global service]. rewrite entry_setLocal. unfold valueIn. rewrite H3. case_decide as Hd.
    + destruct Hd as [<- <-]. rewrite bool_decide_eq_true_2 by done. by rewrite Hv.
    + rewrite bool_decide_eq_false_2; [by apply Hc|]. intros Heq.
      apply overrideKey_inj in Heq as [-> ->]; tauto.
Qed.

Lemma delete_consistent s w name id :
  Consistent s w -> slashFree name -> let sw := runOp (s, w) (ODelete name id) in Consistent sw.1 sw.2.
Proof.
  intros Hc Hfree. pose proof (parsed_step (s, w) (ODelete name id) (co_parsed _ _ Hc)) as Hp. revert Hp.
  cbv zeta. rewrite runOp_delete. cbn. unfold Delete, mbind, M_bind. rewrite (co_persist _ _ Hc).
  destruct (Override.delete_law w (overrideKey name id) (co_good _ _ Hc)) as (H1 & H2 & H3).
  destruct (Override.Delete (overrideKey name id) w) as [r w']. cbn in *.
  assert (Hw : (let '(existed, st) := deleteLocal name id s in mret (existed, Some (changed st)) : M W _) w' =
    ((deleteLocal name id s).1, Some (changed (deleteLocal name id s).2), w')) by (by destruct (deleteLocal name id s)).
  rewrite Hw. cbn. intros Hp. split; [done|unfold deleteLocal; case_bool_decide; apply Hc|done| |].
  - intros k Hk. rewrite H3. case_bool_decide; [by intros [? ?]|]. by apply Hc.
  - intros name' id' Hn'. cbn [changed global service]. rewrite entry_deleteLocal. unfold valueIn. rewrite H3. case_decide as Hd.
    + destruct Hd as [<- <-]. by rewrite bool_decide_eq_true_2.
    + rewrite bool_decide_eq_false_2; [by apply Hc|]. intros Heq.
      apply overrideKey_inj in Heq as [-> ->]; tauto.
Qed.

Definition listingOf (w : W) (m : gmap string string) : Prop :=
  forall k, m !! k = if String.prefix overridePrefix k then abs w k else None.

Lemma tick_spec last w :
  Good w -> exists n, forall fuel,
    let t := Override.tick fuel overridePrefix last w in
    Good t.2 /\ (forall k, abs t.2 k = abs w k) /\
    if bool_decide (n <= fuel)%nat
    then exists m, listingOf w m /\ t.1 = if bool_decide (last = Some m) then (last, None) else (Some m, Some m)
    else t.1 = (last, None).
Proof.
  intros Hg. destruct (Override.list_law w overridePrefix Hg Huse) as [n Hn]. exists n. intros fuel.
  destruct (Hn fuel) as (H1 & H2 & H3). unfold Override.tick, mbind, M_bind.
  destruct (Override.List fuel overridePrefix w) as [r w']. cbn [fst snd] in *.
  case_bool_decide.
  - destruct H3 as (m & -> & Hm). case_bool_decide as Hl.
    + split_and!; [done|done|]. exists m. rewrite bool_decide_eq_true_2 by done. done.
    + split_and!; [done|done|]. exists m. rewrite bool_decide_eq_false_2 by done. done.
  - subst r. done.
Qed.

Lemma applied_consistent s w w' m now :
  Good w' -> (forall k, abs w' k = abs w k) -> tidy (abs w) -> persist s = true -> listingOf w m ->
  Consistent (applyPersisted now (order m) s) w'.
Proof.
  intros Hg Habs Htidy Hpers Hm. split; [done|done| | |].
  - apply (parsed_applied now s (order m) (∅, ∅)), parsed_empty.
  - intros k Hk. rewrite Habs. by apply Htidy.
  - intros name id Hn. cbn [applyPersisted changed with_overrides global service].
    rewrite (applied_entry now s m (order m)); [|by apply Horder| |done].
    + unfold valueIn. rewrite Hm, overrideKey_prefix. by rewrite Habs.
    + intros k. rewrite Hm. destruct (String.prefix overridePrefix k) eqn:Hk; [by apply Htidy|by intros [? ?]].
Qed.

Lemma step_consistent r w st :
  Consistent (store r) w -> validStep st ->
  Consistent (store (runStep (r, w) st).1) (runStep (r, w) st).2.
Proof.
  intros Hc Hv. destruct st as [name id raw now|name id|fuel now].
  - by apply set_consistent.
  - by apply delete_consistent.
  - cbn. destruct (tick_spec (last r) w (co_good _ _ Hc)) as [n Hn]. destruct (Hn fuel) as (H1 & H2 & H3).
    destruct (Override.tick fuel overridePrefix (last r) w) as [[l a] w']. cbn [fst snd] in *.
    assert (Hsame : Consistent (store r) w').
    { split; [done|apply Hc|apply Hc|intros k Hk; rewrite H2; by apply Hc|].
      intros name id Hn'. rewrite (valueIn_ext _ _ _ _ H2). by apply Hc. }
    case_bool_decide; [|by injection H3 as -> ->].
    destruct H3 as (m & Hm & Heq). case_bool_decide; injection Heq as -> ->; [done|].
    eapply applied_consistent; [done|done|apply Hc|apply Hc|done].
Qed.

Lemma consistent_lookup s w name id :
  Consistent s w ->
  lookup (Some s) name id =
  match (if bool_decide (id = "") then None else valueIn (abs w) name id) with
  | Some v => Some v
  | None => valueIn (abs w) name ""
  end.
Proof.
  intros Hc. rewrite lookup_entry. destruct (co_parsed _ _ Hc) as [Hn Hp]. rewrite Hn.
  assert (He : forall i, OValue <$> entry (global s) (service s) name i = valueIn (abs w) name i).
  { intros i. destruct (entry (global s) (service s) name i) as [o|] eqn:Ho.
    - destruct (Hp _ _ _ Ho) as [raw Hr]. rewrite <- Ho. apply (co_entry _ _ Hc). by eapply Parse_slashFree.
    - unfold valueIn. destruct (abs w (overrideKey name i)) as [raw|] eqn:Ha; [|done].
      destruct (Parse name raw) as [|v] eqn:Hv; [done|].
      pose proof (co_entry _ _ Hc name i (Parse_slashFree _ _ _ Hv)) as Hx. rewrite Ho in Hx.
      unfold valueIn in Hx. by rewrite Ha, Hv in Hx. }
  rewrite <- !He. case_bool_decide; [done|]. by destruct (entry _ _ name id).
Qed.

(** Round trip across a restart: whatever one replica's operator sets and
    removes, with its watcher polling in between, a process that starts with no
    overrides reads them back on its first poll, which always applies, and
    resolves every knob for every service to the same value.  It holds for
    every store that keeps the interface's laws, and so for both
    implementations. *)
Theorem overrides_survive_restart w0 steps :
  Good w0 -> (forall k, String.prefix overridePrefix k = true -> abs w0 k = None) -> Forall validStep steps ->
  let rw := foldl runStep (mkReplica (NewStore true) None, w0) steps in
  exists n, forall fuel now, (n <= fuel)%nat ->
  forall name id,
    lookup (Some (store (tickReplica fuel now (mkReplica (NewStore true) None, rw.2)).1)) name id =
    lookup (Some (store rw.1)) name id.
Proof.
  intros Hg Hempty Hsteps rw.
  assert (Hc : Consistent (store rw.1) rw.2).
  { assert (H0 : Consistent (NewStore true) w0).
    { split; [done|done|apply parsed_empty| |].
      - intros k Hk. rewrite Hempty by done. by intros [? ?].
      - intros name id _. unfold valueIn. rewrite Hempty by apply overrideKey_prefix.
        unfold entry. case_bool_decide; cbn; rewrite ?lookup_empty, ?lookup2_empty; done. }
    unfold rw. clear rw. change (NewStore true) with (store (mkReplica (NewStore true) None)) in H0 at 1.
    revert H0. generalize (mkReplica (NewStore true) None) w0.
    induction Hsteps as [|st steps Hv _ IH]; intros r w Hc; [done|]. cbn [foldl].
    pose proof (step_consistent r w st Hc Hv) as Hc'. destruct (runStep (r, w) st) as [r' w']. by apply IH. }
  destruct (tick_spec None rw.2 (co_good _ _ Hc)) as [n Hn]. exists n. intros fuel now Hf name id.
  destruct (Hn fuel) as (H1 & H2 & H3). rewrite bool_decide_eq_true_2 in H3 by done.
  destruct H3 as (m & Hm & Heq). rewrite bool_decide_eq_false_2 in Heq by done.
  unfold tickReplica. cbn [last store]. rewrite Heq. cbn [fst snd store].
  rewrite (consistent_lookup _ rw.2); [symmetry; by apply consistent_lookup|].
  eapply applied_consistent; [apply Hc|done|apply Hc|done|done].
Qed.

(** Polling a store whose listing is the one last applied changes nothing. *)
Lemma quiet_ticks r w m ticks :
  Good w -> last r = Some m -> listingOf w m ->
  let rw := foldl (λ rw ft, tickReplica ft.1 ft.2 rw) (r, w) ticks in
  store rw.1 = store r /\ (forall k, abs rw.2 k = abs w k).
Proof.
  revert r w. induction ticks as [|[fuel now] ticks IH]; intros r w Hg Hl Hm; [done|]. cbn [foldl fst snd].
  unfold tickReplica at 2 4. rewrite Hl. destruct (tick_spec (Some m) w Hg) as [n Hn].
  destruct (Hn fuel) as (H1 & H2 & H3).
  assert (Ht : (Override.tick fuel overridePrefix (Some m) w).1 = (Some m, None)).
  { case_bool_decide; [|done]. destruct H3 as (m' & Hm' & ->).
    assert (m' = m) as -> by (apply map_eq; intros k; by rewrite Hm, Hm'). by rewrite bool_decide_eq_true_2. }
  destruct (Override.tick fuel overridePrefix (Some m) w) as [la w']. cbn [fst snd] in *. subst la. cbn [fst snd].
  destruct (IH (mkReplica (store r) (Some m)) w') as [-> Ha]; [done|done| |].
  - intros k. rewrite H2. apply Hm.
  - split; [done|]. intros k. by rewrite Ha.
Qed.

(** A change that is taken back elsewhere between two polls is missed.
    The watcher applies what it lists when it differs from what it last
    applied, and a local change does not touch what it remembers: when an
    override set on this replica is removed through another one before this
    replica polls, the listing is the remembered one again, and this replica
    keeps the override in force for any number of polls while the durable
    store, and so every other replica, has none. *)
Theorem change_undone_elsewhere_is_missed r w m name id raw v now sB ticks :
  Good w -> last r = Some m -> listingOf w m -> persist (store r) = true -> persist sB = true ->
  id <> "" -> Parse name raw = inr v -> abs w (overrideKey name id) = None ->
  let a := runStep (r, w) (RSet name id raw now) in
  let b := Delete (Some sB) name id a.2 in
  let rw := foldl (λ rw ft, tickReplica ft.1 ft.2 rw) (a.1, b.2) ticks in
  lookup (Some (store rw.1)) name id = Some v /\ abs rw.2 (overrideKey name id) = None.
Proof.
  intros Hg Hl Hm Hpa Hpb Hid Hv Hnone a b rw.
  destruct (Override.set_law w (overrideKey name id) raw Hg) as (S1 & S2 & S3).
  assert (Ha : a = (mkReplica (changed (setLocal name id (mkOverride v now) (store r))) (Some m),
                    (Override.Set_ (overrideKey name id) raw w).2)).
  { unfold a. cbn. unfold Set_, mbind, M_bind. rewrite Hv, Hpa, <- Hl.
    destruct (Override.Set_ (overrideKey name id) raw w) as [ok w']. cbn in *. by subst ok. }
  destruct (Override.delete_law a.2 (overrideKey name id)) as (D1 & D2 & D3); [by rewrite Ha|].
  assert (Hb : b.2 = (Override.Delete (overrideKey name id) a.2).2).
  { unfold b, Delete, mbind, M_bind. rewrite Hpb.
    destruct (Override.Delete (overrideKey name id) a.2) as [ok w']. by destruct (deleteLocal name id sB). }
  rewrite <- Hb in D2, D3.
  assert (Hback : forall k, abs b.2 k = abs w k).
  { intros k. rewrite D3, Ha, S3. case_bool_decide; [by subst|done]. }
  destruct (quiet_ticks a.1 b.2 m ticks) as [Hst Habs]; [done|by rewrite Ha| |].
  { intros k. rewrite Hback. apply Hm. }
  fold rw in Hst, Habs. rewrite Hst, Habs, Hback. split; [|done].
  rewrite Ha, lookup_entry, bool_decide_eq_false_2 by done. cbn [changed global service fst store].
  rewrite entry_setLocal, decide_True by (split; reflexivity). reflexivity.
Qed.
End Restart.

(** What the admin API reports as in force is what readers resolve: every
    service with an override or a base of its own is listed, with the value a
    reader passing that base gets and the right word on whether it is
    overridden; the global answer is what a service with no override of its own
    gets. *)
Theorem effective_matches_lookup s name eff :
  EffectiveFor s name = Some eff ->
  (forall id, is_Some (EServices eff !! id) <->
     is_Some (lookup2 (serviceBase s) name id) \/ is_Some (lookup2 (service s) name id)) /\
  (forall id se, EServices eff !! id = Some se ->
     SEValue se = String_ (Some s) name id (SEBase se) /\
     (SEOverridden se = true <-> is_Some (lookup (Some s) name id))) /\
  (forall id, lookup2 (service s) name id = None ->
     EValue eff = String_ (Some s) name id (EBase eff) /\
     (EOverridden eff = true <-> is_Some (lookup (Some s) name id))).
Proof.
  unfold EffectiveFor. destruct (Lookup name) as [k|]; [|done]. intros [= <-].
  cbn [EServices EValue EBase EOverridden].
  assert (Hdom : forall A (m : gmap string (gmap string A)) id,
    id ∈ dom (default ∅ (m !! name)) <-> is_Some (lookup2 m name id))
    by (intros; by rewrite elem_of_dom, lookup2_default).
  set (ids := dom _ ∪ dom _).
  assert (Hset : forall id se,
    (set_to_map (λ id, (id, serviceEffective s name id)) ids : gmap string ServiceEffective) !! id = Some se <->
    id ∈ ids /\ se = serviceEffective s name id).
  { intros id se. rewrite lookup_set_to_map by done. naive_solver. }
  split_and!.
  - intros id. rewrite <- !Hdom, <- elem_of_union.
    split; [by intros [se [Hin _]%Hset]|]. intros Hin. eexists. by apply Hset.
  - intros id se [_ ->]%Hset. unfold String_, lookup, serviceEffective.
    destruct (lookup2 (service s) name id); [by split|]. destruct (global s !! name); [by split|].
    cbn. split; [done|]. split; [done|by intros [? ?]].
  - intros id Hid. unfold String_, lookup. rewrite Hid. destruct (global s !! name); cbn; [by split|].
    split; [done|]. split; [done|by intros [? ?]].
Qed.

(** ** Witnesses *)
Definition demoSteps : list step :=
  [RSet KnobRetryMaxRetries "eth" " 3 " 7; RTick 1 8; RSet KnobHedgeDelay "" "250ms" 9; RDelete KnobHedgeDelay ""].

Lemma overrides_stay_in_bounds_witness :
  exists k, Lookup KnobRetryMaxRetries = Some k /\ accepted k (mkValue 3 0 f0 "3").
Proof.
  apply (overrides_stay_in_bounds true (∅ : Override.MemoryStore) [OSet KnobRetryMaxRetries "eth" " 3 " 7]
    KnobRetryMaxRetries "eth"). vm_compute. reflexivity.
Defined.

Lemma overrides_survive_restart_witness :
  exists n, forall fuel now, (n <= fuel)%nat ->
    lookup (Some (store (tickReplica map_to_list fuel now (mkReplica (NewStore true) None,
      (foldl (runStep map_to_list) (mkReplica (NewStore true) None, ∅ : Override.MemoryStore) demoSteps).2)).1))
      KnobRetryMaxRetries "eth" = Some (mkValue 3 0 f0 "3").
Proof.
  destruct (overrides_survive_restart _ _ _ Override.memory_laws I map_to_list (λ m, reflexivity _)
    (∅ : gmap string string) demoSteps) as [n Hn].
  - done.
  - intros k _. apply lookup_empty.
  - repeat constructor; vm_compute; repeat split; discriminate.
  - exists n. intros fuel now Hf. etrans; [apply (Hn fuel now Hf)|]. vm_compute. reflexivity.
Defined.

Lemma change_undone_elsewhere_is_missed_witness :
  let a := runStep map_to_list (mkReplica (NewStore true) (Some ∅), ∅ : Override.MemoryStore)
             (RSet KnobRetryMaxRetries "eth" "3" 7) in
  let b := Delete (Some (NewStore true)) KnobRetryMaxRetries "eth" a.2 in
  lookup (Some (store (foldl (λ rw ft, tickReplica map_to_list ft.1 ft.2 rw) (a.1, b.2) [(1%nat, 8); (1%nat, 9)]).1))
    KnobRetryMaxRetries "eth" = Some (mkValue 3 0 f0 "3").
Proof.
  apply (change_undone_elsewhere_is_missed _ _ _ Override.memory_laws I map_to_list
    (mkReplica (NewStore true) (Some ∅)) (∅ : gmap string string) ∅ KnobRetryMaxRetries "eth" "3" (mkValue 3 0 f0 "3") 7
    (NewStore true)); try done.
  - intros k. rewrite lookup_empty. by destruct (String.prefix overridePrefix k).
Defined.

Lemma effective_matches_lookup_witness :
  let s := setLocal KnobRetryMaxRetries "eth" (mkOverride (mkValue 3 0 f0 "3") 7)
             (SetBase KnobRetryMaxRetries "1" (NewStore false)) in
  match EffectiveFor s KnobRetryMaxRetries with
  | Some eff => SEValue <$> EServices eff !! "eth" = Some "3" /\ EValue eff = "1"
  | None => False
  end.
Proof.
  cbv zeta. set (s := setLocal _ _ _ _). destruct (EffectiveFor s KnobRetryMaxRetries) as [eff|] eqn:He.
  2:{ revert He. vm_compute. discriminate. }
  destruct (effective_matches_lookup s KnobRetryMaxRetries eff He) as (H1 & H2 & H3). split.
  - destruct (EServices eff !! "eth") as [se|] eqn:Hse.
    + simpl. f_equal. rewrite (proj1 (H2 _ _ Hse)). vm_compute. reflexivity.
    + exfalso. destruct (proj2 (H1 "eth")) as [x Hx]; [right; vm_compute; eauto|congruence].
  - rewrite (proj1 (H3 "bsc" eq_refl)). revert He. vm_compute. by intros [= <-].
Defined.
End Tuning.
