(* ===== verification/RelayErrors.v ===== *)
(** * RelayErrors: the errors and verdicts a relay attempt ends with

    Models [domain/errors.go] and [heuristic/result.go]: the typed errors with
    the chain of causes that [errors.Is] and [errors.As] walk, and the verdict
    the response heuristics attach to an answer.  An error is a value of
    [error]; a Go error that may be nil is an [option error].  An error made
    outside these files keeps its message and what it wraps. *)

From stdpp Require Import strings pretty.
From S2P Require Import Prelude Float64.

Module RelayErrors.

(** ** [domain/errors.go] *)
Inductive ErrorKind :=
  | ErrTransport | ErrProtocol | ErrEndpoint | ErrRateLimit | ErrValidation | ErrCapability
  | OtherKind (n : Z).

(** The package-level values made with [errors.New], compared by identity: those
    of this file, [errHedgeRuledOut] of [relay/middleware/endpoint.go], and the
    two a finished [context.Context] reports. *)
Inductive sentinel :=
  | ErrRetryVerdict | ErrEndpointsStale | ErrResponseTooLarge | ErrRPCTypeUnsupported
  | errHedgeRuledOut | Canceled | DeadlineExceeded.

(** The errors of [net], [crypto/tls], [crypto/x509] and the WebSocket library
    the heuristics tell apart. *)
Inductive netShape :=
  | OpError (Op : string) | DNSError | TLSError | CloseError (Code : Z) (Text : string) | OtherNet.

(** [NetError]'s [Timeout] is what the method of that name answers, of an error
    that is a [net.Error]. *)
Inductive error :=
  | Sentinel (s : sentinel)
  | RelayError (Kind : ErrorKind) (Message : string) (Cause : option error) (Retryable : bool)
  | ConnectError (Cause : error)
  | UpstreamStatusError (Status : Z) (Body : string)
  | MinerError (Codespace : string) (Code : Z) (Message : string)
  | NetError (shape : netShape) (Timeout : option bool) (text : string) (wrapped : option error)
  | OtherError (text : string) (wrapped : option error).

#[export] Instance sentinel_eq_dec : EqDecision sentinel.
Proof. solve_decision. Defined.

Definition NewRelayError (kind : ErrorKind) (msg : string) (cause : option error) (retryable : bool)
    : error := RelayError kind msg cause retryable.

Definition UpstreamBodyMax : Z := 2048.

Definition KindString (k : ErrorKind) : string :=
  match k with
  | ErrTransport => "transport error"
  | ErrProtocol => "protocol error"
  | ErrEndpoint => "endpoint error"
  | ErrRateLimit => "rate limited"
  | ErrValidation => "invalid request"
  | ErrCapability => "unsupported capability"
  | OtherKind _ => "relay error"
  end.

(** [errors.Is] against a sentinel: the error itself, then what it unwraps to. *)
Fixpoint errorIs (e : error) (s : sentinel) : bool :=
  match e with
  | Sentinel s' => bool_decide (s' = s)
  | RelayError _ _ c _ => match c with Some c => errorIs c s | None => false end
  | ConnectError c => errorIs c s
  | UpstreamStatusError _ _ | MinerError _ _ _ => false
  | NetError _ _ _ c | OtherError _ c => match c with Some c => errorIs c s | None => false end
  end.
Definition Is (e : option error) (s : sentinel) : bool :=
  match e with Some e => errorIs e s | None => false end.

(** [errors.As] with a [*RelayError] target: the kind and message of the first
    one on the chain. *)
Fixpoint asRelayError (e : error) : option (ErrorKind * string) :=
  match e with
  | RelayError k m _ _ => Some (k, m)
  | ConnectError c => asRelayError c
  | NetError _ _ _ c | OtherError _ c => match c with Some c => asRelayError c | None => None end
  | Sentinel _ | UpstreamStatusError _ _ | MinerError _ _ _ => None
  end.
Definition As (e : option error) : option (ErrorKind * string) :=
  match e with Some e => asRelayError e | None => None end.

Definition ClientMessage (err : option error) : string :=
  match err with
  | None => ""
  | Some _ =>
      match As err with
      | Some (k, msg) =>
          if negb (bool_decide (msg = "")) then KindString k +:+ ": " +:+ msg else "relay failed"
      | None => "relay failed"
      end
  end.

(** What [errors.As] walks: the error, then what it unwraps to. *)
Fixpoint chain (e : error) : list error :=
  e :: match e with
       | RelayError _ _ (Some c) _ | ConnectError c | NetError _ _ _ (Some c)
       | OtherError _ (Some c) => chain c
       | _ => []
       end.
Definition firstOf {A} (f : error -> option A) (e : option error) : option A :=
  match e with Some e => head (omap f (chain e)) | None => None end.
Definition asUpstream : option error -> option (Z * string) :=
  firstOf (λ e, match e with UpstreamStatusError st b => Some (st, b) | _ => None end).
Definition asMiner : option error -> option (string * Z * string) :=
  firstOf (λ e, match e with MinerError cs c m => Some (cs, c, m) | _ => None end).
Definition asConnect : option error -> option error :=
  firstOf (λ e, match e with ConnectError c => Some c | _ => None end).
Definition asClose : option error -> option (Z * string * string) :=
  firstOf (λ e, match e with NetError (CloseError c t) _ txt _ => Some (c, t, txt) | _ => None end).
Definition asOp : option error -> option string :=
  firstOf (λ e, match e with NetError (OpError op) _ _ _ => Some op | _ => None end).
Definition asDNS : option error -> option unit :=
  firstOf (λ e, match e with NetError DNSError _ _ _ => Some tt | _ => None end).
Definition asTLS : option error -> option unit :=
  firstOf (λ e, match e with NetError TLSError _ _ _ => Some tt | _ => None end).
(** [errors.As] with a [net.Error] target: what its [Timeout] answers.
    [context.DeadlineExceeded] is one. *)
Definition asTimeout : option error -> option bool :=
  firstOf (λ e, match e with NetError _ t _ _ => t | Sentinel DeadlineExceeded => Some true | _ => None end).

(** ** The [Error] methods *)
Definition FormatInt (n : Z) : string := pretty n.
Definition sentinelText (s : sentinel) : string :=
  match s with
  | ErrRetryVerdict => "heuristic verdict: retry"
  | ErrEndpointsStale => "endpoints stale: session rolled over"
  | ErrResponseTooLarge => "upstream response too large"
  | ErrRPCTypeUnsupported => "rpc type not declared by service"
  | errHedgeRuledOut => "hedge: every endpoint left for it is ruled out"
  | Canceled => "context canceled"
  | DeadlineExceeded => "context deadline exceeded"
  end.
Fixpoint Error (e : error) : string :=
  match e with
  | Sentinel s => sentinelText s
  | RelayError _ msg (Some c) _ => msg +:+ ": " +:+ Error c
  | RelayError _ msg None _ => msg
  | ConnectError c => "no connection to host: " +:+ Error c
  | UpstreamStatusError st _ => "relay miner answered HTTP " +:+ FormatInt st
  | MinerError cs c m => "relay miner reported " +:+ cs +:+ "/" +:+ FormatInt c +:+ ": " +:+ m
  | NetError _ _ txt _ | OtherError txt _ => txt
  end.

(** A type assertion, not [errors.As]: only the outermost error counts. *)
Definition IsRetryable (e : option error) : bool :=
  match e with Some (RelayError _ _ _ r) => r | _ => false end.

(** ** [heuristic/result.go] *)
Inductive ErrorAttribution :=
  | AttrUnknown | AttrSupplier | AttrBlockchain | AttrClient.

#[export] Instance attribution_eq_dec : EqDecision ErrorAttribution.
Proof. solve_decision. Defined.

Definition SeverityNone : string := "".
Definition SeverityMinor : string := "minor".
Definition SeverityMajor : string := "major".
Definition SeverityCritical : string := "critical".
Definition SeverityFatal : string := "fatal".

Record AnalysisResult := mkAnalysis {
  ShouldRetry : bool; ShouldCircuitBreak : bool; ShouldPenalize : bool;
  PenaltySeverity : string; Attribution : ErrorAttribution; Confidence : f64;
  Reason : string; Details : string; MethodBlocking : bool; HeadLag : Z; HTTPStatus : Z
}.

Definition ReasonRefusedRecent : string := "refused_recent".
Definition ReasonStaleResponse : string := "stale_response".
Definition ReasonInvalidResult : string := "invalid_result".
Definition ReasonLightMethodError : string := "light_method_error".
Definition ReasonSuccess : string := "success".
Definition ReasonBlockchainError : string := "blockchain_error".
Definition ReasonFutureBlock : string := "future_block".
Definition ReasonRateLimited : string := "rate_limited".
Definition ReasonQuotaExceeded : string := "quota_exceeded".

Definition supplierMajor (confidence : f64) (reason details : string) (lag : Z) : AnalysisResult :=
  mkAnalysis true false true SeverityMajor AttrSupplier confidence reason details false lag 0.

Definition RefusedRecent (details : string) : AnalysisResult :=
  supplierMajor (lit 9 10) ReasonRefusedRecent details 0.
(** [Sprintf] stands for the rendering of the lag. *)
Definition StaleResponse (Sprintf : Z -> string) (lag : Z) : AnalysisResult :=
  supplierMajor (lit 9 10) ReasonStaleResponse (Sprintf lag) lag.
Definition InvalidResult (details : string) : AnalysisResult :=
  supplierMajor (lit 95 100) ReasonInvalidResult details 0.
Definition LightMethodError (prev : AnalysisResult) : AnalysisResult :=
  supplierMajor (lit 9 10) ReasonLightMethodError
    ("error on a call a working node always answers: " +:+ Details prev) 0.
Definition FutureBlock (prev : AnalysisResult) (detail : string) : AnalysisResult :=
  mkAnalysis (ShouldRetry prev) (ShouldCircuitBreak prev) (ShouldPenalize prev)
    (PenaltySeverity prev) (Attribution prev) (Confidence prev) ReasonFutureBlock
    (detail +:+ ": " +:+ Details prev) (MethodBlocking prev) (HeadLag prev) (HTTPStatus prev).
Definition IsSuccess (r : AnalysisResult) : bool := bool_decide (Reason r = ReasonSuccess).
Definition successResult : AnalysisResult :=
  mkAnalysis false false false SeverityNone AttrClient (lit 1 1) ReasonSuccess "valid response"
    false 0 0.

(** A verdict that penalizes does so for the supplier's fault, or lightly for
    nobody's. *)
Definition fair (v : AnalysisResult) : Prop :=
  ShouldPenalize v = true ->
  Attribution v = AttrSupplier \/ (Attribution v = AttrUnknown /\ PenaltySeverity v = SeverityMinor).

(** A retryable error carries a retryable outermost [RelayError]. *)
Lemma retryable_inv e : IsRetryable e = true -> exists k m c, e = Some (RelayError k m c true).
Proof. destruct e as [[]|]; simpl; intros; simplify_eq. by eexists _, _, _. Qed.

Lemma Is_some e s : Is e s = true -> e <> None.
Proof. by destruct e. Qed.
End RelayErrors.
