(* ===== verification/Heuristic.v ===== *)
(** * Heuristic: the verdict on an answer or a failure

    Models [heuristic/]: what [fold.go], [structural.go], [indicators.go],
    [overserved.go], [protocol.go], [analyzer.go], [grpc.go], [frame.go] and
    [transport.go] make of a response body, an HTTP status, a gRPC status or a
    transport error.  A body is a Go byte slice, here a [string].

    JSON is read with [tidwall/gjson], which is not part of the repository: its
    operations are the fields of [Gjson].  [strings.ToLower] is a parameter
    too, since an error message is text in any script. *)

From Stdlib Require Import Ascii.
From stdpp Require Import strings pretty.
From S2P Require Import Prelude Float64 Domain Text Strconv RelayErrors.
Import GoStrings RelayErrors.

Module Heuristic.

(** ** [fold.go] *)
Definition ContainsAnyOf (s : string) (substrs : list string) : bool :=
  existsb (GoText.Contains s) substrs.

Fixpoint matchFoldAt (haystack needle : string) : bool :=
  match needle, haystack with
  | EmptyString, _ => true
  | String _ _, EmptyString => false
  | String n needle, String c haystack =>
      bool_decide (GoText.lowerChar c = n) && matchFoldAt haystack needle
  end.
Fixpoint containsFold (haystack needle : string) : bool :=
  match needle with
  | EmptyString => true
  | String _ _ =>
      matchFoldAt haystack needle ||
      match haystack with EmptyString => false | String _ haystack => containsFold haystack needle end
  end.

(** ** [structural.go] *)
Definition IsEmpty (body : string) : bool := bool_decide (GoText.TrimSpace body = "").
Definition htmlPrefixes : list string := ["<!DOCTYPE"; "<!doctype"; "<html"; "<HTML"].
Definition jsonStart (trimmed : string) : bool :=
  bool_decide (upto 1 trimmed = "{") || bool_decide (upto 1 trimmed = "[").
Definition IsHTML (body : string) : bool :=
  let trimmed := GoText.TrimSpace body in
  if bool_decide (trimmed = "") then false
  else if jsonStart trimmed then false
  else if existsb (λ p, String.prefix p trimmed) htmlPrefixes then true
  else let trimmed := upto 500 trimmed in
       containsFold trimmed "<html" && containsFold trimmed "</html".
Definition IsPlainText (body : string) : bool :=
  let trimmed := GoText.TrimSpace body in
  if bool_decide (trimmed = "") then false
  else if jsonStart trimmed then false
  else if bool_decide (upto 1 trimmed = "<") then false
  else true.

(** ** [overserved.go] *)
Definition overServedPatterns : list string :=
  ["offchain rate limit hit by relayer proxy"; "session relay limit reached";
   "claimable portion fully consumed"].
Definition IsOverServiced (body : string) : bool :=
  if bool_decide (body = "") then false
  else existsb (containsFold (upto 2048 body)) overServedPatterns.
Definition ReasonOverServiced : string := "over_serviced".
Definition overServicedResult : AnalysisResult :=
  mkAnalysis true false false SeverityNone AttrClient (lit 95 100) ReasonOverServiced
    "supplier rejected: per-session relay allocation consumed (protocol-correct)" false 0 0.
Definition MinerOverServiced (codespace : string) (code : Z) (message : string) : bool :=
  (bool_decide (codespace = "relayer_proxy") && bool_decide (code = 7)) || IsOverServiced message.

(** ** gjson *)
Inductive jsonType := Null | False_ | Number | String_ | True_ | JSON.
#[export] Instance jsonType_eq_dec : EqDecision jsonType.
Proof. solve_decision. Defined.

(** A [gjson.Result] with what the package asks of it; [members] is what
    [ForEach] visits. *)
Record Gjson := mkGjson {
  Result : Type;
  ValidBytes : string -> bool;
  ParseBytes : string -> Result;
  Get : Result -> string -> Result;
  Exists : Result -> bool;
  Type_ : Result -> jsonType;
  Int : Result -> Z;
  StringOf : Result -> string;
  Str : Result -> string;
  members : Result -> list Result
}.

(** ** [indicators.go] *)
Record indicator := mkIndicator {
  pattern : string; attribution : ErrorAttribution; severity : string; reason : string;
  methodBlocking : bool
}.
#[local] Abbreviation chain_ p r := (mkIndicator p AttrBlockchain SeverityNone r false).
#[local] Abbreviation unserved p r := (mkIndicator p AttrBlockchain SeverityNone r true).
#[local] Abbreviation broken p s r := (mkIndicator p AttrSupplier s r false).
Definition indicators : list indicator := [
  chain_ "missing trie node" "missing_trie_node";
  chain_ "node is unhealthy" "node_unhealthy";
  chain_ "block not found" "block_not_found";
  chain_ "header not found" "header_not_found";
  chain_ "state not available" "state_not_available";
  chain_ "pruned state" "pruned_state";
  chain_ "metadata is not found" "pbss_pruned_state";
  chain_ "historical state" "historical_state";
  chain_ "state has been pruned" "state_pruned";
  chain_ "block has been pruned" "block_pruned";
  chain_ "has been pruned" "pruned";
  chain_ "is pruned" "pruned";
  chain_ "no state available for block" "state_not_available";
  chain_ "no state found for block" "state_not_available";
  chain_ "height is not available" "height_not_available";
  chain_ "lowest height is" "height_not_available";
  chain_ "haven't been fully indexed" "not_indexed";
  chain_ "not been fully indexed" "not_indexed";
  unserved "lite fullnode" "lite_fullnode";
  unserved "api is not supported" "api_not_supported";
  unserved "indexing is disabled" "indexing_disabled";
  chain_ "excluded from account secondary indexes" "account_index_excluded";
  broken "connection refused" SeverityCritical "connection_refused";
  broken "connection reset" SeverityCritical "connection_reset";
  broken "timeout" SeverityMajor "timeout";
  broken "bad gateway" SeverityCritical "bad_gateway";
  broken "service unavailable" SeverityCritical "service_unavailable";
  broken "gateway timeout" SeverityCritical "gateway_timeout";
  broken "502 bad gateway" SeverityCritical "bad_gateway_502";
  broken "503 service unavailable" SeverityCritical "service_unavailable_503";
  broken "504 gateway timeout" SeverityCritical "gateway_timeout_504" ].

Definition result (ind : indicator) : AnalysisResult :=
  mkAnalysis true
    (bool_decide (severity ind = SeverityCritical) || bool_decide (severity ind = SeverityFatal))
    (bool_decide (attribution ind = AttrSupplier)) (severity ind) (attribution ind) (lit 6 10)
    (reason ind) ("indicator match: " +:+ pattern ind) (methodBlocking ind) 0 0.

Definition methodUnserved (body : string) : option AnalysisResult :=
  result <$> head (filter (λ ind, methodBlocking ind && containsFold (upto 2048 body) (pattern ind))
                     indicators).

Section Analyzer.
Context (ToLower : string -> string) (gjson : Gjson).

Definition inTopLevelString (body pat : string) : bool :=
  existsb (λ v, bool_decide (Type_ gjson v = String_) && containsFold (Str gjson v) pat)
    (members gjson (ParseBytes gjson body)).

Fixpoint matchFrom (document : bool) (body area : string) (inds : list indicator)
    : option AnalysisResult :=
  match inds with
  | [] => None
  | ind :: inds =>
      if containsFold area (pattern ind) &&
         negb (document && bool_decide (attribution ind = AttrSupplier) &&
               negb (inTopLevelString body (pattern ind)))
      then Some (result ind) else matchFrom document body area inds
  end.
Definition matchIndicator (body : string) (documentIsAnswer : bool) : option AnalysisResult :=
  if bool_decide (body = "") then None
  else matchFrom (documentIsAnswer && ValidBytes gjson body) body (upto 2048 body) indicators.

(** ** [protocol.go] *)
Definition codeParseError : Z := -32700.
Definition codeInvalidRequest : Z := -32600.
Definition codeMethodNotFound : Z := -32601.
Definition codeInvalidParams : Z := -32602.
Definition codeInternalError : Z := -32603.
Definition codeServerError : Z := -32000.
Definition codeExecReverted : Z := 3.

Record jsonRPCAnalysis := mkRPC {
  hasResult : bool; resultIsNull : bool; hasError : bool;
  errorCode : Z; errorMessage : string; errorData : string
}.
Definition errorText (a : jsonRPCAnalysis) : string :=
  if bool_decide (errorData a = "") then errorMessage a
  else if bool_decide (errorMessage a = "") then errorData a
  else errorMessage a +:+ ": " +:+ errorData a.

Definition parseJSONRPC (body : string) : option jsonRPCAnalysis :=
  if negb (ValidBytes gjson body) then None
  else
    let parsed := ParseBytes gjson body in
    if negb (bool_decide (Type_ gjson parsed = JSON)) then None
    else
      let jsonrpcField := Get gjson parsed "jsonrpc" in
      let resultField := Get gjson parsed "result" in
      let errorField := Get gjson parsed "error" in
      if negb (Exists gjson jsonrpcField) && negb (Exists gjson resultField) &&
         negb (Exists gjson errorField) then None
      else
        let hasErr := Exists gjson errorField && negb (bool_decide (Type_ gjson errorField = Null)) in
        let msg := if hasErr then StringOf gjson (Get gjson errorField "message") else "" in
        let data := if hasErr then StringOf gjson (Get gjson errorField "data") else "" in
        Some (mkRPC (Exists gjson resultField)
          (Exists gjson resultField && bool_decide (Type_ gjson resultField = Null)) hasErr
          (if hasErr then Int gjson (Get gjson errorField "code") else 0) msg
          (if hasErr && bool_decide (msg = "") && bool_decide (data = "")
           then upto 256 (StringOf gjson errorField) else data)).

Definition ReasonMethodNotFound : string := "method_not_found".
Definition methodUnsupportedPatterns : list string :=
  ["api is not supported"; "lite fullnode"; "method not supported";
   "does not exist/is not available"; "is not available on this node"].
Definition methodUnsupported (details : string) : AnalysisResult :=
  mkAnalysis true false false SeverityNone AttrBlockchain (lit 85 100) "method_unsupported"
    ("method not served by this endpoint (" +:+ details +:+ ")") true 0 0.
Definition reportsMethodUnsupported (lowerMsg : string) : bool :=
  ContainsAnyOf lowerMsg methodUnsupportedPatterns.

Definition capabilityLimitationPatterns : list string :=
  ["missing trie node"; "metadata is not found"; "state not available"; "historical state";
   "has been pruned"; "no state available for block"; "no state found for block"; "is pruned";
   "pruned history"; "old data not available"; "height is not available";
   "haven't been fully indexed"; "not been fully indexed"; "lite fullnode"; "api is not supported"].
Definition ReportsMissingHistoricalState (message : string) : bool :=
  ContainsAnyOf (ToLower message) capabilityLimitationPatterns.

Definition blockchainErrorPatterns : list string :=
  ["block not found"; "header not found"; "unknown block"; "transaction not found";
   "receipt not found"; "excluded from account secondary indexes"; "was skipped";
   "block not available for slot"; "transaction history is not available";
   "cleaned up, does not exist"; "state 0x"; "block range exceeds";
   "must be less than or equal to"] ++ capabilityLimitationPatterns.

(** [heightAheadRe]: "height (\d+) must be less than or equal to the current
    blockchain height (\d+)", its leftmost match. *)
Fixpoint digits (s : string) : string * string :=
  match s with
  | EmptyString => ("", "")
  | String c s' => if Strconv.isDigit c then let '(d, rest) := digits s' in (String c d, rest) else ("", s)
  end.
Definition cutPrefix (p s : string) : option string :=
  if String.prefix p s then Some (from (String.length p) s) else None.
Definition heightAheadAt (s : string) : option (string * string) :=
  s ← cutPrefix "height " s;
  let '(asked, s) := digits s in
  if bool_decide (asked = "") then None
  else
    s ← cutPrefix " must be less than or equal to the current blockchain height " s;
    let '(head, _) := digits s in
    if bool_decide (head = "") then None else Some (asked, head).
Fixpoint heightAheadRe (s : string) : option (string * string) :=
  match heightAheadAt s with
  | Some m => Some m
  | None => match s with EmptyString => None | String _ s => heightAheadRe s end
  end.
Definition heightAheadRetry : Z := 10.
Definition heightJustAhead (lowerMsg : string) : bool :=
  if negb (GoText.Contains lowerMsg "current blockchain height") then false
  else match heightAheadRe lowerMsg with
       | None => false
       | Some (a, h) =>
           match Strconv.Atoi a, Strconv.Atoi h with
           | Some asked, Some head => bool_decide (head < asked) && bool_decide (asked - head <= heightAheadRetry)
           | _, _ => false
           end
       end.

Definition supplierInfraPatterns : list string :=
  ["service unavailable"; "bad gateway"; "gateway timeout"; "connection refused";
   "internal server error"].
Definition clientErrorPatterns : list string :=
  ["execution reverted"; "out of gas"; "gas required exceeds"; "invalid opcode";
   "invalid jump destination"; "stack underflow"; "stack limit reached"; "evm error: invalid";
   "execution unsuccessful"; "insufficient funds"; "insufficient balance"; "nonce too low";
   "nonce too high"; "already known"; "known transaction"; "underpriced"; "intrinsic gas too low";
   "exceeds block gas limit"; "max fee per gas less than block base fee";
   "max priority fee per gas higher than max fee per gas"; "tip higher than fee cap";
   "fee cap less than block base fee"; "invalid sender"; "transaction type not supported";
   "oversized data"; "exceeds the configured cap"; "only replay-protected"; "rlp:";
   "filter not found"; "invalid block range params"; "transaction simulation failed";
   "signature verification failure"; "blockhash not found"; "transaction version"].
Definition supplierLagPatterns : list string :=
  ["node is behind"; "node is unhealthy"; "minimum context slot has not been reached";
   "upstream rpc backends"].
Definition quote : string := String (ascii_of_nat 34) "".
Definition quotaPatterns : list string :=
  ["cu_per_"; "compute units"; "retry_after_ms"; quote +:+ "remaining" +:+ quote +:+ ":"].
Definition quotaLimitPatterns : list string := ["rate limit"; "too many requests"; "exceeded"; "quota"].
Definition rateLimitPatterns : list string := ["rate limit"; "too many requests"; "too busy"].

(** A verdict that blames nobody, and one that charges the supplier. *)
#[local] Abbreviation unscored retry attr conf why details blocking :=
  (mkAnalysis retry false false SeverityNone attr conf why details blocking 0 0).
#[local] Abbreviation charged break sev attr conf why details :=
  (mkAnalysis true break true sev attr conf why details false 0 0).

Definition withCode (what : string) (code : Z) (msg : string) : string :=
  what +:+ " (code " +:+ FormatInt code +:+ "): " +:+ msg.

Definition classifyServerError (code : Z) (lowerMsg : string) : AnalysisResult :=
  if ContainsAnyOf lowerMsg clientErrorPatterns then
    unscored false AttrClient (lit 90 100) "client_error" (withCode "client error" code lowerMsg) false
  else if ContainsAnyOf lowerMsg supplierLagPatterns then
    charged false SeverityMinor AttrSupplier (lit 85 100) "node_behind"
      (withCode "node behind or unhealthy" code lowerMsg)
  else if ContainsAnyOf lowerMsg blockchainErrorPatterns then
    unscored true AttrBlockchain (lit 85 100) ReasonBlockchainError
      (withCode "blockchain error" code lowerMsg) (reportsMethodUnsupported lowerMsg)
  else if ContainsAnyOf lowerMsg supplierInfraPatterns then
    charged true SeverityCritical AttrSupplier (lit 85 100) "supplier_server_error"
      (withCode "supplier server error" code lowerMsg)
  else if ContainsAnyOf lowerMsg quotaLimitPatterns && ContainsAnyOf lowerMsg quotaPatterns then
    charged false SeverityMajor AttrSupplier (lit 9 10) ReasonQuotaExceeded
      (withCode "supplier quota exceeded" code lowerMsg)
  else if ContainsAnyOf lowerMsg rateLimitPatterns then
    charged false SeverityMinor AttrSupplier (lit 85 100) ReasonRateLimited
      (withCode "supplier rate limit" code lowerMsg)
  else if reportsMethodUnsupported lowerMsg then
    methodUnsupported ("code " +:+ FormatInt code +:+ ": " +:+ lowerMsg)
  else unscored true AttrUnknown (lit 60 100) "server_error" (withCode "server error" code lowerMsg) false.

(** An indicator's verdict inside a -32603: a chain's wording is delivered. *)
Definition asInternal (ind : AnalysisResult) : AnalysisResult :=
  mkAnalysis (ShouldRetry ind && negb (bool_decide (Attribution ind = AttrBlockchain)))
    (ShouldCircuitBreak ind) (ShouldPenalize ind) (PenaltySeverity ind) (Attribution ind)
    (Confidence ind) (Reason ind) ("internal error, " +:+ Details ind) (MethodBlocking ind)
    (HeadLag ind) (HTTPStatus ind).

Definition classifyInternalError (lowerMsg : string) : AnalysisResult :=
  if ContainsAnyOf lowerMsg supplierInfraPatterns then
    charged true SeverityCritical AttrSupplier (lit 85 100) "supplier_internal_error"
      ("supplier internal error: " +:+ lowerMsg)
  else if heightJustAhead lowerMsg then
    unscored true AttrBlockchain (lit 85 100) ReasonBlockchainError
      ("node behind the height asked for: " +:+ lowerMsg) false
  else match matchIndicator lowerMsg false with
       | Some ind => asInternal ind
       | None =>
           unscored false AttrBlockchain (lit 60 100) "internal_error"
             ("node reported an internal error for this request: " +:+ lowerMsg) false
       end.

Definition classifyJSONRPCError (code : Z) (message : string) : AnalysisResult :=
  let lowerMsg := ToLower message in
  if bool_decide (code = codeExecReverted) then
    unscored false AttrClient (lit 95 100) "execution_reverted" ("execution reverted: " +:+ message) false
  else if bool_decide (code = codeMethodNotFound) then
    unscored false AttrClient (lit 95 100) ReasonMethodNotFound ("method not found: " +:+ message) true
  else if bool_decide (code = codeInvalidParams) then
    unscored false AttrClient (lit 95 100) "invalid_params" ("invalid params: " +:+ message) false
  else if bool_decide (code = codeInvalidRequest) then
    unscored false AttrClient (lit 90 100) "invalid_request" ("invalid request: " +:+ message) false
  else if bool_decide (code = codeParseError) then
    charged false SeverityCritical AttrSupplier (lit 70 100) "parse_error" ("parse error: " +:+ message)
  else if bool_decide (code = -38026) then
    unscored true AttrBlockchain (lit 85 100) ReasonBlockchainError (withCode "node limit" code message) false
  else if bool_decide (code <= -38000) && bool_decide (-38099 <= code) then
    unscored false AttrClient (lit 90 100) "client_error" (withCode "client error" code message) false
  else if bool_decide (code = codeServerError) ||
          (bool_decide (code <= -32000) && bool_decide (-32099 <= code)) then
    classifyServerError code lowerMsg
  else if bool_decide (code = codeInternalError) then classifyInternalError lowerMsg
  else if ReportsMissingHistoricalState message then classifyServerError code lowerMsg
  else
    charged false SeverityMinor AttrUnknown (lit 50 100) "unknown_error_code"
      ("unknown JSON-RPC error code " +:+ FormatInt code +:+ ": " +:+ message).

(** ** [analyzer.go] *)
Definition RPCTypeJSONRPC : string := "json_rpc".
Definition RPCTypeREST : string := "rest".
Definition RPCTypeCometBFT : string := "comet_bft".
Definition RPCTypeGRPC : string := "grpc".

Definition frontDoorRefusal (rpcType : string) (statusCode : Z) : bool :=
  if bool_decide (rpcType = RPCTypeJSONRPC) then true
  else if bool_decide (rpcType = RPCTypeREST) || bool_decide (rpcType = RPCTypeCometBFT) then
    bool_decide (statusCode = 401) || bool_decide (statusCode = 403)
  else false.

Definition CometBFTErrorAnswer (rpcType : string) (statusCode : Z) (body : string) : bool :=
  if negb (bool_decide (rpcType = RPCTypeCometBFT)) || negb (bool_decide (statusCode = 500)) then false
  else match parseJSONRPC body with
       | Some a => hasError a && (negb (hasResult a) || resultIsNull a)
       | None => false
       end.

Definition clientStatus (statusCode : Z) : bool :=
  bool_decide (400 <= statusCode) && bool_decide (statusCode < 500).
Definition analyzeTier0 (statusCode : Z) (response rpcType : string) : option AnalysisResult :=
  if CometBFTErrorAnswer rpcType statusCode response then None
  else if bool_decide (500 <= statusCode) then
    Some (mkAnalysis true false true SeverityMajor AttrSupplier (lit 85 100) "http_5xx"
      ("HTTP " +:+ FormatInt statusCode +:+ " server error") false 0 statusCode)
  else if bool_decide (statusCode = 429) then
    Some (charged false SeverityMinor AttrSupplier (lit 95 100) "http_429" "rate limited")
  else if bool_decide (statusCode = 408) then
    Some (charged false SeverityMajor AttrSupplier (lit 90 100) "http_408" "supplier request timeout")
  else if clientStatus statusCode && frontDoorRefusal rpcType statusCode &&
          negb (ValidBytes gjson response) then
    Some (mkAnalysis true false true SeverityMinor AttrSupplier (lit 85 100) "http_4xx_page"
      ("HTTP " +:+ FormatInt statusCode +:+ " with a non-JSON body on a " +:+ rpcType +:+ " request")
      true 0 0)
  else if clientStatus statusCode then
    Some (default (unscored false AttrClient (lit 85 100) "http_4xx"
                     ("HTTP " +:+ FormatInt statusCode +:+ " client error") false)
            (methodUnserved response))
  else None.

Definition isBodylessStatus (code : Z) : bool :=
  bool_decide (code = 204) || bool_decide (code = 205) || bool_decide (code = 304).

Definition analyzeGRPC (body : string) : AnalysisResult :=
  if IsEmpty body then
    charged true SeverityMajor AttrSupplier (lit 85 100) "empty_response"
      "gRPC response carried no message frame"
  else successResult.

Definition analyzeTier1 (body : string) (httpStatusCode : Z) : option AnalysisResult :=
  if IsEmpty body then
    Some (if isBodylessStatus httpStatusCode then successResult
          else charged true SeverityCritical AttrSupplier (lit 85 100) "empty_response"
                 "response body is empty")
  else if IsHTML body then
    Some (charged true SeverityCritical AttrSupplier (lit 90 100) "html_response"
            "response is HTML (likely proxy error page)")
  else if IsPlainText body then
    let msg := ToLower (upto 512 body) in
    Some (if reportsMethodUnsupported msg
          then methodUnsupported ("plain text: " +:+ GoText.TrimSpace msg)
          else charged false SeverityMajor AttrSupplier (lit 75 100) "plain_text_response"
                 "response is plain text (not JSON)")
  else None.

Definition analyzeTier2 (body : string) : option AnalysisResult :=
  match parseJSONRPC body with
  | None => None
  | Some a =>
      if hasResult a && negb (resultIsNull a) && hasError a then
        Some (charged true SeverityFatal AttrSupplier (lit 95 100) "fabricated_response"
                "response has both non-null result and error (fabricated)")
      else if hasError a then Some (classifyJSONRPCError (errorCode a) (errorText a))
      else if hasResult a then Some successResult
      else None
  end.

(** The tiers below the HTTP status. *)
Definition bodyTiers (body : string) (status : Z) (documentIsAnswer : bool) : AnalysisResult :=
  match analyzeTier1 body status with
  | Some r => r
  | None => match analyzeTier2 body with
            | Some r => r
            | None => default successResult (matchIndicator body documentIsAnswer)
            end
  end.

Definition analyze (response : string) (httpStatusCode : Z) (rpcType : string)
    (documentIsAnswer : bool) : AnalysisResult :=
  if IsOverServiced response then overServicedResult
  else match analyzeTier0 httpStatusCode response rpcType with
       | Some r => r
       | None =>
           if bool_decide (rpcType = RPCTypeGRPC) then analyzeGRPC response
           else bodyTiers response httpStatusCode documentIsAnswer
       end.
Definition Analyze (response : string) (httpStatusCode : Z) (rpcType : string) : AnalysisResult :=
  analyze response httpStatusCode rpcType false.
Definition RESTDocumentAnswer (response : string) (httpStatusCode : Z) : AnalysisResult :=
  analyze response httpStatusCode RPCTypeREST (bool_decide (Z.quot httpStatusCode 100 = 2)).
Definition RESTBodyAnswer (body : string) (httpStatusCode : Z) : option AnalysisResult :=
  if bool_decide (httpStatusCode < 200) || bool_decide (300 <= httpStatusCode) ||
     (negb (IsEmpty body) && negb (IsPlainText body))
  then None else Some successResult.
(** [frame.go]. *)
Definition AnalyzeFrame (body : string) : AnalysisResult := bodyTiers body 0 false.

(** ** [grpc.go] *)
Definition grpcOK : Z := 0.
Definition grpcCancelled : Z := 1.
Definition grpcUnknown : Z := 2.
Definition grpcInvalidArgument : Z := 3.
Definition grpcDeadlineExceeded : Z := 4.
Definition grpcNotFound : Z := 5.
Definition grpcAlreadyExists : Z := 6.
Definition grpcPermissionDenied : Z := 7.
Definition grpcResourceExhausted : Z := 8.
Definition grpcFailedPrecondition : Z := 9.
Definition grpcAborted : Z := 10.
Definition grpcOutOfRange : Z := 11.
Definition grpcUnimplemented : Z := 12.
Definition grpcInternal : Z := 13.
Definition grpcUnavailable : Z := 14.
Definition grpcDataLoss : Z := 15.
Definition grpcUnauthenticated : Z := 16.

Definition grpcCodeNames : list (Z * string) :=
  [(grpcOK, "OK"); (grpcCancelled, "CANCELLED"); (grpcUnknown, "UNKNOWN");
   (grpcInvalidArgument, "INVALID_ARGUMENT"); (grpcDeadlineExceeded, "DEADLINE_EXCEEDED");
   (grpcNotFound, "NOT_FOUND"); (grpcAlreadyExists, "ALREADY_EXISTS");
   (grpcPermissionDenied, "PERMISSION_DENIED"); (grpcResourceExhausted, "RESOURCE_EXHAUSTED");
   (grpcFailedPrecondition, "FAILED_PRECONDITION"); (grpcAborted, "ABORTED");
   (grpcOutOfRange, "OUT_OF_RANGE"); (grpcUnimplemented, "UNIMPLEMENTED");
   (grpcInternal, "INTERNAL"); (grpcUnavailable, "UNAVAILABLE");
   (grpcDataLoss, "DATA_LOSS"); (grpcUnauthenticated, "UNAUTHENTICATED")].
Definition grpcCodeName (code : Z) : string :=
  default "UNRECOGNIZED" (snd <$> head (filter (λ p, p.1 = code) grpcCodeNames)).

Definition grpcRequestCodes : list Z :=
  [grpcInvalidArgument; grpcNotFound; grpcAlreadyExists; grpcPermissionDenied;
   grpcFailedPrecondition; grpcOutOfRange; grpcUnauthenticated; grpcUnimplemented].
Definition grpcBackendCodes : list Z :=
  [grpcUnavailable; grpcInternal; grpcDataLoss; grpcAborted; grpcUnknown].

Definition grpcStatusResult (code : Z) (message : string) : AnalysisResult :=
  let details := "grpc-status " +:+ FormatInt code +:+ " (" +:+ grpcCodeName code +:+ ")" in
  let details := if bool_decide (message = "") then details else details +:+ ": " +:+ message in
  if bool_decide (code ∈ grpcRequestCodes) then
    unscored false AttrClient (lit 90 100) "grpc_request_error" details false
  else if bool_decide (code = grpcCancelled) || bool_decide (code = grpcDeadlineExceeded) then
    charged false SeverityMinor AttrSupplier (lit 70 100) "grpc_timeout" details
  else if bool_decide (code = grpcResourceExhausted) then
    charged false SeverityMinor AttrSupplier (lit 85 100) "grpc_resource_exhausted" details
  else if bool_decide (code ∈ grpcBackendCodes) then
    charged true SeverityCritical AttrSupplier (lit 85 100) "grpc_backend_error" details
  else unscored true AttrUnknown (lit 40 100) "grpc_unknown_status" details false.
(** [grpcStatus]: code and message when the response carried a status. *)
Definition AnalyzeGRPC (body : string) (grpcStatus : option (Z * string)) : AnalysisResult :=
  match grpcStatus with
  | Some (code, message) =>
      if bool_decide (code = grpcOK) then analyzeGRPC body else grpcStatusResult code message
  | None => analyzeGRPC body
  end.

(** ** [transport.go] *)
Definition ReasonConnectTimeout : string := "transport_connect_timeout".
Definition CloseMinerSessionExpired : Z := 4000.
Definition CloseMinerValidationFailed : Z := 4001.
Definition CloseMinerStakeLimit : Z := 4002.
Definition minerSessionCodes (codespace : string) (code : Z) : bool :=
  (bool_decide (codespace = "relayer_proxy") && bool_decide (code ∈ [1; 6])) ||
  (bool_decide (codespace = "relay_authenticator") && bool_decide (code ∈ [1; 2])).
Definition minerBodyLimitCodes (codespace : string) (code : Z) : bool :=
  bool_decide (codespace = "relayer_proxy") && bool_decide (code ∈ [12; 13]).
Definition minerTimeoutCodes (codespace : string) (code : Z) : bool :=
  bool_decide (codespace = "relayer_proxy") && bool_decide (code ∈ [10]).

Definition timedOut (details : string) : AnalysisResult :=
  mkAnalysis true false true SeverityMajor AttrSupplier (lit 85 100) "transport_timeout" details true 0 0.
Definition minerSessionRejected (details : string) : AnalysisResult :=
  unscored true AttrUnknown (lit 90 100) "miner_session_rejected" details false.
Definition minerFault (details : string) : AnalysisResult :=
  charged false SeverityMinor AttrSupplier (lit 85 100) "upstream_miner_error" details.

Definition analyzeMinerError (m : string * Z * string) : AnalysisResult :=
  let '(codespace, code, message) := m in
  let text := Error (MinerError codespace code message) in
  if MinerOverServiced codespace code message then overServicedResult
  else if minerSessionCodes codespace code then minerSessionRejected text
  else if minerTimeoutCodes codespace code then timedOut text
  else if minerBodyLimitCodes codespace code then
    mkAnalysis true false true SeverityMinor AttrSupplier (lit 85 100) "miner_body_limit" text true 0 0
  else minerFault text.

Definition isConnectFailure (err : option error) : bool :=
  bool_decide (is_Some (asConnect err)) || bool_decide (asOp err = Some "dial") ||
  bool_decide (is_Some (asDNS err)) || bool_decide (is_Some (asTLS err)).
Definition isTimeout (err : option error) : bool :=
  default false (asTimeout err) || Is err DeadlineExceeded.

Definition MinerRefusal (err : option error) : option AnalysisResult :=
  match asMiner err with
  | Some m => Some (analyzeMinerError m)
  | None =>
      if default false ((IsOverServiced ∘ snd) <$> asUpstream err) then Some overServicedResult
      else match asClose err with
           | None => None
           | Some (code, txt, text) =>
               if bool_decide (code = CloseMinerStakeLimit) || IsOverServiced txt
               then Some overServicedResult
               else if bool_decide (code = CloseMinerSessionExpired) then Some (minerSessionRejected text)
               else if bool_decide (code = CloseMinerValidationFailed) then Some (minerFault text)
               else None
           end
  end.

Definition upstreamStatus (status : Z) (text : string) : AnalysisResult :=
  if bool_decide (status = 413) then
    unscored false AttrClient (lit 90 100) "upstream_413" "relay miner refused the payload as too large" false
  else if bool_decide (status = 429) then
    charged false SeverityMinor AttrSupplier (lit 90 100) "upstream_429" "relay miner rate-limited the relay"
  else if bool_decide (500 <= status) then
    mkAnalysis true false true SeverityMinor AttrSupplier (lit 85 100) "upstream_5xx" text false 0 status
  else charged false SeverityMinor AttrSupplier (lit 70 100) "upstream_4xx" text.

Definition AnalyzeTransportError (e : error) (requestCtxErr : option error) : AnalysisResult :=
  let err := Some e in
  if Is requestCtxErr Canceled || Is err Canceled then
    unscored false AttrClient (lit 95 100) "client_cancelled"
      "the relay was cancelled before the endpoint answered" false
  else if Is err ErrEndpointsStale then
    unscored true AttrUnknown (lit 95 100) "endpoint_left_session" (Error e) false
  else if isConnectFailure err then
    charged true SeverityCritical AttrSupplier (lit 90 100)
      (if isTimeout err || Is requestCtxErr DeadlineExceeded
       then ReasonConnectTimeout else "transport_connect_failed")
      ("could not connect to endpoint: " +:+ Error e)
  else if isTimeout err || Is requestCtxErr DeadlineExceeded then
    timedOut "endpoint accepted the connection and did not answer in time"
  else if Is err ErrResponseTooLarge then
    unscored false AttrClient (lit 90 100) "response_too_large" (Error e) false
  else match MinerRefusal err with
       | Some verdict => verdict
       | None =>
           match asUpstream err with
           | Some (status, _) => upstreamStatus status (Error e)
           | None =>
               mkAnalysis (IsRetryable err) false true SeverityMinor AttrUnknown (lit 50 100)
                 "transport_error" (Error e) false 0 0
           end
       end.

(** ** Verdicts are coherent *)
Create HintDb coherent.
Record coherent (v : AnalysisResult) : Prop := {
  co_breaks : ShouldCircuitBreak v = true ->
    ShouldRetry v = true /\ ShouldPenalize v = true /\ Attribution v = AttrSupplier;
  co_severity : ShouldPenalize v = false <-> PenaltySeverity v = SeverityNone;
  co_blame : ShouldPenalize v = true ->
    Attribution v = AttrSupplier \/ (Attribution v = AttrUnknown /\ PenaltySeverity v = SeverityMinor);
  co_supplier : Attribution v = AttrSupplier -> ShouldPenalize v = true;
  co_blocking : MethodBlocking v = true -> Attribution v = AttrClient ->
    Reason v = ReasonMethodNotFound;
  co_success : IsSuccess v = true -> v = successResult
}.
Ltac solve_coherent :=
  split; cbn [ShouldRetry ShouldCircuitBreak ShouldPenalize PenaltySeverity Attribution Reason
              MethodBlocking];
  [intros; done|done|intros; try done; auto|done|done|];
  let H := fresh in intros H; exfalso; apply bool_decide_eq_true in H; by vm_compute in H.

Lemma coherent_success : coherent successResult.
Proof. by split. Qed.
Lemma coherent_overServiced : coherent overServicedResult.
Proof. solve_coherent. Qed.

Definition entry_ok (ind : indicator) : bool :=
  negb (bool_decide (reason ind = ReasonSuccess)) &&
  (if bool_decide (attribution ind = AttrSupplier)
   then negb (bool_decide (severity ind = SeverityNone)) && negb (methodBlocking ind)
   else bool_decide (attribution ind = AttrBlockchain) && bool_decide (severity ind = SeverityNone)).
Lemma entries_ok : Forall (λ ind, entry_ok ind = true) indicators.
Proof. repeat constructor. Qed.
Lemma coherent_result ind : entry_ok ind = true -> coherent (result ind).
Proof.
  unfold entry_ok. intros [Hr H]%andb_true_iff.
  rewrite negb_true_iff, bool_decide_eq_false in Hr.
  case_bool_decide as Ha; [|case_bool_decide as Hb; [|done]]; simpl in H.
  - rewrite andb_true_iff, !negb_true_iff, bool_decide_eq_false in H. destruct H as [Hs Hm].
    split; simpl; rewrite ?Ha, ?bool_decide_eq_true_2 by done; try done; auto.
    intros ?%bool_decide_eq_true; done.
  - apply bool_decide_eq_true in H.
    split; simpl; rewrite ?Hb, ?H, ?bool_decide_eq_false_2 by done; try done.
    intros ?%bool_decide_eq_true; done.
Qed.
Lemma indicator_verdict ind : ind ∈ indicators -> coherent (result ind).
Proof. intros H. apply coherent_result. by apply (proj1 (Forall_forall _ _) entries_ok). Qed.
Lemma coherent_unserved body v : methodUnserved body = Some v -> coherent v.
Proof.
  unfold methodUnserved. intros (ind & Hh & ->)%fmap_Some. apply indicator_verdict.
  apply head_Some_elem_of in Hh. by apply list_elem_of_filter in Hh as [_ ?].
Qed.
Lemma matchFrom_member d body area inds v :
  matchFrom d body area inds = Some v -> exists ind, ind ∈ inds /\ v = result ind.
Proof.
  induction inds as [|ind inds IH]; simpl; [done|]. destruct (_ && _).
  - intros [= <-]. exists ind. split; [by left|done].
  - intros (i & ? & ?)%IH. exists i. split; [by right|done].
Qed.
Lemma match_member body d v :
  matchIndicator body d = Some v -> exists ind, ind ∈ indicators /\ v = result ind.
Proof. unfold matchIndicator. case_bool_decide; [done|]. apply matchFrom_member. Qed.
Lemma coherent_match body d v : matchIndicator body d = Some v -> coherent v.
Proof. intros (ind & Hin & ->)%match_member. by apply indicator_verdict. Qed.
Lemma match_fails body d v : matchIndicator body d = Some v -> IsSuccess v = false.
Proof.
  intros (ind & Hin & ->)%match_member. pose proof (proj1 (Forall_forall _ _) entries_ok _ Hin) as H.
  apply andb_true_iff in H as [H _]. by apply negb_true_iff in H.
Qed.
Lemma coherent_internal v : 
  coherent v -> IsSuccess v = false -> coherent (asInternal v).
Proof.
  intros [H1 H2 H3 H4 H5 H6] Hs. split; simpl; try done.
  - intros Hc. destruct (H1 Hc) as (? & ? & ->). split_and!; [|done..].
    by rewrite bool_decide_eq_false_2, andb_true_r.
  - unfold IsSuccess in *. simpl. by rewrite Hs.
Qed.

Ltac by_branches :=
  repeat match goal with
  | |- coherent (if ?b then _ else _) => destruct b
  | |- coherent (mkAnalysis _ _ _ _ _ _ (if ?b then _ else _) _ _ _ _) => destruct b
  | |- coherent (match ?o with Some _ => _ | None => _ end) => let E := fresh "E" in destruct o eqn:E
  end; auto with coherent; try solve_coherent.
#[local] Hint Resolve coherent_success coherent_overServiced coherent_match coherent_unserved
  coherent_internal match_fails : coherent.

Lemma coherent_unsupported details : coherent (methodUnsupported details).
Proof. solve_coherent. Qed.
#[local] Hint Resolve coherent_unsupported : coherent.
Lemma coherent_server code msg : coherent (classifyServerError code msg).
Proof. unfold classifyServerError. by_branches. Qed.
Lemma coherent_internalError msg : coherent (classifyInternalError msg).
Proof. unfold classifyInternalError. by_branches. eauto with coherent. Qed.
#[local] Hint Resolve coherent_server coherent_internalError : coherent.
Lemma coherent_jsonrpc code msg : coherent (classifyJSONRPCError code msg).
Proof. unfold classifyJSONRPCError. by_branches. Qed.
#[local] Hint Resolve coherent_jsonrpc : coherent.

Lemma coherent_tier0 st body rpc v : analyzeTier0 st body rpc = Some v -> coherent v.
Proof.
  unfold analyzeTier0. repeat case_match; intros [= <-]; try solve_coherent.
  destruct (methodUnserved body) eqn:E; simpl; [eauto with coherent|solve_coherent].
Qed.
Lemma coherent_tier1 body st v : analyzeTier1 body st = Some v -> coherent v.
Proof. unfold analyzeTier1. repeat case_match; intros [= <-]; by_branches. Qed.
Lemma coherent_tier2 body v : analyzeTier2 body = Some v -> coherent v.
Proof. unfold analyzeTier2. repeat case_match; intros [= <-]; by_branches. Qed.
Lemma coherent_grpc body : coherent (analyzeGRPC body).
Proof. unfold analyzeGRPC. by_branches. Qed.
#[local] Hint Resolve coherent_tier0 coherent_tier1 coherent_tier2 coherent_grpc : coherent.
Lemma coherent_body body st d : coherent (bodyTiers body st d).
Proof.
  unfold bodyTiers. by_branches; [eauto with coherent..|].
  destruct (matchIndicator body d) eqn:E'; simpl; eauto with coherent.
Qed.
#[local] Hint Resolve coherent_body : coherent.
Lemma coherent_analyze body st rpc d : coherent (analyze body st rpc d).
Proof. unfold analyze. by_branches. eauto with coherent. Qed.
Lemma coherent_status st text : coherent (upstreamStatus st text).
Proof. unfold upstreamStatus. by_branches. Qed.
Lemma coherent_miner m : coherent (analyzeMinerError m).
Proof.
  destruct m as [[cs c] m]. unfold analyzeMinerError, minerSessionRejected, timedOut, minerFault. by_branches.
Qed.
Lemma coherent_refusal e v : MinerRefusal e = Some v -> coherent v.
Proof.
  unfold MinerRefusal, minerSessionRejected, minerFault.
  repeat case_match; intros [= <-]; auto using coherent_miner with coherent; solve_coherent.
Qed.
#[local] Hint Resolve coherent_status coherent_refusal coherent_analyze : coherent.
Lemma coherent_transport e c : coherent (AnalyzeTransportError e c).
Proof.
  unfold AnalyzeTransportError, timedOut. by_branches; eauto with coherent.
  match goal with p : (_ * _)%type |- _ => destruct p end. auto with coherent.
Qed.
Lemma coherent_AnalyzeGRPC body st : coherent (AnalyzeGRPC body st).
Proof.
  unfold AnalyzeGRPC, grpcStatusResult. destruct st as [[c m]|]; by_branches.
Qed.

(** C9. A verdict is coherent, whatever the body, the status, the RPC type or
    the error: a host is taken to the circuit breaker only by a verdict that is
    retried, penalized and the supplier's; a penalty has a severity and only a
    penalty has one; it falls on the supplier, or is a minor one nobody is
    blamed for; the chain's and the client's answers cost nobody anything; of
    the client's, only a method the node does not know keeps that method from
    the host; and the passing verdict is one value. *)
Theorem verdicts_are_coherent body status rpcType grpcStatus err ctxErr :
  coherent (Analyze body status rpcType) /\ coherent (RESTDocumentAnswer body status) /\
  coherent (AnalyzeFrame body) /\ coherent (AnalyzeGRPC body grpcStatus) /\
  coherent (AnalyzeTransportError err ctxErr).
Proof.
  unfold Analyze, RESTDocumentAnswer, AnalyzeFrame.
  auto 10 using coherent_transport, coherent_AnalyzeGRPC with coherent.
Qed.

(** ** Folding *)
Lemma matchFoldAt_prefix h n : matchFoldAt h n = String.prefix n (GoText.ToLower h).
Proof.
  revert h. induction n as [|c n IH]; intros [|d h]; simpl; try done.
  destruct (Ascii.ascii_dec c (GoText.lowerChar d)) as [->|Hne].
  - rewrite bool_decide_eq_true_2 by done. apply IH.
  - by rewrite bool_decide_eq_false_2 by congruence.
Qed.
Lemma contains_cons c s n :
  GoText.Contains (String c s) n = String.prefix n (String c s) || GoText.Contains s n.
Proof.
  unfold GoText.Contains, Index. cbn [String.index].
  destruct (String.prefix n (String c s)); [done|]. by destruct (String.index 0 n s).
Qed.
Lemma fold_contains h n : containsFold h n = GoText.Contains (GoText.ToLower h) n.
Proof.
  induction h as [|c h IH].
  - by destruct n.
  - cbn [GoText.ToLower]. rewrite contains_cons, <- IH. destruct n; [by destruct h|].
    cbn [containsFold]. by rewrite matchFoldAt_prefix.
Qed.

Lemma prefix_inv p s : String.prefix p s = true -> exists t, s = p +:+ t.
Proof.
  revert s. induction p as [|c p IH]; intros s; [by exists s|]. destruct s as [|d s]; [done|]. simpl.
  destruct (Ascii.ascii_dec c d) as [->|]; [|done]. intros (t & ->)%IH. by exists t.
Qed.
Lemma Contains_iff s n : GoText.Contains s n = true <-> exists a b, s = a +:+ (n +:+ b).
Proof.
  split.
  - induction s as [|c s IH].
    + destruct n; [by exists "", ""|done].
    + rewrite contains_cons. intros [(t & Ht)%prefix_inv|(a & b & Hs)%IH]%orb_true_iff.
      * by exists "", t.
      * exists (String c a), b. by rewrite Hs.
  - intros (a & b & ->). induction a as [|c a IH].
    + change (EmptyString +:+ (n +:+ b)) with (n +:+ b). destruct (n +:+ b) as [|d s] eqn:E.
      * destruct n; [by apply bool_decide_eq_true_2|done].
      * rewrite contains_cons, <- E, prefix_app. done.
    + change (String c a +:+ (n +:+ b)) with (String c (a +:+ (n +:+ b))). rewrite contains_cons, IH.
      by rewrite orb_true_r.
Qed.
Lemma contains_within s a b c : GoText.Contains s (a +:+ (b +:+ c)) = true -> GoText.Contains s b = true.
Proof.
  rewrite !Contains_iff. intros (x & y & ->). exists (x +:+ a), (c +:+ y). by rewrite !app_assoc'.
Qed.
Lemma fold_within s a b c : containsFold s (a +:+ (b +:+ c)) = true -> containsFold s b = true.
Proof. rewrite !fold_contains. apply contains_within. Qed.

(** ** Entries that never match *)
Lemma topLevel_within body a b c :
  inTopLevelString body (a +:+ (b +:+ c)) = true -> inTopLevelString body b = true.
Proof.
  unfold inTopLevelString. rewrite !existsb_exists. intros (v & Hin & [Ht Hc]%andb_true_iff).
  exists v. split; [done|]. rewrite Ht. by apply fold_within in Hc.
Qed.
Definition hit (d : bool) (body area : string) (ind : indicator) : bool :=
  containsFold area (pattern ind) &&
  negb (d && bool_decide (attribution ind = AttrSupplier) && negb (inTopLevelString body (pattern ind))).
Lemma matchFrom_first d body area inds v :
  matchFrom d body area inds = Some v ->
  exists n ind, inds !! n = Some ind /\ v = result ind /\ hit d body area ind = true /\
    forall m k, (m < n)%nat -> inds !! m = Some k -> hit d body area k = false.
Proof.
  induction inds as [|ind inds IH]; [done|]. cbn [matchFrom]. fold (hit d body area ind).
  destruct (hit d body area ind) eqn:E.
  - intros [= <-]. exists O, ind. split_and!; [done..|lia].
  - intros (n & i & ? & ? & ? & Hm)%IH. exists (S n), i. split_and!; try done.
    intros [|m] k Hlt Hk; [by injection Hk as <-|]. apply (Hm m); [lia|done].
Qed.
Lemma hit_within d body area i j a c :
  pattern j = a +:+ (pattern i +:+ c) -> attribution j = attribution i ->
  hit d body area j = true -> hit d body area i = true.
Proof.
  unfold hit. intros -> ->. rewrite !andb_true_iff, !negb_true_iff. intros [Hf Hd].
  split; [by apply fold_within in Hf|]. destruct (d && _); [|done]. simpl in *.
  apply negb_false_iff in Hd. apply negb_false_iff. by apply topLevel_within in Hd.
Qed.

(** The indicators are tried in order and the first match wins, so an
    entry whose wording contains an earlier entry's is never used: no body,
    however worded, gets the critical verdicts for a gateway timeout or those
    that name a status; "gateway timeout" is read as "timeout", a major penalty
    without a vote for the breaker. *)
Theorem later_indicators_are_shadowed body d v :
  matchIndicator body d = Some v ->
  Reason v ∉ ["gateway_timeout"; "bad_gateway_502"; "service_unavailable_503"; "gateway_timeout_504"].
Proof.
  unfold matchIndicator. case_bool_decide; [done|].
  intros (n & ind & Hn & -> & Hhit & Hfirst)%matchFrom_first Hin. cbn [result Reason] in Hin.
  assert (forall m i a c, (m < n)%nat -> indicators !! m = Some i ->
    pattern ind = a +:+ (pattern i +:+ c) -> attribution ind = attribution i -> False) as Hno.
  { intros m i a c Hlt Hi Hp Ha. pose proof (Hfirst m i Hlt Hi). by rewrite (hit_within _ _ _ i ind a c) in *. }
  clear Hfirst Hhit.
  do 31 (destruct n as [|n];
    [injection Hn as <-;
     first [ by apply bool_decide_eq_true in Hin
           | by eapply (Hno 24%nat _ "gateway " ""); [lia|reflexivity..]
           | by eapply (Hno 25%nat _ "502 " ""); [lia|reflexivity..]
           | by eapply (Hno 26%nat _ "503 " ""); [lia|reflexivity..]
           | by eapply (Hno 24%nat _ "504 gateway " ""); [lia|reflexivity..]
           | exfalso; clear Hno; set_solver]|]).
  done.
Qed.

(** The scans that lower case as they go find what searching a lowered copy of
    the first two kilobytes would. *)
Theorem scans_are_lowercased_searches body :
  let area := GoText.ToLower (upto 2048 body) in
  matchIndicator body false =
    result <$> head (filter (λ ind, GoText.Contains area (pattern ind)) indicators) /\
  IsOverServiced body = ContainsAnyOf area overServedPatterns /\
  methodUnserved body =
    result <$> head (filter (λ ind, methodBlocking ind && GoText.Contains area (pattern ind)) indicators).
Proof.
  intros area.
  assert (forall l, matchFrom false body (upto 2048 body) l =
    result <$> head (filter (λ ind, GoText.Contains area (pattern ind)) l)) as Hm.
  { induction l as [|i l IH]; [done|]. cbn [matchFrom]. rewrite filter_cons, fold_contains, andb_true_r.
    fold area. destruct (GoText.Contains area (pattern i)); [done|]. by rewrite IH. }
  assert (body = "" -> area = "") as He by (by intros ->). split_and!.
  - unfold matchIndicator. case_bool_decide as Hb; [|apply Hm]. rewrite (He Hb). reflexivity.
  - unfold IsOverServiced, ContainsAnyOf. case_bool_decide as Hb; [by rewrite (He Hb)|].
    induction overServedPatterns as [|p l IH]; [done|]. simpl. rewrite fold_contains. by rewrite IH.
  - unfold methodUnserved. f_equal. f_equal. apply list_filter_iff. intros i. by rewrite fold_contains.
Qed.
End Analyzer.

(** A JSON library that reads nothing out of a body, for concrete runs. *)
Definition blindGjson : Gjson :=
  mkGjson unit (λ _, false) (λ _, tt) (λ _ _, tt) (λ _, false) (λ _, JSON) (λ _, 0)
    (λ _, "") (λ _, "") (λ _, []).
Lemma later_indicators_are_shadowed_witness :
  exists v, matchIndicator blindGjson "HTTP/1.1 504 Gateway Timeout" false = Some v /\ Reason v = "timeout" /\
  Reason v ∉ ["gateway_timeout"; "bad_gateway_502"; "service_unavailable_503"; "gateway_timeout_504"].
Proof.
  eexists. split_and!; [vm_compute; reflexivity|reflexivity|].
  apply (later_indicators_are_shadowed id blindGjson "HTTP/1.1 504 Gateway Timeout" false).
  vm_compute; reflexivity.
Defined.
End Heuristic.
