(* ===== verification/Message.v ===== *)
(** * Message: what a relay carries and brings back

    Models [Payload] and [Response] of [domain/payload.go].  Bytes are a
    [string].  The timings of a response are left out. *)

From stdpp Require Import strings.
From S2P Require Import Prelude Domain Strconv Heuristic.
Import Domain.

Module Message.

Record Payload := mkPayload {
  Bytes : string; RPCType : string; Method : string; Path : string; HTTPMethod : string;
  ContentType : string
}.
Definition NewPayload (data rpcType method : string) : Payload :=
  mkPayload data rpcType method "" "" "".
Definition WithHTTP (p : Payload) (path httpMethod : string) : Payload :=
  mkPayload (Bytes p) (RPCType p) (Method p) path httpMethod (ContentType p).
Definition WithContentType (p : Payload) (contentType : string) : Payload :=
  mkPayload (Bytes p) (RPCType p) (Method p) (Path p) (HTTPMethod p) contentType.

(** [Headers] is nil for the JSON transports. *)
Record Response := mkResponse {
  Body : string; HTTPStatusCode : Z; Latency : Z; From : EndpointAddr;
  Headers : option (gmap string string)
}.
Definition plainResponse (body : string) (status : Z) : Response := mkResponse body status 0 "" None.

(** Code and message, when the response carried a readable status. *)
Definition GRPCStatus (r : option Response) : option (Z * string) :=
  r ← r;
  h ← Headers r;
  raw ← h !! "grpc-status";
  code ← Strconv.Atoi raw;
  Some (code, default "" (h !! "grpc-message")).
End Message.
