(* ===== verification/Retry.v ===== *)
(** * Retry: trying a failed relay on other endpoints

    Models [relay/middleware/retry.go] with the guards it shares with the other
    stages ([endpoint.go], [methodblocks.go], [endpointfilter.go]), its
    configuration ([config/service.go]), the scaled deadline of
    [relay/middleware/timeout.go] and the archival narrowing of
    [qos/evm/plugin.go].

    The handler is a program in a small state monad over [St]: the request
    context, the variables of the handler, what was told to the recorder and
    the world.  The world is whatever the process shares with the request
    (clock, cancellation, feature flags, reputation, plugin state); it moves by
    [pass] at every reading, so any number of other goroutines may have run
    between two readings.  The rest of the chain is an arbitrary handler
    [next].  [log] is history, kept for the theorems: the context each call of
    [next] got, the one it left and its error.  Logging is left out.

    [read] is the only primitive besides those of [StateM]. *)

From stdpp Require Import strings.
From S2P Require Import Prelude Float64 Domain StateM RelayErrors FeatureFlag.
Import Domain RelayErrors.

Module Retry.

(** ** [config/service.go]: the retry block *)
Record RetryConfig := mkRetryConfig {
  Enabled : bool; disabled : bool; MaxRetries : Z; MaxRetryLatency : Z; RetryOn5xx : bool;
  RetryOnTimeout : bool; RetryOnConnection : bool; ConnectTimeout : Z; HedgeDelay : Z;
  HedgeMaxBatchSize : Z; MaxLatency : Z
}.

Definition cmpOr (a b : Z) : Z := if bool_decide (a = 0) then b else a.

Definition mergeRetry (a b : RetryConfig) : RetryConfig :=
  let n := cmpOr (MaxRetries a) (MaxRetries b) in
  let '(dis, n) :=
    if disabled a then (true, 0)
    else if disabled b && bool_decide (MaxRetries a = 0) then (true, 0)
    else (false, n) in
  mkRetryConfig (Enabled a) dis n (MaxRetryLatency a) (RetryOn5xx a) (RetryOnTimeout a)
    (RetryOnConnection a) (ConnectTimeout a) (cmpOr (HedgeDelay a) (HedgeDelay b))
    (cmpOr (HedgeMaxBatchSize a) (HedgeMaxBatchSize b)) (cmpOr (MaxLatency a) (MaxLatency b)).

Definition disable (c : RetryConfig) : RetryConfig :=
  mkRetryConfig (Enabled c) true 0 (MaxRetryLatency c) (RetryOn5xx c) (RetryOnTimeout c)
    (RetryOnConnection c) (ConnectTimeout c) (HedgeDelay c) (HedgeMaxBatchSize c) (MaxLatency c).

(** [relay/middleware/timeout.go]: the deadline of a whole request. *)
Definition AttemptScaledTimeout (perAttempt : Z) (retryFn : option RetryConfig) : Z :=
  match retryFn with
  | None => perAttempt
  | Some cfg =>
      if bool_decide (perAttempt <= 0) then perAttempt
      else if bool_decide (0 < MaxRetries cfg) then i64 (perAttempt * i64 (MaxRetries cfg + 1))
      else perAttempt
  end.

Definition AttemptRetry : string := "retry".
Definition retryBudgetFraction : Z := 5.

(** ** Labels of a failure *)
Definition isStale (v : option AnalysisResult) : bool :=
  match v with Some r => bool_decide (Reason r = ReasonStaleResponse) | None => false end.
Definition lag (v : option AnalysisResult) : Z := default 0 (HeadLag <$> v).
Definition fresherStale (a b : option AnalysisResult) : bool :=
  isStale a && isStale b && bool_decide (lag a < lag b).

Definition retryReason (err : option error) : string :=
  if Is err ErrEndpointsStale then "rollover"
  else match As err with Some (k, _) => KindString k | None => "error" end.

Definition limiterVerdict (reason : string) : bool :=
  bool_decide (reason ∈ [ReasonRateLimited; ReasonQuotaExceeded; "http_429"; "upstream_429"]).
Definition historyRefusal (reason : string) : bool :=
  bool_decide (reason = ReasonBlockchainError) || bool_decide (reason = ReasonRefusedRecent).

(** ** [endpointfilter.go] *)
Fixpoint filterFrom (kept eps : EndpointAddrList) (keep : EndpointAddr -> bool)
    : option EndpointAddrList :=
  match eps with
  | [] => None
  | ep :: rest =>
      if keep ep then filterFrom (kept ++ [ep]) rest keep
      else Some (kept ++ filter (λ e, keep e = true) rest)
  end.
Definition filterEndpoints (eps : EndpointAddrList) (keep : EndpointAddr -> bool)
    : EndpointAddrList := default eps (filterFrom [] eps keep).

(** [RetainingEndpoints] of [qos/evm/plugin.go], given what the archival marks
    say of an endpoint: those that served the history, else those not known to
    refuse it. *)
Fixpoint retainingLoop (retains : bool -> EndpointAddr -> bool) (eps : EndpointAddrList)
    (rounds : list bool) : EndpointAddrList * bool :=
  match rounds with
  | [] => ([], false)
  | served :: rounds =>
      let kept := filter (λ a, retains served a = true) eps in
      if bool_decide (kept = []) then retainingLoop retains eps rounds else (kept, true)
  end.

(** A narrowing keeps members and leaves some. *)
Definition narrows (full narrowed : EndpointAddrList) : Prop :=
  narrowed ⊆ full /\ (full <> [] -> narrowed <> []).

Lemma narrows_refl l : narrows l l.
Proof. by split. Qed.
Lemma narrows_trans l1 l2 l3 : narrows l1 l2 -> narrows l2 l3 -> narrows l1 l3.
Proof. intros [? ?] [? ?]. split; [set_solver|auto]. Qed.
#[export] Hint Resolve narrows_refl : sage.

(** What Retry relies on in a plugin's archival marks: an answer is a non-empty
    part of the list asked about. *)
Record Narrower (W Payload : Type) := mkNarrower {
  RetainingEndpoints : W -> EndpointAddrList -> list Payload -> EndpointAddrList * bool;
  RetainingEndpoints_ok w eps payloads kept :
    RetainingEndpoints w eps payloads = (kept, true) -> kept ⊆ eps /\ kept <> []
}.
Arguments mkNarrower {_ _}.
Arguments RetainingEndpoints {_ _}.
Arguments RetainingEndpoints_ok {_ _}.

(** What the stages rely on in a plugin's [SelectEndpoints] ([None] is its
    error): it keeps members of the list it is given, each at most as often. *)
Record Selector (W Payload : Type) := mkSelector {
  selectEndpoints : W -> EndpointAddrList -> list Payload -> option EndpointAddrList;
  selectEndpoints_ok w eps payloads kept :
    selectEndpoints w eps payloads = Some kept -> kept ⊆+ eps
}.
Arguments mkSelector {_ _}.
Arguments selectEndpoints {_ _}.
Arguments selectEndpoints_ok {_ _}.

(** And in its [RefineVerdict] ([None]: left as it was): a refined verdict still
    penalizes only the supplier, or lightly. *)
Record Refiner (W Payload : Type) := mkRefiner {
  refineVerdict : W -> EndpointAddr -> Payload -> AnalysisResult -> option AnalysisResult;
  refineVerdict_ok w ep p v v' : refineVerdict w ep p v = Some v' -> fair v -> fair v'
}.
Arguments mkRefiner {_ _}.
Arguments refineVerdict {_ _}.
Arguments refineVerdict_ok {_ _}.

Lemma retainingLoop_ok retains eps rounds kept :
  retainingLoop retains eps rounds = (kept, true) -> kept ⊆ eps /\ kept <> [].
Proof.
  induction rounds as [|served rounds IH]; simpl; [done|]. case_bool_decide as Hk; [done|].
  intros [= <-]. split; [|done]. by intros e [_ He]%list_elem_of_filter.
Qed.

(** The EVM plugin's narrowing, with [retains] read off the world: [None] when
    routing by archival marks is off or the request names no history. *)
Program Definition evmNarrower {W Payload : Type}
    (retains : W -> list Payload -> option (bool -> EndpointAddr -> bool)) : Narrower W Payload :=
  mkNarrower (λ w eps ps,
    match retains w ps with
    | None => ([], false)
    | Some f => retainingLoop f eps [true; false]
    end) _.
Next Obligation.
  intros W Payload retains w eps ps kept. cbv beta. destruct (retains w ps); [|done].
  apply retainingLoop_ok.
Qed.

Section Handler.
Context {W Resp Payload X : Type} (EffectiveTLDPlusOne : string -> option string).
#[local] Abbreviation Operator := (Domain.Operator EffectiveTLDPlusOne).

(** ** The request context

    [context.Context] is its deadline; whether it is done is asked of the
    world.  [PluginI] is the service's plugin: its [SelectEndpoints] ([None] for
    no plugin) and what it implements of the
    optional interfaces the stages ask for.  [others] holds the fields this
    stage does not touch. *)
Record GoCtx := mkGoCtx { Deadline : option Z }.
Record PluginI := mkPlugin {
  SelectEndpoints : option (Selector W Payload);
  StaleChecker : option (W -> EndpointAddrList -> bool);
  ArchivalNarrower : option (Narrower W Payload);
  MethodClassifier : option (Payload -> string);
  MethodNormalizer : option (Payload -> string);
  MethodFamilyLister : option (string -> list string);
  VerdictRefiner : option (Refiner W Payload);
  HeadLagReader : option (W -> Payload -> string -> Z -> option (Z * bool));
  HeadRecorder : option (EndpointAddr -> Payload -> string -> W -> W);
  ArchivalRecorder : option (EndpointAddr -> Payload -> string -> W -> W);
  ResultValidator : option (Payload -> string -> option string);
  DataExtractor : option (EndpointAddr -> string -> string -> W -> W);
  CoalescenceClassifier : option (string -> bool);
  CachePolicy : option (string -> string -> string -> Z);
  ImmutableClassifier : option (Payload -> bool)
}.
Definition noPlugin : PluginI :=
  mkPlugin None None None None None None None None None None None None None None None.
Record Context := mkContext {
  Ctx : GoCtx; ServiceID : string; RPCType : string; Plugin : PluginI; Payloads : list Payload;
  Endpoint : EndpointAddr; Attempts : list string; Endpoints : EndpointAddrList;
  Response : option Resp; Err : option error; HeuristicResult : option AnalysisResult;
  QuorumArm : bool; AttemptKind : string; others : X
}.

Definition with_Ctx (c : Context) (g : GoCtx) : Context :=
  mkContext g (ServiceID c) (RPCType c) (Plugin c) (Payloads c) (Endpoint c) (Attempts c)
    (Endpoints c) (Response c) (Err c) (HeuristicResult c) (QuorumArm c) (AttemptKind c) (others c).
Definition with_Endpoints (c : Context) (eps : EndpointAddrList) : Context :=
  mkContext (Ctx c) (ServiceID c) (RPCType c) (Plugin c) (Payloads c) (Endpoint c) (Attempts c)
    eps (Response c) (Err c) (HeuristicResult c) (QuorumArm c) (AttemptKind c) (others c).
Definition with_Attempts (c : Context) (trail : list string) : Context :=
  mkContext (Ctx c) (ServiceID c) (RPCType c) (Plugin c) (Payloads c) (Endpoint c) trail
    (Endpoints c) (Response c) (Err c) (HeuristicResult c) (QuorumArm c) (AttemptKind c) (others c).
Definition with_AttemptKind (c : Context) (k : string) : Context :=
  mkContext (Ctx c) (ServiceID c) (RPCType c) (Plugin c) (Payloads c) (Endpoint c) (Attempts c)
    (Endpoints c) (Response c) (Err c) (HeuristicResult c) (QuorumArm c) k (others c).
Definition with_Answer (c : Context) (r : option Resp) (e : EndpointAddr)
    (v : option AnalysisResult) (err : option error) : Context :=
  mkContext (Ctx c) (ServiceID c) (RPCType c) (Plugin c) (Payloads c) e (Attempts c)
    (Endpoints c) r err v (QuorumArm c) (AttemptKind c) (others c).

(** The collaborators: the flag store, the clock, cancellation, the owner
    tables of [domain], and the three optional ones of [RetryOptions] and
    [Retry] ([None] is nil). *)
Record Env := mkEnv {
  pass : W -> W;
  Now : W -> Z;
  Done : W -> GoCtx -> bool;
  IsEnabled : W -> string -> string -> bool;
  Owners : W -> owners;
  Vouched : option (W -> string -> EndpointAddr -> string -> bool);
  OnProbation : option (W -> string -> EndpointAddr -> string -> bool);
  AvailableEndpoints : option (W -> string -> string -> error + EndpointAddrList);
  recorder : bool
}.
Definition NextHandler : Type := Context -> W -> option error * Context * W.
Context (env : Env) (next : NextHandler) (configFn : string -> RetryConfig).

(** ** The state of one run of the handler *)
Inductive event :=
  | RecordRetry (service reason : string)
  | RecordRetryResolution (service reason outcome : string).
Record attempt := mkAttempt { before : Context; after : Context; result : option error }.

Record Tried := mkTried {
  triedEndpoints : option (gmap EndpointAddr bool); triedOperators : gmap string bool;
  triedAffiliates : Affiliates; pool : EndpointAddrList
}.
Record Kept := mkKept {
  keptResp : option Resp; keptEndpoint : EndpointAddr; keptVerdict : option AnalysisResult;
  keptErr : option error
}.
Record Cause := mkCause { pendingCause : string; retriedFor : string; limited : bool }.
Record St := mkSt {
  ctx : Context; world : W; trail : option (list string); tried : Tried; lastErr : option error;
  kept : Kept; cause : Cause; attempts : Z; recorded : list event; log : list attempt
}.

Definition set_ctx (f : Context -> Context) (s : St) : St :=
  mkSt (f (ctx s)) (world s) (trail s) (tried s) (lastErr s) (kept s) (cause s) (attempts s)
    (recorded s) (log s).
Definition set_world (w : W) (s : St) : St :=
  mkSt (ctx s) w (trail s) (tried s) (lastErr s) (kept s) (cause s) (attempts s) (recorded s) (log s).
Definition set_trail (t : option (list string)) (s : St) : St :=
  mkSt (ctx s) (world s) t (tried s) (lastErr s) (kept s) (cause s) (attempts s) (recorded s) (log s).
Definition set_tried (t : Tried) (s : St) : St :=
  mkSt (ctx s) (world s) (trail s) t (lastErr s) (kept s) (cause s) (attempts s) (recorded s) (log s).
Definition set_lastErr (e : option error) (s : St) : St :=
  mkSt (ctx s) (world s) (trail s) (tried s) e (kept s) (cause s) (attempts s) (recorded s) (log s).
Definition set_kept (k : Kept) (s : St) : St :=
  mkSt (ctx s) (world s) (trail s) (tried s) (lastErr s) k (cause s) (attempts s) (recorded s) (log s).
Definition set_cause (c : Cause) (s : St) : St :=
  mkSt (ctx s) (world s) (trail s) (tried s) (lastErr s) (kept s) c (attempts s) (recorded s) (log s).
Definition set_attempts (n : Z) (s : St) : St :=
  mkSt (ctx s) (world s) (trail s) (tried s) (lastErr s) (kept s) (cause s) n (recorded s) (log s).
Definition tell (e : event) (s : St) : St :=
  mkSt (ctx s) (world s) (trail s) (tried s) (lastErr s) (kept s) (cause s) (attempts s)
    (recorded s ++ [e]) (log s).

(** ** The monad *)
#[local] Abbreviation M := (StateM.M St).
Definition read {A} (f : W -> A) : M A := λ s, (f (world s), set_world (pass env (world s)) s).

(** ** Guards shared with the other stages *)
Fixpoint containsVouched (v : W -> string -> EndpointAddr -> string -> bool) (c : Context)
    (eps : EndpointAddrList) : M bool :=
  match eps with
  | [] => mret false
  | ep :: eps =>
      b ← read (λ w, v w (ServiceID c) ep (RPCType c));
      if (b : bool) then mret true else containsVouched v c eps
  end.
Definition anyVouched (eps : EndpointAddrList) : M bool :=
  match Vouched env with
  | None => mret true
  | Some v => c ← gets ctx; containsVouched v c eps
  end.

Definition narrowsIntoStale (narrowed full : EndpointAddrList) : M bool :=
  c ← gets ctx;
  match StaleChecker (Plugin c) with
  | None => mret false
  | Some allStale =>
      a ← read (λ w, allStale w narrowed);
      if (a : bool) then b ← read (λ w, allStale w full); mret (negb b) else mret false
  end.

Definition fillEndpoints : M unit :=
  c ← gets ctx;
  if negb (bool_decide (Endpoints c = [])) then mret tt
  else match AvailableEndpoints env with
       | None => mret tt
       | Some p =>
           r ← read (λ w, p w (ServiceID c) (RPCType c));
           match (r : error + EndpointAddrList) with
           | inr eps => modify (set_ctx (λ c, with_Endpoints c eps))
           | inl _ => mret tt
           end
       end.

(** ** Deadlines *)
Definition budgetForRetry (start : Z) : M bool :=
  c ← gets ctx;
  match Deadline (Ctx c) with
  | None => mret true
  | Some dl =>
      now ← read (Now env);
      mret (bool_decide (Z.quot (GoTime.Sub dl start) retryBudgetFraction <= GoTime.Sub dl now))
  end.

(** [context.WithTimeout]: the earlier of the parent's deadline and the new one. *)
Definition WithTimeout (parent : GoCtx) (d now : Z) : GoCtx :=
  match Deadline parent with
  | Some dl => if bool_decide (dl < now + d) then parent else mkGoCtx (Some (now + d))
  | None => mkGoCtx (Some (now + d))
  end.

Definition perAttemptContext (attemptsLeft : Z) : M GoCtx :=
  c ← gets ctx;
  match Deadline (Ctx c) with
  | None => mret (Ctx c)
  | Some dl =>
      if bool_decide (attemptsLeft <= 1) then mret (Ctx c)
      else
        now ← read (Now env);
        let remaining := GoTime.Sub dl now in
        if bool_decide (remaining <= 0) then mret (Ctx c)
        else now' ← read (Now env); mret (WithTimeout (Ctx c) (Z.quot remaining attemptsLeft) now')
  end.

(** ** Labels read off the context *)
Definition retryCause (c : Context) (err : option error) : string :=
  match HeuristicResult c with
  | Some v => if negb (bool_decide (Reason v = "")) then Reason v else retryReason err
  | None => retryReason err
  end.
Definition supplierAttributed (c : Context) : bool :=
  match HeuristicResult c with
  | Some v => bool_decide (Attribution v = AttrSupplier)
  | None => false
  end.

Definition attemptNote (err : option error) : M string :=
  c ← gets ctx;
  let host := if bool_decide (Domain.Domain (Endpoint c) = "") then "-"
              else Domain.Domain (Endpoint c) in
  p ← match OnProbation env with
      | Some f =>
          if negb (bool_decide (Endpoint c = ""))
          then read (λ w, f w (ServiceID c) (Endpoint c) (RPCType c)) else mret false
      | None => mret false
      end;
  let host := if (p : bool) then host +:+ ":probation" else host in
  mret (match err with None => host +:+ ":ok" | Some _ => host +:+ ":" +:+ retryCause c err end).

(** ** One attempt *)
Definition callNext : M (option error) := λ s,
  let '(err, c, w) := next (ctx s) (world s) in
  (err, mkSt c w (trail s) (tried s) (lastErr s) (kept s) (cause s) (attempts s) (recorded s)
          (log s ++ [mkAttempt (ctx s) c err])).

Definition runAttempt (attemptsLeft : Z) : M (option error) :=
  modify (λ s, set_cause (mkCause "" (pendingCause (cause s)) (limited (cause s))) s);;
  modify (λ s, set_ctx (λ c, with_AttemptKind c
                 (if bool_decide (0 < attempts s) then AttemptRetry else "")) s);;
  modify (λ s, set_attempts (attempts s + 1) s);;
  attemptCtx ← perAttemptContext attemptsLeft;
  saved ← gets (λ s, Ctx (ctx s));
  modify (set_ctx (λ c, with_Ctx c attemptCtx));;
  err ← callNext;
  modify (set_ctx (λ c, with_Ctx c saved));;
  t ← gets trail;
  (if bool_decide (is_Some err) || bool_decide (is_Some t) then
     note ← attemptNote err;
     modify (set_trail (Some (default [] t ++ [note])))
   else mret tt);;
  mret err.

(** The tail of an iteration: [Some r] returns [r], [None] goes on. *)
Definition attemptOnce (cfg : RetryConfig) (start attemptsLeft : Z) : M (option (option error)) :=
  err ← runAttempt attemptsLeft;
  match (err : option error) with
  | None => mret (Some None)
  | Some e =>
      modify (set_lastErr err);;
      if negb (IsRetryable err) then mret (Some err)
      else if bool_decide (0 < MaxLatency cfg) then
        now ← read (Now env);
        if bool_decide (MaxLatency cfg <= GoTime.Sub now start) then mret (Some err) else mret None
      else mret None
  end.

(** ** Between two attempts *)
Definition noteCause : M unit :=
  modify (λ s, set_cause (mkCause (retryCause (ctx s) (lastErr s)) (retriedFor (cause s))
                            (limited (cause s))) s).

(** The answer of the attempt that just failed is kept when it is a node's own. *)
Definition keepable (v : option AnalysisResult) : bool :=
  match v with
  | None => true
  | Some r =>
      negb (bool_decide (Attribution r = AttrSupplier)) ||
      bool_decide (Reason r = ReasonStaleResponse) ||
      bool_decide (Reason r = ReasonLightMethodError)
  end.
Definition keepAnswer : M unit :=
  modify (λ s,
    let c := ctx s in
    if bool_decide (is_Some (Response c)) && Is (lastErr s) ErrRetryVerdict &&
       keepable (HeuristicResult c) &&
       (negb (isStale (HeuristicResult c)) || negb (isStale (keptVerdict (kept s))) ||
        fresherStale (HeuristicResult c) (keptVerdict (kept s)))
    then set_kept (mkKept (Response c) (Endpoint c) (HeuristicResult c) (lastErr s)) s
    else s).

Definition recordRetry : M unit :=
  if recorder env
  then modify (λ s, tell (RecordRetry (ServiceID (ctx s)) (retryReason (lastErr s))) s)
  else mret tt.

(** After a session rollover the list and what was excluded from it are dropped. *)
Definition dropSession : M unit :=
  modify (λ s, set_tried (mkTried None ∅ (triedAffiliates (tried s)) [])
                 (set_ctx (λ c, with_Answer (with_Endpoints c []) None "" None None) s)).

(** The endpoint just tried joins the excluded ones. *)
Definition marked (st : owners) (s : St) : St :=
  let t := tried s in
  let t := match triedEndpoints t with
           | Some _ => t
           | None => mkTried (Some ∅) ∅ (AffiliatesOf EffectiveTLDPlusOne st []) (Endpoints (ctx s))
           end in
  let ep := Endpoint (ctx s) in
  set_tried (mkTried (Some (<[ep := true]> (default ∅ (triedEndpoints t))))
               (<[Operator ep := true]> (triedOperators t))
               (Domain.Add EffectiveTLDPlusOne st (triedAffiliates t) ep) (pool t)) s.
Definition remaining (s : St) : EndpointAddrList :=
  Exclude (pool (tried s)) (default ∅ (triedEndpoints (tried s))).

Definition excludeTried : M EndpointAddrList :=
  st ← read (Owners env);
  modify (marked st);;
  gets remaining.

(** Another operator where one is left that reputation vouches for and that is
    not behind the chain head. *)
Definition preferOperators (operatorAware : bool) (available : EndpointAddrList)
    : M EndpointAddrList :=
  if operatorAware then
    st ← read (Owners env);
    t ← gets tried;
    let narrowed := ExcludeAffiliates EffectiveTLDPlusOne st available (triedAffiliates t) in
    a ← anyVouched narrowed;
    ok ← (if (a : bool) then mret true else b ← anyVouched available; mret (negb b));
    if (ok : bool) then
      stale ← narrowsIntoStale narrowed available;
      mret (if (stale : bool) then available else narrowed)
    else mret available
  else mret available.

(** [None]: stop rather than retry into the same rate limiter. *)
Definition avoidLimiter (available : EndpointAddrList) : M (option EndpointAddrList) :=
  c ← gets cause;
  if limiterVerdict (pendingCause c) then
    t ← gets tried;
    let other := filterEndpoints available (λ ep,
      negb (default false (triedOperators t !! Operator ep))) in
    stop ← (if bool_decide (other = []) then mret true
            else a ← anyVouched other;
                 if (a : bool) then narrowsIntoStale other available else mret true);
    if (stop : bool) then
      modify (set_cause (mkCause (pendingCause c) (pendingCause c) true));; mret None
    else mret (Some other)
  else mret (Some available).

Definition preferArchival (available : EndpointAddrList) : M EndpointAddrList :=
  s ← gets (λ s, (ctx s, pendingCause (cause s)));
  let c := s.1 in
  on ← (if historyRefusal s.2 then read (λ w, IsEnabled env w FeatureFlag.FlagArchivalRetry (ServiceID c))
        else mret false);
  if (on : bool) then
    match ArchivalNarrower (Plugin c) with
    | None => mret available
    | Some n =>
        r ← read (λ w, RetainingEndpoints n w available (Payloads c));
        if (r.2 : bool) then
          a ← anyVouched r.1;
          mret (if (a : bool) then r.1 else available)
        else mret available
    end
  else mret available.

Definition offer (available : EndpointAddrList) : M unit :=
  modify (set_ctx (λ c, with_Answer (with_Endpoints c available) None "" None None)).

(** ** The loop *)
Definition returnLast : M (option (option error)) := e ← gets lastErr; mret (Some e).

(** Choosing the pool of a retry and running it; the two ways out are no
    endpoint left and the rate limiter. *)
Definition retryElsewhere (operatorAware : bool) (cfg : RetryConfig) (start left : Z)
    : M (option (option error)) :=
  available ← excludeTried;
  if bool_decide (available = []) then returnLast
  else
    available ← preferOperators operatorAware available;
    other ← avoidLimiter available;
    match (other : option EndpointAddrList) with
    | None => returnLast
    | Some available =>
        available ← preferArchival available;
        offer available;;
        attemptOnce cfg start left
    end.

Definition iteration (operatorAware : bool) (cfg : RetryConfig) (start maxAttempts n : Z)
    : M (option (option error)) :=
  if bool_decide (0 < n) then
    c ← gets ctx;
    done ← read (λ w, Done env w (Ctx c));
    if (done : bool) then returnLast
    else
      enough ← budgetForRetry start;
      if negb enough then returnLast
      else
        noteCause;;
        keepAnswer;;
        recordRetry;;
        e ← gets lastErr;
        if Is e ErrEndpointsStale
        then dropSession;; attemptOnce cfg start (maxAttempts - n)
        else retryElsewhere operatorAware cfg start (maxAttempts - n)
  else attemptOnce cfg start (maxAttempts - n).

(** [fuel] turns of the loop are left. *)
Fixpoint loop (operatorAware : bool) (cfg : RetryConfig) (start maxAttempts : Z) (fuel : nat) (n : Z)
    : M (option error) :=
  match fuel with
  | O => gets lastErr
  | S fuel =>
      r ← iteration operatorAware cfg start maxAttempts n;
      match (r : option (option error)) with
      | Some err => mret err
      | None => loop operatorAware cfg start maxAttempts fuel (n + 1)
      end
  end.

(** ** The deferred calls, last one first *)
Definition recordResolution (retErr : option error) : M unit :=
  s ← gets cause;
  if bool_decide (retriedFor s = "") || negb (recorder env) then mret tt
  else
    let outcome := if limited s then "limited"
                   else if bool_decide (retErr = None) then "recovered" else "exhausted" in
    modify (λ st, tell (RecordRetryResolution (ServiceID (ctx st)) (retriedFor s) outcome) st).

Definition deliverKept (retErr : option error) : M (option error) :=
  s ← gets (λ s, (ctx s, kept s));
  let '(c, k) := s in
  if bool_decide (is_Some retErr) && bool_decide (is_Some (keptResp k)) &&
     (bool_decide (Response c = None) || supplierAttributed c) &&
     (bool_decide (Response c = None) || negb (fresherStale (HeuristicResult c) (keptVerdict k)))
  then
    modify (set_ctx (λ c, with_Answer c (keptResp k) (keptEndpoint k) (keptVerdict k) (keptErr k)));;
    mret (keptErr k)
  else mret retErr.

Definition publishTrail : M unit :=
  modify (λ s, match trail s with Some t => set_ctx (λ c, with_Attempts c t) s | None => s end).

(** ** [Retry] *)
Definition noTried : Tried := mkTried None ∅ (mkAffiliates ∅ ∅) [].

Definition retryLoop (cfg : RetryConfig) : M (option error) :=
  fillEndpoints;;
  c ← gets ctx;
  operatorAware ← read (λ w, IsEnabled env w FeatureFlag.FlagOperatorAwareSelection (ServiceID c));
  start ← read (Now env);
  let maxAttempts := i64 (MaxRetries cfg + 1) in
  modify (λ s, set_kept (mkKept (Response (ctx s)) (Endpoint (ctx s)) (HeuristicResult (ctx s)) None) s);;
  loop operatorAware cfg start maxAttempts (Z.to_nat maxAttempts) 0.

Definition deferred (err : option error) : M (option error) :=
  recordResolution err;;
  err ← deliverKept err;
  publishTrail;;
  mret err.

Definition HandleRelay : M (option error) :=
  c ← gets ctx;
  on ← (if QuorumArm c then mret false else read (λ w, IsEnabled env w FeatureFlag.FlagRetry (ServiceID c)));
  if negb on then callNext
  else
    let cfg := configFn (ServiceID c) in
    if bool_decide (MaxRetries cfg = 0) then callNext
    else err ← retryLoop cfg; deferred err.

(** A run on a context in a world. *)
Definition initial (c : Context) (w : W) : St :=
  mkSt c w None noTried None (mkKept None "" None None) (mkCause "" "" false) 0 [] [].
Definition Retry (c : Context) (w : W) : option error * St := HandleRelay (initial c w).

(** ** Reasoning about a run *)
#[local] Instance set_world_put : WorldPut set_world.
Proof. split; [intros s; exists (world s); by destruct s|done]. Qed.
#[local] Abbreviation reads := (StateM.reads set_world).
#[local] Abbreviation reads_bind := (StateM.reads_bind set_world).
#[local] Abbreviation reads_ret := (StateM.reads_ret set_world).
#[local] Abbreviation wp_reads := (StateM.wp_reads set_world).

Lemma reads_read {A} (f : W -> A) : reads (read f) (λ _, True).
Proof. intros s. split; [done|]. by eexists. Qed.
Ltac solve_reads := solve_reads_with ltac:(apply reads_read).

(** The readings of the handler. *)
Lemma reads_containsVouched v c eps : reads (containsVouched v c eps) (λ _, True).
Proof. induction eps as [|ep eps IH]; simpl; solve_reads. apply IH. Qed.
Lemma reads_anyVouched eps : reads (anyVouched eps) (λ _, True).
Proof. unfold anyVouched. solve_reads. apply reads_containsVouched. Qed.
Lemma reads_narrowsIntoStale a b : reads (narrowsIntoStale a b) (λ _, True).
Proof. unfold narrowsIntoStale. solve_reads. Qed.
Lemma reads_budgetForRetry start : reads (budgetForRetry start) (λ _, True).
Proof. unfold budgetForRetry. solve_reads. Qed.
Lemma reads_perAttemptContext left : reads (perAttemptContext left) (λ _, True).
Proof. unfold perAttemptContext. solve_reads. Qed.
Lemma reads_attemptNote err : reads (attemptNote err) (λ _, True).
Proof. unfold attemptNote. solve_reads. Qed.

Lemma excludeAffiliates_narrows st l a : narrows l (ExcludeAffiliates EffectiveTLDPlusOne st l a).
Proof.
  unfold ExcludeAffiliates. destruct (_ || _); [apply narrows_refl|]. cbv zeta.
  case_bool_decide; [apply narrows_refl|]. split; [|done].
  intros e [_ He]%list_elem_of_filter. done.
Qed.

Lemma filterFrom_spec kept eps keep :
  default (kept ++ eps) (filterFrom kept eps keep) = kept ++ filter (λ e, keep e = true) eps.
Proof.
  revert kept. induction eps as [|ep eps IH]; intros kept; simpl; [done|].
  destruct (keep ep) eqn:E.
  - rewrite filter_cons_True by done. specialize (IH (kept ++ [ep])). by rewrite <- !(assoc_L (++)) in IH.
  - by rewrite filter_cons_False by congruence.
Qed.
(** The two-phase loop that avoids copying computes the plain filter. *)
Lemma filterEndpoints_spec eps keep : filterEndpoints eps keep = filter (λ e, keep e = true) eps.
Proof. apply (filterFrom_spec [] eps keep). Qed.

Lemma reads_preferOperators oa available :
  reads (preferOperators oa available) (narrows available).
Proof.
  unfold preferOperators. destruct oa; [|apply reads_ret, narrows_refl].
  eapply reads_bind; [apply reads_read|]. intros st _.
  eapply (reads_bind _ _ (λ _, True)); [solve_reads|]. intros t _. cbv zeta.
  eapply reads_bind; [apply reads_anyVouched|]. intros a _.
  eapply (reads_bind _ _ (λ _, True)); [solve_reads; apply reads_anyVouched|].
  intros [] _; [|apply reads_ret, narrows_refl].
  eapply reads_bind; [apply reads_narrowsIntoStale|].
  intros [] _; apply reads_ret; [apply narrows_refl|apply excludeAffiliates_narrows].
Qed.

(** ** What one turn of the loop does

    [turn] lists the outcomes of an iteration after the first, up to the
    readings of the world, and [tries] those of the attempt it may end with. *)
Definition prepared (s : St) : St :=
  (recordRetry ((keepAnswer (noteCause s).2).2)).2.
Definition settled (s : St) (c : Context) (w : W) (t : option (list string)) (b : Context)
    (err : option error) : St :=
  mkSt (with_Ctx c (Ctx (ctx s))) w t (tried s) (match err with None => lastErr s | Some _ => err end)
    (kept s) (mkCause "" (pendingCause (cause s)) (limited (cause s))) (attempts s + 1) (recorded s)
    (log s ++ [mkAttempt b c err]).

Inductive tries (s : St) : option (option error) -> St -> Prop :=
  | tries_intro g k w err c w' t w'' r :
      let b := with_Ctx (with_AttemptKind (ctx s) k) g in
      next b w = (err, c, w') ->
      (err = None /\ r = Some None) \/ (is_Some err /\ r = Some err) \/
        (IsRetryable err = true /\ r = None) ->
      tries s r (settled s c w'' t b err).

Inductive turn (s : St) : option (option error) -> St -> Prop :=
  | turn_stop w : turn s (Some (lastErr s)) (set_world w s)
  | turn_none_left w st :
      Is (lastErr s) ErrEndpointsStale = false -> remaining (marked st (prepared s)) = [] ->
      turn s (Some (lastErr s)) (set_world w (marked st (prepared s)))
  | turn_limited w st :
      Is (lastErr s) ErrEndpointsStale = false ->
      let s' := marked st (prepared s) in
      turn s (Some (lastErr s))
        (set_world w (set_cause (mkCause (pendingCause (cause s')) (pendingCause (cause s')) true) s'))
  | turn_rollover w r s' :
      Is (lastErr s) ErrEndpointsStale = true ->
      tries (set_world w (dropSession (prepared s)).2) r s' -> turn s r s'
  | turn_retry w st available r s' :
      Is (lastErr s) ErrEndpointsStale = false ->
      available <> [] -> available ⊆ remaining (marked st (prepared s)) ->
      tries (set_world w (offer available (marked st (prepared s))).2) r s' -> turn s r s'.

Lemma reads_preferArchival available :
  reads (preferArchival available) (narrows available).
Proof.
  unfold preferArchival. eapply (reads_bind _ _ (λ _, True)); [solve_reads|]. intros s _. cbv zeta.
  eapply (reads_bind _ _ (λ _, True)); [solve_reads|].
  intros [] _; [|apply reads_ret, narrows_refl].
  destruct (ArchivalNarrower _) as [n|]; [|apply reads_ret, narrows_refl].
  apply (reads_bind _ _ (λ r, r.2 = true -> narrows available r.1)).
  { intros st. split; [|by eexists]. simpl.
    destruct (RetainingEndpoints n _ _ _) as [l []] eqn:E; [|done]. intros _.
    apply RetainingEndpoints_ok in E as [? ?]. by split. }
  intros [l []] Hr; simpl in *; [|apply reads_ret, narrows_refl].
  eapply reads_bind; [apply reads_anyVouched|].
  intros [] _; apply reads_ret; auto with sage.
Qed.

Lemma avoidLimiter_spec available s :
  wp (avoidLimiter available) (λ r s', exists w,
    (r = None /\ s' = set_world w (set_cause (mkCause (pendingCause (cause s)) (pendingCause (cause s)) true) s)) \/
    (exists l, r = Some l /\ narrows available l /\ s' = set_world w s)) s.
Proof.
  unfold avoidLimiter. wp_pure.
  destruct (limiterVerdict _).
  2: { exists (world s). right. exists available. split_and!; auto with sage. by destruct s. }
  wp_pure. apply wp_bind.
  set (other := filterEndpoints _ _).
  apply (wp_reads _ (λ stop, stop = true \/ other <> [])).
  { case_bool_decide; [apply reads_ret; by left|].
    eapply reads_bind; [apply reads_anyVouched|]. intros [] _; [|apply reads_ret; by left].
    eapply reads_mono, reads_narrowsIntoStale. by right. }
  intros [] w Hs.
  - apply wp_bind. unfold wp; simpl. exists w. by left.
  - exists w. right. exists other. split_and!; [done| |done].
    split; [|naive_solver]. unfold other. rewrite filterEndpoints_spec.
    by intros e [_ He]%list_elem_of_filter.
Qed.

Lemma set_world_eta s : set_world (world s) s = s.
Proof. by destruct s. Qed.

Lemma runAttempt_spec left s :
  wp (runAttempt left) (λ err s', exists g k w c w' t w'',
    next (with_Ctx (with_AttemptKind (ctx s) k) g) w = (err, c, w') /\
    s' = mkSt (with_Ctx c (Ctx (ctx s))) w'' t (tried s) (lastErr s) (kept s)
           (mkCause "" (pendingCause (cause s)) (limited (cause s))) (attempts s + 1) (recorded s)
           (log s ++ [mkAttempt (with_Ctx (with_AttemptKind (ctx s) k) g) c err])) s.
Proof.
  unfold runAttempt. do 3 (wp_pure). apply wp_bind.
  eapply wp_reads; [apply reads_perAttemptContext|]. intros g w _.
  do 2 (wp_pure). apply wp_bind. unfold wp at 1, callNext. simpl.
  set (k := if bool_decide (0 < attempts s) then AttemptRetry else "").
  destruct (next _ w) as [[err c] w'] eqn:En. simpl.
  do 2 (wp_pure). apply wp_bind.
  destruct (_ || _).
  - apply wp_bind. eapply wp_reads; [apply reads_attemptNote|]. intros note w'' _.
    unfold wp; simpl. by eexists g, k, w, c, w', _, w''.
  - unfold wp; simpl. by eexists g, k, w, c, w', _, w'.
Qed.

Lemma attemptOnce_tries cfg start left s : wp (attemptOnce cfg start left) (tries s) s.
Proof.
  unfold attemptOnce. apply wp_bind. eapply wp_mono; [|apply runAttempt_spec].
  intros err s' (g & k & w & c & w' & t & w'' & En & ->). destruct err as [e|].
  - assert (forall r wx, r = Some (Some e) \/ (IsRetryable (Some e) = true /\ r = None) ->
      tries s r (settled s c wx t (with_Ctx (with_AttemptKind (ctx s) k) g) (Some e))) as HT.
    { intros r wx Hr. eapply tries_intro; [exact En|]. naive_solver. }
    apply wp_bind. change (wp (modify _) ?Q ?s) with (Q tt (set_lastErr (Some e) s)). cbv beta.
    destruct (IsRetryable (Some e)); cbn [negb]; [|apply (HT _ w''); by left].
    case_bool_decide; [|apply (HT _ w''); by right].
    apply wp_bind. eapply wp_reads; [apply reads_read|]. intros now wx _.
    case_bool_decide; apply (HT _ wx); [by left|by right].
  - unfold wp; simpl. eapply (tries_intro s g k w None c w' t w''); [exact En|]. by left.
Qed.

Lemma prepared_frame s :
  ctx (prepared s) = ctx s /\ world (prepared s) = world s /\ tried (prepared s) = tried s /\
  lastErr (prepared s) = lastErr s /\ log (prepared s) = log s.
Proof.
  unfold prepared, recordRetry, keepAnswer, modify. destruct (recorder env); simpl;
    by repeat match goal with |- context [if ?b then _ else _] => destruct b end.
Qed.

Lemma prepared_world w s : prepared (set_world w s) = set_world w (prepared s).
Proof.
  unfold prepared, recordRetry, keepAnswer, noteCause, modify, set_cause, set_world, set_kept, tell.
  destruct (recorder env); simpl;
    by repeat match goal with |- context [if ?b then _ else _] => destruct b end.
Qed.

Lemma excludeTried_spec s :
  wp excludeTried (λ l s', exists st w,
    l = remaining (marked st s) /\ s' = set_world w (marked st s)) s.
Proof.
  unfold excludeTried. apply wp_bind. eapply wp_reads; [apply reads_read|]. intros st w _.
  unfold wp; simpl. by exists st, w.
Qed.

Lemma retryElsewhere_turn oa cfg start left s w :
  Is (lastErr s) ErrEndpointsStale = false ->
  wp (retryElsewhere oa cfg start left) (turn s) (set_world w (prepared s)).
Proof.
  intros Hs. unfold retryElsewhere. apply wp_bind.
  eapply wp_mono; [|apply excludeTried_spec]. intros l0 s0 (st & w1 & -> & ->).
  change (remaining (marked st (set_world w (prepared s)))) with (remaining (marked st (prepared s))).
  change (set_world w1 (marked st _)) with (set_world w1 (marked st (prepared s))).
  destruct (prepared_frame s) as (Hc & _ & _ & He & Hl).
  case_bool_decide as Ha.
  { unfold wp; simpl. rewrite He. by apply turn_none_left. }
  apply wp_bind. eapply wp_reads; [apply reads_preferOperators|]. intros l1 w2 [H1 H1'].
  apply wp_bind. eapply wp_mono; [|apply avoidLimiter_spec].
  intros r s' (w3 & [[-> ->]|(l2 & -> & [H2 H2'] & ->)]).
  { unfold wp; simpl. rewrite He. by apply (turn_limited s w3 st). }
  apply wp_bind. eapply wp_reads; [apply reads_preferArchival|]. intros l3 w4 [H3 H3'].
  wp_pure.
  eapply wp_mono; [|apply attemptOnce_tries]. intros r s' Ht.
  apply (turn_retry s w4 st l3); [done|by auto|set_solver|exact Ht].
Qed.

Lemma iteration_turn oa cfg start maxAttempts n s :
  0 < n -> wp (iteration oa cfg start maxAttempts n) (turn s) s.
Proof.
  intros Hn. unfold iteration. rewrite bool_decide_eq_true_2 by done.
  wp_pure.
  apply wp_bind. eapply wp_reads; [apply reads_read|]. intros [] w1 _; [by apply (turn_stop s w1)|].
  apply wp_bind. eapply wp_reads; [apply reads_budgetForRetry|].
  intros [] w2 _; simpl; [|by apply (turn_stop s w2)].
  do 2 (apply wp_bind; unfold wp at 1). apply wp_bind. unfold wp at 1.
  change ((recordRetry _).2) with (prepared (set_world w2 (set_world w1 s))).
  change (set_world w2 (set_world w1 s)) with (set_world w2 s). rewrite prepared_world.
  destruct (prepared_frame s) as (_ & _ & _ & He & _).
  wp_pure. rewrite He.
  destruct (Is (lastErr s) ErrEndpointsStale) eqn:Hs; [|by apply retryElsewhere_turn].
  wp_pure. eapply wp_mono; [|apply attemptOnce_tries].
  intros r s' Ht. by apply (turn_rollover s w2).
Qed.

(** The rule of the loop: [I n] holds after [n] turns, [Fin err] when the loop
    returns [err]. *)
Definition goes_on (I : nat -> St -> Prop) (Fin : option error -> St -> Prop) (n : nat)
    (r : option (option error)) (s : St) : Prop :=
  match r with None => I (S n) s | Some err => Fin err s end.

Lemma loop_rule oa cfg start maxAttempts (I : nat -> St -> Prop) (Fin : option error -> St -> Prop) s0 :
  0 < maxAttempts ->
  (forall r s, tries s0 r s -> goes_on I Fin 0 r s) ->
  (forall n s r s', (0 < n)%nat -> Z.of_nat n < maxAttempts -> I n s -> turn s r s' ->
     goes_on I Fin n r s') ->
  (forall n s, Z.of_nat n = maxAttempts -> I n s -> Fin (lastErr s) s) ->
  wp (loop oa cfg start maxAttempts (Z.to_nat maxAttempts) 0) Fin s0.
Proof.
  intros Hmax Hfirst Hturn Hend.
  assert (forall fuel n s, (0 < n)%nat -> Z.of_nat (n + fuel) = maxAttempts -> I n s ->
    wp (loop oa cfg start maxAttempts fuel (Z.of_nat n)) Fin s) as Hloop.
  { induction fuel as [|fuel IH]; intros n s Hn Hf HI.
    { apply (Hend n); [lia|done]. }
    simpl. apply wp_bind. eapply wp_mono; [|apply iteration_turn; lia].
    intros r s' Ht. apply (Hturn n) in Ht; [|lia..|done]. destruct r as [err|]; [done|].
    replace (Z.of_nat n + 1) with (Z.of_nat (S n)) by lia. apply IH; [lia..|done]. }
  destruct (Z.to_nat maxAttempts) as [|fuel] eqn:E; [lia|].
  simpl. apply wp_bind. unfold iteration. rewrite bool_decide_eq_false_2 by lia.
  eapply wp_mono; [|apply attemptOnce_tries]. intros r s Ht. apply Hfirst in Ht.
  destruct r as [err|]; [done|]. apply (Hloop fuel 1%nat); [lia..|done].
Qed.

(** ** Attempts: how many, after which failures, on which endpoints *)
Definition retryable (a : attempt) : Prop := IsRetryable (result a) = true.
Definition rolled (a : attempt) : Prop := Is (result a) ErrEndpointsStale = true.

(** No session rollover ended an attempt from the [i]-th to before the [j]-th. *)
Definition same_session (l : list attempt) (i j : nat) : Prop :=
  forall k x, (i <= k < j)%nat -> l !! k = Some x -> ~ rolled x.
Definition spread (l : list attempt) : Prop :=
  forall i j a b, (i < j)%nat -> l !! i = Some a -> l !! j = Some b -> same_session l i j ->
    Endpoint (after a) = Endpoint (after b) -> Endpoint (after b) = "".

Lemma same_session_app l b i j : (j <= length l)%nat -> same_session (l ++ [b]) i j <-> same_session l i j.
Proof.
  intros Hj. unfold same_session. split; intros H k x Hk Hx; apply (H k x Hk).
  - by apply lookup_app_l_Some.
  - by rewrite lookup_app_l in Hx by lia.
Qed.

Lemma spread_app l b :
  spread l ->
  (forall i a, l !! i = Some a -> same_session l i (length l) ->
     Endpoint (after a) = Endpoint (after b) -> Endpoint (after b) = "") ->
  spread (l ++ [b]).
Proof.
  intros Hl Hb i j a b' Hij Ha Hb' Hs Heq.
  assert (j < length (l ++ [b]))%nat as Hj by (by eapply lookup_lt_Some).
  rewrite length_app in Hj. simpl in Hj.
  rewrite lookup_app_l in Ha by lia. rewrite same_session_app in Hs by lia.
  destruct (decide (j < length l)%nat).
  - rewrite lookup_app_l in Hb' by lia. by eapply (Hl i j).
  - replace j with (length l) in * by lia.
    rewrite lookup_app_r, Nat.sub_diag in Hb' by lia. simpl in Hb'. simplify_eq. by eapply Hb.
Qed.

(** The stage below picks from the list it is offered, or not at all. *)
Class PicksOffered : Prop :=
  picks_offered c w err c' w' :
    next c w = (err, c', w') -> Endpoint c = "" -> Endpoints c <> [] ->
    Endpoint c' = "" \/ Endpoint c' ∈ Endpoints c.

(** What the handler knows of the last attempt. *)
Definition answer (c : Context) : EndpointAddr * option Resp * option AnalysisResult :=
  (Endpoint c, Response c, HeuristicResult c).
Definition ended (s : St) (l : list attempt) (a : attempt) : Prop :=
  log s = l ++ [a] /\ answer (ctx s) = answer (after a) /\ (is_Some (result a) -> lastErr s = result a).

Lemma ended_settled s c w t b err :
  ended (settled s c w t b err) (log s) (mkAttempt b c err).
Proof. split_and!; [done..|]. by intros [e [= ->]]. Qed.

(** Every attempt of this session but the last is excluded. *)
Definition covered (s : St) : Prop :=
  forall i a, (S i < length (log s))%nat -> log s !! i = Some a ->
    same_session (log s) i (length (log s) - 1) ->
    default ∅ (triedEndpoints (tried s)) !! Endpoint (after a) = Some true.

Definition spaced (n : nat) (s : St) : Prop :=
  length (log s) = n /\ Forall retryable (log s) /\ (exists l a, ended s l a) /\
  spread (log s) /\ covered s.
Definition bounded (maxAttempts : Z) (_ : option error) (s : St) : Prop :=
  Z.of_nat (length (log s)) <= maxAttempts /\
  (exists l a, log s = l ++ [a] /\ Forall retryable l) /\ spread (log s).

Lemma marked_covers st s l a i x :
  ended s l a -> covered s -> log s !! i = Some x -> same_session (log s) i (length (log s)) ->
  default ∅ (triedEndpoints (tried (marked st s))) !! Endpoint (after x) = Some true.
Proof.
  intros (Hl & Ha & _) Hc Hx Hs.
  assert (triedEndpoints (tried (marked st s)) =
    Some (<[Endpoint (ctx s) := true]> (default ∅ (triedEndpoints (tried s))))) as ->.
  { unfold marked. simpl. by destruct (triedEndpoints (tried s)) eqn:E; simpl; rewrite ?E. }
  simpl. destruct (decide (Endpoint (ctx s) = Endpoint (after x))) as [->|Hne];
    [by rewrite lookup_insert_eq|]. rewrite lookup_insert_ne by done.
  assert (i < length (log s))%nat as Hi by (by eapply lookup_lt_Some).
  destruct (decide (S i = length (log s))) as [He|He].
  - destruct Hne. assert (i = length l) as -> by (rewrite Hl, length_app in He; simpl in He; lia).
    rewrite Hl, lookup_app_r, Nat.sub_diag in Hx by lia. simpl in Hx. simplify_eq.
    unfold answer in Ha. congruence.
  - apply (Hc i); [lia|done|]. intros k y Hk. apply Hs. lia.
Qed.

(** Adding the attempt [tries] made, when its pick is new in its session. *)
Lemma tries_spaced maxAttempts n s0 r s :
  Z.of_nat n < maxAttempts -> length (log s0) = n -> Forall retryable (log s0) -> spread (log s0) ->
  (forall i x, log s0 !! i = Some x -> same_session (log s0) i n ->
     default ∅ (triedEndpoints (tried s0)) !! Endpoint (after x) = Some true /\
     forall err c w w' b, next b w = (err, c, w') -> answer b = ("", None, None) ->
       Endpoints b = Endpoints (ctx s0) ->
       Endpoint (after x) = Endpoint c -> Endpoint c = "") ->
  (n = 0%nat \/ answer (ctx s0) = ("", None, None)) ->
  tries s0 r s -> goes_on spaced (bounded maxAttempts) n r s.
Proof.
  intros Hn Hl Hr Hsp Hcov Hans Ht. destruct Ht as [g k w err c w' t w'' r b Hb Hout].
  assert (spread (log s0 ++ [mkAttempt b c err])) as Hsp'.
  { apply spread_app; [done|]. simpl. intros i x Hx Hs Heq. rewrite Hl in Hs.
    destruct Hans as [->|Hans]; [apply lookup_lt_Some in Hx; lia|].
    destruct (Hcov i x Hx Hs) as [_ Hp]. by eapply (Hp err c w w' b). }
  assert (length (log s0 ++ [mkAttempt b c err]) = S n) as Hlen by (rewrite length_app; simpl; lia).
  assert (bounded maxAttempts err (settled s0 c w'' t b err)) as Hbd.
  { split_and!; simpl; [lia| |done]. by eexists _, _. }
  destruct Hout as [[-> ->]|[[_ ->]|[Hre ->]]]; simpl; [done..|].
  split_and!; [done| | |done|].
  - simpl. apply Forall_app. split; [done|]. by apply Forall_singleton.
  - eexists _, _. apply ended_settled.
  - intros i x Hi Hx Hs. simpl in *. rewrite Hlen in Hi, Hs.
    rewrite lookup_app_l in Hx by lia. rewrite same_session_app in Hs by lia.
    apply (Hcov i); [done|]. intros m y Hm. apply Hs. lia.
Qed.

Lemma ended_world s s' l a :
  ended s l a -> log s' = log s -> ctx s' = ctx s -> lastErr s' = lastErr s -> ended s' l a.
Proof. unfold ended. by intros H -> -> ->. Qed.

Lemma bounded_same maxAttempts n err s s' :
  Z.of_nat n < maxAttempts -> spaced n s -> log s' = log s -> bounded maxAttempts err s'.
Proof.
  intros Hn (Hl & Hr & (l & a & Ha & _) & Hsp & _) E. unfold bounded. rewrite E.
  split_and!; [lia| |done]. exists l, a. split; [done|]. rewrite Ha in Hr. by apply Forall_app in Hr as [? _].
Qed.

Lemma turn_spaced `{!PicksOffered} maxAttempts n s r s' :
  Z.of_nat n < maxAttempts -> spaced n s -> turn s r s' ->
  goes_on spaced (bounded maxAttempts) n r s'.
Proof.
  intros Hn Hsp Ht. destruct (prepared_frame s) as (Ec & _ & Et & Ee & El).
  destruct Ht as [w|w st Hs Hr|w st Hs|w r s' Hs Ht|w st av r s' Hs Hav Hsub Ht]; simpl;
    [by eapply bounded_same..| |].
  - destruct Hsp as (Hl & Hr & (l & a & Ha) & Hsp & Hc).
    eapply tries_spaced; [exact Hn| | | | | |exact Ht]; simpl; rewrite ?El; [done..| |by right].
    intros i x Hx Hss. exfalso. destruct Ha as (Hla & _ & Hla').
    apply lookup_lt_Some in Hx. rewrite Hla in *. rewrite length_app in *. simpl in *.
    apply (Hss (length l) a); [lia|by rewrite lookup_app_r, Nat.sub_diag by lia|].
    unfold rolled. destruct (result a) eqn:E; [|by rewrite Forall_app, Forall_singleton in Hr;
      destruct Hr as [_ Hr]; unfold retryable in Hr; rewrite E in Hr].
    rewrite <- Hla' by done. done.
  - destruct Hsp as (Hl & Hr & (l & a & Ha) & Hsp & Hc).
    eapply tries_spaced; [exact Hn| | | | | |exact Ht]; simpl; rewrite ?El; [done..| |by right].
    intros i x Hx Hss.
    assert (default ∅ (triedEndpoints (tried (marked st (prepared s)))) !! Endpoint (after x) = Some true)
      as Htr.
    { eapply marked_covers; rewrite ?El, ?Hl; [by eapply ended_world| |done..].
      unfold covered. rewrite El, Et. exact Hc. }
    split; [done|]. intros err c w1 w2 b Hb Hans Heps Heq. unfold answer in Hans.
    destruct (picks_offered b w1 err c w2 Hb) as [?|Hin]; [congruence|by rewrite Heps|done|].
    exfalso. rewrite Heps in Hin. simpl in Hin. apply Hsub in Hin. unfold remaining, Exclude in Hin.
    rewrite bool_decide_eq_false_2 in Hin.
    + apply list_elem_of_filter in Hin as [Hf _]. rewrite <- Heq, Htr in Hf. done.
    + intros Hz%map_size_empty_inv. by rewrite Hz in Htr.
Qed.

(** ** From the loop to the handler *)
Definition entered (c : Context) (s : St) : Prop :=
  exists eps w, s = set_kept (mkKept (Response c) (Endpoint c) (HeuristicResult c) None)
                      (initial (with_Endpoints c eps) w).

Lemma fillEndpoints_spec c w :
  wp fillEndpoints (λ _ s, exists eps w', s = initial (with_Endpoints c eps) w') (initial c w).
Proof.
  assert (with_Endpoints c (Endpoints c) = c) as Heta by (by destruct c).
  unfold fillEndpoints. wp_pure.
  destruct (negb _); [exists (Endpoints c), w; by rewrite Heta|].
  destruct (AvailableEndpoints env); [|exists (Endpoints c), w; by rewrite Heta].
  apply wp_bind. eapply wp_reads; [apply reads_read|].
  intros [?|eps] w' _; unfold wp; simpl; [|by exists eps, w'].
  exists (Endpoints c), w'. by rewrite Heta.
Qed.

Lemma Retry_rule c w (Q : option error -> St -> Prop) :
  let maxAttempts := i64 (MaxRetries (configFn (ServiceID c)) + 1) in
  (forall w1 err c' w', next c w1 = (err, c', w') ->
     Q err (mkSt c' w' None noTried None (mkKept None "" None None) (mkCause "" "" false) 0 []
              [mkAttempt c c' err])) ->
  (forall oa start s, entered c s -> MaxRetries (configFn (ServiceID c)) <> 0 ->
     wp (loop oa (configFn (ServiceID c)) start maxAttempts (Z.to_nat maxAttempts) 0)
        (λ err, wp (deferred err) Q) s) ->
  Q (Retry c w).1 (Retry c w).2.
Proof.
  intros maxAttempts Hpass Hloop.
  assert (forall w1, wp callNext Q (initial c w1)) as Hcall.
  { intros w1. unfold wp, callNext. simpl. destruct (next c w1) as [[err c'] w'] eqn:E.
    by apply (Hpass w1). }
  change (wp HandleRelay Q (initial c w)). unfold HandleRelay. wp_pure.
  apply wp_bind. apply (wp_reads _ (λ _, True)); [solve_reads|].
  intros [] w1 _; simpl; [|apply Hcall].
  case_bool_decide as H0; [apply Hcall|]. apply wp_bind. unfold retryLoop. apply wp_bind.
  eapply wp_mono; [|apply fillEndpoints_spec]. intros [] s (eps & w2 & ->).
  wp_pure.
  do 2 (apply wp_bind; eapply wp_reads; [apply reads_read|]; intros ? ? _).
  wp_pure. apply Hloop; [|done]. by eexists _, _.
Qed.

Lemma deferred_spec err s :
  wp (deferred err) (λ err' s', log s' = log s /\ cause s' = cause s /\
    answer (ctx s') = answer (ctx (deliverKept err s).2) /\ err' = (deliverKept err s).1 /\
    recorded s' = recorded (recordResolution err s).2) s.
Proof.
  unfold deferred. apply wp_bind. unfold wp at 1.
  assert (exists ev, (recordResolution err s).2 =
    mkSt (ctx s) (world s) (trail s) (tried s) (lastErr s) (kept s) (cause s) (attempts s) ev (log s))
    as [ev Hev].
  { unfold recordResolution, mbind, M_bind, gets. destruct (_ || _);
      [exists (recorded s); by destruct s|by eexists]. }
  rewrite Hev.
  unfold wp, deliverKept, publishTrail, modify, gets, mbind, M_bind, mret, M_ret. simpl.
  destruct (_ && _ && _ && _); simpl; destruct (trail s); by split_and!.
Qed.

Lemma attempts_spread `{!PicksOffered} c w :
  let s := (Retry c w).2 in
  let maxRetries := MaxRetries (configFn (ServiceID c)) in
  0 <= maxRetries < max_i64 ->
  1 <= Z.of_nat (length (log s)) <= maxRetries + 1 /\
  (exists l a, log s = l ++ [a] /\ Forall retryable l) /\ spread (log s).
Proof.
  intros s maxRetries Hm.
  assert (bounded (maxRetries + 1) None s) as (H1 & (l & a & Ha & Hl) & H3).
  { unfold s. apply (Retry_rule c w (λ _, bounded (maxRetries + 1) None)).
    - intros w1 err c' w' _. split_and!; simpl; [lia|by exists [], (mkAttempt c c' err)|].
      intros i j x y Hij Hx Hy. apply lookup_lt_Some in Hx, Hy. simpl in *. lia.
    - intros oa start s0 (eps & w0 & ->) H0.
      fold maxRetries. rewrite i64_small by (unfold min_i64, max_i64 in *; lia).
      eapply wp_mono, (loop_rule _ _ _ _ spaced (bounded (maxRetries + 1))); [| lia |..].
      + intros err s1 Hb. eapply wp_mono, deferred_spec. intros err' s2 (El & _).
        unfold bounded. by rewrite El.
      + intros r s1. apply (tries_spaced (maxRetries + 1) 0); simpl; [lia|done..| |by left].
        intros i x Hx. by apply lookup_lt_Some in Hx; simpl in Hx; lia.
      + intros n s1 r s2 _ Hn. by apply turn_spaced.
      + intros n s1 Hn (Hl & Hr & (l & a & Ha & _) & Hsp & _).
        split_and!; [lia| |done]. exists l, a. split; [done|].
        rewrite Ha in Hr. by apply Forall_app in Hr as [? _]. }
  split_and!; [|lia|by exists l, a|done]. rewrite Ha, length_app. simpl. lia.
Qed.


(** ** The answer that is delivered *)
Definition own (v : option AnalysisResult) (r : option Resp) : Prop :=
  is_Some r /\ keepable v = true.
Definition answered (a : attempt) : Prop :=
  own (HeuristicResult (after a)) (Response (after a)) /\ Is (result a) ErrRetryVerdict = true.

Record keeps (s : St) (l : list attempt) : Prop := {
  keeps_own : is_Some (keptResp (kept s)) -> keepable (keptVerdict (kept s)) = true;
  keeps_err : is_Some (keptResp (kept s)) -> is_Some (keptErr (kept s));
  keeps_all : Exists answered l -> is_Some (keptResp (kept s));
  keeps_none : keptResp (kept s) = None -> keptVerdict (kept s) = None
}.
Definition keeping (_ : nat) (s : St) : Prop :=
  exists l a, ended s l a /\ is_Some (lastErr s) /\ lastErr s = result a /\ keeps s l.
Definition kept_at_end (err : option error) (s : St) : Prop :=
  exists l a, ended s l a /\ result a = err /\ keeps s l.

Lemma keeps_ext s s' l : kept s' = kept s -> keeps s l -> keeps s' l.
Proof. intros E [? ? ? ?]. by split; rewrite E. Qed.

(** Preparing a retry takes the answer of the attempt that just failed. *)
Lemma prepared_keeps s l a :
  ended s l a -> lastErr s = result a -> is_Some (lastErr s) -> keeps s l ->
  keeps (prepared s) (l ++ [a]).
Proof.
  intros (_ & Ha & _) He Hsome [K1 K2 K3 K4]. unfold answer in Ha.
  apply (keeps_ext (keepAnswer (noteCause s).2).2).
  { unfold prepared, recordRetry. by destruct (recorder env). }
  unfold keepAnswer, modify. simpl.
  destruct (_ && _ && _ && _) eqn:E; split; simpl; try tauto.
  - intros _. by apply andb_prop in E as [[_ ?]%andb_prop _].
  - intros _. by apply andb_prop in E as [[[?%bool_decide_eq_true _]%andb_prop _]%andb_prop _].
  - intros H. by apply andb_prop in E as [[[[x ?]%bool_decide_eq_true _]%andb_prop _]%andb_prop _]; congruence.
  - rewrite Exists_app, Exists_cons, Exists_nil. intros [?|[[[Hr Hk] Hv]|[]]]; [by apply K3|].
    destruct (keptResp (kept s)) eqn:Ek; [done|]. exfalso.
    rewrite <- He in Hv. assert (HeuristicResult (ctx s) = HeuristicResult (after a)) as Hh by congruence.
    assert (Response (ctx s) = Response (after a)) as Hr' by congruence.
    rewrite Hh, Hr', Hv, Hk, (K4 eq_refl), bool_decide_eq_true_2 in E by done. simpl in E.
    by rewrite orb_true_r in E.
Qed.

Lemma tries_keeping n s r s' :
  keeps s (log s) -> tries s r s' -> goes_on keeping kept_at_end n r s'.
Proof.
  intros Hk Ht. destruct Ht as [g k w err c w' t w'' r b Hb Hout].
  pose proof (ended_settled s c w'' t b err) as He.
  destruct Hout as [[-> ->]|[[_ ->]|[Hre ->]]]; simpl.
  1,2: eexists _, _; split_and!; [exact He|done|by apply (keeps_ext s)].
  apply retryable_inv in Hre as (? & ? & ? & ->).
  eexists _, _; split_and!; [exact He|by eexists|done|by apply (keeps_ext s)].
Qed.

Lemma turn_keeping n s r s' :
  keeping n s -> turn s r s' -> goes_on keeping kept_at_end n r s'.
Proof.
  intros (l & a & He & Hs & Hl & Hk) Ht. destruct (prepared_frame s) as (Ec & _ & Et & Ee & El).
  assert (keeps (prepared s) (l ++ [a])) as Hk' by (by apply prepared_keeps).
  assert (keeps (prepared s) l) as Hk''.
  { destruct Hk' as [? ? K ?]. split; try done. intros. apply K, Exists_app. by left. }
  assert (log s = l ++ [a]) as Hlog by apply He.
  destruct Ht as [w|w st Hst Hr|w st Hst|w r s' Hst Ht|w st av r s' Hst Hav Hsub Ht]; simpl.
  1: exists l, a; split_and!; [by apply (ended_world s)|done|by apply (keeps_ext s)].
  1,2: exists l, a; split_and!; [by apply (ended_world s)|done|by apply (keeps_ext (prepared s))].
  - eapply tries_keeping, Ht. simpl. rewrite El, Hlog. by apply (keeps_ext (prepared s)).
  - eapply tries_keeping, Ht. simpl. rewrite El, Hlog. by apply (keeps_ext (prepared s)).
Qed.

Lemma fresher_keepable a b : fresherStale a b = true -> keepable a = true.
Proof.
  unfold fresherStale, isStale, keepable. destruct a as [r|]; [|done].
  intros [[-> _]%andb_prop _]%andb_prop. by rewrite orb_true_r.
Qed.

Lemma deliver_own err s l a :
  ended s l a -> keeps s l -> is_Some err -> Exists answered (l ++ [a]) ->
  let s' := (deliverKept err s).2 in own (HeuristicResult (ctx s')) (Response (ctx s')).
Proof.
  intros (_ & Ha & _) [K1 K2 K3 K4] Herr Hex. unfold answer in Ha.
  assert (Hk : is_Some (keptResp (kept s)) -> own (keptVerdict (kept s)) (keptResp (kept s)))
    by (by split; auto).
  assert (Hlast : ~ is_Some (keptResp (kept s)) -> own (HeuristicResult (ctx s)) (Response (ctx s))).
  { intros Hn. apply Exists_app in Hex as [?|[[? _]|[]%Exists_nil]%Exists_cons]; [tauto|].
    by replace (HeuristicResult (ctx s)) with (HeuristicResult (after a)) by congruence;
      replace (Response (ctx s)) with (Response (after a)) by congruence. }
  unfold deliverKept, gets, mbind, M_bind. simpl. rewrite (bool_decide_eq_true_2 (is_Some err)) by done.
  case_bool_decide as Hs; simpl; [|by apply Hlast].
  case_bool_decide as Hr; simpl; [by apply Hk|].
  destruct (supplierAttributed (ctx s)) eqn:Esup; simpl.
  - destruct (fresherStale _ _) eqn:Ef; simpl; [|by apply Hk].
    split; [by apply not_eq_None_Some|by eapply fresher_keepable].
  - split; [by apply not_eq_None_Some|]. unfold supplierAttributed in Esup. unfold keepable.
    destruct (HeuristicResult (ctx s)); [|done]. by rewrite Esup.
Qed.

(** C12. A node's own answer is never lost to a retry: if any attempt came back
    with one (a response that is not the supplier's page, under a retry
    verdict) and the request still ends in an error, what is delivered is a
    node's own answer, never a supplier's page and never nothing. *)
Theorem node_answer_is_delivered c w :
  let s := (Retry c w).2 in
  Response c = None -> HeuristicResult c = None ->
  Exists answered (log s) -> is_Some (Retry c w).1 ->
  own (HeuristicResult (ctx s)) (Response (ctx s)).
Proof.
  intros s Hr Hh. apply (Retry_rule c w (λ err s, Exists answered (log s) -> is_Some err ->
    own (HeuristicResult (ctx s)) (Response (ctx s)))).
  { intros w1 err c' w' _. simpl. by intros [[? _]|[]%Exists_nil]%Exists_cons _. }
  intros oa start s0 (eps & w0 & ->) H0. set (n := i64 _).
  destruct (decide (0 < n)) as [Hn|Hn].
  2: { replace (Z.to_nat n) with 0%nat by lia. unfold wp at 1; simpl.
       eapply wp_mono, deferred_spec. intros err' s2 (El & _). rewrite El. simpl. by intros []%Exists_nil. }
  eapply wp_mono, (loop_rule _ _ _ _ keeping kept_at_end); [|done|..].
  - intros err s1 (l & a & He & Hres & Hk). eapply wp_mono, deferred_spec.
    intros err' s2 (El & _ & Ha & -> & _) Hex Herr. unfold answer in Ha.
    assert (is_Some err) as Hse.
    { revert Herr. unfold deliverKept, gets, mbind, M_bind. simpl.
      destruct (bool_decide (is_Some err)) eqn:Eb; [by apply bool_decide_eq_true in Eb|done]. }
    rewrite El in Hex. destruct He as (Hl & He). rewrite Hl in Hex.
    pose proof (deliver_own err s1 l a (conj Hl He) Hk Hse Hex) as Hown. simpl in Hown.
    by replace (HeuristicResult (ctx s2)) with (HeuristicResult (ctx (deliverKept err s1).2)) by congruence;
      replace (Response (ctx s2)) with (Response (ctx (deliverKept err s1).2)) by congruence.
  - intros r s1 Ht. eapply tries_keeping, Ht. split; simpl; rewrite ?Hr, ?Hh; try by intros [? ?].
    + by intros []%Exists_nil.
    + done.
  - intros m s1 r s2 _ _. apply turn_keeping.
  - intros m s1 _ (l & a & He & Hs & Hl & Hk). by exists l, a.
Qed.

(** ** What the recorder is told *)
Definition isRetry (e : event) : bool := match e with RecordRetry _ _ => true | _ => false end.
Definition retries (l : list event) : nat := length (filter (λ e, isRetry e = true) l).
Definition resolutions (l : list event) : list string :=
  omap (λ e, match e with RecordRetryResolution _ _ o => Some o | _ => None end) l.

Lemma retryReason_label err : retryReason err <> "".
Proof. unfold retryReason. destruct (Is _ _); [done|]. by destruct (As err) as [[[] ?]|]. Qed.
Lemma retryCause_label c err : retryCause c err <> "".
Proof.
  unfold retryCause. destruct (HeuristicResult c); [|apply retryReason_label].
  case_bool_decide; [apply retryReason_label|done].
Qed.

(** [n] attempts have run and [d] retries were decided on. *)
Record counted (d n : nat) (s : St) : Prop := {
  counted_log : length (log s) = n;
  counted_retries : recorder env = true -> retries (recorded s) = d;
  counted_open : resolutions (recorded s) = [];
  counted_cause : limited (cause s) = false -> retriedFor (cause s) <> "" <-> (2 <= n)%nat;
  counted_limited : limited (cause s) = true -> retriedFor (cause s) <> "" /\ is_Some (lastErr s)
}.
Definition counting (n : nat) (s : St) : Prop :=
  counted (n - 1) n s /\ limited (cause s) = false /\ is_Some (lastErr s).
Definition counts (err : option error) (s : St) : Prop :=
  exists d n, counted d n s /\ (n - 1 <= d <= n)%nat /\ (limited (cause s) = true -> is_Some err).

Lemma prepared_counts n s :
  counting n s -> (0 < n)%nat ->
  length (log (prepared s)) = n /\ (recorder env = true -> retries (recorded (prepared s)) = n) /\
  resolutions (recorded (prepared s)) = [] /\ limited (cause (prepared s)) = false /\
  retriedFor (cause (prepared s)) = retriedFor (cause s) /\ pendingCause (cause (prepared s)) <> "".
Proof.
  intros ([H1 H2 H3 _ _] & H4 & _) Hn. destruct (prepared_frame s) as (_ & _ & _ & _ & El).
  assert (cause (prepared s) = mkCause (retryCause (ctx s) (lastErr s)) (retriedFor (cause s))
    (limited (cause s)) /\ recorded (prepared s) = recorded s ++
    (if recorder env then [RecordRetry (ServiceID (ctx s)) (retryReason (lastErr s))] else [])) as [-> ->].
  { unfold prepared, recordRetry, keepAnswer, modify. destruct (recorder env); simpl;
      repeat match goal with |- context [if ?b then _ else _] => destruct b end;
      by rewrite ?app_nil_r. }
  rewrite El. unfold retries, resolutions. rewrite omap_app, filter_app, length_app.
  split_and!; [done| | |done..|apply retryCause_label].
  - intros Hr. rewrite Hr. unfold retries in H2. rewrite H2 by done. simpl. lia.
  - unfold resolutions in H3. rewrite H3. by destruct (recorder env).
Qed.

Lemma tries_counting n s r s' :
  length (log s) = n -> (recorder env = true -> retries (recorded s) = n) ->
  resolutions (recorded s) = [] -> limited (cause s) = false ->
  (pendingCause (cause s) <> "" <-> (0 < n)%nat) ->
  tries s r s' -> goes_on counting counts n r s'.
Proof.
  intros H1 H2 H3 H4 H5 Ht. destruct Ht as [g k w err c w' t w'' r b Hb Hout].
  assert (counted n (S n) (settled s c w'' t b err)) as Hc.
  { split; simpl; [rewrite length_app; simpl; lia|done|done| |congruence].
    intros _. rewrite H5. lia. }
  destruct Hout as [[-> ->]|[[_ ->]|[Hre ->]]]; simpl.
  1,2: exists n, (S n); split_and!; [exact Hc|lia..|by simpl; rewrite H4].
  apply retryable_inv in Hre as (? & ? & ? & ->).
  split_and!; [by replace (S n - 1)%nat with n by lia|done|by eexists].
Qed.

Lemma turn_counting n s r s' :
  (0 < n)%nat -> counting n s -> turn s r s' -> goes_on counting counts n r s'.
Proof.
  intros Hn Hc Ht. pose proof (prepared_counts n s Hc Hn) as (P1 & P2 & P3 & P4 & P5 & P6).
  destruct Hc as (Hc & Hl & He). destruct (prepared_frame s) as (_ & _ & _ & Ee & _).
  destruct Ht as [w|w st Hst Hr|w st Hst|w r s' Hst Ht|w st av r s' Hst Hav Hsub Ht]; simpl.
  - exists (n - 1)%nat, n. split_and!; [by destruct Hc|lia..|done].
  - exists n, n. split_and!; [|lia..|done]. destruct Hc as [? ? ? Hcc ?].
    split; simpl; rewrite ?P4; try done. intros _. rewrite P5. by apply Hcc.
  - exists n, n. split_and!; [|lia..|done]. split; simpl; try done. intros _. by rewrite Ee.
  - eapply tries_counting, Ht; simpl; first [done|by split].
  - eapply tries_counting, Ht; simpl; first [done|by split].
Qed.

Lemma goes_on_and I J F G n r s :
  goes_on I F n r s -> goes_on J G n r s ->
  goes_on (λ n s, I n s /\ J n s) (λ e s, F e s /\ G e s) n r s.
Proof. by destruct r. Qed.

Lemma deliver_err err s l : keeps s l -> (deliverKept err s).1 = None <-> err = None.
Proof.
  intros [_ K2 _ _]. unfold deliverKept, gets, mbind, M_bind. simpl.
  case_bool_decide as Hs; simpl; [|done]. case_bool_decide as Hk; simpl; [|done].
  destruct (K2 Hk) as [e He], Hs as [e' ->]. destruct (_ && _); simpl; by rewrite ?He.
Qed.

Definition accounted (err : option error) (s : St) : Prop :=
  (length (log s) - 1 <= retries (recorded s) <= length (log s))%nat /\
  (resolutions (recorded s) = [] /\ (length (log s) <= 1)%nat /\ limited (cause s) = false \/
   exists outcome, resolutions (recorded s) = [outcome] /\
     ((2 <= length (log s))%nat \/ limited (cause s) = true) /\
     (outcome = "recovered" <-> err = None) /\ (outcome = "limited" <-> limited (cause s) = true)).

Lemma deferred_accounted err s l :
  recorder env = true -> counts err s -> keeps s l -> wp (deferred err) accounted s.
Proof.
  intros Hrec (d & n & [C1 C2 C3 C4 C5] & Hd & Herr) Hk. eapply wp_mono, deferred_spec.
  intros err' s2 (El & Ec & _ & -> & Er). unfold accounted. rewrite El, Ec, Er, C1.
  unfold recordResolution, gets, mbind, M_bind, retries, resolutions in *. rewrite Hrec. simpl.
  rewrite orb_false_r. case_bool_decide as Hf.
  - simpl. rewrite (C2 Hrec). split; [done|]. left.
    destruct (limited (cause s)); [by destruct (C5 eq_refl)|].
    split_and!; [done| |done]. specialize (C4 eq_refl).
    destruct (decide (2 <= n)%nat) as [H2|?]; [|lia]. by apply C4 in H2.
  - simpl. rewrite filter_app, omap_app, length_app, (C2 Hrec), C3. simpl.
    rewrite Nat.add_0_r. split; [done|]. right. eexists. split; [reflexivity|].
    rewrite (deliver_err err s l Hk).
    destruct (limited (cause s)).
    + split_and!; [by right| |done]. destruct (Herr eq_refl) as [e ->]. by split.
    + split_and!; [left; by apply C4|by case_bool_decide|by case_bool_decide].
Qed.

(** The recorder's counts: at most one resolution per request; one exactly
    when a retry ran or was refused for a rate limit; it says [recovered]
    exactly when the request ends without error; and a retry is counted once
    per further attempt, with at most one count more (a retry that was decided
    on and found no endpoint to go to). *)
Theorem resolutions_count_real_retries c w :
  recorder env = true -> Response c = None -> HeuristicResult c = None ->
  accounted (Retry c w).1 (Retry c w).2.
Proof.
  intros Hrec Hr Hh. apply (Retry_rule c w accounted).
  { intros w1 err c' w' _. split; [cbn; lia|]. left. by split_and!. }
  intros oa start s0 (eps & w0 & ->) H0. set (n := i64 _).
  set (s0 := set_kept _ _).
  assert (keeps s0 []) as Hk0.
  { split; simpl; rewrite ?Hr, ?Hh; try done; by intros []%Exists_nil || intros [? ?]. }
  destruct (decide (0 < n)) as [Hn|Hn].
  2: { replace (Z.to_nat n) with 0%nat by lia. unfold wp at 1; simpl.
       eapply deferred_accounted; [done| |exact Hk0]. exists 0%nat, 0%nat.
       split_and!; [|lia..|done]. split; simpl; try done. intros _. split; [done|intros H; cbn in H; lia]. }
  eapply wp_mono, (loop_rule _ _ _ _ (λ n s, keeping n s /\ counting n s)
    (λ e s, kept_at_end e s /\ counts e s)); [|done|..].
  - intros err s ((l & a & _ & _ & Hk) & Hc). by eapply deferred_accounted.
  - intros r s Ht. apply goes_on_and; [by apply (tries_keeping 0 s0)|].
    eapply tries_counting, Ht; simpl; try done. split; [done|intros H; cbn in H; lia].
  - intros m s r s' Hm _ [Hk Hc] Ht. apply goes_on_and; [by eapply turn_keeping|by eapply turn_counting].
  - intros m s _ [(l & a & He & Hs & Hl & Hk) (Hc & Hl' & Hs')]. split; [by exists l, a|].
    exists (m - 1)%nat, m. split_and!; [done|lia..|done].
Qed.

(** A negative [max_retries], which loading a configuration accepts, sends
    nothing: the stages below never run and the request ends without an error
    and without a response. *)
Theorem negative_retries_send_nothing c w :
  QuorumArm c = false -> IsEnabled env w FeatureFlag.FlagRetry (ServiceID c) = true ->
  min_i64 <= MaxRetries (configFn (ServiceID c)) < 0 -> Response c = None ->
  (Retry c w).1 = None /\ log (Retry c w).2 = [] /\ Response (ctx (Retry c w).2) = None.
Proof.
  intros Hq Hf Hm Hr.
  change (wp HandleRelay (λ err s, err = None /\ log s = [] /\ Response (ctx s) = None) (initial c w)).
  unfold HandleRelay. wp_pure. rewrite Hq.
  wp_pure. rewrite Hf. simpl.
  rewrite bool_decide_eq_false_2 by lia. apply wp_bind. unfold retryLoop. apply wp_bind.
  eapply wp_mono; [|apply fillEndpoints_spec]. intros [] s (eps & w2 & ->).
  wp_pure.
  do 2 (apply wp_bind; eapply wp_reads; [apply reads_read|]; intros ? ? _).
  wp_pure.
  rewrite i64_small by (unfold min_i64, max_i64 in *; lia).
  replace (Z.to_nat _) with 0%nat by lia. unfold wp at 1; simpl.
  eapply wp_mono, deferred_spec. intros err s (El & _ & Ea & -> & _). by injection Ea as _ -> _.
Qed.

(** Every attempt gets its [relay_timeout]: with the request's deadline
    scaled by the number of attempts, an attempt that starts after the earlier
    ones kept to theirs is bounded no sooner than a full [relay_timeout]
    later, on a clock that does not run backwards. *)
Theorem attempts_keep_their_timeout relayTimeout cfg t0 n s :
  (forall w, Now env w <= Now env (pass env w)) ->
  0 < relayTimeout -> 0 <= n <= MaxRetries cfg -> relayTimeout * (MaxRetries cfg + 1) <= max_i64 ->
  Deadline (Ctx (ctx s)) = Some (t0 + AttemptScaledTimeout relayTimeout (Some cfg)) ->
  Now env (world s) <= t0 + n * relayTimeout ->
  wp (perAttemptContext (MaxRetries cfg + 1 - n)) (λ g _, exists dl,
    Deadline g = Some dl /\ Now env (world s) + relayTimeout <= dl) s.
Proof.
  intros Hclock Hrt Hn Hov Hdl Hnow.
  assert (AttemptScaledTimeout relayTimeout (Some cfg) = relayTimeout * (MaxRetries cfg + 1)) as Hs.
  { unfold AttemptScaledTimeout. rewrite bool_decide_eq_false_2 by lia. case_bool_decide.
    - unfold max_i64 in Hov. assert (MaxRetries cfg + 1 <= relayTimeout * (MaxRetries cfg + 1)) by nia.
      rewrite (i64_small (MaxRetries cfg + 1)) by (unfold min_i64, max_i64; lia).
      apply i64_small. unfold min_i64, max_i64. lia.
    - replace (MaxRetries cfg) with 0 by lia. lia. }
  rewrite Hs in Hdl. clear Hs. set (N := MaxRetries cfg) in *. set (now := Now env (world s)) in *.
  assert (now + relayTimeout * (N + 1 - n) <= t0 + relayTimeout * (N + 1)) as Hroom by nia.
  assert (now + relayTimeout <= t0 + relayTimeout * (N + 1)) as Hroom1 by nia.
  unfold perAttemptContext. wp_pure. rewrite Hdl.
  case_bool_decide as Hl; [unfold wp; simpl; by eexists|].
  wp_pure. fold now.
  case_bool_decide; [unfold wp; simpl; by eexists|].
  wp_pure. unfold wp; simpl. unfold WithTimeout. rewrite Hdl.
  set (dl := t0 + relayTimeout * (N + 1)) in *.
  assert (relayTimeout <= Z.quot (GoTime.Sub dl now) (N + 1 - n)) as Hq.
  { apply Z.quot_le_lower_bound; [lia|]. unfold GoTime.Sub. unfold max_i64, min_i64 in *. nia. }
  specialize (Hclock (world s)). fold now in Hclock.
  case_bool_decide; simpl; rewrite ?Hdl; eexists; (split; [reflexivity|lia]).
Qed.
End Handler.

(** ** A concrete chain: a script of answers, each from the first endpoint offered *)
Definition demoScript : Type := list (option error * option string * option AnalysisResult).
Definition demoContext : Type := @Context demoScript string unit unit.
Definition demoEnv : @Env demoScript :=
  mkEnv id (λ _, 0) (λ _ _, false) (λ _ _ _, true) (λ _, emptyOwners)
    (Some (λ _ _ _ _, true)) None None true.
Definition demoNext : @NextHandler demoScript string unit unit := λ c w,
  match w with
  | [] => (None, with_Answer c (Some "fresh") (hd "" (Endpoints c)) None None, [])
  | (e, r, v) :: w => (e, with_Answer c r (hd "" (Endpoints c)) v e, w)
  end.
Definition demoConfig (n : Z) : string -> RetryConfig := λ _,
  mkRetryConfig true false n 0 false false false 0 0 0 0.
Definition demoRequest (eps : EndpointAddrList) : demoContext :=
  mkContext (mkGoCtx None) "eth" "json_rpc" noPlugin [] "" [] eps None None None false "" tt.
Definition demoRetry (n : Z) (eps : EndpointAddrList) (script : demoScript) :=
  Retry (λ h, Some h) demoEnv demoNext (demoConfig n) (demoRequest eps) script.

Definition demoPool : EndpointAddrList :=
  ["s1-https://a.net"; "s2-https://b.net"; "s3-https://c.net"; "s4-https://d.net"].
Definition verdict (cause : option error) : option error :=
  Some (RelayError ErrEndpoint "retry" cause true).
Definition retryVerdict : option error := verdict (Some (Sentinel ErrRetryVerdict)).
Definition notFound : AnalysisResult :=
  mkAnalysis true false false "" AttrBlockchain (lit 1 1) ReasonBlockchainError "" false 0 0.
Definition staleBy (n : Z) : AnalysisResult := StaleResponse (λ _, "") n.

#[export] Instance demo_picks : PicksOffered demoNext.
Proof.
  intros c w err c' w' Hn _ He. right.
  assert (Endpoint c' = hd "" (Endpoints c)) as ->
    by (destruct w as [|[[? ?] ?] ?]; simpl in Hn; by simplify_eq).
  destruct (Endpoints c); [done|]. by left.
Qed.


Lemma node_answer_is_delivered_witness :
  let s := (demoRetry 1 demoPool
    [(retryVerdict, Some "block not found", Some notFound); (verdict None, None, None)]).2 in
  Response (ctx s) = Some "block not found" /\ own (HeuristicResult (ctx s)) (Response (ctx s)).
Proof.
  split; [vm_compute; reflexivity|].
  apply (node_answer_is_delivered (λ h, Some h) demoEnv demoNext (demoConfig 1) (demoRequest demoPool)
    [(retryVerdict, Some "block not found", Some notFound); (verdict None, None, None)]); [done..| |].
  - vm_compute. apply Exists_cons_hd. repeat split. by eexists.
  - vm_compute. by eexists.
Defined.

Lemma resolutions_count_real_retries_witness :
  let r := demoRetry 1 demoPool [(verdict None, None, None)] in
  resolutions (recorded r.2) = ["recovered"] /\ accounted r.1 r.2.
Proof.
  split; [vm_compute; reflexivity|]. by apply resolutions_count_real_retries.
Defined.

Lemma negative_retries_send_nothing_witness :
  let r := demoRetry (-1) demoPool [] in
  r.1 = None /\ log r.2 = [] /\ Response (ctx r.2) = None.
Proof.
  apply (negative_retries_send_nothing (λ h, Some h) demoEnv demoNext (demoConfig (-1))
    (demoRequest demoPool) []); by vm_compute.
Defined.

Lemma attempts_keep_their_timeout_witness :
  let c := with_Ctx (demoRequest demoPool) (mkGoCtx (Some (10 * second))) in
  wp (perAttemptContext demoEnv 2) (λ g _, exists dl, Deadline g = Some dl /\ 5 * second <= dl)
    (initial c []).
Proof.
  cbv zeta. apply (attempts_keep_their_timeout demoEnv (5 * second) (demoConfig 1 "eth") 0 0);
    by vm_compute.
Defined.

(** A retry that finds no endpoint to go to is counted, though none ran. *)
Theorem retry_counted_without_attempt :
  let s := (demoRetry 1 ["s1-https://a.net"] [(verdict None, None, None)]).2 in
  length (log s) = 1%nat /\ retries (recorded s) = 1%nat /\ resolutions (recorded s) = [].
Proof. by vm_compute. Qed.

(** Of two stale answers the one 100 blocks behind is delivered over the one 3
    blocks behind, when another node's error came between them. *)
Theorem staler_answer_can_stand :
  let s := (demoRetry 3 demoPool
    [(retryVerdict, Some "head-3", Some (staleBy 3)); (retryVerdict, Some "not found", Some notFound);
     (retryVerdict, Some "head-100", Some (staleBy 100)); (verdict None, None, None)]).2 in
  Response (ctx s) = Some "head-100".
Proof. by vm_compute. Qed.
End Retry.
