(* ===== verification/RepSelector.v ===== *)
(** * RepSelector: reputation tiers and the operator cap

    Models [reputation/selector.go], [reputation/concentration.go] and
    [reputation/selector_spread.go].

    The generator [math/rand] is threaded as a counter: draw number [k] reads
    [rawInt k] or [rawFloat k], two arbitrary sequences, so a theorem about
    [Select] holds for every sequence of draws.  The scores are binary64.
    The concentration cap is written over an interface of number operations
    ([Num]) with two instances: binary64, which computes what the program
    computes, and the rationals, in which the conservation and cap theorems of
    [waterFill] are exact. *)

From Stdlib Require Import QArith Qminmax Lqa Factorial.
From S2P Require Import Prelude Float64 Domain.
#[local] Open Scope Z_scope.

Module RepSelector.
Import Domain.

(** ** Randomness *)
Definition Rnd (A : Type) : Type := nat -> A * nat.
Definition rret {A} (a : A) : Rnd A := λ k, (a, k).
Definition rbind {A B} (m : Rnd A) (f : A -> Rnd B) : Rnd B := λ k, let '(a, k) := m k in f a k.
Declare Scope rnd_scope.
Delimit Scope rnd_scope with rnd.
Notation "x <~ m ;; f" := (rbind m (λ x, f))
  (at level 100, m at next level, right associativity) : rnd_scope.

Fixpoint rfold {A B} (f : A -> B -> Rnd A) (a : A) (l : list B) : Rnd A :=
  match l with
  | [] => rret a
  | b :: l => rbind (f a b) (λ a, rfold f a l)
  end.

(** ** Numbers *)
Class Num (N : Type) := {
  n0 : N; nadd : N -> N -> N; nsub : N -> N -> N; nmul : N -> N -> N; ndiv : N -> N -> N;
  nltb : N -> N -> bool; nleb : N -> N -> bool; neqb : N -> N -> bool; nmin : N -> N -> N; nlit : Z -> Z -> N
}.
#[export] Instance num_f64 : Num f64 := {
  n0 := f0; nadd := fadd; nsub := fsub; nmul := fmul; ndiv := fdiv;
  nltb := fltb; nleb := fleb; neqb := feqb; nmin := fmin; nlit := lit
}.
#[export] Instance num_Q : Num Q := {
  n0 := 0%Q; nadd := Qplus; nsub := Qminus; nmul := Qmult; ndiv := Qdiv;
  nltb := λ x y, negb (Qle_bool y x); nleb := Qle_bool; neqb := Qeq_bool; nmin := Qmin; nlit := λ n d, (inject_Z n / inject_Z d)%Q
}.

(** ** [reputation/concentration.go] *)
Section Cap.
Context {N : Type} `{Num N}.

Record OperatorCapConfig := mkCap { MaxShare : N; TwoOperatorMaxShare : N; DisplacementCeiling : N }.

Definition DefaultMaxOperatorShare : N := nlit 50 100.
Definition DefaultTwoOperatorMaxShare : N := nlit 65 100.
Definition DefaultDisplacementCeiling : N := nlit 3 1.

(** [(maxShare, twoOpShare, ceiling)], or [None] when the cap is disabled. *)
Definition resolve (c : OperatorCapConfig) : option (N * N * N) :=
  let maxShare := if neqb (MaxShare c) n0 then DefaultMaxOperatorShare else MaxShare c in
  if nltb maxShare n0 then None
  else
    let two := if neqb (TwoOperatorMaxShare c) n0 then DefaultTwoOperatorMaxShare
               else TwoOperatorMaxShare c in
    let two := if nltb two n0 then maxShare else two in
    let ceiling := if neqb (DisplacementCeiling c) n0 then DefaultDisplacementCeiling
                   else DisplacementCeiling c in
    let ceiling := if nltb ceiling n0 then n0 else ceiling in
    Some (maxShare, two, ceiling).

Record opGroup := mkGroup {
  operator : string; count : Z; mass : N; pick : EndpointAddr; entitlement : N; weight : N
}.
Definition setWeight (g : opGroup) (w : N) : opGroup :=
  mkGroup (operator g) (count g) (mass g) (pick g) (entitlement g) w.

Definition eps : N := nlit 1 1000000000.

(** The first loop: clip every share above the cap. *)
Definition isOver (capShare : N) (g : opGroup) : bool := nltb (nadd capShare eps) (weight g).
Definition clip (capShare : N) (g : opGroup) : opGroup :=
  if isOver capShare g then setWeight g capShare else g.
Definition clipExcess (capShare : N) (groups : list opGroup) : N :=
  foldl (λ e g, if isOver capShare g then nadd e (nsub (weight g) capShare) else e) n0 groups.
Definition clipEntitlement (capShare : N) (groups : list opGroup) : N :=
  foldl (λ e g, if isOver capShare g then nadd e (entitlement g) else e) n0 groups.

Definition limit (capShare ceiling : N) (g : opGroup) : N :=
  if nltb n0 ceiling then nmin capShare (nmul ceiling (entitlement g)) else capShare.
Definition room (capShare ceiling : N) (g : opGroup) : N :=
  nsub (limit capShare ceiling g) (weight g).
Definition totalRoom (capShare ceiling : N) (groups : list opGroup) : N :=
  foldl (λ e g, if nltb n0 (room capShare ceiling g) then nadd e (room capShare ceiling g) else e)
    n0 groups.

Definition giveTo (capShare ceiling give headroom : N) (g : opGroup) : opGroup :=
  let h := room capShare ceiling g in
  if nltb n0 h then setWeight g (nadd (weight g) (ndiv (nmul give h) headroom)) else g.

Definition giveBack (capShare leftover over : N) (g : opGroup) : opGroup :=
  if nleb (nsub capShare eps) (weight g) && nltb capShare (entitlement g)
  then setWeight g (nadd (weight g) (ndiv (nmul leftover (entitlement g)) over)) else g.

Definition waterFill (groups : list opGroup) (capShare ceiling : N) : list opGroup :=
  let excess := clipExcess capShare groups in
  let over := clipEntitlement capShare groups in
  let groups := clip capShare <$> groups in
  if nleb excess eps then groups
  else
    let headroom := totalRoom capShare ceiling groups in
    let give := nmin excess headroom in
    let groups := if nltb eps give then giveTo capShare ceiling give headroom <$> groups else groups in
    let leftover := nsub excess give in
    if nltb eps leftover && nltb n0 over then giveBack capShare leftover over <$> groups else groups.

Section Draws.
Context (rawInt : nat -> Z) (rawFloat : nat -> N).
(** [rand.IntN(n)] and [rand.Float64()]. *)
Definition IntN (n : Z) : Rnd Z := λ k, (rawInt k mod n, S k).
Definition Float64 : Rnd N := λ k, (rawFloat k, S k).

(** ** [pickIndex]: an index drawn in proportion to its weight *)
Definition positiveTotal (n : nat) (w : nat -> N) : N :=
  foldl (λ t i, if nltb n0 (w i) then nadd t (w i) else t) n0 (seq 0 n).

Fixpoint scan (w : nat -> N) (r : N) (last : option nat) (l : list nat) : option nat :=
  match l with
  | [] => last
  | i :: l =>
      if nleb (w i) n0 then scan w r last l
      else if nltb r (w i) then Some i
      else scan w (nsub r (w i)) (Some i) l
  end.

Definition pickIndex (n : nat) (w : nat -> N) : Rnd (option nat) :=
  let total := positiveTotal n w in
  if nleb total n0 then rret None
  else (u <~ Float64 ;; rret (scan w (nmul u total) None (seq 0 n)))%rnd.

Context (Operator : EndpointAddr -> string).

(** Adding one kept candidate to its operator's group. *)
Fixpoint groupAdd (op : string) (w : N) (ep : EndpointAddr) (groups : list opGroup)
    : Rnd (list opGroup) :=
  match groups with
  | [] => rret [mkGroup op 1 w ep n0 n0]
  | g :: gs =>
      if bool_decide (operator g = op) then
        let m := nadd (mass g) w in
        (u <~ Float64 ;;
         rret (mkGroup op (count g + 1) m (if nltb u (ndiv w m) then ep else pick g)
                 (entitlement g) (weight g) :: gs))%rnd
      else (gs <~ groupAdd op w ep gs ;; rret (g :: gs))%rnd
  end.

Definition groupStep (keep : nat -> bool) (wf : option (nat -> N))
    (acc : list opGroup * N * nat) (ep : EndpointAddr) : Rnd (list opGroup * N * nat) :=
  let '(groups, total, i) := acc in
  if negb (keep i) then rret (groups, total, S i)
  else
    match wf with
    | Some f =>
        if nleb (f i) n0 then rret (groups, total, S i)
        else (gs <~ groupAdd (Operator ep) (f i) ep groups ;; rret (gs, nadd total (f i), S i))%rnd
    | None =>
        (gs <~ groupAdd (Operator ep) (nlit 1 1) ep groups ;;
         rret (gs, nadd total (nlit 1 1), S i))%rnd
    end.

Definition entitle (total : N) (g : opGroup) : opGroup :=
  let e := ndiv (mass g) total in
  mkGroup (operator g) (count g) (mass g) (pick g) e e.

Definition cappedPickWeighted (cfg : OperatorCapConfig) (candidates : EndpointAddrList)
    (keep : nat -> bool) (wf : option (nat -> N)) : Rnd (option (string * EndpointAddr)) :=
  match resolve cfg with
  | None => rret None
  | Some (maxShare, two, ceiling) =>
      if bool_decide (length candidates < 2)%nat then rret None
      else
        (acc <~ rfold (groupStep keep wf) ([], n0, O) candidates ;;
         let '(groups, total, _) := acc in
         let m := length groups in
         if bool_decide (m < 2)%nat || nleb total n0 then rret None
         else
           let capShare := if bool_decide (m = 2)%nat then two else maxShare in
           let groups := waterFill (entitle total <$> groups) capShare ceiling in
           i <~ pickIndex m (λ i, default n0 (weight <$> groups !! i)) ;;
           rret (match i with
                 | Some i => (λ g, (operator g, pick g)) <$> groups !! i
                 | None => None end))%rnd
  end.
End Draws.
End Cap.
Arguments OperatorCapConfig : clear implicits.
Arguments opGroup : clear implicits.

(** ** [reputation/selector.go] *)
Record SelectorConfig := mkSel {
  Tier1Threshold : f64; Tier2Threshold : f64; MinThreshold : f64; ProbationThreshold : f64;
  ProbationPct : Z; Tier2Pct : Z
}.
Definition DefaultSelectorConfig : SelectorConfig :=
  mkSel (of_int 80) (of_int 50) (of_int 10) (of_int 30) 10 5.

Definition tier1Idx : Z := 0.
Definition tier2Idx : Z := 1.
Definition tier3Idx : Z := 2.
Definition probationIdx : Z := 3.
Definition latencyFloorMS : f64 := of_int 20.

Section Selector.
Context (cfg : SelectorConfig) (scores : EndpointAddr -> f64 * bool).

Definition classify (ep : EndpointAddr) : Z * f64 :=
  let '(score, ok) := scores ep in
  if negb ok then (tier3Idx, score)
  else if fltb score (MinThreshold cfg) then (-1, score)
  else if fltb score (ProbationThreshold cfg) then (probationIdx, score)
  else if fleb (Tier1Threshold cfg) score then (tier1Idx, score)
  else if fleb (Tier2Threshold cfg) score then (tier2Idx, score)
  else (tier3Idx, score).

(** [tier1Weights]: the first loop, then the fill. *)
Definition rawWeight (latency : EndpointAddr -> f64 * bool) (tier : Z) (ep : EndpointAddr) : f64 :=
  if negb (bool_decide (tier = tier1Idx)) then f0
  else let '(ms, ok) := latency ep in if ok && fltb f0 ms then ms else of_int (-1).

Definition fillWeight (mean w : f64) : f64 :=
  if feqb w f0 then w
  else
    let w := if fltb w f0 then fmul (of_int 2) mean else w in
    let w := if fltb w latencyFloorMS then latencyFloorMS else w in
    fdiv f1 w.

Definition tier1Weights (latency : EndpointAddr -> f64 * bool) (endpoints : EndpointAddrList)
    (tiers : list Z) : option (list f64) :=
  let raw := zip_with (rawWeight latency) tiers endpoints in
  let measured := filter (λ w, fltb f0 w = true) raw in
  let candidates := length (filter (λ t, t = tier1Idx) tiers) in
  if bool_decide (candidates < 2)%nat || bool_decide (length measured = O) then None
  else
    let mean := fdiv (foldl fadd f0 measured) (of_int (Z.of_nat (length measured))) in
    Some (fillWeight mean <$> raw).

Record selAcc := mkAcc {
  picks : list EndpointAddr; counts : list Z; tiers : list Z;
  fallback : EndpointAddr; fallbackScore : f64; fallbackTies : Z
}.
Definition accInit : selAcc := mkAcc ["" ; ""; ""; ""] [0; 0; 0; 0] [] "" f0 0.

Definition countOf (a : selAcc) (t : Z) : Z := default 0 (counts a !! Z.to_nat t).
Definition pickOf (a : selAcc) (t : Z) : EndpointAddr := default "" (picks a !! Z.to_nat t).

Section Sampling.
Context (rawInt : nat -> Z) (rawFloat : nat -> f64).

(** One iteration of the sampling loop. *)
Definition sampleStep (a : selAcc) (ep : EndpointAddr) : Rnd selAcc :=
  let '(t, score) := classify ep in
  let ts := tiers a ++ [t] in
  if bool_decide (t < 0) then
    if bool_decide (fallback a = "") || fltb (fallbackScore a) score
    then rret (mkAcc (picks a) (counts a) ts ep score 1)
    else if feqb score (fallbackScore a) then
      let ties := fallbackTies a + 1 in
      (d <~ IntN rawInt ties ;;
       rret (mkAcc (picks a) (counts a) ts (if bool_decide (d = 0) then ep else fallback a)
               (fallbackScore a) ties))%rnd
    else rret (mkAcc (picks a) (counts a) ts (fallback a) (fallbackScore a) (fallbackTies a))
  else
    let c := countOf a t + 1 in
    (d <~ IntN rawInt c ;;
     rret (mkAcc (if bool_decide (d = 0) then <[Z.to_nat t := ep]> (picks a) else picks a)
             (<[Z.to_nat t := c]> (counts a)) ts
             (fallback a) (fallbackScore a) (fallbackTies a)))%rnd.

(** The operator cap and the latency source, [None] when their gate is off. *)
Context (operatorCap : option (OperatorCapConfig f64))
  (latency : option (EndpointAddr -> f64 * bool)) (Operator : EndpointAddr -> string).

(** The re-pick within the winning tier [best]. *)
Definition repick (endpoints : EndpointAddrList) (a : selAcc) (best : Z) (selected : EndpointAddr)
    : Rnd EndpointAddr :=
  let weights := match latency with
    | Some lat => if bool_decide (best = tier1Idx) && bool_decide (1 < countOf a tier1Idx)
                  then tier1Weights lat endpoints (tiers a) else None
    | None => None end in
  let byWeight (s : EndpointAddr) : Rnd EndpointAddr :=
    match weights with
    | Some w =>
        (i <~ pickIndex rawFloat (length endpoints) (λ i, default f0 (w !! i)) ;;
         rret (match i with Some i => default s (endpoints !! i) | None => s end))%rnd
    | None => rret s
    end in
  match operatorCap with
  | Some cap =>
      if bool_decide (1 < countOf a best) then
        (r <~ cappedPickWeighted rawFloat Operator cap endpoints
                (λ i, bool_decide (tiers a !! i = Some best))
                ((λ w i, default f0 (w !! i)) <$> weights) ;;
         match r with
         | Some (_, capped) => rret capped
         | None => byWeight selected
         end)%rnd
      else byWeight selected
  | None => byWeight selected
  end.

(** The winning tier of the [switch]; probation and collapse come after it. *)
Definition cascade (a : selAcc) : option Z :=
  if bool_decide (0 < countOf a tier1Idx) then Some tier1Idx
  else if bool_decide (0 < countOf a tier2Idx) then Some tier2Idx
  else if bool_decide (0 < countOf a tier3Idx) then Some tier3Idx else None.

(** [Select]: the ordered list, and whether the pool-collapse hook fired. *)
Definition Select (endpoints : EndpointAddrList) : Rnd (EndpointAddrList * bool) :=
  match endpoints with
  | [] => rret ([], false)
  | _ =>
      (a <~ rfold sampleStep accInit endpoints ;;
       match cascade a with
       | None =>
           if bool_decide (0 < countOf a probationIdx) then rret ([pickOf a probationIdx], false)
           else if negb (bool_decide (fallback a = "")) then rret ([fallback a], true)
           else rret ([], false)
       | Some best =>
           selected <~ repick endpoints a best (pickOf a best) ;;
           let trickle :=
             if bool_decide (best = tier1Idx) && bool_decide (0 < countOf a tier2Idx) &&
                bool_decide (0 < Tier2Pct cfg)
             then (d <~ IntN rawInt 100 ;;
                   if bool_decide (d < Tier2Pct cfg)
                   then rret ([pickOf a tier2Idx; selected], false)
                   else rret ([selected], false))
             else rret ([selected], false) in
           if bool_decide (0 < countOf a probationIdx) && bool_decide (0 < ProbationPct cfg)
           then (d <~ IntN rawInt 100 ;;
                 if bool_decide (d < ProbationPct cfg)
                 then rret ([pickOf a probationIdx; selected], false) else trickle)
           else trickle
       end)%rnd
  end.
End Sampling.

(** [TopTierCandidates], with whether the pool-collapse hook fired. *)
Definition topStep (acc : Z * f64 * bool) (ep : EndpointAddr) : Z * f64 * bool :=
  let '(best, bestRejected, haveRejected) := acc in
  let '(t, score) := classify ep in
  if bool_decide (t < 0) then
    if negb haveRejected || fltb bestRejected score then (best, score, true) else acc
  else ((if bool_decide (best < 0) || bool_decide (t < best) then t else best),
        bestRejected, haveRejected).

Definition TopTierCandidates (endpoints : EndpointAddrList) : EndpointAddrList * bool :=
  match endpoints with
  | [] => ([], false)
  | _ =>
      let '(best, bestRejected, haveRejected) := foldl topStep (-1, f0, false) endpoints in
      if bool_decide (best < 0) then
        if negb haveRejected then ([], false)
        else (filter (λ ep, feqb (classify ep).2 bestRejected = true) endpoints, true)
      else (filter (λ ep, (classify ep).1 = best) endpoints, false)
  end.
End Selector.

(** ** [reputation/selector_spread.go] *)
Definition pickWeightedByInverseLoad (rawInt : nat -> Z) (rawFloat : nat -> f64)
    (candidates : EndpointAddrList) (load : gmap EndpointAddr Z) : Rnd EndpointAddr :=
  let uniform := (d <~ IntN rawInt (Z.of_nat (length candidates)) ;;
                  rret (default "" (candidates !! Z.to_nat d)))%rnd in
  match candidates with
  | [] => rret ""
  | [c] => rret c
  | _ =>
      if bool_decide (size load = O) then uniform
      else
        (i <~ pickIndex rawFloat (length candidates)
                (λ i, fdiv f1 (of_int (1 + default 0 (load !! default "" (candidates !! i))))) ;;
         match i with
         | Some i => rret (default "" (candidates !! i))
         | None => uniform
         end)%rnd
  end.

(** ** Draws *)
Lemma rbind_eq {A B} (m : Rnd A) (f : A -> Rnd B) k : rbind m f k = f (m k).1 (m k).2.
Proof. unfold rbind. by destruct (m k). Qed.

(** An invariant of the step, which may speak of the draws made so far, is an
    invariant of the loop. *)
Lemma rfold_inv_at {A B} (f : A -> B -> Rnd A) (I : list B -> A -> nat -> Prop) (l : list B) :
  (forall done b a k, I done a k -> I (done ++ [b]) (f a b k).1 (f a b k).2) ->
  forall a k, I [] a k -> I l (rfold f a l k).1 (rfold f a l k).2.
Proof.
  intros Hstep.
  assert (forall l done a k, I done a k -> I (done ++ l) (rfold f a l k).1 (rfold f a l k).2) as H.
  { clear l. induction l as [|b l IH]; intros done a k Ha; simpl; [by rewrite app_nil_r|].
    rewrite rbind_eq. replace (done ++ b :: l) with ((done ++ [b]) ++ l) by (by rewrite <- app_assoc).
    by apply IH, Hstep. }
  intros a k Ha. by apply (H l [] a k).
Qed.

Lemma rfold_inv {A B} (f : A -> B -> Rnd A) (I : list B -> A -> Prop) (l : list B) :
  (forall done b a k, I done a -> I (done ++ [b]) (f a b k).1) ->
  forall a k, I [] a -> I l (rfold f a l k).1.
Proof. intros Hstep a k. apply (rfold_inv_at f (λ done a _, I done a)). eauto. Qed.

Section CapPicks.
Context {N : Type} `{Num N} (rawFloat : nat -> N) (Operator : EndpointAddr -> string).

Lemma scan_spec w r last l i :
  scan w r last l = Some i -> last = Some i \/ (i ∈ l /\ nleb (w i) n0 = false).
Proof.
  revert r last. induction l as [|j l IH]; intros r last; simpl; [by left|].
  destruct (nleb (w j) n0) eqn:Ew.
  { intros [?|[? ?]]%IH; [by left|right]. split; [by right|done]. }
  destruct (nltb r (w j)); [intros [= <-]; right; split; [by left|done]|].
  intros [[= <-]|[? ?]]%IH; right; (split; [|done]); [by left|by right].
Qed.

Lemma pickIndex_spec n w k i :
  (pickIndex rawFloat n w k).1 = Some i -> (i < n)%nat /\ nleb (w i) n0 = false.
Proof.
  unfold pickIndex. destruct (nleb _ n0); [done|]. rewrite rbind_eq. simpl.
  intros [?|[Hi ?]]%scan_spec; [done|]. apply elem_of_seq in Hi. split; [lia|done].
Qed.

Definition face (g : opGroup N) : string * EndpointAddr := (operator g, pick g).

Lemma waterFill_faces groups c ceil : face <$> waterFill groups c ceil = face <$> groups.
Proof.
  assert (forall (f : opGroup N -> opGroup N) (l : list (opGroup N)), (forall g, face (f g) = face g) ->
    face <$> (f <$> l) = face <$> l) as Hf.
  { intros f l Hf. rewrite <- list_fmap_compose. apply list_fmap_ext. intros i g _. apply Hf. }
  unfold waterFill.
  repeat match goal with |- context [if ?b then _ else _] => destruct b end;
    repeat rewrite Hf; try done;
    intros g; unfold clip, giveTo, giveBack, face, setWeight;
    repeat match goal with |- context [if ?b then _ else _] => destruct b end; done.
Qed.

(** Every group's representative is a kept candidate of that operator. *)
Definition grouped (keep : nat -> bool) (done : EndpointAddrList)
    (acc : list (opGroup N) * N * nat) : Prop :=
  acc.2 = length done /\
  Forall (λ g, Operator (pick g) = operator g /\
    exists i, done !! i = Some (pick g) /\ keep i = true) acc.1.1.

Lemma groupAdd_inv (P : string -> EndpointAddr -> Prop) op w ep gs k :
  P op ep -> Forall (λ g, P (operator g) (pick g)) gs ->
  Forall (λ g, P (operator g) (pick g)) (groupAdd rawFloat op w ep gs k).1.
Proof.
  intros Hp. revert k. induction gs as [|g gs IH]; intros k Hgs; simpl.
  - constructor; [done|apply Forall_nil_2].
  - apply Forall_cons in Hgs as [Hg Hgs]. case_bool_decide as Ho.
    + rewrite rbind_eq. simpl. constructor; [|done]. simpl. subst. by destruct (nltb _ _).
    + rewrite rbind_eq. simpl. constructor; [done|]. by apply IH.
Qed.

Lemma groupStep_inv keep wf done ep acc k :
  grouped keep done acc -> grouped keep (done ++ [ep]) (groupStep rawFloat Operator keep wf acc ep k).1.
Proof.
  destruct acc as [[groups total] i]. intros [Hi Hg]. simpl in Hi, Hg. subst i. unfold groupStep.
  set (P op ep' := Operator ep' = op /\ exists i, (done ++ [ep]) !! i = Some ep' /\ keep i = true).
  assert (Hold : Forall (λ g, P (operator g) (pick g)) groups).
  { eapply Forall_impl; [exact Hg|]. intros g [Ho (i & Hl & Hk)]. split; [done|]. exists i.
    split; [by apply lookup_app_l_Some|done]. }
  assert (Hlen : S (length done) = length (done ++ [ep])) by (rewrite length_app; simpl; lia).
  destruct (keep (length done)) eqn:Ek; simpl; [|by split].
  assert (Hnew : P (Operator ep) ep).
  { split; [done|]. exists (length done). split; [|done].
    by rewrite lookup_app_r, Nat.sub_diag by lia. }
  destruct wf as [f|]; [destruct (nleb (f _) n0); [by split|]|]; rewrite rbind_eq; simpl;
    (split; [done|]); by apply (groupAdd_inv P).
Qed.

Lemma capped_pick_spec cfg candidates keep wf k op ep :
  (cappedPickWeighted rawFloat Operator cfg candidates keep wf k).1 = Some (op, ep) ->
  Operator ep = op /\ exists i, candidates !! i = Some ep /\ keep i = true.
Proof.
  unfold cappedPickWeighted. destruct (resolve cfg) as [[[m2 m3] c]|]; [|done].
  case_bool_decide; [done|]. rewrite rbind_eq.
  pose proof (rfold_inv (groupStep rawFloat Operator keep wf) (grouped keep) candidates
    (λ done b a k, groupStep_inv keep wf done b a k) ([], n0, O) k) as Hinv.
  destruct (rfold _ _ candidates k) as [[[groups total] i] k1]. simpl in *.
  destruct Hinv as [_ Hg]; [split; [done|apply Forall_nil_2]|]. simpl in Hg.
  destruct (_ || _); [done|]. rewrite rbind_eq.
  set (gs := waterFill _ _ _).
  assert (face <$> gs = face <$> groups) as Hface.
  { unfold gs. rewrite waterFill_faces, <- list_fmap_compose. by apply list_fmap_ext. }
  destruct (pickIndex _ _ _ _) as [[j|] k2]; simpl; [|done].
  destruct (gs !! j) as [g|] eqn:Ej; simpl; [|done]. intros [= <- <-].
  assert ((face <$> groups) !! j = Some (face g)) as Hj by (by rewrite <- Hface, list_lookup_fmap, Ej).
  rewrite list_lookup_fmap in Hj. destruct (groups !! j) as [g'|] eqn:Eg; [|done].
  simpl in Hj. injection Hj as H1 H2. rewrite Forall_lookup in Hg.
  destruct (Hg j g' Eg) as [Ho Hx]. rewrite <- H1, <- H2. done.
Qed.
End CapPicks.

(** ** Selection *)
Section SelectSpec.
Context (cfg : SelectorConfig) (scores : EndpointAddr -> f64 * bool).

Definition tierOf (ep : EndpointAddr) : Z := (classify cfg scores ep).1.
Definition scoreOf (ep : EndpointAddr) : f64 := (classify cfg scores ep).2.
Definition rejected (ep : EndpointAddr) : Prop := tierOf ep < 0.

Lemma tier_range ep : -1 <= tierOf ep <= 3.
Proof.
  unfold tierOf, classify. destruct (scores ep) as [s ok].
  repeat match goal with |- context [if ?b then _ else _] => destruct b end; simpl;
    unfold tier1Idx, tier2Idx, tier3Idx, probationIdx; lia.
Qed.

Lemma rejected_score ep : rejected ep -> is_nan (scoreOf ep) = false.
Proof.
  unfold rejected, tierOf, scoreOf, classify. destruct (scores ep) as [s ok].
  destruct (negb ok); [done|]. destruct (fltb s (MinThreshold cfg)) eqn:E; simpl.
  - intros _. by apply fltb_spec in E as [? _].
  - repeat match goal with |- context [if ?b then _ else _] => destruct b end; done.
Qed.

(** The endpoints of a tier. *)
Definition inTier (l : list EndpointAddr) (t : Z) : list EndpointAddr :=
  filter (λ ep, tierOf ep = t) l.

Record sampled (l : list EndpointAddr) (a : selAcc) : Prop := {
  sa_tiers : tiers a = tierOf <$> l;
  sa_len : length (picks a) = 4%nat /\ length (counts a) = 4%nat;
  sa_count : forall t, 0 <= t < 4 -> countOf a t = Z.of_nat (length (inTier l t));
  sa_pick : forall t, 0 <= t < 4 -> inTier l t <> [] -> pickOf a t ∈ inTier l t;
  sa_none : (forall ep, ep ∈ l -> ~ rejected ep) -> fallback a = "";
  sa_worst : (exists ep, ep ∈ l /\ rejected ep) ->
    fallback a ∈ l /\ rejected (fallback a) /\ key (fallbackScore a) = key (scoreOf (fallback a)) /\
    is_nan (fallbackScore a) = false /\
    forall ep, ep ∈ l -> rejected ep -> fltb (scoreOf (fallback a)) (scoreOf ep) = false
}.

Lemma key_fltb x y z : key x = key y -> is_nan x = false -> is_nan y = false -> fltb x z = fltb y z.
Proof.
  intros Hk Hx Hy. destruct (fltb x z) eqn:E1, (fltb y z) eqn:E2; try done.
  - apply fltb_spec in E1 as (_ & Hz & Hl). rewrite Hk in Hl.
    rewrite (proj2 (fltb_spec y z)) in E2; [done|]. by split_and!.
  - apply fltb_spec in E2 as (_ & Hz & Hl). rewrite <- Hk in Hl.
    rewrite (proj2 (fltb_spec x z)) in E1; [done|]. by split_and!.
Qed.

Lemma inTier_snoc l ep t :
  inTier (l ++ [ep]) t = inTier l t ++ (if decide (tierOf ep = t) then [ep] else []).
Proof.
  unfold inTier. rewrite filter_app. case_decide.
  - by rewrite filter_cons_True.
  - by rewrite filter_cons_False.
Qed.

Lemma sampleStep_tier rawInt l ep a k t :
  sampled l a -> tierOf ep = t -> 0 <= t ->
  sampled (l ++ [ep]) (sampleStep cfg scores rawInt a ep k).1.
Proof.
  intros [H1 [H2 H2'] H3 H4 H5 H6] Ht Ht0. unfold sampleStep.
  assert (0 <= t < 4) as Htr by (pose proof (tier_range ep); lia).
  destruct (classify cfg scores ep) as [t' score] eqn:Ec.
  assert (t' = t) as -> by (unfold tierOf in Ht; by rewrite Ec in Ht).
  rewrite bool_decide_eq_false_2 by lia. rewrite rbind_eq. simpl.
  set (d := rawInt k mod (countOf a t + 1)).
  assert (Hnr : ~ rejected ep) by (unfold rejected; lia).
  assert (Hp4 : (Z.to_nat t < length (picks a))%nat) by (rewrite H2; lia).
  split; simpl.
  - by rewrite H1, fmap_app, <- Ht.
  - destruct (bool_decide (d = 0)); rewrite ?length_insert; done.
  - intros u Hu. rewrite inTier_snoc, length_app. unfold countOf at 1. simpl.
    case_decide as Htu.
    + assert (u = t) as -> by lia. rewrite list_lookup_insert_eq by (rewrite H2'; lia). simpl.
      rewrite H3 by done. lia.
    + rewrite list_lookup_insert_ne by lia. rewrite Nat.add_0_r. by apply H3.
  - intros u Hu. rewrite inTier_snoc. case_decide as Htu.
    + assert (u = t) as -> by lia. intros _. unfold pickOf. simpl.
      destruct (decide (d = 0)) as [Hd|Hd].
      * rewrite bool_decide_eq_true_2 by done. rewrite list_lookup_insert_eq by exact Hp4.
        simpl. apply elem_of_app. right. by left.
      * rewrite bool_decide_eq_false_2 by done. apply elem_of_app. left. apply H4; [done|].
        intros Hnil. destruct Hd. unfold d. rewrite H3, Hnil by done. simpl. apply Z.mod_1_r.
    + rewrite app_nil_r. intros Hne. unfold pickOf. simpl.
      destruct (bool_decide (d = 0)); [rewrite list_lookup_insert_ne by lia|]; by apply H4.
  - intros Hall. apply H5. intros e He. apply Hall, elem_of_app. by left.
  - intros (e & [He|He%list_elem_of_singleton]%elem_of_app & Hr); [|by subst].
    destruct H6 as (F1 & F2 & F3 & F4 & F5); [by exists e|].
    split_and!; [apply elem_of_app; by left|done|done|done|].
    intros x [Hx|Hx%list_elem_of_singleton]%elem_of_app Hxr; [by apply F5|by subst].
Qed.

Lemma sampleStep_rejected rawInt l ep a k :
  sampled l a -> rejected ep -> ep <> "" -> (forall e, e ∈ l -> e <> "") ->
  sampled (l ++ [ep]) (sampleStep cfg scores rawInt a ep k).1.
Proof.
  intros [H1 H2 H3 H4 H5 H6] Hr Hne Hl. unfold sampleStep.
  destruct (classify cfg scores ep) as [t score] eqn:Ec.
  assert (tierOf ep = t /\ scoreOf ep = score) as [Ht Hsc] by (unfold tierOf, scoreOf; by rewrite Ec).
  assert (t < 0) as Hneg by (unfold rejected in Hr; lia).
  rewrite bool_decide_eq_true_2 by done.
  assert (Hts : tiers a ++ [t] = tierOf <$> l ++ [ep]) by (by rewrite H1, fmap_app, <- Ht).
  assert (Hin : forall u, 0 <= u < 4 -> inTier (l ++ [ep]) u = inTier l u).
  { intros u Hu. rewrite inTier_snoc. rewrite decide_False by lia. apply app_nil_r. }
  pose proof (rejected_score ep Hr) as Hnan. rewrite Hsc in Hnan.
  assert (Hcases : (forall e, e ∈ l -> ~ rejected e) \/ exists e, e ∈ l /\ rejected e).
  { destruct (decide (Exists (λ e, tierOf e < 0) l)) as [He|He].
    - right. apply Exists_exists in He. exact He.
    - left. intros e Hel Hre. apply He, Exists_exists. by exists e. }
  assert (Hmk : forall f fs ties, (f ∈ l ++ [ep] /\ rejected f /\ key fs = key (scoreOf f) /\
      is_nan fs = false /\
      forall e, e ∈ l ++ [ep] -> rejected e -> fltb (scoreOf f) (scoreOf e) = false) ->
    sampled (l ++ [ep]) (mkAcc (picks a) (counts a) (tiers a ++ [t]) f fs ties)).
  { intros f fs ties Hf. split; simpl; [done|done| | | |done].
    - intros u Hu. rewrite Hin by done. by apply H3.
    - intros u Hu. rewrite Hin by done. by apply H4.
    - intros Hall. exfalso. apply (Hall ep); [apply elem_of_app; right; by left|done]. }
  assert (Hep : ep ∈ l ++ [ep]) by (apply elem_of_app; right; by left).
  destruct Hcases as [Hnone|Hsome].
  - rewrite (bool_decide_eq_true_2 (fallback a = "")) by (by apply H5). simpl. apply Hmk.
    split_and!; [done|done|by rewrite Hsc|done|].
    intros e [He|He%list_elem_of_singleton]%elem_of_app Her; [by destruct (Hnone e)|subst; apply fltb_irrefl].
  - destruct (H6 Hsome) as (F1 & F2 & F3 & F4 & F5).
    pose proof (rejected_score _ F2) as Fn.
    rewrite (bool_decide_eq_false_2 (fallback a = "")) by (by apply Hl). cbn [orb].
    assert (Hkf : forall z, fltb (fallbackScore a) z = fltb (scoreOf (fallback a)) z)
      by (intros z; by apply key_fltb).
    destruct (fltb (fallbackScore a) score) eqn:Elt.
    + simpl. apply Hmk. split_and!; [done|done|by rewrite Hsc|done|].
      intros e [He|He%list_elem_of_singleton]%elem_of_app Her; [|subst; apply fltb_irrefl].
      destruct (fltb (scoreOf ep) (scoreOf e)) eqn:E; [|done].
      rewrite <- (F5 e He Her). rewrite Hkf in Elt. rewrite Hsc in E. by rewrite (fltb_trans _ _ _ Elt E).
    + rewrite Hkf in Elt.
      assert (Hold : forall e, e ∈ l ++ [ep] -> rejected e ->
        fltb (scoreOf (fallback a)) (scoreOf e) = false).
      { intros e [He|He%list_elem_of_singleton]%elem_of_app Her; [by apply F5|by subst]. }
      destruct (feqb score (fallbackScore a)) eqn:Eeq.
      * rewrite rbind_eq. simpl. apply feqb_spec in Eeq as (_ & _ & Hk).
        apply Hmk. case_bool_decide.
        -- split_and!; [done|done|by rewrite Hsc|done|]. intros e He Her.
           rewrite Hsc. rewrite (key_fltb score (scoreOf (fallback a))); [by apply Hold| |done|done].
           congruence.
        -- split_and!; [apply elem_of_app; by left|done|done|done|done].
      * simpl. apply Hmk. split_and!; [apply elem_of_app; by left|done|done|done|done].
Qed.

Lemma sampling_ok rawInt l k :
  "" ∉ l -> sampled l (rfold (sampleStep cfg scores rawInt) accInit l k).1.
Proof.
  intros Hl. cut ("" ∉ l -> sampled l (rfold (sampleStep cfg scores rawInt) accInit l k).1); [auto|].
  apply (rfold_inv _ (λ done a, "" ∉ done -> sampled done a)).
  - intros done b a k' IH Hd. rewrite not_elem_of_app in Hd. destruct Hd as [Hd Hb].
    specialize (IH Hd). destruct (Z.lt_ge_cases (tierOf b) 0) as [Hneg|Hpos].
    + apply sampleStep_rejected; [done|done|intros ->; apply Hb; by left|].
      intros e He ->. done.
    + by eapply sampleStep_tier.
  - intros _. split; simpl; try done.
    + intros t Ht. unfold countOf. simpl.
      assert (t = 0 \/ t = 1 \/ t = 2 \/ t = 3) as [Ht0|[Ht0|[Ht0|Ht0]]] by lia; by subst.
    + intros (ep & Hep & _). by apply elem_of_nil in Hep.
Qed.

(** Only tier-1 endpoints carry a latency weight. *)
Lemma fleb_zero : fleb f0 f0 = true.
Proof. reflexivity. Qed.
Lemma fillWeight_zero mean : fillWeight mean f0 = f0.
Proof. reflexivity. Qed.

Lemma tier1Weights_zero lat (l : list EndpointAddr) w i :
  tier1Weights lat l (tierOf <$> l) = Some w -> fleb (default f0 (w !! i)) f0 = false ->
  exists ep, l !! i = Some ep /\ tierOf ep = tier1Idx.
Proof.
  unfold tier1Weights. destruct (_ || _); [done|].
  generalize (fdiv (foldl fadd f0 (filter (λ x, fltb f0 x = true)
    (zip_with (rawWeight lat) (tierOf <$> l) l))) (of_int (Z.of_nat (length
    (filter (λ x, fltb f0 x = true) (zip_with (rawWeight lat) (tierOf <$> l) l)))))). intros mean Hw Hpos.
  injection Hw as <-. rewrite list_lookup_fmap, lookup_zip_with, list_lookup_fmap in Hpos.
  destruct (l !! i) as [ep|] eqn:Ei;
    [|change (fleb f0 f0 = false) in Hpos; by rewrite fleb_zero in Hpos].
  exists ep. split; [done|]. destruct (decide (tierOf ep = tier1Idx)) as [|Hn]; [done|].
  assert (rawWeight lat (tierOf ep) ep = f0) as Hr
    by (unfold rawWeight; by rewrite bool_decide_eq_false_2 by done).
  change (fleb (fillWeight mean (rawWeight lat (tierOf ep) ep)) f0 = false) in Hpos.
  by rewrite Hr, fillWeight_zero, fleb_zero in Hpos.
Qed.

(** The winning tier: the lowest index any endpoint of the list falls in,
    probation counting last. *)
Definition winning (l : list EndpointAddr) (t : Z) : Prop :=
  inTier l t <> [] /\ 0 <= t /\ forall ep, ep ∈ l -> ~ rejected ep -> t <= tierOf ep.

Lemma count_pos l a t : sampled l a -> 0 <= t < 4 -> 0 < countOf a t <-> inTier l t <> [].
Proof.
  intros Hs Ht. rewrite (sa_count _ _ Hs t Ht). destruct (inTier l t); simpl; split; try done; lia.
Qed.

Lemma inTier_in l t ep : ep ∈ inTier l t <-> ep ∈ l /\ tierOf ep = t.
Proof. unfold inTier. rewrite list_elem_of_filter. tauto. Qed.

Lemma inTier_empty l t ep : inTier l t = [] -> ep ∈ l -> tierOf ep <> t.
Proof.
  intros Hn Hin Ht. assert (ep ∈ inTier l t) as Hx by (by apply inTier_in).
  rewrite Hn in Hx. by apply elem_of_nil in Hx.
Qed.

Context (rawInt : nat -> Z) (rawFloat : nat -> f64) (operatorCap : option (OperatorCapConfig f64))
  (latency : option (EndpointAddr -> f64 * bool)) (Operator : EndpointAddr -> string).

Lemma repick_ok l a best sel k :
  sampled l a -> sel ∈ inTier l best ->
  (repick rawFloat operatorCap latency Operator l a best sel k).1 ∈ inTier l best.
Proof.
  intros Hs Hsel. unfold repick. set (weights := match latency with Some _ => _ | None => _ end).
  assert (Hw : forall s k', s ∈ inTier l best ->
    ((match weights with
      | Some w => (i <~ pickIndex rawFloat (length l) (λ i, default f0 (w !! i)) ;;
                   rret (match i with Some i => default s (l !! i) | None => s end))%rnd
      | None => rret s end) k').1 ∈ inTier l best).
  { intros s k' Hin. destruct weights as [w|] eqn:Ew; [|done]. rewrite rbind_eq.
    destruct (pickIndex _ _ _ k') as [[i|] k2] eqn:Ep; [|done]. simpl.
    assert (best = tier1Idx /\ exists lat, tier1Weights lat l (tierOf <$> l) = Some w) as [-> [lat Hl]].
    { unfold weights in Ew. destruct latency as [lat|]; [|done].
      destruct (_ && _) eqn:Eb; [|done]. apply andb_true_iff in Eb as [Eb _].
      apply bool_decide_eq_true in Eb. split; [done|]. exists lat. by rewrite <- (sa_tiers _ _ Hs). }
    assert (pickIndex rawFloat (length l) (λ i, default f0 (w !! i)) k' = (Some i, k2)) as Ep' by done.
    destruct (pickIndex_spec rawFloat (length l) (λ i, default f0 (w !! i)) k' i) as [_ Hpos];
      [by rewrite Ep'|].
    destruct (tier1Weights_zero lat l w i Hl Hpos) as (ep & He & Ht). rewrite He. simpl.
    apply list_elem_of_filter. split; [done|]. by eapply list_elem_of_lookup_2. }
  destruct operatorCap as [cap|]; [|by apply Hw]. case_bool_decide; [|by apply Hw].
  rewrite rbind_eq.
  destruct (cappedPickWeighted _ _ _ _ _ _ k) as [[[op ep]|] k2] eqn:Ec; [|by apply Hw]. simpl.
  match type of Ec with ?c = _ => assert (c.1 = Some (op, ep)) as Hc by (by rewrite Ec) end.
  apply capped_pick_spec in Hc as [_ (i & Hi & Hk)]. apply bool_decide_eq_true in Hk.
  rewrite (sa_tiers _ _ Hs), list_lookup_fmap in Hk.
  assert (l !! i = Some ep) as Hi' by done. rewrite Hi' in Hk. simpl in Hk. injection Hk as Hk.
  apply list_elem_of_filter. split; [done|]. by eapply list_elem_of_lookup_2.
Qed.

(** The outcome of a selection: the winning tier's pick last, possibly behind
    one trial endpoint of a lower tier; or the least bad of a collapsed pool. *)
Inductive served (l : list EndpointAddr) : list EndpointAddr * bool -> Prop :=
  | served_pick t sel : winning l t -> sel ∈ inTier l t -> served l ([sel], false)
  | served_trial t u trial sel : winning l t -> sel ∈ inTier l t -> 0 <= u ->
      trial ∈ inTier l u -> served l ([trial; sel], false)
  | served_collapse ep : ep ∈ l -> (forall e, e ∈ l -> rejected e) ->
      (forall e, e ∈ l -> fltb (scoreOf ep) (scoreOf e) = false) -> served l ([ep], true).

Lemma select_served l k :
  l <> [] -> "" ∉ l ->
  served l (Select cfg scores rawInt rawFloat operatorCap latency Operator l k).1.
Proof.
  intros Hne Hl. unfold Select. destruct l as [|e0 l0]; [done|]. set (l := e0 :: l0) in *.
  rewrite rbind_eq. pose proof (sampling_ok rawInt l k Hl) as Hs.
  destruct (rfold _ accInit l k) as [a k1]. simpl in Hs.
  pose proof (λ t Ht, count_pos l a t Hs Ht) as Hc.
  unfold tier1Idx, tier2Idx, probationIdx in *. cbn [fst snd].
  assert (Hcas : match cascade a with
    | Some t => winning l t /\ 0 <= t < 3
    | None => inTier l 0 = [] /\ inTier l 1 = [] /\ inTier l 2 = [] end).
  { unfold cascade, tier1Idx, tier2Idx, tier3Idx. repeat case_bool_decide;
      repeat match goal with H : context [0 < countOf a _] |- _ => rewrite Hc in H by lia end.
    4: { split_and!; by apply dec_stable. }
    all: (split; [|lia]); split; [done|split; [lia|]]; intros ep Hep Hr.
    all: assert (0 <= tierOf ep) by (unfold rejected in Hr; lia).
    all: repeat match goal with H : ~ (inTier ?m ?u <> []) |- _ => apply dec_stable in H;
      pose proof (inTier_empty m u ep H Hep); clear H end; lia. }
  destruct (cascade a) as [t|].
  - destruct Hcas as [Hw Ht]. rewrite rbind_eq.
    assert (pickOf a t ∈ inTier l t) as Hp by (apply (sa_pick _ _ Hs); [lia|apply Hw]).
    pose proof (repick_ok l a t (pickOf a t) k1 Hs Hp) as Hsel.
    destruct (repick _ _ _ _ l a t (pickOf a t) k1) as [sel k2]. simpl in Hsel. cbn [fst snd].
    assert (Htrial : forall u, 0 <= u < 4 -> 0 < countOf a u -> pickOf a u ∈ inTier l u).
    { intros u Hu Hpos. apply (sa_pick _ _ Hs); [done|]. by apply Hc. }
    assert (Ht2 : forall k', served l ((if bool_decide (t = 0) && bool_decide (0 < countOf a 1) &&
        bool_decide (0 < Tier2Pct cfg)
      then (d <~ IntN rawInt 100 ;; if bool_decide (d < Tier2Pct cfg)
        then rret ([pickOf a 1; sel], false) else rret ([sel], false))%rnd
      else rret ([sel], false)) k').1).
    { intros k'. destruct (_ && _) eqn:E; [|by eapply served_pick].
      rewrite rbind_eq. apply andb_true_iff in E as [E _]. apply andb_true_iff in E as [_ E].
      apply bool_decide_eq_true in E. case_bool_decide; [|by eapply served_pick].
      eapply (served_trial l t 1); [done|done|lia|]. apply Htrial; [lia|done]. }
    destruct (bool_decide (0 < countOf a 3) && bool_decide (0 < ProbationPct cfg)) eqn:E;
      [|by apply Ht2].
    rewrite rbind_eq. apply andb_true_iff in E as [E _]. apply bool_decide_eq_true in E.
    destruct (bool_decide ((IntN rawInt 100 k2).1 < ProbationPct cfg)); [|by apply Ht2].
    eapply (served_trial l t 3); [done|done|lia|]. apply Htrial; [lia|done].
  - destruct Hcas as (E0 & E1 & E2). case_bool_decide as Hx.
    + rewrite Hc in Hx by lia. assert (pickOf a 3 ∈ inTier l 3) as Hp by (by apply (sa_pick _ _ Hs)).
      apply (served_pick l 3); [|done]. split; [done|split; [lia|]]. intros ep Hep Hr.
      pose proof (inTier_empty l 0 ep E0 Hep). pose proof (inTier_empty l 1 ep E1 Hep).
      pose proof (inTier_empty l 2 ep E2 Hep). unfold rejected in Hr. lia.
    + rewrite Hc in Hx by lia. apply dec_stable in Hx.
      assert (Hall : forall ep, ep ∈ l -> rejected ep).
      { intros ep Hep. pose proof (inTier_empty l 0 ep E0 Hep). pose proof (inTier_empty l 1 ep E1 Hep).
        pose proof (inTier_empty l 2 ep E2 Hep). pose proof (inTier_empty l 3 ep Hx Hep).
        pose proof (tier_range ep). unfold rejected. lia. }
      destruct (sa_worst _ _ Hs) as (F1 & F2 & _ & _ & F5);
        [exists e0; split; [by left|by apply Hall; left]|].
      rewrite bool_decide_eq_false_2 by (intros Hf; by rewrite Hf in F1). simpl.
      apply served_collapse; [done|done|]. intros e He. by apply F5, Hall.
Qed.

(** Of any list, even one with an empty address in it, only members are
    returned, or the empty address. *)
Definition member (l : list EndpointAddr) (ep : EndpointAddr) : Prop := ep = "" \/ ep ∈ l.
Definition acc_members (l : list EndpointAddr) (a : selAcc) : Prop :=
  Forall (member l) (picks a) /\ member l (fallback a).

Lemma member_mono l l' ep : l ⊆ l' -> member l ep -> member l' ep.
Proof. intros Hs [->|H]; [by left|right; by apply Hs]. Qed.
Lemma sampleStep_members done ep a k :
  acc_members done a -> acc_members (done ++ [ep]) (sampleStep cfg scores rawInt a ep k).1.
Proof.
  intros [Hp Hf].
  assert (Forall (member (done ++ [ep])) (picks a)) as Hp'
    by (eapply Forall_impl; [exact Hp|intros x; apply member_mono; set_solver]).
  assert (member (done ++ [ep]) (fallback a)) as Hf' by (eapply member_mono, Hf; set_solver).
  assert (member (done ++ [ep]) ep) as He by (right; set_solver).
  unfold sampleStep. destruct (classify _ _ _) as [t score].
  repeat first [case_bool_decide|destruct (fltb _ _)|destruct (feqb _ _)]; simpl;
    repeat case_bool_decide; split; simpl; try done; by apply Forall_insert.
Qed.
Lemma pickOf_member l a t : acc_members l a -> member l (pickOf a t).
Proof.
  intros [Hp _]. unfold pickOf. destruct (picks a !! Z.to_nat t) as [e|] eqn:E; simpl; [|by left].
  rewrite Forall_lookup in Hp. by eapply Hp.
Qed.
Lemma repick_member l a best sel k :
  member l sel -> member l (repick rawFloat operatorCap latency Operator l a best sel k).1.
Proof.
  intros Hsel. unfold repick. set (weights := match latency with Some _ => _ | None => _ end).
  assert (Hw : forall k', member l
    ((match weights with
      | Some w => (i <~ pickIndex rawFloat (length l) (λ i, default f0 (w !! i)) ;;
                   rret (match i with Some i => default sel (l !! i) | None => sel end))%rnd
      | None => rret sel end) k').1).
  { intros k'. destruct weights as [w|]; [|done]. rewrite rbind_eq.
    destruct (pickIndex _ _ _ k') as [[i|] k2]; [|done]. simpl.
    destruct (l !! i : option EndpointAddr) as [e|] eqn:E; simpl; [|done].
    right. by eapply list_elem_of_lookup_2. }
  destruct operatorCap as [cap|]; [|apply Hw]. case_bool_decide; [|apply Hw].
  rewrite rbind_eq.
  destruct (cappedPickWeighted _ _ _ _ _ _ k) as [[[op ep]|] k2] eqn:Ec; [|apply Hw]. simpl.
  match type of Ec with ?c = _ => assert (c.1 = Some (op, ep)) as Hc by (by rewrite Ec) end.
  apply capped_pick_spec in Hc as [_ (i & Hi & _)]. right. by eapply list_elem_of_lookup_2.
Qed.
Lemma select_members l k :
  Forall (member l) (Select cfg scores rawInt rawFloat operatorCap latency Operator l k).1.1.
Proof.
  unfold Select. destruct l as [|e0 l0]; [constructor|]. set (l := e0 :: l0) in *.
  rewrite rbind_eq.
  assert (acc_members l (rfold (sampleStep cfg scores rawInt) accInit l k).1) as Ha.
  { apply (rfold_inv _ acc_members l); [intros; by apply sampleStep_members|].
    split; [|by left]. repeat (apply Forall_cons_2; [by left|]). apply Forall_nil_2. }
  destruct (rfold _ accInit l k) as [a k1]. simpl in Ha.
  pose proof (λ t, pickOf_member l a t Ha) as Hp. cbn [fst snd].
  destruct (cascade a) as [t|].
  - rewrite rbind_eq. pose proof (repick_member l a t (pickOf a t) k1 (Hp t)) as Hsel.
    destruct (repick _ _ _ _ l a t (pickOf a t) k1) as [sel k2]. cbn [fst snd] in *.
    repeat first [destruct (_ && _) | rewrite rbind_eq | case_bool_decide]; simpl;
      repeat first [apply Forall_nil_2|apply Forall_cons_2]; auto.
  - destruct Ha as [_ Hf]. repeat case_bool_decide; simpl;
      repeat first [apply Forall_nil_2|apply Forall_cons_2]; auto.
Qed.

(** A relay is always served from the best it has, for every sequence of
    random draws and with or without the operator cap and the latency
    tie-break: from a non-empty list [Select] returns one endpoint of the
    winning tier, preceded at most by one endpoint under trial; and when every
    endpoint is below the minimum threshold it returns one whose score no other
    exceeds, with the collapse hook called, rather than nothing. *)
Theorem select_always_serves l k :
  l <> [] -> "" ∉ l ->
  let out := (Select cfg scores rawInt rawFloat operatorCap latency Operator l k).1 in
  served l out /\ out.1 <> [] /\ (forall ep, ep ∈ out.1 -> ep ∈ l) /\
  (out.2 = true <-> forall ep, ep ∈ l -> rejected ep).
Proof.
  intros Hne Hl out. pose proof (select_served l k Hne Hl) as Hs. fold out in Hs. clearbody out.
  split; [done|]. destruct Hs as [t sel Hw Hsel|t u tr sel Hw Hsel Hu Htr|ep Hin Hall Hmin]; simpl.
  - apply inTier_in in Hsel as [Hs Ht]. split_and!; [done| |].
    + intros ep Hep. apply list_elem_of_singleton in Hep. by subst.
    + split; [done|]. intros Hall. specialize (Hall sel Hs). destruct Hw as (_ & H0 & _).
      unfold rejected in Hall. lia.
  - apply inTier_in in Hsel as [Hs Ht], Htr as [Hr Hru]. split_and!; [done| |].
    + intros ep Hep. apply elem_of_cons in Hep as [->|Hep]; [done|].
      apply list_elem_of_singleton in Hep. by subst.
    + split; [done|]. intros Hall. specialize (Hall sel Hs). destruct Hw as (_ & H0 & _).
      unfold rejected in Hall. lia.
  - split_and!; [done| |done]. intros e He. apply list_elem_of_singleton in He. by subst.
Qed.
End SelectSpec.

(** ** The reservoir is uniform *)
Section Reservoir.
Context (cfg : SelectorConfig) (scores : EndpointAddr -> f64 * bool).

(** Every sequence of draws a loop over [n] members of one tier can make: the
    i-th draw is below [i + 1]. *)
Fixpoint allDraws (n : nat) : list (list Z) :=
  match n with
  | O => [[]]
  | S m => ds ← allDraws m; (λ d, ds ++ [Z.of_nat d]) <$> seq 0 (S m)
  end.

Fixpoint lastZero (ds : list Z) : option nat :=
  match ds with
  | [] => None
  | d :: ds => match lastZero ds with
               | Some i => Some (S i)
               | None => if bool_decide (d = 0) then Some O else None
               end
  end.

Lemma lastZero_snoc ds d :
  lastZero (ds ++ [d]) = if bool_decide (d = 0) then Some (length ds) else lastZero ds.
Proof.
  induction ds as [|x ds IH]; simpl; [by case_bool_decide|]. rewrite IH. by case_bool_decide.
Qed.

Lemma lastZero_lt ds k : lastZero ds = Some k -> (k < length ds)%nat.
Proof.
  revert k. induction ds as [|d ds IH]; intros k; simpl; [done|].
  destruct (lastZero ds) as [i|]; [intros [= <-]; specialize (IH i eq_refl); lia|].
  case_bool_decide; [intros [= <-]; lia|done].
Qed.

Definition legal (ds : list Z) : Prop := forall i d, ds !! i = Some d -> 0 <= d < Z.of_nat (S i).

Lemma allDraws_legal n ds : ds ∈ allDraws n -> length ds = n /\ legal ds.
Proof.
  revert ds. induction n as [|n IH]; intros ds; cbn [allDraws].
  { intros ->%list_elem_of_singleton. split; [done|]. intros i d. by rewrite lookup_nil. }
  rewrite list_elem_of_bind. intros (es & Hds & Hes). apply IH in Hes as [Hl Hg].
  apply list_elem_of_fmap in Hds as (d & -> & Hd). apply elem_of_seq in Hd.
  split; [rewrite length_app, Hl; simpl; lia|]. intros i x Hx.
  destruct (decide (i < length es)%nat).
  - rewrite lookup_app_l in Hx by lia. by apply Hg.
  - rewrite lookup_app_r in Hx by lia. apply list_lookup_singleton_Some in Hx as [Hi <-]. lia.
Qed.

Lemma count_bind {A B} (f : A -> list B) (P : B -> Prop) `{!forall x, Decision (P x)} (l : list A) c :
  (forall a, a ∈ l -> length (filter P (f a)) = c a) ->
  length (filter P (l ≫= f)) = sum_list (c <$> l).
Proof.
  intros Hc. induction l as [|a l IH]; [done|]. rewrite bind_cons, filter_app, length_app.
  rewrite fmap_cons. simpl. rewrite Hc by (by left). f_equal. apply IH. intros. apply Hc. by right.
Qed.

Lemma count_seq_zero (n : nat) (es : list Z) (P : option nat -> Prop) `{!forall x, Decision (P x)} :
  length (filter (λ ds, P (lastZero ds)) ((λ d, es ++ [Z.of_nat d]) <$> seq 0 (S n))) =
  ((if decide (P (Some (length es))) then 1 else 0) + (if decide (P (lastZero es)) then n else 0))%nat.
Proof.
  cbn [seq]. rewrite fmap_cons.
  assert (length (filter (λ ds, P (lastZero ds)) ((λ d, es ++ [Z.of_nat d]) <$> seq 1 n)) =
    if decide (P (lastZero es)) then n else 0%nat) as Hrest.
  { assert (forall k, (1 <= k)%nat -> length (filter (λ ds, P (lastZero ds))
      ((λ d, es ++ [Z.of_nat d]) <$> seq k n)) = if decide (P (lastZero es)) then n else 0%nat) as Hk;
      [|by apply Hk].
    induction n as [|n IH]; intros k Hk; [by case_decide|]. cbn [seq]. rewrite fmap_cons.
    assert (lastZero (es ++ [Z.of_nat k]) = lastZero es) as Hz
      by (rewrite lastZero_snoc, bool_decide_eq_false_2; [done|lia]).
    specialize (IH (S k) ltac:(lia)). case_decide.
    - rewrite filter_cons_True by (by rewrite Hz). simpl. by rewrite IH.
    - rewrite filter_cons_False by (by rewrite Hz). exact IH. }
  assert (lastZero (es ++ [Z.of_nat 0]) = Some (length es)) as Hz
    by (rewrite lastZero_snoc, bool_decide_eq_true_2; done).
  destruct (decide (P (Some (length es)))).
  - rewrite filter_cons_True by (by rewrite Hz). simpl. by rewrite Hrest.
  - rewrite filter_cons_False by (by rewrite Hz). by rewrite Hrest.
Qed.

Lemma sum_indicator {A} (P : A -> Prop) `{!forall x, Decision (P x)} (l : list A) (n : nat) :
  sum_list ((λ a, if decide (P a) then n else 0%nat) <$> l) = (length (filter P l) * n)%nat.
Proof.
  induction l as [|a l IH]; [done|]. rewrite fmap_cons. simpl. rewrite IH.
  case_decide; [rewrite filter_cons_True by done|rewrite filter_cons_False by done]; simpl; lia.
Qed.

Lemma allDraws_length n : length (allDraws n) = fact n.
Proof.
  induction n as [|n IH]; [done|].
  transitivity (length (filter (λ _ : list Z, True) (allDraws (S n)))).
  { by rewrite filter_id. }
  cbn [allDraws]. rewrite (count_bind _ _ _ (λ _, S n)).
  - change (fact (S n)) with (S n * fact n)%nat. rewrite <- IH. clear.
    induction (allDraws n) as [|a l IH]; [simpl; lia|]. rewrite fmap_cons.
    simpl in *. rewrite IH. lia.
  - intros es _. rewrite filter_id by done. by rewrite length_fmap, length_seq.
Qed.

(** Each position is the last zero of the same number of draw sequences. *)
Lemma lastZero_count n j :
  (j < n)%nat -> length (filter (λ ds, lastZero ds = Some j) (allDraws n)) = fact (n - 1).
Proof.
  revert j. induction n as [|n IH]; intros j Hj; [lia|].
  cbn [allDraws]. rewrite Nat.sub_succ, Nat.sub_0_r.
  rewrite (count_bind _ _ _ (λ es, ((if decide (n = j) then 1 else 0) +
    (if decide (lastZero es = Some j) then n else 0))%nat)).
  2:{ intros es He. apply allDraws_legal in He as [Hl _].
      etrans; [exact (count_seq_zero n es (λ o, o = Some j))|]. rewrite Hl. f_equal.
      repeat case_decide; congruence. }
  destruct (decide (n = j)) as [->|Hne].
  - transitivity (sum_list ((λ _ : list Z, 1%nat) <$> allDraws j)).
    + f_equal. apply list_fmap_ext. intros i es He. rewrite decide_False; [done|].
      apply list_elem_of_lookup_2, allDraws_legal in He as [Hl _].
      intros Hz. apply lastZero_lt in Hz. lia.
    + rewrite <- allDraws_length. clear. induction (allDraws j); [done|]. rewrite fmap_cons. simpl in *. lia.
  - transitivity (sum_list ((λ es, if decide (lastZero es = Some j) then n else 0%nat) <$> allDraws n)).
    { f_equal. }
    rewrite sum_indicator, IH by lia. destruct n as [|n]; [lia|].
    simpl. rewrite Nat.sub_0_r. lia.
Qed.

(** The loop of [Select] over members of one tier picks the member at the last
    zero of its draws. *)
Lemma sampling_lastZero (l : list EndpointAddr) (t : Z) ds :
  0 <= t < 4 -> (forall ep, ep ∈ l -> tierOf cfg scores ep = t) -> length ds = length l -> legal ds ->
  pickOf (rfold (sampleStep cfg scores (λ k, default 0 (ds !! k))) accInit l O).1 t =
  default "" (lastZero ds ≫= λ i, l !! i).
Proof.
  intros Ht Hall Hlen Hg.
  pose (I := λ (done : list EndpointAddr) (a : selAcc) (k : nat),
    (length done <= length l)%nat -> (forall ep, ep ∈ done -> tierOf cfg scores ep = t) ->
    k = length done /\ countOf a t = Z.of_nat (length done) /\
    (length (picks a) = 4%nat /\ length (counts a) = 4%nat) /\
    pickOf a t = default "" (lastZero (take (length done) ds) ≫= λ i, done !! i)).
  cut (I l (rfold (sampleStep cfg scores (λ k, default 0 (ds !! k))) accInit l O).1
         (rfold (sampleStep cfg scores (λ k, default 0 (ds !! k))) accInit l O).2).
  { intros H. destruct (H (le_n _) Hall) as (_ & _ & _ & Hp). by rewrite Hp, take_ge by lia. }
  apply rfold_inv_at.
  2:{ intros _ _. unfold countOf, pickOf. simpl.
      assert (t = 0 \/ t = 1 \/ t = 2 \/ t = 3) as [?|[?|[?|?]]] by lia; subst; done. }
  intros done ep a k' IH Hl Hd. rewrite length_app in Hl. simpl in Hl.
  destruct IH as (-> & Hc & [Hp Hq] & Hpick);
    [lia|intros e He; apply Hd, elem_of_app; by left|].
  assert (tierOf cfg scores ep = t) as Hte by (apply Hd, elem_of_app; right; by left).
  unfold sampleStep. destruct (classify cfg scores ep) as [t' sc] eqn:Ec.
  assert (t' = t) as -> by (unfold tierOf in Hte; by rewrite Ec in Hte).
  rewrite bool_decide_eq_false_2 by lia. rewrite rbind_eq. cbn [fst snd IntN rret].
  destruct (lookup_lt_is_Some_2 ds (length done) ltac:(lia)) as [d Hdl]. rewrite Hdl. cbn [default from_option id].
  rewrite Hc. pose proof (Hg _ _ Hdl) as Hr.
  rewrite Z.mod_small by lia.
  assert (Hp4 : (Z.to_nat t < length (picks a))%nat) by (rewrite Hp; lia).
  rewrite length_app. cbn [length]. rewrite Nat.add_1_r, (take_S_r _ _ d) by done.
  rewrite lastZero_snoc, length_take, Nat.min_l by lia. split_and!; [done| | | |].
  - unfold countOf. cbn [counts]. rewrite list_lookup_insert_eq by (rewrite Hq; lia).
    cbn [default from_option id]. lia.
  - cbn [picks]. destruct (bool_decide (d = 0)); rewrite ?length_insert; done.
  - cbn [counts]. by rewrite length_insert.
  - unfold pickOf in *. cbn [picks]. destruct (bool_decide (d = 0)).
    + rewrite list_lookup_insert_eq by exact Hp4.
      change (ep = default "" ((done ++ [ep]) !! length done)).
      rewrite lookup_app_r by reflexivity. by rewrite Nat.sub_diag.
    + rewrite Hpick. destruct (lastZero (take (length done) ds)) as [i|] eqn:Ez; [|done]. simpl.
      rewrite lookup_app_l; [done|].
      apply lastZero_lt in Ez. rewrite length_take in Ez.
      eapply Nat.lt_le_trans; [exact Ez|apply Nat.le_min_l].
Qed.

Lemma reservoir_count (l : list EndpointAddr) (t : Z) j ep :
  0 <= t < 4 -> NoDup l -> (forall e, e ∈ l -> tierOf cfg scores e = t) -> l !! j = Some ep ->
  length (allDraws (length l)) = fact (length l) /\
  length (filter (λ ds, pickOf (rfold (sampleStep cfg scores (λ k, default 0 (ds !! k))) accInit l O).1 t = ep)
            (allDraws (length l))) = fact (length l - 1).
Proof.
  intros Ht Hnd Hall Hj. split; [apply allDraws_length|].
  pose proof (lookup_lt_Some _ _ _ Hj) as Hlt. rewrite <- (lastZero_count (length l) j Hlt). f_equal.
  apply filter_agree. intros ds Hds. apply allDraws_legal in Hds as [Hlen Hleg].
  rewrite (sampling_lastZero l t ds Ht Hall Hlen Hleg).
  destruct (lastZero ds) as [i|] eqn:Ez.
  - apply lastZero_lt in Ez as Hi. rewrite Hlen in Hi.
    destruct (lookup_lt_is_Some_2 l i Hi) as [x Hx].
    change (default ("" : EndpointAddr) (l !! i : option EndpointAddr) = ep <-> Some i = Some j).
    rewrite Hx. cbn [default from_option id]. split.
    + intros ->. f_equal. by eapply NoDup_lookup.
    + intros [= ->]. congruence.
  - split; [|done]. exfalso. clear -Hleg Hlen Ez Hlt.
    destruct ds as [|d ds]; [simpl in *; lia|].
    pose proof (Hleg 0%nat d eq_refl) as Hd. simpl in Ez. destruct (lastZero ds); [done|].
    rewrite bool_decide_eq_true_2 in Ez by lia. done.
Qed.

(** Selection within a tier is uniform: over all the equally likely
    sequences of draws the loop can make on a tier of [n] distinct endpoints
    ([n!] of them), each endpoint is the tier's pick of exactly [(n-1)!], one
    in [n]. *)
Theorem reservoir_is_uniform (l : list EndpointAddr) (t : Z) j ep :
  0 <= t < 4 -> NoDup l -> (forall e, e ∈ l -> tierOf cfg scores e = t) -> l !! j = Some ep ->
  length (allDraws (length l)) = fact (length l) /\
  length (filter (λ ds, pickOf (rfold (sampleStep cfg scores (λ k, default 0 (ds !! k))) accInit l O).1 t = ep)
            (allDraws (length l))) = fact (length l - 1).
Proof. apply reservoir_count. Qed.
End Reservoir.

(** ** Water-filling, in exact arithmetic *)
Section WaterFill.
Local Open Scope Q_scope.
Implicit Types (g : opGroup Q) (groups : list (opGroup Q)).

Lemma nltb_Q (x y : Q) : nltb x y = true <-> x < y.
Proof.
  cbn. rewrite negb_true_iff, <- not_true_iff_false, Qle_bool_iff. split; [apply Qnot_le_lt|apply Qlt_not_le].
Qed.
Lemma nltb_Q_false (x y : Q) : nltb x y = false <-> y <= x.
Proof. cbn. by rewrite negb_false_iff, Qle_bool_iff. Qed.
Lemma nleb_Q (x y : Q) : nleb x y = true <-> x <= y.
Proof. apply Qle_bool_iff. Qed.
Lemma nleb_Q_false (x y : Q) : nleb x y = false <-> y < x.
Proof.
  cbn. rewrite <- not_true_iff_false, Qle_bool_iff. split; [apply Qnot_le_lt|apply Qlt_not_le].
Qed.

Fixpoint qsum (f : opGroup Q -> Q) groups : Q :=
  match groups with [] => 0 | g :: gs => f g + qsum f gs end.

Lemma foldl_qsum (b : opGroup Q -> bool) (f : opGroup Q -> Q) groups a :
  foldl (λ e g, if b g then e + f g else e) a groups == a + qsum (λ g, if b g then f g else 0) groups.
Proof.
  revert a. induction groups as [|g gs IH]; intros a; simpl; [lra|]. rewrite IH. destruct (b g); lra.
Qed.

Lemma qsum_ext f f' groups : (forall g, g ∈ groups -> f g == f' g) -> qsum f groups == qsum f' groups.
Proof.
  induction groups as [|g gs IH]; intros Hf; simpl; [lra|].
  rewrite (Hf g), IH by (intros; try apply Hf; by constructor || (by right)). lra.
Qed.

Lemma qsum_plus f f' groups : qsum (λ g, f g + f' g) groups == qsum f groups + qsum f' groups.
Proof. induction groups as [|g gs IH]; simpl; [lra|]. rewrite IH. lra. Qed.

Lemma qsum_scale c f groups : qsum (λ g, c * f g) groups == c * qsum f groups.
Proof. induction groups as [|g gs IH]; simpl; [lra|]. rewrite IH. lra. Qed.

Lemma qsum_fmap (h : opGroup Q -> opGroup Q) f groups :
  qsum f (h <$> groups) = qsum (λ g, f (h g)) groups.
Proof. induction groups as [|g gs IH]; [done|]. rewrite fmap_cons. simpl. by rewrite IH. Qed.

Lemma qsum_nonneg f groups : (forall g, g ∈ groups -> 0 <= f g) -> 0 <= qsum f groups.
Proof.
  induction groups as [|g gs IH]; intros Hf; simpl; [lra|].
  assert (0 <= f g) by (apply Hf; by left). assert (0 <= qsum f gs) by (apply IH; intros; apply Hf; by right).
  lra.
Qed.

Lemma qsum_ge_two f groups i j gi gj :
  (forall g, g ∈ groups -> 0 <= f g) -> i <> j -> groups !! i = Some gi -> groups !! j = Some gj ->
  f gi + f gj <= qsum f groups.
Proof.
  revert i j. induction groups as [|g gs IH]; intros i j Hf Hij Hi Hj; [by rewrite lookup_nil in Hi|].
  assert (0 <= f g) as Hg by (apply Hf; by left).
  assert (Hgs : forall x, x ∈ gs -> 0 <= f x) by (intros; apply Hf; by right).
  assert (Hone : forall k x, gs !! k = Some x -> f x <= qsum f gs).
  { clear -Hgs. induction gs as [|y ys IH]; intros k x Hk; [by rewrite lookup_nil in Hk|].
    assert (0 <= f y) by (apply Hgs; by left).
    assert (0 <= qsum f ys) by (apply qsum_nonneg; intros; apply Hgs; by right).
    destruct k as [|k]; simpl in Hk; [simplify_eq; simpl; lra|].
    simpl. pose proof (IH ltac:(intros; apply Hgs; by right) k x Hk). lra. }
  destruct i as [|i], j as [|j]; simpl in Hi, Hj; simplify_eq; simpl; try done.
  - pose proof (Hone j gj Hj). lra.
  - pose proof (Hone i gi Hi). lra.
  - pose proof (IH i j Hgs ltac:(congruence) Hi Hj). lra.
Qed.

Lemma share_bounds (G H h : Q) : 0 < H -> 0 <= h -> 0 <= G <= H -> 0 <= G * h / H <= h.
Proof.
  intros HH Hh [HG1 HG2]. split.
  - apply Qle_shift_div_l; [done|]. nra.
  - apply Qle_shift_div_r; [done|]. nra.
Qed.

(** The state [cappedPickWeighted] hands over: each operator weighs its own
    entitlement, shares are non-negative, and none is within the float guard
    above the cap. *)
Record entitled (cap : Q) groups : Prop := {
  en_weight : forall g, g ∈ groups -> weight g = entitlement g;
  en_nonneg : forall g, g ∈ groups -> 0 <= entitlement g;
  en_clear : forall g, g ∈ groups -> entitlement g <= cap \/ cap + eps < entitlement g
}.

Section Fixed.
Context (cap ceiling : Q) (groups : list (opGroup Q)) (Hen : entitled cap groups) (Hcap : 0 <= cap).

Lemma eps_pos : 0 < (eps : Q).
Proof. reflexivity. Qed.

Lemma over_iff g : g ∈ groups -> isOver cap g = true <-> cap < entitlement g.
Proof.
  intros Hg. unfold isOver. rewrite nltb_Q, (en_weight _ _ Hen g Hg). change (nadd cap eps) with (cap + eps).
  pose proof eps_pos. destruct (en_clear _ _ Hen g Hg); split; lra.
Qed.

Lemma limit_le g : limit cap ceiling g <= cap.
Proof. unfold limit. destruct (nltb n0 ceiling); [apply Q.le_min_l|lra]. Qed.

Definition excess : Q := clipExcess cap groups.
Definition headroom : Q := totalRoom cap ceiling (clip cap <$> groups).
Definition give : Q := Qmin excess headroom.
Definition over : Q := clipEntitlement cap groups.

(** What each group ends with. *)
Definition received g : Q :=
  if nltb eps give && nltb n0 (room cap ceiling (clip cap g))
  then give * room cap ceiling (clip cap g) / headroom else 0.
Definition returned g : Q :=
  if nltb eps (excess - give) && nltb n0 over && isOver cap g
  then (excess - give) * entitlement g / over else 0.

Lemma clipped_weight g : g ∈ groups ->
  weight (clip cap g) = (if isOver cap g then cap else entitlement g) /\
  entitlement (clip cap g) = entitlement g.
Proof.
  intros Hg. unfold clip. destruct (isOver cap g); simpl; [done|]. split; [by apply (en_weight _ _ Hen)|done].
Qed.

Lemma final_weight g :
  g ∈ groups -> nleb excess eps = false ->
  let g1 := if nltb eps give then giveTo cap ceiling give headroom (clip cap g) else clip cap g in
  let g2 := if nltb eps (excess - give) && nltb n0 over then giveBack cap (excess - give) over g1 else g1 in
  weight g2 == weight (clip cap g) + received g + returned g.
Proof.
  intros Hg Hex. cbv zeta. destruct (clipped_weight g Hg) as [Hw He].
  unfold received, returned.
  assert (Hroom : isOver cap g = true -> nltb n0 (room cap ceiling (clip cap g)) = false).
  { intros Ho. apply nltb_Q_false. unfold room. rewrite Hw, Ho.
    assert (limit cap ceiling (clip cap g) <= cap) by apply limit_le. cbn. lra. }
  set (g1 := if nltb eps give then _ else _).
  assert (Hg1 : weight g1 == weight (clip cap g) +
    (if nltb eps give && nltb n0 (room cap ceiling (clip cap g))
     then give * room cap ceiling (clip cap g) / headroom else 0) /\ entitlement g1 = entitlement g).
  { unfold g1, giveTo. destruct (nltb eps give); cbn [andb]; [|split; [lra|done]].
    destruct (nltb n0 _); cbn; (split; [|done]); lra. }
  destruct Hg1 as [Hg1 He1].
  destruct (nltb eps (excess - give) && nltb n0 over); cbn [andb]; [|lra].
  assert (Hcond : nleb (nsub cap eps) (weight g1) && nltb cap (entitlement g1) = isOver cap g).
  { rewrite He1. destruct (isOver cap g) eqn:Ho.
    - apply andb_true_iff. split; [|by apply nltb_Q, over_iff].
      apply nleb_Q. rewrite Hg1, Hw, (Hroom eq_refl), andb_false_r. pose proof eps_pos.
      change (nsub cap eps) with (cap - eps). lra.
    - apply andb_false_iff. right. apply nltb_Q_false. apply Qnot_lt_le. rewrite <- over_iff by done. congruence. }
  unfold giveBack. rewrite Hcond. destruct (isOver cap g); [|lra].
  change (weight g1 + (excess - give) * entitlement g1 / over ==
    weight (clip cap g) + (if nltb eps give && nltb n0 (room cap ceiling (clip cap g))
      then give * room cap ceiling (clip cap g) / headroom else 0) +
    (excess - give) * entitlement g / over). rewrite He1. lra.
Qed.

Lemma excess_sum : excess == qsum (λ g, if isOver cap g then entitlement g - cap else 0) groups.
Proof.
  unfold excess, clipExcess.
  change (foldl (λ e g, if isOver cap g then e + (weight g - cap) else e) 0 groups ==
    qsum (λ g, if isOver cap g then entitlement g - cap else 0) groups).
  rewrite (foldl_qsum (isOver cap) (λ g, weight g - cap)).
  rewrite (qsum_ext _ (λ g, if isOver cap g then entitlement g - cap else 0)); [lra|].
  intros g Hg. by rewrite (en_weight _ _ Hen g Hg).
Qed.

Lemma over_sum : over == qsum (λ g, if isOver cap g then entitlement g else 0) groups.
Proof.
  unfold over, clipEntitlement.
  change (foldl (λ e g, if isOver cap g then e + entitlement g else e) 0 groups ==
    qsum (λ g, if isOver cap g then entitlement g else 0) groups).
  rewrite (foldl_qsum (isOver cap) entitlement). lra.
Qed.

Lemma headroom_sum :
  headroom == qsum (λ g, if nltb n0 (room cap ceiling (clip cap g))
                         then room cap ceiling (clip cap g) else 0) groups.
Proof.
  unfold headroom, totalRoom.
  change (foldl (λ e g, if nltb n0 (room cap ceiling g) then e + room cap ceiling g else e) 0
    (clip cap <$> groups) == qsum (λ g, if nltb n0 (room cap ceiling (clip cap g))
                         then room cap ceiling (clip cap g) else 0) groups).
  rewrite (foldl_qsum (λ g, nltb n0 (room cap ceiling g)) (room cap ceiling)), qsum_fmap. lra.
Qed.

Lemma headroom_nonneg : 0 <= headroom.
Proof.
  rewrite headroom_sum. apply qsum_nonneg. intros g _.
  destruct (nltb n0 _) eqn:E; [|lra]. apply nltb_Q in E. apply Qlt_le_weak. exact E.
Qed.

(** Any share above the cap is above it by more than the guard. *)
Lemma excess_guard g : g ∈ groups -> isOver cap g = true -> eps < excess /\ entitlement g <= over.
Proof.
  intros Hg Ho.
  assert (Hterm : forall f, (forall x, x ∈ groups -> 0 <= f x) -> f g <= qsum f groups).
  { intros f Hf. apply list_elem_of_lookup in Hg as [i Hi]. clear Ho Hcap Hen.
    revert i Hi Hf. induction groups as [|x gs IH]; intros i Hi Hf; [by rewrite lookup_nil in Hi|].
    assert (0 <= f x) by (apply Hf; by left).
    assert (0 <= qsum f gs) by (apply qsum_nonneg; intros; apply Hf; by right).
    destruct i as [|i]; simpl in Hi; [simplify_eq; simpl; lra|]. simpl.
    pose proof (IH i Hi ltac:(intros; apply Hf; by right)). lra. }
  pose proof (proj1 (over_iff g Hg) Ho) as Hgt.
  split.
  - rewrite excess_sum. eapply Qlt_le_trans; [|apply (Hterm (λ g, if isOver cap g then entitlement g - cap else 0))].
    + rewrite Ho. destruct (en_clear _ _ Hen g Hg); lra.
    + intros x Hx. destruct (isOver cap x) eqn:Ex; [|lra]. apply over_iff in Ex; [lra|done].
  - rewrite over_sum. eapply Qle_trans; [|apply (Hterm (λ g, if isOver cap g then entitlement g else 0))].
    + rewrite Ho. lra.
    + intros x Hx. destruct (isOver cap x); [by apply (en_nonneg _ _ Hen)|lra].
Qed.

Lemma over_exists : nleb excess eps = false -> exists g, g ∈ groups /\ isOver cap g = true.
Proof.
  intros Hex. destruct (decide (Exists (λ g, isOver cap g = true) groups)) as [He|He];
    [by apply Exists_exists in He|]. exfalso. apply nleb_Q_false in Hex.
  assert (excess == 0) as Hz.
  { rewrite excess_sum. rewrite (qsum_ext _ (λ _, 0 * 1)); [rewrite qsum_scale; lra|].
    intros g Hg. destruct (isOver cap g) eqn:Eo; [|lra]. destruct He. apply Exists_exists. by exists g. }
  pose proof eps_pos. lra.
Qed.

Lemma give_bounds : 0 <= give <= headroom /\ (0 <= excess -> give <= excess).
Proof.
  pose proof headroom_nonneg. unfold give. split; [split|].
  - apply Q.min_glb; [|done]. rewrite excess_sum. apply qsum_nonneg. intros g Hg.
    destruct (isOver cap g) eqn:E; [|lra]. apply over_iff in E; [lra|done].
  - apply Q.le_min_r.
  - intros _. apply Q.le_min_l.
Qed.

Lemma received_sum : qsum received groups == if nltb eps give then give else 0.
Proof.
  unfold received. destruct (nltb eps give) eqn:E; cbn [andb].
  - apply nltb_Q in E. destruct give_bounds as [[? ?] _]. pose proof eps_pos.
    rewrite (qsum_ext _ (λ g, (give / headroom) * (if nltb n0 (room cap ceiling (clip cap g))
      then room cap ceiling (clip cap g) else 0))).
    + rewrite qsum_scale, <- headroom_sum. field. lra.
    + intros g _. destruct (nltb n0 _); [field; lra|lra].
  - rewrite (qsum_ext _ (λ _, 0 * 1)); [rewrite qsum_scale; lra|intros; lra].
Qed.

Lemma returned_sum : qsum returned groups == if nltb eps (excess - give) && nltb n0 over
                                             then excess - give else 0.
Proof.
  unfold returned. destruct (nltb eps (excess - give) && nltb n0 over) eqn:E; cbn [andb].
  - apply andb_true_iff in E as [_ E]. apply nltb_Q in E.
    rewrite (qsum_ext _ (λ g, ((excess - give) / over) * (if isOver cap g then entitlement g else 0))).
    + rewrite qsum_scale, <- over_sum. change (0 < over) in E. field. lra.
    + intros g _. change (0 < over) in E. destruct (isOver cap g); [field; lra|lra].
  - rewrite (qsum_ext _ (λ _, 0 * 1)); [rewrite qsum_scale; lra|intros; lra].
Qed.

Lemma clipped_sum : qsum (λ g, weight (clip cap g)) groups == qsum weight groups - excess.
Proof.
  rewrite excess_sum. rewrite (qsum_ext weight entitlement)
    by (intros g Hg; by rewrite (en_weight _ _ Hen g Hg)).
  assert (qsum (λ g, weight (clip cap g)) groups +
    qsum (λ g, if isOver cap g then entitlement g - cap else 0) groups == qsum entitlement groups); [|lra].
  rewrite <- qsum_plus. apply qsum_ext. intros g Hg. destruct (clipped_weight g Hg) as [-> _].
  destruct (isOver cap g); lra.
Qed.

(** The whole pass as one function per group. *)
Lemma waterFill_map :
  exists F : opGroup Q -> opGroup Q, waterFill groups cap ceiling = F <$> groups /\
  forall g, g ∈ groups ->
    weight (F g) == weight (clip cap g) +
      (if nleb excess eps then 0 else received g) + (if nleb excess eps then 0 else returned g).
Proof.
  unfold waterFill. change (clipExcess cap groups) with excess. change (clipEntitlement cap groups) with over.
  change (totalRoom cap ceiling (clip cap <$> groups)) with headroom. change (nmin excess headroom) with give.
  change (nsub excess give) with (excess - give).
  destruct (nleb excess eps) eqn:Eex.
  { exists (clip cap). split; [done|]. intros g Hg. lra. }
  exists (λ g, let g1 := if nltb eps give then giveTo cap ceiling give headroom (clip cap g) else clip cap g in
    if nltb eps (excess - give) && nltb n0 over then giveBack cap (excess - give) over g1 else g1).
  split; [|intros g Hg; by apply final_weight].
  destruct (nltb eps give), (nltb eps (excess - give) && nltb n0 over);
    by rewrite <- ?list_fmap_compose.
Qed.

Lemma received_bounds g : 0 <= received g /\
  received g <= Qmax (room cap ceiling (clip cap g)) 0.
Proof.
  unfold received. destruct (nltb eps give && _) eqn:E.
  - apply andb_true_iff in E as [E1 E2]. apply nltb_Q in E1, E2. change (0 < room cap ceiling (clip cap g)) in E2.
    destruct give_bounds as [[? ?] _]. pose proof eps_pos.
    destruct (share_bounds give headroom (room cap ceiling (clip cap g))) as [? ?]; [lra|lra|lra|].
    split; [done|]. eapply Qle_trans; [done|apply Q.le_max_l].
  - split; [lra|apply Q.le_max_r].
Qed.

(** A group within the cap keeps its share and takes no more than its limit. *)
Lemma receiver_bounds g g' :
  g ∈ groups -> entitlement g <= cap ->
  weight g' == weight (clip cap g) +
      (if nleb excess eps then 0 else received g) + (if nleb excess eps then 0 else returned g) ->
  entitlement g <= weight g' /\ weight g' <= Qmax (entitlement g) (limit cap ceiling g).
Proof.
  intros Hg Hle Hw. destruct (clipped_weight g Hg) as [Hc He].
  destruct (isOver cap g) eqn:Eo; [apply over_iff in Eo; [lra|done]|].
  assert (clip cap g = g) as Hclip by (unfold clip; by rewrite Eo).
  assert (returned g == 0) as Hr by (unfold returned; rewrite Eo, andb_false_r; lra).
  pose proof (received_bounds g) as [H1 H2]. rewrite Hclip in H2. unfold room in H2.
  rewrite (en_weight _ _ Hen g Hg) in H2. change (nsub (limit cap ceiling g) (entitlement g))
    with (limit cap ceiling g - entitlement g) in H2.
  pose proof (Q.le_max_l (entitlement g) (limit cap ceiling g)).
  pose proof (Q.le_max_r (entitlement g) (limit cap ceiling g)).
  assert (Qmax (limit cap ceiling g - entitlement g) 0 <=
    Qmax (entitlement g) (limit cap ceiling g) - entitlement g) by (apply Q.max_lub; lra).
  rewrite Hw, Hc. destruct (nleb excess eps); [split; lra|]. rewrite Hr. split; lra.
Qed.

(** The one operator over the cap ends between the cap and its entitlement. *)
Lemma donor_bounds g g' :
  excess == entitlement g - cap -> over == entitlement g ->
  g ∈ groups -> cap < entitlement g ->
  weight g' == weight (clip cap g) +
      (if nleb excess eps then 0 else received g) + (if nleb excess eps then 0 else returned g) ->
  cap <= weight g' /\ weight g' <= entitlement g /\ (excess <= headroom -> weight g' <= cap).
Proof.
  intros Hexc Hov Hg Hlt Hw. destruct (clipped_weight g Hg) as [Hc He].
  assert (Ho : isOver cap g = true) by (by apply over_iff). rewrite Ho in Hc.
  destruct (excess_guard g Hg Ho) as [Hgd _].
  assert (nleb excess eps = false) as Hex by (by apply nleb_Q_false). rewrite Hex in Hw.
  assert (received g == 0) as Hr.
  { pose proof (received_bounds g) as [H1 H2]. unfold room in H2. rewrite Hc in H2.
    pose proof (limit_le (clip cap g)). change (nsub (limit cap ceiling (clip cap g)) cap)
      with (limit cap ceiling (clip cap g) - cap) in H2.
    assert (Qmax (limit cap ceiling (clip cap g) - cap) 0 <= 0) by (apply Q.max_lub; lra). lra. }
  pose proof eps_pos. destruct give_bounds as [[? ?] Hge]. specialize (Hge ltac:(lra)).
  assert (0 <= returned g /\ returned g <= excess - give) as [Hr1 Hr2].
  { unfold returned. rewrite Ho, andb_true_r.
    destruct (nltb eps (excess - give) && nltb n0 over); [|split; lra].
    assert ((excess - give) * entitlement g / over == excess - give) as ->; [|split; lra].
    rewrite Hov. field. lra. }
  split_and!; [rewrite Hw, Hc; lra..|]. intros Hhr.
  assert (give == excess) by (unfold give; by apply Q.min_l). rewrite Hw, Hc. lra.
Qed.

(** The shares add up to what they added up to, less at most twice the guard. *)
Lemma conserved out :
  out = waterFill groups cap ceiling ->
  qsum weight out <= qsum weight groups /\ qsum weight groups <= qsum weight out + 2 * eps.
Proof.
  intros ->. destruct waterFill_map as (F & -> & HF). rewrite qsum_fmap.
  rewrite (qsum_ext _ _ groups HF), !qsum_plus, clipped_sum. pose proof eps_pos.
  assert (0 <= excess) as H0.
  { rewrite excess_sum. apply qsum_nonneg. intros g Hg. destruct (isOver cap g) eqn:E; [|lra].
    apply over_iff in E; [lra|done]. }
  destruct (nleb excess eps) eqn:Eex.
  { apply nleb_Q in Eex. rewrite !(qsum_ext (λ _, 0) (λ _, 0 * 1)) by (intros; lra). rewrite !qsum_scale.
    split; lra. }
  change (λ g, received g) with received. change (λ g, returned g) with returned.
  rewrite received_sum, returned_sum. destruct give_bounds as [[? ?] Hge]. specialize (Hge H0).
  destruct (over_exists Eex) as (g & Hg & Ho). destruct (excess_guard g Hg Ho) as [_ Hov].
  apply over_iff in Ho; [|done].
  assert (nltb n0 over = true) as -> by (apply nltb_Q; change (n0 : Q) with 0; lra).
  rewrite andb_true_r.
  destruct (nltb eps give) eqn:E1, (nltb eps (excess - give)) eqn:E2;
    rewrite ?nltb_Q, ?nltb_Q_false in *; split; lra.
Qed.
End Fixed.

(** With a cap of at least a half only one operator can be over it. *)
Lemma single_donor cap groups i j gi gj :
  entitled cap groups -> 1 # 2 <= cap -> qsum entitlement groups <= 1 ->
  groups !! i = Some gi -> groups !! j = Some gj -> cap < entitlement gi -> cap < entitlement gj -> i = j.
Proof.
  intros Hen Hc Hs Hi Hj Hgi Hgj. destruct (decide (i = j)) as [|Hij]; [done|].
  pose proof (qsum_ge_two entitlement groups i j gi gj (en_nonneg _ _ Hen) Hij Hi Hj). exfalso. lra.
Qed.

Lemma single_sum (b : opGroup Q -> bool) f groups i g :
  (forall j x, groups !! j = Some x -> b x = true -> j = i) -> groups !! i = Some g -> b g = true ->
  qsum (λ x, if b x then f x else 0) groups == f g.
Proof.
  revert i. induction groups as [|x gs IH]; intros i Huniq Hi Hb; [by rewrite lookup_nil in Hi|]. simpl.
  destruct i as [|i]; simpl in Hi.
  - simplify_eq. rewrite Hb.
    rewrite (qsum_ext _ (λ _, 0 * 1) gs); [rewrite qsum_scale; lra|].
    intros y Hy. apply list_elem_of_lookup in Hy as [j Hj]. destruct (b y) eqn:E; [|lra].
    specialize (Huniq (S j) y Hj E). done.
  - destruct (b x) eqn:E; [by specialize (Huniq O x eq_refl E)|].
    rewrite (IH i); [lra| |done|done]. intros j y Hj Hy. specialize (Huniq (S j) y Hj Hy). congruence.
Qed.

(** The operator cap redistributes and never drops: over exact rationals,
    for a cap of at least a half (the shipped ones are 0.50 and 0.65), the
    shares after [waterFill] add up to what they did before, less at most twice
    the float guard; an operator within the cap keeps its share and receives no
    more than the cap and its displacement ceiling allow; the operator over
    the cap ends between the cap and its own entitlement, and exactly within
    the cap when the others have room for all of its excess. *)
Theorem water_fill_contract cap ceiling groups :
  entitled cap groups -> 1 # 2 <= cap -> qsum entitlement groups <= 1 ->
  let out := waterFill groups cap ceiling in
  (qsum weight out <= qsum weight groups /\ qsum weight groups <= qsum weight out + 2 * eps) /\
  length out = length groups /\
  forall i g g', groups !! i = Some g -> out !! i = Some g' ->
    (entitlement g <= cap -> entitlement g <= weight g' /\
       weight g' <= Qmax (entitlement g) (limit cap ceiling g) /\ weight g' <= cap) /\
    (cap < entitlement g -> cap <= weight g' /\ weight g' <= entitlement g /\
       (excess cap groups <= headroom cap ceiling groups -> weight g' <= cap)).
Proof.
  intros Hen Hc Hs out. assert (Hc0 : 0 <= cap) by lra.
  split; [by apply (conserved cap ceiling groups Hen Hc0)|].
  destruct (waterFill_map cap ceiling groups Hen) as (F & HF & Hw). unfold out. rewrite HF.
  split; [by rewrite length_fmap|]. intros i g g' Hi Hi'.
  rewrite list_lookup_fmap, Hi in Hi'. injection Hi' as <-.
  assert (Hg : g ∈ groups) by (by eapply list_elem_of_lookup_2). split.
  - intros Hle. destruct (receiver_bounds cap ceiling groups Hen g (F g) Hg Hle (Hw g Hg)) as [? ?].
    split_and!; [done|done|]. eapply Qle_trans; [done|]. apply Q.max_lub; [done|apply limit_le].
  - intros Hlt.
    assert (Hsum : forall f, qsum (λ x, if isOver cap x then f x else 0) groups == f g).
    { intros f. apply (single_sum (isOver cap) f groups i g); [|done|by apply (over_iff cap groups Hen)].
      intros j x Hj Hx. apply (over_iff cap groups Hen) in Hx; [|by eapply list_elem_of_lookup_2].
      symmetry. by eapply single_donor. }
    apply (donor_bounds cap ceiling groups Hen Hc0 g (F g)); [| |done|done|by apply Hw].
    + rewrite (excess_sum cap groups Hen). apply (Hsum (λ x, entitlement x - cap)).
    + rewrite over_sum. apply Hsum.
Qed.
End WaterFill.

(** ** [TopTierCandidates] *)
Section TopTier.
Context (cfg : SelectorConfig) (scores : EndpointAddr -> f64 * bool).

Record topped (l : list EndpointAddr) (acc : Z * f64 * bool) : Prop := {
  tt_best : acc.1.1 = -1 \/ (0 <= acc.1.1 /\ exists ep, ep ∈ l /\ tierOf cfg scores ep = acc.1.1);
  tt_low : forall ep, ep ∈ l -> ~ rejected cfg scores ep ->
    0 <= acc.1.1 <= tierOf cfg scores ep;
  tt_rej : acc.2 = false -> forall ep, ep ∈ l -> ~ rejected cfg scores ep;
  tt_max : acc.2 = true -> (exists ep, ep ∈ l /\ rejected cfg scores ep /\ scoreOf cfg scores ep = acc.1.2) /\
    forall ep, ep ∈ l -> rejected cfg scores ep -> fltb acc.1.2 (scoreOf cfg scores ep) = false
}.

Lemma topStep_ok l acc ep :
  topped l acc -> topped (l ++ [ep]) (topStep cfg scores acc ep).
Proof.
  destruct acc as [[best br] hr]. intros [H1 H2 H3 H4]. simpl in *. unfold topStep.
  destruct (classify cfg scores ep) as [t score] eqn:Ec.
  assert (tierOf cfg scores ep = t /\ scoreOf cfg scores ep = score) as [Ht Hsc]
    by (unfold tierOf, scoreOf; by rewrite Ec).
  assert (Hin : forall x, x ∈ l ++ [ep] <-> x ∈ l \/ x = ep)
    by (intros; rewrite elem_of_app, list_elem_of_singleton; done).
  destruct (bool_decide (t < 0)) eqn:Et.
  - apply bool_decide_eq_true in Et.
    assert (Hr : rejected cfg scores ep) by (unfold rejected; lia).
    assert (Hlow : forall x, x ∈ l ++ [ep] -> ~ rejected cfg scores x -> 0 <= best <= tierOf cfg scores x).
    { intros x [Hx| ->]%Hin Hn; [by apply H2|done]. }
    assert (Hbest : best = -1 \/ (0 <= best /\ exists e, e ∈ l ++ [ep] /\ tierOf cfg scores e = best)).
    { destruct H1 as [?|[? (e & ? & ?)]]; [by left|right]. split; [done|]. exists e. split; [apply Hin; by left|done]. }
    destruct (negb hr || fltb br score) eqn:Eb; split; simpl; try done.
    + intros _. split; [exists ep; split_and!; [apply Hin; by right|done|done]|].
      intros x [Hx| ->]%Hin Hxr; [|by rewrite Hsc; apply fltb_irrefl].
      destruct hr; simpl in Eb; [|by destruct (H3 eq_refl x Hx)].
      destruct (fltb score (scoreOf cfg scores x)) eqn:E; [|done].
      destruct (H4 eq_refl) as [_ Hm]. rewrite <- (Hm x Hx Hxr). by rewrite (fltb_trans _ _ _ Eb E).
    + intros ->. done.
    + intros ->. simpl in Eb. destruct (H4 eq_refl) as [(e & ? & ? & ?) Hm]. split.
      * exists e. split_and!; [apply Hin; by left|done|done].
      * intros x [Hx| ->]%Hin Hxr; [by apply Hm|by rewrite Hsc].
  - apply bool_decide_eq_false in Et.
    assert (Hnr : ~ rejected cfg scores ep) by (unfold rejected; lia).
    set (b := if bool_decide (best < 0) || bool_decide (t < best) then t else best).
    assert (Hb : 0 <= b /\ b <= t /\ (b = t \/ b = best) /\ (0 <= best -> b <= best)).
    { unfold b. repeat case_bool_decide; simpl; lia. }
    clearbody b. destruct Hb as (Hb0 & Hb1 & Hb2 & Hb3).
    split; simpl; try done.
    + right. split; [lia|]. destruct Hb2 as [Hbt|Hbt]; rewrite Hbt.
      * exists ep. split; [apply Hin; by right|done].
      * destruct H1 as [?|[_ (e & ? & ?)]]; [lia|]. exists e. split; [apply Hin; by left|done].
    + intros x [Hx| ->]%Hin Hn; [|lia].
      destruct (H2 x Hx Hn) as [Hx0 Hx1]. specialize (Hb3 Hx0). lia.
    + intros E x [Hx| ->]%Hin; [by apply H3|done].
    + intros E. destruct (H4 E) as [(e & ? & ? & ?) Hm]. split.
      * exists e. split_and!; [apply Hin; by left|done|done].
      * intros x [Hx| ->]%Hin Hxr; [by apply Hm|done].
Qed.

(** A non-empty list always has candidates: all of the winning tier, or, in a
    collapsed pool, all of those whose score no other exceeds. *)
Lemma top_tier_spec (l : list EndpointAddr) :
  l <> [] ->
  let '(out, collapsed) := TopTierCandidates cfg scores l in
  out <> [] /\
  (collapsed = true <-> forall ep, ep ∈ l -> rejected cfg scores ep) /\
  (collapsed = false -> exists t, winning cfg scores l t /\ out = inTier cfg scores l t) /\
  (collapsed = true -> forall ep, ep ∈ out <-> ep ∈ l /\
     forall e, e ∈ l -> fltb (scoreOf cfg scores ep) (scoreOf cfg scores e) = false).
Proof.
  intros Hne. unfold TopTierCandidates. destruct l as [|e0 l0]; [done|]. set (l := e0 :: l0) in *.
  assert (He0 : e0 ∈ l) by (unfold l; by left).
  assert (topped l (foldl (topStep cfg scores) (-1, f0, false) l)) as Ht.
  { clear He0 Hne. clearbody l. clear e0 l0. induction l as [|x l IH] using rev_ind.
    - split; simpl; [by left|intros ep Hep; by apply elem_of_nil in Hep|intros _ ep Hep; by apply elem_of_nil in Hep|done].
    - rewrite foldl_app. by apply topStep_ok. }
  destruct (foldl _ _ l) as [[best br] hr]. destruct Ht as [H1 H2 H3 H4]. simpl in *.
  case_bool_decide as Hb.
  - assert (Hall : forall ep, ep ∈ l -> rejected cfg scores ep).
    { intros ep Hep. unfold rejected. destruct (Z.lt_ge_cases (tierOf cfg scores ep) 0); [done|].
      specialize (H2 ep Hep ltac:(unfold rejected; lia)). lia. }
    destruct hr; simpl.
    2:{ destruct (H3 eq_refl e0 He0). by apply Hall. }
    destruct (H4 eq_refl) as [(em & Hem & Hrm & Hsm) Hm].
    assert (Hspec : forall ep, ep ∈ filter (λ ep, feqb (scoreOf cfg scores ep) br = true) l <-> ep ∈ l /\
      forall e, e ∈ l -> fltb (scoreOf cfg scores ep) (scoreOf cfg scores e) = false).
    { intros ep. rewrite list_elem_of_filter. split.
      - intros [Heq Hep]. split; [done|]. intros e He.
        apply feqb_spec in Heq as (? & ? & Hk). rewrite (key_fltb _ br) by done.
        by apply Hm, Hall.
      - intros [Hep Hmax]. split; [|done]. apply feqb_spec.
        pose proof (rejected_score cfg scores ep (Hall ep Hep)) as N1.
        pose proof (rejected_score cfg scores em Hrm) as N2. rewrite Hsm in N2.
        split_and!; [done|done|].
        pose proof (Hmax em Hem) as M1. pose proof (Hm ep Hep (Hall ep Hep)) as M2. rewrite Hsm in M1.
        destruct (SFcompare (scoreOf cfg scores ep) br) as [[]|] eqn:Ecmp.
        + pose proof (compare_key (scoreOf cfg scores ep) br) as Hk. rewrite Ecmp in Hk. by destruct Hk as (_ & _ & ?).
        + unfold fltb, SFltb in M1. by rewrite Ecmp in M1.
        + pose proof (compare_key (scoreOf cfg scores ep) br) as Hk. rewrite Ecmp in Hk.
          destruct Hk as (_ & _ & Hk). rewrite (proj2 (fltb_spec br (scoreOf cfg scores ep))) in M2; [done|].
          by split_and!.
        + pose proof (compare_key (scoreOf cfg scores ep) br) as Hk. rewrite Ecmp in Hk. destruct Hk; congruence. }
    split_and!; [|by split|done|intros _; exact Hspec].
    intros Hnil. assert (em ∈ @nil EndpointAddr) as Hx; [|by apply elem_of_nil in Hx].
    rewrite <- Hnil. apply Hspec. split; [done|]. intros e He. rewrite Hsm. by apply Hm, Hall.
  - destruct H1 as [?|[Hb0 (eb & Heb & Htb)]]; [lia|].
    assert (Hin : inTier cfg scores l best <> []).
    { intros Hn. by apply (inTier_empty cfg scores l best eb Hn Heb). }
    split_and!; [done| | |done].
    + split; [done|]. intros Hall. specialize (Hall eb Heb). unfold rejected in Hall. lia.
    + intros _. exists best. split; [|done]. split_and!; [done|lia|]. intros ep Hep Hn.
      specialize (H2 ep Hep Hn). lia.
Qed.
End TopTier.

(** ** Concrete instances *)
Definition demoScores (ep : EndpointAddr) : f64 * bool :=
  if bool_decide (ep = "a") then (of_int 90, true)
  else if bool_decide (ep = "b") then (of_int 90, true)
  else if bool_decide (ep = "c") then (of_int 5, true) else (f0, true).

Lemma select_always_serves_witness :
  served DefaultSelectorConfig demoScores ["d"; "c"]
    (Select DefaultSelectorConfig demoScores (λ _, 0) (λ _, f0) None None (λ e, e) ["d"; "c"] O).1 /\
  (Select DefaultSelectorConfig demoScores (λ _, 0) (λ _, f0) None None (λ e, e) ["d"; "c"] O).1 =
  (["c"], true).
Proof.
  split; [|vm_compute; reflexivity].
  apply (select_always_serves DefaultSelectorConfig demoScores (λ _, 0) (λ _, f0) None None (λ e, e)
    ["d"; "c"] O); [done|by apply (bool_decide_unpack _)].
Defined.

Lemma reservoir_is_uniform_witness :
  length (allDraws 2) = 2%nat /\
  length (filter (λ ds, pickOf (rfold (sampleStep DefaultSelectorConfig demoScores
    (λ k, default 0 (ds !! k))) accInit ["a"; "b"] O).1 tier1Idx = "b") (allDraws 2)) = 1%nat.
Proof.
  assert (Hall : forall e, e ∈ ["a"; "b"] -> tierOf DefaultSelectorConfig demoScores e = tier1Idx).
  { intros e He. repeat (apply elem_of_cons in He as [->|He]; [vm_compute; reflexivity|]).
    by apply elem_of_nil in He. }
  exact (reservoir_is_uniform DefaultSelectorConfig demoScores ["a"; "b"] tier1Idx 1 "b"
    ltac:(unfold tier1Idx; lia) ltac:(by apply (bool_decide_unpack _)) Hall eq_refl).
Defined.

Definition share (op : string) (e : Q) : opGroup Q := mkGroup op 1 e "" e e.
Definition demoGroups : list (opGroup Q) :=
  [share "big" (8 # 10); share "mid" (15 # 100); share "small" (5 # 100)].

Lemma demo_entitled : entitled (1 # 2) demoGroups.
Proof.
  split; intros g Hg; unfold demoGroups in Hg;
    repeat (apply elem_of_cons in Hg as [->|Hg]); try (by apply elem_of_nil in Hg); simpl.
  all: try reflexivity. all: try (vm_compute; discriminate).
  all: first [right; reflexivity | left; vm_compute; discriminate].
Qed.

Lemma water_fill_contract_witness :
  exists g', waterFill demoGroups (1 # 2) (3 # 1) !! 0%nat = Some g' /\
    ((1 # 2 <= weight g') /\ (weight g' <= 8 # 10))%Q.
Proof.
  destruct (water_fill_contract (1 # 2) (3 # 1) demoGroups demo_entitled) as (_ & _ & H);
    [vm_compute; discriminate|vm_compute; discriminate|].
  eexists. split; [reflexivity|].
  destruct (H 0%nat (share "big" (8 # 10)) _ eq_refl eq_refl) as [_ Hd].
  destruct (Hd eq_refl) as (H1 & H2 & _). by split.
Defined.

(** A configured cap below a half can have two operators over it, and then the
    excess nobody absorbs goes back in proportion to entitlement rather than to
    what was taken: the smaller of the two ends with more than its own
    entitlement. Binary64, cap 0.30 and the default ceiling. *)
Example small_donor_gains :
  let g op e := mkGroup (N := f64) op 1 e "" e e in
  let groups := [g "a" (lit 35 100); g "b" (lit 60 100); g "c" (lit 5 100)] in
  (λ g, fltb (lit 39 100) (weight g)) <$> waterFill groups (lit 30 100) (lit 3 1) !! 0%nat = Some true.
Proof. vm_compute. reflexivity. Qed.
End RepSelector.
