(* ===== verification/Drain.v ===== *)
(** * Drain: operator drains, in memory and through Redis

    Models [drain/store.go], [drain/memory.go], [drain/merge.go] and
    [drain/redis.go].

    [MemoryStore] is a map guarded by one mutex.  [RedisStore] adds a record
    per key of what this instance is trying to make Redis say, and every Redis
    command runs outside the mutex that guards those records: its protocol is
    modelled by the critical sections the source has ([beginSet],
    [beginRelease], [finishWrite], [takePending]) and by the commands on the
    wire, interleaved in any order.  A history is a list of labels, each one
    critical section or one command taking effect at Redis.

    JSON encoding is a parameter. *)

From Stdlib Require Import Ascii.
From stdpp Require Import sorting.
From S2P Require Import Prelude Domain Text.
Import GoStrings GoText.

Module Drain.

(** ** [drain/store.go] *)
Record Key := mkKey { ServiceID : string; Operator : string; RPCType : string }.
Record Entry := mkEntry { EKey : Key; Until : Z; Reason : string }.

#[export] Instance Key_eq_dec : EqDecision Key.
Proof. solve_decision. Defined.
#[export] Instance Key_countable : Countable Key :=
  inj_countable' (λ k, (ServiceID k, Operator k, RPCType k)) (λ p, mkKey p.1.1 p.1.2 p.2)
    (λ k, match k with mkKey _ _ _ => eq_refl end).
#[export] Instance Entry_eq_dec : EqDecision Entry.
Proof. solve_decision. Defined.

Definition lowerKey (k : Key) : Key := mkKey (ServiceID k) (ToLower (Operator k)) (RPCType k).
Definition lowerEntry (e : Entry) : Entry := mkEntry (lowerKey (EKey e)) (Until e) (Reason e).

(** ** [drain/memory.go] *)
Record MemoryStore := mkMem {
  entries : gmap Key Entry;
  setAt : gmap Key Z;
  releasedAt : gmap Key Z
}.
Definition NewMemoryStore : MemoryStore := mkMem ∅ ∅ ∅.

Definition MemSet (s : MemoryStore) (e : Entry) (now : Z) : MemoryStore :=
  let e := lowerEntry e in
  if negb (GoTime.After (Until e) now) then
    mkMem (delete (EKey e) (entries s)) (delete (EKey e) (setAt s)) (<[EKey e := now]> (releasedAt s))
  else
    mkMem (<[EKey e := e]> (entries s)) (<[EKey e := now]> (setAt s)) (delete (EKey e) (releasedAt s)).

Definition MemRelease (s : MemoryStore) (k : Key) (now : Z) : MemoryStore :=
  let k := lowerKey k in
  mkMem (delete k (entries s)) (delete k (setAt s)) (<[k := now]> (releasedAt s)).

Definition live (s : MemoryStore) (k : Key) (now : Z) : bool :=
  match entries s !! k with Some e => GoTime.After (Until e) now | None => false end.

Definition Drained (s : MemoryStore) (serviceID operator rpcType : string) (now : Z) : bool :=
  if live s (mkKey serviceID operator rpcType) now then true
  else live s (mkKey serviceID operator "") now.

(** The order of [cmpEntry]. *)
Definition cmpEntry (a b : Entry) : Prop :=
  (Operator (EKey a) <> Operator (EKey b) /\ String.le (Operator (EKey a)) (Operator (EKey b))) \/
  (Operator (EKey a) = Operator (EKey b) /\ String.le (RPCType (EKey a)) (RPCType (EKey b))).
#[export] Instance cmpEntry_dec : RelDecision cmpEntry.
Proof. intros a b. unfold cmpEntry. apply _. Defined.

Definition Active (s : MemoryStore) (serviceID : string) (now : Z) : list Entry :=
  merge_sort cmpEntry (filter (λ e, ServiceID (EKey e) = serviceID /\ GoTime.After (Until e) now = true)
                         ((map_to_list (entries s)).*2)).

Definition replaceAll (s : MemoryStore) (next : gmap Key Entry) (since now : Z) : MemoryStore :=
  let next := filter (λ p, default since (releasedAt s !! p.1) <= since) next in
  let carried := filter (λ p : Key * Entry,
    since < default since (setAt s !! p.1) /\ now < Until p.2) (entries s) in
  let next := next ∪ carried in
  mkMem next (filter (λ p : Key * Z, is_Some (next !! p.1)) (setAt s)) ∅.

(** ** [drain/merge.go] *)
Definition mergedDrained (local peer : MemoryStore) (serviceID operator rpcType : string) (now : Z)
    : bool :=
  Drained local serviceID operator rpcType now || Drained peer serviceID operator rpcType now.
Definition mergedActive (local peer : MemoryStore) (serviceID : string) (now : Z) : list Entry :=
  merge_sort cmpEntry (Active local serviceID now ++ Active peer serviceID now).

(** ** Fields of the drain hash *)
Definition allRPCTypes : string := "all".

Definition redisField (k : Key) : string :=
  let rpc := if bool_decide (RPCType k = "") then allRPCTypes else RPCType k in
  ServiceID k +:+ (":" +:+ (ToLower (Operator k) +:+ (":" +:+ rpc))).

Definition parseRedisField (field : string) : option Key :=
  match Split ":"%char field with
  | [a; b; c] =>
      if bool_decide (a = "") || bool_decide (b = "") || bool_decide (c = "") then None
      else Some (mkKey a b (if bool_decide (c = allRPCTypes) then "" else c))
  | _ => None
  end.

(** ** [drain/redis.go]: what this instance is trying to make Redis say *)
Record keyState := mkState {
  entry : option Entry; pending : bool; inflight : Z; gen : Z; released : bool
}.
Definition zeroState : keyState := mkState None false 0 0 false.
Definition state (keys : gmap Key keyState) (k : Key) : keyState := default zeroState (keys !! k).
Definition forget (keys : gmap Key keyState) (k : Key) (st : keyState) : gmap Key keyState :=
  if negb (pending st) && bool_decide (inflight st = 0) then delete k keys else <[k := st]> keys.

Definition beginSet (keys : gmap Key keyState) (e : Entry) : gmap Key keyState * Z :=
  let st := state keys (EKey e) in
  let g := u64 (gen st + 1) in
  (<[EKey e := mkState (Some e) (pending st) (inflight st + 1) g false]> keys, g).

Definition beginRelease (keys : gmap Key keyState) (k : Key) : gmap Key keyState :=
  let st := state keys k in
  forget keys k (mkState None false (inflight st) (u64 (gen st + 1)) true).

(** The result of a write: nil, an error wrapping [ErrPropagation], or an
    encoding error. *)
Inductive writeResult := Written | PropagationError | EncodingError.

(** [finishWrite]: the records after, whether to compensate, and the entry the
    local map should hold. *)
Definition finishWrite (keys : gmap Key keyState) (e : Entry) (g : Z) (r : writeResult)
    : gmap Key keyState * bool * option Entry :=
  let st := state keys (EKey e) in
  let n := inflight st - 1 in
  if negb (bool_decide (gen st = g)) && released st then
    (forget keys (EKey e) (mkState (entry st) (pending st) n (gen st) (released st)), true, None)
  else if negb (bool_decide (gen st = g)) then
    (forget keys (EKey e) (mkState (entry st) true n (gen st) (released st)), false, entry st)
  else
    let '(p, en) := match r with
      | Written => (false, entry st)
      | PropagationError => (true, Some e)
      | EncodingError => (false, entry st)
      end in
    (forget keys (EKey e) (mkState en p n (gen st) (released st)), false, Some e).

(** [takePending], for one record. *)
Definition takeOne (now : Z) (st : keyState) : option keyState * option (Entry * Z) :=
  if negb (pending st) then (Some st, None)
  else match entry st with
       | Some e =>
           if negb (GoTime.After (Until e) now) then
             (if bool_decide (inflight st = 0) then None
              else Some (mkState None false (inflight st) (gen st) (released st)), None)
           else (Some (mkState (entry st) true (inflight st + 1) (gen st) (released st)),
                 Some (e, gen st))
       | None =>
           (if bool_decide (inflight st = 0) then None
            else Some (mkState None false (inflight st) (gen st) (released st)), None)
       end.
Definition takePending (keys : gmap Key keyState) (now : Z)
    : gmap Key keyState * list (Entry * Z) :=
  (omap (λ st, (takeOne now st).1) keys,
   omap (λ p, (takeOne now p.2).2) (map_to_list keys)).

(** ** The protocol *)

(** Commands on the wire: a write before and after it took effect at Redis,
    and a delete. *)
Inductive command :=
  | Writing (e : Entry) (g : Z)
  | Landed (e : Entry) (g : Z) (r : writeResult)
  | Deleting (k : Key).

Record system := mkSys {
  keys : gmap Key keyState;
  redis : gmap Key Entry;
  wire : list command
}.

(** One critical section, or one command taking effect.  [LandWrite i applied r]
    is the i-th command reaching Redis, applied or not, and its result; a write
    that times out may have been applied.  [LandDelete] is the same for a
    delete.  [Sweep] is the part of [refresh] that reads the expired fields and
    then deletes them. *)
Inductive label :=
  | DoSet (e : Entry)
  | DoRelease (k : Key)
  | LandWrite (i : nat) (applied : bool) (r : writeResult)
  | LandDelete (i : nat) (applied : bool)
  | Finish (i : nat)
  | Retry (now : Z)
  | Sweep (now : Z).

Definition step (s : system) (l : label) : system :=
  match l with
  | DoSet e =>
      let '(ks, g) := beginSet (keys s) e in
      mkSys ks (redis s) (wire s ++ [Writing e g])
  | DoRelease k => mkSys (beginRelease (keys s) k) (redis s) (wire s ++ [Deleting k])
  | LandWrite i applied r =>
      match wire s !! i with
      | Some (Writing e g) =>
          mkSys (keys s) (if applied then <[EKey e := e]> (redis s) else redis s)
            (<[i := Landed e g r]> (wire s))
      | _ => s
      end
  | LandDelete i applied =>
      match wire s !! i with
      | Some (Deleting k) =>
          mkSys (keys s) (if applied then delete k (redis s) else redis s) (delete i (wire s))
      | _ => s
      end
  | Finish i =>
      match wire s !! i with
      | Some (Landed e g r) =>
          let '(ks, compensate, _) := finishWrite (keys s) e g r in
          mkSys ks (redis s) (delete i (wire s) ++ (if compensate then [Deleting (EKey e)] else []))
      | _ => s
      end
  | Retry now =>
      let '(ks, rs) := takePending (keys s) now in
      mkSys ks (redis s) (wire s ++ ((λ p, Writing p.1 p.2) <$> rs))
  | Sweep now =>
      mkSys (keys s) (redis s)
        (wire s ++ (Deleting <$> (filter (λ p, negb (GoTime.After (Until p.2) now) = true)
                                    (map_to_list (redis s))).*1))
  end.
Definition run (s : system) (ls : list label) : system := foldl step s ls.
Definition idle (r : gmap Key Entry) : system := mkSys ∅ r [].

(** ** The whole store, one call at a time

    The store of one instance with nothing else running: [RSet], [RRelease] and
    [refresh] with every Redis command answered before the call goes on.
    [unmarshal] is [json.Unmarshal] on a field's payload. *)
Section Store.
Context (unmarshal : string -> option (Z * string)).

Record RedisStore := mkStore { mem : MemoryStore; rkeys : gmap Key keyState; follow : string }.

Definition RRelease (s : RedisStore) (k : Key) (now : Z) : RedisStore :=
  let k := lowerKey k in
  mkStore (MemRelease (mem s) k now) (beginRelease (rkeys s) k) (follow s).

(** [propagate]: [r] is what encoding and [HSet] would give. *)
Definition propagate (e : Entry) (now : Z) (r : writeResult) : writeResult :=
  if negb (GoTime.After (Until e) now) then Written else r.

(** [Set], with the result the write would have. *)
Definition RSet (s : RedisStore) (e : Entry) (now : Z) (r : writeResult) : RedisStore :=
  let e := lowerEntry e in
  let m := MemSet (mem s) e now in
  if negb (GoTime.After (Until e) now) then mkStore m (beginRelease (rkeys s) (EKey e)) (follow s)
  else
    let '(ks, g) := beginSet (rkeys s) e in
    let '(ks, _, _) := finishWrite ks e g (propagate e now r) in
    mkStore m ks (follow s).

(** One field of the hash: the entry it holds, or that it has expired. *)
Inductive fieldRead := Skip | Expired | Live (k : Key) (e : Entry).
Definition readField (fol : string) (now : Z) (field raw : string) : fieldRead :=
  match parseRedisField field with
  | None => Skip
  | Some k =>
      match unmarshal raw with
      | None => Skip
      | Some (until, reason) =>
          if negb (GoTime.After until now) then Expired
          else if negb (bool_decide (fol = "")) && negb (String.prefix fol reason) then Skip
          else Live k (mkEntry k until reason)
      end
  end.

Definition snapshot (fol : string) (now : Z) (all : gmap string string) : gmap Key Entry :=
  foldr (λ p next, match readField fol now p.1 p.2 with
                   | Live k e => <[k := e]> next
                   | _ => next
                   end) ∅ (map_to_list all).
Definition expiredFields (fol : string) (now : Z) (all : gmap string string) : list string :=
  (filter (λ p, match readField fol now p.1 p.2 with Expired => true | _ => false end = true)
     (map_to_list all)).*1.

(** One retry of [reconcilePending]; [res] is what Redis answers for a key. *)
Definition reconcileOne (res : Key -> writeResult) (now : Z)
    (acc : gmap Key keyState * gmap Key Entry) (p : Entry * Z) : gmap Key keyState * gmap Key Entry :=
  let '(ks, next) := acc in
  let '(ks, _, keep) := finishWrite ks p.1 p.2 (propagate p.1 now (res (EKey p.1))) in
  (ks, match keep with
       | Some e => if GoTime.After (Until e) now then <[EKey e := e]> next else next
       | None => next
       end).
Definition reconcilePending (res : Key -> writeResult) (ks : gmap Key keyState)
    (next : gmap Key Entry) (now : Z) : gmap Key keyState * gmap Key Entry :=
  let '(ks, rs) := takePending ks now in
  foldl (reconcileOne res now) (ks, next) rs.

(** [refresh]: the store after it, and the fields it deletes.  [None] is the
    failing [HGetAll]. *)
Definition refresh (s : RedisStore) (all : option (gmap string string))
    (res : Key -> writeResult) (began now : Z) : RedisStore * list string :=
  match all with
  | None => (s, [])
  | Some all =>
      let '(ks, next) := reconcilePending res (rkeys s) (snapshot (follow s) now all) now in
      (mkStore (replaceAll (mem s) next began now) ks (follow s),
       if bool_decide (follow s = "") then expiredFields (follow s) now all else [])
  end.
End Store.

(** ** Shared facts *)
Lemma negb_After t u : negb (GoTime.After t u) = true <-> t <= u.
Proof. rewrite negb_true_iff. apply GoTime.After_false. Qed.

Lemma insert_perm {A} (l : list A) i x y :
  l !! i = Some x -> <[i := y]> l ≡ₚ y :: delete i l.
Proof.
  intros H. rewrite insert_take_drop by (by eapply lookup_lt_Some).
  rewrite delete_take_drop. symmetry. apply Permutation_middle.
Qed.

(** *** Fields *)
Fixpoint noColon (s : string) : bool :=
  match s with EmptyString => true | String x s => negb (bool_decide (x = ":"%char)) && noColon s end.

Lemma Split_plain s : noColon s = true -> Split ":"%char s = [s].
Proof.
  induction s as [|x s IH]; [done|]. cbn [Split noColon]. rewrite andb_true_iff, negb_true_iff.
  intros [Hx Hs]. rewrite Hx, (IH Hs). done.
Qed.
Lemma Split_cons a b : noColon a = true ->
  Split ":"%char (a +:+ (":" +:+ b)) = a :: Split ":"%char b.
Proof.
  induction a as [|x a IH]; [done|]. change (String x a +:+ ?z) with (String x (a +:+ z)).
  cbn [Split noColon]. rewrite andb_true_iff, negb_true_iff.
  intros [Hx Hs]. rewrite Hx, (IH Hs). done.
Qed.

(** [parseRedisField] reads back what [redisField] writes. *)
Lemma parse_redisField k :
  noColon (ServiceID k) = true -> noColon (ToLower (Operator k)) = true ->
  noColon (RPCType k) = true -> ServiceID k <> "" -> Operator k <> "" ->
  RPCType k <> allRPCTypes ->
  parseRedisField (redisField k) = Some (lowerKey k).
Proof.
  intros H1 H2 H3 Hs Ho Ha. unfold parseRedisField, redisField.
  set (rpc := if bool_decide (RPCType k = "") then _ else _).
  assert (noColon rpc = true) as Hr by (unfold rpc; by destruct (bool_decide (RPCType k = ""))).
  rewrite (Split_cons _ _ H1), (Split_cons _ _ H2), (Split_plain _ Hr).
  assert (ToLower (Operator k) <> "") as Ho' by (by destruct (Operator k)).
  assert (rpc <> "") as Hn by (unfold rpc; by destruct (decide (RPCType k = "")) as [E|E];
    [rewrite bool_decide_true by done | rewrite bool_decide_false by done]).
  rewrite !bool_decide_false by done.
  cbn [orb]. unfold lowerKey, rpc. do 2 f_equal. destruct (decide (RPCType k = "")) as [E|E].
  - rewrite (bool_decide_true (RPCType k = "")) by done. by rewrite E.
  - rewrite (bool_decide_false (RPCType k = "")) by done. by rewrite bool_decide_false.
Qed.

(** *** [replaceAll]

    A key the snapshot holds keeps the snapshot's entry, unless it was released
    since; a key it does not hold keeps a live local entry installed since. *)
Lemma replaceAll_snapshot s next since now k e :
  next !! k = Some e -> default since (releasedAt s !! k) <= since ->
  entries (replaceAll s next since now) !! k = Some e.
Proof.
  intros Hk Hr. cbn. apply lookup_union_Some_l. by apply map_lookup_filter_Some.
Qed.
Lemma replaceAll_carried s next since now k e t :
  next !! k = None -> entries s !! k = Some e -> setAt s !! k = Some t -> since < t ->
  now < Until e -> entries (replaceAll s next since now) !! k = Some e.
Proof.
  intros Hk He Ht ? ?. cbn. rewrite lookup_union_r.
  - apply map_lookup_filter_Some. cbn. by rewrite Ht.
  - apply map_lookup_filter_None. by left.
Qed.

(** *** Writes on the wire *)
Definition writeOf (k : Key) (c : command) : option Z :=
  match c with
  | Writing e g | Landed e g _ => if bool_decide (EKey e = k) then Some g else None
  | Deleting _ => None
  end.
(** The generations of the writes for [k] on the wire. *)
Definition gens (k : Key) (w : list command) : list Z := omap (writeOf k) w.

#[export] Instance gens_perm k : Proper (Permutation ==> Permutation) (gens k).
Proof. unfold gens. intros w w' H. by rewrite H. Qed.

Lemma gens_app k w w' : gens k (w ++ w') = gens k w ++ gens k w'.
Proof. apply omap_app. Qed.
Lemma gens_cons k c w : gens k (c :: w) = option_list (writeOf k c) ++ gens k w.
Proof. unfold gens. cbn. by destruct (writeOf k c). Qed.
Lemma gens_deleting k ks : gens k (Deleting <$> ks) = [].
Proof. by induction ks. Qed.

(** What a command owes Redis: something on the wire that will end in a delete
    of [k], once [k] is released. *)
Definition owes (k : Key) (c : command) : bool :=
  match c with
  | Deleting k' => bool_decide (k' = k)
  | Landed e _ _ => bool_decide (EKey e = k)
  | Writing _ _ => false
  end.

(** The records name their own keys. *)
Definition entries_ok (ks : gmap Key keyState) : Prop :=
  forall k st e, ks !! k = Some st -> entry st = Some e -> EKey e = k.

(** The invariant, for one key and its record: [rel] is whether the last
    decision on it was a release, [n] a bound on the decisions made. *)
Record Inv (k : Key) (rel : bool) (n : Z) (st : keyState) (red : gmap Key Entry)
    (w : list command) : Prop := {
  inv_count : inflight st = Z.of_nat (length (gens k w));
  inv_gen : 0 <= gen st <= n;
  inv_gens : Forall (λ g, g <= gen st) (gens k w);
  inv_rel : rel = true -> pending st = false /\ (gens k w <> [] -> released st = true) /\
              Forall (λ g, g < gen st) (gens k w);
  inv_owed : rel = true -> is_Some (red !! k) -> Exists (λ c, owes k c = true) w
}.

#[export] Instance Inv_perm k rel n st red : Proper (Permutation ==> iff) (Inv k rel n st red).
Proof.
  assert (forall w w', w ≡ₚ w' -> Inv k rel n st red w -> Inv k rel n st red w') as H.
  { intros w w' Hp [H2 H3 H4 H5 H6]. pose proof (gens_perm k _ _ Hp) as Hg. split; auto.
    - by rewrite <- Hg.
    - by rewrite <- Hg.
    - intros Hr. destruct (H5 Hr) as (?&Hn&?). split_and!; auto.
      + intros Hw. apply Hn. intros E. rewrite E in Hg. by apply Permutation_nil in Hg.
      + by rewrite <- Hg.
    - intros Hr Hs. rewrite <- Hp. auto. }
  intros w w' Hp. split; apply H; auto. by symmetry.
Qed.

Lemma Inv_later k rel n n' st red w : Inv k rel n st red w -> n <= n' -> Inv k rel n' st red w.
Proof. intros [] ?. split; auto. lia. Qed.

(** Commands that say nothing of [k] change nothing. *)
Lemma Inv_app k rel n st red w w' :
  Inv k rel n st red w -> gens k w' = [] -> Inv k rel n st red (w ++ w').
Proof.
  intros [H1 H2 H3 H4 H5] E. split; rewrite ?gens_app, ?E, ?app_nil_r; auto.
  intros Hr Hs. apply Exists_app. auto.
Qed.
Lemma Inv_swap k rel n st red red' c c' w :
  Inv k rel n st red (c :: w) -> writeOf k c' = writeOf k c -> red' !! k = red !! k ->
  owes k c = false -> Inv k rel n st red' (c' :: w).
Proof.
  intros [H1 H2 H3 H4 H5] E Er Eo. rewrite gens_cons in *.
  split; rewrite ?gens_cons, ?E, ?Er; auto.
  intros Hr Hs. apply Exists_cons. right. specialize (H5 Hr Hs).
  apply Exists_cons in H5 as [H5|H5]; [congruence|done].
Qed.
Lemma Inv_drop k rel n st red red' c w :
  Inv k rel n st red (c :: w) -> writeOf k c = None ->
  (is_Some (red' !! k) -> red' !! k = red !! k /\ owes k c = false) ->
  Inv k rel n st red' w.
Proof.
  intros [H1 H2 H3 H4 H5] E Er. rewrite gens_cons, E in *. cbn [option_list app] in *. split; auto.
  intros Hr Hs. destruct (Er Hs) as [E1 E2]. rewrite E1 in Hs. specialize (H5 Hr Hs).
  apply Exists_cons in H5 as [H5|H5]; [congruence|done].
Qed.

(** A record with nothing left to remember is as good as none. *)
Lemma Inv_zero k rel n st red w :
  Inv k rel n st red w -> inflight st = 0 -> Inv k rel n zeroState red w.
Proof.
  intros [H1 H2 H3 H4 H5] Hi. assert (gens k w = []) as E.
  { apply nil_length_inv. lia. }
  split; cbn; rewrite ?E; auto; try lia; by apply Forall_nil_2.
Qed.

Lemma state_insert ks k st : state (<[k := st]> ks) k = st.
Proof. unfold state. by rewrite lookup_insert_eq. Qed.
Lemma state_insert_ne ks k k' st : k' <> k -> state (<[k' := st]> ks) k = state ks k.
Proof. intros. unfold state. by rewrite lookup_insert_ne. Qed.
Lemma state_forget_ne ks k k' st : k' <> k -> state (forget ks k' st) k = state ks k.
Proof.
  intros. unfold forget. destruct (_ && _); [|by apply state_insert_ne].
  unfold state. by rewrite lookup_delete_ne.
Qed.
Lemma Inv_forget k rel n ks st red w :
  Inv k rel n st red w -> Inv k rel n (state (forget ks k st) k) red w.
Proof.
  intros H. unfold forget. destruct (pending st) eqn:E; cbn [negb andb].
  - by rewrite state_insert.
  - case_bool_decide; [|by rewrite state_insert].
    unfold state. rewrite lookup_delete_eq. by eapply Inv_zero.
Qed.
Lemma entries_ok_insert ks k st :
  entries_ok ks -> (forall e, entry st = Some e -> EKey e = k) -> entries_ok (<[k := st]> ks).
Proof. intros H He k' st' e [[<- <-]|[_ ?]]%lookup_insert_Some; eauto. Qed.
Lemma entries_ok_forget ks k st :
  entries_ok ks -> (forall e, entry st = Some e -> EKey e = k) -> entries_ok (forget ks k st).
Proof.
  intros H He. unfold forget. destruct (_ && _); [|by apply entries_ok_insert].
  intros k' st' e [_ ?]%lookup_delete_Some. eauto.
Qed.
Lemma entries_ok_state ks k e : entries_ok ks -> entry (state ks k) = Some e -> EKey e = k.
Proof. intros H. unfold state. destruct (ks !! k) eqn:E; cbn; [eauto|done]. Qed.

(** *** Each step keeps it *)
Section Steps.
Context (k : Key) (n : Z) (Hn : n < max_u64).

Lemma next_gen rel st red w : Inv k rel n st red w -> u64 (gen st + 1) = gen st + 1.
Proof. intros H. apply u64_small. destruct (inv_gen _ _ _ _ _ _ H). unfold is_u64. lia. Qed.

Lemma Inv_beginSet rel ks red w e :
  Inv k rel n (state ks k) red w ->
  Inv k (if bool_decide (EKey e = k) then false else rel) (n + 1)
    (state (beginSet ks e).1 k) red (w ++ [Writing e (beginSet ks e).2]).
Proof.
  intros H. unfold beginSet. cbn [fst snd]. case_bool_decide as E.
  - rewrite E, state_insert, (next_gen _ _ _ _ H).
    destruct H as [H1 H2 H3 H4 H5].
    split; cbn; rewrite ?gens_app, ?gens_cons; cbn; rewrite ?E, ?bool_decide_true by done; cbn;
      rewrite ?length_app; cbn; try done; try lia.
    apply Forall_app. split; [eapply Forall_impl; [apply H3|]; cbn; intros; lia | apply Forall_singleton; lia].
  - rewrite state_insert_ne by done. apply (Inv_later _ _ n); [|lia]. apply Inv_app; [done|].
    rewrite gens_cons. cbn. by rewrite bool_decide_false.
Qed.

Lemma Inv_beginRelease rel ks red w k' :
  Inv k rel n (state ks k) red w ->
  Inv k (if bool_decide (k' = k) then true else rel) (n + 1)
    (state (beginRelease ks k') k) red (w ++ [Deleting k']).
Proof.
  intros H. unfold beginRelease. case_bool_decide as E.
  - subst k'. apply Inv_forget. rewrite (next_gen _ _ _ _ H). destruct H as [H1 H2 H3 H4 H5].
    split; cbn; rewrite ?gens_app, ?gens_cons; cbn; rewrite ?app_nil_r; auto; try lia.
    + eapply Forall_impl; [apply H3|]. cbn. intros. lia.
    + intros _. split_and!; auto. eapply Forall_impl; [apply H3|]. cbn. intros. lia.
    + intros _ _. apply Exists_app. right. apply Exists_cons. left. cbn. by apply bool_decide_eq_true.
  - rewrite state_forget_ne by done. apply (Inv_later _ _ n); [|lia]. by apply Inv_app.
Qed.

Lemma Inv_landWrite rel st red w i e g (applied : bool) r :
  Inv k rel n st red w -> w !! i = Some (Writing e g) ->
  Inv k rel n st (if applied then <[EKey e := e]> red else red) (<[i := Landed e g r]> w).
Proof.
  intros H Hi. rewrite (insert_perm _ _ _ _ Hi). rewrite (delete_Permutation _ _ _ Hi) in H.
  destruct (decide (EKey e = k)) as [E|E].
  - destruct H as [H1 H2 H3 H4 H5]. split; auto.
    intros _ _. apply Exists_cons. left. cbn. by apply bool_decide_eq_true.
  - eapply Inv_swap; [done|done| |done]. destruct applied; [|done]. by rewrite lookup_insert_ne.
Qed.

Lemma Inv_landDelete rel st red w i k' :
  Inv k rel n st red w -> w !! i = Some (Deleting k') ->
  Inv k rel n st (delete k' red) (delete i w).
Proof.
  intros H Hi. rewrite (delete_Permutation _ _ _ Hi) in H.
  eapply Inv_drop; [done|done|]. destruct (decide (k' = k)) as [->|E].
  - rewrite lookup_delete_eq. by intros [? ?].
  - intros _. rewrite lookup_delete_ne by done. cbn. by rewrite bool_decide_false.
Qed.

Lemma finishWrite_other ks e g r :
  EKey e <> k -> state (finishWrite ks e g r).1.1 k = state ks k.
Proof.
  intros E. unfold finishWrite.
  destruct (negb _ && _); [|destruct (negb _); [|destruct r]]; cbn [fst]; by rewrite state_forget_ne.
Qed.

Lemma Inv_finish rel ks red w i e g r :
  Inv k rel n (state ks k) red w -> w !! i = Some (Landed e g r) ->
  Inv k rel n (state (finishWrite ks e g r).1.1 k) red
    (delete i w ++ (if (finishWrite ks e g r).1.2 then [Deleting (EKey e)] else [])).
Proof.
  intros H Hi. rewrite (delete_Permutation _ _ _ Hi) in H. destruct (decide (EKey e = k)) as [E|E].
  - assert (gens k (Landed e g r :: delete i w) = g :: gens k (delete i w)) as Eg.
    { rewrite gens_cons. cbn. by rewrite bool_decide_true. }
    destruct H as [H1 H2 H3 H4 H5]. rewrite Eg in *. cbn [length] in H1.
    apply Forall_cons in H3 as [Hg H3]. unfold finishWrite. rewrite E.
    assert (rel = true -> gen (state ks k) <> g /\ released (state ks k) = true) as Hrel.
    { intros Hr. destruct (H4 Hr) as (_&Hx&Hy). apply Forall_cons in Hy as [? _].
      split; [lia|]. by apply Hx. }
    destruct (negb _ && _) eqn:Ec; cbn [fst snd].
    + apply andb_true_iff in Ec as [_ Ec].
      apply Inv_forget. split; cbn; rewrite ?gens_app; cbn; rewrite ?app_nil_r; auto; try lia.
      * intros Hr. destruct (H4 Hr) as (?&?&Hy). apply Forall_cons in Hy as [_ Hy]. auto.
      * intros _ _. apply Exists_app. right. apply Exists_cons. left. cbn.
        by apply bool_decide_eq_true.
    + assert (rel = false) as ->.
      { destruct rel; [|done]. destruct (Hrel eq_refl) as [Hx Hy].
        rewrite Hy, bool_decide_false in Ec by done. done. }
      destruct (negb _); [|destruct r]; cbn [fst snd]; rewrite app_nil_r; apply Inv_forget;
        split; cbn; auto; try done; lia.
  - rewrite finishWrite_other by done.
    assert (Inv k rel n (state ks k) red (delete i w)) as H'.
    { eapply Inv_drop; [done| |].
      - cbn. by rewrite bool_decide_false.
      - intros _. cbn. by rewrite bool_decide_false. }
    apply Inv_app; [done|]. by destruct (finishWrite ks e g r).1.2.
Qed.

Lemma takeOne_entry now st e g : (takeOne now st).2 = Some (e, g) -> entry st = Some e /\ g = gen st.
Proof.
  unfold takeOne. destruct (pending st); [|done]. cbn. destruct (entry st); [|done].
  destruct (negb _); cbn; [done|]. by intros [= -> ->].
Qed.

Definition retries (now : Z) (l : list (Key * keyState)) : list command :=
  (λ p, Writing p.1 p.2) <$> omap (λ p, (takeOne now p.2).2) l.

Lemma retries_cons now p l :
  retries now (p :: l) =
  match (takeOne now p.2).2 with Some q => [Writing q.1 q.2] | None => [] end ++ retries now l.
Proof. unfold retries. cbn. by destruct (takeOne now p.2).2. Qed.

Lemma gens_retries_other now l :
  Forall (λ p, p.1 <> k /\ forall e, entry p.2 = Some e -> EKey e = p.1) l ->
  gens k (retries now l) = [].
Proof.
  induction 1 as [|[k' st] l [Hk He] _ IH]; [done|].
  rewrite retries_cons, gens_app, IH, app_nil_r. cbn [snd fst] in *.
  destruct (takeOne now st).2 as [[e g]|] eqn:E; [|done].
  rewrite gens_cons. cbn. rewrite bool_decide_false; [done|].
  apply takeOne_entry in E as [E _]. by rewrite (He _ E).
Qed.

Lemma entries_ok_list ks :
  entries_ok ks -> ks !! k = None ->
  Forall (λ p, p.1 <> k /\ forall e, entry p.2 = Some e -> EKey e = p.1) (map_to_list ks).
Proof.
  intros He Hk. apply Forall_forall. intros [k' st] Hp%elem_of_map_to_list. cbn. split.
  - intros ->. congruence.
  - intros e. by apply He.
Qed.

Lemma gens_retries now ks :
  entries_ok ks ->
  gens k (retries now (map_to_list ks)) ≡ₚ
  option_list (ks !! k ≫= λ st, snd <$> (takeOne now st).2).
Proof.
  intros He. destruct (ks !! k) as [st|] eqn:E; cbn.
  - assert (map_to_list ks ≡ₚ (k, st) :: map_to_list (delete k ks)) as Hp by
      by rewrite map_to_list_delete.
    unfold retries. rewrite Hp. fold (retries now ((k, st) :: map_to_list (delete k ks))).
    rewrite retries_cons, gens_app. cbn [snd].
    rewrite gens_retries_other, app_nil_r.
    + destruct (takeOne now st).2 as [[e g]|] eqn:Et; [|done].
      apply takeOne_entry in Et as [Et _]. rewrite gens_cons. cbn.
      by rewrite bool_decide_true by eauto.
    + apply entries_ok_list; [|apply lookup_delete_eq].
      intros k' st' e [_ ?]%lookup_delete_Some. eauto.
  - by rewrite gens_retries_other by by apply entries_ok_list.
Qed.

Lemma state_takePending now ks :
  state (takePending ks now).1 k = default zeroState (ks !! k ≫= λ st, (takeOne now st).1).
Proof. unfold state, takePending. cbn [fst]. by rewrite lookup_omap. Qed.

Lemma Inv_retry rel ks red w now :
  entries_ok ks -> Inv k rel n (state ks k) red w ->
  Inv k rel n (state (takePending ks now).1 k) red (w ++ retries now (map_to_list ks)).
Proof.
  intros He H. pose proof (gens_retries now ks He) as Hg.
  rewrite state_takePending. unfold state in H.
  destruct (ks !! k) as [st|] eqn:E; cbn [mbind option_bind default from_option id] in *; cycle 1.
  { apply Inv_app; [done|]. by apply Permutation_nil_r in Hg. }
  unfold takeOne in *. destruct (pending st) eqn:Ep; cbn [negb fst snd option_list] in *; cycle 1.
  { apply Inv_app; [done|]. by apply Permutation_nil_r in Hg. }
  assert (rel = false) as ->.
  { destruct rel; [|done]. destruct (inv_rel _ _ _ _ _ _ H eq_refl). congruence. }
  assert (forall st' w', inflight st' = Z.of_nat (length (gens k w')) -> gen st' = gen st ->
            Forall (λ g, g <= gen st) (gens k w') -> Inv k false n st' red w') as Hstep.
  { intros st' w' ? Eg ?. split; rewrite ?Eg; try done. apply H. }
  assert (gens k (retries now (map_to_list ks)) = [] ->
    Inv k false n (default zeroState
      (if bool_decide (inflight st = 0) then None
       else Some (mkState None false (inflight st) (gen st) (released st)))) red
      (w ++ retries now (map_to_list ks))) as Hdrop.
  { intros Hg'. case_bool_decide as Hi; apply Inv_app; auto.
    - by eapply Inv_zero.
    - destruct H as [H1 H2 H3 H4 H5]. by apply Hstep. }
  destruct H as [H1 H2 H3 H4 H5].
  destruct (entry st) as [e|]; [destruct (negb _)|]; cbn [fst snd fmap option_fmap option_map option_list] in *.
  - apply Hdrop. by apply Permutation_nil_r in Hg.
  - apply Hstep; cbn; auto.
    + rewrite gens_app, length_app, Hg. cbn. lia.
    + rewrite gens_app, Hg. apply Forall_app. split; [done|]. apply Forall_singleton. cbn. lia.
  - apply Hdrop. by apply Permutation_nil_r in Hg.
Qed.
End Steps.

Lemma entries_ok_finishWrite ks e g r : entries_ok ks -> entries_ok (finishWrite ks e g r).1.1.
Proof.
  intros H. pose proof (λ x, entries_ok_state ks (EKey e) x H) as Hs.
  unfold finishWrite.
  destruct (negb _ && _); [|destruct (negb _); [|destruct r]]; cbn [fst];
    apply entries_ok_forget; cbn; auto. by intros x [= ->].
Qed.
Lemma entries_ok_takePending ks now : entries_ok ks -> entries_ok (takePending ks now).1.
Proof.
  intros H k st e. unfold takePending. cbn [fst]. rewrite lookup_omap. intros Hb He.
  apply bind_Some in Hb as (st0&H0&Ht). apply (H k st0); [done|]. revert Ht. unfold takeOne.
  destruct (pending st0); cbn; [|by intros [= ->]].
  destruct (entry st0); [destruct (negb _)|]; cbn; try case_bool_decide; intros [= <-]; done.
Qed.
Lemma entries_ok_step s l : entries_ok (keys s) -> entries_ok (keys (step s l)).
Proof.
  intros H. destruct l; cbn -[finishWrite takePending beginSet]; try done.
  - apply entries_ok_insert; [done|]. cbn. by intros ? [= ->].
  - by apply entries_ok_forget.
  - by destruct (wire s !! i) as [[]|].
  - by destruct (wire s !! i) as [[]|].
  - destruct (wire s !! i) as [[| |]|]; try done.
    pose proof (entries_ok_finishWrite (keys s) e g r H).
    by destruct (finishWrite (keys s) e g r) as [[? ?] ?].
  - by apply entries_ok_takePending.
Qed.

(** The last decision a history makes on a key: [Some true] a release. *)
Definition lastRelease (k : Key) (rel : bool) (l : label) : bool :=
  match l with
  | DoSet e => if bool_decide (EKey e = k) then false else rel
  | DoRelease k' => if bool_decide (k' = k) then true else rel
  | _ => rel
  end.
Definition releasedLast (k : Key) (ls : list label) : bool := foldl (lastRelease k) false ls.

(** Every delete that reaches Redis is applied there. *)
Definition deleteApplied (l : label) : bool :=
  match l with LandDelete _ applied => applied | _ => true end.

Lemma step_Inv k rel n s l :
  n < max_u64 -> deleteApplied l = true -> entries_ok (keys s) ->
  Inv k rel n (state (keys s) k) (redis s) (wire s) ->
  Inv k (lastRelease k rel l) (n + 1) (state (keys (step s l)) k) (redis (step s l)) (wire (step s l)).
Proof.
  intros Hn Hd He H. assert (Inv k rel (n + 1) (state (keys s) k) (redis s) (wire s)) as H'.
  { eapply Inv_later; [done|]. lia. }
  destruct l; cbn -[finishWrite takePending beginSet beginRelease] in *.
  - pose proof (Inv_beginSet k n Hn _ _ _ _ e H). by destruct (beginSet (keys s) e).
  - by apply Inv_beginRelease.
  - destruct (wire s !! i) as [[]|] eqn:E; try done. cbn. by apply Inv_landWrite.
  - destruct (wire s !! i) as [[]|] eqn:E; try done. subst applied. cbn. by apply Inv_landDelete.
  - destruct (wire s !! i) as [[]|] eqn:E; try done.
    pose proof (Inv_finish k (n + 1) _ _ _ _ _ _ _ _ H' E) as Hf.
    by destruct (finishWrite (keys s) e g r) as [[? ?] ?].
  - by apply Inv_retry.
  - apply Inv_app; [done|]. apply gens_deleting.
Qed.

Lemma run_Inv k r ls :
  Z.of_nat (length ls) <= max_u64 -> Forall (λ l, deleteApplied l = true) ls ->
  let s := run (idle r) ls in
  entries_ok (keys s) /\
  Inv k (releasedLast k ls) (Z.of_nat (length ls)) (state (keys s) k) (redis s) (wire s).
Proof.
  unfold run, releasedLast. induction ls as [|l ls IH] using rev_ind; intros Hn Hd; cbn.
  - split; [intros ? ? ? H; by rewrite lookup_empty in H|].
    unfold state. rewrite lookup_empty. split; cbn; try done.
  - rewrite length_app in *. cbn [length] in *. apply Forall_app in Hd as [Hd Hl].
    rewrite Forall_singleton in Hl. destruct IH as [IH1 IH2]; [lia|done|].
    rewrite !foldl_app. cbn [foldl]. split; [by apply entries_ok_step|].
    rewrite Nat2Z.inj_add. apply step_Inv; auto. lia.
Qed.

Definition ethK : Key := mkKey "eth" "nodes.example" "".
Definition ethE (until : Z) : Entry := mkEntry ethK until "manual".

(** The write of a drain lands after the release's own delete. *)
Definition raced : list label :=
  [DoSet (ethE 100); DoRelease ethK; LandDelete 1 true; LandWrite 0 true Written;
   Finish 0; LandDelete 0 true].

(** The drain the last [Set] of a history asks for, unless a release followed. *)
Definition lastSet (k : Key) (ls : list label) : option Entry :=
  foldl (λ d l, match l with
                | DoSet e => if bool_decide (EKey e = k) then Some e else d
                | DoRelease k' => if bool_decide (k' = k) then None else d
                | _ => d
                end) None ls.
(** Every command is applied and reports success. *)
Definition flawless (l : label) : bool :=
  match l with
  | LandWrite _ applied Written => applied
  | LandWrite _ _ _ => false
  | LandDelete _ applied => applied
  | _ => true
  end.
(** Nothing is on the wire and nothing is left to retry. *)
Definition settled (s : system) : Prop := wire s = [] /\ keys s = ∅.

Definition overlappingSets : list label :=
  [DoSet (ethE 100); DoSet (ethE 900); LandWrite 1 true Written; LandWrite 0 true Written;
   Finish 0; Finish 0].
Definition setAfterRelease : list label :=
  [DoRelease ethK; DoSet (ethE 900); LandWrite 1 true Written; Finish 1; LandDelete 0 true].

(** A release is final but a set is not.  Two histories in which Redis
    applies every command and reports success on each, and which end with
    nothing on the wire and nothing to retry: in the first two overlapping sets
    leave Redis with the older drain, because the newer write's own success
    clears the re-queue the stale write asked for; in the second the delete of an
    earlier release lands after the set and leaves Redis with no drain. *)
Theorem a_set_can_be_lost :
  (Forall (λ l, flawless l = true) overlappingSets /\
   lastSet ethK overlappingSets = Some (ethE 900) /\
   settled (run (idle ∅) overlappingSets) /\
   redis (run (idle ∅) overlappingSets) !! ethK = Some (ethE 100)) /\
  (Forall (λ l, flawless l = true) setAfterRelease /\
   lastSet ethK setAfterRelease = Some (ethE 900) /\
   settled (run (idle ∅) setAfterRelease) /\
   redis (run (idle ∅) setAfterRelease) !! ethK = None).
Proof. split; split_and!; by first [repeat constructor | vm_compute]. Qed.

(** *** A drain that did not propagate *)
Section Pending.
Context (unmarshal : string -> option (Z * string)).

(** [e] is waiting to reach Redis and nothing is on the wire for it. *)
Definition waiting (ks : gmap Key keyState) (e : Entry) : Prop :=
  entries_ok ks /\ exists st, ks !! EKey e = Some st /\
    entry st = Some e /\ pending st = true /\ inflight st = 0.

Lemma finishWrite_lookup_ne ks e g r k :
  EKey e <> k -> (finishWrite ks e g r).1.1 !! k = ks !! k.
Proof.
  intros E. unfold finishWrite, forget.
  destruct (negb _ && _); [|destruct (negb _); [|destruct r]]; cbn [fst];
    destruct (_ && _); by rewrite ?lookup_delete_ne, ?lookup_insert_ne.
Qed.
Lemma finishWrite_keep_key ks e g r x :
  entries_ok ks -> (finishWrite ks e g r).2 = Some x -> EKey x = EKey e.
Proof.
  intros H. unfold finishWrite. destruct (negb _ && _); [done|].
  destruct (negb _); [cbn; by apply entries_ok_state|].
  destruct r; cbn; congruence.
Qed.

(** Retries of other keys leave [k] alone. *)
Lemma reconcile_other res now l ks next k :
  entries_ok ks -> Forall (λ p, EKey p.1 <> k) l ->
  let r := foldl (reconcileOne res now) (ks, next) l in
  entries_ok r.1 /\ r.1 !! k = ks !! k /\ r.2 !! k = next !! k.
Proof.
  intros Hok Hl. revert ks next Hok. induction Hl as [|[e g] l He Hl IH]; intros ks next Hok; [done|].
  cbn [foldl]. unfold reconcileOne at 2 4 6. cbn [fst snd] in *.
  pose proof (entries_ok_finishWrite ks e g (propagate e now (res (EKey e))) Hok) as Hok'.
  pose proof (finishWrite_lookup_ne ks e g (propagate e now (res (EKey e))) k He) as Hk.
  pose proof (λ x, finishWrite_keep_key ks e g (propagate e now (res (EKey e))) x Hok) as Hx.
  destruct (finishWrite ks e g (propagate e now (res (EKey e)))) as [[ks' c] keep]. cbn [fst snd] in *.
  destruct (IH ks' (match keep with
                    | Some e0 => if GoTime.After (Until e0) now then <[EKey e0:=e0]> next else next
                    | None => next end) Hok') as (?&->&->).
  split_and!; auto. destruct keep as [x|]; [|done].
  destruct (GoTime.After (Until x) now); [|done]. rewrite lookup_insert_ne; [done|].
  by rewrite (Hx x eq_refl).
Qed.

Lemma waiting_taken now ks e g :
  entries_ok ks -> GoTime.After (Until e) now = true ->
  forall st, ks !! EKey e = Some st -> entry st = Some e -> pending st = true -> gen st = g ->
  exists l1 l2, (takePending ks now).2 = l1 ++ (e, g) :: l2 /\
    Forall (λ p, EKey p.1 <> EKey e) l1 /\ Forall (λ p, EKey p.1 <> EKey e) l2.
Proof.
  intros Hok Hu st Hk He Hp Hg. unfold takePending. cbn [snd].
  pose proof (NoDup_fst_map_to_list ks) as Hnd.
  pose proof Hk as (l1&l2&Hl)%elem_of_map_to_list%list_elem_of_split. rewrite Hl in *.
  assert (forall l, (forall p, p ∈ l -> ks !! p.1 = Some p.2) -> EKey e ∉ l.*1 ->
            Forall (λ p, EKey p.1 <> EKey e) (omap (λ p, (takeOne now p.2).2) l)) as Hother.
  { intros l Hin Hni. apply Forall_forall. intros [e' g'] ([k' st']&Hm&Ht)%list_elem_of_omap.
    apply takeOne_entry in Ht as [Ht _]. pose proof (Hok _ _ _ (Hin _ Hm) Ht) as Hx. cbn in *.
    rewrite Hx. intros ->. apply Hni. apply list_elem_of_fmap. by exists (EKey e, st'). }
  exists (omap (λ p, (takeOne now p.2).2) l1), (omap (λ p, (takeOne now p.2).2) l2).
  rewrite fmap_app, fmap_cons in Hnd. cbn in Hnd.
  apply NoDup_app in Hnd as (_&Hd&[Hn2 _]%NoDup_cons).
  rewrite omap_app. split_and!.
  - f_equal. cbn. unfold takeOne at 1. rewrite Hp, He. cbn. rewrite Hu. cbn. by rewrite Hg.
  - apply Hother.
    + intros [] Hm. apply elem_of_map_to_list. rewrite Hl. apply elem_of_app. by left.
    + intros Hx. apply (Hd _ Hx). apply elem_of_cons. by left.
  - apply Hother; [|done].
    intros [] Hm. apply elem_of_map_to_list. rewrite Hl. apply elem_of_app. right. by constructor.
Qed.

(** A refresh whose retry of [e] fails keeps [e] waiting and puts it in the
    replacement map. *)
Lemma reconcile_waiting res now ks next e :
  waiting ks e -> GoTime.After (Until e) now = true -> res (EKey e) = PropagationError ->
  waiting (reconcilePending res ks next now).1 e /\
  (reconcilePending res ks next now).2 !! EKey e = Some e.
Proof.
  intros (Hok&st&Hk&He&Hp&Hi) Hu Hr. unfold reconcilePending.
  destruct (waiting_taken now ks e (gen st) Hok Hu st Hk He Hp eq_refl) as (l1&l2&Hl&Hl1&Hl2).
  pose proof (entries_ok_takePending ks now Hok) as Hok'.
  assert ((takePending ks now).1 !! EKey e =
          Some (mkState (Some e) true 1 (gen st) (released st))) as Hk'.
  { unfold takePending. cbn [fst]. rewrite lookup_omap, Hk. cbn. unfold takeOne.
    rewrite Hp, He. cbn. rewrite Hu. cbn. by rewrite Hi. }
  destruct (takePending ks now) as [ks' rs]. cbn [fst snd] in *. subst rs.
  rewrite foldl_app. cbn [foldl].
  destruct (reconcile_other res now l1 ks' next (EKey e) Hok' Hl1) as (Hok1&Hk1&_).
  destruct (foldl _ _ l1) as [ks1 next1]. cbn [fst snd] in *. rewrite Hk' in Hk1.
  unfold reconcileOne at 2 4. cbn [fst snd]. rewrite Hr.
  unfold propagate at 1 2. rewrite Hu. cbn [negb].
  pose proof (entries_ok_finishWrite ks1 e (gen st) PropagationError Hok1) as Hok2.
  assert (finishWrite ks1 e (gen st) PropagationError =
          (<[EKey e := mkState (Some e) true 0 (gen st) (released st)]> ks1, false, Some e)) as Hf.
  { unfold finishWrite, state. rewrite Hk1. cbn. by rewrite bool_decide_true. }
  rewrite Hf in *. cbn [fst] in Hok2. rewrite Hu.
  destruct (reconcile_other res now l2 _ (<[EKey e := e]> next1) (EKey e) Hok2 Hl2) as (?&Hk2&->).
  rewrite lookup_insert_eq. split; [|done]. split; [done|].
  eexists. rewrite Hk2, lookup_insert_eq. split; [done|]. done.
Qed.

(** What else may happen to the store meanwhile. *)
Inductive op :=
  | ORefresh (all : option (gmap string string)) (res : Key -> writeResult) (began now : Z)
  | OSet (e : Entry) (now : Z) (r : writeResult)
  | ORelease (k : Key) (now : Z).
Definition apply_op (s : RedisStore) (o : op) : RedisStore :=
  match o with
  | ORefresh all res began now => (refresh unmarshal s all res began now).1
  | OSet e now r => RSet s e now r
  | ORelease k now => RRelease s k now
  end.

(** Redis stays out of reach for [e], and nobody decides otherwise on its key. *)
Definition unreached (e : Entry) (o : op) : Prop :=
  match o with
  | ORefresh _ res _ now => res (EKey e) = PropagationError /\ now < Until e
  | OSet e' _ _ => lowerKey (EKey e') <> EKey e
  | ORelease k _ => lowerKey k <> EKey e
  end.

Definition holds (e : Entry) (s : RedisStore) : Prop :=
  waiting (rkeys s) e /\ entries (mem s) !! EKey e = Some e /\
  releasedAt (mem s) !! EKey e = None.

Lemma lower_idem s : ToLower (ToLower s) = ToLower s.
Proof.
  induction s as [|c s IH]; [done|]. cbn. rewrite IH. f_equal.
  by destruct c as [[] [] [] [] [] [] [] []].
Qed.
Lemma lowerKey_idem k : lowerKey (lowerKey k) = lowerKey k.
Proof. unfold lowerKey. cbn. by rewrite lower_idem. Qed.

Lemma waiting_ne ks ks' e :
  waiting ks e -> entries_ok ks' -> ks' !! EKey e = ks !! EKey e -> waiting ks' e.
Proof. intros (_&st&H&?) Hok E. split; [done|]. exists st. by rewrite E. Qed.
Lemma beginRelease_ok ks k : entries_ok ks -> entries_ok (beginRelease ks k).
Proof. intros. by apply entries_ok_forget. Qed.
Lemma beginRelease_ne ks k k' : k <> k' -> beginRelease ks k !! k' = ks !! k'.
Proof.
  intros. unfold beginRelease, forget. destruct (_ && _); by rewrite ?lookup_delete_ne, ?lookup_insert_ne.
Qed.

Lemma holds_refresh e s all res began now :
  holds e s -> res (EKey e) = PropagationError -> now < Until e ->
  holds e (refresh unmarshal s all res began now).1.
Proof.
  intros (Hw&He&Hr) Hres Hnow. unfold refresh. destruct all as [all|]; [|done].
  apply GoTime.After_spec in Hnow.
  destruct (reconcile_waiting res now (rkeys s) (snapshot unmarshal (follow s) now all) e Hw Hnow Hres)
    as [Hw' Hn].
  destruct (reconcilePending _ _ _ _) as [ks next]. cbn [fst snd] in *.
  split; [done|]. cbn. split; [|apply lookup_empty].
  apply lookup_union_Some_l. apply map_lookup_filter_Some. split; [done|]. cbn. by rewrite Hr.
Qed.

Lemma holds_release e s k now :
  holds e s -> lowerKey k <> EKey e -> holds e (RRelease s k now).
Proof.
  intros (Hw&He&Hr) Hk. unfold RRelease. split; cbn.
  - eapply waiting_ne; [done|apply beginRelease_ok, Hw|by apply beginRelease_ne].
  - rewrite lowerKey_idem, lookup_delete_ne, lookup_insert_ne by done. done.
Qed.

Lemma holds_set e s e' now r :
  holds e s -> lowerKey (EKey e') <> EKey e -> holds e (RSet s e' now r).
Proof.
  intros (Hw&He&Hr) Hk. unfold RSet, MemSet. cbn [EKey Until lowerEntry]. rewrite lowerKey_idem.
  destruct (negb _).
  - split; cbn.
    + eapply waiting_ne; [done|apply beginRelease_ok, Hw|by apply beginRelease_ne].
    + rewrite lookup_delete_ne, lookup_insert_ne by done. done.
  - destruct (beginSet _ _) as [ks g] eqn:Eb. unfold beginSet in Eb. cbn in Eb.
    assert (entries_ok ks /\ ks !! EKey e = rkeys s !! EKey e) as [Hok Hks].
    { injection Eb as <- _. split; [|by rewrite lookup_insert_ne].
      apply entries_ok_insert; [apply Hw|]. cbn. by intros ? [= <-]. }
    generalize (propagate (lowerEntry e') now r). clear r. intros r.
    pose proof (entries_ok_finishWrite ks (lowerEntry e') g r Hok) as Hok'.
    pose proof (finishWrite_lookup_ne ks (lowerEntry e') g r (EKey e) Hk) as Hk'.
    destruct (finishWrite _ _ _ _) as [[ks' ?] ?]. cbn in *. split; cbn.
    + eapply waiting_ne; [done|done|]. by rewrite Hk'.
    + rewrite lookup_insert_ne, lookup_delete_ne by done. done.
Qed.

Lemma set_holds s e now :
  entries_ok (rkeys s) -> inflight (state (rkeys s) (lowerKey (EKey e))) = 0 -> now < Until e ->
  holds (lowerEntry e) (RSet s e now PropagationError).
Proof.
  intros Hok Hi Hnow. apply GoTime.After_spec in Hnow.
  unfold RSet, MemSet, propagate. cbn [EKey Until Reason lowerEntry]. rewrite Hnow. cbn [negb].
  unfold beginSet, finishWrite. cbn [EKey lowerEntry].
  rewrite state_insert. cbn. rewrite bool_decide_true by done. cbn.
  rewrite lowerKey_idem. split; cbn.
  - split.
    + apply entries_ok_insert; [apply entries_ok_insert|]; cbn; [done| |]; by intros ? [= <-].
    + eexists. rewrite lookup_insert_eq. split; [done|]. cbn. split_and!; auto. lia.
  - unfold lowerEntry. cbn. rewrite lowerKey_idem.
    by rewrite lookup_insert_eq, lookup_delete_eq.
Qed.

(** C39. A drain that did not reach Redis still lasts its full duration on the
    instance that took it.  After a [Set] whose write failed, and after any
    number of refreshes from any snapshots while Redis stays out of reach for
    it, mixed with sets and releases of other drains, the drain is in force until
    the instant it was to end and is still queued for Redis. *)
Theorem unpropagated_drain_lasts (s : RedisStore) (e : Entry) (now : Z) (ops : list op) (t : Z)
    (Hok : entries_ok (rkeys s))
    (Hidle : inflight (state (rkeys s) (lowerKey (EKey e))) = 0)
    (Hnow : now < Until e)
    (Hops : Forall (unreached (lowerEntry e)) ops)
    (Ht : t < Until e) :
  let s' := foldl apply_op (RSet s e now PropagationError) ops in
  Drained (mem s') (ServiceID (EKey e)) (ToLower (Operator (EKey e))) (RPCType (EKey e)) t = true /\
  pending (state (rkeys s') (lowerKey (EKey e))) = true.
Proof.
  assert (holds (lowerEntry e) (foldl apply_op (RSet s e now PropagationError) ops)) as (Hw&He&_).
  { pose proof (set_holds s e now Hok Hidle Hnow) as H. revert H.
    generalize (RSet s e now PropagationError).
    induction Hops as [|[all res b n|e' n r|k n] ops Ho _ IH]; intros s' H; [done|..]; apply IH.
    - by apply holds_refresh; [|apply Ho|apply Ho].
    - by apply holds_set.
    - by apply holds_release. }
  cbv zeta. split.
  - unfold Drained, live. fold (lowerKey (EKey e)). cbn [EKey lowerEntry] in He. rewrite He.
    change (GoTime.After (Until (lowerEntry e)) t) with (GoTime.After (Until e) t).
    apply GoTime.After_spec in Ht. by rewrite Ht.
  - destruct Hw as (_&st&H&_&Hp&_). unfold state. cbn [EKey lowerEntry] in H. by rewrite H.
Qed.
End Pending.

Lemma unpropagated_drain_lasts_witness :
  let e := mkEntry (mkKey "eth" "Nodes.Example" "json_rpc") 100 "manual" in
  let s' := foldl (apply_op (λ _, None)) (RSet (mkStore NewMemoryStore ∅ "") e 10 PropagationError)
              [ORefresh (Some ∅) (λ _, PropagationError) 20 21; ORelease ethK 30;
               ORefresh (Some ∅) (λ _, PropagationError) 40 41] in
  Drained (mem s') "eth" "nodes.example" "json_rpc" 99 = true /\
  pending (state (rkeys s') (lowerKey (EKey e))) = true.
Proof.
  apply (unpropagated_drain_lasts (λ _, None) (mkStore NewMemoryStore ∅ "")
    (mkEntry (mkKey "eth" "Nodes.Example" "json_rpc") 100 "manual") 10
    [ORefresh (Some ∅) (λ _, PropagationError) 20 21; ORelease ethK 30;
     ORefresh (Some ∅) (λ _, PropagationError) 40 41] 99).
  - intros ? ? ? H. cbn in H. by rewrite lookup_empty in H.
  - done.
  - done.
  - repeat (apply Forall_cons; split); try apply Forall_nil_2; vm_compute; done.
  - done.
Defined.
End Drain.
