(* ===== verification/ScoreSink.v ===== *)
(** * ScoreSink: one score per endpoint and batch

    Models [relay/scoresink.go] with the signals of [reputation/signals.go].
    The sink is shared by every attempt of a batch; an operation returns the
    calls it makes to the flush function.  The function itself is left abstract:
    [F] is the type of functions, and a call names the one called. *)

From stdpp Require Import strings.
From S2P Require Import Prelude Domain.
Import Domain.

Module ScoreSink.

(** ** [reputation/signals.go] *)
Definition SignalType : Type := string.
Definition SignalSuccess : SignalType := "success".
Definition SignalMinorError : SignalType := "minor_error".
Definition SignalMajorError : SignalType := "major_error".
Definition SignalCriticalError : SignalType := "critical_error".
Definition SignalFatalError : SignalType := "fatal_error".

Record Signal := mkSignal {
  Type_ : SignalType; Timestamp : Z; Latency : Z; Reason : string;
  Probe : bool; Leftover : bool; Detail : string; Class_ : string; Weight : Z
}.
Definition withLatency (s : Signal) (l : Z) : Signal :=
  mkSignal (Type_ s) (Timestamp s) l (Reason s) (Probe s) (Leftover s) (Detail s) (Class_ s) (Weight s).

Definition NewSignal (t : SignalType) (reason : string) (latency now : Z) : Signal :=
  mkSignal t now latency reason false false "" "" 0.

(** ** [relay/scoresink.go] *)
Definition severityRank (t : SignalType) : Z :=
  if bool_decide (t = SignalFatalError) then 4
  else if bool_decide (t = SignalCriticalError) then 3
  else if bool_decide (t = SignalMajorError) then 2
  else if bool_decide (t = SignalMinorError) then 1
  else 0.

(** [sinkKey]: the endpoint and the RPC type. *)
Definition sinkKey : Type := string * string.

Section Sink.
Context {F : Type}.

Record ScoreSink := mkSink {
  worst : gmap sinkKey Signal; closed : bool; late : option F
}.
Definition NewScoreSink : ScoreSink := mkSink ∅ false None.

(** A call of the flush function. *)
Definition call : Type := F * sinkKey * Signal.

Definition Add (s : ScoreSink) (k : sinkKey) (sig : Signal) : ScoreSink * list call :=
  if closed s then
    (s, match late s with Some fn => [(fn, k, sig)] | None => [] end)
  else
    match worst s !! k with
    | None => (mkSink (<[k := sig]> (worst s)) (closed s) (late s), [])
    | Some cur =>
        if bool_decide (severityRank (Type_ cur) < severityRank (Type_ sig)) then
          let sig := withLatency sig (Z.max (Latency sig) (Latency cur)) in
          (mkSink (<[k := sig]> (worst s)) (closed s) (late s), [])
        else if bool_decide (Latency cur < Latency sig) then
          let cur := withLatency cur (Latency sig) in
          (mkSink (<[k := cur]> (worst s)) (closed s) (late s), [])
        else (s, [])
    end.

Definition Flush (s : ScoreSink) (fn : F) : ScoreSink * list call :=
  (mkSink ∅ true (Some fn), (λ p, (fn, p.1, p.2)) <$> map_to_list (worst s)).

(** A sequence of adds, in the order the mutex admits them. *)
Definition addAll (s : ScoreSink) (l : list (sinkKey * Signal)) : ScoreSink * list call :=
  foldl (λ acc p, let '(s, c) := Add acc.1 p.1 p.2 in (s, acc.2 ++ c)) (s, []) l.

(** ** What the sink promises *)

(** The signals a trace holds for one key. *)
Definition signalsFor (k : sinkKey) (l : list (sinkKey * Signal)) : list Signal :=
  (filter (λ p, p.1 = k) l).*2.

(** [sig] is the first of the worst signals of [l], with the longest latency of
    all of them. *)
Definition collapsed (l : list Signal) (sig : Signal) : Prop :=
  exists l1 s l2, l = l1 ++ s :: l2 /\
    Forall (λ x, severityRank (Type_ x) < severityRank (Type_ s)) l1 /\
    Forall (λ x, severityRank (Type_ x) <= severityRank (Type_ s)) l2 /\
    sig = withLatency s (Latency sig) /\
    Forall (λ x, Latency x <= Latency sig) l /\ Latency sig ∈ (Latency <$> l).

Lemma withLatency_self s : withLatency s (Latency s) = s.
Proof. by destruct s. Qed.

Lemma collapsed_snoc_first sig : collapsed [sig] sig.
Proof.
  exists [], sig, []. split_and!; try done; try apply Forall_nil_2.
  - symmetry. apply withLatency_self.
  - by apply Forall_singleton.
  - by apply list_elem_of_singleton.
Qed.
Lemma collapsed_worse l cur sig :
  collapsed l cur -> severityRank (Type_ cur) < severityRank (Type_ sig) ->
  collapsed (l ++ [sig]) (withLatency sig (Z.max (Latency sig) (Latency cur))).
Proof.
  intros (l1&s&l2&->&H1&H2&Hs&Hall&Hin) Hr. assert (severityRank (Type_ s) < severityRank (Type_ sig)) as Hr'.
  { rewrite Hs in Hr. exact Hr. }
  exists (l1 ++ s :: l2), sig, []. split_and!; try done; try apply Forall_nil_2.
  - apply Forall_app. split; [|apply Forall_cons; split; [done|]];
      (eapply Forall_impl; [eassumption|]); cbn; lia.
  - apply Forall_app. split; [|apply Forall_singleton; cbn; lia].
    eapply Forall_impl; [exact Hall|]. cbn. lia.
  - cbn [Latency withLatency]. rewrite fmap_app. apply elem_of_app.
    destruct (Z.max_spec (Latency sig) (Latency cur)) as [[_ ->]|[_ ->]]; [by left|right].
    by apply list_elem_of_singleton.
Qed.
Lemma collapsed_no_worse l cur sig :
  collapsed l cur -> severityRank (Type_ sig) <= severityRank (Type_ cur) ->
  collapsed (l ++ [sig]) (withLatency cur (Z.max (Latency sig) (Latency cur))).
Proof.
  intros (l1&s&l2&->&H1&H2&Hs&Hall&Hin) Hr. assert (severityRank (Type_ sig) <= severityRank (Type_ s)) as Hr'.
  { rewrite Hs in Hr. exact Hr. }
  exists l1, s, (l2 ++ [sig]). split_and!.
  - by rewrite <- app_assoc.
  - done.
  - apply Forall_app. split; [done|]. by apply Forall_singleton.
  - rewrite Hs. done.
  - apply Forall_app. split; [|apply Forall_singleton; cbn; lia].
    eapply Forall_impl; [exact Hall|]. cbn. lia.
  - cbn [Latency withLatency]. rewrite fmap_app. apply elem_of_app.
    destruct (Z.max_spec (Latency sig) (Latency cur)) as [[_ ->]|[_ ->]]; [by left|right].
    by apply list_elem_of_singleton.
Qed.

(** A collapsed signal is determined by the signals. *)
Lemma collapsed_unique l a b : collapsed l a -> collapsed l b -> a = b.
Proof.
  intros (l1&s&l2&->&H1&H2&Ha&Hall&Hin) (l1'&s'&l2'&E&H1'&H2'&Hb&Hall'&Hin').
  assert (Latency a = Latency b) as El.
  { rewrite Forall_forall in Hall, Hall'.
    apply list_elem_of_fmap in Hin as (x&Ex&Hx). apply list_elem_of_fmap in Hin' as (y&Ey&Hy).
    pose proof (Hall _ Hy). pose proof (Hall' _ Hx). lia. }
  assert (s = s') as ->; [|congruence].
  destruct (decide (length l1 = length l1')) as [Elen|Nlen].
  { destruct (app_inj_1 _ _ _ _ Elen E) as [_ E']. by injection E'. }
  exfalso. rewrite Forall_lookup in H1, H1', H2, H2'.
  destruct (decide (length l1 < length l1')%nat) as [Hlt|Hge].
  - assert (l1' !! length l1 = Some s) as Hx.
    { rewrite <- (lookup_app_l l1' (s' :: l2')) by done. rewrite <- E. by apply list_lookup_middle. }
    assert (exists i, l2 !! i = Some s') as [i Hi].
    { exists (length l1' - length l1 - 1)%nat.
      assert ((l1 ++ s :: l2) !! length l1' = Some s') as Hy by (rewrite E; by apply list_lookup_middle).
      rewrite lookup_app_r in Hy by lia.
      replace (length l1' - length l1)%nat with (S (length l1' - length l1 - 1)) in Hy by lia. done. }
    pose proof (H1' _ _ Hx). pose proof (H2 _ _ Hi). cbn in *. lia.
  - assert (l1 !! length l1' = Some s') as Hx.
    { rewrite <- (lookup_app_l l1 (s :: l2)) by lia. rewrite E. by apply list_lookup_middle. }
    assert (exists i, l2' !! i = Some s) as [i Hi].
    { exists (length l1 - length l1' - 1)%nat.
      assert ((l1' ++ s' :: l2') !! length l1 = Some s) as Hy by (rewrite <- E; by apply list_lookup_middle).
      rewrite lookup_app_r in Hy by lia.
      replace (length l1 - length l1')%nat with (S (length l1 - length l1' - 1)) in Hy by lia. done. }
    pose proof (H1 _ _ Hx). pose proof (H2' _ _ Hi). cbn in *. lia.
Qed.

(** ** The trace of adds *)
Lemma signalsFor_snoc k l p :
  signalsFor k (l ++ [p]) = signalsFor k l ++ (if bool_decide (p.1 = k) then [p.2] else []).
Proof.
  unfold signalsFor. rewrite filter_app, fmap_app. f_equal. rewrite filter_cons, filter_nil.
  case_bool_decide; by case_decide.
Qed.

Definition summarises (s : ScoreSink) (l : list (sinkKey * Signal)) : Prop :=
  closed s = false /\ forall k,
    match worst s !! k with
    | Some sig => collapsed (signalsFor k l) sig
    | None => signalsFor k l = []
    end.

Lemma Add_open s k sig :
  closed s = false ->
  exists sig', (Add s k sig) = (mkSink (<[k := sig']> (worst s)) false (late s), []) /\
    match worst s !! k with
    | None => sig' = sig
    | Some cur =>
        sig' = if bool_decide (severityRank (Type_ cur) < severityRank (Type_ sig))
               then withLatency sig (Z.max (Latency sig) (Latency cur))
               else withLatency cur (Z.max (Latency sig) (Latency cur))
    end.
Proof.
  intros Hc. unfold Add. rewrite Hc. destruct (worst s !! k) as [cur|] eqn:E; [|by eexists].
  case_bool_decide; [by eexists|]. case_bool_decide.
  - eexists. split; [done|]. f_equal. lia.
  - exists cur. split; [|rewrite Z.max_r by lia; symmetry; apply withLatency_self].
    rewrite insert_id by done. destruct s. cbn in *. by subst.
Qed.

Lemma Add_summarises s l k sig :
  summarises s l -> summarises (Add s k sig).1 (l ++ [(k, sig)]) /\ (Add s k sig).2 = [].
Proof.
  intros [Hc H]. destruct (Add_open s k sig Hc) as (sig'&->&Hsig'). cbn [fst snd].
  split; [|done]. split; [done|]. intros k'. rewrite signalsFor_snoc. cbn [worst fst snd].
  specialize (H k'). destruct (decide (k = k')) as [->|Hne].
  - rewrite lookup_insert_eq, bool_decide_true by done. destruct (worst s !! k') as [cur|].
    + subst sig'. case_bool_decide; [by apply collapsed_worse|]. apply collapsed_no_worse; [done|lia].
    + rewrite H. subst sig'. apply collapsed_snoc_first.
  - by rewrite lookup_insert_ne, bool_decide_false, app_nil_r.
Qed.

Lemma addAll_snoc s l p :
  addAll s (l ++ [p]) =
  ((Add (addAll s l).1 p.1 p.2).1, (addAll s l).2 ++ (Add (addAll s l).1 p.1 p.2).2).
Proof. unfold addAll. rewrite foldl_app. cbn. by destruct (Add _ _ _). Qed.

Lemma addAll_summarises l :
  summarises (addAll NewScoreSink l).1 l /\ (addAll NewScoreSink l).2 = [].
Proof.
  induction l as [|[k sig] l [IH1 IH2]] using rev_ind.
  - split; [|done]. split; [done|]. intros k. cbn. by rewrite lookup_empty.
  - rewrite addAll_snoc. cbn [fst snd].
    destruct (Add_summarises _ _ k sig IH1) as [H1 H2]. split; [done|]. by rewrite IH2, H2.
Qed.

Lemma addAll_closed fn l :
  addAll (mkSink ∅ true (Some fn)) l =
  (mkSink ∅ true (Some fn), (λ p, (fn, p.1, p.2)) <$> l).
Proof.
  induction l as [|p l IH] using rev_ind; [done|]. rewrite addAll_snoc, IH, fmap_app. done.
Qed.

(** The sink scores each endpoint of a batch once.  Nothing is scored
    before the flush; the flush then makes exactly one call for each endpoint
    and RPC type that had an attempt, with the first of its worst signals
    carrying the longest latency of any of them; and every signal that arrives
    after the flush is forwarded as it is, in order. *)
Theorem sink_scores_once (adds lates : list (sinkKey * Signal)) (fn : F) :
  let '(s, before) := addAll NewScoreSink adds in
  let '(s, flushed) := Flush s fn in
  let '(_, after) := addAll s lates in
  before = [] /\
  NoDup ((λ c : call, c.1.2) <$> flushed) /\
  (forall f k sig, (f, k, sig) ∈ flushed <-> f = fn /\ collapsed (signalsFor k adds) sig) /\
  after = (λ p, (fn, p.1, p.2)) <$> lates.
Proof.
  destruct (addAll_summarises adds) as [[_ H] Hb].
  destruct (addAll NewScoreSink adds) as [s before]. cbn [fst snd] in *. unfold Flush.
  rewrite addAll_closed. split_and!; [done| | |done].
  - rewrite <- list_fmap_compose. apply NoDup_fst_map_to_list.
  - intros f k sig. rewrite list_elem_of_fmap. specialize (H k). split.
    + intros ([k' sig']&[= -> -> ->]&Hin%elem_of_map_to_list). rewrite Hin in H. done.
    + intros [-> Hc]. exists (k, sig). split; [done|]. apply elem_of_map_to_list.
      destruct (worst s !! k) as [sig'|]; [by rewrite (collapsed_unique _ _ _ H Hc)|].
      rewrite H in Hc. destruct Hc as (l1&?&l2&E&_). by destruct l1.
Qed.
End Sink.
Arguments ScoreSink : clear implicits.
Arguments call : clear implicits.
End ScoreSink.
