(* ===== verification/AutoDrain.v ===== *)
(** * AutoDrain: the engine that drains an operator by itself

    Models [autodrain/engine.go] and the in-memory log of
    [autodrain/events.go].  The hooks ([OnCollapse], [OnSignal], [OnAttempt],
    [OnClientResult]) count into rings of ten one-minute slots under one mutex
    and are functions on the engine.  [Evaluate] runs on one goroutine and
    calls out to the drain store, the endpoint provider, reputation and the
    flags: it is a program over the engine, the events it emitted, the drains
    it set and a world that any call may move.

    Counters are unbounded integers (they count requests of ten minutes).
    Where the source ranges over a map, the order is a parameter.  The
    operator rates are read as one snapshot per evaluation.  [Sprintf] stands
    for the text of a drain's reason after its prefix. *)

From stdpp Require Import sorting.
From S2P Require Import Prelude Float64 Domain Text StateM RelayErrors ScoreSink Drain FeatureFlag.
Import Domain GoText.

Module AutoDrain.
Import Drain.

Definition ReasonPrefix : string := "auto:".
Definition windowSlots : Z := 10.
Definition tickEvery : Z := minute.
Definition minCollapse : Z := 20.
Definition minShare : f64 := lit 30 100.
Definition minAttempts : Z := 50.
Definition maxSuccess : f64 := lit 2 100.
Definition minClientFailure : f64 := lit 5 100.
Definition minClientRequests : Z := 50.
Definition severeMaxSuccess : f64 := lit 60 100.
Definition severeMinAttempts : Z := 200.
Definition opRateTrigger : f64 := lit 3 100.
Definition chainGap : f64 := lit 20 100.
Definition chainRatio : f64 := lit 3 1.
Definition minMethodPeers : Z := 20.
Definition maxMethods : Z := 64.
Definition overflowMethod : string := String (Ascii.ascii_of_nat 0) "overflow".
Definition DefaultPeerRatio : f64 := lit 2 1.
Definition drainFor : Z := 2 * hour.
Definition maxLivePool : Z := 1.
Definition maxLiveFleet : Z := 5.
Definition serviceGap : Z := 30 * minute.
Definition maxPerHour : Z := 3.
Definition suppressFor : Z := 6 * hour.
Definition repeatEventAt : Z := 10 * minute.

Definition OutcomeDrained : string := "drained".
Definition OutcomeShadow : string := "shadow".
Definition OutcomeSuppressed : string := "suppressed".
Definition OutcomeRateLimited : string := "rate_limited".
Definition OutcomeCapped : string := "capped".
Definition OutcomeNoVouched : string := "no_vouched_alternative".
Definition OutcomeManual : string := "manual_drain".
Definition OutcomeBelowClient : string := "below_client_failure".
Definition OutcomeNoClientEvidence : string := "no_client_evidence".
Definition OutcomePoolWide : string := "pool_wide".

Definition TriggerCollapse : string := "collapse".
Definition TriggerOperatorRate : string := "operator_rate".
Definition TriggerChainAnswers : string := "chain_answers".

Definition RPCTypeWebSocket : string := "websocket".
Definition AttemptFirst : string := "first".
Definition AttemptProbation : string := "probation".
Definition OriginChain : string := "chain".

Definition AttrString (a : RelayErrors.ErrorAttribution) : string :=
  match a with
  | RelayErrors.AttrSupplier => "supplier"
  | RelayErrors.AttrBlockchain => "blockchain"
  | RelayErrors.AttrClient => "client"
  | RelayErrors.AttrUnknown => "unknown"
  end.

Record Event := mkEvent {
  At : Z; EServiceID : string; ERPCType : string; EOperator : string; Outcome : string;
  CollapsePicks : Z; Share : f64; Attempts : Z; SuccessRate : f64; Alternative : string;
  EUntil : option Z; Trigger : string; OperatorRate : f64; ClientFailure : f64; ClientRequests : Z;
  Severe : bool; FirstAttempts : Z; FirstSuccess : f64; MatchedAnswers : Z; ChainShare : f64;
  PeerChainShare : f64; AnswerHarm : f64; PeerOperatorRate : f64; PeerSuccessRate : f64;
  PeerFirstSuccess : f64; Peers : Z; PoolWide : bool
}.

(** ** Counters *)
Record poolKey := mkPool { svc : string; rpc : string }.
#[export] Instance poolKey_eq_dec : EqDecision poolKey.
Proof. solve_decision. Defined.
#[export] Instance poolKey_countable : Countable poolKey :=
  inj_countable' (λ k, (svc k, rpc k)) (λ p, mkPool p.1 p.2) (λ k, match k with mkPool _ _ => eq_refl end).

Record methodCount := mkMethod { answered : Z; chain : Z }.
Definition noMethod : methodCount := mkMethod 0 0.
Record opCount := mkOp {
  picks : Z; attempts : Z; successes : Z; firsts : Z; firstFails : Z;
  methods : gmap string methodCount
}.
Definition noOp : opCount := mkOp 0 0 0 0 0 ∅.

(** [opCount.method]: the name a method is counted under. *)
Definition methodName (ms : gmap string methodCount) (name : string) : string :=
  if bool_decide (is_Some (ms !! name)) then name
  else if bool_decide (maxMethods <= Z.of_nat (size ms)) then overflowMethod else name.
Definition countMethod (c : opCount) (name : string) (f : methodCount -> methodCount) : opCount :=
  let name := methodName (methods c) name in
  mkOp (picks c) (attempts c) (successes c) (firsts c) (firstFails c)
    (<[name := f (default noMethod (methods c !! name))]> (methods c)).

Record slot := mkSlot { minute_ : Z; collapse : Z; ops : gmap string opCount }.
Definition zeroSlot : slot := mkSlot 0 0 ∅.
Definition newPool : list slot := replicate (Z.to_nat windowSlots) zeroSlot.

Record clientSlot := mkClient { cminute : Z; total : Z; failed : Z }.
Definition newClients : list clientSlot := replicate (Z.to_nat windowSlots) (mkClient 0 0 0).

Record Engine := mkEngine {
  counting : bool;
  pools : gmap poolKey (list slot);
  clients : gmap string (list clientSlot);
  peerRatio : option (string -> f64);
  live : gmap Key Z;
  suppressed : gmap Key Z;
  lastBySvc : gmap string Z;
  recent : list Z;
  lastEmit : gmap Key (string * Z)
}.
Definition New (leader : bool) : Engine := mkEngine leader ∅ ∅ None ∅ ∅ ∅ [] ∅.

Definition set_pools (e : Engine) p cl : Engine :=
  mkEngine (counting e) p cl (peerRatio e) (live e) (suppressed e) (lastBySvc e) (recent e) (lastEmit e).
Definition set_counting (e : Engine) (b : bool) : Engine :=
  mkEngine b (pools e) (clients e) (peerRatio e) (live e) (suppressed e) (lastBySvc e) (recent e)
    (lastEmit e).
Definition SetPeerRatio (e : Engine) (fn : string -> f64) : Engine :=
  mkEngine (counting e) (pools e) (clients e) (Some fn) (live e) (suppressed e) (lastBySvc e)
    (recent e) (lastEmit e).
Definition ratioFor (e : Engine) (service : string) : f64 :=
  match peerRatio e with Some fn => fn service | None => DefaultPeerRatio end.

(** [now.Unix()/60] and the slot of a minute. *)
Definition minuteOf (now : Z) : Z := Z.quot (now / second) 60.
Definition slotIndex (m : Z) : nat := Z.to_nat (Z.rem m windowSlots).

(** [slot] and [op]: the slot of the current minute, emptied when it is from an
    earlier one, with [f] applied to it. *)
Definition freshSlot (m : Z) (s : slot) : slot :=
  if negb (bool_decide (minute_ s = m)) then mkSlot m 0 ∅ else s.
Definition inSlot (e : Engine) (k : poolKey) (now : Z) (f : slot -> slot) : Engine :=
  let p := default newPool (pools e !! k) in
  let cl := match pools e !! k with
            | Some _ => clients e
            | None => if bool_decide (is_Some (clients e !! svc k)) then clients e
                      else <[svc k := newClients]> (clients e)
            end in
  let m := minuteOf now in
  set_pools e (<[k := alter (λ s, f (freshSlot m s)) (slotIndex m) p]> (pools e)) cl.
Definition inOp (name : string) (f : opCount -> opCount) (s : slot) : slot :=
  mkSlot (minute_ s) (collapse s) (<[name := f (default noOp (ops s !! name))]> (ops s)).

Definition addPick (c : opCount) : opCount :=
  mkOp (picks c + 1) (attempts c) (successes c) (firsts c) (firstFails c) (methods c).
Definition addAttempt (ok : bool) (c : opCount) : opCount :=
  mkOp (picks c) (attempts c + 1) (if ok then successes c + 1 else successes c) (firsts c)
    (firstFails c) (methods c).
Definition addFirst (ok : bool) (c : opCount) : opCount :=
  mkOp (picks c) (attempts c) (successes c) (firsts c + 1)
    (if ok then firstFails c else firstFails c + 1) (methods c).

Section Hooks.
Context (EffectiveTLDPlusOne : string -> option string).
#[local] Abbreviation OperatorOf := (Domain.Operator EffectiveTLDPlusOne).

(** The loop over the served endpoints remembers at most four operators. *)
Fixpoint countPicks (served : EndpointAddrList) (seen : list string) (s : slot) : slot :=
  match served with
  | [] => s
  | ep :: served =>
      let op := OperatorOf ep in
      if bool_decide (op ∈ seen) then countPicks served seen s
      else countPicks served (if bool_decide (length seen < 4)%nat then seen ++ [op] else seen)
             (inOp op addPick s)
  end.

Definition OnCollapse (e : Engine) (service rpcType : string) (served : EndpointAddrList) (now : Z)
    : Engine :=
  if negb (counting e) || bool_decide (served = []) then e
  else inSlot e (mkPool service rpcType) now (λ s,
         countPicks served [] (mkSlot (minute_ s) (collapse s + 1) (ops s))).

Definition OnSignal (e : Engine) (service rpcType : string) (ep : EndpointAddr)
    (st : ScoreSink.SignalType) (probe : bool) (now : Z) : Engine :=
  if probe || negb (bool_decide (rpcType = RPCTypeWebSocket)) || negb (counting e) then e
  else inSlot e (mkPool service rpcType) now
         (inOp (OperatorOf ep) (addAttempt (bool_decide (st = ScoreSink.SignalSuccess)))).

Definition attemptFailed (attribution : string) : bool :=
  bool_decide (attribution = AttrString RelayErrors.AttrSupplier) ||
  bool_decide (attribution = AttrString RelayErrors.AttrUnknown).
Definition countAttempt (attribution kind method : string) (retried : bool) (c : opCount) : opCount :=
  let failed := attemptFailed attribution in
  let c := addAttempt (negb failed) c in
  if negb (bool_decide (kind = AttemptFirst)) && negb (bool_decide (kind = AttemptProbation)) then c
  else
    let c := addFirst (negb failed) c in
    if failed then c
    else countMethod c method (λ m,
           mkMethod (answered m + 1)
             (if bool_decide (attribution = AttrString RelayErrors.AttrBlockchain) && negb retried
              then chain m + 1 else chain m)).
Definition OnAttempt (e : Engine) (service rpcType : string) (ep : EndpointAddr)
    (attribution kind method : string) (retried : bool) (now : Z) : Engine :=
  if negb (counting e) || bool_decide (attribution = AttrString RelayErrors.AttrClient) then e
  else inSlot e (mkPool service rpcType) now
         (inOp (OperatorOf ep) (countAttempt attribution kind method retried)).

Definition clientFailed (status : Z) : bool :=
  bool_decide (500 <= status) || bool_decide (status = 408) || bool_decide (status = 429).
Definition OnClientResult (e : Engine) (service : string) (status : Z) (origin : string) (now : Z)
    : Engine :=
  if bool_decide (service = "") || negb (counting e) then e
  else match clients e !! service with
       | None => e
       | Some w =>
           let m := minuteOf now in
           let count s :=
             let s := if negb (bool_decide (cminute s = m)) then mkClient m 0 0 else s in
             mkClient (cminute s) (total s + 1)
               (if negb (bool_decide (origin = OriginChain)) && clientFailed status
                then failed s + 1 else failed s) in
           set_pools e (pools e) (<[service := alter count (slotIndex m) w]> (clients e))
       end.

(** ** The window *)
Definition clientShare (e : Engine) (service : string) (oldest : Z) : f64 * Z :=
  match clients e !! service with
  | None => (f0, 0)
  | Some w =>
      let liveSlots := filter (λ s, oldest <= cminute s) w in
      let requests := foldl (λ n s, n + total s) 0 liveSlots in
      let failures := foldl (λ n s, n + failed s) 0 liveSlots in
      if bool_decide (requests = 0) then (f0, 0)
      else (fdiv (of_int failures) (of_int requests), requests)
  end.

(** [slices.Sort] on [float64]. *)
Definition cmpLess (x y : f64) : Prop := fltb x y || (is_nan x && negb (is_nan y)) = true.
Definition cmpLe (x y : f64) : Prop := ~ cmpLess y x.
#[local] Instance cmpLe_dec : RelDecision cmpLe.
Proof. intros x y. unfold cmpLe, cmpLess. apply _. Defined.
Definition median (xs : list f64) : f64 :=
  let xs := merge_sort cmpLe xs in
  let n := length xs in
  if bool_decide (n = O) then f0
  else if Nat.odd n then nth (n / 2) xs f0
  else fdiv (fadd (nth (n / 2 - 1) xs f0) (nth (n / 2) xs f0)) (of_int 2).

Record opView := mkView {
  vattempts : Z; vfirsts : Z; success : f64; firstSuccess : f64; rate : f64; rateOK : bool
}.

(** The orders in which the maps are ranged over. *)
Record Orders := mkOrders {
  rangeMethods : gmap string methodCount -> list (string * methodCount);
  rangeOps : gmap string opCount -> list (string * opCount);
  rangePools : gmap poolKey (list slot) -> list (poolKey * list slot);
  rangeKeys : gmap Key Z -> list (Key * Z);
  rangeServices : gset string -> list string
}.
Definition lawful (o : Orders) : Prop :=
  (forall m, rangeMethods o m ≡ₚ map_to_list m) /\ (forall m, rangeOps o m ≡ₚ map_to_list m) /\
  (forall m, rangePools o m ≡ₚ map_to_list m) /\ (forall m, rangeKeys o m ≡ₚ map_to_list m) /\
  (forall m, rangeServices o m ≡ₚ elements m).
Context (orders : Orders).

Definition matchedStep (poolM : gmap string methodCount) (acc : Z * Z * f64)
    (p : string * methodCount) : Z * Z * f64 :=
  let '(matched, chains, expected) := acc in
  let '(name, c) := p in
  let all := default noMethod (poolM !! name) in
  let peerAnswered := answered all - answered c in
  if bool_decide (name = overflowMethod) || bool_decide (answered c = 0) ||
     bool_decide (peerAnswered < minMethodPeers)
  then acc
  else (matched + answered c, chains + chain c,
        fadd expected (fmul (fdiv (of_int (chain all - chain c)) (of_int peerAnswered))
                         (of_int (answered c)))).

Record chainView := mkChain {
  matched : Z; share_ : f64; peers_ : f64; excess : f64; outlier : bool
}.
Definition matchedChain (op poolM : gmap string methodCount) : chainView :=
  let '(m, chains, expected) := foldl (matchedStep poolM) (0, 0, f0) (rangeMethods orders op) in
  if bool_decide (m < minAttempts) then mkChain m f0 f0 f0 false
  else
    let share := fdiv (of_int chains) (of_int m) in
    let peers := fdiv expected (of_int m) in
    mkChain m share peers (fsub (of_int chains) expected)
      (fleb chainGap (fsub share peers) && fleb (fmul chainRatio peers) share).

Definition addMethod (a b : methodCount) : methodCount :=
  mkMethod (answered a + answered b) (chain a + chain b).
Definition addMethods (a b : gmap string methodCount) : gmap string methodCount :=
  union_with (λ x y, Some (addMethod x y)) a b.
Definition addOp (a b : opCount) : opCount :=
  mkOp (picks a + picks b) (attempts a + attempts b) (successes a + successes b)
    (firsts a + firsts b) (firstFails a + firstFails b) (addMethods (methods a) (methods b)).
Definition addOps (a b : gmap string opCount) : gmap string opCount :=
  union_with (λ x y, Some (addOp x y)) a b.

(** The sums of the pool's live slots, per operator, and its collapse picks. *)
Definition liveSlots (p : list slot) (oldest : Z) : list slot := filter (λ s, oldest <= minute_ s) p.
Definition sumOps (p : list slot) (oldest : Z) : gmap string opCount :=
  foldl (λ acc s, addOps acc (ops s)) ∅ (liveSlots p oldest).
Definition sumCollapse (p : list slot) (oldest : Z) : Z :=
  foldl (λ n s, n + collapse s) 0 (liveSlots p oldest).
Definition sumMethods (m : gmap string opCount) : gmap string methodCount :=
  foldl (λ acc c, addMethods acc (methods c.2)) ∅ (map_to_list m).

(** ** Comparing a candidate with its peers *)
Definition with_peers (ev : Event) (rateM succM firstM : f64) (n : Z) (wide : bool) : Event :=
  mkEvent (At ev) (EServiceID ev) (ERPCType ev) (EOperator ev) (Outcome ev) (CollapsePicks ev)
    (Share ev) (Attempts ev) (SuccessRate ev) (Alternative ev) (EUntil ev) (Trigger ev)
    (OperatorRate ev) (ClientFailure ev) (ClientRequests ev) (Severe ev) (FirstAttempts ev)
    (FirstSuccess ev) (MatchedAnswers ev) (ChainShare ev) (PeerChainShare ev) (AnswerHarm ev)
    rateM succM firstM n wide.

Definition peerViews (self : string) (views : gmap string opView) : list opView :=
  (filter (λ p : string * opView, p.1 <> self /\ minAttempts <= vattempts p.2) (map_to_list views)).*2.

Definition peerCompare (ev : Event) (self : string) (views : gmap string opView) (ratio : f64) : Event :=
  let vs := peerViews self views in
  let rates := rate <$> filter (λ v, rateOK v = true) vs in
  let succ := success <$> vs in
  let firstsL := firstSuccess <$> filter (λ v, minAttempts <= vfirsts v) vs in
  let '(rateM, succM, firstM) := (median rates, median succ, median firstsL) in
  let wide :=
    if fleb ratio f0 || bool_decide (Trigger ev = TriggerChainAnswers) then PoolWide ev
    else if bool_decide (Trigger ev = TriggerOperatorRate) && bool_decide (rates <> [])
    then fltb (OperatorRate ev) (fmul ratio rateM)
    else if negb (bool_decide (Trigger ev = TriggerOperatorRate)) &&
            bool_decide (minAttempts <= FirstAttempts ev) && bool_decide (firstsL <> [])
    then fltb (fsub f1 (FirstSuccess ev)) (fmul ratio (fsub f1 firstM))
    else if negb (bool_decide (Trigger ev = TriggerOperatorRate)) && bool_decide (succ <> [])
    then fltb (fsub f1 (SuccessRate ev)) (fmul ratio (fsub f1 succM))
    else PoolWide ev in
  with_peers ev rateM succM firstM (Z.of_nat (length vs)) wide.

(** [opRate]: the chronic rate of an operator in a pool, when known. *)
Definition Rates : Type := option (poolKey -> string -> option f64).
Definition opRate (rates : Rates) (k : poolKey) (name : string) : f64 * bool :=
  match rates with
  | None => (f0, false)
  | Some r => match r k name with Some x => (x, true) | None => (f0, false) end
  end.

Definition viewOf (rates : Rates) (k : poolKey) (name : string) (c : opCount) : opView :=
  let '(r, ok) := if bool_decide (minAttempts <= attempts c) then opRate rates k name else (f0, false) in
  mkView (attempts c) (firsts c)
    (if bool_decide (0 < attempts c) then fdiv (of_int (successes c)) (of_int (attempts c)) else f0)
    (if bool_decide (0 < firsts c)
     then fsub f1 (fdiv (of_int (firstFails c)) (of_int (firsts c))) else f0)
    r ok.

Record candidate := mkCandidate { key : Key; event : Event }.

Definition triggerOf (c : opCount) (collapses : Z) (share succ rt : f64) (out : bool) : string :=
  if bool_decide (minAttempts <= attempts c) && bool_decide (minCollapse <= collapses) &&
     fleb minShare share && fleb succ maxSuccess
  then TriggerCollapse
  else if out then TriggerChainAnswers
  else if bool_decide (minAttempts <= attempts c) && fleb opRateTrigger rt then TriggerOperatorRate
  else "".

Definition candidateOf (e : Engine) (k : poolKey) (collapses : Z) (opsM : gmap string opCount)
    (views : gmap string opView) (poolM : gmap string methodCount) (cshare : f64) (creq : Z)
    (p : string * opCount) : option candidate :=
  let '(name, c) := p in
  let v := default (mkView 0 0 f0 f0 f0 false) (views !! name) in
  let share := if bool_decide (0 < collapses) then fdiv (of_int (picks c)) (of_int collapses) else f0 in
  let ch := matchedChain (methods c) poolM in
  let harm := if outlier ch && bool_decide (0 < creq) then fdiv (excess ch) (of_int creq) else f0 in
  let trigger := triggerOf c collapses share (success v) (rate v) (outlier ch) in
  if bool_decide (trigger = "") then None
  else
    let ev := mkEvent GoTime.zero (svc k) (rpc k) name "" collapses share (attempts c) (success v) ""
      None trigger (rate v) cshare creq false (firsts c) (firstSuccess v) (matched ch) (share_ ch)
      (peers_ ch) harm f0 f0 f0 0 false in
    Some (mkCandidate (mkKey (svc k) name (rpc k)) (peerCompare ev name views (ratioFor e (svc k)))).

Definition poolCandidates (e : Engine) (rates : Rates) (oldest : Z) (kp : poolKey * list slot)
    : list candidate :=
  let '(k, p) := kp in
  let opsM := sumOps p oldest in
  let '(cshare, creq) := clientShare e (svc k) oldest in
  let views := map_imap (λ name c, Some (viewOf rates k name c)) opsM in
  omap (candidateOf e k (sumCollapse p oldest) opsM views (sumMethods opsM) cshare creq)
    (rangeOps orders opsM).

Definition oldestMinute (now : Z) : Z := minuteOf now - windowSlots + 1.
Definition window (e : Engine) (rates : Rates) (now : Z) : list candidate :=
  flat_map (poolCandidates e rates (oldestMinute now)) (rangePools orders (pools e)).

(** ** Evaluation

    [W] is everything outside the engine; [Set_] answers whether the drain was
    accepted.  [sets] is history, kept for the theorems: the drains set, with
    the time of the evaluation. *)
Context {W : Type}.
Record Deps := mkDeps {
  Active_ : W -> string -> list Entry * W;
  Set_ : W -> Entry -> bool * W;
  AvailableEndpoints : W -> string -> string -> EndpointAddrList * W;
  Vouched : W -> string -> EndpointAddr -> string -> bool * W;
  IsEnabled : W -> string -> string -> bool * W;
  OperatorRates : W -> Rates * W;
  Owners : W -> owners;
  Sprintf : Event -> string;
  MaxDrain : Z
}.
Context (d : Deps).

Record St := mkSt {
  engine : Engine; world : W; emitted : list Event; sets : list (Z * Key)
}.
#[local] Abbreviation M := (StateM.M St).
Definition set_engine (f : Engine -> Engine) (s : St) : St :=
  mkSt (f (engine s)) (world s) (emitted s) (sets s).
Definition set_world (w : W) (s : St) : St := mkSt (engine s) w (emitted s) (sets s).
Definition ask {A} (f : W -> A * W) : M A := λ s,
  let '(a, w) := f (world s) in (a, set_world w s).

Definition isAuto (e : Entry) : bool := String.prefix ReasonPrefix (Reason e).

Definition covers (k : Key) (en : Entry) : bool :=
  EqualFold (Operator (EKey en)) (Operator k) &&
  (bool_decide (RPCType (EKey en) = RPCType k) || bool_decide (RPCType (EKey en) = "")).
Definition find (k : Key) : M (option Entry) :=
  en ← ask (λ w, Active_ d w (ServiceID k));
  mret (List.find (covers k) en).

Definition upd_live (f : gmap Key Z -> gmap Key Z) (e : Engine) : Engine :=
  mkEngine (counting e) (pools e) (clients e) (peerRatio e) (f (live e)) (suppressed e) (lastBySvc e)
    (recent e) (lastEmit e).
Definition upd_suppressed (f : gmap Key Z -> gmap Key Z) (e : Engine) : Engine :=
  mkEngine (counting e) (pools e) (clients e) (peerRatio e) (live e) (f (suppressed e)) (lastBySvc e)
    (recent e) (lastEmit e).
Definition upd_recent (f : list Z -> list Z) (e : Engine) : Engine :=
  mkEngine (counting e) (pools e) (clients e) (peerRatio e) (live e) (suppressed e) (lastBySvc e)
    (f (recent e)) (lastEmit e).

(** One turn of the loop over the drains this instance set. *)
Definition reconcileOne (now : Z) (p : Key * Z) : M unit :=
  let '(k, until) := p in
  if negb (GoTime.Before now until) then modify (set_engine (upd_live (delete k)))
  else
    en ← find k;
    match (en : option Entry) with
    | None =>
        modify (set_engine (upd_suppressed (insert k (now + suppressFor))));;
        modify (set_engine (upd_live (delete k)))
    | Some en => if negb (isAuto en) then modify (set_engine (upd_live (delete k))) else mret tt
    end.
Definition reconcile (now : Z) : M unit :=
  l ← gets (λ s, rangeKeys orders (live (engine s)));
  forEach l (reconcileOne now);;
  modify (set_engine (upd_suppressed (filter (λ p, GoTime.Before now p.2 = true))));;
  modify (set_engine (upd_recent (filter (λ t, GoTime.After t (now - hour) = true)))).

(** The first endpoint of another provider that reputation vouches for. *)
Fixpoint alternative (k : Key) (drained : Affiliates) (st : owners) (eps : EndpointAddrList)
    : M string :=
  match eps with
  | [] => mret ""
  | ep :: eps =>
      if negb (EqualFold (OperatorOf ep) (Operator k)) &&
         negb (AffContains EffectiveTLDPlusOne st drained ep)
      then
        v ← ask (λ w, Vouched d w (ServiceID k) ep (RPCType k));
        if (v : bool) then mret (OperatorOf ep) else alternative k drained st eps
      else alternative k drained st eps
  end.

Definition liveAuto (service rpcType : string) : M Z :=
  l ← ask (λ w, Active_ d w service);
  mret (Z.of_nat (length (filter (λ en, RPCType (EKey en) = rpcType /\ isAuto en = true) l))).
Fixpoint fleetLoop (svcs : list string) (n : Z) : M Z :=
  match svcs with
  | [] => mret n
  | service :: svcs =>
      l ← ask (λ w, Active_ d w service);
      fleetLoop svcs (n + Z.of_nat (length (filter (λ en, isAuto en = true) l)))
  end.
Definition liveAutoFleet : M Z :=
  svcs ← gets (λ s, rangeServices orders (list_to_set (svc <$> (map_to_list (pools (engine s))).*1)));
  fleetLoop svcs 0.

Definition withDecision (ev : Event) (severe : bool) (alt : string) (until : option Z) : Event :=
  mkEvent (At ev) (EServiceID ev) (ERPCType ev) (EOperator ev) (Outcome ev) (CollapsePicks ev)
    (Share ev) (Attempts ev) (SuccessRate ev) alt until (Trigger ev) (OperatorRate ev)
    (ClientFailure ev) (ClientRequests ev) severe (FirstAttempts ev) (FirstSuccess ev)
    (MatchedAnswers ev) (ChainShare ev) (PeerChainShare ev) (AnswerHarm ev) (PeerOperatorRate ev)
    (PeerSuccessRate ev) (PeerFirstSuccess ev) (Peers ev) (PoolWide ev).

Definition isSevere (ev : Event) : bool :=
  (bool_decide (severeMinAttempts <= FirstAttempts ev) && fleb (FirstSuccess ev) severeMaxSuccess) ||
  (bool_decide (severeMinAttempts <= Attempts ev) && fleb (SuccessRate ev) maxSuccess).

(** The gates that look at the evidence only: [Some outcome] stops. *)
Definition evidenceGate (ev : Event) : option string :=
  if bool_decide (ClientRequests ev < minClientRequests) then Some OutcomeNoClientEvidence
  else if fltb (ClientFailure ev) minClientFailure && fltb (AnswerHarm ev) minClientFailure &&
          negb (isSevere ev)
  then Some OutcomeBelowClient
  else if PoolWide ev then Some OutcomePoolWide
  else None.

Definition rateLimited (e : Engine) (k : Key) (now : Z) : bool :=
  match lastBySvc e !! ServiceID k with
  | Some last => bool_decide (GoTime.Sub now last < serviceGap)
  | None => false
  end || bool_decide (maxPerHour <= Z.of_nat (length (recent e))).
Definition isSuppressed (e : Engine) (k : Key) (now : Z) : bool :=
  match suppressed e !! k with Some until => GoTime.Before now until | None => false end.

Definition drainLength : Z :=
  if bool_decide (0 < MaxDrain d) && bool_decide (MaxDrain d < drainFor) then MaxDrain d else drainFor.

Definition noteSet (k : Key) (now until : Z) (s : St) : St :=
  let e := engine s in
  mkSt (mkEngine (counting e) (pools e) (clients e) (peerRatio e) (<[k := until]> (live e))
          (suppressed e) (<[ServiceID k := now]> (lastBySvc e)) (recent e ++ [now]) (lastEmit e))
    (world s) (emitted s) (sets s ++ [(now, k)]).

(** Setting the drain: the outcome and the event. *)
Definition setDrain (k : Key) (now : Z) (ev : Event) : M (string * Event) :=
  let until := now + drainLength in
  ok ← ask (λ w, Set_ d w (mkEntry k until (ReasonPrefix +:+ Sprintf d ev)));
  if negb ok then mret ("", ev)
  else
    modify (noteSet k now until);;
    mret (OutcomeDrained, withDecision ev (Severe ev) (Alternative ev) (Some until)).

Definition decideLive (k : Key) (now : Z) (act : bool) (ev : Event) : M (string * Event) :=
  e ← gets engine;
  if isSuppressed e k now then mret (OutcomeSuppressed, ev)
  else
    n ← liveAuto (ServiceID k) (RPCType k);
    fleet ← (if bool_decide (maxLivePool <= n) then mret maxLiveFleet else liveAutoFleet);
    if bool_decide (maxLiveFleet <= fleet) then mret (OutcomeCapped, ev)
    else if rateLimited e k now then mret (OutcomeRateLimited, ev)
    else if negb act then mret (OutcomeShadow, ev)
    else setDrain k now ev.

Definition decide_ (k : Key) (now : Z) (act : bool) (ev : Event) : M (string * Event) :=
  en ← find k;
  match (en : option Entry) with
  | Some en => mret (if isAuto en then "" else OutcomeManual, ev)
  | None =>
      let severe := if bool_decide (ClientRequests ev < minClientRequests) then Severe ev
                    else isSevere ev in
      let ev := withDecision ev severe (Alternative ev) (EUntil ev) in
      match evidenceGate ev with
      | Some o => mret (o, ev)
      | None =>
          eps ← ask (λ w, AvailableEndpoints d w (ServiceID k) (RPCType k));
          st ← gets (λ s, Owners d (world s));
          let drained := foldl (Domain.Add EffectiveTLDPlusOne st) (mkAffiliates ∅ ∅)
            (filter (λ ep, EqualFold (OperatorOf ep) (Operator k) = true) eps) in
          alt ← alternative k drained st eps;
          let ev := withDecision ev severe alt (EUntil ev) in
          if bool_decide (alt = "") then mret (OutcomeNoVouched, ev)
          else decideLive k now act ev
      end
  end.

Definition emit (k : Key) (ev : Event) : M unit :=
  last ← gets (λ s, lastEmit (engine s) !! k);
  let again := match (last : option (string * Z)) with
    | Some (o, at_) => bool_decide (o = Outcome ev) &&
        bool_decide (GoTime.Sub (At ev) at_ < repeatEventAt) && negb (bool_decide (Outcome ev = OutcomeDrained))
    | None => false
    end in
  if again then mret tt
  else modify (λ s,
    let e := engine s in
    mkSt (mkEngine (counting e) (pools e) (clients e) (peerRatio e) (live e) (suppressed e)
            (lastBySvc e) (recent e) (<[k := (Outcome ev, At ev)]> (lastEmit e)))
      (world s) (emitted s ++ [ev]) (sets s)).

Definition stamped (ev : Event) (at_ : Z) (outcome : string) : Event :=
  mkEvent at_ (EServiceID ev) (ERPCType ev) (EOperator ev) outcome (CollapsePicks ev)
    (Share ev) (Attempts ev) (SuccessRate ev) (Alternative ev) (EUntil ev) (Trigger ev)
    (OperatorRate ev) (ClientFailure ev) (ClientRequests ev) (Severe ev) (FirstAttempts ev)
    (FirstSuccess ev) (MatchedAnswers ev) (ChainShare ev) (PeerChainShare ev) (AnswerHarm ev)
    (PeerOperatorRate ev) (PeerSuccessRate ev) (PeerFirstSuccess ev) (Peers ev) (PoolWide ev).

Definition evaluateOne (now : Z) (c : candidate) : M unit :=
  let service := ServiceID (key c) in
  act ← ask (λ w, IsEnabled d w FeatureFlag.FlagAutoDrain service);
  shadow ← ask (λ w, IsEnabled d w FeatureFlag.FlagAutoDrainShadow service);
  if negb act && negb shadow then mret tt
  else
    live ← (if bool_decide (Trigger (event c) = TriggerChainAnswers) then
              on ← ask (λ w, IsEnabled d w FeatureFlag.FlagAutoDrainChainAnswers service);
              mret ((act : bool) && negb shadow && on)
            else mret ((act : bool) && negb shadow));
    r ← decide_ (key c) now live (stamped (event c) now (Outcome (event c)));
    let '(outcome, ev) := (r : string * Event) in
    if bool_decide (outcome = "") then mret tt
    else emit (key c) (stamped ev (At ev) outcome).

(** One pass, on the leader or not, at [now]. *)
Definition Evaluate (leader : bool) (now : Z) : M unit :=
  modify (set_engine (λ e, set_counting e leader));;
  if negb leader then mret tt
  else
    reconcile now;;
    rates ← ask (OperatorRates d);
    cs ← gets (λ s, window (engine s) rates now);
    forEach cs (evaluateOne now).

(** ** Histories: hooks, evaluations and whatever others do to the world *)
Inductive op :=
  | Collapsed (service rpcType : string) (served : EndpointAddrList) (now : Z)
  | Signalled (service rpcType : string) (ep : EndpointAddr) (st : ScoreSink.SignalType) (probe : bool) (now : Z)
  | Attempted (service rpcType : string) (ep : EndpointAddr) (attribution kind method : string)
      (retried : bool) (now : Z)
  | Answered (service : string) (status : Z) (origin : string) (now : Z)
  | Retuned (fn : string -> f64)
  | Tick (leader : bool) (now : Z)
  | Others (f : W -> W).

Definition step (s : St) (o : op) : St :=
  match o with
  | Collapsed sv r eps now => set_engine (λ e, OnCollapse e sv r eps now) s
  | Signalled sv r ep st p now => set_engine (λ e, OnSignal e sv r ep st p now) s
  | Attempted sv r ep a k m re now => set_engine (λ e, OnAttempt e sv r ep a k m re now) s
  | Answered sv st og now => set_engine (λ e, OnClientResult e sv st og now) s
  | Retuned fn => set_engine (λ e, SetPeerRatio e fn) s
  | Tick leader now => (Evaluate leader now s).2
  | Others f => set_world (f (world s)) s
  end.
Definition run (s : St) (os : list op) : St := foldl step s os.

(** The evaluations of a history are at times that do not decrease, from [t] on. *)
Fixpoint timely (t : Z) (os : list op) : Prop :=
  match os with
  | [] => True
  | Tick _ now :: os => t <= now /\ timely now os
  | _ :: os => timely t os
  end.

(** ** What leaves the decisions alone *)
#[local] Instance set_world_put : WorldPut set_world.
Proof. split; [intros s; exists (world s); by destruct s|done]. Qed.
#[local] Abbreviation reads := (StateM.reads set_world).
#[local] Abbreviation reads_bind := (StateM.reads_bind set_world).
#[local] Abbreviation reads_ret := (StateM.reads_ret set_world).
#[local] Abbreviation wp_reads := (StateM.wp_reads set_world).
Lemma reads_ask {A} (f : W -> A * W) : reads (ask f) (λ _, True).
Proof. intros s. split; [done|]. unfold ask. destruct (f (world s)) as [a w]. by exists w. Qed.
Ltac solve_reads := solve_reads_with ltac:(apply reads_ask).
Ltac squash :=
  repeat match goal with
  | |- context [set_world ?a (set_world ?b ?s)] =>
      change (set_world a (set_world b s)) with (set_world a s)
  end.

Lemma reads_find k : reads (find k) (λ _, True).
Proof. unfold find. solve_reads. Qed.
Lemma reads_alternative k drained st eps : reads (alternative k drained st eps) (λ _, True).
Proof. induction eps as [|ep eps IH]; simpl; solve_reads; exact IH. Qed.
Lemma reads_liveAuto sv r : reads (liveAuto sv r) (λ _, True).
Proof. unfold liveAuto. solve_reads. Qed.
Lemma reads_liveAutoFleet : reads liveAutoFleet (λ _, True).
Proof.
  assert (forall svcs n, reads (fleetLoop svcs n) (λ _, True)) as H.
  { induction svcs as [|sv svcs IH]; intros n; simpl; solve_reads. apply IH. }
  unfold liveAutoFleet. solve_reads. apply H.
Qed.

(** Deciding on a candidate does nothing, or sets its drain after every guard
    has let it through. *)
Inductive decided (k : Key) (now : Z) (act : bool) (s : St) : St -> Prop :=
  | decided_nothing w : decided k now act s (set_world w s)
  | decided_set w :
      act = true -> isSuppressed (engine s) k now = false -> rateLimited (engine s) k now = false ->
      decided k now act s (noteSet k now (now + drainLength) (set_world w s)).

Lemma decide_decided k now act ev s :
  wp (decide_ k now act ev) (λ _, decided k now act s) s.
Proof.
  unfold decide_. apply wp_bind. eapply wp_reads; [apply reads_find|]. intros [en|] w1 _;
    [apply decided_nothing|]. cbv zeta. destruct (evidenceGate _); [apply decided_nothing|].
  apply wp_bind. eapply wp_reads; [apply reads_ask|]. intros eps w2 _. wp_pure.
  apply wp_bind. eapply wp_reads; [apply reads_alternative|]. intros alt w3 _. squash.
  case_bool_decide; [apply decided_nothing|].
  unfold decideLive. wp_pure. destruct (isSuppressed _ _ _) eqn:Hs; [apply decided_nothing|].
  apply wp_bind. eapply wp_reads; [apply reads_liveAuto|]. intros n w4 _. squash.
  apply wp_bind. eapply (wp_reads _ (λ _, True)); [solve_reads; apply reads_liveAutoFleet|].
  intros fl w5 _. squash. case_bool_decide; [apply decided_nothing|].
  destruct (rateLimited _ _ _) eqn:Hr; [apply decided_nothing|].
  destruct act; [|apply decided_nothing]. simpl. unfold setDrain.
  apply wp_bind. eapply wp_reads; [apply reads_ask|]. intros [] w6 _; squash; [|apply decided_nothing].
  unfold wp; simpl. by apply (decided_set k now true s w6).
Qed.

(** What one candidate may change: nothing but the log of events, or that and
    a drain set. *)
Definition quiet (s s' : St) : Prop :=
  sets s' = sets s /\ live (engine s') = live (engine s) /\
  suppressed (engine s') = suppressed (engine s) /\ lastBySvc (engine s') = lastBySvc (engine s) /\
  recent (engine s') = recent (engine s) /\ pools (engine s') = pools (engine s) /\
  counting (engine s') = counting (engine s).

Lemma evaluateOne_decided now c s :
  wp (evaluateOne now c) (λ _ s', exists act s1, decided (key c) now act s s1 /\ quiet s1 s') s.
Proof.
  assert (forall s, quiet s s) as Hq by (intros; by split_and!).
  unfold evaluateOne. apply wp_bind. eapply wp_reads; [apply reads_ask|]. intros act w1 _.
  apply wp_bind. eapply wp_reads; [apply reads_ask|]. intros shadow w2 _.
  destruct (negb act && negb shadow).
  { exists false. eexists. split; [apply (decided_nothing _ _ _ _ w2)|]. apply Hq. }
  apply wp_bind. eapply (wp_reads _ (λ _, True)); [solve_reads|]. intros lv w3 _.
  apply wp_bind. eapply wp_mono; [|apply decide_decided]. intros [o ev] s1 Hd.
  assert (decided (key c) now lv s s1) as Hd'.
  { destruct Hd as [w|w]; [by apply (decided_nothing _ _ _ s w)|by apply (decided_set _ _ _ s w)]. }
  case_bool_decide; [by exists lv, s1|]. exists lv, s1. split; [done|].
  unfold emit, mbind, M_bind, gets. simpl.
  destruct (match lastEmit _ !! _ with Some _ => _ | None => _ end); [apply Hq|by split_and!].
Qed.

Lemma reconcileOne_quiet now p s :
  wp (reconcileOne now p) (λ _ s', sets s' = sets s /\ lastBySvc (engine s') = lastBySvc (engine s) /\
    recent (engine s') = recent (engine s) /\ pools (engine s') = pools (engine s) /\
    counting (engine s') = counting (engine s) /\
    forall k, k <> p.1 -> live (engine s') !! k = live (engine s) !! k /\
                         suppressed (engine s') !! k = suppressed (engine s) !! k) s.
Proof.
  destruct p as [k0 until]. simpl. destruct (negb _).
  { unfold wp; simpl. split_and!; try done. intros k Hk. by rewrite lookup_delete_ne. }
  apply wp_bind. eapply wp_reads; [apply reads_find|]. intros [en|] w _.
  - destruct (negb _); unfold wp; simpl; split_and!; try done.
    intros k Hk. by rewrite lookup_delete_ne.
  - wp_pure. unfold wp; simpl. split_and!; try done.
    intros k Hk. by rewrite lookup_delete_ne, lookup_insert_ne.
Qed.

Lemma reconcile_spec now s :
  wp (reconcile now) (λ _ s', sets s' = sets s /\ lastBySvc (engine s') = lastBySvc (engine s) /\
    pools (engine s') = pools (engine s) /\ counting (engine s') = counting (engine s) /\
    recent (engine s') = filter (λ t, now - hour < t) (recent (engine s))) s.
Proof.
  unfold reconcile. wp_pure. apply wp_bind.
  eapply wp_mono; [|apply (wp_forEach _ _ (λ s', sets s' = sets s /\
    lastBySvc (engine s') = lastBySvc (engine s) /\ recent (engine s') = recent (engine s) /\
    pools (engine s') = pools (engine s) /\ counting (engine s') = counting (engine s)))]; [|done|].
  - intros [] s1 (H1 & H2 & H3 & H4 & H5). wp_pure. unfold wp; simpl. split_and!; [done..|].
    rewrite H3. apply filter_agree. intros t _. apply GoTime.After_spec.
  - intros p s1 _ (H1 & H2 & H3 & H4 & H5). eapply wp_mono; [|apply reconcileOne_quiet].
    intros [] s2 (E1 & E2 & E3 & E4 & E5 & _). split_and!; congruence.
Qed.

(** ** Pace *)
Definition within (t : Z) (l : list (Z * Key)) : nat := length (filter (λ p : Z * Key, t - hour < p.1) l).

(** [pacing c t s]: every drain so far was set at or before [t], [recent] holds
    the times after [c], and the bounds hold of the drains set so far. *)
Record pacing (c t : Z) (s : St) : Prop := {
  pacing_past : forall p, p ∈ sets s -> p.1 <= t;
  pacing_recent : recent (engine s) = filter (λ x, c < x) (sets s).*1;
  pacing_last : forall p, p ∈ sets s -> exists last,
    lastBySvc (engine s) !! ServiceID p.2 = Some last /\ p.1 <= last;
  pacing_hour : forall i p, sets s !! i = Some p -> (within p.1 (take (S i) (sets s)) <= 3)%nat;
  pacing_gap : forall i j p q, (i < j)%nat -> sets s !! i = Some p -> sets s !! j = Some q ->
    ServiceID p.2 = ServiceID q.2 -> p.1 + serviceGap <= q.1
}.

Lemma pacing_ext c t s s' :
  sets s' = sets s -> recent (engine s') = recent (engine s) ->
  lastBySvc (engine s') = lastBySvc (engine s) -> pacing c t s -> pacing c t s'.
Proof. intros E1 E2 E3 [? ? ? ? ?]. by split; rewrite ?E1, ?E2, ?E3. Qed.

Lemma fst_filter (c : Z) (l : list (Z * Key)) :
  filter (λ x, c < x) l.*1 = (filter (λ p : Z * Key, c < p.1) l).*1.
Proof. symmetry. by apply fmap_filter_agree. Qed.

Lemma pacing_later c t t' s :
  pacing c t s -> t <= t' -> c <= t' - hour ->
  forall s', sets s' = sets s -> lastBySvc (engine s') = lastBySvc (engine s) ->
  recent (engine s') = filter (λ x, t' - hour < x) (recent (engine s)) ->
  pacing (t' - hour) t' s'.
Proof.
  intros [P1 P2 P3 P4 P5] Ht Hc s' E1 E2 E3. split; rewrite ?E1, ?E2; try done.
  - intros p Hp. specialize (P1 p Hp). lia.
  - rewrite E3, P2. rewrite list_filter_filter. apply filter_agree. intros x _. lia.
Qed.

Lemma noteSet_paces now k until s :
  pacing (now - hour) now s -> rateLimited (engine s) k now = false ->
  pacing (now - hour) now (noteSet k now until s).
Proof.
  intros [P1 P2 P3 P4 P5] Hr. unfold rateLimited in Hr. apply orb_false_iff in Hr as [Hg Hn].
  apply bool_decide_eq_false in Hn. unfold maxPerHour in Hn.
  assert (within now (sets s) <= 2)%nat as Hw.
  { unfold within. rewrite P2, fst_filter, length_fmap in Hn. lia. }
  assert (forall p, p ∈ sets s -> ServiceID p.2 = ServiceID k -> p.1 + serviceGap <= now) as Hgap.
  { intros p Hp Hs. destruct (P3 p Hp) as (last & Hl & Hle). rewrite Hs in Hl. rewrite Hl in Hg.
    apply bool_decide_eq_false in Hg.
    rewrite GoTime.Sub_lt in Hg by (unfold serviceGap, min_i64, max_i64, minute, second; lia). lia. }
  split; simpl.
  - intros p [Hp|Hp%list_elem_of_singleton]%elem_of_app; [by apply P1|by subst].
  - rewrite P2, fmap_app, filter_app. f_equal. simpl.
    rewrite filter_cons_True; [done|]. unfold hour, minute, second. lia.
  - intros p [Hp|Hp%list_elem_of_singleton]%elem_of_app.
    + destruct (decide (ServiceID p.2 = ServiceID k)) as [->|Hne].
      * exists now. rewrite lookup_insert_eq. split; [done|by apply P1].
      * rewrite lookup_insert_ne by congruence. by apply P3.
    + subst p. exists now. by rewrite lookup_insert_eq.
  - intros i p Hi. destruct (decide (i < length (sets s))%nat) as [Hlt|Hge].
    + rewrite lookup_app_l in Hi by done. rewrite take_app_le by lia. by apply P4.
    + assert (i < length (sets s ++ [(now, k)]))%nat as Hb by (by eapply lookup_lt_Some).
      rewrite length_app in Hb. simpl in Hb.
      rewrite lookup_app_r in Hi by lia. replace (i - length (sets s))%nat with 0%nat in Hi by lia.
      simpl in Hi. simplify_eq. rewrite take_ge by (rewrite length_app; simpl; lia).
      unfold within. simpl. rewrite filter_app, length_app.
      rewrite filter_cons. case_decide; simpl; unfold within in Hw; lia.
  - intros i j p q Hij Hi Hj Hs.
    assert (j < length (sets s ++ [(now, k)]))%nat as Hb by (by eapply lookup_lt_Some).
    rewrite length_app in Hb. simpl in Hb. rewrite lookup_app_l in Hi by lia.
    destruct (decide (j < length (sets s))%nat) as [Hlt|Hge].
    + rewrite lookup_app_l in Hj by done. by apply (P5 i j).
    + rewrite lookup_app_r in Hj by lia. replace (j - length (sets s))%nat with 0%nat in Hj by lia.
      simpl in Hj. simplify_eq. apply Hgap; [by eapply list_elem_of_lookup_2|done].
Qed.

Lemma evaluateOne_paces now c s :
  pacing (now - hour) now s -> wp (evaluateOne now c) (λ _, pacing (now - hour) now) s.
Proof.
  intros Hp. eapply wp_mono; [|apply evaluateOne_decided].
  intros [] s' (act & s1 & Hd & (Q1 & _ & _ & Q4 & Q5 & _)). apply (pacing_ext _ _ s1); [done..|].
  destruct Hd as [w|w _ _ Hr]; [by apply (pacing_ext _ _ s)|].
  apply noteSet_paces; [by apply (pacing_ext _ _ s)|done].
Qed.

Definition paced_by (t : Z) (s : St) : Prop := exists c, c <= t - hour /\ pacing c t s.

Lemma tick_paces leader now t s :
  t <= now -> paced_by t s -> wp (Evaluate leader now) (λ _, paced_by now) s.
Proof.
  intros Ht (c & Hc & Hp). unfold Evaluate. wp_pure. destruct leader; simpl.
  2: { unfold wp; simpl. exists c. split; [lia|]. destruct Hp as [P1 P2 P3 P4 P5].
       split; simpl; try done. intros p Hin. specialize (P1 p Hin). lia. }
  apply wp_bind. eapply wp_mono; [|apply reconcile_spec]. intros [] s1 (E1 & E2 & _ & _ & E3).
  simpl in E1, E2, E3. assert (pacing (now - hour) now s1) as Hp1 by (eapply pacing_later; eauto; lia).
  apply wp_bind. eapply wp_reads; [apply reads_ask|]. intros rates w _. wp_pure.
  eapply wp_mono; [|apply (wp_forEach _ _ (pacing (now - hour) now)); [by apply (pacing_ext _ _ s1)|]].
  - intros [] s2 H2. exists (now - hour). split; [lia|done].
  - intros c0 s2 _. apply evaluateOne_paces.
Qed.

Lemma step_paces t o s :
  paced_by t s -> (forall leader now, o = Tick leader now -> t <= now) ->
  paced_by (match o with Tick _ now => now | _ => t end) (step s o).
Proof.
  intros Hp Ht. destruct o; simpl;
    try (destruct Hp as (c & Hc & Hp); exists c; split; [done|]; apply (pacing_ext _ _ s); simpl; try done).
  all: try (unfold OnCollapse, OnSignal, OnAttempt, OnClientResult, inSlot; simpl; by repeat case_match).
  by apply (tick_paces leader now t s (Ht _ _ eq_refl)).
Qed.

Lemma run_paces t os s : paced_by t s -> timely t os -> exists t', paced_by t' (run s os).
Proof.
  revert t s. induction os as [|o os IH]; intros t s Hp Ht; simpl; [by exists t|].
  pose proof (step_paces t o s Hp) as Hs. destruct o; simpl in *;
    try (eapply IH; [apply Hs; by intros|done]).
  destruct Ht as [Hle Ht]. eapply IH; [apply Hs; by intros ? ? [= -> ->]|done].
Qed.

(** The drains set in the hour up to [T]. *)
Definition inHour (T : Z) (l : list (Z * Key)) : list (Z * Key) :=
  filter (λ p : Z * Key, T - hour < p.1 <= T) l.

Lemma hour_windows (l : list (Z * Key)) T :
  (forall i p, l !! i = Some p -> (within p.1 (take (S i) l) <= 3)%nat) ->
  (length (inHour T l) <= 3)%nat.
Proof.
  unfold inHour.
  induction l as [|p l IH] using rev_ind; intros Hl; [simpl; lia|].
  rewrite filter_app, length_app, filter_cons, filter_nil. case_decide as Hp; simpl.
  - specialize (Hl (length l) p). rewrite lookup_app_r, Nat.sub_diag, take_ge in Hl
      by (rewrite ?length_app; simpl; lia). specialize (Hl eq_refl). unfold within in Hl.
    rewrite filter_app, length_app, filter_cons_True, filter_nil in Hl
      by (unfold hour, minute, second; lia). simpl in Hl.
    assert (length (inHour T l) <= within p.1 l)%nat; [|unfold inHour, within in *; lia].
    unfold inHour, within.
    clear -Hp. induction l as [|q l IHl]; simpl; [lia|].
    rewrite !filter_cons. repeat case_decide; simpl; lia.
  - rewrite Nat.add_0_r. apply IH. intros i q Hi. specialize (Hl i q).
    assert (i < length l)%nat by (by eapply lookup_lt_Some).
    rewrite lookup_app_l, take_app_le in Hl by lia. by apply Hl.
Qed.


(** ** A drain a person released *)
Definition held (k : Key) (u : Z) (s : St) : Prop :=
  live (engine s) !! k = None /\ exists u', suppressed (engine s) !! k = Some u' /\ u <= u'.
Definition none_of (k : Key) (l : list (Z * Key)) (s : St) : Prop :=
  exists l', sets s = l ++ l' /\ forall p, p ∈ l' -> p.2 <> k.

Lemma held_suppressed k u now s : held k u s -> now < u -> isSuppressed (engine s) k now = true.
Proof.
  intros (_ & u' & Hu & Hle) Hn. unfold isSuppressed. rewrite Hu. apply GoTime.Before_spec. lia.
Qed.

Lemma evaluateOne_held k u l now c s :
  now < u -> held k u s -> none_of k l s ->
  wp (evaluateOne now c) (λ _ s', held k u s' /\ none_of k l s') s.
Proof.
  intros Hn Hh (l' & Hl & Hl'). eapply wp_mono; [|apply evaluateOne_decided].
  intros [] s' (act & s1 & Hd & (Q1 & Q2 & Q3 & _)). unfold held, none_of. rewrite Q1, Q2, Q3.
  destruct Hd as [w|w _ Hs _]; simpl; [split; [done|by exists l']|].
  assert (key c <> k) as Hk by (intros <-; rewrite (held_suppressed (key c) u) in Hs; done).
  split; [rewrite lookup_insert_ne by done; exact Hh|].
  exists (l' ++ [(now, key c)]). rewrite Hl, <- (assoc_L (++)). split; [done|].
  intros p [?|Hp%list_elem_of_singleton]%elem_of_app; [auto|by subst].
Qed.

Lemma reconcile_held k u l now s :
  lawful orders -> now < u -> held k u s -> none_of k l s ->
  wp (reconcile now) (λ _ s', held k u s' /\ none_of k l s') s.
Proof.
  intros (_ & _ & _ & Hrange & _) Hn Hh Hno. unfold reconcile. wp_pure. apply wp_bind.
  eapply wp_mono; [|apply (wp_forEach _ _ (λ s', held k u s' /\ none_of k l s'))]; [|done|].
  - intros [] s1 [(H1 & u' & H2 & H3) H4]. wp_pure. unfold wp; simpl. split; [|done].
    split; [done|]. exists u'. split; [|done]. apply map_lookup_filter_Some. split; [done|].
    apply GoTime.Before_spec. simpl. lia.
  - intros [k0 v] s1 Hin [Hh1 Hno1]. eapply wp_mono; [|apply reconcileOne_quiet].
    intros [] s2 (E1 & _ & _ & _ & _ & E5). destruct (E5 k) as [E6 E7].
    { simpl. intros ->. rewrite Hrange in Hin. apply elem_of_map_to_list in Hin.
      destruct Hh as [Hh _]. congruence. }
    unfold held, none_of. by rewrite E1, E6, E7.
Qed.

Lemma tick_held k u l leader now s :
  lawful orders -> now < u -> held k u s -> none_of k l s ->
  wp (Evaluate leader now) (λ _ s', held k u s' /\ none_of k l s') s.
Proof.
  intros Ho Hn Hh Hno. unfold Evaluate. wp_pure. destruct leader; simpl; [|done].
  apply wp_bind. eapply wp_mono; [|by apply (reconcile_held k u l)]. intros [] s1 [H1 H2].
  apply wp_bind. eapply wp_reads; [apply reads_ask|]. intros rates w _. wp_pure.
  apply wp_forEach; [done|]. intros c s2 _ [H3 H4]. by apply evaluateOne_held.
Qed.

Lemma step_held k u l o s :
  lawful orders -> (forall b t, o = Tick b t -> t < u) -> held k u s -> none_of k l s ->
  held k u (step s o) /\ none_of k l (step s o).
Proof.
  intros Ho Ht Hh Hno. destruct o; simpl; try done.
  1-4: unfold OnCollapse, OnSignal, OnAttempt, OnClientResult, inSlot; unfold held, none_of; simpl;
    by repeat case_match.
  apply (tick_held k u l leader now s); [done|by eapply Ht|done..].
Qed.

Lemma run_held k u l os s :
  lawful orders -> (forall b t, Tick b t ∈ os -> t < u) -> held k u s -> none_of k l s ->
  none_of k l (run s os).
Proof.
  intros Ho. revert s. induction os as [|o os IH]; intros s Ht Hh Hno; simpl; [done|].
  destruct (step_held k u l o s) as [H1 H2]; [done| |done..|].
  { intros b t ->. apply (Ht b). by left. }
  apply IH; [|done..]. intros b t Hin. apply (Ht b). by right.
Qed.

Lemma reconcile_notices (gone : W -> Prop) k until now s :
  lawful orders -> (forall w service, gone w -> gone (Active_ d w service).2) ->
  (forall w, gone w -> List.find (covers k) (Active_ d w (ServiceID k)).1 = None) ->
  gone (world s) -> live (engine s) !! k = Some until -> now < until ->
  wp (reconcile now) (λ _ s', held k (now + suppressFor) s' /\ none_of k (sets s) s') s.
Proof.
  intros (_ & _ & _ & Hrange & _) Hact Hfind Hg Hl Hn. unfold reconcile. wp_pure. apply wp_bind.
  assert (forall xs s1, NoDup xs.*1 -> gone (world s1) -> sets s1 = sets s ->
    ((k, until) ∈ xs /\ live (engine s1) !! k = Some until \/
     (k ∉ xs.*1) /\ held k (now + suppressFor) s1) ->
    wp (forEach xs (reconcileOne now)) (λ _ s', held k (now + suppressFor) s' /\ sets s' = sets s) s1) as Hloop.
  { induction xs as [|[k0 v] xs IH]; intros s1 Hnd Hg1 Hs1 Hc; simpl.
    - destruct Hc as [[[]%elem_of_nil _]|[_ Hh]]. done.
    - apply NoDup_cons in Hnd as [Hk0 Hnd]. simpl in Hk0. apply wp_bind.
      assert (wp (reconcileOne now (k0, v)) (λ _ s', gone (world s')) s1) as Hgw.
      { simpl. destruct (negb _); [done|]. unfold find, ask, mbind, M_bind, wp. simpl.
        specialize (Hact (world s1) (ServiceID k0) Hg1). destruct (Active_ d _ _) as [en w].
        simpl. destruct (List.find _ en) as [x|]; [by destruct (negb _)|done]. }
      assert (wp (reconcileOne now (k0, v)) (λ _ s', k0 = k -> v = until -> held k (now + suppressFor) s') s1)
        as Hself.
      { simpl. assert (GoTime.Before now until = true) as Hb by (by apply GoTime.Before_spec).
        destruct (decide (k0 = k /\ v = until)) as [[-> ->]|Hne].
        2: { unfold wp. intros -> ->. by destruct Hne. }
        rewrite Hb. simpl. unfold find, ask, mbind, M_bind, wp. simpl.
        specialize (Hfind (world s1) Hg1). destruct (Active_ d _ _) as [en w]. simpl in *.
        rewrite Hfind. simpl. intros _ _. split; simpl; [apply lookup_delete_eq|].
        eexists. rewrite lookup_insert_eq. by split. }
      eapply wp_mono; [|apply (wp_and _ _ _ _ (wp_and _ _ _ _ Hgw Hself) (reconcileOne_quiet now (k0, v) s1))].
      intros [] s2 [[Hg2 Hs2] (E1 & _ & _ & _ & _ & E5)]. simpl in E5.
      apply IH; [done..|congruence|].
      destruct Hc as [[Hin Hl1]|[Hnin [Hh1 Hh2]]].
      + apply elem_of_cons in Hin as [[= -> ->]|Hin].
        * right. split; [done|]. by apply Hs2.
        * left. split; [done|]. destruct (E5 k) as [-> _]; [|done].
          intros ->. apply Hk0, list_elem_of_fmap. by exists (k0, until).
      + right. rewrite fmap_cons, not_elem_of_cons in Hnin. destruct Hnin as [Hne Hnin].
        split; [done|]. unfold held. by destruct (E5 k) as [-> ->]. }
  eapply wp_mono; [|apply Hloop].
  - intros [] s1 [(H1 & u' & H2 & H3) H4]. wp_pure. unfold wp; simpl. split.
    + split; [done|]. exists u'. split; [|done]. apply map_lookup_filter_Some. split; [done|].
      apply GoTime.Before_spec. simpl. unfold suppressFor, hour, minute, second in *. lia.
    + exists []. rewrite app_nil_r. split; [done|]. by intros p Hp%elem_of_nil.
  - rewrite Hrange. apply NoDup_fst_map_to_list.
  - done.
  - done.
  - left. split; [|done]. rewrite Hrange. by apply elem_of_map_to_list.
Qed.

(** A drain a person released stays released: when an evaluation finds an
    automatic drain that should still run no longer listed, that evaluation
    and every one in the next six hours leave its key alone, whatever the
    traffic says. *)
Theorem released_drain_stays_released (gone : W -> Prop) s k until now os :
  lawful orders ->
  (forall w service, gone w -> gone (Active_ d w service).2) ->
  (forall w, gone w -> List.find (covers k) (Active_ d w (ServiceID k)).1 = None) ->
  gone (world s) -> live (engine s) !! k = Some until -> now < until ->
  (forall b t, Tick b t ∈ os -> t < now + suppressFor) ->
  exists new, sets (run s (Tick true now :: os)) = sets s ++ new /\ forall p, p ∈ new -> p.2 <> k.
Proof.
  intros Ho Hact Hfind Hg Hl Hn Ht. simpl.
  assert (now < now + suppressFor) as Hlt by (unfold suppressFor, hour, minute, second; lia).
  assert (wp (Evaluate true now) (λ _ s', held k (now + suppressFor) s' /\ none_of k (sets s) s') s)
    as [H1 H2].
  { unfold Evaluate. wp_pure. apply wp_bind.
    eapply wp_mono; [|eapply (reconcile_notices gone k until now); simpl; eauto].
    intros [] s1 [H1 H2]. apply wp_bind. eapply wp_reads; [apply reads_ask|]. intros rates w _. wp_pure.
    apply wp_forEach; [done|]. intros c s2 _ [H3 H4]. by apply evaluateOne_held. }
  by apply (run_held k (now + suppressFor)).
Qed.

(** ** What the window counts *)
Definition counters : list (opCount -> Z) := [picks; attempts; successes; firsts; firstFails].

(** The operators [OnCollapse] counts a pick for. *)
Fixpoint pickedOps (served : EndpointAddrList) (seen : list string) : list string :=
  match served with
  | [] => []
  | ep :: served =>
      let o := OperatorOf ep in
      if bool_decide (o ∈ seen) then pickedOps served seen
      else o :: pickedOps served (if bool_decide (length seen < 4)%nat then seen ++ [o] else seen)
  end.
Definition one (b : bool) : Z := if b then 1 else 0.

(** What one report adds to an operator of a pool, read off the report alone. *)
Definition contribution (k : poolKey) (name : string) (o : op) : opCount :=
  match o with
  | Collapsed sv r served _ =>
      if bool_decide (mkPool sv r = k) && negb (bool_decide (served = []))
      then mkOp (Z.of_nat (length (filter (λ x, x = name) (pickedOps served [])))) 0 0 0 0 ∅ else noOp
  | Signalled sv r ep st probe _ =>
      if bool_decide (mkPool sv r = k) && negb probe && bool_decide (r = RPCTypeWebSocket) &&
         bool_decide (OperatorOf ep = name)
      then mkOp 0 1 (one (bool_decide (st = ScoreSink.SignalSuccess))) 0 0 ∅ else noOp
  | Attempted sv r ep a kind _ _ _ =>
      if bool_decide (mkPool sv r = k) && negb (bool_decide (a = AttrString RelayErrors.AttrClient)) &&
         bool_decide (OperatorOf ep = name)
      then
        let first := bool_decide (kind = AttemptFirst) || bool_decide (kind = AttemptProbation) in
        mkOp 0 1 (one (negb (attemptFailed a))) (one first) (one (first && attemptFailed a)) ∅
      else noOp
  | _ => noOp
  end.
Definition opTime (o : op) : Z :=
  match o with
  | Collapsed _ _ _ now | Signalled _ _ _ _ _ now | Attempted _ _ _ _ _ _ _ now
  | Answered _ _ _ now | Tick _ now => now
  | Retuned _ | Others _ => 0
  end.
Definition total_of (l : list Z) : Z := foldr Z.add 0 l.

(** *** The ring *)
Definition touch (p : list slot) (m : Z) (f : slot -> slot) : list slot :=
  alter (λ s, f (freshSlot m s)) (slotIndex m) p.
Definition measured (mu : slot -> Z) (oldest : Z) (s : slot) : Z :=
  if bool_decide (oldest <= minute_ s) then mu s else 0.

(** A ring whose slots are from minutes up to [m], each at its own index. *)
Definition ring (m : Z) (p : list slot) : Prop :=
  length p = 10%nat /\
  forall i s, p !! i = Some s -> 0 <= minute_ s <= m /\ (s = zeroSlot \/ slotIndex (minute_ s) = i).

Lemma total_alter (g : slot -> Z) (p : list slot) i f s :
  p !! i = Some s -> total_of (g <$> alter f i p) = total_of (g <$> p) - g s + g (f s).
Proof.
  unfold total_of. revert i. induction p as [|x p IH]; intros [|i] Hi; simplify_eq/=; [lia|].
  specialize (IH i Hi). unfold alter in *. lia.
Qed.

Lemma slotIndex_lt m : 0 <= m -> (slotIndex m < 10)%nat.
Proof. intros. unfold slotIndex, windowSlots. pose proof (Z.rem_bound_pos m 10). lia. Qed.
Lemma slotIndex_apart t m : 0 <= t -> t < m -> slotIndex t = slotIndex m -> t <= m - 10.
Proof.
  unfold slotIndex, windowSlots. intros Ht Hm He.
  rewrite !Z.rem_mod_nonneg in He by lia.
  pose proof (Z.mod_pos_bound t 10). pose proof (Z.mod_pos_bound m 10).
  pose proof (Z.div_mod t 10). pose proof (Z.div_mod m 10). lia.
Qed.

Lemma touch_ring m m' p f :
  ring m p -> 0 <= m <= m' -> (forall s, minute_ (f s) = minute_ s) -> ring m' (touch p m' f).
Proof.
  intros [Hl Hp] Hm Hf. split; [unfold touch; by rewrite length_alter|].
  intros i s Hi. unfold touch in Hi.
  destruct (decide (i = slotIndex m')) as [->|Hne].
  - rewrite list_lookup_alter_eq in Hi. destruct (p !! slotIndex m') as [s0|]; simplify_eq/=.
    assert (minute_ (f (freshSlot m' s0)) = m') as ->.
    { rewrite Hf. unfold freshSlot. by case_bool_decide. }
    split; [lia|by right].
  - rewrite list_lookup_alter_ne in Hi by done. destruct (Hp i s Hi). split; [lia|done].
Qed.

(** A report adds its part to the live slots exactly. *)
Lemma touch_total mu delta m m' oldest p f :
  ring m p -> 0 <= m <= m' -> m' - 9 <= oldest ->
  (forall s, minute_ (f s) = minute_ s) -> (forall s, mu (f s) = mu s + delta) ->
  mu zeroSlot = 0 -> (forall t, mu (mkSlot t 0 ∅) = 0) ->
  total_of (measured mu oldest <$> touch p m' f) =
  total_of (measured mu oldest <$> p) + (if bool_decide (oldest <= m') then delta else 0).
Proof.
  intros [Hl Hp] Hm Ho Hf Hd H0 Hz.
  destruct (lookup_lt_is_Some_2 p (slotIndex m')) as [s Hs]; [rewrite Hl; apply slotIndex_lt; lia|].
  unfold touch. erewrite total_alter by exact Hs. destruct (Hp _ _ Hs) as [Hb Hi].
  assert (measured mu oldest (f (freshSlot m' s)) =
    measured mu oldest s + (if bool_decide (oldest <= m') then delta else 0)) as ->; [|lia].
  unfold measured, freshSlot. destruct (decide (minute_ s = m')) as [He|He].
  - rewrite (bool_decide_eq_true_2 (minute_ s = m')) by done. simpl. rewrite Hf, He, Hd.
    case_bool_decide; lia.
  - rewrite (bool_decide_eq_false_2 (minute_ s = m')) by done. simpl. rewrite Hf, Hd, Hz. simpl.
    destruct Hi as [->|Hi]; [rewrite H0; repeat case_bool_decide; lia|].
    assert (minute_ s <= m' - 10) by (apply slotIndex_apart; [lia..|done]).
    rewrite (bool_decide_eq_false_2 (oldest <= minute_ s)) by lia. case_bool_decide; lia.
Qed.

Lemma newPool_ring : ring 0 newPool.
Proof.
  split; [done|]. intros i s [-> _]%lookup_replicate. split; [simpl; lia|by left].
Qed.
Lemma newPool_total mu oldest : mu zeroSlot = 0 -> total_of (measured mu oldest <$> newPool) = 0.
Proof. intros H. unfold newPool, measured. simpl. rewrite H. by case_bool_decide. Qed.

(** *** The sums over the live slots *)
Lemma counter_add pi a b : pi ∈ counters -> pi (addOp a b) = pi a + pi b.
Proof. unfold counters. rewrite !elem_of_cons, elem_of_nil. intros [->|[->|[->|[->|[->|[]]]]]]; done. Qed.
Lemma counter_none pi : pi ∈ counters -> pi noOp = 0.
Proof. unfold counters. rewrite !elem_of_cons, elem_of_nil. intros [->|[->|[->|[->|[->|[]]]]]]; done. Qed.

Definition opIn (pi : opCount -> Z) (name : string) (s : slot) : Z := pi (default noOp (ops s !! name)).

Lemma sumOps_counter pi name p oldest :
  pi ∈ counters ->
  pi (default noOp (sumOps p oldest !! name)) = total_of (measured (opIn pi name) oldest <$> p).
Proof.
  intros Hpi. unfold sumOps, liveSlots.
  assert (forall l acc, pi (default noOp (foldl (λ acc s, addOps acc (ops s)) acc
      (filter (λ s, oldest <= minute_ s) l) !! name)) =
    pi (default noOp (acc !! name)) + total_of (measured (opIn pi name) oldest <$> l)) as H.
  { induction l as [|s l IH]; intros acc; [simpl; lia|]. rewrite filter_cons, fmap_cons.
    change (total_of (?x :: ?xs)) with (x + total_of xs). set (T := total_of _) in *.
    unfold measured at 1. case_decide as Hd.
    - rewrite bool_decide_eq_true_2 by done. simpl. rewrite IH. unfold opIn, addOps.
      rewrite lookup_union_with.
      destruct (acc !! name), (ops s !! name); simpl; rewrite ?counter_add, ?counter_none by done; lia.
    - rewrite bool_decide_eq_false_2 by done. rewrite IH. lia. }
  rewrite H, lookup_empty. simpl. by rewrite counter_none.
Qed.
Lemma sumCollapse_total p oldest : sumCollapse p oldest = total_of (measured collapse oldest <$> p).
Proof.
  unfold sumCollapse, liveSlots.
  assert (forall l acc, foldl (λ n s, n + collapse s) acc (filter (λ s, oldest <= minute_ s) l) =
    acc + total_of (measured collapse oldest <$> l)) as H; [|by rewrite H].
  induction l as [|s l IH]; intros acc; [simpl; lia|]. rewrite filter_cons, fmap_cons.
  change (total_of (?x :: ?xs)) with (x + total_of xs). unfold measured at 1.
  case_decide; [rewrite bool_decide_eq_true_2 by done|rewrite bool_decide_eq_false_2 by done];
    simpl; rewrite IH; lia.
Qed.

(** *** Reports as touches of the ring *)
Definition hookOf (o : op) : option (poolKey * Z * (slot -> slot)) :=
  match o with
  | Collapsed sv r served now =>
      if bool_decide (served = []) then None
      else Some (mkPool sv r, now, λ s, countPicks served [] (mkSlot (minute_ s) (collapse s + 1) (ops s)))
  | Signalled sv r ep st probe now =>
      if probe || negb (bool_decide (r = RPCTypeWebSocket)) then None
      else Some (mkPool sv r, now,
             inOp (OperatorOf ep) (addAttempt (bool_decide (st = ScoreSink.SignalSuccess))))
  | Attempted sv r ep a kind m re now =>
      if bool_decide (a = AttrString RelayErrors.AttrClient) then None
      else Some (mkPool sv r, now, inOp (OperatorOf ep) (countAttempt a kind m re))
  | _ => None
  end.

Lemma evaluate_pools leader now s :
  wp (Evaluate leader now) (λ _ s', pools (engine s') = pools (engine s) /\ counting (engine s') = leader) s.
Proof.
  unfold Evaluate. wp_pure. destruct leader; simpl; [|done].
  apply wp_bind. eapply wp_mono; [|apply reconcile_spec]. intros [] s1 (_ & _ & E1 & E2 & _).
  apply wp_bind. eapply wp_reads; [apply reads_ask|]. intros rates w _. wp_pure.
  apply wp_forEach; [done|]. intros c s2 _ [H1 H2].
  eapply wp_mono; [|apply evaluateOne_decided].
  intros [] s3 (act & s4 & Hd & (_ & _ & _ & _ & _ & Q6 & Q7)). rewrite Q6, Q7. by destruct Hd.
Qed.

Lemma step_pools s o :
  counting (engine s) = true -> (forall b t, o = Tick b t -> b = true) ->
  counting (engine (step s o)) = true /\
  pools (engine (step s o)) =
    match hookOf o with
    | Some (k, now, f) =>
        <[k := touch (default newPool (pools (engine s) !! k)) (minuteOf now) f]> (pools (engine s))
    | None => pools (engine s)
    end.
Proof.
  intros Hc Ht. destruct o; simpl; try done.
  - unfold OnCollapse. rewrite Hc. simpl. by case_bool_decide.
  - unfold OnSignal. rewrite Hc. simpl. rewrite orb_false_r. by destruct (probe || _).
  - unfold OnAttempt. rewrite Hc. simpl. by case_bool_decide.
  - unfold OnClientResult. rewrite Hc. simpl. rewrite orb_false_r.
    case_bool_decide; [done|]. by destruct (clients _ !! _).
  - destruct (evaluate_pools leader now s) as [H1 H2]. rewrite H1, H2. by rewrite (Ht leader now).
Qed.

Lemma opIn_inOp pi name nm f s :
  opIn pi name (inOp nm f s) =
  if bool_decide (nm = name) then pi (f (default noOp (ops s !! nm))) else opIn pi name s.
Proof.
  unfold opIn, inOp. simpl. case_bool_decide as E; [subst; by rewrite lookup_insert_eq|].
  by rewrite lookup_insert_ne.
Qed.

Ltac each_counter Hpi :=
  unfold counters in Hpi; rewrite !elem_of_cons, elem_of_nil in Hpi;
  destruct Hpi as [->|[->|[->|[->|[->|[]]]]]].

Lemma countPicks_counts pi name served seen s :
  pi ∈ counters ->
  opIn pi name (countPicks served seen s) =
  opIn pi name s + pi (mkOp (Z.of_nat (length (filter (λ x, x = name) (pickedOps served seen)))) 0 0 0 0 ∅).
Proof.
  intros Hpi. revert seen s. induction served as [|ep served IH]; intros seen s; simpl.
  - each_counter Hpi; simpl; lia.
  - case_bool_decide; [apply IH|]. rewrite IH, opIn_inOp, filter_cons. unfold opIn.
    case_decide as E; [rewrite bool_decide_eq_true_2 by done; subst name|
                       rewrite bool_decide_eq_false_2 by done; done].
    each_counter Hpi; simpl; lia.
Qed.
Lemma countPicks_frame served seen s :
  minute_ (countPicks served seen s) = minute_ s /\ collapse (countPicks served seen s) = collapse s.
Proof.
  revert seen s. induction served as [|ep served IH]; intros seen s; simpl; [done|].
  case_bool_decide; [apply IH|]. by destruct (IH (if bool_decide (length seen < 4)%nat
    then seen ++ [OperatorOf ep] else seen) (inOp (OperatorOf ep) addPick s)) as [-> ->].
Qed.

Lemma countAttempt_counts pi a kind m re c :
  pi ∈ counters ->
  pi (countAttempt a kind m re c) = pi c +
    (let first := bool_decide (kind = AttemptFirst) || bool_decide (kind = AttemptProbation) in
     pi (mkOp 0 1 (one (negb (attemptFailed a))) (one first) (one (first && attemptFailed a)) ∅)).
Proof.
  intros Hpi. unfold countAttempt. cbv zeta. rewrite <- negb_orb.
  destruct (_ || _), (attemptFailed a); simpl; each_counter Hpi; simpl; lia.
Qed.

(** A report changes a pool's slot by its contribution, and no other pool's. *)
Lemma hook_counts o k now f :
  hookOf o = Some (k, now, f) ->
  now = opTime o /\ (forall s, minute_ (f s) = minute_ s) /\
  (forall pi name s, pi ∈ counters -> opIn pi name (f s) = opIn pi name s + pi (contribution k name o)) /\
  (forall pi name k', pi ∈ counters -> k' <> k -> pi (contribution k' name o) = 0).
Proof.
  intros Hh. destruct o; simpl in Hh; try done.
  - case_bool_decide as Hs; simplify_eq. split_and!; [done| | |].
    + intros s. by destruct (countPicks_frame served [] (mkSlot (minute_ s) (collapse s + 1) (ops s))).
    + intros pi name s Hpi. rewrite countPicks_counts by done. simpl.
      rewrite bool_decide_eq_true_2, bool_decide_eq_false_2 by done. done.
    + intros pi name k' Hpi Hk. simpl. rewrite bool_decide_eq_false_2 by done. by apply counter_none.
  - destruct (probe || _) eqn:E; simplify_eq. apply orb_false_iff in E as [-> E].
    apply negb_false_iff in E. split_and!; [done|done| |].
    + intros pi name s Hpi. rewrite opIn_inOp. simpl.
      rewrite (bool_decide_eq_true_2 (mkPool _ _ = _)), E by done. simpl.
      unfold opIn. destruct (bool_decide_reflect (OperatorOf ep = name)) as [<-|];
        [|rewrite counter_none by done; lia].
      destruct (bool_decide (st = _)); each_counter Hpi; simpl; lia.
    + intros pi name k' Hpi Hk. simpl. rewrite bool_decide_eq_false_2 by done. by apply counter_none.
  - case_bool_decide as Ha; simplify_eq. split_and!; [done|done| |].
    + intros pi name s Hpi. rewrite opIn_inOp. simpl.
      rewrite (bool_decide_eq_true_2 (mkPool _ _ = _)), (bool_decide_eq_false_2 (attribution = _)) by done.
      simpl.
      unfold opIn. destruct (bool_decide_reflect (OperatorOf ep = name)) as [<-|];
        [by apply countAttempt_counts|]. rewrite counter_none by done. lia.
    + intros pi name k' Hpi Hk. simpl. rewrite bool_decide_eq_false_2 by done. by apply counter_none.
Qed.
Lemma no_hook_counts o pi name k :
  hookOf o = None -> pi ∈ counters -> pi (contribution k name o) = 0.
Proof.
  intros Hh Hpi. destruct o; simpl in *; try by apply counter_none.
  - case_bool_decide as Hs; [|done]. rewrite andb_false_r. by apply counter_none.
  - destruct probe, (bool_decide (rpcType = _)); try done; rewrite ?andb_false_r; simpl; by apply counter_none.
  - case_bool_decide as Ha; [|done]. rewrite andb_false_r. by apply counter_none.
Qed.

(** The reports of a history come in order, from [t] on, and this instance is
    the leader throughout. *)
Fixpoint inOrder (t : Z) (os : list op) : Prop :=
  match os with
  | [] => True
  | o :: os =>
      (forall b u, o = Tick b u -> b = true) /\
      match hookOf o with Some _ => t <= opTime o /\ inOrder (opTime o) os | None => inOrder t os end
  end.
Definition recentReports (oldest : Z) (os : list op) : list op :=
  filter (λ o, oldest <= minuteOf (opTime o)) os.

Definition poolOf (s : St) (k : poolKey) : list slot := default newPool (pools (engine s) !! k).
Definition tallied (t : Z) (os : list op) (s : St) : Prop :=
  counting (engine s) = true /\ forall k, ring (minuteOf t) (poolOf s k) /\
  forall pi name oldest, pi ∈ counters -> minuteOf t - 9 <= oldest ->
    total_of (measured (opIn pi name) oldest <$> poolOf s k) =
    total_of ((λ o, pi (contribution k name o)) <$> recentReports oldest os).

Lemma minuteOf_mono t u : 0 <= t <= u -> 0 <= minuteOf t <= minuteOf u.
Proof.
  intros [H1 H2]. unfold minuteOf. assert (0 <= t / second <= u / second) as [H3 H4].
  { split; [apply Z.div_pos; unfold second; lia|apply Z.div_le_mono; unfold second; lia]. }
  split; [apply Z.quot_pos; lia|apply Z.quot_le_mono; lia].
Qed.

Lemma eventTotal_app l1 l2 : total_of (l1 ++ l2) = total_of l1 + total_of l2.
Proof. unfold total_of. induction l1 as [|x l1 IH]; simpl; [done|]. rewrite IH. lia. Qed.

Lemma recentReports_snoc pi k name oldest os o :
  total_of ((λ o, pi (contribution k name o)) <$> recentReports oldest (os ++ [o])) =
  total_of ((λ o, pi (contribution k name o)) <$> recentReports oldest os) +
  (if bool_decide (oldest <= minuteOf (opTime o)) then pi (contribution k name o) else 0).
Proof.
  unfold recentReports. rewrite filter_app, fmap_app, eventTotal_app. f_equal.
  rewrite filter_cons, filter_nil.
  case_decide; [rewrite bool_decide_eq_true_2 by done|rewrite bool_decide_eq_false_2 by done];
    unfold total_of; simpl; lia.
Qed.

Lemma step_tallied t os s o :
  0 <= t -> tallied t os s -> (forall b u, o = Tick b u -> b = true) ->
  (is_Some (hookOf o) -> t <= opTime o) ->
  tallied (if bool_decide (is_Some (hookOf o)) then opTime o else t) (os ++ [o]) (step s o).
Proof.
  intros Ht [Hc Hr] Htick Hle. destruct (step_pools s o Hc Htick) as [Hc' Hp]. split; [done|].
  intros k. unfold poolOf. rewrite Hp. destruct (hookOf o) as [[[k0 now] f]|] eqn:Hh.
  - rewrite bool_decide_eq_true_2 by done. specialize (Hle ltac:(done)).
    destruct (hook_counts o k0 now f Hh) as (-> & Hmin & Hcnt & Hoth).
    pose proof (minuteOf_mono t (opTime o) ltac:(lia)) as Hm.
    destruct (decide (k = k0)) as [->|Hne].
    + rewrite lookup_insert_eq. simpl. destruct (Hr k0) as [Hring Htot]. split.
      { by apply (touch_ring (minuteOf t)). }
      intros pi name oldest Hpi Ho. rewrite recentReports_snoc, <- Htot by (done || lia).
      apply (touch_total _ _ (minuteOf t)); try done; [by intros; apply Hcnt| |];
        intros; by apply counter_none.
    + rewrite lookup_insert_ne by done. destruct (Hr k) as [[Hl Hring] Htot]. split.
      { split; [done|]. intros i x Hx. destruct (Hring i x Hx). split; [lia|done]. }
      intros pi name oldest Hpi Ho. rewrite recentReports_snoc, <- Htot by (done || lia).
      rewrite Hoth by done. unfold poolOf. case_bool_decide; lia.
  - rewrite bool_decide_eq_false_2 by (by intros [? ?]). destruct (Hr k) as [Hring Htot]. split; [done|].
    intros pi name oldest Hpi Ho. rewrite recentReports_snoc, <- Htot by done.
    rewrite no_hook_counts by done. unfold poolOf. case_bool_decide; lia.
Qed.

Lemma run_tallied t os done s :
  0 <= t -> tallied t done s -> inOrder t os ->
  exists t', 0 <= t' /\ tallied t' (done ++ os) (run s os) /\
    forall u, t <= u -> (forall o, o ∈ os -> opTime o <= u) -> t' <= u.
Proof.
  revert t done s. induction os as [|o os IH]; intros t done s Ht Hi Ho; simpl.
  { exists t. rewrite app_nil_r. by split_and!. }
  destruct Ho as [Htick Ho].
  destruct (IH (if bool_decide (is_Some (hookOf o)) then opTime o else t) (done ++ [o]) (step s o))
    as (t' & H1 & H2 & H3).
  - destruct (hookOf o); [rewrite bool_decide_eq_true_2 by done; lia|].
    rewrite bool_decide_eq_false_2 by (by intros [? ?]). done.
  - apply step_tallied; [done..|]. destruct (hookOf o); [by destruct Ho|by intros [? ?]].
  - destruct (hookOf o); [rewrite bool_decide_eq_true_2 by done; by destruct Ho|].
    by rewrite bool_decide_eq_false_2 by (by intros [? ?]).
  - exists t'. rewrite <- (assoc_L (++)) in H2. split_and!; [done..|].
    intros u Hu Hall. apply H3; [|intros o' Ho'; apply Hall; by right].
    case_bool_decide; [apply Hall; by left|done].
Qed.

(** The rings forget nothing and remember nothing else: at any time, the
    sums of a pool's live slots are, for every operator and every counter, the
    sums over the reports of the last ten minutes of what each report
    contributes, computed from the report alone. *)
Theorem window_counts_last_ten_minutes w os now k name pi :
  pi ∈ counters -> inOrder 0 os -> (forall o, o ∈ os -> opTime o <= now) -> 0 <= now ->
  let s := run (mkSt (New true) w [] []) os in
  pi (default noOp (sumOps (poolOf s k) (oldestMinute now) !! name)) =
  total_of ((λ o, pi (contribution k name o)) <$> recentReports (oldestMinute now) os).
Proof.
  intros Hpi Ho Hnow Hn s. rewrite sumOps_counter by done.
  destruct (run_tallied 0 os [] (mkSt (New true) w [] [])) as (t' & H1 & [_ H2] & H3); [done| |done|].
  - split; [done|]. intros k0. unfold poolOf. simpl. split; [apply newPool_ring|].
    intros pi' nm old Hpi' _. rewrite newPool_total; [done|]. by apply counter_none.
  - specialize (H3 now Hn Hnow). destruct (H2 k) as [_ H4]. apply H4; [done|].
    pose proof (minuteOf_mono t' now ltac:(lia)). unfold oldestMinute, windowSlots. lia.
Qed.
End Hooks.

(** ** The engine over the in-memory drain store

    The store reads its own clock, which goes forward between any two calls. *)
Section Memory.
Context (EffectiveTLDPlusOne : string -> option string) (orders : Orders).
Context (adv : Z -> Z) (adv_le : forall t, t <= adv t).
Context (eps : Z -> string -> string -> EndpointAddrList)
  (vouch : Z -> string -> EndpointAddr -> string -> bool) (flag : Z -> string -> string -> bool)
  (rates : Z -> Rates) (owner : Z -> owners) (text : Event -> string) (maxDrain : Z).
#[local] Abbreviation World := (MemoryStore * Z)%type.
#[local] Abbreviation MSt := (@St World).

Definition later (w : World) : World := (w.1, adv w.2).
Definition memDeps : @Deps World := mkDeps
  (λ w sv, (Drain.Active w.1 sv w.2, later w))
  (λ w e, (true, (MemSet w.1 e w.2, adv w.2)))
  (λ w sv r, (eps w.2 sv r, later w))
  (λ w sv ep r, (vouch w.2 sv ep r, later w))
  (λ w f sv, (flag w.2 f sv, later w))
  (λ w, (rates w.2, later w)) (λ w, owner w.2) text maxDrain.

(** The live automatic drains. *)
Definition autos (w : World) : gmap Key Entry :=
  filter (λ p : Key * Entry, isAuto p.2 = true /\ w.2 < Until p.2) (entries w.1).
Definition autosOf (sv : string) (w : World) : gmap Key Entry :=
  filter (λ p : Key * Entry, ServiceID p.1 = sv) (autos w).
Definition autosIn (sv r : string) (w : World) : gmap Key Entry :=
  filter (λ p : Key * Entry, RPCType p.1 = r) (autosOf sv w).
Definition services (e : Engine) : gset string := list_to_set (svc <$> (map_to_list (pools e)).*1).

Record capped (s : MSt) : Prop := {
  capped_pool : forall sv r, (size (autosIn sv r (world s)) <= 1)%nat;
  capped_fleet : (size (autos (world s)) <= 5)%nat;
  capped_keys : forall k e, entries (world s).1 !! k = Some e -> EKey e = k;
  capped_known : forall k e, entries (world s).1 !! k = Some e -> isAuto e = true ->
    ServiceID k ∈ services (engine s)
}.

(** Time only takes drains away. *)
Definition aged (s s' : MSt) : Prop :=
  exists c, (world s).2 <= c /\ s' = set_world ((world s).1, c) s.
#[local] Instance aged_preorder : PreOrder aged.
Proof.
  split.
  - intros s. exists (world s).2. split; [lia|]. by destruct s as [? [? ?] ? ?].
  - intros s1 s2 s3 (c1 & H1 & ->) (c2 & H2 & ->). simpl in *. exists c2. split; [lia|done].
Qed.

Lemma autos_aged s s' : aged s s' -> autos (world s') ⊆ autos (world s).
Proof.
  intros (c & Hc & ->). unfold autos. simpl. apply map_filter_subseteq_ext. simpl. intros k e _ [Ha Hb].
  split; [done|lia].
Qed.
Lemma autosOf_mono sv w w' : autos w' ⊆ autos w -> autosOf sv w' ⊆ autosOf sv w.
Proof. apply map_filter_subseteq_mono. Qed.
Lemma autosIn_mono sv r w w' : autos w' ⊆ autos w -> autosIn sv r w' ⊆ autosIn sv r w.
Proof. intros Hs. by apply map_filter_subseteq_mono, map_filter_subseteq_mono. Qed.
Lemma aged_engine s s' : aged s s' -> engine s' = engine s /\ (world s').1 = (world s).1.
Proof. by intros (c & _ & ->). Qed.

Lemma capped_aged s s' : aged s s' -> capped s -> capped s'.
Proof.
  intros Ha [C1 C2 C3 C4]. pose proof (autos_aged s s' Ha) as Hs.
  destruct (aged_engine s s' Ha) as [E1 E2]. split; rewrite ?E1, ?E2; try done.
  - intros sv r. etrans; [apply map_subseteq_size, autosIn_mono, Hs|apply C1].
  - etrans; [apply map_subseteq_size, Hs|done].
Qed.

Lemma capped_same s s' :
  capped s -> world s' = world s -> services (engine s) ⊆ services (engine s') -> capped s'.
Proof.
  intros [C1 C2 C3 C4] E1 E2. split; rewrite E1; try done. intros k e He Ha. apply E2. by eapply C4.
Qed.

(** What the store lists. *)
Lemma active_autos sv s :
  (forall k e, entries (world s).1 !! k = Some e -> EKey e = k) ->
  let l := Drain.Active (world s).1 sv (world s).2 in
  length (filter (λ en, isAuto en = true) l) = size (autosOf sv (world s)) /\
  forall r, length (filter (λ en, RPCType (EKey en) = r /\ isAuto en = true) l) =
    size (autosIn sv r (world s)).
Proof.
  intros Hk l. set (m := entries (world s).1) in *. set (c := (world s).2) in *.
  assert (forall (P : Entry -> Prop) (Q : Key * Entry -> Prop)
    `{!forall x, Decision (P x), !forall x, Decision (Q x)},
    (forall k e, m !! k = Some e -> ServiceID k = sv /\ c < Until e /\ P e <-> Q (k, e)) ->
    length (filter P l) = length (filter Q (map_to_list m))) as Hlen.
  { intros P Q HP HQ Heq. unfold l, Drain.Active. rewrite merge_sort_Permutation, list_filter_filter.
    fold m. fold c. rewrite <- (length_fmap snd (filter Q _)). f_equal. symmetry.
    apply fmap_filter_agree. intros [k e] Hin%elem_of_map_to_list. rewrite <- Heq by done.
    simpl. rewrite (Hk k e Hin), GoTime.After_spec. tauto. }
  split.
  - unfold autosOf, autos. fold m. rewrite map_filter_filter, size_map_filter. apply Hlen.
    intros k e _. simpl. tauto.
  - intros r. unfold autosIn, autosOf, autos. fold m. rewrite !map_filter_filter, size_map_filter.
    apply Hlen. intros k e Hin. simpl. rewrite (Hk k e Hin). tauto.
Qed.

Lemma ask_aged {A} (f : World -> A * World) s :
  (forall w, (f w).2 = later w) -> aged s (ask f s).2.
Proof.
  intros Hf. unfold ask. specialize (Hf (world s)). destruct (f (world s)) as [a w]. simpl in *. subst w.
  exists (adv (world s).2). split; [apply adv_le|done].
Qed.
Ltac solve_aged :=
  solve_moves_with ltac:(intros ?; apply ask_aged; intros ?; reflexivity).

Lemma aged_find k : moves aged (find memDeps k).
Proof. unfold find. solve_aged. Qed.
Lemma aged_alternative k dr st l : moves aged (alternative EffectiveTLDPlusOne memDeps k dr st l).
Proof. induction l as [|ep l IH]; simpl; solve_aged; apply IH. Qed.

Lemma liveAuto_spec sv r s :
  capped s -> wp (liveAuto memDeps sv r) (λ n s', aged s s' /\
    Z.of_nat (size (autosIn sv r (world s'))) <= n) s.
Proof.
  intros [_ _ Hk _]. unfold liveAuto. apply wp_bind. unfold wp at 1, ask. simpl. unfold wp; simpl.
  assert (aged s (set_world (later (world s)) s)) as Ha by (exists (adv (world s).2); by split).
  split; [done|]. destruct (active_autos sv s Hk) as [_ ->].
  apply Nat2Z.inj_le, map_subseteq_size. apply (autosIn_mono sv r _ _ (autos_aged _ _ Ha)).
Qed.

Lemma fleetLoop_spec svcs n s :
  capped s -> wp (fleetLoop memDeps svcs n) (λ m s', aged s s' /\
    n + Z.of_nat (sum_list_with (λ sv, size (autosOf sv (world s'))) svcs) <= m) s.
Proof.
  revert n s. induction svcs as [|sv svcs IH]; intros n s Hc; simpl.
  { unfold wp; simpl. split; [reflexivity|lia]. }
  apply wp_bind. unfold wp at 1, ask. simpl.
  assert (aged s (set_world (later (world s)) s)) as Ha by (exists (adv (world s).2); by split).
  eapply wp_mono; [|apply IH, (capped_aged s); done].
  intros m s' [Ha' Hm]. assert (aged s s') as Ha'' by (by etrans).
  split; [done|]. destruct (active_autos sv s (capped_keys s Hc)) as [Hl _]. rewrite Hl in Hm.
  assert (size (autosOf sv (world s')) <= size (autosOf sv (world s)))%nat.
  { apply map_subseteq_size, (autosOf_mono sv _ _ (autos_aged _ _ Ha'')). }
  lia.
Qed.

Lemma liveAutoFleet_spec s :
  lawful orders -> capped s -> wp (liveAutoFleet orders memDeps) (λ n s', aged s s' /\
    Z.of_nat (size (autos (world s'))) <= n) s.
Proof.
  intros (_ & _ & _ & _ & Hr) Hc. unfold liveAutoFleet. wp_pure.
  eapply wp_mono; [|by apply fleetLoop_spec]. intros m s' [Ha Hm]. split; [done|].
  etrans; [|exact Hm]. simpl. apply Nat2Z.inj_le.
  etrans; [apply (size_le_parts ServiceID)|reflexivity].
  intros k e Hke. rewrite Hr. apply elem_of_elements.
  assert (autos (world s) !! k = Some e) as Hs by (eapply lookup_weaken; [done|by apply autos_aged]).
  apply map_lookup_filter_Some in Hs as [Hs [Hau _]]. by eapply (capped_known s Hc).
Qed.

(** Writing to the store. *)
Lemma capped_shrink s s' :
  capped s -> (world s).2 <= (world s').2 -> engine s' = engine s ->
  (forall k e, entries (world s').1 !! k = Some e ->
     entries (world s).1 !! k = Some e \/ (EKey e = k /\ isAuto e = false)) ->
  capped s'.
Proof.
  intros [C1 C2 C3 C4] Ht E Hsub.
  assert (autos (world s') ⊆ autos (world s)) as Hs.
  { apply map_subseteq_spec. intros k e He. apply map_lookup_filter_Some in He as [He [Ha Hu]].
    apply map_lookup_filter_Some. simpl in *. destruct (Hsub k e He) as [?|[_ ?]]; [|congruence].
    split; [done|]. split; [done|lia]. }
  split.
  - intros sv r. etrans; [apply map_subseteq_size, (autosIn_mono sv r _ _ Hs)|apply C1].
  - etrans; [apply map_subseteq_size, Hs|done].
  - intros k e He. destruct (Hsub k e He) as [?|[? _]]; [by apply C3|done].
  - intros k e He Ha. rewrite E. destruct (Hsub k e He) as [?|[_ ?]]; [by eapply C4|congruence].
Qed.

Lemma memset_lookup m e now k x :
  entries (MemSet m e now) !! k = Some x ->
  entries m !! k = Some x \/ (k = lowerKey (EKey e) /\ x = lowerEntry e).
Proof.
  unfold MemSet. destruct (negb _); simpl.
  - intros [_ ?]%lookup_delete_Some. by left.
  - rewrite lookup_insert_Some. naive_solver.
Qed.

(** Writing one automatic drain where none is live in its pool and fewer than
    five are live at all. *)
Lemma capped_set s s' e :
  capped s -> engine s' = engine s ->
  size (autosIn (ServiceID (EKey e)) (RPCType (EKey e)) (world s)) = 0%nat ->
  (size (autos (world s)) <= 4)%nat -> ServiceID (EKey e) ∈ services (engine s) ->
  world s' = (MemSet (world s).1 e (world s).2, adv (world s).2) -> capped s'.
Proof.
  intros [C1 C2 C3 C4] E H0 H4 Hsv Hw. set (k := lowerKey (EKey e)).
  assert (forall k' x, autos (world s') !! k' = Some x -> k' = k \/ autos (world s) !! k' = Some x) as Hsub.
  { intros k' x Hx. apply map_lookup_filter_Some in Hx as [Hx [Ha Hu]]. rewrite Hw in Hx, Hu. simpl in *.
    apply memset_lookup in Hx as [Hx|[-> _]]; [right|by left]. apply map_lookup_filter_Some.
    split; [done|]. simpl. pose proof (adv_le (world s).2). split; [done|lia]. }
  split.
  - intros sv r.
    destruct (decide (sv = ServiceID (EKey e) /\ r = RPCType (EKey e))) as [[-> ->]|Hne].
    + pose proof (size_one_more (autosIn (ServiceID (EKey e)) (RPCType (EKey e)) (world s))
        (autosIn (ServiceID (EKey e)) (RPCType (EKey e)) (world s')) k) as Hm.
      rewrite H0 in Hm. apply Hm. unfold autosIn, autosOf. intros k' x Hx.
      apply map_lookup_filter_Some in Hx as [Hx Hr]. apply map_lookup_filter_Some in Hx as [Hx Hs].
      destruct (Hsub k' x Hx); [by left|right]. by apply map_lookup_filter_Some_2; [apply map_lookup_filter_Some_2|].
    + etrans; [|apply (C1 sv r)]. apply map_subseteq_size, map_subseteq_spec. intros k' x Hx.
      apply map_lookup_filter_Some in Hx as [Hx Hr]. apply map_lookup_filter_Some in Hx as [Hx Hs].
      apply map_lookup_filter_Some_2; [apply map_lookup_filter_Some_2|done]; [|done].
      destruct (Hsub k' x Hx) as [->|?]; [|done]. simpl in *. by destruct Hne.
  - etrans; [by apply (size_one_more (autos (world s)) _ k)|lia].
  - intros k' x Hx. rewrite Hw in Hx. simpl in Hx.
    apply memset_lookup in Hx as [Hx|[-> ->]]; [by apply C3|done].
  - intros k' x Hx Ha. rewrite E. rewrite Hw in Hx. simpl in Hx.
    apply memset_lookup in Hx as [Hx|[-> ->]]; [by eapply C4|done].
Qed.

Lemma decide_capped k now act ev s :
  lawful orders -> capped s -> ServiceID k ∈ services (engine s) ->
  wp (decide_ EffectiveTLDPlusOne orders memDeps k now act ev) (λ _, capped) s.
Proof.
  intros Ho Hc Hk. unfold decide_. apply wp_bind. eapply wp_moves; [apply aged_find|].
  intros en s1 A1. pose proof (capped_aged _ _ A1 Hc) as Hc1.
  destruct (aged_engine _ _ A1) as [E1 _]. destruct en as [en|]; [done|]. cbv zeta.
  destruct (evidenceGate _); [done|]. apply wp_bind.
  eapply wp_moves; [intros ?; apply ask_aged; reflexivity|]. intros l s2 A2. wp_pure.
  pose proof (capped_aged _ _ A2 Hc1) as Hc2. destruct (aged_engine _ _ A2) as [E2 _].
  apply wp_bind. eapply wp_moves; [apply aged_alternative|]. intros alt s3 A3.
  pose proof (capped_aged _ _ A3 Hc2) as Hc3. destruct (aged_engine _ _ A3) as [E3 _].
  case_bool_decide; [done|]. unfold decideLive. wp_pure. destruct (isSuppressed _ _ _); [done|].
  apply wp_bind. eapply wp_mono; [|by apply liveAuto_spec]. intros n s4 [A4 Hn].
  pose proof (capped_aged _ _ A4 Hc3) as Hc4. destruct (aged_engine _ _ A4) as [E4 _].
  apply wp_bind. case_bool_decide as Hpool; [done|].
  eapply wp_mono; [|by apply liveAutoFleet_spec]. intros fl s5 [A5 Hfl].
  pose proof (capped_aged _ _ A5 Hc4) as Hc5. destruct (aged_engine _ _ A5) as [E5 _].
  case_bool_decide as Hfleet; [done|]. destruct (rateLimited _ _ _), act; try done. cbn [negb].
  unfold setDrain. apply wp_bind. unfold wp at 1, ask. simpl. unfold wp; simpl.
  set (e := mkEntry k _ _).
  assert (capped (set_world (MemSet (world s5).1 e (world s5).2, adv (world s5).2) s5)) as Hc6.
  { assert (size (autosIn (ServiceID k) (RPCType k) (world s5)) <=
      size (autosIn (ServiceID k) (RPCType k) (world s4)))%nat as Hle.
    { apply map_subseteq_size, autosIn_mono, (autos_aged _ _ A5). }
    unfold maxLivePool, maxLiveFleet in *.
    apply (capped_set s5 _ e); [done|done|simpl; lia|lia| |done].
    simpl. by rewrite E5, E4, E3, E2, E1. }
  by apply (capped_same _ _ Hc6).
Qed.

Lemma window_services e rt now c :
  lawful orders -> c ∈ window orders e rt now -> ServiceID (key c) ∈ services e.
Proof.
  intros (_ & _ & Hp & _) Hc. unfold window in Hc.
  apply list_elem_of_In, in_flat_map in Hc as ([k p] & Hk & Hc).
  apply list_elem_of_In in Hk, Hc. rewrite Hp in Hk.
  unfold poolCandidates in Hc. destruct (clientShare _ _ _) as [cs cr].
  apply list_elem_of_omap in Hc as ([name oc] & _ & Hc). unfold candidateOf in Hc.
  case_bool_decide; simplify_eq/=. unfold services.
  apply elem_of_list_to_set, list_elem_of_fmap. exists k. split; [done|].
  apply list_elem_of_fmap. by exists (k, p).
Qed.

Definition steady (S0 : gset string) (s : MSt) : Prop := capped s /\ services (engine s) = S0.

Lemma evaluateOne_capped S0 now c s :
  lawful orders -> steady S0 s -> ServiceID (key c) ∈ S0 ->
  wp (evaluateOne EffectiveTLDPlusOne orders memDeps now c) (λ _, steady S0) s.
Proof.
  intros Ho [Hc HS] Hin.
  eapply wp_mono; [|apply (wp_and _ (λ _, capped));
    [|apply (evaluateOne_decided EffectiveTLDPlusOne orders memDeps now c s)]].
  { intros [] s' [Hc' (act & s1 & Hd & Q)]. split; [done|].
    destruct Q as (_ & _ & _ & _ & _ & Q6 & _). unfold services. rewrite Q6, <- HS. by destruct Hd. }
  unfold evaluateOne. apply wp_bind. eapply wp_moves; [intros ?; apply ask_aged; reflexivity|].
  intros act s1 A1. apply wp_bind. eapply wp_moves; [intros ?; apply ask_aged; reflexivity|].
  intros shadow s2 A2. assert (aged s s2) as A by (by etrans).
  destruct (negb act && negb shadow); [by apply (capped_aged s)|].
  apply wp_bind. eapply (wp_moves aged); [solve_aged|]. intros lv s3 A3.
  assert (aged s s3) as A' by (by etrans). destruct (aged_engine _ _ A') as [E _].
  apply wp_bind. eapply wp_mono; [|apply decide_capped; [done|by apply (capped_aged s)|]].
  - intros [o ev] s4 Hc4. case_bool_decide; [done|]. unfold emit. wp_pure.
    destruct (match lastEmit _ !! _ with Some _ => _ | None => _ end); [done|].
    by apply (capped_same s4).
  - by rewrite E, HS.
Qed.

Lemma reconcile_capped S0 now s :
  steady S0 s -> wp (reconcile orders memDeps now) (λ _, steady S0) s.
Proof.
  intros Hs. unfold reconcile. wp_pure. apply wp_bind.
  eapply wp_mono; [|apply (wp_forEach _ _ (steady S0)); [done|]].
  { intros [] s1 [H1 H2]. wp_pure. unfold wp; simpl. split; [|done]. by apply (capped_same s1). }
  intros [k until] s1 _ [H1 H2]. simpl.
  assert (forall s s', steady S0 s -> world s' = world s -> pools (engine s') = pools (engine s) ->
    steady S0 s') as Hst.
  { intros s2 s3 [H3 H4] E1 E2. assert (services (engine s3) = services (engine s2)) as E
      by (unfold services; by rewrite E2).
    split; [apply (capped_same s2); [done..|by rewrite E]|congruence]. }
  destruct (negb _); [by apply (Hst s1)|]. apply wp_bind.
  eapply wp_moves; [apply aged_find|]. intros en s2 A. destruct (aged_engine _ _ A) as [E _].
  assert (steady S0 s2) as Hs2 by (split; [by apply (capped_aged s1)|by rewrite E]).
  destruct en as [en|]; [destruct (negb _); [by apply (Hst s2)|done]|].
  wp_pure. by apply (Hst s2).
Qed.

Lemma tick_capped leader now s :
  lawful orders -> capped s ->
  wp (Evaluate EffectiveTLDPlusOne orders memDeps leader now) (λ _, capped) s.
Proof.
  intros Ho Hc. unfold Evaluate. wp_pure. destruct leader; simpl; [|by apply (capped_same s)].
  apply wp_bind. set (s0 := set_engine _ s).
  eapply wp_mono; [|apply (reconcile_capped (services (engine s)))]; [|by split; [apply (capped_same s)|]].
  intros [] s1 H1. apply wp_bind. eapply wp_moves; [intros ?; apply ask_aged; reflexivity|].
  intros rt s2 A. destruct (aged_engine _ _ A) as [E _]. wp_pure.
  eapply wp_mono; [|apply (wp_forEach _ _ (steady (services (engine s))))]; [by intros [] ? [? _]| |].
  - destruct H1 as [H1 H2]. split; [by apply (capped_aged s1)|by rewrite E].
  - intros c s3 Hin H3. apply evaluateOne_capped; [done..|]. apply window_services in Hin; [|done].
    destruct H1 as [_ H2]. by rewrite E, H2 in Hin.
Qed.

(** What a person does to the store: sets a drain with a reason of their own,
    or releases one; and time goes by. *)
Definition person (f : World -> World) : Prop :=
  (exists e, isAuto e = false /\ forall w, f w = (MemSet w.1 e w.2, w.2)) \/
  (exists k, forall w, f w = (MemRelease w.1 k w.2, w.2)) \/
  (exists dt, 0 <= dt /\ forall w, f w = (w.1, w.2 + dt)).

Lemma services_insert (e : Engine) p cl k x :
  p = <[k := x]> (pools e) -> services e ⊆ services (set_pools e p cl).
Proof.
  intros ->. unfold services. simpl. intros sv.
  rewrite !elem_of_list_to_set, !list_elem_of_fmap. setoid_rewrite list_elem_of_fmap.
  intros (k' & -> & [k2 y] & -> & Hy%elem_of_map_to_list).
  destruct (decide (k = k2)) as [->|Hne].
  - exists k2. split; [done|]. exists (k2, x). split; [done|].
    by apply elem_of_map_to_list, lookup_insert_eq.
  - exists k2. split; [done|]. exists (k2, y). split; [done|].
    apply elem_of_map_to_list. by rewrite lookup_insert_ne.
Qed.

Lemma step_capped s o :
  lawful orders -> (forall f, o = Others f -> person f) -> capped s ->
  capped (step EffectiveTLDPlusOne orders memDeps s o).
Proof.
  intros Ho Hp Hc. destruct o; simpl.
  - apply (capped_same s); [done..|]. simpl. unfold OnCollapse, inSlot. destruct (_ || _); [done|].
    by eapply services_insert.
  - apply (capped_same s); [done..|]. simpl. unfold OnSignal, inSlot. destruct (_ || _); [done|].
    by eapply services_insert.
  - apply (capped_same s); [done..|]. simpl. unfold OnAttempt, inSlot. destruct (_ || _); [done|].
    by eapply services_insert.
  - apply (capped_same s); [done..|]. simpl. unfold OnClientResult. destruct (_ || _); [done|].
    by destruct (clients _ !! _).
  - by apply (capped_same s).
  - by apply (tick_capped leader now s).
  - destruct (Hp f eq_refl) as [(e & Ha & Hf)|[(k & Hf)|(dt & Hdt & Hf)]];
      apply (capped_shrink s); simpl; rewrite ?Hf; simpl; try done; try lia.
    + intros k x Hx. apply memset_lookup in Hx as [?|[-> ->]]; [by left|by right].
    + intros k' x [_ Hx]%lookup_delete_Some. by left.
    + intros k x Hx. by left.
Qed.

(** C33. Over the in-memory store, whatever the traffic and whatever people set
    and release: at most one automatic drain is live per service and RPC type,
    and at most five in all. *)
Theorem auto_drains_are_capped leader t0 os :
  lawful orders -> (forall f, Others f ∈ os -> person f) ->
  let w := world (run EffectiveTLDPlusOne orders memDeps (mkSt (New leader) (NewMemoryStore, t0) [] []) os) in
  (forall sv r, (length (filter (λ en, RPCType (EKey en) = r /\ isAuto en = true)
     (Drain.Active w.1 sv w.2)) <= 1)%nat) /\
  (size (filter (λ p : Key * Entry, isAuto p.2 = true /\ (w.2 < Until p.2)%Z) (entries w.1)) <= 5)%nat.
Proof.
  intros Ho Hp.
  assert (forall s, capped s -> capped (run EffectiveTLDPlusOne orders memDeps s os)) as Hrun.
  { induction os as [|o os IH]; intros s Hs; simpl; [done|]. apply IH.
    - intros f Hf. apply Hp. by right.
    - apply step_capped; [done| |done]. intros f ->. apply Hp. by left. }
  destruct (Hrun (mkSt (New leader) (NewMemoryStore, t0) [] [])) as [C1 C2 C3 C4].
  { assert (autos (NewMemoryStore, t0) = ∅) as He by apply map_filter_empty.
    split; simpl; try done; [intros sv r; unfold autosIn, autosOf; rewrite He, !map_filter_empty|
      rewrite He]; rewrite map_size_empty; lia. }
  split; [|exact C2]. intros sv r. destruct (active_autos sv _ C3) as [_ ->]. apply C1.
Qed.
End Memory.

(** ** [autodrain/events.go]: the log without Redis *)
Definition maxEvents : nat := 1000.
Definition Append (events : list Event) (ev : Event) : list Event :=
  let events := events ++ [ev] in drop (length events - maxEvents) events.
Definition Recent (events : list Event) (service : string) (limit : nat) : list Event :=
  take limit (filter (λ ev, service = "" \/ EServiceID ev = service) (rev events)).

(** ** A pool with one operator that answers nothing *)
Definition demoOrders : Orders := mkOrders map_to_list map_to_list map_to_list map_to_list elements.
Lemma demo_lawful : lawful demoOrders.
Proof. by split_and!. Qed.

Definition demoEps : EndpointAddrList := ["s1-https://bad.net"; "s2-https://good.net"].
Definition demoDeps : @Deps (MemoryStore * Z) :=
  memDeps (λ t, t) (λ _ _ _, demoEps) (λ _ _ _ _, true) (λ _ f _, bool_decide (f = FeatureFlag.FlagAutoDrain))
    (λ _, None) (λ _, emptyOwners) (λ _, " demo") 0.
Definition demoPSL : string -> option string := λ h, Some h.
Definition demoKey : Key := mkKey "eth" "bad.net" "json_rpc".
Definition demoStart : @St (MemoryStore * Z) := mkSt (New true) (NewMemoryStore, 0) [] [].

Definition demoTraffic : list (@op (MemoryStore * Z)) :=
  concat (repeat [Collapsed "eth" "json_rpc" ["s1-https://bad.net"] 1;
                  Attempted "eth" "json_rpc" "s1-https://bad.net" "supplier" "first" "eth_call" false 1;
                  Answered "eth" 500 "supplier" 1] 60).
Definition demoHistory : list (@op (MemoryStore * Z)) :=
  demoTraffic ++ [Tick true minute; Tick true (2 * minute)].
Definition demoRun (os : list op) : @St (MemoryStore * Z) := run demoPSL demoOrders demoDeps demoStart os.


Lemma released_drain_stays_released_witness :
  exists new, sets (run demoPSL demoOrders demoDeps
      (mkSt (upd_live (insert demoKey hour) (New true)) (NewMemoryStore, 0) [] [])
      (Tick true 0 :: demoTraffic ++ [Tick true minute])) = [] ++ new /\ forall p, p ∈ new -> p.2 <> demoKey.
Proof.
  apply (released_drain_stays_released demoPSL demoOrders demoDeps (λ w, w.1 = NewMemoryStore)
    (mkSt (upd_live (insert demoKey hour) (New true)) (NewMemoryStore, 0) [] []) demoKey hour 0).
  - apply demo_lawful.
  - by intros [m t] sv Hm.
  - intros [m t] Hm. simpl in Hm. by subst m.
  - done.
  - vm_compute. reflexivity.
  - by vm_compute.
  - intros b t Ht. apply (list_elem_of_In) in Ht.
    assert (forallb (λ o, match o with Tick _ t => bool_decide (t < suppressFor) | _ => true end)
      (demoTraffic ++ [Tick true minute]) = true) as Hall by (vm_compute; reflexivity).
    rewrite forallb_forall in Hall. specialize (Hall _ Ht). simpl in Hall.
    by apply bool_decide_eq_true in Hall.
Defined.

Lemma window_counts_last_ten_minutes_witness :
  attempts (default noOp (sumOps (poolOf (demoRun demoTraffic) (mkPool "eth" "json_rpc"))
    (oldestMinute minute) !! "bad.net")) = 60.
Proof.
  unfold demoRun, demoStart.
  rewrite (window_counts_last_ten_minutes demoPSL demoOrders demoDeps (NewMemoryStore, 0) demoTraffic
    minute (mkPool "eth" "json_rpc") "bad.net" attempts).
  - vm_compute. reflexivity.
  - unfold counters. right. by left.
  - vm_compute. repeat split; intros; discriminate.
  - intros o Ho%list_elem_of_In.
    assert (forallb (λ o, bool_decide (opTime o <= minute)) demoTraffic = true) as Hall
      by (vm_compute; reflexivity).
    rewrite forallb_forall in Hall. specialize (Hall o Ho). by apply bool_decide_eq_true in Hall.
  - by vm_compute.
Defined.

Lemma auto_drains_are_capped_witness :
  let w := world (demoRun demoHistory) in
  length (Drain.Active w.1 "eth" w.2) = 1%nat /\
  (length (filter (λ en, RPCType (EKey en) = "json_rpc" /\ isAuto en = true)
     (Drain.Active w.1 "eth" w.2)) <= 1)%nat.
Proof.
  split; [vm_compute; reflexivity|].
  assert (forall f, Others f ∈ demoHistory -> person f) as Hp.
  { intros f Hf%list_elem_of_In. exfalso.
    assert (forallb (λ o, match o with Others _ => false | _ => true end) demoHistory = true) as Hall
      by (vm_compute; reflexivity).
    rewrite forallb_forall in Hall. by specialize (Hall _ Hf). }
  exact (proj1 (auto_drains_are_capped demoPSL demoOrders (λ t, t) (λ t, Z.le_refl t)
    (λ _ _ _, demoEps) (λ _ _ _ _, true) (λ _ f _, bool_decide (f = FeatureFlag.FlagAutoDrain)) (λ _, None)
    (λ _, emptyOwners) (λ _, " demo") 0 true 0 demoHistory demo_lawful Hp) "eth" "json_rpc").
Defined.
End AutoDrain.
