(* ===== verification/Blocklist.v ===== *)
(** * Blocklist: banned domains

    Models [protocol/shannon/domain_blocklist.go], the compiled ban consulted
    wherever endpoints are handed out, and [blocklist/store.go],
    [blocklist/memory.go], [blocklist/redis.go], the manager that owns the
    union of the configured bans and the ones set through the admin API and
    hands it to the protocol, with [ParseRPCType] of [domain/rpctype.go].

    The public-suffix list and the JSON encoding of an entry are parameters.
    The environment variable [SAGE_BLOCKED_DOMAINS] does not change while the
    process runs and is a parameter of the compiler.  The manager's critical
    sections are [setLocal], [releaseLocal], [SetBlockedDomains] and
    [reloadLocal]; the backend is called outside them. *)

From Stdlib Require Import Ascii.
From stdpp Require Import sorting.
From S2P Require Import Prelude Domain Text StateM.
Import GoStrings GoText.

Module Blocklist.

(** ** [domain/rpctype.go] *)
Definition RPCTypeJSONRPC : string := "json_rpc".
Definition RPCTypeREST : string := "rest".
Definition RPCTypeCometBFT : string := "comet_bft".
Definition RPCTypeWebSocket : string := "websocket".
Definition RPCTypeGRPC : string := "grpc".
Definition AllRPCTypes : list string :=
  [RPCTypeJSONRPC; RPCTypeREST; RPCTypeCometBFT; RPCTypeWebSocket; RPCTypeGRPC].
Definition ParseRPCType (s : string) : option string := List.find (EqualFold s) AllRPCTypes.

(** ** The compiled ban: [protocol/shannon/domain_blocklist.go] *)
Record BlockedDomain := mkBD { Domain : string; RPCTypes : list string }.

Inductive compileError := EmptyDomain | UnknownRPCType (host t : string).

(** A nil set bans every type. *)
#[local] Abbreviation banMap := (gmap string (option (gset string))).
Record domainBlocklist := mkBL { blocked : banMap; cache : gmap string string; cacheCount : Z }.

Definition maxBlocklistCacheEntries : Z := 65536.

Fixpoint addTypes (host : string) (set : gset string) (ts : list string)
    : compileError + gset string :=
  match ts with
  | [] => inr set
  | t :: ts =>
      match ParseRPCType (TrimSpace t) with
      | None => inl (UnknownRPCType host t)
      | Some rpcType => addTypes host ({[rpcType]} ∪ set) ts
      end
  end.

(** One turn of the loop over the entries. *)
Definition addEntry (m : banMap) (e : BlockedDomain) : compileError + banMap :=
  let host := normal (Domain e) in
  if bool_decide (host = "") then inl EmptyDomain
  else match RPCTypes e, m !! host with
       | [], _ => inr (<[host := None]> m)
       | _, Some None => inr m
       | ts, existing =>
           match addTypes host (default ∅ (existing ≫= id)) ts with
           | inl err => inl err
           | inr set => inr (<[host := Some set]> m)
           end
       end.

Fixpoint compile (m : banMap) (es : list BlockedDomain) : compileError + banMap :=
  match es with
  | [] => inr m
  | e :: es => match addEntry m e with inl err => inl err | inr m => compile m es end
  end.

(** One comma-separated piece of the variable; [None] is the [continue]. *)
Definition envEntry (piece : string) : option BlockedDomain :=
  let piece := TrimSpace piece in
  if bool_decide (piece = "") then None
  else
    let '(host, typesStr, hasTypes) := Cut piece ":" in
    Some (mkBD (TrimSpace host)
      (if (hasTypes : bool)
       then filter (λ t, t <> "") (TrimSpace <$> Split "|"%char typesStr) else [])).

Definition parseBlockedDomainsEnv (raw : string) : list BlockedDomain :=
  let raw := TrimSpace raw in
  if bool_decide (raw = "") then [] else omap envEntry (Split ","%char raw).

Section Compiled.
Context (EffectiveTLDPlusOne : string -> option string).
Context (env : string).

Definition newDomainBlocklist (entries : list BlockedDomain)
    : compileError + option domainBlocklist :=
  let entries := entries ++ parseBlockedDomainsEnv env in
  match entries with
  | [] => inr None
  | _ => match compile ∅ entries with
         | inl err => inl err
         | inr m => inr (Some (mkBL m ∅ 0))
         end
  end.

Definition ValidateBlockedDomains (entries : list BlockedDomain) : option compileError :=
  match newDomainBlocklist entries with inl err => Some err | inr _ => None end.

Definition computeMatchKey (b : domainBlocklist) (rawURL : string) : string :=
  let addr := "-" +:+ rawURL in
  let host := ToLower (Domain.Domain addr) in
  if bool_decide (host = "") then ""
  else if bool_decide (is_Some (blocked b !! host)) then host
  else
    let operator := ToLower (Domain.Operator EffectiveTLDPlusOne addr) in
    if negb (bool_decide (operator = host)) && bool_decide (is_Some (blocked b !! operator))
    then operator else "".

Definition matchKey (b : domainBlocklist) (rawURL : string) : domainBlocklist * string :=
  match cache b !! rawURL with
  | Some v => (b, v)
  | None =>
      let key := computeMatchKey b rawURL in
      (if bool_decide (cacheCount b < maxBlocklistCacheEntries)
       then mkBL (blocked b) (<[rawURL := key]> (cache b)) (cacheCount b + 1) else b, key)
  end.

(** The set under a key, and whether it bans the type. *)
Definition bans (b : domainBlocklist) (key rpcType : string) : bool :=
  match blocked b !! key with
  | None | Some None => true
  | Some (Some set) => bool_decide (rpcType ∈ set)
  end.

Definition IsBlockedEndpoint (b : option domainBlocklist) (rawURL owner rpcType : string)
    : option domainBlocklist * bool :=
  match b with
  | None => (None, false)
  | Some b =>
      let key := if negb (bool_decide (owner = "")) && bool_decide (is_Some (blocked b !! owner))
                 then owner else "" in
      let '(b, key) := if bool_decide (key = "") && negb (bool_decide (rawURL = ""))
                       then matchKey b rawURL else (b, key) in
      (Some b, if bool_decide (key = "") then false else bans b key rpcType)
  end.

(** ** The manager: [blocklist/store.go] *)
Record Entry := mkEntry { EDomain : string; ETypes : list string; Reason : string; Since : Z }.

Inductive error := ErrDomainRequired | ErrCompile (e : compileError) | ErrNotFound
                 | ErrPropagation | ErrLoad.

Record Manager := mkManager { base : list BlockedDomain; entries : gmap string Entry }.

(** The manager and the list installed in the protocol, which
    [Protocol.SetBlockedDomains] swaps. *)
Record Local := mkLocal { manager : Manager; installed : option domainBlocklist }.

Definition entriesLocked (m : Manager) : list Entry :=
  merge_sort (λ a b, String.le (EDomain a) (EDomain b)) ((map_to_list (entries m)).*2).
Definition toBlocked (e : Entry) : BlockedDomain := mkBD (EDomain e) (ETypes e).
Definition union (m : Manager) : list BlockedDomain := base m ++ (toBlocked <$> entriesLocked m).

(** [applyLocked] over [Protocol.SetBlockedDomains]: the new list, or the
    error with the old one left installed. *)
Definition applyLocked (m : Manager) (old : option domainBlocklist)
    : option compileError * option domainBlocklist :=
  match newDomainBlocklist (union m) with
  | inl err => (Some err, old)
  | inr next => (None, next)
  end.

(** A critical section that changes the manager, applies and rolls back. *)
Definition tryApply (l : Local) (m : Manager) : option error * Local :=
  match applyLocked m (installed l) with
  | (Some err, old) => (Some (ErrCompile err), mkLocal (manager l) old)
  | (None, next) => (None, mkLocal m next)
  end.

Definition New (b : list BlockedDomain) (p : option domainBlocklist) : Local :=
  mkLocal (mkManager b ∅) p.

Definition SetBlockedDomains (b : list BlockedDomain) (l : Local) : option error * Local :=
  tryApply l (mkManager b (entries (manager l))).

(** What [Set] makes of the entry before it takes the lock. *)
Definition cleanEntry (e : Entry) (now : Z) : Entry :=
  mkEntry (normal (EDomain e)) (normal <$> ETypes e) (Reason e)
    (if GoTime.IsZero (Since e) then now else Since e).

Definition setLocal (e : Entry) (l : Local) : option error * Local :=
  let m := manager l in
  tryApply l (mkManager (base m) (<[EDomain e := e]> (entries m))).

Definition releaseLocal (domain : string) (l : Local) : option error * Local :=
  let m := manager l in
  match entries m !! domain with
  | None => (Some ErrNotFound, l)
  | Some _ => tryApply l (mkManager (base m) (delete domain (entries m)))
  end.

(** The map [reload] builds from what the backend holds, later entries of one
    domain over earlier ones. *)
Definition indexEntries (loaded : list Entry) : gmap string Entry :=
  foldl (λ next e,
    let e := mkEntry (normal (EDomain e)) (ETypes e) (Reason e) (Since e) in
    if bool_decide (EDomain e = "") then next else <[EDomain e := e]> next) ∅ loaded.

Definition sameEntry (a b : Entry) : bool :=
  bool_decide (Reason a = Reason b) && bool_decide (Since a = Since b) &&
  bool_decide (ETypes a = ETypes b).
Definition sameEntries (a b : gmap string Entry) : bool :=
  bool_decide (size a = size b) &&
  forallb (λ p : string * Entry, match b !! p.1 with Some eb => sameEntry p.2 eb | None => false end)
    (map_to_list a).

Definition reloadLocal (loaded : list Entry) (l : Local) : option error * Local :=
  let m := manager l in
  let next := indexEntries loaded in
  if sameEntries (entries m) next then (None, l) else tryApply l (mkManager (base m) next).

(** *** The whole calls, over a backend *)
Section Calls.
Context {W : Type}.
(** [Backend]: whether the write succeeded; the entries, or a read error. *)
Context (Save : Entry -> StateM.M W bool) (Delete : string -> StateM.M W bool)
        (Load : StateM.M W (option (list Entry))).

Definition Sys : Type := Local * W.
#[local] Abbreviation M := (StateM.M Sys).
Definition locally {A} (f : Local -> A * Local) : M A := λ s,
  let '(a, l) := f s.1 in (a, (l, s.2)).
Definition backend {A} (f : StateM.M W A) : M A := λ s,
  let '(a, w) := f s.2 in (a, (s.1, w)).

Definition Set_ (e : Entry) (now : Z) : M (option error) :=
  let e := cleanEntry e now in
  if bool_decide (EDomain e = "") then mret (Some ErrDomainRequired)
  else
    err ← locally (setLocal e);
    match err with
    | Some _ => mret err
    | None => ok ← backend (Save e);
              mret (if (ok : bool) then None else Some ErrPropagation)
    end.

Definition Release (domain : string) : M (option error) :=
  let domain := normal domain in
  err ← locally (releaseLocal domain);
  match err with
  | Some _ => mret err
  | None => ok ← backend (Delete domain);
            mret (if (ok : bool) then None else Some ErrPropagation)
  end.

Definition reload : M (option error) :=
  loaded ← backend Load;
  match loaded with
  | None => mret (Some ErrLoad)
  | Some loaded => locally (reloadLocal loaded)
  end.
End Calls.
End Compiled.

(** ** The backends *)
Definition memSave (e : Entry) : StateM.M (gmap string Entry) bool :=
  λ m, (true, <[EDomain e := e]> m).
Definition memDelete (d : string) : StateM.M (gmap string Entry) bool := λ m, (true, delete d m).
(** [maps.Values] in an order the runtime picks. *)
Definition memLoad (order : gmap string Entry -> list Entry)
    : StateM.M (gmap string Entry) (option (list Entry)) := λ m, (Some (order m), m).

(** The hash at Redis and the commands' results: a failed command may or may
    not have taken effect, which [fate] decides. *)
Record server := mkServer { hash : gmap string string; up : bool; fate : bool }.
Section Backend.
Context (Marshal : Entry -> option string) (Unmarshal : string -> option Entry).

Definition redisWrite (s : server) (h : gmap string string) : bool * server :=
  (up s, if up s || fate s then mkServer h (up s) (fate s) else s).
Definition redisSave (e : Entry) : StateM.M server bool := λ s,
  match Marshal e with
  | None => (false, s)
  | Some raw => redisWrite s (<[EDomain e := raw]> (hash s))
  end.
Definition redisDelete (d : string) : StateM.M server bool := λ s, redisWrite s (delete d (hash s)).

(** What [Load] makes of one field; [None] is the [continue]. *)
Definition decode (field raw : string) : option Entry :=
  match Unmarshal raw with
  | None => None
  | Some e => Some (if bool_decide (EDomain e = "")
                    then mkEntry field (ETypes e) (Reason e) (Since e) else e)
  end.
(** The fields come in an order the runtime picks. *)
Definition redisLoad (order : gmap string string -> list (string * string))
    : StateM.M server (option (list Entry)) := λ s,
  (if up s then Some (omap (λ p, decode p.1 p.2) (order (hash s))) else None, s).
End Backend.

(** ** What a list of entries bans

    The reference the compiled form is compared with: the entries themselves.
    An entry names a key, and bans a type there if it lists no type or one
    that reads as it. *)
Definition names (k : string) (e : BlockedDomain) : bool := bool_decide (normal (Domain e) = k).
Definition covers (t : string) (e : BlockedDomain) : bool :=
  match RPCTypes e with
  | [] => true
  | ts => existsb (λ s, bool_decide (ParseRPCType (TrimSpace s) = Some t)) ts
  end.
Definition entryBans (k t : string) (e : BlockedDomain) : bool := names k e && covers t e.

(** [holds m k t]: the compiled map bans [t] under [k]. *)
Definition holds (m : banMap) (k t : string) : bool :=
  match m !! k with
  | None => false
  | Some None => true
  | Some (Some set) => bool_decide (t ∈ set)
  end.

Lemma addTypes_spec host set ts set' t :
  addTypes host set ts = inr set' ->
  bool_decide (t ∈ set') =
  bool_decide (t ∈ set) || existsb (λ s, bool_decide (ParseRPCType (TrimSpace s) = Some t)) ts.
Proof.
  revert set. induction ts as [|s ts IH]; intros set; simpl.
  { intros [= <-]. by rewrite orb_false_r. }
  destruct (ParseRPCType (TrimSpace s)) as [r|] eqn:Hr; [|done]. intros H. rewrite (IH _ H).
  rewrite orb_assoc. f_equal.
  rewrite <- bool_decide_or. apply bool_decide_ext. set_solver.
Qed.

Lemma addEntry_spec m e m' k t :
  addEntry m e = inr m' ->
  bool_decide (is_Some (m' !! k)) = bool_decide (is_Some (m !! k)) || names k e /\
  holds m' k t = holds m k t || entryBans k t e.
Proof.
  unfold addEntry, names, entryBans, names, covers, holds. case_bool_decide as Hh; [done|].
  set (host := normal (Domain e)) in *.
  destruct (decide (host = k)) as [<-|Hne].
  - rewrite (bool_decide_eq_true_2 (host = host)) by done. simpl. rewrite orb_true_r.
    destruct (RPCTypes e) as [|s ts] eqn:Hts.
    + intros [= <-]. rewrite lookup_insert_eq. by rewrite orb_true_r.
    + destruct (m !! host) as [[set|]|] eqn:Hm; [| |].
      * case_match eqn:Ha; [done|]. intros [= <-].
        rewrite lookup_insert_eq. split; [done|]. by rewrite (addTypes_spec host set (s :: ts) _ t Ha).
      * intros [= <-]. by rewrite Hm.
      * case_match eqn:Ha; [done|]. intros [= <-].
        rewrite lookup_insert_eq. split; [done|]. rewrite (addTypes_spec host ∅ (s :: ts) _ t Ha).
        by rewrite bool_decide_eq_false_2 by set_solver.
  - rewrite (bool_decide_eq_false_2 (host = k)) by done. simpl. rewrite !orb_false_r.
    assert (forall v, <[host := v]> m !! k = m !! k) as Hi by (intros; by rewrite lookup_insert_ne).
    intros Ha. assert (m' !! k = m !! k) as ->; [|done].
    revert Ha. repeat case_match; intros; simplify_eq; done || apply Hi.
Qed.

Lemma compile_spec es m m' k t :
  compile m es = inr m' ->
  bool_decide (is_Some (m' !! k)) = bool_decide (is_Some (m !! k)) || existsb (names k) es /\
  holds m' k t = holds m k t || existsb (entryBans k t) es.
Proof.
  revert m. induction es as [|e es IH]; intros m; simpl.
  { intros [= <-]. by rewrite !orb_false_r. }
  destruct (addEntry m e) as [|m1] eqn:He; [done|]. intros H.
  destruct (IH _ H) as [-> ->]. destruct (addEntry_spec _ _ _ k t He) as [-> ->].
  by rewrite !orb_assoc.
Qed.

Lemma compile_no_empty_key es m m' :
  compile m es = inr m' -> m !! "" = None -> m' !! "" = None.
Proof.
  revert m. induction es as [|e es IH]; intros m; simpl; [by intros [= <-]|].
  destruct (addEntry m e) as [|m1] eqn:He; [done|]. intros H Hm. apply (IH _ H).
  unfold addEntry in He. case_bool_decide; [done|].
  repeat case_match; simplify_eq; by rewrite ?lookup_insert_ne.
Qed.

Section Ruling.
Context (EffectiveTLDPlusOne : string -> option string) (env : string).

(** The keys that can decide about an endpoint, most specific first. *)
Definition candidates (rawURL owner : string) : list string :=
  let addr := "-" +:+ rawURL in
  let host := ToLower (Domain.Domain addr) in
  filter (λ k, k <> "")
    (owner :: if bool_decide (rawURL = "") || bool_decide (host = "") then []
              else [host; ToLower (Domain.Operator EffectiveTLDPlusOne addr)]).

(** The first candidate any entry names decides. *)
Definition ruling (es : list BlockedDomain) (rawURL owner t : string) : bool :=
  let es := es ++ parseBlockedDomainsEnv env in
  match List.find (λ k, existsb (names k) es) (candidates rawURL owner) with
  | None => false
  | Some k => existsb (entryBans k t) es
  end.

#[local] Abbreviation isBlocked := (IsBlockedEndpoint EffectiveTLDPlusOne).
#[local] Abbreviation all es := (es ++ parseBlockedDomainsEnv env).

(** The installed list serves the entries: its map is what they compile to and
    its cache holds right answers, counted exactly and capped. *)
Record cacheOk (b : domainBlocklist) : Prop := {
  cache_right url v : cache b !! url = Some v -> v = computeMatchKey EffectiveTLDPlusOne b url;
  cache_count : cacheCount b = Z.of_nat (size (cache b));
  cache_cap : cacheCount b <= maxBlocklistCacheEntries
}.
Definition serves (es : list BlockedDomain) (p : option domainBlocklist) : Prop :=
  match p with
  | None => all es = []
  | Some b => compile ∅ (all es) = inr (blocked b) /\ cacheOk b
  end.

Lemma new_serves es p : newDomainBlocklist env es = inr p -> serves es p.
Proof.
  unfold newDomainBlocklist. destruct (all es) as [|e l] eqn:Hes.
  { by intros [= <-]. }
  destruct (compile ∅ (e :: l)) as [|m] eqn:Hm; [done|]. intros [= <-]. simpl. rewrite Hes.
  split; [done|]. split; simpl; [|done|done]. intros url v. by rewrite lookup_empty.
Qed.

Lemma matchKey_ok b url :
  cacheOk b ->
  (matchKey EffectiveTLDPlusOne b url).2 = computeMatchKey EffectiveTLDPlusOne b url /\
  blocked (matchKey EffectiveTLDPlusOne b url).1 = blocked b /\
  cacheOk (matchKey EffectiveTLDPlusOne b url).1.
Proof.
  intros Hok. unfold matchKey. destruct (cache b !! url) as [v|] eqn:Hv; simpl.
  { split_and!; [|done|done]. by apply Hok. }
  split_and!; [done|by case_bool_decide|]. case_bool_decide as Hc; [|done].
  split; simpl; [| |unfold maxBlocklistCacheEntries in *; lia].
  - intros u w. rewrite lookup_insert. case_decide; [naive_solver|]. apply Hok.
  - rewrite map_size_insert_None by done. rewrite (cache_count b Hok). lia.
Qed.

Lemma computeMatchKey_find b url :
  computeMatchKey EffectiveTLDPlusOne b url =
  default "" (List.find (λ k, bool_decide (is_Some (blocked b !! k)))
    (let host := ToLower (Domain.Domain ("-" +:+ url)) in
     if bool_decide (host = "") then []
     else [host; ToLower (Domain.Operator EffectiveTLDPlusOne ("-" +:+ url))])).
Proof.
  unfold computeMatchKey. cbv zeta. set (host := ToLower (Domain.Domain _)).
  set (op := ToLower (Domain.Operator _ _)).
  case_bool_decide as Hh; [done|]. simpl.
  destruct (bool_decide (is_Some (blocked b !! host))) eqn:Hl; [done|].
  destruct (decide (op = host)) as [->|Hne].
  - rewrite (bool_decide_eq_true_2 (host = host)) by done. simpl. by rewrite Hl.
  - rewrite (bool_decide_eq_false_2 (op = host)) by done. simpl.
    by destruct (bool_decide (is_Some (blocked b !! op))).
Qed.

Lemma find_filter_ne {A} (f : A -> bool) (P : A -> Prop) {Hdec : forall x, Decision (P x)} l :
  (forall x, f x = true -> P x) -> List.find f (filter P l) = List.find f l.
Proof.
  intros H. induction l as [|x l IH]; [done|]. rewrite filter_cons. simpl.
  case_decide as HP; simpl; [by rewrite IH|].
  destruct (f x) eqn:Hf; [by specialize (H x Hf)|done].
Qed.

Lemma find_agree {A} (f g : A -> bool) l : (forall x, f x = g x) -> List.find f l = List.find g l.
Proof. intros H. induction l as [|x l IH]; simpl; [done|]. by rewrite H, IH. Qed.

(** Every answer is the ruling on the entries, and asking keeps the list
    serving them. *)
Lemma isBlocked_serves es p url owner t :
  serves es p ->
  serves es (isBlocked p url owner t).1 /\ (isBlocked p url owner t).2 = ruling es url owner t.
Proof.
  unfold ruling. destruct p as [b|]; simpl.
  2:{ intros Hes. rewrite Hes. split; [done|]. simpl.
      induction (candidates url owner); simpl; auto. }
  intros [Hc Hok].
  assert (Hl : forall k, existsb (names k) (all es) = bool_decide (is_Some (blocked b !! k))).
  { intros k. destruct (compile_spec _ _ _ k t Hc) as [-> _]. by rewrite lookup_empty. }
  assert (Hb : forall k, bool_decide (is_Some (blocked b !! k)) = true ->
    bans b k t = existsb (entryBans k t) (all es)).
  { intros k Hk. destruct (compile_spec _ _ _ k t Hc) as [_ Hh]. unfold holds at 2 in Hh.
    rewrite lookup_empty in Hh. simpl in Hh. rewrite <- Hh. unfold bans, holds.
    apply bool_decide_eq_true_1 in Hk as [v ->]. done. }
  assert (He : blocked b !! "" = None) by (apply (compile_no_empty_key _ _ _ Hc); apply lookup_empty).
  assert (Hkey : forall k, bool_decide (is_Some (blocked b !! k)) = true -> k <> "")
    by (intros k Hk ->; apply bool_decide_eq_true_1 in Hk; rewrite He in Hk; by destruct Hk).
  unfold candidates. rewrite (find_agree _ _ _ Hl), find_filter_ne by exact Hkey. simpl.
  destruct (bool_decide (is_Some (blocked b !! owner))) eqn:Ho.
  { rewrite (bool_decide_eq_false_2 (owner = "")) by (by apply Hkey). simpl.
    rewrite (bool_decide_eq_false_2 (owner = "")) by (by apply Hkey). simpl.
    split; [done|]. rewrite (bool_decide_eq_false_2 (owner = "")) by (by apply Hkey). by apply Hb. }
  rewrite andb_false_r. simpl.
  destruct (decide (url = "")) as [->|Hu].
  { by rewrite bool_decide_eq_true_2. }
  rewrite (bool_decide_eq_false_2 (url = "")) by done. simpl.
  destruct (matchKey_ok b url Hok) as (Hm & Hbl & Hok').
  destruct (matchKey EffectiveTLDPlusOne b url) as [b' key]. simpl in *. subst key. rewrite Hbl.
  split; [done|]. rewrite computeMatchKey_find. cbv zeta.
  match goal with |- context [List.find ?f ?l] => destruct (List.find f l) as [k|] eqn:Hf end; [|done].
  apply find_some in Hf as [_ Hk]. simpl. rewrite bool_decide_eq_false_2 by (by apply Hkey).
  unfold bans. rewrite Hbl. by apply Hb.
Qed.

(** ** Histories of the manager *)
Inductive section :=
| SBase (b : list BlockedDomain)
| SSet (e : Entry)
| SRelease (domain : string)
| SReload (loaded : list Entry)
| SAsk (url owner t : string).

Definition runSection (l : Local) (s : section) : option error * Local :=
  match s with
  | SBase b => SetBlockedDomains env b l
  | SSet e => setLocal env e l
  | SRelease d => releaseLocal env d l
  | SReload loaded => reloadLocal env loaded l
  | SAsk url owner t => (None, mkLocal (manager l) (isBlocked (installed l) url owner t).1)
  end.
Definition runSections (l : Local) (ss : list section) : Local :=
  foldl (λ l s, (runSection l s).2) l ss.

Definition localOk (l : Local) : Prop := serves (union (manager l)) (installed l).

Lemma tryApply_spec l m :
  ((tryApply env l m).1 = None /\ manager (tryApply env l m).2 = m /\
   newDomainBlocklist env (union m) = inr (installed (tryApply env l m).2)) \/
  ((exists err, (tryApply env l m).1 = Some (ErrCompile err)) /\ (tryApply env l m).2 = l).
Proof.
  unfold tryApply, applyLocked. destruct (newDomainBlocklist env (union m)) as [err|next] eqn:Hn.
  - right. split; [by exists err|]. by destruct l.
  - by left.
Qed.

(** A critical section either fails and changes nothing, or leaves the
    protocol with the list its union compiles to. *)
Lemma section_spec l s :
  localOk l ->
  localOk (runSection l s).2 /\ (forall err, (runSection l s).1 = Some err -> (runSection l s).2 = l).
Proof.
  intros Hl.
  assert (Htry : forall m, localOk (tryApply env l m).2 /\
    (forall err, (tryApply env l m).1 = Some err -> (tryApply env l m).2 = l)).
  { intros m. destruct (tryApply_spec l m) as [(H1 & H2 & H3)|[[err H1] H2]].
    - split; [unfold localOk; rewrite H2; by apply new_serves|]. by rewrite H1.
    - rewrite H2. done. }
  destruct s as [b|e|d|loaded|url owner t]; simpl.
  - apply Htry.
  - apply Htry.
  - unfold releaseLocal. destruct (entries (manager l) !! d); [apply Htry|done].
  - unfold reloadLocal. case_match; [done|apply Htry].
  - split; [|done]. unfold localOk. simpl. by apply isBlocked_serves.
Qed.

Lemma sections_ok l ss : localOk l -> localOk (runSections l ss).
Proof.
  revert l. induction ss as [|s ss IH]; intros l Hl; [done|]. simpl. apply IH. by apply section_spec.
Qed.

(** An entry of the list is in force under the key it names. *)
Definition inForce (p : option domainBlocklist) (k t : string) : Prop :=
  exists b, p = Some b /\ holds (blocked b) k t = true.

Lemma serves_inForce es p k t :
  serves es p -> existsb (entryBans k t) (all es) = true -> inForce p k t.
Proof.
  destruct p as [b|]; simpl; [|by intros ->].
  intros [Hc _] He. exists b. split; [done|].
  destruct (compile_spec _ _ _ k t Hc) as [_ ->]. rewrite He. apply orb_true_r.
Qed.

Lemma start_ok b0 p ss : newDomainBlocklist env b0 = inr p -> localOk (runSections (New b0 p) ss).
Proof.
  intros Hp. apply sections_ok. unfold localOk, union, entriesLocked. simpl.
  rewrite map_to_list_empty. simpl. rewrite app_nil_r. by apply new_serves.
Qed.


(** ** The whole calls *)
Lemma entriesLocked_elem m k e : entries m !! k = Some e -> e ∈ entriesLocked m.
Proof.
  intros H. unfold entriesLocked. rewrite merge_sort_Permutation.
  apply list_elem_of_fmap. exists (k, e). split; [done|]. by apply elem_of_map_to_list.
Qed.

(** An admin entry is in force as soon as the list that holds it is. *)
Lemma entry_inForce l k e t :
  localOk l -> entries (manager l) !! k = Some e -> normal (EDomain e) = k ->
  covers t (toBlocked e) = true -> inForce (installed l) k t.
Proof.
  intros Hl He Hk Ht. eapply serves_inForce; [apply Hl|].
  unfold union. rewrite !existsb_app, !orb_true_iff. left. right.
  apply existsb_exists. exists (toBlocked e). split.
  - apply list_elem_of_In, list_elem_of_fmap. exists e. split; [done|]. by eapply entriesLocked_elem.
  - unfold entryBans, names. simpl. by rewrite Hk, bool_decide_eq_true_2.
Qed.

Lemma normal_clean e now : normal (EDomain (cleanEntry e now)) = EDomain (cleanEntry e now).
Proof. apply normal_idemp. Qed.

(** The result of a call that took effect on this replica. *)
Definition applied (r : option error) : bool :=
  match r with None | Some ErrPropagation => true | _ => false end.

Section CallFacts.
Context {W : Type} (Save : Entry -> StateM.M W bool) (Delete : string -> StateM.M W bool).

Lemma Set_spec e now l w :
  applied (Set_ env Save e now (l, w)).1 = true ->
  EDomain (cleanEntry e now) <> "" /\
  (Set_ env Save e now (l, w)).2.1 = (setLocal env (cleanEntry e now) l).2 /\
  (setLocal env (cleanEntry e now) l).1 = None /\
  (Set_ env Save e now (l, w)).2.2 = (Save (cleanEntry e now) w).2 /\
  ((Set_ env Save e now (l, w)).1 = None <-> (Save (cleanEntry e now) w).1 = true).
Proof.
  clear Delete.
  unfold Set_, locally, backend, mbind, M_bind, mret, M_ret. cbv zeta.
  case_bool_decide; [done|]. simpl. unfold setLocal.
  destruct (tryApply_spec l (mkManager (base (manager l))
    (<[EDomain (cleanEntry e now) := cleanEntry e now]> (entries (manager l)))))
    as [(H1 & _)|[[err H1] _]];
    destruct (tryApply env l _) as [r l']; simpl in *; subst r; [|done].
  cbn [fst snd]. destruct (Save _ w) as [[] w']; simpl; naive_solver.
Qed.

Lemma Release_spec d l w :
  (Release env Delete d (l, w)).2.1 = (releaseLocal env (normal d) l).2 /\
  ((releaseLocal env (normal d) l).1 = None -> applied (Release env Delete d (l, w)).1 = true) /\
  ((releaseLocal env (normal d) l).1 <> None ->
    (Release env Delete d (l, w)).1 = (releaseLocal env (normal d) l).1) /\
  ((Release env Delete d (l, w)).1 = None ->
    (Delete (normal d) w).1 = true /\ (Release env Delete d (l, w)).2.2 = (Delete (normal d) w).2).
Proof.
  clear Save.
  unfold Release, locally, backend, mbind, M_bind, mret, M_ret. cbv zeta. simpl.
  destruct (releaseLocal env (normal d) l) as [[err|] l']; simpl; [done|].
  by destruct (Delete (normal d) w) as [[] w'].
Qed.

Lemma setLocal_manager e l :
  (setLocal env e l).1 = None ->
  manager (setLocal env e l).2 = mkManager (base (manager l)) (<[EDomain e := e]> (entries (manager l))).
Proof.
  unfold setLocal. intros H. match type of H with (tryApply _ _ ?m).1 = _ =>
    destruct (tryApply_spec l m) as [(_ & Hm & _)|[[? Hx] _]] end; [done|by rewrite Hx in H].
Qed.

(** Taking an entry back to a union that compiled before cannot fail. *)
Lemma releaseLocal_back l l' d e :
  localOk l -> entries (manager l) !! d = None ->
  manager l' = mkManager (base (manager l)) (<[d := e]> (entries (manager l))) ->
  (releaseLocal env d l').1 = None /\ manager (releaseLocal env d l').2 = manager l.
Proof.
  intros Hl Hnone Hm. unfold releaseLocal. rewrite Hm. simpl. rewrite lookup_insert_eq.
  rewrite delete_insert_id by done. replace (mkManager (base (manager l)) (entries (manager l)))
    with (manager l) by (by destruct (manager l)).
  destruct (tryApply_spec l' (manager l)) as [(? & ? & _)|[[err Hx] _]]; [done|].
  exfalso. unfold tryApply, applyLocked, newDomainBlocklist in Hx. unfold localOk, serves in Hl.
  destruct (installed l) as [b|]; [destruct Hl as [Hc _]; rewrite Hc in Hx|rewrite Hl in Hx];
    by repeat case_match.
Qed.

Lemma localOk_ext l l' :
  localOk l -> localOk l' -> manager l' = manager l ->
  forall url owner t, (isBlocked (installed l') url owner t).2 = (isBlocked (installed l) url owner t).2.
Proof.
  intros H H' Hm url owner t.
  rewrite (proj2 (isBlocked_serves _ _ url owner t H)), (proj2 (isBlocked_serves _ _ url owner t H')).
  by rewrite Hm.
Qed.

(** Round trip: a ban set through the admin API on a domain that had none
    is in force on this replica when the call returns, for every type it
    covers, whether or not it reached the backend, and releasing it, under any
    spelling of the domain, always succeeds here and puts every answer back to
    what it was.  A further release finds nothing. *)
Theorem ban_round_trip (b0 : list BlockedDomain) p ss e now w d :
  newDomainBlocklist env b0 = inr p ->
  let l := runSections (New b0 p) ss in
  let s1 := Set_ env Save e now (l, w) in
  let s2 := Release env Delete d s1.2 in
  let s3 := Release env Delete d s2.2 in
  entries (manager l) !! normal d = None -> normal d = normal (EDomain e) -> applied s1.1 = true ->
  (forall t, covers t (toBlocked (cleanEntry e now)) = true -> inForce (installed s1.2.1) (normal d) t) /\
  applied s2.1 = true /\
  (forall url owner t, (isBlocked (installed s2.2.1) url owner t).2 = (isBlocked (installed l) url owner t).2) /\
  s3.1 = Some ErrNotFound.
Proof.
  intros Hp l s1 s2 s3 Hnone Hd Ha.
  assert (Hl : localOk l) by (by apply start_ok).
  destruct (Set_spec e now l w Ha) as (_ & E1 & E2 & _). fold s1 in E1.
  set (e' := cleanEntry e now) in *. pose proof (setLocal_manager e' l E2) as Hm1.
  rewrite <- E1 in Hm1.
  assert (Hok1 : localOk s1.2.1) by (rewrite E1; apply (section_spec l (SSet e')), Hl).
  change (EDomain e') with (normal (EDomain e)) in Hm1. rewrite <- Hd in Hm1.
  destruct (Release_spec d s1.2.1 s1.2.2) as (R1 & R2 & _). rewrite <- surjective_pairing in R1, R2.
  fold s2 in R1, R2.
  assert (Hrel := releaseLocal_back l s1.2.1 (normal d) e' Hl Hnone Hm1).
  destruct Hrel as [Hr Hm2]. rewrite <- R1 in Hm2.
  assert (Hok2 : localOk s2.2.1) by (rewrite R1; apply (section_spec _ (SRelease (normal d))), Hok1).
  split_and!.
  - intros t Ht. eapply (entry_inForce _ _ e'); [done|by rewrite Hm1; apply lookup_insert_eq| |done].
    rewrite Hd. apply normal_clean.
  - by apply R2.
  - by apply localOk_ext.
  - destruct (Release_spec d s2.2.1 s2.2.2) as (_ & _ & R3 & _). rewrite <- surjective_pairing in R3.
    fold s3 in R3. unfold releaseLocal in R3. rewrite Hm2, Hnone in R3. apply R3. discriminate.
Qed.
End CallFacts.

(** ** Propagation through Redis *)
Definition keyed (m : gmap string Entry) : Prop := forall k e, m !! k = Some e -> EDomain e = k.

Lemma sameEntries_eq a b : keyed a -> keyed b -> sameEntries a b = true -> a = b.
Proof.
  unfold sameEntries. intros Ha Hb [Hsz Hall]%andb_true_iff. apply bool_decide_eq_true_1 in Hsz.
  rewrite forallb_forall in Hall.
  assert (Hsub : a ⊆ b).
  { apply map_subseteq_spec. intros k ea Hk.
    specialize (Hall (k, ea)). simpl in Hall.
    destruct (b !! k) as [eb|] eqn:Hkb; [|by discriminate Hall; apply list_elem_of_In, elem_of_map_to_list].
    f_equal. unfold sameEntry in Hall. rewrite !andb_true_iff in Hall.
    destruct Hall as [[H1%bool_decide_eq_true_1 H2%bool_decide_eq_true_1] H3%bool_decide_eq_true_1];
      [by apply list_elem_of_In, elem_of_map_to_list|].
    destruct ea, eb; simpl in *. pose proof (Ha _ _ Hk). pose proof (Hb _ _ Hkb). simpl in *. by subst. }
  by apply map_subseteq_size_eq; [|lia].
Qed.

Definition normalEntry (e : Entry) : Entry :=
  mkEntry (normal (EDomain e)) (ETypes e) (Reason e) (Since e).

Lemma index_snoc l e :
  indexEntries (l ++ [e]) =
  if bool_decide (normal (EDomain e) = "") then indexEntries l
  else <[normal (EDomain e) := normalEntry e]> (indexEntries l).
Proof. unfold indexEntries. by rewrite foldl_app. Qed.

Lemma index_keyed l : keyed (indexEntries l).
Proof.
  induction l as [|e l IH] using rev_ind.
  { intros k e. unfold indexEntries. simpl. by rewrite lookup_empty. }
  rewrite index_snoc. case_bool_decide; [done|]. intros k e'. rewrite lookup_insert.
  case_decide; [intros [= <-]; done|apply IH].
Qed.

(** When the loaded entries agree on a domain, that is what the map holds. *)
Lemma index_lookup l d x :
  d <> "" -> (exists e, e ∈ l /\ normal (EDomain e) = d) ->
  (forall e, e ∈ l -> normal (EDomain e) = d -> normalEntry e = x) ->
  indexEntries l !! d = Some x.
Proof.
  intros Hd. induction l as [|e l IH] using rev_ind; [by intros (e & He%not_elem_of_nil & _)|].
  intros (e1 & He1 & Hn1) Hall. rewrite index_snoc.
  destruct (decide (normal (EDomain e) = d)) as [He|He].
  - rewrite bool_decide_eq_false_2 by congruence. rewrite He, lookup_insert_eq.
    f_equal. apply Hall; [set_solver|done].
  - assert (Hl : indexEntries l !! d = Some x).
    { apply IH; [|set_solver]. exists e1. split; [|done].
      apply elem_of_app in He1 as [?|He1]; [done|]. apply list_elem_of_singleton in He1. congruence. }
    case_bool_decide; [done|]. by rewrite lookup_insert_ne.
Qed.

Lemma index_absent l d :
  (forall e, e ∈ l -> normal (EDomain e) <> d) -> indexEntries l !! d = None.
Proof.
  intros Hall. induction l as [|e l IH] using rev_ind; [apply lookup_empty|].
  rewrite index_snoc. case_bool_decide; [apply IH; set_solver|].
  rewrite lookup_insert_ne by set_solver. apply IH. set_solver.
Qed.

Lemma section_keyed l s : keyed (entries (manager l)) -> keyed (entries (manager (runSection l s).2)).
Proof.
  intros Hk.
  assert (Htry : forall m, keyed (entries m) -> keyed (entries (manager (tryApply env l m).2))).
  { intros m Hm. destruct (tryApply_spec l m) as [(_ & -> & _)|[_ ->]]; done. }
  destruct s as [b|e|d|loaded|]; simpl.
  - by apply Htry.
  - apply Htry. intros k e'. simpl. rewrite lookup_insert. case_decide; [by intros [= <-]|apply Hk].
  - unfold releaseLocal. case_match; [|done]. apply Htry. intros k e'. simpl.
    rewrite lookup_delete_Some. intros [_ ?]. by apply Hk.
  - unfold reloadLocal. case_match; [done|]. apply Htry. apply index_keyed.
  - done.
Qed.
Lemma start_keyed b0 p ss : keyed (entries (manager (runSections (New b0 p) ss))).
Proof.
  unfold runSections. assert (keyed (entries (manager (New b0 p)))) as H
    by (intros k e; simpl; by rewrite lookup_empty).
  revert H. generalize (New b0 p). induction ss as [|s ss IH]; intros l Hl; [done|].
  apply IH. by apply section_keyed.
Qed.

(** After a reload that returns no error the manager holds what was loaded. *)
Lemma reloadLocal_entries l loaded :
  keyed (entries (manager l)) -> (reloadLocal env loaded l).1 = None ->
  entries (manager (reloadLocal env loaded l).2) = indexEntries loaded.
Proof.
  unfold reloadLocal. intros Hk. destruct (sameEntries _ _) eqn:Hs; simpl.
  - intros _. apply sameEntries_eq; [done|apply index_keyed|done].
  - intros H. destruct (tryApply_spec l (mkManager (base (manager l)) (indexEntries loaded)))
      as [(_ & -> & _)|[[? Hx] _]]; [done|by rewrite Hx in H].
Qed.

Section Fleet.
Context (Marshal : Entry -> option string) (Unmarshal : string -> option Entry).
Context (order : gmap string string -> list (string * string)).
#[local] Abbreviation RSet := (Set_ env (redisSave Marshal)).
#[local] Abbreviation RRelease := (Release env redisDelete).
#[local] Abbreviation RReload := (reload env (redisLoad Unmarshal order)).

(** Every field that decodes decodes to an entry of the domain it is named
    after, which is how [Save] writes them. *)
Definition hashOk (h : gmap string string) : Prop :=
  forall f raw e, h !! f = Some raw -> decode Unmarshal f raw = Some e -> normal (EDomain e) = f.

Definition loadedFrom (h : gmap string string) : list Entry :=
  omap (λ p, decode Unmarshal p.1 p.2) (order h).

Context (Horder : forall h, order h ≡ₚ map_to_list h).

Lemma loadedFrom_elem h e :
  e ∈ loadedFrom h <-> exists f raw, h !! f = Some raw /\ decode Unmarshal f raw = Some e.
Proof.
  unfold loadedFrom. rewrite list_elem_of_omap. split.
  - intros ([f raw] & Hin & Hd). rewrite Horder in Hin. apply elem_of_map_to_list in Hin. by exists f, raw.
  - intros (f & raw & Hf & Hd). exists (f, raw). rewrite Horder. by rewrite elem_of_map_to_list.
Qed.

Lemma loaded_lookup h d raw e :
  hashOk h -> d <> "" -> h !! d = Some raw -> decode Unmarshal d raw = Some e ->
  indexEntries (loadedFrom h) !! d = Some (normalEntry e).
Proof.
  intros Hok Hne Hd He. apply index_lookup; [done| |].
  - exists e. split; [apply loadedFrom_elem; by exists d, raw|by eapply Hok].
  - intros e' (f & raw' & Hf & He')%loadedFrom_elem Hn.
    assert (f = d) as -> by (rewrite <- Hn; symmetry; by eapply Hok). congruence.
Qed.

Lemma loaded_absent h d : hashOk h -> h !! d = None -> indexEntries (loadedFrom h) !! d = None.
Proof.
  intros Hok Hd. apply index_absent. intros e (f & raw & Hf & He)%loadedFrom_elem Hn.
  assert (f = d) as -> by (rewrite <- Hn; symmetry; by eapply Hok). congruence.
Qed.

Lemma reload_spec l s :
  keyed (entries (manager l)) -> (RReload (l, s)).1 = None ->
  entries (manager (RReload (l, s)).2.1) = indexEntries (loadedFrom (hash s)) /\
  (localOk l -> localOk (RReload (l, s)).2.1) /\ (RReload (l, s)).2.2 = s.
Proof.
  unfold reload, backend, locally, redisLoad, mbind, M_bind, mret, M_ret. simpl.
  destruct (up s); simpl; [|done]. fold (loadedFrom (hash s)). intros Hk.
  pose proof (reloadLocal_entries l (loadedFrom (hash s)) Hk) as He.
  pose proof (section_spec l (SReload (loadedFrom (hash s)))) as Hs. simpl in Hs.
  destruct (reloadLocal env _ l) as [r l']. simpl in *. intros ->. split_and!; [auto| |done].
  intros Hl. by apply Hs.
Qed.

Lemma saved e s :
  (redisSave Marshal e s).1 = true ->
  exists raw, Marshal e = Some raw /\ hash (redisSave Marshal e s).2 = <[EDomain e := raw]> (hash s).
Proof.
  unfold redisSave. destruct (Marshal e) as [raw|]; [|done]. unfold redisWrite. simpl.
  intros ->. by exists raw.
Qed.

Lemma hashOk_insert h d raw e :
  hashOk h -> decode Unmarshal d raw = Some e -> normal (EDomain e) = d -> hashOk (<[d := raw]> h).
Proof.
  intros Hok Hd Hn f raw' e' Hf He. rewrite lookup_insert in Hf. case_decide; [|by eapply Hok].
  simplify_eq. congruence.
Qed.

Lemma normalEntry_clean e now : normalEntry (cleanEntry e now) = cleanEntry e now.
Proof. unfold normalEntry, cleanEntry. simpl. by rewrite normal_idemp. Qed.

(** Propagation: a ban the admin API reports as set is found by every
    replica whose next poll succeeds, as the entry the first replica stored,
    and is in force there for every type it covers; a ban reported as released
    is gone from it.  This holds in whatever state the replicas are, for every
    order in which the fields of the hash are read, if the entry survives its
    JSON encoding. *)
Theorem bans_reach_every_replica lA bB pB ssB (srv : server) e now :
  let lB := runSections (New bB pB) ssB in
  let e' := cleanEntry e now in
  newDomainBlocklist env bB = inr pB -> hashOk (hash srv) ->
  (forall raw, Marshal e' = Some raw -> Unmarshal raw = Some e') ->
  let set := RSet e now (lA, srv) in
  let setB := RReload (lB, set.2.2) in
  let rel := RRelease (EDomain e) (lA, srv) in
  let relB := RReload (lB, rel.2.2) in
  (set.1 = None -> setB.1 = None ->
    entries (manager setB.2.1) !! EDomain e' = Some e' /\
    forall t, covers t (toBlocked e') = true -> inForce (installed setB.2.1) (EDomain e') t) /\
  (rel.1 = None -> relB.1 = None -> entries (manager relB.2.1) !! EDomain e' = None).
Proof.
  intros lB e' HpB Hok Hjson set setB rel relB.
  assert (HkB : keyed (entries (manager lB))) by apply start_keyed.
  assert (HlB : localOk lB) by (by apply start_ok).
  split.
  - intros Hset HsetB. destruct (reload_spec _ _ HkB HsetB) as (Hent & HokB & _).
    destruct (Set_spec (redisSave Marshal) e now lA srv) as (Hne & _ & _ & Hw & Hiff);
      [by fold set; rewrite Hset|].
    fold set e' in Hw, Hiff, Hne.
    destruct (saved e' srv (proj1 Hiff Hset)) as (raw & Hm & Hh).
    assert (Hdec : decode Unmarshal (EDomain e') raw = Some e').
    { unfold decode. rewrite (Hjson _ Hm). by rewrite bool_decide_eq_false_2. }
    assert (Hlook : entries (manager setB.2.1) !! EDomain e' = Some e').
    { unfold setB. rewrite Hent, Hw, Hh.
      rewrite (loaded_lookup _ _ raw e'); [|by eapply hashOk_insert, normal_clean|done|apply lookup_insert_eq|done].
      f_equal. apply normalEntry_clean. }
    split; [done|]. intros t Ht.
    apply (entry_inForce _ _ e'); [by apply HokB|done|apply normal_clean|done].
  - intros Hrel HrelB. destruct (reload_spec _ _ HkB HrelB) as (Hent & _ & _).
    destruct (Release_spec redisDelete (EDomain e) lA srv) as (_ & _ & _ & Hdel).
    fold rel in Hdel. destruct (Hdel Hrel) as [Hup Hw]. unfold relB. rewrite Hent, Hw.
    unfold redisDelete, redisWrite in *. simpl in Hup. rewrite Hup. simpl.
    apply loaded_absent; [|apply lookup_delete_eq].
    intros f raw x Hf. apply lookup_delete_Some in Hf as [_ Hf]. by apply Hok.
Qed.

(** A ban that did not reach Redis is undone here too.  [ErrPropagation]
    is documented to leave the local change standing, and it does until the
    next poll that succeeds: the entries then are Redis's, so a ban the hash
    has no field for is dropped from the replica that took the request. *)
Theorem unpropagated_ban_is_undone b0 p ss (srv : server) e now back :
  let l := runSections (New b0 p) ss in
  let set := RSet e now (l, mkServer (hash srv) false false) in
  let poll := RReload (set.2.1, mkServer (hash set.2.2) true back) in
  newDomainBlocklist env b0 = inr p -> hashOk (hash srv) ->
  hash srv !! normal (EDomain e) = None ->
  set.1 = Some ErrPropagation -> poll.1 = None ->
  entries (manager set.2.1) !! normal (EDomain e) = Some (cleanEntry e now) /\
  entries (manager poll.2.1) !! normal (EDomain e) = None.
Proof.
  intros l set poll Hp Hok Hnone Hset Hpoll.
  destruct (Set_spec (redisSave Marshal) e now l (mkServer (hash srv) false false))
    as (_ & E1 & E2 & Hw & _); [by fold set; rewrite Hset|]. fold set in E1, Hw.
  assert (Hk : keyed (entries (manager set.2.1))).
  { rewrite E1. apply (section_keyed l (SSet (cleanEntry e now))), start_keyed. }
  split.
  - rewrite E1, setLocal_manager by done. apply lookup_insert_eq.
  - destruct (reload_spec _ _ Hk Hpoll) as (Hent & _ & _). unfold poll. rewrite Hent. simpl.
    apply loaded_absent; rewrite Hw; unfold redisSave; destruct (Marshal _); done.
Qed.
End Fleet.

End Ruling.

(** ** How specific keys interact *)
Lemma existsb_perm {A} (f : A -> bool) l l' : l ≡ₚ l' -> existsb f l = existsb f l'.
Proof.
  intros Hp. apply eq_bool_prop_intro. rewrite !Is_true_true, !existsb_exists.
  setoid_rewrite <- list_elem_of_In. by setoid_rewrite Hp.
Qed.

Lemma unnamed_unbanned k t es : existsb (names k) es = false -> existsb (entryBans k t) es = false.
Proof.
  intros Hno. apply not_true_iff_false. intros (e & He & [Hb _]%andb_true_iff)%existsb_exists.
  apply not_true_iff_false in Hno. apply Hno, existsb_exists. by exists e.
Qed.

Lemma banned_named k t es : existsb (entryBans k t) es = true -> existsb (names k) es = true.
Proof.
  intros H. destruct (existsb (names k) es) eqn:Hn; [done|].
  by rewrite (unnamed_unbanned k t es Hn) in H.
Qed.

(** A narrower entry can lift a wider ban.  An endpoint on [host] whose
    operator is banned for the type asked for is blocked; adding, in the file,
    through the admin API or in the environment variable, which is documented
    never to narrow a ban, an entry that bans [host] itself for the WebSocket
    type alone unblocks every other type on that host. *)
Theorem narrower_entry_lifts_a_wider_ban EffectiveTLDPlusOne env es env' es' url t :
  let host := ToLower (Domain.Domain ("-" +:+ url)) in
  let operator := ToLower (Domain.Operator EffectiveTLDPlusOne ("-" +:+ url)) in
  let before := es ++ parseBlockedDomainsEnv env in
  url <> "" -> host <> "" -> operator <> "" -> normal host = host -> t <> RPCTypeWebSocket ->
  existsb (names host) before = false -> existsb (entryBans operator t) before = true ->
  es' ++ parseBlockedDomainsEnv env' ≡ₚ mkBD host [RPCTypeWebSocket] :: before ->
  ruling EffectiveTLDPlusOne env es url "" t = true /\
  ruling EffectiveTLDPlusOne env' es' url "" t = false.
Proof.
  intros host operator before Hu Hh Ho Hn Ht Hno Hop Hperm.
  assert (Hcand : candidates EffectiveTLDPlusOne url "" = [host; operator]).
  { unfold candidates. fold host operator. rewrite !bool_decide_eq_false_2 by done. simpl.
    rewrite !filter_cons, filter_nil. by repeat case_decide. }
  assert (Hself : names host (mkBD host [RPCTypeWebSocket]) = true)
    by (apply bool_decide_eq_true_2, Hn).
  assert (Hcov : entryBans host t (mkBD host [RPCTypeWebSocket]) = false).
  { unfold entryBans, covers. cbn [RPCTypes existsb].
    change (ParseRPCType (TrimSpace RPCTypeWebSocket)) with (Some RPCTypeWebSocket).
    rewrite (bool_decide_eq_false_2 (Some _ = _)) by congruence. by rewrite andb_false_r. }
  unfold ruling. rewrite Hcand. cbn [List.find]. split.
  - fold before. by rewrite Hno, (banned_named _ _ _ Hop).
  - rewrite (existsb_perm _ _ _ Hperm). cbn [existsb]. rewrite Hself. cbn [orb].
    rewrite (existsb_perm _ _ _ Hperm). cbn [existsb]. rewrite Hcov. by apply unnamed_unbanned.
Qed.

(** An unknown type is not always refused: behind an entry that bans the same
    domain for every type it is not looked at, before it it is an error. *)
Theorem unknown_type_behind_a_full_ban d t :
  normal d <> "" -> ParseRPCType (TrimSpace t) = None ->
  ValidateBlockedDomains "" [mkBD d []; mkBD d [t]] = None /\
  ValidateBlockedDomains "" [mkBD d [t]; mkBD d []] = Some (UnknownRPCType (normal d) t).
Proof.
  intros Hd Ht. unfold ValidateBlockedDomains, newDomainBlocklist.
  change (parseBlockedDomainsEnv "") with (@nil BlockedDomain). rewrite !app_nil_r.
  cbn [compile]. unfold addEntry. cbn [Domain RPCTypes].
  rewrite bool_decide_eq_false_2 by done. rewrite lookup_insert_eq, lookup_empty.
  cbn [addTypes]. by rewrite Ht.
Qed.

(** ** Witnesses *)
Definition demoTLD (h : string) : option string := Some "op.example".
Definition demoBase : list BlockedDomain := [mkBD "op.example" []].
Definition built (b : list BlockedDomain) : option domainBlocklist :=
  match newDomainBlocklist "" b with inr p => p | inl _ => None end.
Definition demoTyped : list BlockedDomain := [mkBD "b.test" ["rest"]].
Definition demoEntry : Entry := mkEntry " Evil.Example" ["WebSocket"] "" 5.


Lemma ban_round_trip_witness :
  inForce (installed (Set_ "" memSave demoEntry 0 (New demoBase (built demoBase), ∅)).2.1)
    "evil.example" "websocket".
Proof.
  apply (ban_round_trip demoTLD "" memSave memDelete demoBase
    (built demoBase) [] demoEntry 0 ∅ "EVIL.example"); vm_compute; reflexivity.
Defined.

Definition demoMarshal (e : Entry) : option string := Some (EDomain e).
Definition demoUnmarshal (s : string) : option Entry := Some (mkEntry s [] "" 5).
Definition demoServer : server := mkServer ∅ true false.
Definition plainEntry : Entry := mkEntry "evil.example" [] "" 5.

Lemma bans_reach_every_replica_witness :
  entries (manager (reload "" (redisLoad demoUnmarshal map_to_list)
    (New demoBase (built demoBase),
     (Set_ "" (redisSave demoMarshal) plainEntry 0 (New [] None, demoServer)).2.2)).2.1) !! "evil.example"
  = Some plainEntry.
Proof.
  eapply (bans_reach_every_replica demoTLD "" demoMarshal demoUnmarshal map_to_list
    (λ h, reflexivity _) (New [] None) demoBase (built demoBase) []
    demoServer plainEntry 0).
  - vm_compute. reflexivity.
  - intros f raw e. cbn [demoServer hash]. by rewrite lookup_empty.
  - intros raw [= <-]. reflexivity.
  - vm_compute. reflexivity.
  - vm_compute. reflexivity.
Defined.

Lemma unpropagated_ban_is_undone_witness :
  entries (manager (Set_ "" (redisSave demoMarshal) plainEntry 0
    (New demoBase (built demoBase), mkServer ∅ false false)).2.1)
    !! "evil.example" = Some plainEntry.
Proof.
  eapply (unpropagated_ban_is_undone demoTLD "" demoMarshal demoUnmarshal map_to_list
    (λ h, reflexivity _) demoBase (built demoBase) []
    demoServer plainEntry 0 false).
  - vm_compute. reflexivity.
  - intros f raw e. cbn [demoServer hash]. by rewrite lookup_empty.
  - vm_compute. reflexivity.
  - vm_compute. reflexivity.
  - vm_compute. reflexivity.
Defined.

Lemma narrower_entry_lifts_a_wider_ban_witness :
  ruling demoTLD "" demoBase "https://s1.op.example/x" "" "json_rpc" = true /\
  ruling demoTLD "s1.op.example:websocket" demoBase "https://s1.op.example/x" "" "json_rpc" = false.
Proof.
  apply (narrower_entry_lifts_a_wider_ban demoTLD "" demoBase "s1.op.example:websocket" demoBase
    "https://s1.op.example/x" "json_rpc"); try (vm_compute; done).
  vm_compute. apply Permutation_swap.
Defined.
End Blocklist.
