(* ===== verification/Timeline.v ===== *)
(** * Timeline: the bounded event log

    Models [reputation/timeline.go].  Thirty-two shards, each a map from key to
    its ring of events and a map from key to when it was last recorded.  A shard
    is locked for the whole of an operation on it, so one call at a time is what
    the locks allow; the sweep is the sweep of the one writer whose
    compare-and-swap succeeds.

    [sort.Slice] may order equal ages either way: the sort is a parameter, of
    which only what the documentation promises is assumed.  [fmt.Sprintf] is a
    parameter too. *)

From Stdlib Require Import Ascii.
From stdpp Require Import strings sorting.
From S2P Require Import Prelude Float64.
Import Float64.

Module Timeline.

Record TimelineEvent := mkEvent {
  Timestamp : Z; Event : string; SignalType : string; Reason : string;
  OldScore : f64; Score : f64; Detail : string; Note : string; Key : string
}.

Definition timelineShards : nat := 32.
Definition DefaultTimelineIdleTTL : Z := 3600 * 1000000000.
Definition DefaultTimelineMaxKeys : Z := 16384.
Definition timelineSweepInterval : Z := 60 * 1000000000.

Record timelineShard := mkShard {
  events : gmap string (list TimelineEvent);
  lastSeen : gmap string Z
}.
Record Timeline := mkTimeline {
  shards : list timelineShard; maxLen : Z; idleTTL : Z; maxKeys : Z; lastSweep : Z
}.
Definition emptyShard : timelineShard := mkShard ∅ ∅.
Definition NewTimeline (maxLen : Z) : Timeline :=
  let maxLen := if bool_decide (maxLen <= 0) then 100 else maxLen in
  mkTimeline (replicate timelineShards emptyShard) maxLen DefaultTimelineIdleTTL
    DefaultTimelineMaxKeys 0.

(** [fnv32a], at its 32 bits. *)
Definition fnvStep (h : Z) (c : ascii) : Z :=
  (Z.lxor h (Z.of_N (N_of_ascii c)) * 16777619) mod 2 ^ 32.
Fixpoint fnvFrom (h : Z) (s : string) : Z :=
  match s with EmptyString => h | String c s => fnvFrom (fnvStep h c) s end.
Definition fnv32a (s : string) : Z := fnvFrom 2166136261 s.

Definition shardOf (key : string) : nat := Z.to_nat (fnv32a key mod Z.of_nat timelineShards).
Definition shard (t : Timeline) (key : string) : timelineShard :=
  default emptyShard (shards t !! shardOf key).

(** The idle sweep of one shard. *)
Definition sweepShard (cutoff : Z) (s : timelineShard) : timelineShard :=
  let idle := filter (λ p : string * Z, p.2 < cutoff) (lastSeen s) in
  mkShard (events s ∖ ((λ _, []) <$> idle)) (lastSeen s ∖ idle).
Definition maybeSweep (t : Timeline) (now : Z) : Timeline :=
  if bool_decide (now / 1000000000 - lastSweep t < timelineSweepInterval / 1000000000) then t
  else
    let cutoff := now - idleTTL t in
    mkTimeline (sweepShard cutoff <$> shards t) (maxLen t) (idleTTL t) (maxKeys t) (now / 1000000000).

Section Records.
Context (sortAges : list (string * Z) -> list (string * Z)).

Definition perShard (t : Timeline) : Z := Z.max (Z.quot (maxKeys t) (Z.of_nat timelineShards)) 1.

Definition dropKey (s : timelineShard) (key : string) : timelineShard :=
  mkShard (delete key (events s)) (delete key (lastSeen s)).
Definition capLocked (t : Timeline) (s : timelineShard) : timelineShard :=
  let excess := Z.of_nat (size (lastSeen s)) + 1 - perShard t in
  if bool_decide (excess <= 0) then s
  else foldl dropKey s (take (Z.to_nat excess) (sortAges (map_to_list (lastSeen s)))).*1.

(** The ring of one key after one more event. *)
Definition push (maxLen : Z) (buf : list TimelineEvent) (event : TimelineEvent) : list TimelineEvent :=
  (if bool_decide (maxLen <= Z.of_nat (length buf)) then drop 1 buf else buf) ++ [event].

Definition recordShard (t : Timeline) (s : timelineShard) (key : string) (event : TimelineEvent)
    (now : Z) : timelineShard :=
  let known := events s !! key in
  let s := match known with None => capLocked t s | Some _ => s end in
  mkShard (<[key := push (maxLen t) (default [] known) event]> (events s))
    (<[key := now]> (lastSeen s)).

Definition Record_ (t : Timeline) (key : string) (event : TimelineEvent) (now : Z) : Timeline :=
  let t := maybeSweep t now in
  mkTimeline (alter (λ s, recordShard t s key event now) (shardOf key) (shards t))
    (maxLen t) (idleTTL t) (maxKeys t) (lastSweep t).
End Records.

(** ** Readers *)
Definition Len (t : Timeline) : Z :=
  foldr (λ s n, Z.of_nat (size (events s)) + n) 0 (shards t).

Section Render.
Context (sprintf : TimelineEvent -> string).
Definition rendered (e : TimelineEvent) : TimelineEvent :=
  if bool_decide (Detail e = "") && negb (bool_decide (SignalType e = "")) then
    let d := sprintf e in
    let d := if negb (bool_decide (Note e = "")) then d +:+ (": " +:+ Note e) else d in
    mkEvent (Timestamp e) (Event e) (SignalType e) (Reason e) (OldScore e) (Score e) d (Note e) (Key e)
  else e.

Definition Get (t : Timeline) (key : string) : list TimelineEvent :=
  rendered <$> default [] (events (shard t key) !! key).

Definition setKey (k : string) (e : TimelineEvent) : TimelineEvent :=
  mkEvent (Timestamp e) (Event e) (SignalType e) (Reason e) (OldScore e) (Score e) (Detail e) (Note e) k.
Definition GetAll (t : Timeline) (prefix : string) : list TimelineEvent :=
  s ← shards t;
  p ← map_to_list (events s);
  if String.prefix prefix p.1
  then (λ e, setKey (String.substring (String.length prefix) (String.length p.1 - String.length prefix) p.1)
               (rendered e)) <$> p.2
  else [].
End Render.

(** ** Shards *)
Definition sameKeys (s : timelineShard) : Prop :=
  forall k, is_Some (events s !! k) <-> is_Some (lastSeen s !! k).

Lemma sameKeys_size s : sameKeys s -> size (events s) = size (lastSeen s).
Proof.
  intros H. rewrite <- !size_dom. f_equal. apply set_eq. intros k. by rewrite !elem_of_dom.
Qed.

(** A sweep or a cap only forgets keys, from both maps at once. *)
Record forgets (s s' : timelineShard) : Prop := {
  forgets_same : sameKeys s';
  forgets_events : events s' ⊆ events s;
  forgets_seen : lastSeen s' ⊆ lastSeen s
}.
Lemma forgets_refl s : sameKeys s -> forgets s s.
Proof. by intros. Qed.
Lemma forgets_trans s1 s2 s3 : forgets s1 s2 -> forgets s2 s3 -> forgets s1 s3.
Proof. intros [] []. split; [done| |]; by etrans. Qed.

Lemma dropKey_forgets s k : sameKeys s -> forgets s (dropKey s k).
Proof.
  intros H. split; cbn; [|apply delete_subseteq|apply delete_subseteq].
  intros k'. cbn. destruct (decide (k = k')) as [->|].
  - by rewrite !lookup_delete_eq.
  - by rewrite !lookup_delete_ne.
Qed.
Lemma dropKeys_forgets ks s : sameKeys s -> forgets s (foldl dropKey s ks).
Proof.
  revert s. induction ks as [|k ks IH]; intros s H; [by apply forgets_refl|]. cbn.
  pose proof (dropKey_forgets s k H) as Hd. eapply forgets_trans; [done|]. apply IH, Hd.
Qed.
Lemma dropKeys_lookup ks s k :
  lastSeen (foldl dropKey s ks) !! k = if decide (k ∈ ks) then None else lastSeen s !! k.
Proof.
  revert s. induction ks as [|x ks IH]; intros s.
  { by rewrite decide_False by apply not_elem_of_nil. }
  cbn. rewrite IH. case_decide as H1; case_decide as H2; cbn; try done.
  - by rewrite elem_of_cons in H2; tauto.
  - rewrite elem_of_cons in H2. destruct H2 as [->|]; [|done]. apply lookup_delete_eq.
  - rewrite elem_of_cons in H2. apply lookup_delete_ne. naive_solver.
Qed.
Lemma dropKeys_size ks s :
  NoDup ks -> (forall k, k ∈ ks -> is_Some (lastSeen s !! k)) ->
  size (lastSeen (foldl dropKey s ks)) = (size (lastSeen s) - length ks)%nat.
Proof.
  intros Hnd. revert s. induction Hnd as [|k ks Hk _ IH]; intros s Hin; cbn; [lia|].
  rewrite IH; cbn.
  - destruct (Hin k) as [v Hv]; [apply elem_of_cons; by left|].
    rewrite map_size_delete_Some by eauto. lia.
  - intros k' Hk'. rewrite lookup_delete_ne by (by intros ->).
    apply Hin. apply elem_of_cons. by right.
Qed.

Lemma lookup_idle cutoff (seen : gmap string Z) k :
  filter (λ p : string * Z, p.2 < cutoff) seen !! k =
  match seen !! k with Some t => if bool_decide (t < cutoff) then Some t else None | None => None end.
Proof.
  rewrite map_lookup_filter. destruct (seen !! k); [|done]. cbn.
  case_guard; [by rewrite bool_decide_true|by rewrite bool_decide_false].
Qed.
Lemma sweepShard_seen cutoff s k :
  lastSeen (sweepShard cutoff s) !! k =
    match lastSeen s !! k with
    | Some t => if bool_decide (t < cutoff) then None else Some t
    | None => None
    end.
Proof.
  cbn. rewrite lookup_difference, lookup_idle.
  destruct (lastSeen s !! k); [|done]. by case_bool_decide.
Qed.
Lemma sweepShard_events cutoff s k :
  events (sweepShard cutoff s) !! k =
    match lastSeen s !! k with
    | Some t => if bool_decide (t < cutoff) then None else events s !! k
    | None => events s !! k
    end.
Proof.
  cbn. rewrite lookup_difference, lookup_fmap, lookup_idle.
  destruct (lastSeen s !! k); [|done]. by case_bool_decide.
Qed.
Lemma sweepShard_forgets cutoff s : sameKeys s -> forgets s (sweepShard cutoff s).
Proof.
  intros H.
  split; [|apply map_subseteq_spec; intros k x Hx; by apply lookup_difference_Some in Hx as [? _]..].
  intros k. rewrite sweepShard_seen, sweepShard_events. specialize (H k).
  destruct (lastSeen s !! k); [|done]. by case_bool_decide.
Qed.

(** ** Histories *)
Section Histories.
Context (sortAges : list (string * Z) -> list (string * Z)).
Context (sort_perm : forall l, sortAges l ≡ₚ l)
  (sort_sorted : forall l, StronglySorted (λ a b, a.2 <= b.2) (sortAges l)).

(** What has been recorded for a key. *)
Definition recorded (key : string) (h : list (string * TimelineEvent * Z)) : list TimelineEvent :=
  (filter (λ r, r.1.1 = key) h).*1.*2.
Definition run (t : Timeline) (h : list (string * TimelineEvent * Z)) : Timeline :=
  foldl (λ t r, Record_ sortAges t r.1.1 r.1.2 r.2) t h.

Lemma recorded_snoc key h r :
  recorded key (h ++ [r]) = recorded key h ++ (if bool_decide (r.1.1 = key) then [r.1.2] else []).
Proof.
  unfold recorded. rewrite filter_app, !fmap_app. f_equal. rewrite filter_cons, filter_nil.
  case_bool_decide; by case_decide.
Qed.

(** *** The cap *)
Lemma capLocked_forgets t s : sameKeys s -> forgets s (capLocked sortAges t s).
Proof.
  intros H. unfold capLocked. case_bool_decide; [by apply forgets_refl|by apply dropKeys_forgets].
Qed.

Lemma ages_nodup (m : gmap string Z) n : NoDup (take n (sortAges (map_to_list m))).*1.
Proof.
  rewrite fmap_take. eapply sublist_NoDup; [|apply sublist_take].
  rewrite (sort_perm (map_to_list m)). apply NoDup_fst_map_to_list.
Qed.
Lemma ages_in (m : gmap string Z) n k :
  k ∈ (take n (sortAges (map_to_list m))).*1 -> is_Some (m !! k).
Proof.
  intros ([k' v]&->&Hin)%list_elem_of_fmap. exists v. apply elem_of_map_to_list.
  rewrite <- (sort_perm (map_to_list m)). eapply subseteq_take, Hin.
Qed.

Lemma capLocked_size t s :
  Z.of_nat (size (lastSeen (capLocked sortAges t s))) + 1 <= perShard t.
Proof.
  unfold capLocked. assert (1 <= perShard t) by (unfold perShard; lia).
  case_bool_decide; [lia|]. rewrite dropKeys_size.
  - rewrite length_fmap, length_take, sort_perm, length_map_to_list. lia.
  - apply ages_nodup.
  - intros k. apply ages_in.
Qed.

(** The keys a cap drops are the least recently recorded. *)
Lemma capLocked_oldest t s k k' seen seen' :
  lastSeen s !! k = Some seen -> lastSeen (capLocked sortAges t s) !! k = None ->
  lastSeen (capLocked sortAges t s) !! k' = Some seen' -> seen <= seen'.
Proof.
  unfold capLocked. case_bool_decide; [congruence|].
  set (n := Z.to_nat _). intros Hk. rewrite !dropKeys_lookup.
  case_decide as Hin; [|congruence]. intros _. case_decide as Hin'; [done|]. intros Hk'.
  apply elem_of_map_to_list in Hk as Hm, Hk' as Hm'.
  rewrite <- (sort_perm (map_to_list (lastSeen s))) in Hm, Hm'.
  apply list_elem_of_fmap in Hin as ([x v]&Ex&Hin). cbn in Ex. subst x.
  assert (v = seen) as ->.
  { assert ((k, v) ∈ map_to_list (lastSeen s)) as Hv%elem_of_map_to_list; [|congruence].
    rewrite <- (sort_perm (map_to_list (lastSeen s))). eapply subseteq_take, Hin. }
  rewrite <- (take_drop n (sortAges _)) in Hm'. apply elem_of_app in Hm' as [Hm'|Hm'].
  { destruct Hin'. apply list_elem_of_fmap. by exists (k', seen'). }
  pose proof (sort_sorted (map_to_list (lastSeen s))) as Hs.
  rewrite <- (take_drop n (sortAges _)) in Hs.
  by apply (StronglySorted_app_1_elem_of _ _ _ (k, seen) (k', seen') Hs).
Qed.

(** *** The invariant *)
Record shardInv (t : Timeline) (h : list (string * TimelineEvent * Z)) (i : nat)
    (s : timelineShard) : Prop := {
  si_same : sameKeys s;
  si_size : Z.of_nat (size (events s)) <= perShard t;
  si_ring : forall k buf, events s !! k = Some buf ->
    shardOf k = i /\ 1 <= Z.of_nat (length buf) <= maxLen t /\ buf `suffix_of` recorded k h
}.

Lemma shardInv_forgets t h i s s' : shardInv t h i s -> forgets s s' -> shardInv t h i s'.
Proof.
  intros [H1 H2 H3] [F1 F2 F3]. split; [done| |].
  - apply (map_subseteq_size) in F2. lia.
  - intros k buf Hk. apply H3. by eapply lookup_weaken.
Qed.
Lemma shardInv_later t h i s r :
  shardInv t h i s -> shardOf r.1.1 <> i -> shardInv t (h ++ [r]) i s.
Proof.
  intros [H1 H2 H3] Hi. split; [done|done|]. intros k buf Hk.
  destruct (H3 k buf Hk) as (E&Hl&Hs). split_and!; auto; try lia.
  rewrite recorded_snoc, bool_decide_false, app_nil_r by (intros Hr; apply Hi; by rewrite Hr). done.
Qed.

Lemma push_ring m buf event rec :
  Z.of_nat (length buf) <= m -> 1 <= m -> buf `suffix_of` rec ->
  1 <= Z.of_nat (length (push m buf event)) <= m /\ push m buf event `suffix_of` rec ++ [event].
Proof.
  intros Hl Hm Hs. unfold push. rewrite length_app. cbn [length]. split.
  - case_bool_decide; [rewrite length_drop|]; lia.
  - case_bool_decide.
    + destruct Hs as [p ->]. exists (p ++ take 1 buf). rewrite <- !app_assoc.
      do 1 f_equal. rewrite !app_assoc. by rewrite take_drop.
    + destruct Hs as [p ->]. exists p. by rewrite app_assoc.
Qed.

Lemma recordShard_inv t h i s key event now :
  shardInv t h i s -> shardOf key = i -> 1 <= maxLen t ->
  shardInv t (h ++ [(key, event, now)]) i (recordShard sortAges t s key event now).
Proof.
  intros H Hi Hm. unfold recordShard.
  set (s' := match events s !! key with None => capLocked sortAges t s | Some _ => s end).
  assert (forgets s s') as Hf.
  { unfold s'. destruct (events s !! key); [apply forgets_refl|apply capLocked_forgets]; apply H. }
  pose proof (shardInv_forgets _ _ _ _ _ H Hf) as [H1 H2 H3]. split; cbn.
  - intros k. cbn. destruct (decide (key = k)) as [->|].
    + rewrite !lookup_insert_eq. split; by eexists.
    + rewrite !lookup_insert_ne by done. apply H1.
  - destruct (events s !! key) as [buf|] eqn:E; cbn in *.
    + rewrite map_size_insert_Some by (by eexists). done.
    + assert (events s' !! key = None) as E'.
      { destruct (events s' !! key) eqn:E'; [|done].
        pose proof (lookup_weaken _ _ _ _ E' (forgets_events _ _ Hf)). congruence. }
      rewrite map_size_insert_None by done.
      pose proof (capLocked_size t s). rewrite (sameKeys_size s' H1). unfold s'. lia.
  - intros k buf. rewrite recorded_snoc. cbn [fst snd]. destruct (decide (key = k)) as [->|Hne].
    + rewrite lookup_insert_eq, bool_decide_true by done. intros [= <-]. split; [done|].
      apply push_ring; [|done|]; destruct (events s !! k) as [b|] eqn:E; cbn; try lia.
      * by destruct (si_ring _ _ _ _ H _ _ E) as (_&?&_); lia.
      * by destruct (si_ring _ _ _ _ H _ _ E) as (_&_&?).
      * apply suffix_nil.
    + rewrite lookup_insert_ne, bool_decide_false, app_nil_r by done. apply H3.
Qed.

(** The whole timeline. *)
Record inv (t : Timeline) (h : list (string * TimelineEvent * Z)) : Prop := {
  inv_shards : length (shards t) = timelineShards;
  inv_len : 1 <= maxLen t;
  inv_each : forall i s, shards t !! i = Some s -> shardInv t h i s
}.

Lemma shardInv_ext t t' h i s :
  maxLen t' = maxLen t -> maxKeys t' = maxKeys t -> shardInv t h i s -> shardInv t' h i s.
Proof.
  intros E1 E2 [H1 H2 H3]. split; [done| |]; unfold perShard in *; by rewrite ?E1, ?E2.
Qed.

Lemma shardOf_lt key : (shardOf key < timelineShards)%nat.
Proof.
  unfold shardOf, timelineShards.
  pose proof (Z.mod_pos_bound (fnv32a key) (Z.of_nat 32)). lia.
Qed.

Lemma maybeSweep_inv t h now : inv t h -> inv (maybeSweep t now) h.
Proof.
  intros [H1 H2 H3]. unfold maybeSweep. case_bool_decide; [done|]. split; cbn; auto.
  - by rewrite length_fmap.
  - intros i s Hs. rewrite list_lookup_fmap in Hs.
    destruct (shards t !! i) as [s0|] eqn:E; [|done]. injection Hs as <-.
    apply (shardInv_ext t); [done|done|]. eapply shardInv_forgets; [by apply H3|].
    apply sweepShard_forgets. eapply si_same, H3, E.
Qed.

Lemma Record_inv t h key event now :
  inv t h -> inv (Record_ sortAges t key event now) (h ++ [(key, event, now)]).
Proof.
  intros H. unfold Record_. set (t' := maybeSweep t now).
  pose proof (maybeSweep_inv t h now H) as [H1 H2 H3]. fold t' in H1, H2, H3.
  split; cbn; auto.
  - by rewrite length_alter.
  - intros i s Hs. apply (shardInv_ext t'); [done|done|].
    destruct (decide (shardOf key = i)) as [E|E].
    + subst i. rewrite list_lookup_alter_eq in Hs.
      destruct (shards t' !! shardOf key) as [s0|] eqn:E0; [|done]. injection Hs as <-.
      apply recordShard_inv; auto.
    + rewrite list_lookup_alter_ne in Hs by done. apply shardInv_later; auto.
Qed.

Lemma New_inv maxLen : inv (NewTimeline maxLen) [].
Proof.
  split; cbn [shards Timeline.maxLen NewTimeline].
  - apply length_replicate.
  - case_bool_decide; lia.
  - intros i s [-> _]%lookup_replicate. split; cbn.
    + intros k. cbn. by rewrite !lookup_empty.
    + rewrite map_size_empty. unfold perShard. cbn. lia.
    + intros k buf. by rewrite lookup_empty.
Qed.

Lemma run_inv maxLen h : inv (run (NewTimeline maxLen) h) h.
Proof.
  induction h as [|[[key event] now] h IH] using rev_ind; [apply New_inv|].
  unfold run. rewrite foldl_app. cbn. by apply Record_inv.
Qed.

(** *** The configuration does not move *)
Definition config (t : Timeline) : Z * Z * Z := (maxLen t, idleTTL t, maxKeys t).
Lemma run_config t h : config (run t h) = config t.
Proof.
  induction h as [|r h IH] using rev_ind; [done|]. unfold run in *. rewrite foldl_app. cbn -[config].
  rewrite <- IH. unfold Record_, maybeSweep. by case_bool_decide.
Qed.

Lemma Len_bound (t : Timeline) n :
  (forall i s, shards t !! i = Some s -> Z.of_nat (size (events s)) <= n) -> 0 <= n ->
  Len t <= Z.of_nat (length (shards t)) * n.
Proof.
  unfold Len. generalize (shards t). intros l. induction l as [|s l IH]; intros H Hn; cbn; [lia|].
  pose proof (H O s eq_refl). specialize (IH (λ i, H (S i)) Hn). lia.
Qed.

(** *** One more record *)
Lemma shard_lookup t h key : inv t h -> shards t !! shardOf key = Some (shard t key).
Proof.
  intros H. unfold shard. destruct (lookup_lt_is_Some_2 (shards t) (shardOf key)) as [s ->]; [|done].
  rewrite (inv_shards _ _ H). apply shardOf_lt.
Qed.
Lemma shard_Record t h key event now k :
  inv t h ->
  shard (Record_ sortAges t key event now) k =
  if bool_decide (shardOf key = shardOf k)
  then recordShard sortAges (maybeSweep t now) (shard (maybeSweep t now) k) key event now
  else shard (maybeSweep t now) k.
Proof.
  intros H. pose proof (shard_lookup _ _ k (maybeSweep_inv _ _ now H)) as Hk.
  unfold Record_. unfold shard at 1. cbn. case_bool_decide as E.
  - rewrite E, list_lookup_alter_eq, Hk. done.
  - by rewrite list_lookup_alter_ne.
Qed.
Lemma shard_maybeSweep t h now k :
  inv t h ->
  shard (maybeSweep t now) k = shard t k \/
  shard (maybeSweep t now) k = sweepShard (now - idleTTL t) (shard t k).
Proof.
  intros H. unfold maybeSweep. case_bool_decide; [by left|right].
  unfold shard at 1. cbn. rewrite list_lookup_fmap. by rewrite (shard_lookup _ _ k H).
Qed.

(** A key is forgotten only when it was idle, or when its shard was full and no
    key kept there was recorded earlier. *)
Lemma forgotten t h key event now k seen :
  inv t h -> lastSeen (shard t k) !! k = Some seen ->
  lastSeen (shard (Record_ sortAges t key event now) k) !! k = None ->
  seen < now - idleTTL t \/
  (shardOf k = shardOf key /\ forall k' seen', k' <> key ->
     lastSeen (shard (Record_ sortAges t key event now) key) !! k' = Some seen' -> seen <= seen').
Proof.
  intros H Hk. rewrite (shard_Record _ h _ _ _ k H), (shard_Record _ h _ _ _ key H).
  rewrite (bool_decide_true (shardOf key = shardOf key)) by done.
  assert (seen < now - idleTTL t \/ lastSeen (shard (maybeSweep t now) k) !! k = Some seen) as [?|Hs].
  { destruct (shard_maybeSweep t h now k H) as [-> | ->]; [by right|].
    rewrite sweepShard_seen, Hk. case_bool_decide; auto. }
  { by left. }
  case_bool_decide as E; [|congruence]. intros Hnone. right. split; [done|].
  assert (shard (maybeSweep t now) key = shard (maybeSweep t now) k) as -> by (unfold shard; by rewrite E).
  revert Hnone. unfold recordShard. cbn.
  rewrite lookup_insert_None. intros [Hnone Hne] k' seen' Hk'.
  rewrite lookup_insert_ne by done.
  destruct (events _ !! key); [congruence|]. intros Hs'.
  eapply capLocked_oldest; eauto.
Qed.

(** The timeline stays bounded and keeps the recent past.  After any
    history of records it holds at most 16384 keys; what it returns for a key is
    the tail of what was recorded for it, no longer than the ring; the event
    just recorded is the last one its key returns; and a record makes the
    timeline forget another key only if that key was idle for an hour, or its
    shard was full and every other key kept there was recorded no earlier. *)
Theorem timeline_keeps_recent (sprintf : TimelineEvent -> string) (n : Z)
    (h : list (string * TimelineEvent * Z)) key event now :
  let t := run (NewTimeline n) h in
  let t' := Record_ sortAges t key event now in
  Len t <= DefaultTimelineMaxKeys /\
  (forall k, exists buf, Get sprintf t k = rendered sprintf <$> buf /\ buf `suffix_of` recorded k h /\
     Z.of_nat (length buf) <= (if bool_decide (n <= 0) then 100 else n)) /\
  last (Get sprintf t' key) = Some (rendered sprintf event) /\
  (forall k seen, lastSeen (shard t k) !! k = Some seen -> lastSeen (shard t' k) !! k = None ->
     seen < now - DefaultTimelineIdleTTL \/
     (shardOf k = shardOf key /\ forall k' seen', k' <> key ->
        lastSeen (shard t' key) !! k' = Some seen' -> seen <= seen')).
Proof.
  cbv zeta. pose proof (run_inv n h) as H. pose proof (run_config (NewTimeline n) h) as Hc.
  revert H Hc. generalize (run (NewTimeline n) h). intros t H [= E1 E2 E3]. split_and!.
  - etrans; [apply (Len_bound _ 512)|rewrite (inv_shards _ _ H); done]; [|done].
    intros i s Hs. pose proof (si_size _ _ _ _ (inv_each _ _ H i s Hs)) as Hsz.
    unfold perShard in Hsz. by rewrite E3 in Hsz.
  - intros k. unfold Get. exists (default [] (events (shard t k) !! k)).
    split; [done|]. destruct (events _ !! k) as [buf|] eqn:E; cbn.
    + destruct (si_ring _ _ _ _ (inv_each _ _ H _ _ (shard_lookup _ _ k H)) _ _ E) as (_&?&?).
      split; [done|]. rewrite <- E1. lia.
    + split; [apply suffix_nil|]. case_bool_decide; lia.
  - unfold Get. rewrite (shard_Record _ h _ _ _ key H), bool_decide_true by done.
    unfold recordShard. cbn. rewrite lookup_insert_eq. cbn. unfold push.
    rewrite fmap_app. cbn. apply last_snoc.
  - intros k seen Hk Hn. destruct (forgotten _ _ _ _ _ _ _ H Hk Hn) as [?|?]; [left|by right]. by rewrite <- E2.
Qed.
End Histories.

(** Ages by a stable merge sort. *)
Definition byAge (a b : string * Z) : Prop := a.2 <= b.2.
#[export] Instance byAge_dec : RelDecision byAge.
Proof. intros a b. unfold byAge. apply _. Defined.
#[export] Instance byAge_total : Total byAge.
Proof. intros a b. unfold byAge. lia. Qed.
#[export] Instance byAge_trans : Transitive byAge.
Proof. intros a b c. unfold byAge. lia. Qed.

Definition probe : TimelineEvent := mkEvent 5 "signal" "success" "" f0 f0 "" "" "".
Lemma timeline_keeps_recent_witness :
  last (Get (λ _, "") (Record_ (merge_sort byAge) (run (merge_sort byAge) (NewTimeline 2)
          [("eth:a", probe, 1); ("eth:b", probe, 2)]) "eth:a" probe 9) "eth:a") =
  Some (rendered (λ _, "") probe).
Proof.
  apply (timeline_keeps_recent (merge_sort byAge)).
  - intros l. apply merge_sort_Permutation.
  - intros l. by apply StronglySorted_merge_sort; apply _.
Defined.
End Timeline.
