(* ===== verification/Rate.v ===== *)
(** * Rate: failure rates, operator evidence and penalties

    Models [reputation/rate.go], [reputation/signals.go] (impacts),
    [reputation/opstats.go] and the lookups of [reputation/operator.go],
    [reputation/classshare.go], [reputation/dupshare.go] and
    [reputation/throttleshare.go] on the chronic view.

    The transcendental functions of [math] are parameters of the model
    ([Math]): their last bits depend on the platform, and no theorem needs
    them.  The chronic view is the snapshot [refreshBaselines] swaps in; its
    contents are arbitrary here.  Its fields that only feed metrics are left
    out. *)

From Stdlib Require Import Ascii.
From stdpp Require Import strings.
From S2P Require Import Prelude Float64 Domain ScoreSink.

(** What the source uses of [math]. *)
Class Math := mkMath {
  Log10 : f64 -> f64; Exp : f64 -> f64; Exp2 : f64 -> f64; Pow : f64 -> f64 -> f64
}.

Module Rate.
Import ScoreSink.
Import GoStrings.
Import Domain.

(** [math.Ln2]. *)
Definition Ln2 : f64 := S754_finite false 6243314768165359 (-53).

(** ** [reputation/signals.go] *)
Definition defaultImpacts (t : SignalType) : Z :=
  if bool_decide (t = SignalSuccess) then 5
  else if bool_decide (t = SignalMinorError) then -3
  else if bool_decide (t = SignalMajorError) then -10
  else if bool_decide (t = SignalCriticalError) then -25
  else if bool_decide (t = SignalFatalError) then -50
  else 0.

Record SignalImpacts := mkImpacts {
  ISuccess : Z; IMinorError : Z; IMajorError : Z; ICriticalError : Z; IFatalError : Z
}.
Definition impactOr (v : Z) (t : SignalType) : Z :=
  if bool_decide (v = 0) then defaultImpacts t else v.
Definition normImpacts (i : SignalImpacts) : SignalImpacts :=
  mkImpacts (impactOr (ISuccess i) SignalSuccess) (impactOr (IMinorError i) SignalMinorError)
    (impactOr (IMajorError i) SignalMajorError) (impactOr (ICriticalError i) SignalCriticalError)
    (impactOr (IFatalError i) SignalFatalError).

Definition Impact (i : SignalImpacts) (t : SignalType) : f64 :=
  if bool_decide (t = SignalSuccess) then of_int (ISuccess i)
  else if bool_decide (t = SignalMinorError) then of_int (IMinorError i)
  else if bool_decide (t = SignalMajorError) then of_int (IMajorError i)
  else if bool_decide (t = SignalCriticalError) then of_int (ICriticalError i)
  else if bool_decide (t = SignalFatalError) then of_int (IFatalError i)
  else f0.

(** ** [reputation/rate.go] *)
Definition DefaultHalfLifeAttempts : Z := 20000.
Definition DefaultOnsetRate : f64 := lit 2 10000.
Definition DefaultFullRate : f64 := lit 1 100.
Definition penaltyAtFull : f64 := of_int (-40).
Definition penaltyCap : f64 := of_int (-70).

Record RateConfig := mkRate { HalfLifeAttempts : Z; OnsetRate : f64; FullRate : f64 }.

Definition Defaulted (c : RateConfig) : RateConfig :=
  mkRate (if bool_decide (HalfLifeAttempts c = 0) then DefaultHalfLifeAttempts else HalfLifeAttempts c)
    (if feqb (OnsetRate c) f0 then DefaultOnsetRate else OnsetRate c)
    (if feqb (FullRate c) f0 then DefaultFullRate else FullRate c).

Definition Normalized (c : RateConfig) : RateConfig :=
  let c := Defaulted c in
  if fltb (OnsetRate c) f0 || fltb (FullRate c) f0 || fleb f1 (FullRate c) ||
     fleb (FullRate c) (OnsetRate c)
  then mkRate (HalfLifeAttempts c) DefaultOnsetRate DefaultFullRate
  else c.

Definition Enabled (c : RateConfig) : bool := bool_decide (0 < HalfLifeAttempts c).
Definition Lambda (c : RateConfig) : f64 :=
  if negb (Enabled c) then f0 else fdiv Ln2 (of_int (HalfLifeAttempts c)).

Definition FailureWeight (t : SignalType) : f64 :=
  if bool_decide (t = SignalCriticalError) || bool_decide (t = SignalFatalError) then f1
  else if bool_decide (t = SignalMajorError) then lit 1 2
  else f0.

Definition wsRateHalfLife : Z := 6 * hour.

Section Curves.
Context `{M : Math}.

Definition Penalty (c : RateConfig) (rate : f64) : f64 :=
  if negb (Enabled c) || fleb rate (OnsetRate c) then f0
  else
    let span := Log10 (fdiv (FullRate c) (OnsetRate c)) in
    if fleb rate (FullRate c)
    then fdiv (fmul penaltyAtFull (Log10 (fdiv rate (OnsetRate c)))) span
    else fmax (fadd penaltyAtFull
                 (fmul (fsub penaltyCap penaltyAtFull) (Log10 (fdiv rate (FullRate c)))))
           penaltyCap.

Definition decayWSRate (rate : f64) (last now : Z) : f64 :=
  if feqb rate f0 || bool_decide (last = 0) then rate
  else
    let dt := GoTime.Sub now (last * second) in
    if bool_decide (dt <= 0) then rate
    else fmul rate (Exp2 (fdiv (fopp (of_int dt)) (of_int wsRateHalfLife))).

(** ** [reputation/opstats.go] *)
Definition DefaultOperatorHalfLife : Z := 6 * hour.
Definition operatorHealAfter : Z := 20.
Definition operatorHealHalfLife : Z := hour.
Definition minOperatorAttempts : f64 := of_int 200.

Record OperatorStat := mkStat {
  Attempts : f64; Failures : f64; UpdatedAt : Z; CleanRun : Z; HealedAt : Z
}.
Definition noStat : OperatorStat := mkStat f0 f0 0 0 0.

(** [time.Time.Unix]. *)
Definition Unix (t : Z) : Z := t / second.

Definition aged (elapsed halfLife : Z) : f64 :=
  Exp (fdiv (fmul (fopp Ln2) (Seconds elapsed)) (Seconds halfLife)).

Definition decayTo (s : OperatorStat) (now halfLife : Z) : OperatorStat :=
  if bool_decide (UpdatedAt s <= 0) || bool_decide (halfLife <= 0)
  then mkStat (Attempts s) (Failures s) (Unix now) (CleanRun s) (HealedAt s)
  else
    let elapsed := GoTime.Sub now (UpdatedAt s * second) in
    if bool_decide (elapsed <= 0) then s
    else
      let factor := aged elapsed halfLife in
      mkStat (fmul (Attempts s) factor) (fmul (Failures s) factor) (Unix now) (CleanRun s) (HealedAt s).

Definition rate (s : OperatorStat) : f64 :=
  if fltb (Attempts s) minOperatorAttempts then f0 else fmin (fdiv (Failures s) (Attempts s)) f1.

Definition RateAt (s : OperatorStat) (now : Z) : f64 :=
  let r := rate s in
  if bool_decide (HealedAt s <= 0) || feqb r f0 then r
  else
    let since := GoTime.Sub now (HealedAt s * second) in
    if bool_decide (since <= 0) then r else fmul r (aged since operatorHealHalfLife).

(** [opID]: service, operator or party, RPC type. *)
Definition opID : Type := string * string * string.

Record opTracker := mkTracker {
  halfLife : Z; stats : gmap opID OperatorStat; dirty : option (gset opID)
}.
Definition newOpTracker (hl : Z) : opTracker :=
  mkTracker (if bool_decide (hl <= 0) then DefaultOperatorHalfLife else hl) ∅ (Some ∅).
(** A tracker whose dirty marks are turned off. *)
Definition unmarked (t : opTracker) : opTracker := mkTracker (halfLife t) (stats t) None.

Definition statAfter (st : OperatorStat) (failure : f64) (now : Z) : OperatorStat :=
  let attempts := fadd (Attempts st) f1 in
  let st := mkStat attempts (Failures st) (UpdatedAt st) (CleanRun st) (HealedAt st) in
  let kept :=
    if fltb f0 failure && bool_decide (0 < HealedAt st) then
      let r := rate st in
      if fltb f0 r then fmul (Failures st) (fdiv (RateAt st now) r) else Failures st
    else Failures st in
  let failures := fadd kept failure in
  if fltb f0 failure then mkStat attempts failures (UpdatedAt st) 0 0
  else
    let run := CleanRun st + 1 in
    mkStat attempts failures (UpdatedAt st) run
      (if bool_decide (run = operatorHealAfter) then Unix now else HealedAt st).

Definition record (t : opTracker) (id : opID) (failure : f64) (now : Z) : opTracker :=
  let st := decayTo (default noStat (stats t !! id)) now (halfLife t) in
  mkTracker (halfLife t) (<[id := statAfter st failure now]> (stats t))
    ((λ d, {[id]} ∪ d) <$> dirty t).

Definition recordN (t : opTracker) (id : opID) (n failures : f64) (now : Z) : opTracker :=
  let st := decayTo (default noStat (stats t !! id)) now (halfLife t) in
  mkTracker (halfLife t)
    (<[id := mkStat (fadd (Attempts st) n) (fadd (Failures st) failures) (UpdatedAt st)
               (CleanRun st) (HealedAt st)]> (stats t)) (dirty t).

Definition trackerGet (t : opTracker) (id : opID) (now : Z) : option OperatorStat :=
  (λ st, decayTo st now (halfLife t)) <$> stats t !! id.

(** [snapshot]: every stat decayed to now, and the tracker without the ones
    whose evidence is gone. *)
Definition snapshot (t : opTracker) (now : Z) : opTracker * gmap opID OperatorStat :=
  let gone (st : OperatorStat) := fltb (Attempts (decayTo st now (halfLife t))) f1 in
  let kept := filter (λ p : opID * OperatorStat, gone p.2 = false) (stats t) in
  (mkTracker (halfLife t) kept (dirty t), (λ st, decayTo st now (halfLife t)) <$> kept).

Definition takeDirty (t : opTracker) (now : Z) : opTracker * gmap opID OperatorStat :=
  let ids := default ∅ (dirty t) in
  if bool_decide (ids = ∅) then (t, ∅)
  else (mkTracker (halfLife t) (stats t) (Some ∅),
        set_to_map (λ id, (id, decayTo (default noStat (stats t !! id)) now (halfLife t))) ids).

Definition reset (t : opTracker) (svc operator : string) (now : Z) : opTracker * Z :=
  let hit := filter (λ p : opID * OperatorStat, p.1.1.1 = svc /\ p.1.1.2 = operator) (stats t) in
  (mkTracker (halfLife t) (((λ _, mkStat f0 f0 (Unix now) 0 0) <$> hit) ∪ stats t)
     ((λ d, dom hit ∪ d) <$> dirty t),
   Z.of_nat (size hit)).
End Curves.

(** ** Keys *)
Definition RPCTypeWebSocket : string := "websocket".

Definition rpcOfKey (key : string) : string :=
  match LastIndexByte key "|"%char with Some i => from (S i) key | None => "" end.

Section View.
Context (EffectiveTLDPlusOne : string -> option string) (own : owners).

Definition operatorOfKey (key : string) : string :=
  match LastIndexByte key "|"%char with
  | None => ""
  | Some i =>
      let identity := upto i key in
      let op := OperatorOfURL EffectiveTLDPlusOne identity in
      if bool_decide (op = "") then identity else op
  end.
Definition partyOfKey (key : string) : string := PartyOfOperator own (operatorOfKey key).

(** ** [reputation/operator.go]: the chronic view *)
Record chronicView := mkView {
  byKey : gmap (string * string) f64;
  baseline : gmap (string * string) f64;
  opOn : gmap string bool;
  stalePen : gmap opID f64;
  trustPen : gmap string f64; trustOn : gmap string bool; trustGate : option (string -> bool);
  wsOn : gmap string bool; wsGate : option (string -> bool);
  dupPen : gmap opID f64;
  throttlePen : gmap opID f64;
  classPen : gmap string (gmap opID f64);
  policyPen : gmap string f64; policyOn : gmap string bool; policyGate : option (string -> bool);
  opSeed : gmap opID f64; partySeed : gmap opID f64;
  seedOn : gmap string bool; seedGate : option (string -> bool);
  keyParty : gmap string string; keyOp : gmap string string
}.

(** A flag read at refresh, or its gate for a service unknown then. *)
Definition gated (on : gmap string bool) (gate : option (string -> bool)) (svc : string) : bool :=
  match on !! svc with
  | Some b => b
  | None => match gate with Some g => g svc | None => false end
  end.

Definition websocketCharged (v : chronicView) (svc : string) : bool :=
  match wsOn v !! svc with
  | Some on => on
  | None => match wsGate v with None => true | Some g => g svc end
  end.

Definition isWS (key : string) : bool := bool_decide (rpcOfKey key = RPCTypeWebSocket).
Definition partyFor (v : chronicView) (key : string) : string :=
  match keyParty v !! key with Some p => p | None => partyOfKey key end.
Definition partyID (svc party : string) : opID := (svc, party, "").

Definition partyPenalties (v : option chronicView) (svc key : string) : f64 * f64 :=
  match v with
  | None => (f0, f0)
  | Some v =>
      if bool_decide (size (stalePen v) = O) && bool_decide (size (trustPen v) = O) then (f0, f0)
      else if isWS key && negb (websocketCharged v svc) then (f0, f0)
      else
        let party := partyFor v key in
        (default f0 (stalePen v !! partyID svc party),
         match trustPen v !! party with
         | Some pen => if gated (trustOn v) (trustGate v) svc then pen else f0
         | None => f0
         end)
  end.

Definition policyPenalty (v : option chronicView) (svc key : string) : f64 :=
  match v with
  | None => f0
  | Some v =>
      if bool_decide (size (policyPen v) = O) then f0
      else if isWS key && negb (websocketCharged v svc) then f0
      else
        let '(party, op) := match keyParty v !! key with
          | Some p => (p, default "" (keyOp v !! key))
          | None => let op := operatorOfKey key in (PartyOfOperator own op, op)
          end in
        let pen := fmin (default f0 (policyPen v !! party)) (default f0 (policyPen v !! op)) in
        if feqb pen f0 then f0
        else if negb (gated (policyOn v) (policyGate v) svc) then f0 else pen
  end.

Definition throttlePenalty (v : option chronicView) (svc key : string) : f64 :=
  match v with
  | None => f0
  | Some v =>
      if bool_decide (size (throttlePen v) = O) || isWS key then f0
      else default f0 (throttlePen v !! partyID svc (partyFor v key))
  end.

Definition duplicatePenalty (v : option chronicView) (svc key : string) : f64 :=
  match v with
  | None => f0
  | Some v =>
      if bool_decide (size (dupPen v) = O) || negb (isWS key) then f0
      else default f0 (dupPen v !! partyID svc (partyFor v key))
  end.

Definition classPenalty (v : option chronicView) (svc key class : string) : f64 :=
  match v with
  | None => f0
  | Some v =>
      let pens := default ∅ (classPen v !! class) in
      if bool_decide (class = "") || bool_decide (size pens = O) || isWS key then f0
      else default f0 (pens !! partyID svc (partyFor v key))
  end.

Definition partyPenalty (v : option chronicView) (svc key : string) : f64 :=
  let '(stale, trust) := partyPenalties v svc key in
  fmin (fmin (fmin (fmin stale trust) (policyPenalty v svc key)) (throttlePenalty v svc key))
    (duplicatePenalty v svc key).

Definition seedFor (v : option chronicView) (svc op rpc : string) : option f64 :=
  match v with
  | None => None
  | Some v =>
      if bool_decide (size (opSeed v) + size (partySeed v) = O)%nat then None
      else
        let seed := opSeed v !! (svc, op, rpc) in
        let seed := match partySeed v !! (svc, PartyOfOperator own op, rpc) with
          | Some p => match seed with
                      | None => Some p
                      | Some s => if fltb p s then Some p else Some s
                      end
          | None => seed
          end in
        match seed with
        | None => None
        | Some s => if gated (seedOn v) (seedGate v) svc then Some s else None
        end
  end.
End View.
End Rate.
