(* ===== verification/Pricing.v ===== *)
(** * Pricing: what a party's conduct costs it

    Models [reputation/dupshare.go], [reputation/staleshare.go],
    [reputation/throttleshare.go], [reputation/classshare.go] (the rules),
    [reputation/trust.go], [reputation/policy.go], [reputation/partystore.go]
    and [reputation/peerparties.go]: how counted evidence becomes penalties,
    how long a penalty outlives its evidence, and how pods and instances lend
    penalties to each other.

    A map is ranged over in an arbitrary order ([Ranging]); what is stored is
    whatever some leader wrote, however long ago. *)

From stdpp Require Import strings sorting.
From S2P Require Import Prelude Float64 Domain ScoreSink Rate.

(** Go ranges over a map in an order of its own. *)
Class Ranging := mkRanging {
  range : forall {K V : Type} `{Countable K}, gmap K V -> list (K * V);
  range_perm : forall {K V : Type} `{Countable K} (m : gmap K V), range m ≡ₚ map_to_list m
}.

Module Pricing.
Import Domain.
Import Rate.

(** [time.Unix(s, 0)]. *)
Definition fromUnix (s : Z) : Z := s * second.
Lemma Unix_le t : fromUnix (Unix t) <= t.
Proof. unfold fromUnix, Unix. pose proof (Z.mul_div_le t second eq_refl). lia. Qed.

(** A per-service gate, which may be unset. *)
Definition Gate : Type := option (string -> bool).
Definition isOn (g : Gate) (svc : string) : bool := match g with Some f => f svc | None => false end.

(** ** Grouping *)
Definition appendAt {K A : Type} `{Countable K} (m : gmap K (list A)) (k : K) (a : A) : gmap K (list A) :=
  <[k := default [] (m !! k) ++ [a]]> m.
Definition svcOf (id : opID) : string := id.1.1.
Definition opOf (id : opID) : string := id.1.2.

Section Grouping.
Context {A : Type} (mk : opID -> OperatorStat -> A) (enough : OperatorStat -> bool).

Definition bySvc (stats : list (opID * OperatorStat)) : gmap string (list A) :=
  foldl (λ m '(id, st), if enough st then appendAt m (svcOf id) (mk id st) else m) ∅ stats.

Definition groupOf (stats : list (opID * OperatorStat)) (svc : string) : list A :=
  omap (λ '(id, st), if enough st && bool_decide (svcOf id = svc) then Some (mk id st) else None) stats.

Lemma bySvc_lookup stats svc : default [] (bySvc stats !! svc) = groupOf stats svc.
Proof.
  unfold bySvc, groupOf. induction stats as [|[id st] l IH] using rev_ind; [done|].
  rewrite foldl_snoc, omap_app, <- IH. simpl. destruct (enough st); simpl; [|by rewrite app_nil_r].
  unfold appendAt. destruct (decide (svcOf id = svc)) as [<-|Hne].
  - rewrite bool_decide_true, lookup_insert_eq by done. done.
  - rewrite bool_decide_false, lookup_insert_ne by done. by rewrite app_nil_r.
Qed.

Lemma bySvc_some stats svc g : bySvc stats !! svc = Some g -> g = groupOf stats svc /\ g <> [].
Proof.
  intros E. pose proof (bySvc_lookup stats svc) as H. rewrite E in H. split; [done|]. revert E. clear H. unfold bySvc.
  induction stats as [|[id st] l IH] using rev_ind; [done|]. rewrite foldl_snoc. destruct (enough st); [|done].
  unfold appendAt. rewrite lookup_insert. case_decide; [|done]. intros [= <-]. by destruct (default _ _).
Qed.

Lemma elem_of_groupOf stats svc a :
  a ∈ groupOf stats svc <-> exists id st, (id, st) ∈ stats /\ svcOf id = svc /\ enough st = true /\ a = mk id st.
Proof.
  unfold groupOf. rewrite list_elem_of_omap. split.
  - intros ([id st] & Hin & E). destruct (enough st) eqn:?; [|done]. simpl in E. case_bool_decide; [|done].
    injection E as <-. eauto 10.
  - intros (id & st & Hin & <- & He & ->). exists (id, st). split; [done|]. by rewrite He, bool_decide_true.
Qed.
End Grouping.

(** ** Shares *)
Record PartyShare := mkShare {
  shService : string; shParty : string; Share : f64; shPenalty : f64; shPricedAt : Z
}.
Record shareRule := mkRule {
  minEvidence : f64; most : f64; hold : Z; ruleFloor : f64; ruleFull : f64
}.

Definition dupShareHalfLife : Z := 30 * minute.
Definition dupShareMinNotes : Z := 500.
Definition DuplicateSharePenalty : f64 := of_int (-40).
Definition dupRule : shareRule :=
  mkRule (of_int dupShareMinNotes) DuplicateSharePenalty dupShareHalfLife (lit 2 100) (lit 20 100).
Definition throttleShareHalfLife : Z := 30 * minute.
Definition throttleRule : shareRule :=
  mkRule (of_int 500) (of_int (-40)) throttleShareHalfLife (lit 2 100) (lit 15 100).
Definition classShareHalfLife : Z := 30 * minute.
Definition classRule : shareRule :=
  mkRule (of_int 200) (of_int (-40)) classShareHalfLife (lit 5 100) (lit 30 100).

Definition excessPenalty (excess floor full most : f64) : f64 :=
  if fleb excess floor then f0
  else if fleb full floor then most
  else fmul most (fmin f1 (fdiv (fsub excess floor) (fsub full floor))).

(** The lowest share, of one at most. *)
Definition best {A : Type} (share : A -> f64) (parties : list A) : f64 :=
  foldl (λ b p, fmin b (share p)) f1 parties.

Definition shareOf (st : OperatorStat) : f64 := fdiv (Failures st) (Attempts st).

Section Shares.
Context `{R : Ranging}.

Definition measuredShare (id : opID) (st : OperatorStat) : PartyShare :=
  mkShare (svcOf id) (opOf id) (shareOf st) f0 GoTime.zero.

Definition limitsFor (rule : shareRule) (limits : option (string -> f64 * f64)) (svc : string) : f64 * f64 :=
  match limits with Some f => f svc | None => (ruleFloor rule, ruleFull rule) end.
Definition priceGroup (rule : shareRule) (on : Gate) (limits : option (string -> f64 * f64)) (now : Z)
    (svc : string) (parties : list PartyShare) : list PartyShare :=
  let b := best Share parties in
  let charged := bool_decide (2 <= length parties)%nat && isOn on svc in
  let lim := limitsFor rule (if charged then limits else None) svc in
  (λ p, if charged
        then mkShare (shService p) (shParty p) (Share p)
               (excessPenalty (fsub (Share p) b) lim.1 lim.2 (most rule)) now
        else p) <$> parties.

Definition shareKey (p : PartyShare) : string * string := (shService p, shParty p).

Definition enoughFor (rule : shareRule) (st : OperatorStat) : bool := negb (fltb (Attempts st) (minEvidence rule)).
(** What a refresh measures and prices itself. *)
Definition sharesNow (stats : gmap opID OperatorStat) (rule : shareRule) (on : Gate)
    (limits : option (string -> f64 * f64)) (now : Z) : list PartyShare :=
  g ← range (bySvc measuredShare (enoughFor rule) (range stats)); priceGroup rule on limits now g.1 g.2.

Definition priceShares (stats : gmap opID OperatorStat) (rule : shareRule) (on : Gate)
    (limits : option (string -> f64 * f64)) (prev : list PartyShare) (now : Z) : list PartyShare :=
  let out := sharesNow stats rule on limits now in
  let measured : gset (string * string) := list_to_set (shareKey <$> out) in
  out ++ filter (λ p, fltb (shPenalty p) f0 = true /\ (shareKey p ∉ measured) /\ isOn on (shService p) = true /\
                      GoTime.Sub now (shPricedAt p) < hold rule) prev.
End Shares.

(** ** Stale heads: [staleshare.go] *)
Definition staleShareHalfLife : Z := 30 * minute.
Definition staleShareMinAnswers : f64 := of_int 50.
Definition staleShareFloor : f64 := lit 15 100.
(** [staleShareFull - staleShareFloor], which the compiler computes exactly:
    [0.45 - 0.15] in [float64] is not it. *)
Definition staleShareSpan : f64 := lit (45 - 15) 100.
Definition staleSharePenalty : f64 := of_int (-40).
Definition staleShareHold : Z := staleShareHalfLife.

Record PartyStale := mkStale {
  stService : string; stParty : string; stShare : f64; stPenalty : f64; Excess : f64;
  stPricedAt : Z; held : bool; stPeer : bool
}.
Definition stalePenalty (excess : f64) : f64 :=
  if fleb excess staleShareFloor then f0
  else fmul staleSharePenalty
         (fmin f1 (fdiv (fsub excess staleShareFloor) staleShareSpan)).

Section Stale.
Context `{R : Ranging}.

Definition measuredStale (id : opID) (st : OperatorStat) : PartyStale :=
  mkStale (svcOf id) (opOf id) (shareOf st) f0 f0 GoTime.zero false false.

Definition priceStale (on : Gate) (now : Z) (svc : string) (parties : list PartyStale) : list PartyStale :=
  let b := best stShare parties in
  (λ p,
    let p := if bool_decide (2 <= length parties)%nat
             then mkStale (stService p) (stParty p) (stShare p) (stPenalty p) (fsub (stShare p) b)
                    (stPricedAt p) (held p) (stPeer p) else p in
    if bool_decide (2 <= length parties)%nat && isOn on svc
    then mkStale (stService p) (stParty p) (stShare p) (stalePenalty (fsub (stShare p) b)) (Excess p)
           now (held p) (stPeer p) else p) <$> parties.

Definition staleKey (p : PartyStale) : string * string := (stService p, stParty p).

(** What a refresh measures itself. *)
Definition staleNow (stats : gmap opID OperatorStat) (on : Gate) (now : Z) : list PartyStale :=
  g ← range (bySvc measuredStale (λ st, negb (fltb (Attempts st) staleShareMinAnswers)) (range stats));
  priceStale on now g.1 g.2.

Definition hold_ (p : PartyStale) : PartyStale :=
  mkStale (stService p) (stParty p) (stShare p) (stPenalty p) (Excess p) (stPricedAt p) true (stPeer p).

Definition partyStale (stats : gmap opID OperatorStat) (on : Gate) (prev : list PartyStale) (now : Z)
    : list PartyStale :=
  let out := staleNow stats on now in
  let measured : gset (string * string) := list_to_set (staleKey <$> out) in
  out ++ (hold_ <$> filter (λ p, fltb (stPenalty p) f0 = true /\ (staleKey p ∉ measured) /\
                                isOn on (stService p) = true /\
                                GoTime.Sub now (stPricedAt p) < staleShareHold) prev).
End Stale.

(** ** Distrust: [trust.go] *)
Definition trustStaleServices : Z := 8.
Definition trustRefusalServices : Z := 2.
Definition trustRefusalMin : f64 := of_int 10.
Definition refusalHalfLife : Z := hour.
Definition trustHold : Z := 24 * hour.
Definition trustPenalty : f64 := of_int (-30).

Record PartyTrust := mkTrust {
  trParty : string; StaleServices : Z; RefusalServices : Z; trPenalty : f64; until : Z; trPeer : bool
}.
Definition noEvidence (party : string) : PartyTrust := mkTrust party 0 0 f0 GoTime.zero false.
Definition addStale (t : PartyTrust) : PartyTrust :=
  mkTrust (trParty t) (StaleServices t + 1) (RefusalServices t) (trPenalty t) (until t) (trPeer t).
Definition addRefusal (t : PartyTrust) : PartyTrust :=
  mkTrust (trParty t) (StaleServices t) (RefusalServices t + 1) (trPenalty t) (until t) (trPeer t).
Definition withUntil (u : Z) (t : PartyTrust) : PartyTrust :=
  mkTrust (trParty t) (StaleServices t) (RefusalServices t) (trPenalty t) u (trPeer t).

(** [get(party)] and a write through the pointer it returns. *)
Definition upd (f : PartyTrust -> PartyTrust) (party : string) (by_ : gmap string PartyTrust)
    : gmap string PartyTrust :=
  <[party := f (default (noEvidence party) (by_ !! party))]> by_.

Definition staleCounts (vetted : Gate) (p : PartyStale) : bool :=
  negb (held p) && fltb staleShareFloor (Excess p) && isOn vetted (stService p).
Definition refusalCounts (st : OperatorStat) : bool := fleb trustRefusalMin (Attempts st).
Definition carries (now : Z) (p : PartyTrust) : bool :=
  fltb (trPenalty p) f0 && GoTime.Before now (until p).

Definition conclude (now : Z) (t : PartyTrust) : PartyTrust :=
  let u := if bool_decide (trustStaleServices <= StaleServices t) ||
              bool_decide (trustRefusalServices <= RefusalServices t)
           then GoTime.Add now trustHold else until t in
  mkTrust (trParty t) (StaleServices t) (RefusalServices t)
    (if GoTime.Before now u then trustPenalty else trPenalty t) u (trPeer t).

Section Trust.
Context `{R : Ranging}.

Definition partyTrust (stale : list PartyStale) (refusals : gmap opID OperatorStat)
    (prev : list PartyTrust) (now : Z) (vetted : Gate) : list PartyTrust :=
  let by1 := foldl (λ m p, if staleCounts vetted p then upd addStale (stParty p) m else m) ∅ stale in
  let by2 := foldl (λ m r, if refusalCounts r.2 then upd addRefusal (opOf r.1) m else m)
               by1 (range refusals) in
  let by3 := foldl (λ m p, if carries now p then upd (withUntil (until p)) (trParty p) m else m)
               by2 prev in
  (λ p, conclude now p.2) <$> range by3.
End Trust.

(** ** Policy penalties: [policy.go] *)
Record PolicyPenalty := mkPolicy {
  poParty : string; poPenalty : f64; poReason : string; SetAt : Z; Until : Z
}.
Definition Active (p : PolicyPenalty) (now : Z) : bool :=
  GoTime.IsZero (Until p) || GoTime.Before now (Until p).
(** A storage may be unable to hold them, and a read may fail. *)
Definition ErrNoPolicyStore : string := "reputation storage cannot hold policy penalties".
Definition policyPenalties (store : option (string + list PolicyPenalty)) (prev : list PolicyPenalty)
    (now : Z) : list PolicyPenalty :=
  match store with
  | None => []
  | Some (inl _) => prev
  | Some (inr all) => filter (λ p, Active p now = true) all
  end.
Definition ListPolicyPenalties (store : option (string + list PolicyPenalty)) (now : Z)
    : string + list PolicyPenalty :=
  match store with
  | None => inl ErrNoPolicyStore
  | Some (inl err) => inl err
  | Some (inr all) => inr (filter (λ p, Active p now = true) all)
  end.

(** ** What the leader stores: [partystore.go] *)
Record StoredStale := mkStoredStale { ssService : string; ssParty : string; ssPenalty : f64; ssPricedAt : Z }.
Record StoredTrust := mkStoredTrust { strParty : string; strUntil : Z }.
Record PartyPenalties := mkParties { ppStale : list StoredStale; ppTrust : list StoredTrust }.
Definition noParties : PartyPenalties := mkParties [] [].

Definition storedPenalties (stale : list PartyStale) (trust : list PartyTrust) : PartyPenalties :=
  mkParties
    ((λ p, mkStoredStale (stService p) (stParty p) (stPenalty p) (Unix (stPricedAt p))) <$>
       filter (λ p, fltb (stPenalty p) f0 = true) stale)
    ((λ t, mkStoredTrust (trParty t) (Unix (until t))) <$> filter (λ t, fltb (trPenalty t) f0 = true) trust).

Definition adoptedStale (p : PartyPenalties) : list PartyStale :=
  (λ s, mkStale (ssService s) (ssParty s) f0 (ssPenalty s) f0 (fromUnix (ssPricedAt s)) true false) <$> ppStale p.
Definition adoptedTrust (p : PartyPenalties) : list PartyTrust :=
  (λ t, mkTrust (strParty t) 0 0 trustPenalty (fromUnix (strUntil t)) false) <$> ppTrust p.

(** ** What a peer lends: [peerparties.go] *)
Fixpoint indexOf {A : Type} (f : A -> bool) (l : list A) : option nat :=
  match l with
  | [] => None
  | a :: l => if f a then Some O else S <$> indexOf f l
  end.

Definition lendStale (served : string -> bool) (staleOn : Gate) (now : Z) (stale : list PartyStale)
    (ps : StoredStale) : list PartyStale :=
  let pricedAt := fromUnix (ssPricedAt ps) in
  if fleb f0 (ssPenalty ps) || bool_decide (staleShareHold <= GoTime.Sub now pricedAt) ||
     negb (served (ssService ps)) || negb (isOn staleOn (ssService ps))
  then stale
  else match indexOf (λ p, bool_decide (stService p = ssService ps) && bool_decide (stParty p = ssParty ps)) stale with
       | None => stale ++ [mkStale (ssService ps) (ssParty ps) f0 (ssPenalty ps) f0 pricedAt true true]
       | Some i =>
           alter (λ p, if fltb (ssPenalty ps) (stPenalty p)
                       then mkStale (stService p) (stParty p) (stShare p) (ssPenalty ps) (Excess p) pricedAt (held p) true
                       else p) i stale
       end.

Definition lendTrust (now : Z) (trust : list PartyTrust) (pt : StoredTrust) : list PartyTrust :=
  let u := fromUnix (strUntil pt) in
  if negb (GoTime.Before now u) then trust
  else match indexOf (λ t, bool_decide (trParty t = strParty pt)) trust with
       | None => trust ++ [mkTrust (strParty pt) 0 0 trustPenalty u true]
       | Some i =>
           alter (λ t, if fltb trustPenalty (trPenalty t)
                       then mkTrust (trParty t) (StaleServices t) (RefusalServices t) trustPenalty u true
                       else t) i trust
       end.

Definition mergePeerParties (stale : list PartyStale) (trust : list PartyTrust) (peer : PartyPenalties)
    (served : string -> bool) (staleOn : Gate) (now : Z) : list PartyStale * list PartyTrust :=
  (foldl (lendStale served staleOn now) stale (ppStale peer), foldl (lendTrust now) trust (ppTrust peer)).

(** ** One refresh of the parties

    The part of [refreshBaselines] that decides stale shares and distrust, from
    the evidence one refresh reads, in the order it ranges over it. *)
Record evidence := mkEvidence {
  eRange : Ranging; eNow : Z; eHeads : gmap opID OperatorStat; eRefusals : gmap opID OperatorStat;
  eStaleOn : Gate; eServed : string -> bool
}.
Record parties := mkPriced { stale : list PartyStale; trust : list PartyTrust }.

Definition refreshParties (prev : option parties) (peer : PartyPenalties) (e : evidence) : parties :=
  let R := eRange e in
  let stale0 := partyStale (eHeads e) (eStaleOn e) (match prev with Some p => stale p | None => [] end) (eNow e) in
  let trust0 := partyTrust stale0 (eRefusals e) (match prev with Some p => trust p | None => [] end) (eNow e)
                  (eStaleOn e) in
  if bool_decide (0 < length (ppStale peer) + length (ppTrust peer))%nat then
    let '(s, t) := mergePeerParties stale0 trust0 peer (eServed e) (eStaleOn e) (eNow e) in mkPriced s t
  else mkPriced stale0 trust0.

(** [adoptPartyPenalties]: what was stored is the view before the next one,
    unless this pod has priced a party itself. *)
Definition adoptSeed (cur : option parties) (stored : PartyPenalties) : option parties :=
  let own := match cur with Some c => (length (stale c) + length (trust c))%nat | None => O end in
  if bool_decide (own = O) then Some (mkPriced (adoptedStale stored) (adoptedTrust stored)) else cur.

(** ** Lemmas on one refresh *)
Lemma foldl_upd {X : Type} (cond : X -> bool) (f : X -> PartyTrust -> PartyTrust) (k : X -> string) l m P :
  foldl (λ m x, if cond x then upd (f x) (k x) m else m) m l !! P =
  match filter (λ x, cond x = true /\ k x = P) l with
  | [] => m !! P
  | l' => Some (foldl (λ t x, f x t) (default (noEvidence P) (m !! P)) l')
  end.
Proof.
  induction l as [|x l IH] using rev_ind; [done|]. rewrite foldl_snoc, filter_app, filter_cons, filter_nil.
  destruct (cond x) eqn:C; [|rewrite decide_False by naive_solver; by rewrite app_nil_r].
  unfold upd at 1. destruct (decide (k x = P)) as [<-|Hne].
  - rewrite lookup_insert_eq, IH, decide_True by done.
    destruct (filter _ l) as [|y l']; [done|]. simpl. by rewrite foldl_snoc.
  - rewrite lookup_insert_ne, IH, decide_False by naive_solver. by rewrite app_nil_r.
Qed.

Lemma elem_of_range `{Ranging} {K V : Type} `{Countable K} (m : gmap K V) k v : (k, v) ∈ range m <-> m !! k = Some v.
Proof. rewrite range_perm. apply elem_of_map_to_list. Qed.

Lemma indexOf_Some {A : Type} (f : A -> bool) l i : indexOf f l = Some i -> exists a, l !! i = Some a /\ f a = true.
Proof.
  revert i. induction l as [|a l IH]; intros i; simpl; [done|]. destruct (f a) eqn:F; [intros [= <-]; eauto|].
  destruct (indexOf f l) as [j|]; simpl; [|done]. intros [= <-]. simpl. eauto.
Qed.
Lemma elem_of_alter {A : Type} (f : A -> A) (i : nat) (l : list A) (a : A) :
  a ∈ alter f i l -> a ∈ l \/ exists b, l !! i = Some b /\ a = f b.
Proof.
  intros [j Hj]%list_elem_of_lookup. destruct (decide (i = j)) as [<-|Hne].
  - rewrite list_lookup_alter_eq in Hj. destruct (l !! i) as [b|]; [|done]. injection Hj as <-. eauto.
  - rewrite list_lookup_alter_ne in Hj by done. left. by eapply list_elem_of_lookup_2.
Qed.

(** *** Stale shares *)
Section StaleLemmas.
Context `{R : Ranging}.

Lemma staleNow_own stats on now p :
  p ∈ staleNow stats on now ->
  held p = false /\ stPeer p = false /\
  (fltb (stPenalty p) f0 = true -> stPricedAt p = now /\ isOn on (stService p) = true).
Proof.
  unfold staleNow. intros ([svc g] & Hp & [Hg _]%elem_of_range%bySvc_some)%list_elem_of_bind. simpl in Hp. subst g.
  unfold priceStale in Hp. apply list_elem_of_fmap in Hp as (p0 & -> & (id & st & _ & <- & _ & ->)%elem_of_groupOf).
  destruct (bool_decide _); simpl; [|done]. destruct (isOn on (svcOf id)) eqn:E; simpl; [|done]. auto.
Qed.

Lemma elem_of_partyStale stats on prev now q :
  q ∈ partyStale stats on prev now ->
  q ∈ staleNow stats on now \/
  exists p, p ∈ prev /\ q = hold_ p /\ fltb (stPenalty p) f0 = true /\ isOn on (stService p) = true /\
    now - stPricedAt p < staleShareHold.
Proof.
  unfold partyStale. rewrite elem_of_app. intros [Hq|Hq]; [by left|right].
  apply list_elem_of_fmap in Hq as (p & -> & [(Hn & _ & Ho & Hh) Hp]%list_elem_of_filter). exists p. split_and!; try done.
  apply GoTime.Sub_lt in Hh; [done|]. vm_compute; done.
Qed.

Lemma elem_of_lend served on now peer l q :
  q ∈ foldl (lendStale served on now) l peer -> fltb (stPenalty q) f0 = true ->
  q ∈ l \/
  exists ps, ps ∈ peer /\ stService q = ssService ps /\ stParty q = ssParty ps /\ stPenalty q = ssPenalty ps /\
    stPricedAt q = fromUnix (ssPricedAt ps) /\ now - fromUnix (ssPricedAt ps) < staleShareHold /\
    isOn on (ssService ps) = true.
Proof.
  revert q. induction peer as [|ps peer IH] using rev_ind; intros q; [by left|].
  rewrite foldl_snoc. intros Hq Hn. set (l' := foldl _ l peer) in *.
  assert (q ∈ l' -> q ∈ l \/ exists ps', ps' ∈ peer ++ [ps] /\ stService q = ssService ps' /\ stParty q = ssParty ps' /\
    stPenalty q = ssPenalty ps' /\ stPricedAt q = fromUnix (ssPricedAt ps') /\
    now - fromUnix (ssPricedAt ps') < staleShareHold /\ isOn on (ssService ps') = true) as Hold.
  { intros Hin. destruct (IH q Hin Hn) as [?|(ps' & ? & ?)]; [by left|]. right. exists ps'. split; [set_solver|done]. }
  unfold lendStale in Hq.
  destruct (fleb f0 (ssPenalty ps)); simpl in Hq; [auto|].
  destruct (bool_decide_reflect (staleShareHold <= GoTime.Sub now (fromUnix (ssPricedAt ps)))) as [|Hfresh]; simpl in Hq; [auto|].
  destruct (served _); simpl in Hq; [|auto]. destruct (isOn on (ssService ps)) eqn:Ho; simpl in Hq; [|auto].
  assert (now - fromUnix (ssPricedAt ps) < staleShareHold) as Hf.
  { apply (GoTime.Sub_lt now (fromUnix (ssPricedAt ps)) staleShareHold); [vm_compute; done|lia]. }
  destruct (indexOf _ l') as [i|] eqn:Ei.
  - apply indexOf_Some in Ei as (p & Hp & [E1%bool_decide_eq_true E2%bool_decide_eq_true]%andb_true_iff).
    apply elem_of_alter in Hq as [?|(p' & Hp' & ->)]; [auto|]. simplify_eq.
    destruct (fltb (ssPenalty ps) (stPenalty p)); [|apply Hold; by eapply list_elem_of_lookup_2].
    right. exists ps. split_and!; try done. set_solver.
  - apply elem_of_app in Hq as [?| ->%list_elem_of_singleton]; [auto|]. right. exists ps. split_and!; try done. set_solver.
Qed.
End StaleLemmas.

(** *** Distrust *)
Definition staleServices (vetted : Gate) (l : list PartyStale) (party : string) : nat :=
  length (filter (λ p, staleCounts vetted p = true /\ stParty p = party) l).
Definition refusalServices (refusals : gmap opID OperatorStat) (party : string) : nat :=
  length (filter (λ r : opID * OperatorStat, refusalCounts r.2 = true /\ opOf r.1 = party) (map_to_list refusals)).
Definition enoughEvidence (vetted : Gate) (l : list PartyStale) (refusals : gmap opID OperatorStat) (party : string) : Prop :=
  trustStaleServices <= Z.of_nat (staleServices vetted l party) \/
  trustRefusalServices <= Z.of_nat (refusalServices refusals party).

(** The fields a fold of updates leaves alone, and the counters it moves. *)
Lemma foldl_addStale {X : Type} (l : list X) t :
  foldl (λ t _, addStale t) t l =
  mkTrust (trParty t) (StaleServices t + Z.of_nat (length l)) (RefusalServices t) (trPenalty t) (until t) (trPeer t).
Proof.
  revert t. induction l as [|x l IH]; intros t; [destruct t; simpl; f_equal; lia|].
  change (foldl _ t (x :: l)) with (foldl (λ t (_ : X), addStale t) (addStale t) l). rewrite IH. simpl. f_equal. lia.
Qed.
Lemma foldl_addRefusal {X : Type} (l : list X) t :
  foldl (λ t _, addRefusal t) t l =
  mkTrust (trParty t) (StaleServices t) (RefusalServices t + Z.of_nat (length l)) (trPenalty t) (until t) (trPeer t).
Proof.
  revert t. induction l as [|x l IH]; intros t; [destruct t; simpl; f_equal; lia|].
  change (foldl _ t (x :: l)) with (foldl (λ t (_ : X), addRefusal t) (addRefusal t) l). rewrite IH. simpl. f_equal. lia.
Qed.
Lemma foldl_withUntil (l : list PartyTrust) t :
  l <> [] -> exists p, last l = Some p /\ foldl (λ t p, withUntil (until p) t) t l = withUntil (until p) t.
Proof.
  destruct l as [|p l _] using rev_ind; [done|]. intros _. exists p. rewrite last_snoc, foldl_snoc. split; [done|].
  revert p t. induction l as [|q l IH]; intros p t; [done|]. exact (IH p (withUntil (until q) t)).
Qed.

Section TrustLemmas.
Context `{R : Ranging}.
Context (l : list PartyStale) (refusals : gmap opID OperatorStat) (prev : list PartyTrust) (now : Z) (vetted : Gate).

Definition tallied : gmap string PartyTrust :=
  foldl (λ m r, if refusalCounts r.2 then upd addRefusal (opOf r.1) m else m)
    (foldl (λ m p, if staleCounts vetted p then upd addStale (stParty p) m else m) ∅ l) (range refusals).
Definition evidenceOf (party : string) : PartyTrust :=
  mkTrust party (Z.of_nat (staleServices vetted l party)) (Z.of_nat (refusalServices refusals party)) f0 GoTime.zero false.

Lemma refusals_ranged party :
  length (filter (λ r : opID * OperatorStat, refusalCounts r.2 = true /\ opOf r.1 = party) (range refusals)) =
  refusalServices refusals party.
Proof. unfold refusalServices. by rewrite range_perm. Qed.

(** What the tally holds of a party is what was counted of it. *)
Lemma tallied_lookup party : default (noEvidence party) (tallied !! party) = evidenceOf party.
Proof.
  unfold tallied. rewrite (foldl_upd (λ r, refusalCounts r.2) (λ _, addRefusal) (λ r, opOf r.1)).
  rewrite (foldl_upd (staleCounts vetted) (λ _, addStale) stParty), lookup_empty.
  unfold evidenceOf, staleServices. rewrite <- refusals_ranged.
  destruct (filter _ l) as [|q l1]; destruct (filter _ (range refusals)) as [|r l2]; [done|..];
    rewrite ?foldl_addStale, ?foldl_addRefusal; simpl; by rewrite ?foldl_addStale, ?foldl_addRefusal; simpl; f_equal; lia.
Qed.

Lemma elem_of_partyTrust t :
  t ∈ partyTrust l refusals prev now vetted ->
  exists u, t = conclude now (withUntil u (evidenceOf (trParty t))) /\
    (u = GoTime.zero \/ exists p, p ∈ prev /\ trParty p = trParty t /\ carries now p = true /\ u = until p).
Proof.
  unfold partyTrust. fold tallied. intros ([P t0] & -> & Ht%elem_of_range)%list_elem_of_fmap. simpl.
  rewrite (foldl_upd (carries now) (λ p, withUntil (until p)) trParty) in Ht.
  assert (t0 = evidenceOf P \/ exists p, p ∈ prev /\ trParty p = P /\ carries now p = true /\
    t0 = withUntil (until p) (evidenceOf P)) as [->|(p & Hp & <- & Hc & ->)].
  { destruct (filter _ prev) as [|q l'] eqn:F.
    - left. by rewrite <- tallied_lookup, Ht.
    - right. assert (t0 = foldl (λ t x, withUntil (until x) t) (default (noEvidence P) (tallied !! P)) (q :: l')) as ->
        by (by injection Ht). rewrite <- F, tallied_lookup.
      destruct (foldl_withUntil (filter (λ x, carries now x = true /\ trParty x = P) prev) (evidenceOf P)) as (p & Hl & ->).
      { by rewrite F. }
      apply last_Some_elem_of, list_elem_of_filter in Hl as [[? ?] ?]. eauto 6. }
  - exists GoTime.zero. split; [done|by left].
  - exists (until p). split; [done|]. right. eauto 6.
Qed.

Lemma partyTrust_caught t :
  GoTime.zero <= now -> t ∈ partyTrust l refusals prev now vetted -> fltb (trPenalty t) f0 = true ->
  trPenalty t = trustPenalty /\ now < until t /\
  ((enoughEvidence vetted l refusals (trParty t) /\ until t = now + trustHold) \/
   exists p, p ∈ prev /\ trParty p = trParty t /\ fltb (trPenalty p) f0 = true /\ until t = until p).
Proof.
  intros Hz (u & Ht & Hu)%elem_of_partyTrust. rewrite Ht. unfold conclude. simpl.
  set (P := trParty t) in *. clearbody P. clear Ht t.
  destruct (bool_decide_reflect (trustStaleServices <= Z.of_nat (staleServices vetted l P))) as [Hs|_];
    [|destruct (bool_decide_reflect (trustRefusalServices <= Z.of_nat (refusalServices refusals P))) as [Hs|_]]; simpl;
    unfold GoTime.Add, GoTime.Before; intros Hn.
  - rewrite bool_decide_true by (unfold trustHold, hour, minute, second; lia).
    split_and!; [done|unfold trustHold, hour, minute, second; lia|]. left. split; [by left|done].
  - rewrite bool_decide_true by (unfold trustHold, hour, minute, second; lia).
    split_and!; [done|unfold trustHold, hour, minute, second; lia|]. left. split; [by right|done].
  - case_bool_decide as Hb; [|done]. split_and!; [done..|]. right. destruct Hu as [->|(p & ? & ? & Hc & ->)]; [lia|].
    apply andb_true_iff in Hc as [? _]. eauto.
Qed.
End TrustLemmas.

Lemma elem_of_lendTrust now peer l t :
  t ∈ foldl (lendTrust now) l peer ->
  t ∈ l \/ exists pt, pt ∈ peer /\ trParty t = strParty pt /\ trPenalty t = trustPenalty /\
    until t = fromUnix (strUntil pt) /\ now < until t.
Proof.
  revert t. induction peer as [|pt peer IH] using rev_ind; intros t; [by left|].
  rewrite foldl_snoc. set (l' := foldl _ l peer) in *. intros Ht.
  assert (t ∈ l' -> t ∈ l \/ exists pt', pt' ∈ peer ++ [pt] /\ trParty t = strParty pt' /\ trPenalty t = trustPenalty /\
    until t = fromUnix (strUntil pt') /\ now < until t) as Hold.
  { intros Hin. destruct (IH t Hin) as [?|(pt' & ? & ?)]; [by left|]. right. exists pt'. split; [set_solver|done]. }
  unfold lendTrust in Ht. destruct (GoTime.Before now _) eqn:B; simpl in Ht; [|auto]. apply GoTime.Before_spec in B.
  destruct (indexOf _ l') as [i|] eqn:Ei.
  - apply indexOf_Some in Ei as (p & Hp & E%bool_decide_eq_true).
    apply elem_of_alter in Ht as [?|(p' & Hp' & ->)]; [auto|]. simplify_eq.
    destruct (fltb trustPenalty (trPenalty p)); [|apply Hold; by eapply list_elem_of_lookup_2].
    right. exists pt. split_and!; try done. set_solver.
  - apply elem_of_app in Ht as [?| ->%list_elem_of_singleton]; [auto|]. right. exists pt. split_and!; try done. set_solver.
Qed.

(** ** The fleet

    Pods start with no view.  A pod refreshes from its own last view, or from
    what some leader stored when it has priced nobody yet, and may read a peer's
    store; the values stored are those any leader ever wrote.  Nothing is
    assumed of the pods' clocks but that they read a time after year one. *)
Record fleet := mkFleet {
  pods : gmap string (option parties); written : list PartyPenalties; log : list evidence
}.
Definition noFleet : fleet := mkFleet ∅ [] [].

Definition mayRead (f : fleet) (peer : PartyPenalties) : Prop := peer = noParties \/ peer ∈ written f.
Inductive startsFrom (f : fleet) (cur : option parties) : option parties -> Prop :=
| starts_own : startsFrom f cur cur
| starts_stored stored :
    stored ∈ written f -> (0 < length (ppStale stored) + length (ppTrust stored))%nat ->
    startsFrom f cur (adoptSeed cur stored).

Inductive step (f : fleet) : fleet -> Prop :=
| step_boot n : step f (mkFleet (<[n := None]> (pods f)) (written f) (log f))
| step_refresh n cur prev peer e (leads : bool) :
    pods f !! n = Some cur -> startsFrom f cur prev -> mayRead f peer -> GoTime.zero <= eNow e ->
    let v := refreshParties prev peer e in
    step f (mkFleet (<[n := Some v]> (pods f))
              (if leads then storedPenalties (stale v) (trust v) :: written f else written f) (e :: log f)).

(** What one refresh sees for itself. *)
Definition caughtStale (e : evidence) (svc party : string) (pen : f64) : Prop :=
  exists p, p ∈ staleNow (R := eRange e) (eHeads e) (eStaleOn e) (eNow e) /\
    stService p = svc /\ stParty p = party /\ stPenalty p = pen.
Definition caughtFaking (e : evidence) (party : string) : Prop :=
  enoughEvidence (eStaleOn e) (staleNow (R := eRange e) (eHeads e) (eStaleOn e) (eNow e)) (eRefusals e) party.

Definition groundedStale (lg : list evidence) (svc party : string) (pen : f64) (at_ : Z) : Prop :=
  exists e, e ∈ lg /\ caughtStale e svc party pen /\ at_ <= eNow e.
Definition groundedTrust (lg : list evidence) (party : string) (u : Z) : Prop :=
  exists e, e ∈ lg /\ caughtFaking e party /\ u <= eNow e + trustHold.

Record grounded (lg : list evidence) (v : parties) : Prop := mkGrounded {
  grounded_stale : forall q, q ∈ stale v -> fltb (stPenalty q) f0 = true ->
    groundedStale lg (stService q) (stParty q) (stPenalty q) (stPricedAt q);
  grounded_trust : forall t, t ∈ trust v -> fltb (trPenalty t) f0 = true -> groundedTrust lg (trParty t) (until t)
}.
Definition groundedStored (lg : list evidence) (w : PartyPenalties) : Prop :=
  (forall s, s ∈ ppStale w -> groundedStale lg (ssService s) (ssParty s) (ssPenalty s) (fromUnix (ssPricedAt s))) /\
  (forall t, t ∈ ppTrust w -> groundedTrust lg (strParty t) (fromUnix (strUntil t))).

Lemma groundedStale_cons e lg svc party pen at_ :
  groundedStale lg svc party pen at_ -> groundedStale (e :: lg) svc party pen at_.
Proof. intros (e' & ? & ?). exists e'. split; [by right|done]. Qed.
Lemma groundedTrust_cons e lg party u : groundedTrust lg party u -> groundedTrust (e :: lg) party u.
Proof. intros (e' & ? & ?). exists e'. split; [by right|done]. Qed.
#[local] Hint Resolve groundedStale_cons groundedTrust_cons : core.

Lemma stored_grounded lg v : grounded lg v -> groundedStored lg (storedPenalties (stale v) (trust v)).
Proof.
  intros [Hs Ht]. split.
  - intros s (p & -> & [Hn Hp]%list_elem_of_filter)%list_elem_of_fmap. simpl.
    destruct (Hs p Hp Hn) as (e & ? & ? & ?). exists e. split_and!; [done..|]. pose proof (Unix_le (stPricedAt p)). lia.
  - intros s (t & -> & [Hn Hp]%list_elem_of_filter)%list_elem_of_fmap. simpl.
    destruct (Ht t Hp Hn) as (e & ? & ? & ?). exists e. split_and!; [done..|]. pose proof (Unix_le (until t)). lia.
Qed.

Lemma adopted_grounded lg cur w :
  (forall v, cur = Some v -> grounded lg v) -> groundedStored lg w ->
  forall v, adoptSeed cur w = Some v -> grounded lg v.
Proof.
  intros Hc [Hs Ht] v. unfold adoptSeed. case_bool_decide; [|auto]. intros [= <-]. split; simpl.
  - intros q (s & -> & Hin)%list_elem_of_fmap. simpl. auto.
  - intros t (s & -> & Hin)%list_elem_of_fmap. simpl. auto.
Qed.

(** A held share is no evidence of faking. *)
Lemma held_counts_nothing `{Ranging} stats on prev now vetted party :
  staleServices vetted (partyStale stats on prev now) party = staleServices vetted (staleNow stats on now) party.
Proof.
  unfold staleServices, partyStale. rewrite filter_app, length_app.
  assert (forall l : list PartyStale, filter (λ p, staleCounts vetted p = true /\ stParty p = party) (hold_ <$> l) = []) as ->.
  { induction l as [|q l IH]; [done|]. rewrite fmap_cons, filter_cons, decide_False; [done|]. by intros []. }
  simpl. by rewrite Nat.add_0_r.
Qed.
Lemma held_is_no_evidence `{Ranging} stats on prev now vetted refusals party :
  enoughEvidence vetted (partyStale stats on prev now) refusals party ->
  enoughEvidence vetted (staleNow stats on now) refusals party.
Proof. unfold enoughEvidence. by rewrite held_counts_nothing. Qed.

(** The penalties a refresh leaves are grounded, and still within their holds. *)
Lemma refresh_grounded lg prev peer e :
  (forall v, prev = Some v -> grounded lg v) -> groundedStored lg peer -> GoTime.zero <= eNow e ->
  let v := refreshParties prev peer e in
  grounded (e :: lg) v /\
  (forall q, q ∈ stale v -> fltb (stPenalty q) f0 = true ->
     eNow e - stPricedAt q < staleShareHold /\ isOn (eStaleOn e) (stService q) = true) /\
  (forall t, t ∈ trust v -> fltb (trPenalty t) f0 = true -> trPenalty t = trustPenalty /\ eNow e < until t).
Proof.
  intros Hprev [Hps Hpt] Hz v.
  set (R := eRange e). set (ps := match prev with Some p => stale p | None => [] end).
  set (pt := match prev with Some p => trust p | None => [] end).
  set (stale0 := partyStale (eHeads e) (eStaleOn e) ps (eNow e)).
  set (trust0 := partyTrust stale0 (eRefusals e) pt (eNow e) (eStaleOn e)).
  assert (forall q, q ∈ stale0 -> fltb (stPenalty q) f0 = true ->
    groundedStale (e :: lg) (stService q) (stParty q) (stPenalty q) (stPricedAt q) /\
    eNow e - stPricedAt q < staleShareHold /\ isOn (eStaleOn e) (stService q) = true) as H1.
  { intros q [Hq|(p & Hp & -> & Hn & Ho & Hh)]%elem_of_partyStale Hneg.
    - destruct (staleNow_own _ _ _ _ Hq) as (_ & _ & [Hat Ho]); [done|]. rewrite Hat. split_and!; [|unfold staleShareHold, staleShareHalfLife, minute, second; lia|done].
      exists e. split_and!; [by left|by exists q|lia].
    - simpl. split_and!; [|done..]. apply groundedStale_cons. unfold ps in Hp. destruct prev as [w|]; [|by apply not_elem_of_nil in Hp].
      by apply (grounded_stale lg w (Hprev w eq_refl)). }
  assert (forall t, t ∈ trust0 -> fltb (trPenalty t) f0 = true ->
    groundedTrust (e :: lg) (trParty t) (until t) /\ trPenalty t = trustPenalty /\ eNow e < until t) as H2.
  { intros t Ht Hneg. destruct (partyTrust_caught _ _ _ _ _ t Hz Ht Hneg) as (Hpen & Hu & Hwhy).
    split_and!; [|done..]. destruct Hwhy as [[He ->]|(p & Hp & <- & Hn & ->)].
    - exists e. split_and!; [by left| |lia]. by apply held_is_no_evidence in He.
    - apply groundedTrust_cons. unfold pt in Hp. destruct prev as [w|]; [|by apply not_elem_of_nil in Hp].
      by apply (grounded_trust lg w (Hprev w eq_refl)). }
  assert (v = mkPriced stale0 trust0 \/
    v = mkPriced (foldl (lendStale (eServed e) (eStaleOn e) (eNow e)) stale0 (ppStale peer))
          (foldl (lendTrust (eNow e)) trust0 (ppTrust peer))) as [->| ->].
  { unfold v, refreshParties. case_bool_decide; [by right|by left]. }
  { split_and!; [split|..]; intros ? Hin Hneg; simpl in Hin; try (by destruct (H1 _ Hin Hneg) as (? & ? & ?)); by destruct (H2 _ Hin Hneg) as (? & ? & ?). }
  assert (forall q, q ∈ foldl (lendStale (eServed e) (eStaleOn e) (eNow e)) stale0 (ppStale peer) -> fltb (stPenalty q) f0 = true ->
    groundedStale (e :: lg) (stService q) (stParty q) (stPenalty q) (stPricedAt q) /\
    eNow e - stPricedAt q < staleShareHold /\ isOn (eStaleOn e) (stService q) = true) as H3.
  { intros q Hq Hneg. destruct (elem_of_lend _ _ _ _ _ _ Hq Hneg) as [?|(s & Hs & -> & -> & -> & -> & ? & ?)]; [auto|]. auto. }
  assert (forall t, t ∈ foldl (lendTrust (eNow e)) trust0 (ppTrust peer) -> fltb (trPenalty t) f0 = true ->
    groundedTrust (e :: lg) (trParty t) (until t) /\ trPenalty t = trustPenalty /\ eNow e < until t) as H4.
  { intros t Ht Hneg. destruct (elem_of_lendTrust _ _ _ _ Ht) as [?|(s & Hs & -> & ? & E & ?)]; [auto|].
    split_and!; try done. rewrite E. auto. }
  split_and!; [split|..]; intros ? Hin Hneg; simpl in Hin;
    try (by destruct (H3 _ Hin Hneg) as (? & ? & ?)); by destruct (H4 _ Hin Hneg) as (? & ? & ?).
Qed.

Lemma fleet_grounded f :
  rtc step noFleet f ->
  (forall n v, pods f !! n = Some (Some v) -> grounded (log f) v) /\ (forall w, w ∈ written f -> groundedStored (log f) w).
Proof.
  intros Hr. remember noFleet as f0 eqn:E0.
  assert ((forall n v, pods f0 !! n = Some (Some v) -> grounded (log f0) v) /\
          (forall w, w ∈ written f0 -> groundedStored (log f0) w)) as Hi.
  { subst. split; [intros n v; simpl; by rewrite lookup_empty|by intros w ?%not_elem_of_nil]. }
  clear E0. induction Hr as [|f0 f1 f2 Hstep _ IH]; [done|]. apply IH. clear IH. destruct Hi as [Hv Hw].
  destruct Hstep as [n|n cur prev peer e leads Hn Hfrom Hread Hz v]; simpl.
  { split; [|done]. intros m v. rewrite lookup_insert. case_decide; [done|apply Hv]. }
  assert (forall v, prev = Some v -> grounded (log f0) v) as Hprev.
  { destruct Hfrom as [|stored Hs _]; [intros w ->; eauto|]. apply adopted_grounded; [intros w ->; eauto|auto]. }
  assert (groundedStored (log f0) peer) as Hpeer.
  { destruct Hread as [->|Hin]; [split; by intros ? ?%not_elem_of_nil|auto]. }
  destruct (refresh_grounded (log f0) prev peer e Hprev Hpeer Hz) as [Hg _]. fold v in Hg.
  assert (forall w, groundedStored (log f0) w -> groundedStored (e :: log f0) w) as Hmono.
  { intros w [? ?]. split; auto. }
  split.
  - intros m w. rewrite lookup_insert. case_decide; [intros [= <-]; done|]. intros Hm. destruct (Hv m w Hm). split; auto.
  - intros w. destruct leads; [intros [->|?]%elem_of_cons|]; [by apply stored_grounded|auto..].
Qed.

(** C24. No penalty outlives its evidence, however pods and instances lend each
    other what they stored.  In every view any pod computes, in a fleet where
    pods restart, adopt what a leader stored and borrow from peers in any order
    and for ever: a party charged for stale heads in a service was measured and
    charged that very penalty there by some refresh less than half an hour ago,
    in a service where the flag is on now; and a distrusted party was caught
    faking by some refresh less than a day ago, on that refresh's own
    measurements, never on a penalty held or lent. *)
Theorem every_penalty_has_evidence f n cur prev peer e :
  rtc step noFleet f -> pods f !! n = Some cur -> startsFrom f cur prev -> mayRead f peer -> GoTime.zero <= eNow e ->
  let v := refreshParties prev peer e in
  (forall q, q ∈ stale v -> fltb (stPenalty q) f0 = true ->
     isOn (eStaleOn e) (stService q) = true /\
     exists e', e' ∈ e :: log f /\ caughtStale e' (stService q) (stParty q) (stPenalty q) /\
       eNow e < eNow e' + staleShareHold) /\
  (forall t, t ∈ trust v -> fltb (trPenalty t) f0 = true ->
     trPenalty t = trustPenalty /\
     exists e', e' ∈ e :: log f /\ caughtFaking e' (trParty t) /\ eNow e < eNow e' + trustHold).
Proof.
  intros [Hv Hw]%fleet_grounded Hn Hfrom Hread Hz v.
  assert (forall v, prev = Some v -> grounded (log f) v) as Hprev.
  { destruct Hfrom as [|stored Hs _]; [intros w ->; eauto|]. apply adopted_grounded; [intros w ->; eauto|auto]. }
  assert (groundedStored (log f) peer) as Hpeer.
  { destruct Hread as [->|Hin]; [split; by intros ? ?%not_elem_of_nil|auto]. }
  destruct (refresh_grounded (log f) prev peer e Hprev Hpeer Hz) as ([Gs Gt] & Fs & Ft). fold v in Gs, Gt, Fs, Ft.
  split.
  - intros q Hq Hneg. destruct (Fs q Hq Hneg), (Gs q Hq Hneg) as (e' & ? & ? & ?). split; [done|]. exists e'. split_and!; [done..|lia].
  - intros t Ht Hneg. destruct (Ft t Ht Hneg), (Gt t Ht Hneg) as (e' & ? & ? & ?). split; [done|]. exists e'. split_and!; [done..|lia].
Qed.

(** ** Distrust lasts *)
Definition distrusted (b : Z) (party : string) (l : list PartyTrust) : Prop :=
  exists t, t ∈ l /\ trParty t = party /\ trPenalty t = trustPenalty /\ b <= until t.

Section Lasts.
Context `{R : Ranging}.
Context (l : list PartyStale) (refusals : gmap opID OperatorStat) (now : Z) (vetted : Gate).

Definition carried (prev : list PartyTrust) : gmap string PartyTrust :=
  foldl (λ m p, if carries now p then upd (withUntil (until p)) (trParty p) m else m) (tallied l refusals vetted) prev.

Lemma carried_lookup prev P :
  carried prev !! P =
  match filter (λ p, carries now p = true /\ trParty p = P) prev with
  | [] => tallied l refusals vetted !! P
  | l' => Some (foldl (λ t p, withUntil (until p) t) (evidenceOf l refusals vetted P) l')
  end.
Proof.
  unfold carried. rewrite (foldl_upd (carries now) (λ p, withUntil (until p)) trParty).
  by destruct (filter _ prev); rewrite ?tallied_lookup.
Qed.

Lemma carried_party prev P t : carried prev !! P = Some t -> trParty t = P.
Proof.
  rewrite carried_lookup. destruct (filter _ prev) as [|q l'] eqn:F.
  - intros E. pose proof (tallied_lookup l refusals vetted P) as T. rewrite E in T. simpl in T. by rewrite T.
  - rewrite <- F. intros [= <-].
    destruct (foldl_withUntil (filter (λ p, carries now p = true /\ trParty p = P) prev) (evidenceOf l refusals vetted P))
      as (p & _ & ->); [by rewrite F|done].
Qed.

Lemma partyTrust_nodup prev : NoDup (trParty <$> partyTrust l refusals prev now vetted).
Proof.
  unfold partyTrust. fold (tallied l refusals vetted). fold (carried prev).
  rewrite <- list_fmap_compose.
  rewrite (list_fmap_ext _ fst (range (carried prev))).
  - rewrite range_perm. apply NoDup_fst_map_to_list.
  - intros i [P t] Ht%list_elem_of_lookup_2%elem_of_range. simpl. by apply (carried_party prev).
Qed.

(** What is concluded of a party with evidence, or with a penalty to carry. *)
Lemma concluded_distrusted prev P t b :
  carried prev !! P = Some t -> now < b -> b <= now + trustHold ->
  (enoughEvidence vetted l refusals P /\ StaleServices t = Z.of_nat (staleServices vetted l P) /\
     RefusalServices t = Z.of_nat (refusalServices refusals P) \/ b <= until t) ->
  distrusted b P (partyTrust l refusals prev now vetted).
Proof.
  intros Ht Hb Hb' Hwhy. exists (conclude now t). split_and!.
  - unfold partyTrust. fold (tallied l refusals vetted). fold (carried prev). apply list_elem_of_fmap.
    exists (P, t). split; [done|by apply elem_of_range].
  - simpl. by apply carried_party in Ht.
  - unfold conclude, GoTime.Before, GoTime.Add. simpl. rewrite bool_decide_true; [done|].
    destruct Hwhy as [([H|H] & Es & Er)|H].
    + rewrite bool_decide_true by (rewrite Es; exact H). simpl. lia.
    + rewrite (bool_decide_true (trustRefusalServices <= _)) by (rewrite Er; exact H). rewrite orb_true_r. lia.
    + destruct (_ || _); lia.
  - unfold conclude, GoTime.Add. simpl. destruct Hwhy as [([H|H] & Es & Er)|H].
    + rewrite bool_decide_true by (rewrite Es; exact H). done.
    + rewrite (bool_decide_true (trustRefusalServices <= _)) by (rewrite Er; exact H). by rewrite orb_true_r.
    + destruct (_ || _); lia.
Qed.

Lemma evidence_distrusts prev P b :
  enoughEvidence vetted l refusals P -> now < b -> b <= now + trustHold ->
  distrusted b P (partyTrust l refusals prev now vetted).
Proof.
  intros He Hb Hb'.
  assert (exists t, carried prev !! P = Some t /\ exists u, t = withUntil u (evidenceOf l refusals vetted P)) as (t & Ht & u & Eu).
  { rewrite carried_lookup. destruct (filter _ prev) as [|q l'] eqn:F.
    - pose proof (tallied_lookup l refusals vetted P) as T. destruct (tallied l refusals vetted !! P) as [t|].
      + exists t. split; [done|]. exists GoTime.zero. simpl in T. by rewrite T.
      + exfalso. simpl in T. injection T as E1 E2. destruct He as [He|He]; rewrite <- ?E1, <- ?E2 in He; vm_compute in He; done.
    - rewrite <- F. destruct (foldl_withUntil (filter (λ p, carries now p = true /\ trParty p = P) prev)
        (evidenceOf l refusals vetted P)) as (p & _ & ->); [by rewrite F|eauto]. }
  eapply concluded_distrusted; [done..|]. left. by rewrite Eu.
Qed.

Lemma carry_distrusts prev P b :
  NoDup (trParty <$> prev) -> distrusted b P prev -> now < b -> b <= now + trustHold ->
  distrusted b P (partyTrust l refusals prev now vetted).
Proof.
  intros Hnd (t & Ht & HP & Hpen & Hu) Hb Hb'.
  assert (t ∈ filter (λ p, carries now p = true /\ trParty p = P) prev) as Hin.
  { apply list_elem_of_filter. split; [|done]. split; [|done]. unfold carries, GoTime.Before. rewrite Hpen, bool_decide_true by lia. done. }
  destruct (foldl_withUntil (filter (λ p, carries now p = true /\ trParty p = P) prev) (evidenceOf l refusals vetted P))
    as (p & Hl & Ef); [intros E; rewrite E in Hin; by apply not_elem_of_nil in Hin|].
  apply (concluded_distrusted prev P (withUntil (until p) (evidenceOf l refusals vetted P))); [|done..|right].
  - rewrite carried_lookup. rewrite <- Ef. destruct (filter _ prev); [by apply not_elem_of_nil in Hin|done].
  - apply last_Some_elem_of, list_elem_of_filter in Hl as [[_ HP'] Hp].
    apply list_elem_of_lookup in Hp as [i Hi], Ht as [j Hj].
    assert (i = j) as <-; [|by simplify_eq].
    eapply (NoDup_lookup _ i j P Hnd); rewrite list_lookup_fmap; [by rewrite Hi; simpl; rewrite HP'|by rewrite Hj; simpl; rewrite HP].
Qed.
End Lasts.

Lemma lendTrust_distrusted now b P l pt : distrusted b P l -> distrusted b P (lendTrust now l pt).
Proof.
  intros (t & Ht & HP & Hpen & Hu). exists t. split_and!; try done. unfold lendTrust.
  destruct (GoTime.Before _ _); simpl; [|done]. destruct (indexOf _ l) as [i|]; [|set_solver].
  apply list_elem_of_lookup in Ht as [j Hj]. apply (list_elem_of_lookup_2 _ j).
  destruct (decide (i = j)) as [<-|]; [|by rewrite list_lookup_alter_ne].
  rewrite list_lookup_alter_eq, Hj. simpl. by rewrite Hpen, fltb_irrefl.
Qed.
Lemma indexOf_None {A : Type} (f : A -> bool) l a : indexOf f l = None -> a ∈ l -> f a = false.
Proof.
  induction l as [|b l IH]; simpl; [by intros _ ?%not_elem_of_nil|]. destruct (f b) eqn:F; [done|].
  destruct (indexOf f l); [done|]. intros _ [->|?]%elem_of_cons; auto.
Qed.
Lemma list_fmap_alter_id {A B : Type} (g : A -> B) (f : A -> A) i (l : list A) :
  (forall a, g (f a) = g a) -> g <$> alter f i l = g <$> l.
Proof.
  intros H. revert i. induction l as [|a l IH]; intros [|i]; csimpl; try done; f_equal; [apply H|apply IH].
Qed.
Lemma lendTrust_nodup now l pt : NoDup (trParty <$> l) -> NoDup (trParty <$> lendTrust now l pt).
Proof.
  intros Hnd. unfold lendTrust. destruct (GoTime.Before _ _); simpl; [|done]. destruct (indexOf _ l) as [i|] eqn:E.
  - rewrite (list_fmap_alter_id trParty); [done|]. intros t. by destruct (fltb _ _).
  - rewrite fmap_app. simpl. apply NoDup_app. split_and!; [done| |apply NoDup_singleton].
    intros P (t & -> & Ht)%list_elem_of_fmap HP%list_elem_of_singleton.
    apply (indexOf_None _ _ t) in E; [|done]. simpl in E. by apply bool_decide_eq_false in E.
Qed.

(** A pod's views, one refresh after another. *)
Definition refreshes (v : parties) (rs : list (PartyPenalties * evidence)) : parties :=
  foldl (λ v r, refreshParties (Some v) r.1 r.2) v rs.

Lemma refresh_trust prev peer e (b : Z) P :
  let pt := match prev with Some p => trust p | None => [] end in
  eNow e < b -> b <= eNow e + trustHold ->
  caughtFaking e P \/ (NoDup (trParty <$> pt) /\ distrusted b P pt) ->
  let v := refreshParties prev peer e in NoDup (trParty <$> trust v) /\ distrusted b P (trust v).
Proof.
  intros pt Hb Hb' Hwhy v. set (R := eRange e).
  set (stale0 := partyStale (eHeads e) (eStaleOn e) (match prev with Some p => stale p | None => [] end) (eNow e)).
  set (trust0 := partyTrust stale0 (eRefusals e) pt (eNow e) (eStaleOn e)).
  assert (NoDup (trParty <$> trust0) /\ distrusted b P trust0) as H0.
  { split; [apply partyTrust_nodup|]. destruct Hwhy as [He|[? ?]]; [|by apply carry_distrusts].
    apply evidence_distrusts; [|done..]. unfold caughtFaking, enoughEvidence in He. unfold enoughEvidence.
    enough (staleServices (eStaleOn e) stale0 P = staleServices (eStaleOn e) (staleNow (eHeads e) (eStaleOn e) (eNow e)) P) as -> by done.
    apply held_counts_nothing. }
  unfold v, refreshParties. fold R pt stale0 trust0. case_bool_decide as Hlen; [|done]. simpl.
  clear Hlen v. clearbody trust0. revert trust0 H0.
  induction (ppTrust peer) as [|x l IH]; intros t0 [Hnd Hd]; [done|]. simpl. apply IH. split; [by apply lendTrust_nodup|by apply lendTrust_distrusted].
Qed.

(** C25. Distrust lasts a day.  Once a refresh catches a party faking, every view
    the pod computes in the day after charges the party the trust penalty,
    whatever evidence comes or goes, whoever it borrows from and however often
    it refreshes. *)
Theorem distrust_lasts_a_day prev peer e P rs :
  caughtFaking e P -> (forall r, r ∈ rs -> eNow e <= eNow r.2 < eNow e + trustHold) ->
  exists t, t ∈ trust (refreshes (refreshParties prev peer e) rs) /\ trParty t = P /\ trPenalty t = trustPenalty.
Proof.
  intros He Hrs. set (b := eNow e + trustHold).
  assert (let v := refreshParties prev peer e in NoDup (trParty <$> trust v) /\ distrusted b P (trust v)) as Hv.
  { apply refresh_trust; [unfold b, trustHold, hour, minute, second; lia|done|by left]. }
  simpl in Hv. revert Hv Hrs. generalize (refreshParties prev peer e) as v.
  induction rs as [|r rs IH]; intros v Hv Hrs; simpl; [destruct Hv as [_ (t & ? & ? & ? & _)]; eauto|].
  apply IH; [|intros r' ?; apply Hrs; by right]. specialize (Hrs r (list_elem_of_here _ _)).
  apply refresh_trust; [unfold b; lia|unfold b; lia|by right].
Qed.

(** ** Shares are priced against the cleanest *)
Definition isNumber (x : f64) : bool := negb (is_nan x) && negb (is_inf x).
Lemma fsub_self x : isNumber x = true -> fsub x x = f0.
Proof.
  destruct x as [b|b| |b m e]; try done; intros _; [by destruct b|].
  unfold fsub, SFsub. rewrite Z.sub_diag. reflexivity.
Qed.

Lemma fleb_antisym x y : fleb x y = true -> fleb y x = true -> feqb x y = true.
Proof. rewrite (fleb_spec x y). intros [Hl|?]%orb_true_iff Hge; [|done]. by rewrite (fltb_le_false y x) in Hl. Qed.
(** The difference of equal numbers is a zero of either sign. *)
Lemma fsub_of_equal x y floor :
  isNumber x = true -> feqb x y = true -> fleb f0 floor = true -> fleb (fsub x y) floor = true.
Proof.
  intros Hx He Hf. destruct (feqb y f0) eqn:Hz.
  - assert (fsub x y = S754_zero false \/ fsub x y = S754_zero true) as [->| ->]; [|by destruct floor as [[]|[]| |[]]..].
    destruct x as [[]|[]| |[]], y as [[]|[]| |[]]; try done; by (left + right).
  - apply feqb_eq in He as <-; [|done]. by rewrite fsub_self.
Qed.

Lemma best_spec {A : Type} (share : A -> f64) (l : list A) :
  (forall p, p ∈ l -> is_nan (share p) = false) ->
  is_nan (best share l) = false /\ fleb (best share l) f1 = true /\
  (best share l = f1 \/ exists p, p ∈ l /\ best share l = share p) /\
  (forall p, p ∈ l -> fleb (best share l) (share p) = true).
Proof.
  unfold best. induction l as [|p l IH] using rev_ind; intros Hn.
  { split_and!; [done..|by left|by intros ? ?%not_elem_of_nil]. }
  rewrite foldl_snoc. destruct IH as (N & L1 & W & L); [intros q ?; apply Hn; set_solver|].
  set (b := foldl _ _ l) in *. assert (is_nan (share p) = false) as Np by (apply Hn; set_solver).
  destruct (fmin_case b (share p)) as [[E Hle]|[E Hle]]; try done.
  - rewrite E. split_and!; [done..| |].
    + destruct W as [?|(q & ? & ?)]; [by left|right; exists q; set_solver].
    + intros q [?| ->%list_elem_of_singleton]%elem_of_app; auto.
  - rewrite E. split_and!; [done|by eapply fleb_trans| |].
    + right. exists p. set_solver.
    + intros q [?| ->%list_elem_of_singleton]%elem_of_app; [eapply fleb_trans; [done|auto]|by apply fleb_refl].
Qed.

Section Cleanest.
Context `{R : Ranging}.
Context (stats : gmap opID OperatorStat) (rule : shareRule) (on : Gate) (limits : option (string -> f64 * f64)) (now : Z).

(** A party the refresh has enough evidence of. *)
Definition measuredIn (svc party : string) (st : OperatorStat) : Prop :=
  exists id, stats !! id = Some st /\ svcOf id = svc /\ opOf id = party /\ enoughFor rule st = true.

Abbreviation group svc := (groupOf measuredShare (enoughFor rule) (range stats) svc).

Lemma elem_of_group svc p :
  p ∈ group svc <-> exists st, measuredIn svc (shParty p) st /\ p = mkShare svc (shParty p) (shareOf st) f0 GoTime.zero.
Proof.
  rewrite elem_of_groupOf. split.
  - intros (id & st & Hin%elem_of_range & <- & He & ->). exists st. split; [|done]. exists id. auto.
  - intros (st & (id & Hin & <- & Hop & He) & ->). exists id, st. split_and!; [by apply elem_of_range|done..|].
    unfold measuredShare. by rewrite <- Hop.
Qed.

Lemma elem_of_sharesNow q :
  q ∈ sharesNow stats rule on limits now <-> q ∈ priceGroup rule on limits now (shService q) (group (shService q)).
Proof.
  unfold sharesNow. rewrite list_elem_of_bind. split.
  - intros ([svc g] & Hq & Hg%elem_of_range). simpl in Hq. apply bySvc_some in Hg as [-> _].
    enough (shService q = svc) as -> by done. unfold priceGroup in Hq.
    apply list_elem_of_fmap in Hq as (p & -> & (st & _ & ->)%elem_of_group). by destruct (_ && _).
  - intros Hq. exists (shService q, group (shService q)). split; [done|]. apply elem_of_range.
    pose proof (bySvc_lookup measuredShare (enoughFor rule) (range stats) (shService q)) as H.
    destruct (bySvc measuredShare (enoughFor rule) (range stats) !! shService q) as [g|]; simpl in H; [by rewrite H|].
    rewrite <- H in Hq. unfold priceGroup in Hq. by apply list_elem_of_fmap in Hq as (? & _ & ?%not_elem_of_nil).
Qed.

Lemma measured_is_reported svc party st : measuredIn svc party st -> (svc, party) ∈ shareKey <$> sharesNow stats rule on limits now.
Proof.
  intros Hm. set (p := mkShare svc party (shareOf st) f0 GoTime.zero).
  assert (p ∈ group svc) as Hp by (apply elem_of_group; exists st; done).
  apply list_elem_of_fmap. unfold priceGroup in *.
  set (b := best Share (group svc)).
  set (charged := bool_decide (2 <= length (group svc))%nat && isOn on svc).
  set (lim := limitsFor rule (if charged then limits else None) svc).
  exists (if charged then mkShare svc party (shareOf st) (excessPenalty (fsub (shareOf st) b) lim.1 lim.2 (most rule)) now else p).
  split; [by destruct charged|]. apply elem_of_sharesNow.
  assert (shService (if charged then mkShare svc party (shareOf st) (excessPenalty (fsub (shareOf st) b) lim.1 lim.2 (most rule)) now else p) = svc)
    as -> by (by destruct charged).
  unfold priceGroup. apply list_elem_of_fmap. exists p. done.
Qed.

(** The lowest share measured in a service, one at most. *)
Definition cleanest (svc : string) (b : f64) : Prop :=
  (b = f1 \/ exists party st, measuredIn svc party st /\ b = shareOf st) /\
  fleb b f1 = true /\ forall party st, measuredIn svc party st -> fleb b (shareOf st) = true.

Hypothesis numbers : forall svc party st, measuredIn svc party st -> isNumber (shareOf st) = true.

Lemma group_best svc : cleanest svc (best Share (group svc)).
Proof.
  destruct (best_spec Share (group svc)) as (_ & H1 & Hw & Hl).
  { intros p (st & Hm & ->)%elem_of_group. simpl. apply numbers in Hm. unfold isNumber in Hm. by destruct (is_nan _). }
  split_and!; [|done|].
  - destruct Hw as [?|(p & (st & Hm & E)%elem_of_group & ->)]; [by left|]. right. exists (shParty p), st. split; [done|]. by rewrite E.
  - intros party st Hm. apply (Hl (mkShare svc party (shareOf st) f0 GoTime.zero)). apply elem_of_group. by exists st.
Qed.

Lemma group_two svc : (2 <= length (group svc))%nat -> exists p, p ∈ group svc.
Proof. destruct (group svc) as [|p l]; [simpl; lia|]. intros _. exists p. by left. Qed.
End Cleanest.

Lemma excess_over_floor excess floor full most :
  fltb (excessPenalty excess floor full most) f0 = true -> fleb excess floor = false.
Proof. unfold excessPenalty. by destruct (fleb excess floor). Qed.

(** C29. A share is charged for its excess over the cleanest party's, and only
    for that.  A party charged by a refresh is in a service whose flag is on, and
    either its penalty was set less than the rule's hold ago and there is too
    little evidence to measure it now, or it is measured, against the lowest
    share of its service, above the floor and by the rule's line; and a measured
    party whose share is the lowest is charged nothing. *)
Theorem shares_charge_the_excess `{R : Ranging} stats rule on limits prev now q :
  (forall svc party st, measuredIn stats rule svc party st -> isNumber (shareOf st) = true) ->
  min_i64 < hold rule <= max_i64 -> q ∈ priceShares stats rule on limits prev now ->
  let svc := shService q in
  let floor := (limitsFor rule limits svc).1 in
  let full := (limitsFor rule limits svc).2 in
  (fltb (shPenalty q) f0 = true ->
     isOn on svc = true /\
     ((q ∈ prev /\ now - shPricedAt q < hold rule /\ ~ exists st, measuredIn stats rule svc (shParty q) st) \/
      exists st b, measuredIn stats rule svc (shParty q) st /\ Share q = shareOf st /\ shPricedAt q = now /\
        cleanest stats rule svc b /\ fleb (fsub (Share q) b) floor = false /\
        shPenalty q = excessPenalty (fsub (Share q) b) floor full (most rule))) /\
  (fleb f0 floor = true -> fleb (Share q) f1 = true ->
     (exists st, measuredIn stats rule svc (shParty q) st) ->
     (forall party st, measuredIn stats rule svc party st -> fleb (Share q) (shareOf st) = true) -> shPenalty q = f0).
Proof.
  intros Hnum Hhold Hq. cbv zeta. unfold priceShares in Hq. apply elem_of_app in Hq as [Hq|Hq].
  - apply elem_of_sharesNow in Hq. pose proof (group_best stats rule Hnum (shService q)) as Hb.
    apply list_elem_of_fmap in Hq as (p & Eq & (st & Hm & Ep)%elem_of_group).
    set (b := best Share _) in *. rewrite Ep in Eq. clear Ep. simpl in Eq.
    assert (shParty q = shParty p /\ Share q = shareOf st) as [-> Es] by (rewrite Eq; by destruct (_ && _)).
    destruct (bool_decide _ && isOn on _) eqn:C; simpl in Eq.
    2: { rewrite Eq. simpl. by split. }
    apply andb_true_iff in C as [_ Ho].
    assert (shPenalty q = excessPenalty (fsub (Share q) b) (limitsFor rule limits (shService q)).1
      (limitsFor rule limits (shService q)).2 (most rule)) as Epen by (rewrite Eq at 1; simpl; by rewrite Es).
    split.
    + intros Hneg. split; [done|]. right. exists st, b. split_and!; try done; [by rewrite Eq|].
      rewrite Epen in Hneg. by eapply excess_over_floor.
    + intros Hf Hle _ Hmin. rewrite Epen. unfold excessPenalty. rewrite fsub_of_equal; try done.
      * rewrite Es. eauto.
      * destruct Hb as ([->|(party & st' & Hm' & ->)] & _ & L); apply fleb_antisym; rewrite ?Es; eauto. by rewrite <- Es.
        rewrite <- Es. eauto.
  - apply list_elem_of_filter in Hq as [(Hneg & Hnot & Ho & Hh) Hp]. apply GoTime.Sub_lt in Hh; [|done].
    assert (~ exists st, measuredIn stats rule (shService q) (shParty q) st) as Hno.
    { intros (st & Hm). apply Hnot, elem_of_list_to_set. by eapply measured_is_reported. }
    split; [|done]. intros _. split; [done|]. left. auto.
Qed.

(** ** The clock of the counts

    Counts are aged by the time since they were last touched, which is kept in
    whole seconds.  So what has passed of the current second is charged again
    each time they are touched: at one instant, once more for every attempt
    recorded, and the counts of a busy party age by its traffic, not by the
    clock. *)
Lemma aging_repeats_in_a_second `{M : Math} s now hl :
  0 < hl -> 0 < UpdatedAt s -> UpdatedAt s < Unix now -> 0 < now mod second ->
  let st := decayTo s now hl in
  UpdatedAt st = Unix now /\
  decayTo st now hl = mkStat (fmul (Attempts st) (aged (now mod second) hl)) (fmul (Failures st) (aged (now mod second) hl))
                        (Unix now) (CleanRun st) (HealedAt st).
Proof.
  intros Hhl Hu Hlt Hsub st.
  assert (UpdatedAt st = Unix now) as E.
  { unfold st, decayTo. rewrite (bool_decide_false (UpdatedAt s <= 0)), (bool_decide_false (hl <= 0)) by lia. simpl.
    rewrite bool_decide_false; [done|]. unfold GoTime.Sub, Unix, second, max_i64, min_i64 in *.
    pose proof (Z.mul_div_le now 1000000000 ltac:(lia)). lia. }
  split; [done|]. unfold decayTo. rewrite E.
  rewrite (bool_decide_false (Unix now <= 0)), (bool_decide_false (hl <= 0)) by lia. simpl.
  assert (GoTime.Sub now (Unix now * second) = now mod second) as ->.
  { unfold GoTime.Sub, Unix. pose proof (Z.mod_pos_bound now second ltac:(done)). pose proof (Z.div_mod now second ltac:(done)).
    unfold min_i64, max_i64, second in *. lia. }
  rewrite bool_decide_false by lia. done.
Qed.

(** ** Witnesses *)
Definition inOrder : Ranging := mkRanging (λ K V _ _ m, map_to_list m) (λ K V _ _ m, reflexivity _).

(** Refused twenty times on each of two services. *)
Definition demoRefusals : gmap opID OperatorStat :=
  {[ partyID "eth" "cache.io" := mkStat (of_int 20) f0 1 0 0; partyID "sei" "cache.io" := mkStat (of_int 20) f0 1 0 0 ]}.
Definition demoSees (now : Z) (refusals : gmap opID OperatorStat) : evidence :=
  mkEvidence inOrder now ∅ refusals (Some (λ _, true)) (λ _, true).
Definition demoCaught : evidence := demoSees hour demoRefusals.
Definition demoLeader : parties := refreshParties None noParties demoCaught.
Definition demoStored : PartyPenalties := storedPenalties (stale demoLeader) (trust demoLeader).
Definition demoBoot : fleet := mkFleet (<[ "a" := None ]> (pods noFleet)) (written noFleet) (log noFleet).
Definition demoPriced : fleet :=
  mkFleet (<[ "a" := Some demoLeader ]> (pods demoBoot)) (demoStored :: written demoBoot) (demoCaught :: log demoBoot).
Definition demoFleet : fleet := mkFleet (<[ "b" := None ]> (pods demoPriced)) (written demoPriced) (log demoPriced).

Lemma every_penalty_has_evidence_witness :
  let v := refreshParties None demoStored (demoSees (24 * hour) ∅) in
  trust v = [mkTrust "cache.io" 0 0 trustPenalty (25 * hour) true] /\
  exists e', e' ∈ [demoSees (24 * hour) ∅; demoCaught] /\ caughtFaking e' "cache.io" /\ 24 * hour < eNow e' + trustHold.
Proof.
  intros v. assert (trust v = [mkTrust "cache.io" 0 0 trustPenalty (25 * hour) true]) as Ev by (vm_compute; reflexivity).
  split; [exact Ev|].
  destruct (every_penalty_has_evidence demoFleet "b" None None demoStored (demoSees (24 * hour) ∅)) as [_ Ht].
  - apply (rtc_l _ _ demoBoot); [exact (step_boot noFleet "a")|].
    apply (rtc_l _ _ demoPriced); [|apply rtc_once; exact (step_boot demoPriced "b")].
    exact (step_refresh demoBoot "a" None None noParties demoCaught true eq_refl (starts_own _ _) (or_introl eq_refl)
      ltac:(vm_compute; discriminate)).
  - reflexivity.
  - constructor.
  - right. apply list_elem_of_here.
  - vm_compute. discriminate.
  - destruct (Ht (mkTrust "cache.io" 0 0 trustPenalty (25 * hour) true)) as [_ H]; [|vm_compute; reflexivity|exact H].
    fold v. rewrite Ev. apply list_elem_of_here.
Defined.

Lemma distrust_lasts_a_day_witness :
  exists t, t ∈ trust (refreshes demoLeader [(noParties, demoSees (2 * hour) ∅); (noParties, demoSees (24 * hour) ∅)]) /\
    trParty t = "cache.io" /\ trPenalty t = trustPenalty.
Proof.
  apply (distrust_lasts_a_day None noParties demoCaught "cache.io").
  - right. vm_compute. discriminate.
  - intros r [->|[->|[]%elem_of_nil]%elem_of_cons]%elem_of_cons; split; vm_compute; congruence.
Defined.

(** One party repeats 30 of 100 notifications over the cleanest's 1. *)
Definition demoShares : gmap opID OperatorStat :=
  {[ partyID "bsc" "clean.io" := mkStat (of_int 1000) (of_int 10) 1 0 0;
     partyID "bsc" "echo.io" := mkStat (of_int 1000) (of_int 310) 1 0 0 ]}.
Definition demoQ : PartyShare := mkShare "bsc" "echo.io" (lit 310 1000) (of_int (-40)) hour.
Lemma shares_charge_the_excess_witness :
  demoQ ∈ priceShares (R := inOrder) demoShares dupRule (Some (λ _, true)) None [] hour /\ isOn (Some (λ _, true)) "bsc" = true.
Proof.
  assert (demoQ ∈ priceShares (R := inOrder) demoShares dupRule (Some (λ _, true)) None [] hour) as Hq.
  { assert (priceShares (R := inOrder) demoShares dupRule (Some (λ _, true)) None [] hour !! 1%nat = Some demoQ) as E
      by (vm_compute; reflexivity). exact (list_elem_of_lookup_2 _ _ _ E). }
  split; [exact Hq|].
  destruct (shares_charge_the_excess (R := inOrder) demoShares dupRule (Some (λ _, true)) None [] hour demoQ) as [H _].
  - intros svc party st (id & Hin%elem_of_map_to_list & _ & _ & _). revert Hin.
    assert (map_to_list demoShares = [(partyID "bsc" "clean.io", mkStat (of_int 1000) (of_int 10) 1 0 0);
      (partyID "bsc" "echo.io", mkStat (of_int 1000) (of_int 310) 1 0 0)]) as -> by (vm_compute; reflexivity).
    intros [[= _ ->]|[[= _ ->]|[]%elem_of_nil]%elem_of_cons]%elem_of_cons; vm_compute; reflexivity.
  - split; vm_compute; congruence.
  - exact Hq.
  - destruct (H eq_refl) as [Ho _]. exact Ho.
Defined.
End Pricing.
