(* ===== verification/RepService.v ===== *)
(** * RepService: the reputation service

    Models [reputation/service.go], [reputation/state.go], [reputation/key.go]
    and the recorders of [reputation/throttleshare.go] and
    [reputation/classshare.go]: what one signal does to a key's state, the
    effective score every reader sees, resets, the write-behind, and the
    composition with the tiered selector and the timeline.

    A call holds its shard's lock while it reads and writes the key, so a
    history is a sequence of calls.  The configuration swapped by [Retune] and
    the chronic view swapped by the refresh are fields of the state: any call
    may find any view.  [now] is the clock reading of a call; [keyOf] is the key
    function in force. *)

From Stdlib Require Import Ascii.
From stdpp Require Import strings sorting.
From S2P Require Import Prelude Float64 Domain ScoreSink Timeline RepSelector Rate.

Module RepService.
Import ScoreSink.
Import GoStrings.
Import Domain.
Import Rate.
Import RepSelector.

(** ** [reputation/state.go] *)
Record State := mkState {
  Score : f64; KeyRate : f64; Attempts : Z; TrafficAttempts : Z; LatencyMS : f64;
  LastTraffic : Z; UpdatedAt : Z; TimeoutHitAt : Z
}.
Definition fresh (score : f64) : State := mkState score f0 0 0 f0 0 0 0.

(** ** [reputation/key.go] *)
Definition KeyPerURL : string := "per-url".
Definition KeyPerEndpoint : string := "per-endpoint".
Definition KeyPerDomain : string := "per-domain".
Definition KeyPerSupplier : string := "per-supplier".

Definition Or (a b : string) : string := if bool_decide (a = "") then b else a.
Definition baseKey (granularity : string) (ep : EndpointAddr) : string :=
  if bool_decide (granularity = KeyPerEndpoint) then ep
  else if bool_decide (granularity = KeyPerDomain) then Or (Domain ep) ep
  else if bool_decide (granularity = KeyPerSupplier) then Or (Supplier ep) ep
  else match URL ep with Some url => Or url ep | None => ep end.
Definition keyFnFor (granularity : string)
    (resolve : option (EndpointAddr -> string -> option string)) (ep : EndpointAddr) (rpc : string)
    : string :=
  let base := baseKey granularity ep +:+ ("|" +:+ rpc) in
  match resolve with
  | Some f =>
      if bool_decide (granularity = "") || bool_decide (granularity = KeyPerURL) then
        match f ep rpc with
        | Some url => if bool_decide (url = "") then base else url +:+ ("|" +:+ rpc)
        | None => base
        end
      else base
  | None => base
  end.

(** ** Resets *)
Definition TrimSlash (s : string) : string :=
  let n := String.length s in
  if bool_decide (from (n - 1) s = "/") then upto (n - 1) s else s.
Definition sameURL (a b : string) : bool := bool_decide (TrimSlash a = TrimSlash b).

Definition hostOf (s : string) : string :=
  let s := match Index s "://" with Some i => from (i + 3) s | None => s end in
  let s := match IndexByte s "/"%char with Some i => upto i s | None => s end in
  match LastIndexByte s ":"%char with Some i => upto i s | None => s end.

Definition hasByte (s : string) (c : ascii) : bool :=
  match IndexByte s c with Some _ => true | None => false end.

Definition resetTargets (key target : string) : bool :=
  if bool_decide (target = "") then false
  else if bool_decide (key = target) then true
  else
    let ident := match LastIndexByte key "|"%char with Some i => upto i key | None => key end in
    if sameURL ident target then true
    else
      let host := hostOf ident in
      if negb (bool_decide (host = "")) && bool_decide (host = hostOf target) &&
         negb (hasByte target "/"%char || hasByte target "|"%char) then true
      else
        let isURL := match Index target "://" with
          | Some i => negb (hasByte (upto i target) "-"%char)
          | None => false
          end in
        if isURL then false
        else
          let byURL := match URL target with
            | Some url => sameURL url ident ||
                          (negb (bool_decide (host = "")) && bool_decide (hostOf url = host))
            | None => false
            end in
          if byURL then true else bool_decide (Supplier target = ident).

(** ** [reputation/service.go]: constants *)
Definition scoreShards : nat := 32.
Definition maxScoresPerServiceShard : Z := 4096.
Definition timeoutCoalesce : Z := second.
Definition reasonTransportTimeout : string := "transport_timeout".
Definition reasonRefusedRecent : string := "refused_recent".
Definition probeDefer : Z := 10 * minute.
Definition latencyAlpha : f64 := lit 5 100.
Definition maxScore : f64 := of_int 100.
Definition clamp (score : f64) : f64 := fmax f0 (fmin score maxScore).

Definition scoreKey (svc key : string) : string := svc +:+ (":" +:+ key).
Definition truncateDetail (d : string) : string :=
  if bool_decide (200 < String.length d)%nat then upto 200 d else d.

Record scoring := mkScoring { impacts : SignalImpacts; rateCfg : RateConfig; lambda : f64 }.
Definition newScoring (i : SignalImpacts) (r : RateConfig) : scoring :=
  let r := Normalized r in mkScoring (normImpacts i) r (Lambda r).

(** One shard's cache: service, then reputation key. *)
Abbreviation scoreShard := (gmap string (gmap string State)).

Record serviceImpl := mkService {
  InitialScore : f64;
  timeline : option Timeline.Timeline;
  sc : scoring;
  selCfg : SelectorConfig;
  chronic : option chronicView;
  ops : opTracker; refusals : opTracker; throttles : opTracker; classes : gmap string opTracker;
  shards : list scoreShard;
  pending : gmap string State
}.

(** ** One signal on one state *)
Section Signals.
Context `{M : Math}.

Definition isTimeout (sig : Signal) : bool :=
  bool_decide (Type_ sig = SignalMajorError) && bool_decide (ScoreSink.Reason sig = reasonTransportTimeout).
Definition UnixMilli (t : Z) : Z := t / millisecond.

Definition deferred (minThreshold : f64) (st : State) (sig : Signal) (ts : Z) : bool :=
  Probe sig && bool_decide (Type_ sig = SignalSuccess) && fleb minThreshold (Score st) &&
  bool_decide (0 < LastTraffic st) &&
  bool_decide (Unix ts - LastTraffic st < probeDefer / second).
Definition coalesced (st : State) (sig : Signal) (ts : Z) : bool :=
  isTimeout sig && negb (bool_decide (TimeoutHitAt st = 0)) &&
  bool_decide (UnixMilli ts - TimeoutHitAt st < timeoutCoalesce / millisecond).

Definition rateAfter (c : scoring) (st : State) (rpc : string) (sig : Signal) (ts : Z)
    (def : bool) : f64 :=
  let r := if bool_decide (rpc = RPCTypeWebSocket) then decayWSRate (KeyRate st) (UpdatedAt st) ts
           else KeyRate st in
  if Enabled (rateCfg c) && negb (feqb (Score st) f0) && negb def && negb (Leftover sig) then
    let w := FailureWeight (Type_ sig) in
    if feqb w f0 && bool_decide (1 < Weight sig)
    then fmul r (Pow (fsub f1 (lambda c)) (of_int (Weight sig)))
    else fadd r (fmul (lambda c) (fsub w r))
  else r.

Definition latencyAfter (st : State) (sig : Signal) : f64 :=
  if bool_decide (Type_ sig = SignalSuccess) && bool_decide (0 < Latency sig) then
    let ms := fdiv (of_int (Latency sig)) (of_int millisecond) in
    if feqb (LatencyMS st) f0 then ms
    else fadd (LatencyMS st) (fmul latencyAlpha (fsub ms (LatencyMS st)))
  else LatencyMS st.

Definition applySignal (c : scoring) (minThreshold : f64) (st : State) (rpc : string) (sig : Signal)
    (ts : Z) : State :=
  let def := deferred minThreshold st sig ts in
  let moves := negb def && negb (coalesced st sig ts) in
  mkState
    (if moves then clamp (fadd (Score st) (Impact (impacts c) (Type_ sig))) else Score st)
    (rateAfter c st rpc sig ts def)
    (u64 (Attempts st + 1))
    (if negb (Probe sig) then u64 (TrafficAttempts st + 1) else TrafficAttempts st)
    (if negb (Probe sig) then latencyAfter st sig else LatencyMS st)
    (if negb (Probe sig) then Unix ts else LastTraffic st)
    (Unix ts)
    (if moves && isTimeout sig then UnixMilli ts else TimeoutHitAt st).

(** ** The service *)
Context (EffectiveTLDPlusOne : string -> option string) (own : owners)
  (keyOf : EndpointAddr -> string -> string).

Definition penaltyFor (s : serviceImpl) (svc key : string) (r : f64) : f64 :=
  let r := match chronic s with
    | Some v => if default false (opOn v !! svc) then default r (byKey v !! (svc, key)) else r
    | None => r
    end in
  let p := Penalty (rateCfg (sc s)) r in
  if feqb p f0 then f0
  else match chronic s with
       | Some v => match baseline v !! (svc, rpcOfKey key) with
                   | Some base => fmin f0 (fsub p (Penalty (rateCfg (sc s)) base))
                   | None => p
                   end
       | None => p
       end.

Definition scoreWith (s : serviceImpl) (svc key : string) (st : State) (party : f64) : f64 :=
  let score := fadd (fadd (Score st) (penaltyFor s svc key (KeyRate st))) party in
  let floor := fmin (Score st) (MinThreshold (selCfg s)) in
  clamp (if fltb score floor then floor else score).

Definition effectiveFor (s : serviceImpl) (svc key : string) (st : State) : f64 :=
  scoreWith s svc key st (partyPenalty EffectiveTLDPlusOne own (chronic s) svc key).
Definition effectiveForClass (s : serviceImpl) (svc key : string) (st : State) (class : string) : f64 :=
  scoreWith s svc key st
    (fmin (partyPenalty EffectiveTLDPlusOne own (chronic s) svc key)
       (classPenalty EffectiveTLDPlusOne own (chronic s) svc key class)).

Definition initialScore (s : serviceImpl) (svc key : string) : f64 :=
  default (InitialScore s)
    (seedFor own (chronic s) svc (operatorOfKey EffectiveTLDPlusOne key) (rpcOfKey key)).

(** *** Shards *)
Definition shardOf (key : string) : nat :=
  Z.to_nat (Timeline.fnv32a key mod Z.of_nat scoreShards).
Definition statesOf (s : serviceImpl) (svc key : string) : gmap string State :=
  default ∅ (default ∅ (shards s !! shardOf key) !! svc).
Definition lookupState (s : serviceImpl) (svc key : string) : option State :=
  statesOf s svc key !! key.
Definition stateOr (s : serviceImpl) (svc key : string) : State :=
  default (fresh (initialScore s svc key)) (lookupState s svc key).

Definition withShards (s : serviceImpl) (ss : list scoreShard) : serviceImpl :=
  mkService (InitialScore s) (timeline s) (sc s) (selCfg s) (chronic s) (ops s) (refusals s)
    (throttles s) (classes s) ss (pending s).
Definition putStates (s : serviceImpl) (svc key : string) (m : gmap string State) : serviceImpl :=
  withShards s (alter (λ sh, <[svc := m]> sh) (shardOf key) (shards s)).

Definition uninformative (s : serviceImpl) (st : State) : bool :=
  feqb (Score st) (InitialScore s) && feqb (Penalty (rateCfg (sc s)) (KeyRate st)) f0.
Definition pruneUninformative (s : serviceImpl) (m : gmap string State) : gmap string State :=
  filter (λ p : string * State, uninformative s p.2 = false) m.

(** *** The write-behind *)
Definition enqueue (leading : bool) (s : serviceImpl) (key : string) (st : State) : serviceImpl :=
  if leading then
    mkService (InitialScore s) (timeline s) (sc s) (selCfg s) (chronic s) (ops s) (refusals s)
      (throttles s) (classes s) (shards s) (<[key := st]> (pending s))
  else s.
(** [flushPending]: the stamped batch handed to storage. *)
Definition flushPending (s : serviceImpl) (now : Z) : serviceImpl * gmap string State :=
  (mkService (InitialScore s) (timeline s) (sc s) (selCfg s) (chronic s) (ops s) (refusals s)
     (throttles s) (classes s) (shards s) ∅,
   (λ st, mkState (Score st) (KeyRate st) (Attempts st) (TrafficAttempts st) (LatencyMS st)
            (LastTraffic st) (Unix now) (TimeoutHitAt st)) <$> pending s).

(** *** [RecordSignal] *)
Context (sortAges : list (string * Z) -> list (string * Z)).

Definition reasonHTTP429 : string := "http_429".
Definition reasonUpstream429 : string := "upstream_429".
Definition reasonRateLimited : string := "rate_limited".

(** A first client attempt that is not a WebSocket connection. *)
Definition firstAttempt (rpc : string) (sig : Signal) : bool :=
  negb (bool_decide (Type_ sig = "") || Probe sig || Leftover sig ||
        bool_decide (rpc = RPCTypeWebSocket)).

Definition recordThrottle (t : opTracker) (svc : string) (ep : EndpointAddr) (rpc : string)
    (sig : Signal) (now : Z) : opTracker :=
  let party := Party EffectiveTLDPlusOne own ep in
  if negb (firstAttempt rpc sig) || bool_decide (party = "") then t
  else
    let throttled := if bool_decide (ScoreSink.Reason sig = reasonHTTP429) ||
                        bool_decide (ScoreSink.Reason sig = reasonUpstream429) ||
                        bool_decide (ScoreSink.Reason sig = reasonRateLimited) then f1 else f0 in
    recordN t (partyID svc party) f1 throttled now.

Definition classFailureWeight (sig : Signal) : f64 :=
  if bool_decide (Type_ sig = SignalMinorError) &&
     (bool_decide (ScoreSink.Reason sig = "upstream_5xx") || bool_decide (ScoreSink.Reason sig = "http_5xx"))
  then FailureWeight SignalMajorError else FailureWeight (Type_ sig).

Definition recordClass (cs : gmap string opTracker) (svc : string) (ep : EndpointAddr) (rpc : string)
    (sig : Signal) (now : Z) : gmap string opTracker :=
  let party := Party EffectiveTLDPlusOne own ep in
  if negb (firstAttempt rpc sig) then cs
  else match cs !! Class_ sig with
       | None => cs
       | Some t =>
           if bool_decide (party = "") then cs
           else <[Class_ sig := recordN t (partyID svc party) f1 (classFailureWeight sig) now]> cs
       end.

Definition recordOperator (c : scoring) (t : opTracker) (svc : string) (ep : EndpointAddr)
    (rpc : string) (sig : Signal) (def : bool) (now : Z) : opTracker :=
  if Enabled (rateCfg c) && negb def && negb (Leftover sig) && negb (bool_decide (rpc = RPCTypeWebSocket))
  then
    let op := Operator EffectiveTLDPlusOne ep in
    if bool_decide (op = "") then t else record t (svc, op, rpc) (FailureWeight (Type_ sig)) now
  else t.

Definition recordRefusal (t : opTracker) (svc : string) (ep : EndpointAddr) (sig : Signal) (now : Z)
    : opTracker :=
  if bool_decide (ScoreSink.Reason sig = reasonRefusedRecent) && negb (Probe sig) then
    let party := Party EffectiveTLDPlusOne own ep in
    if bool_decide (party = "") then t else record t (partyID svc party) f0 now
  else t.

(** The timestamp a signal counts from. *)
Definition stamp (sig : Signal) (now : Z) : Z :=
  if GoTime.IsZero (ScoreSink.Timestamp sig) then now else ScoreSink.Timestamp sig.

Definition signalEvent (sig : Signal) (oldScore newScore : f64) : Timeline.TimelineEvent :=
  Timeline.mkEvent (ScoreSink.Timestamp sig) "signal" (Type_ sig) (ScoreSink.Reason sig)
    oldScore newScore "" (truncateDetail (ScoreSink.Detail sig)) "".

Definition RecordSignal (leading : bool) (s : serviceImpl) (svc : string) (ep : EndpointAddr)
    (rpc : string) (sig : Signal) (now : Z) : serviceImpl :=
  let key := keyOf ep rpc in
  let m := statesOf s svc key in
  let prev := stateOr s svc key in
  let m := match m !! key with
    | Some _ => m
    | None => if bool_decide (maxScoresPerServiceShard <= Z.of_nat (size m))
              then pruneUninformative s m else m
    end in
  let ts := stamp sig now in
  let def := deferred (MinThreshold (selCfg s)) prev sig ts in
  let st := applySignal (sc s) (MinThreshold (selCfg s)) prev rpc sig ts in
  let s1 := putStates s svc key (<[key := st]> m) in
  let event := signalEvent sig (effectiveFor s svc key prev) (effectiveFor s svc key st) in
  let s2 := mkService (InitialScore s1)
    ((λ t, Timeline.Record_ sortAges t (scoreKey svc key) event now) <$> timeline s1)
    (sc s1) (selCfg s1) (chronic s1)
    (recordOperator (sc s) (ops s1) svc ep rpc sig def ts)
    (recordRefusal (refusals s1) svc ep sig ts)
    (recordThrottle (throttles s1) svc ep rpc sig ts)
    (recordClass (classes s1) svc ep rpc sig ts)
    (shards s1) (pending s1) in
  enqueue leading s2 (scoreKey svc key) st.

Definition RecordSignalOnce (leading : bool) (s : serviceImpl) (svc : string)
    (endpoints : EndpointAddrList) (rpc : string) (sig : Signal) (now : Z) : serviceImpl :=
  match endpoints with
  | [] => s
  | ep0 :: rest =>
      if forallb (λ ep, bool_decide (keyOf ep rpc = keyOf ep0 rpc)) rest
      then RecordSignal leading s svc ep0 rpc sig now
      else (foldl (λ acc ep,
              let '(s, seen) := acc in
              let k := keyOf ep rpc in
              if bool_decide (k ∈ seen) then (s, seen)
              else (RecordSignal leading s svc ep rpc sig now, seen ∪ {[k]}))
            (s, (∅ : gset string)) endpoints).1
  end.

(** *** Readers *)
Definition GetScore (s : serviceImpl) (svc : string) (ep : EndpointAddr) (rpc : string) : f64 :=
  let key := keyOf ep rpc in effectiveFor s svc key (stateOr s svc key).
Definition OwnScore (s : serviceImpl) (svc : string) (ep : EndpointAddr) (rpc : string) : f64 :=
  let key := keyOf ep rpc in scoreWith s svc key (stateOr s svc key) f0.
Definition ScoreOf (s : serviceImpl) (svc : string) (ep : EndpointAddr) (rpc : string) : option f64 :=
  let key := keyOf ep rpc in effectiveFor s svc key <$> lookupState s svc key.
Definition Vouched (s : serviceImpl) (svc : string) (ep : EndpointAddr) (rpc : string) : bool :=
  match ScoreOf s svc ep rpc with
  | Some score => fleb (ProbationThreshold (selCfg s)) score
  | None => false
  end.
Definition RuledOut (s : serviceImpl) (svc : string) (ep : EndpointAddr) (rpc : string) : bool :=
  match ScoreOf s svc ep rpc with
  | Some score => fltb score (MinThreshold (selCfg s))
  | None => false
  end.

Definition scoreForSelector (s : serviceImpl) (svc class rpc : string) (ep : EndpointAddr) : f64 * bool :=
  let key := keyOf ep rpc in
  let st := stateOr s svc key in
  let anyClass := match chronic s with Some v => negb (bool_decide (size (classPen v) = O)) | None => false end in
  (if anyClass then effectiveForClass s svc key st class else effectiveFor s svc key st, true).

Definition latencyForSelector (s : serviceImpl) (svc rpc : string) (ep : EndpointAddr) : f64 * bool :=
  match lookupState s svc (keyOf ep rpc) with
  | Some st => if fleb (LatencyMS st) f0 then (f0, false) else (LatencyMS st, true)
  | None => (f0, false)
  end.

(** [SelectBest], for a request of a method class: the first of the list the
    tiered selector returns. *)
Definition SelectBest (s : serviceImpl) (svc class rpc : string) (rawInt : nat -> Z)
    (rawFloat : nat -> f64) (operatorCap : option (OperatorCapConfig f64)) (tieBreak : bool)
    (endpoints : EndpointAddrList) : Rnd EndpointAddr :=
  (r <~ Select (selCfg s) (scoreForSelector s svc class rpc) rawInt rawFloat operatorCap
          (if tieBreak then Some (latencyForSelector s svc rpc) else None)
          (Operator EffectiveTLDPlusOne) endpoints ;;
   rret (default "" (head r.1)))%rnd.

Definition OnProbation (s : serviceImpl) (svc class rpc : string) (ep : EndpointAddr) : bool :=
  bool_decide ((classify (selCfg s) (scoreForSelector s svc class rpc) ep).1 = probationIdx).

(** *** Operations of the admin *)
Definition Retune (s : serviceImpl) (i : SignalImpacts) (r : RateConfig) (sel : SelectorConfig)
    : serviceImpl :=
  mkService (InitialScore s) (timeline s) (newScoring i r) sel (chronic s) (ops s) (refusals s)
    (throttles s) (classes s) (shards s) (pending s).

(** The refresh swaps in a view. *)
Definition setView (s : serviceImpl) (v : chronicView) : serviceImpl :=
  mkService (InitialScore s) (timeline s) (sc s) (selCfg s) (Some v) (ops s) (refusals s)
    (throttles s) (classes s) (shards s) (pending s).

Definition rebaseStep (leading : bool) (svc rpc : string) (acc : serviceImpl * gset string * Z)
    (ep : EndpointAddr) : serviceImpl * gset string * Z :=
  let '(s, seen, n) := acc in
  let key := keyOf ep rpc in
  if bool_decide (key ∈ seen) then acc
  else
    let floor := MinThreshold (selCfg s) in
    let m := statesOf s svc key in
    let st := default (fresh (InitialScore s)) (m !! key) in
    if fltb floor (Score st) then
      let st := mkState floor (KeyRate st) (Attempts st) (TrafficAttempts st) (LatencyMS st)
                  (LastTraffic st) (UpdatedAt st) (TimeoutHitAt st) in
      (enqueue leading (putStates s svc key (<[key := st]> m)) (scoreKey svc key) st,
       seen ∪ {[key]}, n + 1)
    else (putStates s svc key m, seen ∪ {[key]}, n).
Definition RebaseAfterDrain (leading : bool) (s : serviceImpl) (svc : string)
    (endpoints : EndpointAddrList) (rpc : string) : serviceImpl * Z :=
  let '(s, _, n) := foldl (rebaseStep leading svc rpc) (s, ∅, 0) endpoints in (s, n).

(** [ResetMatching]: the keys reset, sorted, and whether a write to storage
    failed; [None] is [ErrNoScore].  The forced writes go to storage past the
    write-behind: [stored] says which of them storage takes. *)
Definition resetShard (s : serviceImpl) (svc target : string) (sh : scoreShard) : scoreShard :=
  match sh !! svc with
  | None => sh
  | Some m => <[svc := map_imap (λ k st, Some (if resetTargets k target then fresh (InitialScore s) else st)) m]> sh
  end.
Definition resetKeys (svc target : string) (sh : scoreShard) : list string :=
  filter (λ k, resetTargets k target = true) (map_to_list (default ∅ (sh !! svc))).*1.
Definition ResetMatching (stored : string -> bool) (s : serviceImpl) (svc target : string)
    : serviceImpl * option (list string * bool) :=
  let keys := shards s ≫= resetKeys svc target in
  let dropped := existsb (λ k, negb (stored (scoreKey svc k))) keys in
  (withShards s (resetShard s svc target <$> shards s),
   match keys with [] => None | _ => Some (merge_sort String.le keys, dropped) end).

(** [NewService]: a zero initial score and a zero selector configuration stand
    for the defaults. *)
Definition zeroSelector (c : SelectorConfig) : bool :=
  feqb (Tier1Threshold c) f0 && feqb (Tier2Threshold c) f0 && feqb (MinThreshold c) f0 &&
  feqb (ProbationThreshold c) f0 && bool_decide (ProbationPct c = 0) && bool_decide (Tier2Pct c = 0).
Definition NewService (t : option Timeline.Timeline) (initial : f64) (i : SignalImpacts)
    (r : RateConfig) (sel : SelectorConfig) : serviceImpl :=
  let tr (hl : Z) := unmarked (newOpTracker hl) in
  mkService (if feqb initial f0 then maxScore else initial) t (newScoring i r)
    (if zeroSelector sel then DefaultSelectorConfig else sel) None
    (newOpTracker DefaultOperatorHalfLife) (tr hour) (tr (30 * minute))
    (list_to_map ((λ c, (c, tr (30 * minute))) <$> ["light"; "standard"; "heavy"]))
    (replicate scoreShards ∅) ∅.

(** ** Scores are numbers between 0 and 100 *)
Definition in_range (x : f64) : Prop := fleb f0 x = true /\ fleb x maxScore = true.

Lemma in_range_num x : in_range x -> is_nan x = false /\ is_inf x = false.
Proof.
  intros [(_&Hn&H0)%fleb_key (_&_&H1)%fleb_key]. split; [done|].
  destruct x as [|[]| |]; try done; exfalso; [apply H0|apply H1]; left; by vm_compute.
Qed.
Lemma clamp_range x : is_nan x = false -> in_range (clamp x).
Proof.
  intros Hx. unfold clamp.
  assert (is_nan (fmin x maxScore) = false) as Hm by (rewrite fmin_nan, Hx; done).
  assert (fleb (fmin x maxScore) maxScore = true) as Hle.
  { destruct (fmin_case x maxScore Hx eq_refl) as [[-> ?]|[-> _]]; [done|done]. }
  destruct (fmax_case f0 (fmin x maxScore) eq_refl Hm) as [[-> _]|[-> H]]; split; done.
Qed.
Lemma Impact_num i t : is_nan (Impact i t) = false.
Proof. unfold Impact. repeat case_bool_decide; try apply of_int_num. done. Qed.

Lemma applySignal_range c mt st rpc sig ts :
  in_range (Score st) -> in_range (Score (applySignal c mt st rpc sig ts)).
Proof.
  intros Hs. unfold applySignal. cbn. destruct (_ && _); [|done].
  apply clamp_range. destruct (in_range_num _ Hs). apply fadd_num; auto. apply Impact_num.
Qed.

(** ** Reading the cache *)
Definition shaped (s : serviceImpl) : Prop := length (shards s) = scoreShards.

Lemma scoreShardOf_lt key : (shardOf key < scoreShards)%nat.
Proof.
  unfold shardOf, scoreShards. pose proof (Z.mod_pos_bound (Timeline.fnv32a key) (Z.of_nat 32)). lia.
Qed.
Lemma statesOf_put s svc key m svc' key' :
  shaped s ->
  statesOf (putStates s svc key m) svc' key' =
  if bool_decide (svc = svc' /\ shardOf key = shardOf key') then m else statesOf s svc' key'.
Proof.
  intros Hs. unfold statesOf, putStates. cbn.
  destruct (lookup_lt_is_Some_2 (shards s) (shardOf key)) as [sh Hsh].
  { rewrite Hs. apply scoreShardOf_lt. }
  case_bool_decide as E.
  - destruct E as [-> E]. rewrite <- E, list_lookup_alter_eq, Hsh. simpl. by rewrite lookup_insert_eq.
  - destruct (decide (shardOf key = shardOf key')) as [E'|E'].
    + rewrite <- E', list_lookup_alter_eq, Hsh. simpl. rewrite lookup_insert_ne; [done|]. naive_solver.
    + by rewrite list_lookup_alter_ne.
Qed.
Lemma shaped_put s svc key m : shaped s -> shaped (putStates s svc key m).
Proof. unfold shaped, putStates. cbn. by rewrite length_alter. Qed.

(** What a signal leaves alone. *)
Lemma enqueue_shards l s k st : shards (enqueue l s k st) = shards s.
Proof. by destruct l. Qed.

(** The map [RecordSignal] writes into. *)
Definition baseMap (s : serviceImpl) (svc key : string) : gmap string State :=
  match statesOf s svc key !! key with
  | Some _ => statesOf s svc key
  | None => if bool_decide (maxScoresPerServiceShard <= Z.of_nat (size (statesOf s svc key)))
            then pruneUninformative s (statesOf s svc key) else statesOf s svc key
  end.
Lemma baseMap_sub s svc key k st : baseMap s svc key !! k = Some st -> statesOf s svc key !! k = Some st.
Proof.
  unfold baseMap. destruct (_ !! key); [done|]. case_bool_decide; [|done].
  by intros [? _]%map_lookup_filter_Some.
Qed.

Definition after (s : serviceImpl) (svc : string) (ep : EndpointAddr) (rpc : string) (sig : Signal)
    (now : Z) : State :=
  applySignal (sc s) (MinThreshold (selCfg s)) (stateOr s svc (keyOf ep rpc)) rpc sig (stamp sig now).

Lemma RecordSignal_shards l s svc ep rpc sig now :
  shards (RecordSignal l s svc ep rpc sig now) =
  shards (putStates s svc (keyOf ep rpc)
    (<[keyOf ep rpc := after s svc ep rpc sig now]> (baseMap s svc (keyOf ep rpc)))).
Proof. unfold RecordSignal. by rewrite enqueue_shards. Qed.
Lemma RecordSignal_fixed l s svc ep rpc sig now :
  let s' := RecordSignal l s svc ep rpc sig now in
  InitialScore s' = InitialScore s /\ sc s' = sc s /\ selCfg s' = selCfg s /\ chronic s' = chronic s.
Proof. unfold RecordSignal, enqueue. by destruct l. Qed.

Lemma statesOf_ext s s' svc key : shards s' = shards s -> statesOf s' svc key = statesOf s svc key.
Proof. unfold statesOf. by intros ->. Qed.

Lemma statesOf_Record l s svc ep rpc sig now svc' key' :
  shaped s ->
  statesOf (RecordSignal l s svc ep rpc sig now) svc' key' =
  if bool_decide (svc = svc' /\ shardOf (keyOf ep rpc) = shardOf key')
  then <[keyOf ep rpc := after s svc ep rpc sig now]> (baseMap s svc (keyOf ep rpc))
  else statesOf s svc' key'.
Proof.
  intros Hs. rewrite (statesOf_ext _ _ _ _ (RecordSignal_shards l s svc ep rpc sig now)).
  by apply statesOf_put.
Qed.
Lemma shaped_Record l s svc ep rpc sig now : shaped s -> shaped (RecordSignal l s svc ep rpc sig now).
Proof. intros. unfold shaped. rewrite RecordSignal_shards. by apply shaped_put. Qed.

(** A signal is what its key reads next. *)
Lemma lookup_Record l s svc ep rpc sig now :
  shaped s ->
  lookupState (RecordSignal l s svc ep rpc sig now) svc (keyOf ep rpc) =
  Some (after s svc ep rpc sig now).
Proof.
  intros Hs. unfold lookupState. rewrite statesOf_Record, bool_decide_true by done.
  apply lookup_insert_eq.
Qed.

Lemma stateOr_Record l s svc ep rpc sig now :
  shaped s -> stateOr (RecordSignal l s svc ep rpc sig now) svc (keyOf ep rpc) = after s svc ep rpc sig now.
Proof. intros. unfold stateOr. by rewrite lookup_Record. Qed.

(** ** The range, over every history *)
Definition scored (s : serviceImpl) : Prop :=
  shaped s /\ in_range (InitialScore s) /\ in_range (MinThreshold (selCfg s)) /\
  (forall svc key, in_range (initialScore s svc key)) /\
  (forall i sh svc m k st, shards s !! i = Some sh -> sh !! svc = Some m -> m !! k = Some st ->
     in_range (Score st)).

Lemma scored_state s svc key k st : scored s -> statesOf s svc key !! k = Some st -> in_range (Score st).
Proof.
  intros (_&_&_&_&H). unfold statesOf. destruct (shards s !! shardOf key) as [sh|] eqn:E1; [|done].
  simpl. destruct (sh !! svc) as [m|] eqn:E2; [|done]. simpl. eauto.
Qed.
Lemma scored_stateOr s svc key : scored s -> in_range (Score (stateOr s svc key)).
Proof.
  intros H. unfold stateOr, lookupState. destruct (statesOf s svc key !! key) as [st|] eqn:E; simpl.
  - by eapply scored_state.
  - apply H.
Qed.

(** Replacing a map of states in range by another one. *)
Lemma scored_put s svc key m :
  scored s -> (forall k st, m !! k = Some st -> in_range (Score st)) -> scored (putStates s svc key m).
Proof.
  intros (H1&H2&H3&H4&H5) Hm. split_and!; auto; [by apply shaped_put|].
  intros i sh svc' m' k st. unfold putStates. cbn [shards withShards].
  destruct (decide (shardOf key = i)) as [<-|Hne].
  - rewrite list_lookup_alter_eq. intros (sh0&E&->)%fmap_Some. 
    destruct (decide (svc = svc')) as [<-|Hne].
    + rewrite lookup_insert_eq. intros [= <-]. apply Hm.
    + rewrite lookup_insert_ne by done. eauto.
  - rewrite list_lookup_alter_ne by done. eauto.
Qed.
Lemma scored_ext s s' :
  InitialScore s' = InitialScore s -> selCfg s' = selCfg s -> chronic s' = chronic s ->
  shards s' = shards s -> scored s -> scored s'.
Proof.
  intros E1 E2 E3 E4 (H1&H2&H3&H4&H5). unfold scored, shaped, initialScore in *.
  rewrite E1, E2, E3, E4. auto.
Qed.

Lemma scored_Record l s svc ep rpc sig now : scored s -> scored (RecordSignal l s svc ep rpc sig now).
Proof.
  intros H. pose proof (RecordSignal_fixed l s svc ep rpc sig now) as (E1&_&E2&E3).
  eapply (scored_ext (putStates s svc (keyOf ep rpc) _)); [done..| |].
  - apply RecordSignal_shards.
  - apply scored_put; [done|]. intros k st [[<- <-]|[_ Hk]]%lookup_insert_Some.
    + by apply applySignal_range, scored_stateOr.
    + apply baseMap_sub in Hk. by eapply scored_state.
Qed.

(** What may happen to a service. *)
Inductive op :=
  | Signal1 (leading : bool) (svc : string) (ep : EndpointAddr) (rpc : string) (sig : Signal) (now : Z)
  | SignalAll (leading : bool) (svc : string) (eps : EndpointAddrList) (rpc : string) (sig : Signal) (now : Z)
  | Rebase (leading : bool) (svc : string) (eps : EndpointAddrList) (rpc : string)
  | Reset (stored : string -> bool) (svc target : string)
  | Tune (i : SignalImpacts) (r : RateConfig) (sel : SelectorConfig)
  | Refresh (v : chronicView)
  | FlushWrites (now : Z).
Definition apply_op (s : serviceImpl) (o : op) : serviceImpl :=
  match o with
  | Signal1 l svc ep rpc sig now => RecordSignal l s svc ep rpc sig now
  | SignalAll l svc eps rpc sig now => RecordSignalOnce l s svc eps rpc sig now
  | Rebase l svc eps rpc => (RebaseAfterDrain l s svc eps rpc).1
  | Reset stored svc target => (ResetMatching stored s svc target).1
  | Tune i r sel => Retune s i r sel
  | Refresh v => setView s v
  | FlushWrites now => (flushPending s now).1
  end.
(** Thresholds are scores, and so are the seeds of a view. *)
Definition sane (o : op) : Prop :=
  match o with
  | Tune _ _ sel => in_range (MinThreshold sel)
  | Refresh v => forall id x, opSeed v !! id = Some x \/ partySeed v !! id = Some x -> in_range x
  | _ => True
  end.

Lemma seedFor_range v svc o rpc x :
  (forall id y, opSeed v !! id = Some y \/ partySeed v !! id = Some y -> in_range y) ->
  seedFor own (Some v) svc o rpc = Some x -> in_range x.
Proof.
  intros H. unfold seedFor. case_bool_decide; [done|].
  destruct (partySeed v !! _) as [p|] eqn:Ep, (opSeed v !! _) as [y|] eqn:Eo;
    try (destruct (fltb p y)); try done; destruct (gated _ _ _); try done; intros [= <-]; eauto.
Qed.

Lemma scored_fold {A} (f : serviceImpl -> A -> serviceImpl) (l : list A) s :
  (forall s a, scored s -> scored (f s a)) -> scored s -> scored (foldl f s l).
Proof. intros Hf. revert s. induction l; cbn; auto. Qed.

Lemma scored_op s o : scored s -> sane o -> scored (apply_op s o).
Proof.
  intros H Ho. destruct o as [l svc ep rpc sig now|l svc eps rpc sig now|l svc eps rpc|stored svc tg|i r sel|v|now];
    cbn [apply_op].
  - by apply scored_Record.
  - unfold RecordSignalOnce. destruct eps as [|ep0 rest]; [done|].
    destruct (forallb _ _); [by apply scored_Record|].
    generalize (∅ : gset string) as seen. revert H. generalize s.
    induction (ep0 :: rest) as [|ep eps IH]; intros s' H seen; [done|]. cbn.
    case_bool_decide; apply IH; auto. by apply scored_Record.
  - unfold RebaseAfterDrain.
    assert (forall acc, scored acc.1.1 -> scored (foldl (rebaseStep l svc rpc) acc eps).1.1) as Hfold.
    { clear. induction eps as [|ep eps IH]; intros acc H; [done|]. cbn. apply IH.
      destruct acc as [[s seen] n]. cbn in *. case_bool_decide; [done|].
      destruct (fltb _ _); cbn; cycle 1.
      - apply scored_put; [done|]. intros k st Hk. by eapply scored_state.
      - eapply scored_ext; [| | |apply enqueue_shards|]; try (by destruct l).
        apply scored_put; [done|]. intros k st [[<- <-]|[_ Hk]]%lookup_insert_Some; [apply H|].
        by eapply scored_state. }
    specialize (Hfold (s, ∅, 0) H). by destruct (foldl _ _ _) as [[? ?] ?].
  - destruct H as (H1&H2&H3&H4&H5). split_and!; auto; cbn.
    + unfold shaped. cbn. by rewrite length_fmap.
    + intros i sh svc' m k st. rewrite list_lookup_fmap. intros (sh0&E&->)%fmap_Some.
      unfold resetShard. destruct (sh0 !! svc) as [m0|] eqn:Em; [|eauto].
      intros [[<- <-]|[_ Hm]]%lookup_insert_Some; [|eauto].
      rewrite map_lookup_imap. intros (st0&E0&[= <-])%bind_Some. destruct (resetTargets k tg); [done|eauto].
  - destruct H as (H1&H2&H3&H4&H5). split_and!; auto.
  - destruct H as (H1&H2&H3&H4&H5). split_and!; auto. intros svc key. unfold initialScore. cbn [chronic setView].
    destruct (seedFor _ (Some v) _ _ _) eqn:E; [|done]. by eapply seedFor_range.
  - destruct H as (H1&H2&H3&H4&H5). split_and!; auto.
Qed.

Lemma New_scored t initial i r sel :
  in_range initial -> in_range (MinThreshold sel) -> scored (NewService t initial i r sel).
Proof.
  intros Hi Hm. assert (in_range maxScore) as H100 by (split; by vm_compute).
  assert (in_range (InitialScore (NewService t initial i r sel))) as HI.
  { cbn. by destruct (feqb initial f0). }
  split_and!; auto.
  - apply length_replicate.
  - cbn. destruct (zeroSelector sel); [split; by vm_compute|done].
  - intros j sh svc m k st [-> _]%lookup_replicate. by rewrite lookup_empty.
Qed.

Lemma scored_run t initial i r sel ops :
  in_range initial -> in_range (MinThreshold sel) -> Forall sane ops ->
  scored (foldl apply_op (NewService t initial i r sel) ops).
Proof.
  intros Hi Hm Hops. pose proof (New_scored t initial i r sel Hi Hm) as H. revert H Hops.
  generalize (NewService t initial i r sel). induction ops as [|o ops IH]; intros s H Hops; [done|].
  apply Forall_cons in Hops as [Ho Hops]. apply IH; auto. by apply scored_op.
Qed.


(** ** Penalties demote, they do not remove *)
Lemma clamp_keeps_above x mt :
  (is_nan x = false -> fleb mt x = true) -> is_nan mt = false -> fleb mt maxScore = true ->
  fltb (clamp x) mt = false.
Proof.
  intros Hx Hmt Hle. unfold clamp. destruct (is_nan x) eqn:En.
  { unfold fmin. rewrite En. cbn. by destruct mt as [[]|[]| |[]]. }
  specialize (Hx eq_refl). apply fltb_le_false.
  assert (is_nan (fmin x maxScore) = false) as Hm by (by rewrite fmin_nan, En).
  assert (fleb mt (fmin x maxScore) = true) as H.
  { by destruct (fmin_case x maxScore En eq_refl) as [[-> _]|[-> _]]. }
  destruct (fmax_case f0 (fmin x maxScore) eq_refl Hm) as [[-> H']|[-> _]]; [|done].
  by eapply fleb_trans.
Qed.
Lemma scoreWith_floor s svc key st party :
  in_range (Score st) -> fleb (MinThreshold (selCfg s)) (Score st) = true ->
  fltb (scoreWith s svc key st party) (MinThreshold (selCfg s)) = false.
Proof.
  intros Hs Hm. pose proof Hm as (Hmn&Hsn&_)%fleb_key. unfold scoreWith.
  set (score := fadd _ party). set (floor := fmin _ _). apply clamp_keeps_above; [|done|].
  - assert (fleb (MinThreshold (selCfg s)) floor = true) as Hf.
    { unfold floor. destruct (fmin_case (Score st) (MinThreshold (selCfg s)) Hsn Hmn) as [[-> _]|[-> _]];
        [done|by apply fleb_refl]. }
    assert (is_nan floor = false) as Hfn by (unfold floor; by rewrite fmin_nan, Hsn, Hmn).
    destruct (fltb score floor) eqn:E; [done|]. intros Hn.
    eapply fleb_trans; [exact Hf|]. by apply fltb_false_fleb.
  - eapply fleb_trans; [exact Hm|apply Hs].
Qed.

(** C30. Penalties demote a key and never remove it.  After any history, an
    endpoint whose own score is at or above the selection floor is never
    rejected by the selector, whatever its failure rate, its operator's, its
    party's penalties, its method class's share and the pool's baseline are, and
    whatever the logarithms of the curve return: only its own score takes an
    endpoint out of rotation. *)
Theorem penalties_never_remove t initial i r sel (ops : list op) svc class rpc ep
    (Hinit : in_range initial) (Hmin : in_range (MinThreshold sel)) (Hops : Forall sane ops) :
  let s := foldl apply_op (NewService t initial i r sel) ops in
  fleb (MinThreshold (selCfg s)) (Score (stateOr s svc (keyOf ep rpc))) = true ->
  0 <= (classify (selCfg s) (scoreForSelector s svc class rpc) ep).1 /\
  RuledOut s svc ep rpc = false.
Proof.
  intros s Hown. assert (scored s) as H.
  { by apply scored_run. }
  clearbody s. pose proof (scored_stateOr s svc (keyOf ep rpc) H) as Hr.
  assert (forall p, fltb (scoreWith s svc (keyOf ep rpc) (stateOr s svc (keyOf ep rpc)) p)
                      (MinThreshold (selCfg s)) = false) as Hfl by (intros; by apply scoreWith_floor).
  split.
  - unfold classify, scoreForSelector, effectiveForClass, effectiveFor. cbn [negb].
    unfold probationIdx, tier1Idx, tier2Idx, tier3Idx.
    destruct (match chronic s with Some _ => _ | None => _ end); rewrite Hfl;
      repeat (match goal with |- context [if ?b then _ else _] => destruct b end); cbn [fst]; lia.
  - unfold RuledOut, ScoreOf, effectiveFor. unfold stateOr in Hfl.
    destruct (lookupState s svc (keyOf ep rpc)) as [st|]; [|done]. simpl in *. apply Hfl.
Qed.

(** ** Bursts of signals on one key *)
Definition burst (l : bool) (s : serviceImpl) (svc : string) (ep : EndpointAddr) (rpc : string)
    (sigs : list (Signal * Z)) : serviceImpl :=
  foldl (λ s p, RecordSignal l s svc ep rpc p.1 p.2) s sigs.

(** What a burst leaves as it is, and the induction over it. *)
Lemma burst_ind (P : State -> nat -> Prop) l s svc ep rpc sigs :
  shaped s -> P (stateOr s svc (keyOf ep rpc)) O ->
  (forall st n p, P st n -> p ∈ sigs ->
     P (applySignal (sc s) (MinThreshold (selCfg s)) st rpc p.1 (stamp p.1 p.2)) (S n)) ->
  P (stateOr (burst l s svc ep rpc sigs) svc (keyOf ep rpc)) (length sigs).
Proof.
  intros Hs H0 Hstep. cut (P (stateOr (burst l s svc ep rpc sigs) svc (keyOf ep rpc)) (length sigs) /\
    shaped (burst l s svc ep rpc sigs) /\ sc (burst l s svc ep rpc sigs) = sc s /\
    selCfg (burst l s svc ep rpc sigs) = selCfg s); [tauto|].
  unfold burst. induction sigs as [|[sig now] sigs IH] using rev_ind; [done|].
  destruct IH as (IH1&IH2&IH3&IH4).
  { intros st n p Hp Hin. apply Hstep; [done|]. apply elem_of_app. by left. }
  rewrite foldl_app, length_app. cbn [foldl length fst snd]. rewrite Nat.add_1_r.
  pose proof (RecordSignal_fixed l (foldl (λ s p, RecordSignal l s svc ep rpc p.1 p.2) s sigs)
    svc ep rpc sig now) as (_&E1&E2&_).
  split_and!; [|by apply shaped_Record|by rewrite E1|by rewrite E2].
  rewrite stateOr_Record by done. unfold after. rewrite IH3, IH4.
  apply (Hstep _ _ (sig, now)); [done|]. apply elem_of_app. right. by apply list_elem_of_singleton.
Qed.

Lemma timeout_not_deferred mt st sig ts : isTimeout sig = true -> deferred mt st sig ts = false.
Proof.
  unfold isTimeout, deferred. intros [Ht%bool_decide_eq_true _]%andb_true_iff. rewrite Ht.
  by rewrite andb_false_r.
Qed.
Lemma u64_succ x : u64 (u64 x + 1) = u64 (x + 1).
Proof. unfold u64. by rewrite Zplus_mod_idemp_l. Qed.

(** Timeouts that land together cost once.  A transport timeout outside
    the window of the last one lowers the score by the impact of a major error,
    and any number of further timeouts of the key stamped less than a second
    after it leave the score alone, while every one of them is counted as an
    attempt. *)
Theorem timeouts_cost_once l s svc ep rpc sig0 now0 sigs
    (Hs : shaped s) (H0 : isTimeout sig0 = true)
    (Hfirst : coalesced (stateOr s svc (keyOf ep rpc)) sig0 (stamp sig0 now0) = false)
    (Hms : UnixMilli (stamp sig0 now0) <> 0)
    (Hsigs : Forall (λ p, isTimeout p.1 = true /\
       UnixMilli (stamp p.1 p.2) - UnixMilli (stamp sig0 now0) < 1000) sigs) :
  let prev := stateOr s svc (keyOf ep rpc) in
  let st := stateOr (burst l s svc ep rpc ((sig0, now0) :: sigs)) svc (keyOf ep rpc) in
  Score st = clamp (fadd (Score prev) (Impact (impacts (sc s)) SignalMajorError)) /\
  Attempts st = u64 (Attempts prev + 1 + Z.of_nat (length sigs)).
Proof.
  cbv zeta. set (prev := stateOr s svc (keyOf ep rpc)) in *.
  assert (Type_ sig0 = SignalMajorError) as Ht0.
  { unfold isTimeout in H0. apply andb_true_iff in H0 as [?%bool_decide_eq_true _]. done. }
  unfold burst. cbn [foldl fst snd].
  fold (burst l (RecordSignal l s svc ep rpc sig0 now0) svc ep rpc sigs).
  cut (Score (stateOr (burst l (RecordSignal l s svc ep rpc sig0 now0) svc ep rpc sigs) svc (keyOf ep rpc)) =
       clamp (fadd (Score prev) (Impact (impacts (sc s)) SignalMajorError)) /\
       TimeoutHitAt (stateOr (burst l (RecordSignal l s svc ep rpc sig0 now0) svc ep rpc sigs) svc (keyOf ep rpc)) =
       UnixMilli (stamp sig0 now0) /\
       Attempts (stateOr (burst l (RecordSignal l s svc ep rpc sig0 now0) svc ep rpc sigs) svc (keyOf ep rpc)) =
       u64 (Attempts prev + 1 + Z.of_nat (length sigs))); [tauto|].
  apply (burst_ind (λ st n, Score st = clamp (fadd (Score prev) (Impact (impacts (sc s)) SignalMajorError)) /\
    TimeoutHitAt st = UnixMilli (stamp sig0 now0) /\ Attempts st = u64 (Attempts prev + 1 + Z.of_nat n))).
  - by apply shaped_Record.
  - rewrite stateOr_Record by done. unfold after. fold prev. unfold applySignal. cbn.
    rewrite timeout_not_deferred, Hfirst, H0, Ht0 by done. cbn. rewrite Z.add_0_r. done.
  - intros st n p (H1&H2&H3) Hp. rewrite Forall_forall in Hsigs. destruct (Hsigs p Hp) as [Hp1 Hp2].
    assert (coalesced st p.1 (stamp p.1 p.2) = true) as Hc.
    { unfold coalesced. rewrite Hp1, H2, bool_decide_false by done. by rewrite bool_decide_true. }
    unfold applySignal. cbn. rewrite timeout_not_deferred, Hc by done. cbn. split_and!; [done|done|].
    rewrite H3, u64_succ. f_equal. lia.
Qed.

(** Traffic has the last word.  On a selectable key that served traffic, any
    number of probe successes stamped less than ten minutes after that traffic
    move neither its score nor its failure rate; they are counted as attempts and
    not as traffic. *)
Theorem probes_defer_to_traffic l s svc ep rpc sigs
    (Hs : shaped s) (Hrpc : rpc <> RPCTypeWebSocket) :
  let prev := stateOr s svc (keyOf ep rpc) in
  fleb (MinThreshold (selCfg s)) (Score prev) = true -> 0 < LastTraffic prev ->
  Forall (λ p, Probe p.1 = true /\ Type_ p.1 = SignalSuccess /\
    Unix (stamp p.1 p.2) - LastTraffic prev < 600) sigs ->
  let st := stateOr (burst l s svc ep rpc sigs) svc (keyOf ep rpc) in
  Score st = Score prev /\ KeyRate st = KeyRate prev /\ TrafficAttempts st = TrafficAttempts prev /\
  (sigs <> [] -> Attempts st = u64 (Attempts prev + Z.of_nat (length sigs))).
Proof.
  cbv zeta. set (prev := stateOr s svc (keyOf ep rpc)). intros Hsel Hlt Hsigs.
  cut (Score (stateOr (burst l s svc ep rpc sigs) svc (keyOf ep rpc)) = Score prev /\
       KeyRate (stateOr (burst l s svc ep rpc sigs) svc (keyOf ep rpc)) = KeyRate prev /\
       TrafficAttempts (stateOr (burst l s svc ep rpc sigs) svc (keyOf ep rpc)) = TrafficAttempts prev /\
       LastTraffic (stateOr (burst l s svc ep rpc sigs) svc (keyOf ep rpc)) = LastTraffic prev /\
       u64 (Attempts (stateOr (burst l s svc ep rpc sigs) svc (keyOf ep rpc))) =
         u64 (Attempts prev + Z.of_nat (length sigs)) /\
       (length sigs <> O -> is_u64 (Attempts (stateOr (burst l s svc ep rpc sigs) svc (keyOf ep rpc))))).
  { intros (?&?&?&_&E&Hu). split_and!; auto. intros Hne.
    rewrite <- E, u64_small; [done|]. apply Hu. by destruct sigs. }
  apply (burst_ind (λ st n, Score st = Score prev /\ KeyRate st = KeyRate prev /\
    TrafficAttempts st = TrafficAttempts prev /\ LastTraffic st = LastTraffic prev /\
    u64 (Attempts st) = u64 (Attempts prev + Z.of_nat n) /\ (n <> O -> is_u64 (Attempts st)))).
  - done.
  - fold prev. cbn. rewrite Z.add_0_r. done.
  - intros st n p (H1&H2&H3&H4&H5&H6) Hp. rewrite Forall_forall in Hsigs.
    destruct (Hsigs p Hp) as (Hpr&Hty&Hts).
    assert (deferred (MinThreshold (selCfg s)) st p.1 (stamp p.1 p.2) = true) as Hd.
    { unfold deferred. rewrite Hpr, Hty, H1, Hsel, H4.
      change (probeDefer / second) with 600. by rewrite !bool_decide_true. }
    unfold applySignal, rateAfter. cbn. rewrite Hd, Hpr. cbn.
    rewrite (bool_decide_false (rpc = RPCTypeWebSocket)) by done.
    rewrite andb_false_r. cbn. split_and!; auto; [|].
    + rewrite u64_small by apply u64_range. unfold u64 in *.
      rewrite <- (Zplus_mod_idemp_l (Attempts st)), H5, Zplus_mod_idemp_l. f_equal. lia.
    + intros _. apply u64_range.
Qed.

(** ** One key's signal is no other key's business *)
Lemma penaltyFor_free s svc key r r' :
  feqb (Penalty (rateCfg (sc s)) r) f0 = true -> feqb (Penalty (rateCfg (sc s)) r') f0 = true ->
  penaltyFor s svc key r = penaltyFor s svc key r'.
Proof.
  intros H H'. unfold penaltyFor. destruct (chronic s) as [v|].
  - destruct (default false (opOn v !! svc)); [|by rewrite H, H'].
    destruct (byKey v !! (svc, key)); [done|]. simpl. by rewrite H, H'.
  - by rewrite H, H'.
Qed.
Lemma effectiveFor_ext s s' svc key st :
  sc s' = sc s -> selCfg s' = selCfg s -> chronic s' = chronic s ->
  effectiveFor s' svc key st = effectiveFor s svc key st.
Proof.
  intros E1 E2 E3. unfold effectiveFor, scoreWith, penaltyFor. by rewrite E1, E2, E3.
Qed.

(** Recording a signal changes the score of its own key and of no other,
    even when the cache is full and entries are pruned: where new keys start at
    the initial score, an entry that is dropped reads as the number it held. *)
Theorem signals_are_isolated l s svc ep rpc sig now svc' ep' rpc'
    (Hs : shaped s) (Hi : feqb (InitialScore s) f0 = false)
    (Honset : fleb f0 (OnsetRate (rateCfg (sc s))) = true)
    (Hne : (svc, keyOf ep rpc) <> (svc', keyOf ep' rpc'))
    (Hseed : initialScore s svc' (keyOf ep' rpc') = InitialScore s) :
  GetScore (RecordSignal l s svc ep rpc sig now) svc' ep' rpc' = GetScore s svc' ep' rpc'.
Proof.
  unfold GetScore. pose proof (RecordSignal_fixed l s svc ep rpc sig now) as (E0&E1&E2&E3).
  rewrite (effectiveFor_ext s) by done.
  assert (initialScore (RecordSignal l s svc ep rpc sig now) svc' (keyOf ep' rpc') = InitialScore s) as Hseed'.
  { rewrite <- Hseed. unfold initialScore. by rewrite E0, E3. }
  unfold stateOr, lookupState. rewrite Hseed, Hseed', statesOf_Record by done.
  case_bool_decide as E; [|done]. destruct E as [-> Esh].
  assert (statesOf s svc' (keyOf ep rpc) = statesOf s svc' (keyOf ep' rpc')) as Est.
  { unfold statesOf. by rewrite Esh. }
  rewrite lookup_insert_ne by congruence. unfold baseMap. rewrite Est.
  destruct (statesOf s svc' (keyOf ep' rpc') !! keyOf ep rpc); [done|]. case_bool_decide; [|done].
  destruct (statesOf s svc' (keyOf ep' rpc') !! keyOf ep' rpc') as [st|] eqn:Eq.
  - destruct (uninformative s st) eqn:Eu.
    + assert (pruneUninformative s (statesOf s svc' (keyOf ep' rpc')) !! keyOf ep' rpc' = None) as ->.
      { apply map_lookup_filter_None. right. intros x Hx. cbn. congruence. }
      simpl. unfold uninformative in Eu. apply andb_true_iff in Eu as [Eu1 Eu2].
      apply feqb_eq in Eu1; [|done]. unfold effectiveFor, scoreWith. cbn. rewrite <- Eu1.
      rewrite (penaltyFor_free s _ _ (KeyRate st) f0); [done|done|].
      unfold Penalty. by rewrite Honset, orb_true_r.
    + assert (pruneUninformative s (statesOf s svc' (keyOf ep' rpc')) !! keyOf ep' rpc' = Some st) as ->;
        [|done]. by apply map_lookup_filter_Some.
  - assert (pruneUninformative s (statesOf s svc' (keyOf ep' rpc')) !! keyOf ep' rpc' = None) as ->; [|done].
    apply map_lookup_filter_None. by left.
Qed.

(** ** One probe, one attempt per key *)
Lemma record_once_fold l svc rpc sig now eps s (seen : gset string) :
  exists reps, reps `sublist_of` eps /\ NoDup ((λ ep, keyOf ep rpc) <$> reps) /\
    (forall k, k ∈ ((λ ep, keyOf ep rpc) <$> eps) -> k ∈ seen \/ k ∈ ((λ ep, keyOf ep rpc) <$> reps)) /\
    (forall k, k ∈ ((λ ep, keyOf ep rpc) <$> reps) -> k ∉ seen) /\
    (foldl (λ acc ep,
       let '(s, seen) := acc in
       let k := keyOf ep rpc in
       if bool_decide (k ∈ seen) then (s, seen)
       else (RecordSignal l s svc ep rpc sig now, seen ∪ {[k]})) (s, seen) eps).1 =
    foldl (λ s ep, RecordSignal l s svc ep rpc sig now) s reps.
Proof.
  revert s seen. induction eps as [|ep eps IH]; intros s seen.
  - exists []. cbn. split_and!; [done|by constructor| | |done]; intros k Hk; by apply elem_of_nil in Hk.
  - cbn. case_bool_decide as Hin.
    + destruct (IH s seen) as (reps&H1&H2&H3&H4&H5). exists reps. split_and!; auto; [by constructor|].
      intros k [->|Hk]%elem_of_cons; auto.
    + destruct (IH (RecordSignal l s svc ep rpc sig now) (seen ∪ {[keyOf ep rpc]})) as (reps&H1&H2&H3&H4&H5).
      exists (ep :: reps). cbn. split_and!; auto.
      * by constructor.
      * apply NoDup_cons. split; [|done]. intros Hk%H4. set_solver.
      * intros k [->|Hk]%elem_of_cons; [right; by apply elem_of_cons; left|].
        destruct (H3 k Hk) as [[?| ->%elem_of_singleton]%elem_of_union|?]; [by left|..];
          right; apply elem_of_cons; auto.
      * intros k [->|Hk]%elem_of_cons; [done|]. specialize (H4 k Hk). set_solver.
Qed.

(** A probe of many addresses is one attempt per reputation key:
    [RecordSignalOnce] records the signal on one address of each distinct key
    among those given, and on no key twice. *)
Theorem one_signal_per_key l s svc eps rpc sig now :
  exists reps, reps `sublist_of` eps /\
    NoDup ((λ ep, keyOf ep rpc) <$> reps) /\
    (forall k, k ∈ ((λ ep, keyOf ep rpc) <$> reps) <-> k ∈ ((λ ep, keyOf ep rpc) <$> eps)) /\
    RecordSignalOnce l s svc eps rpc sig now =
    foldl (λ s ep, RecordSignal l s svc ep rpc sig now) s reps.
Proof.
  unfold RecordSignalOnce. destruct eps as [|ep0 rest].
  { exists []. split_and!; try done. by constructor. }
  destruct (forallb _ rest) eqn:Ef.
  - exists [ep0]. split_and!.
    + constructor. apply sublist_nil_l.
    + apply NoDup_singleton.
    + intros k. cbn. rewrite !elem_of_cons. split; [intros [->|Hk]; [by left|by apply elem_of_nil in Hk]|].
      intros [->|(ep&->&Hep)%list_elem_of_fmap]; [by left|]. left.
      rewrite forallb_forall in Ef. apply list_elem_of_In in Hep.
      by apply Ef, bool_decide_eq_true in Hep.
    + done.
  - destruct (record_once_fold l svc rpc sig now (ep0 :: rest) s ∅) as (reps&H1&H2&H3&_&H5).
    exists reps. split_and!; auto. intros k. split.
    + intros (ep&->&Hep)%list_elem_of_fmap. apply list_elem_of_fmap. exists ep. split; [done|].
      by eapply sublist_subseteq.
    + intros Hk. destruct (H3 k Hk) as [?|?]; [set_solver|done].
Qed.

(** ** Resets *)
Lemma statesOf_reset stored s svc target svc' key :
  statesOf (ResetMatching stored s svc target).1 svc' key =
  if bool_decide (svc = svc')
  then map_imap (λ k st, Some (if resetTargets k target then fresh (InitialScore s) else st))
         (statesOf s svc' key)
  else statesOf s svc' key.
Proof.
  unfold statesOf, ResetMatching. cbn [fst withShards shards]. rewrite list_lookup_fmap.
  destruct (shards s !! shardOf key) as [sh|]; simpl; [|by case_bool_decide; rewrite ?map_imap_empty].
  unfold resetShard. destruct (sh !! svc) as [m|] eqn:E.
  - case_bool_decide as Es.
    + subst svc'. by rewrite lookup_insert_eq, E.
    + by rewrite lookup_insert_ne.
  - case_bool_decide as Es; [|done]. subst svc'. rewrite E. simpl. by rewrite map_imap_empty.
Qed.

(** A reset does what it names and nothing else: every recorded key of the
    service the target reaches reads as new, every other key and every other
    service is untouched, no key is created, and the call reports [ErrNoScore]
    only when the target reaches no recorded key, and otherwise every key it
    reached, and says so when storage did not take one of the writes. *)
Theorem reset_reaches_its_targets stored s svc target :
  (forall svc' key, lookupState (ResetMatching stored s svc target).1 svc' key =
     (λ st, if bool_decide (svc = svc') && resetTargets key target then fresh (InitialScore s) else st)
       <$> lookupState s svc' key) /\
  (forall key, is_Some (lookupState s svc key) -> resetTargets key target = true ->
     exists ks dropped, (ResetMatching stored s svc target).2 = Some (ks, dropped) /\ key ∈ ks /\
       Sorted String.le ks /\ (stored (scoreKey svc key) = false -> dropped = true)).
Proof.
  split.
  - intros svc' key. unfold lookupState. rewrite statesOf_reset. case_bool_decide; cbn [andb].
    + rewrite map_lookup_imap. by destruct (statesOf s svc' key !! key).
    + by destruct (statesOf s svc' key !! key).
  - intros key [st Hst] Ht. unfold ResetMatching. cbn [snd].
    assert (key ∈ (shards s ≫= resetKeys svc target)) as Hin.
    { unfold lookupState, statesOf in Hst. apply list_elem_of_bind.
      destruct (shards s !! shardOf key) as [sh|] eqn:E; simpl in Hst; [|by rewrite lookup_empty in Hst].
      exists sh. split; [|by eapply list_elem_of_lookup_2].
      apply list_elem_of_filter. split; [done|]. apply list_elem_of_fmap. exists (key, st). split; [done|].
      by apply elem_of_map_to_list. }
    destruct (shards s ≫= resetKeys svc target) as [|k ks] eqn:E; [by apply elem_of_nil in Hin|].
    eexists (merge_sort String.le (k :: ks)), _. split_and!; [done| | |].
    + by rewrite merge_sort_Permutation.
    + apply Sorted_merge_sort. apply _.
    + intros Hst'. apply existsb_exists. exists key. rewrite Hst'.
      split; [by apply list_elem_of_In|done].
Qed.
End Signals.

(** ** Concrete histories *)
Definition demoMath : Math := mkMath (λ x, x) (λ x, x) (λ x, x) (λ x _, x).
Definition demoKey : EndpointAddr -> string -> string := keyFnFor "" None.
Definition demoNew : serviceImpl :=
  NewService None (of_int 100) (mkImpacts 0 0 0 0 0) (mkRate 0 f0 f0) (mkSel f0 f0 f0 f0 0 0).
Definition demoEp : EndpointAddr := "pokt1a-https://n1.example.org".
Definition demoSig (t : SignalType) (reason : string) (ts : Z) (probe : bool) : Signal :=
  mkSignal t ts 0 reason probe false "" "" 0.
Definition demoRun : list op -> serviceImpl :=
  foldl (apply_op (M := demoMath) (λ _, None) emptyOwners demoKey (λ l, l)) demoNew.
Definition demoTime (ms : Z) : Z := 1700000000 * second + ms * millisecond.
Definition demoSignal (t : SignalType) (reason : string) (ms : Z) : op :=
  Signal1 true "eth" demoEp "json_rpc" (demoSig t reason (demoTime ms) false) (demoTime ms).
Definition demoOps : list op :=
  [demoSignal SignalFatalError "down" 0; demoSignal SignalFatalError "down" 1;
   demoSignal SignalFatalError "down" 2; demoSignal SignalSuccess "" 3].


Lemma penalties_never_remove_witness :
  let s := demoRun [demoSignal SignalCriticalError "down" 0] in
  0 <= (classify (selCfg s) (scoreForSelector (M := demoMath) (λ _, None) emptyOwners demoKey s
          "eth" "" "json_rpc") demoEp).1 /\
  RuledOut (M := demoMath) (λ _, None) emptyOwners demoKey s "eth" demoEp "json_rpc" = false.
Proof.
  apply (penalties_never_remove (M := demoMath) (λ _, None) emptyOwners demoKey (λ l, l) None (of_int 100)
    (mkImpacts 0 0 0 0 0) (mkRate 0 f0 f0) (mkSel f0 f0 f0 f0 0 0)
    [demoSignal SignalCriticalError "down" 0] "eth" "" "json_rpc" demoEp).
  - split; by vm_compute.
  - split; by vm_compute.
  - repeat constructor.
  - by vm_compute.
Defined.

Definition demoTimeout (ms : Z) : Signal * Z :=
  (demoSig SignalMajorError reasonTransportTimeout (demoTime ms) false, demoTime ms).
Lemma timeouts_cost_once_witness :
  let st := stateOr (λ _, None) emptyOwners
    (burst (M := demoMath) (λ _, None) emptyOwners demoKey (λ l, l) true demoNew "eth" demoEp "json_rpc"
       [demoTimeout 0; demoTimeout 10; demoTimeout 999]) "eth" (demoKey demoEp "json_rpc") in
  Score st = of_int 90 /\ Attempts st = 3.
Proof.
  destruct (timeouts_cost_once (M := demoMath) (λ _, None) emptyOwners demoKey (λ l, l) true demoNew "eth"
    demoEp "json_rpc" (demoTimeout 0).1 (demoTimeout 0).2 [demoTimeout 10; demoTimeout 999]) as [H1 H2].
  - by vm_compute.
  - by vm_compute.
  - by vm_compute.
  - by vm_compute.
  - repeat (apply Forall_cons; split); try apply Forall_nil_2; by vm_compute.
  - split; [etrans; [exact H1|by vm_compute]|etrans; [exact H2|by vm_compute]].
Defined.

Lemma probes_defer_to_traffic_witness :
  let s := demoRun [demoSignal SignalMajorError "http_5xx" 0] in
  let st := stateOr (λ _, None) emptyOwners
    (burst (M := demoMath) (λ _, None) emptyOwners demoKey (λ l, l) true s "eth" demoEp "json_rpc"
       [(demoSig SignalSuccess "" (demoTime 5000) true, demoTime 5000)]) "eth" (demoKey demoEp "json_rpc") in
  Score st = of_int 90.
Proof.
  destruct (probes_defer_to_traffic (M := demoMath) (λ _, None) emptyOwners demoKey (λ l, l) true
    (demoRun [demoSignal SignalMajorError "http_5xx" 0]) "eth" demoEp "json_rpc"
    [(demoSig SignalSuccess "" (demoTime 5000) true, demoTime 5000)]) as [H1 _].
  - by vm_compute.
  - done.
  - by vm_compute.
  - by vm_compute.
  - apply Forall_singleton. by vm_compute.
  - cbv zeta. etrans; [exact H1|by vm_compute].
Defined.

Lemma signals_are_isolated_witness :
  let other : EndpointAddr := "pokt1b-https://n2.example.org" in
  GetScore (M := demoMath) (λ _, None) emptyOwners demoKey
    (RecordSignal (M := demoMath) (λ _, None) emptyOwners demoKey (λ l, l) true demoNew "eth" demoEp
       "json_rpc" (demoSig SignalFatalError "down" (demoTime 0) false) (demoTime 0)) "eth" other "json_rpc" =
  GetScore (M := demoMath) (λ _, None) emptyOwners demoKey demoNew "eth" other "json_rpc".
Proof.
  apply (signals_are_isolated (M := demoMath)); try by vm_compute.
Defined.

(** Where new keys start at their operator's standing, an entry that is pruned
    at the initial score comes back at that standing. *)
Definition seededView : chronicView :=
  mkView ∅ ∅ ∅ ∅ ∅ ∅ None ∅ None ∅ ∅ ∅ ∅ ∅ None
    {[("eth", "n1.example.org", "json_rpc") := of_int 40]} ∅ {["eth" := true]} None ∅ ∅.
Example pruned_key_is_reseeded :
  let s := setView demoNew seededView in
  let key := "https://n1.example.org|json_rpc" in
  let st := fresh (of_int 100) in
  pruneUninformative (M := demoMath) s {[key := st]} = ∅ /\
  initialScore (λ _, None) emptyOwners s "eth" key = of_int 40.
Proof. split; by vm_compute. Qed.
End RepService.
