(* ===== verification/Refresh.v ===== *)
(** * Refresh: the view the chronic term reads

    Models [refreshBaselines] of [reputation/service.go] with what it calls: the
    walk over the scores, the operators' rates, pool baselines and seeds, the
    parties of [Pricing], the fleet's notification counts
    ([reputation/dupshare.go]) and the class shares
    ([reputation/classshare.go]); and the recorders of head answers and
    notifications.

    The view it builds is the one [RepService] scores by.  What a refresh reads
    from outside (the gates, a peer's parties, the shared stores and whether
    they answered) is its input; every map is ranged over in an arbitrary
    order. *)

From stdpp Require Import strings sorting.
From S2P Require Import Prelude Float64 Domain ScoreSink Rate Pricing RepSelector RepService.

Module Refresh.
Import Domain.
Import Rate.
Import Pricing.
Import RepService (serviceImpl, shards, chronic, ops, refusals, throttles, classes, setView).

(** ** State *)
Record metrics := mkMetrics {
  mParties : parties; mDup : list PartyShare; mThrottle : list PartyShare;
  mClasses : gmap string (list PartyShare); mPolicy : list PolicyPenalty
}.
(** The service with the trackers and lists that only the refresh reads. *)
Record service := mkSvc {
  impl : serviceImpl; heads : opTracker; dups : opTracker; priced : option metrics; instanceID : string
}.

Record gates := mkGates {
  relativeGate : Gate; operatorGate : Gate; staleGate : Gate; gTrust : Gate; partyWSGate : Gate;
  dupGate : Gate; throttleGate : Gate; classGate : Gate; gPolicy : Gate; gSeed : Gate;
  dupLimits : option (string -> f64 * f64); throttleLimits : option (string -> f64 * f64);
  classLimits : option (string -> f64 * f64)
}.

(** ** Recorders *)
Section Recorders.
Context `{M : Math}.

Definition RecordHeadAnswer (t : opTracker) (svc party : string) (isStale : bool) (now : Z) : opTracker :=
  if bool_decide (party = "") then t
  else record t (partyID svc party) (if isStale then f1 else f0) now.

Definition RecordNotifications (t : opTracker) (svc party : string) (notes dupes : Z) (now : Z) : opTracker :=
  if bool_decide (party = "") || bool_decide (notes <= 0) then t
  else recordN t (partyID svc party) (of_int notes) (of_int dupes) now.
End Recorders.

(** ** The fleet's notification counts *)
Record PartyNotifications := mkNotes { pnService : string; pnParty : string; Notes : f64; Dups : f64 }.
Record NotificationCounts := mkCounts { At : Z; Counts : list PartyNotifications }.
Definition dupShareFleetMaxAge : Z := 10 * minute.

(** The shared store as one refresh finds it, and which of its calls get
    through. *)
Record countStore := mkCountStore {
  csNotes : gmap string NotificationCounts; putOk : bool; readOk : bool; delOk : bool
}.

Section Counts.
Context `{M : Math} `{R : Ranging}.

Definition addCount (now at_ : Z) (out : gmap opID OperatorStat) (pc : PartyNotifications) : gmap opID OperatorStat :=
  let a := decayTo (mkStat (Notes pc) (Dups pc) at_ 0 0) now dupShareHalfLife in
  let id := partyID (pnService pc) (pnParty pc) in
  let st := default noStat (out !! id) in
  <[id := mkStat (fadd (Attempts st) (Attempts a)) (fadd (Failures st) (Failures a)) (UpdatedAt st) (CleanRun st) (HealedAt st)]> out.

Definition tooOld (now : Z) (c : NotificationCounts) : bool :=
  bool_decide (dupShareFleetMaxAge < GoTime.Sub now (fromUnix (At c))).

Definition fleetSum (me : string) (now : Z) (local : gmap opID OperatorStat) (all : list (string * NotificationCounts))
    : gmap opID OperatorStat :=
  foldl (λ out '(pod, c), if bool_decide (pod = me) || tooOld now c then out
                          else foldl (addCount now (At c)) out (Counts c)) local all.
Definition gonePods (me : string) (now : Z) (all : list (string * NotificationCounts)) : list string :=
  (filter (λ p : string * NotificationCounts, p.1 <> me /\ tooOld now p.2 = true) all).*1.

(** The tracker, the counts it prices, and the store it leaves. *)
Definition fleetDuplicates (t : opTracker) (me : string) (store : option countStore) (now : Z)
    : opTracker * gmap opID OperatorStat * option countStore :=
  let '(t, local) := snapshot t now in
  match store with
  | None => (t, local, None)
  | Some cs =>
      if bool_decide (me = "") then (t, local, store)
      else
        let mine := mkCounts (Unix now)
          ((λ p : opID * OperatorStat, mkNotes (svcOf p.1) (opOf p.1) (Attempts p.2) (Failures p.2)) <$> range local) in
        let notes := if putOk cs then <[me := mine]> (csNotes cs) else csNotes cs in
        if negb (readOk cs) then (t, local, Some (mkCountStore notes (putOk cs) (readOk cs) (delOk cs)))
        else
          let all := range notes in
          let gone := gonePods me now all in
          let notes := if delOk cs then foldl (λ m p, delete p m) notes gone else notes in
          (t, fleetSum me now local all, Some (mkCountStore notes (putOk cs) (readOk cs) (delOk cs)))
  end.
End Counts.

(** ** Seeds *)
(** Ties are equal numbers, so an unstable sort gives the same medians. *)
#[local] Instance fle_dec : RelDecision (λ x y : f64, is_nan x || fleb x y = true) := λ x y, decide_rel eq (is_nan x || fleb x y) true.
Definition medianOf (scores : list f64) : f64 :=
  let sorted := merge_sort (λ x y : f64, is_nan x || fleb x y = true) scores in
  let n := length scores in
  let at_ i := default f0 (sorted !! i) in
  let m := at_ (n / 2)%nat in
  if bool_decide (n mod 2 = 0)%nat then fdiv (fadd (at_ (n / 2 - 1)%nat) m) (of_int 2) else m.

Section View.
Context `{M : Math} `{R : Ranging}.
Context (EffectiveTLDPlusOne : string -> option string) (own : owners) (oor : f64 -> Z).

(** Each operator's or party's seed below the initial score, and the flag of
    each service that has one. *)
Definition seedStep (initial : f64) (gate : Gate) (acc : gmap opID f64 * gmap string bool) (e : opID * list f64)
    : gmap opID f64 * gmap string bool :=
  let '(dst, on) := acc in
  let median := medianOf e.2 in
  if fleb initial median then acc
  else (<[e.1 := median]> dst,
        match gate, on !! svcOf e.1 with
        | Some g, None => <[svcOf e.1 := g (svcOf e.1)]> on
        | _, _ => on
        end).
Definition storeSeeds (initial : f64) (gate : Gate) (byOperator byParty : gmap opID (list f64))
    : gmap opID f64 * gmap opID f64 * gmap string bool * Gate :=
  let '(opSeed, on) := foldl (seedStep initial gate) (∅, ∅) (range byOperator) in
  let '(partySeed, on) := foldl (seedStep initial gate) (∅, on) (range byParty) in
  (opSeed, partySeed, on, if bool_decide (opSeed = ∅) && bool_decide (partySeed = ∅) then None else gate).

(** ** The walk *)
Definition baselineMinAttempts : Z := 1000.
Record keyState := mkKey {
  kSvc : string; kKey : string; kRpc : string; kOp : opID; kRate : f64; wellAttempted : bool
}.
Definition scoredKeys (s : serviceImpl) : list (string * string * RepService.State) :=
  sh ← shards s; p ← range sh; (λ q : string * RepService.State, (p.1, q.1, q.2)) <$> range p.2.
Definition opIDof (svc key : string) : opID := (svc, operatorOfKey EffectiveTLDPlusOne key, rpcOfKey key).
Definition seedsOf (ks : list (string * string * RepService.State)) : gmap opID (list f64) :=
  foldl (λ m '(svc, key, st), appendAt m (opIDof svc key) (RepService.Score st)) ∅ ks.
Definition partySeedsOf (ks : list (string * string * RepService.State)) : gmap opID (list f64) :=
  foldl (λ m '(svc, key, st),
    let op := operatorOfKey EffectiveTLDPlusOne key in
    let party := PartyOfOperator own op in
    if bool_decide (party = op) then m else appendAt m (svc, party, rpcOfKey key) (RepService.Score st)) ∅ ks.
Definition keysOf (ks : list (string * string * RepService.State)) : list keyState :=
  omap (λ '(svc, key, st),
    if feqb (RepService.Score st) f0 then None
    else Some (mkKey svc key (rpcOfKey key) (opIDof svc key) (RepService.KeyRate st)
                 (bool_decide (baselineMinAttempts <= RepService.Attempts st)))) ks.

(** ** Rates and baselines *)
Record OperatorRateView := mkOpRate { orRate : f64; orAttempts : Z }.
Definition rateOf (st : OperatorStat) (now : Z) : OperatorRateView :=
  mkOpRate (RateAt st now) (to_uint64 oor (Attempts st)).
Definition ratesByOp (stats : gmap opID OperatorStat) (now : Z) : gmap opID OperatorRateView :=
  (λ st, rateOf st now) <$>
    filter (λ p : opID * OperatorStat, p.1.2 <> RPCTypeWebSocket /\ fltb f0 (RateAt p.2 now) = true) stats.

Definition opOnOf (operator : Gate) (keys : list keyState) : gmap string bool :=
  foldl (λ m k, if isOn operator (kSvc k) then <[kSvc k := true]> m else m) ∅ keys.

Record acc := mkAcc { accMin : f64; accN : Z }.
Record tally := mkTally {
  tPools : gmap (string * string) acc; tByKey : gmap (string * string) f64; tSeen : gset opID
}.
Definition vote (pools : gmap (string * string) acc) (pool : string * string) (rate : f64) : gmap (string * string) acc :=
  <[pool := match pools !! pool with
            | None => mkAcc rate 1
            | Some a => mkAcc (fmin (accMin a) rate) (accN a + 1)
            end]> pools.
Definition tallyKey (opOn : gmap string bool) (byOp : gmap opID OperatorRateView) (t : tally) (k : keyState) : tally :=
  if default false (opOn !! kSvc k) then
    match byOp !! kOp k with
    | None => t
    | Some r =>
        let byKey := <[(kSvc k, kKey k) := orRate r]> (tByKey t) in
        if bool_decide (kOp k ∈ tSeen t) || bool_decide (orAttempts r < baselineMinAttempts)
        then mkTally (tPools t) byKey (tSeen t)
        else mkTally (vote (tPools t) (kSvc k, kRpc k) (orRate r)) byKey ({[kOp k]} ∪ tSeen t)
    end
  else if negb (wellAttempted k) then t
  else mkTally (vote (tPools t) (kSvc k, kRpc k) (kRate k)) (tByKey t) (tSeen t).
Definition tallyKeys (opOn : gmap string bool) (byOp : gmap opID OperatorRateView) (keys : list keyState) : tally :=
  foldl (tallyKey opOn byOp) (mkTally ∅ ∅ ∅) keys.
Definition baselines (relative : Gate) (pools : gmap (string * string) acc) : gmap (string * string) f64 :=
  accMin <$> filter (λ p : (string * string) * acc, 2 <= accN p.2 /\ isOn relative p.1.1 = true) pools.

(** ** Penalties by party *)
Definition penaltyMap {A : Type} (id : A -> opID) (pen : A -> f64) (l : list A) : gmap opID f64 :=
  foldl (λ m p, if fltb (pen p) f0 then <[id p := pen p]> m else m) ∅ l.
Definition shareID (p : PartyShare) : opID := partyID (shService p) (shParty p).
Definition staleID (p : PartyStale) : opID := partyID (stService p) (stParty p).
Definition trustPenMap (l : list PartyTrust) : gmap string f64 :=
  foldl (λ m t, if fltb (trPenalty t) f0 then <[trParty t := trPenalty t]> m else m) ∅ l.
Definition policyPenMap (l : list PolicyPenalty) : gmap string f64 :=
  foldl (λ m p, if fltb (poPenalty p) f0 then <[poParty p := fmin (default f0 (m !! poParty p)) (poPenalty p)]> m else m) ∅ l.

(** [priceClasses]: the trackers, the shares and the penalties by class. *)
Definition classShares (g : gates) (prev : option metrics) (cs : gmap string opTracker) (now : Z)
    : gmap string (list PartyShare) :=
  map_imap (λ class t,
    Some (priceShares (snapshot t now).2 classRule (classGate g) (classLimits g)
            (match prev with Some p => default [] (mClasses p !! class) | None => [] end) now)) cs.
Definition classPens (shares : gmap string (list PartyShare)) : gmap string (gmap opID f64) :=
  filter (λ p : string * gmap opID f64, p.2 <> ∅) (penaltyMap shareID shPenalty <$> shares).

(** A flag read once for every service with a key. *)
Definition flagsOf (g : Gate) (keys : list keyState) : gmap string bool :=
  foldl (λ m k, match g, m !! kSvc k with Some f, None => <[kSvc k := f (kSvc k)]> m | _, _ => m end) ∅ keys.

(** What a refresh reads from outside. *)
Record outside := mkOutside {
  oPeer : PartyPenalties; oCounts : option countStore; oPolicy : option (string + list PolicyPenalty)
}.

Definition evidenceAt (g : gates) (hs rs : gmap opID OperatorStat) (keys : list keyState) (now : Z) : evidence :=
  mkEvidence R now hs rs (staleGate g) (λ svc, bool_decide (svc ∈ kSvc <$> keys)).

(** [refreshBaselines]: the service, the store of counts it leaves, and the
    parties it hands to storage. *)
Definition refreshBaselines (s : service) (g : gates) (o : outside) (now : Z)
    : service * option countStore * PartyPenalties :=
  let walk := scoredKeys (impl s) in
  let keys := keysOf walk in
  let '(ops', stats) := snapshot (ops (impl s)) now in
  let '(opSeed, partySeed, seedOn, seedGate') :=
    storeSeeds (RepService.InitialScore (impl s)) (gSeed g) (seedsOf walk) (partySeedsOf walk) in
  let byOp := ratesByOp stats now in
  let on := opOnOf (operatorGate g) keys in
  let t := tallyKeys on byOp keys in
  let '(heads', hs) := snapshot (heads s) now in
  let '(refusals', rs) := snapshot (refusals (impl s)) now in
  let ps := refreshParties (mParties <$> priced s) (oPeer o) (evidenceAt g hs rs keys now) in
  let stalePen := penaltyMap staleID stPenalty (stale ps) in
  let trustPen := trustPenMap (trust ps) in
  let '(dups', counts, store) := fleetDuplicates (dups s) (instanceID s) (oCounts o) now in
  let dup := priceShares counts dupRule (dupGate g) (dupLimits g)
    (match priced s with Some p => mDup p | None => [] end) now in
  let dupPen := penaltyMap shareID shPenalty dup in
  let '(throttles', ts) := snapshot (throttles (impl s)) now in
  let throttle := priceShares ts throttleRule (throttleGate g) (throttleLimits g)
    (match priced s with Some p => mThrottle p | None => [] end) now in
  let throttlePen := penaltyMap shareID shPenalty throttle in
  let policy := policyPenalties (oPolicy o) (match priced s with Some p => mPolicy p | None => [] end) now in
  let policyPen := policyPenMap policy in
  let classes' := (λ c, (snapshot c now).1) <$> classes (impl s) in
  let cshares := classShares g (priced s) (classes (impl s)) now in
  let classPen := classPens cshares in
  let charged := bool_decide (0 < size stalePen + size trustPen + size dupPen + size policyPen +
                                  size throttlePen + size classPen)%nat in
  let v := mkView (tByKey t) (baselines (relativeGate g) (tPools t)) on stalePen
    trustPen (if charged then flagsOf (gTrust g) keys else ∅) (if charged then gTrust g else None)
    (if charged then flagsOf (partyWSGate g) keys else ∅) (if charged then partyWSGate g else None)
    dupPen throttlePen classPen
    policyPen (if charged then flagsOf (gPolicy g) keys else ∅) (if charged then gPolicy g else None)
    opSeed partySeed seedOn seedGate'
    (if charged then list_to_map (reverse ((λ k, (kKey k, PartyOfOperator own (opOf (kOp k)))) <$> keys)) else ∅)
    (if charged then list_to_map (reverse ((λ k, (kKey k, opOf (kOp k))) <$> keys)) else ∅) in
  let i := impl s in
  let i := RepService.mkService (RepService.InitialScore i) (RepService.timeline i) (RepService.sc i)
    (RepService.selCfg i) (Some v) ops' refusals' throttles' classes' (shards i) (RepService.pending i) in
  (mkSvc i heads' dups' (Some (mkMetrics ps dup throttle cshares policy)) (instanceID s), store,
   storedPenalties (stale ps) (trust ps)).

(** [adoptPartyPenalties]: the stored parties seed the view of a pod that has
    priced nobody, and the next one is computed at once.  The number adopted
    comes first. *)
Definition adoptPartyPenalties (s : service) (stored : option PartyPenalties) (g : gates) (o : outside) (now : Z)
    : Z * service :=
  match stored with
  | None => (0, s)
  | Some p =>
      let n := (length (ppStale p) + length (ppTrust p))%nat in
      if bool_decide (n = O) then (0, s)
      else
        let own_ := match priced s with
          | Some m => (length (stale (mParties m)) + length (trust (mParties m)))%nat | None => O end in
        let s := if bool_decide (own_ = O) then
            mkSvc (setView (impl s) (mkView ∅ ∅ ∅ ∅ ∅ ∅ None ∅ None ∅ ∅ ∅ ∅ ∅ None ∅ ∅ ∅ None ∅ ∅)) (heads s) (dups s)
              (Some (mkMetrics (mkPriced (adoptedStale p) (adoptedTrust p)) [] [] ∅ [])) (instanceID s)
          else s in
        (Z.of_nat n, (refreshBaselines s g o now).1.1)
  end.

(** [OperatorRate], as the automatic drains read it. *)
Definition OperatorRate (t : opTracker) (svc rpc operator : string) (now : Z) : option OperatorRateView :=
  if bool_decide (rpc = RPCTypeWebSocket) then None
  else match trackerGet t (svc, operator, rpc) now with
       | None => None
       | Some st => if feqb (RateAt st now) f0 then None else Some (rateOf st now)
       end.

(** ** What a key is charged, computed plainly

    From the priced lists, the key and the gates, without the tables the view
    keeps of them. *)
Definition reaches (g : gates) (svc key : string) : bool :=
  negb (isWS key) || match partyWSGate g with None => true | Some f => f svc end.
Definition plainPenalty (g : gates) (m : metrics) (svc key : string) : f64 :=
  let op := operatorOfKey EffectiveTLDPlusOne key in
  let party := PartyOfOperator own op in
  let policyOf p := default f0 (policyPenMap (mPolicy m) !! p) in
  let stale := if reaches g svc key
    then default f0 (penaltyMap staleID stPenalty (stale (mParties m)) !! partyID svc party) else f0 in
  let trust := if reaches g svc key && isOn (gTrust g) svc
    then default f0 (trustPenMap (trust (mParties m)) !! party) else f0 in
  let policy := if reaches g svc key && isOn (gPolicy g) svc then fmin (policyOf party) (policyOf op) else f0 in
  let throttle := if isWS key then f0 else default f0 (penaltyMap shareID shPenalty (mThrottle m) !! partyID svc party) in
  let dup := if isWS key then default f0 (penaltyMap shareID shPenalty (mDup m) !! partyID svc party) else f0 in
  fmin (fmin (fmin (fmin stale trust) policy) throttle) dup.
Definition plainClassPenalty (m : metrics) (svc key class : string) : f64 :=
  if bool_decide (class = "") || isWS key then f0
  else default f0 (penaltyMap shareID shPenalty (default [] (mClasses m !! class)) !!
                     partyID svc (partyOfKey EffectiveTLDPlusOne own key)).

(** The tables say what they stand for. *)
Lemma flagsOf_lookup g keys svc b : flagsOf g keys !! svc = Some b -> exists f, g = Some f /\ b = f svc.
Proof.
  unfold flagsOf. induction keys as [|k keys IH] using rev_ind; [simpl; by intros ?%lookup_empty_Some|]. rewrite foldl_snoc.
  destruct g as [f|]; [|done]. set (m := foldl _ ∅ keys) in *. destruct (m !! kSvc k); [done|].
  rewrite lookup_insert. case_decide; [|done]. subst. intros [= <-]. eauto.
Qed.
Lemma gated_flags g keys svc : gated (flagsOf g keys) g svc = isOn g svc.
Proof.
  unfold gated. destruct (flagsOf g keys !! svc) as [b|] eqn:E; [|done]. apply flagsOf_lookup in E as (f & -> & ->). done.
Qed.
Lemma keysOf_op ks k : k ∈ keysOf ks -> opOf (kOp k) = operatorOfKey EffectiveTLDPlusOne (kKey k).
Proof.
  unfold keysOf. intros ([[svc key] st] & _ & E)%list_elem_of_omap. destruct (feqb _ _); [done|]. by injection E as <-.
Qed.
Lemma keyTable_lookup {A : Type} (f : string -> A) ks key a :
  (list_to_map (reverse ((λ k, (kKey k, f (opOf (kOp k)))) <$> keysOf ks)) : gmap string A) !! key = Some a ->
  a = f (operatorOfKey EffectiveTLDPlusOne key).
Proof.
  intros H%elem_of_list_to_map_2. rewrite elem_of_reverse in H.
  apply list_elem_of_fmap in H as (k & [= -> ->] & Hk). by rewrite (keysOf_op ks).
Qed.

Lemma fltb_num x y : fltb x y = true -> is_nan x = false /\ is_nan y = false.
Proof. destruct x as [[]|[]| |[]], y as [[]|[]| |[]]; done. Qed.

(** A penalty: negative, or none. *)
Definition isPen (x : f64) : Prop := x = f0 \/ fltb x f0 = true.
Lemma isPen_num x : isPen x -> is_nan x = false.
Proof. intros [->|H]; [done|]. by apply fltb_num in H as [? _]. Qed.
Lemma isPen_fmin x y : isPen x -> isPen y -> isPen (fmin x y).
Proof.
  intros Hx Hy. destruct (fmin_case x y) as [[-> _]|[-> _]]; by auto using isPen_num.
Qed.
Lemma isPen_zero x : isPen x -> feqb x f0 = true -> x = f0.
Proof. intros [->|H] E; [done|]. destruct x as [[]|[]| |[]]; done. Qed.

Lemma policyPenMap_pen l p : isPen (default f0 (policyPenMap l !! p)).
Proof.
  unfold policyPenMap. induction l as [|q l IH] using rev_ind; [by left|]. rewrite foldl_snoc.
  destruct (fltb (poPenalty q) f0) eqn:N; [|done]. rewrite lookup_insert. case_decide; [|done].
  subst. simpl. apply isPen_fmin; [done|by right].
Qed.

(** A view whose tables were built from [keys], as a refresh builds it: filled
    when somebody is charged, empty when nobody is. *)
Record fromLists (g : gates) (m : metrics) (v : chronicView) : Prop := mkFrom {
  from_stale : stalePen v = penaltyMap staleID stPenalty (stale (mParties m));
  from_trust : trustPen v = trustPenMap (trust (mParties m));
  from_dup : dupPen v = penaltyMap shareID shPenalty (mDup m);
  from_throttle : throttlePen v = penaltyMap shareID shPenalty (mThrottle m);
  from_policy : policyPen v = policyPenMap (mPolicy m);
  from_class : classPen v = classPens (mClasses m);
  from_party key : forall p, keyParty v !! key = Some p -> p = partyOfKey EffectiveTLDPlusOne own key /\
    keyOp v !! key = Some (operatorOfKey EffectiveTLDPlusOne key);
  from_flags : (size (stalePen v) + size (trustPen v) + size (dupPen v) + size (policyPen v) + size (throttlePen v) = 0)%nat \/
    (forall svc, gated (trustOn v) (trustGate v) svc = isOn (gTrust g) svc /\
                 gated (policyOn v) (policyGate v) svc = isOn (gPolicy g) svc /\
                 websocketCharged v svc = match partyWSGate g with None => true | Some f => f svc end)
}.

Lemma refresh_fromLists s g o now :
  let s' := (refreshBaselines s g o now).1.1 in
  exists v m, chronic (impl s') = Some v /\ priced s' = Some m /\ fromLists g m v.
Proof.
  unfold refreshBaselines.
  destruct (snapshot (ops (impl s)) now) as [ops' stats], (storeSeeds _ _ _ _) as [[[opSeed partySeed] seedOn] sg],
    (snapshot (heads s) now) as [heads' hs], (snapshot (refusals (impl s)) now) as [refusals' rs],
    (fleetDuplicates _ _ _ _) as [[dups' counts] store], (snapshot (throttles (impl s)) now) as [throttles' ts].
  simpl. eexists _, _. split_and!; [reflexivity..|].
  case_bool_decide as Hc; constructor; try reflexivity; simpl.
  - intros key p Hp. split; [by apply (keyTable_lookup (PartyOfOperator own)) in Hp|].
    apply elem_of_list_to_map_2 in Hp. rewrite elem_of_reverse in Hp. apply list_elem_of_fmap in Hp as (k & [= -> _] & Hk).
    destruct (_ !! kKey k) as [op|] eqn:E; [by apply (keyTable_lookup id) in E as ->|].
    exfalso. apply not_elem_of_list_to_map in E. apply E. rewrite fmap_reverse, elem_of_reverse, <- list_fmap_compose.
    apply list_elem_of_fmap. by exists k.
  - right. intros svc. rewrite !gated_flags. split_and!; [done..|]. unfold websocketCharged. simpl.
    destruct (flagsOf (partyWSGate g) _ !! svc) as [b|] eqn:E; [|done]. by apply flagsOf_lookup in E as (f & -> & ->).
  - intros key p. by rewrite lookup_empty.
  - left. lia.
Qed.

Lemma partyFor_from g m v key : fromLists g m v -> partyFor EffectiveTLDPlusOne own v key = partyOfKey EffectiveTLDPlusOne own key.
Proof.
  intros F. unfold partyFor. destruct (keyParty v !! key) as [p|] eqn:E; [|done]. by destruct (from_party _ _ _ F key p E) as [-> _].
Qed.
Lemma lookup_size_0 {K A : Type} `{Countable K} (m : gmap K A) k : size m = O -> m !! k = None.
Proof. intros ->%map_size_empty_iff. apply lookup_empty. Qed.

Lemma parties_from g m v svc key :
  fromLists g m v ->
  partyPenalties EffectiveTLDPlusOne own (Some v) svc key =
  ((if reaches g svc key then default f0 (stalePen v !! partyID svc (partyOfKey EffectiveTLDPlusOne own key)) else f0),
   (if reaches g svc key && isOn (gTrust g) svc then default f0 (trustPen v !! partyOfKey EffectiveTLDPlusOne own key) else f0)).
Proof.
  intros F. unfold partyPenalties. rewrite (partyFor_from g m v key F). destruct (from_flags _ _ _ F) as [E|E].
  - rewrite !lookup_size_0 by lia. rewrite !bool_decide_true by lia. simpl. by destruct (reaches g svc key), (isOn (gTrust g) svc).
  - destruct (E svc) as (-> & _ & Ew). unfold reaches. rewrite Ew. case_bool_decide as C1; simpl.
    + rewrite (lookup_size_0 (stalePen v)) by lia. case_bool_decide as C2; simpl.
      * rewrite (lookup_size_0 (trustPen v)) by lia. by destruct (negb _ || _), (isOn (gTrust g) svc).
      * destruct (isWS key), (match partyWSGate g with Some f => f svc | None => true end); simpl; try done;
          destruct (trustPen v !! _), (isOn (gTrust g) svc); done.
    + destruct (isWS key), (match partyWSGate g with Some f => f svc | None => true end); simpl; try done;
        destruct (trustPen v !! _), (isOn (gTrust g) svc); done.
Qed.

Lemma policy_from g m v svc key :
  fromLists g m v ->
  policyPenalty EffectiveTLDPlusOne own (Some v) svc key =
  if reaches g svc key && isOn (gPolicy g) svc
  then fmin (default f0 (policyPen v !! partyOfKey EffectiveTLDPlusOne own key))
         (default f0 (policyPen v !! operatorOfKey EffectiveTLDPlusOne key)) else f0.
Proof.
  intros F. unfold policyPenalty. cbv zeta.
  assert (match keyParty v !! key with
    | Some p => (p, default "" (keyOp v !! key))
    | None => (PartyOfOperator own (operatorOfKey EffectiveTLDPlusOne key), operatorOfKey EffectiveTLDPlusOne key) end =
    (partyOfKey EffectiveTLDPlusOne own key, operatorOfKey EffectiveTLDPlusOne key)) as ->.
  { destruct (keyParty v !! key) as [p|] eqn:E; [|done]. by destruct (from_party _ _ _ F key p E) as [-> ->]. }
  pose proof (policyPenMap_pen (mPolicy m) (partyOfKey EffectiveTLDPlusOne own key)) as P1.
  pose proof (policyPenMap_pen (mPolicy m) (operatorOfKey EffectiveTLDPlusOne key)) as P2.
  rewrite <- (from_policy _ _ _ F) in P1, P2. pose proof (isPen_fmin _ _ P1 P2) as P.
  destruct (from_flags _ _ _ F) as [E|E].
  - rewrite !lookup_size_0 by lia. rewrite bool_decide_true by lia. by destruct (_ && _).
  - destruct (E svc) as (_ & -> & Ew). unfold reaches. rewrite Ew. case_bool_decide as C1.
    + rewrite !lookup_size_0 by lia. by destruct (_ && _).
    + set (pen := fmin _ _) in *. assert (feqb pen f0 = true -> pen = f0) as Z by (by apply isPen_zero).
      destruct (isWS key), (match partyWSGate g with Some f => f svc | None => true end); simpl; try done;
        destruct (feqb pen f0), (isOn (gPolicy g) svc); simpl; auto; by rewrite Z.
Qed.

(** C27. The view charges what was priced.  After any refresh, in whatever order
    it ranged over its maps, what a key's party costs it in a service is the
    largest of the stale-share, trust, policy, throttle-share and repeat-share
    penalties in the lists just priced, each where its flag and the key's RPC
    type let it reach; and what a request's class adds is that class's share.
    The tables the view keeps of parties and flags, and the keys it does not
    know, change nothing. *)
Theorem view_charges_as_priced s g o now svc key class :
  let s' := (refreshBaselines s g o now).1.1 in
  exists m, priced s' = Some m /\
    partyPenalty EffectiveTLDPlusOne own (chronic (impl s')) svc key = plainPenalty g m svc key /\
    classPenalty EffectiveTLDPlusOne own (chronic (impl s')) svc key class = plainClassPenalty m svc key class.
Proof.
  intros s'. destruct (refresh_fromLists s g o now) as (v & m & Ev & Em & F). fold s' in Ev, Em. exists m.
  split; [done|]. rewrite Ev. split.
  - unfold partyPenalty. rewrite (parties_from g m v svc key F), (policy_from g m v svc key F).
    unfold throttlePenalty, duplicatePenalty. rewrite (partyFor_from g m v key F).
    unfold plainPenalty. rewrite <- (from_stale _ _ _ F), <- (from_trust _ _ _ F), <- (from_dup _ _ _ F),
      <- (from_throttle _ _ _ F), <- (from_policy _ _ _ F). fold (partyOfKey EffectiveTLDPlusOne own key).
    f_equal; [f_equal|].
    + destruct (isWS key); [by rewrite orb_true_r|]. rewrite orb_false_r. case_bool_decide; [|done]. by rewrite lookup_size_0.
    + destruct (isWS key); simpl; [|by rewrite orb_true_r]. rewrite orb_false_r. case_bool_decide; [|done]. by rewrite lookup_size_0.
  - unfold classPenalty, plainClassPenalty. rewrite (partyFor_from g m v key F), (from_class _ _ _ F).
    destruct (bool_decide (class = "")); [done|]. simpl. destruct (isWS key); [by rewrite orb_true_r|]. rewrite orb_false_r.
    assert (default ∅ (classPens (mClasses m) !! class) = penaltyMap shareID shPenalty (default [] (mClasses m !! class))) as ->.
    { unfold classPens. destruct (mClasses m !! class) as [l|] eqn:E.
      - destruct (decide (penaltyMap shareID shPenalty l = ∅)) as [E'|E'].
        + simpl. rewrite E', map_lookup_filter_None_2; [done|]. right. intros x Hx Hne.
          rewrite lookup_fmap, E in Hx. injection Hx as <-. by apply Hne.
        + rewrite (map_lookup_filter_Some_2 _ _ _ (penaltyMap shareID shPenalty l)); [done| |done]. by rewrite lookup_fmap, E.
      - rewrite map_lookup_filter_None_2; [done|]. left. by rewrite lookup_fmap, E. }
    case_bool_decide; [|done]. by rewrite lookup_size_0.
Qed.

(** ** Votes *)
Definition wellFormed (k : keyState) : Prop := kOp k = opIDof (kSvc k) (kKey k) /\ kRpc k = rpcOfKey (kKey k).
Lemma keysOf_formed ks k : k ∈ keysOf ks -> wellFormed k.
Proof.
  unfold keysOf. intros ([[svc key] st] & _ & E)%list_elem_of_omap. destruct (feqb _ _); [done|]. by injection E as <-.
Qed.

Section Votes.
Context (opOn : gmap string bool) (byOp : gmap opID OperatorRateView).

(** An operator's evidence is enough to vote on. *)
Definition qualifies (id : opID) : bool :=
  match byOp !! id with Some r => bool_decide (baselineMinAttempts <= orAttempts r) | None => false end.
(** The operators of a pool with a scored key and enough evidence. *)
Definition voters (keys : list keyState) (svc rpc : string) : gset opID :=
  list_to_set (filter (λ id : opID, svcOf id = svc /\ id.2 = rpc /\ qualifies id = true) (kOp <$> keys)).

Lemma voters_snoc keys k svc rpc :
  voters (keys ++ [k]) svc rpc =
  voters keys svc rpc ∪ (if decide (svcOf (kOp k) = svc /\ (kOp k).2 = rpc /\ qualifies (kOp k) = true) then {[kOp k]} else ∅).
Proof.
  unfold voters. rewrite fmap_app, filter_app, list_to_set_app_L. f_equal. simpl. rewrite filter_cons, filter_nil.
  case_decide; simpl; set_solver.
Qed.

Definition rateIs (id : opID) (x : f64) : Prop := orRate <$> byOp !! id = Some x.

Record counted (keys : list keyState) (svc rpc : string) (t : tally) : Prop := mkCounted {
  counted_seen : forall id, svcOf id = svc -> id.2 = rpc -> id ∈ tSeen t <-> id ∈ voters keys svc rpc;
  counted_pool : match tPools t !! (svc, rpc) with
    | None => voters keys svc rpc = ∅
    | Some a => accN a = Z.of_nat (size (voters keys svc rpc)) /\ (exists id, id ∈ voters keys svc rpc /\ rateIs id (accMin a)) /\
        forall id x, id ∈ voters keys svc rpc -> rateIs id x -> fleb (accMin a) x = true
    end;
  counted_keys : forall key x, tByKey t !! (svc, key) = Some x -> rateIs (opIDof svc key) x
}.

Hypothesis positive : forall id x, rateIs id x -> fltb f0 x = true.
Lemma rate_num id x : rateIs id x -> is_nan x = false.
Proof. intros [_ ?]%positive%fltb_num. done. Qed.

(** One vote more. *)
Lemma tally_vote keys k t r svc rpc :
  wellFormed k -> counted keys svc rpc t -> byOp !! kOp k = Some r -> baselineMinAttempts <= orAttempts r ->
  kOp k ∉ tSeen t ->
  counted (keys ++ [k]) svc rpc
    (mkTally (vote (tPools t) (kSvc k, kRpc k) (orRate r)) (<[(kSvc k, kKey k) := orRate r]> (tByKey t)) ({[kOp k]} ∪ tSeen t)).
Proof.
  intros [Hop Hrpc] [Cs Cp Ck] Hr Hen Hnew.
  assert (qualifies (kOp k) = true) as Q by (unfold qualifies; rewrite Hr; by apply bool_decide_eq_true).
  assert (rateIs (kOp k) (orRate r)) as Rk by (unfold rateIs; by rewrite Hr).
  assert (svcOf (kOp k) = kSvc k /\ (kOp k).2 = kRpc k) as [Es Er] by (by rewrite Hop, Hrpc).
  split; simpl.
  - intros id H1 H2. rewrite voters_snoc, elem_of_union, elem_of_union, (Cs id H1 H2), elem_of_singleton.
    case_decide as D; [rewrite elem_of_singleton; tauto|]. rewrite elem_of_empty. split; [|tauto].
    intros [->|?]; [|by left]. exfalso. by apply D.
  - unfold vote. rewrite voters_snoc. destruct (decide ((kSvc k, kRpc k) = (svc, rpc))) as [[= E1 E2]|Hne].
    + rewrite E1, E2, lookup_insert_eq, decide_True by (split_and!; congruence).
      assert (kOp k ∉ voters keys svc rpc) as Hv by (rewrite <- Cs; congruence).
      assert (size (voters keys svc rpc ∪ {[kOp k]}) = S (size (voters keys svc rpc))) as Esz.
      { rewrite size_union by set_solver. rewrite size_singleton. lia. }
      rewrite Esz. destruct (tPools t !! (svc, rpc)) as [a|]; simpl.
      * destruct Cp as (En & (id & Hin & Hid) & Hmin). split_and!; [lia| |].
        -- destruct (fmin_case (accMin a) (orRate r)) as [[-> _]|[-> _]]; [by eapply rate_num..| |].
           ++ exists id. split; [set_solver|done].
           ++ exists (kOp k). split; [set_solver|done].
        -- intros id' x Hid' Hx. destruct (fmin_case (accMin a) (orRate r)) as [[-> Hle]|[-> Hle]]; [by eapply rate_num..| |];
             apply elem_of_union in Hid' as [Hid'|Hid'%elem_of_singleton].
           ++ by eapply Hmin.
           ++ subst. unfold rateIs in *. by simplify_eq.
           ++ eapply fleb_trans; [done|by eapply Hmin].
           ++ subst. unfold rateIs in Rk, Hx. rewrite Rk in Hx. injection Hx as <-. apply fleb_refl. by eapply rate_num.
      * rewrite Cp. split_and!; [by rewrite size_empty|exists (kOp k); split; [set_solver|done]|].
        intros id' x [?%elem_of_empty| ->%elem_of_singleton]%elem_of_union Hx; [done|].
        unfold rateIs in Rk, Hx. rewrite Rk in Hx. injection Hx as <-. apply fleb_refl. by eapply rate_num.
    + rewrite lookup_insert_ne by done. rewrite decide_False; [by rewrite union_empty_r_L|].
      intros (H1 & H2 & _). apply Hne. congruence.
  - intros key x. rewrite lookup_insert. case_decide as D; [|apply Ck]. injection D as <- <-. intros [= <-]. by rewrite <- Hop.
Qed.

(** A key that adds no voter. *)
Lemma tally_skip keys k t t' svc rpc :
  counted keys svc rpc t ->
  (svcOf (kOp k) = svc -> (kOp k).2 = rpc -> qualifies (kOp k) = true -> kOp k ∈ voters keys svc rpc) ->
  (forall id, svcOf id = svc -> id ∈ tSeen t' <-> id ∈ tSeen t) -> tPools t' !! (svc, rpc) = tPools t !! (svc, rpc) ->
  (forall key x, tByKey t' !! (svc, key) = Some x -> rateIs (opIDof svc key) x) ->
  counted (keys ++ [k]) svc rpc t'.
Proof.
  intros [Cs Cp Ck] Hv Hs Hp Hk.
  assert (voters (keys ++ [k]) svc rpc = voters keys svc rpc) as E.
  { rewrite voters_snoc. case_decide as D; [|by rewrite union_empty_r_L]. destruct D as (? & ? & ?).
    apply leibniz_equiv. intros id. rewrite elem_of_union, elem_of_singleton. split; [|by left]. intros [?| ->]; auto. }
  split; [|by rewrite E, Hp|done]. intros id H1 H2. rewrite E, Hs by done. auto.
Qed.

Lemma tallied_votes keys svc rpc :
  (forall k, k ∈ keys -> wellFormed k) -> default false (opOn !! svc) = true ->
  counted keys svc rpc (tallyKeys opOn byOp keys).
Proof.
  intros Hwf Hon. unfold tallyKeys. induction keys as [|k keys IH] using rev_ind.
  { split; simpl; [by intros id _ _; rewrite !elem_of_empty|by rewrite lookup_empty|intros key x; by rewrite lookup_empty]. }
  rewrite foldl_snoc. set (t := foldl _ _ keys) in *.
  assert (counted keys svc rpc t) as C by (apply IH; intros ? ?; apply Hwf; set_solver). clear IH.
  destruct (Hwf k ltac:(set_solver)) as [Hop Hrpc].
  assert (svcOf (kOp k) = kSvc k) as Es by (by rewrite Hop).
  unfold tallyKey. destruct (default false (opOn !! kSvc k)) eqn:Hk.
  - destruct (byOp !! kOp k) as [r|] eqn:Hr.
    + assert (forall key x, <[(kSvc k, kKey k) := orRate r]> (tByKey t) !! (svc, key) = Some x -> rateIs (opIDof svc key) x) as Hkeys.
      { intros key x. rewrite lookup_insert. case_decide as D; [|apply (counted_keys _ _ _ _ C)].
        injection D as <- <-. intros [= <-]. unfold rateIs. by rewrite <- Hop, Hr. }
      destruct (bool_decide_reflect (kOp k ∈ tSeen t)) as [Hin|Hnew]; simpl.
      { eapply tally_skip; [done| |done..]. intros E1 E2 _. by apply (counted_seen _ _ _ _ C). }
      case_bool_decide as Hfew.
      { eapply tally_skip; [done| |done..]. intros _ _ Q. unfold qualifies in Q. rewrite Hr in Q. apply bool_decide_eq_true in Q. lia. }
      apply tally_vote; [done..|lia|done].
    + eapply tally_skip; [done| |done..|apply (counted_keys _ _ _ _ C)]. intros _ _ Q. unfold qualifies in Q. by rewrite Hr in Q.
  - assert (kSvc k <> svc) as Hne by (intros E; rewrite E in Hk; congruence).
    destruct (wellAttempted k); simpl; (eapply tally_skip; [done|congruence|done| |apply (counted_keys _ _ _ _ C)]); [|done].
    unfold vote. simpl. rewrite lookup_insert_ne; [done|]. congruence.
Qed.
End Votes.

Lemma ratesByOp_positive stats now id x : rateIs (ratesByOp stats now) id x -> fltb f0 x = true.
Proof.
  unfold rateIs, ratesByOp. rewrite lookup_fmap. destruct (filter _ stats !! id) as [st|] eqn:E; simpl; [|done].
  intros [= <-]. by apply map_lookup_filter_Some in E as [_ [_ ?]].
Qed.

(** The rates and pools of the view a refresh leaves. *)
Lemma refresh_rates s g o now :
  let keys := keysOf (scoredKeys (impl s)) in
  let byOp := ratesByOp (snapshot (ops (impl s)) now).2 now in
  let t := tallyKeys (opOnOf (operatorGate g) keys) byOp keys in
  exists v, chronic (impl (refreshBaselines s g o now).1.1) = Some v /\
    opOn v = opOnOf (operatorGate g) keys /\ byKey v = tByKey t /\ baseline v = baselines (relativeGate g) (tPools t).
Proof.
  unfold refreshBaselines.
  destruct (snapshot (ops (impl s)) now) as [ops' stats], (storeSeeds _ _ _ _) as [[[opSeed partySeed] seedOn] sg],
    (snapshot (heads s) now) as [heads' hs], (snapshot (refusals (impl s)) now) as [refusals' rs],
    (fleetDuplicates _ _ _ _) as [[dups' counts] store], (snapshot (throttles (impl s)) now) as [throttles' ts].
  simpl. eexists. split; [reflexivity|]. done.
Qed.


(** An operator with no failure on record has no rate, so it is no voter: the
    best operator of a pool does not set its baseline, and its own keys are
    charged by their own rates against the baseline of the others. *)
Lemma spotless_operators_do_not_vote stats now id st :
  stats !! id = Some st -> fltb f0 (RateAt st now) = false ->
  let byOp := ratesByOp stats now in
  byOp !! id = None /\ forall keys svc rpc, id ∉ voters byOp keys svc rpc.
Proof.
  intros Hst Hr byOp. assert (byOp !! id = None) as E.
  { unfold byOp, ratesByOp. rewrite lookup_fmap, map_lookup_filter_None_2; [done|]. right. intros x Hx [_ H]. simpl in H. congruence. }
  split; [done|]. intros keys svc rpc. unfold voters. rewrite elem_of_list_to_set, list_elem_of_filter.
  intros [(_ & _ & Q) _]. unfold qualifies in Q. by rewrite E in Q.
Qed.
End View.

(** ** Witnesses

    Three operators on one pool: one without a failure, one failing 1%, one 2%;
    the one at 2% has two keys. *)
Definition demoOwners : owners := emptyOwners.
Definition demoState : RepService.State := RepService.mkState (of_int 90) f0 5000 5000 f0 0 0 0.
Definition demoSuffix (host : string) : option string := Some host.
Definition demoImpl : serviceImpl :=
  let i := RepService.demoNew in
  RepService.mkService (RepService.InitialScore i) None (RepService.sc i) (RepService.selCfg i) None
    (mkTracker hour
       {[ ("eth", "a.io", "json_rpc") := mkStat (of_int 2000) f0 1700000000 0 0;
          ("eth", "b.io", "json_rpc") := mkStat (of_int 2000) (of_int 20) 1700000000 0 0;
          ("eth", "c.io", "json_rpc") := mkStat (of_int 2000) (of_int 40) 1700000000 0 0 ]} (Some ∅))
    (refusals i) (throttles i) (classes i)
    [ {[ "eth" := {[ "https://a.io|json_rpc" := demoState; "https://b.io|json_rpc" := demoState;
                     "https://c.io|json_rpc" := demoState; "https://c.io/2|json_rpc" := demoState ]} ]} ] ∅.
Definition demoService : service :=
  mkSvc demoImpl (newOpTracker staleShareHalfLife) (newOpTracker dupShareHalfLife) None "".
Definition demoGates : gates :=
  let on : Gate := Some (λ _, true) in mkGates on on None None None None None None None None None None None.
Definition demoOutside : outside := mkOutside noParties None None.
Definition demoNow : Z := 1700000000 * second.
Definition demoView : option chronicView :=
  chronic (impl (refreshBaselines (M := RepService.demoMath) (R := inOrder) demoSuffix demoOwners (λ _, 0)
                   demoService demoGates demoOutside demoNow).1.1).

(** The baseline is the 1% of the second best. *)
Lemma best_operator_is_ignored : (λ v, baseline v !! ("eth", "json_rpc")) <$> demoView = Some (Some (lit 20 2000)).
Proof. vm_compute. reflexivity. Qed.

End Refresh.
