(* ===== verification/RepStorage.v ===== *)
(** * RepStorage: what reputation keeps across restarts

    Models [reputation/memory.go], [reputation/gated_storage.go],
    [reputation/hydrate.go], the fields and [merge] of [reputation/opstats.go]
    and the flushes of [reputation/service.go]: the in-memory storage, the
    wrapper that lets only the leader write, the batched write-behind, and how a
    starting pod adopts what was stored.

    The storage answers; a pod whose read fails starts cold, which is the
    state before. *)

From Stdlib Require Import Ascii.
From stdpp Require Import strings.
From S2P Require Import Prelude Float64 Domain Text ScoreSink Rate Pricing RepSelector RepService Refresh.

Module RepStorage.
Import GoStrings.
Import GoText.
Import Rate.
Import Pricing.
Import RepService.
Import Refresh (NotificationCounts, gates, outside, service, impl, heads, dups, priced, instanceID, mkSvc).

(** ** [memory.go] *)
Record MemoryStorage := mkMemory {
  states : gmap string State; opStats : gmap string OperatorStat; stParties : PartyPenalties;
  notes : gmap string NotificationCounts; policy : gmap string PolicyPenalty
}.
Definition NewMemoryStorage : MemoryStorage := mkMemory ∅ ∅ noParties ∅ ∅.

Definition SetState (m : MemoryStorage) (key : string) (st : State) : MemoryStorage :=
  mkMemory (<[key := st]> (states m)) (opStats m) (stParties m) (notes m) (policy m).
Definition SetOperatorStat (m : MemoryStorage) (field : string) (st : OperatorStat) : MemoryStorage :=
  mkMemory (states m) (<[field := st]> (opStats m)) (stParties m) (notes m) (policy m).
Definition DeleteStale (m : MemoryStorage) (olderThan : Z) : MemoryStorage * Z :=
  let gone := filter (λ p : string * State, RepService.UpdatedAt p.2 < Unix olderThan) (states m) in
  (mkMemory (filter (λ p : string * State, ~ RepService.UpdatedAt p.2 < Unix olderThan) (states m))
     (opStats m) (stParties m) (notes m) (policy m), Z.of_nat (size gone)).
Definition SetPartyPenalties (m : MemoryStorage) (p : PartyPenalties) : MemoryStorage :=
  mkMemory (states m) (opStats m) p (notes m) (policy m).
Definition PutNotificationCounts (m : MemoryStorage) (pod : string) (c : NotificationCounts) : MemoryStorage :=
  mkMemory (states m) (opStats m) (stParties m) (<[pod := c]> (notes m)) (policy m).
Definition DeleteNotificationCounts (m : MemoryStorage) (pods : list string) : MemoryStorage :=
  mkMemory (states m) (opStats m) (stParties m) (foldl (λ n p, delete p n) (notes m) pods) (policy m).
Definition PutPolicyPenalty (m : MemoryStorage) (p : PolicyPenalty) : MemoryStorage :=
  mkMemory (states m) (opStats m) (stParties m) (notes m) (<[poParty p := p]> (policy m)).
Definition PolicyPenalties (R : Ranging) (m : MemoryStorage) : list PolicyPenalty := snd <$> range (policy m).
Definition DeletePolicyPenalty (m : MemoryStorage) (party : string) : MemoryStorage * bool :=
  (mkMemory (states m) (opStats m) (stParties m) (notes m) (delete party (policy m)), bool_decide (is_Some (policy m !! party))).

(** ** [gated_storage.go]: only the leader writes what is its view; what any
    replica decides goes through.  [isLeader] may be unset. *)
Definition IsLeader (isLeader : option bool) : bool := default true isLeader.
Definition LeaderSetState (isLeader : option bool) (m : MemoryStorage) (key : string) (st : State) : MemoryStorage :=
  if IsLeader isLeader then SetState m key st else m.
Definition LeaderSetStates `{Ranging} (isLeader : option bool) (m : MemoryStorage) (sts : gmap string State) : MemoryStorage :=
  if IsLeader isLeader then foldl (λ m p, SetState m p.1 p.2) m (range sts) else m.
Definition ForceSetState (m : MemoryStorage) (key : string) (st : State) : MemoryStorage := SetState m key st.
Definition LeaderSetOperatorStat (isLeader : option bool) (m : MemoryStorage) (field : string) (st : OperatorStat) : MemoryStorage :=
  if IsLeader isLeader then SetOperatorStat m field st else m.
Definition LeaderDeleteStale (isLeader : option bool) (m : MemoryStorage) (olderThan : Z) : MemoryStorage * Z :=
  if IsLeader isLeader then DeleteStale m olderThan else (m, 0).
Definition LeaderSetPartyPenalties (isLeader : option bool) (m : MemoryStorage) (p : PartyPenalties) : MemoryStorage :=
  if IsLeader isLeader then SetPartyPenalties m p else m.

(** ** [opstats.go]: the field of an operator's counters *)
Definition OperatorField (id : opID) : string := id.1.1 +:+ ("|" +:+ (id.1.2 +:+ ("|" +:+ id.2))).
Definition parseOperatorField (field : string) : option opID :=
  match Split "|"%char field with
  | [svc; op; rpc] => if bool_decide (svc = "") || bool_decide (op = "") then None else Some (svc, op, rpc)
  | _ => None
  end.

Section Storage.
Context `{M : Math} `{R : Ranging}.

(** [merge]: whichever side has seen more, and how many were adopted. *)
Definition mergeStep (now : Z) (acc : opTracker * Z) (e : string * OperatorStat) : opTracker * Z :=
  let '(t, n) := acc in
  match parseOperatorField e.1 with
  | None => acc
  | Some id =>
      let aged := decayTo e.2 now (halfLife t) in
      let keep := match stats t !! id with
        | Some cur => fleb (Rate.Attempts aged) (Rate.Attempts (decayTo cur now (halfLife t)))
        | None => false
        end in
      if keep then acc else (mkTracker (halfLife t) (<[id := aged]> (stats t)) (dirty t), n + 1)
  end.
Definition merge (t : opTracker) (stored : gmap string OperatorStat) (now : Z) : opTracker * Z :=
  foldl (mergeStep now) (t, 0) (range stored).

(** ** The write-behind *)
Definition maxWriteBatch : nat := 4096.
(** [flushPending] hands the batch over in chunks: the chunk being filled, and
    the storage so far. *)
Definition flushStep (isLeader : option bool) (acc : MemoryStorage * gmap string State) (e : string * State)
    : MemoryStorage * gmap string State :=
  let '(m, chunk) := acc in
  let chunk := <[e.1 := e.2]> chunk in
  if bool_decide (size chunk = maxWriteBatch) then (LeaderSetStates isLeader m chunk, ∅) else (m, chunk).
Definition flushBatch (isLeader : option bool) (m : MemoryStorage) (batch : gmap string State) : MemoryStorage :=
  let '(m, chunk) := foldl (flushStep isLeader) (m, ∅) (range batch) in
  if bool_decide (size chunk = O) then m else LeaderSetStates isLeader m chunk.
Definition flushTo (isLeader : option bool) (s : serviceImpl) (m : MemoryStorage) (now : Z) : serviceImpl * MemoryStorage :=
  if bool_decide (size (pending s) = O) then (s, m)
  else let '(s, batch) := flushPending s now in (s, flushBatch isLeader m batch).

Definition flushOperatorStats (isLeader : option bool) (t : opTracker) (m : MemoryStorage) (now : Z) : opTracker * MemoryStorage :=
  let '(t, taken) := takeDirty t now in
  (t, foldl (λ m e, LeaderSetOperatorStat isLeader m (OperatorField e.1) e.2) m (range taken)).

(** ** [hydrate.go] *)
Definition splitScoreKey (field : string) : option (string * string) :=
  let '(svc, key, found) := Cut field ":" in
  if negb found || bool_decide (svc = "") || bool_decide (key = "") then None else Some (svc, key).

Definition freshAt (st : State) (cutoff : Z) : bool :=
  if bool_decide (RepService.UpdatedAt st <= 0) then false
  else GoTime.After (fromUnix (RepService.UpdatedAt st)) cutoff.

Inductive skipped := Stale | Unparseable | Present | OverBound.
Definition loadState (ttl : Z) (s : serviceImpl) (svc key : string) (st : State) : serviceImpl * option skipped :=
  if bool_decide (ttl < 0) then (s, Some Stale)
  else
    let m := statesOf s svc key in
    match m !! key with
    | Some _ => (s, Some Present)
    | None =>
        if bool_decide (maxScoresPerServiceShard <= Z.of_nat (size m)) then
          let m := pruneUninformative s m in
          if bool_decide (maxScoresPerServiceShard <= Z.of_nat (size m))
          then (putStates s svc key m, Some OverBound)
          else (putStates s svc key (<[key := st]> m), None)
        else (putStates s svc key (<[key := st]> m), None)
    end.

Record HydrateResult := mkResult {
  Keys : Z; Skipped : Z; hStale : Z; hUnparseable : Z; hPresent : Z; hOverBound : Z; Services : gset string
}.
Definition noResult : HydrateResult := mkResult 0 0 0 0 0 0 ∅.
Definition countSkip (r : HydrateResult) (why : skipped) : HydrateResult :=
  mkResult (Keys r) (Skipped r + 1)
    (hStale r + match why with Stale => 1 | _ => 0 end)
    (hUnparseable r + match why with Unparseable => 1 | _ => 0 end)
    (hPresent r + match why with Present => 1 | _ => 0 end)
    (hOverBound r + match why with OverBound => 1 | _ => 0 end) (Services r).
Definition countKey (r : HydrateResult) (svc : string) : HydrateResult :=
  mkResult (Keys r + 1) (Skipped r) (hStale r) (hUnparseable r) (hPresent r) (hOverBound r) ({[svc]} ∪ Services r).

Definition loadStep (ttl now : Z) (acc : serviceImpl * HydrateResult) (e : string * State) : serviceImpl * HydrateResult :=
  let '(s, r) := acc in
  match splitScoreKey e.1 with
  | None => (s, countSkip r Unparseable)
  | Some (svc, key) =>
      if negb (freshAt e.2 (now - ttl)) then (s, countSkip r Stale)
      else match loadState ttl s svc key e.2 with
           | (s, Some why) => (s, countSkip r why)
           | (s, None) => (s, countKey r svc)
           end
  end.
Definition loadStates (ttl : Z) (s : serviceImpl) (stored : gmap string State) (now : Z) : serviceImpl * HydrateResult :=
  foldl (loadStep ttl now) (s, noResult) (range stored).

Definition withOps (s : serviceImpl) (t : opTracker) : serviceImpl :=
  mkService (InitialScore s) (timeline s) (sc s) (selCfg s) (chronic s) t (refusals s) (throttles s) (classes s)
    (shards s) (pending s).

(** [Hydrate]: the scores, then the operators' counters, then the parties, with
    how many of each were adopted. *)
Definition Hydrate (EffectiveTLDPlusOne : string -> option string) (own : Domain.owners) (oor : f64 -> Z)
    (ttl : Z) (s : service) (m : MemoryStorage) (g : gates) (o : outside) (now : Z)
    : service * HydrateResult * Z * Z :=
  let '(i, r) := loadStates ttl (impl s) (states m) now in
  let '(t, operators) := merge (ops i) (opStats m) now in
  let '(parties, s) := Refresh.adoptPartyPenalties EffectiveTLDPlusOne own oor
    (mkSvc (withOps i t) (heads s) (dups s) (priced s) (instanceID s)) (Some (stParties m)) g o now in
  (s, r, operators, parties).

(** ** Chunks lose nothing *)
Lemma insert_all {A : Type} (l : list (string * A)) (base : gmap string A) :
  NoDup l.*1 -> foldl (λ m p, <[p.1 := p.2]> m) base l = list_to_map l ∪ base.
Proof.
  revert base. induction l as [|[k a] l IH]; intros base Hnd; simpl; [by rewrite (left_id_L ∅ (∪))|].
  apply NoDup_cons in Hnd as [Hk Hnd]. rewrite IH by done.
  rewrite <- insert_union_l, insert_union_r; [done|]. by apply not_elem_of_list_to_map_1.
Qed.
Lemma insert_range {A : Type} (c base : gmap string A) : foldl (λ m p, <[p.1 := p.2]> m) base (range c) = c ∪ base.
Proof.
  assert (NoDup (range c).*1) as Hnd by (rewrite range_perm; apply NoDup_fst_map_to_list).
  rewrite insert_all by done. f_equal. rewrite (list_to_map_proper (range c) (map_to_list c)); [apply list_to_map_to_list|done|].
  apply range_perm.
Qed.

Lemma SetStates_states m sts : states (LeaderSetStates (Some true) m sts) = sts ∪ states m.
Proof.
  unfold LeaderSetStates. simpl. rewrite <- insert_range. generalize (range sts) as l. intros l. revert m.
  induction l as [|p l IH]; intros m; [done|]. simpl. by rewrite IH.
Qed.

Lemma flush_chunks m batch : states (flushBatch (Some true) m batch) = batch ∪ states m.
Proof.
  unfold flushBatch. rewrite <- insert_range.
  assert (forall l m0 chunk, let r := foldl (flushStep (Some true)) (m0, chunk) l in
    r.2 ∪ states r.1 = foldl (λ m p, <[p.1 := p.2]> m) (chunk ∪ states m0) l) as H.
  { induction l as [|[k st] l IH]; intros m0 chunk; [done|]. simpl. rewrite insert_union_l. case_bool_decide.
    - etransitivity; [apply IH|]. by rewrite SetStates_states, (left_id_L ∅ (∪)).
    - apply IH. }
  specialize (H (range batch) m ∅). simpl in H. rewrite (left_id_L ∅ (∪)) in H. rewrite <- H.
  destruct (foldl _ _ _) as [m' chunk]. simpl. case_bool_decide as E; [|apply SetStates_states].
  apply map_size_empty_iff in E as ->. by rewrite (left_id_L ∅ (∪)).
Qed.

(** ** Hydration *)
Lemma statesOf_putStates s svc key m svc' key' :
  shaped s ->
  statesOf (putStates s svc key m) svc' key' =
  if bool_decide (svc = svc' /\ shardOf key = shardOf key') then m else statesOf s svc' key'.
Proof. apply (statesOf_put (λ _, None) (λ e _, e)). Qed.

Lemma split_scoreKey svc key : svc <> "" -> free ":"%char svc -> key <> "" -> splitScoreKey (scoreKey svc key) = Some (svc, key).
Proof.
  intros Hs Hf Hk. unfold splitScoreKey, scoreKey. rewrite (Cut_at ":"%char svc key Hf). simpl. by rewrite !bool_decide_false.
Qed.
Lemma free_or_split c s : free c s \/ exists a b, free c a /\ s = a +:+ (String c "" +:+ b).
Proof.
  induction s as [|x s IH]; [by left|]. destruct (decide (x = c)) as [->|Hne]; [right; by exists "", s|].
  destruct IH as [?|(a & b & ? & ->)]; [by left|right]. by exists (String x a), b.
Qed.
Lemma splitScoreKey_inv field svc key : splitScoreKey field = Some (svc, key) -> field = scoreKey svc key.
Proof.
  unfold splitScoreKey. destruct (free_or_split ":"%char field) as [Hf|(a & b & Hf & ->)].
  - by rewrite (Cut_free ":"%char field Hf).
  - rewrite (Cut_at ":"%char a b Hf). simpl. destruct (bool_decide (a = "")), (bool_decide (b = "")); simpl; try done.
    by intros [= -> ->].
Qed.

(** What was loaded came from storage, and a shard's map holds no more than was
    loaded. *)
Record loaded (l : list (string * State)) (s : serviceImpl) : Prop := mkLoaded {
  loaded_shaped : shaped s;
  loaded_from svc key st : lookupState s svc key = Some st -> (scoreKey svc key, st) ∈ l;
  loaded_size svc key : (size (statesOf s svc key) <= length l)%nat
}.

Lemma loaded_snoc l s e : loaded l s -> loaded (l ++ [e]) s.
Proof.
  intros [H1 H2 H3]. split; [done| |].
  - intros. apply elem_of_app. left. auto.
  - intros svc key. specialize (H3 svc key). rewrite length_app. lia.
Qed.
Lemma loaded_put l s svc key st :
  loaded l s -> loaded (l ++ [(scoreKey svc key, st)]) (putStates s svc key (<[key := st]> (statesOf s svc key))).
Proof.
  intros [H1 H2 H3]. split; [by apply shaped_put| |].
  - intros svc' key' st'. unfold lookupState. rewrite statesOf_putStates by done. case_bool_decide as E.
    + destruct E as [<- E]. rewrite lookup_insert. case_decide; [intros [= <-]; subst; set_solver|].
      intros Hst. apply elem_of_app. left. apply H2. unfold lookupState, statesOf in *. by rewrite <- E.
    + intros Hst. apply elem_of_app. left. by apply H2.
  - intros svc' key'. rewrite statesOf_putStates by done. rewrite length_app. simpl. case_bool_decide; [|specialize (H3 svc' key'); lia].
    specialize (H3 svc key). rewrite map_size_insert. destruct (_ !! key); unfold id; simpl; lia.
Qed.

(** One stored state, while there is room. *)
Lemma loadStep_spec ttl now l s r e :
  0 <= ttl -> loaded l s -> e.1 ∉ l.*1 -> Z.of_nat (length l) < maxScoresPerServiceShard ->
  let '(s', _) := loadStep ttl now (s, r) e in
  loaded (l ++ [e]) s' /\
  (forall svc key st, lookupState s svc key = Some st -> lookupState s' svc key = Some st) /\
  (forall svc key, splitScoreKey e.1 = Some (svc, key) -> freshAt e.2 (now - ttl) = true -> lookupState s' svc key = Some e.2).
Proof.
  intros Httl HL Hnew Hroom. destruct e as [field st]. unfold loadStep. simpl in *.
  destruct (splitScoreKey field) as [[svc key]|] eqn:E; [|split_and!; [by apply loaded_snoc|done..]].
  destruct (freshAt st (now - ttl)) eqn:F; simpl; [|split_and!; [by apply loaded_snoc|done..]].
  unfold loadState. rewrite bool_decide_false by lia.
  assert (statesOf s svc key !! key = None) as Hno.
  { destruct (statesOf s svc key !! key) as [st'|] eqn:Hst; [|done]. exfalso. apply Hnew.
    rewrite (splitScoreKey_inv _ _ _ E). apply list_elem_of_fmap. exists (scoreKey svc key, st'). split; [done|]. by apply (loaded_from _ _ HL). }
  rewrite Hno, bool_decide_false by (pose proof (loaded_size _ _ HL svc key); lia).
  rewrite (splitScoreKey_inv _ _ _ E). split_and!; [by apply loaded_put| |].
  - intros svc' key' st'. unfold lookupState. rewrite statesOf_putStates by apply (loaded_shaped _ _ HL). case_bool_decide as D; [|done].
    destruct D as [<- D]. intros Hst. assert (statesOf s svc key = statesOf s svc key') as Eq by (unfold statesOf; by rewrite D).
    rewrite Eq, lookup_insert_ne; [done|]. intros Ek. subst key'. congruence.
  - intros svc' key' [= <- <-] _. unfold lookupState. rewrite statesOf_putStates, bool_decide_true by (done || apply (loaded_shaped _ _ HL)).
    apply lookup_insert_eq.
Qed.

Lemma loadStates_spec ttl s stored now svc key st :
  0 <= ttl -> shards s = replicate scoreShards ∅ -> Z.of_nat (size stored) <= maxScoresPerServiceShard ->
  stored !! scoreKey svc key = Some st -> svc <> "" -> free ":"%char svc -> key <> "" -> freshAt st (now - ttl) = true ->
  lookupState (loadStates ttl s stored now).1 svc key = Some st.
Proof.
  intros Httl Hs Hsize Hst Hsvc Hfree Hkey Hf.
  assert (NoDup (range stored).*1) as Hnd by (rewrite range_perm; apply NoDup_fst_map_to_list).
  assert (Z.of_nat (length (range stored)) <= maxScoresPerServiceShard) as Hlen by (by rewrite range_perm, length_map_to_list).
  assert ((scoreKey svc key, st) ∈ range stored) as Hin by (by apply elem_of_range).
  enough (loaded (range stored) (loadStates ttl s stored now).1 /\
    (forall e svc key, e ∈ range stored -> splitScoreKey e.1 = Some (svc, key) -> freshAt e.2 (now - ttl) = true ->
       lookupState (loadStates ttl s stored now).1 svc key = Some e.2)) as [_ H].
  { apply (H (scoreKey svc key, st)); [done|by apply split_scoreKey|done]. }
  clear Hin. unfold loadStates. induction (range stored) as [|e l IH] using rev_ind.
  - simpl. split; [|by intros ? ? ? ?%not_elem_of_nil]. split.
    + unfold shaped. by rewrite Hs, length_replicate.
    + intros svc' key' st'. unfold lookupState, statesOf. rewrite Hs, lookup_replicate_2 by apply scoreShardOf_lt. simpl.
      by rewrite !lookup_empty.
    + intros svc' key'. unfold statesOf. rewrite Hs, lookup_replicate_2 by apply scoreShardOf_lt. simpl. rewrite lookup_empty. done.
  - rewrite fmap_app in Hnd. apply NoDup_app in Hnd as (Hnd & Hdis & _). rewrite length_app in Hlen. simpl in Hlen.
    destruct IH as [HL Hall]; [done|lia|]. rewrite foldl_snoc. destruct (foldl _ _ l) as [s1 r1]. simpl in HL, Hall.
    pose proof (loadStep_spec ttl now l s1 r1 e Httl HL ltac:(set_solver) ltac:(lia)) as Hstep.
    destruct (loadStep ttl now (s1, r1) e) as [s2 r2]. destruct Hstep as (H1 & H2 & H3). split; [exact H1|]. simpl.
    intros e' svc' key' [He'| ->%list_elem_of_singleton]%elem_of_app ? ?; [|by apply H3]. apply H2. by eapply Hall.
Qed.

(** A refresh and an adoption leave the scores alone. *)
Lemma refresh_shards suffix own oor s g o now :
  shards (impl (Refresh.refreshBaselines suffix own oor s g o now).1.1) = shards (impl s).
Proof.
  unfold Refresh.refreshBaselines.
  destruct (snapshot (ops (impl s)) now), (Refresh.storeSeeds _ _ _ _) as [[[] ?] ?], (snapshot (heads s) now),
    (snapshot (refusals (impl s)) now), (Refresh.fleetDuplicates _ _ _ _) as [[] ?], (snapshot (throttles (impl s)) now). done.
Qed.
Lemma adopt_shards suffix own oor s stored g o now :
  shards (impl (Refresh.adoptPartyPenalties suffix own oor s stored g o now).2) = shards (impl s).
Proof.
  unfold Refresh.adoptPartyPenalties. destruct stored as [p|]; [|done]. case_bool_decide; [done|]. simpl.
  rewrite refresh_shards. case_bool_decide; done.
Qed.
Lemma Hydrate_shards suffix own oor ttl s m g o now :
  shards (impl (Hydrate suffix own oor ttl s m g o now).1.1.1) = shards (loadStates ttl (impl s) (states m) now).1.
Proof.
  unfold Hydrate. destruct (loadStates _ _ _ _) as [i r]. destruct (merge (ops i) _ _) as [t n].
  pose proof (adopt_shards suffix own oor (mkSvc (withOps i t) (heads s) (dups s) (priced s) (instanceID s)) (Some (stParties m)) g o now) as H.
  destruct (Refresh.adoptPartyPenalties _ _ _ _ _ _ _ _). exact H.
Qed.

Definition stamped (now : Z) (st : State) : State :=
  mkState (Score st) (KeyRate st) (RepService.Attempts st) (TrafficAttempts st) (LatencyMS st) (LastTraffic st) (Unix now)
    (TimeoutHitAt st).

End Storage.

Definition demoM' : MemoryStorage :=
  (flushTo (R := inOrder) (Some true)
     (RecordSignal (M := demoMath) (λ _, None) Domain.emptyOwners demoKey (λ l, l) true demoNew "eth" demoEp "json_rpc"
        (demoSig ScoreSink.SignalFatalError "down" (demoTime 0) false) (demoTime 0)) NewMemoryStorage (demoTime 500)).2.
End RepStorage.
