(* ===== verification/Stages.v ===== *)
(** * Stages: what one relay attempt goes through before it is sent

    Models the middlewares between Hedge and the relay itself, in chain order:
    [relay/middleware/affinity.go], [circuitbreak.go], [methodblocks.go],
    [endpoint.go], and the terminal [send.go], each a function from the handler
    below it to a handler, composed as the chain composes them.  The circuit
    breaker and the method-block store are cells of the world the stages share
    with every other request; the plugin, the reputation service and the
    endpoint provider are asked through it.

    The request context is that of [Retry], with the fields these stages and
    Hedge use in [Extra].  Metrics, debug logging and the stage clock are left
    out. *)

From Stdlib Require Import Ascii.
From stdpp Require Import strings.
From S2P Require Import Prelude Float64 Domain Text StateM RelayErrors FeatureFlag.
From S2P Require Import CircuitBreaker MethodBlock QosSelector ScoreSink Rate RepSelector RepService Retry.
Import GoStrings Domain RelayErrors.

Module Stages.

(** ** Shared state in the world *)
Class Cell (W A : Type) := {
  cell : W -> A;
  put : A -> W -> W;
  cell_put a w : cell (put a w) = a
}.

(** ** Constants *)
Definition AttemptHedge : string := "hedge".
Definition AttemptProbation : string := "probation".
Definition probationBudgetShare : Z := 4.
Definition MethodOther : string := "_other".
Definition MethodClassStandard : string := "standard".
Definition ReasonMethodNotFound : string := "method_not_found".
Definition MethodBlockEventMark : string := "mark".
Definition MethodBlockEventEscalate : string := "escalate".
Definition MethodBlockEventBypass : string := "bypass".
Definition MethodBlockEventFamily : string := "family".

(** [domain.IsWriteMethod]. *)
Definition IsWriteMethod (method : string) : bool :=
  let m := GoText.ToLower method in
  GoText.Contains m "send" || GoText.Contains m "submit" || GoText.Contains m "broadcast".

(** [net.SplitHostPort], its host; [None] is its error. *)
Definition SplitHostPort (hostport : string) : option string :=
  match LastIndexByte hostport ":"%char with
  | None => None
  | Some i =>
      let r := if bool_decide (upto 1 hostport = "[") then
                 match IndexByte hostport "]"%char with
                 | None => None
                 | Some e =>
                     if bool_decide (S e = i)
                     then Some (String.substring 1 (e - 1) hostport, 1%nat, S e) else None
                 end
               else
                 let host := upto i hostport in
                 if bool_decide (is_Some (IndexByte host ":"%char)) then None
                 else Some (host, 0%nat, 0%nat) in
      match r with
      | None => None
      | Some (host, j, k) =>
          if bool_decide (is_Some (IndexByte (from j hostport) "["%char)) ||
             bool_decide (is_Some (IndexByte (from k hostport) "]"%char))
          then None else Some host
      end
  end.

(** [prioritize] of [affinity.go]. *)
Fixpoint indexOf (list : EndpointAddrList) (ep : EndpointAddr) : option nat :=
  match list with
  | [] => None
  | a :: list => if bool_decide (a = ep) then Some O else S <$> indexOf list ep
  end.
Definition prioritize (list : EndpointAddrList) (preferred : EndpointAddr) : EndpointAddrList :=
  match indexOf list preferred with
  | None | Some O => list
  | Some idx => preferred :: (take idx list ++ drop (S idx) list)
  end.

Section Stages.
Context {W Resp Payload X : Type} (EffectiveTLDPlusOne : string -> option string).

(** ** The context *)
Record Extra := mkExtra {
  BatchSize : Z; SelectedEndpoint : option (option EndpointAddr);
  Degraded : bool; Cached : bool; Coalesced : bool;
  ClientIP : option string; RemoteAddr : option string; rest : X
}.
#[local] Abbreviation Context := (@Retry.Context W Resp Payload Extra).
#[local] Abbreviation NextHandler := (@Retry.NextHandler W Resp Payload Extra).
#[local] Abbreviation PluginI := (@Retry.PluginI W Payload).

Definition with_others (c : Context) (x : Extra) : Context :=
  Retry.mkContext (Retry.Ctx c) (Retry.ServiceID c) (Retry.RPCType c) (Retry.Plugin c)
    (Retry.Payloads c) (Retry.Endpoint c) (Retry.Attempts c) (Retry.Endpoints c)
    (Retry.Response c) (Retry.Err c) (Retry.HeuristicResult c) (Retry.QuorumArm c)
    (Retry.AttemptKind c) x.
Definition with_Endpoint (c : Context) (ep : EndpointAddr) : Context :=
  Retry.with_Answer c (Retry.Response c) ep (Retry.HeuristicResult c) (Retry.Err c).
Definition with_Response (c : Context) (r : option Resp) : Context :=
  Retry.with_Answer c r (Retry.Endpoint c) (Retry.HeuristicResult c) (Retry.Err c).
Definition with_Err (c : Context) (e : option error) : Context :=
  Retry.with_Answer c (Retry.Response c) (Retry.Endpoint c) (Retry.HeuristicResult c) e.
Definition with_Verdict (c : Context) (v : option AnalysisResult) : Context :=
  Retry.with_Answer c (Retry.Response c) (Retry.Endpoint c) v (Retry.Err c).
Definition degraded (c : Context) : Context :=
  let x := Retry.others c in
  with_others c (mkExtra (BatchSize x) (SelectedEndpoint x) true (Cached x) (Coalesced x)
    (ClientIP x) (RemoteAddr x) (rest x)).
Definition publish (ep : EndpointAddr) (c : Context) : Context :=
  let x := Retry.others c in
  with_others c (mkExtra (BatchSize x) (Some (Some ep)) (Degraded x) (Cached x) (Coalesced x)
    (ClientIP x) (RemoteAddr x) (rest x)).

(** The collaborators: those of Retry, and the reputation service's selection
    (by method class) and ruling out, the provider's URL for an endpoint's face
    with the host of a URL ([url.Parse] and [Hostname], "" for an error), the
    registry of plugins and whether the recorders are there. *)
Record StageEnv := mkStageEnv {
  base : @Retry.Env W;
  SelectBest : W -> string -> string -> EndpointAddrList -> string -> EndpointAddr * W;
  RuledOut : option (W -> string -> EndpointAddr -> string -> bool);
  EndpointURLFor : option (W -> string -> EndpointAddr -> string -> option string);
  Hostname : string -> string;
  registry : option (W -> string -> PluginI);
  Method : Payload -> string;
  breakRecorder : bool;
  events : bool
}.
Context (env : StageEnv).

(** What a stage reports: breaks and blocks to their recorders, and, by the
    scoring stages, each signal and each note to the reputation service. *)
Inductive event :=
  | RecordCircuitBreak (service host : string)
  | RecordMethodBlockEvent (service method name : string)
  | RecordSignal (service : string) (ep : EndpointAddr) (rpcType : string) (sig : ScoreSink.Signal)
  | RecordNote (service : string) (ep : EndpointAddr) (rpcType reason detail : string).
Record St := mkSt { ctx : Context; world : W; told : list event }.

#[local] Abbreviation M := (StateM.M St).
Definition set_ctx (f : Context -> Context) (s : St) : St := mkSt (f (ctx s)) (world s) (told s).
Definition set_world (w : W) (s : St) : St := mkSt (ctx s) w (told s).
Definition tell (e : event) : M unit := modify (λ s, mkSt (ctx s) (world s) (told s ++ [e])).
Definition read {A} (f : W -> A) : M A :=
  λ s, (f (world s), set_world (Retry.pass (base env) (world s)) s).
(** One operation on a cell, under its lock. *)
Definition atomically {A R} `{!Cell W A} (f : A -> R * A) : M R := λ s,
  let '(r, a) := f (cell (world s)) in
  (r, set_world (Retry.pass (base env) (put a (world s))) s).
Definition now : M Z := read (Retry.Now (base env)).
Definition isEnabled (flag : string) : M bool :=
  c ← gets ctx; read (λ w, Retry.IsEnabled (base env) w flag (Retry.ServiceID c)).
Definition callNext (next : NextHandler) : M (option error) := λ s,
  let '(err, c, w) := next (ctx s) (world s) in (err, mkSt c w (told s)).

(** A guard of [Retry], on this state. *)
Definition guard {A} (m : StateM.M Retry.St A) : M A := λ s,
  let '(a, r) := m (Retry.initial (ctx s) (world s)) in
  (a, mkSt (Retry.ctx r) (Retry.world r) (told s)).
Definition anyVouched (eps : EndpointAddrList) : M bool := guard (Retry.anyVouched (base env) eps).
Definition fillEndpoints : M unit := guard (Retry.fillEndpoints (base env)).

(** [filterEndpoints] of [endpointfilter.go] with a test that looks at the
    world. *)
Fixpoint keepRest (keep : EndpointAddr -> M bool) (eps : EndpointAddrList) : M EndpointAddrList :=
  match eps with
  | [] => mret []
  | ep :: eps => k ← keep ep; out ← keepRest keep eps; mret (if (k : bool) then ep :: out else out)
  end.
Fixpoint filterFrom (kept eps : EndpointAddrList) (keep : EndpointAddr -> M bool)
    : M (option EndpointAddrList) :=
  match eps with
  | [] => mret None
  | ep :: rest =>
      k ← keep ep;
      if (k : bool) then filterFrom (kept ++ [ep]) rest keep
      else out ← keepRest keep rest; mret (Some (kept ++ out))
  end.
Definition filterEndpoints (eps : EndpointAddrList) (keep : EndpointAddr -> M bool)
    : M EndpointAddrList :=
  r ← filterFrom [] eps keep; mret (default eps r).

(** [dialedHost] of [methodblocks.go]. *)
Definition dialedHost (ep : EndpointAddr) : M string :=
  c ← gets ctx;
  match EndpointURLFor env with
  | None => mret (Domain.Domain ep)
  | Some f =>
      r ← read (λ w, f w (Retry.ServiceID c) ep (Retry.RPCType c));
      mret (match (r : option string) with
            | Some rawURL => if bool_decide (Hostname env rawURL = "") then Domain.Domain ep
                             else Hostname env rawURL
            | None => Domain.Domain ep
            end)
  end.

(** ** Supplier affinity: [affinity.go] *)
Record affinityEntry := mkAffinity { endpoint : EndpointAddr; expiry : Z }.
Definition affinityStore : Type := gmap string affinityEntry.

Definition remoteIP (c : Context) : string :=
  let x := Retry.others c in
  match ClientIP x with
  | Some ip => ip
  | None => match RemoteAddr x with
            | None => ""
            | Some addr => default addr (SplitHostPort addr)
            end
  end.
Definition isWriteMethod (c : Context) : bool :=
  match Retry.Payloads c with [] => false | p :: _ => IsWriteMethod (Method env p) end.

Definition prefer `{!Cell W affinityStore} (clientKey : string) : M unit :=
  raw ← atomically (λ st : affinityStore, (st !! clientKey, st));
  match (raw : option affinityEntry) with
  | None => mret tt
  | Some entry =>
      t ← now;
      if GoTime.Before t (expiry entry) then
        modify (set_ctx (λ c, Retry.with_Endpoints c (prioritize (Retry.Endpoints c) (endpoint entry))))
      else atomically (λ st : affinityStore, (tt, delete clientKey st))
  end.

Definition SupplierAffinity `{!Cell W affinityStore} (ttl : Z) (next : NextHandler)
    : M (option error) :=
  on ← isEnabled FeatureFlag.FlagSupplierAffinity;
  if negb on then callNext next
  else
    clientKey ← gets (λ s, remoteIP (ctx s));
    (if bool_decide (clientKey = "") then mret tt else prefer clientKey);;
    err ← callNext next;
    c ← gets ctx;
    (if bool_decide (err = None) && negb (bool_decide (clientKey = "")) &&
        negb (bool_decide (Retry.Endpoint c = "")) && isWriteMethod c
     then t ← now;
          atomically (λ st : affinityStore,
            (tt, <[clientKey := mkAffinity (Retry.Endpoint c) (GoTime.Add t ttl)]> st))
     else mret tt);;
    mret err.

(** ** The circuit breaker stage: [circuitbreak.go] *)
Definition isBroken `{!Cell W CircuitBreaker.Breaker} (service host : string) : M bool :=
  t1 ← now; t2 ← now; t3 ← now; t4 ← now;
  atomically (λ b : CircuitBreaker.Breaker,
    let '(b', r) := CircuitBreaker.IsBroken b service host t1 t2 t3 t4 in (r, b')).

Definition dropBroken `{!Cell W CircuitBreaker.Breaker} : M unit :=
  c ← gets ctx;
  if bool_decide (Retry.Endpoints c = []) then mret tt
  else
    healthy ← filterEndpoints (Retry.Endpoints c) (λ ep,
      host ← dialedHost ep;
      b ← isBroken (Retry.ServiceID c) host;
      mret (negb b));
    if bool_decide (healthy = []) then mret tt
    else modify (set_ctx (λ c, Retry.with_Endpoints c healthy)).

Definition markBroken `{!Cell W CircuitBreaker.Breaker} (service host reason : string) : M bool :=
  t ← now;
  atomically (λ b : CircuitBreaker.Breaker,
    let r := CircuitBreaker.MarkBroken b service host reason t in
    (CircuitBreaker.mr_broke r, CircuitBreaker.mr_state r)).
Definition recordSuccess `{!Cell W CircuitBreaker.Breaker} (service host : string) : M unit :=
  t ← now;
  atomically (λ b : CircuitBreaker.Breaker, (tt, (CircuitBreaker.RecordSuccess b service host t).1)).

(** The outcome of the attempt, for the breaker's gate. *)
Definition reportOutcome `{!Cell W CircuitBreaker.Breaker} (err : option error) : M unit :=
  c ← gets ctx;
  if bool_decide (Retry.Endpoint c = "") then mret tt
  else
    host ← dialedHost (Retry.Endpoint c);
    if default false (ShouldCircuitBreak <$> Retry.HeuristicResult c) then
      let reason := default "" (Reason <$> Retry.HeuristicResult c) in
      let reason := if bool_decide (reason = "") then "heuristic_circuit_break" else reason in
      broke ← markBroken (Retry.ServiceID c) host reason;
      if (broke : bool) && breakRecorder env then tell (RecordCircuitBreak (Retry.ServiceID c) host)
      else mret tt
    else if bool_decide (err = None) then recordSuccess (Retry.ServiceID c) host
    else mret tt.

Definition CircuitBreak `{!Cell W CircuitBreaker.Breaker} (next : NextHandler) : M (option error) :=
  on ← isEnabled FeatureFlag.FlagCircuitBreaker;
  if negb on then callNext next
  else
    fillEndpoints;;
    dropBroken;;
    err ← callNext next;
    reportOutcome err;;
    mret err.

(** ** Method blocks: [methodblocks.go] *)
Definition pluginOf : M PluginI :=
  c ← gets ctx;
  match Retry.SelectEndpoints (Retry.Plugin c), registry env with
  | None, Some get => read (λ w, get w (Retry.ServiceID c))
  | _, _ => mret (Retry.Plugin c)
  end.
Definition normalizedMethod : M string :=
  c ← gets ctx;
  match registry env, Retry.Payloads c with
  | Some _, p :: _ =>
      plugin ← pluginOf;
      mret (match Retry.MethodNormalizer plugin with Some f => f p | None => "" end)
  | _, _ => mret ""
  end.
Definition methodFamily (method : string) : M (list string) :=
  plugin ← pluginOf;
  mret (match Retry.MethodFamilyLister plugin with Some f => f method | None => [] end).

Fixpoint countFrom (v : W -> string -> EndpointAddr -> string -> bool) (c : Context)
    (eps : EndpointAddrList) (n : Z) : M Z :=
  match eps with
  | [] => mret n
  | ep :: eps =>
      b ← read (λ w, v w (Retry.ServiceID c) ep (Retry.RPCType c));
      countFrom v c eps (if (b : bool) then n + 1 else n)
  end.
Definition keepsVouchedCapacity (narrowed full : EndpointAddrList) : M bool :=
  match Retry.Vouched (base env) with
  | None => mret true
  | Some v =>
      c ← gets ctx;
      have ← countFrom v c full 0;
      kept ← countFrom v c narrowed 0;
      mret (bool_decide (Z.min have (Z.max 2 (Z.quot (have + 1) 2)) <= kept))
  end.

Definition open_ `{!Cell W MethodBlock.Store} (method : string) (ep : EndpointAddr) : M bool :=
  c ← gets ctx;
  host ← dialedHost ep;
  t ← now;
  b ← atomically (λ st : MethodBlock.Store,
        (MethodBlock.Blocked st (Retry.ServiceID c) host method t, st));
  mret (negb b).
Definition recordEvent (method name : string) : M unit :=
  c ← gets ctx;
  if events env then tell (RecordMethodBlockEvent (Retry.ServiceID c) method name) else mret tt.

Definition dropBlocked `{!Cell W MethodBlock.Store} (method : string) : M unit :=
  c ← gets ctx;
  let full := Retry.Endpoints c in
  if bool_decide (full = []) then mret tt
  else
    filtered ← filterEndpoints full (open_ method);
    bypass ← (if bool_decide (filtered = []) then mret true
              else if bool_decide (length filtered < length full)%nat then
                a ← anyVouched filtered;
                if (a : bool) then k ← keepsVouchedCapacity filtered full; mret (negb k)
                else mret true
              else mret false);
    if (bypass : bool) then
      modify (set_ctx degraded);; recordEvent method MethodBlockEventBypass
    else modify (set_ctx (λ c, Retry.with_Endpoints c filtered)).

Definition mark `{!Cell W MethodBlock.Store} (host method : string) (escalates : bool) : M bool :=
  c ← gets ctx;
  t ← now;
  atomically (λ st : MethodBlock.Store,
    let '(st', r) := MethodBlock.Mark st (Retry.ServiceID c) host method escalates t in (r, st')).
Definition markFamily `{!Cell W MethodBlock.Store} (host method : string) : M unit :=
  family ← methodFamily method;
  if bool_decide (family = []) then mret tt
  else
    forEach family (λ m, if bool_decide (m = method) then mret tt else mark host m false;; mret tt);;
    recordEvent method MethodBlockEventFamily.

Definition stopRetry (v : AnalysisResult) : AnalysisResult :=
  mkAnalysis false (ShouldCircuitBreak v) (ShouldPenalize v) (PenaltySeverity v) (Attribution v)
    (Confidence v) (Reason v) (Details v) (MethodBlocking v) (HeadLag v) (HTTPStatus v).

(** After the relay; [pool] is the list before the filter. *)
Definition learn `{!Cell W MethodBlock.Store} (method : string) (pool : EndpointAddrList)
    (err : option error) : M (option error) :=
  c ← gets ctx;
  match Retry.HeuristicResult c with
  | None => mret err
  | Some v =>
      if bool_decide (Retry.Endpoint c = "") || negb (MethodBlocking v) then mret err
      else
        let escalates := bool_decide (Attribution v = AttrSupplier) &&
                         negb (bool_decide (Reason v = "http_408")) in
        host ← dialedHost (Retry.Endpoint c);
        up ← mark host method escalates;
        recordEvent method (if (up : bool) then MethodBlockEventEscalate else MethodBlockEventMark);;
        if bool_decide (Reason v = ReasonMethodNotFound) then
          markFamily host method;;
          if ShouldRetry v then
            left ← filterEndpoints pool (open_ method);
            if bool_decide (left = []) then
              modify (set_ctx (λ c, with_Err (with_Verdict c (Some (stopRetry v))) None));;
              mret None
            else mret err
          else mret err
        else mret err
  end.

(** [hasStore]: the store is not nil. *)
Definition MethodBlocks `{!Cell W MethodBlock.Store} (hasStore : bool) (next : NextHandler)
    : M (option error) :=
  on ← (if hasStore then isEnabled FeatureFlag.FlagMethodBlocks else mret false);
  if negb on then callNext next
  else
    method ← normalizedMethod;
    if bool_decide (method = "") || bool_decide (method = MethodOther) then callNext next
    else
      fillEndpoints;;
      pool ← gets (λ s, Retry.Endpoints (ctx s));
      dropBlocked method;;
      err ← callNext next;
      learn method pool err.

(** ** Selection: [endpoint.go] *)
Definition methodClassOf (p : PluginI) (payload : Payload) : string :=
  match Retry.MethodClassifier p with Some f => f payload | None => MethodClassStandard end.
Definition requestClass (c : Context) : string :=
  match Retry.Payloads c with [p] => methodClassOf (Retry.Plugin c) p | _ => "" end.

(** [slices.ContainsFunc] with the negated test. *)
Fixpoint someNotRuledOut (f : W -> string -> EndpointAddr -> string -> bool) (c : Context)
    (eps : EndpointAddrList) : M bool :=
  match eps with
  | [] => mret false
  | ep :: eps =>
      b ← read (λ w, f w (Retry.ServiceID c) ep (Retry.RPCType c));
      if (b : bool) then someNotRuledOut f c eps else mret true
  end.
Definition allRuledOut (eps : EndpointAddrList) : M bool :=
  match RuledOut env with
  | None => mret false
  | Some f => c ← gets ctx; b ← someNotRuledOut f c eps; mret (negb b)
  end.

(** The provider's list, when nothing has filled it; [Some] is its error. *)
Definition fetchEndpoints : M (option error) :=
  c ← gets ctx;
  match Retry.Endpoints c, Retry.AvailableEndpoints (base env) with
  | [], Some p =>
      r ← read (λ w, p w (Retry.ServiceID c) (Retry.RPCType c));
      match (r : error + EndpointAddrList) with
      | inl err => mret (Some err)
      | inr eps => modify (set_ctx (λ c, Retry.with_Endpoints c eps));; mret None
      end
  | _, _ => mret None
  end.

(** What the plugin leaves, unless that is nothing, an error, or only endpoints
    reputation does not vouch for while it removed ones it does. *)
Definition pluginFilter : M EndpointAddrList :=
  c ← gets ctx;
  let full := Retry.Endpoints c in
  match Retry.SelectEndpoints (Retry.Plugin c) with
  | None => mret full
  | Some f =>
      r ← read (λ w, Retry.selectEndpoints f w full (Retry.Payloads c));
      match (r : option EndpointAddrList) with
      | None | Some [] => modify (set_ctx degraded);; mret full
      | Some filtered =>
          junk ← (if bool_decide (length filtered < length full)%nat then
                    a ← anyVouched filtered;
                    if (a : bool) then mret false else anyVouched full
                  else mret false);
          if (junk : bool) then modify (set_ctx degraded);; mret full else mret filtered
      end
  end.

Definition candidateList : M EndpointAddrList :=
  candidates ← pluginFilter;
  if bool_decide (candidates = []) then
    modify (set_ctx degraded);; gets (λ s, Retry.Endpoints (ctx s))
  else mret candidates.

Definition choose (candidates : EndpointAddrList) : M unit := λ s,
  let c := ctx s in
  let '(ep, w) := SelectBest env (world s) (Retry.ServiceID c) (requestClass c) candidates
                    (Retry.RPCType c) in
  let c := with_Endpoint c ep in
  (tt, mkSt (match SelectedEndpoint (Retry.others c) with Some _ => publish ep c | None => c end)
         w (told s)).

(** A probation pick's attempt gets a part of what is left of the deadline; the
    context to put back afterwards, when there is one. *)
Definition probationBudget : M (option Retry.GoCtx) :=
  c ← gets ctx;
  on ← match Retry.OnProbation (base env) with
       | Some f => read (λ w, f w (Retry.ServiceID c) (Retry.Endpoint c) (Retry.RPCType c))
       | None => mret false
       end;
  if (on : bool) then
    (if bool_decide (Retry.AttemptKind c = "")
     then modify (set_ctx (λ c, Retry.with_AttemptKind c AttemptProbation)) else mret tt);;
    match Retry.Deadline (Retry.Ctx c) with
    | None => mret None
    | Some dl =>
        t ← now;
        let remaining := GoTime.Sub dl t in
        if bool_decide (0 < remaining) then
          t' ← now;
          modify (set_ctx (λ c, Retry.with_Ctx c
            (Retry.WithTimeout (Retry.Ctx c) (Z.quot remaining probationBudgetShare) t')));;
          mret (Some (Retry.Ctx c))
        else mret None
    end
  else mret None.

Definition noEndpoint : error :=
  NewRelayError ErrProtocol "no endpoint available for service" None false.

Definition SelectEndpoint (next : NextHandler) : M (option error) :=
  failed ← fetchEndpoints;
  match (failed : option error) with
  | Some err => mret (Some err)
  | None =>
      candidates ← candidateList;
      if bool_decide (candidates = []) then mret (Some noEndpoint)
      else
        kind ← gets (λ s, Retry.AttemptKind (ctx s));
        out ← (if bool_decide (kind = AttemptHedge) then allRuledOut candidates else mret false);
        if (out : bool) then mret (Some (Sentinel errHedgeRuledOut))
        else
          choose candidates;;
          saved ← probationBudget;
          err ← callNext next;
          modify (set_ctx (λ c, Retry.with_Ctx c (default (Retry.Ctx c) saved)));;
          mret err
  end.

(** ** The relay: [send.go]

    [SendRelay] is the protocol layer's. *)
Definition SendFn : Type := W -> Retry.GoCtx -> string -> EndpointAddr -> Payload -> (error + Resp) * W.
Fixpoint sendAll (SendRelay : SendFn) (payloads : list Payload) : M (option error) :=
  match payloads with
  | [] => mret None
  | payload :: payloads => λ s,
      let c := ctx s in
      let '(r, w) := SendRelay (world s) (Retry.Ctx c) (Retry.ServiceID c) (Retry.Endpoint c) payload in
      match r with
      | inl err =>
          let relayErr := NewRelayError ErrEndpoint "relay send failed" (Some err) true in
          (Some relayErr, mkSt (with_Err c (Some relayErr)) w (told s))
      | inr resp =>
          sendAll SendRelay payloads
            (mkSt (match Retry.Response c with Some _ => c | None => with_Response c (Some resp) end)
               w (told s))
      end
  end.
Definition SendRelay (send : SendFn) : M (option error) :=
  payloads ← gets (λ s, Retry.Payloads (ctx s)); sendAll send payloads.

(** ** The chain: a stage as a handler, and the part of the default chain below
    Hedge *)
Definition handler (stage : M (option error)) : NextHandler := λ c w,
  let '(err, s) := stage (mkSt c w []) in (err, ctx s, world s).

(** ** Reasoning about a stage

    The pick of a context is its endpoint and what its slot holds.
    [prepares]: the pick is as it was and a list that has members is only
    narrowed.  [leaves]: the pick is as it was.  [picks]: started without a
    pick on a list that has members, it ends without one or with a member. *)
Definition pickOf (c : Context) : EndpointAddr * option (option EndpointAddr) :=
  (Retry.Endpoint c, SelectedEndpoint (Retry.others c)).
Definition prepared (s s' : St) : Prop :=
  pickOf (ctx s') = pickOf (ctx s) /\
  (Retry.Endpoints (ctx s) <> [] -> Retry.narrows (Retry.Endpoints (ctx s)) (Retry.Endpoints (ctx s'))).
Definition kept (s s' : St) : Prop := pickOf (ctx s') = pickOf (ctx s).
Definition picks (m : M (option error)) : Prop := forall s,
  Retry.Endpoint (ctx s) = "" -> Retry.Endpoints (ctx s) <> [] ->
  Retry.Endpoint (ctx (m s).2) = "" \/ Retry.Endpoint (ctx (m s).2) ∈ Retry.Endpoints (ctx s).
#[local] Abbreviation prepares := (moves prepared).
#[local] Abbreviation leaves := (moves kept).

#[local] Instance prepared_pre : PreOrder prepared.
Proof.
  split; [intros s; split; [done|intros _; apply Retry.narrows_refl]|].
  intros s1 s2 s3 [E1 N1] [E2 N2]. split; [congruence|]. intros Hne.
  eapply Retry.narrows_trans; [by apply N1|]. apply N2. by apply N1.
Qed.
#[local] Instance kept_pre : PreOrder kept.
Proof. split; [by intros s|]. intros s1 s2 s3 E1 E2. unfold kept in *. congruence. Qed.

#[local] Instance set_world_put : WorldPut set_world.
Proof. split; [intros s; exists (world s); by destruct s|done]. Qed.
#[local] Abbreviation reads := (StateM.reads set_world).
#[local] Abbreviation reads_bind := (StateM.reads_bind set_world).
#[local] Abbreviation reads_ret := (StateM.reads_ret set_world).
#[local] Abbreviation reads_mono := (StateM.reads_mono set_world).

Lemma reads_prepares {A} (m : M A) R : reads m R -> prepares m.
Proof.
  intros Hm s. destruct (Hm s) as (_ & w & ->). split; [done|]. intros _. apply Retry.narrows_refl.
Qed.
Lemma prepares_leaves {A} (m : M A) : prepares m -> leaves m.
Proof. intros Hm s. apply (Hm s). Qed.

Lemma reads_world {A} (f : W -> A) : reads (read f) (λ _, True).
Proof. intros s. split; [done|]. by eexists. Qed.
Lemma reads_atomically {A R} `{!Cell W A} (f : A -> R * A) : reads (atomically f) (λ _, True).
Proof. intros s. unfold atomically. destruct (f _). split; [done|]. by eexists. Qed.
Lemma reads_guard {A} (m : StateM.M Retry.St A) :
  StateM.reads Retry.set_world m (λ _, True) -> reads (guard m) (λ _, True).
Proof.
  intros Hm s. unfold guard. destruct (Hm (Retry.initial (ctx s) (world s))) as (_ & w & E).
  destruct (m _) as [a r]. simpl in *. subst r. split; [done|]. by exists w.
Qed.
Ltac solve_reads := solve_reads_with ltac:(first [apply reads_world|apply reads_atomically]).

Lemma reads_vouching eps : reads (anyVouched eps) (λ _, True).
Proof. apply reads_guard, Retry.reads_anyVouched. Qed.
Lemma reads_dialedHost ep : reads (dialedHost ep) (λ _, True).
Proof. unfold dialedHost. solve_reads. Qed.
Lemma reads_isBroken `{!Cell W CircuitBreaker.Breaker} service host :
  reads (isBroken service host) (λ _, True).
Proof. unfold isBroken, now. solve_reads. Qed.
Lemma reads_open `{!Cell W MethodBlock.Store} method ep : reads (open_ method ep) (λ _, True).
Proof.
  unfold open_, now. eapply (reads_bind _ _ (λ _, True)); [solve_reads|intros c _].
  eapply reads_bind; [apply reads_dialedHost|intros host _]. solve_reads.
Qed.
Lemma reads_countFrom v c eps n : reads (countFrom v c eps n) (λ _, True).
Proof. revert n. induction eps as [|ep eps IH]; intros n; simpl; solve_reads. apply IH. Qed.
Lemma reads_keepsVouchedCapacity a b : reads (keepsVouchedCapacity a b) (λ _, True).
Proof. unfold keepsVouchedCapacity. solve_reads; apply reads_countFrom. Qed.
Lemma reads_someNotRuledOut f c eps : reads (someNotRuledOut f c eps) (λ _, True).
Proof. induction eps as [|ep eps IH]; simpl; solve_reads. apply IH. Qed.
Lemma reads_allRuledOut eps : reads (allRuledOut eps) (λ _, True).
Proof. unfold allRuledOut. solve_reads. apply reads_someNotRuledOut. Qed.
Lemma reads_pluginOf : reads pluginOf (λ _, True).
Proof. unfold pluginOf. solve_reads. Qed.
Lemma reads_normalizedMethod : reads normalizedMethod (λ _, True).
Proof.
  unfold normalizedMethod. eapply (reads_bind _ _ (λ _, True)); [solve_reads|intros c _].
  destruct (registry env); [|solve_reads]. destruct (Retry.Payloads c); [solve_reads|].
  eapply reads_bind; [apply reads_pluginOf|intros p' _]. solve_reads.
Qed.
Lemma reads_methodFamily method : reads (methodFamily method) (λ _, True).
Proof.
  unfold methodFamily. eapply reads_bind; [apply reads_pluginOf|intros p _]. solve_reads.
Qed.

(** The two-phase loop filters: its result is a part of the list. *)
Lemma reads_keepRest keep eps :
  (forall ep, reads (keep ep) (λ _, True)) -> reads (keepRest keep eps) (λ out, out `sublist_of` eps).
Proof.
  intros Hk. induction eps as [|ep eps IH]; simpl; [by apply reads_ret|].
  eapply reads_bind; [apply Hk|intros k _]. eapply reads_bind; [apply IH|intros out Hout].
  apply reads_ret. destruct k; by constructor.
Qed.
Lemma reads_filterEndpoints keep eps :
  (forall ep, reads (keep ep) (λ _, True)) ->
  reads (filterEndpoints eps keep) (λ out, out `sublist_of` eps).
Proof.
  intros Hk. unfold filterEndpoints.
  assert (forall kept rest, reads (filterFrom kept rest keep)
            (λ r, forall out, r = Some out -> out `sublist_of` kept ++ rest)) as H.
  { intros kept rest. revert kept. induction rest as [|ep rest IH]; intros kept; simpl.
    - apply reads_ret. done.
    - eapply reads_bind; [apply Hk|intros [] _].
      + eapply reads_mono, (IH (kept ++ [ep])). intros r Hr out Ho.
        specialize (Hr out Ho). by rewrite <- app_assoc in Hr.
      + eapply reads_bind; [by apply reads_keepRest|intros out Hout].
        apply reads_ret. intros out' [= <-]. apply sublist_app; [done|]. by constructor. }
  eapply reads_bind; [apply (H [] eps)|]. intros r Hr. apply reads_ret.
  destruct r as [out|]; simpl; [by apply Hr|done].
Qed.
Lemma sublist_subset (l k : EndpointAddrList) : l `sublist_of` k -> l ⊆ k.
Proof. intros H e He. by eapply elem_of_sublist. Qed.
#[local] Hint Resolve sublist_subset : core.

(** *** Steps that do not pick *)
Lemma prepares_ctx (f : Context -> Context) :
  (forall c, pickOf (f c) = pickOf c /\ Retry.Endpoints (f c) = Retry.Endpoints c) ->
  prepares (modify (set_ctx f)).
Proof.
  intros Hf s. destruct (Hf (ctx s)) as [E1 E2]. split; simpl; [done|]. rewrite E2.
  intros _. apply Retry.narrows_refl.
Qed.
Lemma prepares_tell e : prepares (tell e).
Proof. intros s. split; [done|]. intros _. apply Retry.narrows_refl. Qed.
Lemma prepares_recordEvent method name : prepares (recordEvent method name).
Proof.
  unfold recordEvent. apply moves_bind; [typeclasses eauto|apply moves_gets, _|intros c].
  destruct (events env); [apply prepares_tell|apply moves_ret, _].
Qed.
Lemma fillEndpoints_filled s : Retry.Endpoints (ctx s) <> [] -> fillEndpoints s = (tt, s).
Proof.
  intros Hne. unfold fillEndpoints, guard, Retry.fillEndpoints.
  unfold mbind, M_bind, gets. simpl. rewrite (bool_decide_eq_false_2 _ Hne). simpl.
  by destruct s.
Qed.
Lemma prepares_fillEndpoints : prepares fillEndpoints.
Proof.
  intros s. destruct (decide (Retry.Endpoints (ctx s) = [])) as [E|E].
  - unfold prepared. rewrite E. split; [|done]. unfold fillEndpoints, guard.
    pose proof (Retry.fillEndpoints_spec (base env) (ctx s) (world s)) as (eps & w & Hs).
    destruct (Retry.fillEndpoints _ _) as [? r]. simpl in *. by subst r.
  - rewrite fillEndpoints_filled by done. reflexivity.
Qed.

(** An unchanged or narrowed list after readings of the world. *)
Lemma prepared_moved w s : prepared s (set_world w s).
Proof. split; [done|]. intros _. apply Retry.narrows_refl. Qed.
Lemma prepared_offer w (eps : EndpointAddrList) s :
  Retry.narrows (Retry.Endpoints (ctx s)) eps ->
  prepared s (set_ctx (λ c, Retry.with_Endpoints c eps) (set_world w s)).
Proof. intros H. split; [done|]. by intros _. Qed.
#[local] Hint Resolve prepared_moved prepared_offer : sage.

Lemma prepares_dropBroken `{!Cell W CircuitBreaker.Breaker} : prepares dropBroken.
Proof.
  intros s. change (wp dropBroken (λ _, prepared s) s). unfold dropBroken. wp_pure.
  case_bool_decide; [unfold wp; simpl; reflexivity|].
  apply wp_bind. eapply (wp_reads set_world).
  { apply reads_filterEndpoints. intros ep. eapply reads_bind; [apply reads_dialedHost|intros host _].
    eapply reads_bind; [apply reads_isBroken|intros b _]. by apply reads_ret. }
  intros healthy w Hsub. case_bool_decide as Hh; [apply prepared_moved|].
  apply prepared_offer. split; [auto|]. intros _. exact Hh.
Qed.

Lemma prepares_dropBlocked `{!Cell W MethodBlock.Store} method : prepares (dropBlocked method).
Proof.
  intros s. change (wp (dropBlocked method) (λ _, prepared s) s). unfold dropBlocked. wp_pure.
  case_bool_decide; [unfold wp; simpl; reflexivity|].
  apply wp_bind. eapply (wp_reads set_world).
  { apply reads_filterEndpoints, reads_open. }
  intros filtered w Hsub. apply wp_bind.
  eapply (wp_reads set_world _ (λ b, b = false -> filtered <> [])).
  { case_bool_decide as Hf; [by apply reads_ret|].
    apply (reads_mono _ (λ _, True)); [intros ? _ _; exact Hf|].
    case_bool_decide; [|by apply reads_ret].
    eapply reads_bind; [apply reads_vouching|intros [] _]; [|by apply reads_ret].
    eapply reads_bind; [apply reads_keepsVouchedCapacity|intros k _]. by apply reads_ret. }
  intros [] w' Hb.
  - apply wp_bind, (wp_moves prepared); [by apply prepares_ctx|]. intros ? s1 H1.
    eapply (wp_moves prepared); [apply prepares_recordEvent|]. intros ? s2 H2.
    etrans; [|exact H2]. etrans; [|exact H1]. split; [done|]. intros _. apply Retry.narrows_refl.
  - apply (prepared_offer w' filtered s). split; [auto|]. intros _. by apply Hb.
Qed.

(** *** Steps after the relay *)
Ltac solve_leaves := solve_moves_with ltac:(first
  [ eapply prepares_leaves, reads_prepares;
    first [apply reads_world|apply reads_atomically|apply reads_dialedHost|apply reads_vouching
          |apply reads_filterEndpoints; apply reads_open]
  | apply prepares_leaves; first [apply prepares_tell|apply prepares_recordEvent]
  | apply prepares_leaves; apply prepares_ctx; done ]).

Lemma leaves_reportOutcome `{!Cell W CircuitBreaker.Breaker} err : leaves (reportOutcome err).
Proof. unfold reportOutcome, markBroken, recordSuccess, now. solve_leaves. Qed.
Lemma leaves_mark `{!Cell W MethodBlock.Store} host method esc : leaves (mark host method esc).
Proof. unfold mark, now. solve_leaves. Qed.
Lemma leaves_forEach {A} (l : list A) (f : A -> M unit) :
  (forall a, leaves (f a)) -> leaves (forEach l f).
Proof. intros Hf. induction l as [|a l IH]; simpl; solve_leaves; auto. Qed.
Lemma leaves_markFamily `{!Cell W MethodBlock.Store} host method : leaves (markFamily host method).
Proof.
  unfold markFamily. apply moves_bind; [typeclasses eauto| |intros family].
  { eapply prepares_leaves, reads_prepares, reads_methodFamily. }
  solve_leaves. apply leaves_forEach. intros m. solve_leaves. apply leaves_mark.
Qed.
Lemma leaves_learn `{!Cell W MethodBlock.Store} method pool err : leaves (learn method pool err).
Proof.
  unfold learn. solve_leaves; first [apply leaves_mark|apply leaves_markFamily].
Qed.

(** *** Stages that pick *)
Lemma picks_callNext (next : NextHandler) : Retry.PicksOffered next -> picks (callNext next).
Proof.
  intros Hn s He Hne. unfold callNext. destruct (next _ _) as [[err c] w] eqn:E. simpl.
  by eapply Hn.
Qed.
Lemma picks_after {A} (m : M A) f : prepares m -> (forall a, picks (f a)) -> picks (m ≫= f).
Proof.
  intros Hm Hf s He Hne. unfold mbind, M_bind. specialize (Hm s). destruct (m s) as [a s1].
  destruct Hm as [E N]. injection E as E _. destruct (N Hne) as [Hsub Hn]. simpl in *.
  destruct (Hf a s1) as [H|H]; [congruence|by apply Hn|by left|right; by apply Hsub].
Qed.
Lemma picks_before (m : M (option error)) f :
  picks m -> (forall a, leaves (f a)) -> picks (m ≫= f).
Proof.
  intros Hm Hf s He Hne. unfold mbind, M_bind. specialize (Hm s He Hne). destruct (m s) as [a s1].
  simpl in *. specialize (Hf a s1). injection Hf as Hf _. by rewrite Hf.
Qed.
Lemma picks_wp (m : M (option error)) :
  (forall s, Retry.Endpoint (ctx s) = "" -> Retry.Endpoints (ctx s) <> [] ->
     wp m (λ _ s', RepSelector.member (Retry.Endpoints (ctx s)) (Retry.Endpoint (ctx s'))) s) -> picks m.
Proof. intros Hm s He Hne. by apply (Hm s). Qed.
Lemma picks_ret err : picks (mret err).
Proof. intros s He _. by left. Qed.
Lemma handler_picks (m : M (option error)) : picks m -> Retry.PicksOffered (handler m).
Proof.
  intros Hm c w err c' w' Hh He Hne. specialize (Hm (mkSt c w []) He Hne). unfold handler in Hh.
  destruct (m _) as [e s]. simpl in *. by simplify_eq.
Qed.

Lemma indexOf_split (l : EndpointAddrList) ep i :
  indexOf l ep = Some i -> l = take i l ++ ep :: drop (S i) l.
Proof.
  revert i. induction l as [|a l IH]; intros i; simpl; [done|].
  case_bool_decide as E; [intros [= <-]; by subst|].
  destruct (indexOf l ep) as [j|] eqn:Ej; simpl; [|done]. intros [= <-]. simpl. f_equal. by apply IH.
Qed.
Lemma prioritize_perm l ep : prioritize l ep ≡ₚ l.
Proof.
  unfold prioritize. destruct (indexOf l ep) as [[|i]|] eqn:E; [done| |done].
  rewrite (indexOf_split l ep (S i) E) at 3. by rewrite Permutation_middle.
Qed.
Lemma prioritize_narrows l ep : Retry.narrows l (prioritize l ep).
Proof.
  split; [intros e; by rewrite prioritize_perm|]. intros Hne Hp.
  apply Hne, Permutation_nil_r. by rewrite <- Hp, prioritize_perm.
Qed.

Lemma prepares_prefer `{!Cell W affinityStore} key : prepares (prefer key).
Proof.
  unfold prefer. solve_moves_with ltac:(first
    [ eapply reads_prepares; first [apply reads_world|apply reads_atomically]
    | intros s; split; [done|]; intros _; apply prioritize_narrows ]).
Qed.

#[export] Instance affinity_picks `{!Cell W affinityStore} ttl (next : NextHandler) :
  Retry.PicksOffered next -> Retry.PicksOffered (handler (SupplierAffinity ttl next)).
Proof.
  intros Hn. apply handler_picks. unfold SupplierAffinity.
  apply picks_after; [unfold isEnabled|intros on; destruct (negb on); [by apply picks_callNext|]].
  { eapply reads_prepares. solve_reads. }
  apply picks_after; [apply moves_gets, _|intros key].
  apply picks_after; [case_bool_decide; [apply moves_ret, _|apply prepares_prefer]|intros _].
  apply picks_before; [by apply picks_callNext|intros err]. unfold now. solve_leaves.
Qed.

#[export] Instance circuitBreak_picks `{!Cell W CircuitBreaker.Breaker} (next : NextHandler) :
  Retry.PicksOffered next -> Retry.PicksOffered (handler (CircuitBreak next)).
Proof.
  intros Hn. apply handler_picks. unfold CircuitBreak.
  apply picks_after; [unfold isEnabled|intros on; destruct (negb on); [by apply picks_callNext|]].
  { eapply reads_prepares. solve_reads. }
  apply picks_after; [apply prepares_fillEndpoints|intros _].
  apply picks_after; [apply prepares_dropBroken|intros _].
  apply picks_before; [by apply picks_callNext|intros err].
  apply moves_bind; [typeclasses eauto|apply leaves_reportOutcome|intros _]. apply moves_ret, _.
Qed.

#[export] Instance methodBlocks_picks `{!Cell W MethodBlock.Store} hasStore (next : NextHandler) :
  Retry.PicksOffered next -> Retry.PicksOffered (handler (MethodBlocks hasStore next)).
Proof.
  intros Hn. apply handler_picks. unfold MethodBlocks.
  apply picks_after; [|intros on; destruct (negb on); [by apply picks_callNext|]].
  { eapply reads_prepares. unfold isEnabled. destruct hasStore; solve_reads. }
  apply picks_after; [eapply reads_prepares, reads_normalizedMethod|intros method].
  destruct (_ || _); [by apply picks_callNext|].
  apply picks_after; [apply prepares_fillEndpoints|intros _].
  apply picks_after; [apply moves_gets, _|intros pool].
  apply picks_after; [apply prepares_dropBlocked|intros _].
  apply picks_before; [by apply picks_callNext|intros err]. apply leaves_learn.
Qed.

(** *** What the selection stage relies on *)
(** The reputation service picks from the list it is given. *)
Class SelectsMember : Prop :=
  selects_member w svc class eps rpc ep w' :
    SelectBest env w svc class eps rpc = (ep, w') -> RepSelector.member eps ep.
(** The stages below selection (scoring, heuristics, the relay) keep the pick. *)
Class KeepsPick (next : NextHandler) : Prop :=
  keeps_pick c w err c' w' : next c w = (err, c', w') -> pickOf c' = pickOf c.

Lemma prepares_fetchEndpoints : prepares fetchEndpoints.
Proof.
  intros s. unfold fetchEndpoints, mbind, M_bind, gets. simpl.
  destruct (Retry.Endpoints (ctx s)) as [|e eps] eqn:E; [|reflexivity].
  destruct (Retry.AvailableEndpoints _) as [p|]; [|reflexivity].
  unfold read. simpl. destruct (p _ _ _); simpl; unfold prepared; simpl; by rewrite E.
Qed.

(** The candidates are members of the list, and choosing them changes at most
    the degraded mark. *)
Lemma wp_degrade (eps : EndpointAddrList) w s :
  wp (modify (set_ctx degraded);; mret eps) (λ r s', r = eps /\ prepared s s') (set_world w s).
Proof. split; [done|]. split; [done|]. intros _. apply Retry.narrows_refl. Qed.
Lemma pluginFilter_spec s :
  wp pluginFilter (λ r s', r ⊆ Retry.Endpoints (ctx s) /\ prepared s s' /\
                           Retry.Endpoints (ctx s') = Retry.Endpoints (ctx s)) s.
Proof.
  unfold pluginFilter. wp_pure.
  destruct (Retry.SelectEndpoints _) as [f|]; [|split_and!; [done|reflexivity|done]].
  unfold wp at 1, mbind, M_bind, read. simpl. set (full := Retry.Endpoints (ctx s)).
  set (w := Retry.pass (base env) (world s)).
  pose proof (Retry.selectEndpoints_ok f (world s) full (Retry.Payloads (ctx s))) as Hok.
  destruct (Retry.selectEndpoints f _ _ _) as [[|e filtered]|] eqn:E.
  1, 3: split_and!; [done|split; [done|intros _; apply Retry.narrows_refl]|done].
  specialize (Hok _ eq_refl). set (out := e :: filtered) in *.
  assert (out ⊆ full) as Hsub by (intros x Hx; by eapply elem_of_submseteq).
  change (wp (junk ← (if bool_decide (length out < length full)%nat
                      then a ← anyVouched out; if (a : bool) then mret false else anyVouched full
                      else mret false);
              if (junk : bool) then modify (set_ctx degraded);; mret full else mret out)
    (λ r s', r ⊆ full /\ prepared s s' /\ Retry.Endpoints (ctx s') = full) (set_world w s)).
  apply wp_bind. eapply (wp_reads set_world _ (λ _, True)).
  { case_bool_decide; [|by apply reads_ret].
    eapply reads_bind; [apply reads_vouching|intros [] _]; [by apply reads_ret|apply reads_vouching]. }
  intros [] w' _; (split_and!; [done|split; [done|intros _; apply Retry.narrows_refl]|done]).
Qed.
Lemma candidateList_spec s :
  wp candidateList (λ r s', r ⊆ Retry.Endpoints (ctx s) /\ prepared s s') s.
Proof.
  unfold candidateList. apply wp_bind. eapply wp_mono, pluginFilter_spec.
  intros r s1 (Hr & Hp & He). case_bool_decide; [|by split].
  unfold wp, mbind, M_bind. simpl. rewrite He. split; [done|].
  etrans; [exact Hp|]. split; [done|]. intros _. apply Retry.narrows_refl.
Qed.
Lemma leaves_probationBudget : leaves probationBudget.
Proof. unfold probationBudget, now. solve_leaves. Qed.

(** A slot that holds a pick holds the endpoint. *)
Definition agrees (c : Context) : Prop :=
  forall ep, SelectedEndpoint (Retry.others c) = Some (Some ep) -> Retry.Endpoint c = ep.

(** From [choose] on, the pick is what the service chose. *)
Lemma chosen_from (next : NextHandler) `{!KeepsPick next} (candidates : EndpointAddrList) s :
  wp (choose candidates;; saved ← probationBudget; err ← callNext next;
      modify (set_ctx (λ c, Retry.with_Ctx c (default (Retry.Ctx c) saved)));; mret err)
    (λ _ s', (exists class w w', SelectBest env w (Retry.ServiceID (ctx s)) class candidates
                (Retry.RPCType (ctx s)) = (Retry.Endpoint (ctx s'), w')) /\ agrees (ctx s')) s.
Proof.
  apply wp_bind. unfold wp at 1, choose.
  destruct (SelectBest env _ _ _ _ _) as [ep w] eqn:E. simpl.
  set (s1 := mkSt _ w _).
  assert (Retry.Endpoint (ctx s1) = ep /\ agrees (ctx s1)) as [Hs1 Ha].
  { unfold s1, agrees. simpl. destruct (SelectedEndpoint _) eqn:Es; simpl; [by split; [|intros ? [= <-]]|].
    rewrite Es. by split. }
  clearbody s1. apply wp_bind. eapply (wp_moves kept); [apply leaves_probationBudget|].
  intros saved s2 Hs2. apply wp_bind. unfold wp at 1, callNext.
  destruct (next _ _) as [[err c] w2] eqn:En. apply keeps_pick in En.
  unfold wp, mbind, M_bind. simpl. unfold kept in Hs2. rewrite Hs2 in En.
  injection En as E1 E2. unfold agrees in *. simpl. rewrite E1, E2, Hs1 in *. eauto.
Qed.

#[export] Instance selectEndpoint_picks `{!SelectsMember} (next : NextHandler) `{!KeepsPick next} :
  Retry.PicksOffered (handler (SelectEndpoint next)).
Proof.
  apply handler_picks. unfold SelectEndpoint.
  apply picks_after; [apply prepares_fetchEndpoints|].
  intros [err|]; [apply picks_ret|]. apply picks_wp. intros s He Hne.
  apply wp_bind. eapply wp_mono, candidateList_spec. intros candidates s1 [Hsub [[= E1 _] _]].
  case_bool_decide; [left; simpl; congruence|]. wp_pure.
  apply wp_bind. eapply (wp_reads set_world _ (λ _, True)).
  { case_bool_decide; [apply reads_allRuledOut|by apply reads_ret]. }
  intros [] w _; [left; simpl; congruence|].
  eapply wp_mono, (chosen_from next). intros _ s2 [(class & w1 & w2 & Hp) _].
  apply selects_member in Hp as [Hp|Hp]; [by left|right; by apply Hsub].
Qed.

(** The relay keeps the pick: it only reads it. *)
Lemma sendAll_leaves send payloads : leaves (sendAll send payloads).
Proof.
  induction payloads as [|p payloads IH]; simpl; [apply moves_ret, _|]. intros s.
  destruct (send _ _ _ _ _) as [[err|resp] w]; [done|].
  etrans; [|apply IH]. unfold kept. simpl. by destruct (Retry.Response _).
Qed.
Lemma handler_keeps (m : M (option error)) : leaves m -> KeepsPick (handler m).
Proof.
  intros Hm c w err c' w' Hh. unfold handler in Hh. specialize (Hm (mkSt c w [])).
  destruct (m _) as [e s]. by simplify_eq.
Qed.
#[export] Instance sendRelay_keeps send : KeepsPick (handler (SendRelay send)).
Proof.
  apply handler_keeps. unfold SendRelay.
  apply moves_bind; [typeclasses eauto|apply moves_gets, _|apply sendAll_leaves].
Qed.

(** The part of the default chain below Hedge. *)
Definition attemptChain `{!Cell W affinityStore, !Cell W CircuitBreaker.Breaker, !Cell W MethodBlock.Store}
    (ttl : Z) (hasStore : bool) (inner : NextHandler) : NextHandler :=
  handler (SupplierAffinity ttl (handler (CircuitBreak (handler (MethodBlocks hasStore
    (handler (SelectEndpoint inner))))))).
#[export] Instance attemptChain_picks `{!Cell W affinityStore, !Cell W CircuitBreaker.Breaker,
    !Cell W MethodBlock.Store} ttl hasStore (inner : NextHandler) `{!SelectsMember, !KeepsPick inner} :
  Retry.PicksOffered (attemptChain ttl hasStore inner).
Proof. unfold attemptChain. apply _. Qed.

(** *** What is published is what was picked *)
Class PublishesPick (next : NextHandler) : Prop :=
  publishes_pick c w err c' w' :
    next c w = (err, c', w') -> SelectedEndpoint (Retry.others c) = Some None -> agrees c'.
Definition publishing (m : M (option error)) : Prop := forall s,
  SelectedEndpoint (Retry.others (ctx s)) = Some None -> agrees (ctx (m s).2).

Lemma publishing_callNext (next : NextHandler) : PublishesPick next -> publishing (callNext next).
Proof.
  intros Hn s He. unfold callNext. destruct (next _ _) as [[err c] w] eqn:E. simpl. by eapply Hn.
Qed.
Lemma publishing_after {A} (m : M A) f : leaves m -> (forall a, publishing (f a)) -> publishing (m ≫= f).
Proof.
  intros Hm Hf s He. unfold mbind, M_bind. specialize (Hm s). destruct (m s) as [a s1].
  injection Hm as _ E. apply Hf. simpl in E. congruence.
Qed.
Lemma publishing_before (m : M (option error)) f :
  publishing m -> (forall a, leaves (f a)) -> publishing (m ≫= f).
Proof.
  intros Hm Hf s He. unfold mbind, M_bind. specialize (Hm s He). destruct (m s) as [a s1].
  specialize (Hf a s1). injection Hf as E1 E2. unfold agrees in *. by rewrite E1, E2.
Qed.
Lemma handler_publishes (m : M (option error)) : publishing m -> PublishesPick (handler m).
Proof.
  intros Hm c w err c' w' Hh He. specialize (Hm (mkSt c w []) He). unfold handler in Hh.
  destruct (m _) as [e s]. simpl in *. by simplify_eq.
Qed.
Lemma reads_leaves {A} (m : M A) R : reads m R -> leaves m.
Proof. intros H. eapply prepares_leaves, reads_prepares, H. Qed.
Lemma leaves_isEnabled flag : leaves (isEnabled flag).
Proof. eapply reads_leaves. unfold isEnabled. solve_reads. Qed.

#[export] Instance affinity_publishes `{!Cell W affinityStore} ttl (next : NextHandler) :
  PublishesPick next -> PublishesPick (handler (SupplierAffinity ttl next)).
Proof.
  intros Hn. apply handler_publishes. unfold SupplierAffinity.
  apply publishing_after; [apply leaves_isEnabled|].
  intros on; destruct (negb on); [by apply publishing_callNext|].
  apply publishing_after; [apply moves_gets, _|intros key].
  apply publishing_after; [case_bool_decide; [apply moves_ret, _|apply prepares_leaves, prepares_prefer]|intros _].
  apply publishing_before; [by apply publishing_callNext|intros err]. unfold now. solve_leaves.
Qed.
#[export] Instance circuitBreak_publishes `{!Cell W CircuitBreaker.Breaker} (next : NextHandler) :
  PublishesPick next -> PublishesPick (handler (CircuitBreak next)).
Proof.
  intros Hn. apply handler_publishes. unfold CircuitBreak.
  apply publishing_after; [apply leaves_isEnabled|].
  intros on; destruct (negb on); [by apply publishing_callNext|].
  apply publishing_after; [apply prepares_leaves, prepares_fillEndpoints|intros _].
  apply publishing_after; [apply prepares_leaves, prepares_dropBroken|intros _].
  apply publishing_before; [by apply publishing_callNext|intros err].
  apply moves_bind; [typeclasses eauto|apply leaves_reportOutcome|intros _]. apply moves_ret, _.
Qed.
#[export] Instance methodBlocks_publishes `{!Cell W MethodBlock.Store} hasStore (next : NextHandler) :
  PublishesPick next -> PublishesPick (handler (MethodBlocks hasStore next)).
Proof.
  intros Hn. apply handler_publishes. unfold MethodBlocks.
  apply publishing_after; [destruct hasStore; [apply leaves_isEnabled|apply moves_ret, _]|].
  intros on; destruct (negb on); [by apply publishing_callNext|].
  apply publishing_after; [eapply reads_leaves, reads_normalizedMethod|intros method].
  destruct (_ || _); [by apply publishing_callNext|].
  apply publishing_after; [apply prepares_leaves, prepares_fillEndpoints|intros _].
  apply publishing_after; [apply moves_gets, _|intros pool].
  apply publishing_after; [apply prepares_leaves, prepares_dropBlocked|intros _].
  apply publishing_before; [by apply publishing_callNext|intros err]. apply leaves_learn.
Qed.
#[export] Instance selectEndpoint_publishes (next : NextHandler) `{!KeepsPick next} :
  PublishesPick (handler (SelectEndpoint next)).
Proof.
  apply handler_publishes. unfold SelectEndpoint.
  apply publishing_after; [apply prepares_leaves, prepares_fetchEndpoints|].
  assert (forall c, SelectedEndpoint (Retry.others c) = Some None -> agrees c) as Hnone
    by (intros c E ep; by rewrite E).
  intros [err|]; [intros s; apply Hnone|].
  intros s He. match goal with |- agrees (ctx (?m s).2) => change (wp m (λ _ s', agrees (ctx s')) s) end.
  apply wp_bind. eapply wp_mono, candidateList_spec. intros candidates s1 [_ [[= _ E1] _]]. simpl in E1.
  case_bool_decide; [apply Hnone; simpl; congruence|]. wp_pure.
  apply wp_bind. eapply (wp_reads set_world _ (λ _, True)).
  { case_bool_decide; [apply reads_allRuledOut|by apply reads_ret]. }
  intros [] w _; [apply Hnone; simpl; congruence|].
  eapply wp_mono, (chosen_from next). by intros _ s2 [_ Ha].
Qed.
#[export] Instance attemptChain_publishes `{!Cell W affinityStore, !Cell W CircuitBreaker.Breaker,
    !Cell W MethodBlock.Store} ttl hasStore (inner : NextHandler) `{!KeepsPick inner} :
  PublishesPick (attemptChain ttl hasStore inner).
Proof. unfold attemptChain. apply _. Qed.


(** *** Never into junk

    A step is [guarded] when a list with an endpoint reputation vouches for is
    only narrowed to lists that still have one. *)
Section Vouching.
Context (v : string -> EndpointAddr -> string -> bool).
Context (Hv : Retry.Vouched (base env) = Some (λ _, v)).

Definition vouchedIn (c : Context) (eps : EndpointAddrList) : Prop :=
  exists ep, ep ∈ eps /\ v (Retry.ServiceID c) ep (Retry.RPCType c) = true.
Definition sameRequest (c c' : Context) : Prop :=
  Retry.ServiceID c' = Retry.ServiceID c /\ Retry.RPCType c' = Retry.RPCType c.
Definition guarded (s s' : St) : Prop :=
  sameRequest (ctx s) (ctx s') /\ Retry.Endpoint (ctx s') = Retry.Endpoint (ctx s) /\
  (vouchedIn (ctx s) (Retry.Endpoints (ctx s)) ->
   vouchedIn (ctx s) (Retry.Endpoints (ctx s')) /\
   Retry.Endpoints (ctx s') ⊆ Retry.Endpoints (ctx s)).

#[local] Instance guarded_pre : PreOrder guarded.
Proof.
  split; [intros s; split_and!; done|]. intros s1 s2 s3 ([A1 A2] & B1 & C1) ([A3 A4] & B2 & C2).
  unfold guarded, sameRequest, vouchedIn in *. rewrite A1, A2 in *. split_and!; [congruence..|].
  intros H1. destruct (C1 H1) as [H2 H3]. destruct (C2 H2) as [H4 H5]. split; [done|set_solver].
Qed.
Lemma guarded_world w s : guarded s (set_world w s).
Proof. split_and!; done. Qed.
Lemma reads_guarded {A} (m : M A) R : reads m R -> moves guarded m.
Proof. intros Hm s. destruct (Hm s) as (_ & w & ->). apply guarded_world. Qed.

(** The guard answers what [v] says. *)
Lemma anyVouched_reads eps s :
  exists w, anyVouched eps s =
    (bool_decide (Exists (λ ep, v (Retry.ServiceID (ctx s)) ep (Retry.RPCType (ctx s)) = true) eps),
     set_world w s).
Proof.
  destruct (reads_vouching eps s) as (_ & w & Hw). exists w.
  rewrite (surjective_pairing (anyVouched eps s)), Hw. f_equal. clear w Hw.
  unfold anyVouched, guard, Retry.anyVouched. rewrite Hv.
  unfold mbind, M_bind, gets. simpl.
  assert (forall r, Retry.ctx r = ctx s ->
    (Retry.containsVouched (base env) (λ _, v) (ctx s) eps r).1 =
    bool_decide (Exists (λ ep, v (Retry.ServiceID (ctx s)) ep (Retry.RPCType (ctx s)) = true) eps)) as H.
  { induction eps as [|ep eps IH]; intros r Hr; simpl.
    { reflexivity. }
    unfold mbind, M_bind, Retry.read. simpl. destruct (v _ _ _) eqn:E; simpl.
    - symmetry. apply bool_decide_eq_true. by left.
    - rewrite IH by done. apply bool_decide_ext. rewrite Exists_cons, E. naive_solver. }
  specialize (H (Retry.initial (ctx s) (world s)) eq_refl).
  destruct (Retry.containsVouched _ _ _ _ _). exact H.
Qed.
Lemma vouchedIn_exists c eps :
  vouchedIn c eps <-> Exists (λ ep, v (Retry.ServiceID c) ep (Retry.RPCType c) = true) eps.
Proof. rewrite Exists_exists. done. Qed.


(** How many of a list reputation vouches for, and what the filter must keep. *)
Definition vouchedCount (c : Context) (eps : list EndpointAddr) : Z :=
  Z.of_nat (length (filter (λ ep, v (Retry.ServiceID c) ep (Retry.RPCType c) = true) eps)).
Definition capacity (n : Z) : Z := Z.min n (Z.max 2 ((n + 1) / 2)).

Lemma vouchedCount_cons c ep eps :
  vouchedCount c (ep :: eps) =
  (if v (Retry.ServiceID c) ep (Retry.RPCType c) then 1 else 0) + vouchedCount c eps.
Proof.
  unfold vouchedCount.
  destruct (v _ ep _) eqn:E; [rewrite filter_cons_True by done|rewrite filter_cons_False by congruence];
    cbn; lia.
Qed.
Lemma vouchedCount_sublist c (l k : list EndpointAddr) :
  l `sublist_of` k -> vouchedCount c l <= vouchedCount c k.
Proof.
  induction 1 as [|x l k H IH|x l k H IH]; [done|rewrite !vouchedCount_cons|rewrite vouchedCount_cons];
    destruct (v _ x _); lia.
Qed.
Lemma vouchedCount_pos c eps : vouchedIn c eps <-> 0 < vouchedCount c eps.
Proof.
  rewrite vouchedIn_exists. induction eps as [|ep eps IH]; [rewrite Exists_nil; by split|].
  rewrite Exists_cons, vouchedCount_cons, IH. unfold vouchedCount. destruct (v _ ep _); naive_solver lia.
Qed.
Lemma countFrom_spec c eps n s :
  (countFrom (λ _, v) c eps n s).1 = n + vouchedCount c eps.
Proof.
  revert n s. induction eps as [|ep eps IH]; intros n s; [unfold vouchedCount; simpl; lia|].
  rewrite vouchedCount_cons. simpl. unfold mbind, M_bind, read. rewrite IH. destruct (v _ ep _); lia.
Qed.
Lemma keepsCapacity_spec narrowed full s :
  (keepsVouchedCapacity narrowed full s).1 = true ->
  capacity (vouchedCount (ctx s) full) <= vouchedCount (ctx s) narrowed.
Proof.
  unfold keepsVouchedCapacity. rewrite Hv. unfold mbind, M_bind, gets. simpl.
  pose proof (countFrom_spec (ctx s) full 0 s) as H1.
  destruct (countFrom _ _ full 0 s) as [have s1]. simpl in H1. subst have.
  pose proof (countFrom_spec (ctx s) narrowed 0 s1) as H2.
  destruct (countFrom _ _ narrowed 0 s1) as [kept0 s2]. simpl in H2. subst kept0. simpl.
  intros H%bool_decide_eq_true. unfold capacity.
  rewrite Z.quot_div_nonneg in H by (unfold vouchedCount; lia). by rewrite !Z.add_0_l in H.
Qed.

Definition shedsLittle (s s' : St) : Prop :=
  let full := Retry.Endpoints (ctx s) in let kept := Retry.Endpoints (ctx s') in
  sameRequest (ctx s) (ctx s') /\ Retry.Endpoint (ctx s') = Retry.Endpoint (ctx s) /\
  kept `sublist_of` full /\
  capacity (vouchedCount (ctx s) full) <= vouchedCount (ctx s) kept /\
  (kept <> full -> vouchedIn (ctx s) kept).

Lemma capacity_le n : capacity n <= n.
Proof. unfold capacity. lia. Qed.
Lemma sheds_nothing s s' :
  sameRequest (ctx s) (ctx s') -> Retry.Endpoint (ctx s') = Retry.Endpoint (ctx s) ->
  Retry.Endpoints (ctx s') = Retry.Endpoints (ctx s) -> shedsLittle s s'.
Proof.
  intros E1 E2 E3. unfold shedsLittle. rewrite E3. split_and!; [done..|apply capacity_le|done].
Qed.

(** The decision to bypass, on a filtered list. *)
Lemma bypass_spec (filtered full : EndpointAddrList) s :
  filtered `sublist_of` full ->
  wp (if bool_decide (filtered = []) then mret true
      else if bool_decide (length filtered < length full)%nat then
        a ← anyVouched filtered;
        if (a : bool) then k ← keepsVouchedCapacity filtered full; mret (negb k) else mret true
      else mret false)
    (λ bypass s', (exists w, s' = set_world w s) /\
       (bypass = false -> filtered = full \/
          (vouchedIn (ctx s) filtered /\
           capacity (vouchedCount (ctx s) full) <= vouchedCount (ctx s) filtered))) s.
Proof.
  intros Hsub. assert (exists w, s = set_world w s) as Hs by (exists (world s); by destruct s).
  case_bool_decide; [by split|]. case_bool_decide as Hl.
  2: { split; [done|]. intros _. left. apply sublist_same_length; [done|].
       apply sublist_length in Hsub. lia. }
  apply wp_bind. unfold wp at 1. destruct (anyVouched_reads filtered s) as [w ->]. simpl.
  case_bool_decide as Hx; [|split; [by exists w|done]].
  apply vouchedIn_exists in Hx. apply wp_bind. unfold wp at 1.
  pose proof (keepsCapacity_spec filtered full (set_world w s)) as Hk.
  destruct (reads_keepsVouchedCapacity filtered full (set_world w s)) as (_ & w' & Hw).
  destruct (keepsVouchedCapacity _ _ _) as [k s1]. simpl in *. subst s1.
  split; [by exists w'|]. intros Ek. right. split; [done|]. apply Hk. by destruct k.
Qed.

Lemma blocks_shed_little `{!Cell W MethodBlock.Store} method s :
  shedsLittle s (dropBlocked method s).2.
Proof.
  change (wp (dropBlocked method) (λ _, shedsLittle s) s). unfold dropBlocked. wp_pure.
  case_bool_decide; [by apply sheds_nothing|].
  apply wp_bind. eapply (wp_reads set_world); [apply reads_filterEndpoints, reads_open|].
  intros filtered w Hsub. apply wp_bind. eapply wp_mono, (bypass_spec _ _ (set_world w s) Hsub).
  intros [] s1 [[w' ->] Hb]; simpl in Hb.
  - unfold recordEvent, wp, mbind, M_bind. simpl. destruct (events env); by apply sheds_nothing.
  - destruct Hb as [->|[Hv1 Hc]]; [done| |].
    + unfold shedsLittle. simpl. split_and!; [by split|done..|apply capacity_le|done].
    + unfold shedsLittle. simpl. split_and!; [by split|done..].
Qed.
Lemma sheds_guarded s s' : shedsLittle s s' -> guarded s s'.
Proof.
  intros (Hr & He & Hsub & _ & Hv'). split_and!; [done..|]. intros Hin.
  split; [|by apply sublist_subset].
  destruct (decide (Retry.Endpoints (ctx s') = Retry.Endpoints (ctx s))) as [->|E]; [done|by apply Hv'].
Qed.

(** The pick was made from members of the list, at least one of them vouched
    for. *)
Definition chosen (c c' : Context) : Prop :=
  exists candidates class w w',
    SelectBest env w (Retry.ServiceID c) class candidates (Retry.RPCType c) = (Retry.Endpoint c', w') /\
    candidates ⊆ Retry.Endpoints c /\ vouchedIn c candidates.
Definition chooses (m : M (option error)) : Prop := forall s,
  Retry.Endpoint (ctx s) = "" -> vouchedIn (ctx s) (Retry.Endpoints (ctx s)) ->
  Retry.Endpoint (ctx (m s).2) = "" \/ chosen (ctx s) (ctx (m s).2).
Definition ChoosesVouched (next : NextHandler) : Prop := forall c w err c' w',
  next c w = (err, c', w') -> Retry.Endpoint c = "" -> vouchedIn c (Retry.Endpoints c) ->
  Retry.Endpoint c' = "" \/ chosen c c'.

Lemma chooses_wp (m : M (option error)) :
  (forall s, Retry.Endpoint (ctx s) = "" -> vouchedIn (ctx s) (Retry.Endpoints (ctx s)) ->
     wp m (λ _ s', Retry.Endpoint (ctx s') = "" \/ chosen (ctx s) (ctx s')) s) -> chooses m.
Proof. intros Hm s He Hin. by apply (Hm s). Qed.
Lemma chooses_callNext (next : NextHandler) : ChoosesVouched next -> chooses (callNext next).
Proof.
  intros Hn s He Hne. unfold callNext. destruct (next _ _) as [[err c] w] eqn:E. simpl. by eapply Hn.
Qed.
Lemma chooses_after {A} (m : M A) f : moves guarded m -> (forall a, chooses (f a)) -> chooses (m ≫= f).
Proof.
  intros Hm Hf s He Hne. unfold mbind, M_bind. specialize (Hm s). destruct (m s) as [a s1].
  destruct Hm as ([R1 R2] & E & N). simpl in *. destruct (N Hne) as [Hi Hsub].
  assert (vouchedIn (ctx s1) (Retry.Endpoints (ctx s1))) as Hi' by (unfold vouchedIn; by rewrite R1, R2).
  destruct (Hf a s1) as [H|(cs & cl & w & w' & H1 & H2 & H3)]; [congruence|done|by left|].
  right. exists cs, cl, w, w'. unfold vouchedIn in *. rewrite R1, R2 in *. split_and!; [done|set_solver|done].
Qed.
Lemma chooses_before (m : M (option error)) f :
  chooses m -> (forall a, leaves (f a)) -> chooses (m ≫= f).
Proof.
  intros Hm Hf s He Hne. unfold mbind, M_bind. specialize (Hm s He Hne). destruct (m s) as [a s1].
  simpl in *. specialize (Hf a s1). injection Hf as Hf _. unfold chosen. by rewrite Hf.
Qed.
Lemma handler_chooses (m : M (option error)) : chooses m -> ChoosesVouched (handler m).
Proof.
  intros Hm c w err c' w' Hh He Hne. specialize (Hm (mkSt c w []) He Hne). unfold handler in Hh.
  destruct (m _) as [e s]. simpl in *. by simplify_eq.
Qed.

(** A list with members, and so one with a vouched member, is not fetched again. *)
Lemma guarded_filled (m : M unit) :
  (forall s, Retry.Endpoints (ctx s) <> [] -> m s = (tt, s)) ->
  (forall s, sameRequest (ctx s) (ctx (m s).2) /\ Retry.Endpoint (ctx (m s).2) = Retry.Endpoint (ctx s)) ->
  moves guarded m.
Proof.
  intros Hm He s. destruct (He s) as [E1 E2]. split_and!; [done..|]. intros Hin.
  rewrite Hm; [done|]. destruct Hin as (ep & Hin & _). destruct (Retry.Endpoints _); [set_solver|done].
Qed.
Lemma guarded_fillEndpoints : moves guarded fillEndpoints.
Proof.
  apply guarded_filled; [apply fillEndpoints_filled|]. intros s. unfold fillEndpoints, guard.
  pose proof (Retry.fillEndpoints_spec (base env) (ctx s) (world s)) as (eps & w & Hs).
  destruct (Retry.fillEndpoints _ _) as [? r]. simpl in *. by subst r.
Qed.
Lemma fetchEndpoints_filled s : Retry.Endpoints (ctx s) <> [] -> fetchEndpoints s = (None, s).
Proof.
  intros Hne. unfold fetchEndpoints, mbind, M_bind, gets. simpl. by destruct (Retry.Endpoints (ctx s)).
Qed.

(** The plugin's filter leaves a vouched candidate. *)
Lemma candidates_vouched s :
  vouchedIn (ctx s) (Retry.Endpoints (ctx s)) ->
  wp candidateList (λ r s', vouchedIn (ctx s) r /\ sameRequest (ctx s) (ctx s')) s.
Proof.
  intros Hin. unfold candidateList. apply wp_bind.
  assert (wp pluginFilter (λ r s', vouchedIn (ctx s) r /\ sameRequest (ctx s) (ctx s')) s) as Hp.
  2: { eapply wp_mono, Hp. intros r s1 [Hr Hs]. case_bool_decide as E; [|by split].
       destruct Hr as (ep & Hep & _). rewrite E in Hep. set_solver. }
  unfold pluginFilter. wp_pure. destruct (Retry.SelectEndpoints _) as [f|]; [|by split].
  unfold wp at 1, mbind, M_bind, read. simpl.
  set (full := Retry.Endpoints (ctx s)) in *. set (w := Retry.pass (base env) (world s)).
  destruct (Retry.selectEndpoints f _ _ _) as [[|e filtered]|] eqn:E; [by split| |by split].
  set (out := e :: filtered) in *.
  change (wp (junk ← (if bool_decide (length out < length full)%nat
                      then a ← anyVouched out; if (a : bool) then mret false else anyVouched full
                      else mret false);
              if (junk : bool) then modify (set_ctx degraded);; mret full else mret out)
    (λ r s', vouchedIn (ctx s) r /\ sameRequest (ctx s) (ctx s')) (set_world w s)).
  apply Retry.selectEndpoints_ok in E. apply wp_bind.
  case_bool_decide as Hl.
  - apply wp_bind. unfold wp at 1. destruct (anyVouched_reads out (set_world w s)) as [w1 ->].
    cbn [fst snd]. case_bool_decide as Hx; [by split; [apply vouchedIn_exists|]|].
    unfold wp at 1. destruct (anyVouched_reads full (set_world w1 (set_world w s))) as [w2 ->].
    cbn [fst snd]. rewrite bool_decide_eq_true_2 by (by apply vouchedIn_exists). by split.
  - split; [|done]. destruct Hin as (ep & Hep & Hvp). exists ep. split; [|done].
    assert (out ≡ₚ full) as Hp by (apply submseteq_length_Permutation; [done|lia]).
    change (ep ∈ out). by rewrite Hp.
Qed.

(** The pick of the stages below the breaker. *)
Lemma selectEndpoint_chooses (next : NextHandler) `{!KeepsPick next} :
  ChoosesVouched (handler (SelectEndpoint next)).
Proof.
  apply handler_chooses, chooses_wp. intros s He Hin.
  assert (Retry.Endpoints (ctx s) <> []) as Hne
    by (destruct Hin as (ep & Hep & _); intros E; rewrite E in Hep; set_solver).
  unfold SelectEndpoint. apply wp_bind. unfold wp at 1. rewrite fetchEndpoints_filled by done.
  cbn [fst snd].
  apply wp_bind. eapply wp_mono; [|apply wp_and; [apply candidateList_spec|by apply candidates_vouched]].
  intros candidates s1 [[Hsub [[= E1 _] _]] [Hvc [R1 R2]]].
  case_bool_decide; [left; simpl; congruence|]. wp_pure.
  apply wp_bind. eapply (wp_reads set_world _ (λ _, True)).
  { case_bool_decide; [apply reads_allRuledOut|by apply reads_ret]. }
  intros [] w _; [left; simpl; congruence|].
  eapply wp_mono, (chosen_from next). intros _ s2 [(class & w1 & w2 & Hs) _].
  right. exists candidates, class, w1, w2. simpl in Hs. rewrite R1, R2 in Hs. done.
Qed.

(** C15. A guard never costs a request its good endpoints: when reputation vouches
    for any endpoint on the list, the service picks from candidates of which
    it vouches for at least one, after the method blocks and the plugin's
    filter had their say, or the relay fails without a pick. *)
Theorem guards_leave_a_vouched_endpoint `{!Cell W MethodBlock.Store} hasStore (next : NextHandler)
    `{!KeepsPick next} c w err c' w' :
  handler (MethodBlocks hasStore (handler (SelectEndpoint next))) c w = (err, c', w') ->
  Retry.Endpoint c = "" -> vouchedIn c (Retry.Endpoints c) ->
  Retry.Endpoint c' = "" \/ chosen c c'.
Proof.
  apply handler_chooses. unfold MethodBlocks. pose proof (selectEndpoint_chooses next) as Hn.
  apply chooses_after; [|intros on; destruct (negb on); [by apply chooses_callNext|]].
  { eapply reads_guarded. unfold isEnabled. destruct hasStore; solve_reads. }
  apply chooses_after; [eapply reads_guarded, reads_normalizedMethod|intros method].
  destruct (_ || _); [by apply chooses_callNext|].
  apply chooses_after; [apply guarded_fillEndpoints|intros _].
  apply chooses_after; [apply moves_gets, _|intros pool].
  apply chooses_after; [intros s; apply sheds_guarded, blocks_shed_little|intros _].
  apply chooses_before; [by apply chooses_callNext|intros e]. apply leaves_learn.
Qed.

(** C16. A method block never sheds more than half of the endpoints reputation
    vouches for, nor any of the last two. *)
Theorem blocks_keep_capacity `{!Cell W MethodBlock.Store} method s :
  let c := ctx s in
  let full := vouchedCount c (Retry.Endpoints c) in
  let kept := vouchedCount c (Retry.Endpoints (ctx (dropBlocked method s).2)) in
  full <= 2 * kept /\ (full <= 2 -> kept = full).
Proof.
  intros c full kept. destruct (blocks_shed_little method s) as (_ & _ & Hsub & Hc & _).
  fold c full kept in Hc.
  assert (0 <= full /\ kept <= full) as [H0 Hle].
  { split; [unfold full, vouchedCount; lia|]. by apply vouchedCount_sublist. }
  unfold capacity in Hc. pose proof (Z.mul_div_le (full + 1) 2). pose proof (Z.mod_pos_bound (full + 1) 2).
  rewrite Z.mod_eq in * by lia. lia.
Qed.
End Vouching.
End Stages.

(** ** The collaborators that keep what the stages rely on *)

(** [SelectBest] of the reputation service, the service and the position in the
    random draws held by the world. *)
Definition reputationPick {W} `{Math} (ETLD : string -> option string) (own : owners)
    (keyOf : EndpointAddr -> string -> string) (service : W -> RepService.serviceImpl)
    (draws : W -> nat) (set_draws : nat -> W -> W) (rawInt : nat -> Z) (rawFloat : nat -> f64)
    (operatorCap : option (RepSelector.OperatorCapConfig f64)) (tieBreak : bool)
    : W -> string -> string -> EndpointAddrList -> string -> EndpointAddr * W := λ w svc class eps rpc,
  let '(ep, k) := RepService.SelectBest ETLD own keyOf (service w) svc class rpc rawInt rawFloat
                    operatorCap tieBreak eps (draws w) in
  (ep, set_draws k w).

Lemma reputation_selects {W Payload} (env : @StageEnv W Payload) `{Math} ETLD own keyOf service draws
    set_draws rawInt rawFloat operatorCap tieBreak :
  SelectBest env = reputationPick ETLD own keyOf service draws set_draws rawInt rawFloat operatorCap
                     tieBreak ->
  SelectsMember env.
Proof.
  intros E w svc class eps rpc ep w'. rewrite E. unfold reputationPick, RepService.SelectBest.
  rewrite RepSelector.rbind_eq. unfold RepSelector.rret. intros [= <- _].
  match goal with |- context [RepSelector.Select ?a ?b ?c ?d ?e ?f ?g eps ?k] =>
    pose proof (RepSelector.select_members a b c d e f g eps k) as Hm;
    destruct (RepSelector.Select a b c d e f g eps k) as [[out col] k'] end.
  cbn [fst snd] in *. destruct Hm as [|x l Hx _]; [by left|exact Hx].
Qed.

(** [SelectEndpoints] of the Solana plugin. *)
Program Definition solanaSelector {W Payload : Type} (oor : f64 -> Z) (plugin : W -> QosSelector.Plugin)
    (clock : W -> Z) : Retry.Selector W Payload :=
  Retry.mkSelector (λ w eps _,
    Some (QosSelector.Endpoints_ (QosSelector.SelectEndpoints oor (plugin w) eps (clock w)))) _.
Next Obligation. intros * [= <-]. apply QosSelector.selectEndpoints_kept. Qed.

(** Supplier affinity moves the preferred endpoint to the front of the list, and
    the tier's draw is over positions chosen uniformly: of the equally likely
    sequences of draws, exactly as many pick the preferred endpoint as did
    before it was moved. *)
Theorem affinity_does_not_steer cfg scores (l : list EndpointAddr) (t : Z) (ep : EndpointAddr) :
  0 <= t < 4 -> NoDup l -> (forall e, e ∈ l -> RepSelector.tierOf cfg scores e = t) -> ep ∈ l ->
  let picking (l : list EndpointAddr) :=
    length (filter (λ ds, RepSelector.pickOf (RepSelector.rfold
      (RepSelector.sampleStep cfg scores (λ k, default 0 (ds !! k))) RepSelector.accInit l O).1 t = ep)
      (RepSelector.allDraws (length l))) in
  head (prioritize l ep) = Some ep /\ picking (prioritize l ep) = picking l.
Proof.
  intros Ht Hnd Hall Hin picking. pose proof (prioritize_perm l ep) as Hp.
  assert (forall k, k ≡ₚ l -> picking k = fact (length l - 1)) as Hk.
  { intros k Hk. assert (ep ∈ k) as Hik by (by rewrite Hk).
    apply list_elem_of_lookup in Hik as [j Hj]. rewrite <- (Permutation_length Hk).
    apply (RepSelector.reservoir_count cfg scores k t j ep Ht); [by rewrite Hk| |done].
    intros e He. apply Hall. by rewrite <- Hk. }
  split; [|by rewrite !Hk].
  unfold prioritize. destruct (indexOf l ep) as [[|i]|] eqn:E; [|done|].
  - apply indexOf_split in E. rewrite E. done.
  - exfalso. clear -E Hin. induction l as [|x l IH]; [by apply elem_of_nil in Hin|]. simpl in E.
    case_bool_decide; [done|]. apply elem_of_cons in Hin as [->|Hin]; [done|].
    destruct (indexOf l ep); [done|auto].
Qed.

(** ** A concrete gateway: one pool, real stores and the real selector *)
Record demoWorld := mkDemo {
  dAffinity : affinityStore; dBreaker : CircuitBreaker.Breaker; dBlocks : MethodBlock.Store; dDraws : nat
}.
#[export] Instance demo_affinity : Cell demoWorld affinityStore :=
  {| cell := dAffinity; put a w := mkDemo a (dBreaker w) (dBlocks w) (dDraws w);
     cell_put _ _ := eq_refl |}.
#[export] Instance demo_breaker : Cell demoWorld CircuitBreaker.Breaker :=
  {| cell := dBreaker; put a w := mkDemo (dAffinity w) a (dBlocks w) (dDraws w);
     cell_put _ _ := eq_refl |}.
#[export] Instance demo_blocks : Cell demoWorld MethodBlock.Store :=
  {| cell := dBlocks; put a w := mkDemo (dAffinity w) (dBreaker w) a (dDraws w);
     cell_put _ _ := eq_refl |}.

Definition demoNow : Z := 1700000000 * second.
Definition demoPick : demoWorld -> string -> string -> EndpointAddrList -> string -> EndpointAddr * demoWorld :=
  reputationPick (H := RepService.demoMath) (λ h, Some h) emptyOwners RepService.demoKey
    (λ _, RepService.demoNew) dDraws (λ k w, mkDemo (dAffinity w) (dBreaker w) (dBlocks w) k)
    (λ _, 0) (λ _, f0) None false.
Definition vouchedOf (eps : list EndpointAddr) (_ : string) (ep : EndpointAddr) (_ : string) : bool :=
  bool_decide (ep ∈ eps).
Definition demoPlugin : @Retry.PluginI demoWorld string :=
  Retry.mkPlugin None None None None (Some id) None None None None None None None None None None.
(** [fetched] is what the provider lists, [vouched] what reputation vouches for. *)
Definition demoBase (fetched vouched : EndpointAddrList) : @Retry.Env demoWorld :=
  Retry.mkEnv id (λ _, demoNow) (λ _ _, false) (λ _ _ _, true) (λ _, emptyOwners)
    (Some (λ _, vouchedOf vouched)) None (Some (λ _ _ _, inr fetched)) true.
Definition demoStages (fetched vouched : EndpointAddrList) : @StageEnv demoWorld string :=
  mkStageEnv (demoBase fetched vouched) demoPick (Some (λ _ _ _ _, false)) None id
    (Some (λ _ _, demoPlugin)) id true true.
#[export] Instance demo_selects fetched vouched : SelectsMember (demoStages fetched vouched).
Proof. by eapply reputation_selects. Qed.

Definition demoExtra : @Extra unit := mkExtra 0 None false false false None None tt.
Definition demoContext (eps : EndpointAddrList) : @Retry.Context demoWorld string string Extra :=
  Retry.mkContext (Retry.mkGoCtx None) "eth" "json_rpc" Retry.noPlugin ["eth_call"] "" [] eps None None
    None false "" demoExtra.
Definition demoStart : demoWorld :=
  mkDemo ∅ (CircuitBreaker.New false false) MethodBlock.New O.
Definition epA : EndpointAddr := "s1-https://a.net".
Definition epB : EndpointAddr := "s2-https://b.net".
Definition epC : EndpointAddr := "s3-https://c.net".
(** Every relay fails. *)
Definition demoSend : @SendFn demoWorld string string := λ w _ _ _ _, (inl (OtherError "refused" None), w).


(** The only host vouched for is blocked for the method: the block is bypassed. *)
Definition demoBlocked : demoWorld :=
  mkDemo ∅ (CircuitBreaker.New false false)
    (MethodBlock.Mark MethodBlock.New "eth" "a.net" "eth_call" false demoNow).1 O.
Definition demoRelay (vouched : EndpointAddrList) (w : demoWorld) :=
  handler (MethodBlocks (demoStages [] vouched) true (handler (SelectEndpoint (demoStages [] vouched)
    (handler (SendRelay demoSend))))) (demoContext [epA; epB]) w.

Lemma guards_leave_a_vouched_endpoint_witness :
  let r := demoRelay [epA] demoBlocked in
  Degraded (Retry.others r.1.2) = true /\
  (Retry.Endpoint r.1.2 = "" \/
   chosen (demoStages [] [epA]) (vouchedOf [epA]) (demoContext [epA; epB]) r.1.2).
Proof.
  split; [vm_compute; reflexivity|].
  apply (guards_leave_a_vouched_endpoint (λ h, Some h) (demoStages [] [epA]) (vouchedOf [epA]) eq_refl
    true (handler (SendRelay demoSend)) (demoContext [epA; epB]) demoBlocked
    (demoRelay [epA] demoBlocked).1.1 (demoRelay [epA] demoBlocked).1.2 (demoRelay [epA] demoBlocked).2).
  - vm_compute. reflexivity.
  - reflexivity.
  - exists epA. split; [by left|by vm_compute].
Defined.

Lemma blocks_keep_capacity_witness :
  let s := mkSt (demoContext [epA; epB; epC]) demoBlocked [] in
  let left := Retry.Endpoints (ctx (dropBlocked (demoStages [] [epA; epB; epC]) "eth_call" s).2) in
  left = [epB; epC] /\ 3 <= 2 * vouchedCount (vouchedOf [epA; epB; epC]) (demoContext []) left.
Proof.
  split; [vm_compute; reflexivity|].
  destruct (blocks_keep_capacity (λ h, Some h) (demoStages [] [epA; epB; epC]) (vouchedOf [epA; epB; epC])
    eq_refl "eth_call" (mkSt (demoContext [epA; epB; epC]) demoBlocked [])) as [H _]. exact H.
Defined.

Lemma affinity_does_not_steer_witness :
  head (prioritize [epA; epB; epC] epC) = Some epC /\
  (λ l : list EndpointAddr, length (filter (λ ds, RepSelector.pickOf (RepSelector.rfold
      (RepSelector.sampleStep RepSelector.DefaultSelectorConfig (λ _, (of_int 100, true))
         (λ k, default 0 (ds !! k))) RepSelector.accInit l O).1 0 = epC)
      (RepSelector.allDraws (length l)))) [epA; epB; epC] = 2%nat.
Proof.
  destruct (affinity_does_not_steer RepSelector.DefaultSelectorConfig (λ _, (of_int 100, true))
    [epA; epB; epC] 0 epC) as [H _]; [lia| | | |].
  - by apply (bool_decide_unpack _).
  - intros e _. by vm_compute.
  - right. right. left.
  - split; [exact H|]. by vm_compute.
Defined.
End Stages.
