(* ===== verification/Grade.v ===== *)
(** * Grade: the verdict on an attempt, and what it costs whom

    Models [relay/middleware/heuristic.go], [score.go] and [observe.go]: the
    stage that grades an attempt's answer or failure with [Heuristic], lets the
    service's plugin and flags change the verdict and turns it into a retry;
    and the two stages that turn verdicts into reputation signals, one per
    attempt or one per request.

    A recorder that only counts is left out, except the reputation service's
    signals and notes.  Durations are rendered by a parameter. *)

From stdpp Require Import strings.
From S2P Require Import Prelude Float64 Domain Text Json StateM FeatureFlag RelayErrors Heuristic Message.
From S2P Require Import ScoreSink Retry Stages.
Import Domain RelayErrors Message Stages.

Module Grade.

Definition ReasonQuery5xx : string := "query_5xx".
Definition MethodClassLight : string := "light".
Definition shortBudgetShare : Z := 2.

Definition with_retry (v : AnalysisResult) (b : bool) : AnalysisResult :=
  mkAnalysis b (ShouldCircuitBreak v) (ShouldPenalize v) (PenaltySeverity v) (Attribution v)
    (Confidence v) (Reason v) (Details v) (MethodBlocking v) (HeadLag v) (HTTPStatus v).
Definition with_break (v : AnalysisResult) : AnalysisResult :=
  mkAnalysis (ShouldRetry v) true (ShouldPenalize v) (PenaltySeverity v) (Attribution v)
    (Confidence v) (Reason v) (Details v) (MethodBlocking v) (HeadLag v) (HTTPStatus v).
Definition without_penalty (v : AnalysisResult) : AnalysisResult :=
  mkAnalysis (ShouldRetry v) (ShouldCircuitBreak v) false (PenaltySeverity v) (Attribution v)
    (Confidence v) (Reason v) (Details v) (MethodBlocking v) (HeadLag v) (HTTPStatus v).
Definition with_blocking (v : AnalysisResult) : AnalysisResult :=
  mkAnalysis (ShouldRetry v) (ShouldCircuitBreak v) (ShouldPenalize v) (PenaltySeverity v)
    (Attribution v) (Confidence v) (Reason v) (Details v) true (HeadLag v) (HTTPStatus v).

(** [fmtBudget]: " (budget %s of %s)" with the first rounded to milliseconds. *)
Definition gradeTimeoutBudget (fmtBudget : Z -> Z -> string) (r : AnalysisResult) (have owed : Z)
    : AnalysisResult :=
  if (negb (bool_decide (Reason r = "transport_timeout")) &&
      negb (bool_decide (Reason r = Heuristic.ReasonConnectTimeout))) || bool_decide (owed <= 0)
  then r
  else
    let details := Details r +:+ fmtBudget have owed in
    if bool_decide (have < Z.quot owed shortBudgetShare) then
      mkAnalysis (ShouldRetry r) false false SeverityNone (Attribution r) (Confidence r)
        "short_budget_timeout" details false (HeadLag r) (HTTPStatus r)
    else
      mkAnalysis (ShouldRetry r) (ShouldCircuitBreak r) (ShouldPenalize r) (PenaltySeverity r)
        (Attribution r) (Confidence r) (Reason r) details (MethodBlocking r) (HeadLag r) (HTTPStatus r).

Definition upstreamAnswer (err : option error) : option Response :=
  match asUpstream err with
  | None => None
  | Some (status, body) =>
      if bool_decide (body = "") || bool_decide (UpstreamBodyMax <= Z.of_nat (String.length body)) ||
         negb (Json.Valid body)
      then None else Some (plainResponse body status)
  end.
Definition retryVerdict (reason : string) : error :=
  NewRelayError ErrEndpoint ("heuristic analysis suggests retry: " +:+ reason)
    (Some (Sentinel ErrRetryVerdict)) true.

Section Grade.
Context {W X : Type} (ToLower : string -> string) (gjson : Heuristic.Gjson).
Context (fmtBudget : Z -> Z -> string) (fmtLag : Z -> string).
#[local] Abbreviation Context := (@Retry.Context W Response Payload (@Extra X)).
#[local] Abbreviation NextHandler := (@Retry.NextHandler W Response Payload (@Extra X)).
#[local] Abbreviation St := (@Stages.St W Response Payload X).
#[local] Abbreviation M := (StateM.M St).

(** [hasFlags]: the flag store is not nil.  [HeadLag] and [InvalidResult] are
    the recorders of [HeuristicOptions] that move the world. *)
Record Options := mkOptions {
  hasFlags : bool;
  CtxErr : W -> Retry.GoCtx -> option error;
  AttemptTimeout : option (W -> string -> Z);
  HeadLagFn : option (string -> string -> string -> Z -> bool -> W -> W);
  InvalidResultFn : option (string -> string -> string -> W -> W)
}.
Context (EffectiveTLDPlusOne : string -> option string) (env : @StageEnv W Payload) (o : Options).

#[local] Abbreviation read := (@Stages.read W Response Payload X env).
#[local] Abbreviation isEnabled := (@Stages.isEnabled W Response Payload X env).
#[local] Abbreviation pluginOf := (@Stages.pluginOf W Response Payload X env).
Definition touch (f : W -> W) : M unit :=
  λ s, (tt, set_world (Retry.pass (base env) (f (world s))) s).
(** [flags != nil && flags.IsEnabled(ctx.Ctx, flag, ctx.ServiceID)]. *)
Definition flagOn (flag : string) : M bool := if hasFlags o then isEnabled flag else mret false.
Definition whenOn (cond : bool) (flag : string) (f : AnalysisResult -> AnalysisResult)
    (v : AnalysisResult) : M AnalysisResult :=
  if cond then on ← flagOn flag; mret (if (on : bool) then f v else v) else mret v.

(** ** [heuristic.go] *)
Definition budget : M (Z * Z) :=
  c ← gets ctx;
  match AttemptTimeout o with
  | None => mret (0, 0)
  | Some f =>
      owed ← read (λ w, f w (Retry.ServiceID c));
      match Retry.Deadline (Retry.Ctx c) with
      | None => mret (owed, owed)
      | Some dl =>
          t ← Stages.now env;
          let left := GoTime.Sub dl t in
          mret (if bool_decide (left < owed) || bool_decide (owed <= 0) then left else owed, owed)
      end
  end.

Definition refineVerdict (v : AnalysisResult) : M (AnalysisResult * bool) :=
  c ← gets ctx;
  match Retry.Payloads c with
  | [] => mret (v, false)
  | p :: _ =>
      plugin ← pluginOf;
      match Retry.VerdictRefiner plugin with
      | None => mret (v, false)
      | Some f =>
          r ← read (λ w, Retry.refineVerdict f w (Retry.Endpoint c) p v);
          mret (match (r : option AnalysisResult) with Some v' => (v', true) | None => (v, false) end)
      end
  end.
Definition retryQuery5xx (v : AnalysisResult) : M (AnalysisResult * bool) :=
  if bool_decide (Reason v = ReasonQuery5xx) then
    on ← flagOn FeatureFlag.FlagQuery5xxRetry;
    mret (if (on : bool) then (with_retry v true, true) else (v, false))
  else mret (v, false).
Definition breakUpstream (v : AnalysisResult) : M AnalysisResult :=
  whenOn ((bool_decide (Reason v = "http_408") || bool_decide (Reason v = "upstream_5xx")) &&
          bool_decide (Attribution v = AttrSupplier)) FeatureFlag.FlagCircuitBreakUpstream with_break v.
Definition namedMethod : M bool :=
  m ← Stages.normalizedMethod env;
  mret (negb (bool_decide (m = "")) && negb (bool_decide (m = MethodOther))).

Definition set_answer (r : option Response) (v : option AnalysisResult) (e : option error) : M unit :=
  modify (set_ctx (λ c, Retry.with_Answer c r (Retry.Endpoint c) v e)).
Definition set_verdict (v : AnalysisResult) : M unit := modify (set_ctx (λ c, with_Verdict c (Some v))).
Definition set_err (e : option error) : M unit := modify (set_ctx (λ c, with_Err c e)).

(** An attempt that ended in an error. *)
Definition gradeFailure (e : error) (b : Z * Z) : M (option error) :=
  c ← gets ctx;
  ce ← read (λ w, CtxErr o w (Retry.Ctx c));
  let v := gradeTimeoutBudget fmtBudget (Heuristic.AnalyzeTransportError e ce) b.1 b.2 in
  r ← refineVerdict v;
  q ← (if (r : AnalysisResult * bool).2 then retryQuery5xx r.1 else mret (r.1, false));
  let '(v, retried) := (q : AnalysisResult * bool) in
  let refined := r.2 && negb retried in
  let answer := upstreamAnswer (Some e) in
  match (if bool_decide (Reason v = ReasonQuery5xx) && ShouldRetry v then answer else None) with
  | Some resp =>
      let err := Some (retryVerdict (Reason v)) in
      set_answer (Some resp) (Some v) err;; mret err
  | None =>
      match (if refined && negb (ShouldRetry v) then answer else None) with
      | Some resp => set_answer (Some resp) (Some v) None;; mret None
      | None =>
          let stopped := match e with
            | RelayError k m cause true =>
                if refined && negb (ShouldRetry v) then Some (NewRelayError k m cause false) else None
            | _ => None
            end in
          (match stopped with Some e' => set_err (Some e') | None => mret tt end);;
          v ← breakUpstream v;
          set_verdict v;;
          mret (Some (default e stopped))
      end
  end.

Definition observeHeadLag (resp : Response) : M (Z * bool) :=
  c ← gets ctx;
  match Retry.Payloads c with
  | [p] =>
      if negb (bool_decide (HTTPStatusCode resp = 200)) then mret (0, false)
      else
        plugin ← pluginOf;
        match Retry.HeadLagReader plugin with
        | None => mret (0, false)
        | Some f =>
            t ← Stages.now env;
            r ← read (λ w, f w p (Body resp) t);
            match (r : option (Z * bool)) with
            | None => mret (0, false)
            | Some (lag, stale) =>
                (match HeadLagFn o with
                 | Some g =>
                     own ← read (Retry.Owners (base env));
                     touch (g (Retry.ServiceID c)
                       (Domain.Party EffectiveTLDPlusOne own (Retry.Endpoint c)) (Message.Method p) lag stale)
                 | None => mret tt
                 end);;
                mret (lag, stale)
            end
        end
  | _ => mret (0, false)
  end.
(** [recordHead] and [recordArchival] differ in the interface and the flag. *)
Definition recordWith (iface : @Retry.PluginI W Payload -> option (EndpointAddr -> Payload -> string -> W -> W))
    (flag : string) (resp : Response) : M unit :=
  c ← gets ctx;
  match Retry.Payloads c with
  | [p] =>
      if negb (bool_decide (HTTPStatusCode resp = 200)) || bool_decide (Retry.Endpoint c = "") then mret tt
      else
        plugin ← pluginOf;
        match iface plugin with
        | None => mret tt
        | Some f =>
            on ← flagOn flag;
            if (on : bool) then touch (f (Retry.Endpoint c) p (Body resp)) else mret tt
        end
  | _ => mret tt
  end.
Definition recordHead : Response -> M unit := recordWith Retry.HeadRecorder FeatureFlag.FlagHeadAnswersHeight.
Definition recordArchival : Response -> M unit :=
  recordWith Retry.ArchivalRecorder FeatureFlag.FlagArchivalPerAttempt.

Definition invalidResult (resp : Response) : M (option string) :=
  c ← gets ctx;
  match Retry.Payloads c with
  | [p] =>
      plugin ← pluginOf;
      match Retry.ResultValidator plugin with
      | None => mret None
      | Some f =>
          match f p (Body resp), InvalidResultFn o with
          | Some detail, Some g =>
              own ← read (Retry.Owners (base env));
              touch (g (Retry.ServiceID c) (Domain.Party EffectiveTLDPlusOne own (Retry.Endpoint c)) (Message.Method p));;
              mret (Some detail)
          | r, _ => mret r
          end
      end
  | _ => mret None
  end.
Definition observeAttempt (resp : Response) : M unit :=
  c ← gets ctx;
  match Retry.Payloads c with
  | [] => mret tt
  | p :: _ =>
      plugin ← pluginOf;
      match Retry.DataExtractor plugin with
      | Some f => touch (f (Retry.Endpoint c) (Bytes p) (Body resp))
      | None => mret tt
      end
  end.

(** The analyzer's verdict and the per-service choices for REST. *)
Definition analyzeResponse (rpcType : string) (resp : Response) : AnalysisResult :=
  if bool_decide (rpcType = Heuristic.RPCTypeGRPC)
  then Heuristic.AnalyzeGRPC (Body resp) (GRPCStatus (Some resp))
  else Heuristic.Analyze ToLower gjson (Body resp) (HTTPStatusCode resp) rpcType.
Definition restBodies (rest : bool) (resp : Response) (v : AnalysisResult) : M AnalysisResult :=
  whenOn (rest && negb (IsSuccess v)) FeatureFlag.FlagRESTBodiesAsAnswers
    (λ v, default v (Heuristic.RESTBodyAnswer (Body resp) (HTTPStatusCode resp))) v.
Definition restDocuments (rest : bool) (resp : Response) (v : AnalysisResult) : M AnalysisResult :=
  whenOn (rest && negb (IsSuccess v)) FeatureFlag.FlagRESTDocumentsAsAnswers
    (λ _, Heuristic.RESTDocumentAnswer ToLower gjson (Body resp) (HTTPStatusCode resp)) v.
Definition retryNamed (v : AnalysisResult) : M AnalysisResult :=
  if bool_decide (Reason v = Heuristic.ReasonMethodNotFound) && negb (ShouldRetry v) then
    n ← namedMethod; mret (if (n : bool) then with_retry v true else v)
  else mret v.
Definition futureBlock (v : AnalysisResult) : M AnalysisResult :=
  whenOn (bool_decide (Reason v = ReasonFutureBlock)) FeatureFlag.FlagFutureBlockAnswers
    (λ v, with_retry v false) v.
Definition lightMethod (v : AnalysisResult) : M AnalysisResult :=
  c ← gets ctx;
  match Retry.Payloads c with
  | [p] =>
      if bool_decide (Reason v = "internal_error") || bool_decide (Reason v = "server_error") then
        plugin ← pluginOf;
        whenOn (bool_decide (methodClassOf plugin p = MethodClassLight))
          FeatureFlag.FlagLightMethodErrors LightMethodError v
      else mret v
  | _ => mret v
  end.
Definition spare408 (v : AnalysisResult) : M AnalysisResult :=
  if bool_decide (Reason v = "http_408") && hasFlags o then
    on ← isEnabled FeatureFlag.FlagPenalize408; mret (if (on : bool) then v else without_penalty v)
  else mret v.
Definition staleHead (lag : Z * bool) (v : AnalysisResult) : M AnalysisResult :=
  whenOn (lag.2 && IsSuccess v) FeatureFlag.FlagStaleResponse (λ _, StaleResponse fmtLag lag.1) v.
Definition checkResult (resp : Response) (v : AnalysisResult) : M AnalysisResult :=
  if IsSuccess v then
    d ← invalidResult resp;
    match (d : option string) with
    | Some detail => whenOn true FeatureFlag.FlagInvalidResult (λ _, InvalidResult detail) v
    | None => mret v
    end
  else mret v.
Definition block408 (v : AnalysisResult) : M AnalysisResult :=
  whenOn (bool_decide (Reason v = "http_408") && bool_decide (Attribution v = AttrSupplier))
    FeatureFlag.FlagMethodBlock408 with_blocking v.
Definition blockRefusal (v : AnalysisResult) : M AnalysisResult :=
  whenOn (bool_decide (Reason v = ReasonRefusedRecent)) FeatureFlag.FlagMethodBlockRefusal with_blocking v.

Definition gradeResponse (resp : Response) (lag : Z * bool) : M AnalysisResult :=
  c ← gets ctx;
  let rest := bool_decide (Retry.RPCType c = Heuristic.RPCTypeREST) in
  v ← restBodies rest resp (analyzeResponse (Retry.RPCType c) resp);
  v ← restDocuments rest resp v;
  v ← retryNamed v;
  r ← refineVerdict v;
  q ← retryQuery5xx (r : AnalysisResult * bool).1;
  v ← futureBlock (q : AnalysisResult * bool).1;
  v ← lightMethod v;
  v ← spare408 v;
  v ← staleHead lag v;
  v ← checkResult resp v;
  v ← breakUpstream v;
  v ← block408 v;
  blockRefusal v.

(** An attempt that ended without an error. *)
Definition gradeAnswer : M (option error) :=
  resp ← gets (λ s, Retry.Response (ctx s));
  lag ← match (resp : option Response) with
        | Some resp => l ← observeHeadLag resp; recordHead resp;; recordArchival resp;; mret l
        | None => mret (0, false)
        end;
  on ← (if hasFlags o then isEnabled FeatureFlag.FlagHeuristic else mret true);
  match (if (on : bool) then resp else None) with
  | None => mret None
  | Some resp =>
      v ← gradeResponse resp lag;
      set_verdict v;;
      (if ShouldRetry v && bool_decide (Attribution v = AttrBlockchain) then observeAttempt resp else mret tt);;
      if ShouldRetry v then
        let err := Some (retryVerdict (Reason v)) in set_err err;; mret err
      else mret None
  end.

(** A CometBFT node's error answer that arrived as its miner's 500. *)
Definition unwrapAnswer (err : option error) : M (option error) :=
  c ← gets ctx;
  match upstreamAnswer err with
  | Some resp =>
      if Heuristic.CometBFTErrorAnswer gjson (Retry.RPCType c) (HTTPStatusCode resp) (Body resp) then
        set_answer (Some resp) (Retry.HeuristicResult c) None;; mret None
      else mret err
  | None => mret err
  end.

Definition HeuristicStage (next : NextHandler) : M (option error) :=
  b ← budget;
  err ← callNext next;
  err ← unwrapAnswer err;
  match (err : option error) with
  | Some e => gradeFailure e b
  | None => gradeAnswer
  end.

(** ** [score.go] and [observe.go] *)

(** The reputation service, and the sink of a batch, which the context names. *)
Record Rep := mkRep {
  recordSignal : string -> EndpointAddr -> string -> ScoreSink.Signal -> W -> W;
  noter : option (string -> EndpointAddr -> string -> string -> string -> W -> W)
}.
Context (repSvc : option Rep) (sinkOf : X -> option nat)
  (sinkAdd : nat -> EndpointAddr -> string -> ScoreSink.Signal -> W -> W).
#[local] Abbreviation Signal := ScoreSink.Signal.

Definition scoringV2Enabled : M bool := flagOn FeatureFlag.FlagScoringV2.
Definition nobodysSignal (res : option AnalysisResult) (relayErr : option error) : bool :=
  match res with
  | None => false
  | Some v => bool_decide (Attribution v = AttrClient) &&
              (negb (bool_decide (relayErr = None)) || negb (IsSuccess v))
  end.
Definition isSuccessStatus (c : Context) : bool :=
  match Retry.Response c with
  | None => false
  | Some r => bool_decide (200 <= HTTPStatusCode r) && bool_decide (HTTPStatusCode r < 300)
  end.
Definition newSignal (t : ScoreSink.SignalType) (reason : string) (latency : Z) : M Signal :=
  n ← Stages.now env; mret (ScoreSink.NewSignal t reason latency n).
Definition signalType (severity : string) : ScoreSink.SignalType :=
  if bool_decide (severity = SeverityFatal) then ScoreSink.SignalFatalError
  else if bool_decide (severity = SeverityCritical) then ScoreSink.SignalCriticalError
  else if bool_decide (severity = SeverityMajor) then ScoreSink.SignalMajorError
  else ScoreSink.SignalMinorError.
Definition penaltySignal (v : AnalysisResult) (latency : Z) : M Signal :=
  sig ← newSignal (signalType (PenaltySeverity v))
          (if bool_decide (Reason v = "") then Details v else Reason v) latency;
  mret (if bool_decide (Reason v = "") then sig
        else ScoreSink.mkSignal (ScoreSink.Type_ sig) (ScoreSink.Timestamp sig) (ScoreSink.Latency sig)
               (ScoreSink.Reason sig) (ScoreSink.Probe sig) (ScoreSink.Leftover sig) (Details v)
               (ScoreSink.Class_ sig) (ScoreSink.Weight sig)).

(** [None] is the zero signal, which nobody records. *)
Definition signalFor (c : Context) (relayErr : option error) (latency : Z) : M (option Signal) :=
  let res := Retry.HeuristicResult c in
  if Is relayErr ErrEndpointsStale then mret None
  else if negb (bool_decide (relayErr = None)) &&
          default false ((λ v, bool_decide (Attribution v = AttrClient)) <$> res) then mret None
  else match res with
       | Some v =>
           if bool_decide (Attribution v = AttrBlockchain) && negb (ShouldPenalize v) then
             on ← flagOn FeatureFlag.FlagChainAnswersUnscored;
             if (on : bool) then mret None
             else sig ← newSignal ScoreSink.SignalSuccess (Reason v) latency; mret (Some sig)
           else if ShouldPenalize v then sig ← penaltySignal v latency; mret (Some sig)
           else if negb (bool_decide (relayErr = None)) then mret None
           else if negb (isSuccessStatus c) then
             sig ← newSignal ScoreSink.SignalMinorError "relay_error" latency; mret (Some sig)
           else sig ← newSignal ScoreSink.SignalSuccess "relay_ok" latency; mret (Some sig)
       | None =>
           match relayErr with
           | Some e => sig ← newSignal ScoreSink.SignalMinorError (Error e) latency; mret (Some sig)
           | None =>
               if negb (isSuccessStatus c) then
                 sig ← newSignal ScoreSink.SignalMinorError "relay_error" latency; mret (Some sig)
               else sig ← newSignal ScoreSink.SignalSuccess "relay_ok" latency; mret (Some sig)
           end
       end.

Definition buildSignal (relayErr : option error) (latency : Z) : M (option Signal) :=
  c ← gets ctx; signalFor c relayErr latency.

Definition report (rep : Rep) (sig : Signal) : M unit :=
  c ← gets ctx;
  touch (recordSignal rep (Retry.ServiceID c) (Retry.Endpoint c) (Retry.RPCType c) sig);;
  Stages.tell (RecordSignal (Retry.ServiceID c) (Retry.Endpoint c) (Retry.RPCType c) sig).
Definition addToSink (k : nat) (sig : Signal) : M unit :=
  c ← gets ctx;
  touch (sinkAdd k (Retry.Endpoint c) (Retry.RPCType c) sig);;
  Stages.tell (RecordSignal (Retry.ServiceID c) (Retry.Endpoint c) (Retry.RPCType c) sig).
Definition note (rep : Rep) (err : option error) : M unit :=
  c ← gets ctx;
  match noter rep, Retry.HeuristicResult c with
  | Some n, Some v =>
      if (negb (bool_decide (err = None)) || bool_decide (Attribution v = AttrBlockchain)) &&
         negb (Is err ErrEndpointsStale)
      then
        touch (n (Retry.ServiceID c) (Retry.Endpoint c) (Retry.RPCType c) (Reason v) (Details v));;
        Stages.tell (RecordNote (Retry.ServiceID c) (Retry.Endpoint c) (Retry.RPCType c) (Reason v) (Details v))
      else mret tt
  | _, _ => mret tt
  end.

(** The signal of one attempt, as [Score] sends it on. *)
Definition attemptSignal (c : Context) (sig : Signal) : Signal :=
  ScoreSink.mkSignal (ScoreSink.Type_ sig) (ScoreSink.Timestamp sig) (ScoreSink.Latency sig)
    (ScoreSink.Reason sig) (ScoreSink.Probe sig)
    (bool_decide (Retry.AttemptKind c = Retry.AttemptRetry) ||
     bool_decide (Retry.AttemptKind c = AttemptHedge))
    (ScoreSink.Detail sig) (requestClass c) (ScoreSink.Weight sig).
Definition scoreAttempt (rep : Rep) (start : Z) (err : option error) : M unit :=
  c ← gets ctx;
  if bool_decide (Retry.Endpoint c = "") then mret tt
  else if nobodysSignal (Retry.HeuristicResult c) err then mret tt
  else
    t ← Stages.now env;
    sig ← buildSignal err (GoTime.Sub t start);
    match (sig : option Signal) with
    | None => note rep err
    | Some sig =>
        let sig := attemptSignal c sig in
        match sinkOf (rest (Retry.others c)) with
        | Some k => addToSink k sig
        | None => report rep sig
        end
    end.

Definition Score (next : NextHandler) : M (option error) :=
  match repSvc with
  | None => callNext next
  | Some rep =>
      on ← scoringV2Enabled;
      if negb on then callNext next
      else
        start ← Stages.now env;
        err ← callNext next;
        scoreAttempt rep start err;;
        mret err
  end.

Record Observation := mkObservation {
  obsServiceID : string; obsEndpoint : EndpointAddr; ResponseBody : string; RequestBody : string
}.
Definition buildObservation (c : Context) : Observation :=
  mkObservation (Retry.ServiceID c) (Retry.Endpoint c)
    (match Retry.Response c with Some r => Body r | None => "" end)
    (match Retry.Payloads c with p :: _ => Bytes p | [] => "" end).

(** The traffic sampler and the observation queue, when wired. *)
Context (sampler : option (string -> list Payload -> W -> W)) (queue : option (Observation -> W -> W)).
Definition observeRequest (rep : Rep) (err : option error) (latency : Z) : M unit :=
  c ← gets ctx;
  (if bool_decide (Retry.Endpoint c = "") then mret tt
   else
     on ← scoringV2Enabled;
     if (on : bool) then mret tt
     else sig ← buildSignal err latency;
          match (sig : option Signal) with Some sig => report rep sig | None => mret tt end);;
  (match sampler, Retry.SelectEndpoints (Retry.Plugin c) with
   | Some f, Some _ =>
       on ← flagOn FeatureFlag.FlagRequestSampler;
       if (on : bool) then touch (f (Retry.ServiceID c) (Retry.Payloads c)) else mret tt
   | _, _ => mret tt
   end);;
  match queue with
  | Some submit =>
      on ← flagOn FeatureFlag.FlagObservationPipeline;
      if (on : bool) then touch (submit (buildObservation c)) else mret tt
  | None => mret tt
  end.
Definition Observe (rep : Rep) (next : NextHandler) : M (option error) :=
  start ← Stages.now env;
  err ← callNext next;
  t ← Stages.now env;
  observeRequest rep err (GoTime.Sub t start);;
  mret err.

(** ** What the stages leave alone *)
#[local] Abbreviation reads := (StateM.reads (@Stages.set_world W Response Payload X)).
#[local] Instance grade_world : WorldPut (@Stages.set_world W Response Payload X).
Proof. split; [intros s; exists (world s); by destruct s|done]. Qed.
#[local] Abbreviation reads_bind := (StateM.reads_bind (@Stages.set_world W Response Payload X)).
#[local] Abbreviation reads_ret := (StateM.reads_ret (@Stages.set_world W Response Payload X)).
#[local] Abbreviation reads_mono := (StateM.reads_mono (@Stages.set_world W Response Payload X)).

Lemma reads_touch f : reads (touch f) (λ _, True).
Proof. intros s. split; [done|]. by eexists. Qed.
Lemma reads_any {A} (f : W -> A) : reads (read f) (λ _, True).
Proof. intros s. split; [done|]. by eexists. Qed.
Lemma reads_flag flag : reads (isEnabled flag) (λ _, True).
Proof. unfold Stages.isEnabled. eapply reads_bind; [by apply (reads_gets _ _ (λ _, True))|]. intros c _. apply reads_any. Qed.
Lemma reads_flagOn flag : reads (flagOn flag) (λ _, True).
Proof. unfold flagOn. destruct (hasFlags o); [apply reads_flag|by apply reads_ret]. Qed.
Lemma reads_plugin : reads pluginOf (λ _, True).
Proof.
  unfold Stages.pluginOf. eapply reads_bind; [by apply (reads_gets _ _ (λ _, True))|]. intros c _.
  repeat case_match; try (by apply reads_ret). apply reads_any.
Qed.
Lemma reads_clock : reads (Stages.now env) (λ _, True).
Proof. apply reads_any. Qed.
Ltac grade_leaf := first [apply reads_touch | apply reads_any | apply reads_flag | apply reads_flagOn
  | apply reads_plugin | apply reads_clock].
Ltac solve_reads := StateM.solve_reads_with grade_leaf.

Lemma reads_whenOn cond flag f v : reads (whenOn cond flag f v) (λ v', v' = v \/ v' = f v).
Proof.
  unfold whenOn. destruct cond; [|apply reads_ret; auto].
  eapply reads_bind; [apply reads_flagOn|intros [] _; apply reads_ret; auto].
Qed.
(** A change of the verdict that keeps it fair. *)
Lemma fair_whenOn cond flag f v : fair v -> fair (f v) -> reads (whenOn cond flag f v) fair.
Proof. intros H1 H2. eapply reads_mono, reads_whenOn. by intros ? [-> | ->]. Qed.
Lemma fair_bind (m : M AnalysisResult) (f : AnalysisResult -> M AnalysisResult) :
  reads m fair -> (forall v, fair v -> reads (f v) fair) -> reads (m ≫= f) fair.
Proof. intros. by eapply reads_bind. Qed.
Lemma fair_refine v : fair v -> reads (refineVerdict v) (λ r, fair r.1).
Proof.
  intros Hv. unfold refineVerdict. eapply reads_bind; [by apply (reads_gets _ _ (λ _, True))|]. intros c _.
  destruct (Retry.Payloads c) as [|p ps]; [by apply reads_ret|].
  eapply reads_bind; [apply reads_plugin|]. intros plugin _.
  destruct (Retry.VerdictRefiner plugin) as [f|]; [|by apply reads_ret].
  eapply (reads_bind _ _ (λ r, forall v', r = Some v' -> fair v')).
  - intros s. split; [|by eexists]. simpl. intros v' H. by eapply Retry.refineVerdict_ok.
  - intros [v'|] H; apply reads_ret; simpl; auto.
Qed.
Lemma fair_query5xx v : fair v -> reads (retryQuery5xx v) (λ r, fair r.1).
Proof.
  intros Hv. unfold retryQuery5xx. destruct (bool_decide _); [|by apply reads_ret].
  eapply reads_bind; [apply reads_flagOn|]. by intros [] _; apply reads_ret.
Qed.

Lemma fair_named v : fair v -> reads (retryNamed v) fair.
Proof.
  intros Hv. unfold retryNamed. destruct (_ && _); [|by apply reads_ret]. unfold namedMethod.
  eapply (reads_bind _ _ (λ _, True)); [|by intros [] _; apply reads_ret].
  eapply reads_bind; [apply Stages.reads_normalizedMethod|intros m _; by apply reads_ret].
Qed.
Lemma fair_major c r d l : fair (supplierMajor c r d l).
Proof. by left. Qed.
Lemma fair_light v : fair v -> reads (lightMethod v) fair.
Proof.
  intros Hv. unfold lightMethod. eapply reads_bind; [by apply (reads_gets _ _ (λ _, True))|]. intros c _.
  destruct (Retry.Payloads c) as [|p [|]]; try by apply reads_ret.
  destruct (_ || _); [|by apply reads_ret]. eapply reads_bind; [apply reads_plugin|intros plugin _].
  apply fair_whenOn; [done|apply fair_major].
Qed.
Lemma fair_408 v : fair v -> reads (spare408 v) fair.
Proof.
  intros Hv. unfold spare408. destruct (_ && _); [|by apply reads_ret].
  eapply reads_bind; [apply reads_flag|]. by intros [] _; apply reads_ret.
Qed.
Lemma reads_invalid resp : reads (invalidResult resp) (λ _, True).
Proof.
  unfold invalidResult. eapply reads_bind; [by apply (reads_gets _ _ (λ _, True))|]. intros c _.
  destruct (Retry.Payloads c) as [|p [|]]; try by apply reads_ret.
  eapply reads_bind; [apply reads_plugin|intros plugin _].
  repeat case_match; solve_reads.
Qed.
Lemma fair_check resp v : fair v -> reads (checkResult resp v) fair.
Proof.
  intros Hv. unfold checkResult. destruct (IsSuccess v); [|by apply reads_ret].
  eapply reads_bind; [apply reads_invalid|]. intros [d|] _; [|by apply reads_ret].
  apply fair_whenOn; [done|apply fair_major].
Qed.
Lemma coherent_fair v : Heuristic.coherent v -> fair v.
Proof. intros H. exact (Heuristic.co_blame v H). Qed.
Lemma fair_analyze rpcType resp : fair (analyzeResponse rpcType resp).
Proof.
  unfold analyzeResponse. destruct (bool_decide _); apply coherent_fair.
  - apply Heuristic.coherent_AnalyzeGRPC.
  - apply Heuristic.coherent_analyze.
Qed.
Lemma fair_document resp : fair (Heuristic.RESTDocumentAnswer ToLower gjson (Body resp) (HTTPStatusCode resp)).
Proof. apply coherent_fair, Heuristic.coherent_analyze. Qed.
Lemma fair_body resp v : fair v -> fair (default v (Heuristic.RESTBodyAnswer (Body resp) (HTTPStatusCode resp))).
Proof. intros Hv. unfold Heuristic.RESTBodyAnswer. by destruct (_ || _). Qed.
Create HintDb grade.
#[local] Hint Resolve fair_analyze fair_document fair_body fair_major fair_named fair_light fair_408
  fair_check fair_refine fair_query5xx : grade.
Lemma fair_with_retry v b : fair v -> fair (with_retry v b).
Proof. exact id. Qed.
Lemma fair_with_break v : fair v -> fair (with_break v).
Proof. exact id. Qed.
Lemma fair_with_blocking v : fair v -> fair (with_blocking v).
Proof. exact id. Qed.
#[local] Hint Resolve fair_whenOn fair_with_retry fair_with_break fair_with_blocking : grade.

Lemma fair_response resp lag : reads (gradeResponse resp lag) fair.
Proof.
  unfold gradeResponse. eapply reads_bind; [by apply (reads_gets _ _ (λ _, True))|]. intros c _.
  unfold restBodies, restDocuments, futureBlock, staleHead, breakUpstream, block408, blockRefusal, StaleResponse.
  repeat first
    [ apply fair_bind; [solve [eauto 6 with grade]|intros ? ?]
    | eapply reads_bind; [first [apply fair_refine | apply fair_query5xx]; eassumption|intros ? ?] ].
  eauto 6 with grade.
Qed.

Lemma reads_lag resp : reads (observeHeadLag resp) (λ _, True).
Proof.
  unfold observeHeadLag. eapply reads_bind; [by apply (reads_gets _ _ (λ _, True))|]. intros c _.
  destruct (Retry.Payloads c) as [|p [|]]; try by apply reads_ret.
  destruct (negb _); [by apply reads_ret|]. eapply reads_bind; [apply reads_plugin|intros plugin _].
  destruct (Retry.HeadLagReader plugin); [|by apply reads_ret].
  eapply reads_bind; [apply reads_clock|intros t _]. eapply reads_bind; [apply reads_any|].
  intros [[lag stale]|] _; solve_reads.
Qed.
Lemma reads_record iface flag resp : reads (recordWith iface flag resp) (λ _, True).
Proof.
  unfold recordWith. eapply reads_bind; [by apply (reads_gets _ _ (λ _, True))|]. intros c _.
  destruct (Retry.Payloads c) as [|p [|]]; try by apply reads_ret.
  destruct (_ || _); [by apply reads_ret|]. eapply reads_bind; [apply reads_plugin|intros plugin _].
  solve_reads.
Qed.
Lemma reads_observeAttempt resp : reads (observeAttempt resp) (λ _, True).
Proof.
  unfold observeAttempt. eapply reads_bind; [by apply (reads_gets _ _ (λ _, True))|]. intros c _.
  destruct (Retry.Payloads c) as [|p ps]; [by apply reads_ret|]. solve_reads.
Qed.
Lemma reads_budget : reads budget (λ _, True).
Proof.
  unfold budget. eapply reads_bind; [by apply (reads_gets _ _ (λ _, True))|]. intros c _.
  destruct (AttemptTimeout o); [|by apply reads_ret]. eapply reads_bind; [apply reads_any|intros owed _].
  destruct (Retry.Deadline _); [|by apply reads_ret]. solve_reads.
Qed.

(** How the stage may leave an attempt whose inner stages ended with [e] and the
    context [c]. *)
Inductive graded (e : option error) (c : Context) : option error -> Context -> Prop :=
  | Ungraded : e = None -> graded e c None c
  | Answered v resp : e = None -> Retry.Response c = Some resp -> fair v -> ShouldRetry v = false ->
      graded e c None (with_Verdict c (Some v))
  | SentBack v resp : e = None -> Retry.Response c = Some resp -> fair v -> ShouldRetry v = true ->
      graded e c (Some (retryVerdict (Reason v)))
        (with_Err (with_Verdict c (Some v)) (Some (retryVerdict (Reason v))))
  | Failed e0 e1 err v : e = Some e0 -> fair v -> err = Retry.Err c \/ err = Some e1 ->
      (forall x, Is (Some e1) x = Is (Some e0) x) ->
      graded e c (Some e1) (with_Verdict (with_Err c err) (Some v))
  | Delivered e0 v resp err : e = Some e0 -> upstreamAnswer e = Some resp -> fair v ->
      err = (if ShouldRetry v then Some (retryVerdict (Reason v)) else None) ->
      graded e c err (Retry.with_Answer c (Some resp) (Retry.Endpoint c) (Some v) err).

Lemma fair_budget r have owed : fair r -> fair (gradeTimeoutBudget fmtBudget r have owed).
Proof. intros Hr. unfold gradeTimeoutBudget. by repeat case_match. Qed.
Lemma fair_transport e ce : fair (Heuristic.AnalyzeTransportError e ce).
Proof. apply coherent_fair, Heuristic.coherent_transport. Qed.
#[local] Hint Resolve fair_budget fair_transport : grade.

Lemma failure_spec e b s :
  wp (gradeFailure e b) (λ err s', told s' = told s /\ graded (Some e) (ctx s) err (ctx s')) s.
Proof.
  unfold gradeFailure. wp_pure. apply wp_bind. eapply (wp_reads _ _ (λ _, True)); [apply reads_any|]. intros ce w _.
  apply wp_bind. eapply wp_reads; [apply fair_refine; eauto with grade|]. intros [v refined] w1 Hv.
  apply wp_bind. eapply (wp_reads _ _ (λ r, fair r.1)).
  { destruct refined; [by apply fair_query5xx|by apply reads_ret]. }
  intros [v' retried] w2 Hv'. simpl in *.
  destruct (if bool_decide (Reason v' = ReasonQuery5xx) && ShouldRetry v' then _ else _) as [resp|] eqn:E1.
  { wp_pure. split; [done|]. destruct (ShouldRetry v') eqn:Er; rewrite ?andb_false_r in E1; [|done].
    destruct (bool_decide _); [|done]. eapply Delivered; [done|exact E1|done|by rewrite Er]. }
  destruct (if (refined && negb retried) && negb (ShouldRetry v') then _ else _) as [resp|] eqn:E2.
  { wp_pure. split; [done|]. destruct (ShouldRetry v') eqn:Er; rewrite ?andb_false_r in E2; [done|].
    destruct refined, retried; try done. eapply Delivered; [done|exact E2|done|by rewrite Er]. }
  apply wp_bind. set (stopped := match e with RelayError _ _ _ true => _ | _ => _ end).
  assert (forall st : St, told st = told s -> ctx st = ctx s \/ (exists e', stopped = Some e' /\ ctx st = with_Err (ctx s) (Some e')) ->
    wp (v0 ← breakUpstream v'; set_verdict v0;; mret (Some (default e stopped)))
      (λ err s', told s' = told s /\ graded (Some e) (ctx s) err (ctx s')) st) as Hend.
  { intros st Ht Hc. apply wp_bind. eapply wp_reads; [unfold breakUpstream; by apply fair_whenOn|]. intros v0 w3 Hv0.
    assert (forall x, Is (Some (default e stopped)) x = Is (Some e) x) as Hsame.
    { intros x. unfold stopped. clear. destruct e as [|? ? ? []| | | | |]; try done. by destruct (_ && _). }
    wp_pure. split; [done|]. simpl. destruct Hc as [-> | (e' & He' & ->)].
    - replace (ctx s) with (with_Err (ctx s) (Retry.Err (ctx s))) at 2 by (by destruct (ctx s)).
      eapply Failed; auto.
    - rewrite He' in *. simpl. eapply Failed; auto. }
  destruct stopped as [e'|] eqn:Es; (unfold wp at 1; simpl; apply Hend; [done|]); [right; by exists e'|by left].
Qed.
Lemma answer_spec s :
  wp gradeAnswer (λ err s', told s' = told s /\ graded None (ctx s) err (ctx s')) s.
Proof.
  unfold gradeAnswer. wp_pure. apply wp_bind.
  eapply (wp_reads _ _ (λ _, True)).
  { destruct (Retry.Response (ctx s)); [|by apply reads_ret]. unfold recordHead, recordArchival.
    eapply reads_bind; [apply reads_lag|intros l _]. eapply reads_bind; [apply reads_record|intros _ _].
    eapply reads_bind; [apply reads_record|intros _ _]. by apply reads_ret. }
  intros lag w _. apply wp_bind. eapply (wp_reads _ _ (λ _, True)).
  { destruct (hasFlags o); [apply reads_flag|by apply reads_ret]. }
  intros on w1 _. destruct (if on then _ else _) as [resp|] eqn:E; [|unfold wp; simpl; split; [done|by constructor]].
  destruct on; [|done]. apply wp_bind. eapply wp_reads; [apply fair_response|]. intros v w2 Hv. wp_pure.
  apply wp_bind. eapply (wp_reads _ _ (λ _, True)).
  { destruct (_ && _); [apply reads_observeAttempt|by apply reads_ret]. }
  intros _ w3 _. destruct (ShouldRetry v) eqn:Er.
  - wp_pure. split; [done|]. by eapply SentBack.
  - unfold wp. simpl. split; [done|]. by eapply Answered.
Qed.

(** What the miner's 500 that was a CometBFT node's answer becomes. *)
Definition unwrapped (e0 : option error) (c1 : Context) (e : option error) (c : Context) : Prop :=
  (e = e0 /\ c = c1) \/
  exists resp, upstreamAnswer e0 = Some resp /\ e = None /\
    c = Retry.with_Answer c1 (Some resp) (Retry.Endpoint c1) (Retry.HeuristicResult c1) None.

Lemma stage_spec next s :
  wp (HeuristicStage next) (λ err s', exists w e0 c1 w1 e c,
    next (ctx s) w = (e0, c1, w1) /\ unwrapped e0 c1 e c /\ told s' = told s /\ graded e c err (ctx s')) s.
Proof.
  unfold HeuristicStage. apply wp_bind. eapply (wp_reads _ _ (λ _, True)); [apply reads_budget|]. intros b w _.
  apply wp_bind. unfold wp at 1, callNext. simpl. destruct (next (ctx s) w) as [[e0 c1] w1] eqn:En. simpl.
  assert (forall e st, told st = told s -> unwrapped e0 c1 e (ctx st) ->
    wp (match e with Some e => gradeFailure e b | None => gradeAnswer end)
      (λ err s', exists w e0 c1 w1 e c,
        next (ctx s) w = (e0, c1, w1) /\ unwrapped e0 c1 e c /\ told s' = told s /\ graded e c err (ctx s')) st) as Hgrade.
  { intros e st Ht Hu. eapply wp_mono;
      [|destruct e as [e|]; [apply (failure_spec e b st)|apply (answer_spec st)]];
      (intros err s' [Ht' Hg]; exists w, e0, c1, w1; eexists _, (ctx st); split_and!; [done|exact Hu|congruence|exact Hg]). }
  apply wp_bind. unfold unwrapAnswer. wp_pure.
  destruct (upstreamAnswer e0) as [resp|] eqn:Eu; [|apply (Hgrade e0); [done|by left]].
  destruct (Heuristic.CometBFTErrorAnswer _ _ _ _) eqn:Ec; [|apply (Hgrade e0); [done|by left]].
  wp_pure. unfold wp at 1. simpl. apply (Hgrade None); [done|]. right. by exists resp.
Qed.

(** The stages inside leave the verdict to this one. *)
Class KeepsVerdict (next : NextHandler) : Prop :=
  keeps_verdict c w err c' w' : next c w = (err, c', w') -> Retry.HeuristicResult c' = Retry.HeuristicResult c.
Lemma stage_fair next `{!KeepsVerdict next} s :
  (forall v, Retry.HeuristicResult (ctx s) = Some v -> fair v) ->
  forall v, Retry.HeuristicResult (ctx (HeuristicStage next s).2) = Some v -> fair v.
Proof.
  intros H0 v. pose proof (stage_spec next s) as Hs. unfold wp in Hs. destruct Hs as (w & e0 & c1 & w1 & e & c & Hn & Hu & _ & Hg).
  pose proof (keeps_verdict _ _ _ _ _ Hn) as Hk.
  destruct Hg as [He|v' resp ? ? Hf|v' resp ? ? Hf|e' e1 err v' ? Hf ? ?|e' v' resp err ? ? Hf]; simpl; try (by intros [= <-]).
  destruct Hu as [[_ ->]|(resp & _ & _ & ->)]; simpl; rewrite Hk; apply H0.
Qed.

(** ** Who is charged *)
Definition charge (c : Context) (err : option error) (sig : Signal) : Prop :=
  ScoreSink.Type_ sig = ScoreSink.SignalSuccess \/
  match Retry.HeuristicResult c with
  | None => ScoreSink.Type_ sig = ScoreSink.SignalMinorError
  | Some v =>
      (ShouldPenalize v = true /\ ScoreSink.Type_ sig = signalType (PenaltySeverity v)) \/
      (ScoreSink.Type_ sig = ScoreSink.SignalMinorError /\ err = None /\ ShouldPenalize v = false /\
       Attribution v <> AttrBlockchain /\ isSuccessStatus c = false)
  end.
Lemma reads_newSignal t r l : reads (newSignal t r l) (λ sig, ScoreSink.Type_ sig = t).
Proof. unfold newSignal. eapply reads_bind; [apply reads_clock|intros n _]. by apply reads_ret. Qed.
Lemma reads_penalty v l :
  reads (penaltySignal v l) (λ sig, ScoreSink.Type_ sig = signalType (PenaltySeverity v)).
Proof.
  unfold penaltySignal. eapply reads_bind; [apply reads_newSignal|intros sig Hs]. apply reads_ret.
  by destruct (bool_decide _).
Qed.
Lemma reads_some {A} (m : M A) (R : A -> Prop) (R' : option A -> Prop) :
  reads m R -> (forall a, R a -> R' (Some a)) -> reads (a ← m; mret (Some a)) R'.
Proof. intros Hm HR. eapply reads_bind; [exact Hm|intros a Ha]. by apply reads_ret, HR. Qed.

Lemma reads_signalFor c err latency :
  reads (signalFor c err latency) (λ r, forall sig, r = Some sig -> charge c err sig).
Proof.
  unfold signalFor.
  destruct (Is err ErrEndpointsStale); [by apply reads_ret|]. destruct (negb _ && _); [by apply reads_ret|].
  unfold charge. destruct (Retry.HeuristicResult c) as [v|].
  - destruct (bool_decide (Attribution v = AttrBlockchain) && negb (ShouldPenalize v)) eqn:Eb.
    { eapply reads_bind; [apply reads_flagOn|]. intros [] _; [by apply reads_ret|].
      eapply reads_some; [apply reads_newSignal|]. intros a Ha sig [= <-]. by left. }
    destruct (ShouldPenalize v) eqn:Ep.
    { eapply reads_some; [apply reads_penalty|]. intros a Ha sig [= <-]. auto. }
    rewrite andb_true_r in Eb. apply bool_decide_eq_false in Eb.
    destruct (bool_decide (err = None)) eqn:Ee; [|by apply reads_ret]. apply bool_decide_eq_true in Ee. simpl.
    destruct (isSuccessStatus c) eqn:Es; simpl;
      (eapply reads_some; [apply reads_newSignal|]; intros a Ha sig [= <-]; auto 10).
  - destruct err as [e|]; [|destruct (isSuccessStatus c); simpl];
      (eapply reads_some; [apply reads_newSignal|]; intros a Ha sig [= <-]; auto).
Qed.

Definition isSignal (e : Stages.event) : bool := match e with RecordSignal _ _ _ _ => true | _ => false end.
(** What scoring an attempt adds to the record. *)
Definition scored (s : St) (err : option error) (s' : St) : Prop :=
  ctx s' = ctx s /\ exists l, told s' = told s ++ l /\ (length (filter isSignal l) <= 1)%nat /\
    forall svc ep rpc sig, RecordSignal svc ep rpc sig ∈ l ->
      svc = Retry.ServiceID (ctx s) /\ ep = Retry.Endpoint (ctx s) /\ rpc = Retry.RPCType (ctx s) /\
      ep <> "" /\ nobodysSignal (Retry.HeuristicResult (ctx s)) err = false /\ charge (ctx s) err sig.
Lemma scored_nothing s err l w :
  (forall e, e ∈ l -> isSignal e = false) -> scored s err (mkSt (ctx s) w (told s ++ l)).
Proof.
  intros Hl. split; [done|]. exists l. split_and!; [done| |].
  - replace (filter isSignal l) with (@nil Stages.event); [simpl; lia|]. symmetry.
    induction l as [|e l IH]; [done|]. rewrite filter_cons, decide_False.
    + apply IH. intros e' ?. apply Hl. by right.
    + rewrite (Hl e); [by intros []|by left].
  - intros * Hin%Hl. done.
Qed.
Lemma scored_same s err w : scored s err (set_world w s).
Proof.
  unfold set_world. rewrite <- (app_nil_r (told s)). apply scored_nothing. by intros e []%elem_of_nil.
Qed.
Lemma scoreAttempt_spec rep start err s : wp (scoreAttempt rep start err) (λ _, scored s err) s.
Proof.
  unfold scoreAttempt. wp_pure.
  assert (scored s err s) as Hsame by (pose proof (scored_same s err (world s)); by destruct s).
  case_bool_decide as He; [exact Hsame|]. destruct (nobodysSignal _ _) eqn:Enb; [exact Hsame|].
  apply wp_bind. eapply (wp_reads _ _ (λ _, True)); [apply reads_clock|]. intros t w _.
  apply wp_bind. unfold buildSignal. wp_pure.
  eapply wp_reads; [apply reads_signalFor|]. intros [sig|] w2 Hc; simpl in Hc.
  - specialize (Hc sig eq_refl).
    assert (charge (ctx s) err (attemptSignal (ctx s) sig)) as Hc'.
    { unfold charge in *. by destruct (Retry.HeuristicResult (ctx s)). }
    destruct (sinkOf _); (unfold wp; simpl; split; [done|]; eexists; split; [reflexivity|]; split; [simpl; lia|];
      intros * Hin%list_elem_of_singleton; injection Hin as -> -> -> ->; done).
  - unfold note. wp_pure. destruct (noter rep), (Retry.HeuristicResult (ctx s)); try exact (scored_same s err w2).
    destruct (_ && _); [|exact (scored_same s err w2)].
    unfold wp. simpl. apply scored_nothing. by intros e ->%list_elem_of_singleton.
Qed.

(** C2. The innocent are not charged.  Over every inner stage, plugin, flag
    setting and world, an attempt leaves at most one signal, for the endpoint
    that served it.  A client's own mistake leaves none.  A chain's answer
    leaves a success or nothing.  Any other signal than a success follows a
    verdict that penalizes, with its severity, for the supplier's fault or
    lightly for nobody's; or the attempt passed with a status that is not 2xx;
    or it was not graded. *)
Theorem only_faults_are_charged next `{!KeepsVerdict next} rep s :
  repSvc = Some rep -> told s = [] -> (forall v, Retry.HeuristicResult (ctx s) = Some v -> fair v) ->
  let s' := (Score (Stages.handler (HeuristicStage next)) s).2 in
  (length (filter isSignal (told s')) <= 1)%nat /\
  forall svc ep rpc sig, RecordSignal svc ep rpc sig ∈ told s' ->
    ep = Retry.Endpoint (ctx s') /\ ep <> "" /\
    forall v, Retry.HeuristicResult (ctx s') = Some v ->
      (Attribution v = AttrClient -> IsSuccess v = true) /\
      (Attribution v = AttrBlockchain -> ScoreSink.Type_ sig = ScoreSink.SignalSuccess) /\
      (ScoreSink.Type_ sig = ScoreSink.SignalSuccess \/
       (ShouldPenalize v = true /\ ScoreSink.Type_ sig = signalType (PenaltySeverity v) /\
        (Attribution v = AttrSupplier \/
         (Attribution v = AttrUnknown /\ PenaltySeverity v = SeverityMinor))) \/
       (ScoreSink.Type_ sig = ScoreSink.SignalMinorError /\ ShouldPenalize v = false /\
        isSuccessStatus (ctx s') = false)).
Proof.
  intros Hrep Ht Hv. unfold Score. rewrite Hrep.
  match goal with |- context [(?m s).2] =>
    pattern (m s).2; match goal with |- ?P _ => change (wp m (λ _, P) s) end end.
  apply wp_bind. eapply (wp_reads _ _ (λ _, True)); [apply reads_flagOn|]. intros on w _.
  assert (forall st, ctx st = ctx s -> told st = [] ->
    wp (callNext (Stages.handler (HeuristicStage next))) (λ _ s', told s' = [] /\
      forall v, Retry.HeuristicResult (ctx s') = Some v -> fair v) st) as Hin.
  { intros st Hc Hst. unfold wp, callNext, Stages.handler.
    rewrite Hc. pose proof (stage_fair next (mkSt (ctx s) (world st) []) Hv) as Hf.
    by destruct (HeuristicStage next _) as [err s1]. }
  destruct (negb on).
  { eapply wp_mono; [|by apply Hin]. intros _ s' [-> _]. split; [simpl; lia|]. intros * []%elem_of_nil. }
  apply wp_bind. eapply (wp_reads _ _ (λ _, True)); [apply reads_clock|]. intros start w1 _.
  apply wp_bind. eapply wp_mono; [|by apply Hin]. intros err s1 [Ht1 Hf1].
  apply wp_bind. eapply wp_mono; [|apply scoreAttempt_spec]. intros _ s2 (Hctx & l & Hl & Hlen & Hsig).
  unfold wp. simpl. rewrite Hl, Ht1. split; [done|]. intros svc ep rpc sig Hin'.
  rewrite Hctx. destruct (Hsig _ _ _ _ Hin') as (_ & He & _ & Hne & Hnb & Hch). split_and!; [done..|].
  intros v Ev. pose proof (Hf1 v Ev) as Hfair. unfold charge, nobodysSignal in *. rewrite Ev in Hnb, Hch.
  split_and!.
  - intros Ha. rewrite (bool_decide_eq_true_2 _ Ha) in Hnb. simpl in Hnb.
    apply orb_false_iff in Hnb as [_ Hnb]. by apply negb_false_iff in Hnb.
  - intros Ha. destruct Hch as [?|[[Hp _]|(_ & _ & _ & Hno & _)]]; [done| |done].
    destruct (Hfair Hp) as [?|[? _]]; congruence.
  - destruct Hch as [?|[[Hp ?]|(? & _ & ? & _ & ?)]]; auto 10.
Qed.

(** Grading loses no answer and makes up no failure.  A response the inner
    stages brought back is still there afterwards, whatever the verdict; an
    error of theirs disappears only when it carried a node's whole answer, which
    is then the response; and the error that asks for another attempt is
    retryable, comes with a verdict that says so, and leaves the response to be
    delivered if no attempt does better. *)
Theorem graded_answers_are_kept next s :
  let r := HeuristicStage next s in
  exists w e0 c1 w1, next (ctx s) w = (e0, c1, w1) /\
    (e0 = None -> Retry.Response (ctx r.2) = Retry.Response c1) /\
    (r.1 = None -> e0 = None \/
       exists resp, upstreamAnswer e0 = Some resp /\ Retry.Response (ctx r.2) = Some resp) /\
    (Is r.1 ErrRetryVerdict = true -> Is e0 ErrRetryVerdict = true \/
       (IsRetryable r.1 = true /\ is_Some (Retry.Response (ctx r.2)) /\
        exists v, Retry.HeuristicResult (ctx r.2) = Some v /\ ShouldRetry v = true)).
Proof.
  intros r. destruct (stage_spec next s) as (w & e0 & c1 & w1 & e & c & Hn & Hu & _ & Hg). fold r in Hg.
  exists w, e0, c1, w1. split; [done|]. remember r.1 as err eqn:Er. remember (ctx r.2) as c' eqn:Ec. clear Er Ec.
  assert (e0 = None -> e = None /\ Retry.Response c = Retry.Response c1) as Hnone.
  { intros ->. destruct Hu as [[-> ->]|(resp & [=] & _)]. done. }
  assert (e = None -> e0 = None \/ exists resp, upstreamAnswer e0 = Some resp /\ Retry.Response c = Some resp) as Hok.
  { intros ->. destruct Hu as [[<- _]|(resp & H & _ & ->)]; [by left|right; by exists resp]. }
  assert (forall x, e = Some x -> e0 = Some x) as Hsome.
  { intros x ->. by destruct Hu as [[<- _]|(resp & _ & [=] & _)]. }
  destruct Hg as [He|v resp He Hr _ Hv|v resp He Hr _ Hv|x e1 err v He _ _ Hs|x v resp err He Ha _ ->]; simpl.
  - split_and!; [by intros []%Hnone|by intros _; apply Hok|done].
  - split_and!; [by intros []%Hnone|by intros _; apply Hok|done].
  - split_and!; [by intros []%Hnone|done|]. intros _. right. split_and!; [done|by rewrite Hr|by exists v].
  - rewrite (Hsome x He). split_and!; [done|done|]. intros H. left. by rewrite <- Hs.
  - rewrite (Hsome x He) in *. rewrite He in Ha. split_and!; [done|right; by exists resp|].
    destruct (ShouldRetry v) eqn:Er; [|done]. intros _. right. split_and!; [done|by eexists|by exists v].
Qed.

(** The relay itself leaves the verdict alone. *)
#[export] Instance sendRelay_keepsVerdict send : KeepsVerdict (Stages.handler (Stages.SendRelay send)).
Proof.
  assert (forall ps (s : St), Retry.HeuristicResult (ctx (Stages.sendAll send ps s).2) =
                       Retry.HeuristicResult (ctx s)) as H.
  { induction ps as [|p ps IH]; intros s; simpl; [done|].
    destruct (send _ _ _ _ _) as [[e|resp] w]; [done|]. rewrite IH. simpl. by destruct (Retry.Response _). }
  intros c w err c' w' Hh. unfold Stages.handler, Stages.SendRelay, mbind, M_bind, gets in Hh. simpl in Hh.
  specialize (H (Retry.Payloads c) (mkSt c w [])). destruct (Stages.sendAll _ _ _) as [e s]. by injection Hh as _ <- _.
Qed.
End Grade.

(** ** Concrete runs: one endpoint, every flag at its default *)
Definition demoBase : @Retry.Env unit :=
  Retry.mkEnv id (λ _, 0) (λ _ _, false)
    (λ _ flag _, FeatureFlag.defaultOf flag) (λ _, Domain.emptyOwners) None None None false.
Definition demoEnv : @StageEnv unit Payload :=
  mkStageEnv demoBase (λ w _ _ _ _, ("", w)) None None id None Message.Method false false.
Definition demoOptions : @Options unit := mkOptions true (λ _ _, None) None None None.
Definition demoRep : @Rep unit := mkRep (λ _ _ _ _ w, w) None.
Definition demoGjson : Heuristic.Gjson :=
  Heuristic.mkGjson unit Json.Valid (λ _, tt) (λ _ _, tt) (λ _, false) (λ _, Heuristic.JSON) (λ _, 0)
    (λ _, "") (λ _, "") (λ _, []).
Definition demoCtx (rpcType : string) : @Retry.Context unit Response Payload (@Extra unit) :=
  Retry.mkContext (Retry.mkGoCtx None) "eth" rpcType Retry.noPlugin [NewPayload "" rpcType "eth_call"]
    "sup-https://a.example" [] [] None None None false ""
    (mkExtra 1 None false false false None None tt).
Definition demoSend (r : error + Response) : @SendFn unit Response Payload := λ w _ _ _ _, (r, w).
Definition demoScore (rpcType : string) (r : error + Response) :=
  Score demoEnv demoOptions (Some demoRep) (λ _ : unit, None) (λ _ _ _ _ w, w)
    (Stages.handler (HeuristicStage GoText.ToLower demoGjson (λ _ _, "") (λ _, "") (λ h, Some h) demoEnv
       demoOptions (Stages.handler (Stages.SendRelay (demoSend r)))))
    (mkSt (demoCtx rpcType) tt []).
Definition charges (l : list Stages.event) : list (string * string) :=
  omap (λ e, match e with RecordSignal _ _ _ sig => Some (ScoreSink.Type_ sig, ScoreSink.Reason sig) | _ => None end) l.

(** A 304 is defined to carry no body, and an empty one is the endpoint
    behaving correctly: the verdict is the passing one.  It is still recorded
    as a minor error of the endpoint, since its status is not 2xx. *)
Theorem not_modified_is_charged :
  let '(err, s) := demoScore "rest" (inr (plainResponse "" 304)) in
  err = None /\ Retry.HeuristicResult (ctx s) = Some successResult /\
  charges (told s) = [(ScoreSink.SignalMinorError, "relay_error")].
Proof. vm_compute. auto. Qed.

(** A failure attributed to nobody is charged to the endpoint as a minor
    error. *)
Theorem unattributed_failures_are_charged :
  let '(err, s) := demoScore "json_rpc" (inl (OtherError "session fetch failed" None)) in
  (Attribution <$> Retry.HeuristicResult (ctx s)) = Some AttrUnknown /\
  charges (told s) = [(ScoreSink.SignalMinorError, "transport_error")].
Proof. vm_compute. auto. Qed.

Definition overServed : Response :=
  plainResponse "session relay limit reached: claimable portion fully consumed" 429.
(** An over-serviced relay: retried, and nobody is charged. *)
Lemma only_faults_are_charged_witness :
  let s := (demoScore "json_rpc" (inr overServed)).2 in
  charges (told s) = [] /\ (length (filter isSignal (told s)) <= 1)%nat.
Proof.
  split; [vm_compute; reflexivity|].
  apply (only_faults_are_charged GoText.ToLower demoGjson (λ _ _, "") (λ _, "") (λ h, Some h) demoEnv
           demoOptions (Some demoRep) (λ _ : unit, None) (λ _ _ _ _ w, w)
           (Stages.handler (Stages.SendRelay (demoSend (inr overServed)))) demoRep
           (mkSt (demoCtx "json_rpc") tt [])); [reflexivity|reflexivity|].
  intros v [=].
Defined.
End Grade.
