(* ===== verification/Hedge.v ===== *)
(** * Hedge: racing a slow relay against a second one

    Models [relay/middleware/hedge.go] with [HedgesBatchOf] of
    [config/service.go].  A race is a state machine: the goroutine that waits,
    at one of its four [select] statements or returned, and the arms it has
    started, each running the stages below on a clone of the request.

    The waiting goroutine's code between two [select]s is a program over the
    state of the race ([onPrimary], [onTimer], ...); [select] runs the case it
    is told to, when that case is there and ready.  [elsewhere] is a step of an
    arm, or of anything else that moves the world, and [reach] interleaves them.  An arm is one run
    of the handler [next] on its clone, at some world: it may publish its pick
    any time before it sends its result.  A panic of an arm is an error it ends
    with ([safego.Call]).

    [context.Context] is its deadline; [CtxErr] is what its [Err] says, [None]
    while it is not done. *)

From stdpp Require Import strings.
From S2P Require Import Prelude Float64 Domain StateM RelayErrors FeatureFlag RepSelector Retry Stages.
Import Domain RelayErrors Stages.

Module Hedge.

Definition DefaultHedgeMaxBatchSize : Z := 10.
Definition HedgesBatchOf (c : Retry.RetryConfig) (n : Z) : bool :=
  let limit := Retry.cmpOr (Retry.HedgeMaxBatchSize c) DefaultHedgeMaxBatchSize in
  bool_decide (limit < 0) || bool_decide (n <= limit).

Fixpoint joinHosts (hosts : list string) : string :=
  match hosts with
  | [] => ""
  | [h] => h
  | h :: hosts => h +:+ ", " +:+ joinHosts hosts
  end.

Section Hedge.
Context {W Resp Payload X : Type} (EffectiveTLDPlusOne : string -> option string).
#[local] Abbreviation Context := (@Retry.Context W Resp Payload (@Extra X)).
#[local] Abbreviation NextHandler := (@Retry.NextHandler W Resp Payload (@Extra X)).

Context (env : @Retry.Env W) (next : NextHandler) (CtxErr : W -> Retry.GoCtx -> option error).

(** ** The state of a race

    [launched] and [heard] are history, kept for the theorems: the context of
    each arm started and each result received, in order. *)
Record hedgeResult := mkResult { err : option error; rctx : Context }.
(** [slot] is the atomic pointer the arm publishes its pick in. *)
Record Arm := mkArm { actx : Context; slot : option EndpointAddr; running : bool }.
Inductive PC :=
  | Waiting | Suppressed (primary : EndpointAddr) | Racing | WaitingRuledOut
  | Returned (ret : option error).
Record Race := mkRace {
  ctx : Context; world : W; pc : PC;
  primary : Arm; hedge : Arm;
  primaryCh : option hedgeResult; hedgeCh : option hedgeResult;
  primaryRes : option hedgeResult; hedgeRes : option hedgeResult;
  hedgeDone : bool; rehedged : bool;
  recorded : list string; launched : list Context; heard : list hedgeResult
}.

Definition set_ctx (f : Context -> Context) (r : Race) : Race :=
  mkRace (f (ctx r)) (world r) (pc r) (primary r) (hedge r) (primaryCh r) (hedgeCh r) (primaryRes r)
    (hedgeRes r) (hedgeDone r) (rehedged r) (recorded r) (launched r) (heard r).
Definition set_world (w : W) (r : Race) : Race :=
  mkRace (ctx r) w (pc r) (primary r) (hedge r) (primaryCh r) (hedgeCh r) (primaryRes r)
    (hedgeRes r) (hedgeDone r) (rehedged r) (recorded r) (launched r) (heard r).
Definition set_pc (p : PC) (r : Race) : Race :=
  mkRace (ctx r) (world r) p (primary r) (hedge r) (primaryCh r) (hedgeCh r) (primaryRes r)
    (hedgeRes r) (hedgeDone r) (rehedged r) (recorded r) (launched r) (heard r).
Definition set_primary (a : Arm) (ch : option hedgeResult) (r : Race) : Race :=
  mkRace (ctx r) (world r) (pc r) a (hedge r) ch (hedgeCh r) (primaryRes r)
    (hedgeRes r) (hedgeDone r) (rehedged r) (recorded r) (launched r) (heard r).
Definition set_hedge (a : Arm) (ch : option hedgeResult) (r : Race) : Race :=
  mkRace (ctx r) (world r) (pc r) (primary r) a (primaryCh r) ch (primaryRes r)
    (hedgeRes r) (hedgeDone r) (rehedged r) (recorded r) (launched r) (heard r).
Definition set_results (p h : option hedgeResult) (hd : bool) (r : Race) : Race :=
  mkRace (ctx r) (world r) (pc r) (primary r) (hedge r) (primaryCh r) (hedgeCh r) p h hd
    (rehedged r) (recorded r) (launched r) (heard r).
Definition set_rehedged (r : Race) : Race :=
  mkRace (ctx r) (world r) (pc r) (primary r) (hedge r) (primaryCh r) (hedgeCh r) (primaryRes r)
    (hedgeRes r) (hedgeDone r) true (recorded r) (launched r) (heard r).
Definition add_launched (c : Context) (r : Race) : Race :=
  mkRace (ctx r) (world r) (pc r) (primary r) (hedge r) (primaryCh r) (hedgeCh r) (primaryRes r)
    (hedgeRes r) (hedgeDone r) (rehedged r) (recorded r) (launched r ++ [c]) (heard r).
Definition add_recorded (result : string) (r : Race) : Race :=
  mkRace (ctx r) (world r) (pc r) (primary r) (hedge r) (primaryCh r) (hedgeCh r) (primaryRes r)
    (hedgeRes r) (hedgeDone r) (rehedged r) (recorded r ++ [result]) (launched r) (heard r).

Definition add_heard (res : hedgeResult) (r : Race) : Race :=
  mkRace (ctx r) (world r) (pc r) (primary r) (hedge r) (primaryCh r) (hedgeCh r) (primaryRes r)
    (hedgeRes r) (hedgeDone r) (rehedged r) (recorded r) (launched r) (heard r ++ [res]).

#[local] Abbreviation M := (StateM.M Race).
Definition read {A} (f : W -> A) : M A :=
  λ r, (f (world r), set_world (Retry.pass env (world r)) r).
Definition isEnabled (flag : string) : M bool :=
  c ← gets ctx; read (λ w, Retry.IsEnabled env w flag (Retry.ServiceID c)).
(** The recorder, when there is one. *)
Definition recordHedge (result : string) : M unit :=
  if Retry.recorder env then modify (add_recorded result) else mret tt.
Definition narrowsIntoStale (narrowed full : EndpointAddrList) : M bool := λ r,
  let '(b, s) := Retry.narrowsIntoStale env narrowed full (Retry.initial (ctx r) (world r)) in
  (b, set_world (Retry.world s) r).
Definition return_ (e : option error) : M unit := modify (set_pc (Returned e)).

(** ** Contexts *)
(** [armContext]: detached from cancellation, not from time. *)
Definition armContext (parent : Retry.GoCtx) : M Retry.GoCtx :=
  match Retry.Deadline parent with
  | None => mret (Retry.mkGoCtx None)
  | Some dl =>
      now ← read (Retry.Now env);
      mret (Retry.mkGoCtx (Some (GoTime.Add dl (Z.max (GoTime.Sub dl now) 0))))
  end.

Definition mergeContext (dst src : Context) : Context :=
  let d := Retry.others dst in let s := Retry.others src in
  let c := Retry.with_Answer (Retry.with_Endpoints dst (Retry.Endpoints src))
             (Retry.Response src) (Retry.Endpoint src) (Retry.HeuristicResult src) (Retry.Err src) in
  with_others c (mkExtra (BatchSize d) (SelectedEndpoint d) (Degraded s) (Cached s) (Coalesced s)
    (ClientIP d) (RemoteAddr d) (rest d)).

Definition ctxDoneError (e : option error) : option error :=
  if Is e DeadlineExceeded
  then Some (NewRelayError ErrTransport "hedge: attempt deadline exceeded" e true) else e.

(** The loop of [deadlineInFlight]: the context's endpoint and the hosts. *)
Fixpoint inFlight (endpoint : EndpointAddr) (picks : list (option EndpointAddr))
    : EndpointAddr * list string :=
  match picks with
  | [] => (endpoint, [])
  | p :: picks =>
      match p with
      | None => inFlight endpoint picks
      | Some ep =>
          if bool_decide (ep = "") then inFlight endpoint picks
          else
            let '(e, hosts) := inFlight (if bool_decide (endpoint = "") then ep else endpoint) picks in
            (e, Domain.Domain ep :: hosts)
      end
  end.
Definition deadlineInFlight (picks : list (option EndpointAddr)) : M (option error) :=
  c ← gets ctx;
  let '(ep, hosts) := inFlight (Retry.Endpoint c) picks in
  modify (set_ctx (λ c, with_Endpoint c ep));;
  e ← read (λ w, CtxErr w (Retry.Ctx c));
  e' ← read (λ w, CtxErr w (Retry.Ctx c));
  mret (if bool_decide (hosts = []) || negb (Is e' DeadlineExceeded) then ctxDoneError e
        else Some (NewRelayError ErrTransport
               ("hedge: attempt deadline exceeded with " +:+ joinHosts hosts +:+ " in flight")
               (Some (Sentinel DeadlineExceeded)) true)).

(** A clone for an arm: no pick and no answer, its own slot. *)
Definition armClone (c : Context) : Context :=
  let x := Retry.others c in
  let c := Retry.with_Answer c None "" (Retry.HeuristicResult c) None in
  with_others c (mkExtra (BatchSize x) (Some None) (Degraded x) (Cached x) (Coalesced x)
    (ClientIP x) (RemoteAddr x) (rest x)).

(** ** Starting arms *)
Definition launch (arm : Context) : M unit :=
  c ← gets ctx;
  detached ← armContext (Retry.Ctx c);
  let arm := Retry.with_Ctx arm detached in
  r ← gets hedgeCh;
  modify (set_hedge (mkArm arm None true) r);;
  modify (add_launched arm).

(** [rehedgeArm]: the clone of the third arm. *)
Definition rehedgeArm (tried : list EndpointAddr) : M (option Context) :=
  c ← gets ctx;
  st ← read (Retry.Owners env);
  let affiliates := AffiliatesOf EffectiveTLDPlusOne st tried in
  st' ← read (Retry.Owners env);
  let left := Retry.filterEndpoints (Retry.Endpoints c)
                (λ ep, negb (AffContains EffectiveTLDPlusOne st' affiliates ep)) in
  if bool_decide (left = []) then mret None
  else
    stale ← narrowsIntoStale left (Retry.Endpoints c);
    mret (if (stale : bool) then None
          else Some (armClone (Retry.with_Endpoints (Retry.with_AttemptKind c AttemptHedge) left))).

(** ** The cases of the [select] statements *)

(** The primary before the delay. *)
Definition onEarlyPrimary (res : hedgeResult) : M unit :=
  modify (set_ctx (λ c, mergeContext c (rctx res)));;
  (if bool_decide (err res = None) then recordHedge "primary_before_delay" else mret tt);;
  return_ (err res).

(** The delay elapsed. *)
Definition hedgeList (full : EndpointAddrList) (p : EndpointAddr) : M EndpointAddrList :=
  let excluded := Exclude full {[p := true]} in
  on ← isEnabled FeatureFlag.FlagOperatorAwareSelection;
  if (on : bool) then
    st ← read (Retry.Owners env);
    let affiliates := AffiliatesOf EffectiveTLDPlusOne st [p] in
    st' ← read (Retry.Owners env);
    let narrowed := ExcludeAffiliates EffectiveTLDPlusOne st' excluded affiliates in
    stale ← narrowsIntoStale narrowed full;
    mret (if (stale : bool) then excluded else narrowed)
  else mret excluded.
Definition onTimer : M unit :=
  c ← gets ctx;
  let hedgeCtx := Retry.with_AttemptKind c AttemptHedge in
  p ← gets (λ r, slot (primary r));
  match (p : option EndpointAddr) with
  | Some p =>
      if bool_decide (p = "") then launch (armClone hedgeCtx);; modify (set_pc Racing)
      else
        eps ← hedgeList (Retry.Endpoints c) p;
        stale ← narrowsIntoStale eps (Retry.Endpoints c);
        if (stale : bool) then
          recordHedge "suppressed_stale";; modify (set_pc (Suppressed p))
        else launch (armClone (Retry.with_Endpoints hedgeCtx eps));; modify (set_pc Racing)
  | None => launch (armClone hedgeCtx);; modify (set_pc Racing)
  end.

(** The primary alone: no hedge was sent. *)
Definition onOnlyPrimary (res : hedgeResult) : M unit :=
  modify (set_ctx (λ c, mergeContext c (rctx res)));; return_ (err res).

Definition hedgeWon (r : Race) : string := if rehedged r then "rehedge_won" else "hedge_won".
Definition win (res : hedgeResult) (label : string) : M unit :=
  modify (set_ctx (λ c, mergeContext c (rctx res)));; recordHedge label;; return_ None.
(** [hedgeRes.err == nil] of a result that is there. *)
Definition succeeded (res : option hedgeResult) : option hedgeResult :=
  match res with Some r => if bool_decide (err r = None) then Some r else None | None => None end.

(** After a turn of the race that did not return: the loop's condition. *)
Definition endTurn : M unit :=
  r ← gets id;
  match primaryRes r with
  | Some res =>
      if hedgeDone r then
        modify (set_ctx (λ c, mergeContext c (rctx res)));;
        recordHedge "both_failed";;
        return_ (err res)
      else mret tt
  | None => mret tt
  end.

Definition onPrimary (res : hedgeResult) : M unit :=
  modify (λ r, set_results (Some res) (hedgeRes r) (hedgeDone r) r);;
  if bool_decide (err res = None) then win res "primary_won"
  else
    r ← gets id;
    match (if hedgeDone r then succeeded (hedgeRes r) else None) with
    | Some h => win h (hedgeWon r)
    | None => endTurn
    end.

(** The one more arm of a race whose hedge failed. *)
Definition rehedge (res : hedgeResult) : M unit :=
  modify set_rehedged;;
  p ← gets (λ r, slot (primary r));
  arm ← rehedgeArm (Retry.Endpoint (rctx res) :: match p with Some p => [p] | None => [] end);
  match (arm : option Context) with
  | Some arm =>
      modify (λ r, set_results (primaryRes r) (hedgeRes r) false r);;
      launch arm
  | None => mret tt
  end.

Definition onHedge (res : hedgeResult) : M unit :=
  r ← gets id;
  if Is (err res) errHedgeRuledOut && negb (rehedged r) then
    recordHedge "suppressed_ruled_out";;
    match primaryRes r with
    | Some p => onOnlyPrimary p
    | None => modify (set_pc WaitingRuledOut)
    end
  else
    modify (λ r, set_results (primaryRes r) (Some res) true r);;
    if bool_decide (err res = None) then win res (hedgeWon r)
    else match succeeded (primaryRes r) with
         | Some p => win p "primary_won"
         | None =>
             on ← (if bool_decide (primaryRes r = None) && negb (rehedged r)
                   then isEnabled FeatureFlag.FlagRehedge else mret false);
             (if (on : bool) then rehedge res else mret tt);;
             endTurn
         end.

Definition onDone (picks : Race -> list (option EndpointAddr)) : M unit :=
  ps ← gets picks; e ← deadlineInFlight ps; return_ e.

(** ** [select] *)
Inductive Choice := FromPrimary | FromHedge | CtxDone | Timer.
Definition drainPrimary (k : hedgeResult -> M unit) (r : Race) : option Race :=
  match primaryCh r with
  | Some res => Some (k res (add_heard res (set_primary (primary r) None r))).2
  | None => None
  end.
Definition drainHedge (k : hedgeResult -> M unit) (r : Race) : option Race :=
  match hedgeCh r with
  | Some res => Some (k res (add_heard res (set_hedge (hedge r) None r))).2
  | None => None
  end.
Definition whenDone (picks : Race -> list (option EndpointAddr)) (r : Race) : option Race :=
  match CtxErr (world r) (Retry.Ctx (ctx r)) with
  | Some _ => Some (onDone picks r).2
  | None => None
  end.
Definition primaryPick (r : Race) : list (option EndpointAddr) := [slot (primary r)].
Definition bothPicks (r : Race) : list (option EndpointAddr) := [slot (primary r); slot (hedge r)].

Definition select (ch : Choice) (r : Race) : option Race :=
  match pc r, ch with
  | Waiting, FromPrimary => drainPrimary onEarlyPrimary r
  | Waiting, CtxDone => whenDone primaryPick r
  | Waiting, Timer => Some (onTimer r).2
  | Suppressed p, FromPrimary => drainPrimary onOnlyPrimary r
  | Suppressed p, CtxDone => whenDone (λ _, [Some p]) r
  | Racing, CtxDone => whenDone bothPicks r
  | Racing, FromPrimary => drainPrimary onPrimary r
  | Racing, FromHedge => drainHedge onHedge r
  | WaitingRuledOut, FromPrimary => drainPrimary onOnlyPrimary r
  | WaitingRuledOut, CtxDone => whenDone primaryPick r
  | _, _ => None
  end.

(** ** Entering: the guards, the pool and the primary arm

    [inl] is a relay that was passed through, with what was recorded. *)
Definition primaryClone (c : Context) : Context :=
  let x := Retry.others c in
  with_others c (mkExtra (BatchSize x) (Some None) (Degraded x) (Cached x) (Coalesced x)
    (ClientIP x) (RemoteAddr x) (rest x)).
Definition idle (c : Context) : Arm := mkArm c None false.

Definition race (c : Context) (w : W) : Race :=
  let s := (Retry.fillEndpoints env (Retry.initial c w)).2 in
  let c := Retry.ctx s in
  let r0 := mkRace c (Retry.world s) Waiting (idle c) (idle c) None None None None false false [] [] [] in
  let '(detached, r1) := armContext (Retry.Ctx c) r0 in
  let arm := Retry.with_Ctx (primaryClone c) detached in
  add_launched arm (set_primary (mkArm arm None true) None r1).

Definition passThrough (c : Context) (w : W) (said : list string)
    : (option error * Context * W * list string) + Race :=
  inl (next c w, said).
Definition Hedge (configFn : string -> Retry.RetryConfig) (c : Context) (w : W)
    : (option error * Context * W * list string) + Race :=
  if Retry.QuorumArm c then passThrough c w []
  else
    let on := Retry.IsEnabled env w FeatureFlag.FlagHedge (Retry.ServiceID c) in
    let w := Retry.pass env w in
    if negb on then passThrough c w []
    else
      let cfg := configFn (Retry.ServiceID c) in
      if bool_decide (Retry.HedgeDelay cfg = 0) then passThrough c w []
      else if negb (HedgesBatchOf cfg (BatchSize (Retry.others c)))
      then passThrough c w (if Retry.recorder env then ["suppressed_large_batch"] else [])
      else inr (race c w).

(** ** The interleaving *)

(** A run of an arm: what [next] may return on its clone. *)
Definition runs (a : Arm) (res : hedgeResult) : Prop :=
  exists w w', next (actx a) w = (err res, rctx res, w').
Definition published (c : Context) : option EndpointAddr :=
  match SelectedEndpoint (Retry.others c) with Some s => s | None => None end.
Definition publishes (a : Arm) (ep : EndpointAddr) : Prop :=
  running a = true /\ exists res, runs a res /\ published (rctx res) = Some ep.
Definition finishes (a : Arm) (res : hedgeResult) : Prop :=
  running a = true /\ runs a res /\ (slot a = None \/ published (rctx res) = slot a).
Definition finished (a : Arm) (res : hedgeResult) : Arm := mkArm (actx a) (published (rctx res)) false.

(** A step that is not the waiting goroutine's. *)
Inductive elsewhere : Race -> Race -> Prop :=
  | step_world w r : elsewhere r (set_world w r)
  | step_publish_primary ep r : publishes (primary r) ep ->
      elsewhere r (set_primary (mkArm (actx (primary r)) (Some ep) true) (primaryCh r) r)
  | step_publish_hedge ep r : publishes (hedge r) ep ->
      elsewhere r (set_hedge (mkArm (actx (hedge r)) (Some ep) true) (hedgeCh r) r)
  | step_finish_primary res r : finishes (primary r) res -> primaryCh r = None ->
      elsewhere r (set_primary (finished (primary r) res) (Some res) r)
  | step_finish_hedge res r : finishes (hedge r) res -> hedgeCh r = None ->
      elsewhere r (set_hedge (finished (hedge r) res) (Some res) r).

(** ** What the handlers do, up to the world and what is recorded *)
Definition note (w : W) (l : list string) (r : Race) : Race :=
  mkRace (ctx r) w (pc r) (primary r) (hedge r) (primaryCh r) (hedgeCh r) (primaryRes r)
    (hedgeRes r) (hedgeDone r) (rehedged r) l (launched r) (heard r).
Definition noted (r r' : Race) : Prop := exists w l, r' = note w l r.

Lemma note_self r : r = note (world r) (recorded r) r.
Proof. by destruct r. Qed.
Lemma noted_refl r : noted r r.
Proof. exists (world r), (recorded r). apply note_self. Qed.
#[local] Instance noted_pre : PreOrder noted.
Proof. split; [exact noted_refl|]. intros r1 r2 r3 (w & l & ->) (w' & l' & ->). by exists w', l'. Qed.

#[local] Instance race_world_put : WorldPut set_world.
Proof. split; [intros s; exists (world s); by destruct s|done]. Qed.
#[local] Abbreviation reads := (StateM.reads set_world).
#[local] Abbreviation reads_bind := (StateM.reads_bind set_world).
#[local] Abbreviation reads_ret := (StateM.reads_ret set_world).

Lemma race_reads {A} (f : W -> A) : reads (read f) (λ _, True).
Proof. intros r. split; [done|]. by eexists. Qed.
Ltac solve_reads := solve_reads_with ltac:(apply race_reads).
Lemma race_reads_stale a b : reads (narrowsIntoStale a b) (λ _, True).
Proof.
  intros r. unfold narrowsIntoStale. destruct (Retry.narrowsIntoStale _ _ _ _). split; [done|]. by eexists.
Qed.
Lemma reads_armContext g : reads (armContext g) (λ _, True).
Proof. unfold armContext. solve_reads. Qed.
Lemma reads_isEnabled flag : reads (isEnabled flag) (λ _, True).
Proof. unfold isEnabled. solve_reads. Qed.

(** The hedge's list: a part of the pool without the primary's pick. *)
Lemma exclude_sub (full : EndpointAddrList) p ep :
  ep ∈ Exclude full {[p := true]} <-> ep ∈ full /\ ep <> p.
Proof.
  unfold Exclude. rewrite map_size_singleton, bool_decide_eq_false_2 by done.
  rewrite list_elem_of_filter. destruct (decide (ep = p)) as [->|Hne].
  - rewrite lookup_singleton_eq. simpl. naive_solver.
  - rewrite lookup_singleton_ne by done. simpl. naive_solver.
Qed.
Lemma reads_hedgeList full p :
  reads (hedgeList full p) (λ eps, Retry.narrows (Exclude full {[p := true]}) eps).
Proof.
  unfold hedgeList. eapply reads_bind; [apply reads_isEnabled|].
  intros [] _; [|apply reads_ret, Retry.narrows_refl].
  eapply reads_bind; [apply race_reads|intros st _]. cbv zeta.
  eapply reads_bind; [apply race_reads|intros st' _].
  eapply reads_bind; [apply race_reads_stale|].
  intros [] _; apply reads_ret; [apply Retry.narrows_refl|apply Retry.excludeAffiliates_narrows].
Qed.

(** The third arm's list: a part of the pool, not empty, none of it affiliated
    with an endpoint tried. *)
Definition rehedgeClone (c : Context) (tried : list EndpointAddr) (arm : Context) : Prop :=
  exists left st st',
    arm = armClone (Retry.with_Endpoints (Retry.with_AttemptKind c AttemptHedge) left) /\
    left <> [] /\
    (forall ep, ep ∈ left -> ep ∈ Retry.Endpoints c /\
       AffContains EffectiveTLDPlusOne st' (AffiliatesOf EffectiveTLDPlusOne st tried) ep = false).
Lemma rehedgeArm_spec tried r :
  wp (rehedgeArm tried) (λ a r', (exists w, r' = set_world w r) /\
        forall arm, a = Some arm -> rehedgeClone (ctx r) tried arm) r.
Proof.
  assert (exists w, r = set_world w r) as Hr by (exists (world r); by destruct r).
  unfold rehedgeArm. wp_pure. apply wp_bind. eapply (wp_reads set_world); [apply race_reads|].
  intros st w _. cbv zeta. apply wp_bind. eapply (wp_reads set_world); [apply race_reads|].
  intros st' w' _. rewrite Retry.filterEndpoints_spec. set (left := filter _ _).
  case_bool_decide as Hl; [split; [by exists w'|done]|].
  apply wp_bind. eapply (wp_reads set_world); [apply race_reads_stale|].
  intros [] w2 _; (split; [by exists w2|]); [done|]. intros arm [= <-].
  exists left, st, st'. split_and!; [done..|]. intros ep Hep.
  apply list_elem_of_filter in Hep as [H1 H2]. split; [done|]. by apply negb_true_iff in H1.
Qed.

Lemma recordHedge_spec label r : noted r (recordHedge label r).2.
Proof.
  unfold recordHedge. destruct (Retry.recorder env); [|apply noted_refl]. by eexists (world r), _.
Qed.
Definition started (arm : Context) (g : Retry.GoCtx) (r : Race) : Race :=
  add_launched (Retry.with_Ctx arm g) (set_hedge (mkArm (Retry.with_Ctx arm g) None true) (hedgeCh r) r).
Lemma launch_spec arm r : exists w g, (launch arm r).2 = started arm g (set_world w r).
Proof.
  assert (wp (launch arm) (λ _ r', exists w g, r' = started arm g (set_world w r)) r) as H; [|exact H].
  unfold launch. wp_pure. apply wp_bind. eapply (wp_reads set_world); [apply reads_armContext|].
  intros g w _. by exists w, g.
Qed.

(** The second arm's clone, by what the primary had published. *)
Definition hedgeClone (c : Context) (p : option EndpointAddr) (arm : Context) : Prop :=
  exists eps, arm = armClone (Retry.with_Endpoints (Retry.with_AttemptKind c AttemptHedge) eps) /\
    match p with
    | Some p => if bool_decide (p = "") then eps = Retry.Endpoints c
                else Retry.narrows (Exclude (Retry.Endpoints c) {[p := true]}) eps
    | None => eps = Retry.Endpoints c
    end.
Lemma with_own_Endpoints (c : Context) : Retry.with_Endpoints c (Retry.Endpoints c) = c.
Proof. by destruct c. Qed.

Lemma onTimer_spec r :
  (exists p r0, slot (primary r) = Some p /\ noted r r0 /\ (onTimer r).2 = set_pc (Suppressed p) r0) \/
  (exists arm g r0, hedgeClone (ctx r) (slot (primary r)) arm /\ noted r r0 /\
     (onTimer r).2 = set_pc Racing (started arm g r0)).
Proof.
  assert (Hgo : forall arm r1, noted r r1 -> hedgeClone (ctx r) (slot (primary r)) arm ->
    wp (launch arm;; modify (set_pc Racing)) (λ _ r', exists arm g r0,
      hedgeClone (ctx r) (slot (primary r)) arm /\ noted r r0 /\ r' = set_pc Racing (started arm g r0)) r1).
  { intros arm r1 Hn Hc. apply wp_bind. unfold wp at 1. destruct (launch_spec arm r1) as (w & g & ->).
    exists arm, g, (set_world w r1). split_and!; [done| |done]. etrans; [exact Hn|].
    by exists w, (recorded r1). }
  match goal with |- ?A \/ ?B => assert (wp onTimer (λ _ r', 
    (exists p r0, slot (primary r) = Some p /\ noted r r0 /\ r' = set_pc (Suppressed p) r0) \/
    (exists arm g r0, hedgeClone (ctx r) (slot (primary r)) arm /\ noted r r0 /\
       r' = set_pc Racing (started arm g r0))) r) as H; [|exact H] end.
  unfold onTimer. wp_pure. cbv zeta. wp_pure.
  destruct (slot (primary r)) as [p|] eqn:Es.
  2: { eapply wp_mono, Hgo; [intros ? ? H; by right|apply noted_refl|].
       exists (Retry.Endpoints (ctx r)). split; [|done].
       by rewrite <- (with_own_Endpoints (Retry.with_AttemptKind (ctx r) AttemptHedge)) at 1. }
  case_bool_decide as Ep.
  { eapply wp_mono, Hgo; [intros ? ? H; by right|apply noted_refl|].
    exists (Retry.Endpoints (ctx r)). rewrite bool_decide_eq_true_2 by done. split; [|done].
    by rewrite <- (with_own_Endpoints (Retry.with_AttemptKind (ctx r) AttemptHedge)) at 1. }
  apply wp_bind. eapply (wp_reads set_world); [apply reads_hedgeList|]. intros eps w Heps.
  apply wp_bind. eapply (wp_reads set_world); [apply race_reads_stale|]. intros [] w' _.
  - left. unfold wp, mbind, M_bind. pose proof (recordHedge_spec "suppressed_stale" (set_world w' (set_world w r))) as Hn.
    destruct (recordHedge _ _) as [[] r1]. simpl in *. exists p, r1. split_and!; [done| |done].
    etrans; [|exact Hn]. by exists w', (recorded r).
  - eapply wp_mono, Hgo; [intros ? ? H; by right|by exists w', (recorded r)|].
    exists eps. by rewrite bool_decide_eq_false_2.
Qed.

(** Returning with an arm's answer, and with its failure. *)
Definition closed (res : hedgeResult) (e : option error) (r : Race) : Race :=
  set_pc (Returned e) (set_ctx (λ c, mergeContext c (rctx res)) r).
Lemma onOnlyPrimary_spec res r : (onOnlyPrimary res r).2 = closed res (err res) r.
Proof. done. Qed.
Lemma onEarlyPrimary_spec res r : noted (closed res (err res) r) (onEarlyPrimary res r).2.
Proof.
  unfold onEarlyPrimary, mbind, M_bind. simpl. case_bool_decide; [|apply noted_refl].
  unfold recordHedge. destruct (Retry.recorder env); [by eexists _, _|apply noted_refl].
Qed.
Lemma win_spec res label r : noted (closed res None r) (win res label r).2.
Proof.
  unfold win, mbind, M_bind, recordHedge. simpl.
  destruct (Retry.recorder env); [by eexists _, _|apply noted_refl].
Qed.
Lemma endTurn_spec r :
  match primaryRes r with
  | Some res => if hedgeDone r then noted (closed res (err res) r) (endTurn r).2 else (endTurn r).2 = r
  | None => (endTurn r).2 = r
  end.
Proof.
  unfold endTurn, mbind, M_bind, gets. simpl. destruct (primaryRes r) as [res|]; [|done].
  destruct (hedgeDone r); [|done]. unfold recordHedge. simpl.
  destruct (Retry.recorder env); [by eexists _, _|apply noted_refl].
Qed.
Lemma onDone_spec picks r :
  exists w e, (onDone picks r).2 =
    set_pc (Returned e) (set_world w (set_ctx (λ c, with_Endpoint c (inFlight (Retry.Endpoint (ctx r)) (picks r)).1) r)).
Proof.
  unfold onDone, deadlineInFlight, mbind, M_bind, gets, read. simpl.
  destruct (inFlight _ _) as [ep hosts]. simpl. by eexists _, _.
Qed.
Lemma rehedge_spec res r :
  let tried := Retry.Endpoint (rctx res) :: match slot (primary r) with Some p => [p] | None => [] end in
  (exists r0, noted r r0 /\ (rehedge res r).2 = set_rehedged r0) \/
  (exists arm g r0, noted r r0 /\ rehedgeClone (ctx r) tried arm /\
     (rehedge res r).2 = started arm g (set_results (primaryRes r) (hedgeRes r) false (set_rehedged r0))).
Proof.
  intros tried.
  assert (wp (rehedge res) (λ _ r', (exists r0, noted r r0 /\ r' = set_rehedged r0) \/
    (exists arm g r0, noted r r0 /\ rehedgeClone (ctx r) tried arm /\
       r' = started arm g (set_results (primaryRes r) (hedgeRes r) false (set_rehedged r0)))) r) as H; [|exact H].
  unfold rehedge. wp_pure. wp_pure. fold tried. apply wp_bind.
  eapply wp_mono, rehedgeArm_spec. intros a r1 [[w ->] Ha]. destruct a as [arm|].
  - right. unfold mbind, M_bind, modify.
    match goal with |- context [launch arm ?x] => destruct (launch_spec arm x) as (w' & g & ->) end.
    exists arm, g, (set_world w' r). split_and!; [by exists w', (recorded r)|by apply Ha|done].
  - left. exists (set_world w r). split; [by exists w, (recorded r)|done].
Qed.

(** ** The invariant of a race

    [c0] is the request as the race started.  An arm is pending until its
    result is received. *)
Definition failed (res : hedgeResult) : Prop := is_Some (err res).
Definition armRun (a : Context) (res : hedgeResult) : Prop :=
  exists w w', next a w = (err res, rctx res, w').
Definition published_by (a : Context) (ep : EndpointAddr) : Prop :=
  exists res, armRun a res /\ published (rctx res) = Some ep.
Definition pending (a : Arm) (ch : option hedgeResult) : nat :=
  if running a then 1%nat else match ch with Some _ => 1%nat | None => 0%nat end.
Definition pendP (r : Race) : nat := pending (primary r) (primaryCh r).
Definition pendH (r : Race) : nat := pending (hedge r) (hedgeCh r).

(** What every arm starts from. *)
Definition armOf (c0 : Context) (a : Context) : Prop :=
  Retry.Endpoints a ⊆ Retry.Endpoints c0 /\ SelectedEndpoint (Retry.others a) = Some None /\
  (Retry.Endpoint c0 = "" -> Retry.Endpoint a = "") /\
  ((exists e1 e2, e1 ∈ Retry.Endpoints c0 /\ e2 ∈ Retry.Endpoints c0 /\ e1 <> e2) ->
   Retry.Endpoints a <> []).

Record core (c0 : Context) (r : Race) : Prop := {
  co_primary : exists g, actx (primary r) = Retry.with_Ctx (primaryClone c0) g;
  co_plaunched : actx (primary r) ∈ launched r;
  co_prunning : running (primary r) = true -> primaryCh r = None;
  co_hrunning : running (hedge r) = true -> hedgeCh r = None;
  co_hlaunched : (0 < pendH r)%nat -> actx (hedge r) ∈ launched r;
  co_pch res : primaryCh r = Some res -> armRun (actx (primary r)) res;
  co_hch res : hedgeCh r = Some res -> armRun (actx (hedge r)) res;
  co_pslot ep : slot (primary r) = Some ep -> published_by (actx (primary r)) ep;
  co_hslot ep : slot (hedge r) = Some ep ->
    published_by (actx (hedge r)) ep /\ actx (hedge r) ∈ launched r;
  co_count : length (launched r) = (length (heard r) + pendP r + pendH r)%nat;
  co_max : (length (launched r) <= if rehedged r then 3 else 2)%nat;
  co_arms : Forall (armOf c0) (launched r);
  co_heard : Forall (λ res, exists a, a ∈ launched r /\ armRun a res) (heard r)
}.

(** How a race ends: with the first success, every result before it a failure;
    with the primary's error, every arm having failed; or with the request. *)
Inductive outcome (c0 : Context) (r : Race) : option error -> Prop :=
  | out_answer l res : heard r = l ++ [res] -> Forall failed l -> err res = None ->
      ctx r = mergeContext c0 (rctx res) -> outcome c0 r None
  | out_failed p e : Forall failed (heard r) -> length (heard r) = length (launched r) ->
      p ∈ heard r -> armRun (actx (primary r)) p -> err p = Some e ->
      ctx r = mergeContext c0 (rctx p) -> outcome c0 r (Some e)
  | out_expired e picks : Forall failed (heard r) ->
      Forall (λ p, forall ep, p = Some ep -> exists a, a ∈ launched r /\ published_by a ep) picks ->
      ctx r = with_Endpoint c0 (inFlight (Retry.Endpoint c0) picks).1 -> outcome c0 r e.

Definition alone (c0 : Context) (r : Race) : Prop :=
  ctx r = c0 /\ heard r = [] /\ primaryRes r = None /\ hedgeRes r = None /\
  pendP r = 1%nat /\ pendH r = 0%nat /\ rehedged r = false /\ hedgeDone r = false.
Definition at_pc (c0 : Context) (r : Race) : Prop :=
  match pc r with
  | Waiting => alone c0 r
  | Suppressed p => alone c0 r /\ published_by (actx (primary r)) p
  | Racing =>
      ctx r = c0 /\ Forall failed (heard r) /\
      match primaryRes r with
      | None => pendP r = 1%nat
      | Some p => pendP r = 0%nat /\ p ∈ heard r /\ armRun (actx (primary r)) p /\ hedgeDone r = false
      end /\
      pendH r = (if hedgeDone r then 0 else 1)%nat /\ (forall h, hedgeRes r = Some h -> failed h)
  | WaitingRuledOut =>
      ctx r = c0 /\ Forall failed (heard r) /\ primaryRes r = None /\ pendP r = 1%nat /\ pendH r = 0%nat
  | Returned e => outcome c0 r e
  end.
Definition inv (c0 : Context) (r : Race) : Prop := core c0 r /\ at_pc c0 r.

(** The world and the recorder are not part of it. *)
Lemma core_note c0 w l r : core c0 r <-> core c0 (note w l r).
Proof. split; intros []; by split. Qed.
Lemma outcome_ext c0 r r' e :
  heard r' = heard r -> launched r' = launched r -> actx (primary r') = actx (primary r) -> ctx r' = ctx r ->
  outcome c0 r e -> outcome c0 r' e.
Proof.
  intros E1 E2 E3 E4 [l res H1 H2 H3 H4|p e' H1 H2 H3 H4 H5 H6|e' picks H1 H2 H3].
  - apply (out_answer c0 r' l res); congruence.
  - apply (out_failed c0 r' p e'); congruence.
  - apply (out_expired c0 r' e' picks); [congruence| |congruence]. by rewrite E2.
Qed.
Lemma at_pc_note c0 w l r : at_pc c0 r -> at_pc c0 (note w l r).
Proof. unfold at_pc. simpl. destruct (pc r); [done..|]. by apply outcome_ext. Qed.
Lemma inv_noted c0 r r' : noted r r' -> inv c0 r -> inv c0 r'.
Proof. intros (w & l & ->) [H1 H2]. split; [by apply core_note|by apply at_pc_note]. Qed.

(** Results received. *)
Definition took_primary (res : hedgeResult) (r : Race) : Race :=
  add_heard res (set_primary (primary r) None r).
Definition took_hedge (res : hedgeResult) (r : Race) : Race :=
  add_heard res (set_hedge (hedge r) None r).
Lemma ch_not_running a (ch : option hedgeResult) res :
  (running a = true -> ch = None) -> ch = Some res -> running a = false.
Proof. intros H E. destruct (running a); [|done]. rewrite H in E by done. done. Qed.
Lemma core_took_primary c0 r res :
  core c0 r -> primaryCh r = Some res ->
  core c0 (took_primary res r) /\ pendP r = 1%nat /\ pendP (took_primary res r) = 0%nat.
Proof.
  intros C E. pose proof (ch_not_running _ _ _ (co_prunning _ _ C) E) as Hr.
  assert (pendP r = 1%nat) as H1 by (unfold pendP, pending; by rewrite Hr, E).
  assert (pendP (took_primary res r) = 0%nat) as H0 by (unfold pendP, pending; simpl; by rewrite Hr).
  split_and!; [|done..]. destruct C as [C1 C2 C3 C4 C5 C6 C7 C8 C9 C10 C11 C12 C13].
  split; try done.
  - change (length (launched r) = (length (heard r ++ [res]) + pendP (took_primary res r) + pendH r)%nat).
    rewrite H0, length_app, C10, H1. simpl. lia.
  - apply Forall_app. split; [done|]. apply Forall_singleton. exists (actx (primary r)). auto.
Qed.
Lemma core_took_hedge c0 r res :
  core c0 r -> hedgeCh r = Some res ->
  core c0 (took_hedge res r) /\ pendH r = 1%nat /\ pendH (took_hedge res r) = 0%nat.
Proof.
  intros C E. pose proof (ch_not_running _ _ _ (co_hrunning _ _ C) E) as Hr.
  assert (pendH r = 1%nat) as H1 by (unfold pendH, pending; by rewrite Hr, E).
  assert (pendH (took_hedge res r) = 0%nat) as H0 by (unfold pendH, pending; simpl; by rewrite Hr).
  split_and!; [|done..]. destruct C as [C1 C2 C3 C4 C5 C6 C7 C8 C9 C10 C11 C12 C13].
  split; try done.
  - intros Hp. rewrite H0 in Hp. lia.
  - change (length (launched r) = (length (heard r ++ [res]) + pendP r + pendH (took_hedge res r))%nat).
    rewrite H0, length_app, C10, H1. simpl. lia.
  - apply Forall_app. split; [done|]. apply Forall_singleton. exists (actx (hedge r)).
    split; [apply C5; rewrite H1; lia|auto].
Qed.

Lemma core_pc c0 p r : core c0 r -> core c0 (set_pc p r).
Proof. intros []; by split. Qed.
Lemma core_ctx c0 f r : core c0 r -> core c0 (set_ctx f r).
Proof. intros []; by split. Qed.
Lemma core_results c0 p h d r : core c0 r -> core c0 (set_results p h d r).
Proof. intros []; by split. Qed.
Lemma core_rehedged c0 r : core c0 r -> core c0 (set_rehedged r).
Proof. intros C. destruct C. split; try done. simpl. destruct (rehedged r); lia. Qed.
Lemma core_noted c0 r r' : noted r r' -> core c0 r -> core c0 r'.
Proof. intros (w & l & ->). apply core_note. Qed.

Lemma core_started c0 arm g r :
  core c0 r -> pendH r = 0%nat -> (length (launched r) < if rehedged r then 3 else 2)%nat ->
  armOf c0 arm -> core c0 (started arm g r) /\ pendH (started arm g r) = 1%nat.
Proof.
  intros C H0 Hm Ha. split; [|done].
  assert (hedgeCh r = None) as Hch.
  { unfold pendH, pending in H0. destruct (running _); [done|]. by destruct (hedgeCh r). }
  destruct C as [C1 C2 C3 C4 C5 C6 C7 C8 C9 C10 C11 C12 C13].
  split; try done.
  - apply elem_of_app. by left.
  - intros _. apply elem_of_app. right. by left.
  - simpl. rewrite Hch. done.
  - change (length (launched r ++ [Retry.with_Ctx arm g]) = (length (heard r) + pendP r + 1)%nat).
    rewrite length_app, C10, H0. simpl. lia.
  - simpl. rewrite length_app. simpl. lia.
  - apply Forall_app. split; [done|]. by apply Forall_singleton.
  - eapply Forall_impl; [exact C13|]. intros res (a & Ha' & Hr). exists a. split; [|done].
    apply elem_of_app. by left.
Qed.

(** The clones start right. *)
Lemma armOf_primary c0 g : armOf c0 (Retry.with_Ctx (primaryClone c0) g).
Proof. split_and!; [done..|]. intros (e1 & e2 & H & _) E. simpl in E. rewrite E in H. set_solver. Qed.
Lemma armOf_clone c0 k eps g :
  eps ⊆ Retry.Endpoints c0 ->
  ((exists e1 e2, e1 ∈ Retry.Endpoints c0 /\ e2 ∈ Retry.Endpoints c0 /\ e1 <> e2) -> eps <> []) ->
  armOf c0 (Retry.with_Ctx (armClone (Retry.with_Endpoints (Retry.with_AttemptKind c0 k) eps)) g).
Proof. intros H1 H2. by split_and!. Qed.
Lemma armOf_ctx c0 a g : armOf c0 (Retry.with_Ctx a g) <-> armOf c0 a.
Proof. done. Qed.
Lemma armOf_hedge c0 p arm : hedgeClone c0 p arm -> armOf c0 arm.
Proof.
  intros (eps & -> & Hp). apply (armOf_ctx c0 _ (Retry.Ctx c0)), armOf_clone.
  - destruct p as [p|]; [|by subst]. case_bool_decide; [by subst|]. destruct Hp as [Hp _].
    intros e He. by apply Hp, exclude_sub in He as [? _].
  - intros (e1 & e2 & H1 & H2 & Hne). destruct p as [p|]; [|intros ->; rewrite <- Hp in H1; set_solver].
    case_bool_decide; [intros ->; rewrite <- Hp in H1; set_solver|]. destruct Hp as [_ Hp]. apply Hp.
    destruct (decide (e1 = p)) as [->|E].
    + intros Hn. apply (elem_of_nil e2). rewrite <- Hn. apply exclude_sub. auto.
    + intros Hn. apply (elem_of_nil e1). rewrite <- Hn. by apply exclude_sub.
Qed.
Lemma armOf_rehedge c0 tried arm : rehedgeClone c0 tried arm -> armOf c0 arm.
Proof.
  intros (left & st & st' & -> & Hne & Hl). apply (armOf_ctx c0 _ (Retry.Ctx c0)), armOf_clone; [|done].
  intros e He. by apply Hl.
Qed.

(** Closing a race on the result just received. *)
Lemma inv_closed_answer c0 r res l :
  core c0 r -> ctx r = c0 -> heard r = l ++ [res] -> Forall failed l -> err res = None ->
  inv c0 (closed res None r).
Proof.
  intros C Hc Hh Hl He. split; [by apply core_pc, core_ctx|].
  unfold closed, at_pc. simpl. apply (out_answer _ _ l res); [done..|]. simpl. by rewrite Hc.
Qed.
Lemma inv_closed_failed c0 r p :
  core c0 r -> ctx r = c0 -> Forall failed (heard r) -> pendP r = 0%nat -> pendH r = 0%nat ->
  p ∈ heard r -> armRun (actx (primary r)) p -> inv c0 (closed p (err p) r).
Proof.
  intros C Hc Hh H1 H2 Hp Hr. split; [by apply core_pc, core_ctx|]. unfold closed, at_pc. simpl.
  pose proof Hh as Hf. rewrite Forall_forall in Hf. destruct (Hf p Hp) as [e He]. rewrite He.
  apply (out_failed _ _ p e); simpl; [done| |done..|by rewrite Hc].
  rewrite (co_count _ _ C). lia.
Qed.
(** [onOnlyPrimary] and [onEarlyPrimary]: the primary's result decides. *)
Lemma inv_only_primary c0 r res :
  core c0 r -> ctx r = c0 -> Forall failed (heard r) -> primaryCh r = Some res -> pendH r = 0%nat ->
  inv c0 (closed res (err res) (took_primary res r)).
Proof.
  intros C Hc Hh E H0. pose proof (co_pch _ _ C _ E) as Hrun.
  destruct (core_took_primary c0 r res C E) as (C' & _ & Hp).
  destruct (err res) as [e|] eqn:Ee.
  - rewrite <- Ee. apply inv_closed_failed; [done..| |done|done| |done]; simpl.
    + apply Forall_app. split; [done|]. apply Forall_singleton. by exists e.
    + apply elem_of_app. right. by left.
  - by apply (inv_closed_answer c0 _ res (heard r)).
Qed.

Lemma inv_onTimer c0 r : inv c0 r -> pc r = Waiting -> inv c0 (onTimer r).2.
Proof.
  intros [C A] Hpc. unfold at_pc in A. rewrite Hpc in A.
  destruct A as (A1 & A2 & A3 & A4 & A5 & A6 & A7 & A8).
  destruct (onTimer_spec r) as [(p & r0 & Hs & Hn & ->)|(arm & g & r0 & Ha & Hn & ->)].
  - pose proof (core_noted _ _ _ Hn C) as C0. destruct Hn as (w & l & ->). split; [by apply core_pc|].
    unfold at_pc. simpl. split; [by split_and!|]. by apply (co_pslot _ _ C).
  - pose proof (core_noted _ _ _ Hn C) as C0. destruct Hn as (w & l & ->).
    destruct (core_started c0 arm g (note w l r) C0 A6) as [C1 H1].
    + simpl. rewrite A7, (co_count _ _ C), A2, A5, A6. simpl. lia.
    + rewrite <- A1. by apply (armOf_hedge _ _ _ Ha).
    + split; [by apply core_pc|]. unfold at_pc. simpl. rewrite A2, A3, A4, A8.
      split_and!; [done|by apply Forall_nil|done..].
Qed.

Lemma inv_onDone c0 r picks :
  core c0 r -> ctx r = c0 -> Forall failed (heard r) ->
  Forall (λ p, forall ep, p = Some ep -> exists a, a ∈ launched r /\ published_by a ep) (picks r) ->
  inv c0 (onDone picks r).2.
Proof.
  intros C Hc Hh Hp. destruct (onDone_spec picks r) as (w & e & ->). split.
  - apply core_pc, (core_noted _ (set_ctx (λ c, with_Endpoint c (inFlight (Retry.Endpoint (ctx r)) (picks r)).1) r));
      [by exists w, (recorded r)|by apply core_ctx].
  - unfold at_pc. simpl. apply (out_expired _ _ e (picks r)); [done..|]. simpl. by rewrite Hc.
Qed.
Lemma picks_of_slots c0 r : core c0 r ->
  Forall (λ p, forall ep, p = Some ep -> exists a, a ∈ launched r /\ published_by a ep) (bothPicks r).
Proof.
  intros C. apply Forall_cons. split; [|apply Forall_singleton].
  - intros ep E. exists (actx (primary r)). split; [by apply (co_plaunched _ _ C)|by apply (co_pslot _ _ C)].
  - intros ep E. exists (actx (hedge r)). destruct (co_hslot _ _ C ep E). by split.
Qed.

Lemma inv_onPrimary c0 r res :
  inv c0 r -> pc r = Racing -> primaryCh r = Some res -> inv c0 (onPrimary res (took_primary res r)).2.
Proof.
  intros [C A] Hpc E. unfold at_pc in A. rewrite Hpc in A. destruct A as (A1 & A2 & A3 & A4 & A5).
  pose proof (co_pch _ _ C _ E) as Hrun.
  destruct (core_took_primary c0 r res C E) as (C' & Hp1 & Hp0).
  assert (primaryRes r = None) as Hres.
  { destruct (primaryRes r); [|done]. destruct A3 as [A3 _]. rewrite Hp1 in A3. done. }
  set (r1 := set_results (Some res) (hedgeRes r) (hedgeDone r) (took_primary res r)).
  assert (core c0 r1) as C1 by (by apply core_results).
  destruct (err res) as [e|] eqn:Ee.
  - assert (Forall failed (heard r1)) as Hf.
    { apply Forall_app. split; [done|]. apply Forall_singleton. by exists e. }
    assert (res ∈ heard r1) as Hin by (apply elem_of_app; right; by left).
    assert ((onPrimary res (took_primary res r)).2 = (endTurn r1).2) as ->.
    { unfold onPrimary, mbind, M_bind, modify, gets. rewrite Ee. simpl. fold r1.
      destruct (hedgeDone r); [|done]. destruct (hedgeRes r) as [h|] eqn:Eh; [|done]. simpl.
      destruct (A5 h eq_refl) as [e' He']. by rewrite He'. }
    pose proof (endTurn_spec r1) as Ht. simpl in Ht. destruct (hedgeDone r) eqn:Ed.
    + eapply inv_noted; [exact Ht|]. by apply inv_closed_failed.
    + rewrite Ht. split; [done|]. unfold at_pc. simpl. rewrite Hpc. by split_and!.
  - assert (noted (closed res None r1) (onPrimary res (took_primary res r)).2) as Hn.
    { unfold onPrimary, mbind, M_bind, modify, gets. rewrite Ee. simpl. apply win_spec. }
    eapply inv_noted; [exact Hn|]. by apply (inv_closed_answer c0 _ res (heard r)).
Qed.

(** One more arm, in a race whose hedge has failed. *)
Lemma inv_rehedge c0 r res :
  core c0 r -> ctx r = c0 -> pc r = Racing -> Forall failed (heard r) ->
  primaryRes r = None -> pendP r = 1%nat -> pendH r = 0%nat -> hedgeDone r = true ->
  (forall h, hedgeRes r = Some h -> failed h) -> rehedged r = false ->
  inv c0 (rehedge res r).2 /\ primaryRes (rehedge res r).2 = None.
Proof.
  intros C Hc Hpc Hf Hp Hp1 Hh0 Hd Hres Hre.
  destruct (rehedge_spec res r) as [(r0 & Hn & ->)|(arm & g & r0 & Hn & Ha & ->)].
  - pose proof (core_noted _ _ _ Hn C) as C0. destruct Hn as (w & l & ->).
    split; [|done]. split; [by apply core_rehedged|].
    unfold at_pc. simpl. rewrite Hpc, Hp, Hd. by split_and!.
  - pose proof (core_noted _ _ _ Hn C) as C0. destruct Hn as (w & l & ->).
    set (r1 := set_results _ _ false _).
    assert (core c0 r1) as C1 by (by apply core_results, core_rehedged).
    destruct (core_started c0 arm g r1 C1 Hh0) as [C2 H2].
    + pose proof (co_max _ _ C) as Hm. rewrite Hre in Hm. simpl. lia.
    + rewrite <- Hc. apply (armOf_rehedge _ _ _ Ha).
    + split; [|done]. split; [done|]. unfold at_pc. simpl. rewrite Hpc, Hp. by split_and!.
Qed.

Lemma onHedge_eq res r : onHedge res r =
  if Is (err res) errHedgeRuledOut && negb (rehedged r) then
    (recordHedge "suppressed_ruled_out";;
     match primaryRes r with Some p => onOnlyPrimary p | None => modify (set_pc WaitingRuledOut) end) r
  else
    (if bool_decide (err res = None) then win res (hedgeWon r)
     else match succeeded (primaryRes r) with
          | Some p => win p "primary_won"
          | None =>
              on ← (if bool_decide (primaryRes r = None) && negb (rehedged r)
                    then isEnabled FeatureFlag.FlagRehedge else mret false);
              (if (on : bool) then rehedge res else mret tt);;
              endTurn
          end) (set_results (primaryRes r) (Some res) true r).
Proof. unfold onHedge, mbind, M_bind, gets, id. by destruct (_ && _). Qed.
Lemma onHedge_spec res r :
  succeeded (primaryRes r) = None ->
  let r1 := set_results (primaryRes r) (Some res) true r in
  let r' := (onHedge res r).2 in
  (Is (err res) errHedgeRuledOut = true /\ rehedged r = false /\
   match primaryRes r with
   | Some p => noted (closed p (err p) r) r'
   | None => noted (set_pc WaitingRuledOut r) r'
   end) \/
  (err res = None /\ noted (closed res None r1) r') \/
  (failed res /\ exists r0, noted r1 r0 /\
     (r' = (endTurn r0).2 \/
      (primaryRes r = None /\ rehedged r = false /\ r' = (endTurn (rehedge res r0).2).2))).
Proof.
  intros Hs r1. rewrite onHedge_eq. cbv zeta. fold r1.
  destruct (Is (err res) errHedgeRuledOut && negb (rehedged r)) eqn:Er.
  - left. apply andb_true_iff in Er as [Er Hre]. apply negb_true_iff in Hre. split_and!; [done..|].
    unfold mbind, M_bind. pose proof (recordHedge_spec "suppressed_ruled_out" r) as (w & l & Hw).
    destruct (recordHedge _ r) as [[] r0]. simpl in Hw. subst r0.
    destruct (primaryRes r); exists w, l; reflexivity.
  - right. destruct (err res) as [e|] eqn:Ee.
    + right. split; [by exists e|]. rewrite bool_decide_eq_false_2 by done. rewrite Hs.
      unfold mbind, M_bind.
      destruct (bool_decide (primaryRes r = None) && negb (rehedged r)) eqn:Eb.
      * destruct (reads_isEnabled FeatureFlag.FlagRehedge r1) as (_ & w & Hw).
        destruct (isEnabled _ r1) as [on r0]. simpl in Hw. subst r0. exists (set_world w r1).
        split; [by exists w, (recorded r1)|]. apply andb_true_iff in Eb as [E1 E2].
        apply bool_decide_eq_true in E1. apply negb_true_iff in E2.
        destruct on; [right; split_and!; [done..|]|left; done].
        destruct (rehedge res (set_world w r1)) as [[] r2]. reflexivity.
      * exists r1. split; [apply noted_refl|]. by left.
    + left. split; [done|]. rewrite bool_decide_eq_true_2 by done. apply win_spec.
Qed.

Lemma inv_onHedge c0 r res :
  inv c0 r -> pc r = Racing -> hedgeCh r = Some res -> inv c0 (onHedge res (took_hedge res r)).2.
Proof.
  intros [C A] Hpc E. unfold at_pc in A. rewrite Hpc in A. destruct A as (A1 & A2 & A3 & A4 & A5).
  destruct (core_took_hedge c0 r res C E) as (C' & Hh1 & Hh0).
  assert (succeeded (primaryRes r) = None) as Hs.
  { destruct (primaryRes r) as [p|]; [|done]. destruct A3 as (_ & Hin & _). simpl.
    rewrite Forall_forall in A2. destruct (A2 p Hin) as [e He]. by rewrite He. }
  destruct (onHedge_spec res (took_hedge res r) Hs) as [(He & Hre & Hn)|[[He Hn]|(He & r0 & Hn & Hr)]].
  - assert (Forall failed (heard (took_hedge res r))) as Hf.
    { apply Forall_app. split; [done|]. apply Forall_singleton. unfold failed.
      destruct (err res); [done|]. by apply Is_some in He. }
    simpl in Hn. destruct (primaryRes r) as [p|] eqn:Ep.
    + eapply inv_noted; [exact Hn|]. destruct A3 as (H1 & H2 & H3 & _).
      apply inv_closed_failed; [done..| |done]. apply elem_of_app. by left.
    + eapply inv_noted; [exact Hn|]. split; [by apply core_pc|]. unfold at_pc. simpl. by split_and!.
  - eapply inv_noted; [exact Hn|].
    apply (inv_closed_answer c0 _ res (heard r)); [by apply core_results|done..].
  - assert (Forall failed (heard (took_hedge res r))) as Hf.
    { apply Forall_app. split; [done|]. by apply Forall_singleton. }
    set (r1 := set_results _ _ _ _) in Hn.
    assert (core c0 r1) as C1 by (by apply core_results).
    pose proof (core_noted _ _ _ Hn C1) as C2. destruct Hn as (w & l & ->).
    destruct Hr as [->|(Hp & Hre & ->)].
    + pose proof (endTurn_spec (note w l r1)) as Ht. simpl in Ht.
      destruct (primaryRes r) as [p|] eqn:Ep.
      * eapply inv_noted; [exact Ht|]. destruct A3 as (H1 & H2 & H3 & _).
        apply inv_closed_failed; [done..| |done]. apply elem_of_app. by left.
      * rewrite Ht. split; [done|]. unfold at_pc. simpl. rewrite Hpc, Ep.
        split_and!; [done..|]. by intros h [= <-].
    + simpl in Hp. rewrite Hp in A3.
      destruct (inv_rehedge c0 (note w l r1) res) as [Hi Hpn]; try done.
      { by intros h [= <-]. }
      pose proof (endTurn_spec (rehedge res (note w l r1)).2) as Ht. rewrite Hpn in Ht. by rewrite Ht.
Qed.

(** *** Every step keeps it *)
Lemma inv_select c0 ch r r' : inv c0 r -> select ch r = Some r' -> inv c0 r'.
Proof.
  intros I Hs. pose proof I as [C A]. unfold select in Hs. unfold at_pc in A.
  assert (Forall (λ p, forall ep, p = Some ep -> exists a, a ∈ launched r /\ published_by a ep) (primaryPick r))
    as Hpick by (pose proof (picks_of_slots _ _ C) as Hp; by apply Forall_cons in Hp as [? _]; apply Forall_singleton).
  destruct (pc r) as [|p| | |e] eqn:Hpc, ch; try done; unfold drainPrimary, drainHedge, whenDone in Hs;
    try (destruct (primaryCh r) as [res|] eqn:E; [injection Hs as <-|done]);
    try (destruct (hedgeCh r) as [res|] eqn:E; [injection Hs as <-|done]);
    try (destruct (CtxErr _ _); [injection Hs as <-|done]); try (injection Hs as <-).
  - destruct A as (A1 & A2 & A3 & A4 & A5 & A6 & A7 & A8).
    eapply inv_noted; [apply onEarlyPrimary_spec|]. apply inv_only_primary; try done. by rewrite A2.
  - destruct A as (A1 & A2 & _). apply inv_onDone; try done. by rewrite A2.
  - by apply inv_onTimer.
  - destruct A as [(A1 & A2 & A3 & A4 & A5 & A6 & A7 & A8) _].
    apply inv_only_primary; try done. by rewrite A2.
  - destruct A as [(A1 & A2 & _) Hp]. apply inv_onDone; try done; [by rewrite A2|].
    apply Forall_singleton. intros ep [= <-]. exists (actx (primary r)). split; [|done].
    apply (co_plaunched _ _ C).
  - by apply inv_onPrimary.
  - by apply inv_onHedge.
  - destruct A as (A1 & A2 & _). apply inv_onDone; try done. by apply (picks_of_slots c0).
  - destruct A as (A1 & A2 & A3 & A4 & A5). by apply inv_only_primary.
  - destruct A as (A1 & A2 & _). by apply inv_onDone.
Qed.

(** An arm that publishes or finishes stays pending. *)
Lemma inv_primary_arm c0 r a ch :
  inv c0 r -> running (primary r) = true -> actx a = actx (primary r) -> pending a ch = 1%nat ->
  (running a = true -> ch = None) -> (forall res, ch = Some res -> armRun (actx a) res) ->
  (forall ep, slot a = Some ep -> published_by (actx a) ep) -> inv c0 (set_primary a ch r).
Proof.
  intros [C A] Hr Ha Hp H1 H2 H3.
  assert (pendP r = 1%nat) as Hr1 by (unfold pendP, pending; by rewrite Hr).
  assert (pendP (set_primary a ch r) = pendP r) as Hpp by (by rewrite Hr1).
  split.
  - destruct C. split; try done; simpl.
    + by rewrite Ha.
    + by rewrite Ha.
    + change (pendH (set_primary a ch r)) with (pendH r). rewrite Hpp. done.
  - unfold at_pc in *. simpl. destruct (pc r).
    + destruct A as (A1 & A2 & A3 & A4 & A5 & A6 & A7 & A8). by split_and!.
    + destruct A as [(A1 & A2 & A3 & A4 & A5 & A6 & A7 & A8) A9]. rewrite Ha. split; [by split_and!|done].
    + rewrite Hpp, Ha. exact A.
    + destruct A as (A1 & A2 & A3 & A4 & A5). split_and!; try done.
    + by eapply outcome_ext, A.
Qed.
Lemma inv_hedge_arm c0 r a ch :
  inv c0 r -> running (hedge r) = true -> actx a = actx (hedge r) -> pending a ch = 1%nat ->
  (running a = true -> ch = None) -> (forall res, ch = Some res -> armRun (actx a) res) ->
  (forall ep, slot a = Some ep -> published_by (actx a) ep) -> inv c0 (set_hedge a ch r).
Proof.
  intros [C A] Hr Ha Hp H1 H2 H3.
  assert (pendH r = 1%nat) as Hr1 by (unfold pendH, pending; by rewrite Hr).
  assert (pendH (set_hedge a ch r) = pendH r) as Hpp by (by rewrite Hr1).
  assert (actx (hedge r) ∈ launched r) as Hl by (apply (co_hlaunched _ _ C); lia).
  split.
  - destruct C. split; try done; simpl.
    + intros _. by rewrite Ha.
    + intros ep Hs. split; [by apply H3|by rewrite Ha].
    + change (pendP (set_hedge a ch r)) with (pendP r). rewrite Hpp. done.
  - unfold at_pc in *. simpl. destruct (pc r).
    + destruct A as (A1 & A2 & A3 & A4 & A5 & A6 & _). lia.
    + destruct A as [(A1 & A2 & A3 & A4 & A5 & A6 & _) _]. lia.
    + rewrite Hpp. exact A.
    + destruct A as (A1 & A2 & A3 & A4 & A5). lia.
    + by eapply outcome_ext, A.
Qed.

Lemma inv_elsewhere c0 r r' : inv c0 r -> elsewhere r r' -> inv c0 r'.
Proof.
  intros I Hs. destruct Hs as [w r|ep r [Hr (res & H1 & H2)]|ep r [Hr (res & H1 & H2)]
    |res r (Hr & H1 & _) Hch|res r (Hr & H1 & _) Hch].
  - eapply inv_noted; [|exact I]. by exists w, (recorded r).
  - pose proof (co_prunning _ _ (proj1 I) Hr) as Hch. rewrite Hch.
    apply inv_primary_arm; try done. intros ep' [= <-]. by exists res.
  - pose proof (co_hrunning _ _ (proj1 I) Hr) as Hch. rewrite Hch.
    apply inv_hedge_arm; try done. intros ep' [= <-]. by exists res.
  - apply inv_primary_arm; try done; [by intros res' [= <-]|]. intros ep Hs. by exists res.
  - apply inv_hedge_arm; try done; [by intros res' [= <-]|]. intros ep Hs. by exists res.
Qed.

(** ** Runs of a race *)

(** [reach n r]: [r] is reached after [n] turns of the waiting goroutine. *)
Inductive reach (r0 : Race) : nat -> Race -> Prop :=
  | reach_start : reach r0 O r0
  | reach_turn n ch r r' : reach r0 n r -> select ch r = Some r' -> reach r0 (S n) r'
  | reach_other n r r' : reach r0 n r -> elsewhere r r' -> reach r0 n r'.

(** The request as the race starts: the pool fetched when it was empty. *)
Definition raceCtx (c : Context) (w : W) : Context :=
  Retry.ctx (Retry.fillEndpoints env (Retry.initial c w)).2.

Lemma inv_race c w : inv (raceCtx c w) (race c w).
Proof.
  unfold race. fold (raceCtx c w). set (c0 := raceCtx c w). set (w0 := Retry.world _).
  set (r0 := mkRace c0 w0 Waiting (idle c0) (idle c0) None None None None false false [] [] []).
  destruct (reads_armContext (Retry.Ctx c0) r0) as (_ & w1 & Hw).
  destruct (armContext _ r0) as [g r1]. simpl in Hw. subst r1.
  split; [|by split_and!]. split; try done; simpl.
  - by exists g.
  - by left.
  - intros H. unfold pendH, pending in H. simpl in H. lia.
  - lia.
  - apply Forall_singleton, armOf_primary.
Qed.
Lemma inv_reach c w n r : reach (race c w) n r -> inv (raceCtx c w) r.
Proof.
  induction 1 as [|n ch r r' _ IH Hs|n r r' _ IH Hs]; [apply inv_race|by eapply inv_select|by eapply inv_elsewhere].
Qed.


(** *** Races end

    Every turn of the waiting goroutine makes this smaller, and no other step
    changes it. *)
Definition turnsLeft (r : Race) : nat :=
  match pc r with
  | Waiting => 6
  | Racing => 2 + pendP r + pendH r + (if rehedged r then 0 else 1)
  | Suppressed _ | WaitingRuledOut => 1
  | Returned _ => 0
  end%nat.
Lemma turns_noted r r' : noted r r' -> turnsLeft r' = turnsLeft r.
Proof. by intros (w & l & ->). Qed.
Lemma turns_closed res e r r' : noted (closed res e r) r' -> turnsLeft r' = 0%nat.
Proof. intros Hn. by rewrite (turns_noted _ _ Hn). Qed.
Lemma turns_endTurn r : (turnsLeft (endTurn r).2 <= turnsLeft r)%nat.
Proof.
  pose proof (endTurn_spec r) as Ht. destruct (primaryRes r); [|by rewrite Ht].
  destruct (hedgeDone r); [|by rewrite Ht]. rewrite (turns_closed _ _ _ _ Ht). lia.
Qed.
Lemma turns_onPrimary r res :
  pc r = Racing -> pendP r = 1%nat -> pendP (took_primary res r) = 0%nat ->
  (turnsLeft (onPrimary res (took_primary res r)).2 < turnsLeft r)%nat.
Proof.
  intros Hpc H1 H0. unfold onPrimary, mbind, M_bind, modify, gets. simpl.
  set (r1 := set_results _ _ _ _).
  assert (turnsLeft r1 < turnsLeft r)%nat as Hlt.
  { unfold turnsLeft. simpl. rewrite Hpc, H1.
    change (pendP r1) with (pendP (took_primary res r)). change (pendH r1) with (pendH r). lia. }
  case_bool_decide; [rewrite (turns_closed _ _ _ _ (win_spec _ _ _)); lia|].
  destruct (if hedgeDone r then _ else _); [rewrite (turns_closed _ _ _ _ (win_spec _ _ _)); lia|].
  eapply Nat.le_lt_trans; [apply turns_endTurn|done].
Qed.
Lemma turns_rehedge res r :
  pc r = Racing -> rehedged r = false -> pendH r = 0%nat ->
  (turnsLeft (rehedge res r).2 <= turnsLeft r)%nat.
Proof.
  intros Hpc Hre H0.
  assert (turnsLeft r = 3 + pendP r)%nat as -> by (unfold turnsLeft; rewrite Hpc, Hre, H0; lia).
  destruct (rehedge_spec res r) as [(r0 & (w & l & ->) & ->)|(arm & g & r0 & (w & l & ->) & _ & ->)];
    unfold turnsLeft; simpl; rewrite Hpc.
  - change (2 + pendP r + pendH r + 0 <= 3 + pendP r)%nat. lia.
  - change (2 + pendP r + 1 + 0 <= 3 + pendP r)%nat. lia.
Qed.
Lemma turns_onHedge r res :
  pc r = Racing -> succeeded (primaryRes r) = None -> pendH r = 1%nat -> pendH (took_hedge res r) = 0%nat ->
  (turnsLeft (onHedge res (took_hedge res r)).2 < turnsLeft r)%nat.
Proof.
  intros Hpc Hs H1 H0.
  assert (2 < turnsLeft r)%nat as Hr by (unfold turnsLeft; rewrite Hpc, H1; lia).
  destruct (onHedge_spec res (took_hedge res r) Hs) as [(_ & _ & Hn)|[[_ Hn]|(_ & r0 & Hn & Hc)]].
  - simpl in Hn. destruct (primaryRes r); [rewrite (turns_closed _ _ _ _ Hn); lia|].
    rewrite (turns_noted _ _ Hn). unfold turnsLeft at 1. simpl. lia.
  - rewrite (turns_closed _ _ _ _ Hn). lia.
  - set (r1 := set_results _ _ _ _) in Hn.
    assert (turnsLeft r0 < turnsLeft r)%nat as Hlt.
    { rewrite (turns_noted _ _ Hn). unfold turnsLeft. simpl. rewrite Hpc, H1.
      change (pendH r1) with (pendH (took_hedge res r)). rewrite H0.
      change (pendP r1) with (pendP r). lia. }
    destruct Hn as (w & l & ->). destruct Hc as [->|(_ & Hre & ->)].
    + eapply Nat.le_lt_trans; [apply turns_endTurn|done].
    + eapply Nat.le_lt_trans; [apply turns_endTurn|].
      eapply Nat.le_lt_trans; [apply turns_rehedge|exact Hlt]; done.
Qed.
Lemma turns_select c0 ch r r' : inv c0 r -> select ch r = Some r' -> (turnsLeft r' < turnsLeft r)%nat.
Proof.
  intros [C A] Hs. unfold select in Hs. unfold at_pc in A.
  destruct (pc r) as [|p| | |e] eqn:Hpc, ch; try done; unfold drainPrimary, drainHedge, whenDone in Hs;
    try (destruct (primaryCh r) as [res|] eqn:E; [injection Hs as <-|done]);
    try (destruct (hedgeCh r) as [res|] eqn:E; [injection Hs as <-|done]);
    try (destruct (CtxErr _ _); [injection Hs as <-|done]); try (injection Hs as <-);
    try (match goal with |- context [onDone ?ps r] => destruct (onDone_spec ps r) as (w & e' & ->) end;
         unfold turnsLeft; simpl; rewrite Hpc; lia).
  - rewrite (turns_closed _ _ _ _ (onEarlyPrimary_spec _ _)). unfold turnsLeft. rewrite Hpc. lia.
  - destruct A as (A1 & A2 & A3 & A4 & A5 & A6 & A7 & A8).
    unfold turnsLeft at 2. rewrite Hpc.
    destruct (onTimer_spec r) as [(p & r0 & _ & (w & l & ->) & ->)|(arm & g & r0 & _ & (w & l & ->) & ->)];
      unfold turnsLeft; simpl; [lia|]. rewrite A7.
    change (2 + pendP r + 1 + 1 < 6)%nat. lia.
  - unfold turnsLeft. simpl. rewrite Hpc. lia.
  - destruct (core_took_primary c0 r res C E) as (_ & H1 & H0). by apply turns_onPrimary.
  - destruct (core_took_hedge c0 r res C E) as (_ & H1 & H0). apply turns_onHedge; [done| |done..].
    destruct A as (_ & A2 & A3 & _). destruct (primaryRes r) as [p|]; [|done].
    destruct A3 as (_ & Hin & _). simpl. rewrite Forall_forall in A2. destruct (A2 p Hin) as [e He].
    by rewrite He.
  - unfold turnsLeft. simpl. rewrite Hpc. lia.
Qed.
Lemma turns_elsewhere c0 r r' : inv c0 r -> elsewhere r r' -> turnsLeft r' = turnsLeft r.
Proof.
  intros [C _] Hs.
  destruct Hs as [w r|ep r [Hr _]|ep r [Hr _]|res r (Hr & _) Hch|res r (Hr & _) Hch]; unfold turnsLeft; simpl;
    destruct (pc r); try done.
  all: unfold pendP, pendH, pending; simpl; by rewrite ?Hr.
Qed.
Lemma turns_reach c w n r : reach (race c w) n r -> (n + turnsLeft r <= 6)%nat.
Proof.
  induction 1 as [|n ch r r' Hr IH Hs|n r r' Hr IH Hs].
  - unfold race. destruct (armContext _ _) as [g r1] eqn:E.
    match type of E with armContext ?a ?b = _ => destruct (reads_armContext a b) as (_ & w1 & Hw) end.
    rewrite E in Hw. simpl in Hw. subst r1. unfold turnsLeft. simpl. lia.
  - apply inv_reach in Hr. pose proof (turns_select _ _ _ _ Hr Hs). lia.
  - apply inv_reach in Hr. rewrite (turns_elsewhere _ _ _ Hr Hs). lia.
Qed.

(** While it has not returned, a turn is there once the arms have finished, or
    the request's context is done. *)
Definition returned (r : Race) : Prop := exists e, pc r = Returned e.
Lemma pending_ready a (ch : option hedgeResult) :
  running a = false -> pending a ch = 1%nat -> is_Some ch.
Proof. intros Hr Hp. unfold pending in Hp. rewrite Hr in Hp. by destruct ch. Qed.
Lemma turn_ready c0 r :
  inv c0 r -> running (primary r) = false -> running (hedge r) = false -> ~ returned r ->
  exists ch r', select ch r = Some r'.
Proof.
  intros [C A] Hp Hh Hn. unfold at_pc in A. unfold select.
  assert (pendP r = 1%nat -> exists res, primaryCh r = Some res) as HP by (by apply pending_ready).
  assert (pendH r = 1%nat -> exists res, hedgeCh r = Some res) as HH by (by apply pending_ready).
  destruct (pc r) as [|p| | |e] eqn:Hpc.
  - destruct A as (_ & _ & _ & _ & [res E]%HP & _). exists FromPrimary. unfold drainPrimary. rewrite E. eauto.
  - destruct A as [(_ & _ & _ & _ & [res E]%HP & _) _]. exists FromPrimary. unfold drainPrimary. rewrite E. eauto.
  - destruct A as (_ & _ & A3 & A4 & _). destruct (primaryRes r) as [p|].
    + destruct A3 as (_ & _ & _ & Hd). rewrite Hd in A4. apply HH in A4 as [res E].
      exists FromHedge. unfold drainHedge. rewrite E. eauto.
    + apply HP in A3 as [res E]. exists FromPrimary. unfold drainPrimary. rewrite E. eauto.
  - destruct A as (_ & _ & _ & [res E]%HP & _). exists FromPrimary. unfold drainPrimary. rewrite E. eauto.
  - destruct Hn. by exists e.
Qed.
Lemma done_ready r e :
  CtxErr (world r) (Retry.Ctx (ctx r)) = Some e -> ~ returned r ->
  exists r', select CtxDone r = Some r' /\ returned r'.
Proof.
  intros He Hn. unfold select, whenDone.
  destruct (pc r) as [|p| | |e'] eqn:Hpc; [..|destruct Hn; by exists e']; rewrite He;
    (eexists; split; [done|]);
    match goal with |- context [onDone ?ps r] => destruct (onDone_spec ps r) as (w & e2 & ->) end; by exists e2.
Qed.

(** An arm that runs can always end. *)
Lemma can_finish a (w : W) :
  running a = true -> (forall ep, slot a = Some ep -> published_by (actx a) ep) -> exists res, finishes a res.
Proof.
  intros Hr Hs. destruct (slot a) as [ep|] eqn:E.
  - destruct (Hs ep eq_refl) as (res & H1 & H2). exists res. split_and!; [done..|]. right. congruence.
  - destruct (next (actx a) w) as [[e c] w'] eqn:En. exists (mkResult e c).
    split_and!; [done|by exists w, w'|by left].
Qed.
Lemma reach_trans r0 r1 n m r2 : reach r0 n r1 -> reach r1 m r2 -> reach r0 (n + m) r2.
Proof.
  intros H1. induction 1 as [|m ch r r' _ IH Hs|m r r' _ IH Hs]; [by rewrite Nat.add_0_r| |].
  - rewrite <- plus_n_Sm. by eapply reach_turn.
  - by eapply reach_other.
Qed.
Lemma inv_from c0 r n r' : inv c0 r -> reach r n r' -> inv c0 r'.
Proof.
  intros I. induction 1 as [|m ch r1 r2 _ IH Hs|m r1 r2 _ IH Hs]; [done|by eapply inv_select|by eapply inv_elsewhere].
Qed.
Lemma arms_can_finish c0 r :
  inv c0 r -> exists r', reach r 0 r' /\ running (primary r') = false /\ running (hedge r') = false /\
    pc r' = pc r /\ turnsLeft r' = turnsLeft r.
Proof.
  intros I.
  assert (exists r1, reach r 0 r1 /\ running (primary r1) = false /\ hedge r1 = hedge r /\ pc r1 = pc r /\
    turnsLeft r1 = turnsLeft r) as (r1 & Hr1 & Hp1 & Hh1 & Hpc1 & Ht1).
  { destruct (running (primary r)) eqn:E; [|exists r; split_and!; try done; constructor].
    destruct (can_finish (primary r) (world r) E (co_pslot _ _ (proj1 I))) as [res Hf].
    pose proof (step_finish_primary res r Hf (co_prunning _ _ (proj1 I) E)) as Hs.
    exists (set_primary (finished (primary r) res) (Some res) r).
    split_and!; try done; [eapply reach_other; [constructor|exact Hs]|by eapply turns_elsewhere]. }
  pose proof (inv_from _ _ _ _ I Hr1) as I1.
  destruct (running (hedge r1)) eqn:E; [|by exists r1].
  destruct (can_finish (hedge r1) (world r1) E (λ ep H, proj1 (co_hslot _ _ (proj1 I1) ep H))) as [res Hf].
  pose proof (step_finish_hedge res r1 Hf (co_hrunning _ _ (proj1 I1) E)) as Hs.
  exists (set_hedge (finished (hedge r1) res) (Some res) r1).
  split_and!; try done; [by eapply reach_other|]. rewrite <- Ht1. by eapply turns_elsewhere.
Qed.

(** C11. A race always ends.  The goroutine that waits takes at most six turns,
    whatever the arms do and whatever order its [select]s see their results in;
    it never waits for an arm that is not there, so once the arms have finished
    it returns, and it returns at once when the request's own context is done. *)
Theorem races_end c w n r :
  reach (race c w) n r ->
  (n <= 6)%nat /\
  (exists m r', reach r m r' /\ returned r') /\
  (forall e, CtxErr (world r) (Retry.Ctx (ctx r)) = Some e -> ~ returned r ->
     exists r', select CtxDone r = Some r' /\ returned r').
Proof.
  intros Hr. split_and!; [pose proof (turns_reach _ _ _ _ Hr); lia| |apply done_ready].
  apply inv_reach in Hr as I. clear Hr n. remember (turnsLeft r) as k eqn:Ek. revert r Ek I.
  induction k as [k IH] using (well_founded_induction lt_wf). intros r -> I.
  destruct (arms_can_finish _ _ I) as (r1 & Hr1 & Hp & Hh & Hpc & Ht).
  pose proof (inv_from _ _ _ _ I Hr1) as I1.
  assert (returned r1 \/ ~ returned r1) as [Hret|Hret].
  { unfold returned. destruct (pc r1) eqn:E; [right; intros [? ?]; congruence..|left; eauto]. }
  - by exists 0%nat, r1.
  - destruct (turn_ready _ _ I1 Hp Hh Hret) as (ch & r2 & Hs).
    destruct (IH (turnsLeft r2)) with (r := r2) as (m & r3 & H3 & Hr3); [|done|by eapply inv_select|].
    { rewrite <- Ht. by eapply turns_select. }
    exists (1 + m)%nat, r3. split; [|done]. eapply reach_trans; [|exact H3]. by eapply reach_turn.
Qed.

(** ** Where the arms go *)
Lemma arm_picks_offered `{!Retry.PicksOffered next} c0 a res :
  Retry.Endpoint c0 = "" ->
  (exists e1 e2, e1 ∈ Retry.Endpoints c0 /\ e2 ∈ Retry.Endpoints c0 /\ e1 <> e2) ->
  armOf c0 a -> armRun a res -> RepSelector.member (Retry.Endpoints c0) (Retry.Endpoint (rctx res)).
Proof.
  intros He Htwo (H1 & _ & H3 & H4) (w & w' & Hn).
  destruct (Retry.picks_offered _ _ _ _ _ _ Hn) as [Hp|Hp]; [auto..|by left|right; by apply H1].
Qed.
Lemma inFlight_from (P : EndpointAddr -> Prop) ep picks :
  P ep -> Forall (λ p, forall e, p = Some e -> P e) picks -> P (inFlight ep picks).1.
Proof.
  intros Hep Hp. revert ep Hep. induction Hp as [|p picks Hp _ IH]; intros ep Hep; simpl; [done|].
  destruct p as [e|]; [|by apply IH]. case_bool_decide; [by apply IH|].
  specialize (IH (if bool_decide (ep = "") then e else ep)). destruct (inFlight _ _). simpl in *.
  apply IH. case_bool_decide; [by apply Hp|done].
Qed.
Lemma raceCtx_filled c w : Retry.Endpoints c <> [] -> raceCtx c w = c.
Proof.
  intros Hne. unfold raceCtx, Retry.fillEndpoints, mbind, M_bind, gets. simpl.
  by rewrite (bool_decide_eq_false_2 _ Hne).
Qed.

(** Of a pool with two endpoints or more a hedged relay stays in the list it
    was offered: whichever arm's answer is delivered, and whatever is named when
    the deadline ends the race, the endpoint is a member of the list or none. *)
Theorem hedges_stay_in_the_offer `{!Retry.PicksOffered next, !PublishesPick next} c w n r :
  reach (race c w) n r -> returned r -> Retry.Endpoint c = "" ->
  (exists e1 e2, e1 ∈ Retry.Endpoints c /\ e2 ∈ Retry.Endpoints c /\ e1 <> e2) ->
  Retry.Endpoint (ctx r) = "" \/ Retry.Endpoint (ctx r) ∈ Retry.Endpoints c.
Proof.
  intros [C A]%inv_reach [e He] Hc Htwo.
  assert (Retry.Endpoints c <> []) as Hne 
    by (destruct Htwo as (e1 & _ & H1 & _); intros E; rewrite E in H1; by apply elem_of_nil in H1).
  rewrite (raceCtx_filled c w Hne) in *. unfold at_pc in A. rewrite He in A.
  pose proof (co_arms _ _ C) as Harms. rewrite Forall_forall in Harms.
  pose proof (co_heard _ _ C) as Hheard. rewrite Forall_forall in Hheard.
  assert (forall res, res ∈ heard r -> RepSelector.member (Retry.Endpoints c) (Retry.Endpoint (rctx res))) as Hres.
  { intros res Hin. destruct (Hheard res Hin) as (a & Ha & Hr). by eapply arm_picks_offered; [..|apply Harms, Ha|]. }
  destruct A as [l res H1 _ _ H4|p e' _ _ H3 _ _ H6|e' picks _ H2 H3].
  - rewrite H4. apply (Hres res). rewrite H1. apply elem_of_app. right. by left.
  - rewrite H6. by apply (Hres p).
  - rewrite H3. apply (inFlight_from (RepSelector.member (Retry.Endpoints c))); [by left|].
    eapply Forall_impl; [exact H2|]. intros p Hp ep Ep. destruct (Hp ep Ep) as (a & Ha & res & Hr & Hpub).
    assert (Retry.Endpoint (rctx res) = ep) as <-; [|by eapply arm_picks_offered; [..|apply Harms, Ha|]].
    destruct Hr as (w1 & w2 & Hr). destruct (Harms a Ha) as (_ & Hs & _).
    apply (publishes_pick _ _ _ _ _ Hr Hs). unfold published in Hpub.
    destruct (SelectedEndpoint _); [by f_equal|done].
Qed.

(** A hedge goes elsewhere.  When the delay elapses with the primary's pick
    known, the hedge's list is the pool without that pick, or the race waits for
    the primary alone; the arm starts with no pick and no answer.  A third arm's
    list is never empty and no endpoint on it shares an operator with the hedge
    that failed or the primary's pick. *)
Theorem hedges_go_elsewhere r p res :
  slot (primary r) = Some p -> p <> "" ->
  let r1 := (onTimer r).2 in
  let r2 := (rehedge res r).2 in
  ((pc r1 = Suppressed p /\ launched r1 = launched r) \/
   exists arm, launched r1 = launched r ++ [arm] /\
     Retry.Endpoints arm ⊆ Retry.Endpoints (ctx r) /\ (p ∉ Retry.Endpoints arm) /\
     Retry.Endpoint arm = "" /\ Retry.Response arm = None /\ Retry.AttemptKind arm = AttemptHedge) /\
  (launched r2 = launched r \/
   exists arm, launched r2 = launched r ++ [arm] /\ Retry.Endpoints arm <> [] /\
     Retry.Endpoints arm ⊆ Retry.Endpoints (ctx r) /\
     forall ep q, ep ∈ Retry.Endpoints arm -> q ∈ [Retry.Endpoint (rctx res); p] ->
       Operator EffectiveTLDPlusOne q <> "" ->
       Operator EffectiveTLDPlusOne ep <> Operator EffectiveTLDPlusOne q).
Proof.
  intros Hs Hp r1 r2. split.
  - destruct (onTimer_spec r) as [(p' & r0 & E & (w & l & ->) & Hr)|(arm & g & r0 & Ha & (w & l & ->) & Hr)];
      unfold r1; rewrite Hr; simpl.
    + left. split; [congruence|done].
    + right. exists (Retry.with_Ctx arm g). destruct Ha as (eps & -> & Heps). rewrite Hs in Heps.
      rewrite bool_decide_eq_false_2 in Heps by done. destruct Heps as [Heps _].
      split_and!; try done; simpl.
      * intros e He. by apply Heps, exclude_sub in He as [? _].
      * intros Hin. by apply Heps, exclude_sub in Hin as [_ ?].
  - destruct (rehedge_spec res r) as [(r0 & (w & l & ->) & Hr)|(arm & g & r0 & (w & l & ->) & Ha & Hr)];
      unfold r2; rewrite Hr; simpl; [by left|right].
    exists (Retry.with_Ctx arm g). destruct Ha as (left & st & st' & -> & Hne & Hl).
    split_and!; try done; simpl.
    + intros e He. by apply Hl.
    + intros ep q Hep Hq Hop Heq. destruct (Hl ep Hep) as [_ Hc]. unfold AffContains in Hc.
      rewrite Heq, bool_decide_eq_true_2 in Hc; [done|]. rewrite Hs in *.
      apply (affiliates_elems EffectiveTLDPlusOne st _ _ _ ""). right. by exists q.
Qed.

(** ** The end of the request

    A context that is done stays done, with the same error. *)
Class DoneStays : Prop :=
  done_stays w g e : CtxErr w g = Some e -> CtxErr (Retry.pass env w) g = Some e.

(** A race ended by its deadline fails with a retryable transport error
    that still is a deadline error, so Retry may go on elsewhere; one ended by
    the client's own cancellation fails with exactly that, which is never
    retried.  The endpoint named is the first pick in flight when the request
    had none. *)
Theorem deadline_is_retryable `{!DoneStays} picks r s :
  CtxErr (world r) (Retry.Ctx (ctx r)) = Some (Sentinel s) ->
  let r' := (onDone picks r).2 in
  exists e, pc r' = Returned (Some e) /\
    IsRetryable (Some e) = bool_decide (s = DeadlineExceeded) /\
    Is (Some e) DeadlineExceeded = bool_decide (s = DeadlineExceeded) /\
    (s <> DeadlineExceeded -> e = Sentinel s) /\
    (Retry.Endpoint (ctx r) = "" -> forall ep rest, picks r = Some ep :: rest -> ep <> "" ->
       Retry.Endpoint (ctx r') = ep).
Proof.
  intros Hs r'. pose proof (done_stays _ _ _ Hs) as Hs'.
  assert (forall ep rest, ep <> "" -> (inFlight "" (Some ep :: rest)).1 = ep) as Hfirst.
  { intros ep rest Hep. simpl. rewrite (bool_decide_eq_false_2 _ Hep).
    assert (forall l, (inFlight ep l).1 = ep) as Hl.
    { induction l as [|[q|] l IH]; simpl; [done| |done]. case_bool_decide; [done|].
      rewrite (bool_decide_eq_false_2 _ Hep). by destruct (inFlight ep l). }
    specialize (Hl rest). by destruct (inFlight ep rest). }
  assert (Retry.Endpoint (ctx r') = (inFlight (Retry.Endpoint (ctx r)) (picks r)).1) as Hend.
  { unfold r'. by destruct (onDone_spec picks r) as (w & e & ->). }
  assert (pc r' = Returned (if bool_decide ((inFlight (Retry.Endpoint (ctx r)) (picks r)).2 = []) ||
      negb (bool_decide (s = DeadlineExceeded)) then ctxDoneError (Some (Sentinel s))
    else Some (NewRelayError ErrTransport ("hedge: attempt deadline exceeded with " +:+
           joinHosts (inFlight (Retry.Endpoint (ctx r)) (picks r)).2 +:+ " in flight")
           (Some (Sentinel DeadlineExceeded)) true))) as Hpc.
  { unfold r', onDone, deadlineInFlight, mbind, M_bind, gets, read. simpl.
    destruct (inFlight _ _) as [ep hosts]. simpl. by rewrite Hs, Hs'. }
  rewrite Hpc. unfold ctxDoneError. simpl.
  destruct (decide (s = DeadlineExceeded)) as [->|Hne].
  - rewrite (bool_decide_eq_true_2 _ eq_refl), orb_false_r.
    case_bool_decide; eexists; (split_and!; [done..|]); intros He ep rest Hp Hep;
      rewrite Hend, He, Hp; by apply Hfirst.
  - rewrite (bool_decide_eq_false_2 _ Hne), orb_true_r. eexists.
    split_and!; [done|done|simpl; by apply bool_decide_eq_false_2|done|].
    intros He ep rest Hp Hep. rewrite Hend, He, Hp. by apply Hfirst.
Qed.

(** ** Running a schedule

    An arm's action happens at the world given. *)
Inductive action :=
  | PublishPrimary (w : W) | FinishPrimary (w : W) | FinishHedge (w : W) | Turn (ch : Choice).
Definition outcomeOf (a : Arm) (w : W) : hedgeResult :=
  let '(e, c, _) := next (actx a) w in mkResult e c.
Definition act (x : action) (r : Race) : option Race :=
  match x with
  | PublishPrimary w =>
      match running (primary r), published (rctx (outcomeOf (primary r) w)) with
      | true, Some ep => Some (set_primary (mkArm (actx (primary r)) (Some ep) true) (primaryCh r) r)
      | _, _ => None
      end
  | FinishPrimary w =>
      let res := outcomeOf (primary r) w in
      if running (primary r) && bool_decide (slot (primary r) = None \/ published (rctx res) = slot (primary r))
      then match primaryCh r with
           | None => Some (set_primary (finished (primary r) res) (Some res) r)
           | Some _ => None
           end
      else None
  | FinishHedge w =>
      let res := outcomeOf (hedge r) w in
      if running (hedge r) && bool_decide (slot (hedge r) = None \/ published (rctx res) = slot (hedge r))
      then match hedgeCh r with
           | None => Some (set_hedge (finished (hedge r) res) (Some res) r)
           | Some _ => None
           end
      else None
  | Turn ch => select ch r
  end.
Fixpoint play (xs : list action) (r : Race) : option Race :=
  match xs with
  | [] => Some r
  | x :: xs => match act x r with Some r => play xs r | None => None end
  end.

Lemma outcome_runs a w : runs a (outcomeOf a w).
Proof. unfold runs, outcomeOf. destruct (next _ w) as [[e c] w'] eqn:E. by exists w, w'. Qed.
Lemma act_reach x r r' : act x r = Some r' -> exists n, reach r n r'.
Proof.
  destruct x as [w|w|w|ch]; simpl.
  - destruct (running (primary r)) eqn:Hr; [|done]. destruct (published _) as [ep|] eqn:Ep; [|done].
    intros [= <-]. exists O. eapply reach_other; [constructor|]. apply step_publish_primary.
    split; [done|]. exists (outcomeOf (primary r) w). split; [apply outcome_runs|done].
  - destruct (_ && _) eqn:E; [|done]. apply andb_true_iff in E as [E1 E2%bool_decide_eq_true].
    destruct (primaryCh r) eqn:Ech; [done|]. intros [= <-]. exists O.
    eapply reach_other; [constructor|]. apply step_finish_primary; [|done].
    split_and!; [done|apply outcome_runs|done].
  - destruct (_ && _) eqn:E; [|done]. apply andb_true_iff in E as [E1 E2%bool_decide_eq_true].
    destruct (hedgeCh r) eqn:Ech; [done|]. intros [= <-]. exists O.
    eapply reach_other; [constructor|]. apply step_finish_hedge; [|done].
    split_and!; [done|apply outcome_runs|done].
  - intros Hs. exists 1%nat. eapply reach_turn; [constructor|exact Hs].
Qed.
Lemma play_reach xs r r' : play xs r = Some r' -> exists n, reach r n r'.
Proof.
  revert r. induction xs as [|x xs IH]; intros r; simpl; [intros [= <-]; exists O; constructor|].
  destruct (act x r) as [r1|] eqn:E; [|done]. intros Hp. apply act_reach in E as [n Hn].
  apply IH in Hp as [m Hm]. exists (n + m)%nat. by eapply reach_trans.
Qed.
End Hedge.

(** ** Concrete races, over the real stages *)
#[local] Abbreviation demoCtx := (@Retry.Context demoWorld string string (@Extra unit)).
(** Relays to the hosts of [slow] fail, the others answer their address. *)
Definition demoAnswer (slow : list EndpointAddr) : @SendFn demoWorld string string := λ w _ _ ep _,
  (if bool_decide (ep ∈ slow) then inl (OtherError "timeout" None) else inr ep, w).
Definition demoNext (fetched slow : EndpointAddrList) : @Retry.NextHandler demoWorld string string (@Extra unit) :=
  attemptChain (demoStages fetched []) minute true (handler (SendRelay (demoAnswer slow))).
Definition demoErr (_ : demoWorld) (_ : Retry.GoCtx) : option error := None.
Definition demoLate (_ : demoWorld) (_ : Retry.GoCtx) : option error := Some (Sentinel DeadlineExceeded).
Definition demoRace (fetched offered : EndpointAddrList) : Race :=
  race (demoBase fetched []) (demoContext offered) demoStart.
Definition demoPlay (fetched slow offered : EndpointAddrList) (xs : list action) : option Race :=
  play (λ h, Some h) (demoBase fetched []) (demoNext fetched slow) demoErr xs (demoRace fetched offered).
(** The primary picks, the delay elapses, the hedge answers first. *)
Definition hedgeFirst : list (@action demoWorld) :=
  [PublishPrimary demoStart; Turn Timer; FinishHedge demoStart; Turn FromHedge].
(** Both end before the race looks again; the primary's result is seen first. *)
Definition bothEnd : list (@action demoWorld) :=
  [PublishPrimary demoStart; Turn Timer; FinishHedge demoStart; FinishPrimary demoStart;
   Turn FromPrimary; Turn FromHedge].
Definition finalOf (r : option (@Race demoWorld string string unit)) : option (@PC * EndpointAddr * nat) :=
  (λ r, (pc r, Retry.Endpoint (ctx r), length (launched r))) <$> r.

(** Offered the one endpoint its request has left, a hedge does not stay with
    it: the list without the primary's pick is empty, and an empty list is
    fetched again whole.  The hedge may then go to an endpoint that was excluded
    from the offer (first run), or to the very endpoint the primary is waiting
    for (second run). *)
Theorem emptied_pool_is_fetched_again :
  finalOf (demoPlay [epA; epB] [] [epA] hedgeFirst) = Some (Returned None, epB, 2%nat) /\
  finalOf (demoPlay [epB; epA] [] [epA] hedgeFirst) = Some (Returned None, epA, 2%nat) /\
  (exists r, demoPlay [epB; epA] [] [epA] hedgeFirst = Some r /\ slot (primary r) = Some epA).
Proof.
  split_and!; [vm_compute; reflexivity..|]. eexists. split; vm_compute; reflexivity.
Qed.

Definition demoEnd (fetched slow offered : EndpointAddrList) (xs : list action) : Race :=
  default (demoRace fetched offered) (demoPlay fetched slow offered xs).
Lemma demo_reach fetched slow offered xs :
  exists n, reach (λ h, Some h) (demoBase fetched []) (demoNext fetched slow) demoErr
    (demoRace fetched offered) n (demoEnd fetched slow offered xs).
Proof.
  unfold demoEnd. destruct (demoPlay fetched slow offered xs) as [r|] eqn:E; [|exists O; constructor].
  by apply play_reach in E.
Qed.


Lemma races_end_witness :
  exists n m r', (n <= 6)%nat /\
    reach (λ h, Some h) (demoBase [] []) (demoNext [] [epA]) demoErr
      (demoEnd [] [epA] [epA; epB] [PublishPrimary demoStart; Turn Timer]) m r' /\ returned r'.
Proof.
  destruct (demo_reach [] [epA] [epA; epB] [PublishPrimary demoStart; Turn Timer]) as [n Hn].
  destruct (races_end (λ h, Some h) (demoBase [] []) (demoNext [] [epA]) demoErr
    (demoContext [epA; epB]) demoStart n _ Hn) as (H1 & (m & r' & H2 & H3) & _).
  by exists n, m, r'.
Defined.

Lemma hedges_stay_in_the_offer_witness :
  let r := demoEnd [epA; epB; epC] [] [epA; epB] hedgeFirst in
  Retry.Endpoint (ctx r) = epA /\
  (Retry.Endpoint (ctx r) = "" \/ Retry.Endpoint (ctx r) ∈ [epA; epB]).
Proof.
  cbv zeta. split; [vm_compute; reflexivity|].
  destruct (demo_reach [epA; epB; epC] [] [epA; epB] hedgeFirst) as [n Hn].
  apply (hedges_stay_in_the_offer (λ h, Some h) (demoBase [epA; epB; epC] []) (demoNext [epA; epB; epC] [])
    demoErr (demoContext [epA; epB]) demoStart n _ Hn).
  - exists None. vm_compute. reflexivity.
  - reflexivity.
  - exists epA, epB. split_and!; [by left|by right; left|by vm_compute].
Defined.

Definition demoPicked : Race := demoEnd [] [epA] [epA; epB; epC] [PublishPrimary demoStart].
Lemma hedges_go_elsewhere_witness :
  exists arm, launched (onTimer (λ h, Some h) (demoBase [] []) demoPicked).2 = launched demoPicked ++ [arm] /\
    epC ∉ Retry.Endpoints arm.
Proof.
  assert (slot (primary demoPicked) = Some epC) as Hs by (vm_compute; reflexivity).
  assert (epC <> "") as Hne by discriminate.
  assert (pc (onTimer (λ h, Some h) (demoBase [] []) demoPicked).2 = Racing) as Hr
    by (vm_compute; reflexivity).
  destruct (hedges_go_elsewhere (λ h, Some h) (demoBase [] []) demoPicked epC
    (mkResult None (demoContext [])) Hs Hne) as [[[H _]|(arm & H1 & _ & H2 & _)] _].
  - exfalso. rewrite Hr in H. discriminate H.
  - exists arm. split; [exact H1|exact H2].
Defined.

#[export] Instance late_stays : DoneStays (demoBase [] []) demoLate.
Proof. by intros w g e. Qed.
Lemma deadline_is_retryable_witness :
  let r' := (onDone (demoBase [] []) demoLate primaryPick
               (demoEnd [] [] [epA; epB] [PublishPrimary demoStart])).2 in
  exists e, pc r' = Returned (Some e) /\ IsRetryable (Some e) = true /\ Retry.Endpoint (ctx r') = epB.
Proof.
  destruct (deadline_is_retryable (demoBase [] []) demoLate primaryPick
    (demoEnd [] [] [epA; epB] [PublishPrimary demoStart]) DeadlineExceeded) as (e & H1 & H2 & _ & _ & H5).
  - reflexivity.
  - exists e. split_and!; [exact H1|exact H2|]. apply (H5 eq_refl epB []); by vm_compute.
Defined.
End Hedge.
