(* ===== verification/Batch.v ===== *)
(** * Batch: one request of many payloads

    Models [relay/middleware/batch.go]: the guards, the machine a batch runs as
    (the goroutine that starts sub-relays within three ceilings, a goroutine per
    sub-relay, the handler collecting the answers in order and streaming them)
    and the rendering of the answers.

    [act] is one atomic action of one goroutine, [exec] a sequence of them in any
    order, interleaved with what happens elsewhere: other batches taking and returning slots
    of the global ceiling, the request's context ending.  A buffered channel
    used as a semaphore is the number of elements in it; [ready], which has
    room for every item, is the set of items sent and not yet received, so any
    order of arrival is covered.  The arrays [results], [sizes], [started] and
    [done] are one list of items; an item also says where its goroutine is.

    A panic in a sub-relay is an error it ends with ([safego.Call]). *)

From Stdlib Require Import Ascii.
From stdpp Require Import strings.
From S2P Require Import Prelude Domain Text Strconv Json FeatureFlag RelayErrors Heuristic Message.
From S2P Require Import ScoreSink Retry Stages.
Import Domain RelayErrors Message Stages.

Module Batch.

(** ** Rendering

    JSON literals are written with apostrophes for double quotes. *)
Definition json (s : string) : list ascii :=
  (λ c, if bool_decide (c = "'"%char) then ascii_of_nat 34 else c) <$> GoText.chars s.

Definition errorJSON (msg : string) : string :=
  GoText.text (json "{'error':{'code':-32603,'message':" ++ Json.appendString (GoText.chars msg) ++
               json "}}").
(** [Marshal] fails only for an id that is not JSON. *)
Definition jsonRPCErrorItem (id msg : string) : string :=
  match Json.marshalItem (Some (GoText.chars id)) with
  | Some id =>
      GoText.text (json "{'jsonrpc':'2.0','id':" ++ id ++ json ",'error':{'code':-32603,'message':" ++
                   Json.appendString (GoText.chars msg) ++ json "}}")
  | None => errorJSON msg
  end.

(** What [appendItem] appends. *)
Definition appendItem (r : option string) : option (list ascii) :=
  match r with
  | None => Some (GoText.chars "null")
  | Some r => Json.HTMLEscape <$> Json.Compact (GoText.chars r)
  end.
Fixpoint mergeLoop (i : nat) (out : list ascii) (results : list (option string)) : option (list ascii) :=
  match results with
  | [] => Some out
  | r :: results =>
      let out := if bool_decide (0 < i)%nat then out ++ [","%char] else out in
      item ← appendItem r;
      mergeLoop (S i) (out ++ item) results
  end.
Definition mergeBatch (results : list (option string)) : option (list ascii) :=
  out ← mergeLoop 0 ["["%char] results; Some (out ++ ["]"%char]).

(** Whether an error item is JSON depends on the id, never on the message. *)
Lemma open_message s s' :
  Json.run s (json ",'error':{'code':-32603,'message':'") = Some s' -> Json.at_step s' = Json.InString.
Proof.
  set (l := json _). vm_compute in l. subst l. destruct s as [st ps e].
  destruct st as [| | | | | | | |[|n]| | | | | | | | | | | | | | | | | |];
    destruct ps as [|[] ps]; lazy -[Json.depthOK]; try done.
  all: destruct (Json.depthOK _); [|done]; by intros [= <-].
Qed.
Lemma error_item_json id msg msg' : Json.Valid (jsonRPCErrorItem id msg) = Json.Valid (jsonRPCErrorItem id msg').
Proof.
  unfold jsonRPCErrorItem, errorJSON, Json.Valid. destruct (Json.marshalItem _) as [v|]; rewrite !GoText.chars_text.
  - assert (forall x, json "{'jsonrpc':'2.0','id':" ++ v ++ json ",'error':{'code':-32603,'message':" ++ x ++ json "}}" =
      (json "{'jsonrpc':'2.0','id':" ++ v ++ json ",'error':{'code':-32603,'message':") ++ x ++ json "}}") as Hx
      by (intros x; by rewrite <- !app_assoc).
    rewrite !Hx. apply Json.string_text_free. intros s. rewrite <- !app_assoc.
    change (json ",'error':{'code':-32603,'message':" ++ [ascii_of_nat 34]) with (json ",'error':{'code':-32603,'message':'").
    rewrite !Json.run_app. destruct (Json.run _ _) as [s1|]; [|done]. cbn [mbind option_bind].
    rewrite Json.run_app. destruct (Json.run _ _) as [s2|]; [|done]. apply open_message.
  - apply Json.string_text_free. intros s. vm_compute. by intros [= <-].
Qed.

(** [strings.NewReplacer("{n}", .., "{max}", ..)]: at each place the first
    pattern that matches. *)
Fixpoint replacePlaces (n max : string) (fuel : nat) (s : string) : string :=
  match fuel with
  | O => s
  | S fuel =>
      match s with
      | EmptyString => ""
      | String c s' =>
          match Heuristic.cutPrefix "{n}" s with
          | Some t => n +:+ replacePlaces n max fuel t
          | None =>
              match Heuristic.cutPrefix "{max}" s with
              | Some t => max +:+ replacePlaces n max fuel t
              | None => String c (replacePlaces n max fuel s')
              end
          end
      end
  end.
Definition rejectMessage (tmpl : string) (n max : Z) : string :=
  replacePlaces (FormatInt n) (FormatInt max) (String.length tmpl) tmpl.

(** ** The shared ceiling: [semFor]

    A channel is known by an identity and its capacity.  [cur] is the pointer as
    loaded, [now] as it is at the swap; [fresh] is the channel made. *)
Record Chan_ := mkChan { ident : nat; capacity : Z }.
Definition semFor (maxConcurrentRelays : Z) (fresh : nat) (cur now : option Chan_)
    : option Chan_ * option Chan_ :=
  if bool_decide (maxConcurrentRelays <= 0) then (None, now)
  else
    let replace :=
      let next := Some (mkChan fresh maxConcurrentRelays) in
      if bool_decide ((ident <$> now) = (ident <$> cur)) then (next, next) else (now, now) in
    match cur with
    | Some ch => if bool_decide (capacity ch = maxConcurrentRelays) then (cur, now) else replace
    | None => replace
    end.
Record Limits := mkLimits {
  maxConcurrentRelays : Z; maxPayloads : Z; maxPerBatch : Z; maxWindow : Z
}.

Section Batch.
Context {W X : Type}.
#[local] Abbreviation Context := (@Retry.Context W Response Payload (@Extra X)).
#[local] Abbreviation NextHandler := (@Retry.NextHandler W Response Payload (@Extra X)).

(** [idOf]: the ["id"] member of a text as [gjson] finds it, whether it is null
    and its raw text. *)
Context (next : NextHandler) (idOf : string -> option (bool * string)).

Definition JSONRPCID (p : Payload) : string :=
  match idOf (Bytes p) with Some (_, raw) => raw | None => "null" end.
Definition JSONRPCRequestID (data : string) : string :=
  match idOf data with Some (false, raw) => raw | _ => "" end.
Definition SupplierPage (c : Context) : bool :=
  match Retry.HeuristicResult c, Retry.Response c with
  | Some v, Some r =>
      bool_decide (Attribution v = AttrSupplier) &&
      (bool_decide (HTTPStatusCode r = 408) || negb (Json.Valid (Body r)))
  | _, _ => false
  end.

(** ** One sub-relay *)
Definition subContext (c : Context) (p : Payload) : Context :=
  let x := Retry.others c in
  Retry.mkContext (Retry.Ctx c) (Retry.ServiceID c) (Retry.RPCType c) (Retry.Plugin c) [p]
    (Retry.Endpoint c) (Retry.Attempts c) (Retry.Endpoints c) None None None
    (Retry.QuorumArm c) (Retry.AttemptKind c)
    (mkExtra (Z.of_nat (length (Retry.Payloads c))) (SelectedEndpoint x) (Degraded x) (Cached x)
       (Coalesced x) (ClientIP x) (RemoteAddr x) (rest x)).
Definition nodeAnswer (err : option error) (sub : Context) : bool :=
  match Retry.Response sub with
  | Some r => Is err ErrRetryVerdict && negb (SupplierPage sub) &&
              negb (bool_decide (JSONRPCRequestID (Body r) = ""))
  | None => false
  end.
(** [results\[i\]] and [sizes\[i\]]. *)
Definition itemResult (p : Payload) (err : option error) (sub : Context) : string * Z :=
  if negb (bool_decide (err = None)) && negb (nodeAnswer err sub)
  then (jsonRPCErrorItem (JSONRPCID p) (ClientMessage err), 0)
  else match Retry.Response sub with
       | Some r =>
           if bool_decide (Body r = "")
           then (jsonRPCErrorItem (JSONRPCID p) "endpoint error: empty response", 0)
           else (Body r, Z.of_nat (String.length (Body r)))
       | None => (jsonRPCErrorItem (JSONRPCID p) "endpoint error: empty response", 0)
       end.
(** A run of the stages below at some world, or a panic in it. *)
Definition outcome (c : Context) (p : Payload) (err : option error) (sub : Context) : Prop :=
  (exists w w', next (subContext c p) w = (err, sub, w')) \/
  (exists text, err = Some (OtherError text None)).
Definition notStarted (p : Payload) (e : sentinel) : string :=
  jsonRPCErrorItem (JSONRPCID p) ("batch payload not started: " +:+ sentinelText e).
(** What a streamed item is written as. *)
Definition itemText (p : Payload) (r : option string) : list ascii :=
  match appendItem r with
  | Some t => t
  | None => default [] (appendItem (Some
      (jsonRPCErrorItem (JSONRPCID p) "endpoint error: response is not JSON")))
  end.

(** What stands in the streamed body for an answer. *)
Definition asJSON (p : Payload) (r : string) : string :=
  if Json.Valid r then r else jsonRPCErrorItem (JSONRPCID p) "endpoint error: response is not JSON".
Definition idIsJSON (p : Payload) : bool := Json.Valid (jsonRPCErrorItem (JSONRPCID p) "").
Lemma itemText_asJSON p r : idIsJSON p = true -> appendItem (Some (asJSON p r)) = Some (itemText p (Some r)).
Proof.
  assert (forall x, Json.Valid x = true -> is_Some (appendItem (Some x))) as HV.
  { intros x Hx%Json.compact_valid. unfold appendItem, Json.Compact, Json.appendCompact. by apply fmap_is_Some. }
  assert (Json.Valid r = false -> appendItem (Some r) = None) as HN.
  { intros Hr. unfold appendItem, Json.Compact, Json.appendCompact.
    destruct (Json.compactFrom false Json.start 0 (GoText.chars r)) eqn:E; [|done].
    exfalso. unfold Json.Valid in Hr. rewrite (proj1 (Json.compact_valid _ _)) in Hr; [done|by rewrite E]. }
  unfold idIsJSON. intros Hid. unfold asJSON, itemText. destruct (Json.Valid r) eqn:Er.
  - by destruct (HV r Er) as [t ->].
  - rewrite (HN eq_refl). rewrite (error_item_json _ _ "endpoint error: response is not JSON") in Hid.
    by destruct (HV _ Hid) as [t ->].
Qed.

(** ** The machine

    The batch's own data: its context, whether the writer streams, and the
    capacities of the three channels ([None] is a nil channel). *)
Inductive Chan := Window | Local | Global.
#[local] Instance Chan_eq : EqDecision Chan.
Proof. solve_decision. Defined.
Record Job := mkJob { ctx : Context; streaming : bool; cap : Chan -> option Z }.
Definition payloads (j : Job) : list Payload := Retry.Payloads (ctx j).
Definition size (j : Job) : nat := length (payloads j).

(** Where an item is: with its goroutine, in [ready], received ([done]), or
    passed by [nextOut].  [answer] is history: the result it was given. *)
Inductive Phase := Fresh | Running | Giving (ch : Chan) | Sending | Sent | Collected | Written.
#[local] Instance Phase_eq : EqDecision Phase.
Proof. solve_decision. Defined.
Record Item := mkItem {
  phase : Phase; started : bool; result : option string; bytes : Z; answer : option string
}.
(** The dispatcher: at a channel of the ceilings (before or after the check of
    the context), about to start an item, giving back what it holds, refusing
    the rest. *)
Inductive DPC :=
  | At (ch : Chan) (i : nat) (checked : bool) | Spawn (i : nat) | Drop (ch : Chan) (i : nat)
  | Refuse (i : nat) | Exited.
Inductive CPC := Opening | Receiving | Draining | Finished.
#[local] Instance CPC_eq : EqDecision CPC.
Proof. solve_decision. Defined.
(** [foreign]: what other batches hold of the global channel. *)
Record St := mkSt {
  items : list Item; pc : DPC; collector : CPC; nextOut : nat; received : nat;
  inWindow : Z; inLocal : Z; inGlobal : Z; foreign : Z;
  ctxErr : option sentinel; batchErr : option sentinel; abandoned : bool;
  out : list ascii; heldBytes : Z; degraded : bool
}.

Definition set_items (l : list Item) (s : St) : St :=
  mkSt l (pc s) (collector s) (nextOut s) (received s) (inWindow s) (inLocal s) (inGlobal s) (foreign s)
    (ctxErr s) (batchErr s) (abandoned s) (out s) (heldBytes s) (degraded s).
Definition set_pc (p : DPC) (s : St) : St :=
  mkSt (items s) p (collector s) (nextOut s) (received s) (inWindow s) (inLocal s) (inGlobal s) (foreign s)
    (ctxErr s) (batchErr s) (abandoned s) (out s) (heldBytes s) (degraded s).
Definition set_collector (c : CPC) (o r : nat) (s : St) : St :=
  mkSt (items s) (pc s) c o r (inWindow s) (inLocal s) (inGlobal s) (foreign s)
    (ctxErr s) (batchErr s) (abandoned s) (out s) (heldBytes s) (degraded s).
Definition slots (ch : Chan) (s : St) : Z :=
  match ch with Window => inWindow s | Local => inLocal s | Global => inGlobal s end.
Definition move (ch : Chan) (d : Z) (s : St) : St :=
  let '(w, l, g) := match ch with
    | Window => (inWindow s + d, inLocal s, inGlobal s)
    | Local => (inWindow s, inLocal s + d, inGlobal s)
    | Global => (inWindow s, inLocal s, inGlobal s + d)
    end in
  mkSt (items s) (pc s) (collector s) (nextOut s) (received s) w l g (foreign s)
    (ctxErr s) (batchErr s) (abandoned s) (out s) (heldBytes s) (degraded s).
Definition set_foreign (f : Z) (s : St) : St :=
  mkSt (items s) (pc s) (collector s) (nextOut s) (received s) (inWindow s) (inLocal s) (inGlobal s) f
    (ctxErr s) (batchErr s) (abandoned s) (out s) (heldBytes s) (degraded s).
Definition set_errs (c b : option sentinel) (s : St) : St :=
  mkSt (items s) (pc s) (collector s) (nextOut s) (received s) (inWindow s) (inLocal s) (inGlobal s)
    (foreign s) c b (abandoned s) (out s) (heldBytes s) (degraded s).
Definition set_stream (a : bool) (o : list ascii) (s : St) : St :=
  mkSt (items s) (pc s) (collector s) (nextOut s) (received s) (inWindow s) (inLocal s) (inGlobal s)
    (foreign s) (ctxErr s) (batchErr s) a o (heldBytes s) (degraded s).
Definition set_held (h : Z) (d : bool) (s : St) : St :=
  mkSt (items s) (pc s) (collector s) (nextOut s) (received s) (inWindow s) (inLocal s) (inGlobal s)
    (foreign s) (ctxErr s) (batchErr s) (abandoned s) (out s) h d.

Definition with_phase (p : Phase) (it : Item) : Item :=
  mkItem p (started it) (result it) (bytes it) (answer it).
Definition fresh : Item := mkItem Fresh false None 0 None.

Section Job.
Context (j : Job).

(** *** The dispatcher *)
Definition goGlobal (i : nat) : DPC := match cap j Global with None => Spawn i | Some _ => At Global i false end.
Definition goLocal (i : nat) : DPC := match cap j Local with None => goGlobal i | Some _ => At Local i false end.
Definition goWindow (i : nat) : DPC := match cap j Window with None => goLocal i | Some _ => At Window i false end.
Definition goNext (i : nat) : DPC := if bool_decide (i < size j)%nat then goWindow i else Exited.
Definition got (ch : Chan) (i : nat) : DPC :=
  match ch with Window => goLocal i | Local => goGlobal i | Global => Spawn i end.
Definition giveWindow (i : nat) : DPC := match cap j Window with None => Refuse i | Some _ => Drop Window i end.
Definition giveLocal (i : nat) : DPC := match cap j Local with None => giveWindow i | Some _ => Drop Local i end.
Definition failed (ch : Chan) (i : nat) : DPC :=
  match ch with Window => Refuse i | Local => giveWindow i | Global => giveLocal i end.
Definition dropped (ch : Chan) (i : nat) : DPC :=
  match ch with Local => giveWindow i | _ => Refuse i end.

(** [acquire]: the check of the context, then the [select]. *)
Definition checkCtx (s : St) : option St :=
  match pc s with
  | At ch i false => Some (set_pc (match batchErr s with None => At ch i true | Some _ => failed ch i end) s)
  | _ => None
  end.
Definition takeSlot (s : St) : option St :=
  match pc s with
  | At ch i true =>
      match cap j ch with
      | Some c => if bool_decide (slots ch s < c) then Some (set_pc (got ch i) (move ch 1 s)) else None
      | None => None
      end
  | _ => None
  end.
Definition giveUp (s : St) : option St :=
  match pc s, batchErr s with
  | At ch i true, Some _ => Some (set_pc (failed ch i) s)
  | _, _ => None
  end.
Definition receiveSlot (ch : Chan) (s : St) : option St :=
  if bool_decide (0 < slots ch s) then Some (move ch (-1) s) else None.
Definition dropSlot (s : St) : option St :=
  match pc s with
  | Drop ch i => set_pc (dropped ch i) <$> receiveSlot ch s
  | _ => None
  end.
Definition startItem (s : St) : option St :=
  match pc s with
  | Spawn i =>
      it ← items s !! i;
      Some (set_pc (goNext (S i)) (set_items (<[i := mkItem Running true (result it) (bytes it) (answer it)]> (items s)) s))
  | _ => None
  end.
Definition refuseItem (s : St) : option St :=
  match pc s, batchErr s with
  | Refuse i, Some e =>
      it ← items s !! i;
      p ← payloads j !! i;
      let r := Some (notStarted p e) in
      Some (set_pc (if bool_decide (S i < size j)%nat then Refuse (S i) else Exited)
              (set_items (<[i := mkItem Sent (started it) r (bytes it) r]> (items s)) s))
  | _, _ => None
  end.

(** *** A sub-relay's goroutine *)
Definition afterLocal : Phase := Sending.
Definition afterGlobal : Phase := match cap j Local with None => Sending | Some _ => Giving Local end.
Definition afterRelay : Phase := match cap j Global with None => afterGlobal | Some _ => Giving Global end.
Definition endRelay (i : nat) (err : option error) (sub : Context) (s : St) : option St :=
  it ← items s !! i;
  p ← payloads j !! i;
  if bool_decide (phase it = Running) then
    let '(r, n) := itemResult p err sub in
    Some (set_held (heldBytes s + n) (degraded s || Degraded (Retry.others sub))
            (set_items (<[i := mkItem afterRelay (started it) (Some r) n (Some r)]> (items s)) s))
  else None.
Definition giveSlot (i : nat) (s : St) : option St :=
  it ← items s !! i;
  match phase it with
  | Giving ch =>
      set_items (<[i := with_phase (match ch with Global => afterGlobal | _ => afterLocal end) it]> (items s))
        <$> receiveSlot ch s
  | _ => None
  end.
Definition tellReady (i : nat) (s : St) : option St :=
  it ← items s !! i;
  if bool_decide (phase it = Sending) then Some (set_items (<[i := with_phase Sent it]> (items s)) s) else None.

(** *** The collector *)
Definition abandon (s : St) : St :=
  set_errs (ctxErr s) (Some (default Canceled (batchErr s))) (set_stream true (out s) s).
Definition write (text : list ascii) (ok : bool) (s : St) : St :=
  if ok then set_stream (abandoned s) (out s ++ text) s else abandon s.
Definition openStream (ok : bool) (s : St) : option St :=
  if bool_decide (collector s = Opening) then
    let s := if streaming j then write ["["%char] ok s else s in
    Some (set_collector Receiving (nextOut s) (received s) s)
  else None.
Definition receiveItem (i : nat) (s : St) : option St :=
  it ← items s !! i;
  if bool_decide (collector s = Receiving) && bool_decide (phase it = Sent) then
    Some (set_collector Draining (nextOut s) (received s)
            (set_items (<[i := with_phase Collected it]> (items s)) s))
  else None.
Definition writeItem (k : nat) (p : Payload) (it : Item) (ok : bool) (s : St) : St :=
  let s := if negb (abandoned s) && bool_decide (ctxErr s = Some Canceled) then abandon s else s in
  if abandoned s then s
  else write ((if bool_decide (0 < k)%nat then [","%char] else []) ++ itemText p (result it)) ok s.
(** The turn of the outer loop is over: the next one, or the end. *)
Definition endTurn (s : St) : St :=
  set_collector (if bool_decide (S (received s) < size j)%nat then Receiving else Finished)
    (nextOut s) (S (received s)) s.
Definition drainItem (ok : bool) (s : St) : option St :=
  if bool_decide (collector s = Draining) then
    match items s !! nextOut s, payloads j !! nextOut s with
    | Some it, Some p =>
        if bool_decide (phase it = Collected) then
          if streaming j then
            let s1 := set_collector Draining (S (nextOut s)) (received s)
              (set_held (heldBytes s - bytes it) (degraded s)
                (set_items (<[nextOut s := mkItem Written (started it) None (bytes it) (answer it)]> (items s))
                  (writeItem (nextOut s) p it ok s))) in
            if started it && bool_decide (is_Some (cap j Window)) then receiveSlot Window s1 else Some s1
          else
            Some (set_collector Draining (S (nextOut s)) (received s)
                    (set_items (<[nextOut s := with_phase Written it]> (items s)) s))
        else Some (endTurn s)
    | _, _ => Some (endTurn s)
    end
  else None.

(** *** What any goroutine, or anything else, may do next *)
Inductive Act :=
  | Check | Take | GiveUp | DropSlot | Start | RefuseItem
  | End_ (i : nat) (err : option error) (sub : Context) | Give (i : nat) | Tell (i : nat)
  | Open (ok : bool) | Receive (i : nat) | Drain (ok : bool)
  | Elsewhere (d : Z) | CtxDone (e : sentinel).
Definition own (a : Act) : bool := match a with Elsewhere _ | CtxDone _ => false | _ => true end.

(** Another batch takes or returns slots; the request's context ends, once, and
    the batch's with it. *)
Definition elsewhere (d : Z) (s : St) : option St :=
  match cap j Global with
  | Some c =>
      if bool_decide (0 <= foreign s + d) && bool_decide (inGlobal s + d <= c)
      then Some (set_foreign (foreign s + d) (move Global d s)) else None
  | None => None
  end.
Definition ctxDone (e : sentinel) (s : St) : option St :=
  match ctxErr s with
  | None => if bool_decide (e = Canceled) || bool_decide (e = DeadlineExceeded)
            then Some (set_errs (Some e) (Some (default e (batchErr s))) s) else None
  | Some _ => None
  end.
Definition act (a : Act) (s : St) : option St :=
  match a with
  | Check => checkCtx s
  | Take => takeSlot s
  | GiveUp => giveUp s
  | DropSlot => dropSlot s
  | Start => startItem s
  | RefuseItem => refuseItem s
  | End_ i err sub => endRelay i err sub s
  | Give i => giveSlot i s
  | Tell i => tellReady i s
  | Open ok => openStream ok s
  | Receive i => receiveItem i s
  | Drain ok => drainItem ok s
  | Elsewhere d => elsewhere d s
  | CtxDone e => ctxDone e s
  end.
(** A sub-relay ends as the stages below can end. *)
Definition possible (a : Act) : Prop :=
  match a with
  | End_ i err sub => exists p, payloads j !! i = Some p /\ outcome (ctx j) p err sub
  | _ => True
  end.

Definition initial (held : Z) (err : option sentinel) : St :=
  mkSt (replicate (size j) fresh) (goNext 0) Opening 0 0 0 0 held held err err false [] 0 false.
Definition exec (l : list Act) (s : St) : option St := foldl (λ s a, s ← s; act a s) (Some s) l.

(** *** The answer of a batch whose collector finished *)
Definition fallbackBody : string := GoText.text (json "{'error':'failed to combine batch responses'}").
Definition body (s : St) : string :=
  match mergeBatch (result <$> items s) with Some b => GoText.text b | None => fallbackBody end.
Definition answerOf (s : St) : Context :=
  let c := if degraded s then Stages.degraded (ctx j) else ctx j in
  with_Response c (Some (plainResponse (if streaming j then "" else body s) 200)).
(** What the client has read of a streamed one. *)
Definition streamed (s : St) : list ascii := if abandoned s then out s else out s ++ ["]"%char].
(** ** The invariant *)
Fixpoint total (f : Item -> Z) (l : list Item) : Z :=
  match l with [] => 0 | it :: l => f it + total f l end.
Lemma total_insert f l i x y :
  l !! i = Some x -> total f (<[i := y]> l) = total f l - f x + f y.
Proof.
  revert i. induction l as [|a l IH]; intros [|i] H; simpl in *; [done|done|injection H as ->; lia|].
  rewrite (IH i) by done. lia.
Qed.
Lemma total_replicate f n it : total f (replicate n it) = Z.of_nat n * f it.
Proof. induction n as [|n IH]; simpl; lia. Qed.
Lemma total_bounds f l : (forall it, 0 <= f it <= 1) -> 0 <= total f l <= Z.of_nat (length l).
Proof. intros Hf. induction l as [|a l IH]; simpl; [lia|]. specialize (Hf a). lia. Qed.
Lemma total_pos f l i it : (forall it, 0 <= f it) -> l !! i = Some it -> f it <= total f l.
Proof.
  intros Hf. revert i. induction l as [|a l IH]; intros [|i] H; simpl in *; [done|done| |].
  - injection H as ->. assert (0 <= total f l); [|lia]. clear IH. induction l as [|b l IH]; simpl; [lia|].
    specialize (Hf b). lia.
  - specialize (IH i H). specialize (Hf a). lia.
Qed.
Lemma total_full f l : total f l = Z.of_nat (length l) -> (forall it, 0 <= f it <= 1) ->
  forall i it, l !! i = Some it -> f it = 1.
Proof.
  intros Ht Hf. induction l as [|a l IH]; [done|]. simpl in Ht. pose proof (Hf a).
  pose proof (total_bounds f l Hf). intros [|i] it H'; simpl in H'; [injection H' as <-; lia|].
  eapply IH; [lia|done].
Qed.

Definition holds (ch : Chan) (it : Item) : Z :=
  Z.b2z match ch, phase it with
        | Window, Written => false
        | Window, _ => started it
        | Local, (Running | Giving Global | Giving Local) => true
        | Global, (Running | Giving Global) => true
        | _, _ => false
        end.
Definition dispatcherHolds (ch : Chan) (p : DPC) : Z :=
  Z.b2z match ch, p with
        | _, Spawn _ => true
        | Window, (At Local _ _ | At Global _ _ | Drop _ _) => true
        | Local, (At Global _ _ | Drop Local _) => true
        | _, _ => false
        end.
Definition frontier (p : DPC) : nat :=
  match p with At _ i _ | Spawn i | Drop _ i | Refuse i => i | Exited => size j end.
Definition pc_ok (s : St) : Prop :=
  match pc s with
  | At ch i _ => (i < size j)%nat /\ is_Some (cap j ch)
  | Spawn i => (i < size j)%nat
  | Drop ch i => (i < size j)%nat /\ is_Some (cap j ch) /\ ch <> Global /\ is_Some (batchErr s)
  | Refuse i => (i < size j)%nat /\ is_Some (batchErr s)
  | Exited => True
  end.
Definition isIn (it : Item) : Z := Z.b2z match phase it with Collected | Written => true | _ => false end.

(** An item's answer: what its sub-relay came to, or why it did not start. *)
Definition answers (i : nat) (it : Item) (r : string) : Prop :=
  exists p, payloads j !! i = Some p /\
    if started it then exists err sub, outcome (ctx j) p err sub /\ itemResult p err sub = (r, bytes it)
    else bytes it = 0 /\ exists e, r = notStarted p e.
Definition item_ok (fr no : nat) (i : nat) (it : Item) : Prop :=
  (phase it = Fresh <-> (fr <= i)%nat) /\ (phase it = Written <-> (i < no)%nat) /\
  match phase it with
  | Fresh => it = fresh
  | Running => it = mkItem Running true None 0 None
  | Giving ch => ch <> Window /\ is_Some (cap j ch) /\ started it = true
  | Sending => started it = true
  | _ => True
  end /\
  match phase it with
  | Fresh | Running => True
  | ph => exists r, answer it = Some r /\ answers i it r /\
          result it = if streaming j && bool_decide (ph = Written) then None else Some r
  end.
Definition inHand (it : Item) : Z := if streaming j && bool_decide (phase it = Written) then 0 else bytes it.

(** What the first [k] answers are streamed as. *)
Definition piece (l : list Item) (i : nat) : list ascii :=
  match payloads j !! i, l !! i with
  | Some p, Some it => (if bool_decide (0 < i)%nat then [","%char] else []) ++ itemText p (answer it)
  | _, _ => []
  end.
Definition textUpto (l : list Item) (k : nat) : list ascii := ["["%char] ++ mjoin (piece l <$> seq 0 k).
Definition out_ok (s : St) : Prop :=
  if streaming j then
    match collector s with
    | Opening => out s = [] /\ abandoned s = false
    | _ => if abandoned s then out s = [] \/ exists k, (k <= nextOut s)%nat /\ out s = textUpto (items s) k
           else out s = textUpto (items s) (nextOut s)
    end
  else True.

Record inv (s : St) : Prop := mkInv {
  inv_len : length (items s) = size j;
  inv_pc : pc_ok s;
  inv_items i it : items s !! i = Some it -> item_ok (frontier (pc s)) (nextOut s) i it;
  inv_next : (nextOut s <= size j)%nat;
  inv_slots ch c : cap j ch = Some c ->
    slots ch s = total (holds ch) (items s) + dispatcherHolds ch (pc s) +
                 (if bool_decide (ch = Global) then foreign s else 0) /\ slots ch s <= c;
  inv_foreign : 0 <= foreign s;
  inv_received : total isIn (items s) = Z.of_nat (received s) + Z.b2z (bool_decide (collector s = Draining)) /\
    (collector s = Opening -> received s = 0%nat) /\
    (collector s = Finished <-> received s = size j);
  inv_loop it : collector s <> Draining -> items s !! nextOut s = Some it -> phase it <> Collected;
  inv_held : heldBytes s = total inHand (items s);
  inv_out : out_ok s
}.
(** *** The dispatcher keeps it *)
Lemma frontier_go i : (i < size j)%nat ->
  frontier (goGlobal i) = i /\ frontier (goLocal i) = i /\ frontier (goWindow i) = i /\
  frontier (goNext i) = i /\ frontier (giveWindow i) = i /\ frontier (giveLocal i) = i.
Proof.
  intros Hi. unfold goNext. rewrite bool_decide_eq_true_2 by done.
  unfold goWindow, goLocal, goGlobal, giveLocal, giveWindow.
  destruct (cap j Window), (cap j Local), (cap j Global); split_and!; done.
Qed.
Lemma pc_ok_go i s : (i < size j)%nat ->
  pc_ok (set_pc (goGlobal i) s) /\ pc_ok (set_pc (goLocal i) s) /\ pc_ok (set_pc (goWindow i) s).
Proof.
  intros Hi. unfold goWindow, goLocal, goGlobal, pc_ok.
  destruct (cap j Window) eqn:?, (cap j Local) eqn:?, (cap j Global) eqn:?; simpl; eauto 10.
Qed.
Lemma pc_ok_give i s : (i < size j)%nat -> is_Some (batchErr s) ->
  pc_ok (set_pc (giveWindow i) s) /\ pc_ok (set_pc (giveLocal i) s) /\ pc_ok (set_pc (Refuse i) s).
Proof.
  intros Hi He. unfold giveLocal, giveWindow, pc_ok.
  destruct (cap j Window) eqn:?, (cap j Local) eqn:?; simpl; eauto 10.
Qed.

Ltac slot_arith := unfold dispatcherHolds, Z.b2z in *; simpl in *; lia.
(** A move of the dispatcher that starts and refuses nothing. *)
Lemma inv_moves s s' :
  inv s -> items s' = items s -> frontier (pc s') = frontier (pc s) ->
  (collector s', nextOut s', received s', foreign s') = (collector s, nextOut s, received s, foreign s) ->
  (heldBytes s', out s', abandoned s') = (heldBytes s, out s, abandoned s) ->
  pc_ok s' ->
  (forall ch c, cap j ch = Some c ->
     slots ch s' - slots ch s = dispatcherHolds ch (pc s') - dispatcherHolds ch (pc s) /\ slots ch s' <= c) ->
  inv s'.
Proof.
  intros [] Ei Ef [= Ec En Er Eg] [= Eh Eo Ea] Hpc Hs.
  split; unfold out_ok in *; rewrite ?Ei, ?Ec, ?En, ?Er, ?Eg, ?Eh, ?Eo, ?Ea; try done.
  - by rewrite Ef.
  - intros ch c H. specialize (Hs ch c H). destruct (inv_slots0 ch c H). lia.
Qed.
Lemma inv_check s s' : inv s -> checkCtx s = Some s' -> inv s'.
Proof.
  intros H. unfold checkCtx. destruct (pc s) as [ch i []| | | |] eqn:Ep; try done.
  intros [= <-]. pose proof (inv_pc s H) as Hpc. unfold pc_ok in Hpc. rewrite Ep in Hpc. destruct Hpc as [Hi Hc].
  destruct (frontier_go i Hi) as (_ & _ & _ & _ & F1 & F2). pose proof (inv_slots s H) as Hs.
  eapply (inv_moves s); try done; simpl.
  - rewrite Ep. destruct (batchErr s); [by destruct ch|done].
  - destruct (batchErr s) eqn:Eb.
    + destruct (pc_ok_give i s Hi ltac:(by rewrite Eb)) as (G1 & G2 & G3). by destruct ch.
    + by unfold pc_ok.
  - intros ch' c E. destruct (Hs ch' c E). rewrite Ep.
    destruct (batchErr s); [|destruct ch, ch'; slot_arith].
    unfold failed, giveLocal, giveWindow.
    destruct ch, ch', (cap j Window) eqn:?, (cap j Local) eqn:?; simplify_eq; slot_arith.
Qed.
Lemma inv_take s s' : inv s -> takeSlot s = Some s' -> inv s'.
Proof.
  intros H. unfold takeSlot. destruct (pc s) as [ch i []| | | |] eqn:Ep; try done.
  destruct (cap j ch) as [c|] eqn:Ec; [|done]. case_bool_decide as Hlt; [|done]. intros [= <-].
  pose proof (inv_pc s H) as Hpc. unfold pc_ok in Hpc. rewrite Ep in Hpc. destruct Hpc as [Hi _].
  destruct (frontier_go i Hi) as (F1 & F2 & _). pose proof (inv_slots s H) as Hs.
  destruct (pc_ok_go i (move ch 1 s) Hi) as (G1 & G2 & _).
  eapply (inv_moves s); try done; simpl.
  - by destruct ch.
  - rewrite Ep. by destruct ch.
  - by destruct ch.
  - by destruct ch.
  - by destruct ch.
  - intros ch' c' E. destruct (Hs ch' c' E). rewrite Ep. unfold got, goLocal, goGlobal.
    destruct ch, ch', (cap j Local) eqn:?, (cap j Global) eqn:?; simplify_eq; slot_arith.
Qed.
Lemma inv_giveUp s s' : inv s -> giveUp s = Some s' -> inv s'.
Proof.
  intros H. unfold giveUp. destruct (pc s) as [ch i []| | | |] eqn:Ep; try done.
  destruct (batchErr s) eqn:Eb; [|done]. intros [= <-].
  pose proof (inv_pc s H) as Hpc. unfold pc_ok in Hpc. rewrite Ep in Hpc. destruct Hpc as [Hi Hc].
  destruct (frontier_go i Hi) as (_ & _ & _ & _ & F1 & F2). pose proof (inv_slots s H) as Hs.
  destruct (pc_ok_give i s Hi ltac:(by rewrite Eb)) as (G1 & G2 & G3).
  eapply (inv_moves s); try done; simpl.
  - rewrite Ep. by destruct ch.
  - by destruct ch.
  - intros ch' c E. destruct (Hs ch' c E). rewrite Ep. unfold failed, giveLocal, giveWindow.
    destruct ch, ch', (cap j Window) eqn:?, (cap j Local) eqn:?; simplify_eq; slot_arith.
Qed.
Lemma inv_drop s s' : inv s -> dropSlot s = Some s' -> inv s'.
Proof.
  intros H. unfold dropSlot, receiveSlot. destruct (pc s) as [| |ch i| |] eqn:Ep; try done.
  case_bool_decide as Hlt; [|done]. intros [= <-].
  pose proof (inv_pc s H) as Hpc. unfold pc_ok in Hpc. rewrite Ep in Hpc. destruct Hpc as (Hi & Hc & Hg & He).
  destruct (frontier_go i Hi) as (_ & _ & _ & _ & F1 & F2). pose proof (inv_slots s H) as Hs.
  destruct (pc_ok_give i (move ch (-1) s) Hi ltac:(by destruct ch)) as (G1 & G2 & G3).
  eapply (inv_moves s); try done; simpl.
  - by destruct ch.
  - rewrite Ep. by destruct ch.
  - by destruct ch.
  - by destruct ch.
  - by destruct ch.
  - intros ch' c E. destruct (Hs ch' c E). rewrite Ep. unfold dropped, giveWindow.
    destruct ch, ch', (cap j Window) eqn:?; simplify_eq; slot_arith.
Qed.

(** *** Starting, refusing and the sub-relays keep it *)
Lemma piece_insert l i it it' k : l !! i = Some it -> answer it' = answer it \/ (k <= i)%nat ->
  forall m, (m < k)%nat -> piece (<[i := it']> l) m = piece l m.
Proof.
  intros Hi Hor m Hm. unfold piece. destruct (decide (m = i)) as [->|Hne].
  - rewrite list_lookup_insert_eq by (by eapply lookup_lt_Some). rewrite Hi.
    destruct Hor as [->|]; [done|lia].
  - by rewrite list_lookup_insert_ne.
Qed.
Lemma text_insert l i it it' k : l !! i = Some it -> answer it' = answer it \/ (k <= i)%nat ->
  textUpto (<[i := it']> l) k = textUpto l k.
Proof.
  intros Hi Hor. unfold textUpto. do 2 f_equal. apply list_fmap_ext. intros m x Hx%lookup_seq.
  apply (piece_insert _ _ it _ k); [done|done|lia].
Qed.
Lemma out_insert s s' i it it' :
  out_ok s -> items s !! i = Some it -> items s' = <[i := it']> (items s) ->
  answer it' = answer it \/ (nextOut s <= i)%nat ->
  (collector s', nextOut s', out s', abandoned s') = (collector s, nextOut s, out s, abandoned s) ->
  out_ok s'.
Proof.
  intros Ho Hi Es' Hor [= Ec En Eo Ea]. unfold out_ok in *. rewrite Es', Ec, En, Eo, Ea.
  assert (forall k, (k <= nextOut s)%nat -> textUpto (<[i := it']> (items s)) k = textUpto (items s) k) as Ht.
  { intros k Hk. apply (text_insert _ _ it); [done|]. destruct Hor; [by left|right; lia]. }
  destruct (streaming j); [|done]. destruct (collector s); try done; destruct (abandoned s); try (by rewrite Ht).
  all: destruct Ho as [->|(k & Hk & ->)]; [by left|right; exists k; by rewrite Ht].
Qed.

Lemma inv_update s s' i it it' :
  inv s -> items s !! i = Some it -> items s' = <[i := it']> (items s) ->
  (collector s', nextOut s', foreign s') = (collector s, nextOut s, foreign s) ->
  (received s', out s', abandoned s') = (received s, out s, abandoned s) -> pc_ok s' ->
  (forall k, k <> i -> (frontier (pc s') <= k)%nat <-> (frontier (pc s) <= k)%nat) ->
  item_ok (frontier (pc s')) (nextOut s) i it' ->
  (forall ch c, cap j ch = Some c ->
     slots ch s' - slots ch s = holds ch it' - holds ch it + dispatcherHolds ch (pc s') - dispatcherHolds ch (pc s) /\
     slots ch s' <= c) ->
  isIn it' = isIn it -> phase it' <> Collected ->
  heldBytes s' - heldBytes s = inHand it' - inHand it -> 
  answer it' = answer it \/ (nextOut s <= i)%nat -> inv s'.
Proof.
  intros [] Hi Es' [= Ec En Ef] [= Er Eo Ea] Hpc Hfr Hok Hs Hin Hnc Hheld Hans.
  assert (forall f, total f (items s') = total f (items s) - f it + f it') as Ht.
  { intros f. rewrite Es'. by apply total_insert. }
  split; rewrite ?Ec, ?En, ?Er, ?Ef; try done.
  - by rewrite Es', length_insert.
  - intros k x. rewrite Es'. intros [(-> & <- & _)|[Hne Hk]]%list_lookup_insert_Some; [done|].
    specialize (inv_items0 k x Hk). unfold item_ok in *. by rewrite Hfr.
  - intros ch c H. specialize (Hs ch c H). destruct (inv_slots0 ch c H). rewrite Ht. lia.
  - rewrite Ht, Hin. split; [lia|]. tauto.
  - intros x Hd. rewrite Es'. intros [(_ & <- & _)|[Hne Hk]]%list_lookup_insert_Some; [done|]. by eapply inv_loop0.
  - rewrite Ht. lia.
  - eapply (out_insert s); try done. by rewrite Ec, En, Eo, Ea.
Qed.

Ltac lookup_item H Hi it :=
  match type of H with context [items ?s !! ?i] => destruct (items s !! i) as [it|] eqn:Hi; [|done] end;
  cbn [mbind option_bind] in H.
Ltac lookup_payload H Hp p :=
  match type of H with context [payloads ?j !! ?i] => destruct (payloads j !! i) as [p|] eqn:Hp; [|done] end;
  cbn [mbind option_bind] in H.
Lemma fresh_answer fr no i it : item_ok fr no i it -> phase it <> Written -> (no <= i)%nat.
Proof. intros (_ & Hw & _) H. apply not_lt. intros ?%Hw. done. Qed.

Lemma inv_start s s' : inv s -> startItem s = Some s' -> inv s'.
Proof.
  intros H Hst. unfold startItem in Hst. destruct (pc s) as [|i| | |] eqn:Ep; try done.
  lookup_item Hst Hi it. injection Hst as <-.
  pose proof (inv_pc s H) as Hpc. unfold pc_ok in Hpc. rewrite Ep in Hpc.
  pose proof (inv_items s H i it Hi) as Hok. rewrite Ep in Hok. simpl in Hok.
  destruct Hok as (Hf & Hw & Hit & _). assert (phase it = Fresh) as Eph by (by apply Hf).
  rewrite Eph in Hit. simpl in Hit. subst it. simpl.
  assert (frontier (goNext (S i)) = S i) as EF.
  { destruct (decide (S i < size j)%nat) as [Hlt|Hge]; [by apply frontier_go|].
    unfold goNext. rewrite bool_decide_eq_false_2 by done. simpl. lia. }
  eapply (inv_update s _ i fresh); try done; simpl.
  - unfold goNext. case_bool_decide; [by apply pc_ok_go|done].
  - intros k Hk. rewrite EF, Ep. simpl. lia.
  - rewrite EF. split_and!; simpl; try done; [split; [done|lia]|]. split; [done|].
    intros H'. apply Hw in H'. done.
  - intros ch c E. destruct (inv_slots s H ch c E). rewrite Ep. unfold goNext, goWindow, goLocal, goGlobal.
    destruct (bool_decide (S i < _)%nat), ch, (cap j Window) eqn:?, (cap j Local) eqn:?, (cap j Global) eqn:?;
      simplify_eq; unfold holds; slot_arith.
  - unfold inHand. simpl. rewrite !andb_false_r. lia.
  - by left.
Qed.
Lemma inv_refuse s s' : inv s -> refuseItem s = Some s' -> inv s'.
Proof.
  intros H Hst. unfold refuseItem in Hst. destruct (pc s) as [| | |i|] eqn:Ep; try done.
  destruct (batchErr s) as [e|] eqn:Eb; [|done].
  lookup_item Hst Hi it. lookup_payload Hst Hp p. injection Hst as <-.
  pose proof (inv_pc s H) as Hpc. unfold pc_ok in Hpc. rewrite Ep in Hpc. destruct Hpc as [Hi' _].
  pose proof (inv_items s H i it Hi) as Hok. rewrite Ep in Hok. simpl in Hok.
  pose proof Hok as (Hf & Hw & Hit & _). assert (phase it = Fresh) as Eph by (by apply Hf).
  rewrite Eph in Hit. simpl in Hit. subst it. simpl.
  assert (nextOut s <= i)%nat as Hno by (by eapply fresh_answer).
  assert (frontier (if bool_decide (S i < size j)%nat then Refuse (S i) else Exited) = S i) as EF.
  { case_bool_decide; simpl; lia. }
  eapply (inv_update s _ i fresh); try done; simpl.
  - unfold pc_ok. simpl. case_bool_decide; [|done]. by rewrite Eb.
  - intros k Hk. rewrite EF, Ep. simpl. lia.
  - rewrite EF. split_and!; simpl; try done; [split; [done|lia]|split; [done|lia]|].
    eexists. split_and!; [done| |by rewrite andb_false_r]. exists p. split; [done|]. simpl. split; [done|by exists e].
  - intros ch c E. destruct (inv_slots s H ch c E). rewrite Ep.
    destruct (bool_decide (S i < _)%nat), ch; unfold holds; slot_arith.
  - unfold inHand. simpl. rewrite !andb_false_r. lia.
  - by right.
Qed.
Lemma inv_end i err sub s s' : inv s -> possible (End_ i err sub) -> endRelay i err sub s = Some s' -> inv s'.
Proof.
  intros H (p' & Hp' & Hout) Hst. unfold endRelay in Hst. lookup_item Hst Hi it. lookup_payload Hst Hp p.
  injection Hp' as <-. case_bool_decide as Eph; [|done].
  destruct (itemResult p err sub) as [r n] eqn:Er. injection Hst as <-.
  pose proof (inv_items s H i it Hi) as Hok. pose proof Hok as (Hf & Hw & Hit & _).
  assert (nextOut s <= i)%nat as Hno by (eapply fresh_answer; [done|by rewrite Eph]).
  rewrite Eph in Hit. simpl in Hit. subst it.
  assert (afterRelay <> Fresh /\ afterRelay <> Written /\ afterRelay <> Running /\ afterRelay <> Collected /\
    (forall ch, afterRelay = Giving ch -> ch <> Window /\ is_Some (cap j ch))) as (N1 & N2 & N3 & N4 & Hgive).
  { unfold afterRelay, afterGlobal. destruct (cap j Global) eqn:?, (cap j Local) eqn:?; split_and!; try done.
    all: intros ch [= <-]; split; [done|eauto]. }
  eapply (inv_update s _ i (mkItem Running true None 0 None)); try done; simpl.
  - apply (inv_pc s H).
  - split_and!; simpl.
    + split; [done|]. intros. apply Hf in H0. done.
    + split; [done|lia].
    + destruct afterRelay as [| |ch| | | |] eqn:Ea; try done. split_and!; [by apply Hgive..|done].
    + assert (exists r0, Some r = Some r0 /\ answers i (mkItem afterRelay true (Some r) n (Some r)) r0 /\
        Some r = (if streaming j && bool_decide (afterRelay = Written) then None else Some r0)) as Hans.
      { exists r. split_and!; [done| |by rewrite (bool_decide_eq_false_2 _ N2), andb_false_r].
        exists p. split; [done|]. simpl. exists err, sub. done. }
      by destruct afterRelay.
  - intros ch c E. destruct (inv_slots s H ch c E). unfold holds, afterRelay, afterGlobal. simpl.
    destruct ch, (cap j Local) eqn:?, (cap j Global) eqn:?; simplify_eq; slot_arith.
  - unfold isIn. simpl. by destruct afterRelay.
  - unfold inHand. simpl. rewrite (bool_decide_eq_false_2 _ N2), !andb_false_r. lia.
  - by right.
Qed.
Definition live (p : Phase) : bool := match p with Fresh | Running | Written => false | _ => true end.
Lemma item_moves fr no i it it' :
  item_ok fr no i it -> live (phase it) = true -> live (phase it') = true ->
  (started it', result it', bytes it', answer it') = (started it, result it, bytes it, answer it) ->
  match phase it' with
  | Giving ch => ch <> Window /\ is_Some (cap j ch) /\ started it' = true
  | Sending => started it' = true
  | _ => True
  end -> item_ok fr no i it'.
Proof.
  intros (Hf & Hw & _ & Hans) Hp Hp' [= E1 E2 E3 E4] Hit.
  assert (exists r, answer it = Some r /\ answers i it r /\ result it = Some r) as (r & Ha & Hr & Hres).
  { destruct (phase it); try done.
    all: destruct Hans as (r & ? & ? & Hx); rewrite andb_false_r in Hx; by exists r. }
  assert (exists r, answer it' = Some r /\ answers i it' r /\
    result it' = if streaming j && bool_decide (phase it' = Written) then None else Some r) as Hans'.
  { exists r. rewrite E4, E2, bool_decide_eq_false_2, andb_false_r by (by destruct (phase it')).
    split_and!; [done| |done]. unfold answers in *. by rewrite E1, E3. }
  assert (phase it <> Fresh /\ phase it' <> Fresh /\ phase it <> Written /\ phase it' <> Written) as (N1&N2&N3&N4)
    by (by destruct (phase it), (phase it')).
  split_and!; [tauto|tauto| |]; by destruct (phase it').
Qed.
Lemma inv_give i s s' : inv s -> giveSlot i s = Some s' -> inv s'.
Proof.
  intros H Hst. unfold giveSlot in Hst. lookup_item Hst Hi it.
  destruct (phase it) as [| |ch| | | |] eqn:Eph; try done. unfold receiveSlot in Hst.
  case_bool_decide as Hlt; [|done]. injection Hst as <-.
  pose proof (inv_items s H i it Hi) as Hok. pose proof Hok as (Hf & Hw & Hit & Hans). rewrite Eph in *.
  destruct Hit as (Hne & Hcap & Hstd). set (ph := match ch with Global => afterGlobal | _ => afterLocal end).
  assert ((ph = Sending /\ (ch = Global -> cap j Local = None)) \/ (ch = Global /\ ph = Giving Local /\ is_Some (cap j Local))) as Hph.
  { unfold ph, afterGlobal, afterLocal. destruct ch; [by left|by left|]. simpl.
    destruct (cap j Local) eqn:E; [right; eauto|by left]. }
  assert (forall x, pc (move ch (-1) x) = pc x /\ items (move ch (-1) x) = items x) as Hmv by (by destruct ch).
  eapply (inv_update s _ i it (with_phase ph it)); try done; simpl.
  - by destruct ch.
  - by destruct ch.
  - pose proof (inv_pc s H) as Hpc. unfold pc_ok in *. by destruct ch.
  - by destruct ch.
  - assert (frontier (pc (move ch (-1) s)) = frontier (pc s)) as -> by (by destruct ch).
    eapply item_moves; [exact Hok|by rewrite Eph| |done|].
    all: by destruct Hph as [[-> _]|(_ & -> & Hl)].
  - intros ch' c E. destruct (inv_slots s H ch' c E). unfold holds. rewrite Eph. simpl.
    assert (pc (move ch (-1) s) = pc s) as -> by (by destruct ch).
    clearbody ph. destruct ch, Hph as [[-> Hl]|(? & -> & Hl)], ch'; try done; try (by rewrite Hl in E); unfold Z.b2z in *; simpl in *; lia.
  - unfold isIn. simpl. rewrite Eph. by destruct Hph as [[-> _]|(_ & -> & _)].
  - by destruct Hph as [[-> _]|(_ & -> & _)].
  - unfold inHand. simpl. rewrite Eph, !andb_false_r.
    destruct Hph as [[-> _]|(_ & -> & _)]; rewrite andb_false_r; clear; destruct ch; simpl; lia.
  - by left.
Qed.
Lemma inv_tell i s s' : inv s -> tellReady i s = Some s' -> inv s'.
Proof.
  intros H Hst. unfold tellReady in Hst. lookup_item Hst Hi it. case_bool_decide as Eph; [|done]. injection Hst as <-.
  pose proof (inv_items s H i it Hi) as Hok. pose proof Hok as (Hf & Hw & Hit & Hans). rewrite Eph in *.
  eapply (inv_update s _ i it (with_phase Sent it)); try done; simpl.
  - apply (inv_pc s H).
  - eapply item_moves; [exact Hok|by rewrite Eph|done..].
  - intros ch' c E. destruct (inv_slots s H ch' c E). unfold holds. rewrite Eph. simpl.
    destruct ch'; unfold Z.b2z in *; simpl in *; lia.
  - unfold isIn. simpl. by rewrite Eph.
  - unfold inHand. simpl. rewrite Eph, !andb_false_r. lia.
  - by left.
Qed.

(** *** The collector and the rest of the world keep it *)
Lemma inv_others d s s' : inv s -> elsewhere d s = Some s' -> inv s'.
Proof.
  intros [] Hst. unfold elsewhere in Hst. destruct (cap j Global) as [c|] eqn:Ec; [|done].
  case_bool_decide as H0; [|done]. case_bool_decide as H1; [|done]. injection Hst as <-.
  split; try done.
  - intros ch c' E. specialize (inv_slots0 ch c' E). destruct ch; simpl in *; simplify_eq; lia.
Qed.
Lemma pc_ok_errs c e s : pc_ok s -> pc_ok (set_errs c (Some e) s).
Proof. unfold pc_ok. simpl. destruct (pc s); naive_solver. Qed.
Lemma inv_errs c e s : inv s -> inv (set_errs c (Some e) s).
Proof. intros []. split; try done. by apply pc_ok_errs. Qed.
Lemma inv_ctxDone e s s' : inv s -> ctxDone e s = Some s' -> inv s'.
Proof.
  intros H Hst. unfold ctxDone in Hst. destruct (ctxErr s); [done|]. destruct (_ || _); [|done].
  injection Hst as <-. by apply inv_errs.
Qed.
Lemma inv_open ok s s' : (0 < size j)%nat -> inv s -> openStream ok s = Some s' -> inv s'.
Proof.
  intros Hn H Hst. unfold openStream in Hst. case_bool_decide as Eo; [|done]. injection Hst as <-.
  assert (forall x, (items x, pc x, nextOut x, received x) = (items s, pc s, nextOut s, received s) ->
    (inWindow x, inLocal x, inGlobal x, foreign x, heldBytes x) =
    (inWindow s, inLocal s, inGlobal s, foreign s, heldBytes s) ->
    pc_ok x -> out_ok (set_collector Receiving (nextOut x) (received x) x) ->
    inv (set_collector Receiving (nextOut x) (received x) x)) as Hx.
  { intros x [= E1 E2 E3 E4] [= F1 F2 F3 F4 F5] Hpc Hout. destruct H as [].
    destruct inv_received0 as (R1 & R2 & R3). specialize (R2 Eo). rewrite Eo in *.
    split; simpl; rewrite ?E1, ?E2, ?E3, ?E4, ?F4, ?F5; try done.
    - intros ch c E. specialize (inv_slots0 ch c E). by destruct ch; simpl in *; rewrite ?F1, ?F2, ?F3.
    - split; [done|split; [done|]]. split; [done|lia].
    - intros it _. by apply inv_loop0.
    - by rewrite E3, E4 in Hout. }
  pose proof (inv_out s H) as Hout. pose proof (inv_pc s H) as Hpc. unfold out_ok in *. rewrite Eo in Hout.
  destruct (streaming j) eqn:Es; [|by apply Hx; unfold out_ok; rewrite ?Es].
  destruct Hout as [Ho Ha]. destruct ok; apply Hx; try done; simpl.
  - rewrite Ha, Ho. unfold textUpto. destruct H as []. destruct (decide (nextOut s = 0%nat)) as [->|Hne]; [done|].
    exfalso. destruct (lookup_lt_is_Some_2 (items s) 0) as [it Hit]; [lia|].
    destruct (inv_items0 0%nat it Hit) as (_ & Hw & _). assert (phase it = Written) as Ew by (apply Hw; lia).
    destruct inv_received0 as (R1 & R2 & _). rewrite (R2 Eo), Eo in R1.
    pose proof (total_pos isIn (items s) 0 it ltac:(intros x; unfold isIn; by destruct (phase x)) Hit) as Hp.
    unfold isIn in Hp at 1. rewrite Ew in Hp. simpl in *. lia.
  - by apply pc_ok_errs.
  - rewrite Ho. by left.
Qed.
Lemma inv_receive i s s' : inv s -> receiveItem i s = Some s' -> inv s'.
Proof.
  intros H Hst. unfold receiveItem in Hst. lookup_item Hst Hi it.
  case_bool_decide as Ec; [|done]. case_bool_decide as Eph; [|done]. injection Hst as <-.
  pose proof (inv_items s H i it Hi) as Hok. pose proof (inv_out s H) as Hout. destruct H as [].
  assert (forall f, total f (<[i := with_phase Collected it]> (items s)) =
    total f (items s) - f it + f (with_phase Collected it)) as Ht by (intros f; by apply total_insert).
  split; simpl; try done.
  - by rewrite length_insert.
  - intros k x [(-> & <- & _)|[_ Hk]]%list_lookup_insert_Some; [|by apply inv_items0].
    eapply item_moves; [exact Hok|by rewrite Eph|done..].
  - intros ch c E. destruct (inv_slots0 ch c E) as [H1 H2]. rewrite Ht. unfold holds at 2 3. rewrite Eph. simpl.
    destruct ch; simpl in *; lia.
  - rewrite Ht. unfold isIn at 2 3. rewrite Eph. simpl. rewrite Ec in *. simpl in *.
    destruct inv_received0 as (R1 & R2 & R3). split; [lia|]. split; [done|]. split; [done|]. by intros ?%R3.
  - rewrite Ht. unfold inHand at 2 3. simpl. rewrite Eph. rewrite !andb_false_r. lia.
  - unfold out_ok in *. simpl. rewrite Ec in Hout. destruct (streaming j); [|done].
    assert (forall k, textUpto (<[i := with_phase Collected it]> (items s)) k = textUpto (items s) k) as HT
      by (intros k; apply (text_insert _ _ it); [done|by left]).
    destruct (abandoned s); [|by rewrite HT]. destruct Hout as [->|(k & Hk & ->)]; [by left|right; exists k; by rewrite HT].
Qed.
Lemma inv_endTurn s : inv s -> collector s = Draining ->
  (forall it, items s !! nextOut s = Some it -> phase it <> Collected) -> inv (endTurn s).
Proof.
  intros H Ec Hnc. pose proof (inv_out s H) as Hout. destruct H as [].
  destruct inv_received0 as (R1 & R2 & R3). rewrite Ec in *. rewrite bool_decide_eq_true_2 in R1 by done. simpl in R1.
  pose proof (total_bounds isIn (items s) ltac:(intros x; unfold isIn; by destruct (phase x))) as Hb.
  rewrite inv_len0 in Hb. unfold endTurn. split; simpl; try done.
  - destruct (decide (S (received s) < size j)%nat) as [Hlt|Hge];
      [rewrite (bool_decide_eq_true_2 _ Hlt)|rewrite (bool_decide_eq_false_2 _ Hge)]; simpl.
    + split; [lia|]. split; [done|]. split; [done|lia].
    + split; [lia|]. split; [done|]. split; [lia|done].
  - intros it _. apply Hnc.
  - unfold out_ok in *. rewrite Ec in Hout. simpl. by destruct (bool_decide _).
Qed.

(** Passing one item, whatever was written. *)
Lemma writeItem_same k p it ok s :
  (items (writeItem k p it ok s), pc (writeItem k p it ok s), foreign (writeItem k p it ok s)) =
    (items s, pc s, foreign s) /\
  (forall ch, slots ch (writeItem k p it ok s) = slots ch s) /\
  (pc_ok s -> pc_ok (writeItem k p it ok s)).
Proof.
  assert (forall x, pc_ok x -> pc_ok (abandon x)) as Ha
    by (intros x Hx; by apply (pc_ok_errs _ _ (set_stream _ _ x))).
  unfold writeItem, write. destruct (negb (abandoned s) && _); [destruct (abandoned (abandon s)) eqn:E; [|done]|].
  - split_and!; [done|by intros []|apply Ha].
  - destruct (abandoned s); [done|]. destruct ok; [|split_and!; [done|by intros []|apply Ha]]. done.
Qed.
Lemma writeItem_out s p it ok r :
  streaming j = true -> out_ok s -> collector s = Draining ->
  items s !! nextOut s = Some it -> payloads j !! nextOut s = Some p ->
  result it = Some r -> answer it = Some r ->
  let s' := writeItem (nextOut s) p it ok s in
  if abandoned s' then out s' = [] \/ exists k, (k <= nextOut s)%nat /\ out s' = textUpto (items s) k
  else out s' = textUpto (items s) (S (nextOut s)).
Proof.
  intros Es Ho Ec Hi Hp Hr Ha. unfold out_ok in Ho. rewrite Es, Ec in Ho. cbv zeta. unfold writeItem, write.
  destruct (abandoned s) eqn:Ea; simpl; [by repeat (rewrite Ea; simpl)|].
  assert (out s = [] \/ exists k, (k <= nextOut s)%nat /\ out s = textUpto (items s) k) as Hk by (right; eauto).
  case_bool_decide; [done|]. rewrite ?Ea. destruct ok; [|done]. simpl. rewrite ?Ea, Ho. unfold textUpto.
  rewrite seq_S, fmap_app, join_app. cbn [fmap list_fmap Nat.add]. unfold piece at 3. rewrite Hp, Hi, Ha, Hr. simpl.
  by rewrite !app_nil_r.
Qed.
Lemma inv_pass s s' it p :
  inv s -> collector s = Draining -> items s !! nextOut s = Some it -> payloads j !! nextOut s = Some p ->
  phase it = Collected ->
  items s' = <[nextOut s := mkItem Written (started it) (if streaming j then None else result it) (bytes it) (answer it)]> (items s) ->
  (pc s', foreign s', collector s', nextOut s', received s') = (pc s, foreign s, Draining, S (nextOut s), received s) ->
  pc_ok s' -> heldBytes s' = (if streaming j then heldBytes s - bytes it else heldBytes s) ->
  (forall ch c, cap j ch = Some c -> slots ch s' = slots ch s -
     if bool_decide (ch = Window) then Z.b2z (started it) else 0) ->
  out_ok s' -> inv s'.
Proof.
  intros H Ec Hi Hp Eph Es' [= Epc Ef Ec' En Er] Hpc Hh Hs Hout.
  pose proof (inv_items s H _ it Hi) as Hok. destruct H as [].
  set (it' := mkItem Written _ _ _ _) in *.
  assert (forall f, total f (items s') = total f (items s) - f it + f it') as Ht.
  { intros f. rewrite Es'. by apply total_insert. }
  split; rewrite ?Epc, ?Ef, ?Ec', ?En, ?Er; try done.
  - by rewrite Es', length_insert.
  - intros k x. rewrite Es'. intros [(<- & <- & _)|[Hne Hk]]%list_lookup_insert_Some.
    + destruct Hok as (Hf & Hw & _ & Hans). rewrite Eph in *. destruct Hans as (r & Ha & Hr & Hres).
      rewrite andb_false_r in Hres. split; [|split; [|split; [done|]]]; simpl.
      * split; [done|]. by intros ?%Hf.
      * split; [lia|done].
      * exists r. split_and!; [done|done|]. by destruct (streaming j).
    + destruct (inv_items0 k x Hk) as (Hf & Hw & Hrest). split; [done|]. split; [|done]. rewrite Hw. lia.
  - apply lookup_lt_Some in Hi. lia.
  - intros ch c E. destruct (inv_slots0 ch c E) as [H1 H2]. rewrite Ht, (Hs ch c E). unfold holds at 2 3. rewrite Eph.
    simpl. destruct ch; simpl; destruct (started it); simpl in *; lia.
  - rewrite Ht. unfold isIn at 2 3. rewrite Eph. simpl. rewrite Ec in *. destruct inv_received0 as (R1 & R2 & R3). simpl in R1.
    split; [lia|]. split; [done|]. split; [done|]. by intros ?%R3.
  - rewrite Ht, Hh, inv_held0. unfold inHand at 4 5. simpl. rewrite Eph, andb_false_r. destruct (streaming j); simpl; lia.
Qed.
Lemma inv_drain ok s s' :
  (streaming j = false -> cap j Window = None) -> inv s -> drainItem ok s = Some s' -> inv s'.
Proof.
  intros Hwin H Hst. unfold drainItem in Hst. case_bool_decide as Ec; [|done].
  destruct (items s !! nextOut s) as [it|] eqn:Hi; [|injection Hst as <-; apply inv_endTurn; [done|done|]; intros it; by rewrite Hi].
  destruct (payloads j !! nextOut s) as [p|] eqn:Hp.
  2:{ exfalso. apply lookup_lt_Some in Hi. rewrite (inv_len s H) in Hi. apply lookup_ge_None in Hp. unfold size in *. lia. }
  case_bool_decide as Eph; [|injection Hst as <-; apply inv_endTurn; [done|done|]; intros it'; rewrite Hi; by intros [= <-]].
  pose proof (inv_items s H _ it Hi) as (_ & _ & _ & Hans). rewrite Eph in Hans.
  destruct Hans as (r & Ha & _ & Hres). rewrite andb_false_r in Hres.
  pose proof (inv_out s H) as Hout. destruct (streaming j) eqn:Es.
  - destruct (writeItem_same (nextOut s) p it ok s) as ([= W1 W2 W3] & W4 & W5).
    pose proof (writeItem_out s p it ok r Es Hout Ec Hi Hp Hres Ha) as HW. cbv zeta in HW.
    set (s0 := writeItem _ _ _ _ _) in *.
    assert (forall x, items x = <[nextOut s := mkItem Written (started it) None (bytes it) (answer it)]> (items s) ->
      (nextOut x, out x, abandoned x, collector x) = (S (nextOut s), out s0, abandoned s0, Draining) -> out_ok x) as Hox.
    { intros x Ex [= E1 E2 E3 E4]. unfold out_ok. rewrite Es, Ex, E1, E2, E3, E4.
      assert (forall k, textUpto (<[nextOut s := mkItem Written (started it) None (bytes it) (answer it)]> (items s)) k
        = textUpto (items s) k) as HT by (intros k; apply (text_insert _ _ it); [done|by left]).
      destruct (abandoned s0); [|by rewrite HT]. destruct HW as [->|(k & Hk & ->)]; [by left|].
      right. exists k. rewrite HT. split; [lia|done]. }
    destruct (started it && bool_decide (is_Some (cap j Window))) eqn:Est.
    + unfold receiveSlot in Hst. case_bool_decide; [|done]. injection Hst as <-.
      apply andb_true_iff in Est as [Est _].
      eapply (inv_pass s); rewrite ?Es; try done; simpl.
      * by rewrite W2, W3.
      * by apply W5, (inv_pc s H).
      * intros ch c _. pose proof (W4 ch) as Hw. destruct ch; simpl in *; rewrite Hw, ?Est; simpl; lia.
      * by apply Hox.
    + injection Hst as <-. eapply (inv_pass s); rewrite ?Es; try done; simpl.
      * by rewrite W2, W3.
      * by apply W5, (inv_pc s H).
      * intros ch c E. pose proof (W4 ch) as Hw. destruct ch; simpl in *; rewrite Hw; try lia.
        rewrite bool_decide_eq_true_2 in Est by eauto. rewrite andb_true_r in Est. rewrite Est. simpl. lia.
      * by apply Hox.
  - injection Hst as <-. eapply (inv_pass s); rewrite ?Es; try done; simpl.
    + apply (inv_pc s H).
    + intros ch c E. destruct ch; simpl; try lia. by rewrite Hwin in E.
    + by unfold out_ok; rewrite Es.
Qed.

(** *** Every run keeps it *)
Record fits (held : Z) : Prop := mkFits {
  fits_size : (0 < size j)%nat;
  fits_window : streaming j = false -> cap j Window = None;
  fits_caps ch c : cap j ch = Some c -> 0 < c;
  fits_held : 0 <= held /\ (forall c, cap j Global = Some c -> held <= c)
}.
Lemma inv_initial held err : fits held -> inv (initial held err).
Proof.
  intros []. assert (forall f : Item -> Z, f fresh = 0 -> total f (replicate (size j) fresh) = 0) as Ht.
  { intros f Hf. by rewrite total_replicate, Hf, Z.mul_0_r. }
  split; simpl; try done.
  - by rewrite length_replicate.
  - change (pc_ok (set_pc (goNext 0) (initial held err))). unfold goNext.
    rewrite bool_decide_eq_true_2 by done. by apply pc_ok_go.
  - intros i it [-> Hi]%lookup_replicate. destruct (frontier_go 0 fits_size0) as (_ & _ & _ & -> & _).
    split; [|split; [|done]]; simpl; split; done || lia.
  - lia.
  - intros ch c E. rewrite Ht by (by destruct ch). specialize (fits_caps0 ch c E). destruct fits_held0 as [H1 H2].
    unfold goNext, goWindow, goLocal, goGlobal. rewrite bool_decide_eq_true_2 by done.
    destruct ch; destruct (cap j Window) eqn:?, (cap j Local) eqn:?, (cap j Global) eqn:?; simplify_eq;
      try specialize (H2 _ eq_refl); slot_arith.
  - by destruct fits_held0.
  - rewrite Ht by done. split; [done|]. split; [done|]. split; [done|lia].
  - by intros it _ [-> _]%lookup_replicate.
  - rewrite Ht; [done|]. unfold inHand. by rewrite andb_false_r.
  - unfold out_ok. by destruct (streaming j).
Qed.
Lemma inv_act held a s s' : fits held -> inv s -> possible a -> act a s = Some s' -> inv s'.
Proof.
  intros [] H Ha Hst. destruct a; simpl in *.
  - by eapply inv_check.
  - by eapply inv_take.
  - by eapply inv_giveUp.
  - by eapply inv_drop.
  - by eapply inv_start.
  - by eapply inv_refuse.
  - by eapply inv_end.
  - by eapply inv_give.
  - by eapply inv_tell.
  - by eapply inv_open.
  - by eapply inv_receive.
  - by eapply inv_drain.
  - by eapply inv_others.
  - by eapply inv_ctxDone.
Qed.
Lemma exec_snoc l a s : exec (l ++ [a]) s = s' ← exec l s; act a s'.
Proof. unfold exec. by rewrite foldl_app. Qed.
Lemma exec_cons a l s s1 : act a s = Some s1 -> exec (a :: l) s = exec l s1.
Proof. unfold exec. simpl. by intros ->. Qed.
Lemma exec_inv held err l s : fits held -> Forall possible l -> exec l (initial held err) = Some s -> inv s.
Proof.
  intros Hf. revert s. induction l as [|a l IH] using rev_ind; intros s Hp Hs.
  - injection Hs as <-. by apply inv_initial.
  - apply Forall_app in Hp as [Hp [Ha _]%Forall_cons]. rewrite exec_snoc in Hs.
    destruct (exec l _) as [s1|]; [|done]. eapply inv_act; [done|by apply IH|done|done].
Qed.

(** *** How far it is from the end *)
Definition weight (it : Item) : Z :=
  match phase it with
  | Fresh => 20 | Running => 8 | Giving Global => 7 | Giving _ => 6 | Sending => 5 | Sent => 4
  | Collected => 1 | Written => 0
  end.
Definition pcWeight (p : DPC) : Z :=
  match p with
  | At Window _ c => if c then 7 else 8
  | At Local _ c => if c then 5 else 6
  | At Global _ c => if c then 3 else 4
  | Spawn _ => 2 | Drop Local _ => 2 | Drop _ _ => 1 | Refuse _ | Exited => 0
  end.
Definition left (s : St) : Z :=
  total weight (items s) + pcWeight (pc s) + match collector s with Opening | Draining => 1 | _ => 0 end.
Lemma weight_range it : 0 <= weight it <= 20.
Proof. unfold weight. by destruct (phase it) as [| |[]| | | |]. Qed.
Lemma left_nonneg s : 0 <= left s.
Proof.
  assert (0 <= total weight (items s)) as H.
  { induction (items s) as [|a l IH]; simpl; [done|]. pose proof (weight_range a). lia. }
  unfold left, pcWeight. destruct (pc s) as [[] ? []| |[]| |], (collector s); lia.
Qed.
Lemma move_same ch d s : (items (move ch d s), pc (move ch d s), collector (move ch d s)) =
  (items s, pc s, collector s).
Proof. by destruct ch. Qed.
Lemma left_update s s' i it it' :
  items s !! i = Some it -> items s' = <[i := it']> (items s) -> (pc s', collector s') = (pc s, collector s) ->
  weight it' < weight it -> left s' < left s.
Proof.
  intros Hi Ei [= Ep Ec] Hw. unfold left. rewrite Ei, Ep, Ec, (total_insert _ _ _ it) by done. lia.
Qed.
Lemma dispatch_decreases a s s' :
  a ∈ [Check; Take; GiveUp; DropSlot] -> act a s = Some s' -> left s' < left s.
Proof.
  assert (forall p x, items x = items s -> collector x = collector s -> pcWeight p < pcWeight (pc s) ->
    left (set_pc p x) < left s) as Hp.
  { intros p x Ei Ec Hq. unfold left. simpl. rewrite Ei, Ec. lia. }
  intros Ha Hst. unfold pcWeight in Hp.
  repeat (apply elem_of_cons in Ha as [->|Ha]); [..|by apply elem_of_nil in Ha]; simpl in Hst;
    unfold checkCtx, takeSlot, giveUp, dropSlot, receiveSlot in Hst;
    destruct (pc s) as [ch i []| |ch i| |] eqn:Ep; try done.
  - injection Hst as <-. apply Hp; [done|done|].
    unfold failed, giveLocal, giveWindow. destruct (batchErr s), ch, (cap j Window), (cap j Local); lia.
  - destruct (cap j ch); [|done]. case_bool_decide; [|done]. injection Hst as <-.
    apply Hp; [by destruct ch|by destruct ch|].
    unfold got, goLocal, goGlobal. destruct ch, (cap j Local), (cap j Global); lia.
  - destruct (batchErr s); [|done]. injection Hst as <-. apply Hp; [done|done|].
    unfold failed, giveLocal, giveWindow. destruct ch, (cap j Window), (cap j Local); lia.
  - case_bool_decide; [|done]. injection Hst as <-. apply Hp; [by destruct ch|by destruct ch|].
    unfold dropped, giveWindow. destruct ch, (cap j Window); lia.
Qed.
Lemma act_decreases a s s' : inv s -> own a = true -> act a s = Some s' -> left s' < left s.
Proof.
  intros Hinv Ha Hst. destruct a; try done; try (by eapply dispatch_decreases; [|exact Hst]; set_solver); simpl in Hst.
  - unfold startItem in Hst. destruct (pc s) as [|i| | |] eqn:Ep; try done. lookup_item Hst Hi it. injection Hst as <-.
    destruct (inv_items s Hinv i it Hi) as (Hf & _). rewrite Ep in Hf. assert (phase it = Fresh) as E by (by apply Hf).
    unfold left. simpl. rewrite (total_insert _ _ _ it) by done. unfold weight at 2 3. rewrite E, Ep. simpl.
    unfold goNext, goWindow, goLocal, goGlobal.
    destruct (bool_decide _), (cap j Window), (cap j Local), (cap j Global); simpl; lia.
  - unfold refuseItem in Hst. destruct (pc s) as [| | |i|] eqn:Ep; try done. destruct (batchErr s); [|done].
    lookup_item Hst Hi it. lookup_payload Hst Hp p. injection Hst as <-.
    destruct (inv_items s Hinv i it Hi) as (Hf & _). rewrite Ep in Hf. assert (phase it = Fresh) as E by (by apply Hf).
    unfold left. simpl. rewrite (total_insert _ _ _ it) by done. unfold weight at 2 3. rewrite E, Ep. simpl.
    destruct (bool_decide _); simpl; lia.
  - unfold endRelay in Hst. lookup_item Hst Hi it. lookup_payload Hst Hp p. case_bool_decide as E; [|done].
    destruct (itemResult p err sub) as [r n]. injection Hst as <-.
    eapply left_update; [done|done|done|]. unfold weight. rewrite E. simpl. unfold afterRelay, afterGlobal.
    destruct (cap j Global), (cap j Local); lia.
  - unfold giveSlot, receiveSlot in Hst. lookup_item Hst Hi it. destruct (phase it) as [| |ch| | | |] eqn:E; try done.
    case_bool_decide; [|done]. injection Hst as <-. eapply left_update; [exact Hi|done|by destruct ch|].
    unfold weight. rewrite E. simpl. unfold afterGlobal, afterLocal. destruct ch, (cap j Local); lia.
  - unfold tellReady in Hst. lookup_item Hst Hi it. case_bool_decide as E; [|done]. injection Hst as <-.
    eapply left_update; [done|done|done|]. unfold weight. by rewrite E.
  - unfold openStream in Hst. case_bool_decide as E; [|done]. injection Hst as <-. unfold left. rewrite E.
    assert (forall x, items x = items s -> pc x = pc s -> total weight (items x) + pcWeight (pc x) + 0 <
      total weight (items s) + pcWeight (pc s) + 1) as Hx by (intros x -> ->; lia).
    simpl. destruct (streaming j), ok; by apply Hx.
  - unfold receiveItem in Hst. lookup_item Hst Hi it. case_bool_decide as Ec; [|done].
    case_bool_decide as E; [|done]. injection Hst as <-. unfold left. simpl.
    rewrite (total_insert _ _ _ it) by done. unfold weight at 2 3. rewrite E, Ec. simpl. lia.
  - unfold drainItem, receiveSlot in Hst. case_bool_decide as Ec; [|done].
    assert (left (endTurn s) < left s) as Hend.
    { unfold left, endTurn. cbn [items pc collector set_collector]. rewrite Ec. destruct (bool_decide (S _ < _)%nat); lia. }
    destruct (items s !! nextOut s) as [it|] eqn:Hi, (payloads j !! nextOut s) as [p|]; try (by injection Hst as <-).
    case_bool_decide as E; [|by injection Hst as <-].
    destruct (writeItem_same (nextOut s) p it ok s) as ([= W1 W2 W3] & _).
    destruct (streaming j).
    + destruct (started it && _); [case_bool_decide; [|done]|]; injection Hst as <-.
      all: eapply left_update; [exact Hi|done|simpl; by rewrite W2, Ec|]; unfold weight; by rewrite E.
    + injection Hst as <-. eapply left_update; [exact Hi|done|simpl; by rewrite Ec|]. unfold weight. by rewrite E.
Qed.

(** *** There is always something to do *)
Definition enabled (s : St) : Prop := exists a, own a = true /\ possible a /\ is_Some (act a s).
Lemma total_witness f l : (forall it, 0 <= f it <= 1) -> 0 < total f l -> exists i it, l !! i = Some it /\ f it = 1.
Proof.
  intros Hf. induction l as [|a l IH]; simpl; [lia|]. intros H. pose proof (Hf a).
  destruct (decide (f a = 1)) as [E|E]; [by exists 0%nat, a|].
  destruct IH as (i & it & Hi & E'); [lia|]. by exists (S i), it.
Qed.
Lemma b2z_range b : 0 <= Z.b2z b.
Proof. destruct b; simpl; lia. Qed.
Lemma holds_range ch it : 0 <= holds ch it <= 1.
Proof. unfold holds, Z.b2z. destruct ch, (phase it) as [| |[]| | | |]; simpl; try lia; destruct (started it); lia. Qed.
Lemma holds_pos ch s i it c : inv s -> cap j ch = Some c -> items s !! i = Some it -> holds ch it = 1 ->
  0 < slots ch s.
Proof.
  intros H Ec Hi Hh. destruct (inv_slots s H ch c Ec) as [Hs _].
  pose proof (total_pos (holds ch) (items s) i it ltac:(intros x; apply holds_range) Hi).
  pose proof (inv_foreign s H). rewrite Hs.
  assert (0 <= dispatcherHolds ch (pc s)) by (unfold dispatcherHolds; apply b2z_range).
  destruct (bool_decide _); lia.
Qed.
Lemma payload_at s i it : inv s -> items s !! i = Some it -> is_Some (payloads j !! i).
Proof. intros H Hi%lookup_lt_Some. rewrite (inv_len s H) in Hi. by apply lookup_lt_is_Some_2. Qed.
Lemma item_at s i : inv s -> (i < size j)%nat -> is_Some (items s !! i).
Proof. intros H Hi. rewrite <- (inv_len s H) in Hi. by apply lookup_lt_is_Some_2. Qed.
Lemma busy_enabled s i it : inv s -> items s !! i = Some it ->
  match phase it with Running | Giving _ | Sending => True | _ => False end -> enabled s.
Proof.
  intros H Hi Hph. destruct (phase it) as [| |ch| | | |] eqn:E; try done.
  - destruct (payload_at s i it H Hi) as [p Hp]. set (err := Some (OtherError "" None)).
    exists (End_ i err (subContext (ctx j) p)). split_and!; [done| |].
    + exists p. split; [done|]. right. by exists "".
    + simpl. unfold endRelay. rewrite Hi. cbn [mbind option_bind]. rewrite Hp. cbn [mbind option_bind].
      rewrite bool_decide_eq_true_2 by done. by destruct (itemResult _ _ _).
  - destruct (inv_items s H i it Hi) as (_ & _ & Hit & _). rewrite E in Hit. destruct Hit as (Hne & [c Hc] & _).
    exists (Give i). split_and!; [done|done|]. simpl. unfold giveSlot, receiveSlot. rewrite Hi. simpl. rewrite E.
    rewrite bool_decide_eq_true_2; [by eexists|]. eapply holds_pos; [done|exact Hc|exact Hi|]. unfold holds. rewrite E.
    by destruct ch.
  - exists (Tell i). split_and!; [done|done|]. simpl. unfold tellReady. rewrite Hi. simpl.
    by rewrite bool_decide_eq_true_2.
Qed.
Lemma drain_enabled s : inv s -> collector s = Draining -> enabled s.
Proof.
  intros H Ec. exists (Drain true). split_and!; [done|done|]. simpl. unfold drainItem, receiveSlot.
  rewrite (bool_decide_eq_true_2 (collector s = Draining)) by done.
  destruct (items s !! nextOut s) as [it|] eqn:Hi; [|done]. destruct (payloads j !! nextOut s) as [p|]; [|done].
  case_bool_decide as E; [|done]. destruct (streaming j); [|done].
  destruct (started it) eqn:Est; [|done]. simpl. case_bool_decide as Hc; [|done]. destruct Hc as [c Hc].
  rewrite bool_decide_eq_true_2; [done|].
  destruct (writeItem_same (nextOut s) p it true s) as (_ & HW & _). specialize (HW Window). simpl in HW. rewrite HW.
  change (inWindow s) with (slots Window s). eapply holds_pos; [done|done|exact Hi|]. unfold holds. by rewrite E, Est.
Qed.
Lemma open_enabled s : collector s = Opening -> enabled s.
Proof.
  intros Ec. exists (Open true). split_and!; [done|done|]. simpl. unfold openStream. by rewrite bool_decide_eq_true_2.
Qed.
Lemma head_enabled s it : inv s -> collector s <> Finished -> items s !! nextOut s = Some it ->
  phase it <> Fresh -> enabled s.
Proof.
  intros H Hc Hi Hf. destruct (collector s) eqn:Ec; [by apply open_enabled| |by apply drain_enabled|done].
  destruct (inv_items s H _ it Hi) as (_ & Hw & _).
  destruct (phase it) as [| |ch| | | |] eqn:E; try (by eapply busy_enabled; [done|exact Hi|rewrite E]); try done.
  - exists (Receive (nextOut s)). split_and!; [done|done|]. simpl. unfold receiveItem. rewrite Hi. simpl.
    by rewrite !bool_decide_eq_true_2.
  - exfalso. eapply (inv_loop s H it); [by rewrite Ec|done|done].
  - assert (nextOut s < nextOut s)%nat; [by apply Hw|lia].
Qed.
Lemma passed_enabled s : inv s -> collector s <> Finished -> nextOut s = size j -> enabled s.
Proof.
  intros H Hc En. destruct (collector s) eqn:Ec; [by apply open_enabled| |by apply drain_enabled|done].
  exfalso. destruct (inv_received s H) as (R1 & _ & R3). rewrite Ec in R1, R3. simpl in R1.
  assert (total isIn (items s) = Z.of_nat (size j)) as Ht.
  { rewrite <- (inv_len s H). pose proof (inv_items s H) as Hit. rewrite En in Hit.
    assert (forall i it, items s !! i = Some it -> isIn it = 1) as H1.
    { intros i it Hi. destruct (Hit i it Hi) as (_ & Hw & _). unfold isIn.
      rewrite (proj2 Hw); [done|]. rewrite <- (inv_len s H). by eapply lookup_lt_Some. }
    clear -H1. induction (items s) as [|a l IH]; [done|]. simpl. rewrite (H1 0%nat a) by done.
    rewrite IH; [lia|]. intros i it Hi. by apply (H1 (S i)). }
  assert (Receiving = Finished) by (apply R3; lia). done.
Qed.
Lemma progress held s : fits held -> inv s -> collector s <> Finished ->
  enabled s \/
  exists i c, pc s = At Global i true /\ cap j Global = Some c /\ foreign s = c /\ batchErr s = None.
Proof.
  intros Hfit H Hc. pose proof (inv_pc s H) as Hpc. unfold pc_ok in Hpc.
  assert (forall i it, items s !! i = Some it -> phase it <> Fresh -> phase it <> Written -> enabled s) as Hbehind.
  { intros i it Hi Hnf Hnw. assert (nextOut s <= i)%nat as Hle by (by eapply fresh_answer; [eapply inv_items|]).
    pose proof (lookup_lt_Some _ _ _ Hi) as Hlt. rewrite (inv_len s H) in Hlt.
    destruct (item_at s (nextOut s) H ltac:(lia)) as [x Hx]. eapply head_enabled; [done|done|exact Hx|].
    destruct (inv_items s H _ x Hx) as (Hf & _). destruct (inv_items s H _ it Hi) as (Hf' & _).
    intros E%Hf. apply Hnf, Hf'. lia. }
  destruct (pc s) as [ch i []|i|ch i|i|] eqn:Ep.
  - destruct Hpc as (Hi & [c Hcap]). destruct (inv_slots s H ch c Hcap) as [Hs Hle].
    destruct (decide (slots ch s < c)) as [Hlt|Hge].
    { left. exists Take. split_and!; [done|done|]. simpl. unfold takeSlot. rewrite Ep, Hcap. by rewrite bool_decide_eq_true_2. }
    destruct (batchErr s) as [e|] eqn:Eb.
    { left. exists GiveUp. split_and!; [done|done|]. simpl. unfold giveUp. by rewrite Ep, Eb. }
    assert (dispatcherHolds ch (pc s) = 0) as Hd by (rewrite Ep; by destruct ch). rewrite Hd in Hs.
    pose proof (fits_caps held Hfit ch c Hcap). 
    destruct (decide (0 < total (holds ch) (items s))) as [Hpos|Hzero].
    + left. destruct (total_witness (holds ch) (items s) (holds_range ch) Hpos) as (k & it & Hk & Hh).
      apply (Hbehind k it Hk); intros E; unfold holds in Hh; rewrite E in Hh; [|by destruct ch].
      destruct (inv_items s H k it Hk) as (_ & _ & Hit & _). rewrite E in Hit. subst it. by destruct ch.
    + assert (0 <= total (holds ch) (items s)) by (apply total_bounds; apply holds_range).
      destruct ch; simpl in *; [lia|lia|]. right. exists i, c. split_and!; [done|done|simpl in *; lia|done].
  - left. exists Check. split_and!; [done|done|]. simpl. unfold checkCtx. by rewrite Ep.
  - left. exists Start. split_and!; [done|done|]. simpl. unfold startItem. rewrite Ep.
    by destruct (item_at s i H Hpc) as [it ->].
  - left. destruct Hpc as (Hi & [c Hcap] & Hg & He). exists DropSlot. split_and!; [done|done|]. simpl.
    unfold dropSlot, receiveSlot. rewrite Ep. rewrite bool_decide_eq_true_2; [done|].
    destruct (inv_slots s H ch c Hcap) as [Hs _]. rewrite Ep in Hs. pose proof (inv_foreign s H).
    assert (0 <= total (holds ch) (items s)) by (apply total_bounds; apply holds_range).
    destruct ch; [..|done]; slot_arith.
  - left. destruct Hpc as (Hi & [e He]). exists RefuseItem. split_and!; [done|done|]. simpl. unfold refuseItem.
    rewrite Ep, He. destruct (item_at s i H Hi) as [it Hit]. rewrite Hit. cbn [mbind option_bind].
    by destruct (payload_at s i it H Hit) as [p ->].
  - left. destruct (decide (nextOut s < size j)%nat) as [Hlt|Hge].
    + destruct (item_at s (nextOut s) H Hlt) as [it Hit]. eapply head_enabled; [done|done|exact Hit|].
      destruct (inv_items s H _ it Hit) as (Hf & _). rewrite Ep in Hf. simpl in Hf. intros E%Hf. lia.
    + apply passed_enabled; [done|done|]. pose proof (inv_next s H). lia.
Qed.

(** *** An item is refused only when the batch's context has ended *)
Record errs_ok (s : St) : Prop := mkErrs {
  errs_ctx : is_Some (ctxErr s) -> is_Some (batchErr s);
  errs_refused i it : items s !! i = Some it -> started it = false -> phase it <> Fresh -> is_Some (batchErr s)
}.
Lemma errs_items s s' : errs_ok s -> (is_Some (batchErr s) -> is_Some (batchErr s')) ->
  (is_Some (ctxErr s') -> is_Some (batchErr s')) ->
  (items s' = items s \/ is_Some (batchErr s') \/ exists i it it', items s !! i = Some it /\
     items s' = <[i := it']> (items s) /\ (started it' = true \/ (started it' = started it /\ phase it <> Fresh))) ->
  errs_ok s'.
Proof.
  intros [H1 H2] Hm Hc Hi. split; [done|]. intros k x Hk Hs Hf.
  destruct Hi as [E|[E|(i & it & it' & Hi & E & Ho)]]; [rewrite E in Hk; eauto|done|].
  rewrite E in Hk. apply list_lookup_insert_Some in Hk as [(-> & -> & _)|[_ Hk]]; [|eauto].
  destruct Ho as [Ho|[Ho Hf']]; [congruence|]. apply Hm. eapply H2; [exact Hi|congruence|done].
Qed.
Lemma writeItem_errs k p it ok s : errs_ok s ->
  (is_Some (batchErr s) -> is_Some (batchErr (writeItem k p it ok s))) /\
  (is_Some (ctxErr (writeItem k p it ok s)) -> is_Some (batchErr (writeItem k p it ok s))).
Proof.
  intros [H1 _]. unfold writeItem, write. destruct (negb (abandoned s) && _).
  - simpl. by split; eauto.
  - destruct (abandoned s); [done|]. destruct ok; [done|]. simpl. by split; eauto.
Qed.
Lemma errs_act a s s' : inv s -> errs_ok s -> act a s = Some s' -> errs_ok s'.
Proof.
  intros Hinv H Hst. pose proof (errs_ctx s H) as Hc. destruct a; simpl in Hst.
  - unfold checkCtx in Hst. destruct (pc s) as [ch i []| | | |]; try done. injection Hst as <-.
    apply (errs_items s); auto.
  - unfold takeSlot in Hst. destruct (pc s) as [ch i []| | | |]; try done. destruct (cap j ch); [|done].
    case_bool_decide; [|done]. injection Hst as <-. by destruct ch; apply (errs_items s); auto.
  - unfold giveUp in Hst. destruct (pc s) as [ch i []| | | |]; try done. destruct (batchErr s) eqn:Eb; [|done].
    injection Hst as <-. apply (errs_items s); simpl; rewrite ?Eb; eauto.
  - unfold dropSlot, receiveSlot in Hst. destruct (pc s) as [| |ch i| |]; try done. case_bool_decide; [|done].
    injection Hst as <-. by destruct ch; apply (errs_items s); auto.
  - unfold startItem in Hst. destruct (pc s) as [|i| | |]; try done. lookup_item Hst Hi it. injection Hst as <-.
    apply (errs_items s); auto. right; right. do 3 eexists. split_and!; [exact Hi|done|by left].
  - unfold refuseItem in Hst. destruct (pc s) as [| | |i|]; try done. destruct (batchErr s) eqn:Eb; [|done].
    lookup_item Hst Hi it. lookup_payload Hst Hp p. injection Hst as <-.
    apply (errs_items s); simpl; rewrite ?Eb; eauto.
  - unfold endRelay in Hst. lookup_item Hst Hi it. lookup_payload Hst Hp p. case_bool_decide as E; [|done].
    destruct (itemResult p err sub). injection Hst as <-.
    apply (errs_items s); auto. right; right. do 3 eexists. split_and!; [exact Hi|done|right; by rewrite E].
  - unfold giveSlot, receiveSlot in Hst. lookup_item Hst Hi it. destruct (phase it) as [| |ch| | | |] eqn:E; try done.
    case_bool_decide; [|done]. injection Hst as <-.
    destruct ch; apply (errs_items s); auto; right; right; do 3 eexists; (split_and!; [exact Hi|done|right; by rewrite E]).
  - unfold tellReady in Hst. lookup_item Hst Hi it. case_bool_decide as E; [|done]. injection Hst as <-.
    apply (errs_items s); auto. right; right. do 3 eexists. split_and!; [exact Hi|done|right; by rewrite E].
  - unfold openStream in Hst. case_bool_decide as E; [|done]. injection Hst as <-.
    destruct (streaming j), ok; apply (errs_items s); simpl; eauto.
  - unfold receiveItem in Hst. lookup_item Hst Hi it. case_bool_decide; [|done]. case_bool_decide as E; [|done].
    injection Hst as <-. apply (errs_items s); auto. right; right. do 3 eexists.
    split_and!; [exact Hi|done|right; by rewrite E].
  - unfold drainItem, receiveSlot in Hst. case_bool_decide; [|done].
    assert (errs_ok (endTurn s)) as Hend by (apply (errs_items s); auto).
    destruct (items s !! nextOut s) as [it|] eqn:Hi, (payloads j !! nextOut s) as [p|]; try (by injection Hst as <-).
    case_bool_decide as E; [|by injection Hst as <-].
    destruct (writeItem_errs (nextOut s) p it ok s H) as [E1 E2].
    destruct (streaming j); [destruct (started it && _); [case_bool_decide; [|done]|]|]; injection Hst as <-.
    all: apply (errs_items s); auto; right; right; do 3 eexists; (split_and!; [exact Hi|done|right; by rewrite E]).
  - unfold elsewhere in Hst. destruct (cap j Global); [|done]. destruct (_ && _); [|done]. injection Hst as <-.
    apply (errs_items s); auto.
  - unfold ctxDone in Hst. destruct (ctxErr s); [done|]. destruct (_ || _); [|done]. injection Hst as <-.
    apply (errs_items s); simpl; eauto.
Qed.
Lemma batch_mono a s s' : errs_ok s -> act a s = Some s' -> is_Some (batchErr s) -> is_Some (batchErr s').
Proof.
  intros H Hst Hb. destruct a; simpl in Hst.
  - unfold checkCtx in Hst. destruct (pc s) as [ch i []| | | |]; try done. by injection Hst as <-.
  - unfold takeSlot in Hst. destruct (pc s) as [ch i []| | | |]; try done. destruct (cap j ch); [|done].
    case_bool_decide; [|done]. injection Hst as <-. by destruct ch.
  - unfold giveUp in Hst. destruct (pc s) as [ch i []| | | |]; try done. destruct (batchErr s) eqn:E; [|done].
    injection Hst as <-. by rewrite <- E in Hb.
  - unfold dropSlot, receiveSlot in Hst. destruct (pc s) as [| |ch i| |]; try done. case_bool_decide; [|done].
    injection Hst as <-. by destruct ch.
  - unfold startItem in Hst. destruct (pc s) as [|i| | |]; try done. lookup_item Hst Hi it. by injection Hst as <-.
  - unfold refuseItem in Hst. destruct (pc s) as [| | |i|]; try done. destruct (batchErr s) eqn:E; [|done].
    lookup_item Hst Hi it. lookup_payload Hst Hp p. injection Hst as <-. by rewrite <- E in Hb.
  - unfold endRelay in Hst. lookup_item Hst Hi it. lookup_payload Hst Hp p. case_bool_decide; [|done].
    destruct (itemResult p err sub). by injection Hst as <-.
  - unfold giveSlot, receiveSlot in Hst. lookup_item Hst Hi it. destruct (phase it) as [| |ch| | | |]; try done.
    case_bool_decide; [|done]. injection Hst as <-. by destruct ch.
  - unfold tellReady in Hst. lookup_item Hst Hi it. case_bool_decide; [|done]. by injection Hst as <-.
  - unfold openStream in Hst. case_bool_decide; [|done]. injection Hst as <-.
    destruct (streaming j), ok; simpl; eauto.
  - unfold receiveItem in Hst. lookup_item Hst Hi it. destruct (_ && _); [|done]. by injection Hst as <-.
  - unfold drainItem, receiveSlot in Hst. case_bool_decide; [|done].
    destruct (items s !! nextOut s) as [it|], (payloads j !! nextOut s) as [p|]; try (by injection Hst as <-).
    destruct (bool_decide (phase it = Collected)); [|by injection Hst as <-].
    destruct (writeItem_errs (nextOut s) p it ok s H) as [E1 _].
    destruct (streaming j); [destruct (started it && _); [case_bool_decide; [|done]|]|]; injection Hst as <-; simpl; auto.
  - unfold elsewhere in Hst. destruct (cap j Global); [|done]. destruct (_ && _); [|done]. by injection Hst as <-.
  - unfold ctxDone in Hst. destruct (ctxErr s); [done|]. destruct (_ || _); [|done]. injection Hst as <-. simpl. eauto.
Qed.
Lemma exec_errs held err l s : fits held -> Forall possible l -> exec l (initial held err) = Some s -> errs_ok s.
Proof.
  intros Hf. revert s. induction l as [|a l IH] using rev_ind; intros s Hp Hs.
  - injection Hs as <-. split; [done|]. by intros i it [-> _]%lookup_replicate.
  - apply Forall_app in Hp as [Hp [Ha _]%Forall_cons]. rewrite exec_snoc in Hs.
    destruct (exec l _) as [s1|] eqn:E; [|done]. eapply errs_act; [by eapply exec_inv|by apply IH|done].
Qed.

(** *** A finished batch *)
Lemma finished_written s : inv s -> collector s = Finished ->
  pc s = Exited /\ forall i it, items s !! i = Some it -> phase it = Written.
Proof.
  intros H Ec. destruct (inv_received s H) as (R1 & _ & R3). rewrite Ec in R1. simpl in R1.
  assert (received s = size j) as Er by (by apply R3).
  assert (forall i it, items s !! i = Some it -> isIn it = 1) as Hin.
  { apply total_full; [rewrite (inv_len s H); lia|]. intros x. unfold isIn. by destruct (phase x). }
  assert (nextOut s = size j) as En.
  { pose proof (inv_next s H). destruct (decide (nextOut s < size j)%nat) as [Hlt|]; [|lia].
    destruct (item_at s (nextOut s) H Hlt) as [it Hit]. specialize (Hin _ _ Hit). unfold isIn in Hin.
    destruct (inv_items s H _ it Hit) as (_ & Hw & _). pose proof (inv_loop s H it) as Hl.
    destruct (phase it) eqn:E; try done; [by exfalso; apply Hl; rewrite ?Ec|]. assert (nextOut s < nextOut s)%nat; [by apply Hw|lia]. }
  assert (forall i it, items s !! i = Some it -> phase it = Written) as Hall.
  { intros i it Hi. destruct (inv_items s H i it Hi) as (_ & Hw & _). apply Hw. rewrite En, <- (inv_len s H).
    by eapply lookup_lt_Some. }
  split; [|done]. pose proof (inv_pc s H) as Hpc. unfold pc_ok in Hpc.
  assert (forall i, (i < size j)%nat -> frontier (pc s) <> i) as Hfr.
  { intros i Hi Hf. destruct (item_at s i H Hi) as [it Hit]. destruct (inv_items s H i it Hit) as (Hfresh & _).
    rewrite (Hall i it Hit), Hf in Hfresh. assert (Written = Fresh) by (apply Hfresh; lia). done. }
  destruct (pc s) as [ch i ?|i|ch i|i|] eqn:Ep; try done; exfalso; by eapply (Hfr i); [apply Hpc|].
Qed.

(** *** Rendering piece by piece is merging *)
Lemma mergeLoop_app i out a b :
  mergeLoop i out (a ++ b) = x ← mergeLoop i out a; mergeLoop (i + length a) x b.
Proof.
  revert i out. induction a as [|r a IH]; intros i out; simpl; [by rewrite Nat.add_0_r|].
  destruct (appendItem r) as [t|]; simpl; [|done]. rewrite IH. by rewrite Nat.add_succ_r.
Qed.
Lemma merge_text l xs k :
  (forall i, (i < k)%nat -> exists p it x, payloads j !! i = Some p /\ l !! i = Some it /\ xs !! i = Some x /\
     appendItem (Some x) = Some (itemText p (answer it))) ->
  (k <= length xs)%nat -> mergeLoop 0 ["["%char] (Some <$> take k xs) = Some (textUpto l k).
Proof.
  intros Hok Hk. induction k as [|k IH]; [done|].
  destruct (Hok k ltac:(lia)) as (p & it & x & Hp & Hi & Hx & Et). rewrite (take_S_r _ _ x) by done.
  rewrite fmap_app, mergeLoop_app, IH by (lia || (intros; apply Hok; lia)). cbn [mbind option_bind].
  rewrite length_fmap, length_take_le by lia. cbn [fmap list_fmap mergeLoop].
  rewrite Et. cbn [mbind option_bind]. unfold textUpto. rewrite seq_S, fmap_app, join_app.
  assert (piece l k = (if bool_decide (0 < k)%nat then [","%char] else []) ++ itemText p (answer it)) as Epc.
  { unfold piece. by rewrite Hp, Hi. }
  cbn [fmap list_fmap Nat.add mergeLoop]. rewrite Epc. f_equal. simpl. f_equal. rewrite app_nil_r.
  destruct (bool_decide (0 < k)%nat); simpl; by rewrite <- ?app_assoc.
Qed.

Lemma ends_when_done held m s : fits held -> (Z.to_nat (left s) <= m)%nat -> inv s -> errs_ok s ->
  is_Some (batchErr s) ->
  exists l' s', Forall possible l' /\ exec l' s = Some s' /\ collector s' = Finished /\
    filter (λ a, own a = false) l' = [].
Proof.
  intros Hf. revert s. induction m as [|m IH]; intros s Hm Hinv Herr Hb;
    (destruct (decide (collector s = Finished)) as [Ec|Ec]; [by exists [], s|]);
    (destruct (progress held s Hf Hinv Ec) as [(a & Ho & Hpa & [s1 Ha])|(?&?&_&_&_&E)];
      [|rewrite E in Hb; by destruct Hb]);
    pose proof (act_decreases a s s1 Hinv Ho Ha) as Hd; pose proof (left_nonneg s1); [lia|].
  destruct (IH s1) as (l & s2 & Hl & Hx & Hfin & Hlen);
    [lia|by eapply inv_act|by eapply errs_act|by eapply batch_mono|].
  exists (a :: l), s2. rewrite (exec_cons a l s s1) by done. split_and!; [by constructor|done|done|].
  rewrite filter_cons_False by (by rewrite Ho). done.
Qed.

(** C10. A batch always ends.  Its goroutines together take at most twenty
    actions per payload and nine more, whatever they are interleaved with; until
    it has finished one of them can always act, unless the dispatcher waits for
    the global ceiling, other batches hold all of it, and the request is still
    wanted; and from there too it finishes, once the request's context ends. *)
Theorem batches_end held err l s :
  fits held -> Forall possible l -> exec l (initial held err) = Some s ->
  Z.of_nat (length (filter (λ a, own a = true) l)) <= 20 * Z.of_nat (size j) + 9 /\
  (collector s <> Finished ->
    enabled s \/
    exists i c, pc s = At Global i true /\ cap j Global = Some c /\ foreign s = c /\ batchErr s = None) /\
  exists l' s', Forall possible l' /\ exec l' s = Some s' /\ collector s' = Finished /\
    (length (filter (λ a, own a = false) l') <= 1)%nat.
Proof.
  intros Hf Hp Hs. pose proof (exec_inv _ _ _ _ Hf Hp Hs) as Hinv. pose proof (exec_errs _ _ _ _ Hf Hp Hs) as Herr.
  split; [|split].
  - assert (forall l s, Forall possible l -> exec l (initial held err) = Some s ->
      Z.of_nat (length (filter (λ a, own a = true) l)) + left s <= left (initial held err)) as Hb.
    { clear l s Hp Hs Hinv Herr. intros l. induction l as [|a l IH] using rev_ind; intros s Hp Hs.
      - injection Hs as <-. simpl. lia.
      - apply Forall_app in Hp as [Hp [Ha _]%Forall_cons]. rewrite exec_snoc in Hs.
        destruct (exec l _) as [s1|] eqn:E; [|done]. simpl in Hs. specialize (IH s1 Hp eq_refl).
        rewrite filter_app, length_app, filter_cons, filter_nil. destruct (decide (own a = true)) as [Ho|Ho].
        + pose proof (act_decreases a s1 s (exec_inv _ _ _ _ Hf Hp E) Ho Hs). simpl. lia.
        + assert (left s = left s1); [|simpl; lia]. destruct a; try done; simpl in Hs.
          * unfold elsewhere in Hs. destruct (cap j Global); [|done]. destruct (_ && _); [|done]. by injection Hs as <-.
          * unfold ctxDone in Hs. destruct (ctxErr s1); [done|]. destruct (_ || _); [|done]. by injection Hs as <-. }
    specialize (Hb l s Hp Hs). pose proof (left_nonneg s).
    assert (left (initial held err) <= 20 * Z.of_nat (size j) + 9); [|lia].
    unfold left. simpl. rewrite total_replicate. unfold weight. simpl.
    assert (pcWeight (goNext 0) <= 8); [|lia]. unfold goNext, goWindow, goLocal, goGlobal.
    destruct (bool_decide _), (cap j Window), (cap j Local), (cap j Global); simpl; lia.
  - by apply (progress held).
  - destruct (batchErr s) as [e|] eqn:Eb.
    { destruct (ends_when_done held (Z.to_nat (left s)) s) as (l' & s' & ? & ? & ? & E); [done|done|done|done|by rewrite Eb|].
      exists l', s'. rewrite E. split_and!; done || (simpl; lia). }
    assert (ctxErr s = None) as Ec.
    { destruct (ctxErr s) eqn:Ec; [|done]. destruct (errs_ctx s Herr) as [? E]; [by rewrite Ec|]. by rewrite Eb in E. }
    set (s1 := set_errs (Some Canceled) (Some Canceled) s).
    assert (act (CtxDone Canceled) s = Some s1) as Ha.
    { simpl. unfold ctxDone. rewrite Ec, Eb. done. }
    destruct (ends_when_done held (Z.to_nat (left s1)) s1) as (l' & s' & Hl & Hx & Hfin & E);
      [done|done|by eapply inv_act; [..|exact Ha]|by eapply errs_act; [..|exact Ha]|by eexists|].
    exists (CtxDone Canceled :: l'), s'. rewrite (exec_cons _ _ _ _ Ha). split_and!; [by constructor|done|done|].
    rewrite filter_cons_True by done. by rewrite E.
Qed.

Definition runningNow (it : Item) : Z := Z.b2z (bool_decide (phase it = Running)).
Definition unwritten (it : Item) : Z := Z.b2z (started it && negb (bool_decide (phase it = Written))).
Lemma total_le f g l : (forall i it, l !! i = Some it -> f it <= g it) -> total f l <= total g l.
Proof.
  induction l as [|a l IH]; intros H; simpl; [done|]. specialize (H 0%nat a eq_refl) as Ha.
  assert (total f l <= total g l); [|lia]. apply IH. intros i it Hi. by apply (H (S i)).
Qed.
Lemma total_zero f l : (forall i it, l !! i = Some it -> f it = 0) -> total f l = 0.
Proof.
  induction l as [|a l IH]; intros H; simpl; [done|]. rewrite (H 0%nat a eq_refl), IH; [done|].
  intros i it Hi. by apply (H (S i)).
Qed.
Lemma total_scale m f l : total (λ it, m * f it) l = m * total f l.
Proof. induction l as [|a l IH]; simpl; lia. Qed.
Lemma finished_next s : inv s -> collector s = Finished -> nextOut s = size j.
Proof.
  intros H Hfin. destruct (finished_written s H Hfin) as [_ Hall]. pose proof (inv_next s H).
  destruct (decide (nextOut s < size j)%nat) as [Hlt|]; [|lia]. destruct (item_at s _ H Hlt) as [it Hit].
  destruct (inv_items s H _ it Hit) as (_ & Hw & _). assert (nextOut s < nextOut s)%nat by (by apply Hw, (Hall _ _ Hit)). lia.
Qed.
Lemma answers_of s : inv s -> (forall i it, items s !! i = Some it -> phase it = Written) ->
  exists rs, length rs = size j /\ answer <$> items s = Some <$> rs /\
    forall i r, rs !! i = Some r -> exists it, items s !! i = Some it /\ answer it = Some r /\ answers i it r.
Proof.
  intros H Hall. exists (default "" ∘ answer <$> items s). split; [by rewrite length_fmap, (inv_len s H)|].
  assert (forall i it, items s !! i = Some it -> exists r, answer it = Some r /\ answers i it r) as Hx.
  { intros i it Hi. destruct (inv_items s H i it Hi) as (_ & _ & _ & Hans). rewrite (Hall i it Hi) in Hans.
    destruct Hans as (r & ? & ? & _). by exists r. }
  split.
  - rewrite <- list_fmap_compose. apply list_eq. intros i. rewrite !list_lookup_fmap.
    destruct (items s !! i) as [it|] eqn:Hi; [|done]. simpl. by destruct (Hx i it Hi) as (r & -> & _).
  - intros i r. rewrite list_lookup_fmap. intros (it & Hi & ->)%fmap_Some. exists it.
    destruct (Hx i it Hi) as (r & E & Hr). simpl. by rewrite E.
Qed.
Lemma forallb_lookup {A} (f : A -> bool) l i x : forallb f l = true -> l !! i = Some x -> f x = true.
Proof. rewrite forallb_forall. intros H Hi. apply H. apply list_elem_of_In. by eapply list_elem_of_lookup_2. Qed.


(** C13. The ceilings hold in every state of every run: of one batch no more
    sub-relays run at once than its own ceiling, of all batches together no more
    than the global one, and of a streamed batch no more answers are waiting or
    in the making than the window allows, so that what it holds in bytes is at
    most that many answers. *)
Theorem batch_ceilings_hold held err l s :
  fits held -> Forall possible l -> exec l (initial held err) = Some s ->
  (forall c, cap j Local = Some c -> total runningNow (items s) <= c) /\
  (forall c, cap j Global = Some c -> total runningNow (items s) + foreign s <= c) /\
  (forall c, cap j Window = Some c -> total unwritten (items s) <= c /\
     forall m, 0 <= m -> (forall i it, items s !! i = Some it -> bytes it <= m) -> heldBytes s <= c * m).
Proof.
  intros Hf Hp Hs. pose proof (exec_inv _ _ _ _ Hf Hp Hs) as H.
  assert (forall ch, 0 <= dispatcherHolds ch (pc s)) as Hd by (intros; apply b2z_range).
  pose proof (inv_foreign s H) as Hfo. split_and!.
  - intros c Ec. destruct (inv_slots s H Local c Ec) as [E Hle]. specialize (Hd Local).
    assert (total runningNow (items s) <= total (holds Local) (items s)); [|simpl in *; lia].
    apply total_le. intros i it _. unfold runningNow, holds. by destruct (phase it) as [| |[]| | | |].
  - intros c Ec. destruct (inv_slots s H Global c Ec) as [E Hle]. specialize (Hd Global).
    assert (total runningNow (items s) <= total (holds Global) (items s)); [|simpl in *; lia].
    apply total_le. intros i it _. unfold runningNow, holds. by destruct (phase it) as [| |[]| | | |].
  - intros c Ec. destruct (inv_slots s H Window c Ec) as [E Hle]. specialize (Hd Window).
    assert (total unwritten (items s) <= c) as Hc.
    { assert (total unwritten (items s) <= total (holds Window) (items s)); [|simpl in *; lia].
      apply total_le. intros i it Hi. unfold unwritten, holds. by destruct (started it), (phase it). }
    split; [done|]. intros m Hm Hb. rewrite (inv_held s H).
    assert (total inHand (items s) <= total (λ it, m * unwritten it) (items s)) as Hle'.
    { apply total_le. intros i it Hi. specialize (Hb i it Hi). unfold inHand, unwritten.
      assert (streaming j = true) as -> by (destruct (streaming j) eqn:Es; [done|]; by rewrite (fits_window held Hf Es) in Ec).
      destruct (inv_items s H i it Hi) as (_ & _ & Hit & Hans).
      destruct (started it) eqn:Est; [destruct (phase it); simpl; lia|].
      assert (bytes it = 0 \/ phase it = Written) as [-> | ->];
        [|destruct (bool_decide _); simpl; destruct (phase it); simpl; lia|simpl; lia].
      destruct (phase it); try (by right); left; try (by subst it); try (by destruct Hans as (r & _ & (p & _ & Hx) & _); rewrite Est in Hx; destruct Hx).
      all: done. }
    rewrite total_scale in Hle'. nia.
Qed.
End Job.

(** ** The handler up to the machine *)
Inductive Entry := Passed | Rejected (status : Z) (message : string) | Runs (j : Job).
Definition capsOf (l : Limits) (n : Z) (stream : bool) (sem : option Chan_) (ch : Chan) : option Z :=
  match ch with
  | Window => if stream && bool_decide (0 < maxPerBatch l) && bool_decide (0 <= maxWindow l)
              then Some (maxPerBatch l + maxWindow l) else None
  | Local => if bool_decide (0 < maxPerBatch l) && bool_decide (maxPerBatch l < n)
             then Some (maxPerBatch l) else None
  | Global => capacity <$> sem
  end.
(** [withSink] puts the score sink in the context, when there is one. *)
Definition enter (l : Limits) (tmpl : string) (withSink : option (X -> X)) (stream : bool)
    (sem : option Chan_) (c : Context) : Entry :=
  let n := Z.of_nat (length (Retry.Payloads c)) in
  if bool_decide (n <= 1) then Passed
  else if bool_decide (0 < maxPayloads l) && bool_decide (maxPayloads l < n)
  then Rejected 413 (rejectMessage tmpl n (maxPayloads l))
  else
    let x := Retry.others c in
    let c := match withSink with
             | Some f => with_others c (mkExtra (BatchSize x) (SelectedEndpoint x) (Degraded x) (Cached x)
                           (Coalesced x) (ClientIP x) (RemoteAddr x) (f (rest x)))
             | None => c
             end in
    Runs (mkJob c stream (capsOf l n stream sem)).

(** A job the handler starts is one the machine's theorems are about. *)
Lemma enter_fits l tmpl withSink stream sem c j held :
  enter l tmpl withSink stream sem c = Runs j -> 0 <= held ->
  (forall ch, sem = Some ch -> 0 < capacity ch /\ held <= capacity ch) -> fits j held.
Proof.
  unfold enter. case_bool_decide as Hn; [done|]. destruct (_ && _); [done|]. intros [= <-] Hh Hsem.
  assert (Retry.Payloads (match withSink with
    | Some f => with_others c (mkExtra (BatchSize (Retry.others c)) (SelectedEndpoint (Retry.others c))
        (Degraded (Retry.others c)) (Cached (Retry.others c)) (Coalesced (Retry.others c))
        (ClientIP (Retry.others c)) (RemoteAddr (Retry.others c)) (f (rest (Retry.others c))))
    | None => c end) = Retry.Payloads c) as Ep by (by destruct withSink).
  split; unfold size, payloads; simpl.
  - rewrite Ep. lia.
  - by intros ->.
  - intros [] cap; simpl.
    + repeat case_bool_decide; rewrite ?andb_true_r, ?andb_false_r; destruct stream; simpl; try done. intros [= <-]. lia.
    + repeat case_bool_decide; simpl; try done. intros [= <-]. lia.
    + intros (ch & -> & ->)%fmap_Some. by apply Hsem.
  - split; [done|]. intros cap (ch & -> & ->)%fmap_Some. by apply Hsem.
Qed.
End Batch.

(** Without a resize every batch draws on the same channel. *)
Lemma semFor_shared m f f' cur now ch p : 0 < m ->
  semFor m f cur now = (Some ch, p) -> capacity ch = m -> p = Some ch -> semFor m f' p p = (Some ch, p).
Proof.
  intros Hm _ Hc ->. unfold semFor. rewrite bool_decide_eq_false_2 by lia. by rewrite bool_decide_eq_true_2.
Qed.

(** ** Rendering *)
Lemma appendItem_marshal r : appendItem r = Json.marshalItem (GoText.chars <$> r).
Proof.
  destruct r as [r|]; [|done]. simpl. unfold Json.Compact, Json.appendCompact. by rewrite Json.escaping_commutes.
Qed.
Lemma mergeLoop_join i out rs :
  mergeLoop i out rs = (λ t, out ++ (if bool_decide (0 < i)%nat && negb (bool_decide (rs = [])) then [","%char] else []) ++ t)
    <$> Json.joinItems (Json.marshalItem <$> (fmap GoText.chars <$> rs)).
Proof.
  revert i out. induction rs as [|r rs IH]; intros i out; [simpl; by rewrite andb_false_r, app_nil_r|].
  cbn [mergeLoop fmap list_fmap]. rewrite appendItem_marshal.
  assert (bool_decide (r :: rs = []) = false) as -> by done. rewrite andb_true_r.
  destruct (Json.marshalItem (GoText.chars <$> r)) as [t|] eqn:Et.
  2:{ by destruct rs. }
  cbn [mbind option_bind]. rewrite IH. rewrite (bool_decide_eq_true_2 (0 < S i)%nat) by lia.
  destruct rs as [|r' rs].
  - simpl. rewrite ?Et. simpl. rewrite app_nil_r. f_equal. destruct (bool_decide (0 < i)%nat); [by rewrite <- app_assoc|done].
  - assert (bool_decide (r' :: rs = []) = false) as -> by done.
    cbn [fmap list_fmap]. rewrite ?Et.
    change (Json.joinItems (Some t :: ?x :: ?l)) with (rest ← Json.joinItems (x :: l); Some (t ++ [","%char] ++ rest)).
    destruct (Json.joinItems _); simpl; [|done]. f_equal. destruct (bool_decide (0 < i)%nat); simpl; rewrite <- !app_assoc; done.
Qed.

(** C14. [mergeBatch] renders byte for byte what [json.Marshal] of the same
    answers would, failures included, although it compacts and escapes in two
    passes through one scratch buffer. *)
Theorem merge_is_marshal rs : mergeBatch rs = Json.Marshal (fmap (M := option) GoText.chars <$> rs).
Proof.
  unfold mergeBatch, Json.Marshal. rewrite mergeLoop_join. simpl.
  destruct (Json.joinItems _); simpl; [|done]. by rewrite <- ?app_assoc.
Qed.

(** ** Runs: two payloads, the second answered with something that is not JSON *)
Definition demoPayload (id : string) : Payload :=
  NewPayload (GoText.text (json "{'id':" ++ GoText.chars id ++ json "}")) Heuristic.RPCTypeJSONRPC "eth_call".
Definition demoID (data : string) : option (bool * string) :=
  if bool_decide (data = Bytes (demoPayload "1")) then Some (false, "1")
  else if bool_decide (data = Bytes (demoPayload "2")) then Some (false, "2") else None.
Definition demoCtx : @Retry.Context unit Response Payload (@Extra unit) :=
  Retry.mkContext (Retry.mkGoCtx None) "eth" Heuristic.RPCTypeJSONRPC Retry.noPlugin
    [demoPayload "1"; demoPayload "2"] "" [] [] None None None false ""
    (mkExtra 1 None false false false None None tt).
Definition demoAnswer (c : @Retry.Context unit Response Payload (@Extra unit)) : string :=
  if bool_decide (Bytes <$> Retry.Payloads c = [Bytes (demoPayload "1")]) then GoText.text (json "{'id':1,'result': '<a>'}") else "teapot".
Definition demoNext : @Retry.NextHandler unit Response Payload (@Extra unit) :=
  λ c w, (None, with_Response c (Some (plainResponse (demoAnswer c) 200)), w).
Definition demoSub (id : string) : @Retry.Context unit Response Payload (@Extra unit) :=
  (demoNext (subContext demoCtx (demoPayload id)) tt).1.2.
Definition demoJob (stream : bool) : @Job unit unit :=
  mkJob demoCtx stream (capsOf (mkLimits 8 0 1 1) 2 stream (Some (mkChan 1 8))).
Definition demoSetup (stream : bool) : list (@Act unit unit) :=
  (if stream then [Check; Take] else []) ++
  [Open true; Check; Take; Check; Take; Start; End_ 0 None (demoSub "1"); Give 0; Give 0; Tell 0] ++
  (if stream then [Check; Take] else []) ++
  [Check; Take; Check; Take; Start; End_ 1 None (demoSub "2"); Give 1; Give 1; Receive 0 ].
Definition demoRun (stream : bool) : list (@Act unit unit) :=
  demoSetup stream ++ [Drain true; Drain true; Tell 1; Receive 1; Drain true; Drain true].
Definition demoEnd (stream : bool) : option St := exec demoID (demoJob stream) (demoRun stream) (initial (demoJob stream) 3 None).

Lemma demo_fits stream : fits (demoJob stream) 3.
Proof.
  split; [vm_compute; lia| | |].
  - by intros [= ->].
  - intros ch c. destruct stream, ch; vm_compute; intros [= <-]; done.
  - split; [lia|]. intros c. destruct stream; vm_compute; intros [= <-]; done.
Qed.
Lemma demo_possible stream : Forall (possible demoNext (demoJob stream)) (demoRun stream).
Proof.
  assert (possible demoNext (demoJob stream) (End_ 0 None (demoSub "1"))) as H0.
  { exists (demoPayload "1"). split; [by destruct stream|]. left. exists tt, tt. reflexivity. }
  assert (possible demoNext (demoJob stream) (End_ 1 None (demoSub "2"))) as H1.
  { exists (demoPayload "2"). split; [by destruct stream|]. left. exists tt, tt. reflexivity. }
  unfold demoRun, demoSetup. destruct stream; simpl; repeat (apply Forall_cons; split; [done || apply H0 || apply H1|]);
    apply Forall_nil_2.
Qed.
Definition demoFinal (stream : bool) : St := default (initial (demoJob stream) 3 None) (demoEnd stream).

Lemma demo_runs :
  exec demoID (demoJob true) (demoRun true) (initial (demoJob true) 3 None) = Some (demoFinal true) /\
  collector (demoFinal true) = Finished /\ abandoned (demoFinal true) = false /\
  forallb (idIsJSON demoID) (payloads (demoJob true)) = true.
Proof. vm_compute. done. Qed.

Lemma batches_end_witness :
  Z.of_nat (length (filter (λ a, own a = true) (demoRun true))) <= 20 * Z.of_nat (size (demoJob true)) + 9.
Proof.
  exact (proj1 (batches_end demoNext demoID (demoJob true) 3 None (demoRun true) (demoFinal true)
    (demo_fits true) (demo_possible true) (proj1 demo_runs))).
Defined.
Definition demoMiddle : St :=
  default (initial (demoJob true) 3 None) (exec demoID (demoJob true) (demoSetup true) (initial (demoJob true) 3 None)).
Lemma demo_middle :
  exec demoID (demoJob true) (demoSetup true) (initial (demoJob true) 3 None) = Some demoMiddle /\
  total unwritten (items demoMiddle) = 2.
Proof. vm_compute. done. Qed.
Lemma batch_ceilings_hold_witness : total unwritten (items demoMiddle) <= 2.
Proof.
  exact (proj1 (proj2 (proj2 (batch_ceilings_hold demoNext demoID (demoJob true) 3 None (demoSetup true) demoMiddle
    (demo_fits true) (proj1 (proj1 (Forall_app _ _ _) (demo_possible true))) (proj1 demo_middle))) 2 eq_refl)).
Defined.

Lemma merge_fails rs : mergeBatch rs = None <-> exists r, Some r ∈ rs /\ Json.Valid r = false.
Proof.
  assert (forall r, appendItem (Some r) = None <-> Json.Valid r = false) as Hr.
  { intros r. unfold appendItem, Json.Compact, Json.appendCompact, Json.Valid. rewrite fmap_None.
    rewrite <- not_true_iff_false, <- Json.compact_valid. rewrite eq_None_not_Some. done. }
  assert (forall i out, mergeLoop i out rs = None <-> exists r, Some r ∈ rs /\ Json.Valid r = false) as H.
  { induction rs as [|r rs IH]; intros i out; simpl.
    - split; [done|]. by intros (r & []%elem_of_nil & _).
    - destruct (appendItem r) as [t|] eqn:E; simpl.
      + rewrite IH. split; intros (x & Hx & Hv); exists x; (split; [|done]); [by right|].
        apply elem_of_cons in Hx as [<-|Hx]; [|done]. apply Hr in Hv. congruence.
      + destruct r as [r|]; [|done]. split; [|done]. intros _. exists r. split; [by left|by apply Hr]. }
  unfold mergeBatch. rewrite <- (H 0%nat ["["%char]). by destruct (mergeLoop _ _ _).
Qed.
(** One answer that is not JSON takes every other answer of an unstreamed
    batch with it: the merge fails and the client gets one error without an id.
    The same batch streamed keeps the other answers and puts an error with its
    id in the place of the bad one. *)
Theorem one_bad_answer_spoils_the_batch :
  (forall rs, mergeBatch rs = None <-> exists r, Some r ∈ rs /\ Json.Valid r = false) /\
  body (demoFinal false) = fallbackBody /\
  streamed (demoFinal true) = json "[{'id':1,'result':'\u003ca\u003e'}," ++
    GoText.chars (jsonRPCErrorItem "2" "endpoint error: response is not JSON") ++ json "]".
Proof. split; [apply merge_fails|]. vm_compute. done. Qed.
End Batch.
