(* ===== verification/Quorum.v ===== *)
(** * Quorum: one request put to several operators

    Models [relay/middleware/quorum.go]: the headers that ask for it, the
    ranking of operators, the votes over the arms' results in any order of
    arrival, the digest a vote compares, and the envelope of a collected answer.

    [slices.SortFunc] is a merge sort: the operators' names are distinct, so the
    comparison leaves one order when no score is NaN.  A JSON value is abstract: [Decode] reads the first value of a text with numbers kept as
    written and says whether more follows, [members] is what a decoded object
    holds, [Marshal] renders with sorted keys.  [sha256] is any function. *)

From Stdlib Require Import Ascii.
From stdpp Require Import strings sorting.
From S2P Require Import Prelude Float64 Domain Text Strconv Json StateM FeatureFlag RelayErrors Heuristic Message.
From S2P Require Import ScoreSink Retry Stages Batch Hedge.
Import Domain RelayErrors Message Stages.

Module Quorum.

Definition headerQuorumCount : string := "Target-Quorum-Count".
Definition headerQuorumMode : string := "Target-Quorum-Mode".
Definition headerQuorumModeUsed : string := "X-Quorum-Mode".
Definition headerQuorumArms : string := "X-Quorum-Count".
Definition headerQuorumAchieved : string := "X-Quorum-Achieved".
Definition headerQuorumMajority : string := "X-Quorum-Majority".
Definition headerQuorumSkipped : string := "X-Quorum-Skipped".
Definition QuorumModeConsensus : string := "consensus".
Definition QuorumModeCollect : string := "collect".
Definition defaultQuorum : Z := 3.
Definition maxQuorum : Z := 9.

Definition quorumSize (header : string) : Z :=
  let n := default defaultQuorum (Strconv.Atoi (GoText.TrimSpace header)) in
  let n := Z.min (Z.max n defaultQuorum) maxQuorum in
  if bool_decide (Z.rem n 2 = 0) then n - 1 else n.

(** ** Ranking the operators *)
Record operatorGroup := mkGroup {
  operator : string; endpoints : EndpointAddrList; vouched : bool; best : f64
}.
Section Ranking.
Context (EffectiveTLDPlusOne : string -> option string).
#[local] Abbreviation Operator := (Domain.Operator EffectiveTLDPlusOne).
(** What the reputation service says of an endpoint, its score and whether it
    vouches for it: [None] for an error, or for no service. *)
Context (rep : EndpointAddr -> option (f64 * bool)).

Definition measure (g : operatorGroup) (ep : EndpointAddr) : operatorGroup :=
  let g := mkGroup (operator g) (endpoints g ++ [ep]) (vouched g) (best g) in
  match rep ep with
  | None => g
  | Some (score, v) =>
      if v && negb (vouched g) then mkGroup (operator g) (endpoints g) true score
      else if eqb v (vouched g) && fltb (best g) score
      then mkGroup (operator g) (endpoints g) (vouched g) score
      else g
  end.
(** [groups] in the order the operators are first met; [byOperator] is its
    lookup by name. *)
Fixpoint addTo (ep : EndpointAddr) (groups : list operatorGroup) : list operatorGroup :=
  match groups with
  | [] => [measure (mkGroup (Operator ep) [] false (of_int (-1))) ep]
  | g :: groups =>
      if bool_decide (operator g = Operator ep) then measure g ep :: groups
      else g :: addTo ep groups
  end.
Definition groupPool (pool : EndpointAddrList) : list operatorGroup :=
  foldl (λ gs ep, addTo ep gs) [] pool.

(** The comparison: negative when [a] comes first. *)
Definition compareNames (a b : string) : Z :=
  match String.compare a b with Lt => -1 | Eq => 0 | Gt => 1 end.
Definition compareGroups (a b : operatorGroup) : Z :=
  if negb (eqb (vouched a) (vouched b)) then (if vouched a then -1 else 1)
  else if fltb (best b) (best a) then -1
  else if fltb (best a) (best b) then 1
  else compareNames (operator a) (operator b).
Definition ranked (a b : operatorGroup) : Prop := compareGroups a b <= 0.
#[global] Instance ranked_dec : RelDecision ranked.
Proof. intros a b. unfold ranked. apply _. Defined.
Definition takeOdd (n len : Z) : Z :=
  let t := Z.min n len in
  if bool_decide (2 < t) && bool_decide (Z.rem t 2 = 0) then t - 1 else t.
Definition topOperators (pool : EndpointAddrList) (n : Z) : list operatorGroup :=
  let groups := merge_sort ranked (groupPool pool) in
  take (Z.to_nat (takeOdd n (Z.of_nat (length groups)))) groups.
End Ranking.

(** *** The ranking *)
Section RankingFacts.
Context (EffectiveTLDPlusOne : string -> option string) (rep : EndpointAddr -> option (f64 * bool)).
#[local] Abbreviation Operator := (Domain.Operator EffectiveTLDPlusOne).

(** A group's standing is that of its best endpoint, vouched ones first. *)
Record standing (g : operatorGroup) : Prop := mkStanding {
  st_vouched : vouched g = true <-> exists ep sc, ep ∈ endpoints g /\ rep ep = Some (sc, true);
  st_best ep sc : ep ∈ endpoints g -> rep ep = Some (sc, vouched g) -> fltb (best g) sc = false
}.
Lemma measure_standing g ep : standing g -> standing (measure rep g ep).
Proof.
  intros [Hv Hb]. unfold measure. destruct (rep ep) as [[score v]|] eqn:E.
  2:{ split; simpl.
      - rewrite Hv. setoid_rewrite elem_of_app. setoid_rewrite list_elem_of_singleton.
        split; intros (e & sc & He & Hr); exists e, sc; (split; [|done]); [by left|].
        destruct He as [He| ->]; [done|]. by rewrite E in Hr.
      - intros e sc [He|He%list_elem_of_singleton]%elem_of_app Hr; [by eapply Hb|]. subst e. by rewrite E in Hr. }
  cbn [vouched operator endpoints best].
  destruct (v && negb (vouched g)) eqn:Ev.
  { apply andb_true_iff in Ev as [-> Eg%negb_true_iff]. split; simpl.
    - split; [|done]. intros _. exists ep, score. split; [|done]. apply elem_of_app. right. by apply list_elem_of_singleton.
    - intros e sc [He|He%list_elem_of_singleton]%elem_of_app Hr.
      + exfalso. assert (vouched g = true) as Ht; [|congruence]. apply Hv. by exists e, sc.
      + subst e. rewrite E in Hr. injection Hr as <-. apply fltb_irrefl. }
  assert (forall b, (forall e sc, e ∈ endpoints g -> rep e = Some (sc, vouched g) -> fltb b sc = false) ->
    (v = vouched g -> fltb b score = false) ->
    standing (mkGroup (operator g) (endpoints g ++ [ep]) (vouched g) b)) as Hx.
  { intros b Hold Hnew. split; simpl.
    - rewrite Hv. split.
      + intros (e & sc & He & Hr). exists e, sc. split; [|done]. apply elem_of_app. by left.
      + intros (e & sc & [He|He%list_elem_of_singleton]%elem_of_app & Hr); [by exists e, sc|].
        subst e. rewrite E in Hr. injection Hr as -> ->. simpl in Ev. apply negb_false_iff in Ev. by apply Hv.
    - intros e sc [He|He%list_elem_of_singleton]%elem_of_app Hr; [by eapply Hold|].
      subst e. rewrite E in Hr. injection Hr as -> Hv'. by apply Hnew. }
  destruct (eqb v (vouched g) && fltb (best g) score) eqn:Eb.
  - apply andb_true_iff in Eb as [Eeq%eqb_prop Elt]. apply Hx; [|intros; apply fltb_irrefl].
    intros e sc He Hr. destruct (fltb score sc) eqn:E'; [|done].
    by rewrite <- (Hb e sc He Hr), (fltb_trans _ _ _ Elt E').
  - apply Hx; [done|]. intros ->. by rewrite eqb_reflx in Eb.
Qed.
Lemma measure_fields g ep :
  operator (measure rep g ep) = operator g /\ endpoints (measure rep g ep) = endpoints g ++ [ep].
Proof.
  unfold measure. destruct (rep ep) as [[sc v]|]; [|done]. destruct (_ && _); [done|]. by destruct (_ && _).
Qed.

Record grouping (pool : list EndpointAddr) (gs : list operatorGroup) : Prop := mkGrouping {
  gr_names : NoDup (operator <$> gs);
  gr_members g : g ∈ gs -> endpoints g = filter (λ ep, Operator ep = operator g) pool /\ endpoints g <> [];
  gr_all ep : ep ∈ pool -> Operator ep ∈ operator <$> gs;
  gr_standing g : g ∈ gs -> standing g
}.
Lemma addTo_names ep gs :
  operator <$> addTo EffectiveTLDPlusOne rep ep gs =
    (operator <$> gs) ++ if bool_decide (Operator ep ∈ operator <$> gs) then [] else [Operator ep].
Proof.
  induction gs as [|g gs IH]; cbn [addTo].
  - simpl. rewrite (proj1 (measure_fields _ ep)). done.
  - destruct (decide (operator g = Operator ep)) as [E|E];
      [rewrite (bool_decide_eq_true_2 _ E)|rewrite (bool_decide_eq_false_2 _ E)].
    + rewrite !fmap_cons, (proj1 (measure_fields g ep)), bool_decide_eq_true_2 by (rewrite E; by left).
      by rewrite app_nil_r.
    + rewrite !fmap_cons, IH. simpl. f_equal. f_equal.
      destruct (decide (Operator ep ∈ operator <$> gs)) as [Hin|Hin].
      * rewrite !bool_decide_eq_true_2 by (done || by right). done.
      * rewrite !bool_decide_eq_false_2; [done| |done]. intros [?|?]%elem_of_cons; [by apply E|done].
Qed.
Lemma addTo_elem ep gs g : g ∈ addTo EffectiveTLDPlusOne rep ep gs -> NoDup (operator <$> gs) ->
  (g ∈ gs /\ operator g <> Operator ep) \/
  (exists g0, g0 ∈ gs /\ operator g0 = Operator ep /\ g = measure rep g0 ep) \/
  ((Operator ep ∉ (operator <$> gs)) /\ g = measure rep (mkGroup (Operator ep) [] false (of_int (-1))) ep).
Proof.
  induction gs as [|a gs IH]; cbn [addTo].
  - intros ->%list_elem_of_singleton _. right; right. split; [|done]. simpl. by intros []%elem_of_nil.
  - rewrite fmap_cons. intros Hin [Hna Hnd]%NoDup_cons. case_bool_decide as E.
    + apply elem_of_cons in Hin as [->|Hin]; [right; left; exists a; split_and!; [by left|done|done]|].
      left. split; [by right|]. intros Eg. apply Hna. rewrite E, <- Eg. by apply list_elem_of_fmap_2.
    + apply elem_of_cons in Hin as [->|Hin]; [left; split; [by left|done]|].
      destruct (IH Hin Hnd) as [[? ?]|[(g0 & ? & ? & ?)|[? ?]]].
      * left. split; [by right|done].
      * right; left. exists g0. split_and!; [by right|done|done].
      * right; right. split; [|done]. intros [?|?]%elem_of_cons; [by apply E|done].
Qed.
Lemma group_pool pool : grouping pool (groupPool EffectiveTLDPlusOne rep pool).
Proof.
  unfold groupPool. induction pool as [|ep pool [Hn Hm Ha Hs]] using rev_ind.
  { split; simpl; [apply NoDup_nil_2|by intros g []%elem_of_nil..]. }
  rewrite foldl_app. simpl. set (gs := foldl _ [] pool) in *.
  assert (forall g, filter (λ e, Operator e = operator g) (pool ++ [ep]) =
    filter (λ e, Operator e = operator g) pool ++ if bool_decide (Operator ep = operator g) then [ep] else []) as Hf.
  { intros g. rewrite filter_app, filter_cons, filter_nil. case_bool_decide; by case_decide. }
  split.
  - rewrite addTo_names. case_bool_decide as E; [by rewrite app_nil_r|].
    apply NoDup_app. split_and!; [done| |apply NoDup_singleton]. by intros x Hx ->%list_elem_of_singleton.
  - intros g Hg. rewrite Hf. destruct (addTo_elem ep gs g Hg Hn) as [[Hin Hne]|[(g0 & Hin & E & ->)|[Hni ->]]].
    + rewrite bool_decide_eq_false_2, app_nil_r by done. by apply Hm.
    + destruct (measure_fields g0 ep) as [-> ->]. rewrite bool_decide_eq_true_2 by done.
      destruct (Hm g0 Hin) as [-> _]. split; [done|]. by intros [_ ?]%app_nil.
    + destruct (measure_fields (mkGroup (Operator ep) [] false (of_int (-1))) ep) as [-> ->]. simpl.
      rewrite bool_decide_eq_true_2 by done. split; [|done].
      assert (filter (λ e, Operator e = Operator ep) pool = []) as ->; [|done].
      destruct (filter (λ e, Operator e = Operator ep) pool) as [|e l] eqn:E; [done|]. exfalso.
      assert (e ∈ filter (λ e, Operator e = Operator ep) pool) as He by (rewrite E; by left).
      apply list_elem_of_filter in He as [E1 E2]. apply Hni. rewrite <- E1. by apply Ha.
  - intros e He. rewrite addTo_names. apply elem_of_app in He as [He| ->%list_elem_of_singleton].
    + apply elem_of_app. left. by apply Ha.
    + case_bool_decide; [by rewrite app_nil_r|]. apply elem_of_app. right. by apply list_elem_of_singleton.
  - intros g Hg. destruct (addTo_elem ep gs g Hg Hn) as [[Hin _]|[(g0 & Hin & _ & ->)|[_ ->]]].
    + by apply Hs.
    + by apply measure_standing, Hs.
    + apply measure_standing. split; simpl; [|by intros ? ? []%elem_of_nil].
      split; [done|]. by intros (? & ? & []%elem_of_nil & _).
Qed.

Lemma sized n len : 3 <= n -> Z.rem n 2 = 1 -> 0 <= len ->
  let t := takeOdd n len in 0 <= t <= Z.min n len /\ (t <= 2 \/ Z.rem t 2 = 1) /\ (0 < len -> 0 < t).
Proof.
  intros Hn Hodd Hlen. unfold takeOdd. cbv zeta. set (t := Z.min n len).
  pose proof (Z.quot_rem' t 2). pose proof (Z.rem_bound_pos t 2). pose proof (Z.quot_rem' (t - 1) 2).
  pose proof (Z.rem_bound_pos (t - 1) 2).
  case_bool_decide; simpl; [case_bool_decide|]; lia.
Qed.
Lemma size_odd h : 3 <= quorumSize h <= 9 /\ Z.rem (quorumSize h) 2 = 1.
Proof.
  unfold quorumSize, defaultQuorum, maxQuorum.
  set (n := Z.min _ 9). assert (3 <= n <= 9) as Hn by lia. clearbody n.
  assert (n ∈ seqZ 3 7) as Hin by (apply elem_of_seqZ; lia). clear Hn. revert Hin.
  change (seqZ 3 7) with [3; 4; 5; 6; 7; 8; 9]. rewrite !elem_of_cons, elem_of_nil.
  by intros [->|[->|[->|[->|[->|[->|[->|[]]]]]]]].
Qed.

Lemma names_le a b : compareNames a b <= 0 <-> String.le a b.
Proof. unfold compareNames, String.le, String.leb. destruct (String.compare a b); naive_solver lia. Qed.
Lemma ranked_total : Total ranked.
Proof.
  intros a b. unfold ranked, compareGroups.
  destruct (vouched a), (vouched b); simpl; try (by left); try (by right).
  all: destruct (fltb (best b) (best a)) eqn:E1; [by left|]; destruct (fltb (best a) (best b)) eqn:E2; [by right|].
  all: rewrite !names_le; apply String.le_total.
Qed.
Lemma not_below x y z : is_nan x = false -> is_nan y = false -> is_nan z = false ->
  fltb x y = false -> fltb y z = false -> fltb x z = false.
Proof.
  intros Hx Hy Hz H1 H2. apply fltb_le_false.
  eapply fleb_trans; [apply (fltb_false_fleb y z)|apply (fltb_false_fleb x y)]; done.
Qed.
Lemma ranked_alike a b : vouched a = vouched b ->
  ranked a b <-> fltb (best a) (best b) = false /\ (fltb (best b) (best a) = true \/ String.le (operator a) (operator b)).
Proof.
  intros E. unfold ranked, compareGroups. rewrite E, eqb_reflx. cbn [negb].
  destruct (fltb (best b) (best a)) eqn:E1; [rewrite (fltb_asym _ _ E1); naive_solver lia|].
  destruct (fltb (best a) (best b)); [naive_solver lia|]. rewrite names_le. naive_solver.
Qed.
Lemma ranked_trans a b c : is_nan (best a) = false -> is_nan (best b) = false -> is_nan (best c) = false ->
  ranked a b -> ranked b c -> ranked a c.
Proof.
  intros Ha Hb Hc. destruct (decide (vouched a = vouched b)) as [E|E], (decide (vouched b = vouched c)) as [E'|E'].
  2-4: unfold ranked, compareGroups; destruct (vouched a), (vouched b), (vouched c); simpl; try done; try lia.
  rewrite !ranked_alike by congruence. intros [H1 H2] [H3 H4].
  split; [by apply (not_below _ (best b))|]. destruct (fltb (best c) (best a)) eqn:E1; [by left|right].
  destruct H2 as [H2|H2]; [by rewrite (not_below (best b) (best c) (best a)) in H2|].
  destruct H4 as [H4|H4]; [by rewrite (not_below (best c) (best a) (best b)) in H4|]. by etrans.
Qed.
Lemma ranked_sorted l : Forall (λ g, is_nan (best g) = false) l -> StronglySorted ranked (merge_sort ranked l).
Proof.
  intros Hl. assert (Forall (λ g, is_nan (best g) = false) (merge_sort ranked l)) as Hl' by by rewrite merge_sort_Permutation.
  assert (Sorted ranked (merge_sort ranked l)) as Hs by (apply Sorted_merge_sort, ranked_total).
  revert Hl' Hs. generalize (merge_sort ranked l) as k. clear l Hl.
  induction k as [|a k IH]; [constructor|]. intros [Ha Hk]%list.Forall_cons Hs.
  apply Sorted_inv in Hs as [Hs Hd]. specialize (IH Hk Hs). constructor; [done|].
  destruct Hd as [|b k Hab]; [constructor|]. constructor; [done|].
  apply StronglySorted_inv in IH as [_ IH]. apply list.Forall_cons in Hk as [Hb Hk].
  rewrite Forall_forall in IH, Hk |- *. intros x Hx. apply (ranked_trans a b x); auto.
Qed.
Lemma group_scores pool : (forall ep sc v, rep ep = Some (sc, v) -> is_nan sc = false) ->
  Forall (λ g, is_nan (best g) = false) (groupPool EffectiveTLDPlusOne rep pool).
Proof.
  intros Hrep. assert (forall g ep, is_nan (best g) = false -> is_nan (best (measure rep g ep)) = false) as Hm.
  { intros g ep Hg. unfold measure. destruct (rep ep) as [[sc v]|] eqn:E; [|done].
    apply Hrep in E. destruct (_ && _); [done|]. by destruct (_ && _). }
  unfold groupPool. induction pool as [|ep pool IH] using rev_ind; [constructor|]. rewrite foldl_app. simpl.
  induction IH as [|g gs Hg Hgs IH']; cbn [addTo].
  - constructor; [|constructor]. by apply Hm.
  - case_bool_decide; constructor; auto.
Qed.

(** The arms of a quorum are distinct operators, each with all and only its
    own endpoints of the pool; their number is odd or at most two, at most what
    was asked, which is odd and from 3 to 9, and at least one when there is an
    endpoint.  No operator left out stands above one taken: none is vouched for
    while one taken is not, and between two alike none has the better score,
    where an operator's score is the best of its endpoints, the vouched ones
    when there are any.  No score is NaN. *)
Theorem arms_are_the_best_operators pool countHeader :
  (forall ep sc v, rep ep = Some (sc, v) -> is_nan sc = false) ->
  let n := quorumSize countHeader in
  let groups := groupPool EffectiveTLDPlusOne rep pool in
  let top := topOperators EffectiveTLDPlusOne rep pool n in
  NoDup (operator <$> top) /\
  (forall g, g ∈ top -> endpoints g = filter (λ ep, Operator ep = operator g) pool /\ endpoints g <> []) /\
  (3 <= n <= 9 /\ Z.of_nat (length top) <= n /\
   ((length top <= 2)%nat \/ Z.rem (Z.of_nat (length top)) 2 = 1) /\ (pool <> [] -> top <> [])) /\
  (forall g, g ∈ groups -> standing g) /\
  (forall g g', g ∈ top -> g' ∈ groups -> g' ∉ top ->
     (vouched g' = true -> vouched g = true) /\
     (vouched g = vouched g' -> fltb (best g) (best g') = false)).
Proof.
  intros Hrep n groups top. destruct (group_pool pool) as [Hn Hm Ha Hs]. fold groups in Hn, Hm, Ha, Hs.
  destruct (size_odd countHeader) as [Hn1 Hn2]. fold n in Hn1, Hn2.
  assert (merge_sort ranked groups ≡ₚ groups) as Hp by apply merge_sort_Permutation.
  destruct (sized n (Z.of_nat (length (merge_sort ranked groups))) ltac:(lia) Hn2 ltac:(lia)) as (Ht1 & Ht2 & Ht3).
  set (t := takeOdd n (Z.of_nat (length (merge_sort ranked groups)))) in *.
  assert (top = take (Z.to_nat t) (merge_sort ranked groups)) as Et by done.
  assert (Z.of_nat (length top) = t) as El by (rewrite Et, length_take; lia).
  assert (forall g, g ∈ top -> g ∈ groups) as Hin.
  { intros g Hg. rewrite <- Hp. rewrite Et in Hg. by eapply subseteq_take. }
  split_and!.
  - rewrite Et, fmap_take. eapply sublist_NoDup; [|apply sublist_take]. by rewrite Hp.
  - intros g Hg. by apply Hm, Hin.
  - lia.
  - lia.
  - lia.
  - destruct Ht2; [left|right]; [lia|by rewrite El].
  - intros Hne Ht. rewrite Ht in El. simpl in El. destruct pool as [|ep pool]; [done|].
    assert (0 < t); [|lia]. apply Ht3. rewrite Hp.
    assert (Operator ep ∈ (operator <$> groups)) as H by (apply Ha; by left). destruct groups; [|simpl; lia].
    by apply elem_of_nil in H.
  - done.
  - intros g g' Hg Hg' Hng. rewrite <- Hp in Hg'. rewrite <- (take_drop (Z.to_nat t) (merge_sort ranked groups)) in Hg'.
    apply elem_of_app in Hg' as [Hg'|Hg']; [by rewrite Et in Hng|].
    assert (compareGroups g g' <= 0) as Hc.
    { pose proof (ranked_sorted groups (group_scores pool Hrep)) as Hsorted. rewrite <- (take_drop (Z.to_nat t) (merge_sort ranked groups)) in Hsorted.
      eapply (StronglySorted_app_1_elem_of ranked); [exact Hsorted| |exact Hg'].
      by rewrite Et in Hg. }
    unfold compareGroups in Hc. destruct (vouched g), (vouched g'); simpl in Hc; try lia.
    all: split; [done|intros _].
    all: destruct (fltb (best g') (best g)) eqn:E1; [by apply fltb_asym|]; destruct (fltb (best g) (best g')); [lia|done].
Qed.
End RankingFacts.

(** ** What a vote compares *)
Section Digest.
Context {value : Type} (Decode : string -> option (value * bool)) (members : value -> option (gmap string value)).
Context (ofMembers : gmap string value -> value) (Marshal : value -> option string) (sha256 : string -> string).
Definition canonicalBody (body : string) : string :=
  match Decode body with
  | Some (v, false) =>
      let v := match members v with
               | Some m => ofMembers (delete "jsonrpc" (delete "id" m))
               | None => v
               end in
      default body (Marshal v)
  | _ => body
  end.
Definition newline : string := String (ascii_of_nat 10) "".
Definition answerDigest (resp : Response) : string :=
  let status := if bool_decide (HTTPStatusCode resp = 0) then 200 else HTTPStatusCode resp in
  sha256 (FormatInt status +:+ (newline +:+ canonicalBody (Body resp))).

(** Answers that differ only in the id, the version, the order of their members
    or the white space around them are one answer. *)
Lemma same_answer_same_digest r r' v v' m m' :
  Decode (Body r) = Some (v, false) -> Decode (Body r') = Some (v', false) ->
  members v = Some m -> members v' = Some m' ->
  delete "jsonrpc" (delete "id" m) = delete "jsonrpc" (delete "id" m') ->
  is_Some (Marshal (ofMembers (delete "jsonrpc" (delete "id" m)))) ->
  HTTPStatusCode r = HTTPStatusCode r' -> answerDigest r = answerDigest r'.
Proof.
  intros E E' Em Em' Hm [b Hb] Hs. unfold answerDigest, canonicalBody. by rewrite E, E', Em, Em', <- Hm, Hb, Hs.
Qed.
End Digest.

(** ** The wait *)
Section Quorum.
Context {W X : Type} (EffectiveTLDPlusOne : string -> option string).
#[local] Abbreviation Context := (@Retry.Context W Response Payload (@Extra X)).
#[local] Abbreviation NextHandler := (@Retry.NextHandler W Response Payload (@Extra X)).

Record armResult := mkArm { index : nat; actx : Context; aerr : option error }.

(** An arm: a clone restricted to one operator's endpoints, on the context
    [armContext] detaches for it. *)
Definition armClone (c : Context) (detached : Retry.GoCtx) (g : operatorGroup) : Context :=
  let x := Retry.others c in
  Retry.mkContext detached (Retry.ServiceID c) (Retry.RPCType c) (Retry.Plugin c) (Retry.Payloads c)
    "" (Retry.Attempts c) (endpoints g) None None None true (Retry.AttemptKind c)
    (mkExtra (BatchSize x) None (Degraded x) (Cached x) (Coalesced x) (ClientIP x) (RemoteAddr x) (rest x)).

(** The owners are those known at the time; [digest] is [answerDigest]. *)
Context (st : owners) (digest : Response -> string).
Record Wait := mkWait {
  votes : gmap string (list armResult); voted : Z; voters : Affiliates;
  done : list (option armResult); answered : Z; received : nat
}.
Definition started (n : nat) : Wait := mkWait ∅ 0 (mkAffiliates ∅ ∅) (replicate n None) 0 0.
Definition need (n : nat) : nat := (Nat.div n 2 + 1)%nat.

Inductive Outcome := Going (w : Wait) | Majority (winner : armResult) (w : Wait) | Over (w : Wait).
(** One result received. *)
Definition vote (n : nat) (w : Wait) (r : armResult) (resp : Response) : Outcome :=
  let d := digest resp in
  let vs := default [] (votes w !! d) ++ [r] in
  let w := mkWait (<[d := vs]> (votes w)) (voted w + 1) (Add EffectiveTLDPlusOne st (voters w) (Retry.Endpoint (actx r)))
             (done w) (answered w) (received w) in
  if bool_decide (length vs < need n)%nat then Going w else Majority r w.
Definition onResult (n : nat) (consensus : bool) (w : Wait) (r : armResult) : Outcome :=
  let w := mkWait (votes w) (voted w) (voters w) (<[index r := Some r]> (done w)) (answered w) (S (received w)) in
  match aerr r, Retry.Response (actx r) with
  | None, Some resp =>
      let w := mkWait (votes w) (voted w) (voters w) (done w) (answered w + 1) (received w) in
      if negb consensus then Going w
      else if AffContains EffectiveTLDPlusOne st (voters w) (Retry.Endpoint (actx r)) then Going w
      else vote n w r resp
  | _, _ => Going w
  end.
(** A result arrives, or the request's context is seen to be done. *)
Inductive Event := Arrives (r : armResult) | Done.
Definition onEvent (n : nat) (consensus : bool) (o : Outcome) (e : Event) : Outcome :=
  match o with
  | Going w =>
      if bool_decide (received w < n)%nat then
        match e with Arrives r => onResult n consensus w r | Done => Over w end
      else Over w
  | o => o
  end.
Definition wait (n : nat) (consensus : bool) (es : list Event) : Outcome :=
  foldl (onEvent n consensus) (Going (started n)) es.
Definition stateOf (o : Outcome) : Wait := match o with Going w | Majority _ w | Over w => w end.

(** *** What the votes amount to

    [vl] is the results that voted, in their order. *)
Definition answeredBy (d : string) (r : armResult) : Prop :=
  aerr r = None /\ exists resp, Retry.Response (actx r) = Some resp /\ digest resp = d.
Definition epOf (r : armResult) : EndpointAddr := Retry.Endpoint (actx r).
Definition dig (r : armResult) : string :=
  match Retry.Response (actx r) with Some resp => digest resp | None => "" end.
Definition ballots (d : string) (vl : list armResult) : list armResult := filter (λ r, dig r = d) vl.
(** No two of them are affiliated. *)
Definition strangers (vl : list armResult) : Prop :=
  forall i k a b, vl !! i = Some a -> vl !! k = Some b -> (i < k)%nat ->
    ~ affiliated EffectiveTLDPlusOne st (epOf a) (epOf b).
Definition ok (r : armResult) : Prop := aerr r = None /\ is_Some (Retry.Response (actx r)).
#[local] Instance ok_dec r : Decision (ok r) := and_dec _ _.
Record counted (n : nat) (consensus : bool) (rs vl : list armResult) (w : Wait) : Prop := mkCounted {
  ct_received : received w = length rs /\ (length rs <= n)%nat;
  ct_voters : voters w = AffiliatesOf EffectiveTLDPlusOne st (epOf <$> vl);
  ct_votes d : default [] (votes w !! d) = ballots d vl;
  ct_voted : voted w = Z.of_nat (length vl) /\ (length vl <= length rs)%nat;
  ct_in r : r ∈ vl -> r ∈ rs /\ answeredBy (dig r) r;
  ct_strangers : strangers vl;
  ct_answered : answered w = Z.of_nat (length (filter ok rs));
  ct_done : done w = foldl (λ l r, <[index r := Some r]> l) (replicate n None) rs;
  ct_all : consensus = true -> strangers (filter ok rs) -> vl = filter ok rs
}.
Lemma counted_start n consensus : counted n consensus [] [] (started n).
Proof.
  split; simpl; try done; [split; [done|lia]|by intros r []%elem_of_nil].
Qed.
Lemma strangers_snoc vl r :
  strangers vl -> AffContains EffectiveTLDPlusOne st (AffiliatesOf EffectiveTLDPlusOne st (epOf <$> vl)) (epOf r) = false ->
  strangers (vl ++ [r]).
Proof.
  intros Hs Hc i k a b Hi Hk Hlt. apply lookup_snoc_Some in Hk as [[Hk Hb]|[-> <-]].
  - apply lookup_snoc_Some in Hi as [[_ Ha]|[-> _]]; [by eapply Hs|lia].
  - apply lookup_snoc_Some in Hi as [[_ Ha]|[-> _]]; [|lia]. intros Haff.
    apply not_true_iff_false in Hc. apply Hc. apply contains_spec. exists (epOf a). split; [|done].
    apply list_elem_of_fmap_2. by eapply list_elem_of_lookup_2.
Qed.
Lemma ok_snoc rs r : filter ok (rs ++ [r]) = filter ok rs ++ if decide (ok r) then [r] else [].
Proof. by rewrite filter_app, filter_cons, filter_nil. Qed.
Lemma strangers_prefix vl vl' : strangers (vl ++ vl') -> strangers vl.
Proof. intros Hx i k a b Hi Hk. apply (Hx i k a b); by apply lookup_app_l_Some. Qed.
Lemma strangers_contains vl r a :
  strangers (vl ++ [r]) -> AffContains EffectiveTLDPlusOne st (AffiliatesOf EffectiveTLDPlusOne st (epOf <$> vl)) a = true ->
  a = epOf r -> False.
Proof.
  intros Hx Hc ->. apply contains_spec in Hc as (e & (v & -> & Hv)%list_elem_of_fmap & Haff).
  apply list_elem_of_lookup in Hv as [i Hi]. pose proof (lookup_lt_Some _ _ _ Hi).
  apply (Hx i (length vl) v r); [by apply lookup_app_l_Some|by apply list_lookup_middle|done|done].
Qed.
(** A result that does not vote: an error, no response, no consensus asked, or
    a voter it is affiliated with. *)
Lemma counted_skip n consensus rs vl w r :
  counted n consensus rs vl w -> (length rs < n)%nat ->
  (consensus = true -> strangers (filter ok (rs ++ [r])) -> ~ ok r) ->
  counted n consensus (rs ++ [r]) vl
    (mkWait (votes w) (voted w) (voters w) (<[index r := Some r]> (done w))
       (answered w + if decide (ok r) then 1 else 0) (S (received w))).
Proof.
  intros [[R1 R2] V1 V2 [D1 D2] HI HS HA HD HL] Hlt Hno. split; simpl; try done.
  - rewrite length_app, R1. simpl. lia.
  - rewrite length_app. lia.
  - intros x Hx. destruct (HI x Hx) as [? ?]. split; [apply elem_of_app; by left|done].
  - rewrite ok_snoc, length_app, HA. destruct (decide _); simpl; lia.
  - by rewrite foldl_app, HD.
  - intros Hcs Hx. rewrite ok_snoc, decide_False by (by apply Hno). rewrite app_nil_r. apply HL; [done|].
    rewrite ok_snoc in Hx. by eapply strangers_prefix.
Qed.
Lemma ballots_snoc d vl r : ballots d (vl ++ [r]) = ballots d vl ++ if bool_decide (dig r = d) then [r] else [].
Proof. unfold ballots. rewrite filter_app, filter_cons, filter_nil. case_bool_decide; by case_decide. Qed.
Lemma counted_vote n consensus rs vl w r resp :
  counted n consensus rs vl w -> (length rs < n)%nat -> aerr r = None -> Retry.Response (actx r) = Some resp ->
  AffContains EffectiveTLDPlusOne st (voters w) (epOf r) = false ->
  counted n consensus (rs ++ [r]) (vl ++ [r])
    (mkWait (<[digest resp := default [] (votes w !! digest resp) ++ [r]]> (votes w)) (voted w + 1)
       (Add EffectiveTLDPlusOne st (voters w) (epOf r)) (<[index r := Some r]> (done w)) (answered w + 1) (S (received w))).
Proof.
  intros [[R1 R2] V1 V2 [D1 D2] HI HS HA HD HL] Hlt Ee Er Eaff.
  assert (dig r = digest resp) as Ed by (unfold dig; by rewrite Er).
  assert (ok r) as Hok by (split; [done|by rewrite Er]).
  split; simpl; try done.
  - rewrite length_app, R1. simpl. lia.
  - rewrite V1, fmap_app. unfold AffiliatesOf. by rewrite foldl_app.
  - intros d. rewrite ballots_snoc, Ed, <- V2. destruct (decide (digest resp = d)) as [<-|Hne].
    + by rewrite lookup_insert_eq, bool_decide_eq_true_2.
    + by rewrite lookup_insert_ne, bool_decide_eq_false_2, app_nil_r.
  - rewrite !length_app. simpl. lia.
  - intros x [Hx| ->%list_elem_of_singleton]%elem_of_app.
    + destruct (HI x Hx) as [? ?]. split; [apply elem_of_app; by left|done].
    + split; [apply elem_of_app; right; by apply list_elem_of_singleton|]. split; [done|]. exists resp. by rewrite Ed.
  - apply strangers_snoc; [done|]. by rewrite <- V1.
  - rewrite ok_snoc, length_app, HA, decide_True by done. simpl. lia.
  - by rewrite foldl_app, HD.
  - intros Hcs Hx. rewrite ok_snoc, decide_True in * by done. f_equal. apply HL; [done|]. by eapply strangers_prefix.
Qed.
Lemma counted_result n consensus rs vl w r :
  counted n consensus rs vl w -> (length rs < n)%nat ->
  exists vl', counted n consensus (rs ++ [r]) vl' (stateOf (onResult n consensus w r)) /\
    match onResult n consensus w r with
    | Going w' => vl' = vl \/ (vl' = vl ++ [r] /\ (length (ballots (dig r) vl') < need n)%nat)
    | Majority r' _ => r' = r /\ consensus = true /\ vl' = vl ++ [r] /\ (need n <= length (ballots (dig r) vl'))%nat /\
        answeredBy (dig r) r
    | Over _ => False
    end.
Proof.
  intros Hc Hlt. pose proof (counted_skip _ _ _ _ _ r Hc Hlt) as Hskip.
  unfold onResult. destruct (aerr r) as [e|] eqn:Ee; [|destruct (Retry.Response (actx r)) as [resp|] eqn:Er].
  - assert (~ ok r) as Hno by (intros [? _]; congruence).
    rewrite decide_False, Z.add_0_r in Hskip by done. exists vl. split; [by apply Hskip|by left].
  - assert (ok r) as Hok by (split; [done|by rewrite Er]). rewrite decide_True in Hskip by done.
    cbn [votes voted voters done answered received]. destruct consensus; cbn [negb].
    2:{ exists vl. split; [by apply Hskip|by left]. }
    destruct (AffContains _ _ _ _) eqn:Eaff.
    { exists vl. split; [|by left]. apply Hskip. intros _ Hx _. rewrite ok_snoc, decide_True in Hx by done.
      pose proof (ct_voters _ _ _ _ _ Hc) as V1. rewrite V1 in Eaff.
      rewrite (ct_all _ _ _ _ _ Hc eq_refl (strangers_prefix _ _ Hx)) in Eaff. by eapply strangers_contains. }
    pose proof (counted_vote _ _ _ _ _ r resp Hc Hlt Ee Er Eaff) as Hv.
    unfold vote. cbn [votes voted voters done answered received]. exists (vl ++ [r]).
    assert (dig r = digest resp) as Ed by (unfold dig; by rewrite Er).
    assert (default [] (votes w !! digest resp) ++ [r] = ballots (dig r) (vl ++ [r])) as Eb.
    { rewrite ballots_snoc, bool_decide_eq_true_2 by done. rewrite Ed. f_equal. apply (ct_votes _ _ _ _ _ Hc). }
    case_bool_decide as Hn; rewrite Eb in Hn; simpl; split; try done; [by right|].
    split_and!; [done|done|done|lia|]. split; [done|]. exists resp. by rewrite Ed.
  - assert (~ ok r) as Hno by (intros [_ [? ?]]; congruence).
    rewrite decide_False, Z.add_0_r in Hskip by done. exists vl. split; [by apply Hskip|by left].
Qed.
(** The results received, in their order. *)
Definition arrivals (es : list Event) : list armResult :=
  omap (λ e, match e with Arrives r => Some r | Done => None end) es.
Lemma counted_wait n consensus es :
  exists rs vl, rs `prefix_of` arrivals es /\ counted n consensus rs vl (stateOf (wait n consensus es)) /\
    match wait n consensus es with
    | Majority r _ => consensus = true /\ r ∈ vl /\ (need n <= length (ballots (dig r) vl))%nat /\ answeredBy (dig r) r
    | Going _ => (rs = arrivals es \/ length rs = n) /\ forall d, (length (ballots d vl) < need n)%nat
    | Over _ => (Done ∈ es \/ length rs = n) /\ forall d, (length (ballots d vl) < need n)%nat
    end.
Proof.
  induction es as [|e es IH] using rev_ind.
  { exists [], []. split; [done|]. split; [apply counted_start|]. split; [by left|]. intros d. unfold need. simpl. lia. }
  destruct IH as (rs & vl & Hpre & Hc & Ho). unfold wait in *. rewrite foldl_app. simpl.
  set (o := foldl _ _ es) in *. clearbody o.
  assert (arrivals es `prefix_of` arrivals (es ++ [e])) as Hmore by (unfold arrivals; rewrite omap_app; by eexists).
  assert (rs `prefix_of` arrivals (es ++ [e])) as Hpre' by (by etrans).
  destruct o as [w|r w|w]; cbn [onEvent stateOf] in *; [|(exists rs, vl; split; [done|split; [done|exact Ho]])|].
  2:{ exists rs, vl. split; [done|]. split; [done|]. destruct Ho as [[Hd|Hd] Ho]; split; auto. left. apply elem_of_app. by left. }
  destruct Ho as [Hall Hd]. destruct (ct_received _ _ _ _ _ Hc) as [R1 R2]. case_bool_decide as Hlt.
  2:{ exists rs, vl. split; [done|split; [done|split; [right; lia|exact Hd]]]. }
  destruct Hall as [->|Hn]; [|lia].
  destruct e as [r|].
  2:{ exists (arrivals es), vl. split; [done|]. split; [done|]. split; [|exact Hd]. left. apply elem_of_app. right. by left. }
  destruct (counted_result n consensus _ _ _ r Hc ltac:(lia)) as (vl' & Hc' & Hr).
  assert (arrivals (es ++ [Arrives r]) = arrivals es ++ [r]) as Ea by (unfold arrivals; by rewrite omap_app).
  exists (arrivals es ++ [r]), vl'. rewrite Ea. split; [done|]. split; [done|].
  destruct (onResult n consensus w r) as [w'|r' w'|w']; [|by destruct Hr as (-> & -> & -> & ? & ?);
    split_and!; [|apply elem_of_app; right; apply list_elem_of_singleton|..]|done].
  split; [by left|]. intros d. destruct Hr as [->|[-> Hr]]; [done|].
  destruct (decide (dig r = d)) as [<-|Hne]; [done|].
  unfold ballots. rewrite filter_app, filter_cons_False, filter_nil, app_nil_r by done. apply Hd.
Qed.
Lemma need_majority n k : (need n <= k <-> n < 2 * k)%nat.
Proof. unfold need. pose proof (Nat.div_mod_eq n 2). pose proof (Nat.mod_upper_bound n 2). lia. Qed.
Lemma ballots_split d d' vl : d <> d' -> (length (ballots d vl) + length (ballots d' vl) <= length vl)%nat.
Proof.
  intros Hne. unfold ballots. induction vl as [|r vl IH]; [done|]. rewrite !filter_cons.
  destruct (decide (dig r = d)), (decide (dig r = d')); simpl; [congruence|lia..].
Qed.
(** A majority there is among the arms that answered is found, in whatever order
    they arrive. *)
Lemma majority_found n rs d : length rs = n -> strangers (filter ok rs) -> (n < 2 * length (ballots d (filter ok rs)))%nat ->
  exists r w, wait n true (Arrives <$> rs) = Majority r w /\ dig r = d.
Proof.
  intros Hn Hst Hd. assert (arrivals (Arrives <$> rs) = rs) as Ea.
  { unfold arrivals. clear. induction rs as [|r rs IH]; [done|]. simpl. by f_equal. }
  assert (Done ∉ Arrives <$> rs) as Hnot by (by intros (r & ? & _)%list_elem_of_fmap).
  destruct (counted_wait n true (Arrives <$> rs)) as (rs' & vl & [k Hk] & Hc & Ho). rewrite Ea in Hk, Ho. subst rs.
  rewrite filter_app in Hst. pose proof (ct_all _ _ _ _ _ Hc eq_refl (strangers_prefix _ _ Hst)) as ->.
  assert ((rs' = rs' ++ k \/ length rs' = n) -> (forall d, (length (ballots d (filter ok rs')) < need n)%nat) -> False) as Hno.
  { intros Hall Hx. assert (k = []) as ->.
    { apply nil_length_inv. rewrite length_app in Hn. destruct Hall as [E|E]; [apply (f_equal length) in E; rewrite length_app in E|]; lia. }
    rewrite app_nil_r in Hd. apply need_majority in Hd. specialize (Hx d). lia. }
  destruct (wait _ _ _) as [w|r w|w]; [by destruct (Hno (proj1 Ho) (proj2 Ho))| |].
  2:{ destruct Ho as [[?|?] ?]; [done|]. destruct Hno; [by right|done]. }
  exists r, w. split; [done|]. destruct Ho as (_ & _ & Hr & _). apply need_majority in Hr.
  destruct (decide (dig r = d)) as [|Hne]; [done|]. exfalso. rewrite filter_app in Hd.
  pose proof (ballots_split (dig r) d (filter ok rs' ++ filter ok k) Hne) as Hsum.
  unfold ballots in *. rewrite filter_app, !length_app in Hsum. rewrite length_app in Hn.
  rewrite filter_app, length_app in Hsum, Hd.
  pose proof (length_filter ok rs'). pose proof (length_filter ok k). lia.
Qed.
(** ** The envelope *)
Record quorumAnswer := mkAnswer {
  Operator_ : string; HTTPStatus_ : Z; Body_ : option string; Error_ : string
}.
(** What [json.Marshal] makes of a string. *)
Definition quoted (s : string) : list ascii := Json.appendString (GoText.chars s).
Definition rawJSON (body : string) : option string :=
  if bool_decide (body = "") then None
  else if Json.Valid body then Some body else Some (GoText.text (quoted body)).
Definition answerFor (g : operatorGroup) (r : option armResult) : quorumAnswer :=
  match r with
  | None => mkAnswer (operator g) 0 None "no answer before the deadline"
  | Some r =>
      mkAnswer (operator g)
        (match Retry.Response (actx r) with Some resp => HTTPStatusCode resp | None => 0 end)
        (match Retry.Response (actx r) with Some resp => rawJSON (Body resp) | None => None end)
        (match aerr r with Some _ => ClientMessage (aerr r) | None => "" end)
  end.
Definition answersFor (groups : list operatorGroup) (w : Wait) : list quorumAnswer :=
  imap (λ i g, answerFor g (default None (done w !! i))) groups.
(** Members with [omitempty] are left out when zero or empty. *)
Definition member (present : bool) (name : string) (v : list ascii) : list ascii :=
  if present then Batch.json (",'" +:+ (name +:+ "':")) ++ v else [].
Definition renderAnswer (a : quorumAnswer) : option (list ascii) :=
  body ← match Body_ a with
         | None => Some []
         | Some b => member (negb (bool_decide (b = ""))) "body" <$> Json.marshalItem (Some (GoText.chars b))
         end;
  Some (Batch.json "{'operator':" ++ quoted (Operator_ a) ++
    member (negb (bool_decide (HTTPStatus_ a = 0))) "http_status" (GoText.chars (FormatInt (HTTPStatus_ a))) ++
    body ++ member (negb (bool_decide (Error_ a = ""))) "error" (quoted (Error_ a)) ++ Batch.json "}").
Definition renderFailed : string :=
  GoText.text (Batch.json "{'quorum':{'error':'failed to render the quorum envelope'}}").
Definition collectEnvelope (groups : list operatorGroup) (w : Wait) : string :=
  match Json.joinItems (renderAnswer <$> answersFor groups w) with
  | Some items =>
      GoText.text (Batch.json "{'quorum':{'count':" ++ GoText.chars (FormatInt (Z.of_nat (length groups))) ++
        Batch.json ",'responses':[" ++ items ++ Batch.json "]}}")
  | None => renderFailed
  end.

(** ** The handler around the wait *)
Section Handler.
Context (env : @StageEnv W Payload) (hasFlags : bool) (ToLower : string -> string).
(** [HTTPRequest.Header.Get]; the endpoint provider; the reputation service. *)
Context (header : X -> string -> string) (AvailableEndpoints : W -> string -> string -> error + EndpointAddrList).
Context (repSvc : option (W -> string -> string -> EndpointAddr -> option (f64 * bool))).
#[local] Abbreviation M := (StateM.M (@Stages.St W Response Payload X)).

Inductive Entry :=
  | Passed | Rejected (status : Z) (message : string) | Skipped (reason : string) | Failed (err : error)
  | Racing (groups : list operatorGroup) (consensus : bool) (outcome : string).
(** [%q] of a header value is left to [quote]. *)
Context (quote : string -> string).
Definition noEndpoint : error :=
  NewRelayError ErrProtocol "no endpoint available for service" None false.
Definition race (consensus : bool) (outcome countHeader : string) : M Entry :=
  c ← gets Stages.ctx;
  pool ← Stages.read env (λ w, AvailableEndpoints w (Retry.ServiceID c) (Retry.RPCType c));
  match (pool : error + EndpointAddrList) with
  | inl err => mret (Failed err)
  | inr pool =>
      rep ← Stages.read env (λ w ep,
        match repSvc with Some f => f w (Retry.ServiceID c) (Retry.RPCType c) ep | None => None end);
      let groups := topOperators EffectiveTLDPlusOne rep pool (quorumSize countHeader) in
      mret (if bool_decide (length groups = 0)%nat then Failed noEndpoint else Racing groups consensus outcome)
  end.
Definition enter : M Entry :=
  c ← gets Stages.ctx;
  let get := header (rest (Retry.others c)) in
  let countHeader := get headerQuorumCount in
  let modeHeader := get headerQuorumMode in
  if bool_decide (countHeader = "") && bool_decide (modeHeader = "") then mret Passed
  else
    let mode := ToLower (GoText.TrimSpace modeHeader) in
    if negb (bool_decide (mode ∈ [""; QuorumModeConsensus; QuorumModeCollect]))
    then mret (Rejected 400 ("invalid " +:+ (headerQuorumMode +:+ (" header value " +:+ quote modeHeader))))
    else
      on ← (if hasFlags then Stages.isEnabled env FeatureFlag.FlagQuorum else mret false);
      if negb (on : bool) then mret (Skipped "disabled")
      else match Retry.Payloads c with
           | [p] =>
               if bool_decide (Retry.RPCType c = Heuristic.RPCTypeGRPC) then mret (Skipped "rpc_type")
               else
                 let immutable := match Retry.ImmutableClassifier (Retry.Plugin c) with
                                  | Some f => f p | None => false end in
                 if bool_decide (mode = QuorumModeCollect) then race false "" countHeader
                 else if immutable then race true "" countHeader
                 else race false "collect_not_immutable" countHeader
           | _ => mret (Skipped "batch")
           end.

(** What the handler does when the wait is over: headers set, outcomes counted
    and dissent counted, with the error returned and the context left. *)
Record Report := mkReport {
  headers : list (string * string); recorded : list string; dissent : option Z
}.
Definition conclude (c : Context) (groups : list operatorGroup) (consensus : bool) (outcome : string)
    (o : Outcome) (ctxErr : option error) : option error * Context * Report :=
  let n := FormatInt (Z.of_nat (length groups)) in
  match o with
  | Majority r w =>
      let agreed := match Retry.Response (actx r) with
                    | Some resp => Z.of_nat (length (default [] (votes w !! digest resp)))
                    | None => 0
                    end in
      (None, Hedge.mergeContext c (actx r),
       mkReport [(headerQuorumModeUsed, QuorumModeConsensus); (headerQuorumArms, n);
                 (headerQuorumAchieved, FormatInt agreed); (headerQuorumMajority, "true")]
         ["majority"] (if bool_decide (0 < voted w - agreed) then Some (voted w - agreed) else None))
  | Going w | Over w =>
      let ended := negb (bool_decide (ctxErr = None)) in
      if bool_decide (answered w = 0) && ended then
        (Hedge.ctxDoneError ctxErr, c, mkReport [] ["timeout"] None)
      else
        let outcome := if negb (bool_decide (outcome = "")) then outcome
                       else if ended then "timeout"
                       else if consensus then "no_majority" else "collect" in
        (None, with_Err (with_Response c (Some (plainResponse (collectEnvelope groups w) 200))) None,
         mkReport ([(headerQuorumModeUsed, QuorumModeCollect); (headerQuorumArms, n);
                    (headerQuorumAchieved, FormatInt (answered w))] ++
                   (if consensus then [(headerQuorumMajority, "false")] else []))
           [outcome] None)
  end.
End Handler.

(** C4. The answer a quorum returns as agreed is one that more than half of the
    arms gave: the ballots it counts are results that arrived without an error,
    have that answer's digest, and come from endpoints no two of which are
    affiliated; every other answer has less than half; the client gets the
    winning arm's context and the count of those who agreed.  And a majority
    there is among the arms that answered, when no two of those are affiliated,
    is found in whatever order they arrive. *)
Theorem quorum_answers_with_the_majority n :
  (forall es r w c groups outcome ctxErr,
     wait n true es = Majority r w ->
     exists vl, (forall v, v ∈ vl -> v ∈ arrivals es /\ answeredBy (dig v) v) /\ strangers vl /\ r ∈ vl /\
       (n < 2 * length (ballots (dig r) vl))%nat /\
       (forall d, d <> dig r -> (2 * length (ballots d vl) < n)%nat) /\
       (conclude c groups true outcome (Majority r w) ctxErr).1 = (None, Hedge.mergeContext c (actx r)) /\
       headers (conclude c groups true outcome (Majority r w) ctxErr).2 !! 2%nat =
         Some (headerQuorumAchieved, FormatInt (Z.of_nat (length (ballots (dig r) vl))))) /\
  (forall rs d, length rs = n -> strangers (filter ok rs) ->
     (n < 2 * length (ballots d (filter ok rs)))%nat ->
     exists r w, wait n true (Arrives <$> rs) = Majority r w /\ dig r = d).
Proof.
  split; [|apply majority_found]. intros es r w c groups outcome ctxErr Hw.
  destruct (counted_wait n true es) as (rs & vl & Hpre & Hc & Ho). rewrite Hw in Hc, Ho. simpl in Hc.
  destruct Ho as (_ & Hr & Hmaj & _ & resp & Er & Ed). apply need_majority in Hmaj.
  destruct (ct_received _ _ _ _ _ Hc) as [_ Hn]. destruct (ct_voted _ _ _ _ _ Hc) as [_ Hv].
  exists vl. split_and!; try done.
  - intros v Hin. destruct (ct_in _ _ _ _ _ Hc v Hin) as [? ?]. split; [|done].
    destruct Hpre as [k ->]. apply elem_of_app. by left.
  - by apply (ct_strangers _ _ _ _ _ Hc).
  - intros d Hne. pose proof (ballots_split d (dig r) vl Hne). lia.
  - simpl. rewrite Er, Ed. by rewrite (ct_votes _ _ _ _ _ Hc).
Qed.

(** *** The envelope always renders *)
Lemma quoted_valid s : Json.checkValid Json.start (quoted s) = true.
Proof.
  unfold quoted, Json.appendString.
  change (?q :: (?l ++ ?r)) with ([q] ++ (l ++ r)). rewrite Json.checkValid_run.
  change (Json.run Json.start [ascii_of_nat 34]) with
    (Some (Json.mkScanner Json.InString [] false)). cbn [mbind option_bind].
  rewrite Json.checkValid_run, Json.run_chars by done. done.
Qed.
Lemma rawJSON_valid body b : rawJSON body = Some b -> b <> "" /\ Json.Valid b = true.
Proof.
  unfold rawJSON. case_bool_decide as E; [done|]. destruct (Json.Valid body) eqn:Hv; intros <-%(inj Some); [done|].
  unfold Json.Valid. rewrite GoText.chars_text. split; [|apply quoted_valid]. by unfold quoted.
Qed.
Lemma answer_renders g r : is_Some (renderAnswer (answerFor g r)).
Proof.
  destruct r as [r|]; [|by eexists]. unfold renderAnswer. cbn [answerFor Body_].
  destruct (Retry.Response (actx r)) as [resp|]; [|by eexists].
  destruct (rawJSON (Body resp)) as [b|] eqn:Eb; [|by eexists]. apply rawJSON_valid in Eb as [_ Hv].
  unfold Json.marshalItem, Json.appendCompact. rewrite Json.escaping_commutes.
  apply Json.compact_valid in Hv as [x Hx]. rewrite Hx. by eexists.
Qed.
Lemma done_lookup n rs i : (i < n)%nat ->
  foldl (λ l r, <[index r := Some r]> l) (replicate n None) rs !! i = Some (last (filter (λ r, index r = i) rs)).
Proof.
  intros Hi. induction rs as [|r rs IH] using rev_ind; [by apply lookup_replicate_2|].
  assert (forall l : list armResult, length (foldl (λ l r, <[index r := Some r]> l) (replicate n None) l) = n) as Hlen.
  { intros l. induction l as [|x l IHl] using rev_ind; [by simpl; rewrite length_replicate|].
    rewrite foldl_app. simpl. by rewrite length_insert. }
  rewrite foldl_app, filter_app, filter_cons, filter_nil. simpl. destruct (decide (index r = i)) as [<-|Hne].
  - rewrite list_lookup_insert_eq by (by rewrite Hlen). by rewrite last_snoc.
  - rewrite list_lookup_insert_ne by done. by rewrite app_nil_r.
Qed.
Lemma all_some {A} (l : list (option A)) : Forall is_Some l -> exists xs, l = Some <$> xs.
Proof.
  induction 1 as [|o l [x ->] _ [xs ->]]; [by exists []|by exists (x :: xs)].
Qed.
(** Items with commas between. *)
Fixpoint commas (items : list (list ascii)) : list ascii :=
  match items with [] => [] | [i] => i | i :: items => i ++ [","%char] ++ commas items end.
Lemma join_commas items : Json.joinItems (Some <$> items) = Some (commas items).
Proof.
  induction items as [|i [|k items] IH]; [done..|].
  change (Json.joinItems (Some <$> i :: k :: items)) with (rest ← Json.joinItems (Some <$> k :: items); Some (i ++ [","%char] ++ rest)).
  by rewrite IH.
Qed.

(** A collected answer always renders, and holds one item per arm, in the
    order of the ranking: the last result that arrived with that arm's index, or
    the error of an arm that has not answered. *)
Theorem envelope_lists_every_arm groups consensus es :
  exists rs items, rs `prefix_of` arrivals es /\ length items = length groups /\
    collectEnvelope groups (stateOf (wait (length groups) consensus es)) =
      GoText.text (Batch.json "{'quorum':{'count':" ++ GoText.chars (FormatInt (Z.of_nat (length groups))) ++
        Batch.json ",'responses':[" ++ commas items ++ Batch.json "]}}") /\
    (forall i g, groups !! i = Some g ->
       items !! i = renderAnswer (answerFor g (last (filter (λ r, index r = i) rs)))).
Proof.
  set (n := length groups). destruct (counted_wait n consensus es) as (rs & vl & Hpre & Hc & _).
  set (w := stateOf _) in *. pose proof (ct_done _ _ _ _ _ Hc) as Hd.
  assert (forall i g, groups !! i = Some g ->
    answersFor groups w !! i = Some (answerFor g (last (filter (λ r, index r = i) rs)))) as Ha.
  { intros i g Hg. unfold answersFor. rewrite list_lookup_imap, Hg. simpl.
    rewrite Hd, done_lookup by (by eapply lookup_lt_Some). done. }
  destruct (all_some (renderAnswer <$> answersFor groups w)) as [items Hi].
  { apply Forall_fmap, Forall_lookup_2. intros i a Hia. unfold answersFor in Hia.
    apply list_lookup_imap_Some in Hia as (g & _ & ->). apply answer_renders. }
  exists rs, items. split; [done|]. split; [|split].
  - apply (f_equal length) in Hi. rewrite !length_fmap in Hi. rewrite <- Hi. unfold answersFor. by rewrite length_imap.
  - unfold collectEnvelope. by rewrite Hi, join_commas.
  - intros i g Hg. apply Ha in Hg. apply (f_equal (lookup i)) in Hi. rewrite !list_lookup_fmap, Hg in Hi. simpl in Hi.
    destruct (answer_renders g (last (filter (λ r, index r = i) rs))) as [x Hx]. rewrite Hx in *.
    by destruct (items !! i) as [y|]; simpl in Hi; simplify_eq.
Qed.
End Quorum.

(** ** Runs: four operators, of whom three are asked and two agree *)
Definition demoPool : EndpointAddrList := ["s1-https://a.net"; "s2-https://b.net"; "s3-https://c.net"; "s4-https://d.net"].
Definition demoRep (ep : EndpointAddr) : option (f64 * bool) :=
  if bool_decide (ep = "s1-https://a.net") then Some (of_int 90, false)
  else if bool_decide (ep = "s3-https://c.net") then Some (of_int 80, true) else None.
Lemma demo_scores ep sc v : demoRep ep = Some (sc, v) -> is_nan sc = false.
Proof. unfold demoRep. repeat case_bool_decide; [by intros [= <- _]..|done]. Qed.
Example demo_ranking :
  operator <$> topOperators (λ h, Some h) demoRep demoPool (quorumSize "4") = ["c.net"; "a.net"; "b.net"].
Proof. vm_compute. reflexivity. Qed.
Lemma arms_are_the_best_operators_witness :
  NoDup (operator <$> topOperators (λ h, Some h) demoRep demoPool (quorumSize "4")).
Proof.
  exact (proj1 (arms_are_the_best_operators (λ h, Some h) demoRep demoPool "4" demo_scores)).
Defined.

Definition demoArm (i : nat) (ep : EndpointAddr) (body : string) : @armResult unit unit :=
  mkArm i (Retry.with_Answer Batch.demoCtx (Some (plainResponse body 200)) ep None None) None.
Definition demoArms : list (@armResult unit unit) :=
  [demoArm 2 "s2-https://b.net" "1"; demoArm 0 "s3-https://c.net" "2"; demoArm 1 "s1-https://a.net" "1"].
Lemma demo_strangers : strangers (λ h, Some h) emptyOwners (filter ok demoArms).
Proof.
  assert (filter ok demoArms = demoArms) as -> by (vm_compute; reflexivity).
  intros [|[|[|i]]] [|[|[|k]]] a b; intros [= <-] [= <-] Hlt; try lia.
  all: intros [[E _]|[_ E]]; vm_compute in E; congruence.
Qed.
Lemma quorum_answers_with_the_majority_witness :
  exists r w, wait (λ h, Some h) emptyOwners Body 3 true (Arrives <$> demoArms) = Majority r w /\ dig Body r = "1".
Proof.
  apply (proj2 (quorum_answers_with_the_majority (λ h, Some h) emptyOwners Body 3) demoArms "1").
  - reflexivity.
  - exact demo_strangers.
  - vm_compute. lia.
Defined.
End Quorum.
