(* ===== verification/Flight.v ===== *)
(** * Flight: the response cache and the coalescing of requests in the chain

    Models [relay/middleware/cache.go] and [relay/middleware/singleflight.go]
    over an arbitrary inner chain: the key that names a request, the cache stage
    around [ResponseCache], and the coalescing stage around a group's [Do].

    [sha256] is any function.  [Do] of [golang.org/x/sync/singleflight] is known by
    what a call comes to: [joins] gives the outcome of the flight a call found in
    progress, and the world by the time it ended, or [None] when there was none
    and the caller ran its own.  A response is [Message.Response]; the cache and a
    flight hand on the pointer, and no stage outside them writes through it. *)

From Stdlib Require Import Ascii.
From stdpp Require Import strings.
From S2P Require Import Prelude Domain Text StateM FeatureFlag RelayErrors Heuristic Message.
From S2P Require Import Blocklist ResponseCache Retry Stages.
Import Domain RelayErrors Message Stages.

Module Flight.

(** ** The key of a request *)
Definition NUL : string := String (ascii_of_nat 0) "".
Fixpoint writeFields (fields : list string) : string :=
  match fields with [] => "" | f :: fields => f +:+ (NUL +:+ writeFields fields) end.
Definition writeRequestKey (p : Payload) : string :=
  writeFields [Message.RPCType p; HTTPMethod p; Path p; Message.Method p] +:+ Bytes p.
(** What is written to the hash. *)
Fixpoint writePayloads (ps : list Payload) : string :=
  match ps with [] => "" | p :: ps => writeRequestKey p +:+ writePayloads ps end.
Definition keyText (serviceID : string) (ps : list Payload) : string := serviceID +:+ writePayloads ps.
Definition cacheKey (sha256 : string -> string) (serviceID : string) (ps : list Payload) : string :=
  sha256 (keyText serviceID ps).

(** *** What the key tells apart *)
#[local] Abbreviation noNUL := (GoStrings.free (ascii_of_nat 0)).
Lemma split_field a b x y : noNUL a -> noNUL b -> a +:+ (NUL +:+ x) = b +:+ (NUL +:+ y) -> a = b /\ x = y.
Proof.
  revert b. induction a as [|c a IH]; intros [|d b] Ha Hb E; simpl in *; destruct_and?; simplify_eq; try done.
  by destruct (IH b ltac:(done) ltac:(done) ltac:(done)) as [-> ->].
Qed.
Definition plainFields (p : Payload) : Prop :=
  noNUL (Message.RPCType p) /\ noNUL (HTTPMethod p) /\ noNUL (Path p) /\ noNUL (Message.Method p).
(** The request two payloads with one key make: all but the content type. *)
Definition sameRequest (p q : Payload) : Prop :=
  Message.RPCType p = Message.RPCType q /\ HTTPMethod p = HTTPMethod q /\ Path p = Path q /\
  Message.Method p = Message.Method q /\ Bytes p = Bytes q.
(** No RPC type ends another, so the service, which ends in nothing, cannot run
    into it. *)
Lemma app_cases s t s' t' : s +:+ t = s' +:+ t' ->
  (exists k, s' = s +:+ k /\ t = k +:+ t') \/ (exists k, s = s' +:+ k /\ t' = k +:+ t).
Proof.
  revert s'. induction s as [|c s IH]; intros s' E; [left; by exists s'|].
  destruct s' as [|d s']; [right; by exists (String c s)|]. injection E as -> E.
  destruct (IH s' E) as [(k & -> & ?)|(k & -> & ?)]; [left|right]; by exists k.
Qed.
Lemma chars_app a b : GoText.chars (a +:+ b) = GoText.chars a ++ GoText.chars b.
Proof. induction a as [|c a IH]; [done|]. unfold GoText.chars in *. simpl. by rewrite IH. Qed.
Definition endsIn (t s : list ascii) : bool := bool_decide (drop (length s - length t) s = t).
Lemma types_end_no_other t t' k :
  t ∈ Blocklist.AllRPCTypes -> t' ∈ Blocklist.AllRPCTypes -> t = k +:+ t' -> k = "".
Proof.
  intros Ht Ht' E.
  assert (forallb (λ t, forallb (λ t', negb (endsIn (GoText.chars t') (GoText.chars t)) || bool_decide (t = t'))
    Blocklist.AllRPCTypes) Blocklist.AllRPCTypes = true) as Hall by (vm_compute; reflexivity).
  rewrite forallb_forall in Hall. specialize (Hall t (proj1 (list_elem_of_In _ _) Ht)).
  rewrite forallb_forall in Hall. specialize (Hall t' (proj1 (list_elem_of_In _ _) Ht')).
  apply orb_true_iff in Hall as [Hall|Hall].
  - exfalso. apply negb_true_iff, bool_decide_eq_false in Hall. apply Hall. rewrite E, chars_app.
    rewrite length_app. by rewrite drop_app_length' by lia.
  - apply bool_decide_eq_true in Hall as <-. destruct k as [|c k]; [done|]. exfalso.
    apply (f_equal String.length) in E. rewrite GoStrings.length_app' in E. simpl in E. lia.
Qed.

(** Two requests of one payload each have the same key text exactly when
    they are the same request of the same service: the same type, verb, path,
    method and bytes, for fields that hold no NUL. *)
Theorem key_names_the_request s s' p p' :
  Message.RPCType p ∈ Blocklist.AllRPCTypes -> Message.RPCType p' ∈ Blocklist.AllRPCTypes ->
  plainFields p -> plainFields p' -> noNUL s -> noNUL s' ->
  keyText s [p] = keyText s' [p'] <-> s = s' /\ sameRequest p p'.
Proof.
  intros Ht Ht' (P1 & P2 & P3 & P4) (Q1 & Q2 & Q3 & Q4) Hs Hs'. split.
  2:{ intros [-> (E1 & E2 & E3 & E4 & E5)]. unfold keyText, writePayloads, writeRequestKey. by rewrite E1, E2, E3, E4, E5. }
  unfold keyText, writePayloads, writeRequestKey. cbn [writeFields].
  rewrite !GoStrings.app_assoc', <- (GoStrings.app_assoc' s), <- (GoStrings.app_assoc' s'). intros E.
  apply split_field in E as [E0 E]; [|by apply GoStrings.free_app..].
  apply split_field in E as [E2 E]; [|done..]. apply split_field in E as [E3 E]; [|done..].
  apply split_field in E as [E4 E]; [|done..]. cbn [String.app] in E. rewrite !GoStrings.app_nil' in E.
  assert (s = s' /\ Message.RPCType p = Message.RPCType p') as [-> E1].
  { apply app_cases in E0 as [(k & -> & E1)|(k & -> & E1)];
      pose proof E1 as Hk; apply types_end_no_other in Hk; try done; subst k.
    - by rewrite GoStrings.app_nil'.
    - by rewrite GoStrings.app_nil'. }
  done.
Qed.

(** The bytes end in nothing, so a payload can spell the one after it. *)
Definition spelled : list Payload * list Payload :=
  let p := NewPayload "a" Heuristic.RPCTypeJSONRPC "m" in
  let q := NewPayload "b" Heuristic.RPCTypeJSONRPC "m" in
  ([p; q], [NewPayload ("a" +:+ writeRequestKey q) Heuristic.RPCTypeJSONRPC "m"]).
Lemma batches_share_keys s : keyText s spelled.1 = keyText s spelled.2 /\ length spelled.1 <> length spelled.2.
Proof. split; [|done]. unfold keyText. f_equal. Qed.

Section Flight.
Context {W X : Type} (env : @StageEnv W Payload) (sha256 : string -> string).
#[local] Abbreviation Context := (@Retry.Context W Response Payload (@Extra X)).
#[local] Abbreviation NextHandler := (@Retry.NextHandler W Response Payload (@Extra X)).
#[local] Abbreviation St := (@Stages.St W Response Payload X).
#[local] Abbreviation M := (StateM.M St).
#[local] Abbreviation key c := (cacheKey sha256 (Retry.ServiceID c) (Retry.Payloads c)).

(** ** The cache stage *)
Definition bodyLen (r : Response) : nat := String.length (Body r).
Abbreviation Store := (ResponseCache.Cache Response).
Definition cached (c : Context) : Context :=
  let x := Retry.others c in
  with_others c (mkExtra (BatchSize x) (SelectedEndpoint x) (Degraded x) true (Coalesced x)
    (ClientIP x) (RemoteAddr x) (rest x)).
Definition coalesced (c : Context) : Context :=
  let x := Retry.others c in
  with_others c (mkExtra (BatchSize x) (SelectedEndpoint x) (Degraded x) (Cached x) true
    (ClientIP x) (RemoteAddr x) (rest x)).
(** The cache reads the clock under its own lock. *)
Definition cacheGet `{!Cell W Store} (k : string) : M (option Response) := λ s,
  atomically env (λ st : Store,
    let '(st', r) := ResponseCache.Get st k (Retry.Now (base env) (world s)) in (r, st')) s.
Definition cacheSet `{!Cell W Store} (k : string) (r : Response) (ttl : Z) : M unit := λ s,
  atomically env (λ st : Store, (tt, ResponseCache.Set_ bodyLen st k r ttl (Retry.Now (base env) (world s)))) s.
Definition store `{!Cell W Store} (cp : string -> string -> string -> Z) (k : string) : M unit :=
  c ← gets ctx;
  match Retry.Response c with
  | None => mret tt
  | Some resp =>
      let '(params, method) := match Retry.Payloads c with
                               | [p] => (Bytes p, Message.Method p) | _ => ("", "") end in
      let ttl := cp method params (Body resp) in
      if bool_decide (0 < ttl) then cacheSet k resp ttl else mret tt
  end.
Definition Cache `{!Cell W Store} (next : NextHandler) : M (option error) :=
  c ← gets ctx;
  if Retry.QuorumArm c then callNext next
  else
    on ← isEnabled env FeatureFlag.FlagCache;
    if negb (on : bool) then callNext next
    else match Retry.CachePolicy (Retry.Plugin c) with
         | None => callNext next
         | Some cp =>
             let k := key c in
             hit ← cacheGet k;
             match (hit : option Response) with
             | Some resp => modify (set_ctx (λ c, cached (with_Response c (Some resp))));; mret None
             | None =>
                 err ← callNext next;
                 match (err : option error) with
                 | Some e => mret (Some e)
                 | None => store cp k;; mret None
                 end
             end
         end.

(** ** The coalescing stage *)
Record flight := mkFlight {
  response : option Response; verdict : option AnalysisResult; err : option error; leaderGone : bool
}.
Definition Gone (c : Context) (w : W) : bool := Retry.Done (base env) w (Retry.Ctx c).
Definition fly (next : NextHandler) (c : Context) (w : W) : flight * Context * W :=
  let '(e, c', w') := next c w in
  (mkFlight (Retry.Response c') (Retry.HeuristicResult c') e (Gone c' w'), c', w').
(** What a call of the group of a service with a key comes to. *)
Context (joins : W -> string -> string -> option (flight * W)).
Fixpoint coalesce (fuel : nat) (next : NextHandler) (c : Context) (w : W) : option (option error * Context * W) :=
  match fuel with
  | O => None
  | S fuel =>
      if Retry.QuorumArm c then Some (next c w)
      else
        let on := Retry.IsEnabled (base env) w FeatureFlag.FlagSingleflight (Retry.ServiceID c) in
        let w := Retry.pass (base env) w in
        if negb on then Some (next c w)
        else match Retry.Payloads c, Retry.CoalescenceClassifier (Retry.Plugin c) with
             | [p], Some isCoalescable =>
                 if negb (isCoalescable (Message.Method p)) then Some (next c w)
                 else match joins w (Retry.ServiceID c) (key c) with
                      | None => let '(f, c, w) := fly next c w in Some (err f, c, w)
                      | Some (f, w) =>
                          if leaderGone f && negb (Gone c w) then coalesce fuel next c w
                          else Some (err f, coalesced (with_Verdict (with_Response c (response f)) (verdict f)), w)
                      end
             | _, _ => Some (next c w)
             end
  end.

(** ** The cache is transparent

    [P t r] says that [r] is an answer to the request whose key text is [t]. *)
Section Transparent.
Context `{!Cell W Store} (next : NextHandler) (P : string -> Response -> Prop).
Context (no_collisions : forall x y, sha256 x = sha256 y -> x = y).
Definition answers (w : W) : Prop :=
  ResponseCache.consistent bodyLen (cell w) /\
  forall e, e ∈ ResponseCache.contents (cell w) -> exists t, ResponseCache.key e = sha256 t /\ P t (ResponseCache.response e).
(** An inner stage that answers requests rightly, and leaves the cache to this
    one or to others like it. *)
Definition honest (next : NextHandler) : Prop :=
  forall c w, answers w -> let '(e, c', w') := next c w in
    answers w' /\ Retry.ServiceID c' = Retry.ServiceID c /\ Retry.Payloads c' = Retry.Payloads c /\
    (e = None -> forall r, Retry.Response c' = Some r -> P (keyText (Retry.ServiceID c) (Retry.Payloads c)) r).
Context (others_honest : forall w, answers w -> answers (Retry.pass (base env) w)).

Lemma answers_put (st : Store) w :
  ResponseCache.consistent bodyLen st ->
  (forall e, e ∈ ResponseCache.contents st -> exists t, ResponseCache.key e = sha256 t /\ P t (ResponseCache.response e)) ->
  answers (put st w).
Proof. intros H1 H2. unfold answers. by rewrite cell_put. Qed.
Lemma get_answers k s : answers (world s) -> wp (cacheGet k)
  (λ r s', ctx s' = ctx s /\ answers (world s') /\ (forall a, r = Some a -> forall t, k = sha256 t -> P t a)) s.
Proof.
  intros [Hc Hp]. unfold wp, cacheGet, atomically.
  pose proof (ResponseCache.get_refines bodyLen (cell (world s)) k (Retry.Now (base env) (world s)) Hc) as H.
  destruct (ResponseCache.Get _ _ _) as [st r]. destruct H as (Hc' & Hl & _). simpl. split; [done|].
  unfold ResponseCache.lru_get, ResponseCache.lru_find in Hl.
  destruct (List.find _ _) as [e|] eqn:Ef; [|injection Hl as Hl ->; split; [|done]; apply others_honest, answers_put; [done|by rewrite Hl]].
  apply List.find_some in Ef as [Hin%list_elem_of_In <-%bool_decide_eq_true].
  destruct (GoTime.After _ _); injection Hl as Hl ->.
  - split; [|done]. apply others_honest, answers_put; [done|]. rewrite Hl. intros x [_ Hx]%list_elem_of_filter. auto.
  - split.
    + apply others_honest, answers_put; [done|]. rewrite Hl.
      intros x [[_ Hx]%list_elem_of_filter| ->%list_elem_of_singleton]%elem_of_app; auto.
    + intros a [= <-] t Ht. destruct (Hp e Hin) as (t' & Ht' & HP). rewrite Ht' in Ht.
      by apply no_collisions in Ht as <-.
Qed.
Lemma set_answers k r ttl t s : answers (world s) -> k = sha256 t -> P t r ->
  wp (cacheSet k r ttl) (λ _ s', ctx s' = ctx s /\ answers (world s')) s.
Proof.
  intros [Hc Hp] Hk HP. unfold wp, cacheSet, atomically. simpl. split; [done|]. apply others_honest.
  destruct (ResponseCache.set_refines bodyLen (cell (world s)) k r ttl (Retry.Now (base env) (world s)) Hc) as (Hc' & Hl & _).
  apply answers_put; [done|]. rewrite Hl. unfold ResponseCache.lru_set. destruct (_ || _); [done|].
  intros x [Hx| ->%list_elem_of_singleton]%elem_of_app; [|by exists t].
  eapply elem_of_suffix in Hx; [|apply ResponseCache.lru_evict_sub].
  eapply elem_of_suffix in Hx; [|apply ResponseCache.lru_sweep_sub].
  apply list_elem_of_filter in Hx as [_ Hx]. auto.
Qed.
Lemma next_answers s : honest next -> answers (world s) ->
  wp (callNext next) (λ e s', answers (world s') /\ Retry.ServiceID (ctx s') = Retry.ServiceID (ctx s) /\
    Retry.Payloads (ctx s') = Retry.Payloads (ctx s) /\
    (e = None -> forall r, Retry.Response (ctx s') = Some r -> P (keyText (Retry.ServiceID (ctx s)) (Retry.Payloads (ctx s))) r)) s.
Proof. intros Hn Hw. specialize (Hn (ctx s) (world s) Hw). unfold wp, callNext. by destruct (next _ _) as [[e c'] w']. Qed.

End Transparent.

(** ** What followers get *)
Section Followers.
Context (next : NextHandler).
(** [Do] hands on the outcome of a caller of the same group with the same key. *)
Context (Do_shares : forall w s k f w', joins w s k = Some (f, w') ->
  exists c0 w0, Retry.ServiceID c0 = s /\ key c0 = k /\ f = (fly next c0 w0).1.1).

(** The call found a flight, its leader had left by the end, and the caller had
    not: the caller goes round again. *)
Definition rejoin (c : Context) (w : W) : option W :=
  match joins (Retry.pass (base env) w) (Retry.ServiceID c) (key c) with
  | Some (f, w') => if leaderGone f && negb (Gone c w') then Some w' else None
  | None => None
  end.
Fixpoint rejoins (n : nat) (c : Context) (w : W) : option W :=
  match n with O => Some w | S n => w' ← rejoin c w; rejoins n c w' end.

Lemma coalesce_returns fuel c w : rejoins fuel c w = None -> is_Some (coalesce fuel next c w).
Proof.
  revert w. induction fuel as [|fuel IH]; intros w H; [done|]. cbn [coalesce].
  destruct (Retry.QuorumArm c); [by eexists|]. destruct (Retry.IsEnabled _ _ _ _); cbn [negb]; [|by eexists].
  destruct (Retry.Payloads c) as [|p [|q ps]] eqn:Ep; [by eexists| |by eexists].
  destruct (Retry.CoalescenceClassifier _) as [f|]; [|by eexists]. destruct (negb _); [by eexists|].
  cbn [rejoins] in H. unfold rejoin in H. rewrite <- Ep. destruct (joins _ _ _) as [[fl w']|].
  - destruct (leaderGone fl && negb (Gone c w')); [by apply IH|by eexists].
  - destruct (fly _ _ _) as [[? ?] ?]. by eexists.
Qed.

(** C8. A request through the coalescing stage ends with its own run of the
    inner chain, or with the response, the verdict and the error another request
    of the same service with the same key got from it; and not with one whose
    client had left, unless its own had too.  It goes round again only behind a
    leader that left, so it returns as soon as one stays. *)
Theorem followers_share_a_live_flight fuel c w :
  (forall e c' w', coalesce fuel next c w = Some (e, c', w') ->
     (exists w1, next c w1 = (e, c', w')) \/
     (exists c0 w0, Retry.ServiceID c0 = Retry.ServiceID c /\ key c0 = key c /\
        let '(e0, c1, w1) := next c0 w0 in
        e = e0 /\ Retry.Response c' = Retry.Response c1 /\ Retry.HeuristicResult c' = Retry.HeuristicResult c1 /\
        Coalesced (Retry.others c') = true /\ (Gone c1 w1 = true -> Gone c w' = true))) /\
  (rejoins fuel c w = None -> is_Some (coalesce fuel next c w)).
Proof.
  split; [|apply coalesce_returns]. revert w. induction fuel as [|fuel IH]; intros w e c' w' H; [done|].
  cbn [coalesce] in H.
  assert (forall w1, Some (next c w1) = Some (e, c', w') -> exists w1, next c w1 = (e, c', w')) as Hown.
  { intros w1 [= E]. by exists w1. }
  destruct (Retry.QuorumArm c); [left; by eapply Hown|].
  destruct (Retry.IsEnabled _ _ _ _); cbn [negb] in H; [|left; by eapply Hown].
  destruct (Retry.Payloads c) as [|p [|q ps]] eqn:Ep; [left; by eapply Hown| |left; by eapply Hown].
  destruct (Retry.CoalescenceClassifier _) as [cl|]; [|left; by eapply Hown].
  destruct (negb _); [left; by eapply Hown|]. rewrite <- Ep in *. destruct (joins _ _ _) as [[f w1]|] eqn:Ej.
  - destruct (leaderGone f && negb (Gone c w1)) eqn:Eg; [by eapply IH|]. injection H as <- <- <-. right.
    apply Do_shares in Ej as (c0 & w0 & Hs & Hk & ->). exists c0, w0. split; [done|]. split; [done|].
    unfold fly in *. destruct (next c0 w0) as [[e0 c1] w2]. simpl in *. split_and!; try done.
    intros Hg. rewrite Hg in Eg. by destruct (Gone c w1).
  - left. unfold fly in H. destruct (next c _) as [[e0 c1] w1] eqn:En. injection H as <- <- <-. eexists. exact En.
Qed.
End Followers.
End Flight.

(** ** Runs *)
Definition demoPolicy {W} : @Retry.PluginI W Payload :=
  Retry.mkPlugin None None None None None None None None None None None None
    (Some (λ _, true)) (Some (λ _ _ _, 1000)) None.
Definition demoBase {W} : @Retry.Env W :=
  Retry.mkEnv id (λ _, 0) (λ _ _, false) (λ _ _ _, true) (λ _, emptyOwners) None None None false.
Definition demoEnv {W} : @StageEnv W Payload :=
  mkStageEnv demoBase (λ w _ _ _ _, ("", w)) None None id None Message.Method false false.
Definition demoCtx {W} : @Retry.Context W Response Payload (@Extra unit) :=
  Retry.mkContext (Retry.mkGoCtx None) "eth" Heuristic.RPCTypeJSONRPC demoPolicy
    [NewPayload "q" Heuristic.RPCTypeJSONRPC "m"] "" [] [] None None None false ""
    (mkExtra 1 None false false false None None tt).
(** An inner chain that answers anything alike, and says it settled for less. *)
Definition demoNext {W} : @Retry.NextHandler W Response Payload (@Extra unit) :=
  λ c w, (None, degraded (with_Response c (Some (plainResponse "a" 200))), w).

Lemma key_names_the_request_witness :
  keyText "eth" [NewPayload "q" Heuristic.RPCTypeJSONRPC "m"] <> keyText "eth" [NewPayload "q" Heuristic.RPCTypeREST "m"].
Proof.
  intros E.
  apply (key_names_the_request "eth" "eth" (NewPayload "q" Heuristic.RPCTypeJSONRPC "m") (NewPayload "q" Heuristic.RPCTypeREST "m"))
    in E as [_ (E & _)]; [discriminate E|..].
  - by left.
  - by right; left.
  - repeat split; discriminate.
  - repeat split; discriminate.
  - repeat split; discriminate.
  - repeat split; discriminate.
Defined.

#[local] Instance demo_cell : Cell (ResponseCache.Cache Response) (ResponseCache.Cache Response).
Proof. refine {| cell := id; put := λ a _, a |}. done. Defined.
Definition demoStart : @Stages.St (ResponseCache.Cache Response) Response Payload unit :=
  mkSt demoCtx (ResponseCache.NewCache 2) [].
Definition isA (t : string) (r : Response) : Prop := Body r = "a".
Lemma demo_answers : answers id isA (world demoStart).
Proof. split; [apply ResponseCache.new_consistent|]. by intros e []%elem_of_nil. Qed.
Lemma demo_honest : honest (X := unit) id isA (λ c w, demoNext c w).
Proof. intros c w Hw. simpl. split_and!; try done. by intros _ r [= <-]. Qed.
(** The second request is a hit. *)
Example demo_hit :
  let s := (Cache demoEnv id demoNext demoStart).2 in
  Cached (Retry.others (ctx s)) = false /\
  Cached (Retry.others (ctx (Cache demoEnv id demoNext (mkSt demoCtx (world s) [])).2)) = true.
Proof. vm_compute. done. Qed.

(** A follower of a request whose answer is marked degraded. *)
Definition demoJoins (w : unit) (s k : string) : option (flight * unit) :=
  if bool_decide (s = "eth" /\ k = cacheKey id "eth" [NewPayload "q" Heuristic.RPCTypeJSONRPC "m"])
  then Some ((fly demoEnv demoNext (demoCtx (W := unit)) tt).1.1, tt) else None.
Lemma demo_shares w s k f w' : demoJoins w s k = Some (f, w') ->
  exists (c0 : @Retry.Context unit Response Payload (@Extra unit)) (w0 : unit), Retry.ServiceID c0 = s /\ cacheKey id (Retry.ServiceID c0) (Retry.Payloads c0) = k /\
    f = (fly demoEnv demoNext c0 w0).1.1.
Proof. unfold demoJoins. case_bool_decide as E; [|done]. destruct E as [-> ->]. intros [= <- _]. by exists demoCtx, tt. Qed.
Lemma followers_share_a_live_flight_witness : is_Some (coalesce demoEnv id demoJoins 1 demoNext demoCtx tt).
Proof.
  apply (proj2 (followers_share_a_live_flight demoEnv id demoJoins demoNext demo_shares 1 demoCtx tt)).
  vm_compute. reflexivity.
Defined.
(** The leader's client is told that the answer is degraded, the follower's is
    not. *)
Lemma followers_lose_the_mark :
  let leader := (demoNext (demoCtx (W := unit)) tt).1.2 in
  exists c', coalesce demoEnv id demoJoins 1 demoNext demoCtx tt = Some (None, c', tt) /\
    Retry.Response c' = Retry.Response leader /\
    Degraded (Retry.others leader) = true /\ Degraded (Retry.others c') = false.
Proof. eexists. split; [vm_compute; reflexivity|]. done. Qed.
End Flight.
