(* ===== verification/HostMemory.v ===== *)
(** * HostMemory: one observation per host, trusted for a while

    Models [qos/hostmemory.go].  A method is one critical section; the clock it
    reads is an argument. *)

From S2P Require Import Prelude.

Module HostMemory.
Section HostMemory.
Context {V : Type} (zeroV : V).

Record hostEntry := mkEntry { value : V; expiry : Z }.
Record HostMemory := mkMemory { entries : gmap string hostEntry; ttl : Z; maxHosts : Z }.
Definition NewHostMemory (ttl maxHosts : Z) : HostMemory := mkMemory ∅ ttl maxHosts.

(** A new host finds the memory full: it is cleared wholesale. *)
Definition room (m : HostMemory) (host : string) : gmap string hostEntry :=
  if bool_decide (entries m !! host = None) && bool_decide (maxHosts m <= Z.of_nat (size (entries m)))
  then ∅ else entries m.
Definition SetUntil (m : HostMemory) (host : string) (v : V) (exp : Z) : HostMemory :=
  if bool_decide (host = "") then m
  else mkMemory (<[host := mkEntry v exp]> (room m host)) (ttl m) (maxHosts m).
Definition Set_ (m : HostMemory) (host : string) (v : V) (now : Z) : HostMemory :=
  SetUntil m host v (GoTime.Add now (ttl m)).
Definition Get (m : HostMemory) (host : string) (now : Z) : option V :=
  match entries m !! host with
  | Some e => if GoTime.Before now (expiry e) then Some (value e) else None
  | None => None
  end.
Definition Update (m : HostMemory) (host : string) (fn : V -> bool -> V) (now : Z) : HostMemory :=
  if bool_decide (host = "") then m
  else
    let old := Get m host now in
    mkMemory (<[host := mkEntry (fn (default zeroV old) (bool_decide (is_Some old))) (GoTime.Add now (ttl m))]> (room m host))
      (ttl m) (maxHosts m).
Definition Snapshot (m : HostMemory) (now : Z) : gmap string V :=
  value <$> filter (λ p, GoTime.Before now (expiry p.2) = true) (entries m).
Definition Reset (m : HostMemory) : HostMemory := mkMemory ∅ (ttl m) (maxHosts m).

(** ** The memory is bounded *)
Definition bounded (m : HostMemory) : Prop := Z.of_nat (size (entries m)) <= Z.max 1 (maxHosts m).
Lemma room_size m host : bounded m ->
  Z.of_nat (size (<[host := mkEntry zeroV 0]> (room m host))) <= Z.max 1 (maxHosts m).
Proof.
  unfold bounded, room. intros Hb. destruct (entries m !! host) as [e|] eqn:E.
  - rewrite bool_decide_eq_false_2 by done. simpl. rewrite map_size_insert, E. simpl. unfold id. lia.
  - rewrite bool_decide_eq_true_2 by done. simpl. case_bool_decide; rewrite map_size_insert.
    + rewrite lookup_empty, map_size_empty. simpl. lia.
    + rewrite E. unfold id. lia.
Qed.
Lemma insert_size (m : gmap string hostEntry) host e e' : size (<[host := e]> m) = size (<[host := e']> m).
Proof. by rewrite !map_size_insert. Qed.
Lemma SetUntil_bounded m host v exp : bounded m -> bounded (SetUntil m host v exp).
Proof.
  intros Hb. unfold SetUntil. case_bool_decide; [done|]. unfold bounded. simpl.
  rewrite (insert_size _ _ _ (mkEntry zeroV 0)). by apply room_size.
Qed.
Lemma Update_bounded m host fn now : bounded m -> bounded (Update m host fn now).
Proof.
  intros Hb. unfold Update. case_bool_decide; [done|]. unfold bounded. simpl.
  rewrite (insert_size _ _ _ (mkEntry zeroV 0)). by apply room_size.
Qed.

(** ** What an update does to what is read *)
Lemma Get_Update m host fn now at_ : host <> "" ->
  Get (Update m host fn now) host at_ =
    if GoTime.Before at_ (now + ttl m) then Some (fn (default zeroV (Get m host now)) (bool_decide (is_Some (Get m host now)))) else None.
Proof.
  intros Hne. unfold Update. rewrite bool_decide_eq_false_2 by done. unfold Get at 1. simpl.
  by rewrite lookup_insert_eq.
Qed.
(** As long as the memory is not full, the other hosts' are left alone. *)
Lemma Get_Update_other m host host' fn now at_ : host <> host' ->
  (Z.of_nat (size (entries m)) < maxHosts m \/ is_Some (entries m !! host)) ->
  Get (Update m host fn now) host' at_ = Get m host' at_.
Proof.
  intros Hne Hroom. unfold Update. case_bool_decide; [done|]. unfold Get. simpl.
  rewrite lookup_insert_ne by done. unfold room. destruct Hroom as [Hr|[e He]].
  - rewrite (bool_decide_eq_false_2 (maxHosts m <= _)) by lia. by rewrite andb_false_r.
  - by rewrite He.
Qed.
(** An entry that can be read is the snapshot's. *)
Lemma Snapshot_Get m host now : Snapshot m now !! host = Get m host now.
Proof.
  unfold Snapshot, Get. rewrite lookup_fmap. destruct (entries m !! host) as [e|] eqn:E.
  - destruct (GoTime.Before now (expiry e)) eqn:Eb.
    + by rewrite (map_lookup_filter_Some_2 _ _ _ e).
    + rewrite (map_lookup_filter_None_2 _ _ _); [done|]. right. intros x Hx. rewrite E in Hx. injection Hx as <-. simpl. by rewrite Eb.
  - by rewrite map_lookup_filter_None_2 by by left.
Qed.
End HostMemory.
Arguments HostMemory : clear implicits.
Arguments hostEntry : clear implicits.
End HostMemory.
