(* ===== verification/EvmRequest.v ===== *)
(** * EvmRequest: what an EVM request names and what its answer shows

    Models the pure part of [qos/evm/]: [methods.go], [checks.go], [refusal.go],
    [bytesresult.go], [immutable.go], [parser.go], [canary.go] and the policies of
    [plugin.go] that need no state.  Block numbers are [uint64]: additions and
    subtractions wrap where the source's do.

    JSON is read with [tidwall/gjson]: [Heuristic.Gjson], with what this package
    asks of it beyond that.  [strings.ToLower] and [%q] are parameters. *)

From Stdlib Require Import Ascii.
From stdpp Require Import strings.
From S2P Require Import Prelude Float64 Domain Text Strconv RelayErrors Heuristic Message.
Import GoStrings RelayErrors Message.

Module EvmRequest.

(** ** [methods.go] *)
Definition knownMethods : list string := [
  "eth_blockNumber"; "eth_chainId"; "eth_gasPrice";
  "eth_maxPriorityFeePerGas"; "eth_feeHistory"; "eth_syncing";
  "eth_getBalance"; "eth_getCode"; "eth_getStorageAt";
  "eth_getTransactionCount"; "eth_call"; "eth_estimateGas";
  "eth_getBlockByNumber"; "eth_getBlockByHash";
  "eth_getBlockTransactionCountByNumber"; "eth_getBlockTransactionCountByHash";
  "eth_getUncleCountByBlockNumber"; "eth_getUncleCountByBlockHash";
  "eth_getUncleByBlockNumberAndIndex"; "eth_getUncleByBlockHashAndIndex";
  "eth_getTransactionByHash"; "eth_getTransactionByBlockNumberAndIndex";
  "eth_getTransactionByBlockHashAndIndex"; "eth_getTransactionReceipt";
  "eth_getBlockReceipts"; "eth_getLogs"; "eth_getProof";
  "eth_sendRawTransaction"; "eth_createAccessList"; "eth_blobBaseFee";
  "eth_newFilter"; "eth_newBlockFilter"; "eth_getFilterChanges";
  "eth_getFilterLogs"; "eth_uninstallFilter"; "eth_subscribe"; "eth_unsubscribe";
  "net_version"; "net_listening"; "net_peerCount";
  "web3_clientVersion"; "web3_sha3";
  "debug_traceTransaction"; "debug_traceBlockByNumber"; "debug_traceBlockByHash";
  "debug_traceCall"; "debug_getRawReceipts";
  "trace_block"; "trace_transaction"; "trace_call"; "trace_filter";
  "trace_replayTransaction"; "trace_replayBlockTransactions" ].
Definition MethodOther : string := "_other".
Definition MethodClassLight : string := "light".
Definition MethodClassStandard : string := "standard".
Definition MethodClassHeavy : string := "heavy".
(** A [map\[string\]bool] that lists names. *)
Definition has (table : list string) (name : string) : bool := bool_decide (name ∈ table).
Definition KnownMethod (name : string) : bool := has knownMethods name.
Definition NormalizeMethod (payload : Payload) : string :=
  let m := Method payload in
  if bool_decide (m = "") then "" else if has knownMethods m then m else MethodOther.
Definition lightMethods : list string := [
  "eth_blockNumber"; "eth_chainId"; "net_version"; "eth_gasPrice";
  "eth_maxPriorityFeePerGas"; "eth_syncing"; "web3_clientVersion" ].
Definition heavyMethods : list string :=
  ["eth_getLogs"; "eth_call"; "eth_estimateGas"; "eth_getBlockReceipts"; "eth_getProof"].
Definition MethodClass (method : string) : string :=
  if has lightMethods method then MethodClassLight
  else if has heavyMethods method || String.prefix "debug_" method || String.prefix "trace_" method
  then MethodClassHeavy else MethodClassStandard.

(** ** The tables of [plugin.go], [checks.go] and [refusal.go] *)
Definition coalescableMethods : list string := [
  "eth_blockNumber"; "eth_chainId"; "eth_gasPrice"; "eth_maxPriorityFeePerGas"; "eth_feeHistory";
  "eth_getBalance"; "eth_getCode"; "eth_getBlockByNumber"; "eth_getBlockByHash";
  "eth_getTransactionByHash"; "eth_getTransactionReceipt"; "eth_getTransactionCount";
  "eth_getLogs"; "eth_getStorageAt"; "net_version"; "web3_clientVersion" ].
Definition IsCoalescable (method : string) : bool := has coalescableMethods method.
Definition recentStateBlockTags : list string := ["latest"; "pending"; "safe"; "finalized"].
Definition blockTagEarliest : string := "earliest".
Definition methodGetLogs : string := "eth_getLogs".
Definition methodsWithBlockParam : list string := [
  "eth_getBalance"; "eth_getCode"; "eth_getTransactionCount"; "eth_getStorageAt"; "eth_call";
  "eth_estimateGas"; "eth_getBlockByNumber"; "eth_getBlockTransactionCountByNumber";
  "eth_getUncleCountByBlockNumber"; "eth_getUncleByBlockNumberAndIndex";
  "eth_getTransactionByBlockNumberAndIndex" ].
Definition nearHeadBlocks : Z := 128.
Definition refusalMaxSpan : Z := 10.
Definition refusalMinBlocks : Z := 16.
Definition refusalMinAge : Z := 30 * second.
Definition refusalMaxBlocks : Z := nearHeadBlocks.
Definition refusalMaxAge : Z := 10 * minute.
Definition refusalClaims : list string := [
  "has been pruned"; "is pruned"; "pruned history"; "no state available for block";
  "no state found for block"; "state not available"; "height is not available" ].
Definition perBlockClaims : list string :=
  ["no state found for block"; "no state available for block"; "requested height has been pruned"].
Definition stateMethods : list string := [
  "eth_getBalance"; "eth_call"; "eth_estimateGas"; "eth_getCode"; "eth_getStorageAt";
  "eth_getTransactionCount"; "debug_traceBlockByNumber"; "trace_block"; "trace_replayBlockTransactions" ].
Definition methodsWithLeadingBlock : list string :=
  ["debug_traceBlockByNumber"; "eth_getBlockReceipts"; "trace_block"; "trace_replayBlockTransactions"].

(** ** Numbers *)
Definition parseHexUint64 (s : string) : option Z :=
  let s := GoText.TrimSpace s in
  if String.prefix "0x" s || String.prefix "0X" s then Strconv.ParseUint16 (from 2 s) else None.

Lemma hexDigit_range c : Strconv.isHex c = true -> 0 <= Strconv.hexDigit c < 16.
Proof.
  unfold Strconv.isHex, Strconv.hexDigit, Strconv.digit.
  destruct (Strconv.isDigit c) eqn:E; simpl.
  - unfold Strconv.isDigit in E. apply andb_true_iff in E as [E1%N.leb_le E2%N.leb_le]. lia.
  - intros [E1%N.leb_le E2%N.leb_le]%andb_true_iff. lia.
Qed.
Lemma hexadecimal_range acc s n : 0 <= acc -> Strconv.hexadecimal acc s = Some n -> acc <= n.
Proof.
  revert acc. induction s as [|c s IH]; intros acc Hacc; simpl; [by intros [= ->]|].
  destruct (Strconv.isHex c) eqn:E; [|done]. intros H. apply hexDigit_range in E. apply IH in H; lia.
Qed.
Lemma parseHex_u64 s n : parseHexUint64 s = Some n -> is_u64 n.
Proof.
  unfold parseHexUint64, Strconv.ParseUint16. destruct (_ || _); [|done]. case_bool_decide; [done|].
  intros (k & Hk & Hn)%bind_Some. case_bool_decide; [|done]. injection Hn as <-.
  apply hexadecimal_range in Hk; [|lia]. unfold is_u64. lia.
Qed.

(** ** Hex bytes: [bytesresult.go] *)
Definition bytesResultMethods : list string := [
  "eth_call"; "eth_getCode"; "eth_getStorageAt"; "eth_getRawTransactionByHash";
  "eth_getRawTransactionByBlockHashAndIndex" ].
Fixpoint allHex (s : string) : bool :=
  match s with "" => true | String c s => Strconv.isHex c && allHex s end.
Definition validHexBytes (s : string) : bool :=
  match s with
  | String c (String d t) =>
      bool_decide (c = "0"%char) && (bool_decide (d = "x"%char) || bool_decide (d = "X"%char)) &&
      Nat.even (String.length s) && allHex t
  | _ => false
  end.

(** ** gjson, with arrays and raw text *)
Record Values (g : Heuristic.Gjson) := mkValues {
  IsArray : Heuristic.Result g -> bool;
  Array : Heuristic.Result g -> list (Heuristic.Result g);
  Raw : Heuristic.Result g -> string
}.
Arguments mkValues {_}.
Arguments IsArray {_}.
Arguments Array {_}.
Arguments Raw {_}.

#[local] Existing Instance Heuristic.jsonType_eq_dec.
Section Requests.
Context (ToLower : string -> string) (g : Heuristic.Gjson) (vs : Values g).
#[local] Abbreviation Result := (Heuristic.Result g).
Definition GetBytes (data path : string) : Result := Heuristic.Get g (Heuristic.ParseBytes g data) path.
Definition isString (v : Result) : bool := bool_decide (Heuristic.Type_ g v = Heuristic.String_).
Definition isNull (v : Result) : bool := bool_decide (Heuristic.Type_ g v = Heuristic.Null).

(** *** [checks.go] *)
Definition ParseBlockNumber (response : string) : option Z :=
  let result := GetBytes response "result" in
  if negb (Heuristic.Exists g result) then None
  else if negb (isString result) then None
  else parseHexUint64 (Heuristic.StringOf g result).
Definition extractChainID (response : string) : option string :=
  let result := GetBytes response "result" in
  if negb (Heuristic.Exists g result) then None
  else if negb (isString result) then None
  else let s := Heuristic.StringOf g result in
       match parseHexUint64 s with Some _ => Some s | None => None end.
Definition findLastStringParam (arr : list Result) : string :=
  match last (filter (λ v, isString v = true) arr) with
  | Some v => Heuristic.StringOf g v
  | None => ""
  end.
Definition historicalBlock (method params : string) : option Z :=
  if negb (has methodsWithBlockParam method) then None
  else if bool_decide (params = "") then None
  else
    let result := Heuristic.ParseBytes g params in
    if negb (IsArray vs result) then None
    else
      let arr := Array vs result in
      if bool_decide (length arr = 0)%nat then None
      else
        let blockParam := findLastStringParam arr in
        if bool_decide (blockParam = "") then None
        else
          let tag := ToLower blockParam in
          if has recentStateBlockTags tag then None
          else if bool_decide (tag = blockTagEarliest) then Some 0
          else parseHexUint64 blockParam.
Definition archivalDepth (method params : string) (head : Z) : option Z :=
  if negb (has stateMethods method) then None
  else match historicalBlock method params with
       | None => None
       | Some block =>
           if bool_decide (head = 0) || bool_decide (head <= u64 (block + nearHeadBlocks)) then None
           else Some (u64 (head - block))
       end.
Definition logDepth (params : string) (head : Z) : option Z :=
  if bool_decide (head = 0) || bool_decide (params = "") then None
  else
    let from := GetBytes params "0.fromBlock" in
    if negb (isString from) then None
    else
      let tag := ToLower (Heuristic.StringOf g from) in
      block ← (if bool_decide (tag = blockTagEarliest) then Some 0 else parseHexUint64 tag);
      if bool_decide (head <= u64 (block + nearHeadBlocks)) then None else Some (u64 (head - block)).
Inductive archivalOutcome := archivalInconclusive | archivalServed | archivalMissing.
Definition classifyArchivalResponse (response : string) : archivalOutcome :=
  if negb (Heuristic.ValidBytes g response) then archivalInconclusive
  else
    let parsed := Heuristic.ParseBytes g response in
    let errField := Heuristic.Get g parsed "error" in
    if Heuristic.Exists g errField && negb (isNull errField) then
      if Heuristic.ReportsMissingHistoricalState ToLower (Heuristic.StringOf g (Heuristic.Get g errField "message"))
      then archivalMissing else archivalInconclusive
    else
      let result := Heuristic.Get g parsed "result" in
      if negb (Heuristic.Exists g result) || isNull result then archivalInconclusive else archivalServed.

(** *** [refusal.go] *)
Definition claimsAny (details : string) (wordings : list string) : bool :=
  Heuristic.ContainsAnyOf (ToLower details) wordings.
Definition quote : string := String (ascii_of_nat 34) "".
Definition block (head : Z) (v : Result) : option Z :=
  let tag := Heuristic.StringOf g v in
  if negb (Heuristic.Exists g v) || has recentStateBlockTags tag then Some head
  else if bool_decide (tag = blockTagEarliest) then Some 0
  else parseHexUint64 tag.
Definition requestedBlocks (method : string) (params : Result) (head : Z) : option (Z * Z) :=
  let args := Array vs params in
  if bool_decide (method = methodGetLogs) then
    match args with
    | [] => None
    | a :: _ =>
        if Heuristic.Exists g (Heuristic.Get g a "blockHash") then None
        else f ← block head (Heuristic.Get g a "fromBlock");
             t ← block head (Heuristic.Get g a "toBlock"); Some (f, t)
    end
  else if has methodsWithLeadingBlock method then
    match args with
    | [] => None
    | a :: _ => if negb (isString a) then None else n ← block head a; Some (n, n)
    end
  else if has methodsWithBlockParam method then
    let s := findLastStringParam args in
    if bool_decide (s = "") then None
    else n ← block head (Heuristic.ParseBytes g (quote +:+ (s +:+ quote))); Some (n, n)
  else None.
(** The window's bounds behind the head; [blocksIn] converts an age. *)
Definition refusalWindow (method : string) (blocksIn : option (Z -> Z)) : Z * Z :=
  match blocksIn with
  | None => (refusalMinBlocks, refusalMaxBlocks)
  | Some f =>
      (Z.max refusalMinBlocks (f refusalMinAge),
       if has stateMethods method then refusalMaxBlocks else Z.max refusalMaxBlocks (f refusalMaxAge))
  end.
Definition refusalDetails (method : string) (from to head : Z) (details : string) : string :=
  method +:+ (" blocks " +:+ (FormatInt from +:+ ("-" +:+ (FormatInt to +:+ (", " +:+
    (FormatInt (u64 (head - Z.min to head)) +:+ ("-" +:+ (FormatInt (u64 (head - from)) +:+
    (" behind the head " +:+ (FormatInt head +:+ (": " +:+ details))))))))))).
Definition RefusalVerdict (payload : Payload) (result : AnalysisResult) (head : Z)
    (blocksIn : option (Z -> Z)) : AnalysisResult * bool * string :=
  if bool_decide (head = 0) || bool_decide (Attribution result = AttrSupplier) ||
     negb (claimsAny (Details result) refusalClaims)
  then (result, false, "")
  else
    let method := Method payload in
    let perBlock := negb (has stateMethods method) && claimsAny (Details result) perBlockClaims in
    let '(minBack, maxBack) := refusalWindow method blocksIn in
    match requestedBlocks method (GetBytes (Bytes payload) "params") head with
    | None => (result, false, "no block number")
    | Some (from, to) =>
        let floorBlock := if perBlock then from else to in
        if bool_decide (to < from) then (result, false, "no block number")
        else if negb perBlock && bool_decide (refusalMaxSpan < u64 (to - from)) then (result, false, "span")
        else if bool_decide (head < u64 (floorBlock + minBack)) then (result, false, "too new")
        else if bool_decide (u64 (from + maxBack) < head) then (result, false, "too old")
        else (RefusedRecent (refusalDetails method from to head (Details result)), true, "")
    end.
Definition futureBlockVerdict (payload : Payload) (result : AnalysisResult) (head : Z)
    (beyond : option (Z -> bool)) : AnalysisResult * bool :=
  match beyond with
  | None => (result, false)
  | Some beyond =>
      if bool_decide (head = 0) || negb (bool_decide (Reason result = ReasonBlockchainError)) then (result, false)
      else
        let method := Method payload in
        match requestedBlocks method (GetBytes (Bytes payload) "params") head with
        | Some (from, _) =>
            if beyond from then
              (FutureBlock result (method +:+ (" from block " +:+ (FormatInt from +:+ (", head " +:+ FormatInt head)))), true)
            else (result, false)
        | None => (result, false)
        end
  end.

(** *** [bytesresult.go], [immutable.go] and the cache policy *)
Definition ellipsis : string := "…".
Definition InvalidResult (payload : Payload) (response : string) : option string :=
  if negb (has bytesResultMethods (Method payload)) then None
  else
    let r := GetBytes response "result" in
    if negb (isString r) || validHexBytes (Heuristic.Str g r) then None
    else
      let shown := Heuristic.Str g r in
      let shown := if bool_decide (66 < String.length shown)%nat then upto 66 shown +:+ ellipsis else shown in
      Some (Method payload +:+ (" result " +:+ (shown +:+ " is not hex bytes"))).
Definition isExplicitBlockNumber (param : Result) : bool :=
  isString param && bool_decide (is_Some (parseHexUint64 (Heuristic.StringOf g param))).
Definition alwaysImmutable : list string :=
  ["eth_chainId"; "eth_getTransactionByHash"; "eth_getTransactionReceipt"; "eth_getBlockByHash"].
Definition IsImmutable (payload : Payload) : bool :=
  let params := GetBytes (Bytes payload) "params" in
  if has alwaysImmutable (Method payload) then true
  else if bool_decide (Method payload = "eth_getBlockByNumber") then
    isExplicitBlockNumber (Heuristic.Get g params "0")
  else if bool_decide (Method payload = methodGetLogs) then isString (Heuristic.Get g params "0.blockHash")
  else false.
Definition CacheTTL (method params response : string) : Z :=
  let r := GetBytes response "result" in
  if negb (Heuristic.Exists g r) || isNull r then 0
  else if bool_decide (method = "eth_getTransactionReceipt") then 5 * minute
  else if bool_decide (method = "eth_getBlockByNumber") then
    let r := Heuristic.ParseBytes g params in
    if IsArray vs r then
      match Array vs r with
      | a :: _ => if isExplicitBlockNumber a then 10 * minute else 0
      | [] => 0
      end
    else 0
  else 0.

(** *** [parser.go]; [%q] is left to [quoted] *)
Context (quoted : string -> string).
Definition invalid (message : string) : error := RelayError ErrValidation ("EVM plugin: " +:+ message) None false.
Definition inQuotes (s : string) : string := quote +:+ (s +:+ quote).
Definition extractMethod (body : string) : string + string :=
  let method := GetBytes body "method" in
  if negb (Heuristic.Exists g method) then inl ("missing " +:+ (inQuotes "method" +:+ " field"))
  else if negb (isString method) then inl (inQuotes "method" +:+ " must be a string")
  else
    let name := Heuristic.StringOf g method in
    if bool_decide (name = "") then inl (inQuotes "method" +:+ " is empty")
    else
      let ver := GetBytes body "jsonrpc" in
      if negb (Heuristic.Exists g ver) then inl ("missing " +:+ (inQuotes "jsonrpc" +:+ " field"))
      else if negb (bool_decide (Heuristic.StringOf g ver = "2.0"))
      then inl (inQuotes "jsonrpc" +:+ (" must be " +:+ (inQuotes "2.0" +:+ (", got " +:+ quoted (Heuristic.StringOf g ver)))))
      else inr name.
Definition parseSingle (body rpcType : string) : error + list Payload :=
  match extractMethod body with
  | inl err => inl (invalid err)
  | inr method => inr [NewPayload body rpcType method]
  end.
Fixpoint parseItems (i : nat) (rpcType : string) (items : list Result) : error + list Payload :=
  match items with
  | [] => inr []
  | item :: items =>
      let raw := Raw vs item in
      match extractMethod raw with
      | inl err => inl (invalid ("batch item " +:+ (FormatInt (Z.of_nat i) +:+ (": " +:+ err))))
      | inr method =>
          match parseItems (S i) rpcType items with
          | inl err => inl err
          | inr ps => inr (NewPayload raw rpcType method :: ps)
          end
      end
  end.
Definition parseBatch (body rpcType : string) : error + list Payload :=
  let result := Heuristic.ParseBytes g body in
  if negb (IsArray vs result) then inl (invalid "batch must be a JSON array")
  else match Array vs result with
       | [] => inl (invalid "batch array is empty")
       | items => parseItems 0 rpcType items
       end.
(** [bytes.TrimLeft] of the white space of JSON. *)
Fixpoint trimLeft (s : string) : string :=
  match s with
  | String c t => if bool_decide (c ∈ [" "%char; "009"%char; "013"%char; "010"%char]) then trimLeft t else s
  | "" => ""
  end.
Definition parseRequest (body rpcType : string) : error + list Payload :=
  if negb (bool_decide (rpcType = Heuristic.RPCTypeJSONRPC)) && negb (bool_decide (rpcType = "websocket"))
  then inl (invalid ("unsupported RPC type " +:+ quoted rpcType))
  else if bool_decide (body = "") then inl (invalid "empty request body")
  else if negb (Heuristic.ValidBytes g body) then inl (invalid "request body is not valid JSON")
  else if String.prefix "[" (trimLeft body) then parseBatch body rpcType
  else parseSingle body rpcType.

(** *** The head an answer names: [answeredHead] of [plugin.go] *)
Definition answeredHead (payload : Payload) (response : string) : option Z :=
  if bool_decide (Method payload = "eth_blockNumber") then ParseBlockNumber response
  else if bool_decide (Method payload = "eth_getBlockByNumber") then
    if bool_decide (Heuristic.StringOf g (GetBytes (Bytes payload) "params.0") = "latest") then
      let n := GetBytes response "result.number" in
      if negb (Heuristic.Exists g n) then None else parseHexUint64 (Heuristic.StringOf g n)
    else None
  else None.
End Requests.

(** ** The state canary: [canary.go] *)
Definition multicall3 : string := "ca11bde05977b3631167028862be2a173976ca11".
Definition selGetCurrentBlockTimestamp : string := "0f28c97d".
Definition selAggregate3 : string := "82ad56cb".
Definition selTryAggregate : string := "bce38bd7".
Definition canaryRotation : Z := 10 * minute.
Definition CanaryName : string := "eth_call_canary".
Definition hexChar (n : Z) : ascii := ascii_of_N (Z.to_N (if n <? 10 then n + 48 else n + 87)).
(** [%064x] of a number that fits. *)
Fixpoint hexDigits (k : nat) (n : Z) : string :=
  match k with O => "" | S k => hexDigits k (n / 16) +:+ String (hexChar (n mod 16)) "" end.
Definition word (n : Z) : string := hexDigits 64 n.
Fixpoint zeros (k : nat) : string := match k with O => "" | S k => String "0" (zeros k) end.
Definition addr : string := zeros 24 +:+ multicall3.
Definition pad (data : string) : string :=
  data +:+ zeros ((64 - String.length data mod 64) mod 64)%nat.
Definition bytesArg (data : string) : string := word (Z.of_nat (String.length data / 2)) +:+ pad data.
Definition aggregate3 (allowFailure : Z) : string :=
  let tuple := addr +:+ (word allowFailure +:+ (word 96 +:+ bytesArg selGetCurrentBlockTimestamp)) in
  selAggregate3 +:+ (word 32 +:+ (word 1 +:+ (word 32 +:+ tuple))).
Definition tryAggregate : string :=
  let tuple := addr +:+ (word 64 +:+ bytesArg selGetCurrentBlockTimestamp) in
  selTryAggregate +:+ (word 0 +:+ (word 64 +:+ (word 1 +:+ (word 32 +:+ tuple)))).
(** A literal with its apostrophes made double quotes. *)
Fixpoint dquotes (s : string) : string :=
  match s with
  | "" => ""
  | String c s => String (if bool_decide (c = "'"%char) then ascii_of_nat 34 else c) (dquotes s)
  end.
Definition canaryBody (i : nat) (data : string) : string :=
  dquotes "{'jsonrpc':'2.0','method':'eth_call','params':[{'to':'0x" +:+ (multicall3 +:+
    (dquotes "','data':'0x" +:+ (data +:+ (dquotes "'},'latest'],'id':" +:+ (FormatInt (11 + Z.of_nat i) +:+ "}"))))).
Definition canaryBodies : list string :=
  imap canaryBody [selGetCurrentBlockTimestamp; aggregate3 1; aggregate3 0; tryAggregate].
(** The body in use at a time, in seconds. *)
Definition canaryAt (unix : Z) : string :=
  default "" (canaryBodies !! Z.to_nat (Z.rem (Z.quot unix (Z.quot canaryRotation second)) (Z.of_nat (length canaryBodies)))).
Definition isCanary (request : string) : bool := bool_decide (request ∈ canaryBodies).

(** [hex.DecodeString]. *)
Fixpoint DecodeString (s : string) : option (list Z) :=
  match s with
  | "" => Some []
  | String c (String d t) =>
      if Strconv.isHex c && Strconv.isHex d
      then rest ← DecodeString t; Some (Strconv.hexDigit c * 16 + Strconv.hexDigit d :: rest)
      else None
  | String _ "" => None
  end.
(** [big.Int.SetBytes]. *)
Definition bigEndian (bs : list Z) : Z := foldl (λ n b, n * 256 + b) 0 bs.
Definition wordAt (raw : list Z) (off : Z) : option Z :=
  if bool_decide (off < 0) || bool_decide (Z.of_nat (length raw) < off + 32) then None
  else let v := bigEndian (take 32 (drop (Z.to_nat off) raw)) in
       if bool_decide (max_i64 < v) || bool_decide (Z.of_nat (length raw) < v) then None else Some v.
Definition resultValue (raw : list Z) : option (list Z) :=
  arr ← wordAt raw 0;
  n ← wordAt raw arr;
  if bool_decide (n < 1) then None
  else
    let heads := arr + 32 in
    rel ← wordAt raw (heads + 32 * (n - 1));
    let tuple := heads + rel in
    success ← wordAt raw tuple;
    dataRel ← wordAt raw (tuple + 32);
    size ← wordAt raw (tuple + dataRel);
    let start := tuple + dataRel + 32 in
    if bool_decide (success <> 1) || bool_decide (size <> 32) || bool_decide (Z.of_nat (length raw) < start + 32) then None
    else Some (take 32 (drop (Z.to_nat start) raw)).
(** The timestamp, in seconds, of a decoded result. *)
Definition timestampOf (raw : list Z) : option Z :=
  if bool_decide (raw = []) || negb (bool_decide (length raw mod 32 = 0)%nat) then None
  else
    value ← (if bool_decide (32 < length raw)%nat then resultValue raw else Some raw);
    let ts := bigEndian value in
    if bool_decide (max_i64 < ts) || bool_decide (ts <= 0) then None else Some ts.
Definition canaryTimestamp (g : Heuristic.Gjson) (response : string) : option Z :=
  let s := Heuristic.StringOf g (GetBytes g response "result") in
  raw ← DecodeString (if String.prefix "0x" s then from 2 s else s);
  timestampOf raw.

(** ** Hex text and bytes *)
Lemma hexChar_digit n : 0 <= n < 16 -> Strconv.isHex (hexChar n) = true /\ Strconv.hexDigit (hexChar n) = n.
Proof.
  intros Hn. assert (n ∈ seqZ 0 16) as Hin by (apply elem_of_seqZ; lia). revert Hin.
  change (seqZ 0 16) with [0; 1; 2; 3; 4; 5; 6; 7; 8; 9; 10; 11; 12; 13; 14; 15]. rewrite !elem_of_cons, elem_of_nil.
  intros H. destruct_or!; subst; try done; by vm_compute.
Qed.
(** The [k] bytes of a number, the highest first. *)
Fixpoint bytesBE (k : nat) (n : Z) : list Z :=
  match k with O => [] | S k => bytesBE k (n / 256) ++ [n mod 256] end.
Lemma bytesBE_length k n : length (bytesBE k n) = k.
Proof. revert n. induction k as [|k IH]; intros n; [done|]. simpl. rewrite length_app, IH. simpl. lia. Qed.
Lemma bigEndian_snoc l b : bigEndian (l ++ [b]) = bigEndian l * 256 + b.
Proof. unfold bigEndian. by rewrite foldl_app. Qed.
Lemma bigEndian_bytes k n : 0 <= n < 256 ^ Z.of_nat k -> bigEndian (bytesBE k n) = n.
Proof.
  revert n. induction k as [|k IH]; intros n Hn.
  - simpl in Hn. unfold bigEndian. simpl. lia.
  - simpl. rewrite bigEndian_snoc, IH.
    + pose proof (Z.div_mod n 256). lia.
    + rewrite Nat2Z.inj_succ, Z.pow_succ_r in Hn by lia. split; [apply Z.div_pos; lia|].
      apply Z.div_lt_upper_bound; lia.
Qed.
Lemma decode_app a b x : DecodeString a = Some x -> DecodeString (a +:+ b) = (x ++.) <$> DecodeString b.
Proof.
  remember (String.length a) as len eqn:Hl. revert a x Hl.
  induction len as [len IH] using (well_founded_induction lt_wf). intros [|c [|d a]] x -> H; [|done|].
  - injection H as <-. change ("" +:+ b) with b. by destruct (DecodeString b).
  - change (String c (String d a) +:+ b) with (String c (String d (a +:+ b))). cbn [DecodeString] in *. destruct (Strconv.isHex c && Strconv.isHex d); [|done].
    apply bind_Some in H as (r & Hr & [= <-]). rewrite (IH (String.length a) ltac:(simpl; lia) a r eq_refl Hr).
    by destruct (DecodeString b).
Qed.
Lemma decode_digits k n : 0 <= n -> DecodeString (hexDigits (2 * k) n) = Some (bytesBE k n).
Proof.
  revert n. induction k as [|k IH]; intros n Hn; [done|].
  replace (2 * S k)%nat with (S (S (2 * k))) by lia. cbn [hexDigits bytesBE].
  rewrite app_assoc'. rewrite (decode_app _ _ (bytesBE k (n / 256))).
  2:{ rewrite Z.div_div by lia. apply IH. apply Z.div_pos; lia. }
  destruct (hexChar_digit (n / 16 mod 16)) as [H1 H2]; [apply Z.mod_pos_bound; lia|].
  destruct (hexChar_digit (n mod 16)) as [H3 H4]; [apply Z.mod_pos_bound; lia|].
  cbn [String.app]. change (String (hexChar (n / 16 mod 16)) "" +:+ String (hexChar (n mod 16)) "")
    with (String (hexChar (n / 16 mod 16)) (String (hexChar (n mod 16)) "")). cbn [DecodeString].
  rewrite H1, H2, H3, H4. simpl. do 3 f_equal.
  pose proof (Z.div_mod n 256 ltac:(lia)). pose proof (Z.div_mod n 16 ltac:(lia)).
  pose proof (Z.div_mod (n / 16) 16 ltac:(lia)). rewrite Z.div_div in * by lia.
  pose proof (Z.mod_pos_bound n 16). pose proof (Z.mod_pos_bound (n / 16) 16).
  pose proof (Z.mod_pos_bound n 256). change (16 * 16) with 256 in *. lia.
Qed.
Lemma decode_word n : 0 <= n -> DecodeString (word n) = Some (bytesBE 32 n).
Proof. apply (decode_digits 32). Qed.

(** ** What the canary's answers say *)
Definition wordsBE (ns : list Z) : list Z := concat (bytesBE 32 <$> ns).
Fixpoint words (ns : list Z) : string := match ns with [] => "" | n :: ns => word n +:+ words ns end.
Lemma wordsBE_length ns : length (wordsBE ns) = (32 * length ns)%nat.
Proof.
  unfold wordsBE. induction ns as [|n ns IH]; [done|]. rewrite fmap_cons. cbn [concat].
  rewrite length_app, bytesBE_length, IH. simpl. lia.
Qed.
Lemma decode_words ns : Forall (λ n, 0 <= n) ns -> DecodeString (words ns) = Some (wordsBE ns).
Proof.
  induction 1 as [|n ns Hn _ IH]; [done|]. cbn [words]. rewrite (decode_app _ _ _ (decode_word n Hn)), IH. done.
Qed.
Lemma chunk_at ns i v : ns !! i = Some v -> take 32 (drop (32 * i) (wordsBE ns)) = bytesBE 32 v.
Proof.
  unfold wordsBE. revert i. induction ns as [|n ns IH]; intros [|i] H; [done|done| |].
  - injection H as ->. rewrite Nat.mul_0_r, drop_0, fmap_cons. cbn [concat]. apply take_app_length'. by rewrite bytesBE_length.
  - rewrite fmap_cons. cbn [concat]. replace (32 * S i)%nat with (length (bytesBE 32 n) + 32 * i)%nat by (rewrite bytesBE_length; lia).
    rewrite drop_app_add. by apply IH.
Qed.
Lemma word_at ns i v : ns !! i = Some v -> 0 <= v < 256 ^ 32 -> v <= max_i64 -> v <= 32 * Z.of_nat (length ns) ->
  wordAt (wordsBE ns) (32 * Z.of_nat i) = Some v.
Proof.
  intros Hi Hv Hm Hl. pose proof (lookup_lt_Some _ _ _ Hi). unfold wordAt. rewrite wordsBE_length.
  rewrite !bool_decide_eq_false_2 by lia. cbn [orb].
  replace (Z.to_nat (32 * Z.of_nat i)) with (32 * i)%nat by lia.
  rewrite (chunk_at _ _ v Hi), bigEndian_bytes by done. by rewrite !bool_decide_eq_false_2 by lia.
Qed.
Lemma word_at_off ns i v off : ns !! i = Some v -> off = 32 * Z.of_nat i -> 0 <= v < 256 ^ 32 -> v <= max_i64 ->
  v <= 32 * Z.of_nat (length ns) -> wordAt (wordsBE ns) off = Some v.
Proof. intros ? ->. by apply word_at. Qed.
Definition directAnswer (ts : Z) : string := "0x" +:+ words [ts].
(** [Result\[\]] with one successful call that returned the timestamp. *)
Definition resultsAnswer (ts : Z) : string := "0x" +:+ words [32; 1; 32; 1; 64; 32; ts].

Ltac fits := first [reflexivity | lia].
(** A timestamp read back from a canary's answer is the one the chain put
    there: the direct call's, and the last call's of a multicall, for every
    timestamp of 63 bits. *)
Theorem canary_round_trip g response ts : 0 < ts <= max_i64 ->
  Heuristic.StringOf g (GetBytes g response "result") = directAnswer ts \/
  Heuristic.StringOf g (GetBytes g response "result") = resultsAnswer ts ->
  canaryTimestamp g response = Some ts.
Proof.
  intros Hts Hr. unfold canaryTimestamp. unfold max_i64 in *.
  assert (0 <= ts < 256 ^ 32) as H256 by lia.
  assert (forall t, String.prefix "0x" ("0x" +:+ t) = true /\ from 2 ("0x" +:+ t) = t) as Hp.
  { intros t. split; [apply (prefix_app "0x" t)|apply (from_app "0x" t)]. }
  destruct Hr as [-> | ->]; unfold directAnswer, resultsAnswer;
    rewrite (proj1 (Hp _)), (proj2 (Hp _)), decode_words by (repeat constructor; lia); cbn [mbind option_bind].
  - change (wordsBE [ts]) with (bytesBE 32 ts ++ []). rewrite app_nil_r. unfold timestampOf.
    rewrite (bool_decide_eq_false_2 (bytesBE 32 ts = [])) by (intros E; by apply (f_equal length) in E; rewrite bytesBE_length in E).
    rewrite bytesBE_length. cbn [orb negb]. rewrite bool_decide_eq_true_2 by done. cbn [orb negb].
    rewrite bool_decide_eq_false_2 by lia. cbn [mbind option_bind].
    rewrite bigEndian_bytes by done. unfold max_i64. by rewrite !bool_decide_eq_false_2 by lia.
  - set (ns := [32; 1; 32; 1; 64; 32; ts]). unfold timestampOf.
    rewrite (bool_decide_eq_false_2 (wordsBE ns = [])) by (intros E; by apply (f_equal length) in E; rewrite wordsBE_length in E).
    rewrite wordsBE_length. cbn [orb negb length ns]. rewrite bool_decide_eq_true_2 by done. cbn [orb negb].
    rewrite bool_decide_eq_true_2 by (simpl; lia).
    assert (resultValue (wordsBE ns) = Some (bytesBE 32 ts)) as ->.
    { unfold resultValue. assert (length ns = 7%nat) as El by done. assert (max_i64 = 2 ^ 63 - 1) as Em by done.
      rewrite (word_at_off ns 0 32 0) by fits. cbn [mbind option_bind].
      rewrite (word_at_off ns 1 1 32) by fits. cbn [mbind option_bind].
      rewrite bool_decide_eq_false_2 by lia.
      change (32 + 32 + 32 * (1 - 1)) with 64. rewrite (word_at_off ns 2 32 64) by fits. cbn [mbind option_bind].
      change (32 + 32 + 32) with 96. rewrite (word_at_off ns 3 1 96) by fits. cbn [mbind option_bind].
      change (96 + 32) with 128. rewrite (word_at_off ns 4 64 128) by fits. cbn [mbind option_bind].
      change (96 + 64) with 160. rewrite (word_at_off ns 5 32 160) by fits. cbn [mbind option_bind].
      rewrite wordsBE_length. rewrite El, !bool_decide_eq_false_2 by lia. cbn [orb].
      f_equal. }
    cbn [mbind option_bind]. rewrite bigEndian_bytes by done. unfold max_i64. by rewrite !bool_decide_eq_false_2 by lia.
Qed.

(** ** What the methods' tables hold *)
Definition within (a b : list string) : bool := forallb (has b) a.
Lemma tables_agree :
  forallb (λ t, within t knownMethods)
    [coalescableMethods; methodsWithBlockParam; stateMethods; methodsWithLeadingBlock; lightMethods; heavyMethods] = true /\
  forallb (λ m, negb (has heavyMethods m)) lightMethods = true /\
  forallb (λ m, bool_decide (MethodClass m = MethodClassLight)) lightMethods = true.
Proof. vm_compute. done. Qed.

(** A DATA result is valid exactly when it decodes. *)
Lemma valid_decodes t : validHexBytes ("0x" +:+ t) = bool_decide (is_Some (DecodeString t)).
Proof.
  change ("0x" +:+ t) with (String "0" (String "x" t)). unfold validHexBytes.
  rewrite !bool_decide_eq_true_2 by done. cbn [andb orb String.length Nat.even].
  remember (String.length t) as len eqn:Hl. revert t Hl.
  induction len as [len IH] using (well_founded_induction lt_wf). intros [|c [|d t]] ->; [done| |].
  - cbn [String.length Nat.even andb DecodeString]. by rewrite bool_decide_eq_false_2 by (by intros [? ?]).
  - cbn [String.length Nat.even allHex DecodeString]. rewrite (andb_assoc (Strconv.isHex c)).
    destruct (Strconv.isHex c && Strconv.isHex d).
    + cbn [andb]. rewrite (IH (String.length t)) by (done || simpl; lia). apply bool_decide_ext.
      destruct (DecodeString t); split; intros [? ?]; eauto; done.
    + cbn [andb]. rewrite andb_false_r. by rewrite bool_decide_eq_false_2 by (by intros [? ?]).
Qed.

Section Facts.
Context (ToLower : string -> string) (g : Heuristic.Gjson) (vs : Values g) (quoted : string -> string).

(** ** Parsing: one payload per call *)
Lemma parse_items i rpcType items ps :
  parseItems g vs quoted i rpcType items = inr ps ->
  Bytes <$> ps = Raw vs <$> items /\
  Forall (λ p, extractMethod g quoted (Bytes p) = inr (Method p) /\ RPCType p = rpcType) ps.
Proof.
  revert i ps. induction items as [|item items IH]; intros i ps; simpl; [by intros [= <-]|].
  destruct (extractMethod _ _ _) as [e|m] eqn:Em; [done|].
  destruct (parseItems _ _ _ _ _ _) as [e|ps'] eqn:Ep; [done|]. intros [= <-].
  destruct (IH _ _ Ep) as [H1 H2]. split; [simpl; by f_equal|]. by constructor.
Qed.
Lemma method_found body m : extractMethod g quoted body = inr m ->
  m <> "" /\ Heuristic.Exists g (GetBytes g body "method") = true.
Proof.
  unfold extractMethod. destruct (Heuristic.Exists g (GetBytes g body "method")) eqn:E; [|done]. cbn [negb].
  destruct (negb (isString _ _)); [done|]. case_bool_decide; [done|].
  destruct (negb _); [done|]. destruct (negb _); [done|]. by intros [= <-].
Qed.

Definition aCall (rpcType : string) (p : Payload) : Prop :=
  Method p <> "" /\ RPCType p = rpcType /\ Heuristic.Exists g (GetBytes g (Bytes p) "method") = true.
Lemma batch_calls body rpcType ps : parseBatch g vs quoted body rpcType = inr ps ->
  ps <> [] /\ Bytes <$> ps = Raw vs <$> Array vs (Heuristic.ParseBytes g body) /\ Forall (aCall rpcType) ps.
Proof.
  unfold parseBatch. destruct (IsArray vs _); cbn [negb]; [|done].
  destruct (Array vs _) as [|it items] eqn:Ea; [done|]. intros Ep.
  destruct (parse_items _ _ _ _ Ep) as [Hb Hf]. split_and!; [by intros ->|done|].
  eapply Forall_impl; [exact Hf|]. simpl. intros p [Hm Hr]. destruct (method_found _ _ Hm). done.
Qed.
Lemma single_call body rpcType ps : parseSingle g quoted body rpcType = inr ps ->
  Bytes <$> ps = [body] /\ Forall (aCall rpcType) ps.
Proof.
  unfold parseSingle. destruct (extractMethod _ _ _) as [e|m] eqn:Em; [done|]. intros [= <-].
  destruct (method_found _ _ Em). split; [done|]. by repeat constructor.
Qed.
Lemma refused_as_invalid body rpcType e : parseRequest g vs quoted body rpcType = inl e ->
  exists m, e = RelayError ErrValidation m None false.
Proof.
  assert (forall l i, parseItems g vs quoted i rpcType l = inl e -> exists m, e = RelayError ErrValidation m None false) as Hi.
  { induction l as [|x l IH]; intros i; simpl; [done|].
    destruct (extractMethod _ _ _); [intros [= <-]; by eexists|].
    destruct (parseItems _ _ _ _ _ _) eqn:Ep; [intros [= <-]; by eapply IH|done]. }
  unfold parseRequest, parseBatch, parseSingle. repeat case_match; intros H'; simplify_eq; try (by eexists); eauto.
Qed.
Lemma accepted_calls body rpcType ps : parseRequest g vs quoted body rpcType = inr ps ->
  Heuristic.ValidBytes g body = true /\
  (parseBatch g vs quoted body rpcType = inr ps \/ parseSingle g quoted body rpcType = inr ps).
Proof.
  unfold parseRequest. destruct (_ && _); [done|]. case_bool_decide; [done|].
  destruct (Heuristic.ValidBytes g body); cbn [negb]; [|done]. destruct (String.prefix _ _); auto.
Qed.

(** A request the EVM plugin accepts is a call or a batch of them: one
    payload per item, in order and with its bytes, each with a method that is
    not empty; anything else is refused as invalid and is not retried. *)
Theorem parsed_requests_are_calls body rpcType :
  match parseRequest g vs quoted body rpcType with
  | inr ps =>
      ps <> [] /\ Heuristic.ValidBytes g body = true /\
      (Bytes <$> ps = [body] \/ Bytes <$> ps = Raw vs <$> Array vs (Heuristic.ParseBytes g body)) /\
      Forall (aCall rpcType) ps
  | inl e => exists m, e = RelayError ErrValidation m None false
  end.
Proof.
  destruct (parseRequest _ _ _ _ _) as [e|ps] eqn:E; [by eapply refused_as_invalid|].
  apply accepted_calls in E as [Hv [E|E]].
  - destruct (batch_calls _ _ _ E) as (? & ? & ?). by split_and!; [..|right|].
  - destruct (single_call _ _ _ E) as [Hb ?]. split_and!; [by intros ->|done|by left|done].
Qed.

(** ** Depths *)
Lemma block_u64 head v n : is_u64 head -> block g head v = Some n -> is_u64 n.
Proof.
  intros Hh. unfold block. destruct (_ || _); [by intros [= <-]|].
  case_bool_decide; [intros [= <-]; unfold is_u64, max_u64; lia|apply parseHex_u64].
Qed.
Lemma requested_u64 method params head from to :
  is_u64 head -> requestedBlocks g vs method params head = Some (from, to) -> is_u64 from /\ is_u64 to.
Proof.
  intros Hh. unfold requestedBlocks. case_bool_decide; [|destruct (has _ _); [|destruct (has _ _); [|done]]].
  - destruct (Array vs params) as [|a l]; [done|]. destruct (Heuristic.Exists _ _); [done|].
    intros (f & Hf & (t & Ht & [= <- <-])%bind_Some)%bind_Some. split; by eapply block_u64.
  - destruct (Array vs params) as [|a l]; [done|]. destruct (negb _); [done|].
    intros (f & Hf & [= <- <-])%bind_Some. split; by eapply block_u64.
  - case_bool_decide; [done|]. intros (f & Hf & [= <- <-])%bind_Some. split; by eapply block_u64.
Qed.
Lemma historical_u64 method params n : historicalBlock ToLower g vs method params = Some n -> is_u64 n.
Proof.
  unfold historicalBlock. repeat (case_bool_decide || destruct (negb _) || destruct (has _ _)); try done.
  - intros [= <-]. unfold is_u64, max_u64. lia.
  - apply parseHex_u64.
Qed.
(** The depth of a state read: exact for any block but the last 128 a [uint64]
    can name, whose depth comes out past the head. *)
Lemma archival_depth_exact method params head b :
  historicalBlock ToLower g vs method params = Some b -> has stateMethods method = true ->
  is_u64 head -> head <> 0 ->
  (b + nearHeadBlocks <= max_u64 ->
     archivalDepth ToLower g vs method params head = if bool_decide (b + nearHeadBlocks < head) then Some (head - b) else None) /\
  (max_u64 < b + nearHeadBlocks -> nearHeadBlocks <= head < b ->
     archivalDepth ToLower g vs method params head = Some (head + (2 ^ 64 - b))).
Proof.
  intros Hb Hs Hh Hne. pose proof (historical_u64 _ _ _ Hb) as Hu. unfold is_u64, max_u64, nearHeadBlocks in *.
  unfold archivalDepth. rewrite Hs, Hb. cbn [negb]. rewrite (bool_decide_eq_false_2 (head = 0)) by done. cbn [orb].
  unfold nearHeadBlocks. split.
  - intros Hsmall. rewrite u64_small by (unfold is_u64, max_u64; lia).
    destruct (decide (head <= b + 128)).
    + rewrite bool_decide_eq_true_2, bool_decide_eq_false_2 by lia. done.
    + rewrite bool_decide_eq_false_2, bool_decide_eq_true_2 by lia. f_equal. apply u64_small. unfold is_u64, max_u64. lia.
  - intros Hbig Hlt. assert (u64 (b + 128) = b + 128 - 2 ^ 64) as ->.
    { unfold u64. symmetry. apply (Z.mod_unique _ _ 1); lia. }
    rewrite bool_decide_eq_false_2 by lia. f_equal. unfold u64. symmetry. apply (Z.mod_unique _ _ (-1)); lia.
Qed.
(** Three of the state methods name their block first, where nothing looks. *)
Lemma traces_name_no_depth method params head :
  method ∈ ["debug_traceBlockByNumber"; "trace_block"; "trace_replayBlockTransactions"] ->
  has stateMethods method = true /\ archivalDepth ToLower g vs method params head = None.
Proof.
  intros Hm. assert (has stateMethods method = true /\ has methodsWithBlockParam method = false) as [H1 H2].
  { apply list_elem_of_In in Hm as [<-|[<-|[<-|[]]]]; vm_compute; done. }
  split; [done|]. unfold archivalDepth, historicalBlock. by rewrite H1, H2.
Qed.

(** ** Refusals *)
Lemma u64_above x : max_u64 < x < 2 ^ 64 + 2 ^ 64 -> u64 x = x - 2 ^ 64.
Proof. unfold max_u64, u64. intros. symmetry. apply (Z.mod_unique _ _ 1); lia. Qed.
(** The test of the window, with its wraps: on a chain longer than the window,
    and for a window wider than a span, it is the test on the numbers. *)
Lemma window_exact from to floor head minBack maxBack :
  is_u64 head -> is_u64 from -> is_u64 to -> from <= to ->
  (floor = from \/ (floor = to /\ to - from <= refusalMaxSpan)) ->
  0 <= minBack -> minBack + refusalMaxSpan <= maxBack -> maxBack <= head ->
  u64 (floor + minBack) <= head -> head <= u64 (from + maxBack) ->
  floor + minBack <= head /\ head <= from + maxBack.
Proof.
  unfold is_u64, refusalMaxSpan. intros Hh Hf Ht Hft Hfl Hmin Hspan Hmax H1 H2.
  destruct (decide (from + maxBack <= max_u64)) as [Hs|Hb].
  - rewrite u64_small in H2 by (unfold is_u64; lia). rewrite u64_small in H1; [lia|]. unfold is_u64. lia.
  - exfalso. rewrite u64_above in H2 by (unfold max_u64 in *; lia). unfold max_u64 in *. lia.
Qed.


(** A refined verdict is the supplier's, or as fair as it was. *)
Lemma refusal_shape payload result head blocksIn v skip :
  RefusalVerdict ToLower g vs payload result head blocksIn = (v, true, skip) -> exists details, v = RefusedRecent details.
Proof.
  unfold RefusalVerdict. destruct (_ || _); [done|]. destruct (refusalWindow _ _) as [minBack maxBack].
  destruct (requestedBlocks _ _ _ _ _) as [[from to]|]; [|done].
  destruct (bool_decide (to < from)); [done|]. destruct (negb _ && bool_decide (refusalMaxSpan < _)); [done|].
  destruct (bool_decide (head < _)); [done|]. destruct (bool_decide (u64 _ < head)); [done|].
  intros [= <- _]. by eexists.
Qed.
Lemma refusal_fair payload result head blocksIn v skip :
  RefusalVerdict ToLower g vs payload result head blocksIn = (v, true, skip) -> fair v.
Proof. intros (details & ->)%refusal_shape _. by left. Qed.
Lemma future_fair payload result head beyond v :
  futureBlockVerdict g vs payload result head beyond = (v, true) -> fair result -> fair v.
Proof.
  unfold futureBlockVerdict. repeat (case_match; try done). intros [= <-] Hf. exact Hf.
Qed.

(** ** Which answers the cache keeps *)
Context (by_name : forall b k, Heuristic.Exists g (GetBytes g b k) = true -> IsArray vs (Heuristic.ParseBytes g b) = false).
End Facts.

(** ** The index of a transaction is read as its block *)
Lemma index_is_read_as_block g vs params head b i n :
  Array vs params = [b; i] -> isString g b = true -> isString g i = true ->
  let s := Heuristic.StringOf g i in
  let again := Heuristic.ParseBytes g (quote +:+ (s +:+ quote)) in
  Heuristic.Exists g again = true -> Heuristic.StringOf g again = s -> parseHexUint64 s = Some n ->
  s <> "" -> has recentStateBlockTags s = false -> s <> blockTagEarliest ->
  requestedBlocks g vs "eth_getTransactionByBlockNumberAndIndex" params head = Some (n, n).
Proof.
  intros Ha Hb Hi s again He Hs Hn Hne Htag Hearly. unfold requestedBlocks.
  rewrite bool_decide_eq_false_2 by done.
  change (has methodsWithLeadingBlock _) with false. change (has methodsWithBlockParam _) with true. cbn iota.
  rewrite Ha. unfold findLastStringParam. rewrite !filter_cons_True, filter_nil by done. cbn [last]. fold s.
  rewrite bool_decide_eq_false_2 by done. fold again. unfold block. rewrite He, Hs, Htag. cbn [negb orb].
  by rewrite bool_decide_eq_false_2, Hn.
Qed.

(** ** Runs: JSON as a tree *)
Inductive tree := Leaf | Text (s : string) | List_ (l : list tree) | Object_ (l : list (string * tree)).
Definition demoGjson (parse : string -> tree) : Heuristic.Gjson :=
  Heuristic.mkGjson tree (λ s, negb (bool_decide (s = "")))
    (λ s, if String.prefix quote s then Text (upto (String.length s - 2) (from 1 s)) else parse s)
    (λ v k, match v with
            | Object_ l => default Leaf (snd <$> List.find (λ p, bool_decide (p.1 = k)) l) | _ => Leaf end)
    (λ v, match v with Leaf => false | _ => true end)
    (λ v, match v with Leaf => Heuristic.Null | Text _ => Heuristic.String_ | _ => Heuristic.JSON end)
    (λ _, 0) (λ v, match v with Text s => s | _ => "" end) (λ v, match v with Text s => s | _ => "" end) (λ _, []).
Definition demoValues parse : Values (demoGjson parse) :=
  mkValues (g := demoGjson parse) (λ v, match v with List_ _ => true | _ => false end)
    (λ v, match v with List_ l => l | _ => [] end) (λ _, "").
Definition callFor (method blockParam : string) : tree :=
  Object_ [("jsonrpc", Text "2.0"); ("method", Text method); ("params", List_ [Text blockParam])].
Definition pruned : AnalysisResult :=
  mkAnalysis true false false SeverityNone AttrBlockchain (lit 6 10) "state_not_available" "state not available" false 0 0.
Definition demoVerdict (method blockParam : string) (head : Z) (blocksIn : Z -> Z) : AnalysisResult * bool * string :=
  RefusalVerdict GoText.ToLower (demoGjson (λ _, callFor method blockParam)) (demoValues _)
    (NewPayload "call" Heuristic.RPCTypeJSONRPC method) pruned head (Some blocksIn).


(** On a chain of more than 128 blocks in half a minute, a block near the last a
    [uint64] can name passes the window's first test by wrapping and its second
    by not wrapping: a node that says it has no such state is charged. *)
Lemma overflow_charges_a_supplier :
  let v := demoVerdict "eth_call" "0xffffffffffffff6a" 1000 (λ _, 200) in
  v.1.2 = true /\ ShouldPenalize v.1.1 = true /\ Attribution v.1.1 = AttrSupplier /\ 1000 < 2 ^ 64 - 150.
Proof. vm_compute. done. Qed.

Definition demoTree (s : string) : tree :=
  if bool_decide (s = "answer") then Object_ [("result", Text "0x1")]
  else if bool_decide (s = "block") then callFor "eth_getBlockByNumber" "0x10"
  else callFor "eth_getTransactionReceipt" "0xab".
Lemma demo_by_name b k : Heuristic.Exists (demoGjson demoTree) (GetBytes (demoGjson demoTree) b k) = true ->
  IsArray (demoValues demoTree) (Heuristic.ParseBytes (demoGjson demoTree) b) = false.
Proof. unfold GetBytes, demoTree. simpl. destruct (String.prefix quote b); [done|]. by repeat case_bool_decide. Qed.

Definition canaryTree (s : string) : tree := Object_ [("result", Text (resultsAnswer 1700000000))].
Lemma canary_round_trip_witness : canaryTimestamp (demoGjson canaryTree) "answer" = Some 1700000000.
Proof.
  apply (canary_round_trip (demoGjson canaryTree) "answer" 1700000000).
  - unfold max_i64. lia.
  - right. reflexivity.
Defined.
End EvmRequest.
