(* ===== verification/Evm.v ===== *)
(** * Evm: the EVM plugin's state

    Models [qos/evm/plugin.go] over [EvmRequest]: heights, the archival memory and
    what selection, narrowing, grading and extraction make of them.  A handler
    reads the clock and the perceived head several times; here a call has one of
    each.  The owners are those known at the call; [routing] is what the archival
    routing gate answers.  Counters are returned, logging is left out. *)

From Stdlib Require Import Ascii.
From stdpp Require Import strings.
From S2P Require Import Prelude Float64 Domain Text RelayErrors Heuristic Message BlockConsensus QosSelector.
From S2P Require Import Retry HostMemory EvmRequest.
Import Domain RelayErrors Message BlockConsensus EvmRequest.

Module Evm.

Record evmEndpoint := mkEndpoint { BlockNumber : Z }.
Definition archivalTTL : Z := 1 * hour.
Definition maxArchivalHosts : Z := 4096.
Definition chainIDCheckInterval : Z := 5 * minute.

(** ** Archival marks *)
Record archivalMark := mkMark { served : Z; hasServed : bool; refused : Z; refusedAt : Z }.
Definition zeroMark : archivalMark := mkMark 0 false 0 GoTime.zero.
Definition withServed (m : archivalMark) (depth : Z) : archivalMark :=
  mkMark (Z.max (served m) depth) true (refused m) (refusedAt m).
Definition refusing (m : archivalMark) (now : Z) : bool :=
  negb (GoTime.IsZero (refusedAt m)) && bool_decide (GoTime.Sub now (refusedAt m) < archivalTTL).
Definition withRefused (m : archivalMark) (depth now : Z) : archivalMark :=
  mkMark (served m) (hasServed m)
    (if negb (refusing m now) || bool_decide (depth < refused m) then depth else refused m) now.
Definition admits (m : archivalMark) (depth now : Z) : bool :=
  negb (refusing m now) || bool_decide (depth < refused m).
Definition hostKey (e : EndpointAddr) : string :=
  let h := Domain.Domain e in if bool_decide (h = "") then e else h.

(** ** The plugin *)
Abbreviation Memory := (HostMemory.HostMemory archivalMark).
Record Plugin := mkPlugin {
  tracking : QosSelector.HeightTracking; store : QosSelector.EndpointStore evmEndpoint;
  expectedChainID : string; archival : Memory; logs : Memory
}.
Record Config := mkConfig { SyncAllowance : Z; ExpectedChainID : string }.
Definition Validate (c : Config) : bool :=
  bool_decide (ExpectedChainID c = "") || bool_decide (is_Some (parseHexUint64 (ExpectedChainID c))).
Definition newMemory : Memory := HostMemory.NewHostMemory archivalTTL maxArchivalHosts.
Definition NewPlugin (cfg : Config) (now : Z) : Plugin :=
  mkPlugin (QosSelector.SetSyncAllowance
      (QosSelector.mkTracking (NewBlockConsensus (SyncAllowance cfg) now) 0) (SyncAllowance cfg))
    QosSelector.NewEndpointStore (ExpectedChainID cfg) newMemory newMemory.
Definition head (p : Plugin) : Z := PerceivedBlock (QosSelector.Consensus (tracking p)).

Section Plugin.
Context (ToLower : string -> string) (g : Heuristic.Gjson) (vs : Values g) (oor : f64 -> Z).
Context (EffectiveTLDPlusOne : string -> option string).

(** ** Depths a request names *)
Definition paramsOf (data : string) : string := Raw vs (GetBytes g data "params").
Definition deepest (depthOf : Payload -> option Z) (payloads : list Payload) : option Z :=
  foldl (λ acc p, match depthOf p with Some d => Some (Z.max (default 0 acc) d) | None => acc end) None payloads.
Definition requestDepth (p : Plugin) (payloads : list Payload) : option Z :=
  deepest (λ pl, archivalDepth ToLower g vs (Method pl) (paramsOf (Bytes pl)) (head p)) payloads.
Definition requestLogDepth (p : Plugin) (payloads : list Payload) : option Z :=
  deepest (λ pl, if negb (bool_decide (Method pl = methodGetLogs)) then None
                 else logDepth ToLower g (paramsOf (Bytes pl)) (head p)) payloads.

(** ** What an answer shows of its host *)
Definition updateMark (m : Memory) (e : EndpointAddr) (f : archivalMark -> archivalMark) (now : Z) : Memory :=
  HostMemory.Update zeroMark m (hostKey e) (λ old _, f old) now.
Definition with_archival (p : Plugin) (m : Memory) : Plugin :=
  mkPlugin (tracking p) (store p) (expectedChainID p) m (logs p).
Definition with_logs (p : Plugin) (m : Memory) : Plugin :=
  mkPlugin (tracking p) (store p) (expectedChainID p) (archival p) m.
Definition with_store (p : Plugin) (s : QosSelector.EndpointStore evmEndpoint) : Plugin :=
  mkPlugin (tracking p) s (expectedChainID p) (archival p) (logs p).
Definition observeLogs (p : Plugin) (e : EndpointAddr) (request response : string) (now : Z) : Plugin :=
  match logDepth ToLower g (paramsOf request) (head p) with
  | None => p
  | Some depth =>
      match classifyArchivalResponse ToLower g response with
      | archivalServed => with_logs p (updateMark (logs p) e (λ m, withServed m depth) now)
      | archivalMissing => with_logs p (updateMark (logs p) e (λ m, withRefused m depth now) now)
      | archivalInconclusive => p
      end
  end.
(** With the status recorded, if one was. *)
Definition observeArchival (p : Plugin) (e : EndpointAddr) (method request response : string) (now : Z)
    : Plugin * option bool :=
  match archivalDepth ToLower g vs method (paramsOf request) (head p) with
  | None => (p, None)
  | Some depth =>
      match classifyArchivalResponse ToLower g response with
      | archivalServed => (with_archival p (updateMark (archival p) e (λ m, withServed m depth) now), Some true)
      | archivalMissing => (with_archival p (updateMark (archival p) e (λ m, withRefused m depth now) now), Some false)
      | archivalInconclusive => (p, None)
      end
  end.
Definition RecordArchival (p : Plugin) (e : EndpointAddr) (payload : Payload) (response : string) (now : Z) : Plugin :=
  let m := Method payload in
  if bool_decide (m = methodGetLogs) then observeLogs p e (Bytes payload) response now
  else if has stateMethods m then (observeArchival p e m (Bytes payload) response now).1
  else p.

(** [ArchivalHosts]: per host, what it served and refuses, of state and of logs. *)
Record ArchivalMark := mkView { ServedDepth : option Z; RefusedDepth : option Z; LogsServedDepth : option Z; LogsRefusedDepth : option Z }.
Definition markView (now : Z) (state log : option archivalMark) : option ArchivalMark :=
  let servedOf m := m ← (m : option archivalMark); if hasServed m then Some (served m) else None in
  let refusedOf m := m ← (m : option archivalMark); if refusing m now then Some (refused m) else None in
  match state, log with
  | None, None => None
  | _, _ => Some (mkView (servedOf state) (refusedOf state) (servedOf log) (refusedOf log))
  end.
Definition ArchivalHosts (p : Plugin) (now : Z) : gmap string ArchivalMark :=
  merge (markView now) (HostMemory.Snapshot (archival p) now) (HostMemory.Snapshot (logs p) now).

(** ** Selection *)
Definition markAdmits (m : Memory) (depth now : Z) (e : EndpointAddr) : bool :=
  match HostMemory.Get m (hostKey e) now with Some mark => admits mark depth now | None => true end.
(** A retention filter, off when the depth is not needed. *)
Definition retentionFilter (m : Memory) (depth : option Z) (now : Z) (e : EndpointAddr) : bool :=
  match depth with Some d => markAdmits m d now e | None => true end.
Definition partyOf (st : owners) (e : EndpointAddr) : string :=
  let p := Party EffectiveTLDPlusOne st e in if bool_decide (p = "") then e else p.
Definition parties (st : owners) (keep : EndpointAddr -> bool) (eps : EndpointAddrList) : gset string :=
  list_to_set (partyOf st <$> filter (λ e, keep e = true) eps).
Definition partyCounts (st : owners) (eps : EndpointAddrList) (keep : EndpointAddr -> bool) : Z * Z :=
  let kept := parties st keep eps in
  let out := parties st (λ e, negb (keep e)) eps in
  (Z.of_nat (size kept), Z.of_nat (size (out ∖ kept))).
Definition ArchivalFiltered : string := "filtered".
Definition ArchivalBypassed : string := "bypassed".
Definition ArchivalNoop : string := "noop".
Definition ArchivalDisabled : string := "disabled".
Definition ArchivalState : string := "state".
Definition ArchivalLogs : string := "logs".
(** Whether the filter applies, with the kind, outcome and count recorded. *)
Definition decideArchival (st : owners) (kind : string) (eps : EndpointAddrList) (keep : EndpointAddr -> bool)
    : bool * (string * string * Z) :=
  let '(kept, removed) := partyCounts st eps keep in
  if bool_decide (kept < 2) then (false, (kind, ArchivalBypassed, 0))
  else if bool_decide (removed = 0) then (true, (kind, ArchivalNoop, removed))
  else (true, (kind, ArchivalFiltered, removed)).
Definition needed (kind : string) (depth : option Z) : list (string * string * Z) :=
  if bool_decide (is_Some depth) then [(kind, ArchivalDisabled, 0)] else [].
(** The depths the filters go by once they are decided, and what was recorded. *)
Definition decideFilters (p : Plugin) (st : owners) (routing : bool) (eps : EndpointAddrList)
    (payloads : list Payload) (now : Z) : option Z * option Z * list (string * string * Z) :=
  let depth := requestDepth p payloads in
  let logDepth := requestLogDepth p payloads in
  if negb routing then (None, None, needed ArchivalState depth ++ needed ArchivalLogs logDepth)
  else
    let '(depth, rec1) :=
      match depth with
      | None => (None, [])
      | Some _ => let '(apply, r) := decideArchival st ArchivalState eps (retentionFilter (archival p) depth now) in
                  (if (apply : bool) then depth else None, [r])
      end in
    let '(logDepth, rec2) :=
      match logDepth with
      | None => (None, [])
      | Some _ => let '(apply, r) := decideArchival st ArchivalLogs eps
                    (λ e, retentionFilter (archival p) depth now e && retentionFilter (logs p) logDepth now e) in
                  (if (apply : bool) then logDepth else None, [r])
      end in
    (depth, logDepth, rec1 ++ rec2).
Definition heights (p : Plugin) (now : Z) : QosSelector.HeightFn :=
  QosSelector.HeightGetter oor (store p) BlockNumber (Projection (QosSelector.Consensus (tracking p))) now.
Definition selectWith (p : Plugin) (eps : EndpointAddrList) (now : Z) (retention : list QosSelector.FilterFunc)
    : QosSelector.SelectResult :=
  let allowance := QosSelector.SyncAllowance (tracking p) in
  let getHeight := heights p now in
  let blockFilter := QosSelector.BlockHeightFilter getHeight (QosSelector.MinAllowedHeight (head p) allowance) in
  let relaxedBlockFilter := QosSelector.BlockHeightFilter getHeight (QosSelector.MinAllowedHeight (head p) (u64 (allowance * 2))) in
  QosSelector.SelectWithKnownHeights getHeight eps (blockFilter :: retention) (Some (relaxedBlockFilter :: retention))
    (Some retention) (Some (QosSelector.LeastStaleFallback getHeight (head p))).
Definition SelectEndpoints (p : Plugin) (st : owners) (routing : bool) (eps : EndpointAddrList)
    (payloads : list Payload) (now : Z) : EndpointAddrList * list (string * string * Z) :=
  if bool_decide (length eps = 0)%nat then ([], [])
  else
    let '(depth, logDepth, recorded) := decideFilters p st routing eps payloads now in
    (QosSelector.Endpoints_ (selectWith p eps now
       [retentionFilter (archival p) depth now; retentionFilter (logs p) logDepth now]), recorded).

(** ** Narrowing *)
Definition markRetains (m : Memory) (d now : Z) (servedOnly : bool) (e : EndpointAddr) : bool :=
  match HostMemory.Get m (hostKey e) now with
  | Some mark => if servedOnly then hasServed mark && bool_decide (d <= served mark) && admits mark d now
                 else admits mark d now
  | None => negb servedOnly
  end.
Definition retains (p : Plugin) (routing : bool) (payloads : list Payload) (now : Z)
    : option (bool -> EndpointAddr -> bool) :=
  if negb routing then None
  else
    let state := requestDepth p payloads in
    let log := requestLogDepth p payloads in
    if negb (bool_decide (is_Some state)) && negb (bool_decide (is_Some log)) then None
    else Some (λ servedOnly e,
      match state with Some d => markRetains (archival p) d now servedOnly e | None => true end &&
      match log with Some d => markRetains (logs p) d now servedOnly e | None => true end).

(** ** Heights *)
Definition reportedHeight (h : Z) : Z := Z.max h 1.
Definition observeHeight (p : Plugin) (e : EndpointAddr) (h now : Z) : Plugin :=
  with_store p (QosSelector.ObserveHeight (mkEndpoint 0) (store p) e (λ _, mkEndpoint h) now).
Definition addObservation (p : Plugin) (st : owners) (e : EndpointAddr) (h now : Z) : Plugin :=
  mkPlugin (QosSelector.mkTracking
      (AddObservation (Party EffectiveTLDPlusOne st) (QosSelector.Consensus (tracking p)) e h now)
      (QosSelector.htAllowance (tracking p)))
    (store p) (expectedChainID p) (archival p) (logs p).
Definition UpdateBlockHeight (p : Plugin) (st : owners) (e : EndpointAddr) (h now : Z) : Plugin :=
  let h := reportedHeight h in addObservation (observeHeight p e h now) st e h now.
Definition RecordHead (p : Plugin) (e : EndpointAddr) (payload : Payload) (response : string) (now : Z) : Plugin :=
  match answeredHead g payload response with
  | Some h => observeHeight p e (reportedHeight h) now
  | None => p
  end.
Definition HeadLagOf (toDuration : f64 -> Z) (bc : BlockConsensus) (payload : Payload) (response : string) (now : Z)
    : Z * bool * bool :=
  if bool_decide (Method payload = "eth_call") then
    if negb (isCanary (Bytes payload)) then (0, false, false)
    else match canaryTimestamp g response with
         | None => (0, false, false)
         | Some ts => StateLag oor toDuration bc (ts * second) now
         end
  else match answeredHead g payload response with
       | None => (0, false, false)
       | Some h => AnswerLag oor bc h now
       end.
Definition HeadLag (toDuration : f64 -> Z) (p : Plugin) : Payload -> string -> Z -> Z * bool * bool :=
  HeadLagOf toDuration (QosSelector.Consensus (tracking p)).
Definition AllStale (p : Plugin) (eps : EndpointAddrList) (now : Z) : bool :=
  QosSelector.AllStaleBy (tracking p) eps (heights p now).
Definition ResetState (p : Plugin) (now : Z) : Plugin :=
  mkPlugin (QosSelector.mkTracking (Reset (QosSelector.Consensus (tracking p)) now) (QosSelector.htAllowance (tracking p)))
    (QosSelector.Clear (store p)) (expectedChainID p) (HostMemory.Reset (archival p)) (HostMemory.Reset (logs p)).

(** ** Extraction *)
Record ExtractedData := mkExtracted { BlockHeight_ : option Z; ChainID_ : option string; IsArchival_ : option bool }.
Inductive extractError := NoHeight | Implausible (h : Z) | NoChainID | BadChainID | WrongChain (want got : string).
Definition assertChainID (p : Plugin) (reported : string) : option extractError :=
  if bool_decide (expectedChainID p = "") then None
  else match parseHexUint64 (expectedChainID p) with
       | None => None
       | Some want =>
           match parseHexUint64 reported with
           | None => Some BadChainID
           | Some got => if bool_decide (got = want) then None else Some (WrongChain (expectedChainID p) reported)
           end
       end.
Definition ExtractData (p : Plugin) (st : owners) (e : EndpointAddr) (request response : string) (now : Z)
    : Plugin * (extractError + option ExtractedData) :=
  let method := Heuristic.StringOf g (GetBytes g request "method") in
  if bool_decide (method = "eth_blockNumber") then
    match ParseBlockNumber g response with
    | None => (p, inl NoHeight)
    | Some h =>
        let h := reportedHeight h in
        let p := observeHeight p e h now in
        if negb (IsPlausibleBlockHeight h) then (p, inl (Implausible h))
        else (addObservation p st e h now, inr (Some (mkExtracted (Some h) None None)))
    end
  else if bool_decide (method = "eth_chainId") then
    match extractChainID g response with
    | None => (p, inl NoChainID)
    | Some chainID =>
        match assertChainID p chainID with
        | Some err => (p, inl err)
        | None => (p, inr (Some (mkExtracted None (Some chainID) None)))
        end
    end
  else
    let '(p, observed) := observeArchival p e method request response now in
    (p, inr (match observed with Some a => Some (mkExtracted None None (Some a)) | None => None end)).

(** ** Verdicts *)
Definition RefineVerdict (p : Plugin) (payload : Payload) (result : AnalysisResult) (now : Z) : option AnalysisResult :=
  let bc := QosSelector.Consensus (tracking p) in
  match futureBlockVerdict g vs payload result (head p) (Some (λ n, BeyondHead oor bc n now)) with
  | (refined, true) => Some refined
  | _ =>
      match RefusalVerdict ToLower g vs payload result (head p) (Some (BlocksIn oor bc)) with
      | (refined, true, _) => Some refined
      | _ => None
      end
  end.

(** ** Health checks *)
Record HealthCheck := mkCheck { Name : string; Payload_ : Payload; Essential : bool; Interval : Z; GradesHead : bool }.
Definition checkBody (method : string) (id : Z) : string :=
  dquotes "{'jsonrpc':'2.0','method':'" +:+ (method +:+ (dquotes "','params':[],'id':" +:+ (FormatInt id +:+ "}"))).
Definition CanaryCheck (unix : Z) : HealthCheck :=
  mkCheck CanaryName (NewPayload (canaryAt unix) Heuristic.RPCTypeJSONRPC "eth_call") false 0 true.
Definition HealthChecks (stateCanary : bool) (unix : Z) : list HealthCheck :=
  [mkCheck "eth_blockNumber" (NewPayload (checkBody "eth_blockNumber" 1) Heuristic.RPCTypeJSONRPC "eth_blockNumber") true 0 false;
   mkCheck "eth_chainId" (NewPayload (checkBody "eth_chainId" 2) Heuristic.RPCTypeJSONRPC "eth_chainId") false chainIDCheckInterval false] ++
  if stateCanary then [CanaryCheck unix] else [].

(** ** Selection keeps historical requests off the hosts that refuse them *)
Lemma select_passes p eps now retention e :
  QosSelector.applyFilters eps retention <> [] ->
  e ∈ QosSelector.Endpoints_ (selectWith p eps now retention) ->
  e ∈ eps /\ forall f, f ∈ retention -> f e = true.
Proof. apply QosSelector.tiers_pass. Qed.
Lemma select_kept p eps now retention : QosSelector.Endpoints_ (selectWith p eps now retention) ⊆+ eps.
Proof. apply QosSelector.tiers_kept. Qed.
Lemma parties_two st keep eps : 2 <= Z.of_nat (size (parties st keep eps)) -> filter (λ e, keep e = true) eps <> [].
Proof.
  intros H E. assert (parties st keep eps = ∅) as Hp by (unfold parties; by rewrite E).
  rewrite Hp, size_empty in H. lia.
Qed.
Lemma decide_two st kind eps keep r : decideArchival st kind eps keep = (true, r) ->
  2 <= Z.of_nat (size (parties st keep eps)).
Proof.
  unfold decideArchival, partyCounts. case_bool_decide; [done|]. intros _. lia.
Qed.
Lemma parties_ext st f f' eps : (forall e, f e = f' e) -> parties st f eps = parties st f' eps.
Proof.
  intros Hf. unfold parties. rewrite (list_filter_iff (λ e, f e = true) (λ e, f' e = true)); [done|].
  intros e. by rewrite Hf.
Qed.
(** A retention filter in force was asked for by the request, with routing on,
    and the two together leave at least two parties. *)
Lemma filters_leave_two p st routing eps payloads now depth log recorded :
  decideFilters p st routing eps payloads now = (depth, log, recorded) ->
  (is_Some depth -> routing = true /\ depth = requestDepth p payloads) /\
  (is_Some log -> routing = true /\ log = requestLogDepth p payloads) /\
  (is_Some depth \/ is_Some log ->
     2 <= Z.of_nat (size (parties st (λ e, retentionFilter (archival p) depth now e && retentionFilter (logs p) log now e) eps))).
Proof.
  unfold decideFilters. destruct routing; cbn [negb]; [|intros [= <- <- _]; split_and!; by intros [? ?] || intros [[? ?]|[? ?]]].
  destruct (match requestDepth p payloads with Some _ => _ | None => _ end) as [d1 r1] eqn:E1.
  destruct (match requestLogDepth p payloads with Some _ => _ | None => _ end) as [d2 r2] eqn:E2.
  intros [= <- <- _].
  assert (is_Some d1 -> d1 = requestDepth p payloads /\ 2 <= Z.of_nat (size (parties st (retentionFilter (archival p) d1 now) eps))) as H1.
  { intros Hs. destruct (requestDepth p payloads) as [d|]; [|injection E1 as <- _; by destruct Hs].
    destruct (decideArchival st ArchivalState eps _) as [[|] r] eqn:Ed; injection E1 as <- _; [|by destruct Hs].
    split; [done|]. by eapply decide_two. }
  assert (is_Some d2 -> d2 = requestLogDepth p payloads /\ 2 <= Z.of_nat (size (parties st
    (λ e, retentionFilter (archival p) d1 now e && retentionFilter (logs p) d2 now e) eps))) as H2.
  { intros Hs. destruct (requestLogDepth p payloads) as [d|]; [|injection E2 as <- _; by destruct Hs].
    destruct (decideArchival st ArchivalLogs eps _) as [[|] r] eqn:Ed; injection E2 as <- _; [|by destruct Hs].
    split; [done|]. by eapply decide_two. }
  split_and!.
  - intros Hs. by destruct (H1 Hs).
  - intros Hs. by destruct (H2 Hs).
  - intros Hs. destruct d2 as [d2|]; [by apply H2; eexists|]. destruct Hs as [Hs|[? ?]]; [|done].
    destruct (H1 Hs) as [_ H]. rewrite (parties_ext _ _ (retentionFilter (archival p) d1 now)); [done|].
    intros e. simpl. by rewrite andb_true_r.
Qed.


(** ** What refusals do

    An observation of one attempt: the host showed history at a depth, or said
    it has none there. *)
Inductive shown := Served | Refused.
Record observation := mkObs { subject : EndpointAddr; what : shown; depth_ : Z; at_ : Z }.
Definition observe (m : Memory) (o : observation) : Memory :=
  updateMark m (subject o)
    (λ k, match what o with Served => withServed k (depth_ o) | Refused => withRefused k (depth_ o) (at_ o) end) (at_ o).
Lemma record_observes p e payload response now :
  archival (RecordArchival p e payload response now) = archival p \/
  exists w d, archival (RecordArchival p e payload response now) = observe (archival p) (mkObs e w d now) /\
    archivalDepth ToLower g vs (Method payload) (paramsOf (Bytes payload)) (head p) = Some d /\
    classifyArchivalResponse ToLower g response = match w with Served => archivalServed | Refused => archivalMissing end.
Proof.
  unfold RecordArchival. case_bool_decide as Em.
  { left. unfold observeLogs. by repeat case_match. }
  destruct (has _ _); [|by left]. unfold observeArchival.
  destruct (archivalDepth _ _ _ _ _ _) as [d|]; [|by left].
  destruct (classifyArchivalResponse _ _ _) eqn:Ec; [by left|right; by exists Served, d|right; by exists Refused, d].
Qed.

Lemma hostKey_some e : e <> "" -> hostKey e <> "".
Proof. intros He. unfold hostKey. by case_bool_decide. Qed.
(** The memory holds a refusal at [d] or shallower, not older than [t]. *)
Definition holds (m : Memory) (h : string) (d t : Z) : Prop :=
  exists mark exp, HostMemory.entries m !! h = Some (HostMemory.mkEntry mark exp) /\
    t + archivalTTL <= exp /\ refused mark <= d /\ t <= refusedAt mark /\ refusedAt mark <> GoTime.zero.
Definition roomFor (m : Memory) (n : nat) : Prop :=
  HostMemory.ttl m = archivalTTL /\ Z.of_nat (size (HostMemory.entries m)) + Z.of_nat n <= HostMemory.maxHosts m.
Lemma live_refusing mark t now : refusedAt mark <> GoTime.zero -> t <= refusedAt mark -> now - t < archivalTTL -> refusing mark now = true.
Proof.
  intros Hz Ht Hn. unfold refusing, GoTime.IsZero. rewrite bool_decide_eq_false_2 by done. cbn [negb andb].
  apply bool_decide_eq_true. apply GoTime.Sub_lt; [vm_compute; done|]. lia.
Qed.
Lemma observe_room m o n : roomFor m (S n) -> roomFor (observe m o) n.
Proof.
  intros [Ht Hs]. unfold observe, updateMark, HostMemory.Update, roomFor. case_bool_decide; [split; [done|lia]|].
  simpl. split; [done|]. unfold HostMemory.room.
  rewrite (bool_decide_eq_false_2 (HostMemory.maxHosts m <= _)) by lia. rewrite andb_false_r.
  rewrite map_size_insert. destruct (HostMemory.entries m !! _); simpl; unfold id; lia.
Qed.
Lemma observe_entries m o n : roomFor m (S n) -> subject o <> "" ->
  HostMemory.entries (observe m o) =
    <[hostKey (subject o) := HostMemory.mkEntry
        (let k := default zeroMark (HostMemory.Get m (hostKey (subject o)) (at_ o)) in
         match what o with Served => withServed k (depth_ o) | Refused => withRefused k (depth_ o) (at_ o) end)
        (at_ o + archivalTTL)]> (HostMemory.entries m).
Proof.
  intros [Ht Hs] Hne. unfold observe, updateMark, HostMemory.Update.
  rewrite bool_decide_eq_false_2 by (by apply hostKey_some). simpl. rewrite Ht. unfold HostMemory.room.
  rewrite (bool_decide_eq_false_2 (HostMemory.maxHosts m <= _)) by lia. by rewrite andb_false_r.
Qed.
Lemma observe_holds m o n h d t now : roomFor m (S n) -> subject o <> "" -> holds m h d t ->
  t <= at_ o <= now -> now - t < archivalTTL -> GoTime.zero < t -> holds (observe m o) h d t.
Proof.
  intros Hr Hne (mark & exp & He & Hexp & Hd & Hat & Hz) Ho Hnow Hzt. unfold holds. rewrite (observe_entries m o n) by done.
  destruct (decide (hostKey (subject o) = h)) as [<-|Hh].
  2:{ exists mark, exp. by rewrite lookup_insert_ne. }
  rewrite lookup_insert_eq. unfold HostMemory.Get. rewrite He. cbn [HostMemory.expiry HostMemory.value].
  assert (GoTime.Before (at_ o) exp = true) as -> by (apply GoTime.Before_spec; lia). cbn [default].
  eexists _, _. split; [done|]. split; [lia|]. destruct (what o); simpl; [done|].
  rewrite (live_refusing mark t (at_ o)) by (done || lia). cbn [negb orb]. case_bool_decide; split_and!; lia.
Qed.
Lemma refused_holds m o n : roomFor m (S n) -> subject o <> "" -> what o = Refused -> GoTime.zero < at_ o ->
  holds (observe m o) (hostKey (subject o)) (depth_ o) (at_ o).
Proof.
  intros Hr Hne Hw Hz. unfold holds. rewrite (observe_entries m o n), Hw, lookup_insert_eq by done.
  eexists _, _. split; [done|]. split; [lia|]. simpl. split_and!; [|lia|lia].
  destruct (refusing _ _); simpl; [case_bool_decide; lia|lia].
Qed.

(** A refusal keeps a host from requests at its depth and deeper for an
    hour, whatever it answers meanwhile and whatever is learnt of other hosts, as
    long as the memory has room. *)
Theorem refusals_last_an_hour m o later now e d :
  roomFor m (S (length later)) -> what o = Refused -> subject o <> "" -> GoTime.zero < at_ o ->
  Forall (λ x, subject x <> "" /\ at_ o <= at_ x <= now) later -> at_ o <= now -> now - at_ o < archivalTTL ->
  hostKey e = hostKey (subject o) -> depth_ o <= d ->
  markAdmits (foldl observe m (o :: later)) d now e = false.
Proof.
  intros Hr Hw Hne Hz Hl Hn Hlt He Hd. simpl.
  assert (holds (foldl observe (observe m o) later) (hostKey (subject o)) (depth_ o) (at_ o)) as (mark & exp & Hm & Hexp & Hre & Hat & Hzz).
  { pose proof (refused_holds m o _ Hr Hne Hw Hz) as Hh. apply (observe_room m o) in Hr.
    revert Hr Hh. generalize (observe m o) as m1. induction Hl as [|x l [Hx1 Hx2] _ IH]; intros m1 Hr Hh; [done|].
    simpl. apply IH; [by apply observe_room|]. by eapply observe_holds. }
  unfold markAdmits, HostMemory.Get. rewrite He, Hm. cbn [HostMemory.expiry HostMemory.value].
  assert (GoTime.Before now exp = true) as -> by (apply GoTime.Before_spec; lia).
  unfold admits. rewrite (live_refusing mark (at_ o) now) by (done || lia). cbn [negb orb].
  rewrite bool_decide_eq_false_2; [done|lia].
Qed.

Lemma refusals_last_an_hour_witness :
  let refusal := mkObs "s1-https://a.net" Refused 500 1000 in
  let later := [mkObs "s2-https://a.net" Served 900 2000; mkObs "s3-https://b.net" Refused 7 3000] in
  markAdmits (foldl observe newMemory (refusal :: later)) 600 (59 * minute) "s9-https://a.net" = false.
Proof.
  intros refusal later. apply (refusals_last_an_hour newMemory refusal); [|reflexivity|done|by vm_compute| |by vm_compute|by vm_compute| |by vm_compute].
  - by split; vm_compute.
  - unfold later, refusal. repeat constructor; simpl; done || by vm_compute.
  - by vm_compute.
Defined.

(** And nothing else does: a host kept from a request refused it at that depth or
    shallower, and last refused some less than an hour ago. *)
Definition explained (os : list observation) (h : string) (mark : archivalMark) : Prop :=
  refusedAt mark = GoTime.zero \/
  ((exists o, o ∈ os /\ hostKey (subject o) = h /\ what o = Refused /\ depth_ o = refused mark) /\
   (exists o, o ∈ os /\ hostKey (subject o) = h /\ what o = Refused /\ at_ o = refusedAt mark)).
Lemma explained_more os o h mark : explained os h mark -> explained (os ++ [o]) h mark.
Proof.
  intros [?|[(o1 & ? & ?) (o2 & ? & ?)]]; [by left|]. right. split; [exists o1|exists o2]; (split; [|done]); apply elem_of_app; by left.
Qed.
Lemma marks_explained m os : HostMemory.entries m = ∅ ->
  forall h en, HostMemory.entries (foldl observe m os) !! h = Some en -> explained os h (HostMemory.value en).
Proof.
  intros Hm. induction os as [|o os IH] using rev_ind; intros h en; [simpl; by rewrite Hm, lookup_empty|].
  rewrite foldl_app. simpl. set (m1 := foldl observe m os) in *. unfold observe, updateMark, HostMemory.Update.
  case_bool_decide; [intros Hen; by apply explained_more, IH|]. simpl.
  rewrite lookup_insert. case_decide as Hh.
  - intros [= <-]. simpl. subst h. set (old := default zeroMark _).
    assert (explained os (hostKey (subject o)) old) as Hold.
    { unfold old, HostMemory.Get. destruct (HostMemory.entries m1 !! _) as [e0|] eqn:E0; [|by left].
      destruct (GoTime.Before _ _); simpl; [by apply IH|by left]. }
    destruct (what o) eqn:Ew; [destruct (explained_more _ o _ _ Hold) as [?|?]; [by left|by right]|].
    right. assert (o ∈ os ++ [o]) as Ho by (apply elem_of_app; right; by apply list_elem_of_singleton).
    split; [|by exists o]. simpl. destruct (negb (refusing old (at_ o)) || bool_decide (depth_ o < refused old)) eqn:Er; [by exists o|].
    apply orb_false_iff in Er as [Er%negb_false_iff _]. unfold refusing, GoTime.IsZero in Er.
    apply andb_true_iff in Er as [Er%negb_true_iff%bool_decide_eq_false _].
    destruct (explained_more _ o _ _ Hold) as [?|[(o1 & ? & ? & ? & ?) _]]; [done|]. by exists o1.
  - unfold HostMemory.room. destruct (_ && _); [by rewrite lookup_empty|]. intros Hen. by apply explained_more, IH.
Qed.
Lemma only_refusals_exclude os now e d :
  markAdmits (foldl observe newMemory os) d now e = false ->
  (exists o, o ∈ os /\ hostKey (subject o) = hostKey e /\ what o = Refused /\ depth_ o <= d) /\
  (exists o, o ∈ os /\ hostKey (subject o) = hostKey e /\ what o = Refused /\ now - at_ o < archivalTTL).
Proof.
  unfold markAdmits, HostMemory.Get. destruct (HostMemory.entries _ !! _) as [en|] eqn:E; [|done].
  destruct (GoTime.Before _ _); [|done]. unfold admits. intros [Hr%negb_false_iff Hd%bool_decide_eq_false]%orb_false_iff.
  unfold refusing, GoTime.IsZero in Hr. apply andb_true_iff in Hr as [Hz%negb_true_iff%bool_decide_eq_false Ht%bool_decide_eq_true].
  apply GoTime.Sub_lt in Ht; [|vm_compute; done].
  destruct (marks_explained newMemory os eq_refl _ _ E) as [?|[(o1 & H1 & H2 & H3 & H4) (o2 & H5 & H6 & H7 & H8)]]; [done|].
  split; [exists o1|exists o2]; split_and!; try done; lia.
Qed.

(** ** Heights and chain ids *)
(** A height no chain reaches is stored against the endpoint and never reaches
    the consensus. *)
Lemma implausible_stays_out p st e request response now p' h :
  ExtractData p st e request response now = (p', inl (Implausible h)) ->
  tracking p' = tracking p /\ IsPlausibleBlockHeight h = false.
Proof.
  unfold ExtractData. case_bool_decide.
  - destruct (ParseBlockNumber _ _) as [n|]; [|done]. destruct (IsPlausibleBlockHeight _) eqn:E; cbn [negb]; [done|].
    intros H'. by simplify_eq.
  - case_bool_decide; [|by destruct (observeArchival _ _ _ _ _ _)].
    destruct (extractChainID _ _); [|done]. unfold assertChainID. repeat case_match; intros; by simplify_eq.
Qed.
(** Chain ids are compared as numbers. *)
Lemma chain_ids_are_numbers p want reported :
  parseHexUint64 (expectedChainID p) = Some want ->
  assertChainID p reported = None <-> expectedChainID p = "" \/ parseHexUint64 reported = Some want.
Proof.
  intros Hw. unfold assertChainID. case_bool_decide as He; [naive_solver|]. rewrite Hw.
  destruct (parseHexUint64 reported) as [n|]; [case_bool_decide|]; naive_solver.
Qed.
(** Resetting forgets what was learnt and keeps the configuration. *)
Lemma reset_forgets p now :
  let p' := ResetState p now in
  head p' = 0 /\ expectedChainID p' = expectedChainID p /\
  QosSelector.SyncAllowance (tracking p') = QosSelector.SyncAllowance (tracking p) /\
  (forall e d, markAdmits (archival p') d now e = true /\ markAdmits (logs p') d now e = true).
Proof.
  simpl. split_and!; [done|done|done|]. intros e d. unfold markAdmits, HostMemory.Get. simpl. by rewrite lookup_empty.
Qed.

(** ** The interfaces the stages ask for *)
Section Interfaces.
Context {W : Type} (pluginOf : W -> Plugin) (ownersOf : W -> owners) (routing : W -> bool) (Now : W -> Z).
Program Definition selector : Retry.Selector W Payload :=
  Retry.mkSelector (λ w eps ps, Some (SelectEndpoints (pluginOf w) (ownersOf w) (routing w) eps ps (Now w)).1) _.
Next Obligation.
  intros w eps ps kept [= <-]. unfold SelectEndpoints. case_bool_decide; [apply submseteq_nil_l|].
  destruct (decideFilters _ _ _ _ _ _) as [[d l] r]. apply select_kept.
Qed.
Definition narrower : Retry.Narrower W Payload :=
  Retry.evmNarrower (λ w ps, retains (pluginOf w) (routing w) ps (Now w)).
Program Definition refiner : Retry.Refiner W Payload :=
  Retry.mkRefiner (λ w _ p v, RefineVerdict (pluginOf w) p v (Now w)) _.
Next Obligation.
  intros w ep p v v' H Hf. unfold RefineVerdict in H. cbv beta in H.
  destruct (futureBlockVerdict _ _ _ _ _ _) as [r [|]] eqn:E1; [injection H as <-; by eapply future_fair|].
  destruct (RefusalVerdict _ _ _ _ _ _ _) as [[r' [|]] sk] eqn:E2; [|done]. injection H as <-. by eapply refusal_fair.
Qed.
End Interfaces.
End Plugin.
End Evm.
