(* ===== verification/DupWindow.v ===== *)
(** * DupWindow: repeats among a subscription's recent notifications

    Models [dupWindow] of [qos/subscription.go].  A Go map is a [gmap]; a nil one
    is an empty one.  Hashes are the [uint64]s of the source; times are int64
    nanoseconds. *)

From stdpp Require Import gmap.
From S2P Require Import Prelude.

Module DupWindow.

Definition DefaultDuplicateWindow : Z := 20 * second.
Definition DefaultDuplicateBudget : Z := 16384.
Definition dupGeneration : Z := 8192.
Definition dupMinimal : Z := 4.

Record dupWindow := mkWindow { cur : gmap Z Z; prev : gmap Z Z; curStart : Z }.
Definition zeroWindow : dupWindow := mkWindow ∅ ∅ 0.
(** How long a generation stays open and how much it holds. *)
Definition limits (limit window : Z) : Z * Z :=
  if bool_decide (window <= 0) then (dupMinimal, 2 ^ 62) else (limit, window).
Definition rotate (d : dupWindow) (now limit window : Z) : dupWindow :=
  let age := i64 (now - curStart d) in
  if bool_decide (i64 (2 * window) <= age) then mkWindow ∅ ∅ now
  else if bool_decide (window <= age) || bool_decide (limit <= Z.of_nat (size (cur d))) then mkWindow ∅ (cur d) now
  else d.
Definition seen (d : dupWindow) (h now limit window : Z) : dupWindow * option Z :=
  let '(limit, window) := limits limit window in
  let d := rotate d now limit window in
  match cur d !! h, prev d !! h with
  | Some at_, _ => (d, Some (i64 (now - at_)))
  | None, Some at_ => (d, Some (i64 (now - at_)))
  | None, None => (mkWindow (<[h := now]> (cur d)) (prev d) (curStart d), None)
  end.

(** ** Reading a feed

    A feed is its notifications' hashes with their times. *)
Section Feed.
Context (limit window : Z).
Definition notification : Type := Z * Z.
Definition read (d : dupWindow) (n : notification) : dupWindow := (seen d n.1 n.2 limit window).1.
Definition after (feed : list notification) : dupWindow := foldl read zeroWindow feed.

(** Clock readings do not go back, and are those of a clock set after 1970 that
    an int64 holds. *)
Definition century : Z := 100 * 365 * 24 * hour.
Inductive timed : Z -> list notification -> Prop :=
| timed_nil : timed 0 []
| timed_snoc t h now feed : timed t feed -> t <= now <= century -> timed now (feed ++ [(h, now)]).
Hypothesis Hlimit : 1 <= limit.
Hypothesis Hwindow : 0 < window <= century.

Lemma no_wrap x y : 0 <= x <= century -> 0 <= y <= century -> i64 (x - y) = x - y.
Proof. intros. apply i64_small. unfold min_i64, max_i64, century, hour, minute, second in *. lia. Qed.
Lemma no_wrap2 : i64 (2 * window) = 2 * window.
Proof. apply i64_small. unfold min_i64, max_i64, century, hour, minute, second in *. lia. Qed.
Lemma limits_on : limits limit window = (limit, window).
Proof. unfold limits. by rewrite bool_decide_eq_false_2 by lia. Qed.

(** What a window knows of the feed it has read up to [t], before and after it is
    rotated. *)
Record knows (t : Z) (feed : list notification) (d : dupWindow) : Prop := {
  k_start : 0 <= curStart d <= t;
  k_sizes : Z.of_nat (size (cur d)) <= limit /\ Z.of_nat (size (prev d)) <= limit;
  k_cur : forall h a, cur d !! h = Some a -> (h, a) ∈ feed /\ curStart d <= a <= t;
  k_prev : forall h a, prev d !! h = Some a -> (h, a) ∈ feed /\ 0 <= a <= curStart d /\ curStart d - a < 2 * window
}.
Lemma knows_zero : knows 0 [] zeroWindow.
Proof. by split; simpl; rewrite ?map_size_empty; try lia; intros ? ?; rewrite lookup_empty. Qed.
Lemma rotate_knows t feed d now : knows t feed d -> t <= now <= century ->
  let d' := rotate d now limit window in
  knows now feed d' /\ now - curStart d' < window /\ Z.of_nat (size (cur d')) < limit.
Proof.
  intros [Hs Hz Hc Hp] Hn d'. unfold d', rotate. rewrite no_wrap2, no_wrap by lia.
  case_bool_decide; [split; [split|]; simpl; rewrite ?map_size_empty; try lia; intros ? ?; by rewrite lookup_empty|].
  destruct (bool_decide (window <= _) || _) eqn:E.
  - split; [|simpl; rewrite map_size_empty; lia].
    split; simpl; rewrite ?map_size_empty; try lia; [intros ? ?; by rewrite lookup_empty|].
    intros h a [? ?]%Hc. split; [done|lia].
  - apply orb_false_iff in E as [E1%bool_decide_eq_false E2%bool_decide_eq_false].
    split; [|lia]. split; [lia|done| |done]. intros h a [? ?]%Hc. split; [done|lia].
Qed.
Lemma knows_more t feed d x : knows t feed d -> knows t (feed ++ [x]) d.
Proof.
  intros [Hs Hz Hc Hp]. split; [done|done| |]; intros h a H; [apply Hc in H as [? ?]|apply Hp in H as [? ?]];
    (split; [apply elem_of_app; by left|done]).
Qed.
Lemma read_knows t feed d h now : knows t feed d -> t <= now <= century ->
  let d' := read d (h, now) in
  knows now (feed ++ [(h, now)]) d' /\ now - curStart d' < window.
Proof.
  intros Hk Hn. destruct (rotate_knows _ _ _ _ Hk Hn) as (Hk' & Hw & Hl).
  unfold read, seen. rewrite limits_on. cbn [fst snd].
  set (d' := rotate d now limit window) in *. apply (knows_more _ _ _ (h, now)) in Hk' as Hm.
  destruct (cur d' !! h) eqn:Ec; [done|]. destruct (prev d' !! h) eqn:Ep; [done|].
  split; [|done]. destruct Hm as [Hs [Hz1 Hz2] Hc Hp]. split; [done| | |done]; simpl.
  - split; [|done]. rewrite map_size_insert_None by done. lia.
  - intros h' a. rewrite lookup_insert. case_decide as Eh; [|by apply Hc]. intros [= <-].
    subst h'. split; [apply elem_of_app; right; by apply list_elem_of_singleton|lia].
Qed.
Lemma after_knows t feed : timed t feed -> knows t feed (after feed) /\ t <= century.
Proof.
  induction 1 as [|t h now feed _ [IH Ht] Hn]; [split; [apply knows_zero|vm_compute; done]|].
  unfold after. rewrite foldl_app. split; [|lia]. by apply (read_knows t).
Qed.

(** [h], passed as new at [a], is still remembered [k] notifications later. *)
Definition held (d : dupWindow) (h a : Z) (k : nat) : Prop :=
  (is_Some (cur d !! h) /\ a - curStart d < window) \/
  (is_Some (prev d !! h) /\ a <= curStart d /\ (size (cur d) <= k)%nat).
Lemma rotate_held d h a k now : held d h a k -> 0 <= curStart d <= now -> a <= now <= century ->
  now - a < window -> Z.of_nat k < limit -> held (rotate d now limit window) h a k.
Proof.
  intros Hh Hs Hn Hw Hk. unfold rotate. rewrite no_wrap2, no_wrap by lia. destruct Hh as [[Hc Ha]|(Hp & Ha & Hz)].
  - rewrite bool_decide_eq_false_2 by lia. destruct (_ || _); [|by left].
    right. simpl. rewrite map_size_empty. split_and!; [done|lia|lia].
  - rewrite !bool_decide_eq_false_2 by lia. by right.
Qed.
Lemma held_seen d h a k now : held d h a k -> 0 <= curStart d <= now -> a <= now <= century ->
  now - a < window -> Z.of_nat k < limit -> is_Some (seen d h now limit window).2.
Proof.
  intros Hh Hs Hn Hw Hk. apply (rotate_held _ _ _ _ now) in Hh; [|done..]. unfold seen. rewrite limits_on.
  destruct Hh as [[[x Hx] _]|[[x Hx] _]]; rewrite Hx; [by eexists|]. by destruct (cur _ !! _); eexists.
Qed.
Lemma read_held d h a k h' now : held d h a k -> 0 <= curStart d <= now -> a <= now <= century ->
  now - a < window -> Z.of_nat k < limit -> held (read d (h', now)) h a (S k).
Proof.
  intros Hh Hs Hn Hw Hk. apply (rotate_held _ _ _ _ now) in Hh; [|done..].
  unfold read, seen. rewrite limits_on. cbn [fst snd]. set (d' := rotate d now limit window) in *.
  assert (held d' h a (S k)) as Hd by (destruct Hh as [?|(? & ? & ?)]; [by left|right; split_and!; [done|done|lia]]).
  destruct (cur d' !! h') eqn:Ec; [done|]. destruct (prev d' !! h') eqn:Ep; [done|].
  destruct Hh as [[Hc ?]|(? & ? & ?)]; [left; simpl; split; [|done]|right; simpl; split_and!; [done|done|]].
  - rewrite lookup_insert. by case_decide; [eexists|].
  - rewrite map_size_insert_None by done. lia.
Qed.
Lemma timed_inv t l h now : timed t (l ++ [(h, now)]) -> now = t /\ exists t0, timed t0 l /\ t0 <= t <= century.
Proof.
  remember (l ++ [(h, now)]) as feed eqn:E. destruct 1 as [|t0 h0 now0 feed0 H Hn]; [by destruct l|].
  apply app_inj_tail in E as [-> [= -> ->]]. split; [done|by exists t0].
Qed.
Lemma post_held t pre h a post : timed t (pre ++ (h, a) :: post) ->
  (seen (after pre) h a limit window).2 = None -> t - a < window -> Z.of_nat (length post) <= limit ->
  held (after (pre ++ (h, a) :: post)) h a (length post) /\ a <= t.
Proof.
  revert t. induction post as [|[h' now] post IH] using rev_ind; intros t Ht Hnew Hw Hl.
  - destruct (timed_inv _ _ _ _ Ht) as [<- (t0 & Ht0 & Hn)]. split; [|lia]. destruct (after_knows _ _ Ht0) as [Hk _]. unfold after. rewrite foldl_app. cbn [foldl].
    destruct (read_knows _ _ _ h a Hk Hn) as [_ Hlt]. fold (after pre) in *. left. split; [|lia].
    unfold read, seen in *. rewrite limits_on in *. cbn [fst snd] in *.
    destruct (cur _ !! _); [done|]. destruct (prev _ !! _); [done|]. simpl. by rewrite lookup_insert_eq; eexists.
  - change (pre ++ (h, a) :: post ++ [(h', now)]) with (pre ++ ((h, a) :: post) ++ [(h', now)]) in Ht |- *.
    rewrite app_assoc in Ht |- *. rewrite length_app in Hl |- *. simpl in Hl |- *.
    destruct (timed_inv _ _ _ _ Ht) as [<- (t0 & Ht0 & Hn)].
    destruct (IH t0 Ht0 Hnew) as [Hh Ha]; [lia|lia|]. split; [|lia].
    destruct (after_knows _ _ Ht0) as [Hk _]. unfold after. rewrite foldl_app. cbn [foldl].
    rewrite Nat.add_1_r. apply read_held; [done| |lia|lia|lia]. destruct Hk as [Hs _ _ _].
    fold (after (pre ++ (h, a) :: post)). lia.
Qed.

(** What the window calls a repeat is one, with its age, and is less than
    three windows old; a repeat of a notification that was passed as new less
    than a window and [limit] notifications ago is caught; and the two
    generations hold at most [limit] notifications each. *)
Theorem repeats_are_caught t feed h now : timed t feed -> t <= now <= century ->
  let repeat := (seen (after feed) h now limit window).2 in
  (forall gap, repeat = Some gap -> (h, now - gap) ∈ feed /\ 0 <= gap < 3 * window) /\
  (forall pre a post, feed = pre ++ (h, a) :: post -> (seen (after pre) h a limit window).2 = None ->
     now - a < window -> Z.of_nat (length post) < limit -> is_Some repeat) /\
  Z.of_nat (size (cur (after feed))) <= limit /\ Z.of_nat (size (prev (after feed))) <= limit.
Proof.
  intros Ht Hn repeat. destruct (after_knows _ _ Ht) as [Hk Htc]. split_and!; [| |apply (k_sizes _ _ _ Hk)..].
  - intros gap. destruct (rotate_knows _ _ _ _ Hk Hn) as ([Hs Hz Hc Hp] & Hw & _).
    unfold repeat, seen. rewrite limits_on. cbn [snd]. set (d' := rotate _ _ _ _) in *.
    destruct (cur d' !! h) as [a|] eqn:Ec; [|destruct (prev d' !! h) as [a|] eqn:Ep; [|done]]; intros [= <-];
      [apply Hc in Ec as [Hin ?]|apply Hp in Ep as (Hin & ? & ?)]; rewrite no_wrap by lia;
      (split; [by replace (now - (now - a)) with a by lia|lia]).
  - intros pre a post -> Hnew Hw Hl. destruct (post_held _ _ _ _ _ Ht Hnew) as [Hh Ha]; [lia|lia|].
    eapply held_seen; [exact Hh| |lia|lia|lia]. pose proof (k_start _ _ _ Hk). lia.
Qed.
End Feed.

(** ** The window turned off

    Meant to leave the last four to eight notifications; twice [1 << 62]
    nanoseconds wraps to the least int64, so every generation is past both
    windows and is cleared, and no repeat is caught. *)
Lemma window_off_catches_nothing d h now limit window : window <= 0 ->
  seen d h now limit window = (mkWindow {[h := now]} ∅ now, None).
Proof.
  intros Hw. unfold seen, limits. rewrite bool_decide_eq_true_2 by done. unfold rotate.
  rewrite bool_decide_eq_true_2; [simpl; by rewrite !lookup_empty|].
  change (i64 (2 * 2 ^ 62)) with (- 2 ^ 63). unfold i64. pose proof (Z.mod_pos_bound (now - curStart d + 2 ^ 63) (2 ^ 64)). lia.
Qed.
(** A repeat 58 seconds after the first copy is caught in a window of 20. *)
Lemma window_spans_three :
  let d := after 8192 (20 * second) [(1, 100 * second); (2, 139 * second)] in
  (seen d 1 (158 * second) 8192 (20 * second)).2 = Some (58 * second).
Proof. vm_compute. reflexivity. Qed.

Lemma repeats_are_caught_witness :
  is_Some (seen (after 4 (20 * second) [(1, 5 * second); (2, 9 * second)]) 1 (24 * second) 4 (20 * second)).2.
Proof.
  assert (timed (9 * second) [(1, 5 * second); (2, 9 * second)]) as Ht.
  { apply (timed_snoc (5 * second) 2 _ [(1, 5 * second)]); [apply (timed_snoc 0 1 _ [] timed_nil)|]; split; vm_compute; done. }
  destruct (repeats_are_caught 4 (20 * second) ltac:(lia) ltac:(split; vm_compute; done) (9 * second)
    [(1, 5 * second); (2, 9 * second)] 1 (24 * second) Ht ltac:(split; vm_compute; done)) as (_ & H & _).
  apply (H [] (5 * second) [(2, 9 * second)]); [reflexivity|vm_compute; reflexivity|vm_compute; done|vm_compute; done].
Defined.
End DupWindow.
