(* ===== verification/Subscription.v ===== *)
(** * Subscription: the subscriptions of one WebSocket connection

    Models [qos/subscription.go] with the classifiers of [qos/evm/subscriptions.go]
    and [qos/solana/subscriptions.go].  A frame is its bytes.  A method runs under
    the registry's mutex, so a call is one step, with one reading of the clock;
    the frames a handler is given are arbitrary.  What [gjson] reads, the seeded
    hash and the order in which Go ranges over a map are parameters. *)

From Stdlib Require Import Ascii.
From stdpp Require Import strings gmap sorting pretty.
From S2P Require Import Prelude Domain Text Strconv RelayErrors Heuristic Stages EvmRequest DupWindow.
Import GoStrings EvmRequest DupWindow.

Module Subscription.

Inductive SubscriptionAction := SubscriptionNone | SubscriptionSubscribe | SubscriptionUnsubscribe | SubscriptionUnsubscribeAll.
Record Span := mkSpan { Index : Z; Len : Z }.
Inductive SubscribeFeed := FeedNone | FeedPendingTransactions | FeedAllLogs.
Record ClientFrameInfo := mkClientInfo {
  Action : SubscriptionAction; cRequestID : string; cMethod : string; cTopic : string; cPeriodic : bool;
  cSubscriptionID : string; cSubscriptionIDSpan : Span; Feed_ : SubscribeFeed
}.
Inductive EndpointFrameKind := EndpointFrameOther | EndpointFrameResponse | EndpointFrameNotification.
Record EndpointFrameInfo := mkEndpointInfo {
  Kind : EndpointFrameKind; RequestID : string; SubscriptionID : string; SubscriptionIDSpan : Span; IsError : bool
}.
Record Classifier := mkClassifier {
  ClassifyClientFrame : string -> ClientFrameInfo; ClassifyEndpointFrame : string -> EndpointFrameInfo
}.
Definition noSpan : Span := mkSpan 0 0.
Definition noClientInfo : ClientFrameInfo := mkClientInfo SubscriptionNone "" "" "" false "" noSpan FeedNone.
Definition noEndpointInfo : EndpointFrameInfo := mkEndpointInfo EndpointFrameOther "" "" noSpan false.

Record Subscription := mkSubscription {
  ID : string; EndpointID : string; Method : string; Topic : string; Periodic : bool; Request : string; Since : Z
}.
Definition maxTrackedSubscriptions : Z := 1024.
Definition maxInflightRequests : Z := 256.
Definition maxInflightBytes : Z := 256 * 1024.
Definition maxClosedIDs : Z := 64.
Record inflightRequest := mkInflight { frame : string; sent : Z }.
Record pendingSubscription := mkPending { pmethod : string; ptopic : string; pperiodic : bool; prequest : string }.

Inductive NotificationKind := NotificationNone | NotificationOK | NotificationDuplicate | NotificationUnsolicited.
Definition AckOK : string := "ok".
Definition AckError : string := "error".
Record Notification := mkNote { nKind : NotificationKind; nTopic : string; Gap : Z; Ack : string }.
Definition noNote : Notification := mkNote NotificationNone "" 0 "".
Definition ackOf (info : EndpointFrameInfo) : string :=
  if IsError info || bool_decide (SubscriptionID info = "") then AckError else AckOK.

(** ** The registry *)
Record Registry := mkRegistry {
  pending : gmap string (list pendingSubscription); npending : Z;
  active : gmap string Subscription; lastPeriodic : Z; dropped : Z;
  toClient : gmap string string; replay : gmap string string; replays : Z; orphaned : gset string;
  recent : gmap string dupWindow; dupAge : Z; dupBudget : Z; dupReadAt : Z; closed : gset string;
  inflight : gmap string inflightRequest; inflightBytes : Z; reissue : list string
}.
Definition NewSubscriptionRegistry : Registry :=
  mkRegistry ∅ 0 ∅ GoTime.zero 0 ∅ ∅ 0 ∅ ∅ DefaultDuplicateWindow DefaultDuplicateBudget 0 ∅ ∅ 0 [].

Definition set_pending (r : Registry) p n := mkRegistry p n (active r) (lastPeriodic r) (dropped r) (toClient r) (replay r)
  (replays r) (orphaned r) (recent r) (dupAge r) (dupBudget r) (dupReadAt r) (closed r) (inflight r) (inflightBytes r) (reissue r).
Definition set_active (r : Registry) a := mkRegistry (pending r) (npending r) a (lastPeriodic r) (dropped r) (toClient r) (replay r)
  (replays r) (orphaned r) (recent r) (dupAge r) (dupBudget r) (dupReadAt r) (closed r) (inflight r) (inflightBytes r) (reissue r).
Definition set_last (r : Registry) t := mkRegistry (pending r) (npending r) (active r) t (dropped r) (toClient r) (replay r)
  (replays r) (orphaned r) (recent r) (dupAge r) (dupBudget r) (dupReadAt r) (closed r) (inflight r) (inflightBytes r) (reissue r).
Definition drop_ (r : Registry) := mkRegistry (pending r) (npending r) (active r) (lastPeriodic r) (dropped r + 1) (toClient r) (replay r)
  (replays r) (orphaned r) (recent r) (dupAge r) (dupBudget r) (dupReadAt r) (closed r) (inflight r) (inflightBytes r) (reissue r).
Definition set_toClient (r : Registry) m := mkRegistry (pending r) (npending r) (active r) (lastPeriodic r) (dropped r) m (replay r)
  (replays r) (orphaned r) (recent r) (dupAge r) (dupBudget r) (dupReadAt r) (closed r) (inflight r) (inflightBytes r) (reissue r).
Definition set_replay (r : Registry) m n := mkRegistry (pending r) (npending r) (active r) (lastPeriodic r) (dropped r) (toClient r) m
  n (orphaned r) (recent r) (dupAge r) (dupBudget r) (dupReadAt r) (closed r) (inflight r) (inflightBytes r) (reissue r).
Definition set_orphaned (r : Registry) o := mkRegistry (pending r) (npending r) (active r) (lastPeriodic r) (dropped r) (toClient r) (replay r)
  (replays r) o (recent r) (dupAge r) (dupBudget r) (dupReadAt r) (closed r) (inflight r) (inflightBytes r) (reissue r).
Definition set_recent (r : Registry) w := mkRegistry (pending r) (npending r) (active r) (lastPeriodic r) (dropped r) (toClient r) (replay r)
  (replays r) (orphaned r) w (dupAge r) (dupBudget r) (dupReadAt r) (closed r) (inflight r) (inflightBytes r) (reissue r).
Definition set_limits (r : Registry) age budget at_ := mkRegistry (pending r) (npending r) (active r) (lastPeriodic r) (dropped r) (toClient r)
  (replay r) (replays r) (orphaned r) (recent r) age budget at_ (closed r) (inflight r) (inflightBytes r) (reissue r).
Definition set_closed (r : Registry) c := mkRegistry (pending r) (npending r) (active r) (lastPeriodic r) (dropped r) (toClient r) (replay r)
  (replays r) (orphaned r) (recent r) (dupAge r) (dupBudget r) (dupReadAt r) c (inflight r) (inflightBytes r) (reissue r).
Definition set_inflight (r : Registry) m n := mkRegistry (pending r) (npending r) (active r) (lastPeriodic r) (dropped r) (toClient r) (replay r)
  (replays r) (orphaned r) (recent r) (dupAge r) (dupBudget r) (dupReadAt r) (closed r) m n (reissue r).
Definition set_reissue (r : Registry) l := mkRegistry (pending r) (npending r) (active r) (lastPeriodic r) (dropped r) (toClient r) (replay r)
  (replays r) (orphaned r) (recent r) (dupAge r) (dupBudget r) (dupReadAt r) (closed r) (inflight r) (inflightBytes r) l.

Definition len (s : string) : Z := Z.of_nat (String.length s).
Definition spliceSpan (data : string) (span : Span) (raw : string) : string :=
  if bool_decide (Len span <= 0) || bool_decide (Index span < 0) || bool_decide (len data < Index span + Len span) then data
  else upto (Z.to_nat (Index span)) data +:+ (raw +:+ from (Z.to_nat (Index span + Len span)) data).
Definition isJSONArray (data : string) : bool := String.prefix "[" (trimLeft data).

(** ** Requests in flight *)
Definition answered (r : Registry) (id : string) : Registry :=
  match inflight r !! id with
  | Some req => set_inflight r (delete id (inflight r)) (inflightBytes r - len (frame req))
  | None => r
  end.
Definition topicOf (r : Registry) (clientID : string) : string :=
  match active r !! clientID with Some sub => Topic sub | None => "" end.
Definition periodicOf (r : Registry) (clientID : string) : bool :=
  match active r !! clientID with Some sub => Periodic sub | None => false end.
Definition touch (r : Registry) (clientID : string) (now : Z) : Registry :=
  if periodicOf r clientID then set_last r now else r.
Definition markClosed (r : Registry) (endpointID : string) : Registry :=
  set_closed r ({[endpointID]} ∪ if bool_decide (maxClosedIDs <= Z.of_nat (size (closed r))) then ∅ else closed r).
Definition forget (r : Registry) (sub : Subscription) : Registry :=
  let r := set_recent (set_active r (delete (ID sub) (active r))) (delete (ID sub) (recent r)) in
  let r := markClosed r (EndpointID sub) in
  if bool_decide (EndpointID sub <> ID sub) then set_toClient r (delete (EndpointID sub) (toClient r)) else r.

Definition rebound (sub : Subscription) (id : string) : Subscription :=
  mkSubscription (ID sub) id (Method sub) (Topic sub) (Periodic sub) (Request sub) (Since sub).
Definition completeReplay (r : Registry) (clientID : string) (info : EndpointFrameInfo) (now : Z) : Registry :=
  match active r !! clientID with
  | None =>
      if negb (IsError info) && bool_decide (SubscriptionID info <> "") then
        set_orphaned r ({[SubscriptionID info]} ∪ if bool_decide (maxClosedIDs <= Z.of_nat (size (orphaned r))) then ∅ else orphaned r)
      else r
  | Some sub =>
      if IsError info || bool_decide (SubscriptionID info = "") then forget r sub
      else
        let r := if bool_decide (EndpointID sub <> ID sub) then set_toClient r (delete (EndpointID sub) (toClient r)) else r in
        let sub := rebound sub (SubscriptionID info) in
        let r := if bool_decide (EndpointID sub <> ID sub) then set_toClient r (<[EndpointID sub := ID sub]> (toClient r)) else r in
        let r := set_active r (<[clientID := sub]> (active r)) in
        let r := set_recent r (delete clientID (recent r)) in
        if Periodic sub then set_last r now else r
  end.

Section Registry.
Context (g : Heuristic.Gjson) (vs : Values g) (indexOf : Heuristic.Result g -> Z).
Context (classifier : option Classifier) (hash : string -> Z).
(** What [dupLimits] answers when it is asked, if one is set. *)
Context (dupLimits : option (Z * Z)).
(** Ranging over a map: any order of its entries. *)
Context (range : forall A : Type, list A -> list A).
#[local] Arguments range {A} _.

(** ** JSON-RPC helpers *)
Definition JSONRPCRequestID (data : string) : string :=
  let id := GetBytes g data "id" in
  if negb (Heuristic.Exists g id) || isNull g id then "" else Raw vs id.
Definition JSONRPCMethod (data : string) : string := Heuristic.StringOf g (GetBytes g data "method").
Definition JSONRPCHasError (data : string) : bool :=
  let e := GetBytes g data "error" in Heuristic.Exists g e && negb (isNull g e).
Definition SpanOf (res : Heuristic.Result g) : Span :=
  if negb (Heuristic.Exists g res) || (bool_decide (indexOf res <= 0) && bool_decide (Raw vs res = "")) then noSpan
  else mkSpan (indexOf res) (len (Raw vs res)).
Definition rawScalar (res : Heuristic.Result g) : string :=
  match Heuristic.Type_ g res with Heuristic.String_ | Heuristic.Number => Raw vs res | _ => "" end.
Definition JSONRPCRequestIDSpan (data : string) : Span := SpanOf (GetBytes g data "id").
Definition JSONRPCResultScalar (data : string) : string := rawScalar (GetBytes g data "result").
Definition JSONRPCPath (data path : string) : string * Span :=
  let p := GetBytes g data path in (rawScalar p, SpanOf p).
Definition JSONRPCEndpointFrame (data : string) (isNotification : string -> bool) : EndpointFrameInfo :=
  if isNotification (JSONRPCMethod data) then
    let '(id, span) := JSONRPCPath data "params.subscription" in
    mkEndpointInfo EndpointFrameNotification "" id span false
  else
    let id := JSONRPCRequestID data in
    if bool_decide (id = "") then noEndpointInfo
    else mkEndpointInfo EndpointFrameResponse id (JSONRPCResultScalar data) noSpan (JSONRPCHasError data).

(** ** Client frames *)
Definition track (r : Registry) (data : string) (now : Z) : Registry :=
  let id := JSONRPCRequestID data in
  if bool_decide (id = "") then r
  else
    let r := answered r id in
    if bool_decide (maxInflightRequests <= Z.of_nat (size (inflight r))) ||
       bool_decide (maxInflightBytes < inflightBytes r + len data) then r
    else set_inflight r (<[id := mkInflight data now]> (inflight r)) (inflightBytes r + len data).
Definition closeAll (r : Registry) : Registry :=
  let r := foldl markClosed r (EndpointID <$> (range (map_to_list (active r))).*2) in
  set_recent (set_toClient (set_active r ∅) ∅) ∅.
Definition translateClientFrame1 (c : Classifier) (r : Registry) (data : string) (tracked : bool) (now : Z) : Registry * string :=
  let info := ClassifyClientFrame c data in
  match Action info with
  | SubscriptionNone => (if tracked then track r data now else r, data)
  | SubscriptionSubscribe =>
      if bool_decide (cRequestID info = "") then (r, data)
      else if bool_decide (is_Some (replay r !! cRequestID info)) then (r, data)
      else if bool_decide (maxTrackedSubscriptions <= npending r) then (drop_ r, data)
      else
        let queue := default [] (pending r !! cRequestID info) in
        (set_pending r (<[cRequestID info := queue ++ [mkPending (cMethod info) (cTopic info) (cPeriodic info) data]]> (pending r))
           (npending r + 1), data)
  | SubscriptionUnsubscribe =>
      match active r !! cSubscriptionID info with
      | None => (r, data)
      | Some sub =>
          (forget r sub, if bool_decide (EndpointID sub <> ID sub)
                         then spliceSpan data (cSubscriptionIDSpan info) (EndpointID sub) else data)
      end
  | SubscriptionUnsubscribeAll => (closeAll r, data)
  end.
Definition frames (data : string) : list string := Raw vs <$> Heuristic.members g (Heuristic.ParseBytes g data).
Definition TranslateClientFrame (r : Registry) (data : string) (now : Z) : Registry * string :=
  match classifier with
  | None => (r, data)
  | Some c =>
      if isJSONArray data then (foldl (λ r m, (translateClientFrame1 c r m false now).1) r (frames data), data)
      else translateClientFrame1 c r data true now
  end.

(** ** Endpoint frames: [None] is a frame that is not forwarded *)
Definition readLimits (r : Registry) (now : Z) : Registry :=
  match dupLimits with
  | Some (age, budget) =>
      if bool_decide (second <= i64 (now - dupReadAt r)) then set_limits r age budget now else r
  | None => r
  end.
Definition shareOf (r : Registry) : Z :=
  Z.max 1 (Z.min dupGeneration (Z.quot (dupBudget r) (Z.max 1 (Z.of_nat (size (active r)))))).
Definition grade (r : Registry) (clientID data : string) (now : Z) : Registry * Notification :=
  let topic := topicOf r clientID in
  let w := default zeroWindow (recent r !! clientID) in
  let r := readLimits r now in
  let '(w, repeat) := seen w (hash data) now (shareOf r) (dupAge r) in
  (set_recent r (<[clientID := w]> (recent r)),
   match repeat with
   | Some gap => mkNote NotificationDuplicate topic gap ""
   | None => mkNote NotificationOK topic 0 ""
   end).
Definition pop (r : Registry) (id : string) (queue : list pendingSubscription) : Registry :=
  set_pending r (match queue with [] => delete id (pending r) | _ => <[id := queue]> (pending r) end) (npending r - 1).
Definition opened (p : pendingSubscription) (id : string) (now : Z) : Subscription :=
  mkSubscription id id (pmethod p) (ptopic p) (pperiodic p) (prequest p) now.
Definition onResponse (r : Registry) (info : EndpointFrameInfo) (data : string) (now : Z)
    : Registry * option string * Notification :=
  let r := answered r (RequestID info) in
  match replay r !! RequestID info with
  | Some clientID =>
      let r := set_replay r (delete (RequestID info) (replay r)) (replays r) in
      let note := mkNote NotificationNone (topicOf r clientID) 0 (ackOf info) in
      (completeReplay r clientID info now, None, note)
  | None =>
      match default [] (pending r !! RequestID info) with
      | [] => (r, Some data, noNote)
      | p :: queue =>
          let r := pop r (RequestID info) queue in
          let note := mkNote NotificationNone (ptopic p) 0 (ackOf info) in
          if IsError info || bool_decide (SubscriptionID info = "") then (r, Some data, note)
          else if bool_decide (maxTrackedSubscriptions <= Z.of_nat (size (active r))) then (drop_ r, Some data, note)
          else
            let r := set_active r (<[SubscriptionID info := opened p (SubscriptionID info) now]> (active r)) in
            let r := set_closed r (closed r ∖ {[SubscriptionID info]}) in
            (if pperiodic p then set_last r now else r, Some data, note)
      end
  end.
Definition live (r : Registry) (id : string) : bool :=
  match active r !! id with Some sub => bool_decide (EndpointID sub = ID sub) | None => false end.
Definition onNotification (r : Registry) (info : EndpointFrameInfo) (data : string) (now : Z)
    : Registry * option string * Notification :=
  let id := SubscriptionID info in
  match toClient r !! id with
  | Some clientID =>
      let '(r, note) := grade (touch r clientID now) clientID data now in
      (r, Some (spliceSpan data (SubscriptionIDSpan info) clientID), note)
  | None =>
      if live r id then let '(r, note) := grade (touch r id now) id data now in (r, Some data, note)
      else if bool_decide (id ∈ orphaned r) then (r, None, noNote)
      else if bool_decide (id ∈ closed r) || bool_decide (0 < dropped r) then (r, Some data, noNote)
      else (r, Some data, mkNote NotificationUnsolicited "" 0 "")
  end.
Definition translateEndpointFrame1 (c : Classifier) (r : Registry) (data : string) (now : Z)
    : Registry * option string * Notification :=
  let info := ClassifyEndpointFrame c data in
  match Kind info with
  | EndpointFrameOther => (r, Some data, noNote)
  | EndpointFrameResponse => onResponse r info data now
  | EndpointFrameNotification => onNotification r info data now
  end.
Definition TranslateEndpointFrame (r : Registry) (data : string) (now : Z) : Registry * option string * Notification :=
  match classifier with
  | None => (r, Some data, noNote)
  | Some c =>
      if isJSONArray data then (foldl (λ r m, (translateEndpointFrame1 c r m now).1.1) r (frames data), Some data, noNote)
      else translateEndpointFrame1 c r data now
  end.

(** ** Rebinds *)
Record Replay := mkReplay { Frames : list string; Lost : Z; Abandoned : list string }.
Definition replayID (n : Z) : string := inQuotes ("sage-replay-" +:+ RelayErrors.FormatInt n).
Definition replayOne (now : Z) (acc : Registry * list string) (entry : string * Subscription) : Registry * list string :=
  let '(r, out) := acc in
  let '(clientID, sub) := entry in
  let span := JSONRPCRequestIDSpan (Request sub) in
  if bool_decide (Len span = 0) then (r, out)
  else
    let n := replays r + 1 in
    let r := set_replay r (<[replayID n := clientID]> (replay r)) n in
    (if Periodic sub then set_last r now else r, out ++ [spliceSpan (Request sub) span (replayID n)]).
Definition sentBefore (a b : inflightRequest) : Prop := sent a <= sent b.
#[export] Instance sentBefore_dec a b : Decision (sentBefore a b) := Z_le_dec _ _.
Definition isWrite (req : inflightRequest) : bool := Stages.IsWriteMethod (JSONRPCMethod (frame req)).
Definition unanswered (r : Registry) : list string := prequest <$> concat ((range (map_to_list (pending r))).*2).
Definition ReplayNow (r : Registry) (now : Z) : Registry * Replay :=
  match classifier with
  | None => (r, mkReplay [] 0 [])
  | Some _ =>
      let '(r1, subs) := foldl (replayOne now) (r, []) (range (map_to_list (active r))) in
      let lost := merge_sort sentBefore ((range (map_to_list (inflight r))).*2) in
      let again := filter (λ q, isWrite q = false) lost in
      (set_inflight (set_reissue (set_pending r1 ∅ 0) []) ∅ 0,
       mkReplay (subs ++ unanswered r ++ reissue r ++ (frame <$> again)) (Z.of_nat (length again))
         (frame <$> filter (λ q, isWrite q = true) lost))
  end.
Definition OldestInFlight (r : Registry) : Z :=
  foldl (λ oldest req, if GoTime.IsZero oldest || GoTime.Before (sent req) oldest then sent req else oldest)
    GoTime.zero ((range (map_to_list (inflight r))).*2).
Definition Reissue (r : Registry) (data : string) : Registry * bool :=
  match classifier with
  | None => (r, false)
  | Some _ =>
      let id := JSONRPCRequestID data in
      if bool_decide (id = "") then (r, false)
      else match inflight r !! id with
           | None => (r, false)
           | Some req => let r := answered r id in (set_reissue r (reissue r ++ [frame req]), true)
           end
  end.
Definition InFlight (r : Registry) (answer : string) : option inflightRequest :=
  match classifier with
  | None => None
  | Some _ => let id := JSONRPCRequestID answer in if bool_decide (id = "") then None else inflight r !! id
  end.

(** ** Views *)
Definition Subscribes (r : Registry) : list string :=
  (Request <$> (range (map_to_list (active r))).*2) ++ unanswered r.
Definition Active (r : Registry) : list Subscription := (range (map_to_list (active r))).*2.
Definition Heartbeat (r : Registry) : option Z :=
  if existsb Periodic ((map_to_list (active r)).*2) then Some (lastPeriodic r) else None.
Definition DuplicateEntries (r : Registry) : Z :=
  foldl (λ n w, n + Z.of_nat (size (cur w)) + Z.of_nat (size (prev w))) 0 ((map_to_list (recent r)).*2).
Definition Dropped (r : Registry) : Z := dropped r.
End Registry.

(** ** Sums over a map *)
Section Total.
Context {A : Type} (f : A -> Z).
Definition total (m : gmap string A) : Z := map_fold (λ _ x n, f x + n) 0 m.
Lemma total_new m k x : m !! k = None -> total (<[k := x]> m) = f x + total m.
Proof. intros H. unfold total. rewrite map_fold_insert_L; [done|intros; lia|done]. Qed.
Lemma total_delete m k x : m !! k = Some x -> total m = f x + total (delete k m).
Proof. intros H. rewrite <- (insert_delete_id m k x H) at 1. rewrite total_new; [done|apply lookup_delete_eq]. Qed.
Lemma total_set m k x : total (<[k := x]> m) = f x - from_option f 0 (m !! k) + total m.
Proof.
  destruct (m !! k) as [y|] eqn:E; simpl; [|rewrite total_new by done; lia].
  rewrite <- insert_delete_eq, total_new by apply lookup_delete_eq. rewrite (total_delete m k y E). lia.
Qed.
Lemma total_empty : total ∅ = 0.
Proof. apply map_fold_empty. Qed.
Lemma sum_perm (l l' : list A) : l ≡ₚ l' -> foldr (λ x n, f x + n) 0 l = foldr (λ x n, f x + n) 0 l'.
Proof. induction 1; simpl; lia. Qed.
Lemma sum_filter (P : string * A -> Prop) `{!forall x, Decision (P x)} (l : list (string * A)) : (forall x, 0 <= f x) ->
  foldr (λ x n, f x + n) 0 (filter P l).*2 <= foldr (λ x n, f x + n) 0 l.*2.
Proof.
  intros Hf. induction l as [|[k x] l IH]; [done|]. rewrite filter_cons. specialize (Hf x).
  case_decide; cbn [fmap list_fmap foldr snd]; lia.
Qed.
Lemma total_list m : total m = foldr (λ x n, f x + n) 0 (map_to_list m).*2.
Proof.
  unfold total. rewrite map_fold_foldr. induction (map_to_list m) as [|[k x] l IH]; simpl; [done|]. by rewrite IH.
Qed.
End Total.

(** ** Soundness

    What holds in every state of every connection, whatever frames cross it. *)
Section Facts.
Context (g : Heuristic.Gjson) (vs : Values g) (indexOf : Heuristic.Result g -> Z).
Context (c : Classifier) (hash : string -> Z).
Context (range : forall A : Type, list A -> list A).
#[local] Abbreviation client := (TranslateClientFrame g vs (Some c) range).
#[local] Abbreviation endpoint := (TranslateEndpointFrame g vs (Some c) hash).
#[local] Abbreviation rebind := (ReplayNow g vs indexOf (Some c) range).
#[local] Abbreviation again := (Reissue g vs (Some c)).

Inductive step (r : Registry) : Registry -> Prop :=
| ClientFrame data now : step r (client r data now).1
| EndpointFrame limits data now : step r (endpoint limits r data now).1.1
| Rebind now : step r (rebind r now).1
| Again data : step r (again r data).1.
Definition connection (r : Registry) : Prop := rtc step NewSubscriptionRegistry r.

(** A subscribe remembered under [id] is one the client sent with that id. *)
Definition asked (id : string) (p : pendingSubscription) : Prop :=
  let info := ClassifyClientFrame c (prequest p) in
  Action info = SubscriptionSubscribe /\ cRequestID info = id /\ id <> "" /\
  pmethod p = cMethod info /\ ptopic p = cTopic info /\ pperiodic p = cPeriodic info.
Definition pending_ok (m : gmap string (list pendingSubscription)) (n : Z) : Prop :=
  n = total (λ q, Z.of_nat (length q)) m /\ n <= maxTrackedSubscriptions /\
  map_Forall (λ id q, q <> [] /\ Forall (asked id) q) m.
Definition active_ok (m : gmap string Subscription) : Prop :=
  Z.of_nat (size m) <= maxTrackedSubscriptions /\
  map_Forall (λ id s, ID s = id /\ exists k p, asked k p /\ prequest p = Request s /\ pperiodic p = Periodic s) m.
Definition sent_as (id : string) (q : inflightRequest) : Prop :=
  JSONRPCRequestID g vs (frame q) = id /\ id <> "" /\
  Action (ClassifyClientFrame c (frame q)) = SubscriptionNone /\ isJSONArray (frame q) = false.
Definition inflight_ok (m : gmap string inflightRequest) (n : Z) : Prop :=
  n = total (λ q, len (frame q)) m /\ n <= maxInflightBytes /\ Z.of_nat (size m) <= maxInflightRequests /\ map_Forall sent_as m.
Definition replay_ok (m : gmap string string) (n : Z) : Prop :=
  0 <= n /\ map_Forall (λ raw _, exists k, raw = replayID k /\ 1 <= k <= n) m.
Record sound (r : Registry) : Prop := {
  s_pending : pending_ok (pending r) (npending r);
  s_active : active_ok (active r);
  s_inflight : inflight_ok (inflight r) (inflightBytes r);
  s_replay : replay_ok (replay r) (replays r);
  s_closed : Z.of_nat (size (closed r)) <= maxClosedIDs;
  s_orphaned : Z.of_nat (size (orphaned r)) <= maxClosedIDs;
  s_dropped : 0 <= dropped r
}.
Hint Constructors sound : core.

Lemma sound_new : sound NewSubscriptionRegistry.
Proof.
  split; vm_compute; done.
Qed.

Lemma answered_sound r id : sound r -> sound (answered r id).
Proof.
  intros [Hp Ha Hi Hr Hc Ho Hd]. unfold answered. destruct (inflight r !! id) as [q|] eqn:E; [|done].
  split; [done|done| |done..]. simpl. destruct Hi as (H1 & H2 & H3 & H4). rewrite (total_delete _ _ _ _ E) in H1.
  assert (0 <= len (frame q)) by (unfold len; lia). pose proof (map_size_delete id (inflight r)) as Hs. rewrite E in Hs.
  split_and!; [lia|lia| |by apply map_Forall_delete]. rewrite Hs. lia.
Qed.
Lemma size_capped (x : string) (s : gset string) :
  Z.of_nat (size s) <= maxClosedIDs ->
  Z.of_nat (size ({[x]} ∪ (if bool_decide (maxClosedIDs <= Z.of_nat (size s)) then ∅ else s))) <= maxClosedIDs.
Proof.
  intros Hs. case_bool_decide; [rewrite union_empty_r_L, size_singleton; vm_compute; done|].
  pose proof (size_union_alt {[x]} s) as H'. rewrite size_singleton in H'.
  pose proof (subseteq_size (s ∖ {[x]}) s ltac:(set_solver)). lia.
Qed.
Lemma markClosed_sound r e : sound r -> sound (markClosed r e).
Proof. intros [Hp Ha Hi Hr Hc Ho Hd]. split; try done. by apply size_capped. Qed.
Lemma active_delete m k : active_ok m -> active_ok (delete k m).
Proof.
  intros [Hs Hm]. split; [|by apply map_Forall_delete].
  rewrite map_size_delete. destruct (m !! k); simpl; lia.
Qed.
Lemma forget_sound r sub : sound r -> sound (forget r sub).
Proof.
  intros Hr. unfold forget. set (r1 := set_recent _ _).
  assert (sound r1) as H1 by (destruct Hr; split; try done; by apply active_delete).
  apply (markClosed_sound _ (EndpointID sub)) in H1. case_bool_decide; [by destruct H1; split|done].
Qed.
Lemma completeReplay_sound r k info now : sound r -> sound (completeReplay r k info now).
Proof.
  intros Hr. unfold completeReplay. destruct (active r !! k) as [sub|] eqn:Ea.
  - destruct (_ || _); [by apply forget_sound|].
    assert (active_ok (<[k := rebound sub (SubscriptionID info)]> (active r))) as Hok.
    { destruct Hr as [_ [Hs Hm] _ _ _ _ _]. split; [by rewrite map_size_insert_Some by (by rewrite Ea)|].
      apply map_Forall_insert_2; [|done]. by apply (Hm k sub Ea). }
    destruct (Periodic _); repeat case_bool_decide; destruct Hr; by split.
  - destruct (_ && _); [|done]. destruct Hr. split; try done. by apply size_capped.
Qed.
Lemma touch_sound r k now : sound r -> sound (touch r k now).
Proof. unfold touch. destruct (periodicOf _ _); [|done]. intros []. by split. Qed.
Lemma grade_sound limits r k data now : sound r -> sound (grade hash limits r k data now).1.
Proof.
  intros Hr. unfold grade. assert (sound (readLimits limits r now)) as H1.
  { unfold readLimits. destruct limits as [[? ?]|]; [|done]. case_bool_decide; [|done]. destruct Hr. by split. }
  destruct (seen _ _ _ _ _) as [w o]. simpl. destruct H1. by split.
Qed.
Lemma track_sound r data now : Action (ClassifyClientFrame c data) = SubscriptionNone -> isJSONArray data = false ->
  sound r -> sound (track g vs r data now).
Proof.
  intros Hn Ha Hr. unfold track. case_bool_decide as Eid; [done|]. set (id := JSONRPCRequestID g vs data) in *.
  pose proof (answered_sound r id Hr) as H1. assert (inflight (answered r id) !! id = None) as Hnew.
  { unfold answered. destruct (inflight r !! id) eqn:E; [simpl; apply lookup_delete_eq|done]. }
  destruct (bool_decide (maxInflightRequests <= _) || _) eqn:E; [done|].
  apply orb_false_iff in E as [E1%bool_decide_eq_false E2%bool_decide_eq_false].
  destruct H1 as [Hp Hc Hi Hrp Hcl Ho Hd]. split; [done|done| |done..]. simpl. destruct Hi as (H1 & H2 & H3 & H4).
  split_and!; [rewrite total_new by done; simpl; lia|lia|rewrite map_size_insert_None by done; lia|].
  by apply map_Forall_insert_2.
Qed.
Lemma foldl_markClosed_sound l r : sound r -> sound (foldl markClosed r l).
Proof. revert r. induction l as [|e l IH]; intros r Hr; [done|]. simpl. by apply IH, markClosed_sound. Qed.
Lemma closeAll_sound r : sound r -> sound (closeAll range r).
Proof.
  intros Hr. unfold closeAll. set (l := EndpointID <$> _). pose proof (foldl_markClosed_sound l r Hr) as H1.
  destruct H1. by split.
Qed.
Lemma pending_push m n id p : pending_ok m n -> n < maxTrackedSubscriptions -> asked id p ->
  pending_ok (<[id := default [] (m !! id) ++ [p]]> m) (n + 1).
Proof.
  intros (Hn & Hle & Hm) Hlt Hp. split_and!; [|lia|].
  - rewrite total_set. rewrite length_app. destruct (m !! id) as [q|] eqn:E; simpl; lia.
  - apply map_Forall_insert_2; [|done]. split; [by destruct (default _ _)|]. apply Forall_app. split; [|by constructor].
    destruct (m !! id) as [q|] eqn:E; simpl; [by apply (Hm _ _ E)|done].
Qed.
Lemma client1_sound r data tracked now : (tracked = true -> isJSONArray data = false) ->
  sound r -> sound (translateClientFrame1 g vs range c r data tracked now).1.
Proof.
  intros Ht Hr. unfold translateClientFrame1. destruct (Action _) eqn:Ea; simpl.
  - destruct tracked; [|done]. by apply track_sound; [|apply Ht|].
  - case_bool_decide as E1; [done|]. case_bool_decide; [done|]. case_bool_decide as E3; [destruct Hr; split; try done; simpl; lia|].
    destruct Hr. split; try done. simpl. apply pending_push; [done|lia|]. by split_and!.
  - destruct (active r !! _) as [sub|]; [by apply forget_sound|done].
  - by apply closeAll_sound.
Qed.
Lemma client_sound r data now : sound r -> sound (client r data now).1.
Proof.
  intros Hr. unfold TranslateClientFrame. destruct (isJSONArray data) eqn:Ej; [|by apply client1_sound]. simpl.
  revert r Hr. induction (frames g vs data) as [|m l IH]; intros r Hr; [done|]. simpl. by apply IH, client1_sound.
Qed.
Lemma pending_pop m n id p q : pending_ok m n -> m !! id = Some (p :: q) ->
  pending_ok (match q with [] => delete id m | _ => <[id := q]> m end) (n - 1) /\ asked id p.
Proof.
  intros (Hn & Hle & Hm) Hq. destruct (Hm _ _ Hq) as [_ [Hp Hall]%Forall_cons]. split; [|done]. destruct q as [|p' q].
  - rewrite (total_delete _ _ _ _ Hq) in Hn. simpl in Hn. split_and!; [lia|lia|by apply map_Forall_delete].
  - split_and!; [rewrite total_set, Hq; simpl in *; lia|lia|]. by apply map_Forall_insert_2.
Qed.
Lemma active_open m id k p now : active_ok m -> Z.of_nat (size m) < maxTrackedSubscriptions -> asked k p ->
  active_ok (<[id := opened p id now]> m).
Proof.
  intros [Hs Hm] Hlt Hp. split; [rewrite map_size_insert; destruct (m !! id); simpl; lia|].
  apply map_Forall_insert_2; [|done]. split; [done|]. by exists k, p.
Qed.
Lemma onResponse_sound r info data now : sound r -> sound (onResponse r info data now).1.1.
Proof.
  intros Hr. unfold onResponse. apply (answered_sound r (RequestID info)) in Hr.
  set (r1 := answered r (RequestID info)) in *. destruct (replay r1 !! RequestID info) as [k|] eqn:Er; simpl.
  { apply completeReplay_sound. destruct Hr as [Hp Ha Hi [H0 Hm] Hc Ho Hd]. split; try done. split; [done|]. by apply map_Forall_delete. }
  destruct (default [] _) as [|p q] eqn:Eq; [done|]. destruct (pending r1 !! RequestID info) as [q0|] eqn:Ep; [|done].
  simpl in Eq. subst q0. destruct Hr as [Hp Ha Hi Hrp Hc Ho Hd]. destruct (pending_pop _ _ _ _ _ Hp Ep) as [Hp' Hasked].
  assert (sound (pop r1 (RequestID info) q)) as H1 by (split; try done; by destruct q).
  destruct (_ || _); [done|]. simpl. case_bool_decide as Esz; [destruct H1; split; try done; simpl in *; lia|].
  assert (forall cl, Z.of_nat (size cl) <= maxClosedIDs ->
    sound (set_closed (set_active (pop r1 (RequestID info) q)
      (<[SubscriptionID info := opened p (SubscriptionID info) now]> (active r1))) cl)) as H2.
  { intros cl Hcl. destruct H1. split; try done. eapply active_open; [done| |done]. simpl in Esz. lia. }
  assert (Z.of_nat (size (closed r1 ∖ {[SubscriptionID info]})) <= maxClosedIDs) as Hcl.
  { pose proof (subseteq_size (closed r1 ∖ {[SubscriptionID info]}) (closed r1) ltac:(set_solver)). lia. }
  apply H2 in Hcl. destruct (pperiodic p); [|done]. destruct Hcl. by split.
Qed.
Lemma onNotification_sound limits r info data now : sound r -> sound (onNotification hash limits r info data now).1.1.
Proof.
  intros Hr. unfold onNotification. destruct (toClient r !! _) as [k|].
  - pose proof (grade_sound limits (touch r k now) k data now (touch_sound r k now Hr)). by destruct (grade _ _ _ _ _ _).
  - destruct (live _ _).
    + pose proof (grade_sound limits _ (SubscriptionID info) data now (touch_sound r (SubscriptionID info) now Hr)).
      by destruct (grade _ _ _ _ _ _).
    + repeat case_bool_decide; done.
Qed.
Lemma endpoint1_sound limits r data now : sound r -> sound (translateEndpointFrame1 hash limits c r data now).1.1.
Proof.
  intros Hr. unfold translateEndpointFrame1. destruct (Kind _); [done|by apply onResponse_sound|by apply onNotification_sound].
Qed.
Lemma endpoint_sound limits r data now : sound r -> sound (endpoint limits r data now).1.1.
Proof.
  intros Hr. unfold TranslateEndpointFrame. destruct (isJSONArray data); [|by apply endpoint1_sound]. simpl.
  revert r Hr. induction (frames g vs data) as [|m l IH]; intros r Hr; [done|]. simpl. by apply IH, endpoint1_sound.
Qed.
Lemma replayOne_sound now acc entry : sound acc.1 -> sound (replayOne g vs indexOf now acc entry).1.
Proof.
  destruct acc as [r out], entry as [k sub]. simpl. intros Hr. case_bool_decide; [done|]. simpl.
  assert (replay_ok (<[replayID (replays r + 1) := k]> (replay r)) (replays r + 1)) as H1.
  { destruct Hr as [_ _ _ [H0 Hm] _ _ _]. split; [lia|]. apply map_Forall_insert_2; [by exists (replays r + 1); split; [|lia]|].
    eapply map_Forall_impl; [exact Hm|]. intros raw _ (n & ? & ?). exists n. split; [done|lia]. }
  destruct (Periodic sub); destruct Hr; by split.
Qed.
Lemma rebind_sound r now : sound r -> sound (rebind r now).1.
Proof.
  intros Hr. unfold ReplayNow. destruct (foldl _ _ _) as [r1 subs] eqn:E.
  assert (sound r1) as H1.
  { change r1 with ((r1, subs).1). rewrite <- E. generalize (range (string * Subscription) (map_to_list (active r))) as l.
    intros l. assert (sound ((r, []) : Registry * list string).1) as H0 by done. revert H0.
    generalize ((r, []) : Registry * list string) as acc. induction l as [|x l IH]; intros acc H0; [done|]. simpl.
    by apply IH, replayOne_sound. }
  simpl. destruct H1. by split.
Qed.
Lemma again_sound r data : sound r -> sound (again r data).1.
Proof.
  intros Hr. unfold Reissue. case_bool_decide; [done|]. destruct (inflight r !! _) as [q|]; [|done]. simpl.
  apply (answered_sound r (JSONRPCRequestID g vs data)) in Hr. destruct Hr. by split.
Qed.
(** C23. Whatever frames cross a connection, in any order and however often it is
    rebound, the registry's books are exact and bounded: the pending count is that
    of the subscribes waiting, at most 1024, each remembered as the client sent it
    under its id; at most 1024 subscriptions are live, each under the id the client
    knows; at most 256 requests and 256 KiB of them are in flight, counted exactly;
    at most 64 ids are remembered as closed and as orphaned. *)
Theorem registry_stays_sound r : connection r -> sound r.
Proof.
  intros Hc. unfold connection in Hc. remember NewSubscriptionRegistry as r0 eqn:E.
  assert (sound r0) as H0 by (subst; apply sound_new). clear E.
  induction Hc as [r|r1 r2 r3 Hs _ IH]; [done|]. apply IH.
  destruct Hs; [by apply client_sound|by apply endpoint_sound|by apply rebind_sound|by apply again_sound].
Qed.

(** ** Where notifications go

    [toClient] is an index of the live subscriptions by the name the current
    supplier has for them, where it is not the client's own. *)
Definition linked (r : Registry) : Prop := forall e k,
  toClient r !! e = Some k <-> exists s, active r !! k = Some s /\ EndpointID s = e /\ e <> k.
(** A supplier names a subscription it opens by an id that is not in use. *)
Definition newID (r : Registry) (data : string) : Prop :=
  let info := ClassifyEndpointFrame c data in
  match replay r !! RequestID info with
  | Some k => toClient r !! SubscriptionID info = None \/ toClient r !! SubscriptionID info = Some k
  | None => is_Some (pending r !! RequestID info) -> active r !! SubscriptionID info = None
  end.
Fixpoint newIDs (limits : option (Z * Z)) (r : Registry) (l : list string) (now : Z) : Prop :=
  match l with
  | [] => True
  | m :: l => newID r m /\ newIDs limits (translateEndpointFrame1 hash limits c r m now).1.1 l now
  end.
Inductive honestStep (r : Registry) : Registry -> Prop :=
| HonestClient data now : honestStep r (client r data now).1
| HonestEndpoint limits data now :
    newIDs limits r (if isJSONArray data then frames g vs data else [data]) now -> honestStep r (endpoint limits r data now).1.1
| HonestRebind now : honestStep r (rebind r now).1
| HonestAgain data : honestStep r (again r data).1.
Definition honest (r : Registry) : Prop := rtc honestStep NewSubscriptionRegistry r.

(** The two tables together; what leaves them alone keeps them linked. *)
Definition tables (r : Registry) : gmap string Subscription * gmap string string := (active r, toClient r).
Definition keyed (r : Registry) : Prop := map_Forall (λ k s, ID s = k) (active r).
Lemma linked_tables r r' : tables r' = tables r -> linked r /\ keyed r -> linked r' /\ keyed r'.
Proof. intros [= Ha Ht]. unfold linked, keyed. by rewrite Ha, Ht. Qed.
Lemma forget_linked r sub : active r !! ID sub = Some sub -> linked r /\ keyed r -> linked (forget r sub) /\ keyed (forget r sub).
Proof.
  intros Ha [Hl Hk]. split.
  2:{ unfold forget, keyed. case_bool_decide; simpl; by apply map_Forall_delete. }
  intros e k. unfold forget. case_bool_decide as He; simpl.
  - rewrite lookup_delete_Some, (Hl e k). setoid_rewrite lookup_delete_Some. split.
    + intros (Hne & s & Hs & Hes & Hek). exists s. split_and!; [|done|done|done]. intros <-. rewrite Ha in Hs. injection Hs as <-. done.
    + intros (s & [Hne Hs] & Hes & Hek). split; [|by exists s]. intros E.
      assert (toClient r !! e = Some k) as H1 by (apply Hl; by exists s).
      assert (toClient r !! e = Some (ID sub)) as H2 by (apply Hl; exists sub; by rewrite <- E).
      rewrite H1 in H2. by injection H2 as ->.
  - rewrite (Hl e k). setoid_rewrite lookup_delete_Some. split; intros (s & Hs & Hes & Hek).
    + exists s. split_and!; [|done|done|done]. intros <-. rewrite Ha in Hs. injection Hs as <-. apply Hek. by rewrite <- Hes.
    + by exists s; destruct Hs.
Qed.
Lemma rebound_linked r k sub i (tc : gmap string string) :
  active r !! k = Some sub -> linked r -> keyed r -> toClient r !! i = None \/ toClient r !! i = Some k ->
  tc = (let t := if bool_decide (EndpointID sub <> ID sub) then delete (EndpointID sub) (toClient r) else toClient r in
        if bool_decide (i <> ID sub) then <[i := ID sub]> t else t) ->
  forall e k', tc !! e = Some k' <-> exists s, <[k := rebound sub i]> (active r) !! k' = Some s /\ EndpointID s = e /\ e <> k'.
Proof.
  intros Ha Hl Hk Hi Htc e k'. rewrite (Hk k sub Ha) in Htc. simpl in Htc.
  set (t := if bool_decide (EndpointID sub <> k) then _ else _) in Htc.
  assert (forall e k', t !! e = Some k' <-> k' <> k /\ toClient r !! e = Some k') as Ht.
  { clear -Ha Hl. intros e k'. unfold t. case_bool_decide as E; [rewrite lookup_delete_Some|]; split.
    - intros [Hne H]. split; [|done]. intros ->. apply Hl in H as (s & Hs & Hes & _). rewrite Ha in Hs. by injection Hs as <-.
    - intros [Hne H]. split; [|done]. intros <-. assert (toClient r !! EndpointID sub = Some k) as H2 by (apply Hl; by exists sub).
      rewrite H in H2. by injection H2 as ->.
    - intros H. split; [|done]. intros ->. apply Hl in H as (s & Hs & Hes & Hne). rewrite Ha in Hs. injection Hs as <-.
      apply Hne. by rewrite <- Hes.
    - by intros [_ ?]. }
  destruct (decide (k' = k)) as [->|Hkk].
  - rewrite lookup_insert_eq. transitivity (e = i /\ i <> k).
    + subst tc. case_bool_decide as E; [rewrite lookup_insert_Some|]; split.
      * intros [[-> _]|[_ [? _]%Ht]]; done.
      * intros [-> _]. by left.
      * intros [? _]%Ht. done.
      * intros [-> ?]. by exfalso.
    + split; [intros [-> ?]; by exists (rebound sub i)|]. intros (s & [= <-] & <- & ?). done.
  - rewrite lookup_insert_ne by done. rewrite <- (Hl e k'). subst tc.
    destruct (bool_decide (i <> k)) eqn:E; [rewrite lookup_insert_Some|]; rewrite Ht; [|by split; [intros [_ ?]|]].
    split; [intros [[_ ?]|[_ [_ ?]]]; [by exfalso|done]|]. intros H. right. split; [|done]. intros <-.
    destruct Hi as [Hi|Hi]; rewrite Hi in H; [done|]. by injection H as <-.
Qed.
#[local] Abbreviation both r := (linked r /\ keyed r).
Lemma answered_tables r id : tables (answered r id) = tables r.
Proof. unfold answered. by destruct (inflight r !! id). Qed.
Lemma touch_tables r k now : tables (touch r k now) = tables r.
Proof. unfold touch. by destruct (periodicOf r k). Qed.
Lemma grade_tables limits r k data now : tables (grade hash limits r k data now).1 = tables r.
Proof.
  unfold grade. destruct (seen _ _ _ _ _). unfold readLimits. destruct limits as [[? ?]|]; [case_bool_decide|]; done.
Qed.
Lemma track_tables r data now : tables (track g vs r data now) = tables r.
Proof. unfold track. repeat case_bool_decide; simpl; try done; apply answered_tables. Qed.
Lemma rebound_tables r k sub info now : active r !! k = Some sub -> IsError info || bool_decide (SubscriptionID info = "") = false ->
  tables (completeReplay r k info now) =
    (<[k := rebound sub (SubscriptionID info)]> (active r),
     let t := if bool_decide (EndpointID sub <> ID sub) then delete (EndpointID sub) (toClient r) else toClient r in
     if bool_decide (SubscriptionID info <> ID sub) then <[SubscriptionID info := ID sub]> t else t).
Proof.
  intros Ha He. unfold completeReplay. rewrite Ha, He. simpl. destruct (Periodic sub); by repeat case_bool_decide.
Qed.
Lemma completeReplay_linked r k info now :
  toClient r !! SubscriptionID info = None \/ toClient r !! SubscriptionID info = Some k ->
  both r -> both (completeReplay r k info now).
Proof.
  intros Hi [Hl Hk]. destruct (active r !! k) as [sub|] eqn:Ha; [|unfold completeReplay; rewrite Ha; by destruct (_ && _)].
  destruct (IsError info || bool_decide (SubscriptionID info = "")) eqn:He.
  - unfold completeReplay. rewrite Ha, He. apply forget_linked; [by rewrite (Hk k sub Ha)|done].
  - pose proof (rebound_tables r k sub info now Ha He) as [= Eact Ecl]. unfold linked, keyed. rewrite Eact, Ecl. split.
    + by apply (rebound_linked r k sub (SubscriptionID info)).
    + apply map_Forall_insert_2; [by apply (Hk k sub Ha)|done].
Qed.
Lemma foldl_markClosed_tables l r : tables (foldl markClosed r l) = tables r.
Proof. revert r. induction l as [|e l IH]; intros r; [done|]. simpl. by rewrite IH. Qed.
Lemma client1_linked r data tracked now : both r -> both (translateClientFrame1 g vs range c r data tracked now).1.
Proof.
  intros Hr. unfold translateClientFrame1. destruct (Action _); simpl.
  - destruct tracked; [|done]. by apply (linked_tables r); [apply track_tables|].
  - repeat case_bool_decide; done.
  - destruct (active r !! _) as [sub|] eqn:Ha; [|done]. apply forget_linked; [|done]. destruct Hr as [_ Hk]. by rewrite (Hk _ _ Ha).
  - unfold closeAll. split; [|apply map_Forall_empty]. intros e k. simpl. setoid_rewrite lookup_empty. naive_solver.
Qed.
Lemma open_linked r id sub : active r !! id = None -> ID sub = id -> EndpointID sub = id -> both r ->
  both (set_active r (<[id := sub]> (active r))).
Proof.
  intros Hn Hid He [Hl Hk]. split; [|by apply map_Forall_insert_2]. intros e k. simpl. rewrite (Hl e k).
  setoid_rewrite lookup_insert_Some. split.
  - intros (s & Hs & Hes & Hek). exists s. split_and!; [right|done|done]. split; [|done]. intros <-. by rewrite Hn in Hs.
  - intros (s & [[<- <-]|[_ Hs]] & Hes & Hek); [|by exists s]. exfalso. apply Hek. by rewrite <- Hes.
Qed.
Lemma endpoint1_linked limits r data now : newID r data -> both r -> both (translateEndpointFrame1 hash limits c r data now).1.1.
Proof.
  intros Hnew Hr. unfold translateEndpointFrame1, newID in *. set (info := ClassifyEndpointFrame c data) in *.
  destruct (Kind info); [done| |].
  - unfold onResponse. set (r1 := answered r (RequestID info)).
    assert (both r1) as H1 by (by apply (linked_tables r); [apply answered_tables|]).
    assert (tables r1 = tables r /\ replay r1 = replay r /\ pending r1 = pending r) as ([= Ea Et] & Er & Ep).
    { unfold r1, answered. by destruct (inflight r !! _). }
    rewrite Er, Ep. destruct (replay r !! RequestID info) as [k|]; simpl.
    { apply completeReplay_linked; [simpl; by rewrite Et|]. by apply (linked_tables r1). }
    destruct (default [] _) as [|p q] eqn:Eq; [done|]. simpl.
    assert (active r !! SubscriptionID info = None) as Hn by (apply Hnew; destruct (pending r !! _); [by eexists|done]).
    destruct (_ || _); [by apply (linked_tables r1)|]. case_bool_decide; [by apply (linked_tables r1)|].
    assert (both (set_active r1 (<[SubscriptionID info := opened p (SubscriptionID info) now]> (active r1)))) as H2
      by (by apply open_linked; [rewrite Ea|..]).
    revert H2. simpl. destruct (pperiodic p); by apply linked_tables.
  - unfold onNotification. destruct (toClient r !! _) as [k|].
    + destruct (grade _ _ _ _ _ _) as [r' note] eqn:Eg. simpl. apply (linked_tables r); [|done].
      change r' with ((r', note).1). rewrite <- Eg. by rewrite grade_tables, touch_tables.
    + destruct (live _ _); [|by repeat case_bool_decide].
      destruct (grade _ _ _ _ _ _) as [r' note] eqn:Eg. simpl. apply (linked_tables r); [|done].
      change r' with ((r', note).1). rewrite <- Eg. by rewrite grade_tables, touch_tables.
Qed.
Lemma replayOne_tables now acc entry : tables (replayOne g vs indexOf now acc entry).1 = tables acc.1.
Proof. destruct acc, entry. simpl. case_bool_decide; [done|]. by destruct (Periodic _). Qed.
Lemma rebind_tables r now : tables (rebind r now).1 = tables r.
Proof.
  unfold ReplayNow. destruct (foldl _ _ _) as [r1 subs] eqn:E. simpl. change (tables r1 = tables r).
  change r1 with ((r1, subs).1). rewrite <- E. clear E. change r with ((r, []) : Registry * list string).1 at 3.
  generalize ((r, []) : Registry * list string) as acc. generalize (range (string * Subscription) (map_to_list (active r))) as l.
  induction l as [|x l IH]; intros acc; [done|]. simpl. by rewrite IH, replayOne_tables.
Qed.
Lemma honest_linked r : honest r -> both r.
Proof.
  intros Hc. unfold honest in Hc. remember NewSubscriptionRegistry as r0 eqn:E.
  assert (both r0) as H0 by (subst; split; [intros e k; simpl; setoid_rewrite lookup_empty; naive_solver|apply map_Forall_empty]).
  clear E. induction Hc as [r|r1 r2 r3 Hs _ IH]; [done|]. apply IH. clear IH. destruct Hs as [data now|limits data now Hnew|now|data].
  - unfold TranslateClientFrame. destruct (isJSONArray data); [|by apply client1_linked]. simpl.
    revert r1 H0. induction (frames g vs data) as [|m l IHl]; intros r1 H0; [done|]. simpl. by apply IHl, client1_linked.
  - unfold TranslateEndpointFrame. destruct (isJSONArray data); [|by apply endpoint1_linked; [apply Hnew|]]. simpl.
    revert r1 H0 Hnew. induction (frames g vs data) as [|m l IHl]; intros r1 H0 Hnew; [done|]. destruct Hnew as [Hm Hl]. simpl.
    apply IHl; [by apply endpoint1_linked|done].
  - by apply (linked_tables r1); [apply rebind_tables|].
  - unfold Reissue. case_bool_decide; [done|]. destruct (inflight r1 !! _); [|done]. simpl.
    by apply (linked_tables r1); [apply (answered_tables r1)|].
Qed.

Definition passed (k : NotificationKind) : Prop := k = NotificationOK \/ k = NotificationDuplicate.
Lemma grade_passed limits r k data now :
  passed (nKind (grade hash limits r k data now).2) /\ nTopic (grade hash limits r k data now).2 = topicOf r k.
Proof. unfold grade, passed. destruct (seen _ _ _ _ _) as [w []]; simpl; naive_solver. Qed.
Lemma touch_topic r k now : topicOf (touch r k now) k = topicOf r k.
Proof. unfold touch, topicOf. by destruct (periodicOf _ _). Qed.

Lemma unclaimed (r : Registry) (e data : string) :
  let '(_, out, note) :=
    if bool_decide (e ∈ orphaned r) then (r, None (A := string), noNote)
    else if bool_decide (e ∈ closed r) || bool_decide (0 < dropped r) then (r, Some data, noNote)
    else (r, Some data, mkNote NotificationUnsolicited "" 0 "") in
  out = (if bool_decide (e ∈ orphaned r) then None else Some data) /\
  (nKind note = NotificationUnsolicited <-> (e ∉ orphaned r) /\ (e ∉ closed r) /\ dropped r <= 0) /\
  (nKind note = NotificationUnsolicited \/ nKind note = NotificationNone).
Proof.
  case_bool_decide; [naive_solver|]. case_bool_decide; [simpl; naive_solver|].
  case_bool_decide; simpl; split_and!; try done; try (by left); try (by right); (split; [done|lia]) || (split; [|done]; intros _; split_and!; done || lia).
Qed.

(** C18. On a connection whose suppliers name subscriptions by ids not in use, a
    notification reaches the client under the id the client knows its
    subscription by, whatever rebinds there were: the subscription rebound to the
    notification's id if there is one, else the one that kept it, graded with its
    topic; one for neither is dropped if the client unsubscribed during the
    rebind, and otherwise passed on as it came and called unsolicited only if it
    was not closed and no subscription went untracked. *)
Theorem notifications_reach_their_subscription r limits data now :
  honest r ->
  let info := ClassifyEndpointFrame c data in
  let e := SubscriptionID info in
  isJSONArray data = false -> Kind info = EndpointFrameNotification ->
  let '(_, out, note) := endpoint limits r data now in
  (forall k s, active r !! k = Some s -> EndpointID s = e -> e <> k ->
     out = Some (spliceSpan data (SubscriptionIDSpan info) k) /\ passed (nKind note) /\ nTopic note = Topic s) /\
  (forall s, active r !! e = Some s -> EndpointID s = e ->
     (forall k s', active r !! k = Some s' -> EndpointID s' = e -> k = e) ->
     out = Some data /\ passed (nKind note) /\ nTopic note = Topic s) /\
  ((forall k s, active r !! k = Some s -> EndpointID s <> e) ->
     out = (if bool_decide (e ∈ orphaned r) then None else Some data) /\
     (nKind note = NotificationUnsolicited <-> (e ∉ orphaned r) /\ (e ∉ closed r) /\ dropped r <= 0) /\
     (nKind note = NotificationUnsolicited \/ nKind note = NotificationNone)).
Proof.
  intros Hh info e Hj Hkind. destruct (honest_linked r Hh) as [Hl Hk].
  unfold TranslateEndpointFrame. rewrite Hj. unfold translateEndpointFrame1. fold info. rewrite Hkind.
  unfold onNotification. fold e. destruct (toClient r !! e) as [k|] eqn:Et.
  - pose proof (proj1 (Hl e k) Et) as (s & Hs & Hes & Hne).
    pose proof (grade_passed limits (touch r k now) k data now) as [Hp Ht]. rewrite touch_topic in Ht.
    unfold topicOf in Ht. rewrite Hs in Ht. destruct (grade _ _ _ _ _ _) as [r' note]. simpl in Hp, Ht.
    split_and!; [|intros s' Hs' _ Huniq; by rewrite (Huniq k s Hs Hes) in Hne|intros Hno; by destruct (Hno k s Hs)].
    intros k' s' Hs' Hes' Hne'. assert (toClient r !! e = Some k') as Et' by (apply Hl; by exists s').
    rewrite Et in Et'. injection Et' as <-. rewrite Hs in Hs'. by injection Hs' as <-.
  - assert (forall k s, active r !! k = Some s -> EndpointID s = e -> e <> k -> False) as Hnone.
    { intros k s Hs Hes Hne. assert (toClient r !! e = Some k) as H by (apply Hl; by exists s). by rewrite Et in H. }
    destruct (live r e) eqn:Elive; unfold live in Elive.
    + destruct (active r !! e) as [s|] eqn:Ha; [|done]. apply bool_decide_eq_true in Elive. rewrite (Hk e s Ha) in Elive.
      pose proof (grade_passed limits (touch r e now) e data now) as [Hp Ht]. rewrite touch_topic in Ht.
      unfold topicOf in Ht. rewrite Ha in Ht. destruct (grade _ _ _ _ _ _) as [r' note]. simpl in Hp, Ht.
      split_and!; [intros; exfalso; by eapply Hnone|intros s' [= <-]; done|intros Hno; by destruct (Hno e s Ha)].
    + assert (forall s, active r !! e = Some s -> EndpointID s = e -> False) as Hself.
      { intros s Hs He. rewrite Hs, (Hk e s Hs), He in Elive. by rewrite bool_decide_eq_true_2 in Elive. }
      pose proof (unclaimed r e data) as H. destruct (if bool_decide (e ∈ orphaned r) then _ else _) as [[r' out] note].
      split_and!; [intros; exfalso; by eapply Hnone|intros; exfalso; by eapply Hself|by intros _].
Qed.

(** ** Rebinds

    Ranging over a map meets its entries in some order; an array is a batch, which a classifier reads nothing from; and a frame whose
    id is cut out and another put in its place is the same subscribe under that
    id. *)
Hypothesis range_perm : forall A (l : list A), range A l ≡ₚ l.
Hypothesis arrays_are_batches : forall data, isJSONArray data = true -> Action (ClassifyClientFrame c data) = SubscriptionNone.
Hypothesis ids_are_spliced : forall data n,
  let span := JSONRPCRequestIDSpan g vs indexOf data in
  let info := ClassifyClientFrame c (spliceSpan data span (replayID n)) in
  Action (ClassifyClientFrame c data) = SubscriptionSubscribe -> Len span <> 0 ->
  Action info = SubscriptionSubscribe /\ cRequestID info = replayID n.
#[local] Abbreviation resend r l now := (foldl (λ r f, (client r f now).1) r l).

Lemma subscribe_no_array data : Action (ClassifyClientFrame c data) = SubscriptionSubscribe -> isJSONArray data = false.
Proof. intros H. destruct (isJSONArray data) eqn:E; [|done]. apply arrays_are_batches in E. by rewrite E in H. Qed.
Lemma client_single r data now : isJSONArray data = false -> client r data now = translateClientFrame1 g vs range c r data true now.
Proof. intros H. unfold TranslateClientFrame. by rewrite H. Qed.
Lemma resend_replays now l r : Forall (λ f, exists n, Action (ClassifyClientFrame c f) = SubscriptionSubscribe /\
    cRequestID (ClassifyClientFrame c f) = replayID n /\ is_Some (replay r !! replayID n)) l -> resend r l now = r.
Proof.
  induction 1 as [|f l (n & Ha & Hid & Hr) _ IH]; [done|]. cbn [foldl]. rewrite client_single by (by apply subscribe_no_array).
  unfold translateClientFrame1. rewrite Ha, Hid. case_bool_decide; [done|]. by rewrite (bool_decide_eq_true_2 _ Hr).
Qed.
Definition plain (id : string) : Prop := forall n, id <> replayID n.
Lemma resend_one r id p now : asked id p -> replay r !! id = None -> npending r < maxTrackedSubscriptions ->
  (client r (prequest p) now).1 = set_pending r (<[id := default [] (pending r !! id) ++ [p]]> (pending r)) (npending r + 1).
Proof.
  intros (Ha & Hid & Hne & Hm & Ht & Hp) Hr Hlt. rewrite client_single by (by apply subscribe_no_array).
  unfold translateClientFrame1. rewrite Ha, Hid. rewrite bool_decide_eq_false_2 by done.
  rewrite bool_decide_eq_false_2 by (rewrite Hr; by intros [? ?]). rewrite bool_decide_eq_false_2 by lia.
  destruct p. simpl in *. by subst.
Qed.
Lemma resend_queue id now q r : Forall (asked id) q -> replay r !! id = None ->
  npending r + Z.of_nat (length q) <= maxTrackedSubscriptions -> q <> [] ->
  resend r (prequest <$> q) now = set_pending r (<[id := default [] (pending r !! id) ++ q]> (pending r)) (npending r + Z.of_nat (length q)).
Proof.
  intros Hq. revert r. induction Hq as [|p q Hp Hq IH]; intros r Hr Hn Hne; [done|]. cbn [fmap list_fmap foldl].
  simpl in Hn. rewrite (resend_one r id p now) by (done || lia). destruct q as [|p' q].
  - simpl. f_equal.
  - rewrite IH; [|done|simpl in *; lia|done]. simpl. rewrite lookup_insert_eq, insert_insert_eq. simpl.
    rewrite <- (assoc_L (++)). unfold set_pending. simpl. f_equal; lia.
Qed.
Lemma lengths_pos (qs : list (list pendingSubscription)) : 0 <= foldr (λ q n, Z.of_nat (length q) + n) 0 qs.
Proof. induction qs; simpl; lia. Qed.
Lemma resend_queues now l r : NoDup l.*1 -> Forall (λ e : string * list pendingSubscription, Forall (asked e.1) e.2 /\ e.2 <> [] /\
    replay r !! e.1 = None /\ pending r !! e.1 = None) l ->
  npending r + foldr (λ q n, Z.of_nat (length q) + n) 0 l.*2 <= maxTrackedSubscriptions ->
  resend r (prequest <$> concat l.*2) now =
    set_pending r (list_to_map l ∪ pending r) (npending r + foldr (λ q n, Z.of_nat (length q) + n) 0 l.*2).
Proof.
  revert r. induction l as [|[id q] l IH]; intros r Hnd Hl Hn.
  { simpl. destruct r. unfold set_pending. simpl. f_equal; [by rewrite map_empty_union|lia]. }
  simpl in Hnd. apply NoDup_cons in Hnd as [Hid Hnd]. apply Forall_cons in Hl as [(Hq & Hne & Hr & Hp) Hl]. simpl in Hq, Hne, Hr, Hp.
  cbn [fmap list_fmap foldr snd] in Hn. cbn [fmap list_fmap snd concat]. rewrite fmap_app, foldl_app.
  assert (0 <= foldr (λ q n, Z.of_nat (length q) + n) 0 l.*2) as Hpos by apply lengths_pos.
  rewrite (resend_queue id now q r Hq Hr) by (done || lia). rewrite Hp. cbn [default app]. rewrite IH; [| |rewrite Forall_forall in Hl|].
  - simpl. unfold set_pending. simpl. f_equal; [|lia]. rewrite <- insert_union_r; [by rewrite insert_union_l|].
    by apply not_elem_of_list_to_map_1.
  - done.
  - rewrite Forall_forall. intros [id' q'] Hin. destruct (Hl _ Hin) as (? & ? & ? & ?). split_and!; try done. simpl in *.
    rewrite lookup_insert_ne; [done|]. intros ->. apply Hid. apply list_elem_of_fmap. by exists (id', q').
  - simpl. lia.
Qed.
Lemma bytes_pos (l : list inflightRequest) : 0 <= foldr (λ q n, len (frame q) + n) 0 l.
Proof. induction l; simpl; unfold len in *; lia. Qed.
Lemma track_new r q id now : sent_as id q -> inflight r !! id = None -> Z.of_nat (size (inflight r)) < maxInflightRequests ->
  inflightBytes r + len (frame q) <= maxInflightBytes ->
  (client r (frame q) now).1 = set_inflight r (<[id := mkInflight (frame q) now]> (inflight r)) (inflightBytes r + len (frame q)).
Proof.
  intros (Hid & Hne & Ha & Hj) Hn Hs Hb. rewrite client_single by done. unfold translateClientFrame1. rewrite Ha. simpl.
  unfold track. rewrite Hid, bool_decide_eq_false_2 by done. unfold answered. rewrite Hn.
  by rewrite !bool_decide_eq_false_2 by lia.
Qed.
Lemma resend_requests now (l : list (string * inflightRequest)) r : NoDup l.*1 ->
  Forall (λ e, sent_as e.1 e.2 /\ inflight r !! e.1 = None) l ->
  Z.of_nat (size (inflight r) + length l) <= maxInflightRequests ->
  inflightBytes r + foldr (λ q n, len (frame q) + n) 0 l.*2 <= maxInflightBytes ->
  resend r (frame <$> l.*2) now =
    set_inflight r (list_to_map (prod_map id (λ q, mkInflight (frame q) now) <$> l) ∪ inflight r)
      (inflightBytes r + foldr (λ q n, len (frame q) + n) 0 l.*2).
Proof.
  revert r. induction l as [|[id q] l IH]; intros r Hnd Hl Hs Hb.
  { simpl. destruct r. unfold set_inflight. simpl. f_equal; [by rewrite map_empty_union|lia]. }
  simpl in Hnd. apply NoDup_cons in Hnd as [Hid Hnd]. apply Forall_cons in Hl as [(Hq & Hn) Hl]. simpl in Hq, Hn.
  cbn [fmap list_fmap foldr snd length] in Hs, Hb. cbn [fmap list_fmap snd foldl].
  assert (0 <= foldr (λ q n, len (frame q) + n) 0 l.*2) as Hpos by apply bytes_pos.
  rewrite (track_new r q id now Hq Hn) by lia. rewrite IH; [|done| | |].
  - simpl. unfold set_inflight. simpl. f_equal; [|lia]. rewrite <- insert_union_r; [by rewrite insert_union_l|].
    apply not_elem_of_list_to_map_1. rewrite <- list_fmap_compose. exact Hid.
  - rewrite Forall_forall in Hl |- *. intros [id' q'] Hin. destruct (Hl _ Hin) as (? & ?). split; [done|]. simpl in *.
    rewrite lookup_insert_ne; [done|]. intros ->. apply Hid. apply list_elem_of_fmap. by exists (id', q').
  - simpl. rewrite map_size_insert_None by done. lia.
  - simpl. lia.
Qed.

Lemma app_right_inj a b t : a +:+ t = b +:+ t -> a = b.
Proof.
  revert b. induction a as [|x a IH]; intros [|y b] H; [done| | |].
  - apply (f_equal String.length) in H. rewrite !length_app' in H. simpl in H. lia.
  - apply (f_equal String.length) in H. rewrite !length_app' in H. simpl in H. lia.
  - injection H as -> H. f_equal. by apply IH.
Qed.
Lemma replayID_inj m n : replayID m = replayID n -> m = n.
Proof.
  unfold replayID, inQuotes. intros H. apply (inj (String.append quote)) in H. apply app_right_inj in H.
  apply (inj (String.append "sage-replay-")) in H. by apply (inj pretty) in H.
Qed.
(** What a pass over the subscriptions [l] adds to [r]. *)
Definition spliced (s : Subscription) (n : Z) : string :=
  spliceSpan (Request s) (JSONRPCRequestIDSpan g vs indexOf (Request s)) (replayID n).
Definition spannable (s : Subscription) : Prop := Len (JSONRPCRequestIDSpan g vs indexOf (Request s)) <> 0.
Record replayed (r : Registry) (l : list (string * Subscription)) (r1 : Registry) (out : list string) : Prop := {
  rp_rest : pending r1 = pending r /\ npending r1 = npending r /\ inflight r1 = inflight r /\ tables r1 = tables r /\ reissue r1 = reissue r;
  rp_count : replays r <= replays r1;
  rp_plain : forall id, plain id -> replay r1 !! id = replay r !! id;
  rp_out : forall f, f ∈ out -> exists k s n, (k, s) ∈ l /\ spannable s /\
    f = spliced s n /\ n <= replays r1 /\ replay r1 !! replayID n = Some k;
  rp_all : forall k s, (k, s) ∈ l -> spannable s ->
    exists n, n <= replays r1 /\ spliced s n ∈ out /\ replay r1 !! replayID n = Some k
}.
Lemma replay_pass now r l : forall r1 out, foldl (replayOne g vs indexOf now) (r, []) l = (r1, out) ->
  replay_ok (replay r) (replays r) -> replayed r l r1 out.
Proof.
  intros r1 out E Hok. revert r1 out E. induction l as [|[k s] l IH] using rev_ind; intros r1 out E.
  { injection E as <- <-. split; try done; [intros f H|intros k s H]; inversion H. }
  rewrite foldl_app in E. destruct (foldl _ _ l) as [r0 out0]. destruct (IH r0 out0 eq_refl) as [Hre Hc Hp Ho Ha].
  clear IH. cbn [foldl replayOne] in E. case_bool_decide as Es.
  - injection E as <- <-. split; try done.
    + intros f Hf. destruct (Ho f Hf) as (k' & s' & n & Hin & Hrest). exists k', s', n. split; [apply elem_of_app; by left|done].
    + intros k' s' [Hin|Hin%list_elem_of_singleton]%elem_of_app Hsp; [by apply Ha|]. injection Hin as -> ->. by destruct Hsp.
  - set (n := replays r0 + 1) in *. assert (replays r1 = n /\ replay r1 = <[replayID n := k]> (replay r0) /\
      (pending r1 = pending r /\ npending r1 = npending r /\ inflight r1 = inflight r /\ tables r1 = tables r /\ reissue r1 = reissue r) /\
      out = out0 ++ [spliced s n]) as (Hn & Hr & Hre' & ->).
    { destruct (Periodic s); injection E as <- <-; exact (conj eq_refl (conj eq_refl (conj Hre eq_refl))). }
    assert (forall m k', m <= replays r0 -> replay r0 !! replayID m = Some k' -> replay r1 !! replayID m = Some k') as Hkeep.
    { intros m k' Hm Hk. rewrite Hr, lookup_insert_ne; [done|]. intros H%replayID_inj. unfold n in H. lia. }
    split; [done|unfold n in *; lia| | |].
    + intros id Hid. rewrite Hr, lookup_insert_ne by (intros H; by apply (Hid n)). by apply Hp.
    + intros f [Hf|Hf%list_elem_of_singleton]%elem_of_app.
      * destruct (Ho f Hf) as (k' & s' & m & Hin & Hsp & -> & Hm & Hrm).
        exists k', s', m. split_and!; [apply elem_of_app; by left|done|done|unfold n in *; lia|by apply Hkeep].
      * exists k, s, n. split_and!; [apply elem_of_app; right; by apply list_elem_of_singleton|done|done|lia|by rewrite Hr, lookup_insert_eq].
    + intros k' s' [Hin|Hin%list_elem_of_singleton]%elem_of_app Hsp.
      * destruct (Ha k' s' Hin Hsp) as (m & Hm & Hout & Hrm). exists m.
        split_and!; [unfold n in *; lia|apply elem_of_app; by left|by apply Hkeep].
      * injection Hin as -> ->. exists n. split_and!; [lia|apply elem_of_app; right; by apply list_elem_of_singleton|by rewrite Hr, lookup_insert_eq].
Qed.

(** The requests in flight that are sent again, with their ids. *)
Lemma again_entries (m : gmap string inflightRequest) : exists l, filter (λ q, isWrite g q = false) (merge_sort sentBefore (range _ (map_to_list m)).*2) = l.*2 /\
  l ≡ₚ filter (λ e, isWrite g e.2 = false) (map_to_list m) /\ NoDup l.*1.
Proof.
  assert (merge_sort sentBefore (range _ (map_to_list m)).*2 ≡ₚ (map_to_list m).*2) as Hp
    by (by rewrite merge_sort_Permutation, range_perm).
  apply Permutation_map_inv in Hp as (l3 & E & Hp). exists (filter (λ e, isWrite g e.2 = false) l3). rewrite E.
  assert (forall l : list (string * inflightRequest), filter (λ q, isWrite g q = false) (map snd l) = (filter (λ e, isWrite g e.2 = false) l).*2) as Hf.
  { clear. induction l as [|[k q] l IH]; [done|]. simpl. rewrite !filter_cons. simpl. case_decide; [cbn [fmap list_fmap]; by f_equal|done]. }
  rewrite Hf. split; [done|]. split; [by rewrite Hp|].
  apply (sublist_NoDup _ (l3.*1)); [|apply fmap_sublist, sublist_filter]. rewrite <- Hp. apply NoDup_fst_map_to_list.
Qed.
Lemma list_to_map_perm {A} (l l' : list (string * A)) : l ≡ₚ l' -> NoDup l.*1 -> (list_to_map l : gmap string A) = list_to_map l'.
Proof. intros Hp Hn. by apply list_to_map_proper. Qed.

End Facts.

(** ** The classifiers of EVM and Solana *)
Section Classifiers.
Context (g : Heuristic.Gjson) (vs : Values g) (indexOf : Heuristic.Result g -> Z) (IsObject : Heuristic.Result g -> bool).
(** Nesting is at most as deep as the text is long. *)
Fixpoint narrowsAt (depth : nat) (v : Heuristic.Result g) : bool :=
  match depth with
  | S depth => if IsArray vs v then existsb (narrowsAt depth) (Array vs v)
               else isString g v && negb (bool_decide (Heuristic.Str g v = ""))
  | O => false
  end.
Definition narrows (v : Heuristic.Result g) : bool := narrowsAt (S (String.length (Raw vs v))) v.
Definition unfilteredLogs (data : string) : bool :=
  let filter := GetBytes g data "params.1" in
  if negb (Heuristic.Exists g filter) || isNull g filter then true
  else IsObject filter && negb (narrows (Heuristic.Get g filter "address")) && negb (narrows (Heuristic.Get g filter "topics")).
Definition unsubscribeOf (data method : string) : ClientFrameInfo :=
  let '(id, span) := JSONRPCPath g vs indexOf data "params.0" in
  mkClientInfo SubscriptionUnsubscribe "" method "" false id span FeedNone.
Definition evmClientFrame (data : string) : ClientFrameInfo :=
  let method := JSONRPCMethod g data in
  if bool_decide (method = "eth_subscribe") then
    let topic := Heuristic.StringOf g (GetBytes g data "params.0") in
    let feed := if bool_decide (topic = "newPendingTransactions") then FeedPendingTransactions
                else if bool_decide (topic = "logs") && unfilteredLogs data then FeedAllLogs else FeedNone in
    mkClientInfo SubscriptionSubscribe (JSONRPCRequestID g vs data) method topic (bool_decide (topic = "newHeads")) "" noSpan feed
  else if bool_decide (method = "eth_unsubscribe") then unsubscribeOf data method
  else noClientInfo.
Definition evmClassifier : Classifier :=
  mkClassifier evmClientFrame (λ data, JSONRPCEndpointFrame g vs indexOf data (λ m, bool_decide (m = "eth_subscription"))).
Definition HasSuffix (s suffix : string) : bool :=
  bool_decide (String.length suffix <= String.length s)%nat && bool_decide (from (String.length s - String.length suffix) s = suffix).
Definition solanaClientFrame (data : string) : ClientFrameInfo :=
  let method := JSONRPCMethod g data in
  if HasSuffix method "Unsubscribe" then unsubscribeOf data method
  else if HasSuffix method "Subscribe" then
    mkClientInfo SubscriptionSubscribe (JSONRPCRequestID g vs data) method method
      (bool_decide (method = "slotSubscribe") || bool_decide (method = "rootSubscribe")) "" noSpan FeedNone
  else noClientInfo.
Definition solanaClassifier : Classifier :=
  mkClassifier solanaClientFrame (λ data, JSONRPCEndpointFrame g vs indexOf data (λ m, HasSuffix m "Notification")).

(** A named member of an array does not exist, and what does not exist prints as
    nothing: neither classifier reads a batch. *)
Context (by_name : forall data k, isJSONArray data = true -> Heuristic.Exists g (GetBytes g data k) = false).
Context (absent : forall v, Heuristic.Exists g v = false -> Heuristic.StringOf g v = "").
Lemma classifiers_read_no_batch data : isJSONArray data = true ->
  Action (ClassifyClientFrame evmClassifier data) = SubscriptionNone /\
  Action (ClassifyClientFrame solanaClassifier data) = SubscriptionNone.
Proof.
  intros Hj. assert (JSONRPCMethod g data = "") as Hm by (by apply absent, by_name).
  simpl. unfold evmClientFrame, solanaClientFrame. by rewrite Hm.
Qed.
End Classifiers.

(** ** Runs: frames of a kind and what they name *)
Definition toyGjson : Heuristic.Gjson :=
  Heuristic.mkGjson (string * Z) (λ _, true) (λ s, (s, 0))
    (λ v k, if bool_decide (k = "id") then (from 4 v.1, 4)
            else if bool_decide (k = "method") && String.prefix "wri:" v.1 then ("eth_sendRawTransaction", 0) else ("", 0))
    (λ v, negb (bool_decide (v.1 = ""))) (λ _, Heuristic.String_) (λ _, 0) fst fst (λ _, []).
Definition toyValues : Values toyGjson := mkValues (g := toyGjson) (λ _, false) (λ _, []) fst.
Definition toyClient (s : string) : ClientFrameInfo :=
  if String.prefix "sub:" s then mkClientInfo SubscriptionSubscribe (from 4 s) "subscribe" "heads" true "" noSpan FeedNone
  else if String.prefix "uns:" s
  then mkClientInfo SubscriptionUnsubscribe "" "unsubscribe" "" false (from 4 s) (mkSpan 4 (len (from 4 s))) FeedNone
  else noClientInfo.
Definition toyEndpoint (s : string) : EndpointFrameInfo :=
  let '(a, b, _) := Cut (from 4 s) ":" in
  if String.prefix "ack:" s then mkEndpointInfo EndpointFrameResponse a b noSpan false
  else if String.prefix "dat:" s then mkEndpointInfo EndpointFrameNotification "" a (mkSpan 4 (len a)) false
  else noEndpointInfo.
Definition toy : Classifier := mkClassifier toyClient toyEndpoint.
Fixpoint toyHash (s : string) : Z :=
  match s with String x t => 256 * toyHash t + Z.of_N (N_of_ascii x) | "" => 1 end.
Definition inOrder (A : Type) (l : list A) : list A := l.
#[local] Abbreviation toyC r f := ((TranslateClientFrame toyGjson toyValues (Some toy) inOrder r f 0).1).
#[local] Abbreviation toyE r f := (TranslateEndpointFrame toyGjson toyValues (Some toy) toyHash None r f 0).
#[local] Abbreviation toyReplay r := (ReplayNow toyGjson toyValues snd (Some toy) inOrder r 0).
Inductive toyFrame := C (f : string) | E (f : string) | R.
Definition toyStep (r : Registry) (f : toyFrame) : Registry :=
  match f with
  | C f => toyC r f
  | E f => (toyE r f).1.1
  | R => let '(r, out) := toyReplay r in foldl (λ r f, toyC r f) r (Frames out)
  end.
Definition toyRun (l : list toyFrame) : Registry := foldl toyStep NewSubscriptionRegistry l.

(** A supplier that counts a connection's subscriptions names the second one of
    the client's as the client's first was named; the registry then forgets the
    subscription the client has under that id, hands both feeds to the client
    under one id, and will replay one of the two. *)
Lemma rebind_merges_subscriptions :
  let r := toyRun [C "sub:1"; E "ack:1:1"; C "sub:2"; E "ack:2:2"; C "uns:1"; R; E ("ack:" +:+ (replayID 1 +:+ ":1"));
                   C "sub:3"; E "ack:3:2"] in
  Subscribes inOrder r = ["sub:3"] /\ (toyE r "dat:1:x").1.2 = Some "dat:2:x" /\ (toyE r "dat:2:y").1.2 = Some "dat:2:y".
Proof. vm_compute. done. Qed.
(** The budget is shared by the subscriptions there are when a notification comes:
    one generation of a connection told to hold four holds seven. *)
Lemma budget_is_exceeded :
  let note r f := (TranslateEndpointFrame toyGjson toyValues (Some toy) toyHash (Some (20 * second, 4)) r f (1000 * second)).1.1 in
  let r1 := foldl note (toyRun [C "sub:1"; E "ack:1:1"]) ["dat:1:a"; "dat:1:b"; "dat:1:c"; "dat:1:d"] in
  let r2 := foldl note (toyStep (toyStep r1 (C "sub:2")) (E "ack:2:2")) ["dat:2:a"; "dat:2:b"] in
  let r3 := note (toyStep (toyStep r2 (C "sub:3")) (E "ack:3:3")) "dat:3:a" in
  dupBudget r3 = 4 /\ foldr (λ w n, Z.of_nat (size (cur w)) + n) 0 (map_to_list (recent r3)).*2 = 7.
Proof. vm_compute. done. Qed.

Lemma inOrder_perm A (l : list A) : inOrder A l ≡ₚ l.
Proof. done. Qed.
Lemma toy_arrays data : isJSONArray data = true -> Action (ClassifyClientFrame toy data) = SubscriptionNone.
Proof.
  unfold isJSONArray. simpl. unfold toyClient. intros Hj.
  assert (forall t rest, t ∈ ["s"%char; "u"%char] -> String.prefix (String t rest) data = false) as H.
  { intros t rest Ht. destruct data as [|x d]; [done|]. simpl. destruct (ascii_dec t x) as [<-|]; [|done]. exfalso.
    rewrite !elem_of_cons, elem_of_nil in Ht. destruct Ht as [->|[->|[]]]; discriminate Hj. }
  rewrite !H; [done|by right; left|by left].
Qed.
Lemma toy_splices data n :
  let span := JSONRPCRequestIDSpan toyGjson toyValues snd data in
  let info := ClassifyClientFrame toy (spliceSpan data span (replayID n)) in
  Action (ClassifyClientFrame toy data) = SubscriptionSubscribe -> Len span <> 0 ->
  Action info = SubscriptionSubscribe /\ cRequestID info = replayID n.
Proof.
  intros span info Ha Hl. simpl in Ha. unfold toyClient in Ha. destruct (String.prefix "sub:" data) eqn:Ep.
  2:{ by destruct (String.prefix "uns:" data). }
  assert (exists t, data = "sub:" +:+ t) as [t ->].
  { destruct data as [|x1 [|x2 [|x3 [|x4 t]]]]; simpl in Ep; repeat (case_match; [|done]); subst; try done. by exists t. }
  assert (from 4 ("sub:" +:+ t) = t) as Ef by apply (from_app "sub:" t).
  assert (span = if bool_decide (t = "") then noSpan else mkSpan 4 (len t)) as Es.
  { unfold span, JSONRPCRequestIDSpan, SpanOf, GetBytes. simpl. change (from 4 (String _ _)) with (from 4 ("sub:" +:+ t)).
    rewrite Ef. by case_bool_decide. }
  rewrite Es in Hl. unfold info. rewrite Es. case_bool_decide as Et; [done|]. clear Hl Es span info.
  assert (spliceSpan ("sub:" +:+ t) (mkSpan 4 (len t)) (replayID n) = "sub:" +:+ replayID n) as ->.
  { unfold spliceSpan, len. cbn [Index Len]. rewrite length_app'. change (String.length "sub:") with 4%nat.
    rewrite !bool_decide_eq_false_2 by (destruct t; [done|simpl; lia]). cbn [orb].
    change (Z.to_nat 4) with (String.length "sub:"). rewrite upto_app.
    replace (Z.to_nat (4 + Z.of_nat (String.length t))) with (String.length ("sub:" +:+ t)) by (rewrite length_app'; simpl; lia).
    assert (forall s, from (String.length s) s = "") as Hend
      by (intros s; rewrite <- (app_nil' s) at 2; apply from_app). by rewrite Hend, app_nil'. }
  simpl. unfold toyClient. change (String.prefix "sub:" (String _ _)) with true. cbn [Action cRequestID].
  split; [done|]. apply (from_app "sub:" (replayID n)).
Qed.

(** A connection with a live subscription, one waiting, a read and a write. *)
Definition toyBusy : Registry := toyRun [C "sub:1"; E "ack:1:7"; C "sub:2"; C "req:5"; C "wri:6"].
Lemma toyStep_step r f : f <> R -> step toyGjson toyValues snd toy toyHash inOrder r (toyStep r f).
Proof.
  intros Hf. destruct f as [f|f|]; [apply (ClientFrame toyGjson toyValues snd toy toyHash inOrder r f 0)| |done].
  apply (EndpointFrame toyGjson toyValues snd toy toyHash inOrder r None f 0).
Qed.
Lemma toy_connection l : R ∉ l -> connection toyGjson toyValues snd toy toyHash inOrder (toyRun l).
Proof.
  unfold toyRun, connection. generalize NewSubscriptionRegistry as r. induction l as [|f l IH]; intros r Hl; [constructor|].
  apply not_elem_of_cons in Hl as [Hf Hl]. simpl. eapply rtc_l; [|by apply IH]. by apply toyStep_step.
Qed.
Lemma registry_stays_sound_witness : sound toyGjson toyValues toy toyBusy /\ npending toyBusy = 1.
Proof.
  split; [|reflexivity]. apply (registry_stays_sound toyGjson toyValues snd toy toyHash inOrder).
  apply toy_connection. rewrite !elem_of_cons, elem_of_nil. naive_solver.
Defined.
Lemma toyRun_sound l : R ∉ l -> sound toyGjson toyValues toy (toyRun l).
Proof.
  unfold toyRun. pose proof (sound_new toyGjson toyValues toy) as H0. revert H0. generalize NewSubscriptionRegistry as r.
  induction l as [|f l IH]; intros r H0 Hl; [done|]. apply not_elem_of_cons in Hl as [Hf Hl]. simpl. apply IH; [|done].
  destruct f as [f|f|]; [by apply client_sound|by apply endpoint_sound|done].
Qed.
Lemma toyBusy_sound : sound toyGjson toyValues toy toyBusy.
Proof. apply toyRun_sound. rewrite !elem_of_cons, elem_of_nil. naive_solver. Qed.

#[local] Abbreviation toyHonest := (honest toyGjson toyValues snd toy toyHash inOrder).
Lemma honest_client r f : toyHonest r -> toyHonest (toyC r f).
Proof. intros H. eapply rtc_r; [exact H|]. apply (HonestClient toyGjson toyValues snd toy toyHash inOrder r f 0). Qed.
Lemma honest_endpoint r f : isJSONArray f = false -> newID toy r f -> toyHonest r -> toyHonest (toyE r f).1.1.
Proof.
  intros Hj Hn H. eapply rtc_r; [exact H|]. apply (HonestEndpoint toyGjson toyValues snd toy toyHash inOrder r None f 0).
  by rewrite Hj.
Qed.
Lemma honest_rebind r : toyHonest r -> toyHonest (toyStep r R).
Proof.
  intros H. cbn [toyStep]. assert (toyHonest (toyReplay r).1) as H1
    by (eapply rtc_r; [exact H|]; apply (HonestRebind toyGjson toyValues snd toy toyHash inOrder r 0)).
  destruct (toyReplay r) as [r1 out]. cbn [fst] in H1. revert r1 H1. induction (Frames out) as [|f l IH]; intros r1 H1; [exact H1|].
  cbn [foldl]. apply IH. by apply honest_client.
Qed.
(** A client's subscription 7 that the next supplier calls 9. *)
Definition toyFirst : Registry := (toyE (toyC NewSubscriptionRegistry "sub:1") "ack:1:7").1.1.
Definition toySecond : Registry := toyStep toyFirst R.
Definition toyMoved : Registry := (toyE toySecond ("ack:" +:+ (replayID 1 +:+ ":9"))).1.1.
Lemma toyMoved_honest : toyHonest toyMoved.
Proof.
  apply (honest_endpoint toySecond); [reflexivity|vm_compute; by left|]. apply (honest_rebind toyFirst).
  apply (honest_endpoint (toyC NewSubscriptionRegistry "sub:1")); [reflexivity|vm_compute; done|].
  apply (honest_client NewSubscriptionRegistry). apply rtc_refl.
Qed.
Lemma notifications_reach_their_subscription_witness : (toyE toyMoved "dat:9:x").1.2 = Some "dat:7:x".
Proof.
  pose proof (notifications_reach_their_subscription toyGjson toyValues snd toy toyHash inOrder toyMoved None "dat:9:x" 0
    toyMoved_honest eq_refl eq_refl) as H.
  destruct (toyE toyMoved "dat:9:x") as [[r out] note]. destruct H as (H & _ & _). simpl.
  destruct (H "7" (mkSubscription "7" "9" "subscribe" "heads" true "sub:1" 0)) as [Ho _];
    [vm_compute; reflexivity|reflexivity|done|]. rewrite Ho. reflexivity.
Defined.
End Subscription.
