(* ===== verification/Cosmos.v ===== *)
(** * Cosmos: the plugin of Cosmos SDK chains

    Models [qos/cosmos/]: which face of a node a request goes to, the heights a
    request names and the pruned heights a host reports, selection, extraction,
    verdicts, immutability, method names and the classifier of CometBFT events.
    [net/url], [time.Parse], [fmt.Sscanf] and what [gjson] reads are parameters.
    A call has one reading of the clock and of the consensus. *)

From Stdlib Require Import Ascii.
From stdpp Require Import strings.
From S2P Require Import Prelude Float64 Domain Text Strconv RelayErrors Heuristic Message BlockConsensus QosSelector.
From S2P Require Import Retry HostMemory EvmRequest Evm Subscription.
Import GoStrings Domain RelayErrors Message BlockConsensus EvmRequest.

Module Cosmos.

(** ** What the source uses of [strings], [strconv] and [net/url] *)
Definition ParseUint10 (s : string) : option Z :=
  if bool_decide (s = "") then None
  else n ← Strconv.decimal 0 s; if bool_decide (n < 2 ^ 64) then Some n else None.
Definition TrimPrefix (s prefix : string) : string := if String.prefix prefix s then from (String.length prefix) s else s.
Fixpoint dropWhile (f : ascii -> bool) (s : string) : string :=
  match s with String c t => if f c then dropWhile f t else s | "" => "" end.
Definition reversed (s : string) : string := GoText.text (reverse (GoText.chars s)).
Definition Trim (s : string) (c : ascii) : string :=
  let cut x := Strconv.eqc x c in reversed (dropWhile cut (reversed (dropWhile cut s))).
Fixpoint Join (l : list string) (sep : string) : string :=
  match l with [] => "" | [s] => s | s :: l => s +:+ (sep +:+ Join l sep) end.
Definition firstSegment (s : string) : string :=
  match IndexByte s "/"%char with Some i => upto i s | None => s end.
Record url := mkURL { uPath : string; queryGet : string -> string }.
Record httpRequest := mkRequest { rMethod : string; rPath : string; rURI : string; rContentType : string }.
Definition MethodGet : string := "GET".
Definition MethodPost : string := "POST".
Definition RPCTypeWebSocket : string := "websocket".
Definition RPCTypeUnknown : string := "unknown".

(** ** [parser.go] *)
Definition cometBFTMethods : list string := [
  "status"; "health"; "net_info"; "genesis"; "genesis_chunked"; "block"; "block_by_hash"; "block_results"; "block_search";
  "blockchain"; "commit"; "header"; "header_by_hash"; "validators"; "consensus_params"; "consensus_state";
  "dump_consensus_state"; "tx"; "tx_search"; "unconfirmed_txs"; "num_unconfirmed_txs"; "broadcast_tx_sync";
  "broadcast_tx_async"; "broadcast_tx_commit"; "broadcast_evidence"; "check_tx"; "abci_info"; "abci_query"; "subscribe";
  "unsubscribe"; "unsubscribe_all"].
Definition cosmosPaths : list string := ["/cosmos/"; "/ibc/"; "/osmosis/"; "/noble/"].
Definition isCosmosRESTPath (path : string) : bool := existsb (λ p, String.prefix p path) cosmosPaths.
(** [strings.IndexAny] of a slash or a question mark. *)
Fixpoint uptoAny (s : string) : string :=
  match s with
  | String c t => if Strconv.eqc c "/" || Strconv.eqc c "?" then "" else String c (uptoAny t)
  | "" => ""
  end.
Definition grpcMethodFromPath (path : string) : string :=
  let trimmed := TrimPrefix path "/" in
  match LastIndexByte trimmed "/"%char with
  | None | Some O => ""
  | Some slash =>
      if bool_decide (S slash = String.length trimmed) then ""
      else
        let service := upto slash trimmed in
        let service := match LastIndexByte service "."%char with Some dot => from (S dot) service | None => service end in
        service +:+ ("/" +:+ from (S slash) trimmed)
  end.
Definition withRequestHTTP (p : Payload) (req : httpRequest) : Payload := WithHTTP p (rURI req) (rMethod req).
Definition cometBFTStatusPayload : Payload := WithHTTP (NewPayload "" Heuristic.RPCTypeCometBFT "status") "/status" MethodGet.
Definition evmBlockNumberPayload : Payload :=
  NewPayload (Evm.checkBody "eth_blockNumber" 1) Heuristic.RPCTypeJSONRPC "eth_blockNumber".
Definition restSyncingPayload : Payload :=
  WithHTTP (NewPayload "" Heuristic.RPCTypeREST "") "/cosmos/base/tendermint/v1beta1/syncing" MethodGet.

(** ** [methods.go] *)
Definition knownRESTTemplates : list string := [
  "/cosmos/base/tendermint/v1beta1/blocks/latest"; "/cosmos/base/tendermint/v1beta1/blocks/:var";
  "/cosmos/base/tendermint/v1beta1/node_info"; "/cosmos/base/tendermint/v1beta1/syncing";
  "/cosmos/base/tendermint/v1beta1/validatorsets/latest"; "/cosmos/base/tendermint/v1beta1/validatorsets/:var";
  "/cosmos/bank/v1beta1/balances/:var"; "/cosmos/bank/v1beta1/balances/:var/by_denom"; "/cosmos/bank/v1beta1/supply";
  "/cosmos/auth/v1beta1/accounts/:var"; "/cosmos/auth/v1beta1/account_info/:var"; "/cosmos/tx/v1beta1/txs";
  "/cosmos/tx/v1beta1/txs/:var"; "/cosmos/tx/v1beta1/txs/block/:var"; "/cosmos/tx/v1beta1/simulate";
  "/cosmos/staking/v1beta1/validators"; "/cosmos/staking/v1beta1/validators/:var"; "/cosmos/staking/v1beta1/delegations/:var";
  "/cosmos/distribution/v1beta1/delegators/:var/rewards"; "/cosmos/gov/v1/proposals"; "/cosmos/gov/v1/proposals/:var";
  "/cosmos/gov/v1beta1/proposals"; "/cosmos/gov/v1beta1/proposals/:var"; "/ibc/core/channel/v1/channels";
  "/ibc/core/client/v1/client_states"; "/ibc/apps/transfer/v1/denom_traces"; "/ibc/apps/transfer/v1/denom_traces/:var"].
Fixpoint allOf (f : ascii -> bool) (s : string) : bool := match s with String c t => f c && allOf f t | "" => true end.
Definition isDigits : string -> bool := allOf Strconv.isDigit.
Definition isHex : string -> bool := allOf Strconv.isHex.
Definition evmFaceProbes : list string := ["eth_blockNumber"; "eth_chainId"].
Definition MethodFamily (method : string) : list string := if has evmFaceProbes method then knownMethods else [].
Definition lightCalls : list string := ["status"; "health"; "abci_info"].
Definition heavyCalls : list string := ["abci_query"; "tx_search"; "block_results"].
Definition MethodClassOf (payload : Payload) : string :=
  let m := if bool_decide (Method payload = "") then TrimPrefix (Path payload) "/" else Method payload in
  if has lightCalls m then MethodClassLight
  else if has heavyCalls m then MethodClassHeavy
  else MethodClass m.

(** ** [pruned.go], the text *)
Definition prunedTTL : Z := hour.
Definition maxPrunedHosts : Z := 4096.
Definition heightMethods : list string :=
  ["block"; "block_results"; "commit"; "validators"; "consensus_params"; "header"; "abci_query"].
Definition restHeightPrefixes : list string :=
  ["/cosmos/base/tendermint/v1beta1/blocks/"; "/cosmos/base/tendermint/v1beta1/validatorsets/"; "/cosmos/tx/v1beta1/txs/block/"].
(** The first match of "lowest height is (\d+)", its group. *)
Definition lowestHeightAt (s : string) : option string :=
  if String.prefix "lowest height is " s then
    let '(d, _) := Heuristic.digits (from 17 s) in if bool_decide (d = "") then None else Some d
  else None.
Fixpoint lowestHeightRe (s : string) : option string :=
  match lowestHeightAt s with
  | Some d => Some d
  | None => match s with String _ t => lowestHeightRe t | "" => None end
  end.
Definition prunedLowestHeight (response : string) : option Z :=
  if bool_decide (response = "") then None
  else
    let response := if bool_decide (2048 < String.length response)%nat then upto 2048 response else response in
    d ← lowestHeightRe response;
    v ← ParseUint10 d;
    if bool_decide (v = 0) then None else Some v.
Definition parseHeightString (s : string) : option Z :=
  let s := GoText.TrimSpace s in
  if bool_decide (s = "") || GoText.EqualFold s "latest" then None
  else v ← ParseUint10 s; if bool_decide (v = 0) then None else Some v.
Definition positiveInt (s : string) : Z := default 0 (ParseUint10 (Trim s (ascii_of_nat 34))).

(** ** [verdict.go], the text *)
Definition query5xxPrefixes : list string :=
  ["/cosmwasm/wasm/v1/contract/"; "/cosmos/tx/v1beta1/txs/block/"; "/cosmos/tx/v1beta1/txs?"].
Definition isQuery5xxPath (path : string) : bool :=
  match List.find (λ p, String.prefix p path) query5xxPrefixes with
  | None => false
  | Some p => if bool_decide (p = "/cosmwasm/wasm/v1/contract/") then GoText.Contains path "/smart/" else true
  end.
Definition ReasonQuery5xx : string := "query_5xx".
Definition restLatestBlockPath : string := "/cosmos/base/tendermint/v1beta1/blocks/latest".
Definition restCanaryName : string := "rest_head_canary".
Definition restHeadCanary : Payload := WithHTTP (NewPayload "" Heuristic.RPCTypeREST "") restLatestBlockPath MethodGet.

(** ** [plugin.go], the state *)
Record cosmosEndpoint := mkEndpoint { BlockHeight : Z; epRPCType : string }.
Record Plugin := mkPlugin {
  supportedRPCTypes : list string; expectedChainID : string;
  tracking : QosSelector.HeightTracking; store : QosSelector.EndpointStore cosmosEndpoint; pruned : HostMemory.HostMemory Z
}.
Record Config := mkConfig { cSyncAllowance : Z; SupportedRPCTypes : list string; ExpectedChainID : string }.
Definition Validate (c : Config) : bool :=
  bool_decide (ExpectedChainID c = "") || bool_decide (GoText.TrimSpace (ExpectedChainID c) = ExpectedChainID c).
Definition NewPlugin (cfg : Config) (now : Z) : Plugin :=
  mkPlugin
    (if bool_decide (SupportedRPCTypes cfg = []) then [Heuristic.RPCTypeREST; Heuristic.RPCTypeCometBFT; Heuristic.RPCTypeJSONRPC]
     else SupportedRPCTypes cfg)
    (ExpectedChainID cfg)
    (QosSelector.SetSyncAllowance (QosSelector.mkTracking (NewBlockConsensus (cSyncAllowance cfg) now) 0) (cSyncAllowance cfg))
    QosSelector.NewEndpointStore (HostMemory.NewHostMemory prunedTTL maxPrunedHosts).
Definition head (p : Plugin) : Z := PerceivedBlock (QosSelector.Consensus (tracking p)).
Definition with_store (p : Plugin) s := mkPlugin (supportedRPCTypes p) (expectedChainID p) (tracking p) s (pruned p).
Definition with_pruned (p : Plugin) m := mkPlugin (supportedRPCTypes p) (expectedChainID p) (tracking p) (store p) m.
Definition with_tracking (p : Plugin) t := mkPlugin (supportedRPCTypes p) (expectedChainID p) t (store p) (pruned p).

Section Plugin.
Context (ToLower : string -> string) (g : Heuristic.Gjson) (vs : Values g) (IsObject : Heuristic.Result g -> bool).
Context (Num : Heuristic.Result g -> f64) (indexOf : Heuristic.Result g -> Z) (oor : f64 -> Z).
Context (ParseRequestURI Parse : string -> option url) (ParseTime Sscanf : string -> option Z).
Context (EffectiveTLDPlusOne : string -> option string).
#[local] Abbreviation Result := (Heuristic.Result g).

(** ** Faces *)
Definition isCometBFTMethod (method : string) : bool := has cometBFTMethods (ToLower method).
Definition isCometBFTPath (path : string) : bool :=
  let seg := uptoAny (TrimPrefix path "/") in
  negb (bool_decide (seg = "")) && has cometBFTMethods (ToLower seg).
Definition allCometBFTMethods (body : string) : bool :=
  let r := Heuristic.ParseBytes g body in
  if negb (IsArray vs r) then false
  else
    let els := Heuristic.members g r in
    negb (bool_decide (els = [])) && forallb (λ el, isCometBFTMethod (Heuristic.StringOf g (Heuristic.Get g el "method"))) els.
Definition faceType (supported : list string) (alt : string) : string :=
  if bool_decide (Heuristic.RPCTypeCometBFT ∈ supported) || negb (bool_decide (alt ∈ supported))
  then Heuristic.RPCTypeCometBFT else alt.
Definition jsonPost (req : httpRequest) (body : string) : bool :=
  bool_decide (rMethod req = MethodPost) && negb (bool_decide (body = "")) && Heuristic.ValidBytes g body.
Definition methodOf (body : string) : string := Heuristic.StringOf g (GetBytes g body "method").
Definition classifyRPCType (req : httpRequest) (body detected : string) (supported : list string) : string :=
  let path := rPath req in
  let generic := if negb (bool_decide (detected = RPCTypeUnknown)) && negb (bool_decide (detected = "")) then detected
                 else Heuristic.RPCTypeREST in
  if bool_decide (detected = Heuristic.RPCTypeGRPC) || String.prefix "application/grpc" (rContentType req)
  then Heuristic.RPCTypeGRPC
  else if isCosmosRESTPath path then Heuristic.RPCTypeREST
  else if isCometBFTPath path then faceType supported Heuristic.RPCTypeREST
  else if negb (bool_decide (rMethod req = MethodPost)) && (bool_decide (path = "/") || bool_decide (path = ""))
          && negb (bool_decide (detected = RPCTypeWebSocket))
  then faceType supported Heuristic.RPCTypeREST
  else if jsonPost req body then
    if negb (bool_decide (methodOf body = "")) then
      if isCometBFTMethod (methodOf body) then faceType supported Heuristic.RPCTypeJSONRPC else Heuristic.RPCTypeJSONRPC
    else if allCometBFTMethods body then faceType supported Heuristic.RPCTypeJSONRPC
    else generic
  else generic.
Definition parseRequest (req : httpRequest) (body rpcType : string) (supported : list string) : Payload :=
  let rpcType := if bool_decide (rpcType = RPCTypeUnknown) || bool_decide (rpcType = "")
                 then classifyRPCType req body RPCTypeUnknown supported else rpcType in
  if bool_decide (rpcType = Heuristic.RPCTypeGRPC) then
    WithContentType (withRequestHTTP (NewPayload body Heuristic.RPCTypeGRPC (grpcMethodFromPath (rPath req))) req) "application/grpc"
  else withRequestHTTP (NewPayload body rpcType (if jsonPost req body then methodOf body else "")) req.
Definition ParseRequest (quoted : string -> string) (p : Plugin) (req : httpRequest) (body rpcType : string)
    : error + list Payload :=
  let payload := parseRequest req body rpcType (supportedRPCTypes p) in
  if negb (bool_decide (RPCType payload ∈ supportedRPCTypes p)) then
    inl (RelayError ErrValidation ("cosmos: RPC type " +:+ (quoted (RPCType payload) +:+ " not supported by this service")) None false)
  else inr [payload].

(** ** Method names *)
Definition isVariableSegment (s : string) : bool :=
  if bool_decide (s = "") then false
  else if isDigits s then true
  else
    let h := TrimPrefix (TrimPrefix s "0x") "0X" in
    if bool_decide (8 <= String.length h)%nat && isHex h then true
    else match IndexByte s "1"%char with
         | Some (S i) => bool_decide (37 <= String.length s - S i)%nat && bool_decide (s = ToLower s)
         | _ => false
         end.
Definition templatePath (path : string) : string :=
  let path := match IndexByte path "?"%char with Some i => upto i path | None => path end in
  Join ((λ s, if isVariableSegment s then ":var" else s) <$> GoText.Split "/"%char path) "/".
Definition NormalizeMethod (payload : Payload) : string :=
  let m := Method payload in
  if negb (bool_decide (m = "")) then
    if has cometBFTMethods m then m else if KnownMethod m then m else MethodOther
  else
    let path := Path payload in
    if bool_decide (path = "") then ""
    else
      let tpl := templatePath path in
      if has knownRESTTemplates tpl then tpl
      else let cometBFTPath := TrimPrefix tpl "/" in
           if has cometBFTMethods cometBFTPath then cometBFTPath else MethodOther.

(** ** The height a request names *)
Definition parseHeightValue (v : Result) : option Z :=
  match Heuristic.Type_ g v with
  | Heuristic.String_ => parseHeightString (Heuristic.StringOf g v)
  | Heuristic.Number => if fleb (Num v) f0 then None else Some (to_uint64 oor (Num v))
  | _ => None
  end.
Definition heightFromJSONRPC (method body : string) : option Z :=
  let method := ToLower method in
  let params := GetBytes g body "params" in
  if negb (Heuristic.Exists g params) then None
  else if bool_decide (method = "blockchain") then parseHeightValue (Heuristic.Get g params "minHeight")
  else if has heightMethods method then
    if IsObject params then parseHeightValue (Heuristic.Get g params "height")
    else if IsArray vs params then
      match Array vs params with a :: _ => parseHeightValue a | [] => None end
    else None
  else None.
Fixpoint restHeight (path : string) (prefixes : list string) : option Z :=
  match prefixes with
  | [] => None
  | p :: rest => if String.prefix p path then parseHeightString (firstSegment (from (String.length p) path)) else restHeight path rest
  end.
Definition heightFromPath (rawPath : string) : option Z :=
  if bool_decide (rawPath = "") then None
  else
    u ← ParseRequestURI rawPath;
    let seg := ToLower (firstSegment (TrimPrefix (uPath u) "/")) in
    if bool_decide (seg = "blockchain") then parseHeightString (queryGet u "minHeight")
    else if has heightMethods seg then parseHeightString (queryGet u "height")
    else restHeight (uPath u) restHeightPrefixes.
Definition requestedHeight (p : Payload) : option Z :=
  if negb (bool_decide (Method p = "")) then heightFromJSONRPC (Method p) (Bytes p) else heightFromPath (Path p).

(** ** Selection *)
Definition rpcTypeFilter (p : Plugin) (requested : string) : list QosSelector.FilterFunc :=
  if negb (bool_decide (requested = "")) && negb (bool_decide (requested = RPCTypeUnknown)) then
    [λ e, match QosSelector.Get (store p) e with
          | None => true
          | Some ep => negb (negb (bool_decide (epRPCType ep = "")) && negb (bool_decide (epRPCType ep = requested)))
          end]
  else [].
Definition heightFilter (p : Plugin) (height now : Z) : QosSelector.FilterFunc := λ e,
  match HostMemory.Get (pruned p) (Domain.Domain e) now with None => true | Some lowest => bool_decide (lowest <= height) end.
Definition retention (p : Plugin) (payloads : list Payload) (now : Z) : list QosSelector.FilterFunc :=
  match payloads with
  | [] => rpcTypeFilter p ""
  | first :: _ =>
      rpcTypeFilter p (RPCType first) ++
      match requestedHeight first with Some height => [heightFilter p height now] | None => [] end
  end.
Definition heights (p : Plugin) (now : Z) : QosSelector.HeightFn :=
  QosSelector.HeightGetter oor (store p) BlockHeight (Projection (QosSelector.Consensus (tracking p))) now.
Definition SelectEndpoints (p : Plugin) (eps : EndpointAddrList) (payloads : list Payload) (now : Z) : EndpointAddrList :=
  if bool_decide (length eps = 0)%nat then []
  else
    let allowance := QosSelector.SyncAllowance (tracking p) in
    let getHeight := heights p now in
    let makeBlockFilter a := QosSelector.BlockHeightFilter getHeight (QosSelector.MinAllowedHeight (head p) a) in
    let others := retention p payloads now in
    QosSelector.Endpoints_ (QosSelector.SelectWithKnownHeights getHeight eps (makeBlockFilter allowance :: others)
      (Some (makeBlockFilter (u64 (allowance * 2)) :: others)) (Some others)
      (Some (QosSelector.LeastStaleFallback getHeight (head p)))).
Definition AllStale (p : Plugin) (eps : EndpointAddrList) (now : Z) : bool :=
  QosSelector.AllStaleBy (tracking p) eps (heights p now).

(** ** Heights, extraction *)
Definition observeHeight (p : Plugin) (e : EndpointAddr) (h now : Z) : Plugin :=
  with_store p (QosSelector.ObserveHeight (mkEndpoint 0 "") (store p) e (λ ep, mkEndpoint h (epRPCType ep)) now).
Definition UpdateBlockHeight (p : Plugin) (st : owners) (e : EndpointAddr) (h now : Z) : Plugin :=
  let p := observeHeight p e h now in
  with_tracking p (QosSelector.mkTracking
    (AddObservation (Party EffectiveTLDPlusOne st) (QosSelector.Consensus (tracking p)) e h now)
    (QosSelector.htAllowance (tracking p))).
Definition storeRefusedHeight (p : Plugin) (e : EndpointAddr) (h now : Z) : Plugin :=
  if bool_decide (0 < h) then observeHeight p e h now else p.
Definition cometField (response path : string) : Result :=
  let v := GetBytes g response ("result." +:+ path) in
  if Heuristic.Exists g v then v else GetBytes g response path.
Definition parseDecimalString (s : string) : option Z := if bool_decide (s = "") then None else Sscanf s.
Definition parseBlockHeight (response : string) : option Z :=
  if bool_decide (response = "") then None
  else
    let h := cometField response "sync_info.latest_block_height" in
    if Heuristic.Exists g h then parseDecimalString (Heuristic.StringOf g h) else None.
Definition parseChainID (response : string) : option string :=
  if bool_decide (response = "") then None
  else
    let network := cometField response "node_info.network" in
    if negb (Heuristic.Exists g network) || negb (isString g network) then None
    else let id := Heuristic.StringOf g network in if bool_decide (id = "") then None else Some id.
Inductive extractError := Empty | NotJSON | NoHeight | Implausible (h : Z) | WrongChain (want got : string).
Definition assertChainID (p : Plugin) (reported : string) : option extractError :=
  if bool_decide (expectedChainID p = "") || bool_decide (reported = expectedChainID p) then None
  else Some (WrongChain (expectedChainID p) reported).
Definition noData : Evm.ExtractedData := Evm.mkExtracted None None None.
Definition learnPruned (p : Plugin) (e : EndpointAddr) (response : string) (now : Z) : Plugin :=
  match prunedLowestHeight response with
  | Some lowest => with_pruned p (HostMemory.Set_ (pruned p) (Domain.Domain e) lowest now)
  | None => p
  end.
Definition ExtractData (evmHeights : bool) (p : Plugin) (e : EndpointAddr) (request response : string) (now : Z)
    : Plugin * (extractError + Evm.ExtractedData) :=
  if bool_decide (response = "") then (p, inl Empty)
  else if negb (Heuristic.ValidBytes g response) then (p, inl NotJSON)
  else if evmHeights && bool_decide (methodOf request = "eth_blockNumber") then
    if bool_decide (Heuristic.Int g (GetBytes g response "error.code") = -32601) then (p, inr noData)
    else match ParseBlockNumber g response with
         | None => (p, inl NoHeight)
         | Some h =>
             if negb (IsPlausibleBlockHeight h) then (storeRefusedHeight p e h now, inl (Implausible h))
             else (p, inr (Evm.mkExtracted (Some h) None None))
         end
  else
    let p := learnPruned p e response now in
    let chainID := parseChainID response in
    match (match chainID with Some id => assertChainID p id | None => None end) with
    | Some err => (p, inl err)
    | None =>
        match parseBlockHeight response with
        | None => (p, inr (Evm.mkExtracted None chainID None))
        | Some h =>
            if negb (IsPlausibleBlockHeight h) then (storeRefusedHeight p e h now, inl (Implausible h))
            else (p, inr (Evm.mkExtracted (Some h) chainID None))
        end
    end.
Definition ResetState (p : Plugin) (now : Z) : Plugin :=
  mkPlugin (supportedRPCTypes p) (expectedChainID p)
    (QosSelector.mkTracking (Reset (QosSelector.Consensus (tracking p)) now) (QosSelector.htAllowance (tracking p)))
    (QosSelector.Clear (store p)) (HostMemory.Reset (pruned p)).

(** ** Verdicts *)
Definition rootAnswer : AnalysisResult :=
  mkAnalysis false false false SeverityNone AttrClient (lit 8 10) ReasonSuccess "the node's HTML route index, the answer to GET /" false 0 0.
Definition queryAnswer (reason : string) : AnalysisResult :=
  mkAnalysis false false false SeverityNone AttrBlockchain (lit 7 10) ReasonQuery5xx
    ("5xx on a route the node answers 5xx to for a query it cannot serve (" +:+ (reason +:+ "): delivered, not retried, nobody scored"))
    false 0 0.
Definition RefineVerdict (evmHeights : bool) (p : Plugin) (payload : Payload) (result : AnalysisResult) : option AnalysisResult :=
  let bc := QosSelector.Consensus (tracking p) in
  let evmFace := evmHeights && bool_decide (RPCType payload = Heuristic.RPCTypeJSONRPC) in
  match (if evmFace then RefusalVerdict ToLower g vs payload result (head p) (Some (BlocksIn oor bc)) else (result, false, "")) with
  | (refined, true, _) => Some refined
  | _ =>
      if bool_decide (Reason result = "html_response") && negb (bool_decide (HTTPMethod payload = MethodPost)) &&
         (bool_decide (Path payload = "/") || bool_decide (Path payload = "")) then Some rootAnswer
      else if (negb (bool_decide (Reason result = "http_5xx")) && negb (bool_decide (Reason result = "upstream_5xx"))) ||
              negb (bool_decide (HTTPStatus result = 500)) then None
      else if negb (bool_decide (RPCType payload = Heuristic.RPCTypeREST)) || negb (isQuery5xxPath (Path payload)) then None
      else Some (queryAnswer (Reason result))
  end.

(** ** The head an answer names *)
Definition isCometCall (payload : Payload) (name : string) : bool :=
  if bool_decide (HTTPMethod payload = MethodGet) then bool_decide (Path payload = "/" +:+ name)
  else bool_decide (Method payload = name).
Definition namesHeight (body : string) : bool :=
  let params := GetBytes g body "params" in
  let h := if IsArray vs params then Heuristic.Get g params "0" else Heuristic.Get g params "height" in
  Heuristic.Exists g h && negb (bool_decide (Heuristic.StringOf g h = "")).
Definition headTime (payload : Payload) (response : string) : option Z :=
  v ← (if bool_decide (Path payload = restLatestBlockPath) then
         let v := GetBytes g response "block.header.time" in
         Some (if Heuristic.Exists g v then v else GetBytes g response "sdk_block.header.time")
       else if isCometCall payload "status" then Some (cometField response "sync_info.latest_block_time")
       else if isCometCall payload "block" && negb (namesHeight (Bytes payload)) then Some (cometField response "block.header.time")
       else None);
  t ← ParseTime (Heuristic.StringOf g v);
  if GoTime.IsZero t then None else Some t.
Definition HeadLag (toDuration : f64 -> Z) (evmHeights : bool) (p : Plugin) (payload : Payload) (response : string) (now : Z)
    : Z * bool * bool :=
  let bc := QosSelector.Consensus (tracking p) in
  let byTime := match headTime payload response with None => (0, false, false) | Some ts => StateLag oor toDuration bc ts now end in
  if evmHeights && bool_decide (RPCType payload = Heuristic.RPCTypeJSONRPC) then
    match Evm.HeadLagOf g oor toDuration bc payload response now with (lag, stale, true) => (lag, stale, true) | _ => byTime end
  else byTime.
Definition HealthChecks (evmHeights stateCanary : bool) (unix : Z) : list Evm.HealthCheck :=
  [Evm.mkCheck "comet_bft_status" cometBFTStatusPayload true 0 false; Evm.mkCheck "rest_syncing" restSyncingPayload false 0 false] ++
  (if evmHeights then [Evm.mkCheck "evm_block_number" evmBlockNumberPayload false 0 false] else []) ++
  (if stateCanary then Evm.mkCheck restCanaryName restHeadCanary false 0 true :: (if evmHeights then [Evm.CanaryCheck unix] else []) else []).

(** ** Immutability *)
Definition cometCall (payload : Payload) : string * Z * string :=
  if bool_decide (HTTPMethod payload = "GET") || bool_decide (Bytes payload = "") then
    match Parse (Path payload) with
    | None => ("", 0, "")
    | Some u => (ToLower (Trim (uPath u) "/"), positiveInt (queryGet u "height"), Trim (queryGet u "hash") (ascii_of_nat 34))
    end
  else
    let params := GetBytes g (Bytes payload) "params" in
    let '(h, hs) := if IsArray vs params then (Heuristic.Get g params "0", Heuristic.Get g params "0")
                    else (Heuristic.Get g params "height", Heuristic.Get g params "hash") in
    (ToLower (Method payload), positiveInt (Heuristic.StringOf g h), Heuristic.StringOf g hs).
Definition isImmutableRESTPath (rawPath : string) : bool :=
  match Parse rawPath with
  | None => false
  | Some u =>
      match GoText.Split "/"%char (Trim (uPath u) "/") with
      | [a; b; c; d; e] =>
          if bool_decide (Join [a; b; c; d] "/" = "cosmos/base/tendermint/v1beta1") &&
             (bool_decide (e = "blocks") || bool_decide (e = "validatorsets")) then false
          else if bool_decide (Join [a; b; c; d] "/" = "cosmos/tx/v1beta1/txs") then isHex e
          else false
      | [a; b; c; d; e; f] =>
          if bool_decide (Join [a; b; c; d] "/" = "cosmos/base/tendermint/v1beta1") &&
             (bool_decide (e = "blocks") || bool_decide (e = "validatorsets")) then bool_decide (0 < positiveInt f)
          else if bool_decide (Join [a; b; c; d; e] "/" = "cosmos/tx/v1beta1/txs/block") then bool_decide (0 < positiveInt f)
          else false
      | _ => false
      end
  end.
Definition IsImmutable (payload : Payload) : bool :=
  if bool_decide (RPCType payload = Heuristic.RPCTypeREST) then isImmutableRESTPath (Path payload)
  else if bool_decide (RPCType payload = Heuristic.RPCTypeJSONRPC) || bool_decide (RPCType payload = Heuristic.RPCTypeCometBFT) then
    let '(method, height, hash) := cometCall payload in
    if has ["block"; "header"; "commit"; "block_results"; "validators"] method then bool_decide (0 < height)
    else if has ["block_by_hash"; "header_by_hash"; "tx"] method then negb (bool_decide (hash = ""))
    else false
  else false.

(** ** Events *)
Definition cometEvent (data : string) : string :=
  let query := Heuristic.StringOf g (GetBytes g data "params.query") in
  let query := if bool_decide (query = "") then Heuristic.StringOf g (GetBytes g data "params.0") else query in
  let '(_, rest, ok) := Cut query "tm.event" in
  if negb ok then ""
  else match dropWhile (λ c, Strconv.eqc c " " || Strconv.eqc c "=") rest with
       | String q t => if Strconv.eqc q "'" || Strconv.eqc q (ascii_of_nat 34) then (Cut t (String q "")).1.1 else ""
       | "" => ""
       end.
Definition ClassifyClientFrame (data : string) : Subscription.ClientFrameInfo :=
  let method := Subscription.JSONRPCMethod g data in
  if bool_decide (method = "subscribe") then
    let event := cometEvent data in
    Subscription.mkClientInfo Subscription.SubscriptionSubscribe (Subscription.JSONRPCRequestID g vs data) method event
      (bool_decide (event = "NewBlock") || bool_decide (event = "NewBlockHeader")) "" Subscription.noSpan Subscription.FeedNone
  else if bool_decide (method = "unsubscribe") || bool_decide (method = "unsubscribe_all") then
    Subscription.mkClientInfo Subscription.SubscriptionUnsubscribeAll "" method "" false "" Subscription.noSpan Subscription.FeedNone
  else Subscription.noClientInfo.
Definition ClassifyEndpointFrame (data : string) : Subscription.EndpointFrameInfo :=
  let id := Subscription.JSONRPCRequestID g vs data in
  let response sid err := Subscription.mkEndpointInfo Subscription.EndpointFrameResponse id sid Subscription.noSpan err in
  if bool_decide (id = "") then Subscription.noEndpointInfo
  else if Subscription.JSONRPCHasError g data then response "" true
  else
    let result := GetBytes g data "result" in
    if negb (Heuristic.Exists g result) || negb (IsObject result) then response "" false
    else if Heuristic.Exists g (Heuristic.Get g result "query") && Heuristic.Exists g (Heuristic.Get g result "data") then
      Subscription.mkEndpointInfo Subscription.EndpointFrameNotification "" id (Subscription.JSONRPCRequestIDSpan g vs indexOf data) false
    else response id false.
Definition classifier : Subscription.Classifier := Subscription.mkClassifier ClassifyClientFrame ClassifyEndpointFrame.

(** ** The plugin's states *)
Inductive step (p : Plugin) : Plugin -> Prop :=
| Update st e h now : step p (UpdateBlockHeight p st e h now)
| Extract evmHeights e request response now : step p (ExtractData evmHeights p e request response now).1
| ResetStep now : step p (ResetState p now).
Definition reachable (p : Plugin) : Prop := exists cfg now, rtc step (NewPlugin cfg now) p.
(** Nothing writes an endpoint's type, and the pruned memory keeps its hour. *)
Definition untyped (p : Plugin) : Prop :=
  map_Forall (λ _ s, epRPCType (QosSelector.Data s) = "") (QosSelector.endpoints (store p)) /\ HostMemory.ttl (pruned p) = prunedTTL.
Lemma observe_untyped p e h now : untyped p -> untyped (observeHeight p e h now).
Proof.
  intros [Hs Ht]. split; [|done]. simpl. apply map_Forall_insert_2; [|done]. simpl.
  destruct (QosSelector.endpoints (store p) !! e) as [s|] eqn:E; [by apply (Hs e s)|done].
Qed.
Lemma refused_untyped p e h now : untyped p -> untyped (storeRefusedHeight p e h now).
Proof. unfold storeRefusedHeight. case_bool_decide; [apply observe_untyped|done]. Qed.
Lemma set_ttl (m : HostMemory.HostMemory Z) host v now : HostMemory.ttl (HostMemory.Set_ m host v now) = HostMemory.ttl m.
Proof. unfold HostMemory.Set_, HostMemory.SetUntil. by case_bool_decide. Qed.
Lemma learn_untyped p e response now : untyped p -> untyped (learnPruned p e response now).
Proof.
  unfold learnPruned. destruct (prunedLowestHeight response); [|done]. intros [Hs Ht]. split; [done|]. simpl. by rewrite set_ttl.
Qed.
Lemma extract_untyped evmHeights p e request response now : untyped p -> untyped (ExtractData evmHeights p e request response now).1.
Proof.
  intros Hp. unfold ExtractData. repeat (case_match; try done; simpl); auto using refused_untyped, learn_untyped.
Qed.
Lemma reachable_untyped p : reachable p -> untyped p.
Proof.
  intros (cfg & now & H). assert (untyped (NewPlugin cfg now)) as H0 by (split; [apply map_Forall_empty|done]). revert H0.
  induction H as [p|p1 p2 p3 Hs _ IH]; [done|]. intros H0. apply IH. destruct Hs as [st e h t|ev e req resp t|t].
  - by apply observe_untyped.
  - by apply extract_untyped.
  - split; [apply map_Forall_empty|apply H0].
Qed.
(** So the filter by type lets every endpoint through. *)
Lemma type_filter_never_filters p requested f e : reachable p -> f ∈ rpcTypeFilter p requested -> f e = true.
Proof.
  intros [Hs _]%reachable_untyped. unfold rpcTypeFilter. destruct (_ && _); [|by intros []%elem_of_nil].
  intros ->%list_elem_of_singleton. unfold QosSelector.Get. destruct (QosSelector.endpoints (store p) !! e) as [s|] eqn:E; [|done].
  simpl. by rewrite (Hs e s E).
Qed.


(** ** Faces *)
Lemma face_declared supported alt : Heuristic.RPCTypeCometBFT ∈ supported \/ alt ∈ supported -> faceType supported alt ∈ supported.
Proof.
  unfold faceType. intros H. case_bool_decide; [done|]. case_bool_decide; simpl; [done|]. by destruct H.
Qed.
Lemma comet_faces req body detected supported :
  detected <> Heuristic.RPCTypeGRPC -> String.prefix "application/grpc" (rContentType req) = false -> isCosmosRESTPath (rPath req) = false ->
  (isCometBFTPath (rPath req) = true -> classifyRPCType req body detected supported = faceType supported Heuristic.RPCTypeREST) /\
  (isCometBFTPath (rPath req) = false -> jsonPost req body = true -> methodOf body <> "" -> isCometBFTMethod (methodOf body) = true ->
     classifyRPCType req body detected supported = faceType supported Heuristic.RPCTypeJSONRPC).
Proof.
  intros Hg Hc Hr. unfold classifyRPCType. rewrite Hc, Hr, (bool_decide_eq_false_2 (detected = _)) by done. cbn [orb]. split.
  - by intros ->.
  - intros -> Hj Hm Hb. rewrite Hj. assert (rMethod req = MethodPost) as ->
      by (unfold jsonPost in Hj; by apply andb_true_iff in Hj as [[Hj%bool_decide_eq_true _]%andb_true_iff _]).
    rewrite (bool_decide_eq_true_2 (MethodPost = MethodPost)) by done. cbn [negb andb].
    by rewrite (bool_decide_eq_false_2 (methodOf body = "")), Hb by done.
Qed.
(** A request is sent as it came, on a face the service declares, or refused as
    invalid; a type settled before is kept. *)
Lemma requests_keep_their_face quoted p req body rpcType :
  match ParseRequest quoted p req body rpcType with
  | inr ps => exists pl, ps = [pl] /\ RPCType pl ∈ supportedRPCTypes p /\ Bytes pl = body /\ Path pl = rURI req /\
                HTTPMethod pl = rMethod req /\ (rpcType <> "" -> rpcType <> RPCTypeUnknown -> RPCType pl = rpcType)
  | inl e => exists m, e = RelayError ErrValidation m None false
  end.
Proof.
  unfold ParseRequest. set (pl := parseRequest _ _ _ _). case_bool_decide as Hin; cbn [negb]; [|by eexists].
  exists pl. assert (Bytes pl = body /\ Path pl = rURI req /\ HTTPMethod pl = rMethod req) as (? & ? & ?)
    by (unfold pl, parseRequest; by case_match).
  split_and!; try done. intros Hne1 Hne2. unfold pl, parseRequest. rewrite !(bool_decide_eq_false_2 (rpcType = _)) by done. cbn [orb].
  by case_bool_decide as Hgrpc.
Qed.

(** ** Verdicts *)
Lemma refine_fair evmHeights p payload v v' : RefineVerdict evmHeights p payload v = Some v' -> fair v'.
Proof.
  unfold RefineVerdict. destruct (if evmHeights && _ then _ else _) as [[r [|]] sk] eqn:E.
  - intros [= <-]. destruct (evmHeights && _); [|done]. by eapply refusal_fair.
  - repeat (case_match; try done); intros [= <-]; by intros ?.
Qed.
(** A 5xx becomes the chain's answer only as a 500 on a route whose queries fail
    that way. *)
Lemma only_500s_are_answers evmHeights p payload v v' :
  RefineVerdict evmHeights p payload v = Some v' -> Reason v' = ReasonQuery5xx ->
  HTTPStatus v = 500 /\ RPCType payload = Heuristic.RPCTypeREST /\ isQuery5xxPath (Path payload) = true /\ ShouldPenalize v' = false.
Proof.
  unfold RefineVerdict. destruct (if evmHeights && _ then _ else _) as [[r [|]] sk] eqn:E.
  - intros [= <-] Hq. destruct (evmHeights && _); [|done]. by apply refusal_shape in E as (details & ->).
  - clear E. destruct (_ && _); [by intros [= <-]|]. destruct (_ || negb (bool_decide (HTTPStatus v = 500))) eqn:E1; [done|].
    destruct (negb _ || negb (isQuery5xxPath _)) eqn:E2; [done|].
    apply orb_false_iff in E1 as [_ E1%negb_false_iff%bool_decide_eq_true].
    apply orb_false_iff in E2 as [E2%negb_false_iff%bool_decide_eq_true E3%negb_false_iff]. by intros [= <-] _.
Qed.

(** ** The interfaces the stages ask for *)
Section Interfaces.
Context {W : Type} (pluginOf : W -> Plugin) (evmHeights : W -> bool) (Now : W -> Z).
Program Definition selector : Retry.Selector W Payload :=
  Retry.mkSelector (λ w eps ps, Some (SelectEndpoints (pluginOf w) eps ps (Now w))) _.
Next Obligation.
  intros w eps ps kept [= <-]. unfold SelectEndpoints. case_bool_decide; [apply submseteq_nil_l|apply QosSelector.tiers_kept].
Qed.
Program Definition refiner : Retry.Refiner W Payload :=
  Retry.mkRefiner (λ w _ p v, RefineVerdict (evmHeights w) (pluginOf w) p v) _.
Next Obligation. intros w ep p v v' H _. exact (refine_fair _ _ _ _ _ H). Qed.
End Interfaces.
End Plugin.

(** The wording of a pruned node, and a body cut off within its number: the
    height read is lower than the node's. *)
Lemma pruned_wording_is_read :
  prunedLowestHeight "height 17 is not available, lowest height is 25000000" = Some 25000000.
Proof. vm_compute. reflexivity. Qed.
Definition spaces (n : nat) : string := GoText.text (repeat " "%char n).
Lemma cut_height_is_misread : prunedLowestHeight (spaces 2028 +:+ "lowest height is 25000000") = Some 250.
Proof. vm_compute. reflexivity. Qed.

Definition demoTree (s : string) : tree :=
  Object_ [("method", Text "block"); ("params", Object_ [("height", Text "17")])].
Definition demoObject (t : tree) : bool := match t with Object_ _ => true | _ => false end.
Definition demoFirst : Payload := NewPayload "block" Heuristic.RPCTypeCometBFT "block".
Definition demoPool : EndpointAddrList := ["s1-https://a.net"; "s2-https://b.net"].
Definition demoPlugin : Plugin := NewPlugin (mkConfig 5 [] "") 0.
End Cosmos.
